(* ===== verification/_CoqProject ===== *)
-Q . S2P
Prelude.v
Bytes.v
Crc32c.v
WalRecord.v
FileSys.v
WalSegment.v
WalStore.v
WalRetention.v
WalPaths.v
Sha256.v
SdsFrame.v
SdsSchema.v
SdsRegistry.v
SdsStream.v
SdsTx.v
SdsIndex.v
LruCache.v
SdsView.v
ObjectStore.v
WalTrim.v
WalStream.v
WalStreamInv.v
WalStreamRecover.v
WalStreamStore.v
WalTail.v
WalBuffer.v
WalAppend.v
WalServer.v
WalServerInv.v
WalService.v
WalClient.v
WalClientInv.v
WalReplication.v
VolRows.v
VolStaging.v
VolNamespace.v
VolLogic.v
VolOps.v
VolCalls.v
VolChanges.v
VolRuns.v
VolTree.v
VolRooted.v
VolFaults.v
