(* ===== verification/Prelude.v ===== *)
(** * In-cluster storage: a verification library

    The program is a storage system for Kubernetes.  Its write-ahead log
    ([pkg/wal]) keeps records in segment files; a client appends to its local
    log and replicates to a buffer service, which commits the records of many
    streams to one log, flushes it to object storage in aggregated segments and
    sorts the records into files per stream; structured data streams
    ([pkg/sds]) encode typed rows and transactions as records of such a log;
    a local index materialises the rows of a stream, and a view
    ([pkg/sds/view]) serves reads while it writes committed changes to the
    index behind the writer's back.  The file system of volumes
    ([pkg/objectfs]) is built on views: its controller keeps inodes, directory
    entries, chunks and extended attributes as rows and changes them in
    transactions.  The library models the log, the streams, the view and the
    namespace of a volume, bottom up: each layer up to the view is proved
    against the interface of the one below, and the volume is stated over the
    latest rows, which is what a view is proved to serve.

    ** Files

    - [Prelude], [Bytes]: results, machine integers, lists, tactics; the
      integer and name encodings of Go's standard library.
    - [Crc32c], [Sha256]: the checksum of WAL records and the digest of
      fingerprints, as executable functions.
    - [WalRecord]: [wal/header.go] and [wal/record.go], encoders and decoders of
      segment headers and of the two record formats ([SegmentFormat] is what
      the stores need of a format).
    - [FileSys]: the directory calls of [os], with an explicit list of outcomes,
      so that any call can fail and a crash loses what was not synced of a
      file's content (the names in a directory survive: see below).
    - [WalSegment]: [wal/segment.go], scanning with tail recovery, the client
      and log segment stores, rotation, reading, retention, truncation.
    - [WalStore], [WalRetention]: theorems on the stores; [WalPaths]: the file
      names and object keys of [wal/segment.go]; [WalTrim]: what deleting
      segments leaves of a log.
    - [ObjectStore]: [objectstore/objectstore.go] as the class [Backend] with
      its laws, and the in-memory backend that satisfies them.
    - [WalStream]: [wal/buffer/stream_store.go] and [segments.go], the files of a
      stream (pending, open, sealed, uploaded), discovery, recovery, coverage
      and garbage collection; [WalStreamInv], [WalStreamRecover],
      [WalStreamStore]: the invariant of a stream's files and that every
      operation keeps it; [WalTail]: the reading loop of [tailPerStream];
      [WalBuffer]: the theorems on the files of streams; [WalAppend]: the retry
      loop of [AppendRecords] beside the eviction of writers, with the writers as
      objects that both share.
    - [WalServer]: [wal/buffer/server.go], the handlers of the buffer service,
      group commit, flush and start; [WalServerInv], [WalService]: its invariant
      and its theorems.
    - [WalClient]: [wal/client/client.go]; [WalClientInv]: its invariant and its
      theorems; [WalReplication]: a client and the service joined by a
      connection.
    - [SdsFrame]: [sds/record/frame.go]; [SdsSchema]: [compatibility.go];
      [SdsRegistry]: [fingerprint.go] and [registry.go]; [SdsStream]:
      [writer.go] and [decoder.go], with [Appender] as the transport.
    - [SdsTx]: [sds/keys.go], [types.go], [writer.go], [reader.go] and the
      feeding loop of [wal.go]: rows, transactions, committed changes.
    - [SdsIndex]: the contract of [sds/index.go] ([LocalIndex],
      [LocalIndexLaw]) and [memtable/memtable.go], which discharges it.
    - [LruCache]: [view/cache.go], the doubly linked list in an explicit heap.
    - [SdsView]: [view/view.go] and [view/applier.go] over the contracts of an
      index and of a read cache ([ReadCache], [ReadCacheLaw]).
    - [VolRows], [VolStaging], [VolNamespace]:
      [objectfs/controller/volume.go], with [aggregator.go] and the cached inode
      of [metadata_cache.go]: the rows, the read set of a transaction, the
      statistics, the state of a volume and the calls on names, attributes,
      links, handles and orphans, in a monad [M] of state and errors whose
      external calls fail as a list of replies says; the staged writes as far as
      these calls touch them; the end of a load.
    - [VolLogic]: rules for the weakest precondition of these calls; [VolOps]:
      the exact changes each call commits; [VolCalls]: the calls as one type and
      their failures; [VolChanges]: statistics and row invariants under a list
      of changes; [VolRuns]: runs of calls and loads; [VolTree]: link counts;
      [VolRooted]: the cycle check and reachability; [VolFaults]: runs that
      break the tree.

    Records model structs and keep the field names with a prefix; methods are
    functions named [Type_Method], or [Method] where that is unambiguous.
    Errors are values of [result]; a nil dereference or an index out of range
    is [None] where it could occur.  Bytes are [list Byte.byte], integers are
    [Z] with their wrap-around written out where it can matter.

    ** What the theorems show

    - Log: the segment stores refine a list of records with a durable prefix
      under appends, syncs, rotation and crashes; recovery keeps exactly the
      valid prefix of a damaged file; rollback, retention and reading do what
      they say; records and names round-trip and corruption is detected.
    - Replication: from the first start of the service on a working disk, with
      object storage failing at any call and each record queued once and in
      order, an acknowledged record survives a crash, a subscriber sees each
      record once and in order, and a restart restores the files of streams;
      garbage collection deletes an aggregated segment only when its records are
      in sealed, synced files on the service's disk, uploaded or not.  An append
      to the files of streams ends beside any evictions and takes effect once.
      A client keeps every accepted record that is not permanent, through
      crashes and rollbacks; what it has waited for survives its crash.  Joined,
      the committed records of a stream are an initial part of what the client
      has accepted, in order and each once, and a wait that returns is true.
    - Streams: frames round-trip; an evolution that follows the documented rules
      is accepted, and without groups and maps of enums nothing else is;
      registries stay consistent and survive export and import; types are
      announced before use under any failing appends; rows without unknown
      fields round-trip through key and value bytes; the change reader yields
      exactly the committed changes, and restarting at its safe position loses
      nothing.
    - Index and view: the in-memory index holds exactly the successful batches;
      the cache is a list ordered by recency within its limits; at every moment
      a view reads and scans the latest rows, its index is the state at a
      transaction boundary, and its queue drains, with or without statistics.
    - Volume: a call commits all of its changes or none, wherever an external
      call fails; over any run of calls and loads no call panics, the live
      statistics are exactly those of the rows while the counters can hold them,
      and no inode number is given twice; within the stated conditions the link counts are the numbers of
      names and subdirectories, every directory has one name and stays
      reachable, and the cycle check of a rename ends and decides.
    - The modules [Loss] and [Runs] of [WalBuffer] and [WalService],
      [ClientRuns] of [WalClientInv], [VolFaults] and the last theorems of
      [SdsSchema] exhibit behaviours the code has and should not have, on
      concrete inputs.

    ** Hypotheses and parameters

    The protobuf runtime is a parameter ([ProtoLib], [StreamLib], [Wire]): its
    laws ([WireLaw], [MessageLaw]) say that what is marshalled unmarshals to the
    same value and that merging disjoint parts of a message restores it.  Each
    is discharged by a concrete instance in the examples that witness the
    theorems.  UUIDs ([UuidLib], [UuidLaw]: printing is injective and parsing
    inverts it) and object storage ([Backend], [BackendLaw]: a call that
    succeeds has its documented effect, one that fails changes nothing or has
    the effect) are parameters too.  The service is proved for clients that
    send the records of a stream in increasing order and each once, on a disk
    that works, with positions below the limit 10^19 of the local file names;
    [WalReplication] shows that the client sends so when its appends do not
    overlap and a hello is answered after the service has committed what it
    received of the stream.  The code ensures neither: it answers a hello at
    once, and [duplicate_in_flight_loses_record] and
    [overlapping_appends_lose_record] show what happens otherwise.  A crash
    keeps of each file at least what was synced and keeps the names in
    directories, although the code never syncs a directory.  The runs of a volume leave room for the inode numbers (below
    2^64) and for the counters; [call_fits] excludes the calls that [VolFaults]
    shows to break link counts, and [steps_remember] asks that a rename finds
    the parents of the directories above its target remembered.  Fuel:
    [ScanSegmentFile] and the reading loops take the length of the file, and
    every record takes at least one byte; the compatibility check
    takes the number of pairs of messages, each visited once; [batch_limit]
    takes the length of the queue, and each round advances; [evict_loop] takes
    the number of entries, and each round removes one; [ancestor_walk] takes one
    step more than there are remembered parents, which is enough exactly when
    the walk of the code ends.  The theorems about
    these functions show that the fuel is not exhausted.

    ** Not modelled

    The process layers: gRPC itself, the controller's services, FUSE, CSI, the
    S3, GCS and file-system backends, and the commands.  Of the WAL client:
    dialling, backoff and the client side of a tail; a restart of the service
    after a crash is proved for the files of the streams, not for the whole of
    [NewServer].  Of the view: loading statistics, degraded mode and backoff,
    condition variables and wake-ups, and views without an index.  Of the volume:
    reading, writing, truncating and syncing file content (a matter of packs,
    background uploads and timers besides the rows), the open barrier,
    snapshots, restore and the replay before the end of a load; the order in
    which Go iterates over a map of chunks is fixed, since the rows written
    have different keys.  EROFS images and blobs, and the SQLite projection.
    Locks: an operation that holds its lock throughout is one step; where the
    code releases a lock in between (the applier, [View.Get], [Unlink]) the
    regions are separate steps or definitions, which the runs of a volume
    compose without a step of another call between them. *)

From stdpp Require Export base list gmap countable numbers sorting strings.
From Stdlib Require Export ZArith Lia.
From Stdlib Require Export Strings.Byte.
From Stdlib Require Strings.String.

#[global] Open Scope Z_scope.

(** ** Fallible results

    A Go function returning [(T, error)] is a function into [result E T]. *)

Inductive result (E A : Type) : Type :=
| Ok (a : A)
| Err (e : E).
Arguments Ok {E A} a.
Arguments Err {E A} e.

#[export] Instance result_ret {E} : MRet (result E) := fun A a => Ok a.
#[export] Instance result_bind {E} : MBind (result E) :=
  fun A B f m => match m with Ok a => f a | Err e => Err e end.

Definition is_ok {E A} (r : result E A) : bool :=
  match r with Ok _ => true | Err _ => false end.

Definition result_of_option {E A} (e : E) (o : option A) : result E A :=
  match o with Some a => Ok a | None => Err e end.

(** ** Bytes as a decidable, countable type *)

#[export] Instance byte_eq_decision : EqDecision byte := Byte.byte_eq_dec.

#[export] Instance byte_countable : Countable byte :=
  inj_countable Byte.to_N Byte.of_N Byte.of_to_N.

(** ** Go machine integers

    A [uint64] (or [uint32], ...) is a [Z] in range; arithmetic that may
    leave the range is reduced explicitly. *)

Definition u16_max : Z := 2 ^ 16 - 1.
Definition u32_max : Z := 2 ^ 32 - 1.
Definition u64_max : Z := 2 ^ 64 - 1.
Definition u64 (z : Z) : Z := z mod 2 ^ 64.
Definition u32 (z : Z) : Z := z mod 2 ^ 32.
Definition i64 (z : Z) : Z := (z + 2 ^ 63) mod 2 ^ 64 - 2 ^ 63.

Definition is_u64 (z : Z) : Prop := 0 <= z < 2 ^ 64.
Definition is_u32 (z : Z) : Prop := 0 <= z < 2 ^ 32.

#[export] Instance is_u64_dec z : Decision (is_u64 z).
Proof. unfold is_u64. apply _. Defined.
#[export] Instance is_u32_dec z : Decision (is_u32 z).
Proof. unfold is_u32. apply _. Defined.

Lemma u64_small z : is_u64 z -> u64 z = z.
Proof. intros H. apply Z.mod_small. exact H. Qed.

Lemma u32_small z : is_u32 z -> u32 z = z.
Proof. intros H. apply Z.mod_small. exact H. Qed.

Lemma i64_small z : - 2 ^ 63 <= z < 2 ^ 63 -> i64 z = z.
Proof. intros H. unfold i64. rewrite Z.mod_small; lia. Qed.

Lemma i64_add_l a b : i64 (i64 a + b) = i64 (a + b).
Proof.
  unfold i64. replace ((a + 2 ^ 63) mod 2 ^ 64 - 2 ^ 63 + b + 2 ^ 63) with ((a + 2 ^ 63) mod 2 ^ 64 + b) by lia.
  rewrite Zplus_mod_idemp_l. do 2 f_equal. lia.
Qed.

Lemma u32_range z : 0 <= u32 z <= u32_max.
Proof. unfold u32, u32_max. pose proof (Z.mod_pos_bound z (2 ^ 32)). lia. Qed.

(** ** Tactics

    [inv_ok] inverts equations between results, [zify_bool] turns the boolean
    comparisons of the code into propositions, [decide_tests] its decided
    equalities. *)

Ltac zify_bool :=
  repeat match goal with
  | H : (_ <? _) = true |- _ => apply Z.ltb_lt in H
  | H : (_ <? _) = false |- _ => apply Z.ltb_ge in H
  | H : (_ <=? _) = true |- _ => apply Z.leb_le in H
  | H : (_ <=? _) = false |- _ => apply Z.leb_gt in H
  | H : (_ =? _) = true |- _ => apply Z.eqb_eq in H
  | H : (_ =? _) = false |- _ => apply Z.eqb_neq in H
  | H : andb _ _ = true |- _ => apply andb_true_iff in H; destruct H
  | H : orb _ _ = false |- _ => apply orb_false_iff in H; destruct H
  | H : negb _ = true |- _ => apply negb_true_iff in H
  | H : negb _ = false |- _ => apply negb_false_iff in H
  end.

Ltac inv_ok :=
  repeat match goal with
  | H : Ok _ = Ok _ |- _ => injection H as H; try subst
  | H : Err _ = Err _ |- _ => injection H as H; try subst
  | H : Ok _ = Err _ |- _ => discriminate H
  | H : Err _ = Ok _ |- _ => discriminate H
  | H : (_, _) = (_, _) |- _ => injection H as H; try subst
  end.

Ltac decide_tests :=
  repeat match goal with
  | H : bool_decide _ = true |- _ => apply bool_decide_eq_true in H
  | H : bool_decide _ = false |- _ => apply bool_decide_eq_false in H
  | H : Bool.eqb _ _ = true |- _ => apply eqb_prop in H
  | H : Bool.eqb _ _ = false |- _ => apply eqb_false_iff in H
  end.

Create HintDb walkit.
Create Rewrite HintDb walkit.

(** ** Lists *)

Section lists.
Context {A : Type}.
Implicit Types (l : list A).

(** [slice lo hi l] is Go's [l[lo:hi]] on an in-range slice. *)
Definition slice (lo hi : nat) l : list A := take (hi - lo) (drop lo l).

Lemma slice_length lo hi l :
  (lo <= hi <= length l)%nat -> length (slice lo hi l) = (hi - lo)%nat.
Proof. intros H. unfold slice. rewrite length_take, length_drop. lia. Qed.

Lemma slice_app_l lo hi l l' :
  (hi <= length l)%nat -> slice lo hi (l ++ l') = slice lo hi l.
Proof.
  intros H. unfold slice. destruct (decide (lo <= hi)%nat).
  - rewrite drop_app_le by lia. rewrite take_app_le; [done|].
    rewrite length_drop. lia.
  - replace (hi - lo)%nat with 0%nat by lia. done.
Qed.

Lemma slice_app_r lo hi l l' :
  (length l <= lo)%nat ->
  slice lo hi (l ++ l') = slice (lo - length l) (hi - length l) l'.
Proof.
  intros H. unfold slice. rewrite drop_app_ge by lia. f_equal. lia.
Qed.

Lemma slice_full l : slice 0 (length l) l = l.
Proof. unfold slice. rewrite drop_0, take_ge; [done|lia]. Qed.

Lemma Z_length_app l l' :
  Z.of_nat (length (l ++ l')) = Z.of_nat (length l) + Z.of_nat (length l').
Proof. rewrite length_app. lia. Qed.

Lemma Z_length_nonneg l : 0 <= Z.of_nat (length l).
Proof. lia. Qed.

Lemma filter_none (P : A -> Prop) `{!forall x, Decision (P x)} l :
  (forall x, x ∈ l -> ~ P x) -> filter P l = [].
Proof.
  induction l as [|x l IH]; intros HP; [done|].
  rewrite filter_cons_False by (apply HP; left). apply IH. intros y Hy. apply HP. by right.
Qed.

Lemma filter_all (P : A -> Prop) `{!forall x, Decision (P x)} l :
  (forall x, x ∈ l -> P x) -> filter P l = l.
Proof.
  induction l as [|x l IH]; intros HP; [done|].
  rewrite filter_cons_True by (apply HP; left). f_equal. apply IH. intros y Hy. apply HP. by right.
Qed.

Lemma last_snoc_some l x : last (l ++ [x]) = Some x.
Proof. apply last_snoc. Qed.
End lists.

Lemma Forall2_impl_elem {A B} (P Q : A -> B -> Prop) l k :
  Forall2 P l k -> (forall x y, x ∈ l -> y ∈ k -> P x y -> Q x y) -> Forall2 Q l k.
Proof.
  induction 1 as [|x y l k HP HF IH]; intros HI; constructor.
  - apply HI; [left|left|done].
  - apply IH. intros. apply HI; [by right|by right|done].
Qed.

#[export] Hint Rewrite @Z_length_app @length_app @length_take @length_drop : walkit.
#[export] Hint Resolve Z_length_nonneg : walkit.
