(* ===== verification/Bytes.v ===== *)
(** * Bytes: positional encodings and byte strings

    The fixed-width big-endian integers of [encoding/binary], the varints of
    [binary.PutUvarint]/[binary.Uvarint], the zero-padded decimals of
    [fmt.Sprintf] ["%020d"], and Go's byte-wise ordering of strings.  All of
    them are instances of one positional notation, [digits], whose two laws
    (value of the digits, lexicographic order is numeric order) the wire
    formats and the file names of the WAL rest on. *)

From S2P Require Import Prelude.

#[local] Open Scope Z_scope.
#[local] Open Scope list_scope.

(** Go strings and byte slices are both sequences of bytes. *)
Abbreviation bytes := (list byte).

Definition byte_to_Z (b : byte) : Z := Z.of_N (Byte.to_N b).

Definition byte_of_Z (z : Z) : byte :=
  match Byte.of_N (Z.to_N (z mod 256)) with Some b => b | None => x00 end.

(** A Go string literal. *)
Definition go (s : String.string) : bytes := String.list_byte_of_string s.

(** ** Positional notation *)

(** The [n] digits of [z] in base [B], most significant first. *)
Fixpoint digits (B : Z) (n : nat) (z : Z) : list Z :=
  match n with
  | O => []
  | S k => digits B k (z / B) ++ [z mod B]
  end.

Definition value (B : Z) (ds : list Z) : Z :=
  foldl (fun acc d => acc * B + d) 0 ds.

(** [binary.BigEndian.PutUint16/32/64] write [be_encode 2/4/8]. *)
Definition be_encode (n : nat) (z : Z) : bytes := byte_of_Z <$> digits 256 n z.

(** [binary.BigEndian.Uint16/32/64] read [be_decode]. *)
Definition be_decode (l : bytes) : Z := value 256 (byte_to_Z <$> l).

(** ** Go's ordering of strings and byte slices *)

Fixpoint zlist_compare (l1 l2 : list Z) : comparison :=
  match l1, l2 with
  | [], [] => Eq
  | [], _ :: _ => Lt
  | _ :: _, [] => Gt
  | x :: l1, y :: l2 =>
      match Z.compare x y with Eq => zlist_compare l1 l2 | c => c end
  end.

(** [bytes.Compare] and the operators [<], [==] on strings. *)
Definition bytes_compare (l1 l2 : bytes) : comparison :=
  zlist_compare (byte_to_Z <$> l1) (byte_to_Z <$> l2).

Definition bytes_le (l1 l2 : bytes) : Prop := bytes_compare l1 l2 <> Gt.
Definition bytes_lt (l1 l2 : bytes) : Prop := bytes_compare l1 l2 = Lt.

#[export] Instance bytes_le_dec l1 l2 : Decision (bytes_le l1 l2).
Proof. unfold bytes_le. destruct (bytes_compare l1 l2); [left|left|right]; congruence. Defined.

#[export] Instance bytes_lt_dec l1 l2 : Decision (bytes_lt l1 l2).
Proof. unfold bytes_lt. apply comparison_eq_dec. Defined.

(** [sort.Strings]: keys are compared byte-wise, so the result is unique. *)
Definition sort_strings (l : list bytes) : list bytes := merge_sort bytes_le l.

(** [strings.HasPrefix] and [strings.HasSuffix]. *)
Fixpoint has_prefix (p l : bytes) : bool :=
  match p, l with
  | [], _ => true
  | _ :: _, [] => false
  | x :: p, y :: l => bool_decide (x = y) && has_prefix p l
  end.

Definition has_suffix (p l : bytes) : bool := has_prefix (reverse p) (reverse l).

(** [strings.TrimPrefix] and [strings.TrimSuffix]. *)
Definition trim_prefix (p l : bytes) : bytes :=
  if has_prefix p l then drop (length p) l else l.

Definition trim_suffix (p l : bytes) : bytes :=
  if has_suffix p l then take (length l - length p) l else l.

(** ** Decimal formatting and parsing *)

Definition digit_byte (d : Z) : byte := byte_of_Z (48 + d).

(** Number of decimal digits of [z], at least 1; 20 rounds reach every
    [uint64]. *)
Fixpoint dec_width_go (fuel : nat) (z : Z) : nat :=
  match fuel with
  | O => 1
  | S k => if z <? 10 then 1 else S (dec_width_go k (z / 10))
  end.
Definition dec_width (z : Z) : nat := dec_width_go 20 z.

(** [fmt.Sprintf("%0<w>d", z)] for a [uint64]; ["%d"] is [w = 0]. *)
Definition fmt_pad (w : nat) (z : Z) : bytes :=
  digit_byte <$> digits 10 (w `max` dec_width z) z.

(** The digit a byte stands for in base 10. *)
Definition byte_digit (b : byte) : option Z :=
  let z := byte_to_Z b in
  if (48 <=? z) && (z <=? 57) then Some (z - 48) else None.

(** [strconv.ParseUint(s, 10, 64)]: a non-empty string of decimal digits whose
    value fits; anything else is an error. *)
Definition parse_uint (s : bytes) : option Z :=
  match s with
  | [] => None
  | _ :: _ =>
      ds ← mapM byte_digit s;
      let v := value 10 ds in
      if v <=? u64_max then Some v else None
  end.

(** ** Varints *)

(** [binary.PutUvarint]; five groups of seven bits cover a [uint32], ten a
    [uint64]. *)
Fixpoint put_uvarint_go (fuel : nat) (x : Z) : bytes :=
  match fuel with
  | O => []
  | S k =>
      if x <? 128 then [byte_of_Z x]
      else byte_of_Z (Z.lor (x mod 128) 128) :: put_uvarint_go k (x / 128)
  end.
Definition put_uvarint (x : Z) : bytes := put_uvarint_go 10 x.

(** [binary.Uvarint]: value and number of bytes read, the latter 0 when the
    buffer is too small and negative on overflow. *)
Fixpoint uvarint_go (buf : bytes) (i : Z) (x s : Z) : Z * Z :=
  match buf with
  | [] => (0, 0)
  | b :: buf' =>
      let bz := byte_to_Z b in
      if i =? 10 then (0, - (i + 1))
      else if bz <? 128 then
        if (i =? 9) && (1 <? bz) then (0, - (i + 1))
        else (Z.lor x (u64 (Z.shiftl bz s)), i + 1)
      else uvarint_go buf' (i + 1) (Z.lor x (u64 (Z.shiftl (Z.land bz 127) s))) (s + 7)
  end.
Definition uvarint (buf : bytes) : Z * Z := uvarint_go buf 0 0 0.

(** ** Facts about single bytes *)

Lemma byte_to_Z_bound b : 0 <= byte_to_Z b < 256.
Proof.
  unfold byte_to_Z. pose proof (Byte.to_N_bounded b). lia.
Qed.

Lemma byte_of_to_Z b : byte_of_Z (byte_to_Z b) = b.
Proof.
  unfold byte_of_Z. rewrite Z.mod_small by apply byte_to_Z_bound.
  unfold byte_to_Z. rewrite N2Z.id, Byte.of_to_N. done.
Qed.

Lemma byte_to_of_Z z : byte_to_Z (byte_of_Z z) = z mod 256.
Proof.
  unfold byte_of_Z, byte_to_Z.
  pose proof (Z.mod_pos_bound z 256 ltac:(lia)) as Hb.
  destruct (Byte.of_N (Z.to_N (z mod 256))) as [b|] eqn:E.
  - apply Byte.to_of_N in E. rewrite E. lia.
  - apply Byte.of_N_None_iff in E. lia.
Qed.

#[export] Instance byte_to_Z_inj : Inj (=) (=) byte_to_Z.
Proof. intros b1 b2 H. rewrite <- (byte_of_to_Z b1), H. apply byte_of_to_Z. Qed.

(** ** Facts about digits *)

Section positional.
Context (B : Z) (HB : 1 < B).

Lemma length_digits n z : length (digits B n z) = n.
Proof. revert z; induction n; intros z; [done|]. cbn. rewrite length_app, IHn. cbn. lia. Qed.

Lemma digits_bound n z : Forall (fun d => 0 <= d < B) (digits B n z).
Proof.
  revert z; induction n; intros z; cbn; [done|].
  apply Forall_app; split; [done|]. constructor; [|done].
  apply Z.mod_pos_bound. lia.
Qed.

Lemma value_snoc ds d : value B (ds ++ [d]) = value B ds * B + d.
Proof. unfold value. by rewrite foldl_app. Qed.

Lemma value_digits n z : 0 <= z < B ^ Z.of_nat n -> value B (digits B n z) = z.
Proof.
  revert z; induction n as [|n IH]; intros z Hz.
  - cbn in *. lia.
  - cbn [digits]. rewrite value_snoc.
    rewrite Nat2Z.inj_succ, Z.pow_succ_r in Hz by lia.
    rewrite IH.
    + pose proof (Z.div_mod z B). lia.
    + split; [apply Z.div_pos; lia|]. apply Z.div_lt_upper_bound; lia.
Qed.

Lemma value_bound ds :
  Forall (fun d => 0 <= d < B) ds -> 0 <= value B ds < B ^ Z.of_nat (length ds).
Proof.
  induction ds as [|d ds IH] using rev_ind; intros HF; [cbn; lia|].
  apply Forall_app in HF as [H1 H2]. inversion_clear H2.
  rewrite value_snoc, length_app. cbn [length].
  replace (length ds + 1)%nat with (S (length ds)) by lia.
  rewrite Nat2Z.inj_succ, Z.pow_succ_r by lia.
  specialize (IH H1). nia.
Qed.

Lemma digits_value ds :
  Forall (fun d => 0 <= d < B) ds -> digits B (length ds) (value B ds) = ds.
Proof.
  induction ds as [|d ds IH] using rev_ind; intros HF; [done|].
  apply Forall_app in HF as [H1 H2]. inversion_clear H2.
  rewrite value_snoc, length_app. cbn [length].
  replace (length ds + 1)%nat with (S (length ds)) by lia. cbn [digits].
  replace ((value B ds * B + d) / B) with (value B ds).
  2: { rewrite Z.add_comm, Z.div_add, Z.div_small by lia. lia. }
  replace ((value B ds * B + d) mod B) with d.
  2: { rewrite Z.add_comm, Z.mod_add, Z.mod_small by lia. lia. }
  by rewrite IH.
Qed.

Lemma digits_mod n z : digits B n (z mod B ^ Z.of_nat n) = digits B n z.
Proof.
  revert z; induction n as [|n IH]; intros z; [done|]. cbn [digits].
  rewrite Nat2Z.inj_succ, Z.pow_succ_r by lia.
  assert (0 < B ^ Z.of_nat n) by (apply Z.pow_pos_nonneg; lia).
  f_equal.
  - rewrite <- (IH (z / B)). f_equal.
    rewrite Z.rem_mul_r by lia.
    rewrite Z.mul_comm, Z.add_comm, Z.div_add_l by lia.
    rewrite (Z.div_small (z mod B)) by (apply Z.mod_pos_bound; lia). lia.
  - f_equal. rewrite Z.rem_mul_r by lia.
    rewrite Z.mul_comm, Z.add_comm, Z.add_comm, Z.mod_add by lia.
    apply Z.mod_mod. lia.
Qed.

Lemma zlist_compare_snoc l1 l2 x y :
  length l1 = length l2 ->
  zlist_compare (l1 ++ [x]) (l2 ++ [y]) =
  match zlist_compare l1 l2 with Eq => Z.compare x y | c => c end.
Proof.
  revert l2; induction l1 as [|a l1 IH]; intros [|b l2] H; try discriminate H; cbn.
  - by destruct (x ?= y).
  - destruct (a ?= b); [|done|done]. apply IH. by injection H.
Qed.

(** Same-width numbers are ordered lexicographically as they are numerically. *)
Lemma digits_compare n x y :
  0 <= x < B ^ Z.of_nat n -> 0 <= y < B ^ Z.of_nat n ->
  zlist_compare (digits B n x) (digits B n y) = (x ?= y).
Proof.
  revert x y; induction n as [|n IH]; intros x y Hx Hy.
  - cbn in *. replace x with y by lia. by rewrite Z.compare_refl.
  - cbn [digits]. rewrite Nat2Z.inj_succ, Z.pow_succ_r in Hx, Hy by lia.
    rewrite zlist_compare_snoc by (by rewrite !length_digits).
    rewrite IH.
    2: { split; [apply Z.div_pos; lia|]. apply Z.div_lt_upper_bound; lia. }
    2: { split; [apply Z.div_pos; lia|]. apply Z.div_lt_upper_bound; lia. }
    pose proof (Z.div_mod x B ltac:(lia)). pose proof (Z.div_mod y B ltac:(lia)).
    pose proof (Z.mod_pos_bound x B ltac:(lia)). pose proof (Z.mod_pos_bound y B ltac:(lia)).
    destruct (Z.compare_spec (x / B) (y / B)) as [E|E|E].
    + destruct (Z.compare_spec (x mod B) (y mod B)); symmetry;
        [apply Z.compare_eq_iff|apply Z.compare_lt_iff|apply Z.compare_gt_iff]; nia.
    + symmetry. apply Z.compare_lt_iff. nia.
    + symmetry. apply Z.compare_gt_iff. nia.
Qed.
End positional.

(** ** Big-endian integers *)

Lemma length_be_encode n z : length (be_encode n z) = n.
Proof. unfold be_encode. by rewrite length_fmap, length_digits. Qed.

Lemma byte_values ds :
  Forall (fun d => 0 <= d < 256) ds -> byte_to_Z <$> (byte_of_Z <$> ds) = ds.
Proof.
  induction 1 as [|d ds Hd _ IH]; [done|]. cbn.
  by rewrite byte_to_of_Z, Z.mod_small, IH.
Qed.

Lemma be_decode_encode n z :
  0 <= z < 256 ^ Z.of_nat n -> be_decode (be_encode n z) = z.
Proof.
  intros Hz. unfold be_decode, be_encode.
  rewrite byte_values by (apply digits_bound; lia). apply value_digits; lia.
Qed.

Lemma bytes_digits_bound (l : bytes) : Forall (fun d => 0 <= d < 256) (byte_to_Z <$> l).
Proof. induction l; cbn; constructor; [apply byte_to_Z_bound|done]. Qed.

Lemma be_encode_decode n l : length l = n -> be_encode n (be_decode l) = l.
Proof.
  intros <-. unfold be_encode, be_decode.
  replace (length l) with (length (byte_to_Z <$> l)) by apply length_fmap.
  rewrite digits_value by (try lia; apply bytes_digits_bound).
  rewrite <- list_fmap_compose. rewrite <- (list_fmap_id l) at 2.
  apply list_fmap_ext. intros i b _. apply byte_of_to_Z.
Qed.

Lemma be_decode_bound l : 0 <= be_decode l < 256 ^ Z.of_nat (length l).
Proof.
  unfold be_decode. rewrite <- (length_fmap byte_to_Z l).
  apply value_bound; [lia|apply bytes_digits_bound].
Qed.

Lemma be_encode_mod n z : be_encode n (z mod 256 ^ Z.of_nat n) = be_encode n z.
Proof. unfold be_encode. rewrite digits_mod; [done|lia]. Qed.

Lemma be_encode_inj n x y :
  0 <= x < 256 ^ Z.of_nat n -> 0 <= y < 256 ^ Z.of_nat n ->
  be_encode n x = be_encode n y -> x = y.
Proof.
  intros Hx Hy H. rewrite <- (be_decode_encode n x), <- (be_decode_encode n y) by done.
  by rewrite H.
Qed.

#[export] Hint Rewrite length_be_encode : walkit.

(** ** The order of byte strings *)

Lemma zlist_compare_eq l1 l2 : zlist_compare l1 l2 = Eq <-> l1 = l2.
Proof.
  revert l2; induction l1 as [|x l1 IH]; intros [|y l2]; cbn; try done.
  destruct (Z.compare_spec x y) as [->|Hlt|Hgt].
  - rewrite IH. split; [by intros ->|by intros [= ->]].
  - split; [done|]. intros [= -> _]. lia.
  - split; [done|]. intros [= -> _]. lia.
Qed.

Lemma zlist_compare_antisym l1 l2 : zlist_compare l1 l2 = CompOpp (zlist_compare l2 l1).
Proof.
  revert l2; induction l1 as [|x l1 IH]; intros [|y l2]; cbn; try done.
  rewrite (Z.compare_antisym y x). destruct (y ?= x); cbn; [apply IH|done|done].
Qed.

Lemma zlist_compare_trans l1 l2 l3 :
  zlist_compare l1 l2 = Lt -> zlist_compare l2 l3 = Lt -> zlist_compare l1 l3 = Lt.
Proof.
  revert l2 l3; induction l1 as [|x l1 IH]; intros [|y l2] [|z l3]; cbn; try done.
  destruct (Z.compare_spec x y) as [->|H1|H1]; [|intros _|done].
  - destruct (y ?= z); [apply IH|done|done].
  - destruct (Z.compare_spec y z) as [<-|H2|H2]; [intros _|intros _|done];
      rewrite (proj2 (Z.compare_lt_iff x _)) by lia; done.
Qed.

Lemma zlist_compare_app_l p l1 l2 : zlist_compare (p ++ l1) (p ++ l2) = zlist_compare l1 l2.
Proof. induction p as [|x p IH]; [done|]. cbn. by rewrite Z.compare_refl. Qed.

Lemma zlist_compare_app l1 l2 s1 s2 :
  length l1 = length l2 ->
  zlist_compare (l1 ++ s1) (l2 ++ s2) =
  match zlist_compare l1 l2 with Eq => zlist_compare s1 s2 | c => c end.
Proof.
  revert l2; induction l1 as [|x l1 IH]; intros [|y l2] H; try discriminate H; [done|].
  cbn. destruct (x ?= y); [|done|done]. apply IH. by injection H.
Qed.

Lemma bytes_compare_eq l1 l2 : bytes_compare l1 l2 = Eq <-> l1 = l2.
Proof.
  unfold bytes_compare. rewrite zlist_compare_eq. split; [|by intros ->].
  apply (inj (fmap byte_to_Z)).
Qed.

Lemma bytes_compare_app l1 l2 s1 s2 :
  length l1 = length l2 ->
  bytes_compare (l1 ++ s1) (l2 ++ s2) =
  match bytes_compare l1 l2 with Eq => bytes_compare s1 s2 | c => c end.
Proof.
  intros H. unfold bytes_compare. rewrite !fmap_app. apply zlist_compare_app.
  by rewrite !length_fmap.
Qed.

Lemma bytes_compare_prefix p l1 l2 : bytes_compare (p ++ l1) (p ++ l2) = bytes_compare l1 l2.
Proof. unfold bytes_compare. rewrite !fmap_app. apply zlist_compare_app_l. Qed.

Lemma bytes_le_lt l1 l2 : bytes_le l1 l2 <-> bytes_lt l1 l2 \/ l1 = l2.
Proof.
  unfold bytes_le, bytes_lt. rewrite <- bytes_compare_eq.
  destruct (bytes_compare l1 l2); intuition congruence.
Qed.

#[export] Instance bytes_lt_trans : Transitive bytes_lt.
Proof. intros l1 l2 l3. apply zlist_compare_trans. Qed.

#[export] Instance bytes_lt_irrefl : Irreflexive bytes_lt.
Proof. intros l. unfold complement, bytes_lt. by rewrite (proj2 (bytes_compare_eq l l)). Qed.

#[export] Instance bytes_le_total : Total bytes_le.
Proof.
  intros l1 l2. unfold bytes_le, bytes_compare.
  rewrite (zlist_compare_antisym (_ <$> l2)).
  destruct (zlist_compare _ _); cbn; [left|left|right]; done.
Qed.

#[export] Instance bytes_le_trans : Transitive bytes_le.
Proof.
  intros l1 l2 l3. rewrite !bytes_le_lt. intros [H1| ->] [H2| ->]; auto.
  left. by etrans.
Qed.

#[export] Instance bytes_le_antisymm : AntiSymm (=) bytes_le.
Proof.
  intros l1 l2. rewrite !bytes_le_lt. intros [H1| ->] [H2| H2]; auto.
  exfalso. apply (irreflexivity bytes_lt l1). by etrans.
Qed.

Lemma sort_strings_perm l : sort_strings l ≡ₚ l.
Proof. apply merge_sort_Permutation. Qed.

(** Any two sorted arrangements of the same strings coincide. *)
Lemma sort_strings_unique l l' :
  StronglySorted bytes_lt l' -> l ≡ₚ l' -> sort_strings l = l'.
Proof.
  intros HS HP. apply (StronglySorted_unique bytes_le).
  - apply StronglySorted_merge_sort; apply _.
  - clear HP. induction HS as [|x l0 HS IH HF]; constructor; [exact IH|].
    eapply Forall_impl; [exact HF|]. intros y Hy. apply bytes_le_lt. by left.
  - by rewrite sort_strings_perm.
Qed.

(** ** Decimal numbers *)

Lemma dec_width_le fuel z n :
  0 <= z < 10 ^ Z.of_nat n -> (1 <= n)%nat -> (dec_width_go fuel z <= n)%nat.
Proof.
  revert z n; induction fuel as [|fuel IH]; intros z n Hz Hn; cbn; [lia|].
  destruct (z <? 10) eqn:E; zify_bool; [lia|].
  destruct n as [|[|n]]; [lia|cbn in Hz; lia|].
  apply le_n_S, IH; [|lia].
  rewrite (Nat2Z.inj_succ (S n)), Z.pow_succ_r in Hz by lia.
  split; [apply Z.div_pos; lia|apply Z.div_lt_upper_bound; lia].
Qed.

Lemma dec_width_ge fuel z :
  0 <= z < 10 ^ (Z.of_nat fuel + 1) -> z < 10 ^ Z.of_nat (dec_width_go fuel z).
Proof.
  revert z; induction fuel as [|fuel IH]; intros z Hz; [exact (proj2 Hz)|].
  cbn [dec_width_go]. destruct (z <? 10) eqn:E; zify_bool; [done|].
  rewrite Nat2Z.inj_succ, Z.pow_succ_r by lia.
  rewrite Nat2Z.inj_succ in Hz. replace (Z.succ (Z.of_nat fuel) + 1)
    with (Z.succ (Z.of_nat fuel + 1)) in Hz by lia. rewrite Z.pow_succ_r in Hz by lia.
  assert (0 <= z / 10 < 10 ^ (Z.of_nat fuel + 1)) as Hd.
  { split; [apply Z.div_pos; lia|apply Z.div_lt_upper_bound; lia]. }
  specialize (IH _ Hd). pose proof (Z.div_mod z 10). pose proof (Z.mod_pos_bound z 10). lia.
Qed.

Lemma fmt_pad_fits w z : is_u64 z -> z < 10 ^ Z.of_nat (w `max` dec_width z).
Proof.
  intros Hz. unfold is_u64 in Hz. assert (z < 10 ^ Z.of_nat (dec_width z)) as H1.
  { apply dec_width_ge. split; [lia|]. eapply Z.lt_trans; [apply Hz|done]. }
  eapply Z.lt_le_trans; [exact H1|]. apply Z.pow_le_mono_r; lia.
Qed.

Lemma length_fmt_pad w z :
  (1 <= w)%nat -> 0 <= z < 10 ^ Z.of_nat w -> length (fmt_pad w z) = w.
Proof.
  intros Hw Hz. unfold fmt_pad. rewrite length_fmap, length_digits.
  pose proof (dec_width_le 20 z w Hz Hw) as HL. fold (dec_width z) in HL. lia.
Qed.

Lemma digit_bytes ds :
  Forall (fun d => 0 <= d < 10) ds -> byte_to_Z <$> (digit_byte <$> ds) = Z.add 48 <$> ds.
Proof.
  induction 1 as [|d ds Hd _ IH]; [done|]. cbn. unfold digit_byte at 1.
  by rewrite byte_to_of_Z, Z.mod_small, IH by lia.
Qed.

Lemma zlist_compare_shift k l1 l2 :
  zlist_compare (Z.add k <$> l1) (Z.add k <$> l2) = zlist_compare l1 l2.
Proof.
  revert l2; induction l1 as [|x l1 IH]; intros [|y l2]; cbn; try done.
  rewrite IH, Z.add_compare_mono_l. done.
Qed.

(** Zero-padded decimals of one width sort as the numbers they denote. *)
Lemma fmt_pad_compare w x y :
  (1 <= w)%nat -> 0 <= x < 10 ^ Z.of_nat w -> 0 <= y < 10 ^ Z.of_nat w ->
  bytes_compare (fmt_pad w x) (fmt_pad w y) = (x ?= y).
Proof.
  intros Hw Hx Hy. unfold bytes_compare, fmt_pad, dec_width.
  pose proof (dec_width_le 20 x w Hx Hw). pose proof (dec_width_le 20 y w Hy Hw).
  rewrite !Nat.max_l by lia.
  rewrite !digit_bytes by (apply digits_bound; lia).
  rewrite zlist_compare_shift. apply digits_compare; lia.
Qed.

Lemma byte_digit_byte d : 0 <= d < 10 -> byte_digit (digit_byte d) = Some d.
Proof.
  intros H. unfold byte_digit, digit_byte. rewrite byte_to_of_Z, Z.mod_small by lia.
  rewrite (proj2 (Z.leb_le 48 _)), (proj2 (Z.leb_le _ 57)) by lia. cbn. f_equal. lia.
Qed.

(** [strconv.ParseUint] reads back what [fmt.Sprintf] wrote. *)
Lemma parse_fmt_pad w z : is_u64 z -> parse_uint (fmt_pad w z) = Some z.
Proof.
  intros Hz. unfold parse_uint.
  pose proof (fmt_pad_fits w z Hz) as Hf. unfold is_u64 in Hz.
  set (n := (w `max` dec_width z)%nat) in *.
  assert (mapM byte_digit (fmt_pad w z) = Some (digits 10 n z)) as ->.
  { unfold fmt_pad. fold n.
    pose proof (digits_bound 10 ltac:(lia) n z) as HB.
    induction HB as [|d ds Hd _ IH]; [done|]. cbn.
    rewrite byte_digit_byte by done. cbn. by rewrite IH. }
  assert (1 <= n)%nat as Hn by (unfold n, dec_width; cbn; destruct (z <? 10); lia).
  destruct (fmt_pad w z) as [|b s] eqn:E.
  { apply (f_equal length) in E. unfold fmt_pad in E. fold n in E.
    rewrite length_fmap, length_digits in E. cbn in E. lia. }
  cbn. rewrite value_digits by lia.
  unfold u64_max. by rewrite (proj2 (Z.leb_le _ _)) by lia.
Qed.

Lemma digit_byte_range d : 0 <= d < 10 -> 48 <= byte_to_Z (digit_byte d) <= 57.
Proof. intros H. unfold digit_byte. rewrite byte_to_of_Z, Z.mod_small; lia. Qed.

(** A formatted number consists of digits. *)
Lemma fmt_pad_digits w z : Forall (fun b => 48 <= byte_to_Z b <= 57) (fmt_pad w z).
Proof.
  unfold fmt_pad. apply Forall_fmap. eapply Forall_impl; [apply (digits_bound 10); lia|].
  intros d Hd. by apply digit_byte_range.
Qed.

(** ** Prefixes and suffixes *)

Lemma has_prefix_spec p l : has_prefix p l = true <-> exists k, l = p ++ k.
Proof.
  revert l; induction p as [|x p IH]; intros l; cbn.
  - split; [by exists l|done].
  - destruct l as [|y l]; [split; [done|by intros [k [=]]]|].
    rewrite andb_true_iff, bool_decide_eq_true, IH. split.
    + intros [-> [k ->]]. by exists k.
    + intros [k [= -> ->]]. split; [done|by exists k].
Qed.

Lemma has_suffix_spec p l : has_suffix p l = true <-> exists k, l = k ++ p.
Proof.
  unfold has_suffix. rewrite has_prefix_spec. split; intros [k Hk].
  - exists (reverse k). by rewrite <- (reverse_involutive l), Hk, reverse_app, reverse_involutive.
  - exists (reverse k). by rewrite Hk, reverse_app.
Qed.

Lemma has_prefix_app p l : has_prefix p (p ++ l) = true.
Proof. apply has_prefix_spec. by exists l. Qed.

Lemma has_suffix_app p l : has_suffix p (l ++ p) = true.
Proof. apply has_suffix_spec. by exists l. Qed.

Lemma trim_prefix_app p l : trim_prefix p (p ++ l) = l.
Proof. unfold trim_prefix. by rewrite has_prefix_app, drop_app_length. Qed.

Lemma trim_suffix_app p l : trim_suffix p (l ++ p) = l.
Proof.
  unfold trim_suffix. rewrite has_suffix_app, length_app.
  replace (length l + length p - length p)%nat with (length l) by lia. apply take_app_length.
Qed.

#[export] Hint Rewrite has_prefix_app has_suffix_app trim_prefix_app trim_suffix_app : walkit.

(** ** Varints: facts *)

Lemma lor_shift_add acc y s :
  0 <= s -> 0 <= acc < 2 ^ s -> 0 <= y -> Z.lor acc (Z.shiftl y s) = acc + y * 2 ^ s.
Proof.
  intros Hs Ha Hy. rewrite <- Z.shiftl_mul_pow2 by done.
  destruct (decide (acc = 0)) as [->|Hne]; [done|].
  rewrite <- (Z.add_lor_land acc (Z.shiftl y s)).
  enough (Z.land acc (Z.shiftl y s) = 0) as -> by lia.
  apply Z.bits_inj'. intros n Hn. rewrite Z.land_spec, Z.bits_0, Z.shiftl_spec by done.
  destruct (Z.ltb_spec n s).
  - rewrite (Z.testbit_neg_r y) by lia. apply andb_false_r.
  - rewrite (Z.bits_above_log2 acc); [done|lia|].
    apply Z.log2_lt_pow2; [lia|].
    eapply Z.lt_le_trans; [apply Ha|]. apply Z.pow_le_mono_r; lia.
Qed.

Lemma put_uvarint_byte x : byte_to_Z (byte_of_Z (Z.lor (x mod 128) 128)) = 128 + x mod 128.
Proof.
  pose proof (Z.mod_pos_bound x 128 ltac:(lia)) as Hm.
  rewrite byte_to_of_Z. change 128 with (Z.shiftl 1 7) at 2.
  rewrite lor_shift_add by lia. rewrite Z.mod_small by lia. lia.
Qed.

Lemma land_127 x : 0 <= x < 128 -> Z.land (128 + x) 127 = x.
Proof.
  intros Hx. change 127 with (Z.ones 7). rewrite Z.land_ones by lia.
  change (2 ^ 7) with 128. replace (128 + x) with (x + 1 * 128) by lia.
  rewrite Z.mod_add by lia. by apply Z.mod_small.
Qed.

Lemma length_put_uvarint_pos x : (0 < length (put_uvarint x))%nat.
Proof. unfold put_uvarint; cbn. destruct (x <? 128); cbn; lia. Qed.

(** [binary.Uvarint] reads back what [binary.PutUvarint] wrote. *)
Lemma uvarint_put_go fuel : forall x rest i acc,
  0 <= x < 128 ^ Z.of_nat fuel -> (0 < fuel)%nat -> 0 <= i -> i + Z.of_nat fuel <= 10 ->
  0 <= acc < 2 ^ (7 * i) -> acc + x * 2 ^ (7 * i) < 2 ^ 64 ->
  uvarint_go (put_uvarint_go fuel x ++ rest) i acc (7 * i) =
  (acc + x * 2 ^ (7 * i), i + Z.of_nat (length (put_uvarint_go fuel x))).
Proof.
  induction fuel as [|fuel IH]; intros x rest i acc Hx H0 Hi Hf Ha Hb; [lia|].
  assert (0 < 2 ^ (7 * i)) as Hp by (apply Z.pow_pos_nonneg; lia).
  cbn [put_uvarint_go]. destruct (x <? 128) eqn:E; zify_bool.
  - cbn [app uvarint_go length]. rewrite byte_to_of_Z, Z.mod_small by lia.
    rewrite (proj2 (Z.eqb_neq i 10)), (proj2 (Z.ltb_lt x 128)) by lia.
    assert ((i =? 9) && (1 <? x) = false) as ->.
    { apply andb_false_iff. destruct (Z.eqb_spec i 9) as [->|]; [right|by left].
      apply Z.ltb_ge. change (2 ^ (7 * 9)) with (2 ^ 63) in *.
      change (2 ^ 64) with (2 * 2 ^ 63) in Hb. nia. }
    unfold u64. rewrite Z.mod_small by (rewrite Z.shiftl_mul_pow2 by lia; nia).
    rewrite lor_shift_add by lia. done.
  - cbn [app uvarint_go length]. pose proof (Z.mod_pos_bound x 128 ltac:(lia)) as Hm.
    pose proof (Z.div_mod x 128 ltac:(lia)) as Hdm.
    assert (0 <= x / 128) as Hd0 by (apply Z.div_pos; lia).
    assert (2 ^ (7 * (i + 1)) = 128 * 2 ^ (7 * i)) as Hpow.
    { replace (7 * (i + 1)) with (7 + 7 * i) by lia. rewrite Z.pow_add_r by lia. done. }
    rewrite put_uvarint_byte, (proj2 (Z.eqb_neq i 10)), (proj2 (Z.ltb_ge _ 128)) by lia.
    rewrite land_127 by done. unfold u64.
    rewrite Z.mod_small by (rewrite Z.shiftl_mul_pow2 by lia; nia).
    rewrite lor_shift_add by lia.
    replace (7 * i + 7) with (7 * (i + 1)) by lia. rewrite IH.
    + rewrite Hpow. f_equal; [nia|lia].
    + rewrite Nat2Z.inj_succ, Z.pow_succ_r in Hx by lia.
      split; [done|apply Z.div_lt_upper_bound; lia].
    + destruct fuel; [cbn in Hx; lia|lia].
    + lia.
    + lia.
    + rewrite Hpow. nia.
    + rewrite Hpow. nia.
Qed.

Lemma uvarint_put x rest :
  is_u64 x -> uvarint (put_uvarint x ++ rest) = (x, Z.of_nat (length (put_uvarint x))).
Proof.
  intros Hx. unfold is_u64 in Hx. unfold uvarint, put_uvarint.
  change 0 with (7 * 0) at 3. rewrite uvarint_put_go; [f_equal; lia|..]; cbn; lia.
Qed.
