(* ===== verification/Crc32c.v ===== *)
(** * Crc32c: the Castagnoli checksum of the WAL records

    [hash/crc32] with the Castagnoli table, as the WAL record code uses it
    ([crc32.New], [Write], [Sum32]).  The register is updated bit by bit with
    the reflected polynomial; the table-driven and hardware implementations of
    the Go library compute the same function.  The theorems are what the WAL
    relies on: writes compose, and a corruption confined to at most four
    consecutive bytes always changes the checksum. *)

From S2P Require Import Prelude Bytes.

#[local] Open Scope Z_scope.
#[local] Open Scope list_scope.

(** [crc32.Castagnoli], the reflected polynomial. *)
Definition castagnoli : Z := 0x82F63B78.

Definition crc_step1 (x : Z) : Z :=
  if Z.odd x then Z.lxor (Z.shiftr x 1) castagnoli else Z.shiftr x 1.

Definition crc_steps (n : nat) (x : Z) : Z := Nat.iter n crc_step1 x.

Definition crc_byte (s : Z) (b : byte) : Z := crc_steps 8 (Z.lxor s (byte_to_Z b)).

Definition crc_not (s : Z) : Z := Z.lxor s u32_max.

(** [crc32.Update(crc, CastagnoliTable, p)]. *)
Definition crc_update (crc : Z) (p : bytes) : Z :=
  crc_not (foldl crc_byte (crc_not crc) p).

(** Checksum of one write to a fresh digest. *)
Definition crc32c (p : bytes) : Z := crc_update 0 p.

(** The check value of the CRC-32C catalogue entry. *)
Example crc32c_check_value : crc32c (go "123456789") = 0xE3069283.
Proof. vm_compute. reflexivity. Qed.

(** ** Ranges *)

Lemma lxor_u32 a b : is_u32 a -> is_u32 b -> is_u32 (Z.lxor a b).
Proof.
  unfold is_u32. intros [Ha1 Ha2] [Hb1 Hb2].
  assert (0 <= Z.lxor a b) by (apply Z.lxor_nonneg; lia).
  split; [done|].
  rewrite Z.bounded_iff_bits_nonneg in Ha2, Hb2 |- * by lia.
  intros l Hl. by rewrite Z.lxor_spec, Ha2, Hb2.
Qed.

Lemma shiftr1_bound x : is_u32 x -> 0 <= Z.shiftr x 1 < 2 ^ 31.
Proof.
  unfold is_u32. intros Hx. rewrite Z.shiftr_div_pow2 by lia.
  change (2 ^ 1) with 2. split; [apply Z.div_pos; lia|].
  apply Z.div_lt_upper_bound; lia.
Qed.

Lemma crc_step1_u32 x : is_u32 x -> is_u32 (crc_step1 x).
Proof.
  intros Hx. pose proof (shiftr1_bound x Hx). unfold crc_step1.
  destruct (Z.odd x); [apply lxor_u32; [|by unfold is_u32, castagnoli]|];
    unfold is_u32; lia.
Qed.

Lemma crc_steps_u32 n x : is_u32 x -> is_u32 (crc_steps n x).
Proof. intros Hx. induction n; [done|]. cbn. by apply crc_step1_u32. Qed.

Lemma byte_u32 b : is_u32 (byte_to_Z b).
Proof. pose proof (byte_to_Z_bound b). unfold is_u32. lia. Qed.

Lemma crc_byte_u32 s b : is_u32 s -> is_u32 (crc_byte s b).
Proof. intros Hs. apply crc_steps_u32, lxor_u32; [done|apply byte_u32]. Qed.

Lemma crc_fold_u32 s p : is_u32 s -> is_u32 (foldl crc_byte s p).
Proof. revert s; induction p; intros s Hs; cbn; [done|]. apply IHp, crc_byte_u32, Hs. Qed.

Lemma crc_not_u32 s : is_u32 s -> is_u32 (crc_not s).
Proof. intros Hs. apply lxor_u32; [done|]. by unfold is_u32, u32_max. Qed.

Lemma crc_not_involutive s : crc_not (crc_not s) = s.
Proof. unfold crc_not. by rewrite Z.lxor_assoc, Z.lxor_nilpotent, Z.lxor_0_r. Qed.

Lemma crc32c_u32 p : is_u32 (crc32c p).
Proof. apply crc_not_u32, crc_fold_u32. by unfold is_u32, crc_not. Qed.

(** Consecutive writes to a digest compute the checksum of the concatenation. *)
Lemma crc_update_app crc p q : crc_update (crc_update crc p) q = crc_update crc (p ++ q).
Proof. unfold crc_update. by rewrite crc_not_involutive, foldl_app. Qed.

(** ** The register update is invertible *)

Lemma lxor_cancel_r a b c : Z.lxor a c = Z.lxor b c -> a = b.
Proof.
  intros H. apply (f_equal (fun z => Z.lxor z c)) in H.
  by rewrite !Z.lxor_assoc, Z.lxor_nilpotent, !Z.lxor_0_r in H.
Qed.

Lemma lxor_cancel_l a b c : Z.lxor c a = Z.lxor c b -> a = b.
Proof. rewrite !(Z.lxor_comm c). apply lxor_cancel_r. Qed.

Lemma testbit_31_small z : 0 <= z < 2 ^ 31 -> Z.testbit z 31 = false.
Proof.
  intros [H1 H2]. rewrite Z.bounded_iff_bits_nonneg in H2 by lia. apply H2. lia.
Qed.

Lemma shiftr1_odd_inj x y :
  Z.odd x = Z.odd y -> Z.shiftr x 1 = Z.shiftr y 1 -> x = y.
Proof.
  rewrite <- !Z.div2_spec. intros H1 H2.
  pose proof (Z.div2_odd x) as Hx. pose proof (Z.div2_odd y) as Hy.
  rewrite H1, H2 in Hx. congruence.
Qed.

Lemma crc_step1_inj x y :
  is_u32 x -> is_u32 y -> crc_step1 x = crc_step1 y -> x = y.
Proof.
  intros Hx Hy. unfold crc_step1.
  pose proof (testbit_31_small _ (shiftr1_bound x Hx)) as Bx.
  pose proof (testbit_31_small _ (shiftr1_bound y Hy)) as By.
  destruct (Z.odd x) eqn:Ox, (Z.odd y) eqn:Oy; intros H.
  - apply lxor_cancel_r in H. apply shiftr1_odd_inj; congruence.
  - exfalso. rewrite <- H, Z.lxor_spec, Bx in By. discriminate By.
  - exfalso. rewrite H, Z.lxor_spec, By in Bx. discriminate Bx.
  - apply shiftr1_odd_inj; congruence.
Qed.

Lemma crc_steps_inj n x y :
  is_u32 x -> is_u32 y -> crc_steps n x = crc_steps n y -> x = y.
Proof.
  intros Hx Hy. induction n as [|n IH]; [done|]. cbn. intros H.
  apply IH. apply crc_step1_inj; [by apply crc_steps_u32..|done].
Qed.

Lemma crc_byte_inj s1 s2 b :
  is_u32 s1 -> is_u32 s2 -> crc_byte s1 b = crc_byte s2 b -> s1 = s2.
Proof.
  intros H1 H2 H. apply (lxor_cancel_r _ _ (byte_to_Z b)).
  apply (crc_steps_inj 8); [by apply lxor_u32, byte_u32..|done].
Qed.

Lemma crc_fold_inj s1 s2 p :
  is_u32 s1 -> is_u32 s2 -> foldl crc_byte s1 p = foldl crc_byte s2 p -> s1 = s2.
Proof.
  revert s1 s2; induction p as [|b p IH]; intros s1 s2 H1 H2 H; [done|].
  cbn in H. apply (crc_byte_inj _ _ b); [done..|].
  apply IH; [by apply crc_byte_u32..|done].
Qed.

(** ** Bursts of up to four bytes *)

(** Little-endian value of a byte string: how consecutive bytes enter the
    register. *)
Fixpoint le_value (l : bytes) : Z :=
  match l with
  | [] => 0
  | b :: l => Z.lxor (byte_to_Z b) (Z.shiftl (le_value l) 8)
  end.

Lemma crc_step1_linear x y : crc_step1 (Z.lxor x (2 * y)) = Z.lxor (crc_step1 x) y.
Proof.
  unfold crc_step1.
  replace (Z.odd (Z.lxor x (2 * y))) with (Z.odd x).
  2: { rewrite <- !Z.bit0_odd, Z.lxor_spec, Z.testbit_even_0. by rewrite xorb_false_r. }
  rewrite Z.shiftr_lxor.
  replace (Z.shiftr (2 * y) 1) with y.
  2: { rewrite <- Z.div2_spec, Z.div2_div, Z.mul_comm, Z.div_mul by lia. done. }
  destruct (Z.odd x); [|done].
  rewrite !Z.lxor_assoc. f_equal. apply Z.lxor_comm.
Qed.

Lemma crc_steps_linear n x y :
  crc_steps n (Z.lxor x (Z.shiftl y (Z.of_nat n))) = Z.lxor (crc_steps n x) y.
Proof.
  revert x y; induction n as [|n IH]; intros x y; [by rewrite Z.shiftl_0_r|].
  change (crc_steps (S n)) with (fun z => crc_step1 (crc_steps n z)). cbv beta.
  replace (Z.shiftl y (Z.of_nat (S n))) with (Z.shiftl (2 * y) (Z.of_nat n)).
  2: { rewrite !Z.shiftl_mul_pow2, Nat2Z.inj_succ, Z.pow_succ_r by lia. ring. }
  rewrite IH. apply crc_step1_linear.
Qed.

Lemma crc_fold_value s l :
  foldl crc_byte s l = crc_steps (8 * length l) (Z.lxor s (le_value l)).
Proof.
  revert s; induction l as [|b l IH]; intros s; cbn [foldl le_value length].
  - by rewrite Z.lxor_0_r.
  - rewrite IH. unfold crc_byte.
    rewrite <- (crc_steps_linear 8), Z.lxor_assoc.
    replace (8 * S (length l))%nat with (8 * length l + 8)%nat by lia.
    unfold crc_steps. by rewrite Nat.iter_add.
Qed.

Lemma le_value_bound l : 0 <= le_value l < 2 ^ (8 * Z.of_nat (length l)).
Proof.
  induction l as [|b l [IH1 IH2]]; [cbn; lia|].
  pose proof (byte_to_Z_bound b) as [Hb1 Hb2]. cbn [le_value].
  assert (0 <= Z.shiftl (le_value l) 8) by (apply Z.shiftl_nonneg; done).
  split; [apply Z.lxor_nonneg; lia|].
  change 256 with (2 ^ 8) in Hb2.
  rewrite Z.bounded_iff_bits_nonneg in IH2, Hb2 |- * by
    (try apply Z.lxor_nonneg; lia).
  intros k Hk. cbn [length] in Hk.
  rewrite Z.lxor_spec, Z.shiftl_spec by lia.
  rewrite Hb2, IH2 by lia. done.
Qed.

Lemma le_value_inj l1 l2 : length l1 = length l2 -> le_value l1 = le_value l2 -> l1 = l2.
Proof.
  revert l2; induction l1 as [|a l1 IH]; intros [|b l2] HL H; try discriminate HL; [done|].
  cbn [le_value] in H. injection HL as HL.
  assert (HM : forall c m, Z.lxor (byte_to_Z c) (Z.shiftl m 8) mod 256 = byte_to_Z c).
  { intros c m. change 256 with (2 ^ 8). rewrite <- Z.land_ones by lia.
    pose proof (byte_to_Z_bound c) as [Hc1 Hc2]. change 256 with (2 ^ 8) in Hc2.
    rewrite Z.bounded_iff_bits_nonneg in Hc2 by lia.
    apply Z.bits_inj'. intros k Hk.
    rewrite Z.land_spec, Z.lxor_spec, Z.shiftl_spec by lia.
    destruct (decide (k < 8)).
    - rewrite Z.ones_spec_low, andb_true_r, (Z.testbit_neg_r m) by lia.
      apply xorb_false_r.
    - rewrite Z.ones_spec_high, andb_false_r by lia. symmetry. apply Hc2. lia. }
  assert (a = b) as ->.
  { apply byte_to_Z_inj. by rewrite <- (HM a (le_value l1)), H, HM. }
  apply lxor_cancel_l in H. f_equal. apply IH; [done|].
  apply (f_equal (fun z => Z.shiftr z 8)) in H.
  by rewrite !Z.shiftr_shiftl_l, !Z.shiftl_0_r in H by lia.
Qed.

(** Replacing at most four consecutive bytes always changes the checksum. *)
Lemma crc32c_burst p m1 m2 q :
  length m1 = length m2 -> (length m1 <= 4)%nat ->
  crc32c (p ++ m1 ++ q) = crc32c (p ++ m2 ++ q) -> m1 = m2.
Proof.
  intros HL H4 H. unfold crc32c, crc_update in H.
  apply lxor_cancel_r in H. rewrite !foldl_app in H.
  set (s := foldl crc_byte (crc_not 0) p) in H.
  assert (Hs : is_u32 s) by (apply crc_fold_u32; by unfold is_u32, crc_not).
  apply crc_fold_inj in H; [|by apply crc_fold_u32..].
  rewrite !crc_fold_value, HL in H.
  assert (HR : forall m, (length m <= 4)%nat -> is_u32 (Z.lxor s (le_value m))).
  { intros m Hm. apply lxor_u32; [done|]. pose proof (le_value_bound m).
    unfold is_u32. assert (2 ^ (8 * Z.of_nat (length m)) <= 2 ^ 32)
      by (apply Z.pow_le_mono_r; lia). lia. }
  apply crc_steps_inj in H; [|apply HR; lia..].
  apply lxor_cancel_l in H. by apply le_value_inj.
Qed.

#[export] Hint Resolve crc32c_u32 : walkit.
