(* ===== verification/WalRecord.v ===== *)
(** * WalRecord: segment headers and WAL records

    [pkg/wal/header.go] and [pkg/wal/record.go]: the 16-byte header at the
    front of a segment file, the client record ("WALC") and the log record
    ("WALL"), with their encoders, checksums and decoders.  An [io.ReadSeeker]
    is a [Reader]: the file's bytes, an offset, and the offset from which reads
    fail, if any.  The theorems are the round trips in both directions, the
    classification of torn tails, and detection of corrupted bytes. *)

From S2P Require Import Prelude Bytes Crc32c.

#[local] Open Scope Z_scope.
#[local] Open Scope list_scope.

(** ** Errors *)

Inductive wal_error : Type :=
| EOF
| ErrUnexpectedEOF
| ErrIO
| ErrInvalidSegmentMagic
| ErrUnsupportedSegmentVersion
| ErrInvalidSegmentHeaderLength
| ErrTruncatedSegmentHeader
| ErrUnversionedSegment
| ErrCorruptedRecord
| ErrChecksumMismatch
| ErrTruncatedRecord
| ErrNilRecord
| ErrStreamIDLength
| ErrNotExist
| ErrSys.

#[export] Instance wal_error_eq_dec : EqDecision wal_error.
Proof. solve_decision. Defined.

(** ** Readers *)

(** [rd_fault = Some f]: reading at or after offset [f] fails with an I/O
    error instead of returning data. *)
Record Reader : Type := mkReader {
  rd_data : bytes;
  rd_pos : nat;
  rd_fault : option nat;
}.

Definition rd_readable (r : Reader) : bytes :=
  drop (rd_pos r)
    (match rd_fault r with None => rd_data r | Some f => take f (rd_data r) end).

Definition rd_seek (r : Reader) (p : nat) : Reader :=
  mkReader (rd_data r) p (rd_fault r).

Definition rd_advance (r : Reader) (n : nat) : Reader := rd_seek r (rd_pos r + n).

(** A reader at the start of a file that reads without faults. *)
Definition reader_of (data : bytes) : Reader := mkReader data 0 None.

(** [io.ReadFull(r, buf)] for a buffer of [n] bytes: the bytes obtained and the
    error, [EOF] only when no byte was read. *)
Definition read_full (r : Reader) (n : Z) : Reader * bytes * option wal_error :=
  let av := rd_readable r in
  if n <=? Z.of_nat (length av) then
    (rd_advance r (Z.to_nat n), take (Z.to_nat n) av, None)
  else
    (rd_advance r (length av), av,
     Some (match rd_fault r with
           | Some _ => ErrIO
           | None => match av with [] => EOF | _ :: _ => ErrUnexpectedEOF end
           end)).

(** ** Segment header *)

Definition SegmentMagicBytes : bytes := go "OFWL".
Definition SegmentVersion : Z := 1.
Definition SegmentHeaderSize : Z := 16.
Definition ClientMagicBytes : bytes := go "WALC".
Definition LogMagicBytes : bytes := go "WALL".

Record SegmentHeader : Type := mkSegmentHeader {
  sh_Magic : bytes;
  sh_Version : Z;
  sh_HeaderLength : Z;
  sh_Reserved : bytes;
}.

Definition zero_SegmentHeader : SegmentHeader :=
  mkSegmentHeader (replicate 4 x00) 0 0 (replicate 8 x00).

Definition SegmentHeader_Encode (h : SegmentHeader) : bytes :=
  sh_Magic h ++ be_encode 2 (sh_Version h) ++ be_encode 2 (sh_HeaderLength h) ++ sh_Reserved h.

Definition DefaultSegmentHeader : SegmentHeader :=
  mkSegmentHeader SegmentMagicBytes SegmentVersion SegmentHeaderSize (replicate 8 x00).

Definition ReadSegmentHeader (r : Reader) (acceptUnversioned : bool)
    : Reader * result wal_error (SegmentHeader * Z) :=
  let '(r1, got, err) := read_full r SegmentHeaderSize in
  let n := length got in
  match err with
  | Some EOF => (r1, Err EOF)
  | _ =>
    if match err with Some _ => (n <? 4)%nat | None => false end
    then (r1, Err ErrTruncatedSegmentHeader)
    else
    let buf := got ++ replicate (16 - n) x00 in
    let magic := slice 0 4 buf in
    if decide (magic = SegmentMagicBytes) then
      if Z.of_nat n <? SegmentHeaderSize then (r1, Err ErrTruncatedSegmentHeader)
      else
      let ver := be_decode (slice 4 6 buf) in
      if SegmentVersion <? ver then (r1, Err ErrUnsupportedSegmentVersion)
      else
      let hdrLen := be_decode (slice 6 8 buf) in
      if hdrLen <? 8 then (r1, Err ErrInvalidSegmentHeaderLength)
      else
      let reserved := slice 8 16 buf in
      let r2 := if hdrLen =? Z.of_nat n then r1 else rd_seek r1 (Z.to_nat hdrLen) in
      (r2, Ok (mkSegmentHeader magic ver hdrLen reserved, hdrLen))
    else if decide (magic = ClientMagicBytes \/ magic = LogMagicBytes) then
      if acceptUnversioned then (rd_seek r1 0, Ok (zero_SegmentHeader, 0))
      else (r1, Err ErrUnversionedSegment)
    else (r1, Err ErrInvalidSegmentMagic)
  end.

(** ** Client records *)

Definition ClientHeaderSize : Z := 36.
Definition LogHeaderSize : Z := 44.

Record ClientRecord : Type := mkClientRecord {
  cr_StreamID : bytes;
  cr_StreamSeq : Z;
  cr_Payload : bytes;
  cr_CRC32C : Z;
}.

(** The 36 header bytes with the given checksum field; [uint32(len(...))]
    truncates, as [be_encode 4] does. *)
Definition client_header (id : bytes) (seq : Z) (len : Z) (crc : Z) : bytes :=
  ClientMagicBytes ++ id ++ be_encode 8 seq ++ be_encode 4 len ++ be_encode 4 crc.

Definition ClientRecord_ComputeCRC32C (r : ClientRecord) : Z :=
  let hdr := client_header (cr_StreamID r) (cr_StreamSeq r)
               (Z.of_nat (length (cr_Payload r))) 0 in
  crc_update (crc_update 0 hdr) (cr_Payload r).

(** The receiver's [CRC32C] field is set as a side effect. *)
Definition ClientRecord_Encode (r : ClientRecord) : ClientRecord * bytes :=
  let crc := ClientRecord_ComputeCRC32C r in
  (mkClientRecord (cr_StreamID r) (cr_StreamSeq r) (cr_Payload r) crc,
   client_header (cr_StreamID r) (cr_StreamSeq r)
     (Z.of_nat (length (cr_Payload r))) crc ++ cr_Payload r).

Definition DecodeClientRecord (r : Reader) : Reader * result wal_error ClientRecord :=
  let '(r1, hdr, err) := read_full r ClientHeaderSize in
  match err with
  | Some EOF => (r1, Err EOF)
  | Some ErrUnexpectedEOF => (r1, Err ErrTruncatedRecord)
  | Some e => (r1, Err e)
  | None =>
    if decide (slice 0 4 hdr = ClientMagicBytes) then
      let streamID := slice 4 20 hdr in
      let streamSeq := be_decode (slice 20 28 hdr) in
      let len := be_decode (slice 28 32 hdr) in
      let expectedCRC := be_decode (slice 32 36 hdr) in
      let '(r2, payload, perr) :=
        if 0 <? len then read_full r1 len else (r1, [], None) in
      match perr with
      | Some EOF | Some ErrUnexpectedEOF => (r2, Err ErrTruncatedRecord)
      | Some e => (r2, Err e)
      | None =>
        let rec := mkClientRecord streamID streamSeq payload expectedCRC in
        if ClientRecord_ComputeCRC32C rec =? expectedCRC then (r2, Ok rec)
        else (r2, Err ErrChecksumMismatch)
      end
    else (r1, Err ErrCorruptedRecord)
  end.

(** [pb.AppendRecord], the message a client sends. *)
Record AppendRecord : Type := mkAppendRecord {
  ar_StreamSeq : Z;
  ar_Payload : bytes;
  ar_Crc32C : Z;
}.

Definition ClientRecord_ToAppendProto (r : ClientRecord) : ClientRecord * AppendRecord :=
  let crc := if cr_CRC32C r =? 0 then ClientRecord_ComputeCRC32C r else cr_CRC32C r in
  (mkClientRecord (cr_StreamID r) (cr_StreamSeq r) (cr_Payload r) crc,
   mkAppendRecord (cr_StreamSeq r) (cr_Payload r) crc).

(** ** Log records *)

Record LogRecord : Type := mkLogRecord {
  lr_Position : Z;
  lr_StreamID : bytes;
  lr_StreamSeq : Z;
  lr_Payload : bytes;
  lr_CRC32C : Z;
}.

Definition log_header (pos : Z) (id : bytes) (seq : Z) (len : Z) (crc : Z) : bytes :=
  LogMagicBytes ++ be_encode 8 pos ++ id ++ be_encode 8 seq ++ be_encode 4 len
    ++ be_encode 4 crc.

Definition LogRecord_ComputeCRC32C (r : LogRecord) : Z :=
  let hdr := log_header (lr_Position r) (lr_StreamID r) (lr_StreamSeq r)
               (Z.of_nat (length (lr_Payload r))) 0 in
  crc_update (crc_update 0 hdr) (lr_Payload r).

(** A non-zero [CRC32C] field is written as it is. *)
Definition LogRecord_Encode (r : LogRecord) : bytes :=
  let crc := if lr_CRC32C r =? 0 then LogRecord_ComputeCRC32C r else lr_CRC32C r in
  log_header (lr_Position r) (lr_StreamID r) (lr_StreamSeq r)
    (Z.of_nat (length (lr_Payload r))) crc ++ lr_Payload r.

Definition DecodeLogRecord (r : Reader) : Reader * result wal_error LogRecord :=
  let '(r1, hdr, err) := read_full r LogHeaderSize in
  match err with
  | Some EOF => (r1, Err EOF)
  | Some ErrUnexpectedEOF => (r1, Err ErrTruncatedRecord)
  | Some e => (r1, Err e)
  | None =>
    if decide (slice 0 4 hdr = LogMagicBytes) then
      let position := be_decode (slice 4 12 hdr) in
      let streamID := slice 12 28 hdr in
      let streamSeq := be_decode (slice 28 36 hdr) in
      let len := be_decode (slice 36 40 hdr) in
      let expectedCRC := be_decode (slice 40 44 hdr) in
      let '(r2, payload, perr) :=
        if 0 <? len then read_full r1 len else (r1, [], None) in
      match perr with
      | Some EOF | Some ErrUnexpectedEOF => (r2, Err ErrTruncatedRecord)
      | Some e => (r2, Err e)
      | None =>
        let rec := mkLogRecord position streamID streamSeq payload expectedCRC in
        if LogRecord_ComputeCRC32C rec =? expectedCRC then (r2, Ok rec)
        else (r2, Err ErrChecksumMismatch)
      end
    else (r1, Err ErrCorruptedRecord)
  end.

(** [pb.LogRecord] on the wire to tail readers. *)
Record PbLogRecord : Type := mkPbLogRecord {
  pl_Position : Z;
  pl_StreamId : bytes;
  pl_StreamSeq : Z;
  pl_Payload : bytes;
  pl_Crc32C : Z;
}.

Definition LogRecord_ToProto (r : LogRecord) : PbLogRecord :=
  let crc := if lr_CRC32C r =? 0 then LogRecord_ComputeCRC32C r else lr_CRC32C r in
  mkPbLogRecord (lr_Position r) (lr_StreamID r) (lr_StreamSeq r) (lr_Payload r) crc.

(** [None] is the nil message. *)
Definition FromProto (p : option PbLogRecord) : result wal_error LogRecord :=
  match p with
  | None => Err ErrNilRecord
  | Some p =>
    if negb (Z.of_nat (length (pl_StreamId p)) =? 16) then Err ErrStreamIDLength
    else
    let rec := mkLogRecord (pl_Position p) (pl_StreamId p) (pl_StreamSeq p)
                 (pl_Payload p) (pl_Crc32C p) in
    if lr_CRC32C rec =? 0 then
      Ok (mkLogRecord (pl_Position p) (pl_StreamId p) (pl_StreamSeq p)
            (pl_Payload p) (LogRecord_ComputeCRC32C rec))
    else Ok rec
  end.

(** ** Readers: facts *)

Lemma rd_readable_advance r n : rd_readable (rd_advance r n) = drop n (rd_readable r).
Proof. unfold rd_readable, rd_advance, rd_seek; cbn. by rewrite drop_drop. Qed.

Lemma rd_fault_advance r n : rd_fault (rd_advance r n) = rd_fault r.
Proof. done. Qed.

Lemma rd_readable_seek0 data : rd_readable (rd_seek (reader_of data) 0) = data.
Proof. done. Qed.

Lemma rd_advance_advance r n m : rd_advance (rd_advance r n) m = rd_advance r (n + m).
Proof. unfold rd_advance, rd_seek; cbn. f_equal. lia. Qed.

Lemma rd_advance_0 r : rd_advance r 0 = r.
Proof. destruct r. unfold rd_advance, rd_seek; cbn. f_equal. lia. Qed.

Lemma read_full_app r n p rest :
  rd_readable r = p ++ rest -> n = Z.of_nat (length p) ->
  read_full r n = (rd_advance r (length p), p, None).
Proof.
  intros Hr ->. unfold read_full. rewrite Hr.
  rewrite (proj2 (Z.leb_le _ _)) by (rewrite length_app; lia).
  by rewrite Nat2Z.id, take_app_length.
Qed.

Lemma read_full_short r n p :
  rd_readable r = p -> Z.of_nat (length p) < n -> rd_fault r = None ->
  read_full r n =
    (rd_advance r (length p), p,
     Some (match p with [] => EOF | _ :: _ => ErrUnexpectedEOF end)).
Proof.
  intros <- Hn Hf. unfold read_full.
  rewrite (proj2 (Z.leb_gt _ _)) by lia. by rewrite Hf.
Qed.

Lemma read_full_ok r n r' p :
  0 <= n -> read_full r n = (r', p, None) ->
  Z.of_nat (length p) = n /\ r' = rd_advance r (length p) /\
  rd_readable r = p ++ rd_readable r'.
Proof.
  unfold read_full. intros Hn H.
  destruct (n <=? _) eqn:E; [|discriminate H]. zify_bool. injection H as <- <-.
  rewrite length_take, Nat.min_l by lia.
  split; [lia|]. split; [done|].
  by rewrite rd_readable_advance, take_drop.
Qed.

(** ** Slices of a header *)

Lemma slice_split {A} (a b c : nat) (l : list A) :
  (a <= b <= c)%nat -> slice a c l = slice a b l ++ slice b c l.
Proof.
  intros H. unfold slice. replace (c - a)%nat with ((b - a) + (c - b))%nat by lia.
  rewrite <- (take_take_drop (drop a l)), drop_drop. do 3 f_equal. lia.
Qed.

Lemma slice_exact {A} (lo hi : nat) (l : list A) :
  lo = 0%nat -> hi = length l -> slice lo hi l = l.
Proof. intros -> ->. apply slice_full. Qed.

Ltac slice_len :=
  repeat match goal with H : length _ = _ |- _ => rewrite H end;
  rewrite ?length_be_encode; cbn [length]; lia.

(** Evaluates the slices of a concatenation of fields of known lengths. *)
Ltac slices :=
  repeat first
    [ rewrite slice_app_r by slice_len
    | rewrite slice_app_l by slice_len
    | rewrite slice_exact by slice_len
    | progress (rewrite ?length_be_encode;
                repeat match goal with H : length _ = _ |- context [length ?x] => rewrite H end;
                cbn [Nat.sub length]) ].

(** ** Client records: facts *)

Definition wf_uuid (id : bytes) : Prop := length id = 16%nat.

(** Records the encoder can represent: the payload length fits its field. *)
Definition client_encodable (r : ClientRecord) : Prop :=
  wf_uuid (cr_StreamID r) /\ is_u64 (cr_StreamSeq r) /\
  Z.of_nat (length (cr_Payload r)) < 2 ^ 32.

(** Records as the decoder returns them. *)
Definition client_ok (r : ClientRecord) : Prop :=
  client_encodable r /\ cr_CRC32C r = ClientRecord_ComputeCRC32C r.

Definition client_bytes (r : ClientRecord) : bytes := snd (ClientRecord_Encode r).

Lemma ClientMagic_length : length ClientMagicBytes = 4%nat.
Proof. done. Qed.
Lemma LogMagic_length : length LogMagicBytes = 4%nat.
Proof. done. Qed.

Lemma client_header_length id seq len crc :
  wf_uuid id -> length (client_header id seq len crc) = 36%nat.
Proof.
  unfold wf_uuid, client_header. intros H.
  rewrite !length_app, !length_be_encode, H, ClientMagic_length. lia.
Qed.

Lemma client_crc_eq r :
  ClientRecord_ComputeCRC32C r =
  crc32c (client_header (cr_StreamID r) (cr_StreamSeq r)
            (Z.of_nat (length (cr_Payload r))) 0 ++ cr_Payload r).
Proof. unfold ClientRecord_ComputeCRC32C. apply crc_update_app. Qed.

Lemma client_crc_u32 r : is_u32 (ClientRecord_ComputeCRC32C r).
Proof. rewrite client_crc_eq. apply crc32c_u32. Qed.

Lemma client_header_fields id seq len crc :
  wf_uuid id -> is_u64 seq -> is_u32 len -> is_u32 crc ->
  let h := client_header id seq len crc in
  slice 0 4 h = ClientMagicBytes /\ slice 4 20 h = id /\
  be_decode (slice 20 28 h) = seq /\ be_decode (slice 28 32 h) = len /\
  be_decode (slice 32 36 h) = crc.
Proof.
  unfold wf_uuid, client_header. intros Hid Hs Hl Hc. cbv zeta.
  pose proof ClientMagic_length as HM.
  repeat split; slices; try done; rewrite be_decode_encode; auto.
Qed.

(** Whatever the header says, a decode of [header ++ payload ++ rest] whose
    length field is right reduces to the checksum test. *)
Lemma DecodeClientRecord_frame rd id seq payload crc rest :
  wf_uuid id -> is_u64 seq -> Z.of_nat (length payload) < 2 ^ 32 -> is_u32 crc ->
  rd_readable rd = client_header id seq (Z.of_nat (length payload)) crc ++ payload ++ rest ->
  let rec := mkClientRecord id seq payload crc in
  DecodeClientRecord rd =
    (rd_advance rd (36 + length payload),
     if ClientRecord_ComputeCRC32C rec =? crc then Ok rec else Err ErrChecksumMismatch).
Proof.
  intros Hid Hs Hl Hc Hr. cbv zeta.
  pose proof (client_header_length id seq (Z.of_nat (length payload)) crc Hid) as HL.
  assert (is_u32 (Z.of_nat (length payload))) as Hl32 by (unfold is_u32; lia).
  destruct (client_header_fields id seq (Z.of_nat (length payload)) crc Hid Hs Hl32 Hc)
    as (F1 & F2 & F3 & F4 & F5).
  unfold DecodeClientRecord.
  rewrite (read_full_app _ _ _ _ Hr) by (rewrite HL; done).
  rewrite decide_True by done. rewrite F2, F3, F4, F5.
  destruct (0 <? Z.of_nat (length payload)) eqn:E; zify_bool.
  - rewrite (read_full_app _ _ payload rest) by
      (rewrite ?rd_readable_advance, ?Hr, ?drop_app_length; done).
    rewrite rd_advance_advance, HL. by destruct (_ =? crc).
  - assert (length payload = 0%nat) as E0 by lia.
    apply nil_length_inv in E0 as ->. rewrite HL. cbn [length].
    by destruct (_ =? crc).
Qed.

Lemma client_bytes_eq r :
  client_bytes r =
  client_header (cr_StreamID r) (cr_StreamSeq r) (Z.of_nat (length (cr_Payload r)))
    (ClientRecord_ComputeCRC32C r) ++ cr_Payload r.
Proof. done. Qed.

Lemma client_bytes_length r :
  wf_uuid (cr_StreamID r) -> length (client_bytes r) = (36 + length (cr_Payload r))%nat.
Proof.
  intros H. rewrite client_bytes_eq, length_app, client_header_length; done.
Qed.

Lemma client_crc_field id seq p c c' :
  ClientRecord_ComputeCRC32C (mkClientRecord id seq p c) =
  ClientRecord_ComputeCRC32C (mkClientRecord id seq p c').
Proof. done. Qed.

Lemma client_decode_encode rd r rest :
  client_ok r -> rd_readable rd = client_bytes r ++ rest ->
  DecodeClientRecord rd = (rd_advance rd (length (client_bytes r)), Ok r).
Proof.
  intros [(Hid & Hs & Hl) Hc] Hr.
  rewrite client_bytes_length by done.
  rewrite client_bytes_eq, <- app_assoc in Hr.
  rewrite (DecodeClientRecord_frame _ _ _ _ _ _ Hid Hs Hl (client_crc_u32 _) Hr).
  rewrite <- Hc. destruct r as [id seq p c].
  cbn [cr_StreamID cr_StreamSeq cr_Payload cr_CRC32C] in *.
  rewrite <- Hc. by rewrite Z.eqb_refl.
Qed.

(** What a header of 36 bytes with the right magic looks like. *)
Lemma client_header_rebuild hdr :
  length hdr = 36%nat -> slice 0 4 hdr = ClientMagicBytes ->
  hdr = client_header (slice 4 20 hdr) (be_decode (slice 20 28 hdr))
          (be_decode (slice 28 32 hdr)) (be_decode (slice 32 36 hdr)).
Proof.
  intros HL HM. unfold client_header. rewrite <- HM.
  rewrite !be_encode_decode by (rewrite slice_length; lia).
  rewrite <- !slice_split by lia. rewrite <- HL. by rewrite slice_full.
Qed.

Lemma client_decode_sound rd rd' r :
  DecodeClientRecord rd = (rd', Ok r) ->
  client_ok r /\ rd_readable rd = client_bytes r ++ rd_readable rd' /\
  rd' = rd_advance rd (length (client_bytes r)).
Proof.
  unfold DecodeClientRecord.
  destruct (read_full rd ClientHeaderSize) as [[r1 hdr] err] eqn:EH.
  destruct err as [e|]; [by destruct e|].
  apply read_full_ok in EH as (HL & -> & HR); [|done].
  assert (length hdr = 36%nat) as HL' by (unfold ClientHeaderSize in HL; lia).
  destruct (decide _) as [HM|]; [|done].
  set (len := be_decode (slice 28 32 hdr)).
  assert (is_u32 len) as Hlen.
  { pose proof (be_decode_bound (slice 28 32 hdr)) as HB.
    rewrite slice_length in HB by lia. exact HB. }
  destruct (if 0 <? len then _ else _) as [[r2 payload] perr] eqn:EP.
  destruct perr as [e|]; [by destruct e|].
  assert (Z.of_nat (length payload) = len /\
          r2 = rd_advance rd (36 + length payload) /\
          rd_readable rd = hdr ++ payload ++ rd_readable r2) as (HPL & -> & HPR).
  { destruct (0 <? len) eqn:E0; zify_bool.
    - apply read_full_ok in EP as (H1 & -> & H2); [|lia].
      rewrite rd_advance_advance, HL' in *. rewrite HR, H2. done.
    - unfold is_u32 in Hlen. injection EP as <- <-. cbn [length]. split; [lia|].
      rewrite Nat.add_0_r, <- HL'. done. }
  intros H. destruct (_ =? be_decode (slice 32 36 hdr)) eqn:EC; [|done]. zify_bool.
  injection H as <- <-. clear EP.
  pose proof (client_header_rebuild hdr HL' HM) as HE.
  pose proof (be_decode_bound (slice 20 28 hdr)) as HB. rewrite slice_length in HB by lia.
  assert (client_bytes (mkClientRecord (slice 4 20 hdr) (be_decode (slice 20 28 hdr)) payload
      (be_decode (slice 32 36 hdr))) = hdr ++ payload) as Hb.
  { rewrite client_bytes_eq. cbn [cr_StreamID cr_StreamSeq cr_Payload].
    rewrite EC, HPL. unfold len. by rewrite <- HE. }
  split.
  - split; [|by rewrite EC].
    unfold client_encodable; cbn [cr_StreamID cr_StreamSeq cr_Payload].
    split; [|split].
    + unfold wf_uuid. rewrite slice_length; lia.
    + exact HB.
    + unfold is_u32 in Hlen. lia.
  - rewrite Hb, <- app_assoc, length_app, HL'. done.
Qed.

(** A strictly shorter remainder of a record is reported as torn, never as a
    record; an empty one is a clean end of file. *)
Lemma client_decode_torn rd r p q :
  client_encodable r -> client_bytes r = p ++ q -> q <> [] ->
  rd_readable rd = p -> rd_fault rd = None ->
  exists rd', DecodeClientRecord rd =
    (rd', Err (match p with [] => EOF | _ :: _ => ErrTruncatedRecord end)).
Proof.
  intros (Hid & Hs & Hl) HB Hq Hr Hf.
  pose proof (client_bytes_length r Hid) as HLB. rewrite HB, length_app in HLB.
  assert (0 < length q)%nat by (destruct q; [done|cbn; lia]).
  unfold DecodeClientRecord.
  destruct (decide (length p < 36)%nat) as [Hshort|Hlong].
  - rewrite (read_full_short _ _ _ Hr) by (done || unfold ClientHeaderSize; lia).
    destruct p; eexists; done.
  - rewrite client_bytes_eq in HB. set (h := client_header _ _ _ _) in HB.
    assert (length h = 36%nat) as HLh by (by apply client_header_length).
    assert (p = h ++ drop 36 p) as Hp.
    { rewrite <- (take_drop 36 p) at 1. f_equal.
      rewrite <- (take_app_le p q) by lia. rewrite <- HB.
      rewrite <- HLh. apply take_app_length. }
    rewrite Hp in Hr.
    rewrite (read_full_app _ _ _ _ Hr) by (rewrite HLh; done).
    assert (is_u32 (Z.of_nat (length (cr_Payload r)))) as Hl32 by (unfold is_u32; lia).
    destruct (client_header_fields _ _ _ _ Hid Hs Hl32 (client_crc_u32 r))
      as (F1 & _ & _ & F4 & _). fold h in F1, F4.
    rewrite decide_True by done. rewrite F4.
    rewrite (proj2 (Z.ltb_lt _ _)) by lia.
    rewrite (read_full_short _ _ (drop 36 p)).
    + destruct p; [cbn in Hlong; lia|]. destruct (drop 36 _); eexists; done.
    + rewrite rd_readable_advance, Hr. apply drop_app_length.
    + rewrite length_drop. lia.
    + done.
Qed.

(** ** Corruption of a client record on disk

    [corrupt data off m] overwrites [data] from offset [off] with [m]. *)
Definition corrupt (data : bytes) (off : nat) (m : bytes) : bytes :=
  take off data ++ m ++ drop (off + length m) data.

(** The bytes a record's checksum vouches for: everything but the magic, the
    length field and the checksum field themselves; the offset and length of a
    corrupted region must stay inside one protected field group. *)
Definition client_protected (r : ClientRecord) (off len : nat) : Prop :=
  (4 <= off /\ off + len <= 28)%nat \/
  (36 <= off /\ off + len <= 36 + length (cr_Payload r))%nat.

Lemma corrupt_app_l a b off m :
  (off + length m <= length a)%nat -> corrupt (a ++ b) off m = corrupt a off m ++ b.
Proof.
  intros H. unfold corrupt. rewrite take_app_le, drop_app_le by lia.
  by rewrite <- !app_assoc.
Qed.

Lemma corrupt_app_r a b off m :
  (length a <= off)%nat -> corrupt (a ++ b) off m = a ++ corrupt b (off - length a) m.
Proof.
  intros H. unfold corrupt. rewrite take_app_ge, drop_app_ge by lia.
  rewrite <- app_assoc.
  by replace (off + length m - length a)%nat with (off - length a + length m)%nat by lia.
Qed.

Lemma corrupt_length a off m :
  (off + length m <= length a)%nat -> length (corrupt a off m) = length a.
Proof. intros H. unfold corrupt. rewrite !length_app, length_take, length_drop. lia. Qed.

Lemma crc32c_corrupt a off m :
  (off + length m <= length a)%nat -> (length m <= 4)%nat ->
  slice off (off + length m) a <> m -> crc32c (corrupt a off m) <> crc32c a.
Proof.
  intros Hin Hm Hne Heq. apply Hne.
  unfold slice. replace (off + length m - off)%nat with (length m) by lia.
  symmetry. apply (crc32c_burst (take off a) m _ (drop (off + length m) a)).
  - rewrite length_take, length_drop. lia.
  - done.
  - rewrite <- drop_drop, take_drop, take_drop, drop_drop. exact Heq.
Qed.

(** The identity fields (stream id and sequence) as one block of 24 bytes. *)
Lemma client_header_ids ids len crc :
  length ids = 24%nat ->
  client_header (take 16 ids) (be_decode (drop 16 ids)) len crc =
  ClientMagicBytes ++ ids ++ be_encode 4 len ++ be_encode 4 crc.
Proof.
  intros H. unfold client_header.
  rewrite be_encode_decode by (rewrite length_drop; lia).
  by rewrite (app_assoc (take 16 ids)), take_drop.
Qed.

Lemma client_corrupt_ids id seq off (m : bytes) :
  wf_uuid id -> (4 <= off)%nat -> (off + length m <= 28)%nat ->
  exists id' seq', wf_uuid id' /\ is_u64 seq' /\ forall len c rest,
    corrupt (client_header id seq len c ++ rest) off m =
    client_header id' seq' len c ++ rest.
Proof.
  unfold wf_uuid. intros Hid H1 H2.
  set (ids := corrupt (id ++ be_encode 8 seq) (off - 4) m).
  assert (length (id ++ be_encode 8 seq) = 24%nat) as HL
    by (rewrite length_app, length_be_encode, Hid; done).
  assert (length ids = 24%nat) as HL' by (unfold ids; rewrite corrupt_length; lia).
  exists (take 16 ids), (be_decode (drop 16 ids)).
  split; [rewrite length_take; lia|]. split.
  { pose proof (be_decode_bound (drop 16 ids)) as HB. rewrite length_drop, HL' in HB.
    exact HB. }
  intros len c rest.
  rewrite client_header_ids by done. unfold client_header, ids.
  rewrite <- !app_assoc, corrupt_app_r by (rewrite ClientMagic_length; lia).
  rewrite (app_assoc id), corrupt_app_l by (rewrite HL, ClientMagic_length; lia).
  by rewrite ClientMagic_length.
Qed.

(** Slices before the checksum field do not depend on it. *)
Lemma client_slice_crc id seq len c c' p off n :
  wf_uuid id -> (off + n <= 32)%nat \/ (36 <= off)%nat ->
  slice off (off + n) (client_header id seq len c ++ p) =
  slice off (off + n) (client_header id seq len c' ++ p).
Proof.
  intros Hid Hr.
  set (h := ClientMagicBytes ++ id ++ be_encode 8 seq ++ be_encode 4 len).
  assert (HP : forall x, client_header id seq len x ++ p = h ++ be_encode 4 x ++ p)
    by (intros; unfold client_header, h; by rewrite <- !app_assoc).
  assert (length h = 32%nat).
  { unfold h. rewrite !length_app, !length_be_encode, Hid, ClientMagic_length. done. }
  destruct Hr as [Hr|Hr].
  - rewrite !HP, !slice_app_l by lia. done.
  - rewrite !slice_app_r by (rewrite client_header_length; done).
    by rewrite !client_header_length.
Qed.

Lemma client_detects rd r off m rest :
  client_encodable r -> client_protected r off (length m) -> (length m <= 4)%nat ->
  slice off (off + length m) (client_bytes r) <> m ->
  rd_readable rd = corrupt (client_bytes r) off m ++ rest ->
  snd (DecodeClientRecord rd) = Err ErrChecksumMismatch.
Proof.
  intros (Hid & Hs & Hl) Hp Hm Hne Hr. rewrite client_bytes_eq in Hne, Hr.
  set (c := ClientRecord_ComputeCRC32C r) in *.
  set (L := Z.of_nat (length (cr_Payload r))) in *.
  assert (HC : is_u32 c) by apply client_crc_u32.
  assert (Hc : c = crc32c (client_header (cr_StreamID r) (cr_StreamSeq r) L 0 ++ cr_Payload r))
    by apply client_crc_eq.
  assert (Hbad : crc32c (corrupt (client_header (cr_StreamID r) (cr_StreamSeq r) L 0
                   ++ cr_Payload r) off m) <> c).
  { rewrite Hc. apply crc32c_corrupt; [|done|].
    - rewrite length_app, client_header_length by done. destruct Hp; lia.
    - rewrite (client_slice_crc _ _ _ 0 c) by (done || destruct Hp; lia). exact Hne. }
  destruct Hp as [[H1 H2]|[H1 H2]].
  - destruct (client_corrupt_ids (cr_StreamID r) (cr_StreamSeq r) off m Hid H1 H2)
      as (id' & seq' & Hid' & Hs' & HE).
    rewrite HE, <- app_assoc in Hr. rewrite HE in Hbad.
    rewrite (DecodeClientRecord_frame _ _ _ _ _ _ Hid' Hs' Hl HC Hr).
    rewrite client_crc_eq. cbn [snd cr_StreamID cr_StreamSeq cr_Payload]. fold L.
    by rewrite (proj2 (Z.eqb_neq _ _) Hbad).
  - assert (HE : forall x, corrupt (client_header (cr_StreamID r) (cr_StreamSeq r) L x
        ++ cr_Payload r) off m = client_header (cr_StreamID r) (cr_StreamSeq r) L x
        ++ corrupt (cr_Payload r) (off - 36) m).
    { intros x. rewrite corrupt_app_r by (rewrite client_header_length; done).
      by rewrite client_header_length. }
    rewrite HE in Hr, Hbad. rewrite <- app_assoc in Hr.
    assert (HL : L = Z.of_nat (length (corrupt (cr_Payload r) (off - 36) m)))
      by (unfold L; rewrite corrupt_length; lia).
    rewrite HL in Hr, Hbad, Hl.
    rewrite (DecodeClientRecord_frame _ _ _ _ _ _ Hid Hs Hl HC Hr).
    rewrite client_crc_eq. cbn [snd cr_StreamID cr_StreamSeq cr_Payload].
    by rewrite (proj2 (Z.eqb_neq _ _) Hbad).
Qed.

(** ** Log records: facts *)

Definition log_encodable (r : LogRecord) : Prop :=
  wf_uuid (lr_StreamID r) /\ is_u64 (lr_Position r) /\ is_u64 (lr_StreamSeq r) /\
  Z.of_nat (length (lr_Payload r)) < 2 ^ 32.

(** Records as the decoder returns them: the checksum field is the checksum. *)
Definition log_ok (r : LogRecord) : Prop :=
  log_encodable r /\ lr_CRC32C r = LogRecord_ComputeCRC32C r.

Lemma log_header_length pos id seq len crc :
  wf_uuid id -> length (log_header pos id seq len crc) = 44%nat.
Proof.
  unfold wf_uuid, log_header. intros H.
  rewrite !length_app, !length_be_encode, H, LogMagic_length. lia.
Qed.

Lemma log_crc_eq r :
  LogRecord_ComputeCRC32C r =
  crc32c (log_header (lr_Position r) (lr_StreamID r) (lr_StreamSeq r)
            (Z.of_nat (length (lr_Payload r))) 0 ++ lr_Payload r).
Proof. unfold LogRecord_ComputeCRC32C. apply crc_update_app. Qed.

Lemma log_crc_u32 r : is_u32 (LogRecord_ComputeCRC32C r).
Proof. rewrite log_crc_eq. apply crc32c_u32. Qed.

Lemma log_header_fields pos id seq len crc :
  is_u64 pos -> wf_uuid id -> is_u64 seq -> is_u32 len -> is_u32 crc ->
  let h := log_header pos id seq len crc in
  slice 0 4 h = LogMagicBytes /\ be_decode (slice 4 12 h) = pos /\ slice 12 28 h = id /\
  be_decode (slice 28 36 h) = seq /\ be_decode (slice 36 40 h) = len /\
  be_decode (slice 40 44 h) = crc.
Proof.
  unfold wf_uuid, log_header. intros Hp Hid Hs Hl Hc. cbv zeta.
  pose proof LogMagic_length as HM.
  repeat split; slices; try done; rewrite be_decode_encode; auto.
Qed.

Lemma DecodeLogRecord_frame rd pos id seq payload crc rest :
  is_u64 pos -> wf_uuid id -> is_u64 seq -> Z.of_nat (length payload) < 2 ^ 32 ->
  is_u32 crc ->
  rd_readable rd = log_header pos id seq (Z.of_nat (length payload)) crc ++ payload ++ rest ->
  let rec := mkLogRecord pos id seq payload crc in
  DecodeLogRecord rd =
    (rd_advance rd (44 + length payload),
     if LogRecord_ComputeCRC32C rec =? crc then Ok rec else Err ErrChecksumMismatch).
Proof.
  intros Hp Hid Hs Hl Hc Hr. cbv zeta.
  pose proof (log_header_length pos id seq (Z.of_nat (length payload)) crc Hid) as HL.
  assert (is_u32 (Z.of_nat (length payload))) as Hl32 by (unfold is_u32; lia).
  destruct (log_header_fields pos id seq (Z.of_nat (length payload)) crc Hp Hid Hs Hl32 Hc)
    as (F1 & F0 & F2 & F3 & F4 & F5).
  unfold DecodeLogRecord.
  rewrite (read_full_app _ _ _ _ Hr) by (rewrite HL; done).
  rewrite decide_True by done. rewrite F0, F2, F3, F4, F5.
  destruct (0 <? Z.of_nat (length payload)) eqn:E; zify_bool.
  - rewrite (read_full_app _ _ payload rest) by
      (rewrite ?rd_readable_advance, ?Hr, ?drop_app_length; done).
    rewrite rd_advance_advance, HL. by destruct (_ =? crc).
  - assert (length payload = 0%nat) as E0 by lia.
    apply nil_length_inv in E0 as ->. rewrite HL. cbn [length].
    by destruct (_ =? crc).
Qed.

Lemma log_bytes_ok r :
  lr_CRC32C r = 0 \/ lr_CRC32C r = LogRecord_ComputeCRC32C r ->
  LogRecord_Encode r =
  log_header (lr_Position r) (lr_StreamID r) (lr_StreamSeq r)
    (Z.of_nat (length (lr_Payload r))) (LogRecord_ComputeCRC32C r) ++ lr_Payload r.
Proof.
  intros H. unfold LogRecord_Encode. destruct (lr_CRC32C r =? 0) eqn:E; [done|].
  zify_bool. destruct H as [H|H]; [done|by rewrite H].
Qed.

Lemma log_bytes_length r :
  wf_uuid (lr_StreamID r) -> length (LogRecord_Encode r) = (44 + length (lr_Payload r))%nat.
Proof.
  intros H. unfold LogRecord_Encode. by rewrite length_app, log_header_length.
Qed.

Lemma log_decode_encode rd r rest :
  log_ok r -> rd_readable rd = LogRecord_Encode r ++ rest ->
  DecodeLogRecord rd = (rd_advance rd (length (LogRecord_Encode r)), Ok r).
Proof.
  intros [(Hid & Hp & Hs & Hl) Hc] Hr.
  rewrite log_bytes_length by done.
  rewrite log_bytes_ok, <- app_assoc in Hr by auto.
  rewrite (DecodeLogRecord_frame _ _ _ _ _ _ _ Hp Hid Hs Hl (log_crc_u32 _) Hr).
  rewrite <- Hc. destruct r as [pos id seq p c].
  cbn [lr_Position lr_StreamID lr_StreamSeq lr_Payload lr_CRC32C] in *.
  rewrite <- Hc. by rewrite Z.eqb_refl.
Qed.

Lemma log_header_rebuild hdr :
  length hdr = 44%nat -> slice 0 4 hdr = LogMagicBytes ->
  hdr = log_header (be_decode (slice 4 12 hdr)) (slice 12 28 hdr) (be_decode (slice 28 36 hdr))
          (be_decode (slice 36 40 hdr)) (be_decode (slice 40 44 hdr)).
Proof.
  intros HL HM. unfold log_header. rewrite <- HM.
  rewrite !be_encode_decode by (rewrite slice_length; lia).
  rewrite <- !slice_split by lia. rewrite <- HL. by rewrite slice_full.
Qed.

Lemma log_decode_sound rd rd' r :
  DecodeLogRecord rd = (rd', Ok r) ->
  log_ok r /\ rd_readable rd = LogRecord_Encode r ++ rd_readable rd' /\
  rd' = rd_advance rd (length (LogRecord_Encode r)).
Proof.
  unfold DecodeLogRecord.
  destruct (read_full rd LogHeaderSize) as [[r1 hdr] err] eqn:EH.
  destruct err as [e|]; [by destruct e|].
  apply read_full_ok in EH as (HL & -> & HR); [|done].
  assert (length hdr = 44%nat) as HL' by (unfold LogHeaderSize in HL; lia).
  destruct (decide _) as [HM|]; [|done].
  set (len := be_decode (slice 36 40 hdr)).
  assert (is_u32 len) as Hlen.
  { pose proof (be_decode_bound (slice 36 40 hdr)) as HB.
    rewrite slice_length in HB by lia. exact HB. }
  destruct (if 0 <? len then _ else _) as [[r2 payload] perr] eqn:EP.
  destruct perr as [e|]; [by destruct e|].
  assert (Z.of_nat (length payload) = len /\
          r2 = rd_advance rd (44 + length payload) /\
          rd_readable rd = hdr ++ payload ++ rd_readable r2) as (HPL & -> & HPR).
  { destruct (0 <? len) eqn:E0; zify_bool.
    - apply read_full_ok in EP as (H1 & -> & H2); [|lia].
      rewrite rd_advance_advance, HL' in *. rewrite HR, H2. done.
    - unfold is_u32 in Hlen. injection EP as <- <-. cbn [length]. split; [lia|].
      rewrite Nat.add_0_r, <- HL'. done. }
  intros H. destruct (_ =? be_decode (slice 40 44 hdr)) eqn:EC; [|done]. zify_bool.
  injection H as <- <-. clear EP.
  pose proof (log_header_rebuild hdr HL' HM) as HE.
  pose proof (be_decode_bound (slice 28 36 hdr)) as HB. rewrite slice_length in HB by lia.
  pose proof (be_decode_bound (slice 4 12 hdr)) as HB2. rewrite slice_length in HB2 by lia.
  set (r := mkLogRecord (be_decode (slice 4 12 hdr)) (slice 12 28 hdr)
      (be_decode (slice 28 36 hdr)) payload (be_decode (slice 40 44 hdr))) in *.
  assert (LogRecord_Encode r = hdr ++ payload) as Hb.
  { rewrite log_bytes_ok by (right; symmetry; exact EC).
    unfold r in *. cbn [lr_Position lr_StreamID lr_StreamSeq lr_Payload].
    rewrite EC, HPL. unfold len. by rewrite <- HE. }
  split.
  - split; [|by rewrite EC].
    unfold log_encodable, r; cbn [lr_Position lr_StreamID lr_StreamSeq lr_Payload].
    split; [|split; [|split]].
    + unfold wf_uuid. rewrite slice_length; lia.
    + exact HB2.
    + exact HB.
    + unfold is_u32 in Hlen. lia.
  - rewrite Hb, <- app_assoc, length_app, HL'. done.
Qed.

Lemma log_decode_torn rd r p q :
  log_ok r -> LogRecord_Encode r = p ++ q -> q <> [] ->
  rd_readable rd = p -> rd_fault rd = None ->
  exists rd', DecodeLogRecord rd =
    (rd', Err (match p with [] => EOF | _ :: _ => ErrTruncatedRecord end)).
Proof.
  intros [(Hid & Hps & Hs & Hl) Hc] HB Hq Hr Hf.
  pose proof (log_bytes_length r Hid) as HLB. rewrite HB, length_app in HLB.
  assert (0 < length q)%nat by (destruct q; [done|cbn; lia]).
  unfold DecodeLogRecord.
  destruct (decide (length p < 44)%nat) as [Hshort|Hlong].
  - rewrite (read_full_short _ _ _ Hr) by (done || unfold LogHeaderSize; lia).
    destruct p; eexists; done.
  - rewrite log_bytes_ok in HB by auto. set (h := log_header _ _ _ _ _) in HB.
    assert (length h = 44%nat) as HLh by (by apply log_header_length).
    assert (p = h ++ drop 44 p) as Hp.
    { rewrite <- (take_drop 44 p) at 1. f_equal.
      rewrite <- (take_app_le p q) by lia. rewrite <- HB.
      rewrite <- HLh. apply take_app_length. }
    rewrite Hp in Hr.
    rewrite (read_full_app _ _ _ _ Hr) by (rewrite HLh; done).
    assert (is_u32 (Z.of_nat (length (lr_Payload r)))) as Hl32 by (unfold is_u32; lia).
    destruct (log_header_fields _ _ _ _ _ Hps Hid Hs Hl32 (log_crc_u32 r))
      as (F1 & _ & _ & _ & F4 & _). fold h in F1, F4.
    rewrite decide_True by done. rewrite F4.
    rewrite (proj2 (Z.ltb_lt _ _)) by lia.
    rewrite (read_full_short _ _ (drop 44 p)).
    + destruct p; [cbn in Hlong; lia|]. destruct (drop 44 _); eexists; done.
    + rewrite rd_readable_advance, Hr. apply drop_app_length.
    + rewrite length_drop. lia.
    + done.
Qed.

Lemma log_header_ids ids len crc :
  length ids = 32%nat ->
  log_header (be_decode (take 8 ids)) (take 16 (drop 8 ids)) (be_decode (drop 24 ids)) len crc =
  LogMagicBytes ++ ids ++ be_encode 4 len ++ be_encode 4 crc.
Proof.
  intros H. unfold log_header.
  rewrite !be_encode_decode by (rewrite ?length_drop, ?length_take; lia).
  replace (drop 24 ids) with (drop 16 (drop 8 ids)) by (by rewrite drop_drop).
  rewrite (app_assoc (take 16 _)), take_drop.
  by rewrite (app_assoc (take 8 ids)), take_drop.
Qed.

Lemma log_corrupt_ids pos id seq off (m : bytes) :
  wf_uuid id -> (4 <= off)%nat -> (off + length m <= 36)%nat ->
  exists pos' id' seq', is_u64 pos' /\ wf_uuid id' /\ is_u64 seq' /\ forall len c rest,
    corrupt (log_header pos id seq len c ++ rest) off m =
    log_header pos' id' seq' len c ++ rest.
Proof.
  unfold wf_uuid. intros Hid H1 H2.
  set (base := be_encode 8 pos ++ id ++ be_encode 8 seq).
  set (ids := corrupt base (off - 4) m).
  assert (length base = 32%nat) as HL
    by (unfold base; rewrite !length_app, !length_be_encode, Hid; done).
  assert (length ids = 32%nat) as HL' by (unfold ids; rewrite corrupt_length; lia).
  exists (be_decode (take 8 ids)), (take 16 (drop 8 ids)), (be_decode (drop 24 ids)).
  split; [|split; [rewrite length_take, length_drop; lia|split]].
  { pose proof (be_decode_bound (take 8 ids)) as HB. rewrite length_take, HL' in HB.
    exact HB. }
  { pose proof (be_decode_bound (drop 24 ids)) as HB. rewrite length_drop, HL' in HB.
    exact HB. }
  intros len c rest.
  rewrite log_header_ids by done. unfold log_header.
  rewrite <- !app_assoc, corrupt_app_r by (rewrite LogMagic_length; lia).
  rewrite (app_assoc id), (app_assoc (be_encode 8 pos)). fold base.
  rewrite corrupt_app_l by (rewrite HL, LogMagic_length; lia).
  by rewrite LogMagic_length.
Qed.

(** The identity fields and the payload of a log record. *)
Definition log_protected (r : LogRecord) (off len : nat) : Prop :=
  (4 <= off /\ off + len <= 36)%nat \/
  (44 <= off /\ off + len <= 44 + length (lr_Payload r))%nat.

Lemma log_slice_crc pos id seq len c c' p off n :
  wf_uuid id -> (off + n <= 40)%nat \/ (44 <= off)%nat ->
  slice off (off + n) (log_header pos id seq len c ++ p) =
  slice off (off + n) (log_header pos id seq len c' ++ p).
Proof.
  intros Hid Hr.
  set (h := LogMagicBytes ++ be_encode 8 pos ++ id ++ be_encode 8 seq ++ be_encode 4 len).
  assert (HP : forall x, log_header pos id seq len x ++ p = h ++ be_encode 4 x ++ p)
    by (intros; unfold log_header, h; by rewrite <- !app_assoc).
  assert (length h = 40%nat).
  { unfold h. rewrite !length_app, !length_be_encode, Hid, LogMagic_length. done. }
  destruct Hr as [Hr|Hr].
  - rewrite !HP, !slice_app_l by lia. done.
  - rewrite !slice_app_r by (rewrite log_header_length; done).
    by rewrite !log_header_length.
Qed.

Lemma log_detects rd r off m rest :
  log_ok r -> log_protected r off (length m) -> (length m <= 4)%nat ->
  slice off (off + length m) (LogRecord_Encode r) <> m ->
  rd_readable rd = corrupt (LogRecord_Encode r) off m ++ rest ->
  snd (DecodeLogRecord rd) = Err ErrChecksumMismatch.
Proof.
  intros [(Hid & Hps & Hs & Hl) Hcrc] Hp Hm Hne Hr.
  rewrite log_bytes_ok in Hne, Hr by auto.
  set (c := LogRecord_ComputeCRC32C r) in *.
  set (L := Z.of_nat (length (lr_Payload r))) in *.
  assert (HC : is_u32 c) by apply log_crc_u32.
  assert (Hc : c = crc32c (log_header (lr_Position r) (lr_StreamID r) (lr_StreamSeq r) L 0
                             ++ lr_Payload r)) by apply log_crc_eq.
  assert (Hbad : crc32c (corrupt (log_header (lr_Position r) (lr_StreamID r) (lr_StreamSeq r)
                   L 0 ++ lr_Payload r) off m) <> c).
  { rewrite Hc. apply crc32c_corrupt; [|done|].
    - rewrite length_app, log_header_length by done. destruct Hp; lia.
    - rewrite (log_slice_crc _ _ _ _ 0 c) by (done || destruct Hp; lia). exact Hne. }
  destruct Hp as [[H1 H2]|[H1 H2]].
  - destruct (log_corrupt_ids (lr_Position r) (lr_StreamID r) (lr_StreamSeq r) off m Hid H1 H2)
      as (pos' & id' & seq' & Hps' & Hid' & Hs' & HE).
    rewrite HE, <- app_assoc in Hr. rewrite HE in Hbad.
    rewrite (DecodeLogRecord_frame _ _ _ _ _ _ _ Hps' Hid' Hs' Hl HC Hr).
    rewrite log_crc_eq. cbn [snd lr_Position lr_StreamID lr_StreamSeq lr_Payload]. fold L.
    by rewrite (proj2 (Z.eqb_neq _ _) Hbad).
  - assert (HE : forall x, corrupt (log_header (lr_Position r) (lr_StreamID r) (lr_StreamSeq r)
        L x ++ lr_Payload r) off m = log_header (lr_Position r) (lr_StreamID r)
        (lr_StreamSeq r) L x ++ corrupt (lr_Payload r) (off - 44) m).
    { intros x. rewrite corrupt_app_r by (rewrite log_header_length; done).
      by rewrite log_header_length. }
    rewrite HE in Hr, Hbad. rewrite <- app_assoc in Hr.
    assert (HL : L = Z.of_nat (length (corrupt (lr_Payload r) (off - 44) m)))
      by (unfold L; rewrite corrupt_length; lia).
    rewrite HL in Hr, Hbad, Hl.
    rewrite (DecodeLogRecord_frame _ _ _ _ _ _ _ Hps Hid Hs Hl HC Hr).
    rewrite log_crc_eq. cbn [snd lr_Position lr_StreamID lr_StreamSeq lr_Payload].
    by rewrite (proj2 (Z.eqb_neq _ _) Hbad).
Qed.

(** ** Why a decode can fail on a readable file *)

(** At the end of the data, or because what follows is not a whole record. *)
Definition decode_failure (rd : Reader) (e : wal_error) : Prop :=
  e = EOF /\ rd_readable rd = [] \/
  rd_readable rd <> [] /\
  (e = ErrTruncatedRecord \/ e = ErrChecksumMismatch \/ e = ErrCorruptedRecord).

Lemma read_full_err rd n rd' p e :
  rd_fault rd = None -> read_full rd n = (rd', p, Some e) ->
  e = EOF /\ rd_readable rd = [] \/ e = ErrUnexpectedEOF /\ rd_readable rd <> [].
Proof.
  intros Hf. unfold read_full. rewrite Hf. destruct (n <=? _); [done|].
  destruct (rd_readable rd); intros HR; injection HR as _ _ <-; auto.
Qed.

Lemma read_full_nonempty rd n rd' p :
  0 < n -> read_full rd n = (rd', p, None) -> rd_readable rd <> [].
Proof.
  intros Hn. unfold read_full. destruct (rd_readable rd); [|done].
  destruct (n <=? _) eqn:E; [|done]. zify_bool. cbn in E. lia.
Qed.

Lemma read_full_fault rd n : rd_fault (fst (fst (read_full rd n))) = rd_fault rd.
Proof. unfold read_full. by destruct (n <=? _). Qed.

Lemma client_decode_errors rd rd' e :
  rd_fault rd = None -> DecodeClientRecord rd = (rd', Err e) -> decode_failure rd e.
Proof.
  intros Hf. unfold DecodeClientRecord, decode_failure.
  pose proof (read_full_fault rd ClientHeaderSize) as Hf1.
  destruct (read_full rd ClientHeaderSize) as [[r1 hdr] [e1|]] eqn:E1; cbn [fst] in Hf1.
  - apply read_full_err in E1 as [[-> ?]|[-> ?]]; [..|done]; intros HD; injection HD as _ <-; auto.
  - apply read_full_nonempty in E1; [|done]. destruct (decide _); [|intros HD; injection HD as _ <-; auto].
    destruct (if 0 <? _ then _ else _) as [[r2 pl] [e2|]] eqn:E2.
    + destruct (0 <? _); [|done]. apply read_full_err in E2 as [[-> _]|[-> _]]; [..|congruence];
        intros HD; injection HD as _ <-; auto.
    + destruct (_ =? _); intros HD; [done|injection HD as _ <-; auto].
Qed.

Lemma log_decode_errors rd rd' e :
  rd_fault rd = None -> DecodeLogRecord rd = (rd', Err e) -> decode_failure rd e.
Proof.
  intros Hf. unfold DecodeLogRecord, decode_failure.
  pose proof (read_full_fault rd LogHeaderSize) as Hf1.
  destruct (read_full rd LogHeaderSize) as [[r1 hdr] [e1|]] eqn:E1; cbn [fst] in Hf1.
  - apply read_full_err in E1 as [[-> ?]|[-> ?]]; [..|done]; intros HD; injection HD as _ <-; auto.
  - apply read_full_nonempty in E1; [|done]. destruct (decide _); [|intros HD; injection HD as _ <-; auto].
    destruct (if 0 <? _ then _ else _) as [[r2 pl] [e2|]] eqn:E2.
    + destruct (0 <? _); [|done]. apply read_full_err in E2 as [[-> _]|[-> _]]; [..|congruence];
        intros HD; injection HD as _ <-; auto.
    + destruct (_ =? _); intros HD; [done|injection HD as _ <-; auto].
Qed.

(** ** The record format interface

    What the segment files rely on: a self-delimiting, checksummed encoding.
    Client and log records implement it; scanning, recovery and the segment
    stores are proved against the interface. *)

Class SegmentFormat (R : Type) : Type := {
  sf_decode : Reader -> Reader * result wal_error R;
  sf_bytes : R -> bytes;
  sf_header : Z;
  sf_payload : R -> bytes;
  sf_seq : R -> Z;
  sf_ok : R -> Prop;
  sf_bytes_length r :
    sf_ok r -> Z.of_nat (length (sf_bytes r)) = sf_header + Z.of_nat (length (sf_payload r));
  sf_header_pos : 0 < sf_header;
  sf_decode_encode rd r rest :
    sf_ok r -> rd_readable rd = sf_bytes r ++ rest ->
    sf_decode rd = (rd_advance rd (length (sf_bytes r)), Ok r);
  sf_decode_sound rd rd' r :
    sf_decode rd = (rd', Ok r) ->
    sf_ok r /\ rd_readable rd = sf_bytes r ++ rd_readable rd' /\
    rd' = rd_advance rd (length (sf_bytes r));
  sf_decode_torn rd r p q :
    sf_ok r -> sf_bytes r = p ++ q -> q <> [] ->
    rd_readable rd = p -> rd_fault rd = None ->
    exists rd', sf_decode rd =
      (rd', Err (match p with [] => EOF | _ :: _ => ErrTruncatedRecord end));
  sf_decode_errors rd rd' e :
    rd_fault rd = None -> sf_decode rd = (rd', Err e) -> decode_failure rd e;
}.

#[export] Program Instance client_format : SegmentFormat ClientRecord := {|
  sf_decode := DecodeClientRecord;
  sf_bytes := client_bytes;
  sf_header := ClientHeaderSize;
  sf_payload := cr_Payload;
  sf_seq := cr_StreamSeq;
  sf_ok := client_ok;
|}.
Next Obligation.
  intros r [(Hid & _) _]. rewrite client_bytes_length by done. unfold ClientHeaderSize. lia.
Qed.
Next Obligation. done. Qed.
Next Obligation. exact client_decode_encode. Qed.
Next Obligation. exact client_decode_sound. Qed.
Next Obligation. intros rd r p q [He _]. by apply client_decode_torn. Qed.
Next Obligation. exact client_decode_errors. Qed.

#[export] Program Instance log_format : SegmentFormat LogRecord := {|
  sf_decode := DecodeLogRecord;
  sf_bytes := LogRecord_Encode;
  sf_header := LogHeaderSize;
  sf_payload := lr_Payload;
  sf_seq := lr_Position;
  sf_ok := log_ok;
|}.
Next Obligation.
  intros r [(Hid & _) _]. rewrite log_bytes_length by done. unfold LogHeaderSize. lia.
Qed.
Next Obligation. done. Qed.
Next Obligation. exact log_decode_encode. Qed.
Next Obligation. exact log_decode_sound. Qed.
Next Obligation. exact log_decode_torn. Qed.
Next Obligation. exact log_decode_errors. Qed.

(** ** Theorems *)

(** Client records survive the disk.  Decoding what [Encode] wrote returns
    the record with its checksum filled in and consumes exactly its bytes,
    whatever follows; and conversely everything the decoder accepts is the
    encoding of a representable record whose checksum is right. *)
Theorem client_record_roundtrip r rd rest :
  client_encodable r -> rd_readable rd = snd (ClientRecord_Encode r) ++ rest ->
  DecodeClientRecord rd =
    (rd_advance rd (length (snd (ClientRecord_Encode r))), Ok (fst (ClientRecord_Encode r))) /\
  (forall rd1 rd2 r2, DecodeClientRecord rd1 = (rd2, Ok r2) ->
     client_encodable r2 /\ fst (ClientRecord_Encode r2) = r2 /\
     rd_readable rd1 = snd (ClientRecord_Encode r2) ++ rd_readable rd2).
Proof.
  intros He Hr. split.
  - apply (client_decode_encode rd (fst (ClientRecord_Encode r)) rest); [|done].
    split; [exact He|]. done.
  - intros rd1 rd2 r2 HD. apply client_decode_sound in HD as ([He2 Hc] & HR & _).
    split_and!; [done| |done]. destruct r2; cbn in *. by rewrite <- Hc.
Qed.

Lemma client_record_roundtrip_witness :
  DecodeClientRecord (reader_of (snd (ClientRecord_Encode (mkClientRecord (replicate 16 x07) 3 [x61; x62] 0))))
  = (rd_advance (reader_of (snd (ClientRecord_Encode (mkClientRecord (replicate 16 x07) 3 [x61; x62] 0)))) 38,
     Ok (fst (ClientRecord_Encode (mkClientRecord (replicate 16 x07) 3 [x61; x62] 0)))).
Proof.
  apply (client_record_roundtrip (mkClientRecord (replicate 16 x07) 3 [x61; x62] 0) _ []).
  - split_and!; vm_compute; done.
  - by rewrite app_nil_r.
Defined.

(** C38: log records survive the disk and the wire.  A record whose checksum
    field is unset or right is read back from its encoding with the checksum
    filled in; the decoder accepts nothing but such encodings; and the
    protobuf conversion of a record reads back to it. *)
Theorem log_record_roundtrip r rd rest :
  log_encodable r -> lr_CRC32C r = 0 \/ lr_CRC32C r = LogRecord_ComputeCRC32C r ->
  rd_readable rd = LogRecord_Encode r ++ rest ->
  let r' := mkLogRecord (lr_Position r) (lr_StreamID r) (lr_StreamSeq r) (lr_Payload r)
              (LogRecord_ComputeCRC32C r) in
  DecodeLogRecord rd = (rd_advance rd (length (LogRecord_Encode r)), Ok r') /\
  FromProto (Some (LogRecord_ToProto r)) = Ok r' /\
  (forall rd1 rd2 r2, DecodeLogRecord rd1 = (rd2, Ok r2) ->
     log_encodable r2 /\ lr_CRC32C r2 = LogRecord_ComputeCRC32C r2 /\
     rd_readable rd1 = LogRecord_Encode r2 ++ rd_readable rd2).
Proof.
  intros He Hc Hr r'.
  assert (log_ok r') as Hok by (split; [exact He|done]).
  assert (LogRecord_Encode r = LogRecord_Encode r') as HE by (rewrite !log_bytes_ok; auto).
  split_and!.
  - rewrite HE in *. by apply (log_decode_encode rd r' rest).
  - unfold FromProto, LogRecord_ToProto. cbn [pl_StreamId pl_Position pl_StreamSeq pl_Payload pl_Crc32C].
    destruct He as (Hid & _). rewrite Hid. cbn [negb].
    change (negb (Z.of_nat 16 =? 16)) with false. cbn iota.
    destruct (lr_CRC32C r =? 0) eqn:E0; zify_bool; cbn [lr_CRC32C].
    + by destruct (LogRecord_ComputeCRC32C r =? 0).
    + destruct Hc as [Hc|Hc]; [done|]. rewrite (proj2 (Z.eqb_neq _ _) E0). unfold r'. by rewrite <- Hc.
  - intros rd1 rd2 r2 HD. apply log_decode_sound in HD as ([He2 Hc2] & HR & _). done.
Qed.

Lemma log_record_roundtrip_witness :
  FromProto (Some (LogRecord_ToProto (mkLogRecord 9 (replicate 16 x07) 3 [x61; x62] 0))) =
  Ok (mkLogRecord 9 (replicate 16 x07) 3 [x61; x62]
        (LogRecord_ComputeCRC32C (mkLogRecord 9 (replicate 16 x07) 3 [x61; x62] 0))).
Proof.
  apply (log_record_roundtrip (mkLogRecord 9 (replicate 16 x07) 3 [x61; x62] 0)
           (reader_of (LogRecord_Encode (mkLogRecord 9 (replicate 16 x07) 3 [x61; x62] 0))) []).
  - split_and!; vm_compute; done.
  - by left.
  - by rewrite app_nil_r.
Defined.

(** C39: corrupted records are never returned.  Overwriting up to four
    consecutive bytes of a record on disk, inside its identity fields or its
    payload, with anything different makes the decoder report a checksum
    mismatch, for client and for log records. *)
Theorem corruption_detected :
  (forall r off m rest rd, client_encodable r -> client_protected r off (length m) ->
     (length m <= 4)%nat -> slice off (off + length m) (snd (ClientRecord_Encode r)) <> m ->
     rd_readable rd = corrupt (snd (ClientRecord_Encode r)) off m ++ rest ->
     snd (DecodeClientRecord rd) = Err ErrChecksumMismatch) /\
  (forall r off m rest rd, log_encodable r -> lr_CRC32C r = LogRecord_ComputeCRC32C r ->
     log_protected r off (length m) -> (length m <= 4)%nat ->
     slice off (off + length m) (LogRecord_Encode r) <> m ->
     rd_readable rd = corrupt (LogRecord_Encode r) off m ++ rest ->
     snd (DecodeLogRecord rd) = Err ErrChecksumMismatch).
Proof.
  split.
  - intros r off m rest rd He Hp Hm Hne Hr. by apply (client_detects rd r off m rest).
  - intros r off m rest rd He Hc Hp Hm Hne Hr. by apply (log_detects rd r off m rest).
Qed.

(** ** Segment headers: facts *)

Definition header_ok (h : SegmentHeader) : Prop :=
  sh_Magic h = SegmentMagicBytes /\ 0 <= sh_Version h <= SegmentVersion /\
  8 <= sh_HeaderLength h < 2 ^ 16 /\ length (sh_Reserved h) = 8%nat.

Lemma header_length h : header_ok h -> length (SegmentHeader_Encode h) = 16%nat.
Proof.
  intros (HM & _ & _ & HR). unfold SegmentHeader_Encode.
  rewrite !length_app, !length_be_encode, HM, HR. done.
Qed.

Lemma header_fields h :
  header_ok h ->
  let b := SegmentHeader_Encode h in
  slice 0 4 b = SegmentMagicBytes /\ be_decode (slice 4 6 b) = sh_Version h /\
  be_decode (slice 6 8 b) = sh_HeaderLength h /\ slice 8 16 b = sh_Reserved h.
Proof.
  intros (HM & HV & HL & HR). cbv zeta. unfold SegmentHeader_Encode. rewrite HM.
  assert (length SegmentMagicBytes = 4%nat) as HM4 by done.
  unfold SegmentVersion in HV.
  repeat split; slices; try done; rewrite be_decode_encode; try done; cbn; lia.
Qed.

Lemma header_too_new v len resv rest accept :
  SegmentVersion < v < 2 ^ 16 -> length resv = 8%nat ->
  snd (ReadSegmentHeader
         (reader_of (SegmentHeader_Encode (mkSegmentHeader SegmentMagicBytes v len resv) ++ rest)) accept)
  = Err ErrUnsupportedSegmentVersion.
Proof.
  intros Hv HR. set (b := SegmentHeader_Encode _).
  assert (length b = 16%nat) as HL.
  { unfold b, SegmentHeader_Encode. cbn [sh_Magic sh_Version sh_HeaderLength sh_Reserved].
    rewrite !length_app, !length_be_encode, HR. done. }
  assert (slice 0 4 b = SegmentMagicBytes /\ be_decode (slice 4 6 b) = v) as [F1 F2].
  { unfold b, SegmentHeader_Encode. cbn [sh_Magic sh_Version sh_HeaderLength sh_Reserved].
    assert (length SegmentMagicBytes = 4%nat) as HM4 by done. unfold SegmentVersion in Hv.
    split; slices; try done. rewrite be_decode_encode; [done|]. cbn. lia. }
  unfold ReadSegmentHeader. rewrite (read_full_app _ _ b rest) by (done || by rewrite HL).
  rewrite HL. change (16 - 16)%nat with 0%nat. cbn [replicate]. rewrite app_nil_r.
  rewrite F1, decide_True by done. change (Z.of_nat 16 <? SegmentHeaderSize) with false. cbn iota.
  rewrite F2. by rewrite (proj2 (Z.ltb_lt _ _)) by lia.
Qed.

Lemma header_torn h n accept :
  header_ok h -> (0 < n < 16)%nat ->
  snd (ReadSegmentHeader (reader_of (take n (SegmentHeader_Encode h))) accept) =
  Err ErrTruncatedSegmentHeader.
Proof.
  intros Hh Hn. pose proof (header_length h Hh) as HL.
  destruct (header_fields h Hh) as (F1 & _).
  set (b := take n (SegmentHeader_Encode h)).
  assert (length b = n) as Hb by (unfold b; rewrite length_take; lia).
  unfold ReadSegmentHeader.
  rewrite (read_full_short (reader_of b) _ b); [|done| |done].
  2: { rewrite Hb. unfold SegmentHeaderSize. lia. }
  assert (match b with [] => EOF | _ :: _ => ErrUnexpectedEOF end = ErrUnexpectedEOF) as ->
    by (destruct b; [cbn in Hb; lia|done]).
  rewrite Hb.
  destruct (n <? 4)%nat eqn:E4; [done|]. apply Nat.ltb_ge in E4.
  assert (slice 0 4 (b ++ replicate (16 - n) x00) = SegmentMagicBytes) as ->.
  { rewrite slice_app_l by lia. rewrite <- F1. unfold slice, b. rewrite !drop_0.
    by rewrite take_take, Nat.min_l by lia. }
  rewrite decide_True by done.
  rewrite (proj2 (Z.ltb_lt _ _)) by (unfold SegmentHeaderSize; lia). done.
Qed.

(** segment headers are read back and torn ones are recognised.  A header of
    a supported version is returned as written and the reader continues at the
    header length it states; a newer version, a header cut anywhere and a file
    that starts with a record are each reported with their own error, the
    last one being accepted at offset 0 on request. *)
Theorem segment_header_cases :
  (forall h rest accept, header_ok h ->
     let rd := reader_of (SegmentHeader_Encode h ++ rest) in
     ReadSegmentHeader rd accept =
       (rd_seek rd (Z.to_nat (sh_HeaderLength h)), Ok (h, sh_HeaderLength h))) /\
  (forall v len resv rest accept, SegmentVersion < v < 2 ^ 16 -> length resv = 8%nat ->
     snd (ReadSegmentHeader
            (reader_of (SegmentHeader_Encode (mkSegmentHeader SegmentMagicBytes v len resv) ++ rest)) accept)
     = Err ErrUnsupportedSegmentVersion) /\
  (forall h n accept, header_ok h -> (0 < n < 16)%nat ->
     snd (ReadSegmentHeader (reader_of (take n (SegmentHeader_Encode h))) accept) =
     Err ErrTruncatedSegmentHeader) /\
  (forall r rest accept, wf_uuid (cr_StreamID r) ->
     let rd := reader_of (snd (ClientRecord_Encode r) ++ rest) in
     snd (ReadSegmentHeader rd accept) =
       if accept then Ok (zero_SegmentHeader, 0) else Err ErrUnversionedSegment).
Proof.
  split_and!.
  - intros h rest accept Hh rd. pose proof (header_length h Hh) as HL.
    destruct (header_fields h Hh) as (F1 & F2 & F3 & F4).
    unfold ReadSegmentHeader.
    rewrite (read_full_app rd _ (SegmentHeader_Encode h) rest) by (done || by rewrite HL).
    rewrite HL. change (16 - 16)%nat with 0%nat. cbn [replicate]. rewrite app_nil_r.
    rewrite F1, decide_True by done. change (Z.of_nat 16 <? SegmentHeaderSize) with false. cbn iota.
    rewrite F2, F3, F4. destruct h as [mg v hl rv]; destruct Hh as (HM & HV & HLen & HR).
    cbn [sh_Magic sh_Version sh_HeaderLength sh_Reserved] in *.
    rewrite (proj2 (Z.ltb_ge _ _)), (proj2 (Z.ltb_ge hl 8)) by lia. rewrite HM.
    destruct (hl =? Z.of_nat 16) eqn:E; zify_bool; [|done]. by rewrite E.
  - intros v len resv rest accept Hv HR. by apply header_too_new.
  - intros h n accept Hh Hn. by apply header_torn.
  - intros r rest accept Hid rd. unfold ReadSegmentHeader.
    set (b := snd (ClientRecord_Encode r) ++ rest) in *.
    assert (b = take 16 b ++ drop 16 b) as Hb by (by rewrite take_drop).
    assert (length (take 16 b) = 16%nat) as HL.
    { rewrite length_take. unfold b. rewrite length_app.
      change (snd (ClientRecord_Encode r)) with (client_bytes r). rewrite client_bytes_length by done. lia. }
    rewrite (read_full_app rd _ (take 16 b) (drop 16 b)) by (done || by rewrite HL).
    rewrite HL. change (16 - 16)%nat with 0%nat. cbn [replicate]. rewrite app_nil_r.
    assert (slice 0 4 (take 16 b) = ClientMagicBytes) as -> by done.
    by destruct accept.
Qed.
