(* ===== verification/FileSys.v ===== *)
(** * FileSys: the directory a segment store lives in

    The operating-system calls [pkg/wal] makes ([os.OpenFile], [os.Remove],
    [os.ReadDir], [File.Write], [File.Truncate], [File.Sync], [File.Close],
    ...), on one directory: entry names to files or subdirectories.  A file
    carries its content and the length known to be on stable storage.  Every
    call consumes one element of the world's list of outcomes, so a failing
    disk is an explicit input: an exhausted list means success, and a failing
    write may leave any prefix of its data behind.  A crash keeps at least the
    synced prefix of every file. *)

From S2P Require Import Prelude Bytes WalRecord.

#[local] Open Scope Z_scope.
#[local] Open Scope list_scope.

Inductive outcome : Type :=
| OOk
| OFail (k : nat).

Record File : Type := mkFile {
  f_data : bytes;
  f_synced : nat;
}.

Inductive Entry : Type :=
| EFile (f : File)
| EDir.

Record World : Type := mkWorld {
  w_dir : gmap bytes Entry;
  w_outcomes : list outcome;
  w_now : Z;
}.

Definition set_dir (w : World) (d : gmap bytes Entry) : World :=
  mkWorld d (w_outcomes w) (w_now w).

(** Consumes the outcome of the next call. *)
Definition next_outcome (w : World) : World * outcome :=
  match w_outcomes w with
  | [] => (w, OOk)
  | o :: os => (mkWorld (w_dir w) os (w_now w), o)
  end.

Definition lookup_file (w : World) (p : bytes) : option File :=
  match w_dir w !! p with Some (EFile f) => Some f | _ => None end.

(** A call without an effect of its own: [os.MkdirAll], [File.Close]. *)
Definition sys_plain (w : World) : World * result wal_error () :=
  let '(w, o) := next_outcome w in
  (w, match o with OOk => Ok () | OFail _ => Err ErrSys end).

(** [os.ReadDir]: the entry names in file-name order. *)
Definition os_ReadDir (w : World) : World * result wal_error (list (bytes * Entry)) :=
  let '(w, o) := next_outcome w in
  (w, match o with
      | OOk => Ok (omap (fun n => e ← w_dir w !! n; Some (n, e))
                     (sort_strings (fst <$> map_to_list (w_dir w))))
      | OFail _ => Err ErrSys
      end).

(** [os.OpenFile(path, O_RDWR)] / [os.Open]: the file as a reader; a failing
    outcome of the reads that follow limits what the reader returns. *)
Definition os_Open (w : World) (p : bytes) : World * result wal_error Reader :=
  let '(w, o) := next_outcome w in
  match o with
  | OFail _ => (w, Err ErrSys)
  | OOk =>
    match w_dir w !! p with
    | None => (w, Err ErrNotExist)
    | Some EDir => (w, Err ErrSys)
    | Some (EFile f) =>
      let '(w, o) := next_outcome w in
      (w, Ok (mkReader (f_data f) 0 (match o with OOk => None | OFail k => Some k end)))
    end
  end.

(** [os.OpenFile(path, O_CREATE|O_WRONLY|O_APPEND)]. *)
Definition os_OpenAppend (w : World) (p : bytes) : World * result wal_error () :=
  let '(w, o) := next_outcome w in
  match o with
  | OFail _ => (w, Err ErrSys)
  | OOk =>
    match w_dir w !! p with
    | None => (set_dir w (<[p := EFile (mkFile [] 0)]> (w_dir w)), Ok ())
    | Some EDir => (w, Err ErrSys)
    | Some (EFile _) => (w, Ok ())
    end
  end.

(** [File.Write] on a handle opened for appending. *)
Definition f_Write (w : World) (p : bytes) (b : bytes) : World * result wal_error () :=
  let '(w, o) := next_outcome w in
  match lookup_file w p with
  | None => (w, Err ErrSys)
  | Some f =>
    match o with
    | OOk => (set_dir w (<[p := EFile (mkFile (f_data f ++ b) (f_synced f))]> (w_dir w)), Ok ())
    | OFail k =>
      (set_dir w (<[p := EFile (mkFile (f_data f ++ take k b) (f_synced f))]> (w_dir w)),
       Err ErrSys)
    end
  end.

(** The content after [truncate(2)] to length [k]: cut, or extended with zeros. *)
Definition resize (k : nat) (l : bytes) : bytes := take k l ++ replicate (k - length l) x00.

(** [File.Truncate]. *)
Definition f_Truncate (w : World) (p : bytes) (n : Z) : World * result wal_error () :=
  let '(w, o) := next_outcome w in
  match o, lookup_file w p with
  | OOk, Some f =>
    let k := Z.to_nat n in
    (set_dir w (<[p := EFile (mkFile (resize k (f_data f)) (f_synced f `min` k))]> (w_dir w)),
     Ok ())
  | _, _ => (w, Err ErrSys)
  end.

(** [File.Sync]: everything written so far becomes durable. *)
Definition f_Sync (w : World) (p : bytes) : World * result wal_error () :=
  let '(w, o) := next_outcome w in
  match o, lookup_file w p with
  | OOk, Some f =>
    (set_dir w (<[p := EFile (mkFile (f_data f) (length (f_data f)))]> (w_dir w)), Ok ())
  | _, _ => (w, Err ErrSys)
  end.

Definition f_Close (w : World) : World * result wal_error () := sys_plain w.

Definition os_Remove (w : World) (p : bytes) : World * result wal_error () :=
  let '(w, o) := next_outcome w in
  match o with
  | OFail _ => (w, Err ErrSys)
  | OOk =>
    match w_dir w !! p with
    | None => (w, Err ErrNotExist)
    | Some _ => (set_dir w (delete p (w_dir w)), Ok ())
    end
  end.

Definition os_ReadFile (w : World) (p : bytes) : World * result wal_error bytes :=
  let '(w, o) := next_outcome w in
  (w, match o, w_dir w !! p with
      | OOk, Some (EFile f) => Ok (f_data f)
      | OOk, None => Err ErrNotExist
      | _, _ => Err ErrSys
      end).

Definition os_WriteFile (w : World) (p : bytes) (b : bytes) : World * result wal_error () :=
  let '(w, o) := next_outcome w in
  match o with
  | OOk => (set_dir w (<[p := EFile (mkFile b 0)]> (w_dir w)), Ok ())
  | OFail k => (set_dir w (<[p := EFile (mkFile (take k b) 0)]> (w_dir w)), Err ErrSys)
  end.

(** [os.Stat]: the size of a file. *)
Definition os_Stat (w : World) (p : bytes) : World * result wal_error Z :=
  let '(w, o) := next_outcome w in
  (w, match o, w_dir w !! p with
      | OFail _, _ => Err ErrSys
      | OOk, None => Err ErrNotExist
      | OOk, Some EDir => Ok 0
      | OOk, Some (EFile f) => Ok (Z.of_nat (length (f_data f)))
      end).

(** [os.OpenFile(path, O_WRONLY)]. *)
Definition os_OpenWrite (w : World) (p : bytes) : World * result wal_error () :=
  let '(w, o) := next_outcome w in
  (w, match o, w_dir w !! p with
      | OOk, Some (EFile _) => Ok ()
      | OOk, None => Err ErrNotExist
      | _, _ => Err ErrSys
      end).

(** [os.Rename] of a file: replaces a file of that name, not a directory. *)
Definition os_Rename (w : World) (p q : bytes) : World * result wal_error () :=
  let '(w, o) := next_outcome w in
  match o, w_dir w !! p, w_dir w !! q with
  | OFail _, _, _ => (w, Err ErrSys)
  | OOk, None, _ => (w, Err ErrNotExist)
  | OOk, Some _, Some EDir => (w, Err ErrSys)
  | OOk, Some e, _ => (set_dir w (<[q := e]> (delete p (w_dir w))), Ok ())
  end.

(** ** Crashes

    A crash keeps, of every file, its synced prefix and possibly more of what
    was written after it, in order. *)

Definition crash_file (f f' : File) : Prop :=
  exists n, (f_synced f <= n <= length (f_data f))%nat /\
    f' = mkFile (take n (f_data f)) n.

Definition crash_entry (e e' : Entry) : Prop :=
  match e, e' with
  | EFile f, EFile f' => crash_file f f'
  | EDir, EDir => True
  | _, _ => False
  end.

Definition crash (w w' : World) : Prop :=
  forall p, match w_dir w !! p, w_dir w' !! p with
            | Some e, Some e' => crash_entry e e'
            | None, None => True
            | _, _ => False
            end.

(** A world whose next calls all succeed. *)
Definition no_faults (w : World) : Prop := w_outcomes w = [].

#[export] Instance no_faults_dec w : Decision (no_faults w).
Proof. unfold no_faults. destruct (w_outcomes w); [left|right]; done. Defined.

(** ** Facts *)

Lemma next_outcome_ok w : no_faults w -> next_outcome w = (w, OOk).
Proof. unfold no_faults, next_outcome. by intros ->. Qed.

Lemma next_outcome_dir w : w_dir (fst (next_outcome w)) = w_dir w.
Proof. unfold next_outcome. by destruct (w_outcomes w). Qed.

Lemma no_faults_set_dir w d : no_faults w -> no_faults (set_dir w d).
Proof. done. Qed.

Lemma set_dir_same w : set_dir w (w_dir w) = w.
Proof. by destruct w. Qed.

Lemma sys_plain_ok w : no_faults w -> sys_plain w = (w, Ok ()).
Proof. intros H. unfold sys_plain. by rewrite next_outcome_ok. Qed.

Lemma f_Close_ok w : no_faults w -> f_Close w = (w, Ok ()).
Proof. apply sys_plain_ok. Qed.

Lemma os_Open_ok w p f :
  no_faults w -> w_dir w !! p = Some (EFile f) ->
  os_Open w p = (w, Ok (reader_of (f_data f))).
Proof.
  intros H HL. unfold os_Open. rewrite next_outcome_ok by done. rewrite HL.
  by rewrite next_outcome_ok.
Qed.

Lemma f_Write_ok w p f b :
  no_faults w -> w_dir w !! p = Some (EFile f) ->
  f_Write w p b =
  (set_dir w (<[p := EFile (mkFile (f_data f ++ b) (f_synced f))]> (w_dir w)), Ok ()).
Proof.
  intros H HL. unfold f_Write, lookup_file. rewrite next_outcome_ok by done. by rewrite HL.
Qed.

Lemma f_Truncate_ok w p f n :
  no_faults w -> w_dir w !! p = Some (EFile f) ->
  f_Truncate w p n =
  (set_dir w (<[p := EFile (mkFile (resize (Z.to_nat n) (f_data f)) (f_synced f `min` Z.to_nat n))]>
     (w_dir w)), Ok ()).
Proof.
  intros H HL. unfold f_Truncate, lookup_file. rewrite next_outcome_ok by done. by rewrite HL.
Qed.

Lemma resize_app a b : resize (length a) (a ++ b) = a.
Proof.
  unfold resize. rewrite take_app_length, length_app.
  replace (_ - _)%nat with 0%nat by lia. apply app_nil_r.
Qed.

Lemma f_Sync_ok w p f :
  no_faults w -> w_dir w !! p = Some (EFile f) ->
  f_Sync w p =
  (set_dir w (<[p := EFile (mkFile (f_data f) (length (f_data f)))]> (w_dir w)), Ok ()).
Proof.
  intros H HL. unfold f_Sync, lookup_file. rewrite next_outcome_ok by done. by rewrite HL.
Qed.

Lemma os_Remove_ok w p e :
  no_faults w -> w_dir w !! p = Some e ->
  os_Remove w p = (set_dir w (delete p (w_dir w)), Ok ()).
Proof.
  intros H HL. unfold os_Remove. rewrite next_outcome_ok by done. by rewrite HL.
Qed.

Lemma os_OpenAppend_new w p :
  no_faults w -> w_dir w !! p = None ->
  os_OpenAppend w p = (set_dir w (<[p := EFile (mkFile [] 0)]> (w_dir w)), Ok ()).
Proof.
  intros H HL. unfold os_OpenAppend. rewrite next_outcome_ok by done. by rewrite HL.
Qed.

Lemma os_ReadFile_ok w p f :
  no_faults w -> w_dir w !! p = Some (EFile f) -> os_ReadFile w p = (w, Ok (f_data f)).
Proof.
  intros H HL. unfold os_ReadFile. rewrite next_outcome_ok by done. by rewrite HL.
Qed.

Lemma os_WriteFile_ok w p b :
  no_faults w ->
  os_WriteFile w p b = (set_dir w (<[p := EFile (mkFile b 0)]> (w_dir w)), Ok ()).
Proof. intros H. unfold os_WriteFile. by rewrite next_outcome_ok. Qed.

Lemma os_Stat_file w p f :
  no_faults w -> w_dir w !! p = Some (EFile f) ->
  os_Stat w p = (w, Ok (Z.of_nat (length (f_data f)))).
Proof. intros H HL. unfold os_Stat. rewrite next_outcome_ok by done. by rewrite HL. Qed.

Lemma os_Stat_none w p :
  no_faults w -> w_dir w !! p = None -> os_Stat w p = (w, Err ErrNotExist).
Proof. intros H HL. unfold os_Stat. rewrite next_outcome_ok by done. by rewrite HL. Qed.

Lemma os_OpenAppend_file w p f :
  no_faults w -> w_dir w !! p = Some (EFile f) -> os_OpenAppend w p = (w, Ok ()).
Proof. intros H HL. unfold os_OpenAppend. rewrite next_outcome_ok by done. by rewrite HL. Qed.

Lemma os_OpenWrite_file w p f :
  no_faults w -> w_dir w !! p = Some (EFile f) -> os_OpenWrite w p = (w, Ok ()).
Proof. intros H HL. unfold os_OpenWrite. rewrite next_outcome_ok by done. by rewrite HL. Qed.

Lemma os_Rename_file w p q f :
  no_faults w -> w_dir w !! p = Some (EFile f) -> w_dir w !! q <> Some EDir ->
  os_Rename w p q = (set_dir w (<[q := EFile f]> (delete p (w_dir w))), Ok ()).
Proof.
  intros H HL HN. unfold os_Rename. rewrite next_outcome_ok by done. rewrite HL.
  by destruct (w_dir w !! q) as [[]|].
Qed.

#[export] Hint Resolve no_faults_set_dir : walkit.
