(* ===== verification/WalSegment.v ===== *)
(** * WalSegment: segment files and the segment stores

    [pkg/wal/segment.go]: scanning a segment file with recovery of a torn tail,
    and the two stores built on it, the client's [ClientSegmentStore] and the
    witness's [LogSegmentStore].  The two Go types duplicate each other up to
    the record type, so the shared code is written once over the
    [SegmentFormat] interface of WalRecord.v and instantiated under the Go
    names.  A store's [*SegmentMeta] pointers are the [sm_ptr] of the metas:
    [st_activeMeta] names the meta that appends mutate in place.  Paths are
    entry names of the store's directory. *)

From S2P Require Import Prelude Bytes WalRecord FileSys.

#[local] Open Scope Z_scope.
#[local] Open Scope list_scope.

Definition DefaultMaxSegmentSize : Z := 64 * 1024 * 1024.

Record SegmentMeta : Type := mkSegmentMeta {
  sm_ptr : nat;
  sm_Path : bytes;
  sm_FirstSeq : Z;
  sm_LastSeq : Z;
  sm_Size : Z;
  sm_RecordCount : Z;
}.

Record ScanOptions : Type := mkScanOptions {
  so_AcceptUnversioned : bool;
  so_NoFsync : bool;
}.

(** [backupCorruptedSegment]: copy to ["<path>.<nanoseconds>.recover"]; failures
    are only logged. *)
Definition backupCorruptedSegment (w : World) (p : bytes) : World :=
  let recoverPath := p ++ go "." ++ fmt_pad 0 (w_now w) ++ go ".recover" in
  let '(w, data) := os_ReadFile w p in
  match data with
  | Err _ => w
  | Ok d => fst (os_WriteFile w recoverPath d)
  end.

(** ** Scanning a segment file *)

(** How the decoding loop of a scan ended. *)
Inductive scan_end : Type :=
| ScanEOF
| ScanTorn (e : wal_error)
| ScanFatal (e : wal_error)
| ScanFuel.

Definition torn_error (e : wal_error) : bool :=
  match e with
  | ErrTruncatedRecord | ErrChecksumMismatch | ErrCorruptedRecord => true
  | _ => false
  end.

Section generic.
Context {R : Type} `{SegmentFormat R}.

(** The [for] loop: records decoded so far, the offset after the last valid
    one, and why it stopped. *)
Fixpoint scan_loop (fuel : nat) (rd : Reader) (acc : list R) (off : Z)
    : list R * Z * scan_end :=
  match fuel with
  | O => (acc, off, ScanFuel)
  | S k =>
    let '(rd', res) := sf_decode rd in
    match res with
    | Ok r =>
      scan_loop k rd' (acc ++ [r]) (off + (sf_header + Z.of_nat (length (sf_payload r))))
    | Err EOF => (acc, off, ScanEOF)
    | Err e => (acc, off, if torn_error e then ScanTorn e else ScanFatal e)
    end
  end.

Definition scan_fuel (rd : Reader) : nat := S (length (rd_readable rd)).

Definition scan_meta (p : bytes) (recs : list R) (off : Z) : SegmentMeta :=
  mkSegmentMeta 0 p
    (match recs with r :: _ => sf_seq r | [] => 0 end)
    (match last recs with Some r => sf_seq r | None => 0 end)
    off (Z.of_nat (length recs)).

(** The deferred [errutil.CloseWithErr]: a close error surfaces only when
    nothing else failed. *)
Definition close_with_err {A} (w : World) (res : result wal_error A)
    : World * result wal_error A :=
  let '(w, c) := f_Close w in
  (w, match res, c with Ok _, Err e => Err e | _, _ => res end).

Definition ScanSegmentFile (w : World) (p : bytes) (opt : ScanOptions)
    : World * result wal_error (list R * SegmentMeta) :=
  let '(w, h) := os_Open w p in
  match h with
  | Err e => (w, Err e)
  | Ok rd =>
    let '(rd, hdr) := ReadSegmentHeader rd (so_AcceptUnversioned opt) in
    match hdr with
    | Err EOF => close_with_err w (Ok ([], mkSegmentMeta 0 p 0 0 0 0))
    | Err e => close_with_err w (Err e)
    | Ok (_, hdrOffset) =>
      let '(recs, off, fin) := scan_loop (scan_fuel rd) rd [] hdrOffset in
      match fin with
      | ScanEOF => close_with_err w (Ok (recs, scan_meta p recs off))
      | ScanTorn _ =>
        let w := backupCorruptedSegment w p in
        let '(w, t) := f_Truncate w p off in
        match t with
        | Err e => close_with_err w (Err e)
        | Ok _ =>
          let '(w, s) := f_Sync w p in
          match s with
          | Err e => close_with_err w (Err e)
          | Ok _ => close_with_err w (Ok (recs, scan_meta p recs off))
          end
        end
      | ScanFatal e => close_with_err w (Err e)
      | ScanFuel => close_with_err w (Err ErrIO)
      end
    end
  end.

(** ** Segment stores *)

Record SegmentStore : Type := mkSegmentStore {
  st_maxSegmentSize : Z;
  st_filePrefix : bytes;
  st_acceptUnversioned : bool;
  st_noFsync : bool;
  st_activeFile : option bytes;
  st_activeMeta : option nat;
  st_segments : list SegmentMeta;
  st_next : nat;
}.

Definition with_active (s : SegmentStore) (f : option bytes) (m : option nat) : SegmentStore :=
  mkSegmentStore (st_maxSegmentSize s) (st_filePrefix s) (st_acceptUnversioned s)
    (st_noFsync s) f m (st_segments s) (st_next s).

Definition with_segments (s : SegmentStore) (l : list SegmentMeta) : SegmentStore :=
  mkSegmentStore (st_maxSegmentSize s) (st_filePrefix s) (st_acceptUnversioned s)
    (st_noFsync s) (st_activeFile s) (st_activeMeta s) l (st_next s).

(** The meta behind [s.activeMeta]. *)
Definition active_meta (s : SegmentStore) : option SegmentMeta :=
  p ← st_activeMeta s;
  snd <$> list_find (fun m => sm_ptr m = p) (st_segments s).

(** In-place update of the meta behind a pointer. *)
Definition update_meta (p : nat) (f : SegmentMeta -> SegmentMeta) (l : list SegmentMeta)
    : list SegmentMeta :=
  (fun m => if decide (sm_ptr m = p) then f m else m) <$> l.

Definition is_wal_file (prefix : bytes) (ent : bytes * Entry) : bool :=
  match snd ent with
  | EDir => false
  | EFile _ => has_prefix (prefix ++ go "-") (fst ent) && has_suffix (go ".wal") (fst ent)
  end.

(** The scan of the directory's segment files in file-name order, the empty
    ones removed; [errs] counts failed removals. *)
Fixpoint open_scan (w : World) (opt : ScanOptions) (files : list bytes)
    (segs : list SegmentMeta) (recs : list R) (errs : nat)
    : World * result wal_error (list SegmentMeta * list R * nat) :=
  match files with
  | [] => (w, Ok (segs, recs, errs))
  | f :: files =>
    let '(w, r) := ScanSegmentFile w f opt in
    match r with
    | Err e => (w, Err e)
    | Ok (records, meta) =>
      if 0 <? sm_RecordCount meta then
        let meta := mkSegmentMeta (length segs) (sm_Path meta) (sm_FirstSeq meta)
                      (sm_LastSeq meta) (sm_Size meta) (sm_RecordCount meta) in
        open_scan w opt files (segs ++ [meta]) (recs ++ records) errs
      else
        let '(w, rm) := os_Remove w f in
        match rm with
        | Ok _ | Err ErrNotExist => open_scan w opt files segs recs errs
        | Err _ => open_scan w opt files segs recs (S errs)
        end
    end
  end.

Definition NewSegmentStore (dflt : bytes) (w : World) (filePrefix : bytes)
    (maxSegmentSize : Z) (opt : ScanOptions)
    : World * result wal_error (SegmentStore * list R) :=
  let maxSegmentSize := if maxSegmentSize <=? 0 then DefaultMaxSegmentSize else maxSegmentSize in
  let filePrefix := match filePrefix with [] => dflt | _ => filePrefix end in
  let '(w, mk) := sys_plain w in
  match mk with
  | Err e => (w, Err e)
  | Ok _ =>
    let '(w, ents) := os_ReadDir w in
    match ents with
    | Err e => (w, Err e)
    | Ok ents =>
      let walFiles := sort_strings (fst <$> filter (fun e => is_wal_file filePrefix e = true) ents) in
      let '(w, r) := open_scan w opt walFiles [] [] 0 in
      match r with
      | Err e => (w, Err e)
      | Ok (segs, recs, errs) =>
        if (0 <? errs)%nat then (w, Err ErrSys)
        else (w, Ok (mkSegmentStore maxSegmentSize filePrefix (so_AcceptUnversioned opt)
                       (so_NoFsync opt) None None segs (length segs), recs))
      end
    end
  end.

(** [fmt.Sprintf("%s-%019d.wal", prefix, firstSeq)]. *)
Definition segmentFilename (prefix : bytes) (firstSeq : Z) : bytes :=
  prefix ++ go "-" ++ fmt_pad 19 firstSeq ++ go ".wal".

(** Sync and close of the active file, both attempted. *)
Definition sync_close (w : World) (p : bytes) : World * result wal_error () :=
  let '(w, s) := f_Sync w p in
  let '(w, c) := f_Close w in
  (w, match s, c with Ok _, Ok _ => Ok () | _, _ => Err ErrSys end).

Definition rotateLocked (w : World) (s : SegmentStore) (firstSeq : Z)
    : World * SegmentStore * result wal_error () :=
  let '(w, s, pre) :=
    match st_activeFile s with
    | Some p =>
      let '(w, r) := sync_close w p in
      (w, with_active s None (st_activeMeta s), r)
    | None => (w, s, Ok ())
    end in
  match pre with
  | Err e => (w, s, Err e)
  | Ok _ =>
    let path := segmentFilename (st_filePrefix s) firstSeq in
    let '(w, o) := os_OpenAppend w path in
    match o with
    | Err e => (w, s, Err e)
    | Ok _ =>
      let hdr := SegmentHeader_Encode DefaultSegmentHeader in
      let '(w, wr) := f_Write w path hdr in
      match wr with
      | Err e => let '(w, _) := f_Close w in (w, s, Err e)
      | Ok _ =>
        let meta := mkSegmentMeta (st_next s) path firstSeq firstSeq
                      (Z.of_nat (length hdr)) 0 in
        (w, mkSegmentStore (st_maxSegmentSize s) (st_filePrefix s) (st_acceptUnversioned s)
              (st_noFsync s) (Some path) (Some (st_next s)) (st_segments s ++ [meta])
              (S (st_next s)), Ok ())
      end
    end
  end.

(** Whether the append below starts a new file first. *)
Definition needs_rotate (s : SegmentStore) (recordLen : Z) : bool :=
  match st_activeFile s, active_meta s with
  | Some _, Some m =>
    (st_maxSegmentSize s <? sm_Size m + recordLen) && (0 <? sm_RecordCount m)
  | _, _ => true
  end.

Definition bump_meta (seq recordLen : Z) (m : SegmentMeta) : SegmentMeta :=
  mkSegmentMeta (sm_ptr m) (sm_Path m)
    (if sm_RecordCount m =? 0 then seq else sm_FirstSeq m) seq
    (sm_Size m + recordLen) (sm_RecordCount m + 1).

(** The body of [ClientSegmentStore.Append] and of the loop of
    [LogSegmentStore.AppendBatch]. *)
Definition append_one (w : World) (s : SegmentStore) (rec : R)
    : World * SegmentStore * result wal_error () :=
  let encoded := sf_bytes rec in
  let recordLen := Z.of_nat (length encoded) in
  let '(w, s, rot) :=
    if needs_rotate s recordLen then rotateLocked w s (sf_seq rec) else (w, s, Ok ()) in
  match rot with
  | Err e => (w, s, Err e)
  | Ok _ =>
    match st_activeFile s, st_activeMeta s with
    | Some p, Some ptr =>
      let '(w, wr) := f_Write w p encoded in
      match wr with
      | Err e => (w, s, Err e)
      | Ok _ =>
        (w, with_segments s (update_meta ptr (bump_meta (sf_seq rec) recordLen) (st_segments s)),
         Ok ())
      end
    | _, _ => (w, s, Err ErrSys)
    end
  end.

Fixpoint append_all (w : World) (s : SegmentStore) (recs : list R)
    : World * SegmentStore * result wal_error () :=
  match recs with
  | [] => (w, s, Ok ())
  | r :: recs =>
    let '(w, s, res) := append_one w s r in
    match res with Err e => (w, s, Err e) | Ok _ => append_all w s recs end
  end.

(** [Sync]: fsync of the active file unless disabled. *)
Definition store_Sync (w : World) (s : SegmentStore) : World * result wal_error () :=
  match st_activeFile s with
  | Some p => if st_noFsync s then (w, Ok ()) else f_Sync w p
  | None => (w, Ok ())
  end.

Definition store_Close (w : World) (s : SegmentStore)
    : World * SegmentStore * result wal_error () :=
  match st_activeFile s with
  | Some p =>
    let '(w, r) := sync_close w p in (w, with_active s None (st_activeMeta s), r)
  | None => (w, s, Ok ())
  end.
End generic.

(** ** The client's store *)

Definition ScanClientSegmentFile := @ScanSegmentFile ClientRecord client_format.
Definition NewClientSegmentStore := @NewSegmentStore ClientRecord client_format (go "stream").
Definition ClientSegmentStore_Append := @append_one ClientRecord client_format.
Definition ClientSegmentStore_Sync := store_Sync.
Definition ClientSegmentStore_Close := store_Close.

(** The decoding loop of [TruncateAfter]: count, first and last sequence and end
    offset of the leading records with [StreamSeq <= maxSeq]. *)
Fixpoint keep_loop (fuel : nat) (rd : Reader) (maxSeq : Z) (count first lastq off : Z)
    : Z * Z * Z * Z :=
  match fuel with
  | O => (count, first, lastq, off)
  | S k =>
    let '(rd', res) := DecodeClientRecord rd in
    match res with
    | Err _ => (count, first, lastq, off)
    | Ok r =>
      if maxSeq <? cr_StreamSeq r then (count, first, lastq, off)
      else keep_loop k rd' maxSeq (count + 1)
             (if count =? 0 then cr_StreamSeq r else first) (cr_StreamSeq r)
             (off + (ClientHeaderSize + Z.of_nat (length (cr_Payload r))))
    end
  end.

(** One segment of [TruncateAfter]: what remains of it and the errors met. *)
Definition truncate_segment (w : World) (accept : bool) (maxSeq : Z) (seg : SegmentMeta)
    : World * list SegmentMeta * nat :=
  if maxSeq <? sm_FirstSeq seg then
    let '(w, r) := os_Remove w (sm_Path seg) in
    match r with
    | Ok _ | Err ErrNotExist => (w, [], 0%nat)
    | Err _ => (w, [seg], 1%nat)
    end
  else if sm_LastSeq seg <=? maxSeq then (w, [seg], 0%nat)
  else
  let '(w, h) := os_Open w (sm_Path seg) in
  match h with
  | Err ErrNotExist => (w, [], 0%nat)
  | Err _ => (w, [seg], 1%nat)
  | Ok rd =>
    let '(rd, hdr) := ReadSegmentHeader rd accept in
    match hdr with
    | Err _ => let '(w, _) := f_Close w in (w, [seg], 1%nat)
    | Ok (_, hdrOffset) =>
      let '(count, first, lastq, off) := keep_loop (scan_fuel rd) rd maxSeq 0 0 0 hdrOffset in
      if count =? 0 then
        let '(w, c) := f_Close w in
        let e := match c with Ok _ => 0%nat | Err _ => 1%nat end in
        let '(w, r) := os_Remove w (sm_Path seg) in
        match r with
        | Ok _ | Err ErrNotExist => (w, [], e)
        | Err _ => (w, [seg], S e)
        end
      else
      let '(w, t) := f_Truncate w (sm_Path seg) off in
      match t with
      | Err _ => let '(w, _) := f_Close w in (w, [seg], 1%nat)
      | Ok _ =>
        let '(w, sc) := sync_close w (sm_Path seg) in
        match sc with
        | Err _ => (w, [seg], 1%nat)
        | Ok _ =>
          (w, [mkSegmentMeta (sm_ptr seg) (sm_Path seg) first lastq off count], 0%nat)
        end
      end
    end
  end.

Fixpoint truncate_segments (w : World) (accept : bool) (maxSeq : Z) (segs : list SegmentMeta)
    : World * list SegmentMeta * nat :=
  match segs with
  | [] => (w, [], 0%nat)
  | seg :: segs =>
    let '(w, kept, e) := truncate_segment w accept maxSeq seg in
    let '(w, rest, e') := truncate_segments w accept maxSeq segs in
    (w, kept ++ rest, (e + e')%nat)
  end.

Definition ClientSegmentStore_TruncateAfter (w : World) (s : SegmentStore) (maxSeq : Z)
    : World * SegmentStore * result wal_error () :=
  let '(w, s, e0) :=
    match st_activeFile s with
    | Some p =>
      let '(w, r) := sync_close w p in
      (w, with_active s None None, match r with Ok _ => 0%nat | Err _ => 1%nat end)
    | None => (w, s, 0%nat)
    end in
  let '(w, remaining, e) :=
    truncate_segments w (st_acceptUnversioned s) maxSeq (st_segments s) in
  (w, with_segments s remaining, if (0 <? e0 + e)%nat then Err ErrSys else Ok ()).

Fixpoint delete_acked (w : World) (active : option nat) (acked : Z) (segs : list SegmentMeta)
    : World * list SegmentMeta :=
  match segs with
  | [] => (w, [])
  | seg :: segs =>
    if decide (active = Some (sm_ptr seg)) then
      let '(w, rest) := delete_acked w active acked segs in (w, seg :: rest)
    else if (sm_LastSeq seg <=? acked) && (0 <? sm_RecordCount seg) then
      let '(w, r) := os_Remove w (sm_Path seg) in
      let '(w, rest) := delete_acked w active acked segs in
      match r with
      | Ok _ | Err ErrNotExist => (w, rest)
      | Err _ => (w, seg :: rest)
      end
    else
      let '(w, rest) := delete_acked w active acked segs in (w, seg :: rest)
  end.

Definition ClientSegmentStore_DeleteSegmentsBeforeS3Ack (w : World) (s : SegmentStore)
    (s3AckedSeq : Z) : World * SegmentStore :=
  let '(w, remaining) := delete_acked w (st_activeMeta s) s3AckedSeq (st_segments s) in
  (w, with_segments s remaining).

(** ** The witness's store *)

Definition ScanLogSegmentFile := @ScanSegmentFile LogRecord log_format.
Definition NewLogSegmentStore := @NewSegmentStore LogRecord log_format (go "log").
Definition LogSegmentStore := SegmentStore.
Definition LogSegmentStore_segmentFilename := segmentFilename.
Definition LogSegmentStore_rotateLocked := rotateLocked.
Definition LogSegmentStore_Close := store_Close.

Definition LogSegmentStore_AppendBatch (w : World) (s : SegmentStore) (records : list LogRecord)
    : World * SegmentStore * result wal_error () :=
  match records with
  | [] => (w, s, Ok ())
  | _ =>
    let '(w, s, r) := append_all w s records in
    match r with
    | Err e => (w, s, Err e)
    | Ok _ => let '(w, y) := store_Sync w s in (w, s, y)
    end
  end.

(** [sort.Search(n, f)]: binary search for the first index satisfying [f]. *)
Fixpoint sort_search_go (fuel : nat) (f : nat -> bool) (i j : nat) : nat :=
  match fuel with
  | O => i
  | S k =>
    if (i <? j)%nat then
      let h := ((i + j) / 2)%nat in
      if f h then sort_search_go k f i h else sort_search_go k f (S h) j
    else i
  end.
Definition sort_search (n : nat) (f : nat -> bool) : nat := sort_search_go (S n) f 0 n.

(** The callback of [ReadFrom] threads a state and may fail. *)
Fixpoint read_records {S} (fuel : nat) (rd : Reader) (position : Z)
    (fn : S -> LogRecord -> result wal_error S) (st : S) : result wal_error S :=
  match fuel with
  | O => Ok st
  | Datatypes.S k =>
    let '(rd', res) := DecodeLogRecord rd in
    match res with
    | Err EOF | Err ErrTruncatedRecord | Err ErrUnexpectedEOF => Ok st
    | Err e => Err e
    | Ok r =>
      if position <=? lr_Position r then
        match fn st r with
        | Err e => Err e
        | Ok st' => read_records k rd' position fn st'
        end
      else read_records k rd' position fn st
    end
  end.

Fixpoint read_segments {S} (w : World) (accept : bool) (position : Z)
    (fn : S -> LogRecord -> result wal_error S) (segs : list SegmentMeta) (st : S)
    : World * result wal_error S :=
  match segs with
  | [] => (w, Ok st)
  | seg :: segs =>
    let '(w, h) := os_Open w (sm_Path seg) in
    match h with
    | Err ErrNotExist => read_segments w accept position fn segs st
    | Err e => (w, Err e)
    | Ok rd =>
      let '(rd, hdr) := ReadSegmentHeader rd accept in
      let '(w', _) := f_Close w in
      match hdr with
      | Ok _ | Err EOF =>
        match read_records (scan_fuel rd) rd position fn st with
        | Err e => (w', Err e)
        | Ok st' => read_segments w' accept position fn segs st'
        end
      | Err e => (w', Err e)
      end
    end
  end.

Definition LogSegmentStore_ReadFrom {S} (w : World) (s : SegmentStore) (position : Z)
    (fn : S -> LogRecord -> result wal_error S) (st : S) : World * result wal_error S :=
  match st_segments s with
  | [] => (w, Ok st)
  | _ =>
    let segs := st_segments s in
    let idx := sort_search (length segs)
      (fun i => match segs !! i with Some m => position <? sm_FirstSeq m | None => true end) in
    let startIdx := if (0 <? idx)%nat then (idx - 1)%nat else 0%nat in
    read_segments w (st_acceptUnversioned s) position fn (drop startIdx segs) st
  end.

Definition total_size (segs : list SegmentMeta) : Z :=
  foldr (fun m acc => sm_Size m + acc) 0 segs.

Fixpoint delete_through (w : World) (active : option nat) (flushed maxRetained total : Z)
    (segs : list SegmentMeta) : World * list SegmentMeta :=
  match segs with
  | [] => (w, [])
  | seg :: segs =>
    if bool_decide (active = Some (sm_ptr seg)) || (flushed <? sm_LastSeq seg)
       || (total <=? maxRetained)
    then
      let '(w, rest) := delete_through w active flushed maxRetained total segs in
      (w, seg :: rest)
    else
      let '(w, r) := os_Remove w (sm_Path seg) in
      match r with
      | Ok _ | Err ErrNotExist =>
        delete_through w active flushed maxRetained (total - sm_Size seg) segs
      | Err _ =>
        let '(w, rest) := delete_through w active flushed maxRetained total segs in
        (w, seg :: rest)
      end
  end.

Definition LogSegmentStore_DeleteSegmentsThrough (w : World) (s : SegmentStore)
    (flushedPosition maxRetainedBytes : Z) : World * SegmentStore :=
  let totalBytes := total_size (st_segments s) in
  if totalBytes <=? maxRetainedBytes then (w, s)
  else
  let '(w, remaining) :=
    delete_through w (st_activeMeta s) flushedPosition maxRetainedBytes totalBytes (st_segments s) in
  (w, with_segments s remaining).

(** ** Scanning: facts *)

Section scan_facts.
Context {R : Type} `{SegmentFormat R}.
Implicit Types (rs : list R).

(** The record area of a segment file holding [rs]. *)
Definition encode_all rs : bytes := concat (sf_bytes <$> rs).

Lemma encode_all_nil : encode_all [] = [].
Proof. done. Qed.

Lemma encode_all_cons r rs : encode_all (r :: rs) = sf_bytes r ++ encode_all rs.
Proof. done. Qed.

Lemma encode_all_app rs rs' : encode_all (rs ++ rs') = encode_all rs ++ encode_all rs'.
Proof. unfold encode_all. by rewrite fmap_app, concat_app. Qed.

Lemma encode_all_snoc rs r : encode_all (rs ++ [r]) = encode_all rs ++ sf_bytes r.
Proof. by rewrite encode_all_app, encode_all_cons, encode_all_nil, app_nil_r. Qed.

Lemma sf_bytes_pos r : sf_ok r -> (0 < length (sf_bytes r))%nat.
Proof. intros Hr. pose proof (sf_bytes_length r Hr). pose proof sf_header_pos. lia. Qed.

Lemma encode_all_length_ge rs :
  Forall sf_ok rs -> (length rs <= length (encode_all rs))%nat.
Proof.
  induction 1 as [|r rs Hr _ IH]; [done|].
  rewrite encode_all_cons, length_app. cbn [length]. pose proof (sf_bytes_pos r Hr). lia.
Qed.

(** The loop consumes whole records. *)
Lemma scan_loop_records rs : forall fuel rd acc off t,
  Forall sf_ok rs -> rd_readable rd = encode_all rs ++ t ->
  scan_loop (length rs + fuel) rd acc off =
  scan_loop fuel (rd_advance rd (length (encode_all rs))) (acc ++ rs)
    (off + Z.of_nat (length (encode_all rs))).
Proof.
  induction rs as [|r rs IH]; intros fuel rd acc off t HF Hr.
  - cbn [length Nat.add]. rewrite encode_all_nil, app_nil_r, Z.add_0_r. by rewrite rd_advance_0.
  - apply Forall_cons in HF as [Hok HF]. rewrite encode_all_cons, <- app_assoc in Hr.
    cbn [length Nat.add scan_loop]. rewrite (sf_decode_encode _ _ _ Hok Hr).
    rewrite (IH fuel _ _ _ t HF).
    2: { rewrite rd_readable_advance, Hr. apply drop_app_length. }
    rewrite encode_all_cons, rd_advance_advance, <- app_assoc, length_app.
    f_equal. pose proof (sf_bytes_length r Hok). lia.
Qed.

(** A torn tail: a proper, possibly empty prefix of some record. *)
Definition torn_tail (t : bytes) : Prop :=
  t = [] \/ exists r q, sf_ok r /\ sf_bytes r = t ++ q /\ q <> [].

Definition torn_end (t : bytes) : scan_end :=
  match t with [] => ScanEOF | _ :: _ => ScanTorn ErrTruncatedRecord end.

Lemma sf_decode_eof rd :
  (exists r : R, sf_ok r) -> rd_readable rd = [] -> rd_fault rd = None ->
  exists rd', sf_decode (R := R) rd = (rd', Err EOF).
Proof.
  intros [r Hr] Hd Hf. apply (sf_decode_torn rd r [] (sf_bytes r)); try done.
  pose proof (sf_bytes_pos r Hr) as HP. intros E. rewrite E in HP. cbn in HP. lia.
Qed.

Lemma scan_loop_torn fuel rd acc off t :
  (exists r : R, sf_ok r) -> torn_tail t -> rd_readable rd = t -> rd_fault rd = None ->
  scan_loop (S fuel) rd acc off = (acc, off, torn_end t).
Proof.
  intros Hex Ht Hr Hf. cbn [scan_loop].
  assert (exists rd', sf_decode (R := R) rd =
    (rd', Err (match t with [] => EOF | _ :: _ => ErrTruncatedRecord end))) as [rd' ->].
  { destruct Ht as [->|(r & q & Hok & HB & Hq)].
    - by apply sf_decode_eof.
    - by apply (sf_decode_torn rd r t q). }
  by destruct t.
Qed.

(** A scan of records followed by a torn tail returns exactly the records. *)
Lemma scan_loop_tail fuel rd rs t off :
  (exists r : R, sf_ok r) -> Forall sf_ok rs -> torn_tail t ->
  rd_readable rd = encode_all rs ++ t -> rd_fault rd = None -> (length rs < fuel)%nat ->
  scan_loop fuel rd [] off =
  (rs, off + Z.of_nat (length (encode_all rs)), torn_end t).
Proof.
  intros Hex HF Ht Hr Hf Hfuel.
  replace fuel with (length rs + S (fuel - length rs - 1))%nat by lia.
  rewrite (scan_loop_records rs _ _ _ _ t HF Hr).
  apply scan_loop_torn; try done.
  rewrite rd_readable_advance, Hr. apply drop_app_length.
Qed.

(** Every cut of a sequence of records is records followed by a torn tail. *)
Lemma encode_all_cut rs n :
  Forall sf_ok rs -> (n <= length (encode_all rs))%nat ->
  exists k t, (k <= length rs)%nat /\ take n (encode_all rs) = encode_all (take k rs) ++ t /\
    torn_tail t /\
    (forall j, (j <= length rs)%nat -> (length (encode_all (take j rs)) <= n)%nat -> (j <= k)%nat).
Proof.
  intros HF. revert n; induction HF as [|r rs Hok HF IH]; intros n Hn.
  - exists 0%nat, []. split_and!; [done| |by left|].
    + cbn in Hn. by destruct n.
    + cbn. lia.
  - rewrite encode_all_cons in *. rewrite length_app in Hn.
    destruct (decide (length (sf_bytes r) <= n)%nat) as [Hle|Hgt].
    + destruct (IH (n - length (sf_bytes r))%nat ltac:(lia)) as (k & t & Hk & HT & Ht & HM).
      exists (S k), t. split_and!; [cbn; lia| |done|].
      * rewrite take_app_ge by done. cbn [take]. by rewrite HT, encode_all_cons, app_assoc.
      * intros [|j] Hj' Hj; [lia|]. cbn [take length] in Hj, Hj'.
        rewrite encode_all_cons, length_app in Hj. specialize (HM j). lia.
    + exists 0%nat, (take n (sf_bytes r)). split_and!; [lia| | |].
      * rewrite take_app_le by lia. done.
      * right. exists r, (drop n (sf_bytes r)). rewrite take_drop. split_and!; try done.
        intros E. apply (f_equal length) in E. rewrite length_drop in E. cbn in E. lia.
      * intros [|j] _ Hj; [lia|]. cbn [take] in Hj.
        rewrite encode_all_cons, length_app in Hj. lia.
Qed.

(** What any finished scan has established, whatever the file holds. *)
Lemma scan_loop_sound fuel : forall rd acc off rs off' fin,
  scan_loop fuel rd acc off = (rs, off', fin) ->
  exists new rest, rs = acc ++ new /\ Forall sf_ok new /\
    rd_readable rd = encode_all new ++ rest /\
    off' = off + Z.of_nat (length (encode_all new)).
Proof.
  induction fuel as [|fuel IH]; intros rd acc off rs off' fin HS; cbn [scan_loop] in HS.
  - injection HS as <- <- _. exists [], (rd_readable rd). rewrite app_nil_r.
    split_and!; try done. cbn. lia.
  - destruct (sf_decode rd) as [rd' [r|e]] eqn:ED.
    + apply sf_decode_sound in ED as (Hok & HR & ->).
      apply IH in HS as (new & rest & -> & HF & HR' & ->).
      exists (r :: new), rest. split_and!.
      * by rewrite <- app_assoc.
      * by constructor.
      * by rewrite HR, HR', encode_all_cons, app_assoc.
      * rewrite encode_all_cons, length_app. pose proof (sf_bytes_length r Hok). lia.
    + exists [], (rd_readable rd). rewrite app_nil_r.
      destruct e; injection HS as <- <- _; split_and!; try done; cbn; lia.
Qed.

(** The fuel of a scan is enough: every round consumes at least one byte. *)
Lemma scan_loop_total fuel : forall rd acc off,
  (length (rd_readable rd) < fuel)%nat -> snd (scan_loop fuel rd acc off) <> ScanFuel.
Proof.
  induction fuel as [|fuel IH]; intros rd acc off Hf; [lia|]. cbn [scan_loop].
  destruct (sf_decode rd) as [rd' [r|e]] eqn:ED.
  - apply IH. apply sf_decode_sound in ED as (Hok & HR & _).
    rewrite HR, length_app in Hf. pose proof (sf_bytes_pos r Hok). lia.
  - by destruct e.
Qed.
End scan_facts.

(** ** Scanning a whole file *)

Definition default_header_bytes : bytes := SegmentHeader_Encode DefaultSegmentHeader.

Lemma default_header_length : length default_header_bytes = 16%nat.
Proof. done. Qed.

Lemma ReadSegmentHeader_default rest accept :
  let rd := reader_of (default_header_bytes ++ rest) in
  ReadSegmentHeader rd accept = (rd_advance rd 16, Ok (DefaultSegmentHeader, 16)).
Proof.
  cbv zeta. unfold ReadSegmentHeader.
  rewrite (read_full_app _ _ default_header_bytes rest) by done. done.
Qed.

(** The name of the copy taken before a truncation. *)
Definition recover_name (w : World) (p : bytes) : bytes :=
  p ++ go "." ++ fmt_pad 0 (w_now w) ++ go ".recover".

Lemma recover_name_ne w p : recover_name w p <> p.
Proof.
  intros E. apply (f_equal length) in E. unfold recover_name in E.
  rewrite !length_app in E. cbn in E. lia.
Qed.

(** The directory after a scan found [good] followed by a torn tail. *)
Definition repaired (w : World) (p data good : bytes) : World :=
  set_dir w (<[p := EFile (mkFile good (length good))]>
               (<[recover_name w p := EFile (mkFile data 0)]> (w_dir w))).

Lemma close_with_err_ok {A} w (r : result wal_error A) :
  no_faults w -> close_with_err w r = (w, r).
Proof. intros Hw. unfold close_with_err. rewrite f_Close_ok by done. by destruct r. Qed.

Lemma backup_truncate_sync w p f good rest :
  no_faults w -> w_dir w !! p = Some (EFile f) -> f_data f = good ++ rest ->
  let w1 := backupCorruptedSegment w p in
  exists w2, f_Truncate w1 p (Z.of_nat (length good)) = (w2, Ok ()) /\
    f_Sync w2 p = (repaired w p (f_data f) good, Ok ()).
Proof.
  intros Hw Hp Hd. cbv zeta. unfold backupCorruptedSegment.
  rewrite (os_ReadFile_ok _ _ _ Hw Hp), os_WriteFile_ok by done. cbn [fst].
  fold (recover_name w p). pose proof (recover_name_ne w p) as Hne.
  eexists. split.
  - rewrite (f_Truncate_ok _ _ f); [done|done|]. cbn. by rewrite lookup_insert_ne by done.
  - rewrite (f_Sync_ok _ _ (mkFile good (f_synced f `min` length good))).
    + unfold repaired, set_dir; cbn [w_dir w_outcomes w_now f_data].
      by rewrite !insert_insert_eq.
    + done.
    + cbn. rewrite Nat2Z.id, Hd, resize_app. by rewrite lookup_insert_eq.
Qed.

Section scan_file_facts.
Context {R : Type} `{SegmentFormat R}.
Implicit Types (rs : list R).

Definition segment_bytes rs : bytes := default_header_bytes ++ encode_all rs.

Lemma segment_bytes_length rs : length (segment_bytes rs) = (16 + length (encode_all rs))%nat.
Proof. unfold segment_bytes. by rewrite length_app, default_header_length. Qed.

Definition segment_size rs : Z := 16 + Z.of_nat (length (encode_all rs)).

(** [rest] does not start with a whole record. *)
Definition no_record (rest : bytes) : Prop :=
  forall (r : R) rest', sf_ok r -> rest <> sf_bytes r ++ rest'.

(** On a readable file the loop ends at the end of the data or at something
    that is not a whole record. *)
Lemma scan_loop_ends fuel : forall rd acc off rs off' fin,
  rd_fault rd = None -> (length (rd_readable rd) < fuel)%nat ->
  scan_loop fuel rd acc off = (rs, off', fin) ->
  exists new rest, rs = acc ++ new /\ Forall sf_ok new /\
    rd_readable rd = encode_all new ++ rest /\
    off' = off + Z.of_nat (length (encode_all new)) /\
    (fin = ScanEOF /\ rest = [] \/ rest <> [] /\ exists e, fin = ScanTorn e) /\
    no_record rest.
Proof.
  induction fuel as [|fuel IH]; intros rd acc off rs off' fin Hf Hlen HS; [lia|].
  cbn [scan_loop] in HS. destruct (sf_decode rd) as [rd' [r|e]] eqn:ED.
  - apply sf_decode_sound in ED as (Hok & HR & ->).
    assert (rd_fault (rd_advance rd (length (sf_bytes r))) = None) as Hf' by done.
    rewrite HR, length_app in Hlen. pose proof (sf_bytes_pos r Hok).
    apply IH in HS as (new & rest & -> & HF & HR' & -> & Hfin & Hno); [|done|lia].
    exists (r :: new), rest. split_and!; try done.
    + by rewrite <- app_assoc.
    + by constructor.
    + by rewrite HR, HR', encode_all_cons, app_assoc.
    + rewrite encode_all_cons, length_app. pose proof (sf_bytes_length r Hok). lia.
  - exists [], (rd_readable rd). rewrite app_nil_r.
    pose proof (sf_decode_errors _ _ _ Hf ED) as Herr.
    assert (no_record (rd_readable rd)) as Hno.
    { intros r rest' Hok HR. rewrite (sf_decode_encode _ _ _ Hok HR) in ED. discriminate ED. }
    assert (rs = acc /\ off' = off) as [-> ->] by (destruct e; by injection HS as <- <- _).
    split_and!; [done..|cbn; lia| |done].
    destruct Herr as [[-> HE]|[Hne Herr]].
    + injection HS as <-. by left.
    + right. split; [done|]. destruct Herr as [-> |[-> | -> ]]; injection HS as <-; eauto.
Qed.

(** The world after a scan that found [rs] followed by [rest]. *)
Definition scanned (w : World) (p : bytes) rs (rest : bytes) : World :=
  match rest with
  | [] => w
  | _ :: _ => repaired w p (segment_bytes rs ++ rest) (segment_bytes rs)
  end.

Lemma scan_file_finish w p f opt rs rest fin :
  no_faults w -> w_dir w !! p = Some (EFile f) -> f_data f = segment_bytes rs ++ rest ->
  let rd := rd_advance (reader_of (f_data f)) 16 in
  scan_loop (scan_fuel rd) rd [] 16 = (rs, segment_size rs, fin) ->
  fin = ScanEOF /\ rest = [] \/ rest <> [] /\ (exists e, fin = ScanTorn e) ->
  ScanSegmentFile w p opt =
  (scanned w p rs rest, Ok (rs, scan_meta p rs (segment_size rs))).
Proof.
  intros Hw Hp Hd rd HS Hfin. unfold ScanSegmentFile.
  rewrite (os_Open_ok _ _ _ Hw Hp).
  pose proof (ReadSegmentHeader_default (encode_all rs ++ rest) (so_AcceptUnversioned opt)) as HH.
  cbv zeta in HH. rewrite app_assoc in HH. fold (segment_bytes rs) in HH. rewrite <- Hd in HH.
  rewrite HH. fold rd. rewrite HS.
  destruct Hfin as [[-> ->]|[Hne [e ->]]].
  - by rewrite close_with_err_ok.
  - destruct (backup_truncate_sync w p f _ _ Hw Hp Hd) as (w2 & HT & HY). cbv zeta in HT.
    assert (segment_size rs = Z.of_nat (length (segment_bytes rs))) as ->
      by (rewrite segment_bytes_length; unfold segment_size; lia).
    rewrite HT, HY, close_with_err_ok by done.
    unfold scanned. destruct rest; [done|]. by rewrite Hd.
Qed.

Lemma readable_body (body : bytes) :
  rd_readable (rd_advance (reader_of (default_header_bytes ++ body)) 16) = body.
Proof. rewrite rd_readable_advance. done. Qed.

(** Scanning a file that starts with a header always succeeds, whatever the
    bytes after it. *)
Lemma ScanSegmentFile_any w p f body opt :
  no_faults w -> w_dir w !! p = Some (EFile f) -> f_data f = default_header_bytes ++ body ->
  exists rs rest, Forall sf_ok rs /\ body = encode_all rs ++ rest /\ no_record rest /\
    ScanSegmentFile w p opt =
    (scanned w p rs rest, Ok (rs, scan_meta p rs (segment_size rs))).
Proof.
  intros Hw Hp Hd. set (rd := rd_advance (reader_of (f_data f)) 16).
  assert (rd_readable rd = body) as Hb by (unfold rd; by rewrite Hd, readable_body).
  destruct (scan_loop (scan_fuel rd) rd [] 16) as [[rs off] fin] eqn:HS.
  assert (HL : (length (rd_readable rd) < scan_fuel rd)%nat) by apply Nat.lt_succ_diag_r.
  destruct (scan_loop_ends _ rd _ _ _ _ _ eq_refl HL HS)
    as (new & rest & Hnew & HF & HR & Hoff & Hfin & Hno).
  cbn in Hnew. subst new off. exists rs, rest. rewrite Hb in HR.
  split_and!; [done..|]. apply (scan_file_finish w p f opt rs rest fin); try done.
  by rewrite Hd, HR, app_assoc.
Qed.

Lemma ScanSegmentFile_tail w p f rs t opt :
  (exists r : R, sf_ok r) ->
  no_faults w -> w_dir w !! p = Some (EFile f) ->
  Forall sf_ok rs -> torn_tail t -> f_data f = segment_bytes rs ++ t ->
  ScanSegmentFile w p opt =
  (scanned w p rs t, Ok (rs, scan_meta p rs (segment_size rs))).
Proof.
  intros Hex Hw Hp HF Ht Hd. set (rd := rd_advance (reader_of (f_data f)) 16).
  assert (rd_readable rd = encode_all rs ++ t) as Hb.
  { unfold rd. unfold segment_bytes in Hd. by rewrite Hd, <- app_assoc, readable_body. }
  apply (scan_file_finish w p f opt rs t (torn_end t)); try done.
  - apply (scan_loop_tail _ _ _ t); try done. unfold scan_fuel. fold rd.
    rewrite Hb, length_app. pose proof (encode_all_length_ge rs HF). lia.
  - destruct t; [by left|right]. split; [done|]. by eexists.
Qed.

Lemma scanned_lookup w p f rs rest :
  w_dir w !! p = Some (EFile f) -> f_data f = segment_bytes rs ++ rest ->
  exists f', w_dir (scanned w p rs rest) !! p = Some (EFile f') /\ f_data f' = segment_bytes rs /\
    (rest <> [] -> f_synced f' = length (f_data f')).
Proof.
  intros Hp Hd. unfold scanned. destruct rest.
  - exists f. by rewrite app_nil_r in Hd.
  - eexists. unfold repaired; cbn. by rewrite lookup_insert_eq.
Qed.

(** A file of whole records is scanned as it is. *)
Lemma ScanSegmentFile_clean w p f rs opt :
  no_faults w -> w_dir w !! p = Some (EFile f) -> Forall sf_ok rs ->
  f_data f = segment_bytes rs ->
  ScanSegmentFile w p opt = (w, Ok (rs, scan_meta p rs (segment_size rs))).
Proof.
  intros Hw Hp HF Hd.
  apply (scan_file_finish w p f opt rs [] ScanEOF); try done; [by rewrite app_nil_r| |by left].
  set (rd := rd_advance _ _).
  assert (rd_readable rd = encode_all rs ++ []) as Hb.
  { unfold rd. unfold segment_bytes in Hd. by rewrite Hd, readable_body, app_nil_r. }
  destruct (scan_loop (scan_fuel rd) rd [] 16) as [[rs' off] fin] eqn:HS.
  assert (HL : (length rs < scan_fuel rd)%nat).
  { unfold scan_fuel. rewrite Hb, length_app. pose proof (encode_all_length_ge rs HF). lia. }
  replace (scan_fuel rd) with (length rs + S (scan_fuel rd - length rs - 1))%nat in HS by lia.
  rewrite (scan_loop_records rs _ _ _ _ [] HF Hb) in HS. cbn [app scan_loop] in HS.
  destruct (sf_decode _) as [rd' [r|e]] eqn:ED.
  - apply sf_decode_sound in ED as (Hok & HR & _). exfalso.
    rewrite rd_readable_advance, Hb, drop_app_length in HR.
    pose proof (sf_bytes_pos r Hok). destruct (sf_bytes r); [cbn in *; lia|done].
  - assert (rd_readable (rd_advance rd (length (encode_all rs))) = []) as HE
      by (rewrite rd_readable_advance, Hb; apply drop_app_length).
    destruct (sf_decode_errors (rd_advance rd (length (encode_all rs))) _ _ eq_refl ED)
      as [[-> _]|[Hne _]]; [|done].
    injection HS as <- <- <-. done.
Qed.

Lemma scanned_no_faults w p rs rest : no_faults w -> no_faults (scanned w p rs rest).
Proof. by destruct rest. Qed.
End scan_file_facts.

(** ** Theorems *)

(** C19: scanning a segment file recovers from any damage behind its header.
    Whatever bytes follow the 16-byte header, the scan succeeds and returns the
    longest run of whole records at the front; afterwards the file holds
    exactly the header and those records, the damaged original has been copied
    to the ".recover" file, and scanning again returns the same result and
    changes nothing. *)
Theorem scan_recovers_any_damage {R} `{SegmentFormat R} w p f body opt :
  no_faults w -> w_dir w !! p = Some (EFile f) -> f_data f = default_header_bytes ++ body ->
  exists w' (rs : list R) rest meta,
    ScanSegmentFile w p opt = (w', Ok (rs, meta)) /\
    body = encode_all rs ++ rest /\ Forall sf_ok rs /\ no_record (R := R) rest /\
    sm_RecordCount meta = Z.of_nat (length rs) /\
    sm_Size meta = 16 + Z.of_nat (length (encode_all rs)) /\
    (exists f', w_dir w' !! p = Some (EFile f') /\ f_data f' = default_header_bytes ++ encode_all rs) /\
    (rest <> [] -> exists b, w_dir w' !! recover_name w p = Some (EFile b) /\ f_data b = f_data f) /\
    ScanSegmentFile w' p opt = (w', Ok (rs, meta)).
Proof.
  intros Hw Hp Hd. destruct (ScanSegmentFile_any w p f body opt Hw Hp Hd)
    as (rs & rest & HF & HB & Hno & HS).
  assert (Hd' : f_data f = segment_bytes rs ++ rest) by (by rewrite Hd, HB, app_assoc).
  destruct (scanned_lookup w p f rs rest Hp Hd') as (f' & Hf' & Hd'' & _).
  exists (scanned w p rs rest), rs, rest. eexists. split_and!; try done.
  - by exists f'.
  - intros Hne. destruct rest; [done|]. eexists. cbn.
    rewrite lookup_insert_ne by (intros E; by apply (recover_name_ne w p)).
    rewrite lookup_insert_eq. split; [done|]. by rewrite Hd'.
  - apply (ScanSegmentFile_clean _ p f'); try done. by apply scanned_no_faults.
Qed.

Lemma scan_recovers_any_damage_witness :
  exists w' (rs : list ClientRecord) rest meta,
    ScanSegmentFile (mkWorld {[ go "s-1.wal" := EFile (mkFile (default_header_bytes ++ go "junk") 0) ]} [] 7)
      (go "s-1.wal") (mkScanOptions false false) = (w', Ok (rs, meta)) /\
    go "junk" = encode_all rs ++ rest.
Proof.
  destruct (scan_recovers_any_damage (R := ClientRecord)
    (mkWorld {[ go "s-1.wal" := EFile (mkFile (default_header_bytes ++ go "junk") 0) ]} [] 7)
    (go "s-1.wal") (mkFile (default_header_bytes ++ go "junk") 0) (go "junk")
    (mkScanOptions false false) eq_refl (lookup_singleton_eq _ _) eq_refl)
    as (w' & rs & rest & meta & HS & HB & _).
  by exists w', rs, rest, meta.
Defined.
