(* ===== verification/WalStore.v ===== *)
(** * WalStore: crash safety of the segment stores

    The segment stores of WalSegment.v against an abstract log: a list of
    records and the number of them that are durable.  An append extends the
    log, a sync makes all of it durable, and a crash keeps some prefix that
    contains everything durable; reopening the directory returns exactly that
    prefix.  The refinement is proved for runs whose system calls succeed, over
    any record format; what a failing write does to it is the subject of the
    last section. *)

From S2P Require Import Prelude Bytes WalRecord FileSys WalSegment.

#[local] Open Scope Z_scope.
#[local] Open Scope list_scope.

(** Sequence numbers whose segment names sort correctly: the names hold 19
    digits, a [uint64] may need 20. *)
Definition name_limit : Z := 10 ^ 19.

Section store.
Context {R : Type} `{SegmentFormat R}.
Implicit Types (rs : list R) (parts : list (list R)).

Definition first_seq rs : Z := match rs with r :: _ => sf_seq r | [] => 0 end.
Definition last_seq rs : Z := match last rs with Some r => sf_seq r | None => 0 end.

Definition seg_meta (ptr : nat) (path : bytes) rs : SegmentMeta :=
  mkSegmentMeta ptr path (first_seq rs) (last_seq rs) (segment_size rs) (Z.of_nat (length rs)).

Definition part_name (prefix : bytes) rs : bytes := segmentFilename prefix (first_seq rs).

Definition wal_name (prefix n : bytes) : Prop :=
  has_prefix (prefix ++ go "-") n = true /\ has_suffix (go ".wal") n = true.

(** The file [n] holds exactly [rs]. *)
Definition holds (w : World) (n : bytes) rs : Prop :=
  exists f, w_dir w !! n = Some (EFile f) /\ f_data f = segment_bytes rs /\
    (f_synced f <= length (f_data f))%nat.

Definition fully_synced (w : World) (n : bytes) : Prop :=
  exists f, w_dir w !! n = Some (EFile f) /\ f_synced f = length (f_data f).

(** At least the first [k] records of the file's [rs] are on stable storage. *)
Definition records_synced (w : World) (n : bytes) rs (k : nat) : Prop :=
  (0 < k)%nat -> exists f, w_dir w !! n = Some (EFile f) /\
    (length (segment_bytes (take k rs)) <= f_synced f)%nat.

(** The records a store may be given: well formed, with sequence numbers in
    increasing order and below the limit of the file names. *)
Definition valid_log rs : Prop :=
  Forall sf_ok rs /\ StronglySorted Z.lt (sf_seq <$> rs) /\
  Forall (fun r => 0 <= sf_seq r < name_limit) rs.

Record store_inv (w : World) (s : SegmentStore) parts (d : nat) : Prop := {
  si_log : valid_log (concat parts);
  si_nonempty : Forall (fun rs => rs <> []) parts;
  si_metas : Forall2 (fun m rs => m = seg_meta (sm_ptr m) (part_name (st_filePrefix s) rs) rs)
               (st_segments s) parts;
  si_ptrs : NoDup (sm_ptr <$> st_segments s);
  si_next : Forall (fun m => (sm_ptr m < st_next s)%nat) (st_segments s);
  si_files : Forall (fun rs => holds w (part_name (st_filePrefix s) rs) rs) parts;
  si_dir : forall n e, w_dir w !! n = Some e -> wal_name (st_filePrefix s) n ->
             n ∈ part_name (st_filePrefix s) <$> parts;
  si_active : forall p, st_activeFile s = Some p ->
             exists init m, st_segments s = init ++ [m] /\
               st_activeMeta s = Some (sm_ptr m) /\ p = sm_Path m;
  si_synced_init : forall init rs, parts = init ++ [rs] ->
             Forall (fun rs => fully_synced w (part_name (st_filePrefix s) rs)) init;
  si_synced_last : forall init rs, parts = init ++ [rs] ->
             (st_activeFile s = None -> fully_synced w (part_name (st_filePrefix s) rs)) /\
             records_synced w (part_name (st_filePrefix s) rs) rs (d - length (concat init));
  si_durable : (d <= length (concat parts))%nat;
}.

(** ** File names *)

Lemma segmentFilename_wal prefix q : wal_name prefix (segmentFilename prefix q).
Proof.
  unfold wal_name, segmentFilename. split.
  - rewrite app_assoc. apply has_prefix_app.
  - rewrite !app_assoc. apply has_suffix_app.
Qed.

Lemma segmentFilename_compare prefix x y :
  0 <= x < name_limit -> 0 <= y < name_limit ->
  bytes_compare (segmentFilename prefix x) (segmentFilename prefix y) = (x ?= y).
Proof.
  intros Hx Hy. unfold segmentFilename. rewrite !bytes_compare_prefix.
  rewrite bytes_compare_app by (rewrite !length_fmt_pad; done || lia).
  rewrite fmt_pad_compare by (done || lia).
  destruct (x ?= y); [|done|done]. by apply bytes_compare_eq.
Qed.

Lemma segmentFilename_inj prefix x y :
  0 <= x < name_limit -> 0 <= y < name_limit ->
  segmentFilename prefix x = segmentFilename prefix y -> x = y.
Proof.
  intros Hx Hy E. apply bytes_compare_eq in E. rewrite segmentFilename_compare in E by done.
  by apply Z.compare_eq.
Qed.

Lemma recover_name_not_suffix w p : has_suffix (go ".wal") (recover_name w p) <> true.
Proof.
  intros HS. apply has_suffix_spec in HS as [k Hk].
  unfold recover_name in Hk. apply (f_equal last) in Hk.
  rewrite !app_assoc, (last_app _ (go ".recover")), (last_app _ (go ".wal")) in Hk.
  discriminate Hk.
Qed.

Lemma recover_name_not_wal w prefix p : ~ wal_name prefix (recover_name w p).
Proof. intros [_ HS]. by apply (recover_name_not_suffix w p). Qed.

Lemma valid_log_app rs rs' : valid_log (rs ++ rs') -> valid_log rs /\ valid_log rs'.
Proof.
  unfold valid_log. rewrite !Forall_app, fmap_app.
  intros ([? ?] & (_ & ? & ?)%StronglySorted_app & [? ?]). done.
Qed.

Lemma valid_log_take n rs : valid_log rs -> valid_log (take n rs).
Proof. intros HV. rewrite <- (take_drop n rs) in HV. by apply valid_log_app in HV as [? _]. Qed.

Lemma valid_log_lt rs rs' r r' :
  valid_log (rs ++ rs') -> r ∈ rs -> r' ∈ rs' -> sf_seq r < sf_seq r'.
Proof.
  intros (_ & HS & _) Hr Hr'. rewrite fmap_app in HS. apply StronglySorted_app in HS as (HS & _ & _).
  apply HS; by apply list_elem_of_fmap_2.
Qed.

(** ** Reopening *)

(** A file as a crash or a close leaves it: all of it on stable storage, the
    records [rs] and a torn tail; or a file whose header was never written. *)
Definition left_over (w : World) (n : bytes) rs : Prop :=
  exists f, w_dir w !! n = Some (EFile f) /\ f_synced f = length (f_data f) /\
    ((exists t, torn_tail (R := R) t /\ f_data f = segment_bytes rs ++ t) \/
     f_data f = [] /\ rs = []).

(** What scanning such a file does. *)
Lemma scan_left_over_frame w n rs opt :
  (exists r : R, sf_ok r) -> no_faults w -> Forall sf_ok rs -> left_over w n rs ->
  exists w' sz f, ScanSegmentFile w n opt = (w', Ok (rs, scan_meta n rs sz)) /\
    (rs <> [] -> sz = segment_size rs) /\
    w_dir w' !! n = Some (EFile f) /\ f_synced f = length (f_data f) /\
    (f_data f = segment_bytes rs \/ f_data f = [] /\ rs = []) /\
    no_faults w' /\ w_now w' = w_now w /\
    (forall n', n' <> n -> n' <> recover_name w n -> w_dir w' !! n' = w_dir w !! n').
Proof.
  intros Hex Hw HF (f & Hf & Hs & [(t & Ht & Hd)|[Hd ->]]).
  - exists (scanned w n rs t), (segment_size rs).
    destruct (scanned_lookup w n f rs t Hf Hd) as (f' & Hf' & Hd' & Hs').
    assert (f_synced f' = length (f_data f')) as Hsync.
    { destruct t; [|by apply Hs']. cbn in Hf'. congruence. }
    exists f'. split_and!; try done.
    + by apply (ScanSegmentFile_tail w n f).
    + by left.
    + by apply scanned_no_faults.
    + unfold scanned. by destruct t.
    + intros n' Hne Hrec. unfold scanned. destruct t; [done|].
      unfold repaired; cbn. by rewrite !lookup_insert_ne.
  - exists w, 0, f. split_and!; try done; [|by right].
    unfold ScanSegmentFile. rewrite (os_Open_ok _ _ f) by done. rewrite Hd.
    assert (HE : forall a, ReadSegmentHeader (reader_of []) a = (reader_of [], Err EOF)) by done.
    by rewrite HE, close_with_err_ok.
Qed.

Lemma scan_left_over w n rs opt :
  (exists r : R, sf_ok r) -> no_faults w -> Forall sf_ok rs -> left_over w n rs ->
  exists w' sz, ScanSegmentFile w n opt = (w', Ok (rs, scan_meta n rs sz)) /\
    (rs <> [] -> sz = segment_size rs /\ holds w' n rs /\ fully_synced w' n) /\
    (exists f, w_dir w' !! n = Some (EFile f)) /\ no_faults w' /\
    (forall n' prefix, n' <> n -> wal_name prefix n' -> w_dir w' !! n' = w_dir w !! n').
Proof.
  intros Hex Hw HF Hl.
  destruct (scan_left_over_frame w n rs opt Hex Hw HF Hl)
    as (w' & sz & f & HS & Hsz & Hf & Hs & Hd & Hw' & _ & Hfr).
  exists w', sz. split_and!; [done| |by exists f|done|].
  - intros Hne. destruct Hd as [Hd|[_ ?]]; [|done].
    split_and!; [auto| |]; exists f; split_and!; try done. lia.
  - intros n' prefix Hne Hwal. apply Hfr; [done|]. intros ->. by apply (recover_name_not_wal w prefix n).
Qed.

Definition nonempty (e : bytes * list R) : bool :=
  match snd e with [] => false | _ :: _ => true end.

Definition meta_of (m : SegmentMeta) (e : bytes * list R) : Prop :=
  m = seg_meta (sm_ptr m) (fst e) (snd e).

(** What [open_scan] leaves of each file. *)
Definition settled (w : World) (e : bytes * list R) : Prop :=
  if nonempty e then holds w (fst e) (snd e) /\ fully_synced w (fst e)
  else w_dir w !! fst e = None.

Lemma settled_frame w w' e :
  w_dir w' !! fst e = w_dir w !! fst e -> settled w e -> settled w' e.
Proof.
  unfold settled, holds, fully_synced. intros E.
  destruct (nonempty e); rewrite E; done.
Qed.

Lemma open_scan_ok opt prefix fs : forall w segs recs errs,
  (exists r : R, sf_ok r) -> no_faults w -> NoDup (fst <$> fs) ->
  Forall (fun e => wal_name prefix (fst e) /\ Forall sf_ok (snd e) /\ left_over w (fst e) (snd e)) fs ->
  exists w' metas,
    open_scan w opt (fst <$> fs) segs recs errs =
      (w', Ok (segs ++ metas, recs ++ concat (snd <$> fs), errs)) /\
    no_faults w' /\
    Forall2 meta_of metas (filter (fun e => nonempty e = true) fs) /\
    sm_ptr <$> metas = seq (length segs) (length metas) /\
    Forall (settled w') fs /\
    (forall n, wal_name prefix n -> n ∉ fst <$> fs -> w_dir w' !! n = w_dir w !! n).
Proof.
  induction fs as [|[n rs] fs IH]; intros w segs recs errs Hex Hw HN HF.
  - exists w, []. cbn. rewrite !app_nil_r. by split_and!.
  - apply NoDup_cons in HN as [Hnin HN]. apply Forall_cons in HF as [(Hwn & Hok & Hlo) HF].
    cbn [fst snd] in *.
    destruct (scan_left_over w n rs opt Hex Hw Hok Hlo) as (w1 & sz & HS & Hne & [f1 Hf1] & Hw1 & Hfr).
    assert (HF1 : forall w2, (forall n', n' <> n -> wal_name prefix n' -> w_dir w2 !! n' = w_dir w1 !! n') ->
      Forall (fun e => wal_name prefix (fst e) /\ Forall sf_ok (snd e) /\ left_over w2 (fst e) (snd e)) fs).
    { intros w2 H2. rewrite Forall_forall in HF |- *. intros e He. destruct (HF e He) as (? & ? & HL).
      assert (fst e <> n) by (intros <-; apply Hnin; by apply list_elem_of_fmap_2).
      split_and!; [done..|]. unfold left_over. by rewrite H2, (Hfr _ prefix). }
    cbn [fmap list_fmap open_scan fst snd]. rewrite HS. cbn [scan_meta sm_RecordCount].
    destruct rs as [|r rs].
    + cbn [length]. change (0 <? Z.of_nat 0) with false. cbn iota.
      rewrite (os_Remove_ok _ _ _ Hw1 Hf1).
      set (w2 := set_dir w1 (delete n (w_dir w1))).
      assert (Hfr2 : forall n', n' <> n -> w_dir w2 !! n' = w_dir w1 !! n')
        by (intros n' Hn'; unfold w2; cbn; by rewrite lookup_delete_ne).
      destruct (IH w2 segs recs errs Hex Hw1 HN (HF1 w2 ltac:(auto)))
        as (w' & metas & HO & Hw' & HM & HP & HSt & Hrest).
      exists w', metas. split_and!; try done.
      * constructor; [|done]. unfold settled; cbn [nonempty snd fst].
        rewrite Hrest by done. unfold w2; cbn. apply lookup_delete_eq.
      * intros n' Hn' Hni. apply not_elem_of_cons in Hni as [? ?].
        rewrite Hrest, Hfr2 by done. by apply (Hfr _ prefix).
    + destruct (Hne ltac:(done)) as (-> & Hh & Hy).
      rewrite (proj2 (Z.ltb_lt _ _)) by (cbn; lia). cbn [sm_Path sm_FirstSeq sm_LastSeq sm_Size].
      set (m := mkSegmentMeta _ _ _ _ _ _).
      destruct (IH w1 (segs ++ [m]) (recs ++ r :: rs) errs Hex Hw1 HN (HF1 w1 ltac:(auto)))
        as (w' & metas & HO & Hw' & HM & HP & HSt & Hrest).
      exists w', (m :: metas). rewrite HO. split_and!; try done.
      * by rewrite <- !app_assoc.
      * rewrite filter_cons_True by done. by constructor.
      * cbn. rewrite HP, length_app. cbn. do 2 f_equal. lia.
      * constructor; [|done]. apply (settled_frame w1); [by apply Hrest|]. by split.
      * intros n' Hn' Hni. apply not_elem_of_cons in Hni as [? ?].
        rewrite Hrest by done. by apply (Hfr _ prefix).
Qed.
(** ** Listing the directory *)

Definition dir_entries (d : gmap bytes Entry) : list (bytes * Entry) :=
  omap (fun n => e ← d !! n; Some (n, e)) (sort_strings (fst <$> map_to_list d)).

Lemma dir_entries_elem d n e : (n, e) ∈ dir_entries d <-> d !! n = Some e.
Proof.
  unfold dir_entries. rewrite list_elem_of_omap. split.
  - intros (n' & _ & HE). destruct (d !! n') as [e'|] eqn:E; [|done]. cbn in HE. naive_solver.
  - intros E. exists n. split; [|by rewrite E].
    rewrite sort_strings_perm. apply list_elem_of_fmap. exists (n, e).
    split; [done|]. by apply elem_of_map_to_list.
Qed.

Lemma omap_fst_keys (d : gmap bytes Entry) l :
  Forall (fun n => is_Some (d !! n)) l ->
  fst <$> omap (fun n => e ← d !! n; Some (n, e)) l = l.
Proof.
  induction 1 as [|n l [e He] _ IH]; [done|]. cbn. rewrite He. cbn. by f_equal.
Qed.

Lemma dir_entries_NoDup d : NoDup (fst <$> dir_entries d).
Proof.
  unfold dir_entries. rewrite omap_fst_keys.
  - rewrite sort_strings_perm. apply NoDup_fst_map_to_list.
  - apply Forall_forall. intros n Hn. rewrite sort_strings_perm in Hn.
    apply list_elem_of_fmap in Hn as ([n' e] & -> & Hn). apply elem_of_map_to_list in Hn.
    by exists e.
Qed.

Lemma sorted_lt_NoDup (l : list bytes) : StronglySorted bytes_lt l -> NoDup l.
Proof.
  induction 1 as [|x l HS IH HF]; constructor; [|done].
  intros Hx. rewrite Forall_forall in HF. by apply (irreflexivity bytes_lt x), HF.
Qed.

Lemma wal_files_ok d prefix names :
  StronglySorted bytes_lt names ->
  (forall n e, d !! n = Some e -> wal_name prefix n -> n ∈ names) ->
  (forall n, n ∈ names -> wal_name prefix n /\ exists f, d !! n = Some (EFile f)) ->
  sort_strings (fst <$> filter (fun e => is_wal_file prefix e = true) (dir_entries d)) = names.
Proof.
  intros HS Hall Hin. apply sort_strings_unique; [done|]. apply NoDup_Permutation.
  - eapply sublist_NoDup; [apply dir_entries_NoDup|]. apply fmap_sublist, sublist_filter.
  - by apply sorted_lt_NoDup.
  - intros n. rewrite list_elem_of_fmap. split.
    + intros ([n' e] & -> & He). apply list_elem_of_filter in He as [Hw He].
      apply dir_entries_elem in He. cbn in *. unfold is_wal_file in Hw. cbn in Hw.
      destruct e; [|done]. apply andb_true_iff in Hw. by apply (Hall _ _ He).
    + intros Hn. destruct (Hin n Hn) as [[H1 H2] [f Hf]]. exists (n, EFile f). split; [done|].
      apply list_elem_of_filter. split; [|by apply dir_entries_elem].
      unfold is_wal_file. cbn [fst snd]. by rewrite H1, H2.
Qed.

(** Opening a directory that holds exactly the files [fs]. *)
Lemma NewSegmentStore_ok dflt w prefix maxSize opt fs :
  (exists r : R, sf_ok r) -> no_faults w -> prefix <> [] ->
  StronglySorted bytes_lt (fst <$> fs) ->
  (forall n e, w_dir w !! n = Some e -> wal_name prefix n -> n ∈ fst <$> fs) ->
  Forall (fun e => wal_name prefix (fst e) /\ Forall sf_ok (snd e) /\ left_over w (fst e) (snd e)) fs ->
  exists w' s, NewSegmentStore dflt w prefix maxSize opt = (w', Ok (s, concat (snd <$> fs))) /\
    no_faults w' /\ st_activeFile s = None /\ st_filePrefix s = prefix /\
    st_noFsync s = so_NoFsync opt /\
    Forall2 meta_of (st_segments s) (filter (fun e => nonempty e = true) fs) /\
    sm_ptr <$> st_segments s = seq 0 (length (st_segments s)) /\
    st_next s = length (st_segments s) /\
    Forall (settled w') fs /\
    (forall n, wal_name prefix n -> n ∉ fst <$> fs -> w_dir w' !! n = w_dir w !! n).
Proof.
  intros Hex Hw Hpre HS Hall HF. unfold NewSegmentStore.
  rewrite sys_plain_ok by done. unfold os_ReadDir. rewrite next_outcome_ok by done.
  fold (dir_entries (w_dir w)). destruct prefix as [|b prefix]; [done|].
  rewrite (wal_files_ok _ _ (fst <$> fs) HS Hall).
  2: { intros n Hn. apply list_elem_of_fmap in Hn as (e & -> & He).
       rewrite Forall_forall in HF. destruct (HF e He) as (? & _ & f & ? & _). eauto. }
  destruct (open_scan_ok opt (b :: prefix) fs w [] [] 0 Hex Hw) as
    (w' & metas & HO & Hw' & HM & HP & HSt & Hrest).
  { apply (sorted_lt_NoDup _ HS). }
  { done. }
  rewrite HO. cbn [app]. exists w'. eexists. split; [done|]. cbn. by split_and!.
Qed.
(** ** The invariant after reopening *)

Lemma first_seq_elem rs : rs <> [] -> exists r, r ∈ rs /\ first_seq rs = sf_seq r.
Proof. destruct rs as [|r rs]; [done|]. exists r. split; [left|done]. Qed.

Lemma first_seq_range rs : valid_log rs -> rs <> [] -> 0 <= first_seq rs < name_limit.
Proof.
  intros (_ & _ & HR) Hne. destruct (first_seq_elem rs Hne) as (r & Hr & ->).
  rewrite Forall_forall in HR. by apply HR.
Qed.

Lemma part_names_sorted prefix parts :
  valid_log (concat parts) -> Forall (fun rs => rs <> []) parts ->
  StronglySorted bytes_lt (part_name prefix <$> parts).
Proof.
  intros HV HN. induction HN as [|rs parts Hne HN IH]; [constructor|].
  cbn [concat] in HV. pose proof (valid_log_app _ _ HV) as [HV1 HV2].
  cbn. constructor; [by apply IH|]. apply Forall_forall. intros n Hn.
  apply list_elem_of_fmap in Hn as (rs' & -> & Hrs').
  rewrite Forall_forall in HN. specialize (HN _ Hrs').
  unfold bytes_lt, part_name. assert (HV' : valid_log rs').
  { apply list_elem_of_split in Hrs' as (l1 & l2 & ->).
    rewrite concat_app in HV2. apply valid_log_app in HV2 as [_ HV2].
    by apply valid_log_app in HV2 as [? _]. }
  rewrite segmentFilename_compare by (by apply first_seq_range).
  destruct (first_seq_elem rs Hne) as (r & Hr & ->).
  destruct (first_seq_elem rs' HN) as (r' & Hr' & ->).
  apply Z.compare_lt_iff. apply (valid_log_lt rs (concat parts)); [done..|].
  apply list_elem_of_In, in_concat. exists rs'. split; by apply list_elem_of_In.
Qed.

(** A recovered part: a prefix of the part that was written under that name. *)
Definition cut_of (w : World) (prefix : bytes) (rs rs' : list R) : Prop :=
  (exists k, rs' = take k rs) /\ left_over w (part_name prefix rs) rs'.

Lemma part_name_take prefix k rs : take k rs <> [] -> part_name prefix (take k rs) = part_name prefix rs.
Proof. by destruct rs, k. Qed.

Lemma concat_nonempty (fs : list (bytes * list R)) :
  concat (snd <$> filter (fun e => nonempty e = true) fs) = concat (snd <$> fs).
Proof.
  induction fs as [|[n [|r rs]] fs IH]; [done| |].
  - rewrite filter_cons_False by done. done.
  - rewrite filter_cons_True by done. cbn. by rewrite IH.
Qed.

Lemma zip_cuts w prefix parts parts' :
  Forall2 (cut_of w prefix) parts parts' ->
  let fs := zip (part_name prefix <$> parts) parts' in
  fst <$> fs = part_name prefix <$> parts /\ snd <$> fs = parts' /\
  Forall (fun e => left_over w (fst e) (snd e) /\
                   (snd e <> [] -> fst e = part_name prefix (snd e))) fs.
Proof.
  induction 1 as [|rs rs' parts parts' [[k ->] HL] HF IH]; [done|].
  cbv zeta in IH. destruct IH as (I1 & I2 & I3). cbn. rewrite I1, I2. split_and!; [done..|].
  constructor; [|done]. cbn. split; [done|]. intros Hne. by rewrite part_name_take.
Qed.

Lemma settled_inv w s prefix fs n0 :
  st_activeFile s = None -> st_filePrefix s = prefix ->
  Forall2 meta_of (st_segments s) (filter (fun e => nonempty e = true) fs) ->
  NoDup (sm_ptr <$> st_segments s) ->
  Forall (fun m => (sm_ptr m < st_next s)%nat) (st_segments s) ->
  Forall (settled w) fs ->
  valid_log (concat (snd <$> filter (fun e => nonempty e = true) fs)) ->
  Forall (fun e => snd e <> [] -> fst e = part_name prefix (snd e)) fs ->
  (forall n e, w_dir w !! n = Some e -> wal_name prefix n -> n ∈ fst <$> fs) ->
  n0 = length (concat (snd <$> filter (fun e => nonempty e = true) fs)) ->
  store_inv w s (snd <$> filter (fun e => nonempty e = true) fs) n0.
Proof.
  intros Hact <- HM HP Hnx HSt HV Hname Hdir ->.
  set (fs' := filter _ fs) in *.
  assert (HA : forall e, e ∈ fs' -> snd e <> [] /\ fst e = part_name (st_filePrefix s) (snd e) /\
             holds w (fst e) (snd e) /\ fully_synced w (fst e)).
  { intros e He. apply list_elem_of_filter in He as [Hne He].
    rewrite Forall_forall in HSt. specialize (HSt e He). unfold settled in HSt.
    rewrite Forall_forall in Hname. rewrite Hne in HSt. destruct HSt.
    assert (snd e <> []) by (destruct e as [? [|]]; done). split_and!; auto. }
  assert (HY : forall rs, rs ∈ snd <$> fs' ->
             fully_synced w (part_name (st_filePrefix s) rs) /\
             holds w (part_name (st_filePrefix s) rs) rs /\ rs <> []).
  { intros rs Hrs. apply list_elem_of_fmap in Hrs as (e & -> & He).
    destruct (HA e He) as (? & <- & ? & ?). done. }
  split; [done|..].
  - apply Forall_forall. intros rs Hrs. by apply HY.
  - apply Forall2_fmap_r. eapply Forall2_impl_elem; [exact HM|].
    intros m e _ He Hm. cbn. destruct (HA e He) as (_ & <- & _). exact Hm.
  - done.
  - done.
  - apply Forall_forall. intros rs Hrs. by apply HY.
  - intros n e Hn Hwn. specialize (Hdir n e Hn Hwn).
    apply list_elem_of_fmap in Hdir as (x & -> & Hx).
    rewrite Forall_forall in HSt. pose proof (HSt x Hx) as Hsx. unfold settled in Hsx.
    destruct (nonempty x) eqn:E; [|congruence].
    assert (x ∈ fs') as Hx' by (by apply list_elem_of_filter).
    destruct (HA x Hx') as (_ & -> & _). apply list_elem_of_fmap_2. by apply list_elem_of_fmap_2.
  - by rewrite Hact.
  - intros init rs E. apply Forall_forall. intros rs' Hrs'. apply HY. rewrite E.
    apply elem_of_app. by left.
  - intros init rs E. assert (rs ∈ snd <$> fs') as Hrs by (rewrite E; apply elem_of_app; right; left).
    destruct (HY rs Hrs) as ((f & Hf & Hs) & (f' & Hf' & Hd & _) & _).
    split; [by exists f|]. intros _. exists f. split; [done|].
    assert (f' = f) as -> by congruence. rewrite Hs, Hd, E, concat_app, length_app. cbn.
    rewrite app_nil_r. rewrite (take_ge rs) by lia. done.
  - done.
Qed.

Lemma reopen_inv dflt w prefix maxSize opt parts parts' :
  (exists r : R, sf_ok r) -> no_faults w -> prefix <> [] ->
  valid_log (concat parts) -> Forall (fun rs => rs <> []) parts ->
  Forall2 (cut_of w prefix) parts parts' -> valid_log (concat parts') ->
  (forall n e, w_dir w !! n = Some e -> wal_name prefix n -> n ∈ part_name prefix <$> parts) ->
  exists w' s parts'', NewSegmentStore dflt w prefix maxSize opt = (w', Ok (s, concat parts'')) /\
    concat parts'' = concat parts' /\ no_faults w' /\ st_filePrefix s = prefix /\
    st_noFsync s = so_NoFsync opt /\
    store_inv w' s parts'' (length (concat parts'')).
Proof.
  intros Hex Hw Hpre HV HN HC HV' Hdir.
  destruct (zip_cuts _ _ _ _ HC) as (F1 & F2 & F3).
  set (fs := zip (part_name prefix <$> parts) parts') in *.
  assert (Hok : Forall (fun rs => Forall sf_ok rs) parts').
  { destruct HV' as [HV' _]. by apply Forall_concat in HV'. }
  destruct (NewSegmentStore_ok dflt w prefix maxSize opt fs) as
    (w' & s & HNew & Hw' & Hact & Hpf & Hnf & HM & HP & Hnx & HSt & Hrest); try done.
  { rewrite F1. by apply part_names_sorted. }
  { by rewrite F1. }
  { apply Forall_forall. intros e He. split_and!.
    - assert (fst e ∈ fst <$> fs) as Hin by (by apply list_elem_of_fmap_2).
      rewrite F1 in Hin. apply list_elem_of_fmap in Hin as (rs & -> & _).
      apply segmentFilename_wal.
    - rewrite Forall_forall in Hok. apply Hok. rewrite <- F2. by apply list_elem_of_fmap_2.
    - rewrite Forall_forall in F3. by apply F3. }
  exists w', s, (snd <$> filter (fun e => nonempty e = true) fs).
  rewrite concat_nonempty, F2. split_and!; [by rewrite <- F2|done..|].
  apply (settled_inv _ _ prefix); try done.
  - rewrite HP. apply NoDup_seq.
  - rewrite Hnx. apply Forall_forall. intros m Hm.
    assert (sm_ptr m ∈ sm_ptr <$> st_segments s) as Hin by (by apply list_elem_of_fmap_2).
    rewrite HP in Hin. apply elem_of_seq in Hin. lia.
  - by rewrite concat_nonempty, F2.
  - eapply Forall_impl; [exact F3|]. by intros e [_ ?].
  - intros n e Hn Hwn. destruct (decide (n ∈ fst <$> fs)) as [|Hni]; [done|].
    rewrite F1. rewrite Hrest in Hn by done. by apply (Hdir _ e).
  - by rewrite concat_nonempty, F2.
Qed.
(** ** What a crash leaves *)

(** No segment header is torn in the middle: it is written to a new file with
    one small write. *)
Definition headers_intact (w : World) (prefix : bytes) : Prop :=
  forall n f, w_dir w !! n = Some (EFile f) -> wal_name prefix n ->
    f_data f = [] \/ (16 <= length (f_data f))%nat.

Lemma crash_lookup w w' n f :
  crash w w' -> w_dir w !! n = Some (EFile f) ->
  exists k, (f_synced f <= k <= length (f_data f))%nat /\
    w_dir w' !! n = Some (EFile (mkFile (take k (f_data f)) k)).
Proof.
  intros HC Hn. specialize (HC n). rewrite Hn in HC.
  destruct (w_dir w' !! n) as [[f'|]|]; [|done|done].
  destruct HC as (k & Hk & ->). eauto.
Qed.

Lemma crash_synced_part w w' prefix rs :
  crash w w' -> holds w (part_name prefix rs) rs -> fully_synced w (part_name prefix rs) ->
  cut_of w' prefix rs rs.
Proof.
  intros HC (f & Hf & Hd & _) (f' & Hf' & Hs). assert (f' = f) as -> by congruence.
  split; [exists (length rs); by rewrite take_ge|].
  destruct (crash_lookup _ _ _ _ HC Hf) as (k & Hk & Hk').
  assert (k = length (f_data f)) as -> by lia. rewrite take_ge in Hk' by done.
  eexists. split; [done|]. cbn. split; [done|]. left. exists []. split; [by left|].
  by rewrite app_nil_r.
Qed.

Lemma crash_last_part w w' prefix rs k :
  crash w w' -> headers_intact w' prefix -> Forall sf_ok rs ->
  holds w (part_name prefix rs) rs -> records_synced w (part_name prefix rs) rs k ->
  (k <= length rs)%nat ->
  exists j, (k <= j <= length rs)%nat /\ cut_of w' prefix rs (take j rs).
Proof.
  intros HC HI HF (f & Hf & Hd & _) HS Hk.
  destruct (crash_lookup _ _ _ _ HC Hf) as (n & Hn & Hf').
  destruct (HI _ _ Hf' (segmentFilename_wal _ _)) as [He|Hlong]; cbn [f_data] in *.
  - exists 0%nat. split.
    + destruct k; [lia|]. destruct (HS ltac:(lia)) as (f1 & Hf1 & Hle).
      assert (f1 = f) as -> by congruence. rewrite segment_bytes_length in Hle.
      apply (f_equal length) in He. rewrite length_take in He. cbn in He. lia.
    + split; [by exists 0%nat|]. eexists. split; [done|]. rewrite take_0. cbn [f_synced f_data].
      rewrite He. split; [|by right]. apply (f_equal length) in He. rewrite length_take in He.
      cbn in He |- *. lia.
  - rewrite length_take in Hlong. rewrite Hd, segment_bytes_length in Hn, Hlong.
    destruct (encode_all_cut rs (n - 16) HF ltac:(lia)) as (j & t & Hj & HT & Ht & HM).
    exists j. split.
    + split; [|done]. destruct k; [lia|]. destruct (HS ltac:(lia)) as (f1 & Hf1 & Hle).
      assert (f1 = f) as -> by congruence. rewrite segment_bytes_length in Hle.
      apply HM; lia.
    + split; [by exists j|]. eexists. split; [done|]. cbn [f_synced f_data]. split.
      { rewrite length_take, Hd, segment_bytes_length. lia. }
      left. exists t. split; [done|]. rewrite Hd. unfold segment_bytes.
      rewrite take_app_ge by (rewrite default_header_length; lia).
      rewrite default_header_length, HT. by rewrite app_assoc.
Qed.

(** A crash cuts the log to a prefix that contains everything durable. *)
Lemma crash_cuts w w' s parts d :
  store_inv w s parts d -> crash w w' -> headers_intact w' (st_filePrefix s) ->
  exists parts' n, Forall2 (cut_of w' (st_filePrefix s)) parts parts' /\
    concat parts' = take n (concat parts) /\ (d <= n <= length (concat parts))%nat.
Proof.
  intros HI HC HH. destruct HI.
  destruct parts as [|rs init _] using rev_ind.
  - exists [], 0%nat. cbn in *. split_and!; [done..|lia].
  - apply Forall_app in si_files0 as [HFi HFl]. apply Forall_cons in HFl as [HFl _].
    specialize (si_synced_init0 _ _ eq_refl). destruct (si_synced_last0 _ _ eq_refl) as [_ HSl].
    rewrite concat_app in *. cbn [concat] in *. rewrite app_nil_r in *. rewrite length_app in *.
    destruct si_log0 as [Hok _]. apply Forall_app in Hok as [_ Hok].
    destruct (crash_last_part w w' (st_filePrefix s) rs (d - length (concat init)) HC HH Hok HFl HSl)
      as (j & Hj & Hcut); [lia|].
    exists (init ++ [take j rs]), (length (concat init) + j)%nat. split_and!; [|..|lia|lia].
    + apply Forall2_app; [|by constructor]. apply Forall_Forall2_diag.
      rewrite Forall_forall in HFi, si_synced_init0 |- *. intros x Hx.
      apply (crash_synced_part w); auto.
    + rewrite concat_app. cbn. rewrite app_nil_r, take_app_add. done.
Qed.
(** ** Writing to one file leaves the others alone *)

Lemma holds_frame w w' n rs : w_dir w' !! n = w_dir w !! n -> holds w n rs -> holds w' n rs.
Proof. unfold holds. by intros ->. Qed.

Lemma fully_synced_frame w w' n :
  w_dir w' !! n = w_dir w !! n -> fully_synced w n -> fully_synced w' n.
Proof. unfold fully_synced. by intros ->. Qed.

Lemma part_name_ne prefix init rs x :
  valid_log (concat (init ++ [rs])) -> Forall (fun rs => rs <> []) (init ++ [rs]) ->
  x ∈ init -> part_name prefix x <> part_name prefix rs.
Proof.
  intros HV HN Hx E. pose proof (part_names_sorted prefix _ HV HN) as HS.
  rewrite fmap_app in HS. apply StronglySorted_app in HS as (HS & _ & _).
  specialize (HS (part_name prefix x) (part_name prefix rs)).
  apply (irreflexivity bytes_lt (part_name prefix rs)). rewrite <- E at 1.
  apply HS; [by apply list_elem_of_fmap_2|left].
Qed.

(** The active segment is the last one. *)
Lemma active_last w s parts d p :
  store_inv w s parts d -> st_activeFile s = Some p ->
  exists minit m init rs, st_segments s = minit ++ [m] /\ parts = init ++ [rs] /\
    st_activeMeta s = Some (sm_ptr m) /\ p = part_name (st_filePrefix s) rs /\
    m = seg_meta (sm_ptr m) (part_name (st_filePrefix s) rs) rs /\
    Forall2 (fun m rs => m = seg_meta (sm_ptr m) (part_name (st_filePrefix s) rs) rs) minit init.
Proof.
  intros HI Hp. destruct (si_active _ _ _ _ HI p Hp) as (minit & m & Hs & Hm & ->).
  pose proof (si_metas _ _ _ _ HI) as HF. rewrite Hs in HF.
  apply Forall2_app_inv_l in HF as (init & l2 & HF1 & HF2 & Hparts).
  apply Forall2_cons_inv_l in HF2 as (rs & l3 & Hm' & HF3 & ->).
  apply Forall2_nil_inv_l in HF3 as ->.
  exists minit, m, init, rs. split_and!; try done. by rewrite Hm'.
Qed.

Lemma app_last_inj {A} (l l' : list A) x x' : l ++ [x] = l' ++ [x'] -> l = l' /\ x = x'.
Proof. apply app_inj_tail. Qed.

(** Replacing the last file of the log by one with the content [rs']. *)
Lemma store_inv_last w s init rs minit m rs' f' d d' :
  store_inv w s (init ++ [rs]) d -> st_segments s = minit ++ [m] ->
  let n := part_name (st_filePrefix s) rs in
  rs' <> [] -> part_name (st_filePrefix s) rs' = n -> valid_log (concat (init ++ [rs'])) ->
  f_data f' = segment_bytes rs' -> (f_synced f' <= length (f_data f'))%nat ->
  (st_activeFile s = None -> f_synced f' = length (f_data f')) ->
  ((0 < d' - length (concat init))%nat ->
   (length (segment_bytes (take (d' - length (concat init)) rs')) <= f_synced f')%nat) ->
  (d' <= length (concat (init ++ [rs'])))%nat ->
  store_inv (set_dir w (<[n := EFile f']> (w_dir w)))
    (with_segments s (minit ++ [seg_meta (sm_ptr m) n rs'])) (init ++ [rs']) d'.
Proof.
  intros HI Hs n Hne Hn HV' Hd Hle Hsy Hdur HDu'.
  destruct HI as [HV HN HM HP HX HF HD HA HSi HSl HDu].
  set (w' := set_dir w _).
  assert (Hfr : forall x, x ∈ init ->
    w_dir w' !! part_name (st_filePrefix s) x = w_dir w !! part_name (st_filePrefix s) x).
  { intros x Hx. unfold w'; cbn. rewrite lookup_insert_ne; [done|].
    intros E. by apply (part_name_ne (st_filePrefix s) init rs x HV HN). }
  assert (Hnew : w_dir w' !! n = Some (EFile f')) by apply lookup_insert_eq.
  rewrite Hs in HM, HP, HX. apply Forall2_app_inv_l in HM as (i0 & l0 & HMi & HMl & E).
  apply Forall2_cons_inv_l in HMl as (rs0 & l1 & Hm & HMl & ->).
  apply Forall2_nil_inv_l in HMl as ->. apply app_last_inj in E as [<- <-].
  apply Forall_app in HN as [HNi _]. apply Forall_app in HF as [HFi _].
  apply Forall_app in HX as [HXi HXl]. apply Forall_cons in HXl as [HXm _].
  split; cbn [with_segments st_segments st_filePrefix st_next st_activeFile st_activeMeta];
    rewrite ?Forall_app; try done.
  - by repeat constructor.
  - apply Forall2_app; [done|]. constructor; [|done]. by rewrite Hn.
  - rewrite fmap_app in *. exact HP.
  - by repeat constructor.
  - split; [|constructor; [|done]].
    + rewrite Forall_forall in HFi |- *. intros x Hx. apply (holds_frame w); auto.
    + rewrite Hn. by exists f'.
  - intros n' e Hn' Hwn. rewrite fmap_app. cbn. rewrite Hn.
    destruct (decide (n' = n)) as [->|Hnn]; [apply elem_of_app; right; left|].
    unfold w' in Hn'; cbn in Hn'. rewrite lookup_insert_ne in Hn' by done.
    specialize (HD n' e Hn' Hwn). rewrite fmap_app in HD. exact HD.
  - intros p Hp. destruct (HA p Hp) as (mi & m0 & E & Hm0 & ->). rewrite Hs in E.
    apply app_last_inj in E as [<- <-]. eexists _, _. split_and!; [done..|]. by rewrite Hm.
  - intros i x E. apply app_last_inj in E as [<- _]. specialize (HSi _ _ eq_refl).
    rewrite Forall_forall in HSi |- *. intros x' Hx'.
    apply (fully_synced_frame w); [by apply Hfr|by apply HSi].
  - intros i x E. apply app_last_inj in E as [<- <-]. rewrite Hn. split.
    + intros Hact. exists f'. auto.
    + intros Hk. exists f'. auto.
Qed.

(** ** Sync and close *)

Lemma with_segments_same s : with_segments s (st_segments s) = s.
Proof. by destruct s. Qed.

Lemma sync_inv w s parts d p :
  store_inv w s parts d -> no_faults w -> st_activeFile s = Some p ->
  exists w', f_Sync w p = (w', Ok ()) /\ no_faults w' /\
    store_inv w' s parts (length (concat parts)) /\
    Forall (fun rs => fully_synced w' (part_name (st_filePrefix s) rs)) parts.
Proof.
  intros HI Hw Hp.
  destruct (active_last _ _ _ _ _ HI Hp) as (minit & m & init & rs & Hs & -> & Hm & -> & Hmeta & _).
  pose proof HI as [HV HN HM HP HX HF HD HA HSi HSl HDu].
  apply Forall_app in HF as [HFi HFl]. apply Forall_cons in HFl as [(f & Hf & Hd & _) _].
  pose proof HN as HN'. apply Forall_app in HN' as [_ HNl]. apply Forall_cons in HNl as [Hne _].
  eexists. split; [apply (f_Sync_ok _ _ _ Hw Hf)|]. split; [done|].
  assert (HI' := store_inv_last w s init rs minit m rs
    (mkFile (f_data f) (length (f_data f))) d (length (concat (init ++ [rs]))) HI Hs).
  cbv zeta in HI'. cbn [f_data f_synced] in HI'.
  rewrite <- Hmeta, <- Hs, with_segments_same in HI'. split.
  - apply HI'; try done. intros _. rewrite Hd, concat_app. cbn.
    rewrite app_nil_r, length_app, take_ge by lia. done.
  - apply Forall_app. split.
    + specialize (HSi _ _ eq_refl). rewrite Forall_forall in HSi |- *. intros x Hx.
      apply (fully_synced_frame w); [|by apply HSi]. cbn. rewrite lookup_insert_ne; [done|].
      intros E. by apply (part_name_ne (st_filePrefix s) init rs x HV HN).
    + constructor; [|done]. eexists. cbn. rewrite lookup_insert_eq. done.
Qed.

Lemma deactivate_inv w s parts d m :
  store_inv w s parts d ->
  Forall (fun rs => fully_synced w (part_name (st_filePrefix s) rs)) parts ->
  store_inv w (with_active s None m) parts d.
Proof.
  intros [HV HN HM HP HX HF HD HA HSi HSl HDu] Hall. split; try done.
  intros init rs ->. destruct (HSl _ _ eq_refl) as [_ ?]. split; [|done].
  intros _. apply Forall_app in Hall as [_ Hall]. by apply Forall_cons in Hall as [? _].
Qed.

Lemma sync_close_inv w s parts d p m :
  store_inv w s parts d -> no_faults w -> st_activeFile s = Some p ->
  exists w', sync_close w p = (w', Ok ()) /\ no_faults w' /\
    store_inv w' (with_active s None m) parts (length (concat parts)).
Proof.
  intros HI Hw Hp. destruct (sync_inv _ _ _ _ _ HI Hw Hp) as (w' & HS & Hw' & HI' & Hall).
  exists w'. unfold sync_close. rewrite HS, f_Close_ok by done.
  split_and!; [done..|]. by apply deactivate_inv.
Qed.
(** With no active file everything is on stable storage. *)
Lemma inactive_durable w s parts d :
  store_inv w s parts d -> st_activeFile s = None -> store_inv w s parts (length (concat parts)).
Proof.
  intros [HV HN HM HP HX HF HD HA HSi HSl HDu] Hact. split; try done.
  intros init rs ->. destruct (HSl _ _ eq_refl) as [HS _]. split; [done|]. intros _.
  destruct (HS Hact) as (f & Hf & Hy). exists f. split; [done|].
  apply Forall_app in HF as [_ HF]. apply Forall_cons in HF as [(f' & Hf' & Hd & _) _].
  assert (f' = f) as -> by congruence. rewrite Hy, Hd, concat_app, length_app. cbn.
  rewrite app_nil_r, take_ge by lia. done.
Qed.

(** ** Appending *)

Lemma store_inv_mono w s parts d d' :
  (d' <= d)%nat -> store_inv w s parts d -> store_inv w s parts d'.
Proof.
  intros Hd [HV HN HM HP HX HF HD HA HSi HSl HDu]. split; try done; [|lia].
  intros init rs E. destruct (HSl init rs E) as [? HR]. split; [done|].
  intros Hk. destruct (HR ltac:(lia)) as (f & Hf & Hle). exists f. split; [done|].
  etrans; [|exact Hle]. rewrite !segment_bytes_length. apply le_n_S.
  rewrite <- (take_drop (d' - length (concat init)) (take (d - length (concat init)) rs)).
  rewrite take_take, encode_all_app, length_app, Nat.min_l by lia. lia.
Qed.

Lemma segment_bytes_snoc rs r : segment_bytes (rs ++ [r]) = segment_bytes rs ++ sf_bytes r.
Proof. unfold segment_bytes. by rewrite encode_all_snoc, app_assoc. Qed.

Lemma segment_size_snoc rs r :
  segment_size (rs ++ [r]) = segment_size rs + Z.of_nat (length (sf_bytes r)).
Proof. unfold segment_size. rewrite encode_all_snoc, length_app. lia. Qed.

Lemma part_name_snoc prefix rs r : rs <> [] -> part_name prefix (rs ++ [r]) = part_name prefix rs.
Proof. by destruct rs. Qed.

Lemma bump_seg_meta ptr path rs r :
  rs <> [] ->
  bump_meta (sf_seq r) (Z.of_nat (length (sf_bytes r))) (seg_meta ptr path rs) =
  seg_meta ptr path (rs ++ [r]).
Proof.
  intros Hne. unfold bump_meta, seg_meta.
  cbn [sm_ptr sm_Path sm_FirstSeq sm_Size sm_RecordCount].
  rewrite segment_size_snoc, length_app. unfold last_seq at 1. rewrite last_snoc.
  destruct rs as [|x rs]; [done|]. cbn. f_equal. lia.
Qed.

Lemma update_meta_last ptr f minit m :
  NoDup (sm_ptr <$> minit ++ [m]) -> sm_ptr m = ptr ->
  update_meta ptr f (minit ++ [m]) = minit ++ [f m].
Proof.
  intros HN Hm. unfold update_meta. rewrite fmap_app. cbn. rewrite decide_True by done.
  f_equal. rewrite fmap_app in HN. apply NoDup_app in HN as (_ & HN & _).
  rewrite <- (list_fmap_id minit) at 2. apply list_fmap_ext. intros i x Hx.
  rewrite decide_False; [done|]. intros E.
  apply (HN (sm_ptr x)); [apply list_elem_of_fmap_2; by eapply list_elem_of_lookup_2|].
  rewrite E, <- Hm. left.
Qed.

(** Writing one more record to the active file. *)
Lemma append_active w s parts d r p ptr :
  store_inv w s parts d -> no_faults w -> st_activeFile s = Some p ->
  st_activeMeta s = Some ptr -> valid_log (concat parts ++ [r]) ->
  exists w' parts', f_Write w p (sf_bytes r) = (w', Ok ()) /\ no_faults w' /\
    concat parts' = concat parts ++ [r] /\
    store_inv w' (with_segments s
      (update_meta ptr (bump_meta (sf_seq r) (Z.of_nat (length (sf_bytes r)))) (st_segments s)))
      parts' d.
Proof.
  intros HI Hw Hp Hptr HV'.
  destruct (active_last _ _ _ _ _ HI Hp) as (minit & m & init & rs & Hs & -> & Hm & -> & Hmeta & _).
  pose proof HI as [HV HN HM HP HX HF HD HA HSi HSl HDu].
  apply Forall_app in HN as [_ HNl]. apply Forall_cons in HNl as [Hne _].
  apply Forall_app in HF as [HFi HFl]. apply Forall_cons in HFl as [(f & Hf & Hd & Hsy) _].
  assert (HC : concat (init ++ [rs ++ [r]]) = concat (init ++ [rs]) ++ [r])
    by (rewrite !concat_app; cbn; by rewrite !app_nil_r, <- app_assoc).
  eexists _, (init ++ [rs ++ [r]]).
  split; [apply (f_Write_ok _ _ _ _ Hw Hf)|]. split_and!; [done..|].
  rewrite Hs in HP |- *. rewrite update_meta_last by (done || congruence).
  rewrite Hmeta at 1. rewrite bump_seg_meta by done.
  apply (store_inv_last w s init rs minit m _ _ d); try done; rewrite ?HC; cbn [f_data f_synced].
  - by destruct rs.
  - by rewrite part_name_snoc.
  - done.
  - by rewrite Hd, segment_bytes_snoc.
  - rewrite length_app. lia.
  - congruence.
  - intros Hk. destruct (HSl _ _ eq_refl) as [_ HR]. destruct (HR Hk) as (f1 & Hf1 & Hle).
    assert (f1 = f) as -> by congruence. etrans; [|exact Hle].
    rewrite concat_app, length_app in HDu. cbn in HDu. rewrite app_nil_r in HDu.
    rewrite take_app_le by lia. done.
  - rewrite length_app. lia.
Qed.
(** The name of a new segment is free. *)
Lemma new_name_free w s parts d r :
  store_inv w s parts d -> valid_log (concat parts ++ [r]) ->
  w_dir w !! segmentFilename (st_filePrefix s) (sf_seq r) = None.
Proof.
  intros HI HV'. destruct (w_dir w !! _) as [e|] eqn:E; [|done]. exfalso.
  pose proof (si_dir _ _ _ _ HI _ _ E (segmentFilename_wal _ _)) as Hin.
  apply list_elem_of_fmap in Hin as (rs & Heq & Hrs).
  pose proof (si_nonempty _ _ _ _ HI) as HN. rewrite Forall_forall in HN. specialize (HN _ Hrs).
  destruct (first_seq_elem rs HN) as (r' & Hr' & Hf).
  assert (r' ∈ concat parts) as Hin.
  { apply list_elem_of_In, in_concat. exists rs. split; by apply list_elem_of_In. }
  unfold part_name in Heq. rewrite Hf in Heq.
  pose proof HV' as (_ & _ & HR). apply Forall_app in HR as [HR1 HR2].
  rewrite Forall_forall in HR1. apply Forall_cons in HR2 as [HR2 _].
  apply segmentFilename_inj in Heq; [|done|by apply HR1].
  pose proof (valid_log_lt _ [r] r' r HV' Hin (list_elem_of_here _ _)). lia.
Qed.

(** The store right after [rotateLocked] and the first write to the new file. *)
Lemma append_new_part w s parts d r m :
  store_inv w s parts d -> st_activeFile s = None -> valid_log (concat parts ++ [r]) ->
  m = seg_meta (st_next s) (part_name (st_filePrefix s) [r]) [r] ->
  store_inv
    (set_dir w (<[part_name (st_filePrefix s) [r] := EFile (mkFile (segment_bytes [r]) 0)]> (w_dir w)))
    (mkSegmentStore (st_maxSegmentSize s) (st_filePrefix s) (st_acceptUnversioned s) (st_noFsync s)
       (Some (part_name (st_filePrefix s) [r])) (Some (st_next s)) (st_segments s ++ [m])
       (S (st_next s)))
    (parts ++ [[r]]) d.
Proof.
  intros HI Hact HV' ->. pose proof (new_name_free _ _ _ _ _ HI HV') as Hfree.
  pose proof HI as [HV HN HM HP HX HF HD HA HSi HSl HDu].
  set (n := part_name (st_filePrefix s) [r]) in *.
  change (segmentFilename (st_filePrefix s) (sf_seq r)) with n in Hfree.
  set (w' := set_dir w _).
  assert (HC : concat (parts ++ [[r]]) = concat parts ++ [r]) by (by rewrite concat_app).
  assert (Hne : forall x, is_Some (w_dir w !! x) -> w_dir w' !! x = w_dir w !! x).
  { intros x [e Hx]. unfold w'; cbn. rewrite lookup_insert_ne; [done|]. congruence. }
  split; rewrite ?HC; cbn [st_segments st_filePrefix st_next st_activeFile st_activeMeta];
    rewrite ?Forall_app; try done.
  - by repeat constructor.
  - apply Forall2_app; [done|]. by constructor.
  - rewrite fmap_app. apply NoDup_app. split_and!; [done| |by apply NoDup_singleton].
    intros x Hx Hx'. apply list_elem_of_singleton in Hx'. cbn in Hx'. subst x.
    apply list_elem_of_fmap in Hx as (m & E & Hm). rewrite Forall_forall in HX.
    specialize (HX m Hm). lia.
  - split; [|by repeat constructor]. eapply Forall_impl; [exact HX|]. intros m Hm. cbn in *. lia.
  - split.
    + eapply Forall_impl; [exact HF|]. intros rs Hh. apply (holds_frame w); [|done].
      apply Hne. destruct Hh as (f & -> & _). by eexists.
    + constructor; [|done]. eexists. unfold w'; cbn [w_dir set_dir]. rewrite lookup_insert_eq.
      split_and!; [done..|]. cbn. lia.
  - intros n' e Hn' Hwn. rewrite fmap_app. apply elem_of_app.
    destruct (decide (n' = n)) as [->|Hnn]; [right; left|]. left.
    unfold w' in Hn'; cbn in Hn'. rewrite lookup_insert_ne in Hn' by done. by apply (HD n' e).
  - intros p [= <-]. by eexists _, _.
  - intros i x E. apply app_last_inj in E as [<- _]. apply (Forall_impl (fun rs => fully_synced w (part_name (st_filePrefix s) rs))).
    + destruct parts as [|rs0 i0 _] using rev_ind; [done|]. apply Forall_app.
      split; [by apply (HSi _ _ eq_refl)|]. constructor; [|done]. by apply (HSl _ _ eq_refl).
    + intros rs Hrs. apply (fully_synced_frame w); [|done]. apply Hne.
      destruct Hrs as (f & -> & _). by eexists.
  - intros i x E. apply app_last_inj in E as [<- <-]. split; [done|]. intros Hk. lia.
  - rewrite length_app. lia.
Qed.

Lemma rotate_write_ok w s parts d r :
  store_inv w s parts d -> no_faults w -> st_activeFile s = None ->
  valid_log (concat parts ++ [r]) ->
  let n := part_name (st_filePrefix s) [r] in
  exists w1 s1, rotateLocked w s (sf_seq r) = (w1, s1, Ok ()) /\
    st_activeFile s1 = Some n /\ st_activeMeta s1 = Some (st_next s) /\
    exists w2, f_Write w1 n (sf_bytes r) = (w2, Ok ()) /\ no_faults w2 /\
    store_inv w2 (with_segments s1 (update_meta (st_next s)
      (bump_meta (sf_seq r) (Z.of_nat (length (sf_bytes r)))) (st_segments s1)))
      (parts ++ [[r]]) d.
Proof.
  intros HI Hw Hact HV' n. pose proof (new_name_free _ _ _ _ _ HI HV') as Hfree.
  change (segmentFilename (st_filePrefix s) (sf_seq r)) with n in Hfree.
  unfold rotateLocked. rewrite Hact.
  change (segmentFilename (st_filePrefix s) (sf_seq r)) with n.
  rewrite (os_OpenAppend_new _ _ Hw Hfree).
  rewrite (f_Write_ok _ _ (mkFile [] 0)); [|done|apply lookup_insert_eq].
  eexists _, _. split_and!; [done..|].
  rewrite (f_Write_ok _ _ (mkFile default_header_bytes 0)); [|done|cbn; by rewrite lookup_insert_eq].
  eexists. split; [done|]. split; [done|].
  cbn [w_dir set_dir with_segments st_segments st_maxSegmentSize st_filePrefix st_acceptUnversioned
       st_noFsync st_activeFile st_activeMeta st_next f_data f_synced].
  rewrite !insert_insert_eq.
  rewrite update_meta_last; [|..|done].
  - replace (default_header_bytes ++ sf_bytes r) with (segment_bytes [r])
      by (unfold segment_bytes; by rewrite encode_all_cons, encode_all_nil, app_nil_r).
    unfold with_segments; cbn [st_maxSegmentSize st_filePrefix st_acceptUnversioned
       st_noFsync st_activeFile st_activeMeta st_next].
    apply (append_new_part w s parts d r _ HI Hact HV').
    unfold bump_meta, seg_meta; cbn [sm_ptr sm_Path sm_RecordCount sm_Size].
    f_equal. unfold segment_size. rewrite encode_all_cons, encode_all_nil, app_nil_r.
    change (length (SegmentHeader_Encode DefaultSegmentHeader)) with 16%nat. lia.
  - rewrite fmap_app. apply NoDup_app. split_and!; [apply (si_ptrs _ _ _ _ HI)| |apply NoDup_singleton].
    intros x Hx Hx'. apply list_elem_of_singleton in Hx'. cbn in Hx'. subst x.
    apply list_elem_of_fmap in Hx as (m & E & Hm). pose proof (si_next _ _ _ _ HI) as HX.
    rewrite Forall_forall in HX. specialize (HX m Hm). lia.
Qed.
Lemma rotateLocked_active w s w' p q :
  st_activeFile s = Some p -> sync_close w p = (w', Ok ()) ->
  rotateLocked w s q = rotateLocked w' (with_active s None (st_activeMeta s)) q.
Proof. intros Hp HS. unfold rotateLocked. rewrite Hp, HS. done. Qed.

Lemma append_one_fresh w s parts d r :
  store_inv w s parts d -> no_faults w -> st_activeFile s = None ->
  valid_log (concat parts ++ [r]) ->
  exists w1 s1 w2 s2, rotateLocked w s (sf_seq r) = (w1, s1, Ok ()) /\
    (st_activeFile s1 = Some (part_name (st_filePrefix s) [r]) /\ st_activeMeta s1 = Some (st_next s)) /\
    f_Write w1 (part_name (st_filePrefix s) [r]) (sf_bytes r) = (w2, Ok ()) /\
    s2 = with_segments s1 (update_meta (st_next s)
      (bump_meta (sf_seq r) (Z.of_nat (length (sf_bytes r)))) (st_segments s1)) /\
    no_faults w2 /\ store_inv w2 s2 (parts ++ [[r]]) d.
Proof.
  intros HI Hw Hact HV.
  destruct (rotate_write_ok _ _ _ _ _ HI Hw Hact HV) as (w1 & s1 & HR & H1 & H2 & w2 & HW & Hw2 & HI2).
  exists w1, s1, w2. eexists. by split_and!.
Qed.

Lemma append_one_prefix w s r w' s' :
  append_one w s r = (w', s', Ok ()) ->
  st_filePrefix s' = st_filePrefix s /\ st_noFsync s' = st_noFsync s.
Proof.
  unfold append_one. destruct (if needs_rotate _ _ then _ else _) as [[w1 s1] rot] eqn:ER.
  assert (is_ok rot = true -> st_filePrefix s1 = st_filePrefix s /\ st_noFsync s1 = st_noFsync s) as Hrot.
  { destruct (needs_rotate _ _); [|by injection ER as <- <- <-].
    unfold rotateLocked in ER. destruct (st_activeFile s) as [p|].
    - destruct (sync_close w p) as [w0 [u|e]]; [|by injection ER as <- <- <-].
      repeat case_match; by simplify_eq.
    - repeat case_match; by simplify_eq. }
  destruct rot as [u|e]; [|done]. destruct (Hrot eq_refl) as [H1 H2].
  repeat case_match; intros [= <- <-]; done.
Qed.

(** Every append of a valid record succeeds and extends the log by it. *)
Lemma append_one_ok w s parts d r :
  store_inv w s parts d -> no_faults w -> valid_log (concat parts ++ [r]) ->
  exists w' s' parts', append_one w s r = (w', s', Ok ()) /\ no_faults w' /\
    concat parts' = concat parts ++ [r] /\ store_inv w' s' parts' d.
Proof.
  intros HI Hw HV. unfold append_one.
  destruct (st_activeFile s) as [p|] eqn:Hp.
  - destruct (needs_rotate s _) eqn:HN.
    + destruct (sync_close_inv _ _ _ _ _ (st_activeMeta s) HI Hw Hp) as (w0 & HSC & Hw0 & HI0).
      rewrite (rotateLocked_active _ _ _ _ _ Hp HSC).
      destruct (append_one_fresh _ _ _ _ r HI0 Hw0 eq_refl HV)
        as (w1 & s1 & w2 & s2 & -> & [-> ->] & -> & -> & Hw2 & HI2).
      eexists _, _, (parts ++ [[r]]). split_and!; [done..|by rewrite concat_app|].
      eapply store_inv_mono; [|exact HI2]. apply (si_durable _ _ _ _ HI).
    + destruct (si_active _ _ _ _ HI p Hp) as (i & m & _ & Hm & _). rewrite Hm, Hp.
      destruct (append_active _ _ _ _ r _ _ HI Hw Hp Hm HV) as (w' & parts' & -> & Hw' & HC & HI').
      by eexists _, _, _.
  - assert (needs_rotate s (Z.of_nat (length (sf_bytes r))) = true) as ->
      by (unfold needs_rotate; by rewrite Hp).
    destruct (append_one_fresh _ _ _ _ r HI Hw Hp HV)
      as (w1 & s1 & w2 & s2 & -> & [-> ->] & -> & -> & Hw2 & HI2).
    eexists _, _, (parts ++ [[r]]). split_and!; [done..|by rewrite concat_app|done].
Qed.
Lemma append_all_ok rs : forall w s parts d,
  store_inv w s parts d -> no_faults w -> valid_log (concat parts ++ rs) ->
  exists w' s' parts', append_all w s rs = (w', s', Ok ()) /\ no_faults w' /\
    concat parts' = concat parts ++ rs /\ store_inv w' s' parts' d /\
    st_filePrefix s' = st_filePrefix s /\ st_noFsync s' = st_noFsync s.
Proof.
  induction rs as [|r rs IH]; intros w s parts d HI Hw HV; cbn [append_all].
  - exists w, s, parts. by rewrite app_nil_r.
  - rewrite cons_middle, app_assoc in HV. pose proof (valid_log_app _ _ HV) as [HV1 _].
    destruct (append_one_ok _ _ _ _ _ HI Hw HV1) as (w1 & s1 & parts1 & HA & Hw1 & HC1 & HI1).
    rewrite HA. apply append_one_prefix in HA as [<- <-].
    rewrite <- HC1 in HV. destruct (IH _ _ _ _ HI1 Hw1 HV) as (w2 & s2 & parts2 & ? & ? & HC2 & ? & ? & ?).
    exists w2, s2, parts2. split_and!; try done. by rewrite HC2, HC1, <- app_assoc.
Qed.

(** ** The abstract log *)

Record alog : Type := mkAlog {
  al_records : list R;
  al_durable : nat;
}.

Inductive event : Type :=
| EvAppend (r : R)
| EvAppendSync (rs : list R)
| EvSync
| EvClose
| EvRecover (recs : list R).

(** What a log promises: a recovery returns a prefix of what was appended that
    contains everything appended before the last sync. *)
Inductive spec_step (a : alog) : event -> alog -> Prop :=
| spec_append r : spec_step a (EvAppend r) (mkAlog (al_records a ++ [r]) (al_durable a))
| spec_append_sync rs :
    spec_step a (EvAppendSync rs)
      (mkAlog (al_records a ++ rs) (length (al_records a ++ rs)))
| spec_sync : spec_step a EvSync (mkAlog (al_records a) (length (al_records a)))
| spec_close : spec_step a EvClose (mkAlog (al_records a) (length (al_records a)))
| spec_recover n :
    (al_durable a <= n <= length (al_records a))%nat ->
    spec_step a (EvRecover (take n (al_records a))) (mkAlog (take n (al_records a)) n).

Inductive spec_steps : alog -> list event -> alog -> Prop :=
| spec_done a : spec_steps a [] a
| spec_more a ev a1 evs a2 :
    spec_step a ev a1 -> spec_steps a1 evs a2 -> spec_steps a (ev :: evs) a2.

(** The clients' side of the contract: sequence numbers increase. *)
Definition valid_event (log : list R) (ev : event) : Prop :=
  match ev with
  | EvAppend r => valid_log (log ++ [r])
  | EvAppendSync rs => valid_log (log ++ rs)
  | _ => True
  end.

Definition log_after (log : list R) (ev : event) : list R :=
  match ev with
  | EvAppend r => log ++ [r]
  | EvAppendSync rs => log ++ rs
  | EvRecover recs => recs
  | _ => log
  end.

Fixpoint valid_trace (log : list R) (evs : list event) : Prop :=
  match evs with
  | [] => True
  | ev :: evs => valid_event log ev /\ valid_trace (log_after log ev) evs
  end.

(** Sequences of steps of a concrete machine. *)
Inductive steps {C} (step : C -> event -> C -> Prop) : C -> list event -> C -> Prop :=
| steps_nil c : steps step c [] c
| steps_cons c ev c1 evs c2 :
    step c ev c1 -> steps step c1 evs c2 -> steps step c (ev :: evs) c2.

(** The store implements the log [a]. *)
Definition refines (c : World * SegmentStore) (a : alog) : Prop :=
  no_faults (fst c) /\ st_filePrefix (snd c) <> [] /\ st_noFsync (snd c) = false /\
  exists parts, store_inv (fst c) (snd c) parts (al_durable a) /\ concat parts = al_records a.

Lemma refines_append w s a r :
  refines (w, s) a -> valid_log (al_records a ++ [r]) ->
  exists w' s', append_one w s r = (w', s', Ok ()) /\
    refines (w', s') (mkAlog (al_records a ++ [r]) (al_durable a)).
Proof.
  intros (Hw & Hp & Hnf & parts & HI & HC) HV. cbn [fst snd] in *. rewrite <- HC in HV.
  destruct (append_one_ok _ _ _ _ _ HI Hw HV) as (w' & s' & parts' & HA & Hw' & HC' & HI').
  exists w', s'. split; [done|]. apply append_one_prefix in HA as [HA1 HA2].
  split_and!; cbn [fst snd]; [done|by rewrite HA1|by rewrite HA2|].
  exists parts'. cbn. by rewrite HC', HC.
Qed.

Lemma refines_sync w s a :
  refines (w, s) a -> exists w', store_Sync w s = (w', Ok ()) /\
    refines (w', s) (mkAlog (al_records a) (length (al_records a))).
Proof.
  intros (Hw & Hp & Hnf & parts & HI & HC). cbn [fst snd] in *. unfold store_Sync. rewrite Hnf.
  destruct (st_activeFile s) as [p|] eqn:Hact.
  - destruct (sync_inv _ _ _ _ _ HI Hw Hact) as (w' & -> & Hw' & HI' & _).
    exists w'. split; [done|]. split_and!; [done..|]. exists parts. cbn. by rewrite <- HC.
  - exists w. split; [done|]. split_and!; [done..|]. exists parts. cbn. rewrite <- HC.
    split; [|done]. by apply inactive_durable with (al_durable a).
Qed.

Lemma refines_close w s a :
  refines (w, s) a -> exists w' s', store_Close w s = (w', s', Ok ()) /\
    refines (w', s') (mkAlog (al_records a) (length (al_records a))).
Proof.
  intros (Hw & Hp & Hnf & parts & HI & HC). cbn [fst snd] in *. unfold store_Close.
  destruct (st_activeFile s) as [p|] eqn:Hact.
  - destruct (sync_close_inv _ _ _ _ _ (st_activeMeta s) HI Hw Hact) as (w' & -> & Hw' & HI').
    eexists _, _. split; [done|]. split_and!; [done..|]. exists parts. cbn. by rewrite <- HC.
  - eexists _, _. split; [done|]. split_and!; [done..|]. exists parts. cbn. rewrite <- HC.
    split; [|done]. by apply inactive_durable with (al_durable a).
Qed.

Lemma refines_recover dflt maxSize opt w s a wc :
  (exists r : R, sf_ok r) ->
  refines (w, s) a -> so_NoFsync opt = false -> crash w wc -> no_faults wc ->
  headers_intact wc (st_filePrefix s) ->
  exists w' s' n, NewSegmentStore dflt wc (st_filePrefix s) maxSize opt =
      (w', Ok (s', take n (al_records a))) /\
    (al_durable a <= n <= length (al_records a))%nat /\
    refines (w', s') (mkAlog (take n (al_records a)) n).
Proof.
  intros Hex (Hw & Hp & Hnf & parts & HI & HC) Hopt Hcr Hwc HH. cbn [fst snd] in *.
  destruct (crash_cuts _ _ _ _ _ HI Hcr HH) as (parts' & n & Hcuts & HE & Hn).
  rewrite HC in HE, Hn.
  destruct (reopen_inv dflt wc (st_filePrefix s) maxSize opt parts parts' Hex Hwc Hp)
    as (w' & s' & parts'' & HNew & HE' & Hw' & Hpf & Hnf' & HI'); try done.
  { apply (si_log _ _ _ _ HI). }
  { apply (si_nonempty _ _ _ _ HI). }
  { rewrite HE, <- HC. apply valid_log_take, (si_log _ _ _ _ HI). }
  { intros x e Hx. specialize (Hcr x). rewrite Hx in Hcr.
    destruct (w_dir w !! x) as [e'|] eqn:E; [|done]. by apply (si_dir _ _ _ _ HI _ e'). }
  exists w', s', n. rewrite HNew, HE', HE. split_and!; [done|lia|lia|].
  split_and!; cbn [fst snd]; [done|by rewrite Hpf|by rewrite Hnf'|]. exists parts''. cbn. rewrite HE', HE.
  split; [|done]. eapply store_inv_mono; [|exact HI']. rewrite HE', HE, length_take. lia.
Qed.
Lemma spec_step_log a ev a' : spec_step a ev a' -> al_records a' = log_after (al_records a) ev.
Proof. by destruct 1. Qed.

(** A machine whose steps the log simulates runs as the log does. *)
Lemma trace_refines (step : World * SegmentStore -> event -> World * SegmentStore -> Prop) :
  (forall c ev c' a, refines c a -> step c ev c' -> valid_event (al_records a) ev ->
     exists a', spec_step a ev a' /\ refines c' a') ->
  forall c evs c', steps step c evs c' -> forall a, refines c a -> valid_trace (al_records a) evs ->
  exists a', spec_steps a evs a' /\ refines c' a'.
Proof.
  intros Hsim c evs c' HS. induction HS as [c|c ev c1 evs c2 Hst _ IH]; intros a HR HV.
  - exists a. split; [constructor|done].
  - destruct HV as [HV1 HV2]. destruct (Hsim _ _ _ _ HR Hst HV1) as (a1 & Ha1 & HR1).
    rewrite <- (spec_step_log _ _ _ Ha1) in HV2.
    destruct (IH a1 HR1 HV2) as (a2 & Ha2 & HR2). exists a2. split; [by econstructor|done].
Qed.

(** A directory without segment files opens as the empty log. *)
Definition no_segments (w : World) (prefix : bytes) : Prop :=
  forall n e, w_dir w !! n = Some e -> ~ wal_name prefix n.

Lemma fresh_refines dflt w prefix maxSize opt :
  (exists r : R, sf_ok r) -> no_faults w -> prefix <> [] -> so_NoFsync opt = false ->
  no_segments w prefix ->
  exists w' s, NewSegmentStore (R := R) dflt w prefix maxSize opt = (w', Ok (s, [])) /\
    st_filePrefix s = prefix /\ refines (w', s) (mkAlog [] 0).
Proof.
  intros Hex Hw Hp Hopt Hno.
  destruct (reopen_inv dflt w prefix maxSize opt [] [] Hex Hw Hp) as
    (w' & s & parts & HNew & HC & Hw' & Hpf & Hnf & HI); try done.
  { by repeat constructor. }
  { by repeat constructor. }
  { intros n e Hn Hwn. by destruct (Hno n e Hn). }
  rewrite HC in HNew, HI. cbn in HNew, HI. exists w', s. split_and!; [done..|].
  split_and!; cbn [fst snd]; [done|by rewrite Hpf|by rewrite Hnf|].
  by exists parts.
Qed.
End store.

Arguments alog : clear implicits.
Arguments event : clear implicits.

(** ** The two stores as machines *)

Section machines.
Context (opt : ScanOptions) (maxSize : Z).

(** The client's store; [Append] fills in the record's checksum field. *)
Inductive client_step : World * SegmentStore -> event ClientRecord -> World * SegmentStore -> Prop :=
| cs_append w s r w' s' :
    ClientSegmentStore_Append w s r = (w', s', Ok ()) ->
    client_step (w, s) (EvAppend (fst (ClientRecord_Encode r))) (w', s')
| cs_sync w s w' :
    ClientSegmentStore_Sync w s = (w', Ok ()) -> client_step (w, s) EvSync (w', s)
| cs_close w s w' s' :
    ClientSegmentStore_Close w s = (w', s', Ok ()) -> client_step (w, s) EvClose (w', s')
| cs_recover w s wc w' s' recs :
    crash w wc -> no_faults wc -> headers_intact wc (st_filePrefix s) ->
    NewClientSegmentStore wc (st_filePrefix s) maxSize opt = (w', Ok (s', recs)) ->
    client_step (w, s) (EvRecover recs) (w', s').

(** The witness's store: every batch is synced (an empty one returns at once). *)
Inductive log_step : World * SegmentStore -> event LogRecord -> World * SegmentStore -> Prop :=
| ls_append w s rs w' s' :
    rs <> [] -> LogSegmentStore_AppendBatch w s rs = (w', s', Ok ()) ->
    log_step (w, s) (EvAppendSync rs) (w', s')
| ls_close w s w' s' :
    LogSegmentStore_Close w s = (w', s', Ok ()) -> log_step (w, s) EvClose (w', s')
| ls_recover w s wc w' s' recs :
    crash w wc -> no_faults wc -> headers_intact wc (st_filePrefix s) ->
    NewLogSegmentStore wc (st_filePrefix s) maxSize opt = (w', Ok (s', recs)) ->
    log_step (w, s) (EvRecover recs) (w', s').
End machines.

Lemma append_one_encode w s r :
  ClientSegmentStore_Append w s r = ClientSegmentStore_Append w s (fst (ClientRecord_Encode r)).
Proof. done. Qed.

Definition sample_client : ClientRecord :=
  fst (ClientRecord_Encode (mkClientRecord (replicate 16 x01) 1 [x61] 0)).

Definition sample_log : LogRecord :=
  let r := mkLogRecord 1 (replicate 16 x01) 1 [x61] 0 in
  mkLogRecord 1 (replicate 16 x01) 1 [x61] (LogRecord_ComputeCRC32C r).

Lemma client_ok_inhabited : exists r : ClientRecord, sf_ok r.
Proof. by exists sample_client. Qed.

Lemma log_ok_inhabited : exists r : LogRecord, sf_ok r.
Proof. by exists sample_log. Qed.

Lemma refines_batch w s a rs :
  refines (w, s) a -> valid_log (al_records a ++ rs) ->
  exists w' s', LogSegmentStore_AppendBatch w s rs = (w', s', Ok ()) /\
    st_filePrefix s' = st_filePrefix s /\
    refines (w', s')
      (mkAlog (al_records a ++ rs)
         (match rs with [] => al_durable a | _ => length (al_records a ++ rs) end)).
Proof.
  intros HR HV. unfold LogSegmentStore_AppendBatch. destruct rs as [|r rs].
  - exists w, s. split_and!; [done..|]. rewrite app_nil_r. by destruct a.
  - destruct HR as (Hw & Hp & Hnf & parts & HI & HC). cbn [fst snd] in *. rewrite <- HC in HV.
    destruct (append_all_ok _ _ _ _ _ HI Hw HV) as (w1 & s1 & parts1 & -> & Hw1 & HC1 & HI1 & Hp1 & Hn1).
    assert (refines (w1, s1) (mkAlog (al_records a ++ r :: rs) (al_durable a))) as HR1.
    { split_and!; cbn [fst snd]; [done|by rewrite Hp1|by rewrite Hn1|].
      exists parts1. cbn [al_records al_durable]. by rewrite HC1, HC. }
    destruct (refines_sync _ _ _ HR1) as (w2 & -> & HR2). by exists w2, s1.
Qed.

Lemma client_step_sim opt maxSize c ev c' a :
  so_NoFsync opt = false -> refines c a -> client_step opt maxSize c ev c' ->
  valid_event (al_records a) ev -> exists a', spec_step a ev a' /\ refines c' a'.
Proof.
  intros Hopt HR HS HV.
  destruct HS as [w s r w' s' HA|w s w' HA|w s w' s' HA|w s wc w' s' recs Hcr Hwc HH HA].
  - rewrite append_one_encode in HA.
    destruct (refines_append _ _ _ _ HR HV) as (w1 & s1 & HA1 & HR1).
    unfold ClientSegmentStore_Append in HA. rewrite HA in HA1. injection HA1 as <- <-.
    eexists. split; [constructor|done].
  - destruct (refines_sync _ _ _ HR) as (w1 & HA1 & HR1). unfold ClientSegmentStore_Sync in HA.
    rewrite HA in HA1. injection HA1 as <-. eexists. split; [constructor|done].
  - destruct (refines_close _ _ _ HR) as (w1 & s1 & HA1 & HR1). unfold ClientSegmentStore_Close in HA.
    rewrite HA in HA1. injection HA1 as <- <-. eexists. split; [constructor|done].
  - destruct (refines_recover (go "stream") maxSize opt _ _ _ _ client_ok_inhabited HR Hopt Hcr Hwc HH)
      as (w1 & s1 & n & HA1 & Hn & HR1).
    unfold NewClientSegmentStore in HA. rewrite HA in HA1. injection HA1 as <- <- ->.
    eexists. split; [by constructor|done].
Qed.

Lemma log_step_sim opt maxSize c ev c' a :
  so_NoFsync opt = false -> refines c a -> log_step opt maxSize c ev c' ->
  valid_event (al_records a) ev -> exists a', spec_step a ev a' /\ refines c' a'.
Proof.
  intros Hopt HR HS HV.
  destruct HS as [w s rs w' s' Hne HA|w s w' s' HA|w s wc w' s' recs Hcr Hwc HH HA].
  - destruct (refines_batch _ _ _ _ HR HV) as (w1 & s1 & HA1 & _ & HR1).
    rewrite HA in HA1. injection HA1 as <- <-. destruct rs; [done|].
    eexists. split; [constructor|done].
  - destruct (refines_close _ _ _ HR) as (w1 & s1 & HA1 & HR1). unfold LogSegmentStore_Close in HA.
    rewrite HA in HA1. injection HA1 as <- <-. eexists. split; [constructor|done].
  - destruct (refines_recover (go "log") maxSize opt _ _ _ _ log_ok_inhabited HR Hopt Hcr Hwc HH)
      as (w1 & s1 & n & HA1 & Hn & HR1).
    unfold NewLogSegmentStore in HA. rewrite HA in HA1. injection HA1 as <- <- ->.
    eexists. split; [by constructor|done].
Qed.

(** ** Theorems *)

(** C4: the client's segment store is a crash-safe log.  Opened on a directory
    without segment files it is empty, and every run of appends (with
    increasing sequence numbers), syncs, closes and crashes followed by a
    reopen, rotating segment files as it goes, behaves as the abstract log: a
    recovery returns a prefix of what was appended, in order, that contains
    everything appended before the last sync. *)
Theorem client_store_refines_log w0 prefix maxSize opt :
  no_faults w0 -> prefix <> [] -> so_NoFsync opt = false -> no_segments w0 prefix ->
  exists w1 s1, NewClientSegmentStore w0 prefix maxSize opt = (w1, Ok (s1, [])) /\
    forall evs c, steps (client_step opt maxSize) (w1, s1) evs c -> valid_trace [] evs ->
    exists a, spec_steps (mkAlog [] 0) evs a /\ refines c a.
Proof.
  intros Hw Hp Hopt Hno.
  destruct (fresh_refines (go "stream") w0 prefix maxSize opt client_ok_inhabited Hw Hp Hopt Hno)
    as (w1 & s1 & HNew & _ & HR).
  exists w1, s1. split; [exact HNew|]. intros evs c HS HV.
  apply (trace_refines (client_step opt maxSize) (fun c ev c' a => client_step_sim _ _ c ev c' a Hopt)
           _ _ _ HS _ HR HV).
Qed.

(** C8: the witness's segment store is a crash-safe log: after any run of batch
    appends, closes and crashes with a reopen, a recovery returns a prefix of
    what was appended that contains every batch whose append returned. *)
Theorem log_store_refines_log w0 prefix maxSize opt :
  no_faults w0 -> prefix <> [] -> so_NoFsync opt = false -> no_segments w0 prefix ->
  exists w1 s1, NewLogSegmentStore w0 prefix maxSize opt = (w1, Ok (s1, [])) /\
    forall evs c, steps (log_step opt maxSize) (w1, s1) evs c -> valid_trace [] evs ->
    exists a, spec_steps (mkAlog [] 0) evs a /\ refines c a.
Proof.
  intros Hw Hp Hopt Hno.
  destruct (fresh_refines (go "log") w0 prefix maxSize opt log_ok_inhabited Hw Hp Hopt Hno)
    as (w1 & s1 & HNew & _ & HR).
  exists w1, s1. split; [exact HNew|]. intros evs c HS HV.
  apply (trace_refines (log_step opt maxSize) (fun c ev c' a => log_step_sim _ _ c ev c' a Hopt)
           _ _ _ HS _ HR HV).
Qed.

(** The client's store never gets stuck.  As long as system calls succeed,
    every append of a record with a larger sequence number, every sync and
    every close succeeds, and after any crash that leaves no half-written
    header the directory can be reopened. *)
Theorem client_store_progress w s a maxSize opt :
  refines (w, s) a -> so_NoFsync opt = false ->
  (forall r, valid_log (al_records a ++ [fst (ClientRecord_Encode r)]) ->
     exists w' s', ClientSegmentStore_Append w s r = (w', s', Ok ())) /\
  (exists w', ClientSegmentStore_Sync w s = (w', Ok ())) /\
  (exists w' s', ClientSegmentStore_Close w s = (w', s', Ok ())) /\
  (forall wc, crash w wc -> no_faults wc -> headers_intact wc (st_filePrefix s) ->
     exists w' s' recs, NewClientSegmentStore wc (st_filePrefix s) maxSize opt = (w', Ok (s', recs))).
Proof.
  intros HR Hopt. split_and!.
  - intros r HV. rewrite append_one_encode.
    destruct (refines_append _ _ _ _ HR HV) as (w' & s' & HA & _). eauto.
  - destruct (refines_sync _ _ _ HR) as (w' & HA & _). eauto.
  - destruct (refines_close _ _ _ HR) as (w' & s' & HA & _). eauto.
  - intros wc Hcr Hwc HH.
    destruct (refines_recover (go "stream") maxSize opt _ _ _ _ client_ok_inhabited HR Hopt Hcr Hwc HH)
      as (w' & s' & n & HA & _). eauto.
Qed.

(** ** An executable crash *)

(** Every file cut to [k] bytes, but never below what is synced. *)
Definition cut_entry (k : nat) (e : Entry) : Entry :=
  match e with
  | EFile f =>
    let n := (f_synced f `max` (k `min` length (f_data f)))%nat in
    EFile (mkFile (take n (f_data f)) n)
  | EDir => EDir
  end.

Definition cut_world (k : nat) (w : World) : World :=
  mkWorld (cut_entry k <$> w_dir w) [] (w_now w).

Definition synced_in_range (w : World) : bool :=
  forallb (fun e => match snd e with EFile f => f_synced f <=? length (f_data f) | EDir => true end)%nat
    (map_to_list (w_dir w)).

Lemma crash_cut_world k w : synced_in_range w = true -> crash w (cut_world k w).
Proof.
  intros HS p. cbn. rewrite lookup_fmap. destruct (w_dir w !! p) as [[f|]|] eqn:E; [|done|done].
  cbn. unfold synced_in_range in HS. rewrite forallb_forall in HS.
  specialize (HS (p, EFile f) ltac:(by apply list_elem_of_In, elem_of_map_to_list)). cbn in HS.
  apply Nat.leb_le in HS. eexists. split; [|reflexivity]. lia.
Qed.

Definition headers_long (w : World) : bool :=
  forallb (fun e => match snd e with EFile f => 16 <=? length (f_data f) | EDir => true end)%nat
    (map_to_list (w_dir w)).

Lemma headers_long_intact w prefix : headers_long w = true -> headers_intact w prefix.
Proof.
  intros HH n f Hn _. right. unfold headers_long in HH. rewrite forallb_forall in HH.
  specialize (HH (n, EFile f) ltac:(by apply list_elem_of_In, elem_of_map_to_list)).
  by apply Nat.leb_le in HH.
Qed.

(** ** Witnesses *)

Definition sample_opt : ScanOptions := mkScanOptions false false.
Definition sample_dir : World := mkWorld ∅ [] 7.
Definition sample_record (q : Z) : ClientRecord :=
  fst (ClientRecord_Encode (mkClientRecord (replicate 16 x01) q [x61] 0)).
Definition sample_log_record (q : Z) : LogRecord :=
  let r := mkLogRecord q (replicate 16 x01) q [x61] 0 in
  mkLogRecord q (replicate 16 x01) q [x61] (LogRecord_ComputeCRC32C r).

(** An empty store over [sample_dir]. *)
Definition sample_store (prefix : bytes) : SegmentStore :=
  mkSegmentStore 100 prefix false false None None [] 0.

Definition run_world {A B} (x : World * A * B) : World := fst (fst x).
Definition run_store {A B} (x : World * A * B) : A := snd (fst x).

(** Append 1, sync, append 2; then a crash that keeps 60 bytes of the file. *)
Definition run1 := ClientSegmentStore_Append sample_dir (sample_store (go "stream")) (sample_record 1).
Definition run2 := ClientSegmentStore_Sync (run_world run1) (run_store run1).
Definition run3 := ClientSegmentStore_Append (fst run2) (run_store run1) (sample_record 2).
Definition client_crashed : World := cut_world 60 (run_world run3).
Definition run4 := NewClientSegmentStore client_crashed (go "stream") 100 sample_opt.

Lemma no_segments_empty os now prefix : no_segments (mkWorld ∅ os now) prefix.
Proof. intros n e Hn. cbn in Hn. by rewrite lookup_empty in Hn. Qed.

Ltac valid_log_compute :=
  split_and!; repeat constructor; vm_compute; done.

Lemma client_store_refines_log_witness :
  exists a, spec_steps (mkAlog [] 0)
    [EvAppend (sample_record 1); EvSync; EvAppend (sample_record 2); EvRecover [sample_record 1]] a.
Proof.
  destruct (client_store_refines_log sample_dir (go "stream") 100 sample_opt
              eq_refl ltac:(done) eq_refl (no_segments_empty _ _ _)) as (w1 & s1 & HNew & HT).
  assert (NewClientSegmentStore sample_dir (go "stream") 100 sample_opt =
          (sample_dir, Ok (sample_store (go "stream"), []))) as HE by (vm_compute; reflexivity).
  rewrite HE in HNew. injection HNew as <- <-.
  destruct (HT [EvAppend (sample_record 1); EvSync; EvAppend (sample_record 2);
                EvRecover [sample_record 1]]
              (fst run4, match snd run4 with Ok (s, _) => s | Err _ => run_store run1 end))
    as (a & Ha & _); [..|by exists a].
  - eapply steps_cons. { apply (cs_append _ _ _ _ (sample_record 1) (run_world run1) (run_store run1)). vm_compute; reflexivity. }
    eapply steps_cons. { apply (cs_sync _ _ _ _ (fst run2)). vm_compute; reflexivity. }
    eapply steps_cons. { apply (cs_append _ _ _ _ (sample_record 2) (run_world run3) (run_store run3)). vm_compute; reflexivity. }
    eapply steps_cons; [|apply steps_nil].
    apply (cs_recover _ _ _ _ client_crashed).
    + apply crash_cut_world. vm_compute; reflexivity.
    + vm_compute; reflexivity.
    + apply headers_long_intact. vm_compute; reflexivity.
    + vm_compute; reflexivity.
  - split_and!; try done; valid_log_compute.
Defined.

Definition lrun1 :=
  LogSegmentStore_AppendBatch sample_dir (sample_store (go "log")) [sample_log_record 1].
Definition lrun2 := NewLogSegmentStore (cut_world 0 (run_world lrun1)) (go "log") 100 sample_opt.

Lemma log_store_refines_log_witness :
  exists a, spec_steps (mkAlog [] 0)
    [EvAppendSync [sample_log_record 1]; EvRecover [sample_log_record 1]] a.
Proof.
  destruct (log_store_refines_log sample_dir (go "log") 100 sample_opt
              eq_refl ltac:(done) eq_refl (no_segments_empty _ _ _)) as (w1 & s1 & HNew & HT).
  assert (NewLogSegmentStore sample_dir (go "log") 100 sample_opt =
          (sample_dir, Ok (sample_store (go "log"), []))) as HE by (vm_compute; reflexivity).
  rewrite HE in HNew. injection HNew as <- <-.
  destruct (HT [EvAppendSync [sample_log_record 1]; EvRecover [sample_log_record 1]]
              (fst lrun2, match snd lrun2 with Ok (s, _) => s | Err _ => run_store lrun1 end))
    as (a & Ha & _); [..|by exists a].
  - eapply steps_cons.
    { apply (ls_append _ _ _ _ _ (run_world lrun1) (run_store lrun1));
        [done|vm_compute; reflexivity]. }
    eapply steps_cons; [|apply steps_nil].
    apply (ls_recover _ _ _ _ (cut_world 0 (run_world lrun1))).
    + apply crash_cut_world. vm_compute; reflexivity.
    + vm_compute; reflexivity.
    + apply headers_long_intact. vm_compute; reflexivity.
    + vm_compute; reflexivity.
  - split_and!; try done; valid_log_compute.
Defined.

Lemma client_store_progress_witness :
  exists w s, NewClientSegmentStore sample_dir (go "stream") 100 sample_opt = (w, Ok (s, [])) /\
    exists w' s', ClientSegmentStore_Append w s (sample_record 1) = (w', s', Ok ()).
Proof.
  destruct (fresh_refines (go "stream") sample_dir (go "stream") 100 sample_opt client_ok_inhabited
              eq_refl ltac:(done) eq_refl (no_segments_empty _ _ _)) as (w & s & HNew & _ & HR).
  exists w, s. split; [exact HNew|].
  apply (client_store_progress w s (mkAlog [] 0) 100 sample_opt HR eq_refl).
  valid_log_compute.
Defined.

(** ** A failed write *)

(** The disk fails after 5 bytes of a record; the caller sees the error, appends
    the record again and syncs. *)
Definition torn1 :=
  ClientSegmentStore_Append (mkWorld (w_dir (fst run2)) [OFail 5] 7) (run_store run1) (sample_record 2).
Definition torn2 :=
  ClientSegmentStore_Append (run_world torn1) (run_store torn1) (sample_record 2).
Definition torn3 := ClientSegmentStore_Sync (run_world torn2) (run_store torn2).

(** A failed write is not undone.  After an append that failed part-way the
    store keeps the fragment in the active file; a later append and sync of the
    same record succeed, yet reopening the directory, even without any crash,
    stops at the fragment and returns the log without that record. *)
Theorem failed_append_loses_synced_record :
  snd torn1 = Err ErrSys /\ snd torn2 = Ok () /\ snd torn3 = Ok () /\
  exists s, snd (NewClientSegmentStore (fst torn3) (go "stream") 100 sample_opt) =
    Ok (s, [sample_record 1]).
Proof. split_and!; [vm_compute; reflexivity..|]. eexists. vm_compute. reflexivity. Qed.

(** A torn header is not recovered from.  A crash after the first append to
    a new segment may leave only part of the 16-byte header, which is not
    synced on its own; reopening the directory then fails instead of treating
    the file as empty. *)
Theorem torn_header_blocks_reopen :
  is_ok (snd run1) = true /\ crash (run_world run1) (cut_world 5 (run_world run1)) /\
  snd (NewClientSegmentStore (cut_world 5 (run_world run1)) (go "stream") 100 sample_opt) =
    Err ErrTruncatedSegmentHeader.
Proof.
  split; [vm_compute; reflexivity|]. split; [apply crash_cut_world|]; vm_compute; reflexivity.
Qed.
