(* ===== verification/WalRetention.v ===== *)
(** * WalRetention: reading, trimming and rolling back a segment store

    The remaining operations of the stores of WalSegment.v: [ReadFrom] (binary
    search for the starting segment, then a scan), the two retention policies
    [DeleteSegmentsThrough] and [DeleteSegmentsBeforeS3Ack], and
    [TruncateAfter], which rolls the client's log back to a sequence number. *)

From S2P Require Import Prelude Bytes WalRecord FileSys WalSegment WalStore.

#[local] Open Scope Z_scope.
#[local] Open Scope list_scope.

(** ** Binary search *)

(** [sort.Search] on a predicate that is false and then true. *)
Definition monotone (n : nat) (f : nat -> bool) : Prop :=
  forall i j, (i <= j)%nat -> (j < n)%nat -> f i = true -> f j = true.

Lemma sort_search_go_spec n f fuel : forall i j,
  monotone n f -> (i <= j <= n)%nat -> (j - i < fuel)%nat ->
  (forall k, (k < i)%nat -> f k = false) -> (forall k, (j <= k < n)%nat -> f k = true) ->
  let r := sort_search_go fuel f i j in
  (i <= r <= j)%nat /\ (forall k, (k < r)%nat -> f k = false) /\
  (forall k, (r <= k < n)%nat -> f k = true).
Proof.
  induction fuel as [|fuel IH]; intros i j HM Hij Hf Hlo Hhi; [lia|]. cbn [sort_search_go].
  destruct (i <? j)%nat eqn:E.
  - apply Nat.ltb_lt in E. set (h := ((i + j) / 2)%nat).
    assert (i <= h < j)%nat as Hh.
    { unfold h. split; [apply Nat.div_le_lower_bound; lia|apply Nat.Div0.div_lt_upper_bound; lia]. }
    destruct (f h) eqn:Efh.
    + destruct (IH i h HM ltac:(lia) ltac:(lia) Hlo) as (H1 & H2 & H3).
      { intros k Hk. destruct (decide (j <= k)%nat); [apply Hhi; lia|].
        apply (HM h); [lia|lia|done]. }
      split; [lia|done].
    + destruct (IH (S h) j HM ltac:(lia) ltac:(lia)) as (H1 & H2 & H3); [|done|split; [lia|done]].
      intros k Hk. destruct (f k) eqn:Ek; [|done].
      rewrite (HM k h) in Efh; [done|lia|lia|done].
  - apply Nat.ltb_ge in E. assert (i = j) as <- by lia. split; [lia|done].
Qed.

Lemma sort_search_spec n f :
  monotone n f ->
  (sort_search n f <= n)%nat /\ (forall k, (k < sort_search n f)%nat -> f k = false) /\
  (forall k, (sort_search n f <= k < n)%nat -> f k = true).
Proof.
  intros HM. destruct (sort_search_go_spec n f (S n) 0 n HM) as (H1 & H2 & H3); try lia.
  unfold sort_search. split; [lia|done].
Qed.

(** ** Reading *)

(** The callback applied to a list of records, stopping at its first error. *)
Fixpoint feed {A S} (fn : S -> A -> result wal_error S) (st : S) (rs : list A)
    : result wal_error S :=
  match rs with
  | [] => Ok st
  | r :: rs => match fn st r with Ok st' => feed fn st' rs | Err e => Err e end
  end.

Lemma feed_app {A S} (fn : S -> A -> result wal_error S) rs rs' : forall st,
  feed fn st (rs ++ rs') = match feed fn st rs with Ok st' => feed fn st' rs' | Err e => Err e end.
Proof.
  induction rs as [|r rs IH]; intros st; [done|]. cbn. destruct (fn st r); [apply IH|done].
Qed.

Definition from_position (pos : Z) (rs : list LogRecord) : list LogRecord :=
  filter (fun r => pos <= lr_Position r) rs.

Lemma read_records_ok {S} pos (fn : S -> LogRecord -> result wal_error S) rs : forall fuel rd st,
  Forall log_ok rs -> rd_readable rd = encode_all rs -> rd_fault rd = None ->
  (length rs < fuel)%nat ->
  read_records fuel rd pos fn st = feed fn st (from_position pos rs).
Proof.
  induction rs as [|r rs IH]; intros fuel rd st HF Hr Hf Hfuel; (destruct fuel as [|fuel]; [lia|]).
  - cbn [read_records].
    destruct (DecodeLogRecord rd) as [rd' [r|e]] eqn:ED.
    + apply log_decode_sound in ED as (Hok & HR & _). rewrite Hr in HR.
      assert (0 < length (LogRecord_Encode r))%nat as HP by exact (@sf_bytes_pos LogRecord log_format r Hok).
      rewrite encode_all_nil in HR. apply (f_equal length) in HR.
      rewrite length_app in HR. cbn [length] in HR. lia.
    + destruct (log_decode_errors _ _ _ Hf ED) as [[-> _]|[Hne _]]; [done|]. by rewrite Hr in Hne.
  - apply Forall_cons in HF as [Hok HF]. rewrite encode_all_cons in Hr.
    cbn [read_records]. rewrite (log_decode_encode _ _ _ Hok Hr).
    assert (HN : forall st, read_records fuel (rd_advance rd (length (LogRecord_Encode r))) pos fn st =
                 feed fn st (from_position pos rs)).
    { intros st'. apply IH; [done| |done|cbn in Hfuel; lia].
      rewrite rd_readable_advance, Hr. apply drop_app_length. }
    unfold from_position. destruct (pos <=? lr_Position r) eqn:E; zify_bool.
    + rewrite filter_cons_True by done. cbn. destruct (fn st r); [apply HN|done].
    + rewrite filter_cons_False by lia. apply HN.
Qed.

Lemma read_segments_ok {S} accept pos (fn : S -> LogRecord -> result wal_error S) prefix w metas parts :
  no_faults w ->
  Forall2 (fun m rs => m = seg_meta (sm_ptr m) (part_name prefix rs) rs) metas parts ->
  Forall (fun rs => holds w (part_name prefix rs) rs) parts -> Forall log_ok (concat parts) ->
  forall st, read_segments w accept pos fn metas st =
    (w, feed fn st (from_position pos (concat parts))).
Proof.
  intros Hw HM. induction HM as [|m rs metas parts Hm HM IH]; intros HF HV st; [done|].
  apply Forall_cons in HF as [(f & Hf & Hd & _) HF]. cbn [concat] in HV |- *.
  apply Forall_app in HV as [HV1 HV2]. cbn [read_segments].
  assert (sm_Path m = part_name prefix rs) as -> by (by rewrite Hm).
  rewrite (os_Open_ok _ _ f) by done. rewrite Hd. unfold segment_bytes.
  pose proof (ReadSegmentHeader_default (encode_all rs) accept) as HH. cbv zeta in HH. rewrite HH.
  rewrite f_Close_ok by done.
  rewrite (read_records_ok _ _ rs).
  - unfold from_position. rewrite filter_app, feed_app.
    destruct (feed fn st _); [|done]. by apply IH.
  - done.
  - apply readable_body.
  - done.
  - unfold scan_fuel. rewrite readable_body. pose proof (encode_all_length_ge rs HV1). lia.
Qed.

(** Records of an earlier segment precede the first record of a later one. *)
Lemma earlier_part {R} `{SegmentFormat R} (parts : list (list R)) i j a b r :
  valid_log (concat parts) -> parts !! i = Some a -> parts !! j = Some b -> (i < j)%nat ->
  r ∈ a -> b <> [] -> sf_seq r < first_seq b.
Proof.
  intros HV Hi Hj Hij Hr Hb.
  rewrite <- (take_drop j parts), concat_app in HV.
  destruct (first_seq_elem b Hb) as (r' & Hr' & ->).
  apply (valid_log_lt (concat (take j parts)) (concat (drop j parts))); [done|..];
    apply list_elem_of_In, in_concat.
  - exists a. split; apply list_elem_of_In; [|done].
    apply list_elem_of_lookup. exists i. by rewrite lookup_take_lt.
  - exists b. split; apply list_elem_of_In; [|done].
    apply list_elem_of_lookup. exists 0%nat. by rewrite lookup_drop, Nat.add_0_r.
Qed.

Lemma read_from_start w s parts d pos :
  store_inv (R := LogRecord) w s parts d -> st_segments s <> [] ->
  let segs := st_segments s in
  let idx := sort_search (length segs)
    (fun i => match segs !! i with Some m => pos <? sm_FirstSeq m | None => true end) in
  let start := if (0 <? idx)%nat then (idx - 1)%nat else 0%nat in
  from_position pos (concat parts) = from_position pos (concat (drop start parts)).
Proof.
  intros HI Hne segs idx start.
  pose proof (si_log _ _ _ _ HI) as HV. pose proof (si_nonempty _ _ _ _ HI) as HN.
  pose proof (si_metas _ _ _ _ HI) as HM. rewrite Forall_forall in HN.
  assert (Hseg : forall i m, segs !! i = Some m ->
    exists rs, parts !! i = Some rs /\ sm_FirstSeq m = first_seq rs /\ rs <> []).
  { intros i m Hm. destruct (Forall2_lookup_l _ _ _ _ _ HM Hm) as (rs & Hrs & ->).
    exists rs. split_and!; [done..|]. apply HN. by eapply list_elem_of_lookup_2. }
  set (f := fun i => match segs !! i with Some m => pos <? sm_FirstSeq m | None => true end) in idx.
  assert (monotone (length segs) f) as Hmono.
  { intros i j Hij Hj Hi. unfold f in *. destruct (segs !! j) as [mj|] eqn:Ej; [|done].
    destruct (decide (i = j)) as [->|Hne']; [by rewrite Ej in Hi|].
    destruct (lookup_lt_is_Some_2 segs i ltac:(lia)) as [mi Ei]. rewrite Ei in Hi.
    destruct (Hseg _ _ Ei) as (a & Ha & Hfa & Hane).
    destruct (Hseg _ _ Ej) as (b & Hb & Hfb & Hbne).
    destruct (first_seq_elem a Hane) as (r & Hr & Hfr).
    pose proof (earlier_part parts i j a b r HV Ha Hb ltac:(lia) Hr Hbne). zify_bool.
    apply Z.ltb_lt. lia. }
  destruct (sort_search_spec _ f Hmono) as (H1 & H2 & _). fold idx in H1, H2.
  rewrite <- (take_drop start parts) at 1. unfold from_position. rewrite concat_app, filter_app.
  enough (filter (fun r => pos <= lr_Position r) (concat (take start parts)) = []) as -> by done.
  apply filter_none. intros r Hr.
  apply list_elem_of_In, in_concat in Hr as (a & Ha & Hr). apply list_elem_of_In in Ha, Hr.
  apply list_elem_of_lookup in Ha as [i Hi].
  assert (0 < idx)%nat as Hidx.
  { destruct (decide (0 < idx)%nat); [done|]. exfalso. unfold start in Hi.
    rewrite (proj2 (Nat.ltb_ge _ _)) in Hi by lia. by rewrite take_0 in Hi. }
  assert (start = idx - 1)%nat as Hst by (unfold start; by rewrite (proj2 (Nat.ltb_lt _ _))).
  assert (i < start)%nat as His.
  { apply lookup_lt_Some in Hi. rewrite length_take in Hi. lia. }
  rewrite lookup_take_lt in Hi by done.
  specialize (H2 start ltac:(lia)). unfold f in H2.
  destruct (lookup_lt_is_Some_2 segs start ltac:(lia)) as [m Em]. rewrite Em in H2. zify_bool.
  destruct (Hseg _ _ Em) as (b & Hb & Hfb & Hbne).
  pose proof (earlier_part parts i start a b r HV Hi Hb His Hr Hbne) as Hlt. cbn in Hlt.
  rewrite Hfb in H2. lia.
Qed.

(** C34: [ReadFrom] delivers exactly the records at or after the position.  On a
    store whose files hold a log of increasing positions, the callback sees
    every record with [Position >= position], in order and once, the binary
    search skips only segments without such records, and the first error of
    the callback is returned. *)
Theorem read_from_exact {S} w s parts d pos (fn : S -> LogRecord -> result wal_error S) st :
  store_inv w s parts d -> no_faults w ->
  LogSegmentStore_ReadFrom w s pos fn st =
  (w, feed fn st (filter (fun r => pos <= lr_Position r) (concat parts))).
Proof.
  intros HI Hw. unfold LogSegmentStore_ReadFrom.
  pose proof (si_metas _ _ _ _ HI) as HM.
  destruct (st_segments s) as [|m0 segs0] eqn:E.
  - apply Forall2_nil_inv_l in HM as ->. done.
  - fold (from_position pos (concat parts)).
    rewrite (read_from_start w s parts d pos HI) by congruence. cbv zeta. rewrite E.
    set (start := if (0 <? _)%nat then _ else _).
    apply (read_segments_ok _ _ _ (st_filePrefix s)); [done|..].
    + by apply Forall2_drop.
    + apply Forall_drop, (si_files _ _ _ _ HI).
    + destruct (si_log _ _ _ _ HI) as [HL _]. rewrite <- (take_drop start parts), concat_app in HL.
      by apply Forall_app in HL as [_ ?].
Qed.

(** A store holding two records, as the log's own operations build it. *)
Lemma sample_log_store :
  exists w s parts, no_faults w /\ store_inv w s parts 2 /\
    concat parts = [sample_log_record 1; sample_log_record 2].
Proof.
  destruct (fresh_refines (go "log") sample_dir (go "log") 100 sample_opt log_ok_inhabited
              eq_refl ltac:(done) eq_refl (no_segments_empty _ _ _)) as (w & s & _ & _ & HR).
  destruct (refines_batch w s _ [sample_log_record 1; sample_log_record 2] HR)
    as (w' & s' & _ & _ & Hw & _ & _ & parts & HI & HC); [valid_log_compute|].
  by exists w', s', parts.
Qed.

Lemma read_from_exact_witness :
  exists w s, LogSegmentStore_ReadFrom w s 2 (fun st r => Ok (st ++ [lr_Position r])) [] = (w, Ok [2]).
Proof.
  destruct sample_log_store as (w & s & parts & Hw & HI & HC). exists w, s.
  rewrite (read_from_exact w s parts 2 2 _ [] HI Hw), HC. vm_compute. reflexivity.
Defined.

(** ** Retention *)

Lemma os_Remove_dir w p w' r :
  os_Remove w p = (w', r) -> forall q, q <> p -> w_dir w' !! q = w_dir w !! q.
Proof.
  unfold os_Remove. intros HR q Hq. pose proof (next_outcome_dir w) as HD.
  destruct (next_outcome w) as [w1 o]. cbn in HD. rewrite <- HD.
  destruct o; [|by injection HR as <- _].
  destruct (w_dir w1 !! p); injection HR as <- _; [|done].
  cbn. by rewrite lookup_delete_ne.
Qed.

Section delete_through.
Context (active : option nat) (flushed maxRetained : Z).

Definition deletable (m : SegmentMeta) : Prop :=
  active <> Some (sm_ptr m) /\ sm_LastSeq m <= flushed.

(** What a policy may do: keep a sublist, drop only deletable segments, and touch
    only their files. *)
Definition safe_deletion (w w' : World) (segs kept : list SegmentMeta) : Prop :=
  sublist kept segs /\
  (forall m, m ∈ segs -> m ∈ kept \/ deletable m) /\
  (forall q, w_dir w' !! q = w_dir w !! q \/ exists m, m ∈ segs /\ deletable m /\ sm_Path m = q).

Lemma safe_deletion_keep w w' segs kept m :
  safe_deletion w w' segs kept -> safe_deletion w w' (m :: segs) (m :: kept).
Proof.
  intros (S1 & S2 & S3). split_and!.
  - by apply sublist_skip.
  - intros x Hx. apply elem_of_cons in Hx as [->|Hx]; [left; left|].
    destruct (S2 x Hx); [left; by right|by right].
  - intros q. destruct (S3 q) as [?|(x & ? & ?)]; [by left|right]. exists x. split; [by right|done].
Qed.

Lemma safe_deletion_drop w w' segs kept m :
  deletable m -> safe_deletion w w' segs kept -> safe_deletion w w' (m :: segs) kept.
Proof.
  intros Hdel (S1 & S2 & S3). split_and!.
  - by apply sublist_cons.
  - intros x Hx. apply elem_of_cons in Hx as [->|Hx]; [by right|by apply S2].
  - intros q. destruct (S3 q) as [?|(x & ? & ?)]; [by left|right]. exists x. split; [by right|done].
Qed.

(** A removal of the first segment's file before the rest. *)
Lemma safe_deletion_remove w w1 w' segs kept m r :
  deletable m -> os_Remove w (sm_Path m) = (w1, r) ->
  safe_deletion w1 w' (m :: segs) kept -> safe_deletion w w' (m :: segs) kept.
Proof.
  intros Hdel HR (S1 & S2 & S3). split_and!; [done..|]. intros q.
  destruct (decide (q = sm_Path m)) as [->|Hne].
  - right. exists m. split; [left|done].
  - rewrite <- (os_Remove_dir _ _ _ _ HR q Hne). apply S3.
Qed.

Lemma delete_through_safe segs : forall w total w' kept,
  delete_through w active flushed maxRetained total segs = (w', kept) ->
  safe_deletion w w' segs kept.
Proof.
  induction segs as [|m segs IH]; intros w total w' kept HD; cbn [delete_through] in HD.
  - injection HD as <- <-. split_and!; [done| |by left]. intros m Hm. by apply not_elem_of_nil in Hm.
  - destruct (bool_decide _ || _ || _) eqn:E.
    + destruct (delete_through w _ _ _ _ _) as [w1 rest] eqn:ER. injection HD as <- <-.
      by apply safe_deletion_keep, (IH w total).
    + apply orb_false_iff in E as [E _]. apply orb_false_iff in E as [E1 E2].
      apply bool_decide_eq_false in E1. zify_bool.
      assert (deletable m) as Hdel by done.
      destruct (os_Remove w (sm_Path m)) as [w1 r] eqn:EO.
      apply (safe_deletion_remove _ _ _ _ _ _ _ Hdel EO).
      assert (Hdrop : forall t, delete_through w1 active flushed maxRetained t segs = (w', kept) ->
                safe_deletion w1 w' (m :: segs) kept)
        by (intros t Ht; apply safe_deletion_drop; [done|by apply (IH w1 t)]).
      destruct r as [u|[]]; try (by eapply Hdrop);
        (destruct (delete_through w1 _ _ _ _ _) as [w2 rest] eqn:ER; injection HD as <- <-;
         by apply safe_deletion_keep, (IH w1 total)).
Qed.

Lemma delete_through_under segs : forall w total,
  total <= maxRetained -> delete_through w active flushed maxRetained total segs = (w, segs).
Proof.
  induction segs as [|m segs IH]; intros w total Ht; [done|]. cbn [delete_through].
  rewrite (proj2 (Z.leb_le _ _) Ht), orb_true_r. by rewrite IH.
Qed.

(** With working removals the policy stops only when the budget is met or
    nothing deletable is left. *)
Lemma delete_through_budget segs : forall w total w' kept extra,
  no_faults w -> total = extra + total_size segs ->
  delete_through w active flushed maxRetained total segs = (w', kept) ->
  extra + total_size kept <= maxRetained \/ Forall (fun m => ~ deletable m) kept.
Proof.
  induction segs as [|m segs IH]; intros w total w' kept extra Hw Ht HD.
  - injection HD as <- <-. by right.
  - destruct (decide (total <= maxRetained)) as [Hle|Hgt].
    { rewrite delete_through_under in HD by done. injection HD as <- <-. left. lia. }
    cbn [delete_through] in HD. cbn in Ht. fold (total_size segs) in Ht.
    rewrite (proj2 (Z.leb_gt total _)), orb_false_r in HD by lia.
    destruct (bool_decide _ || _) eqn:E.
    + destruct (delete_through w _ _ _ _ _) as [w1 rest] eqn:ER. injection HD as <- <-.
      destruct (IH w total w1 rest (extra + sm_Size m) Hw ltac:(lia) ER) as [Hb|Hb].
      * left. cbn. fold (total_size rest). lia.
      * right. constructor; [|done]. intros [H1 H2].
        apply orb_true_iff in E as [E|E]; [by apply bool_decide_eq_true in E|zify_bool; lia].
    + unfold os_Remove in HD. rewrite next_outcome_ok in HD by done.
      destruct (w_dir w !! sm_Path m); apply (IH _ _ _ _ extra) in HD; try done; lia.
Qed.
End delete_through.

Section delete_acked.
Context (active : option nat) (acked : Z).

Lemma delete_acked_safe segs : forall w w' kept,
  delete_acked w active acked segs = (w', kept) ->
  safe_deletion active acked w w' segs kept.
Proof.
  induction segs as [|m segs IH]; intros w w' kept HD; cbn [delete_acked] in HD.
  - injection HD as <- <-. split_and!; [done| |by left]. intros m Hm. by apply not_elem_of_nil in Hm.
  - destruct (decide _) as [Ha|Ha].
    { destruct (delete_acked w _ _ _) as [w1 rest] eqn:ER. injection HD as <- <-.
      by apply safe_deletion_keep, IH. }
    destruct ((_ <=? _) && _) eqn:E.
    + apply andb_true_iff in E as [E1 _]. zify_bool.
      assert (deletable active acked m) as Hdel by done.
      destruct (os_Remove w (sm_Path m)) as [w1 r] eqn:EO.
      destruct (delete_acked w1 _ _ _) as [w2 rest] eqn:ER.
      apply (safe_deletion_remove _ _ _ _ _ _ _ _ _ Hdel EO).
      destruct r as [u|[]]; injection HD as <- <-;
        first [by apply safe_deletion_keep, IH | by apply safe_deletion_drop; [|apply IH]].
    + destruct (delete_acked w _ _ _) as [w1 rest] eqn:ER. injection HD as <- <-.
      by apply safe_deletion_keep, IH.
Qed.
End delete_acked.

(** The witness's retention never loses unflushed data.  Whatever removals
    fail, [DeleteSegmentsThrough] forgets and unlinks only segments that are
    not active and whose last position is flushed, keeps the others in order,
    and touches no other file; when removals work it continues until the
    retained bytes fit the budget or no deletable segment is left. *)
Theorem retention_keeps_unflushed w s flushed maxRetained w' s' :
  LogSegmentStore_DeleteSegmentsThrough w s flushed maxRetained = (w', s') ->
  sublist (st_segments s') (st_segments s) /\
  (forall m, m ∈ st_segments s -> st_activeMeta s = Some (sm_ptr m) \/ flushed < sm_LastSeq m ->
     m ∈ st_segments s') /\
  (forall p, w_dir w' !! p = w_dir w !! p \/
     exists m, m ∈ st_segments s /\ sm_Path m = p /\
       st_activeMeta s <> Some (sm_ptr m) /\ sm_LastSeq m <= flushed) /\
  (no_faults w -> total_size (st_segments s') <= maxRetained \/
     forall m, m ∈ st_segments s' -> st_activeMeta s = Some (sm_ptr m) \/ flushed < sm_LastSeq m).
Proof.
  unfold LogSegmentStore_DeleteSegmentsThrough. destruct (_ <=? _) eqn:E; zify_bool.
  - intros [= <- <-]. split_and!; auto.
  - destruct (delete_through _ _ _ _ _ _) as [w1 kept] eqn:ED. intros [= <- <-]. cbn.
    destruct (delete_through_safe _ _ _ _ _ _ _ _ ED) as (S1 & S2 & S3). split_and!; [done|..].
    + intros m Hm Hk. destruct (S2 m Hm) as [?|[? ?]]; [done|]. destruct Hk; [done|lia].
    + intros p. destruct (S3 p) as [?|(m & ? & [? ?] & ?)]; [by left|right]. by exists m.
    + intros Hw. destruct (delete_through_budget _ _ _ _ _ _ _ _ 0 Hw eq_refl ED) as [Hb|Hb]; [by left|].
      right. intros m Hm. rewrite Forall_forall in Hb. specialize (Hb m Hm). unfold deletable in Hb.
      destruct (decide (st_activeMeta s = Some (sm_ptr m))); [by left|right].
      destruct (decide (sm_LastSeq m <= flushed)); [by destruct Hb|lia].
Qed.

(** The client's trimming never loses records that are not acknowledged.
    [DeleteSegmentsBeforeS3Ack] forgets and unlinks only completed segments
    whose last sequence number is acknowledged, whatever removals fail, and
    touches no other file. *)
Theorem trimming_keeps_unacked w s acked w' s' :
  ClientSegmentStore_DeleteSegmentsBeforeS3Ack w s acked = (w', s') ->
  sublist (st_segments s') (st_segments s) /\
  (forall m, m ∈ st_segments s -> st_activeMeta s = Some (sm_ptr m) \/ acked < sm_LastSeq m ->
     m ∈ st_segments s') /\
  (forall p, w_dir w' !! p = w_dir w !! p \/
     exists m, m ∈ st_segments s /\ sm_Path m = p /\
       st_activeMeta s <> Some (sm_ptr m) /\ sm_LastSeq m <= acked).
Proof.
  unfold ClientSegmentStore_DeleteSegmentsBeforeS3Ack.
  destruct (delete_acked _ _ _ _) as [w1 kept] eqn:ED. intros [= <- <-]. cbn.
  destruct (delete_acked_safe _ _ _ _ _ _ ED) as (S1 & S2 & S3). split_and!; [done|..].
  - intros m Hm Hk. destruct (S2 m Hm) as [?|[? ?]]; [done|]. destruct Hk; [done|lia].
  - intros p. destruct (S3 p) as [?|(m & ? & [? ?] & ?)]; [by left|right]. by exists m.
Qed.

Definition retention_store : SegmentStore :=
  mkSegmentStore 100 (go "log") false false (Some (go "b")) (Some 1%nat)
    [mkSegmentMeta 0 (go "a") 1 5 60 5; mkSegmentMeta 1 (go "b") 6 9 60 4] 2.
Definition retention_dir : World :=
  mkWorld {[ go "a" := EFile (mkFile [] 0); go "b" := EFile (mkFile [] 0) ]} [] 0.

Lemma retention_keeps_unflushed_witness :
  exists w' s', LogSegmentStore_DeleteSegmentsThrough retention_dir retention_store 9 0 = (w', s') /\
    mkSegmentMeta 1 (go "b") 6 9 60 4 ∈ st_segments s'.
Proof.
  destruct (LogSegmentStore_DeleteSegmentsThrough retention_dir retention_store 9 0) as [w' s'] eqn:E.
  exists w', s'. split; [done|].
  apply (retention_keeps_unflushed _ _ _ _ _ _ E); [right; left|by left].
Defined.

Lemma trimming_keeps_unacked_witness :
  exists w' s', ClientSegmentStore_DeleteSegmentsBeforeS3Ack retention_dir retention_store 4 = (w', s') /\
    mkSegmentMeta 0 (go "a") 1 5 60 5 ∈ st_segments s'.
Proof.
  destruct (ClientSegmentStore_DeleteSegmentsBeforeS3Ack retention_dir retention_store 4) as [w' s'] eqn:E.
  exists w', s'. split; [done|].
  apply (trimming_keeps_unacked _ _ _ _ _ E); [left|right; cbn; lia].
Defined.

(** ** Rolling back *)

Implicit Types (rs : list ClientRecord).

Definition upto (q : Z) rs : list ClientRecord := filter (fun r => cr_StreamSeq r <= q) rs.

(** The prefix of a sorted log that survives, as a cut. *)
Lemma upto_split q rs :
  valid_log rs -> exists k, upto q rs = take k rs /\ (k <= length rs)%nat /\
    Forall (fun r => cr_StreamSeq r <= q) (take k rs) /\
    (forall r, rs !! k = Some r -> q < cr_StreamSeq r).
Proof.
  intros (_ & HS & _). induction rs as [|r rs IH].
  - exists 0%nat. by split_and!.
  - cbn in HS. inversion HS as [|? ? HS' HF]; subst. unfold upto.
    destruct (decide (cr_StreamSeq r <= q)) as [Hle|Hgt].
    + destruct (IH HS') as (k & Hk & Hlen & Hall & Hnext). exists (S k).
      rewrite filter_cons_True by done. fold (upto q rs). rewrite Hk.
      split_and!; [done|cbn; lia|by constructor|done].
    + exists 0%nat. split_and!; [|lia|done|intros r' [= <-]; lia].
      apply filter_none. intros x Hx Hle. apply elem_of_cons in Hx as [->|Hx]; [done|].
      rewrite Forall_forall in HF. specialize (HF (cr_StreamSeq x)).
      assert (cr_StreamSeq r < cr_StreamSeq x) by (apply HF; by apply list_elem_of_fmap_2). lia.
Qed.

(** The loop stops right after the records up to [q]. *)
Lemma keep_loop_ok q rs : forall fuel rd rs' count first lastq off,
  Forall client_ok (rs ++ rs') -> rd_readable rd = encode_all (rs ++ rs') -> rd_fault rd = None ->
  Forall (fun r => cr_StreamSeq r <= q) rs -> (forall r, head rs' = Some r -> q < cr_StreamSeq r) ->
  (length rs < fuel)%nat -> 0 <= count ->
  keep_loop fuel rd q count first lastq off =
  (count + Z.of_nat (length rs),
   (if count =? 0 then match rs with r :: _ => cr_StreamSeq r | [] => first end else first),
   match last rs with Some r => cr_StreamSeq r | None => lastq end,
   off + Z.of_nat (length (encode_all rs))).
Proof.
  induction rs as [|r rs IH]; intros fuel rd rs' count first lastq off HF Hr Hf Hall Hnext Hfuel Hc;
    (destruct fuel as [|fuel]; [lia|]); cbn [keep_loop].
  - cbn. rewrite !Z.add_0_r.
    replace (if count =? 0 then first else first) with first by (by destruct (count =? 0)).
    destruct (DecodeClientRecord rd) as [rd' [r|e]] eqn:ED; [|done].
    destruct rs' as [|r' rs'].
    + apply client_decode_sound in ED as (Hok & HR & _). rewrite Hr in HR.
      assert (0 < length (client_bytes r))%nat as HP by exact (@sf_bytes_pos ClientRecord client_format r Hok).
      apply (f_equal length) in HR. rewrite length_app in HR. cbn in HR. lia.
    + cbn in Hr. apply Forall_cons in HF as [Hok _].
      rewrite (client_decode_encode _ _ _ Hok Hr) in ED. injection ED as _ <-.
      by rewrite (proj2 (Z.ltb_lt _ _)) by (by apply Hnext).
  - cbn [app] in HF, Hr. apply Forall_cons in HF as [Hok HF]. apply Forall_cons in Hall as [Hle Hall].
    rewrite encode_all_cons in Hr. rewrite (client_decode_encode _ _ _ Hok Hr).
    rewrite (proj2 (Z.ltb_ge _ _)) by done.
    rewrite (IH fuel _ rs'); try done; [| |cbn in Hfuel; lia|lia].
    2: { rewrite rd_readable_advance, Hr. apply drop_app_length. }
    rewrite encode_all_cons, length_app. cbn [length].
    assert (Z.of_nat (length (client_bytes r)) = ClientHeaderSize + Z.of_nat (length (cr_Payload r))) as HL
      by exact (@sf_bytes_length ClientRecord client_format r Hok).
    rewrite (proj2 (Z.eqb_neq (count + 1) 0)) by lia.
    change (sf_bytes r) with (client_bytes r).
    replace (count + 1 + Z.of_nat (length rs)) with (count + Z.of_nat (S (length rs))) by lia.
    replace (off + Z.of_nat (length (client_bytes r) + length (encode_all rs)))
      with (off + (ClientHeaderSize + Z.of_nat (length (cr_Payload r))) +
            Z.of_nat (length (encode_all rs))) by lia.
    destruct rs as [|x rs]; [done|]. rewrite (last_cons_cons r x).
    destruct (last (x :: rs)) eqn:E; [done|]. by apply last_None in E.
Qed.

Lemma valid_log_last rs r : valid_log rs -> last rs = Some r -> forall x, x ∈ rs -> cr_StreamSeq x <= cr_StreamSeq r.
Proof.
  intros HV Hl x Hx. apply last_Some in Hl as [rs' ->].
  apply elem_of_app in Hx as [Hx|Hx].
  - pose proof (valid_log_lt rs' [r] x r HV Hx (list_elem_of_here _ _)) as Hlt. cbn in Hlt. lia.
  - apply list_elem_of_singleton in Hx as ->. lia.
Qed.

Lemma valid_log_first rs x : valid_log rs -> x ∈ rs -> first_seq rs <= cr_StreamSeq x.
Proof.
  intros HV Hx. destruct rs as [|r rs]; [by apply not_elem_of_nil in Hx|]. cbn.
  apply elem_of_cons in Hx as [->|Hx]; [lia|].
  pose proof (valid_log_lt [r] rs r x HV (list_elem_of_here _ _) Hx) as Hlt. cbn in Hlt. lia.
Qed.

Lemma cut_file_ok w n f rs k :
  no_faults w -> w_dir w !! n = Some (EFile f) -> f_data f = segment_bytes rs ->
  exists w1 w', f_Truncate w n (segment_size (take k rs)) = (w1, Ok ()) /\
    sync_close w1 n = (w', Ok ()) /\ no_faults w' /\ holds w' n (take k rs) /\ fully_synced w' n /\
    (forall n', n' <> n -> w_dir w' !! n' = w_dir w !! n').
Proof.
  intros Hw Hf Hd.
  assert (f_data f = segment_bytes (take k rs) ++ encode_all (drop k rs)) as Hd'.
  { rewrite Hd. unfold segment_bytes. by rewrite <- app_assoc, <- encode_all_app, take_drop. }
  assert (Z.to_nat (segment_size (take k rs)) = length (segment_bytes (take k rs))) as Hsz
    by (rewrite segment_bytes_length; unfold segment_size; lia).
  eexists _, _. split; [apply (f_Truncate_ok _ _ _ _ Hw Hf)|].
  rewrite Hsz, Hd', resize_app. unfold sync_close.
  erewrite f_Sync_ok; [|done|apply lookup_insert_eq]. rewrite f_Close_ok by done.
  split; [done|]. cbn [set_dir w_dir f_data]. rewrite insert_insert_eq. split_and!; [done|..].
  - eexists. split; [apply lookup_insert_eq|]. done.
  - eexists. split; [apply lookup_insert_eq|]. done.
  - intros n' Hn'. cbn. by rewrite lookup_insert_ne.
Qed.

(** One segment: deleted, kept or cut, depending on where [q] falls. *)
Lemma truncate_segment_ok w accept q n m rs :
  no_faults w -> rs <> [] -> valid_log rs -> m = seg_meta (sm_ptr m) n rs ->
  holds w n rs -> fully_synced w n ->
  exists w', truncate_segment w accept q m =
      (w', match upto q rs with [] => [] | _ => [seg_meta (sm_ptr m) n (upto q rs)] end, 0%nat) /\
    no_faults w' /\ settled w' (n, upto q rs) /\
    (forall n', n' <> n -> w_dir w' !! n' = w_dir w !! n').
Proof.
  intros Hw Hne HV Hm Hh Hy. pose proof Hh as (f & Hf & Hd & _). unfold truncate_segment.
  assert (sm_Path m = n /\ sm_FirstSeq m = first_seq rs /\ sm_LastSeq m = last_seq rs) as (-> & -> & ->)
    by (by rewrite Hm).
  destruct (q <? first_seq rs) eqn:E1; zify_bool.
  { assert (upto q rs = []) as ->.
    { apply filter_none. intros x Hx. pose proof (valid_log_first rs x HV Hx). lia. }
    rewrite (os_Remove_ok _ _ _ Hw Hf). eexists. split_and!; [done..| |].
    - apply lookup_delete_eq.
    - intros n' Hn'. cbn. by rewrite lookup_delete_ne. }
  destruct (last rs) as [rl|] eqn:El; [|by apply last_None in El].
  assert (last_seq rs = cr_StreamSeq rl) as Hls by (unfold last_seq; by rewrite El).
  destruct (last_seq rs <=? q) eqn:E2; zify_bool.
  { assert (upto q rs = rs) as ->.
    { apply filter_all. intros x Hx. pose proof (valid_log_last rs rl HV El x Hx). lia. }
    exists w. rewrite Hm at 1. destruct rs; [done|]. by split_and!. }
  destruct (upto_split q rs HV) as (k & Hk & Hkl & Hall & Hnext).
  assert (take k rs <> []) as Hkne.
  { rewrite <- Hk. destruct rs as [|r rs]; [done|]. unfold upto. by rewrite filter_cons_True by done. }
  rewrite (os_Open_ok _ _ _ Hw Hf), Hd. unfold segment_bytes.
  pose proof (ReadSegmentHeader_default (encode_all rs) accept) as HH. cbv zeta in HH. rewrite HH.
  rewrite (keep_loop_ok q (take k rs) _ _ (drop k rs)); try done.
  2: { rewrite take_drop. apply HV. }
  2: { rewrite take_drop. apply readable_body. }
  2: { intros r Hr. apply Hnext. by rewrite head_lookup, lookup_drop, Nat.add_0_r in Hr. }
  2: { unfold scan_fuel. rewrite readable_body. destruct HV as [HV _].
       pose proof (encode_all_length_ge rs HV). rewrite length_take. lia. }
  rewrite Hk. destruct (take k rs) as [|r0 rs0] eqn:Et; [done|]. cbn [Z.add length].
  change (0 + Z.of_nat (S (length rs0)) =? 0) with false. cbn iota.
  rewrite <- Et. fold (segment_size (take k rs)).
  destruct (cut_file_ok w n f rs k Hw Hf Hd) as (w1 & w' & -> & -> & Hw' & Hh' & Hy' & Hfr).
  exists w'. split_and!; [|done| |done].
  - f_equal. rewrite Et. done.
  - unfold settled. rewrite Et in *. done.
Qed.

Definition truncated (prefix : bytes) (q : Z) (parts : list (list ClientRecord)) :=
  (fun rs => (part_name prefix rs, upto q rs)) <$> parts.

Lemma truncate_segments_ok accept q prefix metas parts :
  Forall2 (fun m rs => m = seg_meta (sm_ptr m) (part_name prefix rs) rs) metas parts ->
  forall w, no_faults w -> NoDup (part_name prefix <$> parts) ->
  Forall (fun rs => rs <> [] /\ valid_log rs /\ holds w (part_name prefix rs) rs /\
                    fully_synced w (part_name prefix rs)) parts ->
  exists w' kept, truncate_segments w accept q metas = (w', kept, 0%nat) /\ no_faults w' /\
    Forall2 meta_of kept (filter (fun e => nonempty e = true) (truncated prefix q parts)) /\
    sublist (sm_ptr <$> kept) (sm_ptr <$> metas) /\
    Forall (settled w') (truncated prefix q parts) /\
    (forall n, n ∉ part_name prefix <$> parts -> w_dir w' !! n = w_dir w !! n).
Proof.
  induction 1 as [|m rs metas parts Hm HM IH]; intros w Hw HN HF.
  - exists w, []. by split_and!.
  - cbn in HN. apply NoDup_cons in HN as [Hnin HN].
    apply Forall_cons in HF as [(Hne & HV & Hh & Hy) HF].
    destruct (truncate_segment_ok w accept q _ m rs Hw Hne HV Hm Hh Hy) as (w1 & HT & Hw1 & HS & Hfr).
    destruct (IH w1 Hw1 HN) as (w' & kept & HT' & Hw' & HM' & HP' & HS' & Hfr').
    { rewrite Forall_forall in HF |- *. intros x Hx. destruct (HF x Hx) as (? & ? & ? & ?).
      assert (part_name prefix x <> part_name prefix rs)
        by (intros E; apply Hnin; rewrite <- E; by apply list_elem_of_fmap_2).
      split_and!; [done..| |]; [apply (holds_frame w)|apply (fully_synced_frame w)]; auto. }
    cbn [truncate_segments]. rewrite HT, HT'.
    assert (Hset : settled w' (part_name prefix rs, upto q rs))
      by (apply (settled_frame w1); [by apply Hfr'|done]).
    assert (Hfr2 : forall n, n ∉ part_name prefix <$> rs :: parts -> w_dir w' !! n = w_dir w !! n).
    { intros n Hn. cbn in Hn. apply not_elem_of_cons in Hn as [Hn1 Hn2]. by rewrite Hfr', Hfr. }
    eexists w', _. split; [done|]. cbn [truncated fmap list_fmap].
    destruct (upto q rs) as [|r0 rs0] eqn:Eu.
    + rewrite filter_cons_False by done. split_and!; try done; [by apply sublist_cons|by constructor].
    + rewrite filter_cons_True by done. split_and!; try done.
      * by constructor.
      * by apply sublist_skip.
      * by constructor.
Qed.

Lemma concat_upto q (parts : list (list ClientRecord)) : concat (upto q <$> parts) = upto q (concat parts).
Proof.
  induction parts as [|rs parts IH]; [done|]. cbn [concat fmap list_fmap]. unfold upto at 3.
  rewrite filter_app. by rewrite IH.
Qed.

Lemma parts_valid {R} `{SegmentFormat R} (parts : list (list R)) (rs : list R) :
  valid_log (concat parts) -> rs ∈ parts -> valid_log rs.
Proof.
  intros HV Hrs. apply list_elem_of_split in Hrs as (l1 & l2 & ->).
  rewrite concat_app in HV. apply valid_log_app in HV as [_ HV].
  by apply valid_log_app in HV as [? _].
Qed.

(** With no active file, all files are complete and synced. *)
Lemma inactive_parts {R} `{SegmentFormat R} w s (parts : list (list R)) d :
  store_inv w s parts d -> st_activeFile s = None ->
  Forall (fun rs : list R =>
    rs <> [] /\ valid_log rs /\ holds w (part_name (st_filePrefix s) rs) rs /\
    fully_synced w (part_name (st_filePrefix s) rs)) parts.
Proof.
  intros HI Hact. pose proof HI as [HV HN HM HP HX HF HD HA HSi HSl HDu].
  assert (Forall (fun rs : list R => fully_synced w (part_name (st_filePrefix s) rs)) parts) as HY.
  { destruct parts as [|rs init _] using rev_ind; [done|]. apply Forall_app. split.
    - by apply (HSi _ _ eq_refl).
    - constructor; [|done]. by apply (HSl _ _ eq_refl). }
  rewrite Forall_forall in HN, HF, HY |- *. intros rs Hrs. split_and!; auto.
  by apply (parts_valid parts).
Qed.

Lemma truncate_inactive w s (parts : list (list ClientRecord)) d q :
  store_inv w s parts d -> no_faults w -> st_activeFile s = None ->
  exists w' kept parts', truncate_segments w (st_acceptUnversioned s) q (st_segments s) =
      (w', kept, 0%nat) /\ no_faults w' /\ concat parts' = upto q (concat parts) /\
    store_inv w' (with_segments s kept) parts' (length (concat parts')).
Proof.
  intros HI Hw Hact. pose proof HI as [HV HN HM HP HX HF HD HA HSi HSl HDu].
  destruct (truncate_segments_ok (st_acceptUnversioned s) q _ _ _ HM w Hw) as
    (w' & kept & HT & Hw' & HM' & HP' & HS' & Hfr).
  { apply sorted_lt_NoDup, part_names_sorted; done. }
  { by apply (inactive_parts w s parts d). }
  set (fs := truncated (st_filePrefix s) q parts) in *.
  assert (F2 : snd <$> fs = upto q <$> parts) by (unfold fs, truncated; by rewrite <- list_fmap_compose).
  assert (F1 : fst <$> fs = part_name (st_filePrefix s) <$> parts)
    by (unfold fs, truncated; by rewrite <- list_fmap_compose).
  assert (HC : concat (snd <$> filter (fun e => nonempty e = true) fs) = upto q (concat parts))
    by (by rewrite concat_nonempty, F2, concat_upto).
  exists w', kept, (snd <$> filter (fun e => nonempty e = true) fs).
  split_and!; [done..|]. apply (settled_inv w' (with_segments s kept) (st_filePrefix s)); try done.
  - eapply sublist_NoDup; [exact HP|done].
  - apply Forall_forall. intros m Hm. apply (list_elem_of_fmap_2 sm_ptr) in Hm.
    apply (elem_of_sublist _ _ _ Hm) in HP'. apply list_elem_of_fmap in HP' as (m' & Em & Hm').
    rewrite Forall_forall in HX. rewrite Em. by apply HX.
  - rewrite HC. destruct (upto_split q _ HV) as (k & -> & _). by apply valid_log_take.
  - apply Forall_forall. intros e He. unfold fs, truncated in He.
    apply list_elem_of_fmap in He as (rs & -> & Hrs). cbn. intros Hne.
    destruct (upto_split q rs (parts_valid _ _ HV Hrs)) as (k & Hk & _). rewrite Hk in *.
    by rewrite part_name_take.
  - intros n e Hn Hwn. rewrite F1.
    destruct (decide (n ∈ part_name (st_filePrefix s) <$> parts)) as [|Hni]; [done|].
    rewrite Hfr in Hn by done. by apply (HD n e).
Qed.

(** C20: [TruncateAfter] rolls the client's log back.  On a store holding a log
    it succeeds, and afterwards the store and its files hold exactly the
    records with [StreamSeq <= maxSeq], in order and on stable storage; no
    segment is active, so the next append starts a new file. *)
Theorem truncate_after_rolls_back w s (parts : list (list ClientRecord)) d q :
  store_inv w s parts d -> no_faults w ->
  exists w' s' parts', ClientSegmentStore_TruncateAfter w s q = (w', s', Ok ()) /\
    no_faults w' /\ st_activeFile s' = None /\
    concat parts' = filter (fun r => cr_StreamSeq r <= q) (concat parts) /\
    store_inv w' s' parts' (length (concat parts')).
Proof.
  intros HI Hw. unfold ClientSegmentStore_TruncateAfter.
  destruct (st_activeFile s) as [p|] eqn:Hp.
  - destruct (sync_close_inv _ _ _ _ _ None HI Hw Hp) as (w0 & -> & Hw0 & HI0).
    destruct (truncate_inactive _ _ _ _ q HI0 Hw0 eq_refl) as (w' & kept & parts' & HT & Hw' & HC & HI').
    cbn [with_active st_segments st_acceptUnversioned] in *. rewrite HT.
    by eexists _, _, parts'.
  - destruct (truncate_inactive _ _ _ _ q HI Hw Hp) as (w' & kept & parts' & HT & Hw' & HC & HI').
    rewrite HT. eexists _, _, parts'. by split_and!.
Qed.

Lemma truncate_after_rolls_back_witness :
  exists w s w' s', ClientSegmentStore_TruncateAfter w s 1 = (w', s', Ok ()) /\
    exists parts', concat parts' = [sample_record 1] /\ store_inv w' s' parts' (length (concat parts')).
Proof.
  destruct (fresh_refines (go "stream") sample_dir (go "stream") 100 sample_opt client_ok_inhabited
              eq_refl ltac:(done) eq_refl (no_segments_empty _ _ _)) as (w0 & s0 & _ & _ & HR).
  destruct (refines_append _ _ _ (sample_record 1) HR) as (w1 & s1 & _ & HR1); [valid_log_compute|].
  destruct (refines_append _ _ _ (sample_record 2) HR1)
    as (w2 & s2 & _ & Hw & _ & _ & parts & HI & HC); [valid_log_compute|].
  destruct (truncate_after_rolls_back w2 s2 parts _ 1 HI Hw) as (w' & s' & parts' & HT & _ & _ & HC' & HI').
  exists w2, s2, w', s'. split; [done|]. exists parts'. split; [|done].
  rewrite HC', HC. vm_compute. reflexivity.
Defined.
