(* ===== verification/WalPaths.v ===== *)
(** * WalPaths: file names and object keys of the WAL

    The path functions of [pkg/wal/segment.go]: [ParseSegmentPath],
    [ParseStreamPath], [FormatStreamFileName] and [FormatStreamObjectKey], with
    the parts of [strings] and [path/filepath] they use.  Names are read back
    to the numbers they were formatted from, and they sort as the numbers do. *)

From S2P Require Import Prelude Bytes WalRecord FileSys WalSegment WalStore.

#[local] Open Scope Z_scope.
#[local] Open Scope list_scope.

Definition slash : byte := x2f.

(** [strings.Index]. *)
Fixpoint str_index (sub s : bytes) : option nat :=
  if has_prefix sub s then Some 0%nat
  else match s with
       | [] => None
       | _ :: s' => S <$> str_index sub s'
       end.

(** [strings.Contains]. *)
Definition str_contains (s sub : bytes) : bool :=
  match str_index sub s with Some _ => true | None => false end.

(** [strings.Split] for a non-empty separator; each round consumes it. *)
Fixpoint str_split_go (fuel : nat) (s sep : bytes) : list bytes :=
  match fuel with
  | O => [s]
  | S k =>
    match str_index sep s with
    | None => [s]
    | Some i => take i s :: str_split_go k (drop (i + length sep) s) sep
    end
  end.
Definition str_split (s sep : bytes) : list bytes := str_split_go (S (length s)) s sep.

(** The elements of [l] before the first one equal to [b]. *)
Fixpoint until (b : byte) (l : bytes) : bytes :=
  match l with
  | [] => []
  | x :: l => if decide (x = b) then [] else x :: until b l
  end.

Fixpoint skip (b : byte) (l : bytes) : bytes :=
  match l with
  | x :: l' => if decide (x = b) then skip b l' else l
  | [] => []
  end.

(** [filepath.Base] on a slash-separated path. *)
Definition filepath_base (p : bytes) : bytes :=
  match p with
  | [] => go "."
  | _ :: _ =>
    match reverse (until slash (skip slash (reverse p))) with
    | [] => go "/"
    | b => b
    end
  end.

Inductive path_error : Type :=
| ErrInvalidFilename
| ErrInvalidFirst
| ErrInvalidLast
| ErrReservedPrefix
| ErrInvalidExtension
| ErrInvalidFormat.

Definition ParseSegmentPath (p : bytes) : result path_error (Z * Z) :=
  let base := trim_suffix (go ".wal") (filepath_base p) in
  match str_split base (go "-") with
  | [a; b] =>
    match parse_uint a with
    | None => Err ErrInvalidFirst
    | Some firstPos =>
      match parse_uint b with
      | None => Err ErrInvalidLast
      | Some lastPos => Ok (firstPos, lastPos)
      end
    end
  | _ => Err ErrInvalidFilename
  end.

Definition ParseStreamPath (p : bytes) : result path_error (Z * Z * bool) :=
  let clean := trim_prefix (go "/") (trim_prefix (go "./") p) in
  if has_prefix (go "streams/wal/") clean || bool_decide (clean = go "streams/wal")
  then Err ErrReservedPrefix
  else
  let base := filepath_base p in
  if negb (has_suffix (go ".wal") base) then Err ErrInvalidExtension
  else
  let stem := trim_suffix (go ".wal") base in
  let stem := match str_index (go "from") stem with Some i => drop i stem | None => stem end in
  if negb (has_prefix (go "from") stem) then Err ErrInvalidFormat
  else
  let stem := trim_prefix (go "from") stem in
  if str_contains stem (go "-to") then
    match str_split stem (go "-to") with
    | [a; b] =>
      match parse_uint a with
      | None => Err ErrInvalidFirst
      | Some from =>
        match parse_uint b with
        | None => Err ErrInvalidLast
        | Some to => Ok (from, to, true)
        end
      end
    | _ => Err ErrInvalidFormat
    end
  else
  match parse_uint stem with
  | None => Err ErrInvalidFirst
  | Some from => Ok (from, 0, false)
  end.

Definition FormatStreamFileName (fromSeq toSeq : Z) (isSealed : bool) : bytes :=
  if isSealed
  then go "from" ++ fmt_pad 20 fromSeq ++ go "-to" ++ fmt_pad 20 toSeq ++ go ".wal"
  else go "from" ++ fmt_pad 20 fromSeq ++ go ".wal".

(** [id] is [streamID.String()] of the uuid package. *)
Definition FormatStreamObjectKey (id : bytes) (fromSeq toSeq : Z) : bytes :=
  go "streams/" ++ id ++ go "/from" ++ fmt_pad 20 fromSeq ++ go "-to" ++ fmt_pad 20 toSeq ++ go ".wal".

(** ** Splitting *)

Lemma str_index_app sub c s l :
  Forall (fun b => b <> c) l -> str_index (c :: sub) (l ++ (c :: sub) ++ s) = Some (length l).
Proof.
  induction 1 as [|b l Hb HF IH].
  - cbn [app length]. change (c :: sub ++ s) with ((c :: sub) ++ s).
    unfold str_index; cbn [app]. destruct s; rewrite ?(has_prefix_app (c :: sub) (_ :: _)).
    + change (c :: sub ++ []) with ((c :: sub) ++ []). by rewrite has_prefix_app.
    + change (c :: sub ++ b :: s) with ((c :: sub) ++ b :: s). by rewrite has_prefix_app.
  - cbn [app str_index has_prefix]. rewrite bool_decide_eq_false_2 by congruence.
    cbn [andb]. cbn [app] in IH. by rewrite IH.
Qed.

Lemma str_index_none sub c l :
  Forall (fun b => b <> c) l -> str_index (c :: sub) l = None.
Proof.
  induction 1 as [|b l Hb HF IH]; [done|].
  cbn [str_index has_prefix]. rewrite bool_decide_eq_false_2 by congruence. cbn [andb].
  by rewrite IH.
Qed.

Lemma str_split_two sub c a b :
  Forall (fun x => x <> c) a -> Forall (fun x => x <> c) b ->
  str_split (a ++ (c :: sub) ++ b) (c :: sub) = [a; b].
Proof.
  intros Ha Hb. unfold str_split. cbn [str_split_go].
  rewrite str_index_app by done. rewrite take_app_length.
  rewrite <- drop_drop, drop_app_length, drop_app_length.
  rewrite !length_app. cbn [length Nat.add]. rewrite Nat.add_comm. cbn [Nat.add str_split_go].
  by rewrite str_index_none.
Qed.

(** ** Base names *)

Lemma until_app c l rest : Forall (fun b => b <> c) l -> until c (l ++ c :: rest) = l.
Proof.
  induction 1 as [|b l Hb HF IH]; cbn; [by rewrite decide_True|].
  by rewrite decide_False, IH.
Qed.

Lemma Forall_reverse_ne (c : byte) l :
  Forall (fun b => b <> c) l -> Forall (fun b => b <> c) (reverse l).
Proof. rewrite !Forall_forall. intros HF x Hx. apply HF. by rewrite <- elem_of_reverse. Qed.

Lemma filepath_base_app d name :
  name <> [] -> Forall (fun b => b <> slash) name -> filepath_base (d ++ slash :: name) = name.
Proof.
  intros Hne HF. unfold filepath_base.
  destruct (d ++ slash :: name) as [|b p] eqn:E; [by destruct d|]. rewrite <- E.
  rewrite reverse_app, reverse_cons, <- app_assoc. cbn [app].
  apply Forall_reverse_ne in HF as HR.
  assert (skip slash (reverse name ++ slash :: reverse d) = reverse name ++ slash :: reverse d) as ->.
  { destruct (reverse name) as [|x r] eqn:Er.
    - apply (f_equal reverse) in Er. rewrite reverse_involutive in Er. by subst.
    - cbn. apply Forall_cons in HR as [Hx _]. by rewrite decide_False. }
  rewrite until_app by done. rewrite reverse_involutive. by destruct name.
Qed.

Lemma until_all c l : Forall (fun b => b <> c) l -> until c l = l.
Proof. induction 1 as [|b l Hb HF IH]; cbn; [done|]. by rewrite decide_False, IH. Qed.

Lemma filepath_base_name name :
  name <> [] -> Forall (fun b => b <> slash) name -> filepath_base name = name.
Proof.
  intros Hne HF. unfold filepath_base. destruct name as [|b p] eqn:E; [done|]. rewrite <- E in *.
  apply Forall_reverse_ne in HF as HR.
  assert (skip slash (reverse name) = reverse name) as ->.
  { destruct (reverse name) as [|x r]; [done|]. cbn. apply Forall_cons in HR as [Hx _].
    by rewrite decide_False. }
  rewrite until_all, reverse_involutive by done. by subst.
Qed.

Lemma app_slash_inj (a b r k : bytes) :
  Forall (fun x => x <> slash) a -> Forall (fun x => x <> slash) b ->
  a ++ slash :: r = b ++ slash :: k -> a = b.
Proof.
  intros Ha Hb E. by rewrite <- (until_app slash a r Ha), E, until_app.
Qed.

Lemma digits_ne w z c : byte_digit c = None -> Forall (fun b => b <> c) (fmt_pad w z).
Proof.
  intros Hc. eapply Forall_impl; [apply fmt_pad_digits|]. intros b Hb ->.
  unfold byte_digit in Hc. by rewrite (proj2 (Z.leb_le 48 _)), (proj2 (Z.leb_le _ 57)) in Hc by lia.
Qed.

Lemma FormatStreamFileName_no_slash f t sealed :
  Forall (fun b => b <> slash) (FormatStreamFileName f t sealed).
Proof.
  assert (forall w z, Forall (fun b => b <> slash) (fmt_pad w z)) as HD
    by (intros; by apply digits_ne).
  unfold FormatStreamFileName. destruct sealed; repeat (apply Forall_app; split); try apply HD;
    repeat constructor; done.
Qed.

(** What [ParseStreamPath] makes of a formatted base name. *)
Lemma stream_stem f t sealed :
  let base := FormatStreamFileName f t sealed in
  has_suffix (go ".wal") base = true /\
  trim_suffix (go ".wal") base =
    go "from" ++ fmt_pad 20 f ++ (if sealed then go "-to" ++ fmt_pad 20 t else []).
Proof.
  cbv zeta. unfold FormatStreamFileName. destruct sealed.
  - rewrite !app_assoc. rewrite has_suffix_app, trim_suffix_app. split; [done|].
    by rewrite <- !app_assoc.
  - rewrite !app_assoc. rewrite has_suffix_app, trim_suffix_app. by rewrite app_nil_r.
Qed.

Lemma str_index_self sub s : str_index sub (sub ++ s) = Some 0%nat.
Proof. destruct (sub ++ s) eqn:E; unfold str_index; rewrite <- E, has_prefix_app; done. Qed.

(** A path outside the reserved prefix parses by its base name. *)
Lemma ParseStreamPath_base p f t sealed :
  is_u64 f -> is_u64 t -> filepath_base p = FormatStreamFileName f t sealed ->
  (let clean := trim_prefix (go "/") (trim_prefix (go "./") p) in
   has_prefix (go "streams/wal/") clean = false /\ clean <> go "streams/wal") ->
  ParseStreamPath p = Ok (f, if sealed then t else 0, sealed).
Proof.
  intros Hf Ht Hb [HP HE]. unfold ParseStreamPath. rewrite HP, bool_decide_eq_false_2, Hb by done.
  cbn [orb].
  destruct (stream_stem f t sealed) as [-> ->]. cbn [negb].
  rewrite str_index_self, drop_0, has_prefix_app, trim_prefix_app. cbn [negb].
  assert (HD : forall z, Forall (fun b => b <> x2d) (fmt_pad 20 z))
    by (intros; by apply digits_ne).
  unfold str_contains. destruct sealed.
  - change (go "-to") with (x2d :: go "to").
    rewrite str_index_app, str_split_two by done. by rewrite !parse_fmt_pad.
  - rewrite app_nil_r. change (go "-to") with (x2d :: go "to").
    rewrite str_index_none by done. by rewrite parse_fmt_pad.
Qed.

Lemma ParseStreamPath_name f t sealed :
  is_u64 f -> is_u64 t ->
  ParseStreamPath (FormatStreamFileName f t sealed) = Ok (f, if sealed then t else 0, sealed).
Proof.
  intros Hf Ht. apply ParseStreamPath_base; [done..| |].
  - apply filepath_base_name; [by destruct sealed|apply FormatStreamFileName_no_slash].
  - destruct sealed; cbv zeta; split; done.
Qed.

Lemma stream_path_parse id f t sealed :
  is_u64 f -> is_u64 t -> Forall (fun b => b <> slash) id -> id <> go "wal" ->
  ParseStreamPath (go "streams/" ++ id ++ go "/" ++ FormatStreamFileName f t sealed) =
    Ok (f, if sealed then t else 0, sealed).
Proof.
  intros Hf Ht Hid Hwal.
  set (p := go "streams/" ++ id ++ go "/" ++ FormatStreamFileName f t sealed).
  apply ParseStreamPath_base; [done..| |].
  { unfold p. rewrite (app_assoc (go "streams/")). apply filepath_base_app.
    - by destruct sealed.
    - apply FormatStreamFileName_no_slash. }
  change (trim_prefix (go "/") (trim_prefix (go "./") p)) with p. cbv zeta. split.
  - apply not_true_iff_false. rewrite has_prefix_spec. intros [k Hk]. unfold p in Hk.
    change (go "streams/wal/") with (go "streams/" ++ go "wal/") in Hk.
    rewrite <- app_assoc in Hk. apply app_inv_head in Hk.
    apply Hwal, (app_slash_inj id (go "wal") (FormatStreamFileName f t sealed) k); try done.
    repeat constructor; done.
  - intros E. apply (f_equal length) in E. unfold p, FormatStreamFileName in E.
    assert (length (fmt_pad 20 f) = 20%nat) as HL.
    { apply length_fmt_pad; [lia|]. unfold is_u64 in Hf. split; [lia|].
      eapply Z.lt_trans; [apply Hf|done]. }
    destruct sealed; rewrite !length_app, HL in E; cbn in E; lia.
Qed.

(** Per-stream file names read back.  For every stream id without a slash
    other than the reserved ["wal"], parsing ["streams/<id>/" ++ name] of a
    formatted file name, open or sealed, returns the sequence numbers it was
    formatted from, for all [uint64] values. *)
Theorem stream_path_roundtrip id f t sealed :
  is_u64 f -> is_u64 t -> Forall (fun b => b <> slash) id -> id <> go "wal" ->
  ParseStreamPath (go "streams/" ++ id ++ go "/" ++ FormatStreamFileName f t sealed) =
    Ok (f, if sealed then t else 0, sealed) /\
  ParseStreamPath (FormatStreamObjectKey id f t) = Ok (f, t, true).
Proof. intros. split; [by apply stream_path_parse|]. by apply (stream_path_parse id f t true). Qed.

Lemma stream_path_roundtrip_witness :
  ParseStreamPath (FormatStreamObjectKey (go "0a1b") 3 18446744073709551615) =
  Ok (3, 18446744073709551615, true).
Proof.
  apply (stream_path_roundtrip (go "0a1b") 3 18446744073709551615 true); [done..| |done].
  repeat constructor; done.
Defined.

(** File names sort as the sequence numbers they carry, which recovery and
    replay rely on.  Per-stream names (20 digits) do so for every [uint64];
    segment names (19 digits) do so below [10^19], and no further: the segment
    that starts at [10^19] sorts before the one that starts just below it. *)
Theorem file_names_sort :
  (forall f t f' t', is_u64 f -> is_u64 f' -> f < f' ->
     bytes_lt (FormatStreamFileName f t true) (FormatStreamFileName f' t' true)) /\
  (forall prefix x y, 0 <= x < 10 ^ 19 -> 0 <= y < 10 ^ 19 -> x < y ->
     bytes_lt (segmentFilename prefix x) (segmentFilename prefix y)) /\
  (forall prefix, bytes_lt (segmentFilename prefix (10 ^ 19)) (segmentFilename prefix (10 ^ 19 - 1))).
Proof.
  split_and!.
  - intros f t f' t' Hf Hf' Hlt. unfold bytes_lt, FormatStreamFileName.
    assert (forall z, is_u64 z -> 0 <= z < 10 ^ Z.of_nat 20) as HU.
    { intros z Hz. unfold is_u64 in Hz. split; [lia|]. eapply Z.lt_trans; [apply Hz|done]. }
    rewrite bytes_compare_prefix, bytes_compare_app by (rewrite !length_fmt_pad; auto; lia).
    rewrite fmt_pad_compare by (auto; lia). by rewrite (proj2 (Z.compare_lt_iff _ _) Hlt).
  - intros prefix x y Hx Hy Hlt. unfold bytes_lt.
    rewrite segmentFilename_compare by done. by apply Z.compare_lt_iff.
  - intros prefix. unfold bytes_lt, segmentFilename. rewrite bytes_compare_prefix.
    vm_compute. reflexivity.
Qed.
