(* ===== verification/Sha256.v ===== *)
(** * Sha256: the digest of [crypto/sha256]

    FIPS 180-4 SHA-256 on byte strings, used for schema fingerprints and for
    content addresses.  Words are [Z] below [2^32]. *)

From S2P Require Import Prelude Bytes.

#[local] Open Scope Z_scope.
#[local] Open Scope list_scope.

(** The constants are fractional parts of roots of the first primes: the cube
    roots of 64 of them for the rounds, the square roots of eight for the
    initial state, 32 bits each. *)
Definition is_prime (n : nat) : bool :=
  forallb (fun d => negb (Nat.eqb (n mod d) 0)) (seq 2 (n - 2)).

Definition primes (n : nat) : list Z := Z.of_nat <$> take n (List.filter is_prime (seq 2 400)).

(** The largest [r < 2^k + acc] with [r^3 <= x], found from the top bit down. *)
Fixpoint cbrt_bits (k : nat) (x acc : Z) : Z :=
  match k with
  | O => acc
  | S k =>
    let t := acc + 2 ^ Z.of_nat k in
    cbrt_bits k x (if t * t * t <=? x then t else acc)
  end.

Definition sha_k : list Z :=
  Eval vm_compute in ((fun p => u32 (cbrt_bits 36 (p * 2 ^ 96) 0)) <$> primes 64).

Definition sha_init : list Z :=
  Eval vm_compute in ((fun p => u32 (Z.sqrt (p * 2 ^ 64))) <$> primes 8).

Definition rotr (n x : Z) : Z := Z.lor (Z.shiftr x n) (u32 (Z.shiftl x (32 - n))).
Definition not32 (x : Z) : Z := u32_max - x.

Definition big_sigma0 x := Z.lxor (Z.lxor (rotr 2 x) (rotr 13 x)) (rotr 22 x).
Definition big_sigma1 x := Z.lxor (Z.lxor (rotr 6 x) (rotr 11 x)) (rotr 25 x).
Definition small_sigma0 x := Z.lxor (Z.lxor (rotr 7 x) (rotr 18 x)) (Z.shiftr x 3).
Definition small_sigma1 x := Z.lxor (Z.lxor (rotr 17 x) (rotr 19 x)) (Z.shiftr x 10).
Definition sha_ch x y z := Z.lxor (Z.land x y) (Z.land (not32 x) z).
Definition sha_maj x y z := Z.lxor (Z.lxor (Z.land x y) (Z.land x z)) (Z.land y z).

(** The message schedule, newest word first: [n] more words. *)
Fixpoint sha_extend (n : nat) (ws : list Z) : list Z :=
  match n with
  | O => ws
  | S k =>
    let g i := nth i ws 0 in
    sha_extend k (u32 (small_sigma1 (g 1%nat) + g 6%nat + small_sigma0 (g 14%nat) + g 15%nat) :: ws)
  end.

Fixpoint words_of (n : nat) (b : bytes) : list Z :=
  match n with O => [] | S k => be_decode (take 4 b) :: words_of k (drop 4 b) end.

Definition sha_round (st : list Z) (kw : Z * Z) : list Z :=
  match st with
  | [a; b; c; d; e; f; g; h] =>
    let t1 := h + big_sigma1 e + sha_ch e f g + fst kw + snd kw in
    let t2 := big_sigma0 a + sha_maj a b c in
    [u32 (t1 + t2); a; b; c; u32 (d + t1); e; f; g]
  | _ => st
  end.

Definition sha_block (st : list Z) (block : bytes) : list Z :=
  let ws := reverse (sha_extend 48 (reverse (words_of 16 block))) in
  zip_with (fun x y => u32 (x + y)) st (foldl sha_round st (zip sha_k ws)).

Fixpoint sha_blocks (n : nat) (st : list Z) (b : bytes) : list Z :=
  match n with O => st | S k => sha_blocks k (sha_block st (take 64 b)) (drop 64 b) end.

Definition sha_pad (m : bytes) : bytes :=
  let l := length m in
  m ++ [x80] ++ replicate (Z.to_nat ((55 - Z.of_nat l) mod 64)) x00 ++ be_encode 8 (8 * Z.of_nat l).

(** [sha256.Sum256]. *)
Definition sha256 (m : bytes) : bytes :=
  let p := sha_pad m in
  concat (be_encode 4 <$> sha_blocks (length p / 64) sha_init p).

(** The standard's test vectors. *)
Example sha256_abc :
  be_decode (sha256 (go "abc")) = 0xba7816bf8f01cfea414140de5dae2223b00361a396177a9cb410ff61f20015ad.
Proof. vm_compute. reflexivity. Qed.

Example sha256_two_blocks :
  be_decode (sha256 (go "abcdbcdecdefdefgefghfghighijhijkijkljklmklmnlmnomnopnopq")) =
  0x248d6a61d20638b8e5c026930c3e6039a33ce45964ff2167f6ecedd419db06c1.
Proof. vm_compute. reflexivity. Qed.

Lemma sha_round_length st kw : length st = 8%nat -> length (sha_round st kw) = 8%nat.
Proof. unfold sha_round. do 8 (destruct st as [|? st]; [done|]). by destruct st. Qed.

Lemma sha_extend_length n : forall ws, length (sha_extend n ws) = (n + length ws)%nat.
Proof. induction n as [|n IH]; intros ws; [done|]. cbn [sha_extend]. rewrite IH. cbn. lia. Qed.

Lemma sha_rounds_length l : forall st, length st = 8%nat -> length (foldl sha_round st l) = 8%nat.
Proof. induction l as [|kw l IH]; intros st Hst; [done|]. cbn. by apply IH, sha_round_length. Qed.

Lemma sha_block_length st b : length st = 8%nat -> length (sha_block st b) = 8%nat.
Proof. intros H. unfold sha_block. rewrite length_zip_with, sha_rounds_length; lia. Qed.

Lemma sha_blocks_length n : forall st b, length st = 8%nat -> length (sha_blocks n st b) = 8%nat.
Proof. induction n as [|n IH]; intros st b H; [done|]. cbn. by apply IH, sha_block_length. Qed.

(** A digest has 32 bytes. *)
Lemma sha256_length m : length (sha256 m) = 32%nat.
Proof.
  unfold sha256. set (l := sha_blocks _ _ _).
  assert (length l = 8%nat) as HL by (by apply sha_blocks_length).
  clearbody l. do 8 (destruct l as [|? l]; [done|]). destruct l; [|done].
  cbn [fmap list_fmap concat]. rewrite !length_app, !length_be_encode. done.
Qed.
