(* ===== verification/SdsFrame.v ===== *)
(** * SdsFrame: framing of structured data streams

    [pkg/sds/record/frame.go]: a payload is the varint of a type id followed by
    the body; ids 0 and 7..15 are refused on both sides. *)

From S2P Require Import Prelude Bytes.

#[local] Open Scope Z_scope.
#[local] Open Scope list_scope.

Definition TypeIDInvalid : Z := 0.
Definition TypeIDTypeDefinition : Z := 1.
Definition TypeIDTxCommit : Z := 2.
Definition TypeIDSnapshotPointer : Z := 3.
Definition TypeIDPadding : Z := 4.
Definition TypeIDOpRecord : Z := 5.
Definition TypeIDStreamHeader : Z := 6.
Definition MinReservedTypeID : Z := 7.
Definition MaxReservedTypeID : Z := 15.
Definition MinAppTypeID : Z := 16.

(** The errors of [pkg/sds/record]. *)
Inductive sds_error : Type :=
| ErrInvalidTypeID
| ErrReservedTypeID
| ErrEmptyPayload
| ErrMalformedVarint
| ErrTypeIDOverflow
| ErrTypeNotRegistered (id : Z)
| ErrMissingDescriptors
| ErrTypeIDTooLow
| ErrEmptyName
| ErrEmptyFingerprint
| ErrTypeConflict (existingID : Z) (existingName : bytes) (incomingID : Z) (incomingName : bytes)
| ErrIncompatible
| ErrFingerprint
| ErrFingerprintMismatch
| ErrDescriptors
| ErrKeyField (kf : Z)
| ErrNil
| ErrMarshal
| ErrUnmarshal
| ErrAppend.

Definition ValidateTypeID (typeID : Z) : result sds_error () :=
  if typeID =? TypeIDInvalid then Err ErrInvalidTypeID
  else if (MinReservedTypeID <=? typeID) && (typeID <=? MaxReservedTypeID) then Err ErrReservedTypeID
  else Ok ().

(** The buffer has room for [binary.MaxVarintLen32] bytes of varint; the copy
    and the final slice leave exactly the varint and the body. *)
Definition EncodeFrame (typeID : Z) (body : bytes) : result sds_error bytes :=
  match ValidateTypeID typeID with
  | Err e => Err e
  | Ok _ => Ok (put_uvarint typeID ++ body)
  end.

Definition SplitFrame (payload : bytes) : result sds_error (Z * bytes) :=
  match payload with
  | [] => Err ErrEmptyPayload
  | _ :: _ =>
    let '(id, n) := uvarint payload in
    if n <=? 0 then Err ErrMalformedVarint
    else if u32_max <? id then Err ErrTypeIDOverflow
    else
    match ValidateTypeID id with
    | Err e => Err e
    | Ok _ => Ok (id, drop (Z.to_nat n) payload)
    end
  end.

(** ** Facts *)

Definition valid_type_id (id : Z) : Prop := is_u32 id /\ ValidateTypeID id = Ok ().

Lemma u32_u64 z : is_u32 z -> is_u64 z.
Proof. unfold is_u32, is_u64. lia. Qed.

Lemma put_uvarint_u32_length z : is_u32 z -> (length (put_uvarint z) <= 5)%nat.
Proof.
  unfold is_u32. intros Hz. unfold put_uvarint.
  do 5 (cbn [put_uvarint_go]; destruct (_ <? 128) eqn:?; [cbn; lia|]; zify_bool).
  exfalso. Z.div_mod_to_equations. lia.
Qed.

Lemma SplitFrame_put id body :
  is_u32 id ->
  SplitFrame (put_uvarint id ++ body) =
  match ValidateTypeID id with Err e => Err e | Ok _ => Ok (id, body) end.
Proof.
  intros Hid. pose proof (length_put_uvarint_pos id) as HP. unfold SplitFrame.
  rewrite (uvarint_put _ body (u32_u64 _ Hid)).
  destruct (put_uvarint id ++ body) as [|b p] eqn:E.
  { apply (f_equal length) in E. rewrite length_app in E. cbn [length] in E. lia. }
  rewrite <- E. rewrite (proj2 (Z.leb_gt _ 0)) by lia.
  unfold is_u32, u32_max in *. rewrite (proj2 (Z.ltb_ge _ id)) by lia.
  rewrite Nat2Z.id, drop_app_length. done.
Qed.

Lemma SplitFrame_EncodeFrame id body p :
  is_u32 id -> EncodeFrame id body = Ok p -> SplitFrame p = Ok (id, body).
Proof.
  unfold EncodeFrame. intros Hid HE. destruct (ValidateTypeID id) eqn:EV; [|done].
  injection HE as <-. by rewrite SplitFrame_put, EV.
Qed.

Lemma ValidateTypeID_app id : MinAppTypeID <= id -> ValidateTypeID id = Ok ().
Proof.
  unfold ValidateTypeID, MinAppTypeID, TypeIDInvalid, MaxReservedTypeID. intros H.
  rewrite (proj2 (Z.eqb_neq id 0)), (proj2 (Z.leb_gt id 15)), andb_false_r by lia. done.
Qed.

(** ** Theorems *)

(** Frames read back.  For every [uint32] type id, a frame that can be
    encoded splits into its id and body, whatever the body; the ids 0 and 7..15
    are refused by the encoder and, on the wire, by the splitter; the varint
    needs at most the five bytes the encoder reserves for it; and whatever the
    splitter accepts carries a valid id and a suffix of the payload. *)
Theorem frame_roundtrip :
  (forall id body p, is_u32 id -> EncodeFrame id body = Ok p -> SplitFrame p = Ok (id, body)) /\
  (forall id body, is_u32 id -> id = 0 \/ 7 <= id <= 15 ->
     is_ok (EncodeFrame id body) = false /\ is_ok (SplitFrame (put_uvarint id ++ body)) = false) /\
  (forall id, is_u32 id -> (length (put_uvarint id) <= 5)%nat) /\
  (forall p id body, SplitFrame p = Ok (id, body) ->
     id <= u32_max /\ ValidateTypeID id = Ok () /\ exists hdr, p = hdr ++ body /\ hdr <> []).
Proof.
  split_and!.
  - apply SplitFrame_EncodeFrame.
  - intros id body Hid Hbad.
    assert (is_ok (ValidateTypeID id) = false) as HV.
    { unfold ValidateTypeID. destruct Hbad as [->|Hbad]; [done|].
      unfold TypeIDInvalid, MinReservedTypeID, MaxReservedTypeID.
      rewrite (proj2 (Z.eqb_neq id 0)), (proj2 (Z.leb_le 7 id)), (proj2 (Z.leb_le id 15)) by lia. done. }
    rewrite SplitFrame_put by done. unfold EncodeFrame. by destruct (ValidateTypeID id).
  - apply put_uvarint_u32_length.
  - intros p id body. unfold SplitFrame. destruct p as [|b p]; [done|].
    destruct (uvarint (b :: p)) as [id' n]. destruct (n <=? 0) eqn:En; [done|]. zify_bool.
    destruct (u32_max <? id') eqn:Eu; [done|]. zify_bool.
    destruct (ValidateTypeID id') as [[]|] eqn:EV; [|done]. intros [= <- <-].
    split_and!; [done..|]. exists (take (Z.to_nat n) (b :: p)). rewrite take_drop.
    split; [done|]. destruct (Z.to_nat n) eqn:En'; [lia|done].
Qed.
