(* ===== verification/SdsSchema.v ===== *)
(** * SdsSchema: message descriptors and schema evolution

    [pkg/sds/record/compatibility.go]: which changes of a protobuf message are
    compatible evolutions.  A [protoreflect.MessageDescriptor] is the record of
    what its accessors return; message types refer to each other by full name,
    and [Files] is the set of descriptors a [FileDescriptorSet] resolves to, so
    recursive types are ordinary data. *)

From S2P Require Import Prelude Bytes.

#[local] Open Scope Z_scope.
#[local] Open Scope list_scope.

(** [protoreflect.Kind] and [protoreflect.Cardinality]. *)
Inductive Kind : Type :=
| BoolKind | EnumKind | Int32Kind | Sint32Kind | Uint32Kind | Int64Kind | Sint64Kind
| Uint64Kind | Sfixed32Kind | Fixed32Kind | FloatKind | Sfixed64Kind | Fixed64Kind
| DoubleKind | StringKind | BytesKind | MessageKind | GroupKind.

Inductive Cardinality : Type := Optional | Required | Repeated.

#[export] Instance Kind_eq_dec : EqDecision Kind.
Proof. solve_decision. Defined.
#[export] Instance Cardinality_eq_dec : EqDecision Cardinality.
Proof. solve_decision. Defined.

(** Key and value of a map field. *)
Record MapEntry : Type := mkMapEntry {
  me_Key : Kind;
  me_Value : Kind;
  me_Message : bytes;
  me_Enum : bytes;
}.

Record FieldDescriptor : Type := mkField {
  fd_Number : Z;
  fd_Kind : Kind;
  fd_Cardinality : Cardinality;
  fd_IsList : bool;
  fd_Map : option MapEntry;
  fd_Oneof : option (bytes * bool);
  fd_Message : bytes;
  fd_Enum : bytes;
}.

Record MessageDescriptor : Type := mkMessage {
  md_FullName : bytes;
  md_Fields : list FieldDescriptor;
  md_ReservedRanges : list (Z * Z);
}.

Abbreviation Files := (gmap bytes MessageDescriptor).

Definition fd_IsMap (f : FieldDescriptor) : bool := bool_decide (is_Some (fd_Map f)).

(** [FieldDescriptors.ByNumber]. *)
Definition by_number (fs : list FieldDescriptor) (n : Z) : option FieldDescriptor :=
  snd <$> list_find (fun f => fd_Number f = n) fs.

(** [FieldRanges.Has]: the ranges are half open. *)
Definition ranges_has (rs : list (Z * Z)) (n : Z) : bool :=
  existsb (fun r => (fst r <=? n) && (n <? snd r)) rs.

(** [ContainingOneof], without the synthetic ones of proto3 optional fields. *)
Definition real_oneof (f : FieldDescriptor) : option bytes :=
  match fd_Oneof f with
  | Some (n, synthetic) => if synthetic then None else Some n
  | None => None
  end.

Inductive compat_error : Type :=
| CERemovedUnreserved (n : Z)
| CEKind (n : Z)
| CECardinality (n : Z)
| CEList (n : Z)
| CEMap (n : Z)
| CEMapKey (n : Z)
| CEMapValue (n : Z)
| CEMapMessage (n : Z)
| CEOneofMembership (n : Z)
| CEOneofMoved (n : Z)
| CEMessage (n : Z)
| CEEnum (n : Z)
| CEReusesReserved (n : Z)
| CENil
| CEName
| CEKeyFields
| CEDescriptors
| CENotFound
| CEFuel.

(** ** The checker *)

Section check.
Context (oldFiles newFiles : Files).

(** A recursive call on the message types two fields refer to. *)
Definition descend (rec : MessageDescriptor -> MessageDescriptor -> gset bytes -> result compat_error (gset bytes))
    (oldName newName : bytes) (visited : gset bytes) : result compat_error (gset bytes) :=
  match oldFiles !! oldName, newFiles !! newName with
  | Some o, Some n => rec o n visited
  | _, _ => Err CENotFound
  end.

(** The body of the first loop for a field [oldF] of the old message. *)
Definition check_field (rec : MessageDescriptor -> MessageDescriptor -> gset bytes -> result compat_error (gset bytes))
    (newMD : MessageDescriptor) (oldF : FieldDescriptor) (visited : gset bytes)
    : result compat_error (gset bytes) :=
  let num := fd_Number oldF in
  match by_number (md_Fields newMD) num with
  | None =>
    if negb (ranges_has (md_ReservedRanges newMD) num) then Err (CERemovedUnreserved num)
    else Ok visited
  | Some newF =>
    if negb (bool_decide (fd_Kind oldF = fd_Kind newF)) then Err (CEKind num)
    else if negb (bool_decide (fd_Cardinality oldF = fd_Cardinality newF)) then Err (CECardinality num)
    else if negb (Bool.eqb (fd_IsList oldF) (fd_IsList newF)) then Err (CEList num)
    else if negb (Bool.eqb (fd_IsMap oldF) (fd_IsMap newF)) then Err (CEMap num)
    else
    let after_map :=
      match fd_Map oldF, fd_Map newF with
      | Some oldM, Some newM =>
        if negb (bool_decide (me_Key oldM = me_Key newM)) then Err (CEMapKey num)
        else if negb (bool_decide (me_Value oldM = me_Value newM)) then Err (CEMapValue num)
        else if bool_decide (me_Value oldM = MessageKind) then
          if negb (bool_decide (me_Message oldM = me_Message newM)) then Err (CEMapMessage num)
          else descend rec (me_Message oldM) (me_Message newM) visited
        else Ok visited
      | _, _ => Ok visited
      end in
    match after_map with
    | Err e => Err e
    | Ok visited =>
      let oldOneof := real_oneof oldF in
      let newOneof := real_oneof newF in
      if negb (Bool.eqb (bool_decide (oldOneof = None)) (bool_decide (newOneof = None)))
      then Err (CEOneofMembership num)
      else if negb (bool_decide (oldOneof = newOneof)) then Err (CEOneofMoved num)
      else
      let after_message :=
        if bool_decide (fd_Kind oldF = MessageKind) && negb (fd_IsMap oldF) then
          if negb (bool_decide (fd_Message oldF = fd_Message newF)) then Err (CEMessage num)
          else descend rec (fd_Message oldF) (fd_Message newF) visited
        else Ok visited in
      match after_message with
      | Err e => Err e
      | Ok visited =>
        if bool_decide (fd_Kind oldF = EnumKind) && negb (bool_decide (fd_Enum oldF = fd_Enum newF))
        then Err (CEEnum num)
        else Ok visited
      end
    end
  end.

Fixpoint check_fields (rec : MessageDescriptor -> MessageDescriptor -> gset bytes -> result compat_error (gset bytes))
    (newMD : MessageDescriptor) (fs : list FieldDescriptor) (visited : gset bytes)
    : result compat_error (gset bytes) :=
  match fs with
  | [] => Ok visited
  | f :: fs =>
    match check_field rec newMD f visited with
    | Err e => Err e
    | Ok visited => check_fields rec newMD fs visited
    end
  end.

(** The second loop: an added field must not reuse a reserved number. *)
Fixpoint check_added (oldMD : MessageDescriptor) (fs : list FieldDescriptor) : option Z :=
  match fs with
  | [] => None
  | f :: fs =>
    match by_number (md_Fields oldMD) (fd_Number f) with
    | None =>
      if ranges_has (md_ReservedRanges oldMD) (fd_Number f) then Some (fd_Number f)
      else check_added oldMD fs
    | Some _ => check_added oldMD fs
    end
  end.

(** [visited] is the Go map, threaded through the calls. *)
Fixpoint checkMessageCompatibility (fuel : nat) (oldMD newMD : MessageDescriptor)
    (visited : gset bytes) : result compat_error (gset bytes) :=
  match fuel with
  | O => Err CEFuel
  | S k =>
    let fullName := md_FullName oldMD in
    if bool_decide (fullName ∈ visited) then Ok visited
    else
    match check_fields (checkMessageCompatibility k) newMD (md_Fields oldMD) ({[ fullName ]} ∪ visited) with
    | Err e => Err e
    | Ok visited =>
      match check_added oldMD (md_Fields newMD) with
      | Some n => Err (CEReusesReserved n)
      | None => Ok visited
      end
    end
  end.

(** Every call that is not answered from [visited] adds a name of the old set. *)
Definition compat_fuel : nat := S (S (size oldFiles)).

Definition CheckMessageCompatibility (oldMD newMD : option MessageDescriptor) : result compat_error () :=
  match oldMD, newMD with
  | Some oldMD, Some newMD =>
    if negb (bool_decide (md_FullName oldMD = md_FullName newMD)) then Err CEName
    else
    match checkMessageCompatibility compat_fuel oldMD newMD ∅ with
    | Err e => Err e
    | Ok _ => Ok ()
    end
  | _, _ => Err CENil
  end.
End check.

(** ** The evolution rules *)

Section documented.
Context (oldFiles newFiles : Files).

(** The rules of the comment on [CheckCompatibility].  A field that both versions
    have keeps its type (the kind, and the full name of the message, group or
    enum type of the field or of the values of the map), its cardinality and its
    oneof. *)
Record field_compatible (oldF newF : FieldDescriptor) : Prop := {
  dc_kind : fd_Kind oldF = fd_Kind newF;
  dc_cardinality : fd_Cardinality oldF = fd_Cardinality newF;
  dc_list : fd_IsList oldF = fd_IsList newF;
  dc_map : match fd_Map oldF, fd_Map newF with
           | None, None => True
           | Some o, Some n =>
             me_Key o = me_Key n /\ me_Value o = me_Value n /\
             (me_Value o = MessageKind -> me_Message o = me_Message n) /\
             (me_Value o = EnumKind -> me_Enum o = me_Enum n)
           | _, _ => False
           end;
  dc_oneof : real_oneof oldF = real_oneof newF;
  dc_message : fd_Kind oldF = MessageKind \/ fd_Kind oldF = GroupKind -> fd_Map oldF = None -> fd_Message oldF = fd_Message newF;
  dc_enum : fd_Kind oldF = EnumKind -> fd_Enum oldF = fd_Enum newF;
}.

(** The message types a field refers to. *)
Definition type_refs (f : FieldDescriptor) : list bytes :=
  match fd_Map f with
  | Some m => if decide (me_Value m = MessageKind) then [me_Message m] else []
  | None => if decide (fd_Kind f = MessageKind \/ fd_Kind f = GroupKind) then [fd_Message f] else []
  end.

(** A removed field has its number reserved, a kept one is compatible, and a new
    one does not reuse a reserved number. *)
Definition message_compatible (oldMD newMD : MessageDescriptor) : Prop :=
  (forall oldF, oldF ∈ md_Fields oldMD ->
     match by_number (md_Fields newMD) (fd_Number oldF) with
     | None => ranges_has (md_ReservedRanges newMD) (fd_Number oldF) = true
     | Some newF => field_compatible oldF newF
     end) /\
  (forall newF, newF ∈ md_Fields newMD -> by_number (md_Fields oldMD) (fd_Number newF) = None ->
     ranges_has (md_ReservedRanges oldMD) (fd_Number newF) = false).

(** The nested types are compatible too: some set of names that contains the root
    and every type a kept field of its messages refers to is compatible
    throughout. *)
Definition compatible (root : bytes) : Prop :=
  exists V : gset bytes, root ∈ V /\ forall x, x ∈ V ->
    exists o n, oldFiles !! x = Some o /\ newFiles !! x = Some n /\ message_compatible o n /\
      forall f y, f ∈ md_Fields o -> by_number (md_Fields n) (fd_Number f) <> None -> y ∈ type_refs f -> y ∈ V.

(** The fields on which the code follows these rules: no groups, and no maps
    whose values are enums. *)
Definition plain_field (f : FieldDescriptor) : Prop :=
  fd_Kind f <> GroupKind /\ forall m, fd_Map f = Some m -> me_Value m <> EnumKind.
Definition plain (fs : Files) : Prop := forall x md f, fs !! x = Some md -> f ∈ md_Fields md -> plain_field f.
End documented.

(** ** What the code tests *)

Section rules.
Context (oldFiles newFiles : Files).

(** The tests on one field that both versions have. *)
Record field_passes (oldF newF : FieldDescriptor) : Prop := {
  fc_kind : fd_Kind oldF = fd_Kind newF;
  fc_cardinality : fd_Cardinality oldF = fd_Cardinality newF;
  fc_list : fd_IsList oldF = fd_IsList newF;
  fc_map : match fd_Map oldF, fd_Map newF with
           | None, None => True
           | Some o, Some n =>
             me_Key o = me_Key n /\ me_Value o = me_Value n /\
             (me_Value o = MessageKind -> me_Message o = me_Message n)
           | _, _ => False
           end;
  fc_oneof : real_oneof oldF = real_oneof newF;
  fc_message : fd_Kind oldF = MessageKind -> fd_Map oldF = None -> fd_Message oldF = fd_Message newF;
  fc_enum : fd_Kind oldF = EnumKind -> fd_Enum oldF = fd_Enum newF;
}.

(** The message types a field makes the check descend into. *)
Definition field_refs (f : FieldDescriptor) : list bytes :=
  match fd_Map f with
  | Some m => if decide (me_Value m = MessageKind) then [me_Message m] else []
  | None => if decide (fd_Kind f = MessageKind) then [fd_Message f] else []
  end.

Definition message_passes (oldMD newMD : MessageDescriptor) : Prop :=
  (forall oldF, oldF ∈ md_Fields oldMD ->
     match by_number (md_Fields newMD) (fd_Number oldF) with
     | None => ranges_has (md_ReservedRanges newMD) (fd_Number oldF) = true
     | Some newF => field_passes oldF newF
     end) /\
  (forall newF, newF ∈ md_Fields newMD -> by_number (md_Fields oldMD) (fd_Number newF) = None ->
     ranges_has (md_ReservedRanges oldMD) (fd_Number newF) = false).

(** Names the fields kept in the new version refer to. *)
Definition kept_ref (oldMD newMD : MessageDescriptor) (x : bytes) : Prop :=
  exists f, f ∈ md_Fields oldMD /\ by_number (md_Fields newMD) (fd_Number f) <> None /\
    x ∈ field_refs f.

(** The message called [x] passes and refers only to names in [V]. *)
Definition settled_in (V : gset bytes) (x : bytes) : Prop :=
  exists o n, oldFiles !! x = Some o /\ newFiles !! x = Some n /\ message_passes o n /\
    forall y, kept_ref o n y -> y ∈ V.

(** A root passes when some set of names closed under these references does
    throughout. *)
Definition passes (root : bytes) : Prop :=
  exists V : gset bytes, root ∈ V /\ forall x, x ∈ V -> settled_in V x.

(** [protodesc.NewFiles] keys every message by its full name. *)
Definition well_named (fs : Files) : Prop := forall x md, fs !! x = Some md -> md_FullName md = x.

Lemma settled_in_mono V W x : V ⊆ W -> settled_in V x -> settled_in W x.
Proof. intros HVW (o & n & ? & ? & ? & HV). exists o, n. split_and!; auto. Qed.

(** ** What one round of the field loop does *)

(** The recursive call of a field, if it has one. *)
Definition field_call (rec : MessageDescriptor -> MessageDescriptor -> gset bytes -> result compat_error (gset bytes))
    (f : FieldDescriptor) (vis : gset bytes) : result compat_error (gset bytes) :=
  match field_refs f with
  | x :: _ => descend oldFiles newFiles rec x x vis
  | [] => Ok vis
  end.

(** The tests that follow the map tests, for a field whose nested message, if
    any, is checked by [call]. *)
Definition late_tests (f g : FieldDescriptor) (call : gset bytes -> result compat_error (gset bytes))
    (vis : gset bytes) : result compat_error (gset bytes) :=
  if negb (Bool.eqb (bool_decide (real_oneof f = None)) (bool_decide (real_oneof g = None)))
  then Err (CEOneofMembership (fd_Number f))
  else if negb (bool_decide (real_oneof f = real_oneof g)) then Err (CEOneofMoved (fd_Number f))
  else
  match call vis with
  | Err e => Err e
  | Ok vis =>
    if bool_decide (fd_Kind f = EnumKind) && negb (bool_decide (fd_Enum f = fd_Enum g))
    then Err (CEEnum (fd_Number f))
    else Ok vis
  end.

Lemma late_tests_spec f g call vis vis' :
  late_tests f g call vis = Ok vis' <->
  real_oneof f = real_oneof g /\ call vis = Ok vis' /\ (fd_Kind f = EnumKind -> fd_Enum f = fd_Enum g).
Proof.
  unfold late_tests. destruct (decide (real_oneof f = real_oneof g)) as [Ho|Ho].
  2: { rewrite (bool_decide_eq_false_2 (real_oneof f = real_oneof g)) by done. cbn [negb].
       destruct (negb _); (split; [done|by intros [? _]]). }
  rewrite (bool_decide_eq_true_2 (real_oneof f = real_oneof g)) by done.
  rewrite (bool_decide_ext (real_oneof f = None) (real_oneof g = None)) by (by rewrite Ho).
  rewrite eqb_reflx. cbn [negb].
  destruct (call vis) as [v|e]; [|split; [done|by intros (_ & ? & _)]].
  destruct (bool_decide (fd_Kind f = EnumKind)) eqn:E1;
    destruct (bool_decide (fd_Enum f = fd_Enum g)) eqn:E2; decide_tests; cbn;
    (split; [intros [= <-]|intros (_ & [= <-] & HE)]); try done.
  by destruct E2; apply HE.
Qed.

Lemma check_field_spec rec newMD f vis vis' :
  check_field oldFiles newFiles rec newMD f vis = Ok vis' <->
  match by_number (md_Fields newMD) (fd_Number f) with
  | None => ranges_has (md_ReservedRanges newMD) (fd_Number f) = true /\ vis' = vis
  | Some g => field_passes f g /\ field_call rec f vis = Ok vis'
  end.
Proof.
  unfold check_field, field_call, field_refs.
  destruct (by_number _ _) as [g|].
  2: { destruct (ranges_has _ _); cbn [negb]; split; [by intros [= <-]|by intros [_ ->]|done|by intros [? _]]. }
  destruct (bool_decide (fd_Kind f = fd_Kind g)) eqn:E1; decide_tests; cbn [negb];
    [|split; [done|by intros [[] _]]].
  destruct (bool_decide (fd_Cardinality f = fd_Cardinality g)) eqn:E2; decide_tests; cbn [negb];
    [|split; [done|by intros [[] _]]].
  destruct (Bool.eqb (fd_IsList f) (fd_IsList g)) eqn:E3; decide_tests; cbn [negb];
    [|split; [done|by intros [[] _]]].
  unfold fd_IsMap. destruct (fd_Map f) as [om|] eqn:Ef, (fd_Map g) as [nm|] eqn:Eg; cbn [negb];
    rewrite ?(bool_decide_eq_true_2 (is_Some (Some _))) by eauto;
    rewrite ?(bool_decide_eq_false_2 (is_Some None)) by (by intros [? ?]);
    cbn [Bool.eqb negb]; rewrite ?andb_false_r, ?andb_true_r;
    try (split; [done|]; intros [[] _]; rewrite Ef, Eg in *; done).
  - destruct (bool_decide (me_Key om = me_Key nm)) eqn:E4; decide_tests; cbn [negb].
    2: { split; [done|]. intros [[? ? ? Hmap ? ? ?] _]. rewrite Ef, Eg in Hmap.
         by destruct Hmap as (? & ? & ?). }
    destruct (bool_decide (me_Value om = me_Value nm)) eqn:E5; decide_tests; cbn [negb].
    2: { split; [done|]. intros [[? ? ? Hmap ? ? ?] _]. rewrite Ef, Eg in Hmap.
         by destruct Hmap as (? & ? & ?). }
    destruct (decide (me_Value om = MessageKind)) as [Hm|Hm];
      [rewrite bool_decide_eq_true_2 by done|rewrite bool_decide_eq_false_2 by done].
    + destruct (bool_decide (me_Message om = me_Message nm)) eqn:E6; decide_tests; cbn [negb].
      2: { split; [done|]. intros [[? ? ? Hmap ? ? ?] _]. rewrite Ef, Eg in Hmap.
         destruct Hmap as (_ & _ & Hx). by specialize (Hx Hm). }
      rewrite <- E6. destruct (descend _ _ _ _ _ vis) as [v|e]; [|split; [done|by intros [_ ?]]].
      fold (late_tests f g Ok v). rewrite late_tests_spec. split.
      * intros (H1 & [= <-] & H2). split; [|done]. split; try done; rewrite Ef, ?Eg; try done.
      * intros [[] [= <-]]. done.
    + fold (late_tests f g Ok vis). rewrite late_tests_spec. split.
      * intros (H1 & [= <-] & H2). split; [|done]. split; try done; rewrite Ef, ?Eg; try done.
      * intros [[] [= <-]]. done.
  - destruct (decide (fd_Kind f = MessageKind)) as [Hm|Hm];
      [rewrite (bool_decide_eq_true_2 (fd_Kind f = MessageKind)) by done
      |rewrite (bool_decide_eq_false_2 (fd_Kind f = MessageKind)) by done].
    + destruct (decide (fd_Message f = fd_Message g)) as [Hg|Hg].
      * fold (late_tests f g (fun v => if negb (bool_decide (fd_Message f = fd_Message g))
                 then Err (CEMessage (fd_Number f))
                 else descend oldFiles newFiles rec (fd_Message f) (fd_Message g) v) vis).
        rewrite late_tests_spec, bool_decide_eq_true_2 by done. cbn [negb]. rewrite <- Hg. split.
        -- intros (H1 & H3 & H2). split; [|done]. split; try done; rewrite Ef, ?Eg; try done.
        -- intros [[] H3]. done.
      * split; [|intros [[? ? ? ? ? Hmsg ?] _]; by specialize (Hmsg Hm Ef)].
        fold (late_tests f g (fun v => if negb (bool_decide (fd_Message f = fd_Message g))
                 then Err (CEMessage (fd_Number f))
                 else descend oldFiles newFiles rec (fd_Message f) (fd_Message g) v) vis).
        rewrite late_tests_spec, bool_decide_eq_false_2 by done. by intros (_ & ? & _).
    + fold (late_tests f g Ok vis). rewrite late_tests_spec. split.
      * intros (H1 & [= <-] & H2). split; [|done]. split; try done; rewrite Ef, ?Eg; try done.
      * intros [[] [= <-]]. done.
Qed.
Lemma check_added_spec oldMD fs :
  check_added oldMD fs = None <->
  forall newF, newF ∈ fs -> by_number (md_Fields oldMD) (fd_Number newF) = None ->
    ranges_has (md_ReservedRanges oldMD) (fd_Number newF) = false.
Proof.
  induction fs as [|f fs IH]; cbn.
  - split; [|done]. intros _ newF Hf. by apply not_elem_of_nil in Hf.
  - setoid_rewrite elem_of_cons. destruct (by_number _ _) as [g|] eqn:E.
    + rewrite IH. split; [|by intros HA newF ?; apply HA; right].
      intros HA newF [->|Hf] HN; [congruence|by apply HA].
    + destruct (ranges_has _ _) eqn:Er.
      * split; [done|]. intros HA. by rewrite (HA f) in Er by auto.
      * rewrite IH. split; [|by intros HA newF ?; apply HA; right].
        intros HA newF [->|Hf] HN; [done|by apply HA].
Qed.

(** ** Soundness of the checker *)

(** What a recursive call promises: it only adds names, the root among them,
    and every name it adds is settled. *)
Definition call_sound (rec : MessageDescriptor -> MessageDescriptor -> gset bytes -> result compat_error (gset bytes)) : Prop :=
  forall x o n vis vis', oldFiles !! x = Some o -> newFiles !! x = Some n ->
    rec o n vis = Ok vis' ->
    vis ⊆ vis' /\ x ∈ vis' /\ forall y, y ∈ vis' -> y ∉ vis -> settled_in vis' y.

Lemma field_call_sound rec f vis vis' :
  call_sound rec -> field_call rec f vis = Ok vis' ->
  vis ⊆ vis' /\ (forall y, y ∈ field_refs f -> y ∈ vis') /\
  forall y, y ∈ vis' -> y ∉ vis -> settled_in vis' y.
Proof.
  intros Hrec. unfold field_call.
  assert (field_refs f = [] \/ exists x, field_refs f = [x]) as [->|[x ->]].
  { unfold field_refs. destruct (fd_Map f); destruct (decide _); eauto. }
  - intros [= <-]. split_and!; [done|..].
    + intros y Hy. by apply not_elem_of_nil in Hy.
    + intros y H1 H2. done.
  - unfold descend. destruct (oldFiles !! x) as [o|] eqn:Eo; [|done].
    destruct (newFiles !! x) as [n|] eqn:En; [|done]. intros HR.
    destruct (Hrec x o n vis vis' Eo En HR) as (? & ? & ?). split_and!; try done.
    intros y Hy. by apply list_elem_of_singleton in Hy as ->.
Qed.

Lemma check_fields_sound rec newMD fs : forall vis vis',
  call_sound rec -> check_fields oldFiles newFiles rec newMD fs vis = Ok vis' ->
  vis ⊆ vis' /\ (forall y, y ∈ vis' -> y ∉ vis -> settled_in vis' y) /\
  forall f, f ∈ fs ->
    match by_number (md_Fields newMD) (fd_Number f) with
    | None => ranges_has (md_ReservedRanges newMD) (fd_Number f) = true
    | Some g => field_passes f g /\ forall y, y ∈ field_refs f -> y ∈ vis'
    end.
Proof.
  induction fs as [|f fs IH]; intros vis vis' Hrec; cbn [check_fields].
  - intros [= <-]. split_and!; [done|..].
    + intros y H1 H2. done.
    + intros f Hf. by apply not_elem_of_nil in Hf.
  - destruct (check_field _ _ _ _ _ _) as [v|e] eqn:EF; [|done]. intros HR.
    destruct (IH v vis' Hrec HR) as (S1 & S2 & S3).
    apply check_field_spec in EF.
    assert (vis ⊆ v /\ (forall y, y ∈ v -> y ∉ vis -> settled_in v y) /\
      match by_number (md_Fields newMD) (fd_Number f) with
      | None => ranges_has (md_ReservedRanges newMD) (fd_Number f) = true
      | Some g => field_passes f g /\ forall y, y ∈ field_refs f -> y ∈ v
      end) as (F1 & F2 & F3).
    { destruct (by_number _ _) as [g|].
      - destruct EF as [Hc EF]. by apply field_call_sound in EF as (? & ? & ?).
      - destruct EF as [Hr ->]. split_and!; [done| |done]. intros y H1 H2. done. }
    split_and!; [set_solver|..].
    + intros y Hy Hn. destruct (decide (y ∈ v)) as [Hv|Hv]; [|by apply S2].
      apply (settled_in_mono v); auto.
    + intros f' Hf'. apply elem_of_cons in Hf' as [->|Hf']; [|by apply S3].
      destruct (by_number _ _); [|done]. destruct F3 as [? ?]. split; [done|]. set_solver.
Qed.

Lemma check_sound fuel :
  well_named oldFiles -> call_sound (checkMessageCompatibility oldFiles newFiles fuel).
Proof.
  intros HN. induction fuel as [|fuel IH]; intros x o n vis vis' Ho Hn; cbn; [done|].
  rewrite (HN x o Ho). destruct (bool_decide (x ∈ vis)) eqn:E; decide_tests.
  { intros [= <-]. split_and!; [done..|]. intros y H1 H2. done. }
  destruct (check_fields _ _ _ _ _ _) as [v|e] eqn:EF; [|done].
  destruct (check_added _ _) eqn:EA; [done|]. intros [= <-].
  apply check_fields_sound in EF as (S1 & S2 & S3); [|done].
  split_and!; [set_solver|set_solver|]. intros y Hy Hnv.
  destruct (decide (y = x)) as [->|Hne]; [|apply S2; set_solver].
  exists o, n. split_and!; [done|done| |].
  - split; [|by apply check_added_spec]. intros f Hf. specialize (S3 f Hf).
    destruct (by_number _ _); [apply S3|done].
  - intros y (f & Hf & Hb & Hr). specialize (S3 f Hf).
    destruct (by_number _ _); [by apply S3|done].
Qed.

(** ** Completeness of the checker *)

Section complete.
Context (V : gset bytes) (HV : forall x, x ∈ V -> settled_in V x).

Definition call_complete (bound : nat)
    (rec : MessageDescriptor -> MessageDescriptor -> gset bytes -> result compat_error (gset bytes)) : Prop :=
  forall x o n vis, x ∈ V -> oldFiles !! x = Some o -> newFiles !! x = Some n ->
    (size (V ∖ vis) < bound)%nat -> exists vis', rec o n vis = Ok vis' /\ vis ⊆ vis'.

Lemma check_fields_complete bound rec newMD fs : forall vis,
  call_complete bound rec -> (size (V ∖ vis) < bound)%nat ->
  (forall f, f ∈ fs ->
    match by_number (md_Fields newMD) (fd_Number f) with
    | None => ranges_has (md_ReservedRanges newMD) (fd_Number f) = true
    | Some g => field_passes f g /\ forall y, y ∈ field_refs f -> y ∈ V
    end) ->
  exists vis', check_fields oldFiles newFiles rec newMD fs vis = Ok vis' /\ vis ⊆ vis'.
Proof.
  induction fs as [|f fs IH]; intros vis Hrec Hb HF; cbn [check_fields]; [by exists vis|].
  assert (exists v, check_field oldFiles newFiles rec newMD f vis = Ok v /\ vis ⊆ v) as (v & -> & Hv).
  { specialize (HF f ltac:(left)). setoid_rewrite check_field_spec.
    destruct (by_number _ _) as [g|]; [|by exists vis].
    destruct HF as [Hc Hr]. unfold field_call. destruct (field_refs f) as [|x l]; [by exists vis|].
    assert (x ∈ V) as Hx by (apply Hr; left). destruct (HV x Hx) as (o & n & Ho & Hn & _).
    destruct (Hrec x o n vis Hx Ho Hn Hb) as (v & Hv & ?). exists v.
    split; [|done]. split; [done|]. unfold descend. by rewrite Ho, Hn. }
  assert (size (V ∖ v) <= size (V ∖ vis))%nat by (apply subseteq_size; set_solver).
  destruct (IH v Hrec ltac:(lia)) as (vis' & -> & ?); [by intros; apply HF; right|].
  exists vis'. split; [done|]. set_solver.
Qed.

Lemma check_complete fuel :
  well_named oldFiles -> call_complete fuel (checkMessageCompatibility oldFiles newFiles fuel).
Proof.
  intros HN. induction fuel as [|fuel IH]; intros x o n vis Hx Ho Hn Hb; [lia|]. cbn.
  rewrite (HN x o Ho). destruct (bool_decide (x ∈ vis)) eqn:E; decide_tests; [by exists vis|].
  destruct (HV x Hx) as (o' & n' & Ho' & Hn' & [Hm1 Hm2] & Hrefs).
  assert (o' = o) as -> by congruence. assert (n' = n) as -> by congruence.
  assert (size (V ∖ ({[x]} ∪ vis)) < size (V ∖ vis))%nat as Hs by (apply subset_size; set_solver).
  destruct (check_fields_complete fuel (checkMessageCompatibility oldFiles newFiles fuel) n
              (md_Fields o) ({[x]} ∪ vis) IH ltac:(lia)) as (v & -> & Hv).
  { intros f Hf. specialize (Hm1 f Hf). destruct (by_number _ _) as [g|] eqn:Eb; [|done].
    split; [done|]. intros y Hy. apply Hrefs. exists f. split_and!; [done|by rewrite Eb|done]. }
  rewrite (proj2 (check_added_spec o (md_Fields n)) Hm2). exists v. split; [done|]. set_solver.
Qed.
End complete.
(** ** The fuel suffices *)

Lemma check_field_fuel rec newMD f vis :
  check_field oldFiles newFiles rec newMD f vis = Err CEFuel ->
  exists x o n, oldFiles !! x = Some o /\ newFiles !! x = Some n /\ rec o n vis = Err CEFuel.
Proof.
  assert (HD : forall a b, a = b -> descend oldFiles newFiles rec a b vis = Err CEFuel ->
    exists x o n, oldFiles !! x = Some o /\ newFiles !! x = Some n /\ rec o n vis = Err CEFuel).
  { intros a b <-. unfold descend. destruct (oldFiles !! a) as [o|] eqn:?, (newFiles !! a) as [n|] eqn:?;
      try done. intros HR. by exists a, o, n. }
  unfold check_field, fd_IsMap. destruct (by_number _ _) as [g|]; [|by destruct (negb _)].
  destruct (negb (bool_decide (fd_Kind f = fd_Kind g))); [done|].
  destruct (negb (bool_decide (fd_Cardinality f = fd_Cardinality g))); [done|].
  destruct (negb (Bool.eqb (fd_IsList f) (fd_IsList g))); [done|].
  destruct (negb (Bool.eqb (bool_decide (is_Some (fd_Map f))) _)); [done|].
  assert (HL : forall vis0, (vis0 = vis \/ fd_Map f <> None) ->
    late_tests f g (fun v => if bool_decide (fd_Kind f = MessageKind) && negb (bool_decide (is_Some (fd_Map f)))
       then if negb (bool_decide (fd_Message f = fd_Message g)) then Err (CEMessage (fd_Number f))
            else descend oldFiles newFiles rec (fd_Message f) (fd_Message g) v
       else Ok v) vis0 = Err CEFuel ->
    exists x o n, oldFiles !! x = Some o /\ newFiles !! x = Some n /\ rec o n vis = Err CEFuel).
  { intros vis0 Hv. unfold late_tests.
    destruct (negb (Bool.eqb (bool_decide (real_oneof f = None)) _)); [done|].
    destruct (negb (bool_decide (real_oneof f = real_oneof g))); [done|].
    destruct (bool_decide (fd_Kind f = MessageKind)); cbn [andb]; [|by destruct (_ && _)].
    destruct (bool_decide (is_Some (fd_Map f))) eqn:Em; cbn [negb]; [by destruct (_ && _)|].
    decide_tests. destruct Hv as [->|Hv]; [|by destruct Em; apply not_eq_None_Some].
    destruct (bool_decide (fd_Message f = fd_Message g)) eqn:E; cbn [negb]; [|done]. decide_tests.
    destruct (descend _ _ _ _ _ _) as [v|e] eqn:ED; [by destruct (_ && _)|].
    intros [= ->]. by apply (HD _ _ E). }
  destruct (fd_Map f) as [om|] eqn:Ef; [|by apply HL; left].
  destruct (fd_Map g) as [nm|]; [|by apply HL; left].
  destruct (negb (bool_decide (me_Key om = me_Key nm))); [done|].
  destruct (negb (bool_decide (me_Value om = me_Value nm))); [done|].
  destruct (bool_decide (me_Value om = MessageKind)); [|by apply HL; left].
  destruct (bool_decide (me_Message om = me_Message nm)) eqn:E; cbn [negb]; [|done]. decide_tests.
  destruct (descend _ _ _ _ _ _) as [v|e] eqn:ED; [by apply HL; right|].
  intros [= ->]. by apply (HD _ _ E).
Qed.

Lemma check_no_fuel_error fuel : well_named oldFiles -> forall x o n vis,
  oldFiles !! x = Some o -> newFiles !! x = Some n -> (size (dom oldFiles ∖ vis) < fuel)%nat ->
  checkMessageCompatibility oldFiles newFiles fuel o n vis <> Err CEFuel.
Proof.
  intros HN. induction fuel as [|fuel IH]; intros x o n vis Ho Hn Hb; [lia|]. cbn.
  rewrite (HN x o Ho). destruct (bool_decide (x ∈ vis)) eqn:E; [done|]. decide_tests.
  assert (x ∈ dom oldFiles) as Hdom by (by apply elem_of_dom_2 in Ho).
  assert (size (dom oldFiles ∖ ({[x]} ∪ vis)) < size (dom oldFiles ∖ vis))%nat as Hs
    by (apply subset_size; set_solver).
  assert (HC : forall fs v, {[x]} ∪ vis ⊆ v ->
    check_fields oldFiles newFiles (checkMessageCompatibility oldFiles newFiles fuel) n fs v <> Err CEFuel).
  { induction fs as [|f fs IHf]; intros v Hv; [done|]. cbn [check_fields].
    assert (size (dom oldFiles ∖ v) <= size (dom oldFiles ∖ ({[x]} ∪ vis)))%nat
      by (apply subseteq_size; set_solver).
    destruct (check_field _ _ _ _ _ _) as [v'|e] eqn:EF.
    - apply IHf. enough (v ⊆ v') by set_solver. apply check_field_spec in EF.
      destruct (by_number _ _); [|by destruct EF as [_ ->]]. destruct EF as [_ EF].
      by apply field_call_sound in EF as (? & _); [|apply check_sound].
    - intros [= ->]. apply check_field_fuel in EF as (y & o' & n' & Ho' & Hn' & HR).
      apply (IH y o' n' v) in HR; [done..|lia]. }
  specialize (HC (md_Fields o) ({[x]} ∪ vis) ltac:(done)).
  destruct (check_fields _ _ _ _ _ _); [|by intros [= ->]]. by destruct (check_added _ _).
Qed.

(** ** The tests and the rules *)

Lemma field_compatible_passes f g : field_compatible f g -> field_passes f g.
Proof.
  intros [H1 H2 H3 H4 H5 H6 H7]. split; try done; [|by intros; apply H6; [left|]].
  destruct (fd_Map f), (fd_Map g); naive_solver.
Qed.

Lemma field_passes_compatible f g : plain_field f -> field_passes f g -> field_compatible f g.
Proof.
  intros [Hg Hm] [H1 H2 H3 H4 H5 H6 H7]. split; try done; [|by intros [?|?] ?; [apply H6|]].
  destruct (fd_Map f) as [o|], (fd_Map g); try done. specialize (Hm o eq_refl). naive_solver.
Qed.

Lemma field_refs_type f : field_refs f ⊆ type_refs f.
Proof.
  unfold field_refs, type_refs. destruct (fd_Map f) as [m|]; [done|]. destruct (decide (fd_Kind f = MessageKind)) as [E|E];
    [|apply list_subseteq_nil]. by rewrite decide_True by (by left).
Qed.

Lemma type_refs_field f : plain_field f -> type_refs f = field_refs f.
Proof.
  intros [Hg _]. unfold field_refs, type_refs. destruct (fd_Map f); [done|].
  destruct (decide (fd_Kind f = MessageKind)) as [E|E]; [by rewrite decide_True by (by left)|].
  rewrite decide_False; [done|]. by intros [?|?].
Qed.

Lemma compatible_passes x : compatible oldFiles newFiles x -> passes x.
Proof.
  intros (V & Hx & HV). exists V. split; [done|]. intros y Hy. destruct (HV y Hy) as (o & n & Ho & Hn & [Hm1 Hm2] & Hr).
  exists o, n. split_and!; [done..| |].
  - split; [|done]. intros f Hf. specialize (Hm1 f Hf). destruct (by_number _ _); [by apply field_compatible_passes|done].
  - intros z (f & Hf & Hb & Hz). by eapply Hr, field_refs_type.
Qed.

Lemma passes_compatible x : plain oldFiles -> passes x -> compatible oldFiles newFiles x.
Proof.
  intros HP (V & Hx & HV). exists V. split; [done|]. intros y Hy. destruct (HV y Hy) as (o & n & Ho & Hn & [Hm1 Hm2] & Hr).
  exists o, n. split_and!; [done..| |].
  - split; [|done]. intros f Hf. specialize (Hm1 f Hf). destruct (by_number _ _); [|done].
    apply field_passes_compatible; [by eapply HP|done].
  - intros f z Hf Hb Hz. apply Hr. exists f. split_and!; [done..|]. rewrite <- type_refs_field; [done|]. by eapply HP.
Qed.
End rules.

(** ** Theorems *)

(** The check decides its own tests. *)
Lemma check_decides oldFiles newFiles o n :
  well_named oldFiles -> oldFiles !! md_FullName o = Some o -> newFiles !! md_FullName n = Some n ->
  (CheckMessageCompatibility oldFiles newFiles (Some o) (Some n) = Ok () <->
   md_FullName o = md_FullName n /\ passes oldFiles newFiles (md_FullName o)) /\
  CheckMessageCompatibility oldFiles newFiles (Some o) (Some n) <> Err CEFuel.
Proof.
  intros HN Ho Hn. unfold CheckMessageCompatibility.
  destruct (bool_decide (md_FullName o = md_FullName n)) eqn:E; cbn [negb]; decide_tests.
  2: { split; [|done]. split; [done|by intros [? _]]. }
  rewrite <- E in Hn.
  assert (size (dom oldFiles ∖ ∅) < compat_fuel oldFiles)%nat as Hfuel.
  { unfold compat_fuel. rewrite difference_empty_L, size_dom. lia. }
  pose proof (check_no_fuel_error oldFiles newFiles _ HN _ o n ∅ Ho Hn Hfuel) as HF.
  split; [|by destruct (checkMessageCompatibility _ _ _ _ _ _); [|intros [= ->]]].
  destruct (checkMessageCompatibility _ _ _ _ _ _) as [v|e] eqn:EC.
  - split; [|done]. intros _. split; [done|]. exists v.
    destruct (check_sound oldFiles newFiles _ HN _ _ _ _ _ Ho Hn EC) as (_ & Hx & HS).
    split; [done|]. intros x Hxv. apply HS; [done|apply not_elem_of_empty].
  - split; [done|]. intros [_ (V & HxV & HV)]. exfalso.
    assert (V ⊆ dom oldFiles) as Hsub.
    { intros x Hx. destruct (HV x Hx) as (o' & _ & Ho' & _). by apply elem_of_dom_2 in Ho'. }
    destruct (check_complete oldFiles newFiles V HV (compat_fuel oldFiles) HN _ o n ∅ HxV Ho Hn) as (v & Hv & _); [|by rewrite Hv in EC].
    eapply Nat.le_lt_trans; [|exact Hfuel]. apply subseteq_size. set_solver.
Qed.


(** ** Examples *)

Definition scalar_field (n : Z) (k : Kind) : FieldDescriptor :=
  mkField n k Optional false None None [] [].
Definition map_enum_field (n : Z) (enum : bytes) : FieldDescriptor :=
  mkField n MessageKind Repeated false (Some (mkMapEntry StringKind EnumKind [] enum)) None [] [].

(** A recursive message and a version with one more field. *)
Definition tree1 : MessageDescriptor :=
  mkMessage (go "Tree")
    [scalar_field 1 StringKind; mkField 2 MessageKind Optional false None None (go "Tree") []] [].
Definition tree2 : MessageDescriptor :=
  mkMessage (go "Tree")
    [scalar_field 1 StringKind; mkField 2 MessageKind Optional false None None (go "Tree") [];
     scalar_field 3 Int64Kind] [].

Lemma well_named_singleton md : well_named {[ md_FullName md := md ]}.
Proof. intros x md' Hx. by apply lookup_singleton_Some in Hx as [<- <-]. Qed.

Lemma tree1_plain : plain {[ go "Tree" := tree1 ]}.
Proof.
  intros x md f Hx Hf. apply lookup_singleton_Some in Hx as [_ <-].
  repeat (apply elem_of_cons in Hf as [->|Hf]; [by split|]). by apply not_elem_of_nil in Hf.
Qed.


(** The enum type of a map value is not checked.  Changing the values of a
    map field from one enum type to another is accepted, while the same change
    of a singular field is rejected. *)
Theorem map_enum_change_accepted :
  let old b := mkMessage (go "M") [if b : bool then map_enum_field 1 (go "A")
                                   else mkField 1 EnumKind Optional false None None [] (go "A")] [] in
  let new b := mkMessage (go "M") [if b : bool then map_enum_field 1 (go "B")
                                   else mkField 1 EnumKind Optional false None None [] (go "B")] [] in
  let check b := CheckMessageCompatibility {[ go "M" := old b ]} {[ go "M" := new b ]} (Some (old b)) (Some (new b)) in
  check true = Ok () /\ check false = Err (CEEnum 1).
Proof. vm_compute. done. Qed.

(** The message of a group is not checked either: the type of a group field may
    change. *)
Theorem group_change_accepted :
  let group t := mkField 1 GroupKind Optional false None None t [] in
  let old := mkMessage (go "M") [group (go "A")] [] in
  let new := mkMessage (go "M") [group (go "B")] [] in
  CheckMessageCompatibility {[ go "M" := old ]} {[ go "M" := new ]} (Some old) (Some new) = Ok () /\
  ~ field_compatible (group (go "A")) (group (go "B")).
Proof. split; [vm_compute; reflexivity|]. intros [_ _ _ _ _ H _]. specialize (H (or_intror eq_refl) eq_refl). discriminate H. Qed.
