(* ===== verification/SdsRegistry.v ===== *)
(** * SdsRegistry: the in-band type registry of a stream

    [pkg/sds/record/fingerprint.go] and [registry.go]: canonical fingerprints of
    descriptor sets, type definitions with their intern table, and the registry
    that maps type ids and message names to definitions.  The protobuf runtime
    is the class [ProtoLib]: file descriptors, their serialisation and their
    resolution.  The process-wide caches of the Go package are an explicit
    state threaded through the operations. *)

From S2P Require Import Prelude Bytes Sha256 SdsFrame SdsSchema.

#[local] Open Scope Z_scope.
#[local] Open Scope list_scope.

(** ** The protobuf runtime *)

(** A [protoreflect.FileDescriptor]: its path, its imports (which protobuf
    keeps acyclic) and its [protodesc.ToFileDescriptorProto]. *)
Inductive FileDescriptor (F : Type) : Type :=
| mkFileDescriptor (path : bytes) (imports : list (FileDescriptor F)) (proto : F).
Arguments mkFileDescriptor {F} path imports proto.

Class ProtoLib : Type := {
  FileProto : Type;
  file_name : FileProto -> bytes;
  marshal_deterministic : list FileProto -> option bytes;
  marshal_fds : list FileProto -> option bytes;
  new_files : list FileProto -> option Files;
  parent_file : MessageDescriptor -> FileDescriptor FileProto;
  global_files : Files;
  global_types : Files;
}.

Section registry.
Context `{PL : ProtoLib}.

(** ** Fingerprints *)

(** The closure [walk] of [CollectFileDescriptors]: paths visited and files
    collected, imports first. *)
Fixpoint walk_files (fd : FileDescriptor FileProto) (st : gset bytes * list FileProto)
    : gset bytes * list FileProto :=
  match fd with
  | mkFileDescriptor path imports proto =>
    if bool_decide (path ∈ fst st) then st
    else
    let st := (fix go (l : list (FileDescriptor FileProto)) (st : gset bytes * list FileProto) :=
                 match l with
                 | [] => st
                 | fd :: l => go l (walk_files fd st)
                 end) imports ({[ path ]} ∪ fst st, snd st) in
    (fst st, snd st ++ [proto])
  end.

Definition file_le (a b : FileProto) : Prop := bytes_le (file_name a) (file_name b).

#[local] Instance file_le_dec a b : Decision (file_le a b).
Proof. unfold file_le. apply _. Defined.

(** [sort.Slice] by file name; the order is determined when names differ. *)
Definition sort_files (l : list FileProto) : list FileProto := merge_sort file_le l.

Definition CollectFileDescriptors (root : FileDescriptor FileProto) : list FileProto :=
  sort_files (snd (walk_files root (∅, []))).

Definition ExtractFileDescriptorSet (md : MessageDescriptor) : list FileProto :=
  CollectFileDescriptors (parent_file md).

Definition CanonicalMarshalFileDescriptorSet (fds : option (list FileProto)) : result sds_error bytes :=
  match fds with
  | None => Err ErrNil
  | Some files => result_of_option ErrMarshal (marshal_deterministic (sort_files files))
  end.

Definition ComputeFingerprint (fds : option (list FileProto)) : result sds_error bytes :=
  match CanonicalMarshalFileDescriptorSet fds with
  | Err e => Err e
  | Ok b => Ok (sha256 b)
  end.

Definition ComputeMessageFingerprint (md : MessageDescriptor)
    : result sds_error (bytes * list FileProto) :=
  let fds := ExtractFileDescriptorSet md in
  match ComputeFingerprint (Some fds) with
  | Err e => Err e
  | Ok fp => Ok (fp, fds)
  end.

(** ** Type definitions and the process-wide caches *)

Record TypeDefinition : Type := mkTypeDefinition {
  td_Id : Z;
  td_Name : bytes;
  td_Fingerprint : bytes;
  td_Descriptors : option (list FileProto);
  td_KeyFields : list Z;
}.

Record Caches : Type := mkCaches {
  ca_compiledFP : gmap bytes bytes;
  ca_dynamicFiles : gmap bytes Files;
  ca_typeDefs : gmap (bytes * bytes) TypeDefinition;
}.

Definition no_caches : Caches := mkCaches ∅ ∅ ∅.

Definition typeDefKey (d : TypeDefinition) : bytes * bytes := (td_Name d, td_Fingerprint d).

(** A definition that takes name, fingerprint and descriptors from the interned one. *)
Definition from_interned (interned : TypeDefinition) (id : Z) (keyFields : list Z) : TypeDefinition :=
  if bool_decide (id = td_Id interned /\ keyFields = td_KeyFields interned) then interned
  else mkTypeDefinition id (td_Name interned) (td_Fingerprint interned) (td_Descriptors interned) keyFields.

Definition internOrCloneTypeDef (ca : Caches) (d : TypeDefinition) : TypeDefinition :=
  match ca_typeDefs ca !! typeDefKey d with
  | Some interned => from_interned interned (td_Id d) (td_KeyFields d)
  | None => d
  end.

Definition maybeInternTypeDef (ca : Caches) (d : TypeDefinition) : Caches :=
  if bool_decide (td_Name d = [] \/ td_Fingerprint d = [] \/ td_Descriptors d = None) then ca
  else
  match ca_typeDefs ca !! typeDefKey d with
  | Some _ => ca
  | None => mkCaches (ca_compiledFP ca) (ca_dynamicFiles ca) (<[typeDefKey d := d]> (ca_typeDefs ca))
  end.

Definition getCompiledFingerprint (ca : Caches) (md : MessageDescriptor) : Caches * result sds_error bytes :=
  match ca_compiledFP ca !! md_FullName md with
  | Some fp => (ca, Ok fp)
  | None =>
    match ComputeMessageFingerprint md with
    | Err e => (ca, Err e)
    | Ok (fp, _) =>
      (mkCaches (<[md_FullName md := fp]> (ca_compiledFP ca)) (ca_dynamicFiles ca) (ca_typeDefs ca), Ok fp)
    end
  end.

Definition getOrCreateFiles (ca : Caches) (fds : option (list FileProto)) : Caches * result sds_error Files :=
  match fds with
  | None => (ca, Err ErrMissingDescriptors)
  | Some files =>
    match marshal_fds files with
    | None => (ca, Err ErrMarshal)
    | Some raw =>
      let key := sha256 raw in
      match ca_dynamicFiles ca !! key with
      | Some fs => (ca, Ok fs)
      | None =>
        match new_files files with
        | None => (ca, Err ErrDescriptors)
        | Some fs => (mkCaches (ca_compiledFP ca) (<[key := fs]> (ca_dynamicFiles ca)) (ca_typeDefs ca), Ok fs)
        end
      end
    end
  end.

(** ** Compatibility of definitions *)

Definition CheckCompatibility (oldDef newDef : TypeDefinition) : result compat_error () :=
  if negb (bool_decide (td_Name oldDef = td_Name newDef)) then Err CEName
  else if negb (bool_decide (td_KeyFields oldDef = td_KeyFields newDef)) then Err CEKeyFields
  else
  match td_Descriptors oldDef, td_Descriptors newDef with
  | Some oldFds, Some newFds =>
    match new_files oldFds, new_files newFds with
    | Some oldFiles, Some newFiles =>
      match oldFiles !! td_Name oldDef, newFiles !! td_Name newDef with
      | Some oldMD, Some newMD =>
        match checkMessageCompatibility oldFiles newFiles (compat_fuel oldFiles) oldMD newMD ∅ with
        | Err e => Err e
        | Ok _ => Ok ()
        end
      | _, _ => Err CENotFound
      end
    | _, _ => Err CEDescriptors
    end
  | _, _ => Err CENil
  end.

(** ** The registry *)

(** A descriptor as the registry holds it; the compiled-in ones are identified
    by their name. *)
Inductive Desc : Type :=
| CompiledDesc (md : MessageDescriptor)
| DynamicDesc (md : MessageDescriptor).

Definition desc_md (d : Desc) : MessageDescriptor :=
  match d with CompiledDesc md | DynamicDesc md => md end.

Inductive MessageType : Type :=
| CompiledType (md : MessageDescriptor)
| DynamicType (md : MessageDescriptor).

Record typeEntry : Type := mkTypeEntry {
  te_id : Z;
  te_def : TypeDefinition;
  te_descriptor : Desc;
  te_resolvedType : MessageType;
}.

Record Registry : Type := mkRegistry {
  rg_types : gmap Z typeEntry;
  rg_byName : gmap bytes Z;
  rg_nextID : Z;
}.

Definition NewRegistry : Registry := mkRegistry ∅ ∅ MinAppTypeID.

Definition resolveMessageDescriptor (ca : Caches) (d : TypeDefinition) : Caches * result sds_error Desc :=
  let '(ca, compiled) :=
    match global_files !! td_Name d with
    | Some md =>
      let '(ca, fp) := getCompiledFingerprint ca md in
      (ca, match fp with
           | Ok fp => if bool_decide (fp = td_Fingerprint d) then Some md else None
           | Err _ => None
           end)
    | None => (ca, None)
    end in
  match compiled with
  | Some md => (ca, Ok (CompiledDesc md))
  | None =>
    let '(ca, files) := getOrCreateFiles ca (td_Descriptors d) in
    (ca, match files with
         | Err e => Err e
         | Ok fs =>
           match fs !! td_Name d with
           | None => Err ErrDescriptors
           | Some md => Ok (DynamicDesc md)
           end
         end)
  end.

Definition resolveMessageType (ca : Caches) (d : TypeDefinition) (md : Desc) : Caches * result sds_error MessageType :=
  match global_types !! td_Name d with
  | Some compiledMD =>
    match md with
    | CompiledDesc _ => (ca, Ok (CompiledType compiledMD))
    | DynamicDesc m =>
      let '(ca, fp) := getCompiledFingerprint ca compiledMD in
      (ca, match fp with
           | Err e => Err e
           | Ok fp => if bool_decide (fp = td_Fingerprint d) then Ok (CompiledType compiledMD)
                      else Ok (DynamicType m)
           end)
    end
  | None => (ca, Ok (DynamicType (desc_md md)))
  end.

(** The fingerprint is recomputed unless an interned definition vouches for it. *)
Definition check_fingerprint (ca : Caches) (d : TypeDefinition) : result sds_error () :=
  match ca_typeDefs ca !! typeDefKey d with
  | Some _ => Ok ()
  | None =>
    match ComputeFingerprint (td_Descriptors d) with
    | Err _ => Err ErrFingerprint
    | Ok fp => if bool_decide (fp = td_Fingerprint d) then Ok () else Err ErrFingerprintMismatch
    end
  end.

(** A key field must exist and be a singular scalar. *)
Definition check_key_field (md : MessageDescriptor) (kf : Z) : bool :=
  match by_number (md_Fields md) kf with
  | None => false
  | Some f =>
    negb (fd_IsList f) && negb (fd_IsMap f) &&
    negb (bool_decide (fd_Kind f = MessageKind \/ fd_Kind f = GroupKind))
  end.

Fixpoint check_key_fields (md : MessageDescriptor) (kfs : list Z) : result sds_error () :=
  match kfs with
  | [] => Ok ()
  | kf :: kfs => if check_key_field md kf then check_key_fields md kfs else Err (ErrKeyField kf)
  end.

Definition set_entry (s : Registry) (d : TypeDefinition) (md : Desc) (mt : MessageType) (next : Z) : Registry :=
  mkRegistry (<[td_Id d := mkTypeEntry (td_Id d) d md mt]> (rg_types s))
    (<[td_Name d := td_Id d]> (rg_byName s)) next.

Definition registerIntoSnapshot (ca : Caches) (s : Registry) (d : TypeDefinition)
    : Caches * result sds_error Registry :=
  if td_Id d <? MinAppTypeID then (ca, Err ErrTypeIDTooLow)
  else if bool_decide (td_Name d = []) then (ca, Err ErrEmptyName)
  else if bool_decide (td_Fingerprint d = []) then (ca, Err ErrEmptyFingerprint)
  else
  let existing := rg_types s !! td_Id d in
  let by_id_conflict :=
    match existing with
    | Some e => negb (bool_decide (td_Name (te_def e) = td_Name d))
    | None => false
    end in
  let by_name_conflict :=
    match rg_byName s !! td_Name d with
    | Some id => negb (id =? td_Id d)
    | None => false
    end in
  if by_id_conflict then
    (ca, Err (ErrTypeConflict (match existing with Some e => te_id e | None => 0 end)
                (match existing with Some e => td_Name (te_def e) | None => [] end) (td_Id d) (td_Name d)))
  else if by_name_conflict then
    (ca, Err (ErrTypeConflict (default 0 (rg_byName s !! td_Name d)) (td_Name d) (td_Id d) (td_Name d)))
  else
  match existing with
  | Some e =>
    if bool_decide (td_Fingerprint (te_def e) = td_Fingerprint d) then (ca, Ok s)
    else
    match CheckCompatibility (te_def e) d with
    | Err _ => (ca, Err ErrIncompatible)
    | Ok _ =>
      match check_fingerprint ca d with
      | Err e => (ca, Err e)
      | Ok _ =>
        let '(ca, md) := resolveMessageDescriptor ca d in
        match md with
        | Err e => (ca, Err e)
        | Ok md =>
          let '(ca, mt) := resolveMessageType ca d md in
          match mt with
          | Err e => (ca, Err e)
          | Ok mt => (maybeInternTypeDef ca d, Ok (set_entry s d md mt (rg_nextID s)))
          end
        end
      end
    end
  | None =>
    if bool_decide (td_Descriptors d = None) then (ca, Err ErrMissingDescriptors)
    else
    match check_fingerprint ca d with
    | Err e => (ca, Err e)
    | Ok _ =>
      let '(ca, md) := resolveMessageDescriptor ca d in
      match md with
      | Err e => (ca, Err e)
      | Ok md =>
        match check_key_fields (desc_md md) (td_KeyFields d) with
        | Err e => (ca, Err e)
        | Ok _ =>
          let '(ca, mt) := resolveMessageType ca d md in
          match mt with
          | Err e => (ca, Err e)
          | Ok mt =>
            let next := if rg_nextID s <=? td_Id d then u32 (td_Id d + 1) else rg_nextID s in
            (maybeInternTypeDef ca d, Ok (set_entry s d md mt next))
          end
        end
      end
    end
  end.

(** [update]: the new snapshot is installed only when the function succeeded. *)
Definition update (ca : Caches) (r : Registry)
    (fn : Caches -> Registry -> Caches * result sds_error Registry) : Caches * Registry * result sds_error () :=
  let '(ca, res) := fn ca r in
  match res with
  | Err e => (ca, r, Err e)
  | Ok r' => (ca, r', Ok ())
  end.

Definition Registry_Register (ca : Caches) (r : Registry) (d : option TypeDefinition)
    : Caches * Registry * result sds_error () :=
  match d with
  | None => (ca, r, Err ErrNil)
  | Some d =>
    let d := internOrCloneTypeDef ca d in
    update ca r (fun ca s => registerIntoSnapshot ca s d)
  end.

(** [LoadOrStore] of a definition under its key. *)
Definition load_or_store (ca : Caches) (d : TypeDefinition) : Caches * TypeDefinition :=
  match ca_typeDefs ca !! typeDefKey d with
  | Some interned => (ca, interned)
  | None =>
    (mkCaches (ca_compiledFP ca) (ca_dynamicFiles ca) (<[typeDefKey d := d]> (ca_typeDefs ca)), d)
  end.

Definition BuildTypeDefinition (ca : Caches) (typeID : Z) (md : Desc) (keyFields : list Z)
    : Caches * result sds_error TypeDefinition :=
  let '(ca, early) :=
    match md with
    | CompiledDesc m =>
      let '(ca, fp) := getCompiledFingerprint ca m in
      (ca, match fp with
           | Err e => Some (Err e)
           | Ok fp =>
             match ca_typeDefs ca !! (md_FullName m, fp) with
             | Some interned => Some (Ok (from_interned interned typeID keyFields))
             | None => None
             end
           end)
    | DynamicDesc _ => (ca, None)
    end in
  match early with
  | Some r => (ca, r)
  | None =>
    let m := desc_md md in
    match ComputeMessageFingerprint m with
    | Err e => (ca, Err e)
    | Ok (fp, fds) =>
      match ca_typeDefs ca !! (md_FullName m, fp) with
      | Some interned => (ca, Ok (from_interned interned typeID keyFields))
      | None =>
        let d := mkTypeDefinition typeID (md_FullName m) fp (Some fds) keyFields in
        let '(ca, interned) := load_or_store ca d in
        (ca, Ok (if bool_decide (td_Id interned = typeID /\ td_KeyFields interned = keyFields)
                 then interned else d))
      end
    end
  end.

Definition Registry_RegisterDescriptor (ca : Caches) (r : Registry) (md : option Desc) (keyFields : list Z)
    : Caches * Registry * result sds_error TypeDefinition :=
  match md with
  | None => (ca, r, Err ErrNil)
  | Some md =>
    let typeID := default (rg_nextID r) (rg_byName r !! md_FullName (desc_md md)) in
    let '(ca, d) := BuildTypeDefinition ca typeID md keyFields in
    match d with
    | Err e => (ca, r, Err e)
    | Ok d =>
      let '(ca, r', res) := update ca r (fun ca s => registerIntoSnapshot ca s d) in
      (ca, r', match res with Err e => Err e | Ok _ => Ok d end)
    end
  end.

(** A Go message carries its own descriptor. *)
Definition Registry_RegisterMessage (ca : Caches) (r : Registry) (msg : option Desc) (keyFields : list Z)
    : Caches * Registry * result sds_error TypeDefinition :=
  match msg with
  | None => (ca, r, Err ErrNil)
  | Some md => Registry_RegisterDescriptor ca r (Some md) keyFields
  end.

Definition Registry_LookupByID (r : Registry) (id : Z) : option (TypeDefinition * Desc) :=
  e ← rg_types r !! id; Some (te_def e, te_descriptor e).

Definition Registry_LookupByName (r : Registry) (name : bytes) : option (TypeDefinition * Desc) :=
  id ← rg_byName r !! name; e ← rg_types r !! id; Some (te_def e, te_descriptor e).

Definition Registry_ResolveMessageType (r : Registry) (id : Z) : result sds_error MessageType :=
  match rg_types r !! id with
  | None => Err (ErrTypeNotRegistered id)
  | Some e => Ok (te_resolvedType e)
  end.

Definition def_le (a b : TypeDefinition) : Prop := td_Id a <= td_Id b.

#[local] Instance def_le_dec a b : Decision (def_le a b).
Proof. unfold def_le. apply _. Defined.

(** [Export]: the definitions in order of their ids. *)
Definition Registry_Export (r : Registry) : list TypeDefinition :=
  merge_sort def_le ((fun x => te_def (snd x)) <$> map_to_list (rg_types r)).

(** [Import] skips nil definitions. *)
Fixpoint import_all (ca : Caches) (s : Registry) (defs : list (option TypeDefinition))
    : Caches * result sds_error Registry :=
  match defs with
  | [] => (ca, Ok s)
  | None :: defs => import_all ca s defs
  | Some d :: defs =>
    let '(ca, res) := registerIntoSnapshot ca s (internOrCloneTypeDef ca d) in
    match res with
    | Err e => (ca, Err e)
    | Ok s => import_all ca s defs
    end
  end.

Definition Registry_Import (ca : Caches) (r : Registry) (defs : list (option TypeDefinition))
    : Caches * Registry * result sds_error () :=
  update ca r (fun ca s => import_all ca s defs).
(** ** Fingerprints are canonical *)

#[local] Instance file_le_total : Total file_le.
Proof. intros a b. apply (total bytes_le). Qed.
#[local] Instance file_le_trans : Transitive file_le.
Proof. intros a b c. apply bytes_le_trans. Qed.

Lemma sort_files_perm l l' :
  l ≡ₚ l' -> NoDup (file_name <$> l) -> sort_files l = sort_files l'.
Proof.
  intros HP HN.
  assert (sort_files l ≡ₚ sort_files l') as HP'.
  { unfold sort_files. by rewrite !merge_sort_Permutation. }
  assert (NoDup (file_name <$> sort_files l)) as HN'.
  { unfold sort_files. by rewrite merge_sort_Permutation. }
  assert (HS : forall k, StronglySorted file_le (sort_files k))
    by (intros; apply StronglySorted_merge_sort; apply _).
  pose proof (HS l) as HS1. pose proof (HS l') as HS2. revert HP' HN' HS1 HS2.
  generalize (sort_files l) (sort_files l'). clear HP HN HS l l'.
  intros l. induction l as [|a l IH]; intros l' HP HN HS1 HS2.
  { by apply Permutation_nil_l in HP. }
  destruct l' as [|b l']; [by apply Permutation_nil_r in HP|].
  inversion HS1 as [|? ? HS1' HF1]; subst. inversion HS2 as [|? ? HS2' HF2]; subst.
  assert (a = b) as <-.
  { assert (a ∈ b :: l') as Ha by (rewrite <- HP; left).
    assert (b ∈ a :: l) as Hb by (rewrite HP; left).
    apply elem_of_cons in Ha as [->|Ha]; [done|]. apply elem_of_cons in Hb as [->|Hb]; [done|].
    rewrite Forall_forall in HF1, HF2.
    assert (file_name a = file_name b) as E
      by (apply (anti_symm bytes_le); [by apply HF1|by apply HF2]).
    exfalso. cbn in HN. apply NoDup_cons in HN as [HN _]. apply HN. rewrite E.
    by apply list_elem_of_fmap_2. }
  f_equal. apply IH; [by apply Permutation_cons_inv in HP|by apply NoDup_cons in HN as [_ ?]|done..].
Qed.

(** ** Invariants *)

(** Every interned definition carries the fingerprint of its descriptors. *)
Definition caches_ok (ca : Caches) : Prop :=
  forall k d, ca_typeDefs ca !! k = Some d ->
    typeDefKey d = k /\ ComputeFingerprint (td_Descriptors d) = Ok (td_Fingerprint d).

(** A definition as [internOrCloneTypeDef] returns it. *)
Definition interned_form (ca : Caches) (d : TypeDefinition) : Prop :=
  forall d0, ca_typeDefs ca !! typeDefKey d = Some d0 -> td_Descriptors d = td_Descriptors d0.

Record entry_ok (id : Z) (e : typeEntry) : Prop := {
  eo_id : te_id e = id;
  eo_def_id : td_Id (te_def e) = id;
  eo_range : MinAppTypeID <= id <= u32_max;
  eo_fingerprint : ComputeFingerprint (td_Descriptors (te_def e)) = Ok (td_Fingerprint (te_def e));
}.

Record registry_ok (r : Registry) : Prop := {
  ro_entries : forall id e, rg_types r !! id = Some e -> entry_ok id e;
  ro_names : forall n id, rg_byName r !! n = Some id <->
               exists e, rg_types r !! id = Some e /\ td_Name (te_def e) = n;
  ro_next_u32 : 0 <= rg_nextID r <= u32_max;
  ro_next : is_Some (rg_types r !! u32_max) \/
            (MinAppTypeID <= rg_nextID r /\
             forall id, is_Some (rg_types r !! id) -> id < rg_nextID r);
}.

Lemma NewRegistry_ok : registry_ok NewRegistry.
Proof.
  split; cbn.
  - intros id e He. by rewrite lookup_empty in He.
  - intros n id. rewrite lookup_empty. setoid_rewrite lookup_empty. naive_solver.
  - done.
  - right. split; [done|]. intros id [e He]. by rewrite lookup_empty in He.
Qed.

Lemma from_interned_fields d0 id kfs :
  td_Id (from_interned d0 id kfs) = id /\ td_KeyFields (from_interned d0 id kfs) = kfs /\
  td_Name (from_interned d0 id kfs) = td_Name d0 /\
  td_Fingerprint (from_interned d0 id kfs) = td_Fingerprint d0 /\
  td_Descriptors (from_interned d0 id kfs) = td_Descriptors d0.
Proof.
  unfold from_interned. destruct (bool_decide _) eqn:E; decide_tests; [|done].
  destruct E as [-> ->]. done.
Qed.

Lemma intern_form ca d : caches_ok ca -> interned_form ca (internOrCloneTypeDef ca d).
Proof.
  intros HC. unfold internOrCloneTypeDef, interned_form.
  destruct (ca_typeDefs ca !! typeDefKey d) as [d0|] eqn:E; [|intros d1 H1; congruence].
  destruct (HC _ _ E) as [HK _].
  destruct (from_interned_fields d0 (td_Id d) (td_KeyFields d)) as (_ & _ & Hn & Hf & Hd).
  unfold typeDefKey. rewrite Hn, Hf, Hd. fold (typeDefKey d0). rewrite HK. congruence.
Qed.

Lemma intern_id ca d : td_Id (internOrCloneTypeDef ca d) = td_Id d.
Proof.
  unfold internOrCloneTypeDef. destruct (ca_typeDefs ca !! _); [|done].
  apply from_interned_fields.
Qed.

Lemma check_fingerprint_ok ca d :
  caches_ok ca -> interned_form ca d -> check_fingerprint ca d = Ok () ->
  ComputeFingerprint (td_Descriptors d) = Ok (td_Fingerprint d).
Proof.
  intros HC HI. unfold check_fingerprint.
  destruct (ca_typeDefs ca !! typeDefKey d) as [d0|] eqn:E.
  - intros _. destruct (HC _ _ E) as [HK HF]. rewrite (HI _ E), HF.
    unfold typeDefKey in HK. congruence.
  - destruct (ComputeFingerprint _) as [fp|]; [|done]. destruct (bool_decide _) eqn:EB; [|done].
    decide_tests. by subst.
Qed.

Lemma getCompiledFingerprint_defs ca md : ca_typeDefs (fst (getCompiledFingerprint ca md)) = ca_typeDefs ca.
Proof.
  unfold getCompiledFingerprint. destruct (ca_compiledFP ca !! _); [done|].
  by destruct (ComputeMessageFingerprint md) as [[]|].
Qed.

Lemma getOrCreateFiles_defs ca fds : ca_typeDefs (fst (getOrCreateFiles ca fds)) = ca_typeDefs ca.
Proof. unfold getOrCreateFiles. by repeat case_match. Qed.

Lemma resolveMessageDescriptor_defs ca d : ca_typeDefs (fst (resolveMessageDescriptor ca d)) = ca_typeDefs ca.
Proof.
  unfold resolveMessageDescriptor. destruct (global_files !! _) as [md|].
  - pose proof (getCompiledFingerprint_defs ca md) as HG.
    destruct (getCompiledFingerprint ca md) as [ca1 [fp|]]; cbn in HG.
    + destruct (bool_decide _); [done|]. pose proof (getOrCreateFiles_defs ca1 (td_Descriptors d)) as HF.
      destruct (getOrCreateFiles ca1 _). cbn in HF |- *. congruence.
    + pose proof (getOrCreateFiles_defs ca1 (td_Descriptors d)) as HF.
      destruct (getOrCreateFiles ca1 _). cbn in HF |- *. congruence.
  - pose proof (getOrCreateFiles_defs ca (td_Descriptors d)) as HF.
    by destruct (getOrCreateFiles ca _).
Qed.

Lemma resolveMessageType_defs ca d md : ca_typeDefs (fst (resolveMessageType ca d md)) = ca_typeDefs ca.
Proof.
  unfold resolveMessageType. destruct (global_types !! _) as [c|]; [|done]. destruct md; [done|].
  pose proof (getCompiledFingerprint_defs ca c) as HG. by destruct (getCompiledFingerprint ca c).
Qed.

Lemma maybeIntern_ok ca d :
  caches_ok ca -> ComputeFingerprint (td_Descriptors d) = Ok (td_Fingerprint d) ->
  caches_ok (maybeInternTypeDef ca d).
Proof.
  intros HC HF. unfold maybeInternTypeDef. destruct (bool_decide _); [done|].
  destruct (ca_typeDefs ca !! _) eqn:E; [done|]. intros k d' Hk. cbn in Hk.
  destruct (decide (k = typeDefKey d)) as [->|Hne].
  - rewrite lookup_insert_eq in Hk. by injection Hk as <-.
  - rewrite lookup_insert_ne in Hk by done. by apply HC.
Qed.

Lemma caches_ok_defs ca ca' : ca_typeDefs ca' = ca_typeDefs ca -> caches_ok ca -> caches_ok ca'.
Proof. unfold caches_ok. by intros ->. Qed.
(** ** Registration preserves the invariants *)

Definition no_conflict (s : Registry) (d : TypeDefinition) : Prop :=
  (forall e, rg_types s !! td_Id d = Some e -> td_Name (te_def e) = td_Name d) /\
  (forall id, rg_byName s !! td_Name d = Some id -> id = td_Id d).

Lemma set_entry_ok s d md mt next :
  registry_ok s -> no_conflict s d -> MinAppTypeID <= td_Id d <= u32_max ->
  ComputeFingerprint (td_Descriptors d) = Ok (td_Fingerprint d) ->
  (is_Some (rg_types s !! td_Id d) /\ next = rg_nextID s \/
   next = if rg_nextID s <=? td_Id d then u32 (td_Id d + 1) else rg_nextID s) ->
  registry_ok (set_entry s d md mt next).
Proof.
  intros [HE HN HU HX] [HC1 HC2] Hr HF Hnext. split; cbn [set_entry rg_types rg_byName rg_nextID].
  - intros id e He. destruct (decide (id = td_Id d)) as [->|Hne].
    + rewrite lookup_insert_eq in He. injection He as <-. by split.
    + rewrite lookup_insert_ne in He by done. by apply HE.
  - intros n id. destruct (decide (n = td_Name d)) as [->|Hne].
    + rewrite lookup_insert_eq. split.
      * intros [= <-]. rewrite lookup_insert_eq. by eexists.
      * intros (e & He & Hn). destruct (decide (id = td_Id d)) as [->|Hid]; [done|].
        rewrite lookup_insert_ne in He by done.
        assert (rg_byName s !! td_Name d = Some id) as Hb by (apply HN; eauto).
        by apply HC2 in Hb.
    + rewrite lookup_insert_ne by done. rewrite HN.
      destruct (decide (id = td_Id d)) as [->|Hid].
      * rewrite lookup_insert_eq. split.
        -- intros (e & He & Hn). apply HC1 in He. congruence.
        -- intros (e & [= <-] & Hn). by cbn in Hn.
      * by rewrite lookup_insert_ne.
  - assert (0 <= u32 (td_Id d + 1) <= u32_max) by apply u32_range.
    destruct Hnext as [[_ ->]| -> ]; [done|]. by destruct (_ <=? _).
  - destruct HX as [HX|[HX1 HX2]].
    { left. destruct (decide (td_Id d = u32_max)) as [->|Hne];
        [rewrite lookup_insert_eq; eauto|by rewrite lookup_insert_ne]. }
    destruct (decide (td_Id d = u32_max)) as [Hm|Hm]; [left; rewrite Hm, lookup_insert_eq; eauto|].
    right. destruct Hnext as [[Hs ->]| -> ].
    + split; [done|]. intros id [e He]. destruct (decide (id = td_Id d)) as [->|Hne]; [by apply HX2|].
      rewrite lookup_insert_ne in He by done. apply HX2. eauto.
    + assert (u32 (td_Id d + 1) = td_Id d + 1) as Hu
        by (apply u32_small; unfold is_u32, u32_max, MinAppTypeID in *; lia).
      destruct (rg_nextID s <=? td_Id d) eqn:E; zify_bool; rewrite ?Hu.
      * split; [lia|]. intros id [e He].
        destruct (decide (id = td_Id d)) as [->|Hne]; [lia|].
        rewrite lookup_insert_ne in He by done. assert (id < rg_nextID s) by (apply HX2; eauto). lia.
      * split; [done|]. intros id [e He]. destruct (decide (id = td_Id d)) as [->|Hne]; [lia|].
        rewrite lookup_insert_ne in He by done. apply HX2. eauto.
Qed.

(** What a registration did, when it succeeded. *)
Inductive registered (s : Registry) (d : TypeDefinition) : Registry -> Prop :=
| reg_known e :
    rg_types s !! td_Id d = Some e -> td_Name (te_def e) = td_Name d ->
    td_Fingerprint (te_def e) = td_Fingerprint d -> registered s d s
| reg_evolved e md mt :
    rg_types s !! td_Id d = Some e -> CheckCompatibility (te_def e) d = Ok () ->
    registered s d (set_entry s d md mt (rg_nextID s))
| reg_new md mt :
    rg_types s !! td_Id d = None -> td_Descriptors d <> None ->
    check_key_fields (desc_md md) (td_KeyFields d) = Ok () ->
    registered s d
      (set_entry s d md mt (if rg_nextID s <=? td_Id d then u32 (td_Id d + 1) else rg_nextID s)).

Ltac resolve_defs :=
  repeat match goal with
  | E : resolveMessageDescriptor ?c ?d = (?c', _) |- _ =>
    let X := fresh "HD" in
    pose proof (resolveMessageDescriptor_defs c d) as X; rewrite E in X; cbn in X; clear E
  | E : resolveMessageType ?c ?d ?m = (?c', _) |- _ =>
    let X := fresh "HD" in
    pose proof (resolveMessageType_defs c d m) as X; rewrite E in X; cbn in X; clear E
  end.

Lemma register_err_defs ca s d ca' e :
  registerIntoSnapshot ca s d = (ca', Err e) -> ca_typeDefs ca' = ca_typeDefs ca.
Proof.
  unfold registerIntoSnapshot. intros H.
  repeat case_match; simplify_eq; try done; resolve_defs; congruence.
Qed.

Lemma register_ok_cases ca s d ca' s' :
  registerIntoSnapshot ca s d = (ca', Ok s') ->
  MinAppTypeID <= td_Id d /\ td_Name d <> [] /\ td_Fingerprint d <> [] /\ no_conflict s d /\ registered s d s' /\
  (s' = s /\ ca' = ca /\ is_Some (rg_types s !! td_Id d) \/
   check_fingerprint ca d = Ok () /\
   exists ca1, ca_typeDefs ca1 = ca_typeDefs ca /\ ca' = maybeInternTypeDef ca1 d).
Proof.
  unfold registerIntoSnapshot. intros H.
  destruct (td_Id d <? MinAppTypeID) eqn:E1; [done|]. zify_bool. split; [done|].
  destruct (bool_decide (td_Name d = [])) eqn:E2; [done|].
  destruct (bool_decide (td_Fingerprint d = [])) eqn:E3; [done|]. decide_tests. do 2 (split; [done|]).
  assert (no_conflict s d) as HNC.
  { split.
    - intros e He. rewrite He in H. destruct (bool_decide (td_Name _ = _)) eqn:EB; [by decide_tests|done].
    - intros id Hid. rewrite Hid in H. destruct (id =? td_Id d) eqn:EB; [by zify_bool|].
      cbn in H. by destruct (match rg_types s !! td_Id d with Some _ => _ | None => _ end). }
  split; [done|]. destruct HNC as [HN1 HN2].
  destruct (rg_types s !! td_Id d) as [e|] eqn:ET.
  - rewrite (HN1 e eq_refl), bool_decide_true in H by done. cbn in H.
    destruct (match rg_byName s !! td_Name d with Some _ => _ | None => _ end); [done|].
    destruct (bool_decide (td_Fingerprint (te_def e) = _)) eqn:EF.
    + decide_tests. injection H as <- <-. split; [|left; eauto].
      apply (reg_known s d e); auto.
    + repeat case_match; simplify_eq. split; [eapply reg_evolved; [done|]|right; split; [|eexists; split; [|done]]].
      all: repeat match goal with u : () |- _ => destruct u end; resolve_defs; congruence.
  - cbn in H. destruct (match rg_byName s !! td_Name d with Some _ => _ | None => _ end); [done|].
    destruct (bool_decide (td_Descriptors d = None)) eqn:ED; [done|]. decide_tests.
    destruct (check_fingerprint ca d) as [[]|] eqn:EF; [|done].
    destruct (resolveMessageDescriptor ca d) as [ca1 [md|]] eqn:EM; [|done].
    destruct (check_key_fields _ _) as [[]|] eqn:EK; [|done].
    destruct (resolveMessageType ca1 d md) as [ca2 [mt|]] eqn:EY; [|done].
    injection H as <- <-. split; [by apply reg_new|]. right. split; [done|].
    eexists; split; [|done]. resolve_defs. congruence.
Qed.

Lemma registerIntoSnapshot_ok ca s d ca' res :
  caches_ok ca -> interned_form ca d -> registry_ok s -> td_Id d <= u32_max ->
  registerIntoSnapshot ca s d = (ca', res) ->
  caches_ok ca' /\ match res with Ok s' => registry_ok s' | Err _ => True end.
Proof.
  intros HC HI HS Hu H. destruct res as [s'|e].
  2:{ split; [|done]. apply register_err_defs in H. by eapply caches_ok_defs. }
  apply register_ok_cases in H as (HL & _ & _ & HNC & HR & [(-> & -> & _)|(HF & ca1 & HD & ->)]); [done|].
  apply check_fingerprint_ok in HF; [|done..]. split.
  - apply maybeIntern_ok; [|done]. by eapply caches_ok_defs.
  - destruct HR as [|e md mt He _|md mt _ _ _]; [done|..]; apply set_entry_ok; auto.
Qed.

(** ** Building definitions *)

Lemma ComputeMessageFingerprint_ok m fp fds :
  ComputeMessageFingerprint m = Ok (fp, fds) -> ComputeFingerprint (Some fds) = Ok fp.
Proof. unfold ComputeMessageFingerprint. destruct (ComputeFingerprint _) eqn:E; [|done]. by intros [= <- <-]. Qed.

Lemma from_interned_form ca k d0 id kfs :
  caches_ok ca -> ca_typeDefs ca !! k = Some d0 -> interned_form ca (from_interned d0 id kfs).
Proof.
  intros HC H0 d1 H1. destruct (from_interned_fields d0 id kfs) as (_ & _ & Hn & Hf & Hd).
  destruct (HC _ _ H0) as [HK _]. rewrite Hd. unfold typeDefKey in H1. rewrite Hn, Hf in H1.
  fold (typeDefKey d0) in H1. rewrite HK in H1. congruence.
Qed.

Lemma build_fresh_ok ca typeID m fp fds kfs ca' interned :
  caches_ok ca -> ComputeMessageFingerprint m = Ok (fp, fds) ->
  ca_typeDefs ca !! (md_FullName m, fp) = None ->
  load_or_store ca (mkTypeDefinition typeID (md_FullName m) fp (Some fds) kfs) = (ca', interned) ->
  interned = mkTypeDefinition typeID (md_FullName m) fp (Some fds) kfs /\
  caches_ok ca' /\ interned_form ca' interned.
Proof.
  intros HC HM HN. unfold load_or_store, typeDefKey. cbn. rewrite HN. intros [= <- <-].
  apply ComputeMessageFingerprint_ok in HM. split; [done|]. split.
  - intros k d Hk. cbn in Hk. destruct (decide (k = (md_FullName m, fp))) as [->|Hne].
    + rewrite lookup_insert_eq in Hk. by injection Hk as <-.
    + rewrite lookup_insert_ne in Hk by done. by apply HC.
  - intros d0. unfold typeDefKey. cbn. rewrite lookup_insert_eq. by intros [= <-].
Qed.

Lemma BuildTypeDefinition_ok ca typeID md kfs ca' d :
  caches_ok ca -> BuildTypeDefinition ca typeID md kfs = (ca', Ok d) ->
  caches_ok ca' /\ interned_form ca' d /\ td_Id d = typeID /\ td_KeyFields d = kfs.
Proof.
  intros HC. unfold BuildTypeDefinition.
  destruct (match md with CompiledDesc _ => _ | DynamicDesc _ => _ end) as [ca1 early] eqn:E.
  assert (ca_typeDefs ca1 = ca_typeDefs ca /\
          forall r, early = Some (Ok r) -> interned_form ca1 r /\ td_Id r = typeID /\ td_KeyFields r = kfs)
    as [HD HEarly].
  { destruct md as [m|m]; [|by injection E as <- <-].
    pose proof (getCompiledFingerprint_defs ca m) as HG.
    destruct (getCompiledFingerprint ca m) as [ca2 [fp|]]; cbn in HG; [|by injection E as <- <-].
    injection E as <- <-. split; [done|]. intros r. destruct (ca_typeDefs ca2 !! _) as [d0|] eqn:E0; [|done].
    intros [= <-]. split; [eapply from_interned_form; [|done]; by eapply caches_ok_defs|].
    destruct (from_interned_fields d0 typeID kfs) as (? & ? & _). done. }
  assert (caches_ok ca1) as HC1 by (by eapply caches_ok_defs).
  destruct early as [r|].
  { intros [= <- ->]. split; [done|]. by apply HEarly. }
  destruct (ComputeMessageFingerprint _) as [[fp fds]|] eqn:EM; [|done].
  destruct (ca_typeDefs ca1 !! _) as [d0|] eqn:E0.
  { intros [= <- <-]. split; [done|]. split; [by eapply from_interned_form|].
    destruct (from_interned_fields d0 typeID kfs) as (? & ? & _). done. }
  destruct (load_or_store ca1 _) as [ca2 interned] eqn:EL.
  eapply build_fresh_ok in EL as (-> & HC2 & HI); [|done..].
  intros [= <- <-]. cbn. rewrite bool_decide_true by done. done.
Qed.

Lemma BuildTypeDefinition_name ca typeID md kfs ca' d :
  caches_ok ca -> BuildTypeDefinition ca typeID md kfs = (ca', Ok d) -> td_Name d = md_FullName (desc_md md).
Proof.
  intros HC. unfold BuildTypeDefinition.
  assert (HI : forall c k fp d0 id ks, ca_typeDefs c = ca_typeDefs ca -> ca_typeDefs c !! (k, fp) = Some d0 ->
    td_Name (from_interned d0 id ks) = k).
  { intros c k fp d0 id ks Hc H0. rewrite Hc in H0. destruct (HC _ _ H0) as [HK _]. injection HK as HK _.
    destruct (from_interned_fields d0 id ks) as (_ & _ & -> & _). done. }
  destruct (match md with CompiledDesc _ => _ | DynamicDesc _ => _ end) as [ca1 early] eqn:E.
  assert (ca_typeDefs ca1 = ca_typeDefs ca /\
          forall r, early = Some (Ok r) -> td_Name r = md_FullName (desc_md md)) as [HD HEarly].
  { destruct md as [m|m]; [|by injection E as <- <-].
    pose proof (getCompiledFingerprint_defs ca m) as HG.
    destruct (getCompiledFingerprint ca m) as [ca2 [fp|]]; cbn in HG; [|by injection E as <- <-].
    injection E as <- <-. split; [done|]. intros r. destruct (ca_typeDefs ca2 !! _) as [d0|] eqn:E0; [|done].
    intros [= <-]. by eapply HI. }
  destruct early as [r|]; [intros [= <- ->]; by apply HEarly|].
  destruct (ComputeMessageFingerprint _) as [[fp fds]|]; [|done].
  destruct (ca_typeDefs ca1 !! _) as [d0|] eqn:E0; [intros [= <- <-]; by eapply HI|].
  unfold load_or_store, typeDefKey. cbn. rewrite E0. intros [= <- <-]. by destruct (bool_decide _).
Qed.

Lemma BuildTypeDefinition_err_defs ca typeID md kfs ca' e :
  BuildTypeDefinition ca typeID md kfs = (ca', Err e) -> ca_typeDefs ca' = ca_typeDefs ca.
Proof.
  unfold BuildTypeDefinition.
  destruct (match md with CompiledDesc _ => _ | DynamicDesc _ => _ end) as [ca1 early] eqn:E.
  assert (ca_typeDefs ca1 = ca_typeDefs ca) as HD.
  { destruct md as [m|m]; [|by injection E as <- <-].
    pose proof (getCompiledFingerprint_defs ca m) as HG.
    destruct (getCompiledFingerprint ca m) as [ca2 [fp|]]; cbn in HG; by injection E as <- <-. }
  intros H. repeat case_match; by simplify_eq.
Qed.

Lemma import_all_ok defs ca s ca' res :
  caches_ok ca -> registry_ok s ->
  Forall (fun o => forall d, o = Some d -> td_Id d <= u32_max) defs ->
  import_all ca s defs = (ca', res) ->
  caches_ok ca' /\ match res with Ok s' => registry_ok s' | Err _ => True end.
Proof.
  revert ca s. induction defs as [|[d|] defs IH]; intros ca s HC HS HU H; inversion HU; subst; cbn in H.
  - by injection H as <- <-.
  - destruct (registerIntoSnapshot ca s _) as [ca1 r] eqn:ER.
    apply registerIntoSnapshot_ok in ER as [HC1 HR]; [|done|by apply intern_form|done|rewrite intern_id; auto].
    destruct r as [s1|e]; [by eapply IH|]. by injection H as <- <-.
  - by eapply IH.
Qed.

(** ** A process and its registries

    Every registry of a process shares the caches; a registry operation acts on
    one of them. *)

Inductive reg_op : Type :=
| OpRegister (d : option TypeDefinition)
| OpRegisterDescriptor (md : option Desc) (keyFields : list Z)
| OpImport (defs : list (option TypeDefinition)).

Definition run_reg_op (ca : Caches) (r : Registry) (op : reg_op) : Caches * Registry * bool :=
  match op with
  | OpRegister d => let '(ca, r, res) := Registry_Register ca r d in (ca, r, is_ok res)
  | OpRegisterDescriptor md kfs =>
    let '(ca, r, res) := Registry_RegisterDescriptor ca r md kfs in (ca, r, is_ok res)
  | OpImport defs => let '(ca, r, res) := Registry_Import ca r defs in (ca, r, is_ok res)
  end.

(** Type ids are [uint32]. *)
Definition def_u32 (o : option TypeDefinition) : Prop :=
  forall d, o = Some d -> td_Id d <= u32_max.

Definition op_u32 (op : reg_op) : Prop :=
  match op with
  | OpRegister d => def_u32 d
  | OpRegisterDescriptor _ _ => True
  | OpImport defs => Forall def_u32 defs
  end.

Inductive process_step : Caches * list Registry -> Caches * list Registry -> Prop :=
| ps_new ca rs : process_step (ca, rs) (ca, rs ++ [NewRegistry])
| ps_op ca rs i r op ca' r' ok :
    rs !! i = Some r -> op_u32 op -> run_reg_op ca r op = (ca', r', ok) ->
    process_step (ca, rs) (ca', <[i := r']> rs).

Lemma update_ok ca r fn ca' r' res :
  registry_ok r ->
  (forall ca1 x, fn ca r = (ca1, x) -> caches_ok ca1 /\ match x with Ok s => registry_ok s | Err _ => True end) ->
  update ca r fn = (ca', r', res) ->
  caches_ok ca' /\ registry_ok r' /\ (is_ok res = false -> r' = r).
Proof.
  intros HR HF. unfold update. destruct (fn ca r) as [ca1 [s|e]]; intros [= <- <- <-];
    destruct (HF _ _ eq_refl); done.
Qed.

Lemma register_descriptor_id_u32 r n :
  registry_ok r -> default (rg_nextID r) (rg_byName r !! n) <= u32_max.
Proof.
  intros HR. destruct (rg_byName r !! n) as [id|] eqn:E; cbn; [|apply HR].
  apply (ro_names r HR) in E as (e & He & _). destruct (ro_entries r HR _ _ He). lia.
Qed.

Lemma run_reg_op_ok ca r op ca' r' ok :
  caches_ok ca -> registry_ok r -> op_u32 op -> run_reg_op ca r op = (ca', r', ok) ->
  caches_ok ca' /\ registry_ok r' /\ (ok = false -> r' = r).
Proof.
  intros HC HR HU. destruct op as [[d|]|[md|] kfs|defs]; cbn.
  - destruct (update _ _ _) as [[ca1 r1] res] eqn:E. intros [= <- <- <-].
    eapply update_ok in E; [done..|]. intros ca2 x Hx.
    eapply registerIntoSnapshot_ok in Hx; [done|done|by apply intern_form|done|].
    rewrite intern_id. by apply HU.
  - by intros [= <- <- <-].
  - destruct (BuildTypeDefinition _ _ _ _) as [ca1 [d|e]] eqn:EB.
    + apply BuildTypeDefinition_ok in EB as (HC1 & HI & Hid & _); [|done].
      destruct (update _ _ _) as [[ca2 r2] res] eqn:E. intros [= <- <- <-].
      apply update_ok in E as (? & ? & Hf); [|done|].
      * split; [done|]. split; [done|]. by destruct res.
      * intros ca3 x Hx. eapply registerIntoSnapshot_ok in Hx; [done..|].
        rewrite Hid. by apply register_descriptor_id_u32.
    + intros [= <- <- <-]. split; [|done]. apply BuildTypeDefinition_err_defs in EB.
      by eapply caches_ok_defs.
  - by intros [= <- <- <-].
  - destruct (Registry_Import ca r defs) as [[ca1 r1] res] eqn:E. intros [= <- <- <-].
    unfold Registry_Import in E. eapply update_ok in E; [done..|]. intros ca2 x Hx. by eapply import_all_ok in Hx.
Qed.

Lemma process_step_ok x y :
  process_step x y -> caches_ok (fst x) /\ Forall registry_ok (snd x) ->
  caches_ok (fst y) /\ Forall registry_ok (snd y).
Proof.
  intros [ca rs|ca rs i r op ca' r' ok Hr HU HO] [HC HF]; cbn in *.
  - split; [done|]. apply Forall_app. split; [done|]. constructor; [apply NewRegistry_ok|done].
  - assert (registry_ok r) as HR by (by eapply Forall_lookup_1).
    apply run_reg_op_ok in HO as (? & ? & _); [|done..]. split; [done|]. by apply Forall_insert.
Qed.

Lemma no_caches_ok : caches_ok no_caches.
Proof. intros k d. cbn. by rewrite lookup_empty. Qed.

Lemma process_ok ca rs :
  rtc process_step (no_caches, []) (ca, rs) -> caches_ok ca /\ Forall registry_ok rs.
Proof.
  intros H. change (caches_ok (fst (ca, rs)) /\ Forall registry_ok (snd (ca, rs))).
  eapply (rtc_ind_r (fun y => caches_ok (fst y) /\ Forall registry_ok (snd y))); [|..|exact H].
  - split; [apply no_caches_ok|constructor].
  - intros y z _ Hs Hy. by eapply process_step_ok.
Qed.

Lemma LookupByName_by_id r n d desc :
  registry_ok r ->
  (Registry_LookupByName r n = Some (d, desc) <->
   td_Name d = n /\ Registry_LookupByID r (td_Id d) = Some (d, desc)).
Proof.
  intros HR. unfold Registry_LookupByName, Registry_LookupByID. split.
  - intros H. apply bind_Some in H as (id & Hid & H).
    apply (ro_names r HR) in Hid as (e & He & Hn). rewrite He in H. injection H as <- <-.
    destruct (ro_entries r HR _ _ He) as [_ -> _ _]. by rewrite He.
  - intros [Hn H]. apply bind_Some in H as (e & He & [= <- <-]).
    assert (rg_byName r !! n = Some (td_Id (te_def e))) as -> by (apply (ro_names r HR); eauto).
    cbn. by rewrite He.
Qed.

(** ** Export and import *)

(** A definition a process without the compiled-in type can register. *)
Definition importable (d : TypeDefinition) : Prop :=
  td_Name d <> [] /\ global_files !! td_Name d = None /\ global_types !! td_Name d = None /\
  exists fds raw fs md, td_Descriptors d = Some fds /\ marshal_fds fds = Some raw /\
    new_files fds = Some fs /\ fs !! td_Name d = Some md /\
    check_key_fields md (td_KeyFields d) = Ok ().

(** SHA-256 separates the serialised descriptor sets of [defs]. *)
Definition collision_free (defs : list TypeDefinition) : Prop :=
  forall d1 d2 fds1 fds2 raw1 raw2, d1 ∈ defs -> d2 ∈ defs ->
    td_Descriptors d1 = Some fds1 -> td_Descriptors d2 = Some fds2 ->
    marshal_fds fds1 = Some raw1 -> marshal_fds fds2 = Some raw2 ->
    sha256 raw1 = sha256 raw2 -> new_files fds1 = new_files fds2.

(** The caches while [defs] is imported and [ds] is done. *)
Definition import_caches (defs ds : list TypeDefinition) (ca : Caches) : Prop :=
  (forall k, is_Some (ca_typeDefs ca !! k) -> exists d, d ∈ ds /\ typeDefKey d = k) /\
  (forall k fs, ca_dynamicFiles ca !! k = Some fs ->
     exists d fds raw, d ∈ defs /\ td_Descriptors d = Some fds /\ marshal_fds fds = Some raw /\
       k = sha256 raw /\ new_files fds = Some fs).

Definition imported (ds : list TypeDefinition) (s : Registry) : Prop :=
  forall id d, (te_def <$> rg_types s !! id) = Some d <-> d ∈ ds /\ td_Id d = id.

Lemma resolve_importable defs ds ca d :
  import_caches defs ds ca -> collision_free defs -> d ∈ defs -> importable d ->
  exists ca' md, resolveMessageDescriptor ca d = (ca', Ok (DynamicDesc md)) /\
    resolveMessageType ca' d (DynamicDesc md) = (ca', Ok (DynamicType md)) /\
    check_key_fields md (td_KeyFields d) = Ok () /\ import_caches defs ds ca'.
Proof.
  intros [HT HD] HCF Hd (_ & Hg & Hgt & fds & raw & fs & md & Hfds & Hraw & Hfs & Hmd & Hkf).
  unfold resolveMessageDescriptor, getOrCreateFiles, resolveMessageType.
  rewrite Hg, Hfds, Hraw, Hfs, Hgt.
  destruct (ca_dynamicFiles ca !! sha256 raw) as [fs'|] eqn:EC.
  - destruct (HD _ _ EC) as (d' & fds' & raw' & Hd' & Hfds' & Hraw' & Hk & Hfs').
    assert (new_files fds = new_files fds') as HE by (by eapply (HCF d d')).
    rewrite Hfs, Hfs' in HE. injection HE as <-. rewrite Hmd. by exists ca, md.
  - rewrite Hmd. eexists _, md. do 3 (split; [done|]). split; [done|]. cbn. intros k fs0 Hk.
    destruct (decide (k = sha256 raw)) as [->|Hne].
    + rewrite lookup_insert_eq in Hk. injection Hk as <-. by exists d, fds, raw.
    + rewrite lookup_insert_ne in Hk by done. by apply HD.
Qed.

Lemma ComputeFingerprint_nonempty fds fp : ComputeFingerprint fds = Ok fp -> fp <> [].
Proof.
  unfold ComputeFingerprint. destruct (CanonicalMarshalFileDescriptorSet fds); [|done].
  intros [= <-] H. pose proof (sha256_length a) as HL. by rewrite H in HL.
Qed.

Lemma imported_set_entry ds s d md mt next :
  imported ds s -> rg_types s !! td_Id d = None -> imported (ds ++ [d]) (set_entry s d md mt next).
Proof.
  intros HI HN id d'. cbn [set_entry rg_types]. rewrite elem_of_app, list_elem_of_singleton.
  destruct (decide (id = td_Id d)) as [->|Hne].
  - rewrite lookup_insert_eq. cbn. split; [intros [= <-]; auto|].
    intros [[Hd| -> ] Hid]; [|done]. exfalso. assert (te_def <$> rg_types s !! td_Id d = Some d') as HS
      by (by apply HI). by rewrite HN in HS.
  - rewrite lookup_insert_ne by done. rewrite (HI id d'). naive_solver.
Qed.

Lemma import_caches_intern defs ds ca d :
  import_caches defs ds ca -> import_caches defs (ds ++ [d]) (maybeInternTypeDef ca d).
Proof.
  intros [HT HD]. assert (forall k, is_Some (ca_typeDefs ca !! k) ->
    exists d', d' ∈ ds ++ [d] /\ typeDefKey d' = k) as HT'.
  { intros k Hk. destruct (HT k Hk) as (d' & ? & ?). exists d'. rewrite elem_of_app. auto. }
  unfold maybeInternTypeDef. destruct (bool_decide _); [done|].
  destruct (ca_typeDefs ca !! _); [done|]. split; [|done]. cbn. intros k Hk.
  destruct (decide (k = typeDefKey d)) as [->|Hne].
  - exists d. rewrite elem_of_app, list_elem_of_singleton. auto.
  - rewrite lookup_insert_ne in Hk by done. by apply HT'.
Qed.

Lemma import_step defs ds ca s d :
  import_caches defs ds ca -> collision_free defs -> d ∈ defs -> importable d ->
  ComputeFingerprint (td_Descriptors d) = Ok (td_Fingerprint d) -> MinAppTypeID <= td_Id d ->
  (forall d', d' ∈ ds -> td_Id d' <> td_Id d /\ td_Name d' <> td_Name d) ->
  imported ds s -> registry_ok s ->
  internOrCloneTypeDef ca d = d /\
  exists ca' s', registerIntoSnapshot ca s d = (ca', Ok s') /\
    import_caches defs (ds ++ [d]) ca' /\ imported (ds ++ [d]) s'.
Proof.
  intros HC HCF Hd HIm HF Hid Hnew HI HS.
  assert (ca_typeDefs ca !! typeDefKey d = None) as HK.
  { apply eq_None_not_Some. intros HSm. destruct (proj1 HC _ HSm) as (d' & Hd' & Hk).
    apply (Hnew d' Hd'). unfold typeDefKey in Hk. congruence. }
  assert (rg_types s !! td_Id d = None) as HN.
  { destruct (rg_types s !! td_Id d) as [e|] eqn:E; [|done].
    assert (te_def e ∈ ds /\ td_Id (te_def e) = td_Id d) as [H1 H2]
      by (apply HI; by rewrite E). by apply Hnew in H1 as []. }
  assert (rg_byName s !! td_Name d = None) as HB.
  { apply eq_None_not_Some. intros [id Hb]. apply (ro_names s HS) in Hb as (e & He & Hn).
    assert (te_def e ∈ ds /\ td_Id (te_def e) = id) as [H1 _] by (apply HI; by rewrite He).
    by apply Hnew in H1 as []. }
  split; [unfold internOrCloneTypeDef; by rewrite HK|].
  destruct (resolve_importable defs ds ca d) as (ca1 & md & HR1 & HR2 & HR3 & HC1); [done..|].
  destruct HIm as (Hname & _ & _ & fds & _ & _ & _ & Hfds & _).
  unfold registerIntoSnapshot.
  rewrite (proj2 (Z.ltb_ge _ _)) by done. rewrite !bool_decide_false by eauto using ComputeFingerprint_nonempty.
  rewrite HN, HB. cbn [negb]. unfold check_fingerprint. rewrite HK.
  rewrite bool_decide_false by congruence. rewrite HF, bool_decide_true, HR1 by done.
  cbn [desc_md]. rewrite HR3, HR2. do 2 eexists. split; [done|].
  split; [by apply import_caches_intern|by apply imported_set_entry].
Qed.

Definition exported_ok (defs : list TypeDefinition) : Prop :=
  NoDup (td_Id <$> defs) /\ NoDup (td_Name <$> defs) /\
  forall d, d ∈ defs -> ComputeFingerprint (td_Descriptors d) = Ok (td_Fingerprint d) /\
    MinAppTypeID <= td_Id d <= u32_max.

Lemma import_all_exported defs rest : forall ds ca s,
  defs = ds ++ rest -> exported_ok defs -> (forall d, d ∈ defs -> importable d) -> collision_free defs ->
  import_caches defs ds ca -> caches_ok ca -> imported ds s -> registry_ok s ->
  exists ca' s', import_all ca s (Some <$> rest) = (ca', Ok s') /\ imported defs s' /\ registry_ok s'.
Proof.
  induction rest as [|d rest IH]; intros ds ca s Hdefs HX HIm HCF HC HCok HI HS.
  { rewrite app_nil_r in Hdefs. subst. by exists ca, s. }
  assert (d ∈ defs) as Hd by (rewrite Hdefs, elem_of_app; right; left).
  pose proof HX as (HN1 & HN2 & HF). destruct (HF d Hd) as [HFd Hr].
  destruct (import_step defs ds ca s d) as [Hint (ca1 & s1 & HR & HC1 & HI1)]; [done|done|done|auto|done|lia| |done|done|].
  { intros d' Hd'. rewrite Hdefs, !fmap_app in *. cbn in *.
    apply NoDup_app in HN1 as (_ & HN1 & _). apply NoDup_app in HN2 as (_ & HN2 & _).
    split; intros E.
    - apply (HN1 (td_Id d')); [by apply list_elem_of_fmap_2|rewrite E; left].
    - apply (HN2 (td_Name d')); [by apply list_elem_of_fmap_2|rewrite E; left]. }
  pose proof (intern_form ca d HCok) as Hform. rewrite Hint in Hform.
  destruct (registerIntoSnapshot_ok _ _ _ _ _ HCok Hform HS (proj2 Hr) HR) as [HCok1 HS1].
  cbn. rewrite Hint, HR. eapply (IH (ds ++ [d])); try done. by rewrite <- app_assoc.
Qed.

Lemma elem_of_Export r d :
  d ∈ Registry_Export r <-> exists id e, rg_types r !! id = Some e /\ d = te_def e.
Proof.
  unfold Registry_Export. rewrite merge_sort_Permutation, list_elem_of_fmap. split.
  - intros ([id e] & -> & H). apply elem_of_map_to_list in H. eauto.
  - intros (id & e & H & ->). exists (id, e). split; [done|]. by apply elem_of_map_to_list.
Qed.

Lemma Export_ok r : registry_ok r -> exported_ok (Registry_Export r).
Proof.
  intros HR. split; [|split].
  - unfold Registry_Export. rewrite merge_sort_Permutation, <- list_fmap_compose.
    rewrite (list_fmap_ext _ fst); [apply NoDup_fst_map_to_list|].
    intros i [id e] Hi. apply list_elem_of_lookup_2, elem_of_map_to_list in Hi.
    by destruct (ro_entries r HR _ _ Hi).
  - unfold Registry_Export. rewrite merge_sort_Permutation, <- list_fmap_compose.
    apply NoDup_fmap_2_strong; [|apply NoDup_map_to_list].
    intros [id1 e1] [id2 e2] H1 H2 E. cbn in E. apply elem_of_map_to_list in H1, H2.
    assert (rg_byName r !! td_Name (te_def e1) = Some id1) by (apply (ro_names r HR); eauto).
    assert (rg_byName r !! td_Name (te_def e2) = Some id2) by (apply (ro_names r HR); eauto).
    assert (id1 = id2) by congruence. subst. congruence.
  - intros d (id & e & He & ->)%elem_of_Export. destruct (ro_entries r HR _ _ He) as [_ -> ? ?]. done.
Qed.

Lemma import_caches_none defs : import_caches defs [] no_caches.
Proof. split; cbn; [intros k [? Hk]|intros k fs Hk]; by rewrite lookup_empty in Hk. Qed.

Lemma imported_none : imported [] NewRegistry.
Proof. intros id d. cbn. rewrite lookup_empty, elem_of_nil. naive_solver. Qed.

Lemma intern_key ca d : caches_ok ca -> typeDefKey (internOrCloneTypeDef ca d) = typeDefKey d.
Proof.
  intros HC. unfold internOrCloneTypeDef. destruct (ca_typeDefs ca !! typeDefKey d) as [d0|] eqn:E; [|done].
  destruct (HC _ _ E) as [HK _]. destruct (from_interned_fields d0 (td_Id d) (td_KeyFields d)) as (_ & _ & Hn & Hf & _).
  unfold typeDefKey in *. by rewrite Hn, Hf.
Qed.

(** What [LookupByID] returns after a successful registration of [d]. *)
Lemma registered_lookup s d s' :
  registered s d s' ->
  (exists d' desc, Registry_LookupByID s' (td_Id d) = Some (d', desc) /\
     (d' = d \/ Registry_LookupByID s (td_Id d) = Some (d', desc) /\
                td_Name d' = td_Name d /\ td_Fingerprint d' = td_Fingerprint d)) /\
  (forall id, id <> td_Id d -> Registry_LookupByID s' id = Registry_LookupByID s id).
Proof.
  unfold Registry_LookupByID. intros [e He Hn Hf|e md mt He _|md mt He _ _].
  - split; [|done]. exists (te_def e), (te_descriptor e). rewrite He. auto.
  - cbn [set_entry rg_types]. split; [rewrite lookup_insert_eq; cbn; eauto|].
    intros id Hid. by rewrite lookup_insert_ne.
  - cbn [set_entry rg_types]. split; [rewrite lookup_insert_eq; cbn; eauto|].
    intros id Hid. by rewrite lookup_insert_ne.
Qed.

(** A type registered under a new name is found under it. *)
Lemma register_message_lookup ca r md kfs ca' r' d :
  caches_ok ca -> registry_ok r -> Registry_LookupByName r (md_FullName (desc_md md)) = None ->
  Registry_RegisterMessage ca r (Some md) kfs = (ca', r', Ok d) ->
  exists desc, Registry_LookupByName r' (md_FullName (desc_md md)) = Some (d, desc).
Proof.
  intros HC HR HN. cbn.
  destruct (BuildTypeDefinition _ _ _ _) as [ca1 [d0|]] eqn:EB; [|done].
  unfold update. destruct (registerIntoSnapshot ca1 r d0) as [ca2 [s|]] eqn:ER; [|done]. intros [= <- <- <-].
  pose proof EB as EB0. apply BuildTypeDefinition_ok in EB0 as (HC1 & HI & Hid & _); [|done].
  assert (td_Id d0 <= u32_max) as Hu by (rewrite Hid; by apply register_descriptor_id_u32).
  destruct (registerIntoSnapshot_ok _ _ _ _ _ HC1 HI HR Hu ER) as [_ HS].
  apply BuildTypeDefinition_name in EB; [|done].
  apply register_ok_cases in ER as (_ & _ & _ & [HNC _] & HReg & _).
  assert (forall e, rg_types r !! td_Id d0 = Some e -> False) as HNo.
  { intros e He. pose proof (HNC e He) as Hn.
    assert (Registry_LookupByName r (md_FullName (desc_md md)) = Some (te_def e, te_descriptor e)); [|congruence].
    apply LookupByName_by_id; [done|]. split; [congruence|]. unfold Registry_LookupByID.
    destruct (ro_entries r HR _ _ He) as [_ -> _ _]. by rewrite He. }
  inversion HReg as [e He|e md' mt He|md' mt He]; subst; [by destruct (HNo e)..|].
  exists md'. apply LookupByName_by_id; [done|]. split; [done|]. unfold Registry_LookupByID. cbn.
  by rewrite lookup_insert_eq.
Qed.

(** ** Claims *)

(** In every registry a process can build, through any sequence of
    [Register], [RegisterDescriptor] and [Import] calls on registries that share
    the intern caches, a looked-up definition has an application id in the
    [uint32] range, its fingerprint is the SHA-256 of its own descriptor set,
    and the lookups by id and by name agree. *)
Theorem registry_consistent ca rs r :
  rtc process_step (no_caches, []) (ca, rs) -> r ∈ rs ->
  (forall id d desc, Registry_LookupByID r id = Some (d, desc) ->
     td_Id d = id /\ MinAppTypeID <= id <= u32_max /\
     ComputeFingerprint (td_Descriptors d) = Ok (td_Fingerprint d)) /\
  (forall n d desc, Registry_LookupByName r n = Some (d, desc) <->
     td_Name d = n /\ Registry_LookupByID r (td_Id d) = Some (d, desc)).
Proof.
  intros [_ HF]%process_ok Hr. rewrite Forall_forall in HF. specialize (HF r Hr). split.
  - intros id d desc H. apply bind_Some in H as (e & He & [= <- <-]).
    by destruct (ro_entries r HF _ _ He).
  - intros n d desc. by apply LookupByName_by_id.
Qed.

(** A [Register] call that fails leaves the registry as it was.  One that
    succeeds makes the type available under its id and its name with the
    requested fingerprint, leaves every other id alone, and replaced an older
    fingerprint only by a definition that [CheckCompatibility] accepts. *)
Theorem register_then_lookup ca r d ca' r' res :
  caches_ok ca -> registry_ok r -> td_Id d <= u32_max ->
  Registry_Register ca r (Some d) = (ca', r', res) ->
  match res with
  | Err _ => r' = r
  | Ok _ =>
    (exists d' desc, Registry_LookupByID r' (td_Id d) = Some (d', desc) /\
       Registry_LookupByName r' (td_Name d) = Some (d', desc) /\
       td_Fingerprint d' = td_Fingerprint d) /\
    (forall id, id <> td_Id d -> Registry_LookupByID r' id = Registry_LookupByID r id) /\
    (forall old desc, Registry_LookupByID r (td_Id d) = Some (old, desc) ->
       td_Fingerprint old <> td_Fingerprint d ->
       CheckCompatibility old (internOrCloneTypeDef ca d) = Ok ())
  end.
Proof.
  intros HC HR HU H. destruct (run_reg_op_ok ca r (OpRegister (Some d)) ca' r' (is_ok res)) as (_ & HR' & Hf);
    [done|done|by intros ? [= <-]|cbn [run_reg_op]; by rewrite H|].
  destruct res as [[]|e]; [|by apply Hf]. cbn in H. unfold update in H.
  destruct (registerIntoSnapshot ca r _) as [ca1 [s|]] eqn:ER; [|done]. injection H as <- <-.
  apply register_ok_cases in ER as (_ & _ & _ & _ & HReg & _).
  pose proof (intern_key ca d HC) as HK. injection HK as HKn HKf.
  destruct (registered_lookup _ _ _ HReg) as [(d' & desc & HL & Hd') HO]. rewrite intern_id in *.
  split; [|split; [done|]].
  - exists d', desc. assert (td_Name d' = td_Name d /\ td_Fingerprint d' = td_Fingerprint d) as [Hn Hfp]
      by (destruct Hd' as [->|(_ & ? & ?)]; split; congruence).
    split; [done|]. split; [|done]. apply LookupByName_by_id; [done|]. split; [done|].
    assert (td_Id d' = td_Id d) as ->; [|done].
    apply bind_Some in HL as (e & He & [= <- <-]). by destruct (ro_entries s HR' _ _ He).
  - intros old odesc Hold Hne. apply bind_Some in Hold as (e & He & [= <- <-]).
    inversion HReg as [e0 He0 _ Hf0|e0 md mt He0 Hc0|md mt He0]; subst;
      rewrite intern_id, He in He0; simplify_eq; congruence.
Qed.

(** The fingerprint of a descriptor set does not depend on the order in
    which its files are listed. *)
Theorem fingerprint_canonical files files' :
  files ≡ₚ files' -> NoDup (file_name <$> files) ->
  ComputeFingerprint (Some files) = ComputeFingerprint (Some files').
Proof.
  intros HP HN. unfold ComputeFingerprint, CanonicalMarshalFileDescriptorSet.
  by rewrite (sort_files_perm files files').
Qed.

(** The export of a registry whose definitions are importable can be
    imported into the empty registry of a fresh process, and every lookup by id
    then finds the same definition as before. *)
Theorem export_import_roundtrip r :
  registry_ok r -> (forall d, d ∈ Registry_Export r -> importable d) ->
  collision_free (Registry_Export r) ->
  exists ca' r', Registry_Import no_caches NewRegistry (Some <$> Registry_Export r) = (ca', r', Ok ()) /\
    forall id, fst <$> Registry_LookupByID r' id = fst <$> Registry_LookupByID r id.
Proof.
  intros HR HI HCF.
  destruct (import_all_exported (Registry_Export r) (Registry_Export r) [] no_caches NewRegistry)
    as (ca' & s' & HE & HS & _);
    auto using Export_ok, import_caches_none, imported_none, NewRegistry_ok, no_caches_ok.
  exists ca', s'. unfold Registry_Import, update. rewrite HE. split; [done|]. intros id.
  assert (forall r, fst <$> Registry_LookupByID r id = te_def <$> rg_types r !! id) as HL.
  { intros r0. unfold Registry_LookupByID. by destruct (rg_types r0 !! id). }
  rewrite !HL. apply option_eq. intros d. rewrite (HS id d), elem_of_Export. split.
  - intros [(id' & e & He & ->) <-]. destruct (ro_entries r HR _ _ He) as [_ -> _ _]. by rewrite He.
  - intros H. apply fmap_Some in H as (e & He & ->). destruct (ro_entries r HR _ _ He). eauto.
Qed.
End registry.

(** ** Examples

    A protobuf runtime in which a file is its name, its messages and its
    serialised form, and nothing is compiled in. *)

Definition example_parent (md : MessageDescriptor) : FileDescriptor (bytes * list MessageDescriptor * bytes) :=
  mkFileDescriptor (md_FullName md) []
    (md_FullName md, [md], md_FullName md ++ [byte_of_Z (Z.of_nat (length (md_Fields md)))]).

Definition example_lib : ProtoLib := {|
  FileProto := bytes * list MessageDescriptor * bytes;
  file_name f := f.1.1;
  marshal_deterministic l := Some (concat ((fun f => f.2) <$> l));
  marshal_fds l := Some (concat ((fun f => f.2) <$> l));
  new_files l := Some (list_to_map ((fun md => (md_FullName md, md)) <$> concat ((fun f => f.1.2) <$> l)));
  parent_file := example_parent;
  global_files := ∅;
  global_types := ∅;
|}.

(** A message keyed by field 1, and a later version without that field. *)
Definition item1 : MessageDescriptor :=
  mkMessage (go "Item") [scalar_field 1 StringKind; scalar_field 2 Int64Kind] [].
Definition item2 : MessageDescriptor :=
  mkMessage (go "Item") [scalar_field 2 Int64Kind] [(1, 2)].

Definition example_def (md : MessageDescriptor) (id : Z) (kfs : list Z) : @TypeDefinition example_lib :=
  @mkTypeDefinition example_lib id (md_FullName md)
    (match @ComputeMessageFingerprint example_lib md with Ok (fp, _) => fp | Err _ => [] end)
    (Some (@ExtractFileDescriptorSet example_lib md)) kfs.

Section examples.
#[local] Existing Instance example_lib.

(** Registering [item1], keyed by field 1, and then [item2], which reserves it. *)
Definition register1 := Registry_Register no_caches NewRegistry (Some (example_def item1 16 [1])).
Definition register2 :=
  Registry_Register (fst (fst register1)) (snd (fst register1)) (Some (example_def item2 16 [1])).

Lemma register1_eqn :
  Registry_Register no_caches NewRegistry (Some (example_def item1 16 [1])) = register1.
Proof. reflexivity. Qed.

#[local] Opaque register1 register2.

Lemma register1_ok : snd register1 = Ok ().
Proof. vm_compute. reflexivity. Qed.

Lemma triple_eq {A B C} (x : A * B * C) c : snd x = c -> x = (fst (fst x), snd (fst x), c).
Proof. intros <-. by destruct x as [[]]. Qed.

Lemma run_register ca r d :
  snd (Registry_Register ca r d) = Ok () ->
  run_reg_op ca r (OpRegister d) =
  (fst (fst (Registry_Register ca r d)), snd (fst (Registry_Register ca r d)), true).
Proof.
  unfold run_reg_op. generalize (Registry_Register ca r d). intros [[ca' r'] res]. cbn. by intros ->.
Qed.

Lemma register1_run :
  run_reg_op no_caches NewRegistry (OpRegister (Some (example_def item1 16 [1]))) =
  (fst (fst register1), snd (fst register1), true).
Proof.
  rewrite run_register; rewrite register1_eqn; [reflexivity|exact register1_ok].
Qed.

Lemma register1_full :
  Registry_Register no_caches NewRegistry (Some (example_def item1 16 [1])) =
  (fst (fst register1), snd (fst register1), Ok ()).
Proof. rewrite register1_eqn. exact (triple_eq register1 (Ok ()) register1_ok). Qed.

Lemma register1_lookup : is_Some (Registry_LookupByID (snd (fst register1)) 16).
Proof. apply (bool_decide_unpack _). vm_compute. exact I. Qed.

Lemma register1_registry_ok : registry_ok (snd (fst register1)).
Proof.
  apply (run_reg_op_ok no_caches NewRegistry (OpRegister (Some (example_def item1 16 [1])))
           (fst (fst register1)) _ true); [apply no_caches_ok|apply NewRegistry_ok|by intros ? [= <-]|].
  exact register1_run.
Qed.

Lemma registry_consistent_witness :
  exists ca rs r, rtc process_step (no_caches, []) (ca, rs) /\ r ∈ rs /\
    (exists d desc, Registry_LookupByID r 16 = Some (d, desc) /\
       ComputeFingerprint (td_Descriptors d) = Ok (td_Fingerprint d)).
Proof.
  exists (fst (fst register1)), [snd (fst register1)], (snd (fst register1)).
  assert (rtc process_step (no_caches, []) (fst (fst register1), [snd (fst register1)])) as HS.
  { apply rtc_l with (no_caches, [NewRegistry]); [apply (ps_new no_caches [])|]. apply rtc_once.
    apply (ps_op no_caches [NewRegistry] 0 NewRegistry (OpRegister (Some (example_def item1 16 [1])))
             (fst (fst register1)) (snd (fst register1)) true); [done|by intros ? [= <-]|].
    exact register1_run. }
  split; [exact HS|]. split; [left|].
  destruct register1_lookup as [[d desc] E]. exists d, desc. split; [exact E|].
  destruct (registry_consistent _ _ (snd (fst register1)) HS ltac:(left)) as [H _].
  destruct (H _ _ _ E) as (_ & _ & HF). exact HF.
Defined.

Lemma register_then_lookup_witness :
  snd register1 = Ok () /\
  exists d' desc, Registry_LookupByID (snd (fst register1)) 16 = Some (d', desc) /\
    Registry_LookupByName (snd (fst register1)) (go "Item") = Some (d', desc) /\
    td_Fingerprint d' = td_Fingerprint (example_def item1 16 [1]).
Proof.
  split; [apply register1_ok|].
  pose proof (register_then_lookup no_caches NewRegistry (example_def item1 16 [1])
    (fst (fst register1)) (snd (fst register1)) (Ok ()) no_caches_ok NewRegistry_ok ltac:(done) register1_full)
    as [H _]. exact H.
Defined.

Lemma fingerprint_canonical_witness :
  ComputeFingerprint (Some [(go "b.proto", [], go "b"); (go "a.proto", [], go "a")]) =
  ComputeFingerprint (Some [(go "a.proto", [], go "a"); (go "b.proto", [], go "b")]).
Proof. apply fingerprint_canonical; [apply perm_swap|by apply (bool_decide_unpack _)]. Defined.

Lemma export1 : Registry_Export (snd (fst register1)) = [example_def item1 16 [1]].
Proof. vm_cast_no_check (eq_refl [example_def item1 16 [1]]). Qed.

Lemma export_import_roundtrip_witness :
  exists ca' r',
    Registry_Import no_caches NewRegistry (Some <$> Registry_Export (snd (fst register1))) = (ca', r', Ok ()) /\
    forall id, fst <$> Registry_LookupByID r' id = fst <$> Registry_LookupByID (snd (fst register1)) id.
Proof.
  apply export_import_roundtrip; [apply register1_registry_ok|rewrite export1..].
  - intros d ->%list_elem_of_singleton. split; [done|]. split; [done|]. split; [done|].
    do 4 eexists. do 3 (split; [reflexivity|]). split; reflexivity.
  - intros d1 d2 fds1 fds2 raw1 raw2 ->%list_elem_of_singleton ->%list_elem_of_singleton H1 H2 _ _ _.
    rewrite H1 in H2. by injection H2 as ->.
Defined.

(** An evolution may remove and reserve a key field of the type: the
    registry accepts it, and its own export is then rejected by an empty
    registry with the error for the missing key field. *)
Theorem evolved_key_field_not_importable :
  snd register1 = Ok () /\ snd register2 = Ok () /\
  snd (Registry_Import no_caches NewRegistry (Some <$> Registry_Export (snd (fst register2)))) =
  Err (ErrKeyField 1).
Proof. vm_compute. done. Qed.
End examples.
