(* ===== verification/SdsStream.v ===== *)
(** * SdsStream: writing and decoding the records of a stream

    [pkg/sds/record/writer.go] and [decoder.go]: the writer announces the header
    and the type definitions in-band before the records that need them, the
    decoder maintains its registry from them.  The transport below the writer is
    the interface [Appender]; the protobuf encoding of the framework messages
    is the class [StreamLib]. *)

From S2P Require Import Prelude Bytes Sha256 SdsFrame SdsSchema SdsRegistry.

#[local] Open Scope Z_scope.
#[local] Open Scope list_scope.

(** ** Framework messages *)

(** [OpRecord_Op] is an open enum. *)
Definition OpRecord_CREATE : Z := 0.
Definition OpRecord_UPDATE : Z := 1.
Definition OpRecord_DELETE : Z := 2.

Record OpRecord : Type := mkOpRecord {
  or_Op : Z;
  or_TypeId : Z;
  or_TxId : Z;
  or_Key : bytes;
  or_Value : bytes;
}.

Record TxCommit : Type := mkTxCommit {
  tc_TxId : Z;
  tc_CommitTime : option Z;
}.

Record SnapshotPointer : Type := mkSnapshotPointer {
  sp_Position : Z;
  sp_Format : bytes;
  sp_Location : bytes;
  sp_RegistryFingerprint : bytes;
  sp_Name : bytes;
  sp_CreatedAt : option Z;
  sp_RestoredFrom : bytes;
  sp_ClonedFrom : bytes;
}.

Record StreamHeader : Type := mkStreamHeader {
  sh_FormatVersion : Z;
  sh_CreatorVersion : bytes;
  sh_CreatedAt : option Z;
}.

Definition StreamFormatVersion : Z := 1.
Definition DefaultCreatorVersion : bytes := go "in-cluster-storage/1.0".

(** ** The protobuf encoding *)

(** [proto.Marshal] and [proto.Unmarshal] of one message type. *)
Class Wire (A : Type) : Type := {
  wire_marshal : A -> option bytes;
  wire_unmarshal : bytes -> option A;
}.

Class WireLaw (A : Type) `{Wire A} : Prop :=
  wire_roundtrip : forall a b, wire_marshal a = Some b -> wire_unmarshal b = Some a.

(** A message seen through reflection: its type, its populated fields and its
    unknown fields. *)
Record Message (V : Type) : Type := mkMsg {
  msg_type : MessageType;
  msg_fields : gmap Z V;
  msg_unknown : bytes;
}.
Arguments mkMsg {V}.
Arguments msg_type {V}.
Arguments msg_fields {V}.
Arguments msg_unknown {V}.

(** [MessageType.New]. *)
Definition msg_New {V} (t : MessageType) : Message V := mkMsg t ∅ [].

Class StreamLib `{PL : ProtoLib} : Type := {
  Value : Type;
  wire_def :: Wire TypeDefinition;
  wire_op :: Wire OpRecord;
  wire_commit :: Wire TxCommit;
  wire_ptr :: Wire SnapshotPointer;
  wire_header :: Wire StreamHeader;
  (* [MarshalOptions{Deterministic, AllowPartial}.Marshal] *)
  marshal_partial : Message Value -> option bytes;
  (* [UnmarshalOptions{Merge, AllowPartial}.Unmarshal] into a message *)
  merge_partial : Message Value -> bytes -> option (Message Value);
  (* [proto.CheckInitialized] *)
  initialized : Message Value -> bool;
}.

(** [proto.Unmarshal] into a new message. *)
Definition unmarshal_new `{StreamLib} (t : MessageType) (b : bytes) : option (Message Value) :=
  m ← merge_partial (msg_New t) b; if initialized m then Some m else None.

(** ** The transport *)

(** [Appender]: appends a payload and returns its sequence number. *)
Class Appender (T : Type) : Type := {
  Append : T -> bytes -> T * result sds_error Z;
  stream : T -> list bytes;
}.

(** What the writer relies on: an append that succeeds adds the payload at the
    next position; one that fails may or may not have added it. *)
Class AppenderLaw (T : Type) `{Appender T} : Prop :=
  Append_spec : forall t p,
    match Append t p with
    | (t', Ok seq) => stream t' = stream t ++ [p] /\ seq = Z.of_nat (length (stream t'))
    | (t', Err _) => stream t' = stream t \/ stream t' = stream t ++ [p]
    end.

Section stream.
Context `{SL : StreamLib} {T : Type} `{AP : Appender T}.

(** ** The writer *)

Record Writer : Type := mkWriter {
  w_appender : T;
  w_registry : Registry;
  w_announced : gmap Z bytes;
  w_headerEmitted : bool;
  w_skipHeader : bool;
  w_customHeader : option StreamHeader;
}.

Inductive WriterOption : Type :=
| WithRegistry (reg : Registry)
| WithoutStreamHeader
| WithStreamHeaderEmitted (emitted : bool)
| WithStreamHeader (hdr : option StreamHeader).

Definition apply_option (w : Writer) (o : WriterOption) : Writer :=
  match o with
  | WithRegistry reg =>
    mkWriter (w_appender w) reg (w_announced w) (w_headerEmitted w) (w_skipHeader w) (w_customHeader w)
  | WithoutStreamHeader =>
    mkWriter (w_appender w) (w_registry w) (w_announced w) (w_headerEmitted w) true (w_customHeader w)
  | WithStreamHeaderEmitted emitted =>
    mkWriter (w_appender w) (w_registry w) (w_announced w) emitted (w_skipHeader w) (w_customHeader w)
  | WithStreamHeader hdr =>
    mkWriter (w_appender w) (w_registry w) (w_announced w) (w_headerEmitted w) (w_skipHeader w) hdr
  end.

Definition NewWriter (appender : T) (opts : list WriterOption) : Writer :=
  foldl apply_option (mkWriter appender NewRegistry ∅ false false None) opts.

Definition set_appender (w : Writer) (a : T) : Writer :=
  mkWriter a (w_registry w) (w_announced w) (w_headerEmitted w) (w_skipHeader w) (w_customHeader w).
Definition set_emitted (w : Writer) : Writer :=
  mkWriter (w_appender w) (w_registry w) (w_announced w) true (w_skipHeader w) (w_customHeader w).
Definition set_announced (w : Writer) (typeID : Z) (fp : bytes) : Writer :=
  mkWriter (w_appender w) (w_registry w) (<[typeID := fp]> (w_announced w)) (w_headerEmitted w)
    (w_skipHeader w) (w_customHeader w).
Definition set_registry (w : Writer) (r : Registry) : Writer :=
  mkWriter (w_appender w) r (w_announced w) (w_headerEmitted w) (w_skipHeader w) (w_customHeader w).

(** [w.appender.Append]. *)
Definition w_Append (w : Writer) (payload : bytes) : Writer * result sds_error Z :=
  let '(a, r) := Append (w_appender w) payload in (set_appender w a, r).

(** [proto.Marshal] followed by [EncodeFrame]. *)
Definition encode_message {A} `{Wire A} (typeID : Z) (a : A) : result sds_error bytes :=
  match wire_marshal a with
  | None => Err ErrMarshal
  | Some body => EncodeFrame typeID body
  end.

Definition ensureStreamHeaderLocked (now : Z) (w : Writer) : Writer * result sds_error () :=
  if w_headerEmitted w || w_skipHeader w then (w, Ok ())
  else
  let hdr := default (mkStreamHeader StreamFormatVersion DefaultCreatorVersion (Some now)) (w_customHeader w) in
  match encode_message TypeIDStreamHeader hdr with
  | Err e => (w, Err e)
  | Ok payload =>
    let '(w, r) := w_Append w payload in
    match r with
    | Err e => (w, Err e)
    | Ok _ => (set_emitted w, Ok ())
    end
  end.

Definition Writer_AppendStreamHeader (w : Writer) (hdr : option StreamHeader) : Writer * result sds_error Z :=
  match hdr with
  | None => (w, Err ErrNil)
  | Some hdr =>
    match encode_message TypeIDStreamHeader hdr with
    | Err e => (w, Err e)
    | Ok payload =>
      let '(w, r) := w_Append w payload in
      match r with
      | Err e => (w, Err e)
      | Ok seq => (set_emitted w, Ok seq)
      end
    end
  end.

Definition Writer_RegisterDescriptor (ca : Caches) (w : Writer) (md : option Desc) (keyFields : list Z)
    : Caches * Writer * result sds_error Z :=
  let '(ca, r, res) := Registry_RegisterDescriptor ca (w_registry w) md keyFields in
  (ca, set_registry w r, match res with Err e => Err e | Ok d => Ok (td_Id d) end).

Definition Writer_RegisterType (ca : Caches) (w : Writer) (msg : option Desc) (keyFields : list Z)
    : Caches * Writer * result sds_error Z :=
  let '(ca, r, res) := Registry_RegisterMessage ca (w_registry w) msg keyFields in
  (ca, set_registry w r, match res with Err e => Err e | Ok d => Ok (td_Id d) end).

Definition ensureAnnounced (now : Z) (w : Writer) (typeID : Z) : Writer * result sds_error () :=
  let '(w, r) := ensureStreamHeaderLocked now w in
  match r with
  | Err e => (w, Err e)
  | Ok _ =>
    match Registry_LookupByID (w_registry w) typeID with
    | None => (w, Err (ErrTypeNotRegistered typeID))
    | Some (def, _) =>
      if bool_decide (w_announced w !! typeID = Some (td_Fingerprint def)) then (w, Ok ())
      else
      match encode_message TypeIDTypeDefinition def with
      | Err e => (w, Err e)
      | Ok payload =>
        let '(w, r) := w_Append w payload in
        match r with
        | Err e => (w, Err e)
        | Ok _ => (set_announced w typeID (td_Fingerprint def), Ok ())
        end
      end
    end
  end.

Definition Writer_EnsureAnnounced (now : Z) (w : Writer) (typeID : Z) : Writer * result sds_error () :=
  ensureAnnounced now w typeID.

Definition Writer_AppendOp (now : Z) (w : Writer) (op : option OpRecord) : Writer * result sds_error Z :=
  match op with
  | None => (w, Err ErrNil)
  | Some op =>
    let '(w, r) := ensureAnnounced now w (or_TypeId op) in
    match r with
    | Err e => (w, Err e)
    | Ok _ =>
      match encode_message TypeIDOpRecord op with
      | Err e => (w, Err e)
      | Ok payload => w_Append w payload
      end
    end
  end.

(** The common end of the operations that need only the header. *)
Definition append_after_header (now : Z) (w : Writer) (payload : result sds_error bytes)
    : Writer * result sds_error Z :=
  match payload with
  | Err e => (w, Err e)
  | Ok payload =>
    let '(w, r) := ensureStreamHeaderLocked now w in
    match r with
    | Err e => (w, Err e)
    | Ok _ => w_Append w payload
    end
  end.

Definition Writer_AppendTxCommit (now : Z) (w : Writer) (commit : option TxCommit) : Writer * result sds_error Z :=
  match commit with
  | None => (w, Err ErrNil)
  | Some commit => append_after_header now w (encode_message TypeIDTxCommit commit)
  end.

Definition Writer_AppendSnapshotPointer (now : Z) (w : Writer) (ptr : option SnapshotPointer)
    : Writer * result sds_error Z :=
  match ptr with
  | None => (w, Err ErrNil)
  | Some ptr => append_after_header now w (encode_message TypeIDSnapshotPointer ptr)
  end.

Definition Writer_AppendPaddingBytes (now : Z) (w : Writer) (body : bytes) : Writer * result sds_error Z :=
  append_after_header now w (EncodeFrame TypeIDPadding body).

Definition Writer_AppendPadding (now : Z) (w : Writer) (length : nat) : Writer * result sds_error Z :=
  Writer_AppendPaddingBytes now w (replicate length x00).

Definition Writer_AppendRaw (now : Z) (w : Writer) (typeID : Z) (body : bytes) : Writer * result sds_error Z :=
  let '(w, r) := ensureStreamHeaderLocked now w in
  match r with
  | Err e => (w, Err e)
  | Ok _ =>
    let '(w, r) := if MinAppTypeID <=? typeID then ensureAnnounced now w typeID else (w, Ok ()) in
    match r with
    | Err e => (w, Err e)
    | Ok _ =>
      match EncodeFrame typeID body with
      | Err e => (w, Err e)
      | Ok payload => w_Append w payload
      end
    end
  end.

(** ** The decoder *)

Inductive RecordMessage : Type :=
| MDef (d : TypeDefinition)
| MCommit (c : TxCommit)
| MPtr (p : SnapshotPointer)
| MHeader (h : StreamHeader)
| MOp (op : OpRecord)
| MPadding
| MApp (m : Message Value).

Record DecodedRecord : Type := mkRecord {
  rec_TypeID : Z;
  rec_Message : RecordMessage;
  rec_Raw : bytes;
}.

Definition Decode_wire {A} `{Wire A} (typeID : Z) (inj : A -> RecordMessage) (body : bytes)
    : result sds_error DecodedRecord :=
  match wire_unmarshal body with
  | None => Err ErrUnmarshal
  | Some a => Ok (mkRecord typeID (inj a) body)
  end.

(** [Decoder.Decode]; the decoder is its registry. *)
Definition Decoder_Decode (ca : Caches) (reg : Registry) (payload : bytes)
    : Caches * Registry * result sds_error DecodedRecord :=
  match SplitFrame payload with
  | Err e => (ca, reg, Err e)
  | Ok (typeID, body) =>
    if typeID =? TypeIDTypeDefinition then
      match wire_unmarshal body with
      | None => (ca, reg, Err ErrUnmarshal)
      | Some def =>
        let '(ca, reg, r) := Registry_Register ca reg (Some def) in
        (ca, reg, match r with Err e => Err e | Ok _ => Ok (mkRecord TypeIDTypeDefinition (MDef def) body) end)
      end
    else if typeID =? TypeIDTxCommit then (ca, reg, Decode_wire typeID MCommit body)
    else if typeID =? TypeIDSnapshotPointer then (ca, reg, Decode_wire typeID MPtr body)
    else if typeID =? TypeIDPadding then (ca, reg, Ok (mkRecord TypeIDPadding MPadding body))
    else if typeID =? TypeIDStreamHeader then (ca, reg, Decode_wire typeID MHeader body)
    else if typeID =? TypeIDOpRecord then
      (ca, reg,
       match wire_unmarshal body with
       | None => Err ErrUnmarshal
       | Some op =>
         match Registry_LookupByID reg (or_TypeId op) with
         | None => Err (ErrTypeNotRegistered (or_TypeId op))
         | Some _ => Ok (mkRecord TypeIDOpRecord (MOp op) body)
         end
       end)
    else
      (ca, reg,
       match Registry_ResolveMessageType reg typeID with
       | Err e => Err e
       | Ok msgType =>
         match unmarshal_new msgType body with
         | None => Err ErrUnmarshal
         | Some msg => Ok (mkRecord typeID (MApp msg) body)
         end
       end)
  end.

(** [DecodePayload]. *)
Definition Decoder_DecodePayload (ca : Caches) (reg : Registry) (payload : bytes)
    : Caches * Registry * result sds_error (Z * RecordMessage) :=
  let '(ca, reg, r) := Decoder_Decode ca reg payload in
  (ca, reg, match r with Err e => Err e | Ok rec => Ok (rec_TypeID rec, rec_Message rec) end).

(** ** Well-announced streams *)

Definition is_def_frame (p : bytes) (t : Z) : Prop :=
  exists body d, SplitFrame p = Ok (TypeIDTypeDefinition, body) /\ wire_unmarshal body = Some d /\ td_Id d = t.

(** The type a frame refers to: the table of an operation, or its own. *)
Definition needs_type (p : bytes) (t : Z) : Prop :=
  (exists body op, SplitFrame p = Ok (TypeIDOpRecord, body) /\ wire_unmarshal body = Some op /\ or_TypeId op = t) \/
  (exists body, SplitFrame p = Ok (t, body) /\ MinAppTypeID <= t).

Definition defined_in (log : list bytes) (t : Z) : Prop := exists p, p ∈ log /\ is_def_frame p t.

Definition is_header_frame (p : bytes) : Prop := exists body, SplitFrame p = Ok (TypeIDStreamHeader, body).

(** Every payload is a frame, the first one is a stream header, and a type is
    defined before it is used. *)
Definition stream_ok (log : list bytes) : Prop :=
  Forall (fun p => is_ok (SplitFrame p) = true) log /\
  (forall p, head log = Some p -> is_header_frame p) /\
  (forall i p t, log !! i = Some p -> needs_type p t -> defined_in (take i log) t).

Definition frame_fits (log : list bytes) (p : bytes) : Prop :=
  is_ok (SplitFrame p) = true /\ (log = [] -> is_header_frame p) /\
  (forall t, needs_type p t -> defined_in log t).

Lemma stream_ok_snoc log p : stream_ok log -> frame_fits log p -> stream_ok (log ++ [p]).
Proof.
  intros (HF & HH & HN) (H1 & H2 & H3). split; [|split].
  - apply Forall_app. by split; [|constructor].
  - intros q. destruct log; cbn; [intros [= <-]; by apply H2|]. apply HH.
  - intros i q t Hi Hq. destruct (decide (i < length log)%nat) as [Hlt|Hge].
    + rewrite lookup_app_l in Hi by done. rewrite take_app_le by lia. by eapply HN.
    + apply lookup_snoc_Some in Hi as [[? _]|[-> <-]]; [lia|]. rewrite take_app_length. by apply H3.
Qed.

Lemma defined_in_mono log log' t : log `prefix_of` log' -> defined_in log t -> defined_in log' t.
Proof. intros [k ->] (p & Hp & Hd). exists p. rewrite elem_of_app. auto. Qed.

(** ** The writer keeps its stream well announced *)

Definition w_stream (w : Writer) : list bytes := stream (w_appender w).

Record writer_ok (w : Writer) : Prop := {
  wo_registry : registry_ok (w_registry w);
  wo_stream : stream_ok (w_stream w);
  wo_emitted : w_headerEmitted w = true -> w_stream w <> [];
  wo_header : w_skipHeader w = false;
  wo_announced : forall t, is_Some (w_announced w !! t) -> defined_in (w_stream w) t;
}.

Context `{!AppenderLaw T, !WireLaw TypeDefinition, !WireLaw OpRecord}.

Lemma w_Append_ok w p w' r :
  writer_ok w -> frame_fits (w_stream w) p -> w_Append w p = (w', r) ->
  writer_ok w' /\ w_stream w `prefix_of` w_stream w' /\ w_registry w' = w_registry w /\
  (is_ok r = true -> w_stream w' = w_stream w ++ [p]).
Proof.
  intros [HR HS HE HH HA] HF. unfold w_Append. pose proof (Append_spec (w_appender w) p) as HP.
  destruct (Append (w_appender w) p) as [a res]. intros [= <- <-].
  assert (stream a = w_stream w \/ stream a = w_stream w ++ [p]) as HC.
  { destruct res; [right; apply HP|done]. }
  assert (w_stream w `prefix_of` stream a) as HPre by (destruct HC as [-> | -> ]; [done|by exists [p]]).
  split; [|split; [done|]].
  - split; [done|..]; unfold w_stream in *; cbn in *.
    + destruct HC as [-> | -> ]; [done|by apply stream_ok_snoc].
    + intros H%HE. destruct HC as [-> | -> ]; [done|]. by destruct (stream (w_appender w)).
    + done.
    + intros t Ht. eapply defined_in_mono; [done|by apply HA].
  - split; [done|]. destruct res; [|done]. intros _. apply HP.
Qed.

(** Appends only extend the stream and leave the registry alone. *)
Definition extends (w w' : Writer) : Prop :=
  w_stream w `prefix_of` w_stream w' /\ w_registry w' = w_registry w.

#[local] Instance extends_po : PreOrder extends.
Proof.
  split; [done|]. intros w1 w2 w3 [H1 R1] [H2 R2]. split; [by etrans|congruence].
Qed.

Lemma w_Append_extends w p : extends w (fst (w_Append w p)).
Proof.
  unfold extends, w_Append, w_stream. pose proof (Append_spec (w_appender w) p) as HP.
  destruct (Append (w_appender w) p) as [a [seq|e]]; cbn in *; (split; [|done]).
  - destruct HP as [-> _]. by exists [p].
  - destruct HP as [-> | -> ]; [done|by exists [p]].
Qed.

Lemma w_Append_ok_stream w p w' seq :
  w_Append w p = (w', Ok seq) ->
  w_stream w' = w_stream w ++ [p] /\ seq = Z.of_nat (length (w_stream w')) /\ w_registry w' = w_registry w.
Proof.
  unfold w_Append, w_stream. pose proof (Append_spec (w_appender w) p) as HP.
  destruct (Append (w_appender w) p) as [a [s|e]]; intros [= <- <-]. cbn. by destruct HP.
Qed.

Lemma header_extends now w : extends w (fst (ensureStreamHeaderLocked now w)).
Proof.
  unfold ensureStreamHeaderLocked. destruct (_ || _); [done|]. destruct (encode_message _ _) as [p|]; [|done].
  pose proof (w_Append_extends w p) as HE. by destruct (w_Append w p) as [w1 []].
Qed.

Lemma ensureAnnounced_extends now w t : extends w (fst (ensureAnnounced now w t)).
Proof.
  unfold ensureAnnounced. pose proof (header_extends now w) as HH.
  destruct (ensureStreamHeaderLocked now w) as [w1 [[]|e]]; [|done]. cbn in HH.
  destruct (Registry_LookupByID _ t) as [[def desc]|]; [|done]. destruct (bool_decide _); [done|].
  destruct (encode_message _ _) as [p|]; [|done]. pose proof (w_Append_extends w1 p) as HE.
  destruct (w_Append w1 p) as [w2 []]; cbn in *; (etrans; [exact HH|exact HE]).
Qed.

Lemma encode_message_split {A} `{Wire A} id (a : A) p :
  is_u32 id -> encode_message id a = Ok p ->
  exists body, wire_marshal a = Some body /\ SplitFrame p = Ok (id, body).
Proof.
  intros Hid. unfold encode_message. destruct (wire_marshal a) as [body|]; [|done].
  intros HE. exists body. split; [done|]. by eapply SplitFrame_EncodeFrame.
Qed.

Lemma needs_none p id body t :
  SplitFrame p = Ok (id, body) -> id <> TypeIDOpRecord -> id < MinAppTypeID -> ~ needs_type p t.
Proof. intros HS H5 H16 [(b & op & HS' & _)|(b & HS' & Hm)]; rewrite HS in HS'; simplify_eq; lia. Qed.

Lemma plain_fits log p id body :
  SplitFrame p = Ok (id, body) -> id <> TypeIDOpRecord -> id < MinAppTypeID ->
  (log = [] -> id = TypeIDStreamHeader) -> frame_fits log p.
Proof.
  intros HS H5 H16 HL. split; [by rewrite HS|]. split.
  - intros Hl. rewrite (HL Hl) in HS. by eexists.
  - intros t Ht. by eapply needs_none in Ht.
Qed.

Lemma header_ok now w w' r :
  writer_ok w -> ensureStreamHeaderLocked now w = (w', r) ->
  writer_ok w' /\ w_stream w `prefix_of` w_stream w' /\ w_registry w' = w_registry w /\
  (is_ok r = true -> w_stream w' <> []).
Proof.
  intros HW. unfold ensureStreamHeaderLocked. pose proof HW as [HR HS HE HH HA].
  destruct (w_headerEmitted w) eqn:EE; cbn [orb].
  { intros [= <- <-]. split_and!; [done..|]. intros _. by apply HE. }
  rewrite HH. destruct (encode_message _ _) as [p|] eqn:EM; [|intros [= <- <-]; by split_and!].
  apply encode_message_split in EM as (body & _ & HSp); [|done].
  destruct (w_Append w p) as [w1 r1] eqn:EA.
  apply w_Append_ok in EA as (HW1 & HP & HRg & HL); [|done|by eapply plain_fits].
  destruct r1 as [seq|e]; intros [= <- <-]; [|by split_and!].
  specialize (HL eq_refl).
  assert (w_stream w1 <> []) as HNe by (rewrite HL; by destruct (w_stream w)).
  split_and!; [|done..]. destruct HW1. by split.
Qed.

Lemma def_frame_fits log def p :
  log <> [] -> encode_message TypeIDTypeDefinition def = Ok p ->
  frame_fits log p /\ is_def_frame p (td_Id def).
Proof.
  intros HL EM. apply encode_message_split in EM as (body & HM & HSp); [|done].
  split; [eapply plain_fits; by try done|]. exists body, def. split_and!; [done| |done].
  by apply wire_roundtrip.
Qed.

Lemma ensureAnnounced_ok now w t w' r :
  writer_ok w -> ensureAnnounced now w t = (w', r) ->
  writer_ok w' /\ w_stream w `prefix_of` w_stream w' /\ w_registry w' = w_registry w /\
  (is_ok r = true -> w_stream w' <> [] /\ defined_in (w_stream w') t).
Proof.
  intros HW. unfold ensureAnnounced.
  destruct (ensureStreamHeaderLocked now w) as [w1 [[]|e]] eqn:EH;
    apply header_ok in EH as (HW1 & HP1 & HR1 & HN1); [|done| |done].
  2:{ intros [= <- <-]. by split_and!. }
  specialize (HN1 eq_refl).
  destruct (Registry_LookupByID (w_registry w1) t) as [[def desc]|] eqn:EL; [|intros [= <- <-]; by split_and!].
  destruct (bool_decide _) eqn:EB.
  { decide_tests. intros [= <- <-]. split_and!; [done..|]. intros _. split; [done|].
    apply (wo_announced w1 HW1). by rewrite EB. }
  destruct (encode_message _ _) as [p|] eqn:EM; [|intros [= <- <-]; by split_and!].
  destruct (def_frame_fits (w_stream w1) def p) as [HF HD]; [done..|].
  assert (td_Id def = t) as Hid.
  { apply bind_Some in EL as (e & He & [= <- <-]). by destruct (ro_entries _ (wo_registry w1 HW1) _ _ He). }
  destruct (w_Append w1 p) as [w2 r2] eqn:EA.
  apply w_Append_ok in EA as (HW2 & HP2 & HR2 & HL2); [|done..].
  assert (w_stream w `prefix_of` w_stream w2) as HP by (by etrans).
  destruct r2 as [seq|e]; intros [= <- <-]; [|split_and!; [done|done|congruence|done]].
  specialize (HL2 eq_refl).
  assert (defined_in (w_stream w2) t) as HDef.
  { exists p. rewrite HL2, elem_of_app, list_elem_of_singleton, <- Hid. auto. }
  assert (w_stream w2 <> []) as HNe by (rewrite HL2; by destruct (w_stream w1)).
  split_and!; [|done|cbn; congruence|done].
  destruct HW2 as [? ? ? ? HA2]. split; [done..|]. cbn. intros t' Ht'.
  destruct (decide (t' = t)) as [->|Hne]; [done|]. rewrite lookup_insert_ne in Ht' by done. by apply HA2.
Qed.

(** A successful [AppendOp] ends the stream with the operation's frame. *)
Lemma AppendOp_stream now w op w' seq :
  Writer_AppendOp now w (Some op) = (w', Ok seq) ->
  exists pre p body, wire_marshal op = Some body /\ SplitFrame p = Ok (TypeIDOpRecord, body) /\
    w_stream w' = w_stream w ++ pre ++ [p] /\ seq = Z.of_nat (length (w_stream w')) /\
    w_registry w' = w_registry w.
Proof.
  unfold Writer_AppendOp. pose proof (ensureAnnounced_extends now w (or_TypeId op)) as [[pre HP] HR].
  destruct (ensureAnnounced now w (or_TypeId op)) as [w1 [u|]]; [|done]. cbn in HP, HR.
  destruct (encode_message TypeIDOpRecord op) as [p|] eqn:EM; [|done].
  apply encode_message_split in EM as (body & HM & HS); [|done]. intros HA.
  apply w_Append_ok_stream in HA as (HW & Hs & HR'). exists pre, p, body.
  split_and!; [done|done|by rewrite HW, HP, <- app_assoc|done|congruence].
Qed.

(** ** Any run of the writer *)

Inductive writer_op : Type :=
| WHeader (hdr : option StreamHeader)
| WRegister (md : option Desc) (keyFields : list Z)
| WAnnounce (typeID : Z)
| WOp (op : option OpRecord)
| WCommit (c : option TxCommit)
| WPointer (p : option SnapshotPointer)
| WPadding (body : bytes)
| WRaw (typeID : Z) (body : bytes).

Definition run_writer_op (now : Z) (ca : Caches) (w : Writer) (o : writer_op) : Caches * Writer :=
  match o with
  | WHeader hdr => (ca, fst (Writer_AppendStreamHeader w hdr))
  | WRegister md kfs => fst (Writer_RegisterDescriptor ca w md kfs)
  | WAnnounce t => (ca, fst (Writer_EnsureAnnounced now w t))
  | WOp op => (ca, fst (Writer_AppendOp now w op))
  | WCommit c => (ca, fst (Writer_AppendTxCommit now w c))
  | WPointer p => (ca, fst (Writer_AppendSnapshotPointer now w p))
  | WPadding body => (ca, fst (Writer_AppendPaddingBytes now w body))
  | WRaw t body => (ca, fst (Writer_AppendRaw now w t body))
  end.

(** [AppendRaw] takes a [uint32] and does not look into the body, so raw
    operation records are outside what the writer can announce. *)
Definition writer_op_ok (o : writer_op) : Prop :=
  match o with WRaw t _ => is_u32 t /\ t <> TypeIDOpRecord | _ => True end.

Inductive writer_step : Caches * Writer -> Caches * Writer -> Prop :=
| ws_op now ca w o : writer_op_ok o -> writer_step (ca, w) (run_writer_op now ca w o).

Lemma after_header_ok now w payload id :
  writer_ok w -> id <> TypeIDOpRecord -> id < MinAppTypeID ->
  (forall p, payload = Ok p -> exists body, SplitFrame p = Ok (id, body)) ->
  writer_ok (fst (append_after_header now w payload)).
Proof.
  intros HW H5 H16 HP. unfold append_after_header. destruct payload as [p|]; [|done].
  destruct (HP p eq_refl) as [body HS].
  destruct (ensureStreamHeaderLocked now w) as [w1 [[]|e]] eqn:EH;
    apply header_ok in EH as (HW1 & _ & _ & HN1); [|done| |done]; [|done].
  destruct (w_Append w1 p) as [w2 r2] eqn:EA.
  apply w_Append_ok in EA as (HW2 & _); [done|done|]. eapply plain_fits; [done..|].
  intros HE. by apply HN1 in HE.
Qed.

Lemma set_registry_ok w r : writer_ok w -> registry_ok r -> writer_ok (set_registry w r).
Proof. intros [? ? ? ? ?] ?. by split. Qed.

Lemma encode_message_frame {A} `{Wire A} id (a : A) p :
  is_u32 id -> encode_message id a = Ok p -> exists body, SplitFrame p = Ok (id, body).
Proof. intros Hid HE. apply encode_message_split in HE as (body & _ & HS); eauto. Qed.

Lemma AppendStreamHeader_ok w hdr : writer_ok w -> writer_ok (fst (Writer_AppendStreamHeader w hdr)).
Proof.
  intros HW. destruct hdr as [hdr|]; [|done]. cbn.
  destruct (encode_message _ _) as [p|] eqn:EM; [|done]. apply encode_message_frame in EM as [body HS]; [|done].
  destruct (w_Append w p) as [w1 r1] eqn:EA.
  apply w_Append_ok in EA as (HW1 & _ & _ & HL); [|done|by eapply plain_fits].
  destruct r1; [|done]. cbn. destruct HW1. split; [done..| |done|done].
  intros _. unfold w_stream in *. cbn. rewrite HL by done. by destruct (stream (w_appender w)).
Qed.

Lemma AppendOp_ok now w op : writer_ok w -> writer_ok (fst (Writer_AppendOp now w op)).
Proof.
  intros HW. destruct op as [op|]; [|done]. cbn.
  destruct (ensureAnnounced now w _) as [w1 [[]|e]] eqn:EA;
    apply ensureAnnounced_ok in EA as (HW1 & _ & _ & HN); [|done| |done]; [|done].
  destruct (HN eq_refl) as [HNe HD].
  destruct (encode_message _ _) as [p|] eqn:EM; [|done].
  apply encode_message_split in EM as (body & HM & HS); [|done].
  destruct (w_Append w1 p) as [w2 r2] eqn:EW.
  apply w_Append_ok in EW as (HW2 & _); [done|done|]. split; [by rewrite HS|]. split; [done|].
  intros t [(b & op' & HS' & HU & <-)|(b & HS' & Hm)]; rewrite HS in HS'; simplify_eq.
  apply wire_roundtrip in HM. rewrite HM in HU. by injection HU as <-.
Qed.

Lemma AppendRaw_ok now w t body :
  is_u32 t -> t <> TypeIDOpRecord -> writer_ok w -> writer_ok (fst (Writer_AppendRaw now w t body)).
Proof.
  intros Hu H5 HW. unfold Writer_AppendRaw.
  destruct (ensureStreamHeaderLocked now w) as [w1 [[]|e]] eqn:EH;
    apply header_ok in EH as (HW1 & _ & _ & HN1); [|done| |done]; [|done].
  destruct (if MinAppTypeID <=? t then _ else _) as [w2 r2] eqn:E2.
  assert (writer_ok w2 /\ (is_ok r2 = true -> w_stream w2 <> [] /\ (MinAppTypeID <= t -> defined_in (w_stream w2) t)))
    as [HW2 HN2].
  { destruct (MinAppTypeID <=? t) eqn:EM; zify_bool.
    - apply ensureAnnounced_ok in E2 as (HW2 & _ & _ & HN2); [|done]. naive_solver.
    - injection E2 as <- <-. split; [done|]. intros _. split; [by apply HN1|lia]. }
  destruct r2 as [[]|]; [|done]. destruct (HN2 eq_refl) as [HNe HD].
  destruct (EncodeFrame t body) as [p|] eqn:EE; [|done]. apply SplitFrame_EncodeFrame in EE; [|done].
  destruct (w_Append w2 p) as [w3 r3] eqn:EW.
  apply w_Append_ok in EW as (HW3 & _); [done|done|]. split; [by rewrite EE|]. split; [done|].
  intros t' [(b & op' & HS' & _)|(b & HS' & Hm)]; rewrite EE in HS'; simplify_eq. by apply HD.
Qed.

Lemma run_writer_op_ok now ca w o :
  caches_ok ca -> writer_ok w -> writer_op_ok o ->
  caches_ok (fst (run_writer_op now ca w o)) /\ writer_ok (snd (run_writer_op now ca w o)).
Proof.
  intros HC HW HO. destruct o as [hdr|md kfs|t|op|c|p|body|t body]; cbn [run_writer_op fst snd].
  - split; [done|]. by apply AppendStreamHeader_ok.
  - unfold Writer_RegisterDescriptor.
    destruct (Registry_RegisterDescriptor ca (w_registry w) md kfs) as [[ca' r'] res] eqn:ER.
    destruct (run_reg_op_ok ca (w_registry w) (OpRegisterDescriptor md kfs) ca' r' (is_ok res)) as (? & ? & _);
      [done|apply HW|done|by cbn [run_reg_op]; rewrite ER|]. split; [done|]. by apply set_registry_ok.
  - split; [done|]. unfold Writer_EnsureAnnounced. destruct (ensureAnnounced now w t) as [w1 r1] eqn:EA.
    by apply ensureAnnounced_ok in EA as (? & _).
  - split; [done|]. by apply AppendOp_ok.
  - split; [done|]. destruct c as [c|]; [|done]. eapply (after_header_ok now w _ TypeIDTxCommit); [done..|].
    intros p Hp. exact (encode_message_frame TypeIDTxCommit c p ltac:(done) Hp).
  - split; [done|]. destruct p as [p|]; [|done]. eapply (after_header_ok now w _ TypeIDSnapshotPointer); [done..|].
    intros q Hq. exact (encode_message_frame TypeIDSnapshotPointer p q ltac:(done) Hq).
  - split; [done|]. eapply (after_header_ok now w _ TypeIDPadding); [done..|].
    intros p Hp. exists body. by eapply SplitFrame_EncodeFrame.
  - destruct HO. split; [done|]. by apply AppendRaw_ok.
Qed.

Lemma writer_run_ok x y :
  rtc writer_step x y -> caches_ok (fst x) -> writer_ok (snd x) -> caches_ok (fst y) /\ writer_ok (snd y).
Proof.
  induction 1 as [|x y z Hs _ IH]; [done|]. intros HC HW. destruct Hs as [now ca w o HO].
  cbn [fst snd] in *. destruct (run_writer_op_ok now ca w o) as [? ?]; [done..|]. by apply IH.
Qed.

(** Options under which a writer may be attached to the stream [log]. *)
Definition option_fits (log : list bytes) (o : WriterOption) : Prop :=
  match o with
  | WithRegistry reg => registry_ok reg
  | WithoutStreamHeader => False
  | WithStreamHeaderEmitted emitted => emitted = true -> log <> []
  | WithStreamHeader _ => True
  end.

Lemma apply_options_ok opts : forall w,
  writer_ok w -> Forall (option_fits (w_stream w)) opts -> writer_ok (foldl apply_option w opts).
Proof.
  induction opts as [|o opts IH]; intros w HW HF; [done|]. inversion HF as [|? ? Ho HF']; subst.
  cbn. apply IH; [|by destruct o].
  destruct HW, o; cbn in *; try done; by split.
Qed.

Lemma NewWriter_ok t opts :
  stream_ok (stream t) -> Forall (option_fits (stream t)) opts -> writer_ok (NewWriter t opts).
Proof.
  intros HS HF. apply apply_options_ok; [|done]. split; [apply NewRegistry_ok|done..|].
  intros t0. cbn. rewrite lookup_empty. by intros [].
Qed.

(** C27: Whatever a writer is asked to do, and whichever of its appends fail,
    with or without having reached the stream, a well-announced stream stays
    well announced: every payload is a frame with a valid type id, the first
    record is a stream header, and each operation and each raw application
    record comes after a definition of its type.  The writer may be attached to
    an empty stream or resume one. *)
Theorem announce_before_use t opts ca ca' w' :
  stream_ok (stream t) -> Forall (option_fits (stream t)) opts -> caches_ok ca ->
  rtc writer_step (ca, NewWriter t opts) (ca', w') ->
  stream_ok (w_stream w').
Proof.
  intros HS HO HC HR. destruct (writer_run_ok _ _ HR) as [_ HW]; [done|by apply NewWriter_ok|]. apply HW.
Qed.
End stream.

(** ** A transport in memory

    Appends succeed or fail as a list of outcomes says. *)

Inductive append_outcome : Type := AOk | ALost | AWritten.

Record MemStream : Type := mkMemStream {
  ms_log : list bytes;
  ms_outcomes : list append_outcome;
}.

#[export] Instance mem_appender : Appender MemStream := {|
  Append t p :=
    match ms_outcomes t with
    | ALost :: os => (mkMemStream (ms_log t) os, Err ErrAppend)
    | AWritten :: os => (mkMemStream (ms_log t ++ [p]) os, Err ErrAppend)
    | AOk :: os => (mkMemStream (ms_log t ++ [p]) os, Ok (Z.of_nat (S (length (ms_log t)))))
    | [] => (mkMemStream (ms_log t ++ [p]) [], Ok (Z.of_nat (S (length (ms_log t)))))
    end;
  stream := ms_log;
|}.

#[export] Instance mem_appender_law : AppenderLaw MemStream.
Proof.
  intros [log [|[] os]] p; cbn; rewrite ?length_app; cbn; auto; split; auto; f_equal; lia.
Qed.

(** ** Examples

    Messages serialised through an enumeration of their type. *)

Fixpoint pos_bytes (p : positive) : bytes :=
  match p with xH => [] | xO p => x00 :: pos_bytes p | xI p => x01 :: pos_bytes p end.

Fixpoint bytes_pos (b : bytes) : option positive :=
  match b with
  | [] => Some xH
  | x00 :: b => xO <$> bytes_pos b
  | x01 :: b => xI <$> bytes_pos b
  | _ => None
  end.

Lemma bytes_pos_bytes p : bytes_pos (pos_bytes p) = Some p.
Proof. induction p as [p IH|p IH|]; cbn; [by rewrite IH..|done]. Qed.

Definition countable_wire (A : Type) `{Countable A} : Wire A := {|
  wire_marshal a := Some (pos_bytes (encode a));
  wire_unmarshal b := p ← bytes_pos b; decode p;
|}.

Lemma countable_wire_law (A : Type) `{Countable A} : @WireLaw A (countable_wire A).
Proof. intros a b [= <-]. cbn. rewrite bytes_pos_bytes. cbn. apply decode_encode. Qed.

#[export] Instance OpRecord_eq_dec : EqDecision OpRecord.
Proof. solve_decision. Defined.
#[export] Instance TxCommit_eq_dec : EqDecision TxCommit.
Proof. solve_decision. Defined.
#[export] Instance SnapshotPointer_eq_dec : EqDecision SnapshotPointer.
Proof. solve_decision. Defined.
#[export] Instance StreamHeader_eq_dec : EqDecision StreamHeader.
Proof. solve_decision. Defined.

#[export] Instance OpRecord_countable : Countable OpRecord.
Proof.
  refine (inj_countable' (fun r => (or_Op r, or_TypeId r, or_TxId r, or_Key r, or_Value r))
    (fun '(a, b, c, d, e) => mkOpRecord a b c d e) _). by intros [].
Defined.
#[export] Instance TxCommit_countable : Countable TxCommit.
Proof.
  refine (inj_countable' (fun r => (tc_TxId r, tc_CommitTime r)) (fun '(a, b) => mkTxCommit a b) _). by intros [].
Defined.
#[export] Instance SnapshotPointer_countable : Countable SnapshotPointer.
Proof.
  refine (inj_countable' (fun r => (sp_Position r, sp_Format r, sp_Location r, sp_RegistryFingerprint r,
      sp_Name r, sp_CreatedAt r, sp_RestoredFrom r, sp_ClonedFrom r))
    (fun '(a, b, c, d, e, f, g, h) => mkSnapshotPointer a b c d e f g h) _). by intros [].
Defined.
#[export] Instance StreamHeader_countable : Countable StreamHeader.
Proof.
  refine (inj_countable' (fun r => (sh_FormatVersion r, sh_CreatorVersion r, sh_CreatedAt r))
    (fun '(a, b, c) => mkStreamHeader a b c) _). by intros [].
Defined.

(** A runtime whose only file is "Item", with the message [item1]. *)
Definition item_lib : ProtoLib := {|
  FileProto := bytes;
  file_name f := f;
  marshal_deterministic l := Some (concat l);
  marshal_fds l := Some (concat l);
  new_files _ := Some {[ md_FullName item1 := item1 ]};
  parent_file _ := mkFileDescriptor (go "Item") [] (go "Item");
  global_files := ∅;
  global_types := ∅;
|}.

#[export] Instance item_def_eq_dec : EqDecision (@TypeDefinition item_lib).
Proof. intros [a b c d e] [a' b' c' d' e']. unfold Decision. cbn in d, d'. decide equality; try apply decide; apply _. Defined.
#[export] Instance item_def_countable : Countable (@TypeDefinition item_lib).
Proof.
  refine (inj_countable' (fun r : @TypeDefinition item_lib =>
      (td_Id r, td_Name r, td_Fingerprint r, td_Descriptors r : option (list bytes), td_KeyFields r))
    (fun '(a, b, c, d, e) => @mkTypeDefinition item_lib a b c d e) _). by intros [].
Defined.

(** Messages with byte-string values, serialised with a leading tag byte. *)
Definition item_marshal (m : Message bytes) : option bytes :=
  if bool_decide (msg_fields m = ∅ /\ msg_unknown m = []) then Some []
  else Some (x02 :: pos_bytes (encode (msg_fields m, msg_unknown m))).

Definition item_merge (m : Message bytes) (b : bytes) : option (Message bytes) :=
  match b with
  | [] => Some m
  | x02 :: b =>
    p ← bytes_pos b; fu ← (decode p : option (gmap Z bytes * bytes));
    Some (mkMsg (msg_type m) (fst fu ∪ msg_fields m) (msg_unknown m ++ snd fu))
  | _ => None
  end.

Lemma item_merge_marshal t t' f1 f2 b :
  item_marshal (mkMsg t f1 []) = Some b -> item_merge (mkMsg t' f2 []) b = Some (mkMsg t' (f1 ∪ f2) []).
Proof.
  unfold item_marshal. cbn. destruct (bool_decide _) eqn:E; intros [= <-]; decide_tests.
  - destruct E as [-> _]. cbn. by rewrite (left_id_L ∅ (∪)).
  - cbn. rewrite bytes_pos_bytes. cbn [mbind option_bind]. rewrite decode_encode. done.
Qed.

Definition item_slib : @StreamLib item_lib := {|
  Value := bytes;
  wire_def := countable_wire _;
  wire_op := countable_wire _;
  wire_commit := countable_wire _;
  wire_ptr := countable_wire _;
  wire_header := countable_wire _;
  marshal_partial := item_marshal;
  merge_partial := item_merge;
  initialized _ := true;
|}.

Section examples.
#[local] Existing Instance item_lib.
#[local] Existing Instance item_slib.

#[local] Instance item_def_law : WireLaw TypeDefinition.
Proof. apply countable_wire_law. Qed.
#[local] Instance item_op_law : WireLaw OpRecord.
Proof. apply countable_wire_law. Qed.

(** A writer whose second append, the type definition, reaches the stream but
    reports an error, and is retried. *)
Definition run1 := run_writer_op 7 no_caches (NewWriter (mkMemStream [] [AOk; AWritten]) [])
                     (WRegister (Some (DynamicDesc item1)) [1]).
Definition run2 := run_writer_op 8 (fst run1) (snd run1) (WOp (Some (mkOpRecord 0 16 0 (go "k") (go "v")))).
Definition run3 := run_writer_op 9 (fst run2) (snd run2) (WOp (Some (mkOpRecord 0 16 0 (go "k") (go "v")))).

Lemma run_step now o x :
  writer_op_ok o -> writer_step (T := MemStream) x (run_writer_op now (fst x) (snd x) o).
Proof. destruct x. apply ws_op. Qed.

Lemma run3_reachable :
  rtc writer_step (no_caches, NewWriter (mkMemStream [] [AOk; AWritten]) []) (fst run3, snd run3).
Proof.
  rewrite <- surjective_pairing.
  eapply rtc_l; [by apply (ws_op 7 no_caches _ (WRegister (Some (DynamicDesc item1)) [1]))|].
  eapply rtc_l; [by apply (run_step 8 (WOp (Some (mkOpRecord 0 16 0 (go "k") (go "v")))) run1)|].
  apply rtc_once. by apply (run_step 9 (WOp (Some (mkOpRecord 0 16 0 (go "k") (go "v")))) run2).
Qed.

#[local] Opaque run3.

Lemma announce_before_use_witness :
  length (w_stream (snd run3)) = 4%nat /\ stream_ok (w_stream (snd run3)).
Proof.
  split; [vm_compute; reflexivity|].
  apply (announce_before_use (mkMemStream [] [AOk; AWritten]) [] no_caches (fst run3) (snd run3));
    [|by constructor|apply no_caches_ok|exact run3_reachable].
  split; [by constructor|]. split; [done|]. by intros [|i] p t Hi.
Defined.
End examples.
