(* ===== verification/SdsTx.v ===== *)
(** * SdsTx: rows, transactions and committed changes

    [pkg/sds/keys.go], [types.go], [writer.go] and [reader.go]: splitting a row
    into key and value bytes, writing rows alone or in a transaction as
    operation records, and grouping the records of a stream into committed
    changes. *)

From S2P Require Import Prelude Bytes Sha256 SdsFrame SdsSchema SdsRegistry SdsStream.

#[local] Open Scope Z_scope.
#[local] Open Scope list_scope.

Inductive tx_error : Type :=
| TERecord (e : sds_error)
| ErrNilMessage
| ErrKeyFieldNotFound (kf : Z)
| ErrMissingPrimaryKey (kf : Z)
| ErrInvalidKeyBytes
| ErrMergeRow
| ErrMissingStreamHeader
| ErrUnsupportedStreamVersion
| ErrTxClosed
| TxPanic.

Definition lift_err {A} (r : result sds_error A) : result tx_error A :=
  match r with Ok a => Ok a | Err e => Err (TERecord e) end.

Section rows.
Context `{SL : StreamLib}.

(** ** Messages *)

Definition mt_md (t : MessageType) : MessageDescriptor :=
  match t with CompiledType md | DynamicType md => md end.

Definition mt_desc (t : MessageType) : Desc :=
  match t with CompiledType md => CompiledDesc md | DynamicType md => DynamicDesc md end.

Abbreviation Msg := (Message Value).

Definition msg_md (m : Msg) : MessageDescriptor := mt_md (msg_type m).

(** [Message.Has], by field number. *)
Definition msg_Has (m : Msg) (n : Z) : bool := bool_decide (is_Some (msg_fields m !! n)).

(** [dst.Set(f, m.Get(f))] for a field that [m] has. *)
Definition msg_copy_field (m dst : Msg) (n : Z) : Msg :=
  match msg_fields m !! n with
  | Some v => mkMsg (msg_type dst) (<[n := v]> (msg_fields dst)) (msg_unknown dst)
  | None => dst
  end.

(** [MarshalOptions{Deterministic}.Marshal]. *)
Definition marshal_full (m : Msg) : option bytes :=
  if initialized m then marshal_partial m else None.

(** ** Keys *)

(** The first loop of [ValidateKeyBytes]. *)
Fixpoint check_key_present (md : MessageDescriptor) (keyMsg : Msg) (kfs : list Z) : result tx_error () :=
  match kfs with
  | [] => Ok ()
  | kf :: kfs =>
    match by_number (md_Fields md) kf with
    | None => Err ErrInvalidKeyBytes
    | Some f => if msg_Has keyMsg (fd_Number f) then check_key_present md keyMsg kfs else Err ErrInvalidKeyBytes
    end
  end.

Definition ValidateKeyBytes (md : option Desc) (keyFields : list Z) (keyBytes : bytes) : result tx_error () :=
  match md with
  | None => Err ErrNilMessage
  | Some desc =>
    let md := desc_md desc in
    if bool_decide (keyBytes = []) then
      if bool_decide (keyFields = []) then Ok () else Err ErrInvalidKeyBytes
    else
    match unmarshal_new (DynamicType md) keyBytes with
    | None => Err ErrInvalidKeyBytes
    | Some keyMsg =>
      match check_key_present md keyMsg keyFields with
      | Err e => Err e
      | Ok _ =>
        if existsb (fun f => msg_Has keyMsg (fd_Number f) && negb (bool_decide (fd_Number f ∈ keyFields)))
             (md_Fields md)
        then Err ErrInvalidKeyBytes
        else if bool_decide (msg_unknown keyMsg = []) then Ok () else Err ErrInvalidKeyBytes
      end
    end
  end.

(** [NewPrimaryKey] sorts the field numbers. *)
Definition NewPrimaryKey (keyFields : list Z) : list Z := merge_sort Z.le keyFields.

Fixpoint check_primary_key (md : MessageDescriptor) (m : Msg) (kfs : list Z) : result tx_error () :=
  match kfs with
  | [] => Ok ()
  | kf :: kfs =>
    match by_number (md_Fields md) kf with
    | None => Err (ErrKeyFieldNotFound kf)
    | Some f => if msg_Has m (fd_Number f) then check_primary_key md m kfs else Err (ErrMissingPrimaryKey kf)
    end
  end.

(** The loop that distributes the fields of a row. *)
Definition split_fields (pk : list Z) (m : Msg) (fs : list FieldDescriptor) (kv : Msg * Msg) : Msg * Msg :=
  foldl (fun '(k, v) f =>
    if negb (msg_Has m (fd_Number f)) then (k, v)
    else if bool_decide (fd_Number f ∈ pk) then (msg_copy_field m k (fd_Number f), v)
    else (k, msg_copy_field m v (fd_Number f))) kv fs.

Definition PrimaryKey_Split (pk : list Z) (msg : option Msg) : result tx_error (bytes * bytes) :=
  match msg with
  | None => Err ErrNilMessage
  | Some m =>
    match check_primary_key (msg_md m) m pk with
    | Err e => Err e
    | Ok _ =>
      let '(keyMsg, valMsg) :=
        split_fields pk m (md_Fields (msg_md m)) (msg_New (msg_type m), msg_New (msg_type m)) in
      match marshal_partial keyMsg with
      | None => Err (TERecord ErrMarshal)
      | Some keyBytes =>
        match marshal_partial valMsg with
        | None => Err (TERecord ErrMarshal)
        | Some valBytes => Ok (keyBytes, valBytes)
        end
      end
    end
  end.

(** A [Key] is the string of its bytes. *)
Definition PrimaryKey_Extract (pk : list Z) (msg : option Msg) : result tx_error bytes :=
  match PrimaryKey_Split pk msg with
  | Err e => Err e
  | Ok (keyBytes, _) => Ok keyBytes
  end.

Definition ExtractKey (msg : option Msg) (keyFields : list Z) : result tx_error bytes :=
  PrimaryKey_Extract (NewPrimaryKey keyFields) msg.

Definition SplitKeyAndNonKey (msg : option Msg) (keyFields : list Z) : result tx_error (bytes * bytes) :=
  PrimaryKey_Split (NewPrimaryKey keyFields) msg.

Definition merge_nonempty (target : Msg) (b : bytes) : result tx_error Msg :=
  if bool_decide (b = []) then Ok target
  else match merge_partial target b with None => Err ErrMergeRow | Some m => Ok m end.

Definition MergeKeyAndNonKey (target : option Msg) (keyBytes valBytes : bytes) : result tx_error Msg :=
  match target with
  | None => Err ErrNilMessage
  | Some target =>
    match merge_nonempty target keyBytes with
    | Err e => Err e
    | Ok target => merge_nonempty target valBytes
    end
  end.

Definition EncodeKeyPrefix (msg : option Msg) (prefixKeyFields : list Z) : result tx_error bytes :=
  match msg with
  | None => Err ErrNilMessage
  | Some m =>
    let fields := md_Fields (msg_md m) in
    let prefixMsg :=
      if bool_decide (prefixKeyFields = []) then m
      else
        foldl (fun dst fn =>
          match by_number fields fn with
          | Some f => msg_copy_field m dst (fd_Number f)
          | None => dst
          end) (msg_New (msg_type m)) (merge_sort Z.le prefixKeyFields) in
    result_of_option (TERecord ErrMarshal) (marshal_full prefixMsg)
  end.

(** ** Changes *)

Record Change : Type := mkChange {
  ch_Seq : Z;
  ch_TypeID : Z;
  ch_TypeName : bytes;
  ch_Op : Z;
  ch_TxID : Z;
  ch_Key : bytes;
  ch_RawKey : bytes;
  ch_RawVal : bytes;
  ch_Row : option Msg;
}.

Definition set_Seq (seq : Z) (c : Change) : Change :=
  mkChange seq (ch_TypeID c) (ch_TypeName c) (ch_Op c) (ch_TxID c) (ch_Key c) (ch_RawKey c)
    (ch_RawVal c) (ch_Row c).

Definition Change_IsCreate (c : Change) : bool := ch_Op c =? OpRecord_CREATE.
Definition Change_IsUpdate (c : Change) : bool := ch_Op c =? OpRecord_UPDATE.
Definition Change_IsDelete (c : Change) : bool := ch_Op c =? OpRecord_DELETE.

(** ** The row writer *)

Section writer.
Context {T : Type} `{AP : Appender T}.

Record TxWriter : Type := mkTxWriter {
  tw_record : Writer (T := T);
  tw_nextTxID : Z;
}.

Definition NewTxWriter (appender : T) (opts : list WriterOption) : TxWriter :=
  mkTxWriter (NewWriter appender opts) 0.

Definition tw_registry (w : TxWriter) : Registry := w_registry (tw_record w).

Definition resolveOrRegister (ca : Caches) (w : TxWriter) (msg : option Msg)
    : Caches * TxWriter * result tx_error TypeDefinition :=
  match msg with
  | None => (ca, w, Err ErrNilMessage)
  | Some m =>
    match Registry_LookupByName (tw_registry w) (md_FullName (msg_md m)) with
    | Some (def, _) => (ca, w, Ok def)
    | None =>
      let '(ca, r, res) := Registry_RegisterMessage ca (tw_registry w) (Some (mt_desc (msg_type m))) [] in
      (ca, mkTxWriter (set_registry (tw_record w) r) (tw_nextTxID w), lift_err res)
    end
  end.

Definition writeOp (now : Z) (ca : Caches) (w : TxWriter) (op txID : Z) (msg : option Msg)
    : Caches * TxWriter * result tx_error Z :=
  match msg with
  | None => (ca, w, Err ErrNilMessage)
  | Some _ =>
    let '(ca, w, res) := resolveOrRegister ca w msg in
    match res with
    | Err e => (ca, w, Err e)
    | Ok def =>
      match SplitKeyAndNonKey msg (td_KeyFields def) with
      | Err e => (ca, w, Err e)
      | Ok (keyBytes, valBytes) =>
        let opRec := mkOpRecord op (td_Id def) txID keyBytes
                       (if op =? OpRecord_DELETE then [] else valBytes) in
        let '(rw, seq) := Writer_AppendOp now (tw_record w) (Some opRec) in
        (ca, mkTxWriter rw (tw_nextTxID w), lift_err seq)
      end
    end
  end.

(** Autocommit operations have transaction id 0. *)
Definition TxWriter_Create (now : Z) (ca : Caches) (w : TxWriter) (msg : option Msg) :=
  writeOp now ca w OpRecord_CREATE 0 msg.
Definition TxWriter_Update (now : Z) (ca : Caches) (w : TxWriter) (msg : option Msg) :=
  writeOp now ca w OpRecord_UPDATE 0 msg.
Definition TxWriter_Delete (now : Z) (ca : Caches) (w : TxWriter) (msg : option Msg) :=
  writeOp now ca w OpRecord_DELETE 0 msg.

(** ** Transactions *)

Record Tx : Type := mkTx {
  tx_txID : Z;
  tx_finished : bool;
  tx_changes : list Change;
  tx_firstWriteOp : bytes;
  tx_opName : bytes;
  tx_readSet : gmap (bytes * bytes) (option Msg);
  tx_readPrefixes : gset (bytes * bytes);
}.

Definition Begin (w : TxWriter) : TxWriter * Tx :=
  let txID := u64 (tw_nextTxID w + 1) in
  (mkTxWriter (tw_record w) txID, mkTx txID false [] [] [] ∅ ∅).

Definition Tx_SetOpName (tx : Tx) (name : bytes) : Tx :=
  mkTx (tx_txID tx) (tx_finished tx) (tx_changes tx) (tx_firstWriteOp tx) name (tx_readSet tx)
    (tx_readPrefixes tx).

Definition Tx_HasWrites (tx : Tx) : bool := negb (bool_decide (tx_firstWriteOp tx = [])).

Definition Tx_RecordRead (tx : Tx) (typeName key : bytes) (msg : option Msg) : Tx :=
  mkTx (tx_txID tx) (tx_finished tx) (tx_changes tx) (tx_firstWriteOp tx) (tx_opName tx)
    (<[(typeName, key) := msg]> (tx_readSet tx)) (tx_readPrefixes tx).

Definition Tx_RecordReadPrefix (tx : Tx) (typeName prefix : bytes) : Tx :=
  mkTx (tx_txID tx) (tx_finished tx) (tx_changes tx) (tx_firstWriteOp tx) (tx_opName tx)
    (tx_readSet tx) ({[ (typeName, prefix) ]} ∪ tx_readPrefixes tx).

Definition Tx_HasReadPrefix (tx : Tx) (typeName prefix : bytes) : bool :=
  bool_decide ((typeName, prefix) ∈ tx_readPrefixes tx).

Definition Tx_LookupRead (tx : Tx) (typeName key : bytes) : option (option Msg) :=
  match tx_readSet tx !! (typeName, key) with
  | Some msg => Some msg
  | None =>
    if existsb (fun pk => bool_decide (fst pk = typeName) && has_prefix (snd pk) key)
         (elements (tx_readPrefixes tx))
    then Some None else None
  end.

Definition op_name (op : Z) : bytes :=
  if op =? OpRecord_CREATE then go "CREATE"
  else if op =? OpRecord_UPDATE then go "UPDATE"
  else if op =? OpRecord_DELETE then go "DELETE"
  else fmt_pad 1 op.

Definition recordChange (ca : Caches) (w : TxWriter) (tx : Tx) (seq op : Z) (msg : option Msg)
    : Caches * TxWriter * Tx * result tx_error () :=
  let '(ca, w, res) := resolveOrRegister ca w msg in
  match res with
  | Err e => (ca, w, tx, Err e)
  | Ok def =>
    match SplitKeyAndNonKey msg (td_KeyFields def) with
    | Err e => (ca, w, tx, Err e)
    | Ok (keyBytes, valBytes) =>
      let ch := mkChange seq (td_Id def) (td_Name def) op (tx_txID tx) keyBytes keyBytes valBytes msg in
      let first :=
        if bool_decide (tx_firstWriteOp tx = []) then op_name op ++ go " " ++ td_Name def
        else tx_firstWriteOp tx in
      (ca, w, mkTx (tx_txID tx) (tx_finished tx) (tx_changes tx ++ [ch]) first (tx_opName tx)
                (tx_readSet tx) (tx_readPrefixes tx), Ok ())
    end
  end.

(** [Insert], [Create], [Update] and [Delete] differ in the operation only. *)
Definition tx_write (op now : Z) (ca : Caches) (w : TxWriter) (tx : Tx) (msg : option Msg)
    : Caches * TxWriter * Tx * result tx_error Z :=
  if tx_finished tx then (ca, w, tx, Err ErrTxClosed)
  else
  let '(ca, w, res) := writeOp now ca w op (tx_txID tx) msg in
  match res with
  | Err e => (ca, w, tx, Err e)
  | Ok seq =>
    let '(ca, w, tx, rc) := recordChange ca w tx seq op msg in
    match rc with
    | Err _ => (ca, w, tx, Err TxPanic)
    | Ok _ => (ca, w, tx, Ok seq)
    end
  end.

Definition Tx_Create := tx_write OpRecord_CREATE.
Definition Tx_Update := tx_write OpRecord_UPDATE.
Definition Tx_Delete := tx_write OpRecord_DELETE.

Definition Tx_Commit (now : Z) (w : TxWriter) (tx : Tx) : TxWriter * Tx * result tx_error Z :=
  if tx_finished tx then (w, tx, Err ErrTxClosed)
  else
  let close changes := mkTx (tx_txID tx) true changes (tx_firstWriteOp tx) (tx_opName tx)
                         (tx_readSet tx) (tx_readPrefixes tx) in
  let '(rw, res) := Writer_AppendTxCommit now (tw_record w) (Some (mkTxCommit (tx_txID tx) (Some now))) in
  let w := mkTxWriter rw (tw_nextTxID w) in
  match res with
  | Err e => (w, close (tx_changes tx), Err (TERecord e))
  | Ok commitSeq => (w, close (set_Seq commitSeq <$> tx_changes tx), Ok commitSeq)
  end.

Definition Tx_Changes (tx : Tx) : list Change := tx_changes tx.
End writer.

(** ** The change reader *)

Record ChangeReader : Type := mkChangeReader {
  cr_registry : Registry;
  cr_pendingTx : gmap Z (list Change);
  cr_safeSnapshotPosition : Z;
  cr_acceptUnversioned : bool;
  cr_headerSeen : bool;
  cr_firstRecordSeen : bool;
  cr_streamHeader : option StreamHeader;
}.

Definition NewChangeReaderWithOptions (acceptUnversioned : bool) (reg : Registry) : ChangeReader :=
  mkChangeReader reg ∅ 0 acceptUnversioned false false None.

Definition NewChangeReader (reg : Registry) : ChangeReader := NewChangeReaderWithOptions false reg.

Definition SetAcceptUnversioned (r : ChangeReader) (accept : bool) : ChangeReader :=
  mkChangeReader (cr_registry r) (cr_pendingTx r) (cr_safeSnapshotPosition r) accept (cr_headerSeen r)
    (cr_firstRecordSeen r) (cr_streamHeader r).

Definition HasPending (r : ChangeReader) : bool := negb (bool_decide (cr_pendingTx r = ∅)).

Definition set_pending (r : ChangeReader) (p : gmap Z (list Change)) : ChangeReader :=
  mkChangeReader (cr_registry r) p (cr_safeSnapshotPosition r) (cr_acceptUnversioned r) (cr_headerSeen r)
    (cr_firstRecordSeen r) (cr_streamHeader r).

Definition change_le (a b : Change) : Prop := ch_Seq a <= ch_Seq b.

#[local] Instance change_le_dec a b : Decision (change_le a b).
Proof. unfold change_le. apply _. Defined.

(** [DiscardPending] returns the dropped changes in stream order. *)
Definition DiscardPending (r : ChangeReader) : ChangeReader * list Change :=
  (set_pending r ∅, merge_sort change_le (concat (snd <$> map_to_list (cr_pendingTx r)))).

Definition set_cr_registry (r : ChangeReader) (reg : Registry) : ChangeReader :=
  mkChangeReader reg (cr_pendingTx r) (cr_safeSnapshotPosition r) (cr_acceptUnversioned r) (cr_headerSeen r)
    (cr_firstRecordSeen r) (cr_streamHeader r).

Definition mark_safe (r : ChangeReader) (seq : Z) : ChangeReader :=
  if bool_decide (cr_pendingTx r = ∅) then
    mkChangeReader (cr_registry r) (cr_pendingTx r) seq (cr_acceptUnversioned r) (cr_headerSeen r)
      (cr_firstRecordSeen r) (cr_streamHeader r)
  else r.

Definition set_streamHeader (r : ChangeReader) (hdr : StreamHeader) : ChangeReader :=
  mkChangeReader (cr_registry r) (cr_pendingTx r) (cr_safeSnapshotPosition r) (cr_acceptUnversioned r)
    (cr_headerSeen r) (cr_firstRecordSeen r) (Some hdr).

(** The check of the first record, which only the record at sequence 1 can fail. *)
Definition first_record (r : ChangeReader) (seq typeID : Z) : ChangeReader * result tx_error () :=
  if cr_firstRecordSeen r then (r, Ok ())
  else
  let isHeader := (seq =? 1) && (typeID =? TypeIDStreamHeader) in
  (mkChangeReader (cr_registry r) (cr_pendingTx r) (cr_safeSnapshotPosition r) (cr_acceptUnversioned r)
     (cr_headerSeen r || isHeader) true (cr_streamHeader r),
   if (seq =? 1) && negb (typeID =? TypeIDStreamHeader) && negb (cr_acceptUnversioned r)
   then Err ErrMissingStreamHeader else Ok ()).

(** The change an operation record stands for. *)
Definition op_change (reg : Registry) (seq : Z) (op : OpRecord) : result tx_error Change :=
  match Registry_LookupByID reg (or_TypeId op) with
  | None => Err (TERecord (ErrTypeNotRegistered (or_TypeId op)))
  | Some (def, md) =>
    match ValidateKeyBytes (Some md) (td_KeyFields def) (or_Key op) with
    | Err e => Err e
    | Ok _ =>
      match Registry_ResolveMessageType reg (or_TypeId op) with
      | Err e => Err (TERecord e)
      | Ok msgType =>
        match MergeKeyAndNonKey (Some (msg_New msgType)) (or_Key op) (or_Value op) with
        | Err _ => Err ErrMergeRow
        | Ok row =>
          Ok (mkChange seq (or_TypeId op) (td_Name def) (or_Op op) (or_TxId op) (or_Key op) (or_Key op)
                (or_Value op) (Some row))
        end
      end
    end
  end.

Definition ChangeReader_Feed (ca : Caches) (r : ChangeReader) (seq : Z) (payload : bytes)
    : Caches * ChangeReader * result tx_error (list Change) :=
  let '(ca, reg, rec) := Decoder_Decode ca (cr_registry r) payload in
  let r := set_cr_registry r reg in
  match rec with
  | Err e => (ca, r, Err (TERecord e))
  | Ok rec =>
    let '(r, first) := first_record r seq (rec_TypeID rec) in
    match first with
    | Err e => (ca, r, Err e)
    | Ok _ =>
      match rec_Message rec with
      | MHeader hdr =>
        if StreamFormatVersion <? sh_FormatVersion hdr then (ca, r, Err ErrUnsupportedStreamVersion)
        else (ca, mark_safe (set_streamHeader r hdr) seq, Ok [])
      | MDef _ | MPtr _ | MPadding => (ca, mark_safe r seq, Ok [])
      | MCommit commit =>
        let committed := default [] (cr_pendingTx r !! tc_TxId commit) in
        let r := set_pending r (delete (tc_TxId commit) (cr_pendingTx r)) in
        (ca, mark_safe r seq, Ok committed)
      | MOp op =>
        match op_change (cr_registry r) seq op with
        | Err e => (ca, r, Err e)
        | Ok change =>
          if or_TxId op =? 0 then (ca, mark_safe r seq, Ok [change])
          else
          (ca, set_pending r (<[or_TxId op := default [] (cr_pendingTx r !! or_TxId op) ++ [change]]>
                 (cr_pendingTx r)), Ok [])
        end
      | MApp _ => (ca, mark_safe r seq, Ok [])
      end
    end
  end.

(** Feeding records in order, as [FeedRecovered] and [Read] do. *)
Fixpoint feed_all (ca : Caches) (r : ChangeReader) (recs : list (Z * bytes))
    : Caches * ChangeReader * result tx_error (list (Z * list Change)) :=
  match recs with
  | [] => (ca, r, Ok [])
  | (seq, payload) :: recs =>
    let '(ca, r, res) := ChangeReader_Feed ca r seq payload in
    match res with
    | Err e => (ca, r, Err e)
    | Ok out =>
      let '(ca, r, rest) := feed_all ca r recs in
      (ca, r, match rest with Err e => Err e | Ok outs => Ok ((seq, out) :: outs) end)
    end
  end.

(** [StreamReader.FeedRecovered]: skips what is at or before [fromSeq]. *)
Definition FeedRecovered (ca : Caches) (r : ChangeReader) (recovered : list (Z * bytes)) (fromSeq : Z)
    : Caches * ChangeReader * result tx_error (list Change) :=
  let '(ca, r, res) := feed_all ca r (filter (fun x => fromSeq < fst x) recovered) in
  (ca, r, match res with Err e => Err e | Ok outs => Ok (concat (snd <$> outs)) end).

(** ** Reference: committed changes from the history of a stream *)

Inductive event : Type :=
| EvOp (txID : Z) (c : Change)
| EvCommit (txID : Z)
| EvNone.

Definition record_event (reg : Registry) (seq : Z) (rec : DecodedRecord) : option event :=
  match rec_Message rec with
  | MCommit c => Some (EvCommit (tc_TxId c))
  | MOp op => match op_change reg seq op with Ok c => Some (EvOp (or_TxId op) c) | Err _ => None end
  | _ => Some EvNone
  end.

(** The events of a stream, which depend on the registry only. *)
Fixpoint stream_events (ca : Caches) (reg : Registry) (recs : list (Z * bytes)) : option (list event) :=
  match recs with
  | [] => Some []
  | (seq, payload) :: recs =>
    let '(ca, reg, rec) := Decoder_Decode ca reg payload in
    match rec with
    | Err _ => None
    | Ok rec => ev ← record_event reg seq rec; evs ← stream_events ca reg recs; Some (ev :: evs)
    end
  end.

(** The events after the last commit of [txID]. *)
Fixpoint since_commit (txID : Z) (h : list event) : list event :=
  match h with
  | [] => []
  | ev :: h' =>
    if existsb (fun e => match e with EvCommit t => t =? txID | _ => false end) h' then since_commit txID h'
    else match ev with
         | EvCommit t => if t =? txID then h' else ev :: h'
         | _ => ev :: h'
         end
  end.

Definition change_of (txID : Z) (e : event) : option Change :=
  match e with
  | EvOp t c => if (t =? txID) && negb (t =? 0) then Some c else None
  | _ => None
  end.

(** The changes of an open transaction. *)
Definition open_changes (h : list event) (txID : Z) : list Change :=
  omap (change_of txID) (since_commit txID h).

(** What the stream yields at an event: an autocommit change at once, the
    changes of a transaction at its commit. *)
Definition yielded (h : list event) (e : event) : list Change :=
  match e with
  | EvOp t c => if t =? 0 then [c] else []
  | EvCommit t => open_changes h t
  | EvNone => []
  end.

Definition closed (h : list event) : Prop := forall t, open_changes h t = [].

Lemma since_commit_snoc t h e :
  since_commit t (h ++ [e]) =
  if (match e with EvCommit t' => t' =? t | _ => false end) then [] else since_commit t h ++ [e].
Proof.
  induction h as [|x h IH]; cbn.
  - destruct e as [| t' |]; [done| |done]. by destruct (t' =? t).
  - rewrite existsb_app. cbn. rewrite orb_false_r.
    destruct (match e with EvCommit t' => t' =? t | _ => false end) eqn:EC.
    + by rewrite orb_true_r, IH.
    + rewrite orb_false_r. destruct (existsb _ h); [done|]. destruct x as [| t' |]; try done.
      by destruct (t' =? t).
Qed.

Lemma open_changes_snoc h e t :
  open_changes (h ++ [e]) t =
  match e with
  | EvCommit t' => if t' =? t then [] else open_changes h t
  | EvOp t' c => if (t' =? t) && negb (t' =? 0) then open_changes h t ++ [c] else open_changes h t
  | EvNone => open_changes h t
  end.
Proof.
  unfold open_changes. rewrite since_commit_snoc. destruct e as [t' c|t'|].
  - rewrite omap_app. cbn. destruct (_ && _); cbn; by rewrite ?app_nil_r.
  - destruct (t' =? t); [done|]. rewrite omap_app. cbn. by rewrite app_nil_r.
  - rewrite omap_app. cbn. by rewrite app_nil_r.
Qed.

(** The pending map holds exactly the open transactions. *)
Definition pending_matches (p : gmap Z (list Change)) (h : list event) : Prop :=
  forall t, p !! t = match open_changes h t with [] => None | cs => Some cs end.

Lemma pending_empty p h : pending_matches p h -> (p = ∅ <-> closed h).
Proof.
  intros HP. split.
  - intros -> t. specialize (HP t). rewrite lookup_empty in HP. by destruct (open_changes h t).
  - intros HC. apply map_eq. intros t. rewrite HP, HC. by rewrite lookup_empty.
Qed.

Lemma pending_default p h t : pending_matches p h -> default [] (p !! t) = open_changes h t.
Proof. intros HP. rewrite HP. by destruct (open_changes h t). Qed.

Lemma pending_none p h : pending_matches p h -> pending_matches p (h ++ [EvNone]).
Proof. intros HP t. by rewrite HP, open_changes_snoc. Qed.

Lemma pending_autocommit p h c : pending_matches p h -> pending_matches p (h ++ [EvOp 0 c]).
Proof. intros HP t. rewrite HP, open_changes_snoc. cbn. by rewrite andb_false_r. Qed.

Lemma pending_commit p h t0 : pending_matches p h -> pending_matches (delete t0 p) (h ++ [EvCommit t0]).
Proof.
  intros HP t. rewrite open_changes_snoc. destruct (t0 =? t) eqn:E; zify_bool; subst.
  - by rewrite lookup_delete_eq.
  - by rewrite lookup_delete_ne.
Qed.

Lemma pending_op p h t0 c :
  t0 <> 0 -> pending_matches p h ->
  pending_matches (<[t0 := default [] (p !! t0) ++ [c]]> p) (h ++ [EvOp t0 c]).
Proof.
  intros H0 HP t. rewrite open_changes_snoc, (proj2 (Z.eqb_neq t0 0)), andb_true_r by done.
  destruct (t0 =? t) eqn:E; zify_bool; subst.
  - rewrite lookup_insert_eq, (pending_default _ h) by done. by destruct (open_changes h t).
  - by rewrite lookup_insert_ne.
Qed.

(** ** One step of the reader *)

Lemma mark_safe_fields r seq :
  cr_registry (mark_safe r seq) = cr_registry r /\ cr_pendingTx (mark_safe r seq) = cr_pendingTx r /\
  cr_firstRecordSeen (mark_safe r seq) = cr_firstRecordSeen r /\
  cr_safeSnapshotPosition (mark_safe r seq) =
    if bool_decide (cr_pendingTx r = ∅) then seq else cr_safeSnapshotPosition r.
Proof. unfold mark_safe. by destruct (bool_decide _). Qed.

Lemma first_record_fields r seq t r' res :
  first_record r seq t = (r', res) ->
  cr_registry r' = cr_registry r /\ cr_pendingTx r' = cr_pendingTx r /\ cr_firstRecordSeen r' = true /\
  cr_safeSnapshotPosition r' = cr_safeSnapshotPosition r.
Proof. unfold first_record. destruct (cr_firstRecordSeen r) eqn:E; intros [= <- <-]; done. Qed.

(** The step of a reader that holds the open transactions of the history [h]. *)
Record feed_result (ca : Caches) (r : ChangeReader) (h : list event) (seq : Z) (p : bytes)
    (ca' : Caches) (r' : ChangeReader) (out : list Change) (ev : event) : Prop := {
  fr_decode : exists rec, Decoder_Decode ca (cr_registry r) p = (ca', cr_registry r', Ok rec) /\
                record_event (cr_registry r') seq rec = Some ev;
  fr_out : out = yielded h ev;
  fr_pending : pending_matches (cr_pendingTx r') (h ++ [ev]);
  fr_safe : cr_safeSnapshotPosition r' =
              if bool_decide (cr_pendingTx r' = ∅) then seq else cr_safeSnapshotPosition r;
  fr_seen : cr_firstRecordSeen r' = true;
}.

Lemma feed_result_marked ca r h seq p ca' r0 ev out rec :
  Decoder_Decode ca (cr_registry r) p = (ca', cr_registry r0, Ok rec) ->
  record_event (cr_registry r0) seq rec = Some ev -> out = yielded h ev ->
  pending_matches (cr_pendingTx r0) (h ++ [ev]) ->
  cr_safeSnapshotPosition r0 = cr_safeSnapshotPosition r -> cr_firstRecordSeen r0 = true ->
  feed_result ca r h seq p ca' (mark_safe r0 seq) out ev.
Proof.
  intros HD HE HO HP HS HF. destruct (mark_safe_fields r0 seq) as (H1 & H2 & H3 & H4).
  split; rewrite ?H1, ?H2; eauto; try congruence. rewrite H4. destruct (bool_decide _); congruence.
Qed.

Lemma Feed_step ca r h seq p ca' r' out :
  pending_matches (cr_pendingTx r) h -> ChangeReader_Feed ca r seq p = (ca', r', Ok out) ->
  exists ev, feed_result ca r h seq p ca' r' out ev.
Proof.
  intros HP. unfold ChangeReader_Feed.
  destruct (Decoder_Decode ca (cr_registry r) p) as [[ca1 reg] [rec|]] eqn:ED; [|done].
  destruct (first_record (set_cr_registry r reg) seq (rec_TypeID rec)) as [r1 [u|]] eqn:EF; [|done].
  apply first_record_fields in EF as (Hreg & Hpend & Hseen & Hsafe). cbn in Hreg, Hpend, Hsafe.
  rewrite <- Hreg in ED. rewrite <- Hpend in HP.
  assert (HM : forall ev r2 o, cr_registry r2 = cr_registry r1 -> cr_firstRecordSeen r2 = true ->
    cr_safeSnapshotPosition r2 = cr_safeSnapshotPosition r1 ->
    record_event (cr_registry r1) seq rec = Some ev -> o = yielded h ev ->
    pending_matches (cr_pendingTx r2) (h ++ [ev]) ->
    exists ev, feed_result ca r h seq p ca1 (mark_safe r2 seq) o ev).
  { intros ev r2 o H1 H2 H3 H4 H5 H6. exists ev. eapply feed_result_marked; rewrite ?H1; eauto; congruence. }
  destruct (rec_Message rec) as [d|c|ptr|hdr|op| |m] eqn:EM.
  all: unfold record_event in HM; rewrite EM in HM.
  - intros [= <- <- <-]. eapply HM; eauto using pending_none.
  - intros [= <- <- <-]. eapply (HM (EvCommit (tc_TxId c))); [done..|by apply pending_default|by apply pending_commit].
  - intros [= <- <- <-]. eapply HM; eauto using pending_none.
  - destruct (_ <? _); [done|]. intros [= <- <- <-]. eapply HM; eauto using pending_none.
  - destruct (op_change (cr_registry r1) seq op) as [c|] eqn:EO; [|done].
    destruct (or_TxId op =? 0) eqn:E0; zify_bool.
    + intros [= <- <- <-]. rewrite E0 in HM. eapply HM; eauto using pending_autocommit.
    + intros [= <- <- <-]. exists (EvOp (or_TxId op) c). split; cbn [set_pending cr_registry cr_pendingTx
        cr_firstRecordSeen cr_safeSnapshotPosition yielded].
      * exists rec. split; [done|]. unfold record_event. by rewrite EM, EO.
      * by rewrite (proj2 (Z.eqb_neq _ 0)).
      * by apply pending_op.
      * rewrite bool_decide_false; [done|]. apply insert_non_empty.
      * done.
  - intros [= <- <- <-]. eapply HM; eauto using pending_none.
  - intros [= <- <- <-]. eapply HM; eauto using pending_none.
Qed.

(** ** A run of the reader *)

(** Where the safe position points after the history [h] was extended by
    [evs]: the last record after which no transaction is open. *)
Definition safe_after (h : list event) (recs : list (Z * bytes)) (evs : list event) (s0 s : Z) : Prop :=
  (exists i seq p, recs !! i = Some (seq, p) /\ closed (h ++ take (S i) evs) /\ s = seq /\
     forall j, (i < j < length recs)%nat -> ~ closed (h ++ take (S j) evs)) \/
  ((forall i, (i < length recs)%nat -> ~ closed (h ++ take (S i) evs)) /\ s = s0).

Lemma safe_after_cons h x recs ev evs s0 s1 s :
  safe_after (h ++ [ev]) recs evs s1 s ->
  (closed (h ++ [ev]) /\ s1 = fst x \/ ~ closed (h ++ [ev]) /\ s1 = s0) ->
  safe_after h (x :: recs) (ev :: evs) s0 s.
Proof.
  intros HS H1.
  assert (HT : forall k, (h ++ [ev]) ++ take k evs = h ++ take (S k) (ev :: evs))
    by (intros; by rewrite <- app_assoc).
  destruct HS as [(i & seq & p & Hi & HC & -> & HN)|[HN ->]].
  - left. exists (S i), seq, p. split; [done|]. rewrite <- HT. split; [done|]. split; [done|].
    intros [|j] Hj; [lia|]. rewrite <- HT. apply HN. cbn in Hj. lia.
  - assert (HN' : forall j, (0 < j < length (x :: recs))%nat -> ~ closed (h ++ take (S j) (ev :: evs))).
    { intros [|j] Hj; [lia|]. rewrite <- HT. apply HN. cbn in Hj. lia. }
    destruct H1 as [[HC ->]|[HC ->]].
    + left. exists 0%nat, (fst x), (snd x). split; [by destruct x|]. split; [exact HC|]. split; [done|]. exact HN'.
    + right. split; [|done]. intros [|i] Hi; [exact HC|]. apply HN'. lia.
Qed.

Lemma feed_all_run recs : forall ca r h ca' r' outs,
  pending_matches (cr_pendingTx r) h -> feed_all ca r recs = (ca', r', Ok outs) ->
  exists evs, stream_events ca (cr_registry r) recs = Some evs /\ length evs = length recs /\
    outs = imap (fun i x => (fst x, match evs !! i with Some ev => yielded (h ++ take i evs) ev | None => [] end)) recs /\
    pending_matches (cr_pendingTx r') (h ++ evs) /\
    safe_after h recs evs (cr_safeSnapshotPosition r) (cr_safeSnapshotPosition r').
Proof.
  induction recs as [|[seq p] recs IH]; intros ca r h ca' r' outs HP H; cbn in H.
  { injection H as <- <- <-. exists []. rewrite app_nil_r. split_and!; try done. right. split; [|done].
    cbn. lia. }
  destruct (ChangeReader_Feed ca r seq p) as [[ca1 r1] [out|]] eqn:EF; [|done].
  apply (Feed_step ca r h) in EF as [ev [(rec & HD & HE) HO HP1 HS1 _]]; [|done].
  destruct (feed_all ca1 r1 recs) as [[ca2 r2] [outs'|]] eqn:EA; [|done]. injection H as <- <- <-.
  apply (IH _ _ (h ++ [ev])) in EA as (evs & HEv & HL & -> & HP2 & HS2); [|done].
  exists (ev :: evs). cbn [stream_events]. rewrite HD, HE. cbn. rewrite HEv. split_and!.
  - done.
  - cbn. congruence.
  - cbn. rewrite app_nil_r, HO. f_equal. apply imap_ext. intros i x _. cbn.
    destruct (evs !! i); [|done]. by rewrite <- app_assoc.
  - by rewrite <- app_assoc in HP2.
  - eapply safe_after_cons; [exact HS2|]. rewrite HS1. cbn.
    destruct (bool_decide (cr_pendingTx r1 = ∅)) eqn:EB; decide_tests.
    + left. split; [by eapply pending_empty|done].
    + right. split; [|done]. intros HC. apply EB. by eapply pending_empty.
Qed.

Lemma feed_all_app ca r recs1 recs2 :
  feed_all ca r (recs1 ++ recs2) =
  let '(ca1, r1, res1) := feed_all ca r recs1 in
  match res1 with
  | Err e => (ca1, r1, Err e)
  | Ok outs1 =>
    let '(ca2, r2, res2) := feed_all ca1 r1 recs2 in
    (ca2, r2, match res2 with Err e => Err e | Ok outs2 => Ok (outs1 ++ outs2) end)
  end.
Proof.
  revert ca r. induction recs1 as [|[seq p] recs1 IH]; intros ca r; cbn.
  { by destruct (feed_all ca r recs2) as [[? ?] []]. }
  destruct (ChangeReader_Feed ca r seq p) as [[ca1 r1] [out|]]; [|done]. rewrite IH.
  destruct (feed_all ca1 r1 recs1) as [[ca2 r2] [outs|]]; [|done].
  by destruct (feed_all ca2 r2 recs2) as [[? ?] []].
Qed.

(** ** Restarting at a safe position *)

(** Readers that agree on the registry and on the pending transactions. *)
Definition same_reader (r1 r2 : ChangeReader) : Prop :=
  cr_registry r1 = cr_registry r2 /\ cr_pendingTx r1 = cr_pendingTx r2.

Lemma Feed_same ca r1 r2 seq p ca' r1' out :
  same_reader r1 r2 -> seq <> 1 -> ChangeReader_Feed ca r1 seq p = (ca', r1', Ok out) ->
  exists r2', ChangeReader_Feed ca r2 seq p = (ca', r2', Ok out) /\ same_reader r1' r2'.
Proof.
  intros [HR HP] Hs. unfold ChangeReader_Feed. rewrite HR.
  destruct (Decoder_Decode ca (cr_registry r2) p) as [[ca1 reg] [rec|]]; [|done].
  assert (exists r2a, first_record (set_cr_registry r2 reg) seq (rec_TypeID rec) = (r2a, Ok ())) as [r2a E2].
  { unfold first_record. rewrite (proj2 (Z.eqb_neq seq 1)) by done.
    destruct (cr_firstRecordSeen _); eauto. }
  destruct (first_record (set_cr_registry r1 reg) seq (rec_TypeID rec)) as [r1a [u|]] eqn:E1; [|done].
  rewrite E2. apply first_record_fields in E1 as (Ha1 & Hp1 & _). apply first_record_fields in E2 as (Ha2 & Hp2 & _).
  cbn in Ha1, Hp1, Ha2, Hp2. rewrite HP in Hp1. rewrite Ha1, Hp1, Ha2, Hp2.
  assert (HM : forall x y, same_reader x y -> same_reader (mark_safe x seq) (mark_safe y seq)).
  { intros x y [Hx Hy]. destruct (mark_safe_fields x seq) as (? & ? & _), (mark_safe_fields y seq) as (? & ? & _).
    split; congruence. }
  assert (same_reader r1a r2a) as HS by (split; congruence).
  destruct (rec_Message rec); repeat case_match; intros [= <- <- <-]; simplify_eq; eexists; (split; [done|]);
    auto; try (apply HM; split; cbn; congruence); split; cbn; congruence.
Qed.

Lemma feed_all_same recs : forall ca r1 r2 ca' r1' outs,
  same_reader r1 r2 -> Forall (fun x => fst x <> 1) recs ->
  feed_all ca r1 recs = (ca', r1', Ok outs) ->
  exists r2', feed_all ca r2 recs = (ca', r2', Ok outs) /\ same_reader r1' r2'.
Proof.
  induction recs as [|[seq p] recs IH]; intros ca r1 r2 ca' r1' outs HS HF H; cbn in *.
  { injection H as <- <- <-. eauto. }
  inversion HF as [|? ? Hs HF']; subst.
  destruct (ChangeReader_Feed ca r1 seq p) as [[ca1 r1a] [out|]] eqn:E1; [|done].
  eapply Feed_same in E1 as (r2a & -> & HS'); [|done..].
  destruct (feed_all ca1 r1a recs) as [[ca2 r1b] [outs'|]] eqn:EA; [|done]. injection H as <- <- <-.
  eapply IH in EA as (r2b & -> & HS2); [|done..]. eauto.
Qed.

(** The records up to the safe position leave no transaction open. *)
Lemma safe_split recs : forall ca r ca' r' outs,
  cr_pendingTx r = ∅ -> feed_all ca r recs = (ca', r', Ok outs) ->
  exists b a ca1 r1 outs1, recs = b ++ a /\ feed_all ca r b = (ca1, r1, Ok outs1) /\ cr_pendingTx r1 = ∅ /\
    (b = [] /\ cr_safeSnapshotPosition r' = cr_safeSnapshotPosition r \/
     exists b' p, b = b' ++ [(cr_safeSnapshotPosition r', p)]).
Proof.
  induction recs as [|[seq p] recs IH] using rev_ind; intros ca r ca' r' outs HP H.
  { injection H as <- <- <-. exists [], [], ca, r, []. split_and!; try done. by left. }
  rewrite feed_all_app in H. destruct (feed_all ca r recs) as [[ca1 r1] [outs1|]] eqn:E1; [|done].
  cbn in H. destruct (ChangeReader_Feed ca1 r1 seq p) as [[ca2 r2] [out|]] eqn:E2; [|done].
  injection H as <- <- <-.
  assert (exists h, pending_matches (cr_pendingTx r1) h) as [h Hh].
  { apply (feed_all_run _ _ _ []) in E1 as (evs & _ & _ & _ & Hm & _); [by eexists|].
    intros t. by rewrite HP, lookup_empty. }
  destruct (Feed_step _ _ _ _ _ _ _ _ Hh E2) as [ev [_ _ _ Hsafe _]].
  destruct (bool_decide (cr_pendingTx r2 = ∅)) eqn:EB; decide_tests.
  - exists (recs ++ [(seq, p)]), [], ca2, r2, (outs1 ++ [(seq, out)]). rewrite app_nil_r.
    split; [done|]. split; [rewrite feed_all_app, E1; cbn; by rewrite E2|]. split; [done|].
    right. exists recs, p. by rewrite Hsafe.
  - destruct (IH _ _ _ _ _ HP E1) as (b & a & ca3 & r3 & outs3 & -> & Hb & Hp3 & Hs3).
    exists b, (a ++ [(seq, p)]), ca3, r3, outs3. rewrite app_assoc. split_and!; [done..|].
    by rewrite Hsafe.
Qed.

Lemma filter_split_at (b a : list (Z * bytes)) s :
  StronglySorted Z.lt (fst <$> (b ++ a)) ->
  (b = [] /\ Forall (fun x => s < fst x) a \/ exists b' p, b = b' ++ [(s, p)]) ->
  filter (fun x => fst x <= s) (b ++ a) = b /\ filter (fun x => s < fst x) (b ++ a) = a.
Proof.
  intros HS HB. rewrite fmap_app in HS. apply StronglySorted_app in HS as (Hba & HSb & _).
  assert (Forall (fun x => fst x <= s) b /\ Forall (fun x => s < fst x) a) as [Hb Ha].
  { destruct HB as [[-> Ha]|(b' & p & ->)]; [by split; [constructor|]|].
    rewrite fmap_app in *. cbn in *. apply StronglySorted_app in HSb as (Hb' & _ & _).
    rewrite !Forall_forall. split.
    - intros x Hx. apply elem_of_app in Hx as [Hx| ->%list_elem_of_singleton]; [|done].
      apply Z.lt_le_incl, Hb'; [by apply list_elem_of_fmap_2|left].
    - intros x Hx. apply Hba; [|by apply list_elem_of_fmap_2]. rewrite elem_of_app. right. left. }
  rewrite !filter_app. rewrite Forall_forall in Hb, Ha. split.
  - rewrite (filter_all (fun x => fst x <= s) b), (filter_none (fun x => fst x <= s) a), app_nil_r; [done|..].
    + intros x Hx. apply Ha in Hx. lia.
    + done.
  - rewrite (filter_none (fun x => s < fst x) b), (filter_all (fun x => s < fst x) a); [done|..].
    + done.
    + intros x Hx. apply Hb in Hx. lia.
Qed.

(** ** Claims on the reader *)

(** C21: Feeding a stream to a fresh reader yields exactly what its history
    says.  An autocommit operation is yielded at its own record; the operations
    of a transaction are withheld and yielded together, in stream order, at the
    commit record; changes of transactions without a commit are never yielded
    and are what the reader holds pending; and the safe snapshot position is the
    last record after which no transaction is open. *)
Theorem change_reader_commits ca accept reg recs ca' r' outs :
  feed_all ca (NewChangeReaderWithOptions accept reg) recs = (ca', r', Ok outs) ->
  exists evs, stream_events ca reg recs = Some evs /\ length evs = length recs /\
    (forall i seq p ev, recs !! i = Some (seq, p) -> evs !! i = Some ev ->
       outs !! i = Some (seq, yielded (take i evs) ev)) /\
    (forall t, default [] (cr_pendingTx r' !! t) = open_changes evs t) /\
    safe_after [] recs evs 0 (cr_safeSnapshotPosition r').
Proof.
  intros H. apply (feed_all_run _ _ _ []) in H as (evs & HE & HL & -> & HP & HS).
  2:{ intros t. cbn. apply lookup_empty. }
  exists evs. split_and!; [done|done| | |done].
  - intros i seq p ev Hr Hev. rewrite list_lookup_imap, Hr. cbn. by rewrite Hev.
  - intros t. by apply pending_default.
Qed.

(** C22: A snapshot taken at the safe position loses nothing.  The records up to
    that position leave no transaction pending, and a fresh reader that starts
    with the registry of the snapshot and replays only the records after it
    yields the same changes, and ends with the same pending transactions, as
    the reader that saw the whole stream. *)
Theorem safe_position_restart ca accept reg recs ca' r' outs :
  StronglySorted Z.lt (fst <$> recs) -> Forall (fun x => 1 <= fst x) recs ->
  feed_all ca (NewChangeReaderWithOptions accept reg) recs = (ca', r', Ok outs) ->
  let s := cr_safeSnapshotPosition r' in
  exists ca1 r1 outs1 r2 outs2,
    feed_all ca (NewChangeReaderWithOptions accept reg) (filter (fun x => fst x <= s) recs) = (ca1, r1, Ok outs1) /\
    HasPending r1 = false /\
    feed_all ca1 (NewChangeReaderWithOptions accept (cr_registry r1)) (filter (fun x => s < fst x) recs) =
      (ca', r2, Ok outs2) /\
    outs = outs1 ++ outs2 /\ cr_pendingTx r2 = cr_pendingTx r' /\ cr_registry r2 = cr_registry r'.
Proof.
  intros HSort HPos H s. pose proof H as H0.
  apply safe_split in H as (b & a & ca1 & r1 & outs1 & -> & Hb & Hp1 & Hbs); [|done].
  destruct (filter_split_at b a s) as [-> ->]; [done| |].
  { destruct Hbs as [[-> Hs]|]; [left|by right]. split; [done|]. subst s. rewrite Hs. cbn.
    rewrite Forall_forall in *. intros x Hx. specialize (HPos x Hx). lia. }
  rewrite feed_all_app, Hb in H0. destruct (feed_all ca1 r1 a) as [[ca2 r2] [outs2|]] eqn:Ea; [|done].
  injection H0 as <- <- <-. exists ca1, r1, outs1.
  assert (exists r2', feed_all ca1 (NewChangeReaderWithOptions accept (cr_registry r1)) a = (ca2, r2', Ok outs2) /\
    same_reader r2 r2') as (r2' & Ha & [HR HP]).
  { destruct Hbs as [[-> _]|(b' & p & ->)].
    - injection Hb as <- <- <-. cbn [NewChangeReaderWithOptions cr_registry]. rewrite Ea. exists r2. by split.
    - eapply feed_all_same; [|..|exact Ea]; [by split|].
      rewrite Forall_app in HPos. destruct HPos as [HPb _]. rewrite Forall_app in HPb. destruct HPb as [_ HPb].
      rewrite fmap_app in HSort. apply StronglySorted_app in HSort as (Hlt & _).
      rewrite Forall_forall in *. intros x Hx.
      assert (1 <= s) by (apply (HPb (s, p)); left).
      assert (s < fst x); [|lia]. apply Hlt; [|by apply list_elem_of_fmap_2].
      rewrite fmap_app, elem_of_app. right. left. }
  exists r2', outs2. split_and!; try done. unfold HasPending. by rewrite bool_decide_true.
Qed.

(** ** What the rows rely on of protobuf *)

(** Populated fields are declared, at most one per oneof. *)
Definition valid_message (m : Msg) : Prop :=
  (forall n, is_Some (msg_fields m !! n) -> exists f, f ∈ md_Fields (msg_md m) /\ fd_Number f = n) /\
  (forall f g o, f ∈ md_Fields (msg_md m) -> g ∈ md_Fields (msg_md m) -> fd_Oneof f = Some o -> fd_Oneof g = Some o ->
     is_Some (msg_fields m !! fd_Number f) -> is_Some (msg_fields m !! fd_Number g) -> fd_Number f = fd_Number g).

(** An empty message has no bytes, and merging the bytes of some fields of a
    message into the others, in any message type with the same descriptor, gives
    the message. *)
Class MessageLaw : Prop := {
  marshal_empty : forall t, marshal_partial (mkMsg t ∅ []) = Some [];
  merge_parts : forall t t' f1 f2 b,
    mt_md t = mt_md t' -> f1 ##ₘ f2 -> valid_message (mkMsg t' (f1 ∪ f2) []) ->
    marshal_partial (mkMsg t f1 []) = Some b ->
    merge_partial (mkMsg t' f2 []) b = Some (mkMsg t' (f1 ∪ f2) []);
}.

Context `{ML : MessageLaw}.

Definition key_part (pk : list Z) (m : Msg) : gmap Z Value := filter (fun x => fst x ∈ pk) (msg_fields m).
Definition val_part (pk : list Z) (m : Msg) : gmap Z Value := filter (fun x => fst x ∉ pk) (msg_fields m).

Lemma copy_field_lookup m dst n k :
  msg_fields (msg_copy_field m dst n) !! k =
  if decide (k = n) then match msg_fields m !! n with Some v => Some v | None => msg_fields dst !! k end
  else msg_fields dst !! k.
Proof.
  unfold msg_copy_field. destruct (msg_fields m !! n) as [v|]; [|by destruct (decide _)]. cbn.
  destruct (decide (k = n)) as [->|Hne]; [by rewrite lookup_insert_eq|by rewrite lookup_insert_ne].
Qed.

Lemma copy_field_type m dst n :
  msg_type (msg_copy_field m dst n) = msg_type dst /\ msg_unknown (msg_copy_field m dst n) = msg_unknown dst.
Proof. unfold msg_copy_field. by destruct (msg_fields m !! n). Qed.

(** The entry of one side after the loop over the fields numbered [ns]. *)
Definition side_lookup (P : Prop) `{Decision P} (ns : list Z) (m dst : Msg) (n : Z) : option Value :=
  if decide (P /\ n ∈ ns) then match msg_fields m !! n with Some x => Some x | None => msg_fields dst !! n end
  else msg_fields dst !! n.

Lemma side_lookup_skip (P : Prop) `{Decision P} ns m dst n k :
  n <> k \/ ~ P \/ msg_fields m !! n = None -> side_lookup P ns m dst n = side_lookup P (k :: ns) m dst n.
Proof.
  intros Hn. unfold side_lookup. pose proof (elem_of_cons ns n k) as HE.
  destruct (decide (P /\ n ∈ ns)) as [[HP Hin]|Hnot], (decide (P /\ n ∈ k :: ns)) as [[HP' Hin']|Hnot']; try done.
  - exfalso. apply Hnot'. tauto.
  - destruct Hn as [Hn|[Hn|Hn]]; [exfalso; apply Hnot; tauto|done|]. by rewrite Hn.
Qed.

Lemma side_lookup_copy (P : Prop) `{Decision P} ns m dst n :
  P -> side_lookup P ns m (msg_copy_field m dst n) n = side_lookup P (n :: ns) m dst n.
Proof.
  intros HP. unfold side_lookup. rewrite copy_field_lookup, (decide_True (P := n = n)) by done.
  rewrite (decide_True (P := P /\ n ∈ n :: ns)) by (split; [done|left]).
  destruct (decide _); by destruct (msg_fields m !! n).
Qed.

Lemma side_lookup_other (P : Prop) `{Decision P} ns m dst n k :
  n <> k -> side_lookup P ns m (msg_copy_field m dst k) n = side_lookup P ns m dst n.
Proof. intros Hn. unfold side_lookup. by rewrite copy_field_lookup, (decide_False (P := n = k)). Qed.

(** The loop copies the declared, populated fields to either side. *)
Lemma split_fields_spec pk m fs : forall k v k' v',
  split_fields pk m fs (k, v) = (k', v') ->
  (msg_type k' = msg_type k /\ msg_unknown k' = msg_unknown k /\ msg_type v' = msg_type v /\ msg_unknown v' = msg_unknown v) /\
  forall n, msg_fields k' !! n = side_lookup (n ∈ pk) (fd_Number <$> fs) m k n /\
            msg_fields v' !! n = side_lookup (n ∉ pk) (fd_Number <$> fs) m v n.
Proof.
  induction fs as [|f fs IH]; intros k v k' v' H; cbn in H.
  { injection H as <- <-. split; [done|]. intros n. unfold side_lookup.
    rewrite !decide_False; [done|..]; cbn; intros [_ Hn]; by apply elem_of_nil in Hn. }
  unfold msg_Has in H. destruct (bool_decide (is_Some (msg_fields m !! fd_Number f))) eqn:EH; cbn in H; decide_tests.
  - destruct (bool_decide (fd_Number f ∈ pk)) eqn:EK; decide_tests; apply IH in H as [(H1 & H2 & H3 & H4) HL].
    + destruct (copy_field_type m k (fd_Number f)) as [E1 E2]. split; [split_and!; congruence|]. intros n.
      destruct (HL n) as [-> ->]. cbn. destruct (decide (n = fd_Number f)) as [->|Hne].
      * split; [by apply side_lookup_copy|apply side_lookup_skip; auto].
      * split; [rewrite side_lookup_other by done|]; apply side_lookup_skip; auto.
    + destruct (copy_field_type m v (fd_Number f)) as [E1 E2]. split; [split_and!; congruence|]. intros n.
      destruct (HL n) as [-> ->]. cbn. destruct (decide (n = fd_Number f)) as [->|Hne].
      * split; [apply side_lookup_skip; auto|by apply side_lookup_copy].
      * split; [|rewrite side_lookup_other by done]; apply side_lookup_skip; auto.
  - apply IH in H as [HT HL]. split; [done|]. intros n. destruct (HL n) as [-> ->]. cbn.
    apply eq_None_not_Some in EH. destruct (decide (n = fd_Number f)) as [->|Hne]; split; apply side_lookup_skip; auto.
Qed.

Lemma split_message pk m :
  valid_message m ->
  split_fields pk m (md_Fields (msg_md m)) (msg_New (msg_type m), msg_New (msg_type m)) =
  (mkMsg (msg_type m) (key_part pk m) [], mkMsg (msg_type m) (val_part pk m) []).
Proof.
  intros [HV _]. destruct (split_fields _ _ _ _) as [[kt kf ku] [vt vf vu]] eqn:E.
  apply split_fields_spec in E as [(H1 & H2 & H3 & H4) HL]. cbn in *. subst.
  assert (forall n, is_Some (msg_fields m !! n) -> n ∈ (fd_Number <$> md_Fields (msg_md m))) as HD.
  { intros n Hn. destruct (HV n Hn) as (f & Hf & <-). by apply list_elem_of_fmap_2. }
  f_equal; f_equal; apply map_eq; intros n; destruct (HL n) as [Hk Hv]; [rewrite Hk|rewrite Hv];
    unfold side_lookup, key_part, val_part; cbn; rewrite lookup_empty, map_lookup_filter;
    destruct (msg_fields m !! n) as [x|] eqn:En; cbn; repeat case_guard; repeat case_decide; cbn in *; try done;
    exfalso; naive_solver.
Qed.

Lemma valid_sub t t' f f' :
  mt_md t = mt_md t' -> f ⊆ f' -> valid_message (mkMsg t' f' []) -> valid_message (mkMsg t f []).
Proof.
  intros Ht Hf [H1 H2]. unfold valid_message, msg_md in *. cbn in *. rewrite Ht.
  assert (forall n, is_Some (f !! n) -> is_Some (f' !! n)) as HS
    by (intros n [x Hx]; exists x; by eapply lookup_weaken). split.
  - intros n Hn. by apply H1, HS.
  - intros g1 g2 o Hg1 Hg2 Ho1 Ho2 Hs1 Hs2. eapply H2; eauto.
Qed.

Lemma valid_fields m t : valid_message m -> mt_md t = msg_md m -> valid_message (mkMsg t (msg_fields m) []).
Proof. intros [H1 H2] Ht. split; cbn; unfold msg_md in *; cbn; rewrite Ht; [apply H1|apply H2]. Qed.

Lemma parts_union pk m : key_part pk m ∪ val_part pk m = msg_fields m.
Proof. apply map_filter_union_complement. Qed.

Lemma parts_disjoint pk m : key_part pk m ##ₘ val_part pk m.
Proof. apply map_disjoint_filter_complement. Qed.

Lemma merge_nonempty_parts t t' f1 f2 b :
  mt_md t = mt_md t' -> f1 ##ₘ f2 -> valid_message (mkMsg t' (f1 ∪ f2) []) ->
  marshal_partial (mkMsg t f1 []) = Some b ->
  merge_nonempty (mkMsg t' f2 []) b = Ok (mkMsg t' (f1 ∪ f2) []).
Proof.
  intros Ht Hd HV HM. pose proof (merge_parts t t' f1 f2 b Ht Hd HV HM) as Hb.
  unfold merge_nonempty. destruct (bool_decide (b = [])) eqn:EB; decide_tests; [subst b|by rewrite Hb].
  assert (merge_partial (mkMsg t' f2 []) [] = Some (mkMsg t' (∅ ∪ f2) [])) as H0.
  { apply (merge_parts t t'); [done|apply map_disjoint_empty_l| |apply marshal_empty].
    rewrite (left_id_L ∅ (∪)). eapply valid_sub; [| |exact HV]; [done|by apply map_union_subseteq_r]. }
  rewrite (left_id_L ∅ (∪)), Hb in H0. by injection H0 as ->.
Qed.

Lemma Split_inv pk m kb vb :
  valid_message m -> PrimaryKey_Split pk (Some m) = Ok (kb, vb) ->
  check_primary_key (msg_md m) m pk = Ok () /\
  marshal_partial (mkMsg (msg_type m) (key_part pk m) []) = Some kb /\
  marshal_partial (mkMsg (msg_type m) (val_part pk m) []) = Some vb.
Proof.
  intros HV. unfold PrimaryKey_Split. destruct (check_primary_key _ _ _) as [[]|]; [|done].
  rewrite split_message by done.
  destruct (marshal_partial (mkMsg _ (key_part pk m) _)) as [kb'|]; [|done].
  destruct (marshal_partial (mkMsg _ (val_part pk m) _)) as [vb'|]; [|done]. by intros [= <- <-].
Qed.

Lemma merge_key m pk t' kb :
  valid_message m -> mt_md t' = msg_md m ->
  marshal_partial (mkMsg (msg_type m) (key_part pk m) []) = Some kb ->
  merge_nonempty (msg_New t') kb = Ok (mkMsg t' (key_part pk m) []) /\
  merge_partial (msg_New t') kb = Some (mkMsg t' (key_part pk m) []).
Proof.
  intros HV Ht HM. assert (valid_message (mkMsg t' (key_part pk m ∪ ∅) [])) as HV'.
  { rewrite (right_id_L ∅ (∪)). eapply valid_sub; [| |exact (valid_fields m t' HV Ht)]; [done|].
    apply map_filter_subseteq. }
  pose proof (merge_nonempty_parts (msg_type m) t' (key_part pk m) ∅ kb (eq_sym Ht) (map_disjoint_empty_r _) HV' HM) as H1.
  pose proof (merge_parts (msg_type m) t' (key_part pk m) ∅ kb (eq_sym Ht) (map_disjoint_empty_r _) HV' HM) as H2.
  rewrite (right_id_L ∅ (∪)) in H1, H2. done.
Qed.

Lemma merge_row pk m t' kb vb :
  valid_message m -> mt_md t' = msg_md m -> PrimaryKey_Split pk (Some m) = Ok (kb, vb) ->
  MergeKeyAndNonKey (Some (msg_New t')) kb vb = Ok (mkMsg t' (msg_fields m) []).
Proof.
  intros HV Ht HS. apply Split_inv in HS as (_ & Hk & Hv); [|done]. cbn.
  destruct (merge_key m pk t' kb) as [-> _]; [done..|].
  assert (val_part pk m ∪ key_part pk m = msg_fields m) as HU
    by (rewrite map_union_comm, parts_union; [done|symmetry; apply parts_disjoint]).
  erewrite merge_nonempty_parts; [by rewrite HU|by symmetry|symmetry; apply parts_disjoint| |exact Hv].
  rewrite HU. by apply valid_fields.
Qed.

Lemma check_primary_key_has md m pk :
  check_primary_key md m pk = Ok () ->
  forall kf, kf ∈ pk -> exists f, by_number (md_Fields md) kf = Some f /\ is_Some (msg_fields m !! fd_Number f).
Proof.
  induction pk as [|k pk IH]; cbn; intros H kf Hk; [by apply elem_of_nil in Hk|].
  destruct (by_number _ k) as [f|] eqn:EB; [|done]. unfold msg_Has in H.
  destruct (bool_decide _) eqn:EH; [|done]. decide_tests.
  apply elem_of_cons in Hk as [->|Hk]; [eauto|by apply IH].
Qed.

Lemma check_key_present_ok md k kfs :
  (forall kf, kf ∈ kfs -> exists f, by_number (md_Fields md) kf = Some f /\ is_Some (msg_fields k !! fd_Number f)) ->
  check_key_present md k kfs = Ok ().
Proof.
  induction kfs as [|kf kfs IH]; intros H; cbn; [done|].
  destruct (H kf) as (f & -> & Hf); [left|]. unfold msg_Has. rewrite bool_decide_true by done.
  apply IH. intros k' Hk'. apply H. by right.
Qed.

Lemma by_number_number fs n f : by_number fs n = Some f -> fd_Number f = n.
Proof.
  unfold by_number. intros H. apply fmap_Some in H as ([i x] & HF & ->).
  by apply list_find_Some in HF as (_ & ? & _).
Qed.

Lemma key_part_has pk m n : is_Some (key_part pk m !! n) <-> n ∈ pk /\ is_Some (msg_fields m !! n).
Proof.
  unfold key_part. rewrite map_lookup_filter. destruct (msg_fields m !! n) as [v|]; cbn.
  - case_guard; cbn in *; split; naive_solver.
  - split; [by intros []|intros [_ []]; done].
Qed.

Lemma validate_key pk kfs m desc kb :
  valid_message m -> desc_md desc = msg_md m -> (forall n, n ∈ kfs <-> n ∈ pk) ->
  check_primary_key (msg_md m) m pk = Ok () ->
  marshal_partial (mkMsg (msg_type m) (key_part pk m) []) = Some kb ->
  initialized (mkMsg (DynamicType (msg_md m)) (key_part pk m) []) = true ->
  ValidateKeyBytes (Some desc) kfs kb = Ok ().
Proof.
  intros HV Hd Hk HC HM HI. unfold ValidateKeyBytes. rewrite Hd.
  pose proof (check_primary_key_has _ _ _ HC) as Hhas.
  destruct (merge_key m pk (DynamicType (msg_md m)) kb HV eq_refl HM) as [Hmn Hmp].
  destruct (bool_decide (kb = [])) eqn:EB; decide_tests.
  - subst kb. destruct kfs as [|kf kfs]; [done|]. exfalso.
    assert (kf ∈ pk) as Hkf by (apply Hk; left). destruct (Hhas kf Hkf) as (f & Hb & Hf).
    cbn in Hmn. injection Hmn as HE. rewrite (by_number_number _ _ _ Hb) in Hf.
    assert (is_Some (key_part pk m !! kf)) as Hs by (by apply key_part_has).
    rewrite <- HE, lookup_empty in Hs. by destruct Hs.
  - unfold unmarshal_new. rewrite Hmp. cbn. rewrite HI. rewrite check_key_present_ok; cbn.
    + destruct (existsb _ _) eqn:HX; [|done]. exfalso. apply existsb_exists in HX as (f & _ & Hf).
      apply andb_true_iff in Hf as [Hf1 Hf2]. unfold msg_Has in Hf1. cbn in Hf1.
      apply negb_true_iff in Hf2. decide_tests. apply key_part_has in Hf1 as [Hin _].
      by apply Hf2, Hk.
    + intros kf Hkf. apply Hk in Hkf. destruct (Hhas kf Hkf) as (f & Hb & Hf). exists f. split; [done|].
      apply key_part_has. split; [|done]. by rewrite (by_number_number _ _ _ Hb).
Qed.

Lemma key_identifies pk m1 m2 kb1 kb2 :
  valid_message m1 -> valid_message m2 -> msg_type m1 = msg_type m2 ->
  marshal_partial (mkMsg (msg_type m1) (key_part pk m1) []) = Some kb1 ->
  marshal_partial (mkMsg (msg_type m2) (key_part pk m2) []) = Some kb2 ->
  kb1 = kb2 <-> key_part pk m1 = key_part pk m2.
Proof.
  intros HV1 HV2 Ht H1 H2. split.
  - intros ->. destruct (merge_key m1 pk (msg_type m1) kb2) as [_ E1]; [done..|].
    destruct (merge_key m2 pk (msg_type m2) kb2) as [_ E2]; [done..|]. rewrite Ht in E1. congruence.
  - intros HE. rewrite Ht, HE in H1. congruence.
Qed.

Lemma NewPrimaryKey_elem kfs n : n ∈ kfs <-> n ∈ NewPrimaryKey kfs.
Proof. unfold NewPrimaryKey. by rewrite merge_sort_Permutation. Qed.

(** C29: A row survives its encoding.  When a row without unknown fields splits
    into key and value bytes, merging them into a new message with the same
    descriptor gives the row back, the key bytes pass [ValidateKeyBytes], and two
    rows of a type have the same key bytes exactly when they agree on the key
    fields. *)
Theorem row_roundtrip kfs m desc t' kb vb :
  valid_message m -> msg_unknown m = [] -> mt_md t' = msg_md m -> desc_md desc = msg_md m ->
  initialized (mkMsg (DynamicType (msg_md m)) (key_part (NewPrimaryKey kfs) m) []) = true ->
  SplitKeyAndNonKey (Some m) kfs = Ok (kb, vb) ->
  MergeKeyAndNonKey (Some (msg_New t')) kb vb = Ok (mkMsg t' (msg_fields m) (msg_unknown m)) /\
  ValidateKeyBytes (Some desc) kfs kb = Ok () /\
  (forall m2 kb2 vb2, valid_message m2 -> msg_type m2 = msg_type m ->
     SplitKeyAndNonKey (Some m2) kfs = Ok (kb2, vb2) ->
     kb2 = kb <-> key_part (NewPrimaryKey kfs) m2 = key_part (NewPrimaryKey kfs) m).
Proof.
  intros HV HU Ht Hd HI HS. split; [rewrite HU; by eapply merge_row|]. apply Split_inv in HS as (HC & HM & _); [|done].
  split; [eapply validate_key; eauto using NewPrimaryKey_elem|].
  intros m2 kb2 vb2 HV2 Ht2 HS2. apply Split_inv in HS2 as (_ & HM2 & _); [|done]. by apply key_identifies.
Qed.

(** Unknown fields do not survive: whatever a row carries besides its fields, the
    message that its bytes merge into has none. *)
Lemma unknown_fields_lost kfs m t' kb vb :
  valid_message m -> mt_md t' = msg_md m -> SplitKeyAndNonKey (Some m) kfs = Ok (kb, vb) ->
  MergeKeyAndNonKey (Some (msg_New t')) kb vb = Ok (mkMsg t' (msg_fields m) []).
Proof. apply merge_row. Qed.

(** ** From the writer to the reader *)

Section transport.
Context {T : Type} `{AP : Appender T} `{!AppenderLaw T, !WireLaw OpRecord}.

Lemma resolve_again ca (w : TxWriter (T := T)) m ca' (w' : TxWriter (T := T)) def c2 (rw : Writer (T := T)) n :
  caches_ok ca -> registry_ok (tw_registry w) -> resolveOrRegister ca w (Some m) = (ca', w', Ok def) ->
  w_registry rw = tw_registry w' ->
  resolveOrRegister c2 (mkTxWriter rw n) (Some m) = (c2, mkTxWriter rw n, Ok def).
Proof.
  intros HC HR H Hrw. unfold resolveOrRegister, tw_registry in *. cbn [tw_record] in *. rewrite Hrw.
  destruct (Registry_LookupByName (w_registry (tw_record w)) _) as [[d desc]|] eqn:E.
  - injection H as <- <- <-. by rewrite E.
  - destruct (Registry_RegisterMessage ca (w_registry (tw_record w)) _ _) as [[ca1 r1] [d|]] eqn:ER; [|done].
    injection H as <- <- <-. cbn [tw_record w_registry set_registry].
    assert (desc_md (mt_desc (msg_type m)) = msg_md m) as HM by (unfold msg_md; by destruct (msg_type m)).
    destruct (register_message_lookup ca (w_registry (tw_record w)) (mt_desc (msg_type m)) [] ca1 r1 d)
      as [desc Hl]; [done|done|by rewrite HM|done|]. rewrite HM in Hl. by rewrite Hl.
Qed.

(** What a successful [writeOp] did. *)
Lemma writeOp_inv now ca (w : TxWriter (T := T)) op txID m ca' (w' : TxWriter (T := T)) seq :
  writeOp now ca w op txID (Some m) = (ca', w', Ok seq) ->
  exists w1 def kb vb pre p body,
    resolveOrRegister ca w (Some m) = (ca', w1, Ok def) /\ SplitKeyAndNonKey (Some m) (td_KeyFields def) = Ok (kb, vb) /\
    wire_marshal (mkOpRecord op (td_Id def) txID kb (if op =? OpRecord_DELETE then [] else vb)) = Some body /\
    SplitFrame p = Ok (TypeIDOpRecord, body) /\
    w_stream (tw_record w') = w_stream (tw_record w1) ++ pre ++ [p] /\
    seq = Z.of_nat (length (w_stream (tw_record w'))) /\ tw_registry w' = tw_registry w1.
Proof.
  cbn [writeOp]. destruct (resolveOrRegister ca w (Some m)) as [[ca1 w1] [def|]] eqn:ER; [|done].
  destruct (SplitKeyAndNonKey (Some m) (td_KeyFields def)) as [[kb vb]|] eqn:ES; [|done].
  destruct (Writer_AppendOp now (tw_record w1) _) as [rw [s|]] eqn:EA; [|done]. intros [= <- <- <-].
  apply AppendOp_stream in EA as (pre & p & body & HM & HS & HW & Hs & HR).
  exists w1, def, kb, vb, pre, p, body. by split_and!.
Qed.

Lemma resolve_stream ca (w : TxWriter (T := T)) m ca' (w' : TxWriter (T := T)) def :
  resolveOrRegister ca w (Some m) = (ca', w', Ok def) -> w_stream (tw_record w') = w_stream (tw_record w).
Proof.
  unfold resolveOrRegister. destruct (Registry_LookupByName _ _) as [[d desc]|]; [by intros [= <- <- <-]|].
  destruct (Registry_RegisterMessage _ _ _ _) as [[ca1 r1] [d|]]; [|done]. by intros [= <- <- <-].
Qed.

Lemma check_primary_key_no_panic md m pk : check_primary_key md m pk <> Err TxPanic.
Proof.
  induction pk as [|k pk IH]; cbn; [done|]. destruct (by_number _ k); [|done]. by destruct (msg_Has _ _).
Qed.

Lemma Split_no_panic msg kfs : SplitKeyAndNonKey msg kfs <> Err TxPanic.
Proof.
  unfold SplitKeyAndNonKey, PrimaryKey_Split. destruct msg as [m|]; [|done].
  pose proof (check_primary_key_no_panic (msg_md m) m (NewPrimaryKey kfs)) as HP.
  destruct (check_primary_key _ _ _) as [[]|e]; [|congruence].
  destruct (split_fields _ _ _ _). by repeat case_match.
Qed.

Lemma resolve_no_panic ca (w : TxWriter (T := T)) msg : snd (resolveOrRegister ca w msg) <> Err TxPanic.
Proof.
  unfold resolveOrRegister. destruct msg as [m|]; [|done]. destruct (Registry_LookupByName _ _) as [[]|]; [done|].
  destruct (Registry_RegisterMessage _ _ _ _) as [[? ?] []]; done.
Qed.

Lemma writeOp_no_panic now ca (w : TxWriter (T := T)) op txID msg ca' w' :
  writeOp now ca w op txID msg <> (ca', w', Err TxPanic).
Proof.
  unfold writeOp. destruct msg as [m|]; [|done]. pose proof (resolve_no_panic ca w (Some m)) as HR.
  destruct (resolveOrRegister ca w (Some m)) as [[ca2 w2] [def|e]]; cbn in HR; [|congruence].
  pose proof (Split_no_panic (Some m) (td_KeyFields def)) as HS.
  destruct (SplitKeyAndNonKey _ _) as [[kb vb]|e]; [|congruence].
  by destruct (Writer_AppendOp _ _ _) as [rw []].
Qed.

(** A transactional write never panics, and what it records agrees with the
    stream.  When it succeeds, the stream ends with an operation record of the
    transaction, at the returned sequence number, and the transaction has
    recorded one more change, with the same type, operation and key; when it
    fails, the recorded changes are those before. *)
Theorem tx_write_records op now ca (w : TxWriter (T := T)) tx msg ca' (w' : TxWriter (T := T)) tx' res :
  caches_ok ca -> registry_ok (tw_registry w) ->
  tx_write op now ca w tx msg = (ca', w', tx', res) ->
  match res with
  | Err e => e <> TxPanic /\ tx_changes tx' = tx_changes tx
  | Ok seq =>
    exists pre p body opRec c,
      w_stream (tw_record w') = w_stream (tw_record w) ++ pre ++ [p] /\
      seq = Z.of_nat (length (w_stream (tw_record w'))) /\
      SplitFrame p = Ok (TypeIDOpRecord, body) /\ wire_unmarshal body = Some opRec /\
      or_TxId opRec = tx_txID tx /\ or_Op opRec = op /\
      tx_changes tx' = tx_changes tx ++ [c] /\
      ch_Seq c = seq /\ ch_TxID c = tx_txID tx /\ ch_Op c = op /\
      ch_TypeID c = or_TypeId opRec /\ ch_RawKey c = or_Key opRec /\ ch_Row c = msg
  end.
Proof.
  intros HC HR. unfold tx_write. destruct (tx_finished tx); [by intros [= <- <- <- <-]|].
  destruct msg as [m|]; [|by intros [= <- <- <- <-]].
  destruct (writeOp now ca w op (tx_txID tx) (Some m)) as [[ca1 w1] [seq|e]] eqn:EW.
  2:{ intros [= <- <- <- <-]. split; [|done]. intros ->. by eapply writeOp_no_panic. }
  apply writeOp_inv in EW as (w2 & def & kb & vb & pre & p & body & HRes & HSp & HM & HF & HS & Hseq & HReg).
  unfold recordChange. destruct w1 as [rw n].
  rewrite (resolve_again ca w m ca1 w2 def ca1 rw n HC HR HRes HReg), HSp.
  intros [= <- <- <- <-]. cbn. do 5 eexists. rewrite <- (resolve_stream _ _ _ _ _ _ HRes).
  split; [exact HS|]. split; [exact Hseq|]. split; [exact HF|]. split; [by apply wire_roundtrip|].
  cbn. by split_and!.
Qed.

(** A reader that knows the type of [m] as [def]. *)
Record reader_knows (reg : Registry) (def : TypeDefinition) (m : Msg) (d' : TypeDefinition) (t' : MessageType) : Prop := {
  rk_desc : exists desc, Registry_LookupByID reg (td_Id def) = Some (d', desc) /\ desc_md desc = msg_md m;
  rk_keys : td_KeyFields d' = td_KeyFields def;
  rk_type : Registry_ResolveMessageType reg (td_Id def) = Ok t';
  rk_md : mt_md t' = msg_md m;
}.

(** The change of row [m] as it is read back; a deletion carries the key only. *)
Definition read_change (seq op txID : Z) (def d' : TypeDefinition) (t' : MessageType) (m : Msg) (kb vb : bytes) : Change :=
  let row := if op =? OpRecord_DELETE then key_part (NewPrimaryKey (td_KeyFields def)) m else msg_fields m in
  mkChange seq (td_Id def) (td_Name d') op txID kb kb (if op =? OpRecord_DELETE then [] else vb)
    (Some (mkMsg t' row [])).

Lemma op_change_written reg def m d' t' seq op txID kb vb :
  valid_message m -> reader_knows reg def m d' t' ->
  initialized (mkMsg (DynamicType (msg_md m)) (key_part (NewPrimaryKey (td_KeyFields def)) m) []) = true ->
  SplitKeyAndNonKey (Some m) (td_KeyFields def) = Ok (kb, vb) ->
  op_change reg seq (mkOpRecord op (td_Id def) txID kb (if op =? OpRecord_DELETE then [] else vb)) =
  Ok (read_change seq op txID def d' t' m kb vb).
Proof.
  intros HV [(desc & HL & Hdesc) HK HT HM] HI HS. unfold op_change. cbn [or_TypeId or_Key or_Value or_Op or_TxId].
  pose proof HS as HS0. apply Split_inv in HS0 as (HC & Hkb & _); [|done].
  rewrite HL, HT, HK, (validate_key (NewPrimaryKey (td_KeyFields def)) _ m desc kb); auto using NewPrimaryKey_elem.
  unfold read_change. destruct (op =? OpRecord_DELETE).
  - cbn. destruct (merge_key m (NewPrimaryKey (td_KeyFields def)) t' kb) as [-> _]; done.
  - erewrite (merge_row _ m t' kb vb); [done..|exact HS].
Qed.

Lemma set_cr_registry_same r : set_cr_registry r (cr_registry r) = r.
Proof. by destruct r. Qed.

(** What a row writer writes, a change reader reads.  When a row operation
    succeeds, the stream ends with its record, and any reader that is past its
    first record and knows the type turns that record into a change with the
    writer's operation, transaction, sequence number and key and with the row's
    fields (only the key fields for a deletion), yielding it at once outside a
    transaction and holding it as the transaction's last change inside one. *)
Theorem written_row_is_read now ca (w : TxWriter (T := T)) op txID m ca' (w' : TxWriter (T := T)) seq :
  valid_message m -> writeOp now ca w op txID (Some m) = (ca', w', Ok seq) ->
  exists pre p def kb vb,
    w_stream (tw_record w') = w_stream (tw_record w) ++ pre ++ [p] /\
    seq = Z.of_nat (length (w_stream (tw_record w'))) /\
    SplitKeyAndNonKey (Some m) (td_KeyFields def) = Ok (kb, vb) /\
    forall car r d' t',
      reader_knows (cr_registry r) def m d' t' -> cr_firstRecordSeen r = true ->
      initialized (mkMsg (DynamicType (msg_md m)) (key_part (NewPrimaryKey (td_KeyFields def)) m) []) = true ->
      let c := read_change seq op txID def d' t' m kb vb in
      ChangeReader_Feed car r seq p =
      if txID =? 0 then (car, mark_safe r seq, Ok [c])
      else (car, set_pending r (<[txID := default [] (cr_pendingTx r !! txID) ++ [c]]> (cr_pendingTx r)), Ok []).
Proof.
  intros HV HW. apply writeOp_inv in HW as (w1 & def & kb & vb & pre & p & body & HRes & HSp & HM & HF & HS & Hseq & _).
  exists pre, p, def, kb, vb. rewrite (resolve_stream _ _ _ _ _ _ HRes) in HS. split_and!; [done..|].
  intros car r d' t' HK Hseen HI c. unfold ChangeReader_Feed, Decoder_Decode. rewrite HF.
  apply wire_roundtrip in HM. pose proof HK as [(desc & HL & _) _ _ _].
  cbn -[op_change set_cr_registry first_record]. rewrite HM. cbn -[op_change set_cr_registry first_record].
  rewrite HL, set_cr_registry_same. unfold first_record. rewrite Hseen.
  cbn -[op_change]. by erewrite op_change_written.
Qed.
End transport.
End rows.

(** ** Examples *)

Section examples.
#[local] Existing Instance item_lib.
#[local] Existing Instance item_slib.

#[local] Instance item_message_law : MessageLaw.
Proof.
  split.
  - intros t. cbn. unfold item_marshal. by rewrite bool_decide_true.
  - intros t t' f1 f2 b _ _ _. apply item_merge_marshal.
Qed.

#[local] Instance item_op_law : WireLaw OpRecord.
Proof. apply countable_wire_law. Qed.

Definition item (key val : bytes) : Message Value :=
  mkMsg (DynamicType item1) ({[ 1 := key; 2 := val ]} : gmap Z bytes) [].

(** A session of a row writer on a stream: registers the type, begins a
    transaction, creates a row and, if asked to, commits. *)
Definition session (log : list bytes) (emitted : bool) (row : Message Value) (commit : bool)
    : TxWriter (T := MemStream) * Tx :=
  let w0 := NewTxWriter (mkMemStream log []) [WithStreamHeaderEmitted emitted] in
  let '(ca, rw, _) := Writer_RegisterDescriptor no_caches (tw_record w0) (Some (DynamicDesc item1)) [1] in
  let '(w, tx) := Begin (mkTxWriter rw (tw_nextTxID w0)) in
  let '(_, w, tx, _) := Tx_Create 1 ca w tx (Some row) in
  if commit then let '(w, tx, _) := Tx_Commit 2 w tx in (w, tx) else (w, tx).

(** A session that dies before its commit, and the next one on the stream. *)
Definition session1 := session [] false (item (go "a") (go "1")) false.
Definition session2 := session (w_stream (tw_record (fst session1))) true (item (go "b") (go "2")) true.

Definition records : list (Z * bytes) :=
  imap (fun i p => (Z.of_nat i + 1, p)) (w_stream (tw_record (fst session2))).

Definition reading := feed_all no_caches (NewChangeReader NewRegistry) records.

Definition read_keys (r : result tx_error (list (Z * list Change))) : list bytes :=
  match r with Ok outs => ch_RawKey <$> concat (snd <$> outs) | Err _ => [] end.

(** Transaction ids start again at 1 in every writer.  A transaction that
    was abandoned when its writer died has the id of the first transaction of
    the next writer, whose commit therefore commits both: the reader yields the
    abandoned row as well as the committed one. *)
Theorem reused_tx_id_commits_abandoned_row :
  (tx_txID (snd session1) = 1 /\ tx_finished (snd session1) = false) /\
  (tx_txID (snd session2) = 1 /\ tx_finished (snd session2) = true /\
   (ch_RawKey <$> Tx_Changes (snd session2)) = [x02 :: pos_bytes (encode ({[ 1 := go "b" ]} : gmap Z bytes, [] : bytes))]) /\
  read_keys (snd reading) =
    [x02 :: pos_bytes (encode ({[ 1 := go "a" ]} : gmap Z bytes, [] : bytes));
     x02 :: pos_bytes (encode ({[ 1 := go "b" ]} : gmap Z bytes, [] : bytes))].
Proof. vm_compute. split_and!; reflexivity. Qed.

Definition outs_of {A} (r : result tx_error (list A)) : list A := match r with Ok outs => outs | Err _ => [] end.

Definition reading_outs : list (Z * list Change) := outs_of (snd reading).

Lemma reading_ok : is_ok (snd reading) = true.
Proof. vm_compute. reflexivity. Qed.

Lemma triple_ok {A B C} (x : A * B * result tx_error (list C)) :
  is_ok (snd x) = true -> x = (fst (fst x), snd (fst x), Ok (outs_of (snd x))).
Proof. by destruct x as [[a b] []]. Qed.

Lemma reading_eqn : feed_all no_caches (NewChangeReaderWithOptions false NewRegistry) records = reading.
Proof. reflexivity. Qed.

#[local] Opaque reading records.

Lemma reading_full :
  feed_all no_caches (NewChangeReaderWithOptions false NewRegistry) records =
  (fst (fst reading), snd (fst reading), Ok reading_outs).
Proof. rewrite reading_eqn. exact (triple_ok reading reading_ok). Qed.

Lemma change_reader_commits_witness :
  exists evs, stream_events no_caches NewRegistry records = Some evs /\ length evs = length records.
Proof.
  destruct (change_reader_commits no_caches false NewRegistry records _ _ reading_outs reading_full)
    as (evs & H1 & H2 & _). exists evs. split; assumption.
Defined.

Lemma records_sorted : StronglySorted Z.lt (fst <$> records) /\ Forall (fun x => 1 <= fst x) records.
Proof.
  split; [|apply (bool_decide_unpack _); vm_compute; exact I].
  assert ((fst <$> records) = [1; 2; 3; 4; 5; 6]) as -> by (vm_compute; reflexivity).
  repeat constructor.
Qed.

Lemma safe_position_restart_witness :
  exists ca1 r1 outs1,
    feed_all no_caches (NewChangeReaderWithOptions false NewRegistry)
      (filter (fun x => fst x <= cr_safeSnapshotPosition (snd (fst reading))) records) = (ca1, r1, Ok outs1) /\
    HasPending r1 = false.
Proof.
  destruct (safe_position_restart no_caches false NewRegistry records _ _ reading_outs
              (proj1 records_sorted) (proj2 records_sorted) reading_full) as (ca1 & r1 & outs1 & _ & _ & H1 & H2 & _).
  exists ca1, r1, outs1. split; assumption.
Defined.

Lemma item_valid k v : valid_message (SL := item_slib) (item k v).
Proof.
  split.
  - intros n Hn. change (is_Some (({[ 1 := k; 2 := v ]} : gmap Z bytes) !! n)) in Hn.
    destruct (decide (n = 1)) as [->|H1]; [eexists; split; [left|done]|].
    destruct (decide (n = 2)) as [->|H2]; [eexists; split; [right; left|done]|].
    rewrite lookup_insert_ne, lookup_singleton_ne in Hn by done. by destruct Hn.
  - intros f g o Hf _ Ho. exfalso.
    apply elem_of_cons in Hf as [->|[->|Hf%elem_of_nil]%elem_of_cons]; done.
Qed.

Definition item_split := SplitKeyAndNonKey (SL := item_slib) (Some (item (go "a") (go "1"))) [1].

Lemma item_split_ok : is_ok item_split = true.
Proof. vm_compute. reflexivity. Qed.

Lemma row_roundtrip_witness :
  exists kb vb, item_split = Ok (kb, vb) /\
    MergeKeyAndNonKey (Some (msg_New (DynamicType item1))) kb vb =
      Ok (mkMsg (DynamicType item1) (msg_fields (item (go "a") (go "1"))) []) /\
    ValidateKeyBytes (Some (DynamicDesc item1)) [1] kb = Ok ().
Proof.
  pose proof item_split_ok as H. destruct item_split as [[kb vb]|] eqn:E; [|discriminate].
  exists kb, vb. split; [reflexivity|].
  destruct (row_roundtrip [1] (item (go "a") (go "1")) (DynamicDesc item1) (DynamicType item1) kb vb
              (item_valid _ _) eq_refl eq_refl eq_refl eq_refl E) as (H1 & H2 & _).
  split; assumption.
Defined.

(** A row written in a transaction of a new writer, which registers the type. *)
Definition writer0 : TxWriter := NewTxWriter (mkMemStream [] []) [].
Definition write1 :=
  tx_write OpRecord_CREATE 1 no_caches writer0 (snd (Begin writer0)) (Some (item (go "a") (go "1"))).

Lemma write1_ok : snd write1 = Ok 3.
Proof. vm_compute. reflexivity. Qed.

Lemma quad_eq {A B C D} (x : A * B * C * D) d :
  snd x = d -> x = (fst (fst (fst x)), snd (fst (fst x)), snd (fst x), d).
Proof. intros <-. by destruct x as [[[]]]. Qed.

Lemma write1_eqn :
  tx_write OpRecord_CREATE 1 no_caches writer0 (snd (Begin writer0)) (Some (item (go "a") (go "1"))) = write1.
Proof. reflexivity. Qed.

#[local] Opaque write1.

Lemma write1_full :
  tx_write OpRecord_CREATE 1 no_caches writer0 (snd (Begin writer0)) (Some (item (go "a") (go "1"))) =
  (fst (fst (fst write1)), snd (fst (fst write1)), snd (fst write1), Ok 3).
Proof. rewrite write1_eqn. exact (quad_eq write1 (Ok 3) write1_ok). Qed.

Lemma tx_write_records_witness :
  exists c, tx_changes (snd (fst write1)) = [c] /\ ch_Seq c = 3 /\ ch_TxID c = 1.
Proof.
  pose proof (tx_write_records OpRecord_CREATE 1 no_caches writer0 (snd (Begin writer0))
    (Some (item (go "a") (go "1"))) _ _ _ (Ok 3) no_caches_ok NewRegistry_ok
    write1_full) as (pre & p & body & opRec & c & _ & _ & _ & _ & _ & _ & H1 & H2 & H3 & _).
  exists c. split; [exact H1|]. split; [exact H2|exact H3].
Defined.

Definition write2 := writeOp 1 no_caches writer0 OpRecord_CREATE 0 (Some (item (go "a") (go "1"))).

Lemma write2_ok : snd write2 = Ok 3.
Proof. vm_compute. reflexivity. Qed.

Lemma write2_eqn :
  writeOp 1 no_caches writer0 OpRecord_CREATE 0 (Some (item (go "a") (go "1"))) = write2.
Proof. reflexivity. Qed.

#[local] Opaque write2.

Lemma write2_full :
  writeOp 1 no_caches writer0 OpRecord_CREATE 0 (Some (item (go "a") (go "1"))) =
  (fst (fst write2), snd (fst write2), Ok 3).
Proof. rewrite write2_eqn. exact (triple_eq write2 (Ok 3) write2_ok). Qed.

Lemma written_row_is_read_witness :
  exists pre p, w_stream (tw_record (snd (fst write2))) = w_stream (tw_record writer0) ++ pre ++ [p] /\
    3 = Z.of_nat (length (w_stream (tw_record (snd (fst write2))))).
Proof.
  destruct (written_row_is_read 1 no_caches writer0 OpRecord_CREATE 0 (item (go "a") (go "1"))
    (fst (fst write2)) (snd (fst write2)) 3 (item_valid _ _) write2_full)
    as (pre & p & def & kb & vb & H1 & H2 & _).
  exists pre, p. split; [exact H1|exact H2].
Defined.
End examples.
