(* ===== verification/SdsIndex.v ===== *)
(** * SdsIndex: local indexes of a stream and the in-memory one

    [pkg/sds/index.go] states what a local index promises; [LocalIndex] and
    [LocalIndexLaw] are that contract.  [pkg/sds/memtable/memtable.go] is the
    in-memory implementation, which discharges it. *)

From S2P Require Import Prelude Bytes Sha256 SdsFrame SdsSchema SdsRegistry SdsStream SdsTx.

#[local] Open Scope Z_scope.
#[local] Open Scope list_scope.

Inductive index_error : Type :=
| IEEmptyTable
| IEResolve (e : sds_error)
| IEMergeRow
| IEMissingRow
| IEUnsupportedOp
| IEFailed.

Section index.
Context `{SL : StreamLib}.

Abbreviation Msg := (Message Value).

(** ** Committed changes as index updates *)

(** The key of a change; the canonical key may be given as raw bytes only. *)
Definition norm_key (ch : Change) : bytes :=
  if bool_decide (ch_Key ch = []) && negb (bool_decide (ch_RawKey ch = [])) then ch_RawKey ch else ch_Key ch.

(** The table of a change, looked up by type id when it has no name. *)
Definition norm_table (reg : Registry) (ch : Change) : bytes :=
  if bool_decide (ch_TypeName ch = []) then
    match Registry_LookupByID reg (ch_TypeID ch) with
    | Some (def, _) => td_Name def
    | None => ch_TypeName ch
    end
  else ch_TypeName ch.

Definition is_write (op : Z) : bool := (op =? OpRecord_CREATE) || (op =? OpRecord_UPDATE).

(** A change as the change reader and the transactions produce it. *)
Definition full_change (ch : Change) : Prop :=
  ch_TypeName ch <> [] /\
  (is_write (ch_Op ch) = true /\ is_Some (ch_Row ch) \/ ch_Op ch = OpRecord_DELETE).

(** The row of table [t] and key [k] once [chs] are applied to a row [o]. *)
Definition change_effect (t k : bytes) (o : option Msg) (ch : Change) : option Msg :=
  if bool_decide (ch_TypeName ch = t /\ norm_key ch = k) then
    if ch_Op ch =? OpRecord_DELETE then None else ch_Row ch
  else o.

Definition row_after (chs : list Change) (t k : bytes) (o : option Msg) : option Msg :=
  foldl (change_effect t k) o chs.

Definition position_after (chs : list Change) (pos : Z) : Z :=
  foldl (fun p ch => if p <? ch_Seq ch then ch_Seq ch else p) pos chs.

(** ** The contract *)

Class LocalIndex (I : Type) : Type := {
  li_Position : I -> Z;
  li_ApplyBatch : I -> list Change -> I * result index_error ();
  li_Get : I -> bytes -> bytes -> result index_error (option Msg);
  li_Scan : I -> bytes -> bytes -> result index_error (list Msg);
  li_row : I -> bytes -> bytes -> option Msg;
}.

(** The rows under a prefix, with their keys, in the order of the key bytes. *)
Definition rows_under (rows : bytes -> option Msg) (prefix : bytes) (es : list (bytes * Msg)) : Prop :=
  StronglySorted bytes_lt (fst <$> es) /\
  forall k msg, (k, msg) ∈ es <-> rows k = Some msg /\ has_prefix prefix k = true.

(** Reads return the rows or fail; a batch is applied as a whole, advancing the
    position with it, or not at all. *)
Class LocalIndexLaw (I : Type) `{LocalIndex I} : Prop := {
  Get_spec : forall i t k o, li_Get i t k = Ok o -> o = li_row i t k;
  Scan_spec : forall i t prefix l, li_Scan i t prefix = Ok l ->
    exists es, l = snd <$> es /\ rows_under (li_row i t) prefix es;
  ApplyBatch_ok : forall i chs i', Forall full_change chs -> li_ApplyBatch i chs = (i', Ok ()) ->
    (forall t k, li_row i' t k = row_after chs t k (li_row i t k)) /\
    li_Position i' = position_after chs (li_Position i);
  ApplyBatch_err : forall i chs i' e, li_ApplyBatch i chs = (i', Err e) ->
    (forall t k, li_row i' t k = li_row i t k) /\ li_Position i' = li_Position i;
}.

(** ** The in-memory table *)

Abbreviation Rows := (gmap bytes Msg).

Definition MemTable_Get (t : Rows) (key : bytes) : option Msg := t !! key.
Definition MemTable_Put (t : Rows) (key : bytes) (msg : Msg) : Rows := <[key := msg]> t.
Definition MemTable_Delete (t : Rows) (key : bytes) : Rows := delete key t.
Definition MemTable_Count (t : Rows) : nat := size t.

Definition entry_le (a b : bytes * Msg) : Prop := bytes_le (fst a) (fst b).

#[export] Instance entry_le_dec a b : Decision (entry_le a b).
Proof. unfold entry_le. apply _. Defined.

(** [sort.Slice] of the entries by key bytes. *)
Definition sort_entries (l : list (bytes * Msg)) : list (bytes * Msg) := merge_sort entry_le l.

Definition MemTable_Rows (t : Rows) : list Msg := snd <$> sort_entries (map_to_list t).

(** ** The in-memory store *)

Record MemStore : Type := mkMemStore {
  mst_streamID : bytes;
  mst_registry : Registry;
  mst_tables : gmap bytes Rows;
  mst_lastPosition : Z;
}.

Definition NewMemStore (streamID : bytes) : MemStore := mkMemStore streamID NewRegistry ∅ 0.

Definition MemStore_SetStreamID (m : MemStore) (id : bytes) : MemStore :=
  mkMemStore id (mst_registry m) (mst_tables m) (mst_lastPosition m).
Definition MemStore_Position (m : MemStore) : Z := mst_lastPosition m.
Definition MemStore_SetPosition (m : MemStore) (pos : Z) : MemStore :=
  mkMemStore (mst_streamID m) (mst_registry m) (mst_tables m) pos.

Definition MemStore_SyncRegistry (ca : Caches) (m : MemStore) (reg : option Registry)
    : Caches * MemStore * result sds_error () :=
  match reg with
  | None => (ca, m, Ok ())
  | Some reg =>
    let '(ca, r, res) := Registry_Import ca (mst_registry m) (Some <$> Registry_Export reg) in
    (ca, mkMemStore (mst_streamID m) r (mst_tables m) (mst_lastPosition m), res)
  end.

Definition MemStore_Table (m : MemStore) (name : bytes) : option Rows := mst_tables m !! name.

Definition get_or_create (tables : gmap bytes Rows) (name : bytes) : gmap bytes Rows :=
  match tables !! name with Some _ => tables | None => <[name := ∅]> tables end.

Definition MemStore_GetOrCreateTable (m : MemStore) (name : bytes) : MemStore :=
  mkMemStore (mst_streamID m) (mst_registry m) (get_or_create (mst_tables m) name) (mst_lastPosition m).

Record resolvedChange : Type := mkResolved {
  rc_table : bytes;
  rc_op : Z;
  rc_key : bytes;
  rc_row : option Msg;
  rc_seq : Z;
}.

(** The row of a create or update, decoded from its bytes when the change has
    no message. *)
Definition resolve_row (reg : Registry) (tableName : bytes) (ch : Change) : result index_error (option Msg) :=
  match ch_Row ch with
  | Some row => Ok (Some row)
  | None =>
    if bool_decide (ch_RawKey ch = []) && bool_decide (ch_RawVal ch = []) then Ok None
    else
    let def :=
      match Registry_LookupByName reg tableName with
      | Some (def, _) => Some def
      | None => fst <$> Registry_LookupByID reg (ch_TypeID ch)
      end in
    match def with
    | None => Ok None
    | Some def =>
      match Registry_ResolveMessageType reg (td_Id def) with
      | Err e => Err (IEResolve e)
      | Ok msgType =>
        match MergeKeyAndNonKey (Some (msg_New msgType)) (ch_RawKey ch) (ch_RawVal ch) with
        | Err _ => Err IEMergeRow
        | Ok row => Ok (Some row)
        end
      end
    end
  end.

(** One round of the first loop of [ApplyBatch]; the table is created before
    the change is checked. *)
Definition resolve_change (reg : Registry) (tables : gmap bytes Rows) (ch : Change)
    : gmap bytes Rows * result index_error resolvedChange :=
  let tableName := norm_table reg ch in
  if bool_decide (tableName = []) then (tables, Err IEEmptyTable)
  else
  let tables := get_or_create tables tableName in
  let done row := Ok (mkResolved tableName (ch_Op ch) (norm_key ch) row (ch_Seq ch)) in
  (tables,
   if is_write (ch_Op ch) then
     match resolve_row reg tableName ch with
     | Err e => Err e
     | Ok None => Err IEMissingRow
     | Ok (Some row) => done (Some row)
     end
   else if ch_Op ch =? OpRecord_DELETE then done None
   else Err IEUnsupportedOp).

Fixpoint resolve_changes (reg : Registry) (tables : gmap bytes Rows) (chs : list Change)
    : gmap bytes Rows * result index_error (list resolvedChange) :=
  match chs with
  | [] => (tables, Ok [])
  | ch :: chs =>
    let '(tables, r) := resolve_change reg tables ch in
    match r with
    | Err e => (tables, Err e)
    | Ok rc =>
      let '(tables, rs) := resolve_changes reg tables chs in
      (tables, match rs with Err e => Err e | Ok rs => Ok (rc :: rs) end)
    end
  end.

(** One round of the second loop. *)
Definition apply_resolved (m : MemStore) (rc : resolvedChange) : MemStore :=
  let rows := default ∅ (mst_tables m !! rc_table rc) in
  let rows' :=
    if is_write (rc_op rc) then
      match rc_row rc with Some row => <[rc_key rc := row]> rows | None => rows end
    else if rc_op rc =? OpRecord_DELETE then delete (rc_key rc) rows
    else rows in
  mkMemStore (mst_streamID m) (mst_registry m) (<[rc_table rc := rows']> (mst_tables m))
    (if mst_lastPosition m <? rc_seq rc then rc_seq rc else mst_lastPosition m).

Definition MemStore_ApplyBatch (m : MemStore) (chs : list Change) : MemStore * result index_error () :=
  match chs with
  | [] => (m, Ok ())
  | _ :: _ =>
    let '(tables, rs) := resolve_changes (mst_registry m) (mst_tables m) chs in
    let m := mkMemStore (mst_streamID m) (mst_registry m) tables (mst_lastPosition m) in
    match rs with
    | Err e => (m, Err e)
    | Ok rs => (foldl apply_resolved m rs, Ok ())
    end
  end.

Definition MemStore_Apply (m : MemStore) (ch : Change) : MemStore * result index_error () :=
  MemStore_ApplyBatch m [ch].

Definition MemStore_Get (m : MemStore) (tableName key : bytes) : option Msg :=
  t ← mst_tables m !! tableName; MemTable_Get t key.

(** The entries [Scan] yields, in order; the iterator yields their messages. *)
Definition scan_entries (m : MemStore) (typeName keyPrefix : bytes) : list (bytes * Msg) :=
  match mst_tables m !! typeName with
  | None => []
  | Some t =>
    sort_entries (filter (fun x => keyPrefix = [] \/ has_prefix keyPrefix (fst x) = true) (map_to_list t))
  end.

Definition MemStore_Scan (m : MemStore) (typeName keyPrefix : bytes) : list Msg :=
  snd <$> scan_entries m typeName keyPrefix.

Definition MemStore_Rows (m : MemStore) (tableName : bytes) : list Msg := MemStore_Scan m tableName [].

Definition MemStore_Count (m : MemStore) (tableName : bytes) : nat :=
  match mst_tables m !! tableName with None => 0%nat | Some t => MemTable_Count t end.

Definition MemStore_Tables (m : MemStore) : list bytes := sort_strings (fst <$> map_to_list (mst_tables m)).

Definition MemStore_Clear (m : MemStore) : MemStore := mkMemStore (mst_streamID m) (mst_registry m) ∅ 0.

(** ** The store implements the contract *)

Lemma get_or_create_Get tables n t k :
  (t' ← get_or_create tables n !! t; t' !! k) = (t' ← tables !! t; t' !! k : option Msg).
Proof.
  unfold get_or_create. destruct (tables !! n) eqn:E; [done|].
  destruct (decide (t = n)) as [->|Hne]; [|by rewrite lookup_insert_ne].
  by rewrite lookup_insert_eq, E.
Qed.

Lemma resolve_change_Get reg tables ch t k :
  (t' ← fst (resolve_change reg tables ch) !! t; t' !! k) = (t' ← tables !! t; t' !! k : option Msg).
Proof. unfold resolve_change. destruct (bool_decide _); [done|]. apply get_or_create_Get. Qed.

(** Resolving a batch creates empty tables and changes no row. *)
Lemma resolve_changes_Get reg chs : forall tables t k,
  (t' ← fst (resolve_changes reg tables chs) !! t; t' !! k) = (t' ← tables !! t; t' !! k : option Msg).
Proof.
  induction chs as [|ch chs IH]; intros tables t k; [done|]. cbn.
  pose proof (resolve_change_Get reg tables ch t k) as HG.
  destruct (resolve_change reg tables ch) as [tables1 [rc|]]; [|done]. cbn in HG. rewrite <- HG, <- (IH tables1).
  by destruct (resolve_changes reg tables1 chs).
Qed.

(** What a resolved change does to a row. *)
Definition resolved_effect (t k : bytes) (o : option Msg) (rc : resolvedChange) : option Msg :=
  if bool_decide (rc_table rc = t /\ rc_key rc = k) then
    if is_write (rc_op rc) then match rc_row rc with Some row => Some row | None => o end
    else if rc_op rc =? OpRecord_DELETE then None else o
  else o.

Lemma apply_resolved_Get m rc t k :
  MemStore_Get (apply_resolved m rc) t k = resolved_effect t k (MemStore_Get m t k) rc.
Proof.
  unfold MemStore_Get, apply_resolved, resolved_effect, MemTable_Get. cbn [mst_tables].
  destruct (decide (rc_table rc = t)) as [<-|Hne].
  2:{ rewrite lookup_insert_ne by done. rewrite bool_decide_false by naive_solver. done. }
  rewrite lookup_insert_eq. cbn.
  set (rows := default ∅ (mst_tables m !! rc_table rc)).
  assert ((t' ← mst_tables m !! rc_table rc; t' !! k) = rows !! k) as ->
    by (subst rows; destruct (mst_tables m !! rc_table rc); cbn; [done|by rewrite lookup_empty]).
  clearbody rows. destruct (decide (rc_key rc = k)) as [<-|Hk].
  - rewrite bool_decide_true by done. destruct (is_write _); [destruct (rc_row rc)|destruct (_ =? _)]; try done.
    + by rewrite lookup_insert_eq.
    + by rewrite lookup_delete_eq.
  - rewrite bool_decide_false by naive_solver. destruct (is_write _); [destruct (rc_row rc)|destruct (_ =? _)]; try done.
    + by rewrite lookup_insert_ne.
    + by rewrite lookup_delete_ne.
Qed.

Lemma apply_all_Get rs : forall m t k,
  MemStore_Get (foldl apply_resolved m rs) t k = foldl (resolved_effect t k) (MemStore_Get m t k) rs.
Proof. induction rs as [|rc rs IH]; intros m t k; [done|]. cbn. by rewrite IH, apply_resolved_Get. Qed.

Lemma apply_all_position rs : forall m,
  mst_lastPosition (foldl apply_resolved m rs) =
  foldl (fun p rc => if p <? rc_seq rc then rc_seq rc else p) (mst_lastPosition m) rs.
Proof. induction rs as [|rc rs IH]; intros m; [done|]. cbn. by rewrite IH. Qed.

(** The resolution of a change that succeeds. *)
Inductive resolves (reg : Registry) (ch : Change) : resolvedChange -> Prop :=
| resolves_write row :
    is_write (ch_Op ch) = true -> resolve_row reg (norm_table reg ch) ch = Ok (Some row) ->
    resolves reg ch (mkResolved (norm_table reg ch) (ch_Op ch) (norm_key ch) (Some row) (ch_Seq ch))
| resolves_delete :
    is_write (ch_Op ch) = false -> ch_Op ch = OpRecord_DELETE ->
    resolves reg ch (mkResolved (norm_table reg ch) (ch_Op ch) (norm_key ch) None (ch_Seq ch)).

Lemma resolve_change_inv reg tables ch tables' rc :
  resolve_change reg tables ch = (tables', Ok rc) -> resolves reg ch rc.
Proof.
  unfold resolve_change. destruct (bool_decide _); [done|]. destruct (is_write (ch_Op ch)) eqn:EW.
  - destruct (resolve_row _ _ ch) as [[row|]|] eqn:ER; intros [= <- <-]. by apply resolves_write.
  - destruct (_ =? _) eqn:ED; intros [= <- <-]. apply resolves_delete; [done|by apply Z.eqb_eq].
Qed.

Lemma resolve_changes_inv reg chs : forall tables tables' rs,
  resolve_changes reg tables chs = (tables', Ok rs) -> Forall2 (resolves reg) chs rs.
Proof.
  induction chs as [|ch chs IH]; intros tables tables' rs H; cbn in H; [by injection H as <- <-|].
  destruct (resolve_change reg tables ch) as [tables1 [rc|]] eqn:EC; [|done].
  destruct (resolve_changes reg tables1 chs) as [tables2 [rs'|]] eqn:EA; [|done]. injection H as <- <-.
  constructor; [by eapply resolve_change_inv|by eapply IH].
Qed.

Lemma resolves_effect reg ch rc t k o :
  full_change ch -> resolves reg ch rc -> resolved_effect t k o rc = change_effect t k o ch.
Proof.
  intros [HN HO] HR. unfold change_effect.
  assert (norm_table reg ch = ch_TypeName ch) as HT by (unfold norm_table; by rewrite bool_decide_false).
  destruct HR as [row HW HR|HW HD]; unfold resolved_effect; cbn; rewrite HT, ?HW.
  - destruct HO as [[_ [row' Hr]]|HO]; [|by rewrite HO in HW].
    unfold resolve_row in HR. rewrite Hr in HR. injection HR as ->.
    destruct (ch_Op ch =? OpRecord_DELETE) eqn:E; [zify_bool; by rewrite E in HW|]. by rewrite Hr.
  - by rewrite HD.
Qed.

Lemma resolves_effects reg chs rs t k : forall o,
  Forall full_change chs -> Forall2 (resolves reg) chs rs ->
  foldl (resolved_effect t k) o rs = row_after chs t k o.
Proof.
  intros o HF H2. revert o HF. induction H2 as [|ch rc chs rs HR H2 IH]; intros o HF; [done|].
  inversion HF as [|? ? Hc HF']; subst. unfold row_after in *. cbn.
  rewrite (resolves_effect reg ch rc) by done. by apply IH.
Qed.

Lemma resolves_positions reg chs rs : forall p,
  Forall2 (resolves reg) chs rs ->
  foldl (fun p rc => if p <? rc_seq rc then rc_seq rc else p) p rs = position_after chs p.
Proof.
  intros p H2. revert p. induction H2 as [|ch rc chs rs HR H2 IH]; intros p; [done|].
  unfold position_after in *. cbn. rewrite IH. by destruct HR.
Qed.

(** ** Scans *)

#[export] Instance entry_le_total : Total entry_le.
Proof. intros a b. apply (total bytes_le). Qed.
#[export] Instance entry_le_trans : Transitive entry_le.
Proof. intros a b c. apply bytes_le_trans. Qed.

Lemma sort_entries_sorted l :
  NoDup (fst <$> l) -> StronglySorted bytes_lt (fst <$> sort_entries l).
Proof.
  intros HN. assert (StronglySorted entry_le (sort_entries l)) as HS
    by (apply StronglySorted_merge_sort; apply _).
  assert (NoDup (fst <$> sort_entries l)) as HN' by (unfold sort_entries; by rewrite merge_sort_Permutation).
  revert HN' HS. generalize (sort_entries l). clear.
  induction l as [|a l IH]; intros HN HS; [constructor|]. cbn in *.
  apply NoDup_cons in HN as [Ha HN]. inversion HS as [|? ? HS' HF]; subst. constructor; [by apply IH|].
  rewrite Forall_fmap. rewrite Forall_forall in HF |- *. intros b Hb. cbn.
  destruct (proj1 (bytes_le_lt _ _) (HF b Hb)) as [|E]; [done|].
  exfalso. apply Ha. rewrite E. by apply list_elem_of_fmap_2.
Qed.

Lemma filter_NoDup_fst (P : bytes * Msg -> Prop) `{!forall x, Decision (P x)} (l : list (bytes * Msg)) :
  NoDup (fst <$> l) -> NoDup (fst <$> filter P l).
Proof.
  induction l as [|x l IH]; intros HN; [done|]. cbn in HN. apply NoDup_cons in HN as [Hx HN].
  rewrite filter_cons. destruct (decide (P x)); [|by apply IH]. cbn. constructor; [|by apply IH].
  intros Hin. apply Hx. apply list_elem_of_fmap in Hin as (y & -> & Hy).
  apply list_elem_of_fmap_2. by apply list_elem_of_filter in Hy as [_ ?].
Qed.

Lemma scan_entries_exact m t prefix : rows_under (MemStore_Get m t) prefix (scan_entries m t prefix).
Proof.
  unfold rows_under, scan_entries, MemStore_Get, MemTable_Get.
  destruct (mst_tables m !! t) as [rows|]; cbn.
  2:{ split; [constructor|]. intros k msg. rewrite elem_of_nil. naive_solver. }
  split; [apply sort_entries_sorted, filter_NoDup_fst, NoDup_fst_map_to_list|].
  intros k msg. unfold sort_entries. rewrite merge_sort_Permutation, list_elem_of_filter, elem_of_map_to_list. cbn.
  split; [|naive_solver]. intros [[->|HP] HL]; [|done]. by split.
Qed.

(** ** The in-memory store is a local index *)

#[export] Instance memstore_index : LocalIndex MemStore := {|
  li_Position := MemStore_Position;
  li_ApplyBatch := MemStore_ApplyBatch;
  li_Get m t k := Ok (MemStore_Get m t k);
  li_Scan m t prefix := Ok (MemStore_Scan m t prefix);
  li_row := MemStore_Get;
|}.

Lemma ApplyBatch_cases m chs m' res :
  MemStore_ApplyBatch m chs = (m', res) ->
  exists tables, (forall t k, (t' ← tables !! t; t' !! k) = MemStore_Get m t k) /\
  match res with
  | Err _ => m' = mkMemStore (mst_streamID m) (mst_registry m) tables (mst_lastPosition m)
  | Ok _ => exists rs, Forall2 (resolves (mst_registry m)) chs rs /\
      m' = foldl apply_resolved (mkMemStore (mst_streamID m) (mst_registry m) tables (mst_lastPosition m)) rs
  end.
Proof.
  destruct chs as [|c0 chs0]; cbn [MemStore_ApplyBatch].
  { intros [= <- <-]. exists (mst_tables m). split; [done|]. exists []. split; [constructor|]. by destruct m. }
  generalize (c0 :: chs0). intros chs.
  pose proof (resolve_changes_Get (mst_registry m) chs (mst_tables m)) as HG.
  destruct (resolve_changes (mst_registry m) (mst_tables m) chs) as [tables [rs|e]] eqn:ER; cbn in HG;
    intros [= <- <-]; exists tables; (split; [exact HG|]); [|done].
  exists rs. split; [|done]. by eapply resolve_changes_inv.
Qed.

#[export] Instance memstore_law : LocalIndexLaw MemStore.
Proof.
  split; cbn.
  - by intros i t k o [= <-].
  - intros m t prefix l [= <-]. exists (scan_entries m t prefix). split; [done|]. apply scan_entries_exact.
  - intros m chs m' HF H. apply ApplyBatch_cases in H as (tables & HT & rs & HR & ->). split.
    + intros t k. rewrite apply_all_Get, (resolves_effects (mst_registry m) chs rs) by done. f_equal. apply HT.
    + unfold MemStore_Position. rewrite apply_all_position. by eapply resolves_positions.
  - intros m chs m' e H. apply ApplyBatch_cases in H as (tables & HT & ->). split; [|done].
    intros t k. apply HT.
Qed.

Lemma resolve_changes_full reg chs : forall tables,
  Forall full_change chs -> exists tables' rs, resolve_changes reg tables chs = (tables', Ok rs).
Proof.
  induction chs as [|ch chs IH]; intros tables HF; cbn; [by eauto|]. inversion HF as [|? ? [HT HR] HF']; subst.
  unfold resolve_change, norm_table. rewrite (bool_decide_false (ch_TypeName ch = [])) by done.
  rewrite bool_decide_false by done. destruct (IH (get_or_create tables (ch_TypeName ch)) HF') as (tables' & rs & E).
  destruct HR as [[HW [row HR]]|HD].
  - rewrite HW. unfold resolve_row. rewrite HR, E. by eauto.
  - rewrite HD. change (is_write OpRecord_DELETE) with false. rewrite Z.eqb_refl, E. by eauto.
Qed.

(** Batches of well-formed changes are never refused. *)
Lemma memstore_accepts m chs : Forall full_change chs -> exists m', MemStore_ApplyBatch m chs = (m', Ok ()).
Proof.
  intros HF. unfold MemStore_ApplyBatch. destruct chs as [|ch chs]; [by eauto|].
  destruct (resolve_changes_full (mst_registry m) (ch :: chs) (mst_tables m) HF) as (tables' & rs & ->). by eauto.
Qed.

(** ** Runs of batches *)

(** The store after some batches, and the changes of those that succeeded. *)
Fixpoint run_batches (m : MemStore) (bs : list (list Change)) : MemStore * list Change :=
  match bs with
  | [] => (m, [])
  | b :: bs =>
    let '(m, res) := MemStore_ApplyBatch m b in
    let '(m, applied) := run_batches m bs in
    (m, (if is_ok res then b else []) ++ applied)
  end.

Lemma row_after_app a b t k o : row_after (a ++ b) t k o = row_after b t k (row_after a t k o).
Proof. apply foldl_app. Qed.

Lemma position_after_app a b p : position_after (a ++ b) p = position_after b (position_after a p).
Proof. apply foldl_app. Qed.

Lemma run_batches_ok bs : forall m m' applied,
  run_batches m bs = (m', applied) -> Forall full_change applied ->
  (forall t k, MemStore_Get m' t k = row_after applied t k (MemStore_Get m t k)) /\
  MemStore_Position m' = position_after applied (MemStore_Position m).
Proof.
  induction bs as [|b bs IH]; intros m m' applied H HF; cbn in H; [by injection H as <- <-|].
  destruct (MemStore_ApplyBatch m b) as [m1 res] eqn:EB.
  destruct (run_batches m1 bs) as [m2 ap] eqn:ER. injection H as <- <-.
  apply Forall_app in HF as [HFb HFa]. destruct (IH _ _ _ ER HFa) as [HG HP].
  destruct res as [[]|e]; cbn [is_ok] in HFb |- *.
  - destruct (ApplyBatch_ok (LocalIndexLaw := memstore_law) m b m1 HFb EB) as [HG1 HP1]. cbn [li_row li_Position memstore_index] in HG1, HP1. split.
    + intros t k. by rewrite HG, HG1, row_after_app.
    + by rewrite HP, HP1, position_after_app.
  - destruct (ApplyBatch_err (LocalIndexLaw := memstore_law) m b m1 e EB) as [HG1 HP1]. cbn [li_row li_Position memstore_index] in HG1, HP1. split.
    + intros t k. by rewrite HG, HG1.
    + by rewrite HP, HP1.
Qed.

(** ** Claims *)

(** The in-memory index holds exactly the committed changes.  After any
    sequence of batches, of which some may have been refused, each row is what
    the successful batches, taken in order, make of it, the position is the
    highest sequence number among them, and a refused batch changed neither. *)
Theorem memstore_holds_applied_batches streamID bs m applied :
  run_batches (NewMemStore streamID) bs = (m, applied) -> Forall full_change applied ->
  (forall t k, MemStore_Get m t k = row_after applied t k None) /\
  MemStore_Position m = position_after applied 0.
Proof.
  intros H HF. destruct (run_batches_ok _ _ _ _ H HF) as [HG HP]. split; [|exact HP].
  intros t k. rewrite HG. f_equal.
Qed.
End index.

(** ** Examples *)

Section examples.
#[local] Existing Instance item_lib.
#[local] Existing Instance item_slib.

Definition put (seq : Z) (k v : bytes) : Change :=
  mkChange seq 16 (go "Item") OpRecord_UPDATE 1 k k [] (Some (item k v)).
Definition del (seq : Z) (k : bytes) : Change := mkChange seq 16 (go "Item") OpRecord_DELETE 1 k k [] None.

(** A batch of two rows, one that names no table and is refused, and one that
    replaces a row and deletes another. *)
Definition example_batches : list (list Change) :=
  [[put 1 (go "a") (go "1"); put 1 (go "b") (go "1")];
   [put 2 (go "a") (go "x"); mkChange 2 99 [] OpRecord_UPDATE 1 (go "a") [] [] None];
   [put 3 (go "a") (go "2"); del 3 (go "b")]].

Definition example_store := run_batches (NewMemStore (go "s")) example_batches.

Definition example_applied : list Change :=
  [put 1 (go "a") (go "1"); put 1 (go "b") (go "1"); put 3 (go "a") (go "2"); del 3 (go "b")].

Lemma example_store_applied : snd example_store = example_applied.
Proof. vm_cast_no_check (eq_refl example_applied). Qed.

Lemma put_full seq k v : full_change (put seq k v).
Proof. split; [done|]. left. split; [done|by eexists]. Qed.
Lemma del_full seq k : full_change (del seq k).
Proof. split; [done|]. by right. Qed.

Lemma memstore_holds_applied_batches_witness :
  exists m, run_batches (NewMemStore (go "s")) example_batches = (m, example_applied) /\
    MemStore_Get m (go "Item") (go "a") = Some (item (go "a") (go "2")) /\
    MemStore_Get m (go "Item") (go "b") = None /\ MemStore_Position m = 3.
Proof.
  assert (run_batches (NewMemStore (go "s")) example_batches = (fst example_store, example_applied)) as E
    by (rewrite <- example_store_applied; exact (surjective_pairing example_store)).
  assert (Forall full_change example_applied) as HF
    by (do 3 (apply Forall_cons_2; [apply put_full|]); apply Forall_cons_2; [apply del_full|apply Forall_nil_2]).
  destruct (memstore_holds_applied_batches (go "s") example_batches (fst example_store) example_applied E HF) as [HG HP].
  exists (fst example_store). split; [exact E|]. rewrite !HG, HP. split; [reflexivity|]. split; reflexivity.
Defined.
End examples.
