(* ===== verification/LruCache.v ===== *)
(** * LruCache: the read cache of a view

    [pkg/sds/view/cache.go]: a least-recently-used cache made of a map from
    keys to elements and a doubly linked list of the elements.  The elements
    live in an explicit heap, so that the list is the pointer structure of the
    code, and an operation that would follow a nil or dangling pointer has no
    result.  The reference is a plain list of entries, most recent first. *)

From S2P Require Import Prelude Bytes.

#[local] Open Scope Z_scope.
#[local] Open Scope list_scope.

Section lru.
Context {K V : Type} `{Countable K}.

(** ** The cache *)

Abbreviation ptr := positive (only parsing).

Record cacheElement : Type := mkElem {
  el_key : K;
  el_value : V;
  el_size : Z;
  el_prev : option ptr;
  el_next : option ptr;
}.

(** [lc_heap] holds the elements the pointers lead to; [lc_onEvict] says whether
    a callback is set and [lc_evicted] lists the calls made to it, in order. *)
Record LRUCache : Type := mkLRU {
  lc_capacity : Z;
  lc_maxBytes : Z;
  lc_curBytes : Z;
  lc_items : gmap K ptr;
  lc_heap : gmap ptr cacheElement;
  lc_head : option ptr;
  lc_tail : option ptr;
  lc_sizeFn : option (K -> V -> Z);
  lc_onEvict : bool;
  lc_evicted : list (K * V);
  lc_hits : Z;
  lc_misses : Z;
}.

Definition NewLRUCache (capacity : Z) (onEvict : bool) : LRUCache :=
  mkLRU (if capacity <=? 0 then 1024 else capacity) 0 0 ∅ ∅ None None None onEvict [] 0 0.

Definition NewLRUCacheWithLimits (capacity maxBytes : Z) (sizeFn : option (K -> V -> Z)) (onEvict : bool)
    : LRUCache :=
  let capacity := if (capacity <=? 0) && (maxBytes <=? 0) then 1024 else capacity in
  mkLRU capacity maxBytes 0 ∅ ∅ None None sizeFn onEvict [] 0 0.

(** Assignments to groups of fields. *)
Definition with_list (c : LRUCache) (heap : gmap ptr cacheElement) (hd tl : option ptr) : LRUCache :=
  mkLRU (lc_capacity c) (lc_maxBytes c) (lc_curBytes c) (lc_items c) heap hd tl
    (lc_sizeFn c) (lc_onEvict c) (lc_evicted c) (lc_hits c) (lc_misses c).
Definition with_items (c : LRUCache) (items : gmap K ptr) (curBytes : Z) : LRUCache :=
  mkLRU (lc_capacity c) (lc_maxBytes c) curBytes items (lc_heap c) (lc_head c) (lc_tail c)
    (lc_sizeFn c) (lc_onEvict c) (lc_evicted c) (lc_hits c) (lc_misses c).
Definition with_hits (c : LRUCache) (hits misses : Z) : LRUCache :=
  mkLRU (lc_capacity c) (lc_maxBytes c) (lc_curBytes c) (lc_items c) (lc_heap c) (lc_head c) (lc_tail c)
    (lc_sizeFn c) (lc_onEvict c) (lc_evicted c) hits misses.
Definition with_limits (c : LRUCache) (capacity maxBytes : Z) : LRUCache :=
  mkLRU capacity maxBytes (lc_curBytes c) (lc_items c) (lc_heap c) (lc_head c) (lc_tail c)
    (lc_sizeFn c) (lc_onEvict c) (lc_evicted c) (lc_hits c) (lc_misses c).

(** A call of the eviction callback, if there is one. *)
Definition call_onEvict (c : LRUCache) (key : K) (value : V) : LRUCache :=
  if lc_onEvict c then
    mkLRU (lc_capacity c) (lc_maxBytes c) (lc_curBytes c) (lc_items c) (lc_heap c) (lc_head c) (lc_tail c)
      (lc_sizeFn c) (lc_onEvict c) (lc_evicted c ++ [(key, value)]) (lc_hits c) (lc_misses c)
  else c.

(** Stores through a pointer. *)
Definition store_prev (heap : gmap ptr cacheElement) (p : ptr) (q : option ptr) : option (gmap ptr cacheElement) :=
  e ← heap !! p; Some (<[p := mkElem (el_key e) (el_value e) (el_size e) q (el_next e)]> heap).
Definition store_next (heap : gmap ptr cacheElement) (p : ptr) (q : option ptr) : option (gmap ptr cacheElement) :=
  e ← heap !! p; Some (<[p := mkElem (el_key e) (el_value e) (el_size e) (el_prev e) q]> heap).
Definition store_value (heap : gmap ptr cacheElement) (p : ptr) (value : V) (size : Z)
    : option (gmap ptr cacheElement) :=
  e ← heap !! p; Some (<[p := mkElem (el_key e) value size (el_prev e) (el_next e)]> heap).

Definition pushFront (c : LRUCache) (elem : ptr) : option LRUCache :=
  heap ← store_prev (lc_heap c) elem None;
  heap ← store_next heap elem (lc_head c);
  heap ← match lc_head c with Some h => store_prev heap h (Some elem) | None => Some heap end;
  Some (with_list c heap (Some elem) (match lc_tail c with None => Some elem | Some t => Some t end)).

Definition removeElement (c : LRUCache) (elem : ptr) : option LRUCache :=
  e ← lc_heap c !! elem;
  '(heap, hd) ← match el_prev e with
    | Some q => heap ← store_next (lc_heap c) q (el_next e); Some (heap, lc_head c)
    | None => Some (lc_heap c, el_next e)
    end;
  e ← heap !! elem;
  '(heap, tl) ← match el_next e with
    | Some q => heap ← store_prev heap q (el_prev e); Some (heap, lc_tail c)
    | None => Some (heap, el_prev e)
    end;
  heap ← store_prev heap elem None;
  heap ← store_next heap elem None;
  Some (with_list c heap hd tl).

Definition moveToFront (c : LRUCache) (elem : ptr) : option LRUCache :=
  if bool_decide (lc_head c = Some elem) then Some c
  else c ← removeElement c elem; pushFront c elem.

Definition LRUCache_Get (c : LRUCache) (key : K) : option (LRUCache * option V) :=
  match lc_items c !! key with
  | None => Some (with_hits c (lc_hits c) (u64 (lc_misses c + 1)), None)
  | Some elem =>
    c ← moveToFront (with_hits c (u64 (lc_hits c + 1)) (lc_misses c)) elem;
    e ← lc_heap c !! elem;
    Some (c, Some (el_value e))
  end.

Definition LRUCache_Peek (c : LRUCache) (key : K) : option (option V) :=
  match lc_items c !! key with
  | None => Some None
  | Some elem => e ← lc_heap c !! elem; Some (Some (el_value e))
  end.

(** The condition of the eviction loop, apart from the tail. *)
Definition excess (capacity maxBytes curBytes len : Z) : bool :=
  ((0 <? capacity) && (capacity <? len)) || ((0 <? maxBytes) && (maxBytes <? curBytes) && (0 <? len)).

Definition Len (c : LRUCache) : Z := Z.of_nat (size (lc_items c)).

(** The eviction loop; each round takes an element out of the list, so there
    are at most as many rounds as items. *)
Fixpoint evict_loop (fuel : nat) (c : LRUCache) : option LRUCache :=
  match lc_tail c with
  | None => Some c
  | Some oldest =>
    if excess (lc_capacity c) (lc_maxBytes c) (lc_curBytes c) (Len c) then
      match fuel with
      | O => None
      | S fuel =>
        c ← removeElement c oldest;
        e ← lc_heap c !! oldest;
        let c := with_items c (delete (el_key e) (lc_items c)) (i64 (lc_curBytes c - el_size e)) in
        evict_loop fuel (call_onEvict c (el_key e) (el_value e))
      end
    else Some c
  end.

Definition evictExcessLocked (c : LRUCache) : option LRUCache := evict_loop (size (lc_items c)) c.

Definition LRUCache_Put (c : LRUCache) (key : K) (value : V) : option LRUCache :=
  let sz := match lc_sizeFn c with Some f => f key value | None => 0 end in
  match lc_items c !! key with
  | Some elem =>
    e ← lc_heap c !! elem;
    let c := call_onEvict c (el_key e) (el_value e) in
    let c := with_items c (lc_items c) (i64 (lc_curBytes c + (sz - el_size e))) in
    heap ← store_value (lc_heap c) elem value sz;
    c ← moveToFront (with_list c heap (lc_head c) (lc_tail c)) elem;
    evictExcessLocked c
  | None =>
    let elem := fresh (dom (lc_heap c)) in
    let heap := <[elem := mkElem key value sz None None]> (lc_heap c) in
    let c := with_items c (<[key := elem]> (lc_items c)) (i64 (lc_curBytes c + sz)) in
    c ← pushFront (with_list c heap (lc_head c) (lc_tail c)) elem;
    evictExcessLocked c
  end.

Definition LRUCache_Remove (c : LRUCache) (key : K) : option LRUCache :=
  match lc_items c !! key with
  | Some elem =>
    c ← removeElement c elem;
    e ← lc_heap c !! elem;
    Some (with_items c (delete key (lc_items c)) (i64 (lc_curBytes c - el_size e)))
  | None => Some c
  end.

Definition LRUCache_Clear (c : LRUCache) : LRUCache :=
  with_items (with_list c (lc_heap c) None None) ∅ 0.

Definition LRUCache_SetLimits (c : LRUCache) (capacity maxBytes : Z) : option LRUCache :=
  evictExcessLocked (with_limits c capacity maxBytes).

Definition LRUCache_ResetStats (c : LRUCache) : LRUCache := with_hits c 0 0.

(** ** The reference: a list of entries, most recent first *)

Record entry : Type := mkEntry { en_key : K; en_value : V; en_size : Z }.

Fixpoint sum_sizes (es : list entry) : Z :=
  match es with [] => 0 | e :: es => en_size e + sum_sizes es end.

Record LruSpec : Type := mkSpec {
  sp_capacity : Z;
  sp_maxBytes : Z;
  sp_entries : list entry;
  sp_evicted : list (K * V);
  sp_hits : Z;
  sp_misses : Z;
}.

Definition over_limit (capacity maxBytes : Z) (es : list entry) : bool :=
  excess capacity maxBytes (i64 (sum_sizes es)) (Z.of_nat (length es)).

(** Entries from the least recent one up, dropped while they exceed the limits:
    what is kept and what was dropped, in the order of dropping. *)
Fixpoint drop_excess (capacity maxBytes : Z) (oldest_first : list entry) : list entry * list entry :=
  match oldest_first with
  | [] => ([], [])
  | e :: es =>
    if over_limit capacity maxBytes (e :: es)
    then let '(kept, dropped) := drop_excess capacity maxBytes es in (kept, e :: dropped)
    else (e :: es, [])
  end.

Definition evictions (onEvict : bool) (es : list entry) : list (K * V) :=
  if onEvict then (fun e => (en_key e, en_value e)) <$> es else [].

Definition spec_evict (onEvict : bool) (s : LruSpec) (es : list entry) (replaced : list entry) : LruSpec :=
  let '(kept, dropped) := drop_excess (sp_capacity s) (sp_maxBytes s) (rev es) in
  mkSpec (sp_capacity s) (sp_maxBytes s) (rev kept)
    (sp_evicted s ++ evictions onEvict (replaced ++ dropped)) (sp_hits s) (sp_misses s).

Definition without (key : K) (es : list entry) : list entry := filter (fun e => en_key e <> key) es.
Definition find_entry (key : K) (es : list entry) : option entry := head (filter (fun e => en_key e = key) es).

Definition spec_get (s : LruSpec) (key : K) : LruSpec * option V :=
  match find_entry key (sp_entries s) with
  | Some e =>
    (mkSpec (sp_capacity s) (sp_maxBytes s) (e :: without key (sp_entries s)) (sp_evicted s)
       (u64 (sp_hits s + 1)) (sp_misses s), Some (en_value e))
  | None =>
    (mkSpec (sp_capacity s) (sp_maxBytes s) (sp_entries s) (sp_evicted s)
       (sp_hits s) (u64 (sp_misses s + 1)), None)
  end.

Definition spec_put (sizeFn : option (K -> V -> Z)) (onEvict : bool) (s : LruSpec) (key : K) (value : V) : LruSpec :=
  let sz := match sizeFn with Some f => f key value | None => 0 end in
  spec_evict onEvict s (mkEntry key value sz :: without key (sp_entries s))
    (filter (fun e => en_key e = key) (sp_entries s)).

Definition spec_with (s : LruSpec) (es : list entry) : LruSpec :=
  mkSpec (sp_capacity s) (sp_maxBytes s) es (sp_evicted s) (sp_hits s) (sp_misses s).

(** ** The list structure in the heap *)

(** The pointers of a run of elements: the first of them, or what follows, and
    the last of them, or what precedes. *)
Definition first_ptr (ns : list (ptr * entry)) (nx : option ptr) : option ptr :=
  match ns with [] => nx | (p, _) :: _ => Some p end.
Fixpoint last_ptr (pr : option ptr) (ns : list (ptr * entry)) : option ptr :=
  match ns with [] => pr | (p, _) :: ns => last_ptr (Some p) ns end.

(** The heap holds the entries of [ns] as a run of linked elements. *)
Fixpoint seg (heap : gmap ptr cacheElement) (pr : option ptr) (ns : list (ptr * entry)) (nx : option ptr) : Prop :=
  match ns with
  | [] => True
  | (p, e) :: ns =>
    heap !! p = Some (mkElem (en_key e) (en_value e) (en_size e) pr (first_ptr ns nx)) /\
    seg heap (Some p) ns nx
  end.

Definition dlist (heap : gmap ptr cacheElement) (hd tl : option ptr) (ns : list (ptr * entry)) : Prop :=
  NoDup (fst <$> ns) /\ seg heap None ns None /\ hd = first_ptr ns None /\ tl = last_ptr None ns.

Definition entries (ns : list (ptr * entry)) : list entry := snd <$> ns.
Definition key_ptr (n : ptr * entry) : K * ptr := (en_key (snd n), fst n).

(** The representation invariant: the linked list holds the elements the map
    names, and the byte count is that of the list. *)
Definition lru_ok (c : LRUCache) (ns : list (ptr * entry)) : Prop :=
  dlist (lc_heap c) (lc_head c) (lc_tail c) ns /\
  map_to_list (lc_items c) ≡ₚ key_ptr <$> ns /\
  lc_curBytes c = i64 (sum_sizes (entries ns)).

Lemma first_ptr_app a b nx : first_ptr (a ++ b) nx = first_ptr a (first_ptr b nx).
Proof. by destruct a as [|[]]. Qed.

Lemma last_ptr_app a b : forall pr, last_ptr pr (a ++ b) = last_ptr (last_ptr pr a) b.
Proof. induction a as [|[p e] a IH]; intros pr; cbn; [done|]. apply IH. Qed.

Lemma seg_app heap a b nx : forall pr,
  seg heap pr (a ++ b) nx <-> seg heap pr a (first_ptr b nx) /\ seg heap (last_ptr pr a) b nx.
Proof.
  induction a as [|[p e] a IH]; intros pr; cbn; [naive_solver|].
  rewrite IH, first_ptr_app. naive_solver.
Qed.

Lemma seg_insert heap q x ns nx : forall pr,
  q ∉ fst <$> ns -> seg heap pr ns nx -> seg (<[q := x]> heap) pr ns nx.
Proof.
  induction ns as [|[p e] ns IH]; intros pr Hq; cbn; [done|]. cbn in Hq. apply not_elem_of_cons in Hq as [Hp Hq].
  intros [HL HS]. split; [by rewrite lookup_insert_ne by done|]. by apply IH.
Qed.

Lemma store_next_last heap q e a pr nx nx' :
  NoDup (fst <$> a ++ [(q, e)]) -> seg heap pr (a ++ [(q, e)]) nx ->
  exists heap', store_next heap q nx' = Some heap' /\ seg heap' pr (a ++ [(q, e)]) nx' /\
    forall p, p <> q -> heap' !! p = heap !! p.
Proof.
  rewrite fmap_app, seg_app. cbn. intros HN [HA [HL _]].
  apply NoDup_app in HN as (_ & HN & _). unfold store_next. rewrite HL. cbn. eexists. split; [done|].
  split; [|intros p Hp; by rewrite lookup_insert_ne]. apply seg_app. cbn. rewrite lookup_insert_eq.
  split; [|done]. apply seg_insert; [|done]. intros Hq. apply (HN q Hq). by left.
Qed.

Lemma store_prev_first heap q e b pr pr' nx :
  NoDup (fst <$> (q, e) :: b) -> seg heap pr ((q, e) :: b) nx ->
  exists heap', store_prev heap q pr' = Some heap' /\ seg heap' pr' ((q, e) :: b) nx /\
    forall p, p <> q -> heap' !! p = heap !! p.
Proof.
  cbn. intros HN [HL HS]. apply NoDup_cons in HN as [Hq HN].
  unfold store_prev. rewrite HL. cbn. eexists. split; [done|]. rewrite lookup_insert_eq.
  split; [|intros p Hp; by rewrite lookup_insert_ne]. split; [done|]. by apply seg_insert.
Qed.

Lemma seg_ext heap heap' ns nx : forall pr,
  (forall p, p ∈ fst <$> ns -> heap' !! p = heap !! p) -> seg heap pr ns nx -> seg heap' pr ns nx.
Proof.
  induction ns as [|[p e] ns IH]; intros pr HE; cbn; [done|]. intros [HL HS]. split.
  - rewrite HE; [done|]. cbn. by left.
  - apply IH; [|done]. intros q Hq. apply HE. by right.
Qed.

Lemma store_prev_eq heap p q e :
  heap !! p = Some e -> store_prev heap p q = Some (<[p := mkElem (el_key e) (el_value e) (el_size e) q (el_next e)]> heap).
Proof. unfold store_prev. by intros ->. Qed.

Lemma store_next_eq heap p q e :
  heap !! p = Some e -> store_next heap p q = Some (<[p := mkElem (el_key e) (el_value e) (el_size e) (el_prev e) q]> heap).
Proof. unfold store_next. by intros ->. Qed.

(** Taking an element out, seen from the elements before it and after it. *)
Lemma unlink_before heap a nx nx' :
  NoDup (fst <$> a) -> seg heap None a nx ->
  exists heap',
    match last_ptr None a with
    | Some q => heap ← store_next heap q nx'; Some (heap, first_ptr a nx)
    | None => Some (heap, nx')
    end = Some (heap', first_ptr a nx') /\
    seg heap' None a nx' /\ forall p, p ∉ fst <$> a -> heap' !! p = heap !! p.
Proof.
  destruct a as [|[q e] a _] using rev_ind; cbn; [by eauto|].
  intros HN HS. rewrite last_ptr_app. cbn.
  destruct (store_next_last heap q e a None nx nx' HN HS) as (heap' & -> & HS' & HE). cbn.
  exists heap'. rewrite !first_ptr_app. cbn. split_and!; [done..|].
  intros p Hp. apply HE. rewrite fmap_app in Hp. set_solver.
Qed.

Lemma unlink_after heap b pr pr' :
  NoDup (fst <$> b) -> seg heap pr b None ->
  exists heap',
    match first_ptr b None with
    | Some q => heap ← store_prev heap q pr'; Some (heap, last_ptr pr b)
    | None => Some (heap, pr')
    end = Some (heap', last_ptr pr' b) /\
    seg heap' pr' b None /\ forall p, p ∉ fst <$> b -> heap' !! p = heap !! p.
Proof.
  destruct b as [|[q e] b]; cbn [first_ptr last_ptr]; [by eauto|]. intros HN HS.
  destruct (store_prev_first heap q e b pr pr' None HN HS) as (heap' & -> & HS' & HE). cbn [mbind option_bind].
  exists heap'. split_and!; [done..|]. intros p Hp. apply HE. cbn in Hp. set_solver.
Qed.

Lemma NoDup_unlink (a b : list (ptr * entry)) p e :
  NoDup (fst <$> a ++ (p, e) :: b) ->
  p ∉ fst <$> a /\ p ∉ fst <$> b /\ NoDup (fst <$> a) /\ NoDup (fst <$> b) /\
  (forall q, q ∈ fst <$> a -> q ∉ fst <$> b) /\ NoDup (fst <$> a ++ b).
Proof.
  rewrite fmap_app. cbn. intros (HA & HD & HB)%NoDup_app. apply NoDup_cons in HB as [Hp HB].
  split_and!; try done.
  - intros Ha. apply (HD p Ha). by left.
  - intros q Hq Hb. apply (HD q Hq). by right.
  - rewrite fmap_app. apply NoDup_app. split_and!; [done| |done]. intros q Hq Hb. apply (HD q Hq). by right.
Qed.

Lemma removeElement_ok c a p e b :
  dlist (lc_heap c) (lc_head c) (lc_tail c) (a ++ (p, e) :: b) ->
  exists heap hd tl, removeElement c p = Some (with_list c heap hd tl) /\ dlist heap hd tl (a ++ b) /\
    heap !! p = Some (mkElem (en_key e) (en_value e) (en_size e) None None).
Proof.
  intros (HN & HS & Hhd & Htl). apply seg_app in HS as [HA HB]. cbn in HB. destruct HB as [HL HB].
  apply NoDup_unlink in HN as (Hpa & Hpb & HNa & HNb & Hab & HNab).
  rewrite first_ptr_app in Hhd. rewrite last_ptr_app in Htl. cbn in Hhd, Htl, HA.
  unfold removeElement. rewrite HL. cbn [mbind option_bind el_prev el_next].
  destruct (unlink_before (lc_heap c) a (Some p) (first_ptr b None) HNa HA) as (heap1 & E1 & HS1 & HE1).
  rewrite <- Hhd in E1. rewrite E1. cbn [mbind option_bind]. rewrite (HE1 p Hpa), HL.
  cbn [mbind option_bind el_prev el_next].
  assert (seg heap1 (Some p) b None) as HB1.
  { eapply seg_ext; [|exact HB]. intros q Hq. apply HE1. intros Ha. by apply (Hab q). }
  destruct (unlink_after heap1 b (Some p) (last_ptr None a) HNb HB1) as (heap2 & E2 & HS2 & HE2).
  rewrite <- Htl in E2. rewrite E2. cbn [mbind option_bind].
  unfold store_prev at 1. rewrite (HE2 p Hpb), (HE1 p Hpa), HL. cbn [mbind option_bind el_key el_value el_size el_next].
  unfold store_next. rewrite lookup_insert_eq. cbn [mbind option_bind el_key el_value el_size el_prev].
  do 3 eexists. split; [done|]. rewrite lookup_insert_eq. split; [|done].
  split; [done|]. rewrite first_ptr_app, last_ptr_app. split; [|done].
  do 2 (apply seg_insert; [rewrite fmap_app; set_solver|]). apply seg_app. split; [|done].
  eapply seg_ext; [|exact HS1]. intros q Hq. apply HE2. by apply Hab.
Qed.

Lemma pushFront_ok c p e ns pr nx :
  dlist (lc_heap c) (lc_head c) (lc_tail c) ns -> p ∉ fst <$> ns ->
  lc_heap c !! p = Some (mkElem (en_key e) (en_value e) (en_size e) pr nx) ->
  exists heap hd tl, pushFront c p = Some (with_list c heap hd tl) /\ dlist heap hd tl ((p, e) :: ns).
Proof.
  intros (HN & HS & Hhd & Htl) Hp HL. unfold pushFront.
  rewrite (store_prev_eq _ _ _ _ HL). cbn [mbind option_bind el_key el_value el_size el_next].
  rewrite (store_next_eq _ _ _ _ (lookup_insert_eq _ _ _)). cbn [mbind option_bind el_key el_value el_size el_prev].
  rewrite insert_insert_eq.
  set (heap1 := <[p := _]> (lc_heap c)).
  assert (heap1 !! p = Some (mkElem (en_key e) (en_value e) (en_size e) None (lc_head c))) as HL1
    by apply lookup_insert_eq.
  assert (seg heap1 None ns None) as HS1 by (by apply seg_insert).
  clearbody heap1. rewrite Hhd, Htl in *. destruct ns as [|[q f] ns]; cbn [first_ptr].
  - cbn. do 3 eexists. split; [done|]. split; [cbn; constructor; [set_solver|done]|]. by cbn.
  - destruct (store_prev_first heap1 q f ns None (Some p) None HN HS1) as (heap2 & -> & HS2 & HE).
    cbn [mbind option_bind last_ptr]. do 3 eexists. split; [done|].
    split; [cbn in *; by constructor|]. split; [|split; [done|]].
    + cbn [seg first_ptr]. rewrite HE by (cbn in Hp; set_solver). done.
    + cbn. clear. generalize q. induction ns as [|[r g] ns IH]; intros q'; cbn; [done|]. apply IH.
Qed.

Lemma moveToFront_ok c a p e b :
  dlist (lc_heap c) (lc_head c) (lc_tail c) (a ++ (p, e) :: b) ->
  exists heap hd tl, moveToFront c p = Some (with_list c heap hd tl) /\ dlist heap hd tl ((p, e) :: a ++ b).
Proof.
  intros HD. unfold moveToFront. case_bool_decide as E.
  - destruct HD as (HN & HS & Hhd & Htl). destruct a as [|[q f] a].
    + exists (lc_heap c), (lc_head c), (lc_tail c). split; [by destruct c|]. by split_and!.
    + exfalso. rewrite Hhd in E. injection E as ->. cbn in HN. apply NoDup_cons in HN as [HN _].
      apply HN. rewrite fmap_app. set_solver.
  - destruct (removeElement_ok c a p e b HD) as (h & hd & tl & -> & HD1 & HL). cbn [mbind option_bind].
    destruct HD as (HN & _). apply NoDup_unlink in HN as (Hpa & Hpb & _).
    apply (pushFront_ok (with_list c h hd tl) p e (a ++ b) None None HD1); [|done].
    rewrite fmap_app. set_solver.
Qed.

(** ** The map and the list name the same elements *)

Lemma entries_app a b : entries (a ++ b) = entries a ++ entries b.
Proof. apply fmap_app. Qed.

Lemma entries_cons p e ns : entries ((p, e) :: ns) = e :: entries ns.
Proof. done. Qed.

Lemma sum_sizes_app a b : sum_sizes (a ++ b) = sum_sizes a + sum_sizes b.
Proof. induction a as [|e a IH]; cbn; [done|]. rewrite IH. lia. Qed.

Lemma sum_sizes_rev es : sum_sizes (rev es) = sum_sizes es.
Proof. induction es as [|e es IH]; cbn; [done|]. rewrite sum_sizes_app, IH. cbn. lia. Qed.

Lemma lru_keys_NoDup c ns : lru_ok c ns -> NoDup (en_key <$> entries ns).
Proof.
  intros (_ & HP & _). pose proof (NoDup_fst_map_to_list (lc_items c)) as HN. rewrite HP in HN.
  unfold entries. rewrite <- list_fmap_compose. by rewrite <- (list_fmap_compose key_ptr fst) in HN.
Qed.

Lemma lru_Len c ns : lru_ok c ns -> Len c = Z.of_nat (length (entries ns)).
Proof.
  intros (_ & HP & _). unfold Len, entries.
  rewrite <- length_map_to_list, HP, !length_fmap. done.
Qed.

Lemma filter_key_split k (a : list entry) e b :
  NoDup (en_key <$> a ++ e :: b) -> en_key e = k ->
  without k (a ++ e :: b) = a ++ b /\ filter (fun e => en_key e = k) (a ++ e :: b) = [e].
Proof.
  rewrite fmap_app. cbn. intros (_ & HD & HB)%NoDup_app <-. apply NoDup_cons in HB as [HB _].
  assert (forall x, x ∈ a -> en_key x <> en_key e) as Ha.
  { intros x Hx E. apply (HD (en_key e)); [|by left]. rewrite <- E. by apply list_elem_of_fmap_2. }
  assert (forall x, x ∈ b -> en_key x <> en_key e) as Hb.
  { intros x Hx E. apply HB. rewrite <- E. by apply list_elem_of_fmap_2. }
  unfold without. rewrite !filter_app, !filter_cons_False, !filter_cons_True by naive_solver.
  rewrite !(filter_all (fun x => en_key x <> _)), !(filter_none (fun x => en_key x = _)) by done. done.
Qed.

(** What a lookup in the map says of the list. *)
Lemma lru_lookup c ns k :
  lru_ok c ns ->
  match lc_items c !! k with
  | Some p => exists a e b, ns = a ++ (p, e) :: b /\ en_key e = k /\
      without k (entries ns) = entries (a ++ b) /\ filter (fun e => en_key e = k) (entries ns) = [e]
  | None => without k (entries ns) = entries ns /\ filter (fun e => en_key e = k) (entries ns) = []
  end.
Proof.
  intros HO. pose proof (lru_keys_NoDup _ _ HO) as HN. destruct HO as (_ & HP & _).
  destruct (lc_items c !! k) as [p|] eqn:E.
  - apply elem_of_map_to_list in E. rewrite HP in E. apply list_elem_of_fmap in E as ([p' e] & [= -> ->] & Hin).
    apply list_elem_of_split in Hin as (a & b & ->). exists a, e, b. rewrite entries_app in HN |- *. cbn in HN |- *.
    destruct (filter_key_split (en_key e) (entries a) e (entries b) HN eq_refl) as [HW HF].
    rewrite entries_app. by split_and!.
  - assert (forall x, x ∈ entries ns -> en_key x <> k) as Hk.
    { intros x Hx Ek. apply list_elem_of_fmap in Hx as ([p e] & -> & Hin).
      assert ((k, p) ∈ map_to_list (lc_items c)) as Hm.
      { rewrite HP. apply list_elem_of_fmap. exists (p, e). split; [|done]. by rewrite <- Ek. }
      apply elem_of_map_to_list in Hm. congruence. }
    split; [by apply filter_all|]. by apply filter_none.
Qed.

(** Taking an element out of the map as well. *)
Lemma items_delete (m : gmap K ptr) a p e b :
  map_to_list m ≡ₚ key_ptr <$> a ++ (p, e) :: b -> map_to_list (delete (en_key e) m) ≡ₚ key_ptr <$> a ++ b.
Proof.
  intros HP. assert (m !! en_key e = Some p) as HL.
  { apply elem_of_map_to_list. rewrite HP. apply list_elem_of_fmap. exists (p, e). split; [done|]. set_solver. }
  apply (map_to_list_delete m) in HL. apply (Permutation_cons_inv (a := (en_key e, p))).
  rewrite HL, HP, !fmap_app. cbn. by rewrite Permutation_middle.
Qed.

Lemma items_move (m : gmap K ptr) a p e b :
  map_to_list m ≡ₚ key_ptr <$> a ++ (p, e) :: b -> map_to_list m ≡ₚ key_ptr <$> (p, e) :: a ++ b.
Proof. intros ->. by rewrite Permutation_middle. Qed.

Lemma bytes_remove a (e : entry) b cur :
  cur = i64 (sum_sizes (a ++ e :: b)) -> i64 (cur - en_size e) = i64 (sum_sizes (a ++ b)).
Proof. intros ->. unfold Z.sub. rewrite i64_add_l. f_equal. rewrite !sum_sizes_app. cbn. lia. Qed.

(** ** Eviction *)

(** The fields the list operations leave alone. *)
Definition same_config (c c' : LRUCache) : Prop :=
  lc_capacity c' = lc_capacity c /\ lc_maxBytes c' = lc_maxBytes c /\ lc_sizeFn c' = lc_sizeFn c /\
  lc_onEvict c' = lc_onEvict c /\ lc_hits c' = lc_hits c /\ lc_misses c' = lc_misses c.

Lemma call_onEvict_fields c k v :
  let c' := call_onEvict c k v in
  lc_heap c' = lc_heap c /\ lc_head c' = lc_head c /\ lc_tail c' = lc_tail c /\ lc_items c' = lc_items c /\
  lc_curBytes c' = lc_curBytes c /\ same_config c c' /\
  lc_evicted c' = lc_evicted c ++ (if lc_onEvict c then [(k, v)] else []).
Proof.
  unfold call_onEvict, same_config. destruct (lc_onEvict c) eqn:E; cbn; rewrite ?E, ?app_nil_r; by split_and!.
Qed.

Lemma lru_ok_fields c c' ns :
  lc_heap c' = lc_heap c -> lc_head c' = lc_head c -> lc_tail c' = lc_tail c -> lc_items c' = lc_items c ->
  lc_curBytes c' = lc_curBytes c -> lru_ok c ns -> lru_ok c' ns.
Proof. unfold lru_ok. by intros -> -> -> -> ->. Qed.

Lemma evictions_cons b e es : evictions b (e :: es) = (if b then [(en_key e, en_value e)] else []) ++ evictions b es.
Proof. by destruct b. Qed.

Lemma evict_loop_ok ns : forall fuel c kept dropped,
  lru_ok c ns -> (length ns <= fuel)%nat ->
  drop_excess (lc_capacity c) (lc_maxBytes c) (rev (entries ns)) = (kept, dropped) ->
  exists c' ns', evict_loop fuel c = Some c' /\ lru_ok c' ns' /\ entries ns' = rev kept /\
    same_config c c' /\ lc_evicted c' = lc_evicted c ++ evictions (lc_onEvict c) dropped.
Proof.
  induction ns as [|[p e] ns IH] using rev_ind; intros fuel c kept dropped HO HF HD.
  - cbn in HD. injection HD as <- <-. exists c, []. pose proof HO as ((_ & _ & _ & Ht) & _). cbn in Ht.
    split; [destruct fuel; cbn; by rewrite Ht|]. unfold same_config. split_and!; try done.
    unfold evictions. destruct (lc_onEvict c); by rewrite app_nil_r.
  - pose proof HO as (HL0 & HP & HB). pose proof HL0 as (_ & _ & _ & Ht). rewrite last_ptr_app in Ht. cbn in Ht.
    rewrite length_app in HF. cbn in HF. destruct fuel as [|fuel]; [lia|].
    pose proof (lru_Len _ _ HO) as HLen. cbn [evict_loop]. rewrite Ht.
    rewrite entries_app, rev_app_distr in HD. cbn [rev app entries fmap list_fmap snd] in HD.
    cbn [drop_excess] in HD.
    assert (over_limit (lc_capacity c) (lc_maxBytes c) (e :: rev (entries ns)) =
            excess (lc_capacity c) (lc_maxBytes c) (lc_curBytes c) (Len c)) as HX.
    { unfold over_limit. rewrite HB, HLen, !entries_app. rewrite sum_sizes_app. cbn [length sum_sizes].
      rewrite sum_sizes_rev, length_rev, length_app. cbn [length entries fmap list_fmap sum_sizes snd].
      f_equal; [f_equal|]; lia. }
    rewrite HX in HD. destruct (excess _ _ _ _) eqn:EX.
    + destruct (drop_excess _ _ (rev (entries ns))) as [kept' dropped'] eqn:EK. injection HD as <- <-.
      destruct (removeElement_ok c ns p e [] HL0)
        as (heap & hd & tl & -> & HD' & HL). rewrite app_nil_r in HD'.
      cbn [mbind option_bind lc_heap with_list]. rewrite HL. cbn [mbind option_bind el_key el_size el_value].
      set (c1 := with_items _ _ _).
      destruct (call_onEvict_fields c1 (en_key e) (en_value e)) as (F1 & F2 & F3 & F4 & F5 & F6 & F7).
      destruct (IH fuel (call_onEvict c1 (en_key e) (en_value e)) kept' dropped') as (c' & ns' & E' & HO' & HE' & HC' & HV').
      * apply (lru_ok_fields c1); [done..|]. split_and!; cbn; [done| |].
        -- rewrite <- (app_nil_r ns). apply (items_delete _ ns p e []). done.
        -- rewrite <- (app_nil_r (entries ns)). apply (bytes_remove (entries ns) e []). by rewrite HB, entries_app.
      * lia.
      * destruct F6 as (-> & -> & _). done.
      * exists c', ns'. split; [done|]. unfold same_config in *. rewrite HV', F7.
        destruct F6 as (? & ? & ? & Eon & ? & ?). rewrite evictions_cons, <- app_assoc, Eon. cbn in *.
        destruct_and!. split_and!; congruence.
    + injection HD as <- <-. exists c, (ns ++ [(p, e)]). unfold same_config. split_and!; try done.
      * rewrite entries_app. cbn. by rewrite rev_involutive.
      * unfold evictions. destruct (lc_onEvict c); by rewrite app_nil_r.
Qed.

(** ** Each operation against the reference *)

Definition abs (c : LRUCache) (ns : list (ptr * entry)) : LruSpec :=
  mkSpec (lc_capacity c) (lc_maxBytes c) (entries ns) (lc_evicted c) (lc_hits c) (lc_misses c).

(** [c'] represents the reference state [s] and has the callbacks of [c]. *)
Definition implements (c c' : LRUCache) (s : LruSpec) : Prop :=
  exists ns, lru_ok c' ns /\ abs c' ns = s /\ lc_sizeFn c' = lc_sizeFn c /\ lc_onEvict c' = lc_onEvict c.

Lemma evict_refines c ns replaced ev :
  lru_ok c ns -> lc_evicted c = ev ++ evictions (lc_onEvict c) replaced ->
  exists c', evictExcessLocked c = Some c' /\
    implements c c' (spec_evict (lc_onEvict c)
      (mkSpec (lc_capacity c) (lc_maxBytes c) [] ev (lc_hits c) (lc_misses c)) (entries ns) replaced).
Proof.
  intros HO HE. unfold evictExcessLocked, spec_evict. cbn [sp_capacity sp_maxBytes sp_hits sp_misses sp_evicted].
  destruct (drop_excess _ _ _) as [kept dropped] eqn:ED.
  destruct (evict_loop_ok ns (size (lc_items c)) c kept dropped HO) as (c' & ns' & -> & HO' & HK & HC & HV); [|done|].
  { pose proof (lru_Len _ _ HO) as HL. unfold Len, entries in HL. rewrite length_fmap in HL. lia. }
  exists c'. split; [done|]. exists ns'. destruct HC as (E1 & E2 & E3 & E4 & E5 & E6).
  split; [done|]. split; [|done]. unfold abs. rewrite HV, HE, E1, E2, E5, E6, HK. f_equal.
  rewrite <- app_assoc. f_equal. unfold evictions. destruct (lc_onEvict c); [|done]. by rewrite fmap_app.
Qed.

Lemma Get_refines c ns k :
  lru_ok c ns ->
  exists c', LRUCache_Get c k = Some (c', snd (spec_get (abs c ns) k)) /\
    implements c c' (fst (spec_get (abs c ns) k)).
Proof.
  intros HO. pose proof (lru_lookup c ns k HO) as HL. unfold LRUCache_Get, spec_get, find_entry. cbn [sp_entries abs].
  destruct (lc_items c !! k) as [p|].
  - destruct HL as (a & e & b & -> & Ek & HW & HF). rewrite HF, HW. cbn [head fst snd].
    set (c1 := with_hits c _ _). destruct HO as (HD & HP & HB).
    destruct (moveToFront_ok c1 a p e b HD) as (h & hd & tl & -> & HD'). cbn [mbind option_bind lc_heap with_list].
    pose proof HD' as (_ & [HLp _] & _). rewrite HLp. cbn [mbind option_bind el_value].
    eexists. split; [done|]. exists ((p, e) :: a ++ b). split_and!; try done.
    split_and!; [done|by apply items_move|]. cbn. rewrite HB. f_equal.
    rewrite ?entries_app, ?entries_cons, ?entries_app; cbn [sum_sizes]; rewrite !sum_sizes_app; cbn [sum_sizes en_size]; lia.
  - destruct HL as [HW HF]. rewrite HF. cbn [head fst snd]. eexists. split; [done|]. by exists ns.
Qed.

Lemma dlist_store_value heap hd tl a p e b v sz pr nx :
  dlist heap hd tl (a ++ (p, e) :: b) ->
  heap !! p = Some (mkElem (en_key e) (en_value e) (en_size e) pr nx) ->
  dlist (<[p := mkElem (en_key e) v sz pr nx]> heap) hd tl (a ++ (p, mkEntry (en_key e) v sz) :: b).
Proof.
  intros (HN & HS & Hh & Ht) HL. split; [by rewrite fmap_app in *|]. rewrite first_ptr_app, last_ptr_app in *.
  split; [|done]. apply NoDup_unlink in HN as (Hpa & Hpb & _). apply seg_app in HS as [HSa [HLp HSb]].
  rewrite HLp in HL. injection HL as <- <-. apply seg_app. cbn. rewrite lookup_insert_eq.
  split_and!; [by apply seg_insert|done|by apply seg_insert].
Qed.

Lemma dlist_notin heap hd tl ns p : dlist heap hd tl ns -> heap !! p = None -> p ∉ fst <$> ns.
Proof.
  intros (_ & HS & _) Hp Hin. apply list_elem_of_fmap in Hin as ([q e] & -> & Hin).
  apply list_elem_of_split in Hin as (a & b & ->). apply seg_app in HS as [_ [HLq _]]. cbn in *. congruence.
Qed.

Lemma Put_refines c ns k v :
  lru_ok c ns ->
  exists c', LRUCache_Put c k v = Some c' /\
    implements c c' (spec_put (lc_sizeFn c) (lc_onEvict c) (abs c ns) k v).
Proof.
  intros HO. pose proof (lru_lookup c ns k HO) as HL. unfold LRUCache_Put, spec_put. cbn [sp_entries abs].
  set (sz := match lc_sizeFn c with Some f => f k v | None => 0 end).
  pose proof HO as (HD & HP & HB). destruct (lc_items c !! k) as [p|] eqn:EI.
  - destruct HL as (a & e & b & -> & Ek & HW & HF). rewrite HF, HW.
    pose proof HD as (_ & [_ [HLp _]]%seg_app & _). rewrite HLp.
    cbn [mbind option_bind el_key el_value el_size].
    destruct (call_onEvict_fields c (en_key e) (en_value e)) as (F1 & F2 & F3 & F4 & F5 & F6 & F7).
    set (c1 := call_onEvict _ _ _) in *. unfold store_value. cbn [lc_heap with_items]. rewrite F1, HLp.
    cbn [mbind option_bind el_key el_prev el_next lc_head lc_tail with_items].
    set (c2 := with_list _ _ _ _).
    destruct (moveToFront_ok c2 a p (mkEntry k v sz) b) as (h & hd & tl & -> & HD').
    { subst k. cbn. rewrite F2, F3. by eapply dlist_store_value. }
    cbn [mbind option_bind]. destruct F6 as (G1 & G2 & G3 & G4 & G5 & G6).
    destruct (evict_refines (with_list c2 h hd tl) ((p, mkEntry k v sz) :: a ++ b) [e] (lc_evicted c)) as (c' & HE & ns' & HO' & HA' & HS' & HV').
    + split_and!; cbn; [done| |].
      * rewrite F4, HP. rewrite fmap_app. cbn. unfold key_ptr at 2. cbn. rewrite Ek, <- Permutation_middle.
        by rewrite fmap_app.
      * rewrite F5, HB, i64_add_l. f_equal. rewrite ?entries_app, ?entries_cons, ?entries_app; cbn [sum_sizes]; rewrite !sum_sizes_app; cbn [sum_sizes en_size]; lia.
    + cbn. rewrite F7, G4. done.
    + exists c'. split; [done|]. exists ns'. split; [done|]. cbn in HA', HS', HV'.
      rewrite HA', HS', HV', G1, G2, G3, G4, G5, G6. done.
  - destruct HL as [HW HF]. rewrite HF, HW. set (p := fresh (dom (lc_heap c))).
    assert (lc_heap c !! p = None) as Hp by (apply not_elem_of_dom, is_fresh).
    pose proof (dlist_notin _ _ _ _ p HD Hp) as Hpn.
    set (c1 := with_list _ _ _ _).
    destruct (pushFront_ok c1 p (mkEntry k v sz) ns None None) as (h & hd & tl & -> & HD'); [|done| |].
    { destruct HD as (HN & HS & Hh & Ht). split_and!; try done. by apply seg_insert. }
    { cbn. by rewrite lookup_insert_eq. }
    cbn [mbind option_bind].
    apply (evict_refines (with_list c1 h hd tl) ((p, mkEntry k v sz) :: ns) [] (lc_evicted c)).
    + split_and!; cbn; [done| |].
      * rewrite map_to_list_insert by done. cbn. by rewrite HP.
      * rewrite HB, i64_add_l. f_equal. unfold entries. lia.
    + cbn. unfold evictions. destruct (lc_onEvict c); by rewrite app_nil_r.
Qed.

Lemma Remove_refines c ns k :
  lru_ok c ns ->
  exists c', LRUCache_Remove c k = Some c' /\
    implements c c' (spec_with (abs c ns) (without k (entries ns))).
Proof.
  intros HO. pose proof (lru_lookup c ns k HO) as HL. unfold LRUCache_Remove.
  pose proof HO as (HD & HP & HB). destruct (lc_items c !! k) as [p|] eqn:EI.
  - destruct HL as (a & e & b & -> & Ek & HW & HF). rewrite HW.
    destruct (removeElement_ok c a p e b HD) as (h & hd & tl & -> & HD' & HLp).
    cbn [mbind option_bind lc_heap with_list]. rewrite HLp. cbn [mbind option_bind el_size].
    eexists. split; [done|]. exists (a ++ b). split_and!; try done. split_and!; cbn; [done| |].
    + rewrite <- Ek. by eapply items_delete.
    + rewrite HB, !entries_app. cbn. by apply bytes_remove.
  - destruct HL as [HW _]. rewrite HW. exists c. split; [done|]. by exists ns.
Qed.

Lemma Clear_refines c ns : lru_ok c ns -> implements c (LRUCache_Clear c) (spec_with (abs c ns) []).
Proof. intros HO. exists []. split_and!; try done. split_and!; try done. split_and!; try done. constructor. Qed.

Lemma Peek_refines c ns k :
  lru_ok c ns -> LRUCache_Peek c k = Some (en_value <$> find_entry k (entries ns)).
Proof.
  intros HO. pose proof (lru_lookup c ns k HO) as HL. unfold LRUCache_Peek, find_entry.
  destruct (lc_items c !! k) as [p|].
  - destruct HL as (a & e & b & -> & Ek & _ & HF). rewrite HF. destruct HO as ((_ & HS & _) & _).
    apply seg_app in HS as [_ [HLp _]]. by rewrite HLp.
  - destruct HL as [_ HF]. by rewrite HF.
Qed.

(** ** Sequences of operations *)

Inductive lru_op : Type :=
| OpGet (key : K)
| OpPeek (key : K)
| OpPut (key : K) (value : V)
| OpRemove (key : K)
| OpClear
| OpSetLimits (capacity maxBytes : Z)
| OpResetStats.

Definition exec_op (c : LRUCache) (op : lru_op) : option (LRUCache * option V) :=
  match op with
  | OpGet k => LRUCache_Get c k
  | OpPeek k => v ← LRUCache_Peek c k; Some (c, v)
  | OpPut k v => c ← LRUCache_Put c k v; Some (c, None)
  | OpRemove k => c ← LRUCache_Remove c k; Some (c, None)
  | OpClear => Some (LRUCache_Clear c, None)
  | OpSetLimits n b => c ← LRUCache_SetLimits c n b; Some (c, None)
  | OpResetStats => Some (LRUCache_ResetStats c, None)
  end.

Fixpoint exec_ops (c : LRUCache) (ops : list lru_op) : option (LRUCache * list (option V)) :=
  match ops with
  | [] => Some (c, [])
  | op :: ops =>
    '(c, v) ← exec_op c op;
    '(c, vs) ← exec_ops c ops;
    Some (c, v :: vs)
  end.

Definition spec_op (sizeFn : option (K -> V -> Z)) (onEvict : bool) (s : LruSpec) (op : lru_op) : LruSpec * option V :=
  match op with
  | OpGet k => spec_get s k
  | OpPeek k => (s, en_value <$> find_entry k (sp_entries s))
  | OpPut k v => (spec_put sizeFn onEvict s k v, None)
  | OpRemove k => (spec_with s (without k (sp_entries s)), None)
  | OpClear => (spec_with s [], None)
  | OpSetLimits n b =>
    (spec_evict onEvict (mkSpec n b [] (sp_evicted s) (sp_hits s) (sp_misses s)) (sp_entries s) [], None)
  | OpResetStats => (mkSpec (sp_capacity s) (sp_maxBytes s) (sp_entries s) (sp_evicted s) 0 0, None)
  end.

Fixpoint spec_ops (sizeFn : option (K -> V -> Z)) (onEvict : bool) (s : LruSpec) (ops : list lru_op)
    : LruSpec * list (option V) :=
  match ops with
  | [] => (s, [])
  | op :: ops =>
    let '(s, v) := spec_op sizeFn onEvict s op in
    let '(s, vs) := spec_ops sizeFn onEvict s ops in
    (s, v :: vs)
  end.

Definition spec_new (capacity maxBytes : Z) : LruSpec :=
  mkSpec (if (capacity <=? 0) && (maxBytes <=? 0) then 1024 else capacity) maxBytes [] [] 0 0.

Lemma exec_op_refines c ns op :
  lru_ok c ns ->
  exists c', exec_op c op = Some (c', snd (spec_op (lc_sizeFn c) (lc_onEvict c) (abs c ns) op)) /\
    implements c c' (fst (spec_op (lc_sizeFn c) (lc_onEvict c) (abs c ns) op)).
Proof.
  intros HO. destruct op; cbn [exec_op spec_op fst snd].
  - by apply Get_refines.
  - rewrite (Peek_refines c ns) by done. eexists. split; [done|]. by exists ns.
  - destruct (Put_refines c ns key value HO) as (c' & -> & HI). by exists c'.
  - destruct (Remove_refines c ns key HO) as (c' & -> & HI). by exists c'.
  - eexists. split; [done|]. by apply Clear_refines.
  - unfold LRUCache_SetLimits.
    destruct (evict_refines (with_limits c capacity maxBytes) ns [] (lc_evicted c)) as (c' & -> & HI); [done| |by exists c'].
    cbn. unfold evictions. destruct (lc_onEvict c); by rewrite app_nil_r.
  - eexists. split; [done|]. by exists ns.
Qed.

Lemma exec_ops_refines ops : forall c ns,
  lru_ok c ns ->
  exists c', exec_ops c ops = Some (c', snd (spec_ops (lc_sizeFn c) (lc_onEvict c) (abs c ns) ops)) /\
    implements c c' (fst (spec_ops (lc_sizeFn c) (lc_onEvict c) (abs c ns) ops)).
Proof.
  induction ops as [|op ops IH]; intros c ns HO; cbn [exec_ops spec_ops].
  { exists c. split; [done|]. by exists ns. }
  destruct (exec_op_refines c ns op HO) as (c1 & -> & ns1 & HO1 & HA1 & HS1 & HE1). cbn [mbind option_bind].
  destruct (IH c1 ns1 HO1) as (c2 & -> & ns2 & HO2 & HA2 & HS2 & HE2).
  rewrite HA1, HS1, HE1 in *. cbn [mbind option_bind].
  destruct (spec_op _ _ _ op) as [s v] eqn:E1. cbn [fst snd] in *.
  destruct (spec_ops _ _ s ops) as [s' vs] eqn:E2. cbn [fst snd] in *.
  exists c2. split; [done|]. exists ns2. split_and!; congruence.
Qed.

Lemma New_ok capacity maxBytes sizeFn onEvict :
  lru_ok (NewLRUCacheWithLimits capacity maxBytes sizeFn onEvict) [].
Proof. split_and!; try done. split_and!; try done. constructor. Qed.

(** ** Limits *)

Lemma drop_excess_split cap max r kept dropped :
  drop_excess cap max r = (kept, dropped) ->
  r = dropped ++ kept /\ (kept <> [] -> over_limit cap max kept = false) /\
  forall r1 r2, r = r1 ++ r2 -> (length kept < length r2)%nat -> over_limit cap max r2 = true.
Proof.
  revert kept dropped. induction r as [|e r IH]; intros kept dropped; cbn [drop_excess].
  { intros [= <- <-]. split_and!; try done. intros r1 r2 E HL. destruct r1, r2; cbn in *; [lia|done..]. }
  destruct (over_limit cap max (e :: r)) eqn:EO.
  - destruct (drop_excess cap max r) as [k d] eqn:ED. intros [= <- <-].
    destruct (IH _ _ eq_refl) as (-> & HK & HM). split_and!; [done..|].
    intros r1 r2 E HL. destruct r1 as [|x r1]; cbn in E; [by rewrite <- E|].
    injection E as <- E. by apply (HM r1).
  - intros [= <- <-]. split_and!; try done. intros r1 r2 E HL. exfalso.
    apply (f_equal length) in E. rewrite length_app in E. lia.
Qed.

Lemma over_limit_rev cap max es : over_limit cap max (rev es) = over_limit cap max es.
Proof. unfold over_limit. by rewrite sum_sizes_rev, length_rev. Qed.

(** Sizes small enough not to overflow the byte count over [n] insertions. *)
Definition small_sizes (es : list entry) : Prop := Forall (fun e => 0 <= en_size e < 2 ^ 31) es.

Definition within (s : LruSpec) (n : Z) : Prop :=
  small_sizes (sp_entries s) /\ Z.of_nat (length (sp_entries s)) <= n /\
  (0 < sp_capacity s -> Z.of_nat (length (sp_entries s)) <= sp_capacity s) /\
  (0 < sp_maxBytes s -> sum_sizes (sp_entries s) <= sp_maxBytes s).

Lemma sum_sizes_bound es :
  small_sizes es -> 0 <= sum_sizes es <= Z.of_nat (length es) * 2 ^ 31.
Proof.
  induction es as [|e es IH]; intros HS; [done|]. inversion HS as [|? ? He Hes]; subst.
  specialize (IH Hes). cbn [sum_sizes length]. lia.
Qed.

Lemma without_le k es :
  small_sizes es -> small_sizes (without k es) /\ (length (without k es) <= length es)%nat /\
  sum_sizes (without k es) <= sum_sizes es.
Proof.
  induction es as [|e es IH]; intros HS; [done|]. inversion HS as [|? ? He Hes]; subst.
  destruct (IH Hes) as (H1 & H2 & H3). unfold without in *. rewrite filter_cons.
  destruct (decide _); cbn [length sum_sizes]; (split_and!; [|lia|lia]); [by constructor|done].
Qed.

Lemma over_limit_false cap max es n :
  over_limit cap max es = false -> es <> [] -> small_sizes es -> Z.of_nat (length es) <= n -> n <= 2 ^ 31 ->
  (0 < cap -> Z.of_nat (length es) <= cap) /\ (0 < max -> sum_sizes es <= max).
Proof.
  intros HO HE HS HL HN. pose proof (sum_sizes_bound es HS). unfold over_limit, excess in HO.
  rewrite i64_small in HO by lia. destruct es as [|e es]; [done|]. cbn [length] in *.
  apply orb_false_iff in HO as [H1 H2]. rewrite andb_false_iff, !Z.ltb_ge in H1. rewrite !andb_false_iff, !Z.ltb_ge in H2. split; lia.
Qed.

Lemma spec_evict_within onEvict s es replaced n :
  small_sizes es -> Z.of_nat (length es) <= n -> n <= 2 ^ 31 -> within (spec_evict onEvict s es replaced) n.
Proof.
  intros HS HL HN. unfold spec_evict. destruct (drop_excess _ _ _) as [kept dropped] eqn:ED.
  apply drop_excess_split in ED as (HR & HK & _).
  assert (small_sizes (rev kept) /\ Z.of_nat (length (rev kept)) <= n) as [HS' HL'].
  { apply (f_equal (@rev entry)) in HR. rewrite rev_involutive, rev_app_distr in HR. subst es.
    apply Forall_app in HS as [HS _]. rewrite length_app in HL. split; [done|lia]. }
  split_and!; cbn; try done; destruct (decide (rev kept = [])) as [->|HE]; cbn; try lia;
    (eapply over_limit_false; [rewrite over_limit_rev; apply HK|..]; try done; by intros ->).
Qed.

Lemma find_entry_without k es e :
  find_entry k es = Some e -> small_sizes es -> NoDup (en_key <$> es) ->
  es ≡ₚ e :: without k es.
Proof.
  unfold find_entry. intros HF _ HN.
  destruct (filter (fun e => en_key e = k) es) as [|x l] eqn:E; [done|]. injection HF as ->.
  assert (e ∈ filter (fun e => en_key e = k) es) as Hin by (rewrite E; by left).
  apply list_elem_of_filter in Hin as [Hk Hin]. apply list_elem_of_split in Hin as (a & b & ->).
  destruct (filter_key_split k a e b HN Hk) as [-> _]. by rewrite Permutation_middle.
Qed.

Lemma sum_sizes_perm a b : a ≡ₚ b -> sum_sizes a = sum_sizes b.
Proof. induction 1; cbn [sum_sizes]; lia. Qed.

Lemma within_perm s s' n :
  sp_entries s ≡ₚ sp_entries s' -> sp_capacity s' = sp_capacity s -> sp_maxBytes s' = sp_maxBytes s ->
  within s n -> within s' n.
Proof.
  intros HP HC HM (H1 & H2 & H3 & H4). unfold within. rewrite HC, HM.
  rewrite <- (sum_sizes_perm _ _ HP), <- (Permutation_length HP). split_and!; try done.
  by apply (Permutation_Forall HP).
Qed.

Lemma within_le s n m : within s n -> n <= m -> within s m.
Proof. intros (H1 & H2 & H3 & H4) HL. split_and!; try done. lia. Qed.

Lemma spec_op_within sizeFn onEvict c ns op n :
  (forall k v f, sizeFn = Some f -> 0 <= f k v < 2 ^ 31) -> n < 2 ^ 31 -> lru_ok c ns -> within (abs c ns) n ->
  within (fst (spec_op sizeFn onEvict (abs c ns) op)) (n + 1).
Proof.
  intros HF HN HO HW. pose proof (lru_keys_NoDup _ _ HO) as HK. pose proof HW as (H1 & H2 & H3 & H4).
  cbn in H1, H2, H3, H4. destruct op; cbn [spec_op fst].
  - unfold spec_get. cbn [sp_entries abs]. apply (within_le _ n); [|lia].
    destruct (find_entry key (entries ns)) as [e|] eqn:E; cbn [fst]; (eapply within_perm; [..|exact HW]; try done).
    by apply find_entry_without.
  - apply (within_le _ n); [done|lia].
  - unfold spec_put. cbn [sp_entries abs]. destruct (without_le key (entries ns) H1) as (G1 & G2 & G3).
    apply spec_evict_within; [|cbn; lia|lia]. constructor; [|done]. cbn.
    destruct sizeFn as [f|]; [by apply HF|lia].
  - destruct (without_le key (entries ns) H1) as (G1 & G2 & G3). cbn [sp_entries abs].
    split_and!; cbn; [done|lia| |]; intros Hp; [specialize (H3 Hp)|specialize (H4 Hp)]; lia.
  - split_and!; cbn; [constructor|lia|lia|lia].
  - apply spec_evict_within; cbn; [done|lia|lia].
  - apply (within_le _ n); [done|lia].
Qed.

Lemma exec_ops_within ops : forall c ns n c' vs,
  (forall k v f, lc_sizeFn c = Some f -> 0 <= f k v < 2 ^ 31) -> n + Z.of_nat (length ops) < 2 ^ 31 ->
  lru_ok c ns -> within (abs c ns) n -> exec_ops c ops = Some (c', vs) ->
  exists ns', lru_ok c' ns' /\ within (abs c' ns') (n + Z.of_nat (length ops)).
Proof.
  induction ops as [|op ops IH]; intros c ns n c' vs HF HN HO HW HE; cbn [exec_ops] in HE.
  { injection HE as <- <-. exists ns. split; [done|]. by apply (within_le _ n); [|cbn; lia]. }
  destruct (exec_op_refines c ns op HO) as (c1 & E1 & ns1 & HO1 & HA1 & HS1 & _). rewrite E1 in HE.
  cbn [mbind option_bind] in HE. destruct (exec_ops c1 ops) as [[c2 vs2]|] eqn:E2; [|done].
  cbn [mbind option_bind] in HE. injection HE as <- <-. cbn [length] in HN |- *.
  destruct (IH c1 ns1 (n + 1) c2 vs2) as (ns2 & HO2 & HW2); try done.
  - by rewrite HS1.
  - lia.
  - rewrite HA1. apply spec_op_within; try done. lia.
  - exists ns2. split; [done|]. eapply within_le; [done|]. lia.
Qed.

(** ** Claims *)

(** C26: The linked cache behaves as a plain list of entries, most recent first.
    Whatever the limits, the size function and the operations run on a new
    cache, no operation follows a nil pointer and every eviction loop ends; the
    results are those of the list, and so are the number of entries, the byte
    count and the calls of the eviction callback, in order. *)
Theorem lru_cache_refines_list capacity maxBytes sizeFn onEvict ops :
  exists c,
    exec_ops (NewLRUCacheWithLimits capacity maxBytes sizeFn onEvict) ops =
      Some (c, snd (spec_ops sizeFn onEvict (spec_new capacity maxBytes) ops)) /\
    let s := fst (spec_ops sizeFn onEvict (spec_new capacity maxBytes) ops) in
    Len c = Z.of_nat (length (sp_entries s)) /\ lc_curBytes c = i64 (sum_sizes (sp_entries s)) /\
    lc_evicted c = sp_evicted s.
Proof.
  destruct (exec_ops_refines ops _ _ (New_ok capacity maxBytes sizeFn onEvict)) as (c & HE & ns & HO & HA & _ & _).
  exists c. split; [exact HE|]. cbv zeta. change (abs _ []) with (spec_new capacity maxBytes) in HA. cbn in HA.
  rewrite <- HA. cbn. split_and!; [by apply lru_Len|by destruct HO as (_ & _ & ->)|done].
Qed.

(** An insertion evicts only the least recently used entries, and no more
    of them than the limits require: what remains is the longest run of the
    most recent entries, the inserted one first, that is within the limits. *)
Theorem lru_put_evicts_oldest c ns k v :
  lru_ok c ns ->
  exists c' ns' dropped, LRUCache_Put c k v = Some c' /\ lru_ok c' ns' /\
    let sz := match lc_sizeFn c with Some f => f k v | None => 0 end in
    let recent := mkEntry k v sz :: without k (entries ns) in
    recent = entries ns' ++ dropped /\
    (entries ns' <> [] -> over_limit (lc_capacity c) (lc_maxBytes c) (entries ns') = false) /\
    forall n, (length (entries ns') < n <= length recent)%nat ->
      over_limit (lc_capacity c) (lc_maxBytes c) (take n recent) = true.
Proof.
  intros HO. destruct (Put_refines c ns k v HO) as (c' & HP & ns' & HO' & HA & _).
  unfold spec_put, spec_evict in HA. cbn [sp_capacity sp_maxBytes sp_entries abs] in HA.
  set (recent := mkEntry k v _ :: _) in *. destruct (drop_excess _ _ _) as [kept dropped] eqn:ED.
  injection HA as _ _ HA _ _ _. apply drop_excess_split in ED as (HR & HK & HM).
  apply (f_equal (@rev entry)) in HR as HR'. rewrite rev_involutive, rev_app_distr in HR'.
  exists c', ns', (rev dropped). split; [done|]. split; [done|]. cbv zeta. fold recent. rewrite HA.
  split; [done|]. split.
  - intros HE. rewrite over_limit_rev. apply HK. by intros ->.
  - intros n. rewrite length_rev. intros Hn. rewrite <- over_limit_rev. apply (HM (rev (drop n recent))).
    + by rewrite <- rev_app_distr, take_drop.
    + rewrite length_rev, length_take. lia.
Qed.

(** C37: The cache stays within its limits.  With entry sizes below 2 GiB and
    fewer than 2^31 operations on a new cache, the number of entries never
    exceeds a positive capacity, the byte count is the sum of the sizes of the
    entries, without overflow, and never exceeds a positive byte limit. *)
Theorem lru_within_limits capacity maxBytes sizeFn onEvict ops c vs :
  (forall k v f, sizeFn = Some f -> 0 <= f k v < 2 ^ 31) -> Z.of_nat (length ops) < 2 ^ 31 ->
  exec_ops (NewLRUCacheWithLimits capacity maxBytes sizeFn onEvict) ops = Some (c, vs) ->
  exists ns, lru_ok c ns /\ lc_curBytes c = sum_sizes (entries ns) /\
    (0 < lc_capacity c -> Len c <= lc_capacity c) /\
    (0 < lc_maxBytes c -> lc_curBytes c <= lc_maxBytes c).
Proof.
  intros HF HN HE.
  destruct (exec_ops_within ops (NewLRUCacheWithLimits capacity maxBytes sizeFn onEvict) [] 0 c vs HF HN (New_ok capacity maxBytes sizeFn onEvict)) as (ns & HO & H1 & H2 & H3 & H4);
    [|done|].
  { split_and!; cbn; [constructor|lia|lia|lia]. }
  cbn in H1, H2, H3, H4. pose proof (sum_sizes_bound _ H1). pose proof HO as (_ & _ & HB).
  rewrite i64_small in HB by lia. exists ns. rewrite (lru_Len _ _ HO), HB. by split_and!.
Qed.
End lru.

(** ** Keys and sizes of the view's cache *)

Record CacheKey : Type := mkCK { ck_Table : bytes; ck_Key : bytes }.

#[export] Instance CacheKey_eq_dec : EqDecision CacheKey.
Proof. solve_decision. Defined.

#[export] Instance CacheKey_countable : Countable CacheKey.
Proof.
  refine (inj_countable' (fun k => (ck_Table k, ck_Key k)) (fun p => mkCK (fst p) (snd p)) _). by intros [].
Defined.

(** A row, or the fact that there is none, which [None] stands for. *)
Definition CacheSizeFn {M} (k : CacheKey) (v : option M) : Z :=
  let size := Z.of_nat (length (ck_Table k)) + Z.of_nat (length (ck_Key k)) + 96 in
  match v with Some _ => size + 128 | None => size end.

(** Examples: rows of up to 480 bytes. *)
Definition example_size (_ v : nat) : Z := Z.of_nat (v mod 48) * 10.
Definition example_ops : list (lru_op (K := nat) (V := nat)) :=
  [OpPut 1%nat 10%nat; OpPut 2%nat 20%nat; OpGet 1%nat; OpPut 3%nat 5%nat; OpGet 2%nat].

Lemma lru_put_evicts_oldest_witness :
  exists c c' ns' dropped,
    fst <$> exec_ops (NewLRUCacheWithLimits 2 0 (Some example_size) true) (take 2 example_ops) = Some c /\
    LRUCache_Put c 3%nat 5%nat = Some c' /\ lru_ok c' ns' /\
    mkEntry 3%nat 5%nat 50 :: without 3%nat [mkEntry 2%nat 20%nat 200; mkEntry 1%nat 10%nat 100] =
      entries ns' ++ dropped.
Proof.
  destruct (exec_ops_refines (take 2 example_ops) _ _ (New_ok 2 0 (Some example_size) true))
    as (c & HE & ns & HO & HA & HS & _).
  destruct (lru_put_evicts_oldest c ns 3%nat 5%nat HO) as (c' & ns' & dropped & HP & HO' & HR & _).
  exists c, c', ns', dropped. split; [by rewrite HE|]. split; [done|]. split; [done|].
  rewrite HS in HR. replace (entries ns) with [mkEntry 2%nat 20%nat 200; mkEntry 1%nat 10%nat 100] in HR; [exact HR|].
  change (entries ns) with (sp_entries (abs c ns)). rewrite HA. vm_compute. reflexivity.
Defined.

Lemma lru_within_limits_witness :
  exists c vs ns, exec_ops (NewLRUCacheWithLimits 0 250 (Some example_size) false) example_ops = Some (c, vs) /\
    lru_ok c ns /\ lc_curBytes c = sum_sizes (entries ns) /\ lc_curBytes c <= 250.
Proof.
  destruct (exec_ops_refines example_ops _ _ (New_ok 0 250 (Some example_size) false))
    as (c & HE & ns0 & _ & HA & _ & _).
  destruct (lru_within_limits 0 250 (Some example_size) false example_ops c _
              ltac:(intros k v f [= <-]; unfold example_size; pose proof (Nat.mod_upper_bound v 48); lia)
              ltac:(cbn; lia) HE) as (ns & HO & HB & _ & HM).
  assert (lc_maxBytes c = 250) as HX.
  { change (lc_maxBytes c) with (sp_maxBytes (abs c ns0)). rewrite HA. vm_compute. reflexivity. }
  rewrite HX in HM. eexists c, _, ns. split; [exact HE|]. split; [exact HO|]. split; [exact HB|]. apply HM. lia.
Defined.
