(* ===== verification/SdsView.v ===== *)
(** * SdsView: the write-behind view of a local index

    [pkg/sds/view/view.go] and [pkg/sds/view/applier.go]: committed changes go
    to an overlay and a queue, a background applier moves them to the local
    index in batches, and reads merge the overlay, a read cache and the index.
    The view is proved against two interfaces, the contract of a local index
    and the contract of a read cache, which the LRU cache discharges.  The lock
    regions of the applier are the steps of a transition system. *)

From S2P Require Import Prelude Bytes Sha256 SdsFrame SdsSchema SdsRegistry SdsStream SdsTx SdsIndex LruCache.

#[local] Open Scope Z_scope.
#[local] Open Scope list_scope.

(** ** The contract of the read cache *)

Class ReadCache (C K V : Type) : Type := {
  rd_Get : C -> K -> option (C * option V);
  rd_Put : C -> K -> V -> option C;
  rd_Remove : C -> K -> option C;
  rd_Clear : C -> C;
  rd_SetLimits : C -> Z -> Z -> option C;
  rd_row : C -> K -> option V;
  rd_inv : C -> Prop;
}.

(** A cache may forget a row at any time, and never makes one up. *)
Class ReadCacheLaw (C K V : Type) `{ReadCache C K V} : Prop := {
  cache_Get : forall c k, rd_inv c ->
    exists c', rd_Get c k = Some (c', rd_row c k) /\ rd_inv c' /\
      forall k' x, rd_row c' k' = Some x -> rd_row c k' = Some x;
  cache_Put : forall c k v, rd_inv c ->
    exists c', rd_Put c k v = Some c' /\ rd_inv c' /\
      forall k' x, rd_row c' k' = Some x -> k' = k /\ x = v \/ k' <> k /\ rd_row c k' = Some x;
  cache_Remove : forall c k, rd_inv c ->
    exists c', rd_Remove c k = Some c' /\ rd_inv c' /\
      forall k' x, rd_row c' k' = Some x -> k' <> k /\ rd_row c k' = Some x;
  cache_Clear : forall c, rd_inv c -> rd_inv (rd_Clear c) /\ forall k, rd_row (rd_Clear c) k = None;
  cache_SetLimits : forall c n b, rd_inv c ->
    exists c', rd_SetLimits c n b = Some c' /\ rd_inv c' /\
      forall k' x, rd_row c' k' = Some x -> rd_row c k' = Some x;
}.

Section lru_is_cache.
Context {K V : Type} `{Countable K}.

#[export] Instance lru_read_cache : ReadCache (LRUCache (K := K) (V := V)) K V := {|
  rd_Get := LRUCache_Get;
  rd_Put := LRUCache_Put;
  rd_Remove := LRUCache_Remove;
  rd_Clear := LRUCache_Clear;
  rd_SetLimits := LRUCache_SetLimits;
  rd_row c k := default None (LRUCache_Peek c k);
  rd_inv c := exists ns, lru_ok c ns;
|}.

Lemma lru_row (c : LRUCache) ns k :
  lru_ok c ns -> rd_row (C := LRUCache (K := K) (V := V)) c k = en_value <$> find_entry k (entries ns).
Proof. intros HO. cbn. by rewrite (Peek_refines c ns). Qed.

Lemma find_entry_Some k (es : list (entry (K := K) (V := V))) e :
  NoDup (en_key <$> es) -> find_entry k es = Some e <-> e ∈ es /\ en_key e = k.
Proof.
  intros HN. split.
  - unfold find_entry. intros HF. assert (e ∈ filter (fun e => en_key e = k) es) as Hin.
    { destruct (filter _ es); [done|]. injection HF as ->. by left. }
    apply list_elem_of_filter in Hin. naive_solver.
  - intros [Hin Hk]. apply list_elem_of_split in Hin as (a & b & ->).
    unfold find_entry. by destruct (filter_key_split k a e b HN Hk) as [_ ->].
Qed.

(** The rows a cache holds are those of its entries. *)
Lemma lru_row_Some (c : LRUCache) ns k x :
  lru_ok c ns ->
  rd_row (C := LRUCache (K := K) (V := V)) c k = Some x <-> exists e, e ∈ entries ns /\ en_key e = k /\ en_value e = x.
Proof.
  intros HO. pose proof (lru_keys_NoDup _ _ HO) as HN. rewrite (lru_row c ns) by done. rewrite fmap_Some. split.
  - intros (e & [Hin Hk]%find_entry_Some & ->); [by exists e|done].
  - intros (e & Hin & Hk & <-). exists e. split; [|done]. by apply find_entry_Some.
Qed.

Lemma without_elem k (es : list (entry (K := K) (V := V))) e : e ∈ without k es <-> e ∈ es /\ en_key e <> k.
Proof. unfold without. rewrite list_elem_of_filter. naive_solver. Qed.

Lemma spec_evict_sub onEvict s (es replaced : list (entry (K := K) (V := V))) :
  sp_entries (spec_evict onEvict s es replaced) ⊆ es.
Proof.
  unfold spec_evict. destruct (drop_excess _ _ _) as [kept dropped] eqn:ED. cbn.
  apply drop_excess_split in ED as (HR & _). intros e He.
  apply (f_equal (@rev _)) in HR. rewrite rev_involutive, rev_app_distr in HR. rewrite HR. set_solver.
Qed.

#[export] Instance lru_cache_law : ReadCacheLaw (LRUCache (K := K) (V := V)) K V.
Proof.
  split.
  - intros c k [ns HO]. destruct (Get_refines c ns k HO) as (c' & HG & ns' & HO' & HA & _).
    exists c'. rewrite (lru_row c ns) by done. cbn [rd_Get lru_read_cache]. rewrite HG.
    unfold spec_get in *. cbn [sp_entries abs] in *. split; [by destruct (find_entry k (entries ns))|].
    split; [by exists ns'|]. intros k' x. rewrite (lru_row_Some c' ns'), (lru_row_Some c ns) by done.
    intros (e' & Hin & Hk & Hx). exists e'. split; [|done].
    destruct (find_entry k (entries ns)) as [e|] eqn:E; injection HA as _ _ HA _ _ _; rewrite HA in Hin; [|done].
    apply find_entry_Some in E as [He _]; [|by eapply lru_keys_NoDup].
    apply elem_of_cons in Hin as [->|Hin]; [done|]. by apply without_elem in Hin as [? _].
  - intros c k v [ns HO]. destruct (Put_refines c ns k v HO) as (c' & HP & ns' & HO' & HA & _).
    exists c'. split; [done|]. split; [by exists ns'|]. intros k' x.
    rewrite (lru_row_Some c' ns'), (lru_row_Some c ns) by done. intros (e & Hin & <- & <-).
    apply (f_equal sp_entries) in HA. cbn [sp_entries abs] in HA. rewrite HA in Hin.
    apply spec_evict_sub, elem_of_cons in Hin as [->|[Hin Hne]%without_elem]; [by left|]. right. by eauto.
  - intros c k [ns HO]. destruct (Remove_refines c ns k HO) as (c' & HP & ns' & HO' & HA & _).
    exists c'. split; [done|]. split; [by exists ns'|]. intros k' x.
    rewrite (lru_row_Some c' ns'), (lru_row_Some c ns) by done. intros (e & Hin & <- & <-).
    apply (f_equal sp_entries) in HA. cbn [sp_entries abs spec_with] in HA. rewrite HA in Hin.
    apply without_elem in Hin as [Hin Hne]. by eauto.
  - intros c [ns HO]. destruct (Clear_refines c ns HO) as (ns' & HO' & HA & _). split; [by exists ns'|].
    intros k. rewrite (lru_row _ ns') by done. apply (f_equal sp_entries) in HA. cbn [sp_entries abs spec_with] in HA.
    by rewrite HA.
  - intros c n b [ns HO]. destruct (exec_op_refines c ns (OpSetLimits n b) HO) as (c' & HP & ns' & HO' & HA & _).
    cbn in HP. destruct (LRUCache_SetLimits c n b) as [c1|] eqn:EL; [|done]. injection HP as ->.
    exists c'. split; [done|]. split; [by exists ns'|]. intros k' x.
    rewrite (lru_row_Some c' ns'), (lru_row_Some c ns) by done. intros (e & Hin & ? & ?). exists e. split; [|done].
    apply (f_equal sp_entries) in HA. cbn [sp_entries abs spec_op fst] in HA. rewrite HA in Hin.
    by apply spec_evict_sub in Hin.
Qed.

End lru_is_cache.

Section view.
Context `{SL : StreamLib}.
Abbreviation Msg := (Message Value).
Context {I C : Type} `{LI : !LocalIndex I} `{RC : ReadCache C CacheKey (option Msg)}.

(** ** State *)

Record OverlayEntry : Type := mkOverlay {
  ov_Op : Z;
  ov_Row : option Msg;
  ov_Seq : Z;
  ov_Size : Z;
}.

(** [StatsUpdateFunc]: the new statistics, or an error. *)
Definition StatsUpdateFunc : Type := Msg -> option Msg -> option Msg -> option Msg.

(** The cache holds [Some row] for a row and [None] for the absence of one. *)
Record View : Type := mkView {
  v_index : I;
  v_reg : option Registry;
  v_cache : C;
  v_cacheDisabled : bool;
  v_maxOverlayBytes : Z;
  v_unappliedBytes : Z;
  v_overlay : gmap CacheKey OverlayEntry;
  v_queue : list Change;
  v_appliedPos : Z;
  v_batchSize : Z;
  v_statsRow : option Msg;
  v_statsUpdate : option StatsUpdateFunc;
}.

Definition set_cache (v : View) (c : C) : View :=
  mkView (v_index v) (v_reg v) c (v_cacheDisabled v) (v_maxOverlayBytes v) (v_unappliedBytes v)
    (v_overlay v) (v_queue v) (v_appliedPos v) (v_batchSize v) (v_statsRow v) (v_statsUpdate v).
Definition set_overlay (v : View) (o : gmap CacheKey OverlayEntry) (unapplied : Z) : View :=
  mkView (v_index v) (v_reg v) (v_cache v) (v_cacheDisabled v) (v_maxOverlayBytes v) unapplied
    o (v_queue v) (v_appliedPos v) (v_batchSize v) (v_statsRow v) (v_statsUpdate v).
Definition set_queue (v : View) (q : list Change) : View :=
  mkView (v_index v) (v_reg v) (v_cache v) (v_cacheDisabled v) (v_maxOverlayBytes v) (v_unappliedBytes v)
    (v_overlay v) q (v_appliedPos v) (v_batchSize v) (v_statsRow v) (v_statsUpdate v).
Definition set_index (v : View) (i : I) (stats : option Msg) : View :=
  mkView i (v_reg v) (v_cache v) (v_cacheDisabled v) (v_maxOverlayBytes v) (v_unappliedBytes v)
    (v_overlay v) (v_queue v) (v_appliedPos v) (v_batchSize v) stats (v_statsUpdate v).
Definition set_appliedPos (v : View) (pos : Z) : View :=
  mkView (v_index v) (v_reg v) (v_cache v) (v_cacheDisabled v) (v_maxOverlayBytes v) (v_unappliedBytes v)
    (v_overlay v) (v_queue v) pos (v_batchSize v) (v_statsRow v) (v_statsUpdate v).
Definition set_cacheDisabled (v : View) (b : bool) : View :=
  mkView (v_index v) (v_reg v) (v_cache v) b (v_maxOverlayBytes v) (v_unappliedBytes v)
    (v_overlay v) (v_queue v) (v_appliedPos v) (v_batchSize v) (v_statsRow v) (v_statsUpdate v).

(** A new view over an index whose statistics row has been loaded. *)
Definition View_New (index : I) (reg : option Registry) (cache : C) (cacheDisabled : bool) (maxOverlayBytes batchSize : Z)
    (stats : option Msg) (update : option StatsUpdateFunc) : View :=
  mkView index reg cache cacheDisabled maxOverlayBytes 0 ∅ [] (li_Position index)
    (if batchSize <=? 0 then 100 else batchSize) stats update.

(** ** Names and keys of changes *)

Definition view_table (reg : option Registry) (ch : Change) : bytes :=
  match reg with Some r => norm_table r ch | None => ch_TypeName ch end.

Definition norm_change (reg : option Registry) (ch : Change) : Change :=
  mkChange (ch_Seq ch) (ch_TypeID ch) (view_table reg ch) (ch_Op ch) (ch_TxID ch) (norm_key ch)
    (ch_RawKey ch) (ch_RawVal ch) (ch_Row ch).

Definition change_ck (reg : option Registry) (ch : Change) : CacheKey := mkCK (view_table reg ch) (norm_key ch).

(** ** ApplyChanges *)

(** One round of its loop, for a normalised change. *)
Definition overlay_change (v : View) (ch : Change) : option View :=
  let ck := mkCK (ch_TypeName ch) (ch_Key ch) in
  let sz := Z.of_nat (length (ch_RawKey ch)) + Z.of_nat (length (ch_RawVal ch)) + 64 in
  let unapplied :=
    match v_overlay v !! ck with Some old => v_unappliedBytes v - ov_Size old | None => v_unappliedBytes v end in
  let v := set_overlay v (<[ck := mkOverlay (ch_Op ch) (ch_Row ch) (ch_Seq ch) sz]> (v_overlay v)) (unapplied + sz) in
  if v_cacheDisabled v then Some v
  else c ← rd_Remove (v_cache v) ck; Some (set_cache v c).

Fixpoint overlay_changes (v : View) (chs : list Change) : option View :=
  match chs with
  | [] => Some v
  | ch :: chs => v ← overlay_change v ch; overlay_changes v chs
  end.

Definition enqueueLocked (v : View) (changes : list Change) : View :=
  match changes with [] => v | _ => set_queue v (v_queue v ++ changes) end.

(** The normalised changes are appended to the queue, and once more by the
    applier's [enqueueLocked]. *)
Definition ApplyChanges (v : View) (changes : list Change) : option View :=
  match changes with
  | [] => Some v
  | _ =>
    let normalized := norm_change (v_reg v) <$> changes in
    v ← overlay_changes v normalized;
    let v := set_queue v (v_queue v ++ normalized) in
    Some (enqueueLocked v normalized)
  end.

(** ** Statistics *)

Definition stats_after (reg : option Registry) (typeName : bytes) (ch : Change) : result index_error (option Msg) :=
  if is_write (ch_Op ch) then
    match ch_Row ch, reg with
    | None, Some r =>
      if bool_decide (ch_RawKey ch = []) && bool_decide (ch_RawVal ch = []) then Ok None
      else
      match Registry_LookupByName r typeName with
      | None => Err IEFailed
      | Some (def, _) =>
        match Registry_ResolveMessageType r (td_Id def) with
        | Err e => Err (IEResolve e)
        | Ok msgType =>
          match MergeKeyAndNonKey (Some (msg_New msgType)) (ch_RawKey ch) (ch_RawVal ch) with
          | Err _ => Err IEMergeRow
          | Ok row => Ok (Some row)
          end
        end
      end
    | row, _ => Ok row
    end
  else Ok None.

(** [UpdateStatsFromChanges]; [latest] is the state of the rows changed so far. *)
Fixpoint update_stats (statsTypeName : bytes) (update : StatsUpdateFunc) (reg : option Registry)
    (beforeLookup : bytes -> bytes -> result index_error (option Msg)) (latest : gmap CacheKey (option Msg))
    (stats : Msg) (chs : list Change) : result index_error Msg :=
  match chs with
  | [] => Ok stats
  | ch :: chs =>
    let typeName := view_table reg ch in
    if bool_decide (typeName = statsTypeName) then update_stats statsTypeName update reg beforeLookup latest stats chs
    else
    let ck := mkCK typeName (norm_key ch) in
    let before := match latest !! ck with Some prev => Ok prev | None => beforeLookup typeName (norm_key ch) end in
    match before with
    | Err e => Err e
    | Ok before =>
      match stats_after reg typeName ch with
      | Err e => Err e
      | Ok after =>
        match update stats before after with
        | None => Err IEFailed
        | Some stats => update_stats statsTypeName update reg beforeLookup (<[ck := after]> latest) stats chs
        end
      end
    end
  end.

Definition msg_name (m : Msg) : bytes := md_FullName (msg_md m).

Definition UpdateStatsFromChanges (changes : list Change) (stats : Msg) (update : StatsUpdateFunc) (reg : option Registry)
    (beforeLookup : bytes -> bytes -> result index_error (option Msg)) : result index_error Msg :=
  update_stats (msg_name stats) update reg beforeLookup ∅ stats changes.

(** [computeBatchStats]; without a registry it dereferences nil. *)
Definition computeBatchStats (v : View) (changes : list Change) (baseStats : option Msg) (batchSeq : Z)
    : option (result index_error (list Change * option Msg)) :=
  match v_statsRow v, v_statsUpdate v with
  | Some _, Some update =>
    newStats ← baseStats;
    match UpdateStatsFromChanges changes newStats update (v_reg v) (li_Get (v_index v)) with
    | Err e => Some (Err e)
    | Ok newStats' =>
      reg ← v_reg v;
      match Registry_LookupByName reg (msg_name newStats) with
      | None => Some (Ok (changes, baseStats))
      | Some (def, _) =>
        match SplitKeyAndNonKey (Some newStats') (td_KeyFields def) with
        | Err _ => Some (Err IEFailed)
        | Ok (keyBytes, valBytes) =>
          let statsChange := mkChange batchSeq (td_Id def) (msg_name newStats) OpRecord_UPDATE 0 keyBytes keyBytes valBytes
            (Some newStats') in
          Some (Ok (changes ++ [statsChange], Some newStats'))
        end
      end
    end
  | _, _ => Some (Ok (changes, baseStats))
  end.

(** ** The applier *)

Fixpoint same_seq (seq : Z) (q : list Change) : nat :=
  match q with
  | ch :: q => if ch_Seq ch =? seq then S (same_seq seq q) else O
  | [] => O
  end.

(** The batch boundary: whole transactions until the target size is reached.
    Each round takes at least one change, so the length of the queue is fuel
    enough. *)
Fixpoint batch_limit (fuel : nat) (target : Z) (queue : list Change) (limit : nat) : nat :=
  match fuel with
  | O => limit
  | S fuel =>
    match drop limit queue with
    | [] => limit
    | ch :: rest =>
      let limit := (limit + 1 + same_seq (ch_Seq ch) rest)%nat in
      if target <=? Z.of_nat limit then limit else batch_limit fuel target queue limit
    end
  end.

(** A batch of the queue: its changes, the keys in the order they first occur,
    the last change of each, and the highest sequence number. *)
Record Batch : Type := mkBatch {
  b_batch : list Change;
  b_order : list CacheKey;
  b_map : gmap CacheKey Change;
  b_maxSeq : Z;
}.

Definition coalesce_step (reg : option Registry) (b : Batch) (ch : Change) : Batch :=
  let ch := norm_change reg ch in
  let ck := mkCK (ch_TypeName ch) (ch_Key ch) in
  mkBatch (b_batch b)
    (if bool_decide (is_Some (b_map b !! ck)) then b_order b else b_order b ++ [ck])
    (<[ck := ch]> (b_map b))
    (if b_maxSeq b <? ch_Seq ch then ch_Seq ch else b_maxSeq b).

Definition coalesce (reg : option Registry) (batch : list Change) : Batch :=
  foldl (coalesce_step reg) (mkBatch batch [] ∅ 0) batch.

(** The first lock region of a round of the loop. *)
Definition cut_batch (v : View) : Batch :=
  let target := if v_batchSize v <=? 0 then 100 else v_batchSize v in
  let limit := batch_limit (length (v_queue v)) target (v_queue v) 0 in
  coalesce (v_reg v) (take limit (v_queue v)).

Definition coalescedChanges (b : Batch) : list Change :=
  omap (fun ck => set_Seq (b_maxSeq b) <$> b_map b !! ck) (b_order b).

(** The region under the index mutex; the error is that of the statistics or of
    the index. *)
Definition apply_batch (v : View) (b : Batch) : option (View * result index_error ()) :=
  let batch := b_batch b in
  match coalescedChanges b with
  | [] => Some (v, Ok ())
  | changes =>
    st ← computeBatchStats v batch (v_statsRow v) (b_maxSeq b);
    match st with
    | Err e => Some (v, Err e)
    | Ok (toApply, newStats) =>
      let changes :=
        if (length batch <? length toApply)%nat
        then changes ++ match last toApply with Some st => [st] | None => [] end
        else changes in
      let '(i, res) := li_ApplyBatch (v_index v) changes in
      match res with
      | Err e => Some (set_index v i (v_statsRow v), Err e)
      | Ok _ => Some (set_index v i (match v_statsUpdate v with Some _ => newStats | None => v_statsRow v end), Ok ())
      end
    end
  end.

Definition clamp (z : Z) : Z := if z <? 0 then 0 else z.

(** The update of the overlay and the cache for one key of the batch. *)
Definition clean_key (b : Batch) (v : View) (ck : CacheKey) : option View :=
  match b_map b !! ck with
  | None => Some v
  | Some ch =>
    match v_overlay v !! ck with
    | Some entry =>
      if ov_Seq entry <=? b_maxSeq b then
        let v := set_overlay v (delete ck (v_overlay v)) (clamp (v_unappliedBytes v - ov_Size entry)) in
        if v_cacheDisabled v then Some v
        else if is_write (ch_Op ch) then
          match ch_Row ch with
          | Some row => c ← rd_Put (v_cache v) ck (Some row); Some (set_cache v c)
          | None => c ← rd_Remove (v_cache v) ck; Some (set_cache v c)
          end
        else if ch_Op ch =? OpRecord_DELETE then c ← rd_Put (v_cache v) ck None; Some (set_cache v c)
        else Some v
      else Some v
    | None => Some v
    end
  end.

Fixpoint clean_keys (b : Batch) (v : View) (cks : list CacheKey) : option View :=
  match cks with
  | [] => Some v
  | ck :: cks => v ← clean_key b v ck; clean_keys b v cks
  end.

(** The last lock region: the batch leaves the queue, which must be at least
    that long, and the keys are cleaned in the order [cks] of the map. *)
Definition finish_batch (v : View) (b : Batch) (cks : list CacheKey) : option View :=
  if (length (v_queue v) <? length (b_batch b))%nat then None
  else
  v ← clean_keys b (set_queue v (drop (length (b_batch b)) (v_queue v))) cks;
  Some (set_appliedPos v (if v_appliedPos v <? b_maxSeq b then b_maxSeq b else v_appliedPos v)).

(** A round of the loop without interference, and some rounds. *)
Definition applier_round (v : View) : option (View * result index_error ()) :=
  if (length (v_queue v) =? 0)%nat then Some (v, Ok ())
  else
  let b := cut_batch v in
  '(v, res) ← apply_batch v b;
  match res with
  | Err e => Some (v, Err e)
  | Ok _ => v ← finish_batch v b (b_order b); Some (v, Ok ())
  end.

Fixpoint applier_rounds (n : nat) (v : View) : option (View * result index_error ()) :=
  match n with
  | O => Some (v, Ok ())
  | S n =>
    '(v, res) ← applier_round v;
    match res with Err e => Some (v, Err e) | Ok _ => applier_rounds n v end
  end.

(** ** Other operations of the view *)

Definition cache_change (reg : option Registry) (v : View) (ch : Change) : option View :=
  if v_cacheDisabled v then Some v
  else
  let ck := change_ck reg ch in
  if is_write (ch_Op ch) then
    match ch_Row ch with
    | Some row => c ← rd_Put (v_cache v) ck (Some row); Some (set_cache v c)
    | None => c ← rd_Remove (v_cache v) ck; Some (set_cache v c)
    end
  else if ch_Op ch =? OpRecord_DELETE then c ← rd_Put (v_cache v) ck None; Some (set_cache v c)
  else Some v.

Fixpoint cache_changes (reg : option Registry) (v : View) (chs : list Change) : option View :=
  match chs with
  | [] => Some v
  | ch :: chs => v ← cache_change reg v ch; cache_changes reg v chs
  end.

(** Changes applied to the index and the cache at once, past the overlay. *)
Definition ApplyChangesSync (v : View) (changes : list Change) : option (View * result index_error ()) :=
  match changes with
  | [] => Some (v, Ok ())
  | _ =>
    let maxSeq := position_after changes (v_appliedPos v) in
    st ← computeBatchStats v changes (v_statsRow v) maxSeq;
    match st with
    | Err e => Some (v, Err e)
    | Ok (toApply, newStats) =>
      let '(i, res) := li_ApplyBatch (v_index v) toApply in
      match res with
      | Err e => Some (set_index v i (v_statsRow v), Err e)
      | Ok _ =>
        let v := set_index v i (match v_statsUpdate v with Some _ => newStats | None => v_statsRow v end) in
        v ← cache_changes (v_reg v) v changes;
        Some (set_appliedPos v (if v_appliedPos v <? maxSeq then maxSeq else v_appliedPos v), Ok ())
      end
    end
  end.

(** [trimQueueAndOverlayLocked]: what a new index at [newPos] already has. *)
Fixpoint trim_queue (newPos : Z) (q : list Change) : list Change :=
  match q with
  | ch :: rest => if ch_Seq ch <=? newPos then trim_queue newPos rest else q
  | [] => []
  end.

Definition trim_entry (newPos : Z) (v : View) (x : CacheKey * OverlayEntry) : View :=
  if ov_Seq (snd x) <=? newPos
  then set_overlay v (delete (fst x) (v_overlay v)) (clamp (v_unappliedBytes v - ov_Size (snd x)))
  else v.

Definition trimQueueAndOverlayLocked (v : View) (newPos : Z) : View :=
  foldl (trim_entry newPos) (set_queue v (trim_queue newPos (v_queue v))) (map_to_list (v_overlay v)).

(** [Rebuild] with the index and position its function returned; [stats] are
    the statistics loaded from the new index. *)
Definition View_Rebuild (v : View) (newIndex : I) (newPos : Z) (stats : option Msg) : View :=
  let v := set_index v newIndex stats in
  let v := if v_appliedPos v <? newPos then set_appliedPos v newPos else v in
  let v := trimQueueAndOverlayLocked v newPos in
  if v_cacheDisabled v then v else set_cache v (rd_Clear (v_cache v)).

(** ** Reads *)

Definition entry_row (e : OverlayEntry) : option Msg :=
  if ov_Op e =? OpRecord_DELETE then None else ov_Row e.

(** What the part of [Get] up to the read of the index finds: a result, or a
    row of the index that is still to be cached. *)
Inductive found : Type :=
| Done (r : option Msg)
| FromIndex (r : option Msg)
| Failed (e : index_error).

Definition Get_lookup (v : View) (typeName key : bytes) : option (View * found) :=
  let ck := mkCK typeName key in
  let from_index v :=
    match li_Get (v_index v) typeName key with Err e => Failed e | Ok o => FromIndex o end in
  match v_overlay v !! ck with
  | Some entry => Some (v, Done (entry_row entry))
  | None =>
    if v_cacheDisabled v then Some (v, from_index v)
    else
    '(c, hit) ← rd_Get (v_cache v) ck;
    let v := set_cache v c in
    match hit with
    | Some row => Some (v, Done row)
    | None => Some (v, from_index v)
    end
  end.

(** The end of [Get]: the row read is put into the cache. *)
Definition Get_fill (v : View) (typeName key : bytes) (o : option Msg) : option View :=
  if v_cacheDisabled v then Some v
  else c ← rd_Put (v_cache v) (mkCK typeName key) o; Some (set_cache v c).

Definition View_Get (v : View) (typeName key : bytes) : option (View * result index_error (option Msg)) :=
  '(v, f) ← Get_lookup v typeName key;
  match f with
  | Done r => Some (v, Ok r)
  | Failed e => Some (v, Err e)
  | FromIndex o => v ← Get_fill v typeName key o; Some (v, Ok o)
  end.

(** [Scan]: the key of a row of the index, from the key fields of its type, or
    from all of it when there are none. *)
Definition scan_key (keyFields : list Z) (m : Msg) : result index_error bytes :=
  let whole := result_of_option IEFailed (marshal_full m) in
  match keyFields with
  | [] => whole
  | _ =>
    match ExtractKey (Some m) keyFields with
    | Err _ => Err IEFailed
    | Ok k => if bool_decide (k = []) then whole else Ok k
    end
  end.

Definition key_fields (reg : option Registry) (typeName : bytes) : list Z :=
  match reg with
  | None => []
  | Some r => match Registry_LookupByName r typeName with Some (def, _) => td_KeyFields def | None => [] end
  end.

(** The overlay entries of a table under a prefix, by key. *)
Definition overlay_snapshot (o : gmap CacheKey OverlayEntry) (typeName keyPrefix : bytes) : gmap bytes OverlayEntry :=
  list_to_map ((fun x => (ck_Key (fst x), snd x)) <$>
    filter (fun x => ck_Table (fst x) = typeName /\ (keyPrefix = [] \/ has_prefix keyPrefix (ck_Key (fst x)) = true)) (map_to_list o)).

(** The loop over the rows of the index. *)
Fixpoint merge_index (keyFields : list Z) (snap : gmap bytes OverlayEntry) (msgs : list Msg) (merged : gmap bytes Msg)
    : result index_error (gmap bytes Msg) :=
  match msgs with
  | [] => Ok merged
  | m :: msgs =>
    match scan_key keyFields m with
    | Err e => Err e
    | Ok k =>
      let merged :=
        if bool_decide (k = []) then merged
        else match snap !! k with Some _ => merged | None => <[k := m]> merged end in
      merge_index keyFields snap msgs merged
    end
  end.

Definition merge_overlay (snap : gmap bytes OverlayEntry) (merged : gmap bytes Msg) : gmap bytes Msg :=
  omap entry_row snap ∪ merged.

(** The rows are sorted by key; [ScanSlice] collects what [Scan] yields. *)
Definition View_Scan (v : View) (typeName keyPrefix : bytes) : result index_error (list Msg) :=
  let snap := overlay_snapshot (v_overlay v) typeName keyPrefix in
  match li_Scan (v_index v) typeName keyPrefix with
  | Err e => Err e
  | Ok msgs =>
    match merge_index (key_fields (v_reg v) typeName) snap msgs ∅ with
    | Err e => Err e
    | Ok merged => Ok (snd <$> sort_entries (map_to_list (merge_overlay snap merged)))
    end
  end.

Definition View_Position (v : View) : Z :=
  if v_appliedPos v <? li_Position (v_index v) then li_Position (v_index v) else v_appliedPos v.
Definition View_Lag (v : View) (currentSeq : Z) : Z :=
  if v_appliedPos v <? currentSeq then currentSeq - v_appliedPos v else 0.

(** [WaitBackpressure] and [Flush] wait while these hold. *)
Definition backpressure (v : View) : bool := (0 <? v_maxOverlayBytes v) && (v_maxOverlayBytes v <? v_unappliedBytes v).
Definition unflushed (v : View) : bool := (0 <? length (v_queue v))%nat.

Definition SetCacheLimits (v : View) (capacity maxBytes : Z) : option View :=
  c ← rd_SetLimits (v_cache v) capacity maxBytes; Some (set_cache v c).
Definition ClearCache (v : View) : View := set_cache v (rd_Clear (v_cache v)).
Definition SetCacheDisabled (v : View) (disabled : bool) : View := set_cacheDisabled v disabled.

(** ** Last writers *)

#[local] Arguments position_after : simpl never.
#[local] Arguments row_after : simpl never.

Definition ch_ck (ch : Change) : CacheKey := mkCK (ch_TypeName ch) (ch_Key ch).
Definition ch_effect (ch : Change) : option Msg := if ch_Op ch =? OpRecord_DELETE then None else ch_Row ch.
Definition normal (ch : Change) : Prop := full_change ch /\ norm_key ch = ch_Key ch.

(** The last change of each key. *)
Definition lastw (l : list Change) : gmap CacheKey Change := foldl (fun m ch => <[ch_ck ch := ch]> m) ∅ l.

Lemma lastw_foldl l : forall m, foldl (fun m ch => <[ch_ck ch := ch]> m) m l = lastw l ∪ m.
Proof.
  unfold lastw. induction l as [|ch l IH]; intros m; cbn; [by rewrite (left_id_L ∅ (∪))|].
  rewrite IH, (IH (<[_ := _]> ∅)), <- (assoc_L (∪)). f_equal. by rewrite <- insert_union_l, (left_id_L ∅ (∪)).
Qed.

Lemma lastw_app a b : lastw (a ++ b) = lastw b ∪ lastw a.
Proof. unfold lastw at 1. rewrite foldl_app. apply lastw_foldl. Qed.

Lemma lastw_snoc l ch : lastw (l ++ [ch]) = <[ch_ck ch := ch]> (lastw l).
Proof. unfold lastw. by rewrite foldl_app. Qed.

Lemma lastw_dbl g : lastw (g ++ g) = lastw g.
Proof. rewrite lastw_app. apply map_union_idemp. Qed.

Lemma lastw_concat_dbl gs : lastw (concat ((fun g => g ++ g) <$> gs)) = lastw (concat gs).
Proof. induction gs as [|g gs IH]; [done|]. cbn. by rewrite !lastw_app, IH, map_union_idemp. Qed.

Lemma lastw_elem l ck ch : lastw l !! ck = Some ch -> ch ∈ l /\ ck = ch_ck ch.
Proof.
  induction l as [|x l IH] using rev_ind; [done|]. rewrite lastw_snoc. destruct (decide (ck = ch_ck x)) as [->|Hne].
  - rewrite lookup_insert_eq. intros [= ->]. split; [set_solver|done].
  - rewrite lookup_insert_ne by done. intros Hl. destruct (IH Hl) as [? ?]. split; [set_solver|done].
Qed.

Lemma lastw_dom l ck : is_Some (lastw l !! ck) <-> ck ∈ ch_ck <$> l.
Proof.
  induction l as [|x l IH] using rev_ind; [cbn; rewrite lookup_empty; split; [by intros []|set_solver]|].
  rewrite lastw_snoc, fmap_app, elem_of_app. cbn. rewrite list_elem_of_singleton, lookup_insert_is_Some, IH.
  destruct (decide (ch_ck x = ck)); naive_solver.
Qed.

(** The row of a key is what its last writer left. *)
Lemma row_after_lastw l t k o :
  Forall normal l -> row_after l t k o = match lastw l !! mkCK t k with Some ch => ch_effect ch | None => o end.
Proof.
  induction l as [|x l IH] using rev_ind; intros HF; [done|]. apply Forall_app in HF as [HF Hx].
  apply Forall_singleton in Hx as [_ Hx]. rewrite row_after_app, IH by done. rewrite lastw_snoc.
  unfold row_after. cbn [foldl]. unfold change_effect. rewrite Hx. destruct (decide (ch_ck x = mkCK t k)) as [E|E].
  - injection E as <- <-. rewrite lookup_insert_eq. by rewrite bool_decide_true.
  - rewrite lookup_insert_ne by done. rewrite bool_decide_false; [done|]. intros [<- <-]. by apply E.
Qed.

Lemma norm_key_idem reg ch : norm_key (norm_change reg ch) = ch_Key (norm_change reg ch).
Proof.
  unfold norm_key at 1. cbn. unfold norm_key. repeat case_bool_decide; cbn in *; try done; congruence.
Qed.

Lemma view_table_full reg ch : full_change ch -> view_table reg ch = ch_TypeName ch.
Proof. intros [HT _]. destruct reg; [|done]. cbn. unfold norm_table. by rewrite bool_decide_false. Qed.

Lemma norm_change_normal reg ch : full_change ch -> normal (norm_change reg ch).
Proof.
  intros HF. split; [|apply norm_key_idem]. unfold full_change in *. cbn. by rewrite view_table_full.
Qed.

Lemma norm_change_id reg ch : normal ch -> norm_change reg ch = ch.
Proof. intros [HF HK]. unfold norm_change. rewrite view_table_full, HK by done. by destruct ch. Qed.

Lemma row_after_norm reg l t k o : Forall full_change l -> row_after (norm_change reg <$> l) t k o = row_after l t k o.
Proof.
  revert o. induction l as [|ch l IH]; intros o HF; [done|]. inversion HF as [|? ? Hc HF']; subst.
  unfold row_after in *. cbn. rewrite IH by done. f_equal. unfold change_effect. rewrite norm_key_idem. cbn.
  by rewrite view_table_full.
Qed.

(** ** Coalescing *)

Lemma coalesce_fold reg batch l :
  Forall normal l ->
  let b := foldl (coalesce_step reg) (mkBatch batch [] ∅ 0) l in
  b_map b = lastw l /\ NoDup (b_order b) /\ (forall ck, ck ∈ b_order b <-> ck ∈ ch_ck <$> l) /\
  b_maxSeq b = position_after l 0 /\ b_batch b = batch.
Proof.
  cbv zeta. induction l as [|x l IH] using rev_ind; intros HF.
  { cbn. split_and!; try done. constructor. }
  apply Forall_app in HF as [HF Hx]. apply Forall_cons in Hx as [Hx _].
  destruct (IH HF) as (HM & HN & HO & HS & HB). rewrite foldl_app, lastw_snoc, position_after_app, fmap_app.
  cbn [foldl]. set (b := foldl _ _ l) in *. unfold coalesce_step. rewrite (norm_change_id reg x Hx).
  cbn [b_map b_order b_maxSeq b_batch]. rewrite HM, HS, HB. unfold position_after. cbn [foldl]. split_and!; try done.
  - case_bool_decide as E; [done|]. apply NoDup_app. split_and!; [done| |apply NoDup_singleton].
    intros ck Hck ->%list_elem_of_singleton. apply E. rewrite lastw_dom. by apply HO.
  - intros ck. rewrite elem_of_app, <- HO. cbn. rewrite list_elem_of_singleton.
    case_bool_decide as E; rewrite ?elem_of_app, ?list_elem_of_singleton; [|done].
    split; [by left|]. intros [Hc| ->]; [done|]. apply HO. by apply lastw_dom.
Qed.

Lemma coalesce_spec reg l :
  Forall normal l ->
  let b := coalesce reg l in
  b_map b = lastw l /\ NoDup (b_order b) /\ (forall ck, ck ∈ b_order b <-> ck ∈ ch_ck <$> l) /\
  b_maxSeq b = position_after l 0 /\ b_batch b = l.
Proof. apply coalesce_fold. Qed.

Lemma position_after_ge l : forall p, p <= position_after l p /\ Forall (fun ch => ch_Seq ch <= position_after l p) l.
Proof.
  induction l as [|ch l IH]; intros p; [by split|]. unfold position_after in *. cbn.
  destruct (IH (if p <? ch_Seq ch then ch_Seq ch else p)) as [H1 H2].
  destruct (p <? ch_Seq ch) eqn:E; [apply Z.ltb_lt in E|apply Z.ltb_ge in E]; (split; [lia|]); constructor; try done; lia.
Qed.

(** The changes of a batch, each with the sequence number of the batch. *)
Lemma lastw_coalesced (l : gmap CacheKey Change) seq order ck :
  (forall ck ch, l !! ck = Some ch -> ck = ch_ck ch) ->
  lastw (omap (fun ck => set_Seq seq <$> l !! ck) order) !! ck =
  if decide (ck ∈ order) then set_Seq seq <$> l !! ck else None.
Proof.
  intros HK. induction order as [|x order IH] using rev_ind.
  { cbn. by rewrite decide_False by set_solver. }
  rewrite omap_app. cbn. destruct (l !! x) as [ch|] eqn:E; cbn.
  - pose proof (HK _ _ E) as ->. rewrite lastw_snoc. change (ch_ck (set_Seq seq ch)) with (ch_ck ch).
    destruct (decide (ck = ch_ck ch)) as [->|Hne].
    + rewrite lookup_insert_eq, decide_True by set_solver. by rewrite E.
    + rewrite lookup_insert_ne by done. rewrite IH. apply decide_ext. set_solver.
  - rewrite app_nil_r, IH. destruct (decide (ck ∈ order)) as [H1|H1].
    + by rewrite decide_True by set_solver.
    + destruct (decide (ck ∈ order ++ [x])) as [H2|H2]; [|done]. assert (ck = x) as -> by set_solver. by rewrite E.
Qed.

Lemma coalesced_normal b : map_Forall (fun _ => normal) (b_map b) -> Forall normal (coalescedChanges b).
Proof.
  intros HM. apply Forall_forall. intros ch Hin. apply list_elem_of_omap in Hin as (ck & _ & Hch).
  apply fmap_Some in Hch as (x & Hx & ->). exact (HM _ _ Hx).
Qed.

Lemma lastw_normal l : Forall normal l -> map_Forall (fun _ => normal) (lastw l).
Proof. intros HF ck ch Hl. apply lastw_elem in Hl as [Hin _]. rewrite Forall_forall in HF. by apply HF. Qed.

Lemma coalesced_row reg l t k o :
  Forall normal l -> row_after (coalescedChanges (coalesce reg l)) t k o = row_after l t k o.
Proof.
  intros HF. destruct (coalesce_spec reg l HF) as (HM & _ & HO & _). cbv zeta in *.
  rewrite (row_after_lastw l), row_after_lastw by (done || (apply coalesced_normal; rewrite HM; by apply lastw_normal)).
  unfold coalescedChanges. rewrite HM, lastw_coalesced by (intros ck ch [_ Hl]%lastw_elem; exact Hl).
  destruct (lastw l !! mkCK t k) as [ch|] eqn:E.
  - rewrite decide_True; [done|]. apply HO, lastw_dom. by rewrite E.
  - by destruct (decide _).
Qed.

Lemma coalesced_nonempty reg l : Forall normal l -> l <> [] -> coalescedChanges (coalesce reg l) <> [].
Proof.
  intros HF HN HE. destruct (coalesce_spec reg l HF) as (HM & _ & HO & _). cbv zeta in *.
  destruct l as [|x l]; [done|]. assert (is_Some (lastw (x :: l) !! ch_ck x)) as [ch Hch] by (apply lastw_dom; by left).
  assert (ch_ck x ∈ b_order (coalesce reg (x :: l))) as Hin by (apply HO; by left).
  assert (set_Seq (b_maxSeq (coalesce reg (x :: l))) ch ∈ coalescedChanges (coalesce reg (x :: l))) as Hel.
  { apply list_elem_of_omap. exists (ch_ck x). split; [done|]. by rewrite HM, Hch. }
  rewrite HE in Hel. by apply elem_of_nil in Hel.
Qed.

(** ** Calls with one sequence number each *)

(** Each call of [ApplyChanges] carries the changes of one transaction, with a
    sequence number above those before. *)
Fixpoint calls_ok (P : Change -> Prop) (pos : Z) (calls : list (list Change)) : Prop :=
  match calls with
  | [] => True
  | g :: calls =>
    g <> [] /\ Forall P g /\
    exists s, pos < s /\ Forall (fun ch => ch_Seq ch = s) g /\ calls_ok P s calls
  end.

Definition dbl (g : list Change) : list Change := g ++ g.

Lemma position_same g s : forall p, Forall (fun ch => ch_Seq ch = s) g -> p <= s -> g <> [] -> position_after g p = s.
Proof.
  unfold position_after. induction g as [|ch g IH]; intros p HF Hp HN; [done|].
  inversion HF as [|? ? Hs HF']; subst. cbn.
  replace (if p <? ch_Seq ch then ch_Seq ch else p) with (ch_Seq ch) by (destruct (Z.ltb_spec p (ch_Seq ch)); lia).
  destruct g as [|ch' g]; [done|]. by apply IH.
Qed.

Lemma calls_ok_app P a b : forall pos,
  calls_ok P pos (a ++ b) <-> calls_ok P pos a /\ calls_ok P (position_after (concat a) pos) b.
Proof.
  induction a as [|g a IH]; intros pos; cbn; [naive_solver|].
  split.
  - intros (HN & HP & s & Hs & HF & HC). apply IH in HC as [HA HB].
    split; [by eauto 10|]. rewrite position_after_app, (position_same g s) by (done || lia). done.
  - intros [(HN & HP & s & Hs & HF & HA) HB]. split_and!; try done. exists s. split_and!; try done.
    apply IH. split; [done|]. by rewrite position_after_app, (position_same g s) in HB by (done || lia).
Qed.

Lemma calls_ok_all P gs : forall pos, calls_ok P pos gs -> Forall P (concat gs).
Proof. induction gs as [|g gs IH]; intros pos; cbn; [done|]. intros (_ & HP & s & _ & _ & HC). apply Forall_app. eauto. Qed.

Lemma calls_ok_above P gs : forall pos, calls_ok P pos gs -> Forall (fun ch => pos < ch_Seq ch) (concat gs).
Proof.
  induction gs as [|g gs IH]; intros pos; cbn; [done|]. intros (_ & _ & s & Hs & HF & HC). apply Forall_app. split.
  - eapply Forall_impl; [exact HF|]. intros ch. cbn. lia.
  - eapply Forall_impl; [exact (IH s HC)|]. intros ch. cbn. lia.
Qed.

Definition norm_calls (reg : option Registry) (gs : list (list Change)) : list (list Change) :=
  map (fun g => norm_change reg <$> g) gs.

Lemma calls_ok_norm reg gs : forall pos,
  calls_ok full_change pos gs -> calls_ok normal pos (norm_calls reg gs).
Proof.
  induction gs as [|g gs IH]; intros pos; cbn; [done|]. intros (HN & HP & s & Hs & HF & HC).
  split; [by destruct g|]. rewrite !Forall_fmap. split.
  - eapply Forall_impl; [exact HP|]. intros ch. apply norm_change_normal.
  - exists s. rewrite Forall_fmap. split_and!; try done. by apply IH.
Qed.

Lemma position_norm reg l : forall p, position_after (norm_change reg <$> l) p = position_after l p.
Proof. induction l as [|ch l IH]; intros p; [done|]. unfold position_after in *. cbn. apply IH. Qed.

Lemma Forall_dbl (P : Change -> Prop) gs : Forall P (concat gs) -> Forall P (concat (dbl <$> gs)).
Proof.
  induction gs as [|g gs IH]; cbn; [done|]. intros [Hg HG]%Forall_app. apply Forall_app. split; [|by apply IH].
  by apply Forall_app.
Qed.

Lemma position_dbl P gs : forall p q,
  calls_ok P p gs -> q <= p -> gs <> [] -> position_after (concat (dbl <$> gs)) q = position_after (concat gs) p.
Proof.
  induction gs as [|g gs IH]; intros p q HC Hq HN; [done|]. cbn in HC |- *. destruct HC as (HG & _ & s & Hs & HF & HC).
  unfold dbl at 1.
  rewrite !position_after_app, (position_same g s q), (position_same g s p), (position_same g s s) by (done || lia).
  destruct gs as [|g' gs]; [done|]. by apply IH.
Qed.

(** ** Batches are cut between transactions *)

Lemma same_seq_app s l r : Forall (fun ch => ch_Seq ch = s) l -> same_seq s (l ++ r) = (length l + same_seq s r)%nat.
Proof. induction 1 as [|ch l Hs _ IH]; cbn; [done|]. by rewrite Hs, Z.eqb_refl, IH. Qed.

Lemma same_seq_next P s gs : calls_ok P s gs -> same_seq s (concat (dbl <$> gs)) = O.
Proof.
  destruct gs as [|[|ch g] gs]; cbn; [done|naive_solver|]. intros (_ & _ & s' & Hs & HF & _).
  inversion HF as [|? ? E _]; subst. destruct (Z.eqb_spec (ch_Seq ch) s); [lia|done].
Qed.

Lemma batch_limit_groups P target gs : forall fuel a pos,
  calls_ok P pos gs -> (length gs <= fuel)%nat ->
  exists n, (n <= length gs)%nat /\ (gs <> [] -> (0 < n)%nat) /\
    batch_limit fuel target (a ++ concat (dbl <$> gs)) (length a) =
    (length a + length (concat (dbl <$> take n gs)))%nat.
Proof.
  induction gs as [|g gs IH]; intros fuel a pos HC HF.
  { exists O. split_and!; [done|done|]. cbn. rewrite app_nil_r, Nat.add_0_r. destruct fuel; cbn; [done|].
    by rewrite drop_all. }
  destruct fuel as [|fuel]; [cbn in HF; lia|]. cbn in HC. destruct HC as (HG & _ & s & Hs & HS & HC).
  destruct g as [|ch g]; [done|]. inversion HS as [|? ? Hch HS']; subst. cbn [batch_limit fmap list_fmap concat].
  rewrite drop_app_length. unfold dbl at 1. cbn [app].
  rewrite <- (app_assoc g), same_seq_app by done. cbn [app same_seq]. rewrite Z.eqb_refl.
  rewrite same_seq_app, (same_seq_next P) by done.
  assert (length a + 1 + (length g + S (length g + 0)) = length (a ++ dbl (ch :: g)))%nat as ->.
  { unfold dbl. rewrite !length_app. cbn. lia. }
  destruct (target <=? _).
  - exists 1%nat. split_and!; [cbn; lia|lia|]. cbn [take fmap list_fmap concat]. rewrite app_nil_r, length_app. done.
  - cbn in HF. destruct (IH fuel (a ++ dbl (ch :: g)) (ch_Seq ch) HC) as (n & Hn & _ & HB); [lia|].
    exists (S n). split_and!; [cbn; lia|lia|]. rewrite <- app_assoc in HB. unfold dbl at 1 in HB.
    etransitivity; [|etransitivity; [exact HB|]].
    + done.
    + cbn [take fmap list_fmap concat]. rewrite !length_app. lia.
Qed.

(** ** The overlay *)

Context `{LIL : !LocalIndexLaw I} `{RCL : !ReadCacheLaw C CacheKey (option Msg)}.

Definition entry_of (ch : Change) : OverlayEntry :=
  mkOverlay (ch_Op ch) (ch_Row ch) (ch_Seq ch)
    (Z.of_nat (length (ch_RawKey ch)) + Z.of_nat (length (ch_RawVal ch)) + 64).

Definition overlay_bytes (m : gmap CacheKey OverlayEntry) : Z := map_fold (fun _ e z => ov_Size e + z) 0 m.

(** [v'] differs from [v] in the overlay and the cache only. *)
Definition frame (v v' : View) : Prop :=
  v' = set_cache (set_overlay v (v_overlay v') (v_unappliedBytes v')) (v_cache v').

Lemma frame_refl v : frame v v.
Proof. by destruct v. Qed.

Lemma frame_trans v1 v2 v3 : frame v1 v2 -> frame v2 v3 -> frame v1 v3.
Proof. unfold frame. intros H1 H2. rewrite H2, H1. done. Qed.

Lemma overlay_bytes_insert m ck e :
  m !! ck = None -> overlay_bytes (<[ck := e]> m) = ov_Size e + overlay_bytes m.
Proof.
  intros HN. unfold overlay_bytes. rewrite (map_fold_insert_L (fun _ (e : OverlayEntry) z => ov_Size e + z)); [done| |done].
  intros. lia.
Qed.

Lemma overlay_bytes_delete m ck e :
  m !! ck = Some e -> overlay_bytes m = ov_Size e + overlay_bytes (delete ck m).
Proof.
  intros HL. rewrite <- (insert_delete_id m ck e HL) at 1.
  by apply overlay_bytes_insert, lookup_delete_eq.
Qed.

Lemma overlay_bytes_nonneg m : map_Forall (fun _ e => 0 <= ov_Size e) m -> 0 <= overlay_bytes m.
Proof.
  induction m as [|ck e m Hck IH] using map_ind; intros HF; [done|].
  rewrite overlay_bytes_insert by done. apply map_Forall_insert in HF as [He HF]; [|done]. specialize (IH HF). lia.
Qed.

Lemma entry_of_sizes (m : gmap CacheKey Change) : map_Forall (fun _ e => 0 <= ov_Size e) (entry_of <$> m).
Proof. intros ck e. rewrite lookup_fmap. intros (ch & _ & ->)%fmap_Some. cbn. lia. Qed.

Lemma overlay_bytes_replace m ck e :
  overlay_bytes (<[ck := e]> m) =
  match m !! ck with Some old => overlay_bytes m - ov_Size old | None => overlay_bytes m end + ov_Size e.
Proof.
  destruct (m !! ck) as [old|] eqn:E.
  - rewrite (overlay_bytes_delete m ck old E). rewrite <- insert_delete_eq, overlay_bytes_insert by apply lookup_delete_eq. lia.
  - rewrite overlay_bytes_insert by done. lia.
Qed.

(** The cache holds rows of [truth] only, but for the keys in [D]. *)
Definition cache_ok (truth : CacheKey -> option Msg) (D : CacheKey -> Prop) (c : C) : Prop :=
  rd_inv c /\ forall ck x, rd_row c ck = Some x -> D ck \/ x = truth ck.

Lemma overlay_changes_ok chs : forall v,
  rd_inv (v_cache v) -> v_unappliedBytes v = overlay_bytes (v_overlay v) ->
  exists v', overlay_changes v chs = Some v' /\ frame v v' /\
    v_overlay v' = (entry_of <$> lastw chs) ∪ v_overlay v /\
    v_unappliedBytes v' = overlay_bytes (v_overlay v') /\ rd_inv (v_cache v') /\
    forall ck x, v_cacheDisabled v = false -> rd_row (v_cache v') ck = Some x ->
      ck ∉ ch_ck <$> chs /\ rd_row (v_cache v) ck = Some x.
Proof.
  induction chs as [|ch chs IH]; intros v HI HB.
  { exists v. split_and!; try done; [apply frame_refl| |set_solver]. cbn. by rewrite fmap_empty, (left_id_L ∅ (∪)). }
  cbn [overlay_changes]. unfold overlay_change. cbv zeta.
  set (v1 := set_overlay v _ _). assert (v_unappliedBytes v1 = overlay_bytes (v_overlay v1)) as HB1.
  { cbn. rewrite overlay_bytes_replace, HB. by destruct (v_overlay v !! _). }
  assert (exists v2, (if v_cacheDisabled v1 then Some v1
           else c ← rd_Remove (v_cache v1) (mkCK (ch_TypeName ch) (ch_Key ch)); Some (set_cache v1 c)) = Some v2 /\
    frame v1 v2 /\ v_overlay v2 = v_overlay v1 /\ v_unappliedBytes v2 = v_unappliedBytes v1 /\ rd_inv (v_cache v2) /\
    forall ck x, v_cacheDisabled v = false -> rd_row (v_cache v2) ck = Some x -> ck <> ch_ck ch /\ rd_row (v_cache v) ck = Some x)
    as (v2 & -> & HF2 & HO2 & HU2 & HI2 & HC2).
  { cbn [v_cacheDisabled v1 set_overlay]. destruct (v_cacheDisabled v) eqn:ED.
    - exists v1. split_and!; try done. 
    - destruct (cache_Remove (v_cache v1) (ch_ck ch) HI) as (c & HR & HIc & HCc). unfold ch_ck in HR. rewrite HR.
      cbn [mbind option_bind]. exists (set_cache v1 c). split_and!; try done. intros ck x _. apply HCc. }
  cbn [mbind option_bind].
  destruct (IH v2 HI2 ltac:(by rewrite HO2, HU2)) as (v3 & -> & HF3 & HO3 & HU3 & HI3 & HC3).
  exists v3. split_and!; try done.
  - eapply frame_trans; [|exact HF3]. eapply frame_trans; [|exact HF2]. done.
  - rewrite HO3, HO2. change (ch :: chs) with ([ch] ++ chs). rewrite lastw_app.
    cbn [lastw foldl v_overlay v1 set_overlay]. rewrite map_fmap_union, fmap_insert, fmap_empty.
    rewrite <- (assoc_L (∪)). f_equal. rewrite <- insert_union_l, (left_id_L ∅ (∪)). done.
  - intros ck x HD Hx. assert (v_cacheDisabled v2 = false) as HD2 by (rewrite HF2; exact HD).
    destruct (HC3 ck x HD2 Hx) as [Hnot Hrow]. destruct (HC2 ck x HD Hrow) as [Hne Hrow']. set_solver.
Qed.

Lemma write_effect ch : is_write (ch_Op ch) = true -> ch_effect ch = ch_Row ch.
Proof.
  unfold is_write, ch_effect, OpRecord_CREATE, OpRecord_UPDATE, OpRecord_DELETE. intros HW.
  destruct (Z.eqb_spec (ch_Op ch) 2) as [E|]; [|done]. by rewrite E in HW.
Qed.

(** The keys whose overlay entry the batch covers. *)
Definition covered (b : Batch) (o : gmap CacheKey OverlayEntry) (ck : CacheKey) : Prop :=
  is_Some (b_map b !! ck) /\ exists e, o !! ck = Some e /\ ov_Seq e <= b_maxSeq b.

Lemma clean_key_ok b v ck :
  rd_inv (v_cache v) -> v_unappliedBytes v = overlay_bytes (v_overlay v) ->
  map_Forall (fun _ e => 0 <= ov_Size e) (v_overlay v) -> map_Forall (fun _ => normal) (b_map b) ->
  exists v', clean_key b v ck = Some v' /\ frame v v' /\ rd_inv (v_cache v') /\
    v_unappliedBytes v' = overlay_bytes (v_overlay v') /\
    (covered b (v_overlay v) ck -> v_overlay v' = delete ck (v_overlay v)) /\
    (~ covered b (v_overlay v) ck -> v_overlay v' = v_overlay v) /\
    forall ck' x, rd_row (v_cache v') ck' = Some x ->
      rd_row (v_cache v) ck' = Some x \/
      exists ch, ck' = ck /\ b_map b !! ck = Some ch /\ covered b (v_overlay v) ck /\ x = ch_effect ch.
Proof.
  intros HI HB HS HN. unfold clean_key. destruct (b_map b !! ck) as [ch|] eqn:EM.
  2:{ exists v. split_and!; try done; [apply frame_refl|intros [[? ?] _]; congruence|by eauto]. }
  destruct (v_overlay v !! ck) as [e|] eqn:EO.
  2:{ exists v. split_and!; try done; [apply frame_refl|intros (_ & ? & ? & _); congruence|by eauto]. }
  destruct (ov_Seq e <=? b_maxSeq b) eqn:EL; [apply Z.leb_le in EL|apply Z.leb_gt in EL].
  2:{ exists v. split_and!; try done; [apply frame_refl| |by eauto]. intros (_ & e' & He' & Hle). rewrite EO in He'. injection He' as <-. lia. }
  assert (covered b (v_overlay v) ck) as HC by (split; [by rewrite EM|by eauto]).
  set (v1 := set_overlay v _ _). cbv zeta. assert (v_unappliedBytes v1 = overlay_bytes (v_overlay v1)) as HB1.
  { cbn. rewrite HB, (overlay_bytes_delete _ _ _ EO).
    pose proof (overlay_bytes_nonneg (delete ck (v_overlay v)) ltac:(by apply map_Forall_delete)).
    unfold clamp. destruct (Z.ltb_spec (ov_Size e + overlay_bytes (delete ck (v_overlay v)) - ov_Size e) 0); lia. }
  change (v_cacheDisabled v1) with (v_cacheDisabled v). destruct (v_cacheDisabled v) eqn:ED.
  { exists v1. split_and!; try done. intros ck' x Hx. by left. }
  pose proof (HN _ _ EM) as [[_ HF] _].
  assert (exists y c, (if is_write (ch_Op ch) then
      match ch_Row ch with
      | Some row => c ← rd_Put (v_cache v1) ck (Some row); Some (set_cache v1 c)
      | None => c ← rd_Remove (v_cache v1) ck; Some (set_cache v1 c)
      end
    else if ch_Op ch =? OpRecord_DELETE then c ← rd_Put (v_cache v1) ck None; Some (set_cache v1 c)
    else Some v1) = Some (set_cache v1 c) /\ rd_Put (v_cache v1) ck y = Some c /\ y = ch_effect ch) as (y & c & HE & HP & Hy).
  { destruct HF as [[HW [row HR]]|HD].
    - rewrite HW, HR, (write_effect ch HW), HR.
      destruct (cache_Put (v_cache v1) ck (Some row) HI) as (c & HP & _). rewrite HP. by eauto.
    - unfold ch_effect. rewrite HD. change (is_write OpRecord_DELETE) with false. rewrite Z.eqb_refl.
      destruct (cache_Put (v_cache v1) ck None HI) as (c & HP & _). rewrite HP. by eauto. }
  rewrite HE. destruct (cache_Put (v_cache v1) ck y HI) as (c' & HP' & HI' & HR'). rewrite HP in HP'. injection HP' as <-.
  exists (set_cache v1 c). split_and!; try done.
  intros ck' x Hx. destruct (HR' ck' x Hx) as [[-> ->]|[_ Hold]]; [|by left]. right. exists ch. by subst y.
Qed.

Lemma clean_keys_ok b cks : forall v,
  rd_inv (v_cache v) -> v_unappliedBytes v = overlay_bytes (v_overlay v) ->
  map_Forall (fun _ e => 0 <= ov_Size e) (v_overlay v) -> map_Forall (fun _ => normal) (b_map b) ->
  exists v', clean_keys b v cks = Some v' /\ frame v v' /\ rd_inv (v_cache v') /\
    v_unappliedBytes v' = overlay_bytes (v_overlay v') /\
    (forall ck, ck ∈ cks -> covered b (v_overlay v) ck -> v_overlay v' !! ck = None) /\
    (forall ck, ck ∉ cks \/ ~ covered b (v_overlay v) ck -> v_overlay v' !! ck = v_overlay v !! ck) /\
    forall ck x, rd_row (v_cache v') ck = Some x ->
      rd_row (v_cache v) ck = Some x \/
      exists ch, b_map b !! ck = Some ch /\ covered b (v_overlay v) ck /\ x = ch_effect ch.
Proof.
  induction cks as [|ck cks IH]; intros v HI HB HS HN.
  { exists v. split_and!; try done; [apply frame_refl|set_solver|by eauto]. }
  cbn [clean_keys]. destruct (clean_key_ok b v ck HI HB HS HN) as (v1 & -> & HF1 & HI1 & HB1 & HY1 & HN1 & HR1).
  cbn [mbind option_bind].
  assert (covered b (v_overlay v) ck \/ ~ covered b (v_overlay v) ck) as HD.
  { unfold covered. destruct (b_map b !! ck); [|right; by intros [[? ?] _]].
    destruct (v_overlay v !! ck) as [e|]; [|right; by intros (_ & ? & ? & _)].
    destruct (decide (ov_Seq e <= b_maxSeq b)); [left; by eauto|right; naive_solver]. }
  assert (map_Forall (fun _ e => 0 <= ov_Size e) (v_overlay v1)) as HS1.
  { destruct HD as [HC|HC]; [rewrite (HY1 HC); by apply map_Forall_delete|by rewrite (HN1 HC)]. }
  destruct (IH v1 HI1 HB1 HS1 HN) as (v2 & -> & HF2 & HI2 & HB2 & HY2 & HN2 & HR2).
  assert (forall ck', ck' <> ck -> v_overlay v1 !! ck' = v_overlay v !! ck') as HE.
  { intros ck' Hne. destruct HD as [HC|HC]; [rewrite (HY1 HC); by apply lookup_delete_ne|by rewrite (HN1 HC)]. }
  assert (forall ck', ck' <> ck -> covered b (v_overlay v1) ck' <-> covered b (v_overlay v) ck') as HCE
    by (intros ck' Hne; unfold covered; by rewrite HE).
  assert (covered b (v_overlay v1) ck -> False) as HCk.
  { intros HC. destruct HD as [HC0|HC0]; [|by rewrite (HN1 HC0) in HC].
    destruct HC as (_ & e & He & _). by rewrite (HY1 HC0), lookup_delete_eq in He. }
  exists v2. split_and!; try done; [by eapply frame_trans| | |].
  - intros ck' Hin HC. destruct (decide (ck' = ck)) as [->|Hne].
    + rewrite HN2 by (right; done). rewrite (HY1 HC). apply lookup_delete_eq.
    + apply HY2; [set_solver|by apply HCE].
  - intros ck' HC. destruct (decide (ck' = ck)) as [->|Hne].
    + destruct HC as [HC|HC]; [set_solver|]. rewrite HN2 by (right; done). by rewrite (HN1 HC).
    + rewrite HN2, HE; [done..|]. rewrite HCE by done. set_solver.
  - intros ck' x Hx. destruct (HR2 ck' x Hx) as [Hx1|(ch & Hch & HC & ->)].
    + destruct (HR1 ck' x Hx1) as [|(ch & -> & Hch & HC & ->)]; [by left|right; by eauto].
    + right. exists ch. split_and!; try done. destruct (decide (ck' = ck)) as [->|Hne]; [done|by apply HCE].
Qed.

(** ** Executions *)

(** The view, the batch the applier works on with whether the index has it, and
    the calls of [ApplyChanges] so far. *)
Record vstate : Type := mkVS {
  vs_view : View;
  vs_flight : option (Batch * bool);
  vs_calls : list (list Change);
}.

(** Calls and reads interleave with the lock regions of the applier.  The index
    or the statistics may refuse a batch and the fault hook may fail it, after
    which it is cut again. *)
Inductive vstep : vstate -> vstate -> Prop :=
| step_call v fl calls chs v' :
    ApplyChanges v chs = Some v' -> vstep (mkVS v fl calls) (mkVS v' fl (calls ++ [chs]))
| step_cut v calls :
    v_queue v <> [] -> vstep (mkVS v None calls) (mkVS v (Some (cut_batch v, false)) calls)
| step_apply v b calls v' :
    apply_batch v b = Some (v', Ok ()) -> vstep (mkVS v (Some (b, false)) calls) (mkVS v' (Some (b, true)) calls)
| step_refused v b calls v' e :
    apply_batch v b = Some (v', Err e) -> vstep (mkVS v (Some (b, false)) calls) (mkVS v' None calls)
| step_fault v b calls :
    vstep (mkVS v (Some (b, false)) calls) (mkVS v None calls)
| step_finish v b calls cks v' :
    cks ≡ₚ b_order b -> finish_batch v b cks = Some v' ->
    vstep (mkVS v (Some (b, true)) calls) (mkVS v' None calls)
| step_get v fl calls t k v' r :
    View_Get v t k = Some (v', r) -> vstep (mkVS v fl calls) (mkVS v' fl calls)
| step_limits v fl calls n b v' :
    SetCacheLimits v n b = Some v' -> vstep (mkVS v fl calls) (mkVS v' fl calls)
| step_clear v fl calls :
    vstep (mkVS v fl calls) (mkVS (ClearCache v) fl calls).

(** ** The invariant *)

(** The statistics function changes the message it is given, not its type. *)
Definition in_place (update : option StatsUpdateFunc) : Prop :=
  forall u s b a s', update = Some u -> u s b a = Some s' -> msg_name s' = msg_name s.

(** The rows of a table are messages of its type. *)
Definition typed (t : bytes) (o : option Msg) : Prop := forall m, o = Some m -> msg_name m = t.
Definition typed_change (ch : Change) : Prop := typed (ch_TypeName ch) (ch_Row ch).

Lemma row_after_typed chs t k : forall o, Forall typed_change chs -> typed t o -> typed t (row_after chs t k o).
Proof.
  unfold row_after. induction chs as [|ch chs IH]; intros o HC Ho; [done|]. apply Forall_cons in HC as [H1 HC]. apply IH; [done|].
  unfold change_effect. case_bool_decide as E; [|done]. destruct E as [<- _]. by destruct (_ =? _); [intros m|].
Qed.

(** The fold of the statistics over typed changes does not fail. *)
Lemma update_stats_typed (good : Msg -> Prop) name u reg lookup :
  (forall t k, exists o, lookup t k = Ok o /\ (t <> name -> typed t o)) ->
  (forall s b a t, good s -> typed t b -> typed t a -> exists s', u s b a = Some s' /\ good s') ->
  forall chs latest st, Forall full_change chs -> Forall typed_change chs ->
    (forall ck o, latest !! ck = Some o -> typed (ck_Table ck) o) -> good st ->
    exists st', update_stats name u reg lookup latest st chs = Ok st' /\ good st'.
Proof.
  intros HL HU. induction chs as [|ch chs IH]; intros latest st HF HT HM HN; cbn [update_stats]; [by exists st|].
  apply Forall_cons in HF as [[HTN HOp] HF]. apply Forall_cons in HT as [HT1 HT].
  assert (view_table reg ch = ch_TypeName ch) as ->.
  { unfold view_table, norm_table. destruct reg; [by rewrite bool_decide_eq_false_2|done]. }
  case_bool_decide as E; [by apply IH|].
  assert (exists before, match latest !! mkCK (ch_TypeName ch) (norm_key ch) with
    | Some prev => Ok prev | None => lookup (ch_TypeName ch) (norm_key ch) end = Ok before /\ typed (ch_TypeName ch) before)
    as (before & -> & Hb).
  { destruct (latest !! _) as [prev|] eqn:EL; [exists prev; split; [done|by apply HM in EL]|].
    destruct (HL (ch_TypeName ch) (norm_key ch)) as (o & -> & Ho). exists o. auto. }
  assert (exists after, stats_after reg (ch_TypeName ch) ch = Ok after /\ typed (ch_TypeName ch) after) as (after & -> & Ha).
  { unfold stats_after. destruct HOp as [[-> [row Hrow]]| -> ]; [|by exists None].
    exists (Some row). rewrite Hrow. split; [done|]. by rewrite <- Hrow. }
  destruct (HU st before after (ch_TypeName ch) HN Hb Ha) as (st1 & -> & Hst1).
  apply IH; [done|done| |done].
  intros ck o. rewrite lookup_insert_Some. intros [[<- <-]|[_ ?]]; [done|by apply HM].
Qed.

Section invariant.
Variable rows0 : bytes -> bytes -> option Msg.
Variable pos0 : Z.
Variable stats : option bytes.

Definition rows_at (calls : list (list Change)) (t k : bytes) : option Msg :=
  row_after (concat calls) t k (rows0 t k).

(** The index holds the rows after the calls, apart from the statistics. *)
Definition index_at (i : I) (calls : list (list Change)) : Prop :=
  (forall t k, Some t <> stats -> li_row i t k = rows_at calls t k) /\
  li_Position i = position_after (concat calls) pos0.

Definition queued (reg : option Registry) (calls : list (list Change)) : list Change :=
  concat (dbl <$> norm_calls reg calls).

Definition flight_ok (v : View) (applied rest : list (list Change)) (fl : option (Batch * bool)) : Prop :=
  match fl with
  | None => index_at (v_index v) applied
  | Some (b, ap) =>
    exists n, (0 < n <= length rest)%nat /\ b = coalesce (v_reg v) (queued (v_reg v) (take n rest)) /\
      index_at (v_index v) (if ap then applied ++ take n rest else applied)
  end.

Record view_inv (s : vstate) (applied rest : list (list Change)) : Prop := {
  inv_calls : vs_calls s = applied ++ rest;
  inv_queue : v_queue (vs_view s) = queued (v_reg (vs_view s)) rest;
  inv_overlay : v_overlay (vs_view s) = entry_of <$> lastw (concat (norm_calls (v_reg (vs_view s)) rest));
  inv_bytes : v_unappliedBytes (vs_view s) = overlay_bytes (v_overlay (vs_view s));
  inv_cache : rd_inv (v_cache (vs_view s));
  inv_cached : v_cacheDisabled (vs_view s) = false -> forall t k x, Some t <> stats ->
    rd_row (v_cache (vs_view s)) (mkCK t k) = Some x -> x = rows_at (applied ++ rest) t k;
  inv_flight : flight_ok (vs_view s) applied rest (vs_flight s);
  inv_stats : msg_name <$> v_statsRow (vs_view s) = stats;
  inv_in_place : in_place (v_statsUpdate (vs_view s));
  inv_pos : v_appliedPos (vs_view s) = position_after (concat applied) pos0;
}.

Lemma rows_at_app a b t k : rows_at (a ++ b) t k = row_after (concat b) t k (rows_at a t k).
Proof. unfold rows_at. by rewrite concat_app, row_after_app. Qed.

Lemma norm_calls_app reg a b : norm_calls reg (a ++ b) = norm_calls reg a ++ norm_calls reg b.
Proof. apply map_app. Qed.

Lemma queued_app reg a b : queued reg (a ++ b) = queued reg a ++ queued reg b.
Proof. unfold queued. by rewrite norm_calls_app, fmap_app, concat_app. Qed.

Lemma concat_norm_calls reg gs : concat (norm_calls reg gs) = norm_change reg <$> concat gs.
Proof. induction gs as [|g gs IH]; [done|]. cbn [norm_calls map concat]. rewrite fmap_app. f_equal. apply IH. Qed.

Lemma queued_normal reg gs pos : calls_ok full_change pos gs -> Forall normal (queued reg gs).
Proof. intros HC. apply Forall_dbl. eapply calls_ok_all. by eapply calls_ok_norm. Qed.

Lemma queued_lastw reg gs : lastw (queued reg gs) = lastw (concat (norm_calls reg gs)).
Proof. apply lastw_concat_dbl. Qed.

Lemma queued_row reg gs pos t k o :
  calls_ok full_change pos gs -> row_after (queued reg gs) t k o = row_after (concat gs) t k o.
Proof.
  intros HC. rewrite <- (row_after_norm reg (concat gs)) by (by eapply calls_ok_all).
  rewrite <- concat_norm_calls, !row_after_lastw, queued_lastw; [done| |by eapply queued_normal].
  by eapply calls_ok_all, calls_ok_norm.
Qed.

Lemma queued_position reg gs p : calls_ok full_change p gs -> 0 <= p -> gs <> [] ->
  position_after (queued reg gs) 0 = position_after (concat gs) p.
Proof.
  intros HC Hp HN. unfold queued. rewrite (position_dbl normal _ p 0); [|by apply calls_ok_norm|done|by destruct gs].
  by rewrite concat_norm_calls, position_norm.
Qed.

Lemma queued_length reg gs pos : calls_ok full_change pos gs -> (length gs <= length (queued reg gs))%nat.
Proof.
  revert pos. induction gs as [|g gs IH]; intros pos; [done|]. intros (HN & _ & s & _ & _ & HC).
  specialize (IH s HC). change (queued reg (g :: gs)) with (dbl (norm_change reg <$> g) ++ queued reg gs).
  unfold dbl. rewrite !length_app, length_fmap. destruct g; [done|]. cbn [length] in *. lia.
Qed.

(** The rows of keys that no pending call touches are those of the index. *)
Lemma untouched_row reg gs pos t k o :
  calls_ok full_change pos gs -> lastw (concat (norm_calls reg gs)) !! mkCK t k = None ->
  row_after (concat gs) t k o = o.
Proof.
  intros HC HL. rewrite <- (queued_row reg gs pos) by done.
  rewrite row_after_lastw by (by eapply queued_normal). by rewrite queued_lastw, HL.
Qed.

Lemma touched_row reg gs pos t k o ch :
  calls_ok full_change pos gs -> lastw (concat (norm_calls reg gs)) !! mkCK t k = Some ch ->
  row_after (concat gs) t k o = ch_effect ch.
Proof.
  intros HC HL. rewrite <- (queued_row reg gs pos) by done.
  rewrite row_after_lastw by (by eapply queued_normal). by rewrite queued_lastw, HL.
Qed.

(** ** Each step keeps it *)

Hypothesis pos0_nonneg : 0 <= pos0.
Hypothesis stats_named : stats <> Some [].

Lemma ApplyChanges_ok v chs :
  chs <> [] -> rd_inv (v_cache v) -> v_unappliedBytes v = overlay_bytes (v_overlay v) ->
  let N := norm_change (v_reg v) <$> chs in
  exists v1, ApplyChanges v chs = Some (set_queue v1 (v_queue v ++ N ++ N)) /\ frame v v1 /\
    v_overlay v1 = (entry_of <$> lastw N) ∪ v_overlay v /\
    v_unappliedBytes v1 = overlay_bytes (v_overlay v1) /\ rd_inv (v_cache v1) /\
    forall ck x, v_cacheDisabled v = false -> rd_row (v_cache v1) ck = Some x ->
      ck ∉ ch_ck <$> N /\ rd_row (v_cache v) ck = Some x.
Proof.
  intros HN HI HB. cbv zeta. destruct (overlay_changes_ok (norm_change (v_reg v) <$> chs) v HI HB) as (v1 & E1 & HF1 & HR).
  exists v1. split; [|done]. unfold ApplyChanges. destruct chs as [|ch chs]; [done|]. rewrite E1. cbn [mbind option_bind].
  rewrite HF1. cbn. by rewrite <- app_assoc.
Qed.

Lemma call_inv v fl calls chs v' applied rest :
  view_inv (mkVS v fl calls) applied rest -> calls_ok full_change pos0 (calls ++ [chs]) ->
  ApplyChanges v chs = Some v' -> view_inv (mkVS v' fl (calls ++ [chs])) applied (rest ++ [chs]).
Proof.
  intros [HC HQ HO HB HI HR HF HS HP HA] HK HE. cbn in *. apply calls_ok_app in HK as [_ HK].
  destruct (ApplyChanges_ok v chs) as (v1 & E1 & HF1 & HO1 & HB1 & HI1 & HR1); [by destruct HK|done..|].
  rewrite E1 in HE. injection HE as <-. set (N := norm_change (v_reg v) <$> chs) in *.
  split; cbn [vs_calls vs_view vs_flight].
  - by rewrite HC, app_assoc.
  - rewrite HF1. cbn. rewrite HQ, queued_app. unfold queued. cbn. by rewrite app_nil_r.
  - cbn [v_overlay set_queue v_reg]. rewrite HO1, HO, norm_calls_app, concat_app.
    rewrite lastw_app, map_fmap_union. cbn [norm_calls map concat]. rewrite app_nil_r. by rewrite HF1.
  - exact HB1.
  - exact HI1.
  - cbn [v_cacheDisabled set_queue v_cache]. intros HD t k x Ht Hx.
    assert (v_cacheDisabled v = false) as HD0 by (rewrite HF1 in HD; exact HD).
    destruct (HR1 _ _ HD0 Hx) as [Hnot Hold]. rewrite (HR HD0 t k x Ht Hold), app_assoc, (rows_at_app (applied ++ rest)).
    symmetry. apply (untouched_row (v_reg v) [chs] _ t k _ HK). cbn [norm_calls map concat]. rewrite app_nil_r.
    apply eq_None_not_Some. by rewrite lastw_dom.
  - unfold flight_ok in *. cbn [set_queue v_index v_reg].
    replace (v_index v1) with (v_index v) by (by rewrite HF1). replace (v_reg v1) with (v_reg v) by (by rewrite HF1).
    destruct fl as [[b ap]|]; [|done]. destruct HF as (n & Hn & Hb & Hix). exists n.
    rewrite length_app. rewrite take_app_le by lia. split; [lia|]. done.
  - rewrite HF1. exact HS.
  - rewrite HF1. exact HP.
  - rewrite HF1. exact HA.
Qed.

Lemma cut_inv v calls applied rest :
  view_inv (mkVS v None calls) applied rest -> calls_ok full_change pos0 calls -> v_queue v <> [] ->
  view_inv (mkVS v (Some (cut_batch v, false)) calls) applied rest.
Proof.
  intros [HC HQ HO HB HI HR HF HS HP HA] HK HN. split; try done. cbn in *. subst calls.
  apply calls_ok_app in HK as [_ HK].
  destruct (batch_limit_groups normal (if v_batchSize v <=? 0 then 100 else v_batchSize v) (norm_calls (v_reg v) rest)
    (length (v_queue v)) [] _ (calls_ok_norm (v_reg v) _ _ HK)) as (n & Hn & Hpos & HL).
  { rewrite HQ. unfold norm_calls at 1. rewrite length_map. by eapply queued_length. }
  unfold norm_calls in Hn. rewrite length_map in Hn. exists n. split_and!; [|lia| |done].
  - apply Hpos. intros E. apply HN. rewrite HQ. unfold queued. by rewrite E.
  - unfold cut_batch. f_equal. cbn [app length] in HL. fold (queued (v_reg v) rest) in HL.
    rewrite <- HQ in HL. rewrite HL. rewrite HQ. rewrite <- (take_drop n rest) at 2. rewrite queued_app.
    assert (concat (dbl <$> take n (norm_calls (v_reg v) rest)) = queued (v_reg v) (take n rest)) as ->.
    { unfold queued, norm_calls. by rewrite firstn_map. }
    cbn. by rewrite take_app_length.
Qed.

Lemma update_stats_name name update reg lookup l : forall latest st st',
  (forall s b a s', update s b a = Some s' -> msg_name s' = msg_name s) ->
  update_stats name update reg lookup latest st l = Ok st' -> msg_name st' = msg_name st.
Proof.
  induction l as [|ch l IH]; intros latest st st' HU HE; cbn in HE; [by injection HE as <-|].
  case_bool_decide; [by eauto|].
  destruct (match latest !! _ with Some prev => Ok prev | None => _ end) as [before|]; [|done].
  destruct (stats_after reg (view_table reg ch) ch) as [after|]; [|done].
  destruct (update st before after) as [st1|] eqn:E; [|done]. rewrite (IH _ _ _ HU HE). by eapply HU.
Qed.

(** The statistics change that joins a batch, if any. *)
Lemma computeBatchStats_ok v batch seq toApply newStats :
  msg_name <$> v_statsRow v = stats -> in_place (v_statsUpdate v) ->
  computeBatchStats v batch (v_statsRow v) seq = Some (Ok (toApply, newStats)) ->
  msg_name <$> newStats = stats /\
  (toApply = batch \/
   exists st, toApply = batch ++ [st] /\ stats = Some (ch_TypeName st) /\ full_change st /\ ch_Seq st = seq).
Proof.
  intros HS HI HE. unfold computeBatchStats in HE.
  destruct (v_statsRow v) as [st0|] eqn:ES; [|injection HE as <- <-; by eauto].
  destruct (v_statsUpdate v) as [u|] eqn:EU; [|injection HE as <- <-; by eauto]. cbn [mbind option_bind] in HE.
  destruct (UpdateStatsFromChanges _ _ _ _ _) as [st1|] eqn:E1; [|done].
  apply update_stats_name in E1; [|by intros; eapply HI].
  destruct (v_reg v) as [reg|]; [|done]. cbn [mbind option_bind] in HE.
  destruct (Registry_LookupByName reg _) as [[def d]|]; [|injection HE as <- <-; by eauto].
  destruct (SplitKeyAndNonKey _ _) as [[kb vb]|]; [|done]. injection HE as <- <-.
  split; [cbn; by rewrite E1|]. right. eexists. split; [done|]. cbn in *. split; [done|]. split; [|done].
  split; cbn; [intros E; by rewrite E in HS; apply stats_named|]. left. by eauto.
Qed.

Lemma coalesced_seq reg l : Forall (fun ch => ch_Seq ch = b_maxSeq (coalesce reg l)) (coalescedChanges (coalesce reg l)).
Proof.
  apply Forall_forall. intros ch Hin. apply list_elem_of_omap in Hin as (ck & _ & Hch).
  by apply fmap_Some in Hch as (x & _ & ->).
Qed.

Lemma position_after_nonneg l p : 0 <= p -> 0 <= position_after l p.
Proof. intros. pose proof (position_after_ge l p) as [? _]. lia. Qed.

(** The changes of a batch bring the index to the end of its calls. *)
Lemma batch_index_at i applied calls b extra i' reg :
  calls_ok full_change (position_after (concat applied) pos0) calls -> calls <> [] ->
  b = coalesce reg (queued reg calls) -> index_at i applied ->
  (extra = [] \/ exists st, extra = [st] /\ stats = Some (ch_TypeName st) /\ full_change st /\ ch_Seq st = b_maxSeq b) ->
  li_ApplyBatch i (coalescedChanges b ++ extra) = (i', Ok ()) -> index_at i' (applied ++ calls).
Proof.
  intros HC HN -> [HR HP] HX HE. pose proof (queued_normal reg calls _ HC) as HQ.
  set (b := coalesce reg (queued reg calls)) in *. set (p := position_after (concat applied) pos0) in *.
  destruct (coalesce_spec reg (queued reg calls) HQ) as (HM & _ & _ & HS & _). cbv zeta in *. fold b in HM, HS.
  assert (Forall full_change (coalescedChanges b)) as HF.
  { eapply Forall_impl; [apply coalesced_normal; rewrite HM; by apply lastw_normal|]. by intros ch [? _]. }
  assert (Forall full_change extra) as HFe.
  { destruct HX as [->|(st & -> & _ & ? & _)]; [done|by constructor]. }
  destruct (ApplyBatch_ok i (coalescedChanges b ++ extra) i') as [HR' HP']; [by apply Forall_app|done|]. split.
  - intros t k Ht. rewrite HR', row_after_app, rows_at_app, HR by done.
    assert (row_after (coalescedChanges b) t k (rows_at applied t k) = row_after (concat calls) t k (rows_at applied t k)) as ->.
    { unfold b. rewrite coalesced_row by done. by eapply queued_row. }
    destruct HX as [->|(st & -> & Hst & _)]; [done|]. unfold row_after. cbn [foldl]. unfold change_effect.
    rewrite bool_decide_false; [done|]. intros [<- _]. by rewrite Hst in Ht.
  - rewrite HP', HP, concat_app, (position_after_app (concat applied)). fold p.
    rewrite <- (queued_position reg calls p HC) by (done || by (unfold p; apply position_after_nonneg)). rewrite <- HS.
    rewrite (position_same _ (b_maxSeq b)); [done| | |].
    + apply Forall_app. split; [apply coalesced_seq|]. destruct HX as [->|(st & -> & _ & _ & Hs)]; [done|by constructor].
    + rewrite HS, (queued_position reg calls p HC) by (done || by (unfold p; apply position_after_nonneg)).
      apply position_after_ge.
    + intros E. apply app_eq_nil in E as [E _]. apply (coalesced_nonempty reg (queued reg calls)); [done| |done].
      intros E'. pose proof (queued_length reg calls _ HC) as HL. rewrite E' in HL. destruct calls; [done|cbn in HL; lia].
Qed.

Lemma apply_inv v b calls v' applied rest :
  view_inv (mkVS v (Some (b, false)) calls) applied rest -> calls_ok full_change pos0 calls ->
  apply_batch v b = Some (v', Ok ()) -> view_inv (mkVS v' (Some (b, true)) calls) applied rest.
Proof.
  intros [HC HQ HO HB HI HR HF HS HP HA] HK HE. cbn in *. destruct HF as (n & Hn & Hb & Hix). subst calls.
  apply calls_ok_app in HK as [_ HK]. rewrite <- (take_drop n rest) in HK. apply calls_ok_app in HK as [HK _].
  pose proof (queued_normal (v_reg v) _ _ HK) as HNm.
  assert (b_batch b = queued (v_reg v) (take n rest)) as HBt by (rewrite Hb; by apply coalesce_spec).
  assert (take n rest <> []) as HT by (destruct rest, n; cbn in *; try lia; done).
  unfold apply_batch in HE. destruct (coalescedChanges b) as [|c0 cs] eqn:EC.
  { exfalso. rewrite Hb in EC. apply (coalesced_nonempty (v_reg v) _ HNm) in EC; [done|].
    intros E. pose proof (queued_length (v_reg v) _ _ HK) as HL. rewrite E in HL.
    destruct (take n rest); [done|cbn in HL; lia]. }
  rewrite <- EC in HE. destruct (computeBatchStats v (b_batch b) _ _) as [st|] eqn:ES; [|done]. cbn [mbind option_bind] in HE.
  destruct st as [[toApply newStats]|e]; [|done].
  destruct (computeBatchStats_ok v _ _ _ _ HS HP ES) as [HNS HX].
  set (changes := if (_ <? _)%nat then _ else _) in HE. destruct (li_ApplyBatch (v_index v) changes) as [i' [[]|e]] eqn:EA; [|done].
  injection HE as <-.
  assert (exists extra, changes = coalescedChanges b ++ extra /\
    (extra = [] \/ exists st, extra = [st] /\ stats = Some (ch_TypeName st) /\ full_change st /\ ch_Seq st = b_maxSeq b))
    as (extra & Ech & Hex).
  { unfold changes. destruct HX as [->|(st & -> & Hst)].
    - rewrite Nat.ltb_irrefl. exists []. rewrite app_nil_r. by auto.
    - rewrite length_app, (proj2 (Nat.ltb_lt _ _)) by (cbn; lia). rewrite last_snoc. exists [st]. by eauto. }
  rewrite Ech in EA. split; cbn; try done.
  - exists n. split; [done|]. split; [done|]. by eapply batch_index_at.
  - by destruct (v_statsUpdate v).
Qed.

Lemma refused_inv v b calls v' e applied rest :
  view_inv (mkVS v (Some (b, false)) calls) applied rest ->
  apply_batch v b = Some (v', Err e) -> view_inv (mkVS v' None calls) applied rest.
Proof.
  intros [HC HQ HO HB HI HR HF HS HP HA] HE. cbn in *. destruct HF as (n & Hn & Hb & Hix).
  unfold apply_batch in HE. destruct (coalescedChanges b) as [|c0 cs]; [done|].
  destruct (computeBatchStats v _ _ _) as [st|]; [|done]. cbn [mbind option_bind] in HE.
  destruct st as [[toApply newStats]|e']; [|by injection HE as <- <-].
  destruct (li_ApplyBatch (v_index v) _) as [i' [[]|e']] eqn:EA; [done|]. injection HE as <- <-.
  split; cbn; try done. apply ApplyBatch_err in EA as [ER EP]. destruct Hix as [H1 H2].
  split; [|by rewrite EP]. intros t k Ht. rewrite ER. by apply H1.
Qed.

Lemma fault_inv v b calls applied rest :
  view_inv (mkVS v (Some (b, false)) calls) applied rest -> view_inv (mkVS v None calls) applied rest.
Proof. intros [HC HQ HO HB HI HR HF HS HP HA]. destruct HF as (n & Hn & Hb & Hix). by split. Qed.

(** Sequence numbers on the two sides of a batch boundary. *)
Lemma lastw_seq_le reg gs p ck ch :
  calls_ok full_change p gs -> lastw (concat (norm_calls reg gs)) !! ck = Some ch -> ch_Seq ch <= position_after (concat gs) p.
Proof.
  intros HC HL. apply lastw_elem in HL as [Hin _].
  pose proof (position_after_ge (concat (norm_calls reg gs)) p) as [_ HF]. rewrite Forall_forall in HF.
  specialize (HF _ Hin). cbn in HF. by rewrite concat_norm_calls, position_norm in HF.
Qed.

Lemma lastw_seq_gt reg gs p ck ch :
  calls_ok full_change p gs -> lastw (concat (norm_calls reg gs)) !! ck = Some ch -> p < ch_Seq ch.
Proof.
  intros HC HL. apply lastw_elem in HL as [Hin _].
  pose proof (calls_ok_above normal _ _ (calls_ok_norm reg _ _ HC)) as HF. rewrite Forall_forall in HF. by apply HF.
Qed.

(** The keys a batch clears from the overlay are those no later call touches. *)
Lemma covered_iff v b applied rest n ck :
  let p := position_after (concat applied) pos0 in
  let D := lastw (concat (norm_calls (v_reg v) (drop n rest))) in
  let T := lastw (concat (norm_calls (v_reg v) (take n rest))) in
  calls_ok full_change p (take n rest) -> calls_ok full_change (position_after (concat (take n rest)) p) (drop n rest) ->
  b_map b = T -> b_maxSeq b = position_after (concat (take n rest)) p ->
  covered b (entry_of <$> (D ∪ T)) ck <-> is_Some (T !! ck) /\ D !! ck = None.
Proof.
  cbv zeta. intros HKt HKd HM HSq. unfold covered. rewrite HM, HSq. split.
  - intros (HT & e & He & Hle). split; [done|]. destruct (lastw (concat (norm_calls _ (drop n rest))) !! ck) as [ch|] eqn:ED; [|done].
    exfalso. rewrite lookup_fmap, (lookup_union_Some_l _ _ _ _ ED) in He. injection He as <-.
    pose proof (lastw_seq_gt _ _ _ _ _ HKd ED). cbn in Hle. lia.
  - intros [[ch HT] HD]. split; [done|]. exists (entry_of ch). rewrite lookup_fmap, lookup_union_r, HT by done.
    split; [done|]. by apply (lastw_seq_le _ _ _ _ _ HKt HT).
Qed.

Lemma finish_inv v b calls cks applied rest :
  view_inv (mkVS v (Some (b, true)) calls) applied rest -> calls_ok full_change pos0 calls -> cks ≡ₚ b_order b ->
  exists v' n, finish_batch v b cks = Some v' /\ (0 < n <= length rest)%nat /\
    (v_statsRow v' = v_statsRow v /\ v_statsUpdate v' = v_statsUpdate v /\ v_reg v' = v_reg v) /\
    view_inv (mkVS v' None calls) (applied ++ take n rest) (drop n rest).
Proof.
  intros [HC HQ HO HB HI HR HF HS HP HA] HK Hcks. cbn in *. destruct HF as (n & Hn & Hb & Hix). subst calls.
  apply calls_ok_app in HK as [_ HK]. rewrite <- (take_drop n rest) in HK. apply calls_ok_app in HK as [HKt HKd].
  set (p := position_after (concat applied) pos0) in *. pose proof (queued_normal (v_reg v) _ _ HKt) as HNm.
  destruct (coalesce_spec (v_reg v) _ HNm) as (HM & _ & HOr & HSq & HBt). cbv zeta in *. rewrite <- Hb in HM, HOr, HSq, HBt.
  rewrite queued_lastw in HM. rewrite (queued_position _ _ p HKt) in HSq;
    [|by apply position_after_nonneg|by destruct rest, n; cbn in *; lia || done].
  assert (v_overlay v = entry_of <$> (lastw (concat (norm_calls (v_reg v) (drop n rest))) ∪
                                      lastw (concat (norm_calls (v_reg v) (take n rest))))) as HO'.
  { rewrite HO. rewrite <- (take_drop n rest) at 1. by rewrite norm_calls_app, concat_app, lastw_app. }
  pose proof (fun ck => covered_iff v b applied rest n ck HKt HKd HM HSq) as Hcov. rewrite <- HO' in Hcov.
  set (D := lastw (concat (norm_calls (v_reg v) (drop n rest)))) in *.
  set (T := lastw (concat (norm_calls (v_reg v) (take n rest)))) in *.
  assert (v_queue v = queued (v_reg v) (take n rest) ++ queued (v_reg v) (drop n rest)) as HQ'
    by (by rewrite HQ, <- queued_app, take_drop).
  unfold finish_batch. rewrite HBt, HQ', length_app, (proj2 (Nat.ltb_ge _ _)), drop_app_length by lia.
  set (v1 := set_queue v _).
  destruct (clean_keys_ok b cks v1 HI HB) as (v2 & E2 & HF2 & HI2 & HB2 & HY2 & HN2 & HR2).
  { cbn. rewrite HO'. apply entry_of_sizes. }
  { rewrite HM. apply lastw_normal. eapply calls_ok_all, calls_ok_norm. exact HKt. }
  rewrite E2. cbn [mbind option_bind]. eexists _, n. split; [done|]. split; [done|].
  split; [split_and!; by rewrite HF2|]. split; cbn [vs_calls vs_view vs_flight].
  - by rewrite <- app_assoc, take_drop.
  - by rewrite HF2.
  - cbn. replace (v_reg v2) with (v_reg v) by (by rewrite HF2). apply map_eq. intros ck. rewrite lookup_fmap. fold D.
    destruct (T !! ck) as [chT|] eqn:ET; [destruct (D !! ck) as [chD|] eqn:ED|].
    + rewrite HN2; [cbn; by rewrite HO', lookup_fmap, (lookup_union_Some_l _ _ _ _ ED)|]. right. cbn. rewrite Hcov. naive_solver.
    + rewrite HY2; [done| |by apply Hcov]. rewrite Hcks. apply HOr, lastw_dom. rewrite queued_lastw. fold T. by rewrite ET.
    + rewrite HN2; [cbn; rewrite HO', lookup_fmap, lookup_union, ET; by destruct (D !! ck)|].
      right. cbn. rewrite Hcov. intros [[? HT] _]. congruence.
  - exact HB2.
  - exact HI2.
  - cbn. intros HD t k x Ht Hx. rewrite <- app_assoc, take_drop.
    destruct (HR2 _ _ Hx) as [Hold|(ch & Hch & Hc & ->)].
    + apply HR; [rewrite HF2 in HD; exact HD|done|exact Hold].
    + apply Hcov in Hc as [_ HDn]. rewrite HM in Hch. rewrite <- (take_drop n rest), app_assoc, !rows_at_app.
      rewrite (untouched_row _ _ _ _ _ _ HKd HDn). symmetry. by eapply touched_row.
  - cbn. by rewrite HF2.
  - rewrite HF2. exact HS.
  - rewrite HF2. exact HP.
  - cbn. replace (v_appliedPos v2) with p by (by rewrite HF2; cbn). rewrite HSq, concat_app, position_after_app.
    fold p. pose proof (position_after_ge (concat (take n rest)) p) as [Hge _]. destruct (Z.ltb_spec p (position_after (concat (take n rest)) p)); lia.
Qed.

(** ** Reads *)

(** The index holds the rows after some prefix of the calls. *)
Lemma index_prefix v fl calls applied rest :
  view_inv (mkVS v fl calls) applied rest ->
  exists some more, calls = some ++ more /\ (forall t k, Some t <> stats -> li_row (v_index v) t k = rows_at some t k).
Proof.
  intros [HC _ _ _ _ _ HF _ _ _]. cbn in *. destruct fl as [[b []]|].
  - destruct HF as (n & _ & _ & [HF _]). exists (applied ++ take n rest), (drop n rest). by rewrite <- app_assoc, take_drop.
  - destruct HF as (n & _ & _ & [HF _]). by exists applied, rest.
  - destruct HF as [HF _]. by exists applied, rest.
Qed.

(** The index has the current row of a key the overlay does not hold. *)
Lemma index_current v fl calls t k applied rest :
  view_inv (mkVS v fl calls) applied rest -> calls_ok full_change pos0 calls ->
  v_overlay v !! mkCK t k = None -> Some t <> stats -> li_row (v_index v) t k = rows_at calls t k.
Proof.
  intros [HC HQ HO HB HI HR HF HS HP HA] HK HN Ht. cbn in *. subst calls. apply calls_ok_app in HK as [_ HK].
  rewrite HO, lookup_fmap in HN. apply fmap_None in HN. rewrite rows_at_app.
  rewrite (untouched_row _ _ _ _ _ _ HK HN).
  destruct fl as [[b ap]|]; [|by destruct HF as [HF _]; apply HF].
  destruct HF as (n & Hn & _ & [Hix _]). rewrite Hix by done. destruct ap; [|done]. rewrite rows_at_app.
  rewrite <- (take_drop n rest) in HK, HN. apply calls_ok_app in HK as [HK _].
  apply (untouched_row (v_reg v) _ _ _ _ _ HK). rewrite norm_calls_app, concat_app, lastw_app in HN.
  by apply lookup_union_None in HN as [_ HN].
Qed.

(** The overlay entry of a key holds its current row. *)
Lemma overlay_current v fl calls t k e applied rest :
  view_inv (mkVS v fl calls) applied rest -> calls_ok full_change pos0 calls ->
  v_overlay v !! mkCK t k = Some e -> entry_row e = rows_at calls t k.
Proof.
  intros [HC HQ HO HB HI HR HF HS HP HA] HK HL. cbn in *. subst calls. apply calls_ok_app in HK as [_ HK].
  rewrite HO, lookup_fmap in HL. apply fmap_Some in HL as (ch & HL & ->). rewrite rows_at_app.
  symmetry. by eapply touched_row.
Qed.

Lemma set_cache_inv v fl calls c applied rest :
  view_inv (mkVS v fl calls) applied rest -> rd_inv c ->
  (v_cacheDisabled v = false -> forall t k x, Some t <> stats -> rd_row c (mkCK t k) = Some x ->
     x = rows_at (applied ++ rest) t k) ->
  view_inv (mkVS (set_cache v c) fl calls) applied rest.
Proof. intros [HC HQ HO HB HI HR HF HS HP HA] HIc HRc. by split. Qed.

Lemma Get_inv v fl calls t k applied rest :
  view_inv (mkVS v fl calls) applied rest -> calls_ok full_change pos0 calls ->
  exists v' r, View_Get v t k = Some (v', r) /\ view_inv (mkVS v' fl calls) applied rest /\
    forall o, Some t <> stats -> r = Ok o -> o = rows_at calls t k.
Proof.
  intros HV HK. pose proof HV as [HC _ _ _ HI HR _ _ _ _]. cbn in HC, HI, HR.
  unfold View_Get, Get_lookup. destruct (v_overlay v !! mkCK t k) as [e|] eqn:EO.
  { exists v, (Ok (entry_row e)). split_and!; try done. intros o _ [= <-]. by eapply overlay_current. }
  assert (forall o, Some t <> stats -> li_Get (v_index v) t k = Ok o -> o = rows_at calls t k) as HG.
  { intros o Ht HG. rewrite (Get_spec _ _ _ _ HG). by eapply index_current. }
  destruct (v_cacheDisabled v) eqn:ED.
  - cbn [mbind option_bind]. destruct (li_Get (v_index v) t k) as [o|e] eqn:EG; [|by exists v, (Err e)].
    unfold Get_fill. rewrite ED. exists v, (Ok o). split; [done|]. split; [done|]. intros o' Ht [= <-]. by apply HG.
  - destruct (cache_Get (v_cache v) (mkCK t k) HI) as (c & -> & HIc & HRc). cbn [mbind option_bind].
    assert (view_inv (mkVS (set_cache v c) fl calls) applied rest) as HV1.
    { apply set_cache_inv; [done..|]. intros _ t' k' x Ht Hx. apply (HR eq_refl); [done|]. by apply HRc. }
    destruct (rd_row (v_cache v) (mkCK t k)) as [row|] eqn:ER.
    { exists (set_cache v c), (Ok row). split_and!; try done. intros o Ht [= <-]. rewrite HC. by apply HR. }
    change (v_index (set_cache v c)) with (v_index v).
    destruct (li_Get (v_index v) t k) as [o|e] eqn:EG; [|by exists (set_cache v c), (Err e)].
    cbn [mbind option_bind]. unfold Get_fill. cbn [v_cacheDisabled set_cache]. rewrite ?ED.
    change (v_cache (set_cache v c)) with c.
    destruct (cache_Put c (mkCK t k) o HIc) as (c2 & -> & HI2 & HR2). cbn [mbind option_bind].
    exists (set_cache v c2), (Ok o). split; [done|]. split; [|intros o' Ht [= <-]; by apply HG].
    apply set_cache_inv; [done..|]. intros _ t' k' x Ht Hx.
    destruct (HR2 _ _ Hx) as [[[= -> ->] ->]|[_ Hx']]; [rewrite <- HC; by apply HG|].
    apply (HR eq_refl); [done|]. by apply HRc.
Qed.

Lemma limits_inv v fl calls n b v' applied rest :
  view_inv (mkVS v fl calls) applied rest -> SetCacheLimits v n b = Some v' ->
  view_inv (mkVS v' fl calls) applied rest.
Proof.
  intros HV HE. pose proof HV as [_ _ _ _ HI HR _ _ _ _]. cbn in HI, HR. unfold SetCacheLimits in HE.
  destruct (cache_SetLimits (v_cache v) n b HI) as (c & Hc & HIc & HRc). rewrite Hc in HE. cbn in HE.
  injection HE as <-. apply set_cache_inv; [done..|]. intros HD t k x Ht Hx. apply (HR HD); [done|]. by apply HRc.
Qed.

Lemma clear_inv v fl calls applied rest :
  view_inv (mkVS v fl calls) applied rest -> view_inv (mkVS (ClearCache v) fl calls) applied rest.
Proof.
  intros HV. pose proof HV as [_ _ _ _ HI _ _ _ _ _]. cbn in HI. destruct (cache_Clear (v_cache v) HI) as [HIc HRc].
  apply set_cache_inv; [done..|]. intros _ t k x _ Hx. by rewrite HRc in Hx.
Qed.

Lemma vstep_inv s s' applied rest :
  view_inv s applied rest -> vstep s s' -> calls_ok full_change pos0 (vs_calls s') ->
  exists applied' rest', view_inv s' applied' rest'.
Proof.
  intros HV HS HK. destruct HS; cbn in HK.
  - exists applied, (rest ++ [chs]). by eapply call_inv.
  - exists applied, rest. by apply cut_inv.
  - exists applied, rest. by eapply apply_inv.
  - exists applied, rest. by eapply refused_inv.
  - exists applied, rest. by eapply fault_inv.
  - destruct (finish_inv v b calls cks applied rest) as (v1 & n & E & _ & _ & HV'); [done..|].
    rewrite E in *. simplify_eq. by eauto.
  - destruct (Get_inv v fl calls t k applied rest HV HK) as (v1 & r1 & E & HV1 & _). exists applied, rest.
    rewrite E in *. by simplify_eq.
  - exists applied, rest. by eapply limits_inv.
  - exists applied, rest. by apply clear_inv.
Qed.

Lemma vstep_calls s s' : vstep s s' -> exists more, vs_calls s' = vs_calls s ++ more.
Proof. intros []; cbn; [by eauto|..]; exists []; by rewrite app_nil_r. Qed.

Lemma steps_inv s s' :
  rtc vstep s s' -> (exists applied rest, view_inv s applied rest) ->
  calls_ok full_change pos0 (vs_calls s') -> exists applied rest, view_inv s' applied rest.
Proof.
  intros HS HV. revert s' HS.
  apply (rtc_ind_r (fun s' => calls_ok full_change pos0 (vs_calls s') -> exists applied rest, view_inv s' applied rest)); [done|].
  intros s1 s2 HS1 H1 IH HK.
  destruct (vstep_calls _ _ H1) as [more E]. pose proof HK as HK2. rewrite E in HK2. apply calls_ok_app in HK2 as [HK1 _].
  destruct (IH HK1) as (applied & rest & HV1). by eapply vstep_inv.
Qed.

Lemma New_inv index reg cache disabled maxBytes batchSize st update :
  rd_inv cache -> (forall ck, rd_row cache ck = None) -> msg_name <$> st = stats -> in_place update ->
  (forall t k, li_row index t k = rows0 t k) -> li_Position index = pos0 ->
  view_inv (mkVS (View_New index reg cache disabled maxBytes batchSize st update) None []) [] [].
Proof.
  intros HI HR HS HP HX Hpos. split; cbn; try done. intros _ t k x _ Hx. by rewrite HR in Hx.
Qed.

(** ** Draining *)

Lemma typed_norm_calls reg calls : Forall full_change (concat calls) ->
  Forall typed_change (concat calls) -> Forall typed_change (concat (norm_calls reg calls)).
Proof.
  intros HF HT. rewrite concat_norm_calls, Forall_fmap. rewrite Forall_forall in HF, HT |- *. intros ch Hin. cbn.
  specialize (HF ch Hin). specialize (HT ch Hin). destruct HF as [HN _]. unfold typed_change in *. cbn.
  replace (view_table reg ch) with (ch_TypeName ch); [done|]. unfold view_table, norm_table.
  destruct reg; [by rewrite bool_decide_eq_false_2|done].
Qed.

(** An index that takes every well-formed batch. *)
Definition accepting : Prop :=
  forall i chs, Forall full_change chs -> exists i', li_ApplyBatch i chs = (i', Ok ()).

(** Statistics, if there are any, that cannot fail: they are [good], which the
    update function keeps for any two versions of a row of one table, good
    statistics have the key fields of their type, and the index can be read. *)
Definition counting (good : Msg -> Prop) (v : View) : Prop :=
  match v_statsRow v, v_statsUpdate v with
  | Some st, Some u =>
    good st /\
    (forall s b a t, good s -> typed t b -> typed t a -> exists s', u s b a = Some s' /\ good s') /\
    (exists reg, v_reg v = Some reg /\
      forall s def d, good s -> Registry_LookupByName reg (msg_name s) = Some (def, d) ->
        exists kv, SplitKeyAndNonKey (Some s) (td_KeyFields def) = Ok kv) /\
    forall i t k, exists o, li_Get i t k = Ok o
  | _, _ => True
  end.

Lemma counting_same good v v' :
  v_statsRow v' = v_statsRow v -> v_statsUpdate v' = v_statsUpdate v -> v_reg v' = v_reg v ->
  counting good v -> counting good v'.
Proof. unfold counting. by intros -> -> ->. Qed.

Lemma computeBatchStats_total good v applied batch seq :
  msg_name <$> v_statsRow v = stats -> in_place (v_statsUpdate v) -> counting good v -> index_at (v_index v) applied ->
  (forall t k, typed t (rows_at applied t k)) -> Forall full_change batch -> Forall typed_change batch ->
  exists toApply newStats, computeBatchStats v batch (v_statsRow v) seq = Some (Ok (toApply, newStats)) /\
    forall i, counting good (set_index v i newStats).
Proof.
  intros HS HI HC [HR _] HT HF HB. unfold computeBatchStats. pose proof HC as HC0. unfold counting in HC.
  destruct (v_statsRow v) as [st0|] eqn:E0; [|by eexists _, None].
  destruct (v_statsUpdate v) as [u|] eqn:EU; [|eexists _, _; split; [done|]; intros i; unfold counting; cbn; by rewrite EU].
  destruct HC as (H0 & HU & (reg & Hreg & HSp) & HG).
  cbn [mbind option_bind]. cbn in HS. unfold UpdateStatsFromChanges.
  destruct (update_stats_typed good (msg_name st0) u (v_reg v) (li_Get (v_index v))) with (chs := batch)
    (latest := ∅ : gmap CacheKey (option Msg)) (st := st0) as (st1 & E1 & HN1); try done.
  { intros t k. destruct (HG (v_index v) t k) as [o Ho]. exists o. split; [done|]. intros Ht.
    rewrite (Get_spec _ _ _ _ Ho), HR; [apply HT|]. rewrite <- HS. congruence. }
  assert (forall i, counting good (set_index v i (Some st1))) as HC1.
  { intros i. unfold counting. cbn. rewrite EU. split_and!; [done..|by exists reg|done]. }
  rewrite E1, Hreg. cbn [mbind option_bind]. apply update_stats_name in E1; [|by intros; eapply HI].
  destruct (Registry_LookupByName reg _) as [[def d]|] eqn:EL; [|eexists _, _; split; [done|]; intros i; unfold counting in *; cbn; rewrite EU; by rewrite E0, EU in HC0].
  destruct (HSp st1 def d) as [[kb vb] ->]; [done|by rewrite E1|]. by eexists _, _.
Qed.

Lemma apply_accepted good v b calls applied rest :
  accepting -> counting good v -> (forall t k, typed t (rows0 t k)) -> Forall typed_change (concat calls) ->
  view_inv (mkVS v (Some (b, false)) calls) applied rest -> calls_ok full_change pos0 calls ->
  exists v', apply_batch v b = Some (v', Ok ()) /\ counting good v'.
Proof.
  intros HA HU HR0 HTy HV HK. pose proof HV as [HC _ _ _ _ _ HF HS HP _]. cbn in HC, HF, HS, HP.
  destruct HF as (n & Hn & Hb & Hix). subst calls. rewrite concat_app, Forall_app in HTy. destruct HTy as [HTa HTr].
  apply calls_ok_app in HK as [_ HK]. rewrite <- (take_drop n rest) in HK, HTr. apply calls_ok_app in HK as [HK _].
  rewrite concat_app, Forall_app in HTr. destruct HTr as [HTr _].
  pose proof (queued_normal (v_reg v) _ _ HK) as HNm.
  destruct (coalesce_spec (v_reg v) _ HNm) as (HM & _ & _ & _ & HBt). cbv zeta in *.
  assert (Forall full_change (coalescedChanges b)) as HF.
  { rewrite Hb. eapply Forall_impl; [apply coalesced_normal|by intros ch [? _]]. rewrite HM. by apply lastw_normal. }
  unfold apply_batch. destruct (coalescedChanges b) as [|c cs]; [by exists v|].
  destruct (computeBatchStats_total good v applied (b_batch b) (b_maxSeq b)) as (toApply & newStats & ES & HCn); try done.
  { intros t k. by apply row_after_typed. }
  { rewrite Hb, HBt. eapply Forall_impl; [exact HNm|by intros ch [? _]]. }
  { rewrite Hb, HBt. apply Forall_dbl. apply typed_norm_calls; [by eapply calls_ok_all|done]. }
  rewrite ES. cbn [mbind option_bind]. destruct (computeBatchStats_ok v _ _ _ _ HS HP ES) as [_ HX].
  set (changes := if (_ <? _)%nat then _ else _).
  assert (Forall full_change changes) as HFc.
  { unfold changes. destruct HX as [->|(st & -> & _ & Hst & _)]; [by rewrite Nat.ltb_irrefl|].
    rewrite length_app, (proj2 (Nat.ltb_lt _ _)) by (cbn; lia). rewrite last_snoc. apply Forall_app. split; [done|by constructor]. }
  destruct (HA (v_index v) changes HFc) as [i' ->]. eexists. split; [done|].
  destruct (v_statsUpdate v) eqn:EU; [apply HCn|]. unfold counting. cbn. rewrite EU. by destruct (v_statsRow v).
Qed.

Lemma round_inv good v calls applied rest :
  accepting -> counting good v -> (forall t k, typed t (rows0 t k)) -> Forall typed_change (concat calls) ->
  view_inv (mkVS v None calls) applied rest -> calls_ok full_change pos0 calls ->
  exists v' n, applier_round v = Some (v', Ok ()) /\ counting good v' /\ (rest <> [] -> 0 < n)%nat /\
    view_inv (mkVS v' None calls) (applied ++ take n rest) (drop n rest).
Proof.
  intros HA HU HR0 HTy HV HK. unfold applier_round. destruct (Nat.eqb_spec (length (v_queue v)) 0) as [E|E].
  - exists v, O. rewrite app_nil_r. split_and!; try done. intros HN. exfalso. pose proof HV as [HC HQ _ _ _ _ _ _ _ _]. cbn in *.
    subst calls. apply calls_ok_app in HK as [_ HK]. pose proof (queued_length (v_reg v) rest _ HK) as HL.
    rewrite <- HQ, E in HL. destruct rest; [done|cbn in HL; lia].
  - assert (v_queue v <> []) as HN by (intros E'; by rewrite E' in E).
    pose proof (cut_inv _ _ _ _ HV HK HN) as HV1.
    destruct (apply_accepted _ _ _ _ _ _ HA HU HR0 HTy HV1 HK) as (v1 & E1 & HU1). rewrite E1. cbn [mbind option_bind].
    pose proof (apply_inv _ _ _ _ _ _ HV1 HK E1) as HV2.
    destruct (finish_inv _ _ _ (b_order (cut_batch v)) _ _ HV2 HK) as (v2 & n & E2 & Hn & (HR2 & HU2 & HG2) & HV3); [done|].
    rewrite E2. cbn [mbind option_bind]. exists v2, n. split_and!; try done; [by eapply counting_same|lia].
Qed.

Lemma rounds_drain good n : forall v calls applied rest,
  accepting -> counting good v -> (forall t k, typed t (rows0 t k)) -> Forall typed_change (concat calls) ->
  view_inv (mkVS v None calls) applied rest -> calls_ok full_change pos0 calls -> (length rest <= n)%nat ->
  exists v', applier_rounds n v = Some (v', Ok ()) /\ view_inv (mkVS v' None calls) calls [].
Proof.
  induction n as [|n IH]; intros v calls applied rest HA HU HR0 HTy HV HK HL.
  - destruct rest; [|cbn in HL; lia]. exists v. split; [done|]. pose proof (inv_calls _ _ _ HV) as E. cbn in E.
    rewrite app_nil_r in E. by subst calls.
  - cbn [applier_rounds]. destruct (round_inv good v calls applied rest HA HU HR0 HTy HV HK) as (v1 & m & -> & HU1 & Hm & HV1).
    cbn [mbind option_bind]. eapply IH; [done..|]. rewrite length_drop. destruct rest; [cbn; lia|].
    specialize (Hm ltac:(done)). cbn in *. lia.
Qed.
End invariant.

(** ** Scans *)

Lemma overlay_snapshot_lookup o t p k e :
  overlay_snapshot o t p !! k = Some e <-> o !! mkCK t k = Some e /\ has_prefix p k = true.
Proof.
  unfold overlay_snapshot. rewrite <- elem_of_list_to_map.
  - rewrite list_elem_of_fmap. split.
    + intros ([[t' k'] e'] & [= -> ->] & [[<- HP] Hin]%list_elem_of_filter). cbn in *.
      apply elem_of_map_to_list in Hin. split; [done|]. by destruct HP as [->|HP].
    + intros [HL HP]. exists (mkCK t k, e). split; [done|]. apply list_elem_of_filter. cbn. split; [by auto|].
      by apply elem_of_map_to_list.
  - rewrite <- list_fmap_compose. apply NoDup_fmap_2_strong; [|apply NoDup_filter, NoDup_map_to_list].
    intros [[t1 k1] e1] [[t2 k2] e2] [[H1 _] Hin1]%list_elem_of_filter [[H2 _] Hin2]%list_elem_of_filter E. cbn in *. subst.
    apply elem_of_map_to_list in Hin1, Hin2. congruence.
Qed.

(** A row of a keyed table carries its own key. *)
Definition keyed (kf : list Z) (k : bytes) (m : Msg) : Prop := scan_key kf m = Ok k /\ k <> [].

Lemma merge_index_ok kf snap es : forall M0,
  Forall (fun x => keyed kf (fst x) (snd x)) es -> NoDup (fst <$> es) -> (forall k, k ∈ fst <$> es -> M0 !! k = None) ->
  exists M, merge_index kf snap (snd <$> es) M0 = Ok M /\
    forall k m, M !! k = Some m <-> (k, m) ∈ es /\ snap !! k = None \/ M0 !! k = Some m.
Proof.
  induction es as [|[k0 m0] es IH]; intros M0 HK HN HD.
  { exists M0. split; [done|]. intros k m. rewrite elem_of_nil. naive_solver. }
  inversion HK as [|? ? [Hs Hne] HK']; subst. cbn in *. apply NoDup_cons in HN as [Hk0 HN].
  rewrite Hs, bool_decide_false by done. destruct (snap !! k0) as [e|] eqn:ES.
  - destruct (IH M0 HK' HN) as (M & HE & HM); [set_solver|]. exists M. split; [exact HE|]. intros k m. rewrite HM, elem_of_cons.
    split; [naive_solver|]. intros [[[[= -> ->]|Hin] Hn]|]; [congruence|by auto..].
  - destruct (IH (<[k0 := m0]> M0) HK' HN) as (M & HE & HM).
    { intros k Hk. rewrite lookup_insert_ne by (intros ->; done). set_solver. }
    exists M. split; [exact HE|]. intros k m. rewrite HM, elem_of_cons. destruct (decide (k = k0)) as [->|Hk].
    + rewrite lookup_insert_eq. assert (forall m, (k0, m) ∈ es -> False) as HF.
      { intros m' Hin. apply Hk0. apply list_elem_of_fmap. by exists (k0, m'). }
      rewrite (HD k0) by set_solver. split; [intros [[Hin _]|[= ->]]; [by apply HF in Hin|by auto]|].
      intros [[[[= ->]|Hin] _]|[=]]; [by right|by apply HF in Hin].
    + rewrite lookup_insert_ne by done. split; [naive_solver|]. intros [[[[= -> ->]|Hin] Hn]|]; [done|by auto..].
Qed.

(** The merged rows, given what the overlay and the index say of each key. *)
Lemma merged_rows kf o t p es (rows irows : bytes -> option Msg) :
  rows_under irows p es -> Forall (fun x => keyed kf (fst x) (snd x)) es ->
  (forall k e, o !! mkCK t k = Some e -> entry_row e = rows k) ->
  (forall k, o !! mkCK t k = None -> irows k = rows k) ->
  exists M, merge_index kf (overlay_snapshot o t p) (snd <$> es) ∅ = Ok M /\
    rows_under rows p (sort_entries (map_to_list (merge_overlay (overlay_snapshot o t p) M))).
Proof.
  intros [HS HE] HK HO HI. set (snap := overlay_snapshot o t p).
  assert (NoDup (fst <$> es)) as HN.
  { clear -HS. induction HS as [|x l _ IH HF]; [constructor|]. constructor; [|done]. intros Hx.
    rewrite Forall_forall in HF. by apply (irreflexivity bytes_lt x), HF. }
  destruct (merge_index_ok kf snap es ∅ HK HN) as (M & HM & HL); [done|]. exists M. split; [exact HM|].
  split; [apply sort_entries_sorted, NoDup_fst_map_to_list|]. intros k m.
  unfold sort_entries. rewrite merge_sort_Permutation, elem_of_map_to_list. unfold merge_overlay.
  rewrite lookup_union, lookup_omap.
  destruct (snap !! k) as [e|] eqn:ES; cbn.
  - pose proof ES as [HOe HP]%overlay_snapshot_lookup. rewrite <- (HO k e HOe).
    assert (M !! k = None) as ->.
    { apply eq_None_not_Some. intros [x Hx]. apply HL in Hx as [[_ Hn]|Hx]; [congruence|by rewrite lookup_empty in Hx]. }
    rewrite (right_id_L None (∪)). naive_solver.
  - rewrite (left_id_L None (∪)), HL, lookup_empty, HE. split.
    + intros [[[Hr HP] _]|[=]]. split; [|done]. rewrite <- HI; [done|].
      destruct (o !! mkCK t k) as [e|] eqn:EO; [|done]. exfalso.
      assert (snap !! k = Some e) as E by (by apply overlay_snapshot_lookup). congruence.
    + intros [Hr HP]. left. split; [|done]. split; [|done]. rewrite HI; [done|].
      destruct (o !! mkCK t k) as [e|] eqn:EO; [|done]. exfalso.
      assert (snap !! k = Some e) as E by (by apply overlay_snapshot_lookup). congruence.
Qed.

(** Changes whose rows carry their own key keep a table keyed. *)
Definition keyed_change (kf : list Z) (t : bytes) (ch : Change) : Prop :=
  ch_TypeName ch = t -> forall m, ch_effect ch = Some m -> keyed kf (norm_key ch) m.

Lemma row_after_keyed kf t l rows :
  Forall (keyed_change kf t) l -> (forall k m, rows k = Some m -> keyed kf k m) ->
  forall k m, row_after l t k (rows k) = Some m -> keyed kf k m.
Proof.
  induction l as [|x l IH] using rev_ind; intros HF HR k m Hm; [by apply HR|]. apply Forall_app in HF as [HF Hx].
  apply Forall_cons in Hx as [Hx _]. rewrite row_after_app in Hm. unfold row_after at 1 in Hm. cbn [foldl] in Hm.
  unfold change_effect in Hm. destruct (bool_decide _) eqn:E in Hm; [|by apply (IH HF HR)].
  apply bool_decide_eq_true in E as [Et <-]. by apply Hx.
Qed.

(** ** Statistics *)

Section stats.
Variable name : bytes.
Variable update : StatsUpdateFunc.
Variable reg : option Registry.
Variable rows : bytes -> bytes -> option Msg.

(** A counter of the statistics and what one row contributes to it. *)
Variable counter : Msg -> Z.
Variable weight : option Msg -> Z.
Hypothesis update_counts : forall s b a s', update s b a = Some s' -> counter s' = counter s - weight b + weight a.

(** The net change of the counter when the rows become those of [latest]. *)
Definition net_change (latest : gmap CacheKey (option Msg)) : Z :=
  map_fold (fun ck row z => weight row - weight (rows (ck_Table ck) (ck_Key ck)) + z) 0 latest.

Lemma net_change_insert latest ck row :
  net_change (<[ck := row]> latest) =
  net_change latest - weight (default (rows (ck_Table ck) (ck_Key ck)) (latest !! ck)) + weight row.
Proof.
  assert (forall m, m !! ck = None ->
    net_change (<[ck := row]> m) = weight row - weight (rows (ck_Table ck) (ck_Key ck)) + net_change m) as HI.
  { intros m Hm. unfold net_change. by rewrite map_fold_insert_L by (done || intros; lia). }
  destruct (latest !! ck) as [prev|] eqn:E; cbn; [|rewrite HI by done; lia].
  rewrite <- insert_delete_eq, HI by apply lookup_delete_eq.
  rewrite <- (insert_delete_id latest ck prev E) at 2. unfold net_change.
  rewrite map_fold_insert_L; [|intros; lia|apply lookup_delete_eq]. lia.
Qed.

(** The rows of the changed tables that are counted. *)
Definition counted (l : list Change) : gmap CacheKey (option Msg) :=
  ch_effect <$> filter (fun x => ck_Table (fst x) <> name) (lastw l).

Lemma stats_after_full t ch : full_change ch -> stats_after reg t ch = Ok (ch_effect ch).
Proof.
  intros [_ [[HW [row HR]]|HD]]; unfold stats_after.
  - rewrite HW, HR, (write_effect ch HW), HR. done.
  - unfold ch_effect. rewrite HD. done.
Qed.

Lemma counted_snoc l ch :
  counted (l ++ [ch]) = if decide (ch_TypeName ch = name) then counted l else <[ch_ck ch := ch_effect ch]> (counted l).
Proof.
  unfold counted. rewrite lastw_snoc. destruct (decide (ch_TypeName ch = name)) as [E|E].
  - rewrite map_filter_insert_False by (cbn; by intros HN). f_equal. apply map_filter_delete_not.
    intros ch' _ HN. by apply HN.
  - by rewrite map_filter_insert_True, fmap_insert by done.
Qed.

Lemma update_stats_net l : forall before stats stats',
  Forall normal (before ++ l) ->
  update_stats name update reg (fun t k => Ok (rows t k)) (counted before) stats l = Ok stats' ->
  counter stats' - net_change (counted (before ++ l)) = counter stats - net_change (counted before).
Proof.
  induction l as [|ch l IH]; intros before stats stats' HF HE; cbn [update_stats] in HE.
  { injection HE as <-. by rewrite app_nil_r. }
  rewrite (cons_middle ch before l), (app_assoc before [ch] l) in HF |- *.
  assert (normal ch) as [HFc HKc] by (apply Forall_app in HF as [[_ HF]%Forall_app _]; by inversion HF).
  rewrite (view_table_full reg ch HFc) in HE. case_bool_decide as EN.
  - rewrite (IH (before ++ [ch]) stats stats' HF); rewrite counted_snoc, decide_True by done; done.
  - rewrite HKc in HE. change (mkCK (ch_TypeName ch) (ch_Key ch)) with (ch_ck ch) in HE.
    rewrite (stats_after_full _ _ HFc) in HE.
    set (prev := default (rows (ch_TypeName ch) (ch_Key ch)) (counted before !! ch_ck ch)).
    replace (match counted before !! ch_ck ch with Some prev => Ok prev | None => Ok (rows (ch_TypeName ch) (ch_Key ch)) end)
      with (Ok (E := index_error) prev) in HE by (unfold prev; by destruct (counted before !! ch_ck ch)).
    destruct (update stats prev (ch_effect ch)) as [s1|] eqn:EU; [|done].
    pose proof (IH (before ++ [ch]) s1 stats' HF) as IH'. rewrite counted_snoc, decide_False in IH' by done.
    rewrite (IH' HE), (update_counts _ _ _ _ EU).
    assert (net_change (<[ch_ck ch := ch_effect ch]> (counted before)) =
            net_change (counted before) - weight prev + weight (ch_effect ch)) as -> by apply net_change_insert.
    lia.
Qed.

Lemma update_stats_total l : forall latest stats,
  Forall full_change l -> (forall s b a, update s b a <> None) ->
  exists stats', update_stats name update reg (fun t k => Ok (rows t k)) latest stats l = Ok stats'.
Proof.
  induction l as [|ch l IH]; intros latest stats HF HU; cbn [update_stats]; [by eauto|].
  inversion HF as [|? ? Hc HF']; subst. case_bool_decide; [by apply IH|]. rewrite (stats_after_full _ _ Hc).
  set (ck := mkCK _ _). destruct (latest !! ck) as [prev|]; (destruct (update stats _ _) eqn:E; [by apply IH|by apply HU in E]).
Qed.

(** Statistics follow the rows.  When the update function adds to a counter
    what the new row contributes and takes away what the old one did, then
    folding it over a batch changes the counter by the net change of the rows
    of the batch, each row once, whether the changes are queued once or twice;
    and the fold fails only if the update function does. *)
Theorem stats_follow_rows l q stats :
  Forall normal l -> (q = l \/ q = l ++ l) -> msg_name stats = name ->
  (forall stats', UpdateStatsFromChanges q stats update reg (fun t k => Ok (rows t k)) = Ok stats' ->
     counter stats' = counter stats + net_change (counted l)) /\
  ((forall s b a, update s b a <> None) ->
     is_ok (UpdateStatsFromChanges q stats update reg (fun t k => Ok (rows t k))) = true).
Proof.
  intros HF HQ HN. assert (Forall normal q) as HFq by (destruct HQ as [->| ->]; [done|by apply Forall_app]).
  unfold UpdateStatsFromChanges. rewrite HN. split.
  - intros stats' HE. pose proof (update_stats_net q [] stats stats' HFq HE) as HX. cbn [app] in HX.
    replace (counted q) with (counted l) in HX.
    + unfold net_change at 2 in HX. unfold counted at 2 in HX. cbn in HX. 
      rewrite map_filter_empty, fmap_empty, map_fold_empty in HX. lia.
    + unfold counted. destruct HQ as [->| ->]; [done|]. by rewrite lastw_dbl.
  - intros HU. destruct (update_stats_total q ∅ stats) as [st' ->]; [|done..].
    eapply Forall_impl; [exact HFq|]. by intros ch [? _].
Qed.
End stats.

(** ** Claims *)

Section claims.
Variables (index : I) (reg : option Registry) (cache : C) (disabled : bool) (maxBytes batchSize : Z).
Variables (st : option Msg) (update : option StatsUpdateFunc).
Hypothesis cache_good : rd_inv cache.
Hypothesis cache_empty : forall ck, rd_row cache ck = None.
Hypothesis update_in_place : in_place update.
Hypothesis stats_type_named : msg_name <$> st <> Some [].
Hypothesis position_nonneg : 0 <= li_Position index.

Abbreviation started := (mkVS (View_New index reg cache disabled maxBytes batchSize st update) None []).

Lemma started_inv s :
  rtc vstep started s -> calls_ok full_change (li_Position index) (vs_calls s) ->
  exists applied rest, view_inv (li_row index) (li_Position index) (msg_name <$> st) s applied rest.
Proof. intros HS HK. eapply steps_inv; [done..| |done]. exists [], []. by apply New_inv. Qed.

(** C23: A view reads its own writes.  Whatever the applier has or has not done,
    however its batches were cut, refused or retried and whatever the cache
    evicted, a read returns the row as the calls of [ApplyChanges] so far left
    it, or an error of the index; it never follows a dangling pointer.  Each
    call carries the changes of one transaction, numbered above those before. *)
Theorem view_reads_latest s t k :
  rtc vstep started s -> calls_ok full_change (li_Position index) (vs_calls s) -> Some t <> msg_name <$> st ->
  exists v' r, View_Get (vs_view s) t k = Some (v', r) /\
    forall o, r = Ok o -> o = row_after (concat (vs_calls s)) t k (li_row index t k).
Proof.
  intros HS HK Ht. destruct (started_inv s HS HK) as (applied & rest & HV). destruct s as [v fl calls].
  destruct (Get_inv _ _ _ v fl calls t k applied rest HV HK) as (v' & r & HG & _ & HO).
  exists v', r. split; [exact HG|]. intros o. by apply HO.
Qed.

(** C25: A scan merges the overlay and the index exactly.  For a table whose
    rows carry their own key, at any progress of the applier, a scan fails only
    if the scan of the index does; otherwise it yields the rows of the table
    under the prefix as the calls so far left them, each once, in strictly
    increasing order of the key bytes. *)
Theorem view_scan_exact s t prefix :
  rtc vstep started s -> calls_ok full_change (li_Position index) (vs_calls s) -> Some t <> msg_name <$> st ->
  (forall k m, li_row index t k = Some m -> keyed (key_fields (v_reg (vs_view s)) t) k m) ->
  Forall (keyed_change (key_fields (v_reg (vs_view s)) t) t) (concat (vs_calls s)) ->
  match li_Scan (v_index (vs_view s)) t prefix with
  | Err e => View_Scan (vs_view s) t prefix = Err e
  | Ok _ => exists es, View_Scan (vs_view s) t prefix = Ok (snd <$> es) /\
      rows_under (fun k => row_after (concat (vs_calls s)) t k (li_row index t k)) prefix es
  end.
Proof.
  intros HS HK Ht H0 HC. destruct (started_inv s HS HK) as (applied & rest & HV). destruct s as [v fl calls]. cbn in *.
  unfold View_Scan. destruct (li_Scan (v_index v) t prefix) as [l|e] eqn:EL; [|done].
  destruct (Scan_spec _ _ _ _ EL) as (es & -> & HE).
  destruct (merged_rows (key_fields (v_reg v) t) (v_overlay v) t prefix es
    (fun k => row_after (concat calls) t k (li_row index t k)) (li_row (v_index v) t) HE) as (M & -> & HM).
  - apply Forall_forall. intros [k m] Hin. apply HE in Hin as [Hr _]. cbn.
    destruct (index_prefix _ _ _ v fl calls applied rest HV) as (some & more & -> & Hix). rewrite Hix in Hr by done.
    rewrite concat_app in HC. apply Forall_app in HC as [HC _]. by eapply (row_after_keyed _ t _ (li_row index t)).
  - intros k e He. by eapply overlay_current.
  - intros k Hn. by eapply index_current.
  - eexists. split; [done|exact HM].
Qed.

(** C24: The index is always the state at a transaction boundary.  At every
    moment it holds exactly the rows after some prefix of the calls, its
    position is the sequence number of the last of them, and what the view
    reports as applied is not ahead of it, so that replaying the stream from
    the position of the index restores everything. *)
Theorem view_index_is_prefix s :
  rtc vstep started s -> calls_ok full_change (li_Position index) (vs_calls s) ->
  exists applied rest, vs_calls s = applied ++ rest /\
    (forall t k, Some t <> msg_name <$> st ->
       li_row (v_index (vs_view s)) t k = row_after (concat applied) t k (li_row index t k)) /\
    li_Position (v_index (vs_view s)) = position_after (concat applied) (li_Position index) /\
    v_appliedPos (vs_view s) <= li_Position (v_index (vs_view s)) /\
    View_Position (vs_view s) = li_Position (v_index (vs_view s)).
Proof.
  intros HS HK. destruct (started_inv s HS HK) as (applied & rest & HV). destruct s as [v fl calls].
  pose proof HV as [HC _ _ _ _ _ HF _ _ HA]. cbn in HC, HF, HA |- *.
  assert (exists n, index_at (li_row index) (li_Position index) (msg_name <$> st) (v_index v) (applied ++ take n rest)) as [n [HR HP]].
  { destruct fl as [[b []]|]; [destruct HF as (n & _ & _ & HF); by exists n|destruct HF as (n & _ & _ & HF)|];
      exists O; by rewrite app_nil_r. }
  exists (applied ++ take n rest), (drop n rest). split; [by rewrite <- app_assoc, take_drop|]. split; [done|]. split; [done|].
  assert (v_appliedPos v <= li_Position (v_index v)) as HL.
  { rewrite HA, HP, concat_app, position_after_app. apply position_after_ge. }
  split; [done|]. unfold View_Position. destruct (Z.ltb_spec (v_appliedPos v) (li_Position (v_index v))); lia.
Qed.

(** C30: The applier catches up.  When the index accepts batches and is readable,
    and the statistics, if the view keeps any, can be updated and encoded, a view
    between two batches that has made [n] calls is drained by [n] rounds of the
    applier: nothing is queued or overlaid, the index holds every change, writers
    are not held back and no flush has to wait. *)
Theorem view_drains s (good : Msg -> Prop) :
  rtc vstep started s -> calls_ok full_change (li_Position index) (vs_calls s) ->
  (forall t k, typed t (li_row index t k)) -> Forall typed_change (concat (vs_calls s)) ->
  vs_flight s = None -> accepting -> counting good (vs_view s) ->
  exists v, applier_rounds (length (vs_calls s)) (vs_view s) = Some (v, Ok ()) /\
    v_queue v = [] /\ v_overlay v = ∅ /\ backpressure v = false /\ unflushed v = false /\
    v_appliedPos v = position_after (concat (vs_calls s)) (li_Position index) /\
    forall t k, Some t <> msg_name <$> st -> li_row (v_index v) t k = row_after (concat (vs_calls s)) t k (li_row index t k).
Proof.
  intros HS HK HT0 HTy HN HA HU. destruct (started_inv s HS HK) as (applied & rest & HV). destruct s as [v fl calls]. cbn in *. subst fl.
  edestruct (rounds_drain (li_row index) (li_Position index) (msg_name <$> st)) with (n := length calls) as (v' & HE & HV');
    [done|done|exact HA|exact HU|exact HT0|exact HTy|exact HV|exact HK| |].
  { pose proof (inv_calls _ _ _ _ _ _ HV) as E. cbn in E. rewrite E, length_app. lia. }
  exists v'. split; [exact HE|]. destruct HV' as [_ HQ HO HB _ _ [HR _] _ _ HP]. cbn in HQ, HO, HB, HR, HP.
  rewrite fmap_empty in HO. rewrite HO in HB. change (overlay_bytes ∅) with 0 in HB.
  split_and!; try done.
  - unfold backpressure. rewrite HB. destruct (Z.ltb_spec 0 (v_maxOverlayBytes v')); [|done]. cbn. apply Z.ltb_ge. lia.
  - unfold unflushed. by rewrite HQ.
Qed.
End claims.
End view.

(** ** Examples *)

Section examples.
#[local] Existing Instance item_lib.
#[local] Existing Instance item_slib.

Abbreviation Cache := (LRUCache (K := CacheKey) (V := option (Message Value))).
Abbreviation ItemView := (View (I := MemStore) (C := Cache)).

Definition cache0 (capacity : Z) : Cache := NewLRUCacheWithLimits capacity 0 (Some CacheSizeFn) false.
Definition view0 (capacity batchSize : Z) : ItemView :=
  View_New (NewMemStore (go "s")) None (cache0 capacity) false 1000 batchSize None None.

Lemma cache0_ok capacity : rd_inv (cache0 capacity) /\ forall ck, rd_row (cache0 capacity) ck = None.
Proof. split; [exists []; apply New_ok|]. intros ck. reflexivity. Qed.

(** Three transactions on two keys. *)
Definition calls3 : list (list Change) :=
  [[put 1 (go "a") (go "1"); put 1 (go "b") (go "1")]; [put 2 (go "a") (go "2")]; [del 3 (go "b")]].

Lemma calls3_ok : calls_ok full_change 0 calls3.
Proof.
  cbn. split; [done|]. split; [do 2 (apply Forall_cons_2; [apply put_full|]); apply Forall_nil_2|].
  exists 1. split; [lia|]. split; [by repeat constructor|]. split; [done|].
  split; [apply Forall_cons_2; [apply put_full|apply Forall_nil_2]|].
  exists 2. split; [lia|]. split; [by repeat constructor|]. split; [done|].
  split; [apply Forall_cons_2; [apply del_full|apply Forall_nil_2]|].
  exists 3. split; [lia|]. split; [by repeat constructor|done].
Qed.

Fixpoint run_calls (v : ItemView) (calls : list (list Change)) : option ItemView :=
  match calls with [] => Some v | c :: calls => v ← ApplyChanges v c; run_calls v calls end.

Lemma run_calls_steps calls : forall v v' before,
  run_calls v calls = Some v' -> rtc vstep (mkVS v None before) (mkVS v' None (before ++ calls)).
Proof.
  induction calls as [|c calls IH]; intros v v' before HE; cbn [run_calls] in HE; [injection HE as <-; by rewrite app_nil_r|].
  destruct (ApplyChanges v c) as [v1|] eqn:E; [|done]. cbn [mbind option_bind] in HE.
  eapply rtc_l; [by apply step_call|]. rewrite (cons_middle c before calls), app_assoc. by apply IH.
Qed.

Definition has_value {A} (o : option A) : bool := match o with Some _ => true | None => false end.
Definition has_ok {A} (o : option (A * result index_error ())) : bool := match o with Some (_, Ok _) => true | _ => false end.

Lemma has_value_eq {A} (d : A) o : has_value o = true -> o = Some (default d o).
Proof. by destruct o. Qed.
Lemma has_ok_eq {A} (d : A) (o : option (A * result index_error ())) : has_ok o = true -> o = Some (from_option fst d o, Ok ()).
Proof. by destruct o as [[a [[]|]]|]. Qed.

(** The view after the calls, and after one batch has reached the index. *)
Definition view3 : ItemView := default (view0 10 2) (run_calls (view0 10 2) calls3).
Definition view4 : ItemView := from_option fst view3 (apply_batch view3 (cut_batch view3)).

Lemma view3_eq : run_calls (view0 10 2) calls3 = Some view3.
Proof. apply has_value_eq. vm_compute. reflexivity. Qed.

Lemma view3_steps : rtc vstep (mkVS (view0 10 2) None []) (mkVS view3 None calls3).
Proof. exact (run_calls_steps calls3 (view0 10 2) view3 [] view3_eq). Qed.

Lemma view4_eq : apply_batch view3 (cut_batch view3) = Some (view4, Ok ()).
Proof. apply has_ok_eq. vm_compute. reflexivity. Qed.

Lemma view3_queue : v_queue view3 <> [].
Proof.
  assert (length (v_queue view3) = 8%nat) as HL by (vm_compute; reflexivity).
  intros E. rewrite E in HL. discriminate HL.
Qed.

Lemma view4_steps : rtc vstep (mkVS (view0 10 2) None []) (mkVS view4 (Some (cut_batch view3, true)) calls3).
Proof.
  eapply rtc_r; [eapply rtc_r; [exact view3_steps|]|].
  - apply step_cut, view3_queue.
  - apply step_apply, view4_eq.
Qed.

Lemma view_reads_latest_witness :
  exists v' r, View_Get view4 (go "Item") (go "a") = Some (v', r) /\
    forall o, r = Ok o -> o = Some (item (go "a") (go "2")).
Proof.
  destruct (view_reads_latest (SL := item_slib) (NewMemStore (go "s")) None (cache0 10) false 1000 2 None None
    (proj1 (cache0_ok 10)) (proj2 (cache0_ok 10)) ltac:(done) ltac:(done) (Z.le_refl 0)
    (mkVS view4 (Some (cut_batch view3, true)) calls3) (go "Item") (go "a") view4_steps calls3_ok ltac:(done))
    as (v' & r & HG & HO).
  exists v', r. split; [exact HG|]. intros o Ho. rewrite (HO o Ho). reflexivity.
Defined.

(** Rows of a type without key fields, keyed by their whole content. *)
Definition row_key (m : Message Value) : bytes := default [] (marshal_full m).
Definition put_row (seq : Z) (m : Message Value) : Change :=
  mkChange seq 16 (go "Item") OpRecord_CREATE 1 (row_key m) (row_key m) [] (Some m).
Definition row_calls : list (list Change) := [[put_row 1 (item (go "a") (go "1")); put_row 1 (item (go "b") (go "1"))]].
Definition row_view : ItemView := default (view0 10 2) (run_calls (view0 10 2) row_calls).

Lemma row_view_steps : rtc vstep (mkVS (view0 10 2) None []) (mkVS row_view None row_calls).
Proof.
  assert (run_calls (view0 10 2) row_calls = Some row_view) as E by (apply has_value_eq; vm_compute; reflexivity).
  exact (run_calls_steps row_calls (view0 10 2) row_view [] E).
Qed.

Lemma row_calls_ok : calls_ok full_change 0 row_calls.
Proof.
  split; [done|]. split; [do 2 (apply Forall_cons_2; [split; [done|]; left; split; [done|by eexists]|]); apply Forall_nil_2|].
  exists 1. split; [lia|]. split; [|done]. do 2 (apply Forall_cons_2; [done|]). apply Forall_nil_2.
Qed.

Lemma row_keyed k : k <> [] -> keyed [] (row_key (item k (go "1"))) (item k (go "1")).
Proof. intros Hk. split; [reflexivity|]. discriminate. Qed.

Lemma row_calls_keyed : Forall (keyed_change [] (go "Item")) (concat row_calls).
Proof.
  do 2 (apply Forall_cons_2; [intros _ m [= <-]; apply row_keyed; done|]). apply Forall_nil_2.
Qed.

Lemma view_scan_exact_witness :
  exists es, View_Scan row_view (go "Item") [] = Ok (snd <$> es) /\
    rows_under (fun k => row_after (concat row_calls) (go "Item") k None) [] es.
Proof.
  exact (view_scan_exact (SL := item_slib) (NewMemStore (go "s")) None (cache0 10) false 1000 2 None None
    (proj1 (cache0_ok 10)) (proj2 (cache0_ok 10)) ltac:(done) ltac:(done) (Z.le_refl 0)
    (mkVS row_view None row_calls) (go "Item") [] row_view_steps row_calls_ok ltac:(done)
    ltac:(intros k m [=]) row_calls_keyed).
Defined.

Lemma view_index_is_prefix_witness :
  exists applied rest, calls3 = applied ++ rest /\
    li_Position (v_index view4) = position_after (concat applied) 0.
Proof.
  destruct (view_index_is_prefix (SL := item_slib) (NewMemStore (go "s")) None (cache0 10) false 1000 2 None None
    (proj1 (cache0_ok 10)) (proj2 (cache0_ok 10)) ltac:(done) ltac:(done) (Z.le_refl 0)
    (mkVS view4 (Some (cut_batch view3, true)) calls3) view4_steps calls3_ok)
    as (applied & rest & H1 & _ & H2 & _).
  exists applied, rest. split; [exact H1|exact H2].
Defined.

(** A counter of rows, kept as the length of a field of the statistics. *)
Definition count_of (m : Message Value) : Z := Z.of_nat (length (default [] ((msg_fields m : gmap Z bytes) !! 2))).
Definition one_per_row (o : option (Message Value)) : Z := match o with Some _ => 1 | None => 0 end.
Definition count_rows (s : Message Value) (b a : option (Message Value)) : option (Message Value) :=
  let n := count_of s - one_per_row b + one_per_row a in
  if n <? 0 then None else Some (item (go "rows") (replicate (Z.to_nat n) x00)).

Lemma count_rows_counts s b a s' : count_rows s b a = Some s' -> count_of s' = count_of s - one_per_row b + one_per_row a.
Proof.
  unfold count_rows. destruct (Z.ltb_spec (count_of s - one_per_row b + one_per_row a) 0); [done|]. intros [= <-].
  change (count_of (item (go "rows") (replicate (Z.to_nat (count_of s - one_per_row b + one_per_row a)) x00)))
    with (Z.of_nat (length (replicate (Z.to_nat (count_of s - one_per_row b + one_per_row a)) x00))).
  rewrite length_replicate. lia.
Qed.

(** Three transactions on a view that counts the rows of its tables in a
    statistics row of a registered type. *)
Definition stats_md : MessageDescriptor := mkMessage (go "Stats") [scalar_field 1 StringKind; scalar_field 2 BytesKind] [].
Definition tally_fields (n : Z) : gmap Z bytes := {[ 1 := go "rows"; 2 := replicate (Z.to_nat n) x00 ]}.
Definition tally (n : Z) : Message Value := mkMsg (DynamicType stats_md) (tally_fields n) [].
Definition tally_rows (s : Message Value) (b a : option (Message Value)) : option (Message Value) :=
  Some (mkMsg (msg_type s) (tally_fields (count_of s - one_per_row b + one_per_row a)) []).
Definition stats_def : TypeDefinition := mkTypeDefinition 17 (go "Stats") [] None [1].
Definition stats_registry : Registry :=
  mkRegistry {[ 17 := mkTypeEntry 17 stats_def (mt_desc (DynamicType stats_md)) (DynamicType stats_md) ]} {[ go "Stats" := 17 ]} 18.
Definition counted0 : ItemView :=
  View_New (NewMemStore (go "s")) (Some stats_registry) (cache0 10) false 1000 2 (Some (tally 0)) (Some tally_rows).
Definition counted3 : ItemView := default counted0 (run_calls counted0 calls3).

Lemma counted3_steps : rtc vstep (mkVS counted0 None []) (mkVS counted3 None calls3).
Proof.
  assert (run_calls counted0 calls3 = Some counted3) as E by (apply has_value_eq; vm_compute; reflexivity).
  exact (run_calls_steps calls3 counted0 counted3 [] E).
Qed.

Lemma counted3_counting : counting (fun s => exists n, s = tally n) counted3.
Proof.
  change (counting (fun s => exists n, s = tally n) counted3) with
    ((exists n, tally 0 = tally n) /\
     (forall s b a t, (exists n, s = tally n) -> typed t b -> typed t a ->
       exists s', tally_rows s b a = Some s' /\ exists n, s' = tally n) /\
     (exists reg, Some stats_registry = Some reg /\
       forall s def d, (exists n, s = tally n) -> Registry_LookupByName reg (msg_name s) = Some (def, d) ->
         exists kv, SplitKeyAndNonKey (Some s) (td_KeyFields def) = Ok kv) /\
     forall (i : MemStore) t k, exists o, li_Get i t k = Ok o).
  split_and!; [by eexists|by intros s b a t [n ->] _ _; eexists; split; [|eexists]| |].
  - eexists. split; [done|]. intros s def d [n ->] [= <- _]. by eexists.
  - by eexists.
Qed.

Lemma view_drains_witness :
  exists v, applier_rounds 3 counted3 = Some (v, Ok ()) /\ v_queue v = [] /\ backpressure v = false /\
    li_row (v_index v) (go "Item") (go "a") = Some (item (go "a") (go "2")).
Proof.
  destruct (view_drains (SL := item_slib) (NewMemStore (go "s")) (Some stats_registry) (cache0 10) false 1000 2 (Some (tally 0))
    (Some tally_rows) (proj1 (cache0_ok 10)) (proj2 (cache0_ok 10)) ltac:(by intros ? ? ? ? ? [= <-] [= <-]) ltac:(done) (Z.le_refl 0)
    (mkVS counted3 None calls3) (fun s => exists n, s = tally n) counted3_steps calls3_ok ltac:(by intros ? ? ?) ltac:(by repeat constructor; intros ? [= <-])
    eq_refl memstore_accepts counted3_counting)
    as (v & H1 & H2 & _ & H3 & _ & _ & H4).
  exists v. split; [exact H1|]. split; [exact H2|]. split; [exact H3|].
  rewrite (H4 (go "Item") (go "a") ltac:(done)). reflexivity.
Defined.

Definition row_put (k : bytes) : Change := mkChange 1 17 (go "Row") OpRecord_CREATE 1 k k [] (Some (item k k)).
Definition row_batch : list Change := [row_put (go "a"); row_put (go "b"); row_put (go "a")].

Lemma row_batch_normal : Forall normal row_batch.
Proof.
  assert (forall k, k <> [] -> normal (row_put k)) as HN.
  { intros k Hk. split; [split; [done|]; left; split; [done|by eexists]|]. unfold norm_key. cbn. by rewrite bool_decide_false. }
  do 3 (apply Forall_cons_2; [by apply HN|]). apply Forall_nil_2.
Qed.

Definition counted_twice : result index_error (Message Value) :=
  UpdateStatsFromChanges (row_batch ++ row_batch) (item (go "rows") [x00]) count_rows None
    (fun t k => Ok (if bool_decide (k = go "b") then Some (item k k) else None)).

Lemma counted_twice_ok : is_ok counted_twice = true.
Proof. vm_compute. reflexivity. Qed.

Lemma stats_follow_rows_witness : exists stats', counted_twice = Ok stats' /\ count_of stats' = 2.
Proof.
  pose proof counted_twice_ok as HE. destruct counted_twice as [stats'|] eqn:E; [|discriminate HE].
  exists stats'. split; [reflexivity|].
  destruct (stats_follow_rows (SL := item_slib) (msg_name (item (go "rows") [x00])) count_rows None
    (fun t k => if bool_decide (k = go "b") then Some (item k k) else None) count_of one_per_row count_rows_counts
    row_batch (row_batch ++ row_batch) (item (go "rows") [x00]) row_batch_normal (or_intror eq_refl) eq_refl) as [H1 _].
  rewrite (H1 stats' E). reflexivity.
Defined.

(** ** What the hypotheses exclude *)

Definition Item : bytes := go "Item".
Definition a1 : Message Value := item (go "a") (go "1").
Definition a2 : Message Value := item (go "a") (go "2").

(** Results of reads, without the view. *)
Definition read_result (r : option (ItemView * result index_error (option (Message Value))))
    : option (result index_error (option (Message Value))) := snd <$> r.

(** One call with two transactions, applied in batches of one change. *)
Definition two_seqs : list Change := [put 1 (go "a") (go "1"); put 2 (go "a") (go "2")].
Definition requeued : option ItemView :=
  v ← ApplyChanges (view0 10 1) two_seqs; '(v, _) ← applier_rounds 3 v; Some v.

(** The changes of a call are queued twice, which shows when a call carries
    more than one transaction: the applier applies the newer change and then
    the older one again, so that the index holds the old row at the position of
    the new one, and a read that misses the cache returns it. *)
Theorem requeued_call_reverts_index :
  (v ← requeued; Some (li_Position (v_index v))) = Some 2 /\
  (v ← requeued; li_row (v_index v) Item (go "a")) = Some a1 /\
  row_after two_seqs Item (go "a") None = Some a2 /\
  (v ← requeued; read_result (View_Get (ClearCache v) Item (go "a"))) = Some (Ok (Some a1)).
Proof.
  split; [vm_cast_no_check (eq_refl (Some 2))|]. split; [vm_cast_no_check (eq_refl (Some a1))|].
  split; [vm_cast_no_check (eq_refl (Some a2))|vm_cast_no_check (eq_refl (Some (Ok (E := index_error) (Some a1))))].
Qed.

(** A read of "a" that has read the index before, and fills the cache after, a
    newer transaction was recorded and applied. *)
Definition raced : option ItemView :=
  v ← ApplyChanges (view0 10 1) [put 1 (go "a") (go "1")];
  '(v, _) ← applier_rounds 1 v;
  '(v, f) ← Get_lookup (ClearCache v) Item (go "a");
  v ← ApplyChanges v [put 2 (go "a") (go "2")];
  '(v, _) ← applier_rounds 1 v;
  match f with FromIndex o => Get_fill v Item (go "a") o | _ => None end.

(** A read is not atomic with respect to a concurrent transaction: when one
    is recorded and applied between the moment a read gets its row from the
    index and the moment it caches it, the old row stays in the cache, and
    later reads return it although the index holds the new one. *)
Theorem raced_read_caches_old_row :
  (v ← raced; li_row (v_index v) Item (go "a")) = Some a2 /\
  (v ← raced; read_result (View_Get v Item (go "a"))) = Some (Ok (Some a1)).
Proof.
  split; [vm_cast_no_check (eq_refl (Some a2))|vm_cast_no_check (eq_refl (Some (Ok (E := index_error) (Some a1))))].
Qed.

(** A view whose index is rebuilt, by the public method, while the applier is
    between two of its lock regions. *)
Definition rebuilt_in_flight : option (ItemView * Batch) :=
  v ← ApplyChanges (view0 10 1) [put 1 (go "a") (go "1")];
  let b := cut_batch v in
  '(v, _) ← apply_batch v b;
  Some (View_Rebuild v (v_index v) 1 None, b).

Definition panics {A} (o : option A) : bool := match o with Some _ => false | None => true end.

(** Rebuilding the index while a batch is in flight breaks the applier:
    the rebuild trims the queue, and the applier then removes the batch from a
    queue that no longer has it, which indexes out of range. *)
Theorem rebuild_in_flight_panics :
  ('(v, b) ← rebuilt_in_flight; Some (panics (finish_batch v b (b_order b)))) = Some true.
Proof. vm_cast_no_check (eq_refl (Some true)). Qed.
End examples.
