(* ===== verification/ObjectStore.v ===== *)
(** * ObjectStore: object-storage backends

    The [Backend] interface of [pkg/objectstore/objectstore.go] with what its
    comments promise, as a class of operations and a class of laws, and
    [inmemorystorage], which discharges them.  The laws let every operation
    fail: a failed upload or deletion may or may not have taken effect, but an
    upload is atomic.  Clients of the interface are proved against the laws. *)

From S2P Require Import Prelude Bytes Sha256.

#[local] Open Scope Z_scope.
#[local] Open Scope list_scope.

Inductive bk_error : Type :=
| BkNotFound
| BkFailed
| BkPanic.

Record ObjectEntry : Type := mkObjectEntry {
  oe_Key : bytes;
  oe_Size : Z;
  oe_LastModified : Z;
}.

Definition StorageKey (volumeID key : bytes) : bytes :=
  if bool_decide (volumeID = []) || has_prefix (go "volumes/") key || has_prefix (go "blobs/") key
  then key
  else volumeID ++ go "/" ++ key.

(** [GetObject(ctx, volumeID, key, offset, length, w)] returns what it writes
    to [w]; the other operations return what the Go methods return. *)
Class Backend (B : Type) : Type := {
  bk_PutObject : B -> bytes -> bytes -> bytes -> B * result bk_error bytes;
  bk_GetObject : B -> bytes -> bytes -> Z -> Z -> B * result bk_error bytes;
  bk_DeleteObject : B -> bytes -> bytes -> B * result bk_error ();
  bk_ListObjects : B -> bytes -> bytes -> B * result bk_error (list ObjectEntry);
}.

(** The bytes of [data] a read of [length] bytes at [offset] asks for: all of
    them from [offset] on when [length] is not positive. *)
Definition byte_range (offset length : Z) (data : bytes) : bytes :=
  let rest := drop (Z.to_nat offset) data in
  if length <=? 0 then rest else take (Z.to_nat length) rest.

(** A backend is a map from storage keys to contents. *)
Class BackendLaw (B : Type) `{!Backend B} : Type := {
  bk_objects : B -> gmap bytes bytes;
  PutObject_spec b v k d :
    let '(b', r) := bk_PutObject b v k d in
    match r with
    | Ok _ => bk_objects b' = <[StorageKey v k := d]> (bk_objects b)
    | Err _ => bk_objects b' = bk_objects b \/
               bk_objects b' = <[StorageKey v k := d]> (bk_objects b)
    end;
  GetObject_spec b v k off len :
    0 <= off -> off + len < 2 ^ 63 ->
    let '(b', r) := bk_GetObject b v k off len in
    bk_objects b' = bk_objects b /\
    match r with
    | Ok d => exists o, bk_objects b !! StorageKey v k = Some o /\ d = byte_range off len o
    | Err _ => True
    end;
  DeleteObject_spec b v k :
    let '(b', r) := bk_DeleteObject b v k in
    match r with
    | Ok _ => bk_objects b' = delete (StorageKey v k) (bk_objects b)
    | Err _ => bk_objects b' = bk_objects b \/
               bk_objects b' = delete (StorageKey v k) (bk_objects b)
    end;
  ListObjects_spec b v p :
    let '(b', r) := bk_ListObjects b v p in
    bk_objects b' = bk_objects b /\
    match r with
    | Ok es => NoDup (oe_Key <$> es) /\
        forall k n, (exists t, mkObjectEntry k n t ∈ es) <->
          has_prefix (StorageKey v p) k = true /\
          exists o, bk_objects b !! k = Some o /\ n = Z.of_nat (length o)
    | Err _ => True
    end;
}.

(** ** [inmemorystorage] *)

Module InMemory.

Record memoryObject : Type := mkMemoryObject {
  mo_data : bytes;
  mo_modTime : Z;
}.

(** [now] is what [time.Now] reads. *)
Record MemBackend : Type := mkMemBackend {
  mb_objects : gmap bytes memoryObject;
  mb_now : Z;
}.

Definition New (now : Z) : MemBackend := mkMemBackend ∅ now.

Definition storageKey (volumeID key : bytes) : bytes :=
  if bool_decide (volumeID = []) || has_prefix (go "volumes/") key || has_prefix (go "blobs/") key
  then key
  else volumeID ++ go "/" ++ key.

(** [fmt.Sprintf("%x", h)]. *)
Definition hex_digit (d : Z) : byte := byte_of_Z (if d <? 10 then 48 + d else 87 + d).
Definition hex (l : bytes) : bytes :=
  concat ((fun b => [hex_digit (byte_to_Z b / 16); hex_digit (byte_to_Z b mod 16)]) <$> l).

Definition PutObject (b : MemBackend) (volumeID key buf : bytes) : MemBackend * bytes :=
  let k := storageKey volumeID key in
  (mkMemBackend (<[k := mkMemoryObject buf (mb_now b)]> (mb_objects b)) (mb_now b),
   hex (sha256 buf)).

(** [None]: the slice expression is out of range, which panics. *)
Definition GetObject (b : MemBackend) (volumeID key : bytes) (offset len : Z)
    : option (result bk_error bytes) :=
  match mb_objects b !! storageKey volumeID key with
  | None => Some (Err BkNotFound)
  | Some obj =>
    let total := Z.of_nat (length (mo_data obj)) in
    if total <=? offset then Some (Ok [])
    else
    let fin := i64 (offset + len) in
    let fin := if (len <=? 0) || (total <? fin) then total else fin in
    if (offset <? 0) || (fin <? offset) then None
    else Some (Ok (slice (Z.to_nat offset) (Z.to_nat fin) (mo_data obj)))
  end.

Definition DeleteObject (b : MemBackend) (volumeID key : bytes) : MemBackend :=
  mkMemBackend (delete (storageKey volumeID key) (mb_objects b)) (mb_now b).

Definition entry_of (b : MemBackend) (k : bytes) : option ObjectEntry :=
  o ← mb_objects b !! k;
  Some (mkObjectEntry k (Z.of_nat (length (mo_data o))) (mo_modTime o)).

(** [sort.Slice] by key: the keys of a map are distinct. *)
Definition ListObjects (b : MemBackend) (volumeID prefix : bytes) : list ObjectEntry :=
  let fullPrefix := storageKey volumeID prefix in
  omap (entry_of b)
    (sort_strings (filter (fun k => has_prefix fullPrefix k = true)
                     (fst <$> map_to_list (mb_objects b)))).

End InMemory.

#[export] Instance mem_backend : Backend InMemory.MemBackend := {|
  bk_PutObject b v k d := let '(b, etag) := InMemory.PutObject b v k d in (b, Ok etag);
  bk_GetObject b v k off len :=
    (b, match InMemory.GetObject b v k off len with Some r => r | None => Err BkPanic end);
  bk_DeleteObject b v k := (InMemory.DeleteObject b v k, Ok ());
  bk_ListObjects b v p := (b, Ok (InMemory.ListObjects b v p));
|}.

(** ** The in-memory backend keeps the contract *)

Lemma mem_range off len (d : bytes) :
  0 <= off -> off + len < 2 ^ 63 -> off < Z.of_nat (length d) ->
  let fin := i64 (off + len) in
  let fin := if (len <=? 0) || (Z.of_nat (length d) <? fin) then Z.of_nat (length d) else fin in
  off <= fin /\ slice (Z.to_nat off) (Z.to_nat fin) d = byte_range off len d.
Proof.
  intros Ho Hl Hd. cbv zeta. unfold byte_range, slice.
  destruct (len <=? 0) eqn:E; zify_bool; simpl.
  - split; [lia|]. apply take_ge. rewrite length_drop. lia.
  - rewrite i64_small by lia. destruct (_ <? off + len) eqn:E2; zify_bool; (split; [lia|]).
    + rewrite !take_ge; [done| |]; rewrite length_drop; lia.
    + f_equal. lia.
Qed.

Lemma mem_get_spec b v k off len :
  0 <= off -> off + len < 2 ^ 63 ->
  match InMemory.GetObject b v k off len with
  | Some (Ok d) => exists o, (InMemory.mo_data <$> InMemory.mb_objects b) !! StorageKey v k = Some o /\
                             d = byte_range off len o
  | Some (Err _) => True
  | None => False
  end.
Proof.
  intros Ho Hl. unfold InMemory.GetObject.
  change InMemory.storageKey with StorageKey.
  destruct (InMemory.mb_objects b !! StorageKey v k) as [[d t]|] eqn:E; [|done]. cbn [InMemory.mo_data].
  assert (HL : (InMemory.mo_data <$> InMemory.mb_objects b) !! StorageKey v k = Some d)
    by (by rewrite lookup_fmap, E).
  destruct (_ <=? off) eqn:Et; zify_bool.
  - exists d. split; [done|]. unfold byte_range. rewrite drop_ge by lia.
    destruct (len <=? 0); [done|]. by rewrite take_nil.
  - pose proof (mem_range off len d Ho Hl Et) as Hr. cbv zeta in Hr.
    set (fin := if (len <=? 0) || _ then _ else _ : Z) in *. clearbody fin. destruct Hr as [Hf Hr].
    replace (off <? 0) with false by (symmetry; apply Z.ltb_ge; lia).
    replace (fin <? off) with false by (symmetry; apply Z.ltb_ge; lia).
    simpl. by exists d.
Qed.

Lemma mem_list_elem b v p k n t :
  mkObjectEntry k n t ∈ InMemory.ListObjects b v p <->
  has_prefix (StorageKey v p) k = true /\
  exists o, InMemory.mb_objects b !! k = Some o /\ n = Z.of_nat (length (InMemory.mo_data o)) /\
    t = InMemory.mo_modTime o.
Proof.
  unfold InMemory.ListObjects. change InMemory.storageKey with StorageKey.
  rewrite list_elem_of_omap. setoid_rewrite (sort_strings_perm _).
  setoid_rewrite list_elem_of_filter. setoid_rewrite list_elem_of_fmap.
  split.
  - intros (k' & [Hp _] & He). unfold InMemory.entry_of in He. destruct (_ !! k') as [o|] eqn:E; [|done]. simpl in He.
    injection He as <- <- <-. split; [done|]. by exists o.
  - intros (Hp & o & Ho & -> & ->). exists k. split.
    + split; [done|]. exists (k, o). by rewrite elem_of_map_to_list.
    + unfold InMemory.entry_of. by rewrite Ho.
Qed.

Lemma omap_key_fst b (l : list bytes) :
  oe_Key <$> omap (InMemory.entry_of b) l = filter (fun k => is_Some (InMemory.mb_objects b !! k)) l.
Proof.
  induction l as [|k l IH]; [done|]. cbn [omap list_omap].
  destruct (InMemory.mb_objects b !! k) as [o|] eqn:E.
  - rewrite filter_cons_True by (rewrite E; eauto). unfold InMemory.entry_of at 1. rewrite E. simpl.
    by rewrite <-IH.
  - rewrite filter_cons_False by (rewrite E; by intros [? ?]).
    unfold InMemory.entry_of at 1. rewrite E. exact IH.
Qed.

Lemma mem_list_NoDup b v p : NoDup (oe_Key <$> InMemory.ListObjects b v p).
Proof.
  unfold InMemory.ListObjects. rewrite omap_key_fst.
  apply NoDup_filter. rewrite sort_strings_perm. apply NoDup_filter, NoDup_fst_map_to_list.
Qed.

#[export] Program Instance mem_backend_law : BackendLaw InMemory.MemBackend := {|
  bk_objects b := InMemory.mo_data <$> InMemory.mb_objects b;
|}.
Next Obligation. intros b v k d. simpl. by rewrite fmap_insert. Qed.
Next Obligation.
  intros b v k off len Ho Hl. simpl. split; [done|].
  pose proof (mem_get_spec b v k off len Ho Hl) as H.
  by destruct (InMemory.GetObject b v k off len) as [[d|e]|].
Qed.
Next Obligation. intros b v k. simpl. by rewrite fmap_delete. Qed.
Next Obligation.
  intros b v p. simpl. split; [done|]. split; [apply mem_list_NoDup|].
  intros k n. setoid_rewrite mem_list_elem. setoid_rewrite lookup_fmap.
  split.
  - intros (t & Hp & o & Ho & -> & _). split; [done|]. exists (InMemory.mo_data o). by rewrite Ho.
  - intros (Hp & d & Ho & ->). apply fmap_Some in Ho as (o & Ho & ->).
    exists (InMemory.mo_modTime o). split; [done|]. by exists o.
Qed.
