(* ===== verification/WalTrim.v ===== *)
(** * WalTrim: deleting segments of a store that holds a log

    What remains of the log of WalStore.v when some of its inactive segments and
    their files are deleted, for the client's store and the witness's alike. *)

From S2P Require Import Prelude Bytes WalRecord FileSys WalSegment WalStore WalRetention.

#[local] Open Scope Z_scope.
#[local] Open Scope list_scope.

Section lists.
Context {A : Type}.

Lemma sublist_Forall2 {C} (P : A -> C -> Prop) l l' k :
  sublist l' l -> Forall2 P l k -> exists k', sublist k' k /\ Forall2 P l' k'.
Proof.
  intros HS. revert k. induction HS as [|x l1 l2 _ IH|x l1 l2 _ IH]; intros k HF.
  - inversion HF; subst. exists []. split; constructor.
  - inversion HF as [|? z ? k2 Hx HF2]; subst. destruct (IH _ HF2) as (k' & H1 & H2).
    exists (z :: k'). split; [by apply sublist_skip|by constructor].
  - inversion HF as [|? z ? k2 Hx HF2]; subst. destruct (IH _ HF2) as (k' & H1 & H2).
    exists k'. split; [by apply sublist_cons|done].
Qed.

Lemma sublist_concat (k k' : list (list A)) : sublist k' k -> sublist (concat k') (concat k).
Proof.
  induction 1 as [|x l1 l2 _ IH|x l1 l2 _ IH]; cbn; [done|by apply sublist_app|].
  by apply sublist_inserts_l.
Qed.

Lemma sublist_snoc_init (init : list A) x init' x' z :
  sublist (init' ++ [x']) (init ++ [x]) -> z ∈ init' -> z ∈ init.
Proof.
  intros (l1 & l2 & HE & H1 & H2)%sublist_app_r Hz.
  assert (HX : forall l, sublist l init -> z ∈ l -> z ∈ init) by (intros l HS Hl; by eapply elem_of_sublist).
  apply sublist_cons_r in H2 as [H2|(l & -> & H2)]; apply sublist_nil_r in H2 as ->.
  - rewrite app_nil_r in HE. subst l1. eapply HX; [done|]. apply elem_of_app. by left.
  - apply app_inj_tail in HE as [-> _]. by eapply HX.
Qed.

Lemma sublist_Forall (P : A -> Prop) l l' : sublist l' l -> Forall P l -> Forall P l'.
Proof.
  intros HS HF. rewrite Forall_forall in HF |- *. intros x Hx. apply HF. by eapply elem_of_sublist.
Qed.

End lists.

Lemma sorted_sublist (l l' : list Z) : sublist l' l -> StronglySorted Z.lt l -> StronglySorted Z.lt l'.
Proof.
  induction 1 as [|x l1 l2 HS IH|x l1 l2 _ IH]; [done| |].
  - intros [H1 H2]%StronglySorted_inv. constructor; [auto|]. by eapply sublist_Forall.
  - intros [H1 _]%StronglySorted_inv. auto.
Qed.

Section trim.
Context {R : Type} `{SF : !SegmentFormat R}.
Implicit Types (rs : list R) (parts : list (list R)).

Lemma names_NoDup prefix parts :
  valid_log (concat parts) -> Forall (fun rs => rs <> []) parts -> NoDup (part_name prefix <$> parts).
Proof. intros HV HN. by apply sorted_lt_NoDup, part_names_sorted. Qed.

Lemma valid_log_sublist rs rs' : sublist rs' rs -> valid_log rs -> valid_log rs'.
Proof.
  intros HS (H1 & H2 & H3). split_and!; [by eapply sublist_Forall| |by eapply sublist_Forall].
  eapply sorted_sublist; [|exact H2]. by apply fmap_sublist.
Qed.

Lemma metas_paths (s : SegmentStore) (segs : list SegmentMeta) parts :
  Forall2 (fun m rs => m = seg_meta (sm_ptr m) (part_name (st_filePrefix s) rs) rs) segs parts ->
  sm_Path <$> segs = part_name (st_filePrefix s) <$> parts.
Proof. induction 1 as [|m rs segs parts Hm _ IH]; [done|]. cbn. rewrite IH. f_equal. by rewrite Hm. Qed.

Lemma last_seq_ge rs r : valid_log rs -> r ∈ rs -> sf_seq r <= last_seq rs.
Proof.
  intros HV Hr. destruct rs as [|rl init _] using rev_ind; [by apply not_elem_of_nil in Hr|].
  unfold last_seq. rewrite last_snoc. apply elem_of_app in Hr as [Hr|Hr].
  - pose proof (valid_log_lt init [rl] r rl HV Hr ltac:(left)). lia.
  - by apply list_elem_of_singleton in Hr as ->.
Qed.

Lemma NewSegmentStore_prefix dflt w prefix maxSize opt w' s (recs : list R) :
  NewSegmentStore dflt w prefix maxSize opt = (w', Ok (s, recs)) -> prefix <> [] -> st_filePrefix s = prefix.
Proof.
  unfold NewSegmentStore. destruct (sys_plain w) as [w1 [u|e]]; [|done]. destruct (os_ReadDir w1) as [w2 [ents|e]]; [|done].
  destruct (open_scan _ _ _ _ _ _) as [w3 [[[segs rs] errs]|e]]; [|done]. destruct (0 <? errs)%nat; [done|].
  intros [= <- <- <-] Hne. by destruct prefix.
Qed.

(** All records of a part whose file is synced are. *)
Lemma synced_records (w : World) n rs k :
  holds w n rs -> fully_synced w n -> records_synced w n rs k.
Proof.
  intros (f & Hf & Hd & _) (f' & Hf' & Hs) _. rewrite Hf in Hf'. injection Hf' as <-.
  exists f. split; [done|]. rewrite Hs, Hd. unfold segment_bytes. rewrite !length_app.
  pose proof (take_drop k rs) as HT. apply (f_equal (fun l => length (encode_all l))) in HT.
  unfold encode_all in *. rewrite fmap_app, concat_app, length_app in HT. lia.
Qed.

Lemma records_synced_le (w w' : World) n rs a b :
  w_dir w' !! n = w_dir w !! n -> (a <= b)%nat -> records_synced w n rs b -> records_synced w' n rs a.
Proof.
  intros HW Hab HS Ha. destruct HS as (f & Hf & Hs); [lia|]. exists f. rewrite HW. split; [done|].
  etrans; [|exact Hs]. unfold segment_bytes, encode_all. rewrite !length_app.
  replace (take a rs) with (take a (take b rs)) by (rewrite take_take; f_equal; lia).
  pose proof (take_drop a (take b rs)) as HT. apply (f_equal (fun l => length (concat (sf_bytes <$> l)))) in HT.
  rewrite fmap_app, concat_app, length_app in HT. lia.
Qed.

(** Deleting segments other than the active one. *)
Lemma trim_inv (w w' : World) s parts parts' d kept dropped :
  store_inv w s parts d ->
  sublist parts' parts -> sublist kept (st_segments s) -> st_segments s ≡ₚ kept ++ dropped ->
  Forall2 (fun m rs => m = seg_meta (sm_ptr m) (part_name (st_filePrefix s) rs) rs) kept parts' ->
  Forall (fun m => st_activeMeta s <> Some (sm_ptr m)) dropped ->
  (forall q, w_dir w' !! q = if decide (q ∈ sm_Path <$> dropped) then None else w_dir w !! q) ->
  store_inv w' (with_segments s kept) parts' (d - (length (concat parts) - length (concat parts')))%nat.
Proof.
  intros HI HS HK HP HM HD HQ. pose proof HI as [HV HNe HMs HPt HNx HF HDi HA HSi HSl HdL].
  pose proof (metas_paths _ _ _ HMs) as HPa. pose proof (metas_paths _ _ _ HM) as HPa'.
  assert (HN : NoDup (sm_Path <$> kept ++ dropped)).
  { rewrite <-HP, HPa. by apply names_NoDup. }
  rewrite fmap_app in HN. apply NoDup_app in HN as (_ & HN & _).
  assert (HW : forall rs, rs ∈ parts' -> w_dir w' !! part_name (st_filePrefix s) rs = w_dir w !! part_name (st_filePrefix s) rs).
  { intros rs Hrs. rewrite HQ, decide_False; [done|]. apply HN. rewrite HPa'. by apply list_elem_of_fmap_2. }
  assert (HIn : forall rs, rs ∈ parts' -> rs ∈ parts) by (intros rs Hrs; by eapply elem_of_sublist).
  assert (HFu : forall rs, rs ∈ parts' -> fully_synced w (part_name (st_filePrefix s) rs) ->
    fully_synced w' (part_name (st_filePrefix s) rs)) by (intros rs Hrs; unfold fully_synced; by rewrite HW).
  assert (HHo : forall rs, rs ∈ parts' -> holds w' (part_name (st_filePrefix s) rs) rs).
  { intros rs Hrs. unfold holds. rewrite HW by done. rewrite Forall_forall in HF. by apply HF, HIn. }
  assert (HLe : (length (concat parts') <= length (concat parts))%nat) by (by apply sublist_length, sublist_concat).
  assert (HSy : forall init' rs', parts' = init' ++ [rs'] ->
    Forall (fun rs => fully_synced w (part_name (st_filePrefix s) rs)) init' /\
    (fully_synced w (part_name (st_filePrefix s) rs') \/
     exists init, parts = init ++ [rs'] /\ (length (concat init') <= length (concat init))%nat)).
  { intros init' rs' HE. destruct parts as [|x init _] using rev_ind.
    { apply sublist_nil_r in HS. by subst parts'; destruct init'. }
    pose proof (HSi _ _ eq_refl) as HSi'. rewrite Forall_forall in HSi'. rewrite HE in HS. split.
    - apply Forall_forall. intros z Hz. apply HSi'. by eapply sublist_snoc_init.
    - pose proof HS as (l1 & l2 & HE2 & H1 & H2)%sublist_app_r.
      apply sublist_cons_r in H2 as [H2|(l & -> & H2)]; apply sublist_nil_r in H2 as ->.
      + left. apply HSi'. rewrite app_nil_r in HE2. eapply elem_of_sublist; [|exact H1]. rewrite <-HE2. apply elem_of_app. right. left.
      + apply app_inj_tail in HE2 as [-> ->]. right. exists init. split; [done|]. by apply sublist_length, sublist_concat. }
  split; cbn [st_filePrefix st_segments st_next st_activeFile st_activeMeta with_segments]; try done.
  - eapply valid_log_sublist; [|exact HV]. by apply sublist_concat.
  - by eapply sublist_Forall.
  - eapply sublist_NoDup; [exact HPt|]. by apply fmap_sublist.
  - by eapply sublist_Forall.
  - apply Forall_forall. auto.
  - intros n e Hn Hwal. rewrite HQ in Hn. case_decide as Hdr; [done|].
    pose proof (HDi n e Hn Hwal) as Hin. rewrite <-HPa, HP, fmap_app in Hin.
    apply elem_of_app in Hin as [Hin|Hin]; [by rewrite HPa' in Hin|done].
  - intros p Hact. destruct (HA p Hact) as (init & m & HE & Hm & Hpm). rewrite HE in HK.
    pose proof HK as (l1 & l2 & -> & H1 & H2)%sublist_app_r.
    apply sublist_cons_r in H2 as [H2|(l & -> & H2)]; apply sublist_nil_r in H2 as ->; [|by exists l1, m].
    exfalso. rewrite app_nil_r in *. assert (m ∈ l1 ++ dropped) as [Hin|Hin]%elem_of_app.
    { rewrite <-HP, HE. apply elem_of_app. right. left. }
    + rewrite HE, fmap_app in HPt. apply NoDup_app in HPt as (_ & HX & _). eapply HX; [|left].
      apply list_elem_of_fmap_2. by eapply elem_of_sublist.
    + rewrite Forall_forall in HD. by apply (HD m).
  - intros init' rs' HE. destruct (HSy _ _ HE) as [H1 _]. rewrite Forall_forall in H1 |- *.
    intros z Hz. apply HFu; [|by apply H1]. rewrite HE. apply elem_of_app. by left.
  - intros init' rs' HE. assert (Hr : rs' ∈ parts') by (rewrite HE; apply elem_of_app; right; left).
    destruct (HSy _ _ HE) as [_ [Hf|(init & HE2 & Hle)]].
    + split; [intros _; by apply HFu|]. apply synced_records; auto.
    + destruct (HSl _ _ HE2) as [H1 H2]. split; [intros Hact; auto|].
      eapply records_synced_le; [by apply HW| |exact H2].
      rewrite HE, HE2, !concat_app, !length_app. cbn. rewrite app_nil_r. lia.
  - lia.
Qed.

(** What a pass over the segments [segs] that deletes some of them leaves, when
    removals work: those that go are not active and end at or below [bound]. *)
Definition exact_deletion (active : option nat) (bound : Z) (w w' : World) (segs kept : list SegmentMeta) : Prop :=
  no_faults w' /\ w_now w' = w_now w /\ sublist kept segs /\
  exists dropped, segs ≡ₚ kept ++ dropped /\
    Forall (fun m => active <> Some (sm_ptr m) /\ sm_LastSeq m <= bound) dropped /\
    forall q, w_dir w' !! q = if decide (q ∈ sm_Path <$> dropped) then None else w_dir w !! q.

(** The files of the segments exist, under different names. *)
Definition present (w : World) (segs : list SegmentMeta) : Prop :=
  Forall (fun m => exists f, w_dir w !! sm_Path m = Some (EFile f)) segs /\ NoDup (sm_Path <$> segs).

Lemma exact_keep active bound w w' m segs kept :
  exact_deletion active bound w w' segs kept -> exact_deletion active bound w w' (m :: segs) (m :: kept).
Proof.
  intros (Hw & Hn & HS & dropped & HP & HD & HQ). split_and!; try done; [by apply sublist_skip|].
  exists dropped. split_and!; try done. cbn. by rewrite HP.
Qed.

Lemma exact_drop active bound w w' m segs kept :
  active <> Some (sm_ptr m) -> sm_LastSeq m <= bound ->
  exact_deletion active bound (set_dir w (delete (sm_Path m) (w_dir w))) w' segs kept ->
  exact_deletion active bound w w' (m :: segs) kept.
Proof.
  intros Ha Hb (Hw & Hn & HS & dropped & HP & HD & HQ). split_and!; try done; [by apply sublist_cons|].
  exists (m :: dropped). split_and!.
  - rewrite HP. apply Permutation_middle.
  - by constructor.
  - intros q. rewrite HQ. cbn [fmap list_fmap w_dir set_dir]. destruct (decide (q = sm_Path m)) as [->|Hne].
    + rewrite (decide_True (P := sm_Path m ∈ _ :: _)) by left. case_decide; [done|]. apply lookup_delete_eq.
    + rewrite lookup_delete_ne by done. destruct (decide (q ∈ sm_Path <$> dropped)) as [Hin|Hin];
        [rewrite decide_True by (by right)|rewrite decide_False by set_solver]; done.
Qed.

Lemma present_tail w m segs : present w (m :: segs) ->
  (exists f, w_dir w !! sm_Path m = Some (EFile f)) /\ present w segs /\
  present (set_dir w (delete (sm_Path m) (w_dir w))) segs.
Proof.
  intros [[Hm HF]%Forall_cons [Hni HN]%NoDup_cons]. split_and!; [done|done|]. split; [|done].
  rewrite Forall_forall in HF |- *. intros x Hx. destruct (HF x Hx) as [fx Hfx]. exists fx. cbn.
  rewrite lookup_delete_ne; [done|]. intros HE. apply Hni. rewrite HE. by apply list_elem_of_fmap_2.
Qed.

Lemma delete_through_exact active flushed maxRetained segs : forall (w : World) total w' kept,
  no_faults w -> present w segs ->
  delete_through w active flushed maxRetained total segs = (w', kept) -> exact_deletion active flushed w w' segs kept.
Proof.
  induction segs as [|m segs IH]; intros w total w' kept Hw HF; cbn [delete_through].
  { intros [= <- <-]. split_and!; try done. exists []. split_and!; try done. }
  destruct (present_tail _ _ _ HF) as ([f Hf] & HF1 & HF2). destruct (bool_decide _ || _ || _) eqn:E.
  - destruct (delete_through w active flushed maxRetained total segs) as [w1 rest] eqn:ER. intros [= <- <-].
    eapply exact_keep, IH; done.
  - rewrite (os_Remove_ok _ _ (EFile f)) by done. intros ER. apply orb_false_iff in E as [E _].
    apply orb_false_iff in E as [E1 E2]. apply bool_decide_eq_false in E1. zify_bool.
    eapply exact_drop, IH; try done.
Qed.

Lemma delete_acked_exact active acked segs : forall (w : World) w' kept,
  no_faults w -> present w segs ->
  delete_acked w active acked segs = (w', kept) -> exact_deletion active acked w w' segs kept.
Proof.
  induction segs as [|m segs IH]; intros w w' kept Hw HF; cbn [delete_acked].
  { intros [= <- <-]. split_and!; try done. exists []. split_and!; try done. }
  destruct (present_tail _ _ _ HF) as ([f Hf] & HF1 & HF2). destruct (decide _) as [Ha|Ha].
  { destruct (delete_acked w active acked segs) as [w1 rest] eqn:ER. intros [= <- <-]. eapply exact_keep, IH; done. }
  destruct ((_ <=? _) && _) eqn:E.
  - rewrite (os_Remove_ok _ _ (EFile f)) by done. apply andb_true_iff in E as [E1 _]. zify_bool.
    destruct (delete_acked _ active acked segs) as [w1 rest] eqn:ER. intros [= <- <-].
    eapply exact_drop, IH; try done.
  - destruct (delete_acked w active acked segs) as [w1 rest] eqn:ER. intros [= <- <-]. eapply exact_keep, IH; done.
Qed.

Lemma store_present w s parts d : store_inv w s parts d -> present w (st_segments s).
Proof.
  intros HI. pose proof (metas_paths _ _ _ (si_metas _ _ _ _ HI)) as HPa. split.
  - apply Forall_forall. intros m Hm. assert (sm_Path m ∈ part_name (st_filePrefix s) <$> parts) as Hin.
    { rewrite <-HPa. by apply list_elem_of_fmap_2. }
    apply list_elem_of_fmap in Hin as (rs & -> & Hrs). pose proof (si_files _ _ _ _ HI) as HF. rewrite Forall_forall in HF.
    destruct (HF _ Hrs) as (f & Hf' & _). eauto.
  - rewrite HPa. apply names_NoDup; [apply (si_log _ _ _ _ HI)|apply (si_nonempty _ _ _ _ HI)].
Qed.

(** A pass that works drops only records at or below its bound. *)
Lemma refines_delete w s l d bound w' kept :
  refines (w, s) (mkAlog l d) -> exact_deletion (st_activeMeta s) bound w w' (st_segments s) kept ->
  exists l', refines (w', with_segments s kept) (mkAlog l' (d - (length l - length l'))%nat) /\ sublist l' l /\
    forall r, r ∈ l -> r ∈ l' \/ sf_seq r <= bound.
Proof.
  intros (Hw & Hp & Hf & parts & HI & HC) (Hw1 & Hn1 & HS & dropped & HP & HD & HQ).
  cbn [fst snd al_records al_durable] in *.
  destruct (sublist_Forall2 _ _ _ _ HS (si_metas _ _ _ _ HI)) as (parts' & HS' & HM').
  exists (concat parts'). split_and!.
  - split_and!; try done. exists parts'. split; [|done]. cbn [fst snd al_durable]. rewrite <-HC.
    eapply trim_inv; try done. eapply Forall_impl; [exact HD|]. by intros m [? _].
  - rewrite <-HC. by apply sublist_concat.
  - intros r Hr. rewrite <-HC in Hr. apply list_elem_of_In, in_concat in Hr as (rs & Hrs & Hr).
    apply list_elem_of_In in Hrs, Hr. pose proof Hrs as [i Hi]%list_elem_of_lookup.
    destruct (Forall2_lookup_r _ _ _ _ _ (si_metas _ _ _ _ HI) Hi) as (m & Hm%list_elem_of_lookup_2 & HE).
    rewrite HP in Hm. apply elem_of_app in Hm as [Hm|Hm].
    + left. apply list_elem_of_In, in_concat. exists rs. split; [|by apply list_elem_of_In]. apply list_elem_of_In.
      clear i Hi. apply list_elem_of_lookup in Hm as [i Hi]. destruct (Forall2_lookup_l _ _ _ _ _ HM' Hi) as (rs' & Hi' & HE').
      assert (rs = rs') as ->; [|by eapply list_elem_of_lookup_2].
      assert (part_name (st_filePrefix s) rs = part_name (st_filePrefix s) rs') as HN by (rewrite HE in HE'; by injection HE').
      pose proof (names_NoDup (st_filePrefix s) parts (si_log _ _ _ _ HI) (si_nonempty _ _ _ _ HI)) as HNd.
      apply list_elem_of_lookup in Hrs as [a Ha].
      assert (rs' ∈ parts) as [c Hc]%list_elem_of_lookup by (eapply elem_of_sublist; [by eapply list_elem_of_lookup_2|done]).
      assert (a = c) as ->; [|congruence].
      eapply (NoDup_lookup _ a c (part_name (st_filePrefix s) rs) HNd); rewrite list_lookup_fmap; [by rewrite Ha|by rewrite Hc, HN].
    + right. rewrite Forall_forall in HD. destruct (HD _ Hm) as [_ HL]. rewrite HE in HL. cbn in HL.
      pose proof (si_log _ _ _ _ HI) as HV. apply list_elem_of_split in Hrs as (l1 & l2 & ->).
      rewrite concat_app in HV. apply valid_log_app in HV as [_ HV]. apply valid_log_app in HV as [HV _].
      pose proof (last_seq_ge rs r HV Hr). lia.
Qed.

End trim.
