(* ===== verification/WalStream.v ===== *)
(** * WalStream: the per-stream files of a WAL buffer

    [pkg/wal/buffer/stream_store.go] and [segments.go].  The buffer keeps, next
    to the aggregated log of all streams, one directory per stream with an open
    file that grows, and sealed files that are uploaded to object storage; once
    the uploads have passed what an aggregated segment holds, the segment is
    deleted.

    A [streamWriter] works on the directory of its stream, a [World] of
    FileSys.v whose entry names are the paths, and on a backend of ObjectStore.v.
    [StreamStore] is the memory of the process, [Sys] what outlives it: the data
    directory, the stream directories and the backend.  A directory without
    entries and a missing one are not told apart.  Go's maps have no order of
    iteration: where it can matter the order is an argument.  An operation that
    holds the lock of a writer is one step. *)

From S2P Require Import Prelude Bytes WalRecord FileSys WalSegment WalPaths ObjectStore.

#[local] Open Scope Z_scope.
#[local] Open Scope list_scope.

(** The [uuid] package: [UUID.String] and [uuid.Parse]. *)
Class UuidLib : Type := {
  uuid_String : bytes -> bytes;
  uuid_Parse : bytes -> option bytes;
}.

(** Its documentation: the form [xxxxxxxx-xxxx-xxxx-xxxx-xxxxxxxxxxxx] of hex
    digits, which parses back. *)
Class UuidLaw `{!UuidLib} : Prop := {
  uuid_parse_string id : wf_uuid id -> uuid_Parse (uuid_String id) = Some id;
  uuid_parse_wf s id : uuid_Parse s = Some id -> wf_uuid id;
  uuid_string_length id : wf_uuid id -> length (uuid_String id) = 36%nat;
  uuid_string_chars id : wf_uuid id -> Forall (fun b => b <> slash) (uuid_String id);
}.

Inductive buf_error : Type :=
| ErrDisk (e : wal_error)
| ErrBackend (e : bk_error)
| ErrJson
| ErrHeader (e : wal_error)
| ErrDecode (e : wal_error)
| ErrBadUuid.

(** ** Segments in object storage ([segments.go]) *)

Definition SegmentsPrefix : bytes := go "streams/wal/segments/".

Section segments.
Context {B : Type} `{!Backend B}.

Record segEntry : Type := mkSegEntry {
  se_key : bytes;
  se_firstPos : Z;
  se_lastPos : Z;
}.

Definition seg_entry_le (a b : segEntry) : Prop :=
  se_firstPos a < se_firstPos b \/ se_firstPos a = se_firstPos b /\ se_lastPos a <= se_lastPos b.

#[export] Instance seg_entry_le_dec a b : Decision (seg_entry_le a b).
Proof. unfold seg_entry_le. apply _. Defined.

Definition valid_entry (e : ObjectEntry) : option segEntry :=
  if negb (has_prefix SegmentsPrefix (oe_Key e)) || negb (has_suffix (go ".wal") (oe_Key e))
  then None
  else match ParseSegmentPath (oe_Key e) with
       | Ok (firstPos, lastPos) => Some (mkSegEntry (oe_Key e) firstPos lastPos)
       | Err _ => None
       end.

Definition ListSegmentsFromBackend (b : B) : B * result buf_error (list bytes * Z) :=
  let '(b, r) := bk_ListObjects b [] SegmentsPrefix in
  match r with
  | Err e => (b, Err (ErrBackend e))
  | Ok entries =>
    let validEntries := omap valid_entry entries in
    let maxLastPos := foldl (fun m e => if m <? se_lastPos e then se_lastPos e else m) 0 validEntries in
    (b, Ok (se_key <$> merge_sort seg_entry_le validEntries, maxLastPos))
  end.

(** The decoding loop: any error but the end of the object is an error. *)
Fixpoint decode_all (fuel : nat) (rd : Reader) (acc : list LogRecord)
    : result wal_error (list LogRecord) :=
  match fuel with
  | O => Err ErrIO
  | S k =>
    let '(rd', res) := DecodeLogRecord rd in
    match res with
    | Ok r => decode_all k rd' (acc ++ [r])
    | Err EOF => Ok acc
    | Err e => Err e
    end
  end.

Definition decode_segment (data : bytes) (accept : bool) : result buf_error (list LogRecord) :=
  let '(rd, hdr) := ReadSegmentHeader (reader_of data) accept in
  match hdr with
  | Ok _ | Err EOF =>
    match decode_all (scan_fuel rd) rd [] with
    | Ok recs => Ok recs
    | Err e => Err (ErrDecode e)
    end
  | Err e => Err (ErrHeader e)
  end.

Definition ReadSegmentFromBackend (b : B) (segPath : bytes) (accept : bool)
    : B * result buf_error (list LogRecord) :=
  let '(b, r) := bk_GetObject b [] segPath 0 0 in
  (b, match r with
      | Err e => Err (ErrBackend e)
      | Ok data => decode_segment data accept
      end).

End segments.

(** ** One stream *)

Record StreamMeta : Type := mkStreamMeta {
  me_FromSeq : Z;
  me_ToSeq : Z;
  me_ToPos : Z;
  me_Path : bytes;
  me_Key : bytes;
}.

Definition set_Path (m : StreamMeta) (p : bytes) : StreamMeta :=
  mkStreamMeta (me_FromSeq m) (me_ToSeq m) (me_ToPos m) p (me_Key m).
Definition set_Key (m : StreamMeta) (k : bytes) : StreamMeta :=
  mkStreamMeta (me_FromSeq m) (me_ToSeq m) (me_ToPos m) (me_Path m) k.

(** [sw_openTime] is [None] for the zero [time.Time]. *)
Record streamWriter : Type := mkStreamWriter {
  sw_streamID : bytes;
  sw_openFrom : Z;
  sw_lastSeq : Z;
  sw_firstPos : Z;
  sw_lastPos : Z;
  sw_recCount : Z;
  sw_fileSize : Z;
  sw_openTime : option Z;
  sw_pending : list LogRecord;
  sw_sealed : list StreamMeta;
  sw_uploadedTo : Z;
  sw_uploadedPos : Z;
  sw_discovered : bool;
  sw_sealedSinceLastPass : bool;
  sw_evicted : bool;
}.

Definition set_openFrom (w : streamWriter) (x : Z) : streamWriter :=
  mkStreamWriter (sw_streamID w) x (sw_lastSeq w) (sw_firstPos w) (sw_lastPos w) (sw_recCount
    w) (sw_fileSize w) (sw_openTime w) (sw_pending w) (sw_sealed w) (sw_uploadedTo w)
    (sw_uploadedPos w) (sw_discovered w) (sw_sealedSinceLastPass w) (sw_evicted w).
Definition set_lastSeq (w : streamWriter) (x : Z) : streamWriter :=
  mkStreamWriter (sw_streamID w) (sw_openFrom w) x (sw_firstPos w) (sw_lastPos w) (sw_recCount
    w) (sw_fileSize w) (sw_openTime w) (sw_pending w) (sw_sealed w) (sw_uploadedTo w)
    (sw_uploadedPos w) (sw_discovered w) (sw_sealedSinceLastPass w) (sw_evicted w).
Definition set_firstPos (w : streamWriter) (x : Z) : streamWriter :=
  mkStreamWriter (sw_streamID w) (sw_openFrom w) (sw_lastSeq w) x (sw_lastPos w) (sw_recCount
    w) (sw_fileSize w) (sw_openTime w) (sw_pending w) (sw_sealed w) (sw_uploadedTo w)
    (sw_uploadedPos w) (sw_discovered w) (sw_sealedSinceLastPass w) (sw_evicted w).
Definition set_lastPos (w : streamWriter) (x : Z) : streamWriter :=
  mkStreamWriter (sw_streamID w) (sw_openFrom w) (sw_lastSeq w) (sw_firstPos w) x (sw_recCount
    w) (sw_fileSize w) (sw_openTime w) (sw_pending w) (sw_sealed w) (sw_uploadedTo w)
    (sw_uploadedPos w) (sw_discovered w) (sw_sealedSinceLastPass w) (sw_evicted w).
Definition set_recCount (w : streamWriter) (x : Z) : streamWriter :=
  mkStreamWriter (sw_streamID w) (sw_openFrom w) (sw_lastSeq w) (sw_firstPos w) (sw_lastPos w)
    x (sw_fileSize w) (sw_openTime w) (sw_pending w) (sw_sealed w) (sw_uploadedTo w)
    (sw_uploadedPos w) (sw_discovered w) (sw_sealedSinceLastPass w) (sw_evicted w).
Definition set_fileSize (w : streamWriter) (x : Z) : streamWriter :=
  mkStreamWriter (sw_streamID w) (sw_openFrom w) (sw_lastSeq w) (sw_firstPos w) (sw_lastPos w)
    (sw_recCount w) x (sw_openTime w) (sw_pending w) (sw_sealed w) (sw_uploadedTo w)
    (sw_uploadedPos w) (sw_discovered w) (sw_sealedSinceLastPass w) (sw_evicted w).
Definition set_openTime (w : streamWriter) (x : option Z) : streamWriter :=
  mkStreamWriter (sw_streamID w) (sw_openFrom w) (sw_lastSeq w) (sw_firstPos w) (sw_lastPos w)
    (sw_recCount w) (sw_fileSize w) x (sw_pending w) (sw_sealed w) (sw_uploadedTo w)
    (sw_uploadedPos w) (sw_discovered w) (sw_sealedSinceLastPass w) (sw_evicted w).
Definition set_pending (w : streamWriter) (x : list LogRecord) : streamWriter :=
  mkStreamWriter (sw_streamID w) (sw_openFrom w) (sw_lastSeq w) (sw_firstPos w) (sw_lastPos w)
    (sw_recCount w) (sw_fileSize w) (sw_openTime w) x (sw_sealed w) (sw_uploadedTo w)
    (sw_uploadedPos w) (sw_discovered w) (sw_sealedSinceLastPass w) (sw_evicted w).
Definition set_sealed (w : streamWriter) (x : list StreamMeta) : streamWriter :=
  mkStreamWriter (sw_streamID w) (sw_openFrom w) (sw_lastSeq w) (sw_firstPos w) (sw_lastPos w)
    (sw_recCount w) (sw_fileSize w) (sw_openTime w) (sw_pending w) x (sw_uploadedTo w)
    (sw_uploadedPos w) (sw_discovered w) (sw_sealedSinceLastPass w) (sw_evicted w).
Definition set_uploadedTo (w : streamWriter) (x : Z) : streamWriter :=
  mkStreamWriter (sw_streamID w) (sw_openFrom w) (sw_lastSeq w) (sw_firstPos w) (sw_lastPos w)
    (sw_recCount w) (sw_fileSize w) (sw_openTime w) (sw_pending w) (sw_sealed w) x
    (sw_uploadedPos w) (sw_discovered w) (sw_sealedSinceLastPass w) (sw_evicted w).
Definition set_uploadedPos (w : streamWriter) (x : Z) : streamWriter :=
  mkStreamWriter (sw_streamID w) (sw_openFrom w) (sw_lastSeq w) (sw_firstPos w) (sw_lastPos w)
    (sw_recCount w) (sw_fileSize w) (sw_openTime w) (sw_pending w) (sw_sealed w)
    (sw_uploadedTo w) x (sw_discovered w) (sw_sealedSinceLastPass w) (sw_evicted w).
Definition set_discovered (w : streamWriter) (x : bool) : streamWriter :=
  mkStreamWriter (sw_streamID w) (sw_openFrom w) (sw_lastSeq w) (sw_firstPos w) (sw_lastPos w)
    (sw_recCount w) (sw_fileSize w) (sw_openTime w) (sw_pending w) (sw_sealed w)
    (sw_uploadedTo w) (sw_uploadedPos w) x (sw_sealedSinceLastPass w) (sw_evicted w).
Definition set_sealedSinceLastPass (w : streamWriter) (x : bool) : streamWriter :=
  mkStreamWriter (sw_streamID w) (sw_openFrom w) (sw_lastSeq w) (sw_firstPos w) (sw_lastPos w)
    (sw_recCount w) (sw_fileSize w) (sw_openTime w) (sw_pending w) (sw_sealed w)
    (sw_uploadedTo w) (sw_uploadedPos w) (sw_discovered w) x (sw_evicted w).
Definition set_evicted (w : streamWriter) (x : bool) : streamWriter :=
  mkStreamWriter (sw_streamID w) (sw_openFrom w) (sw_lastSeq w) (sw_firstPos w) (sw_lastPos w)
    (sw_recCount w) (sw_fileSize w) (sw_openTime w) (sw_pending w) (sw_sealed w)
    (sw_uploadedTo w) (sw_uploadedPos w) (sw_discovered w) (sw_sealedSinceLastPass w) x.

Definition new_writer (id : bytes) : streamWriter :=
  mkStreamWriter id 0 0 0 0 0 0 None [] [] 0 0 false false false.

Definition appendRecords (sw : streamWriter) (records : list LogRecord) : streamWriter * bool :=
  if sw_evicted sw then (sw, false)
  else (set_pending sw (sw_pending sw ++ records), true).

Definition open_name (sw : streamWriter) : bytes := FormatStreamFileName (sw_openFrom sw) 0 false.

(** The bookkeeping of the encoding loop. *)
Definition note_record (sw : streamWriter) (rec : LogRecord) : streamWriter :=
  let sw := if sw_lastSeq sw <? lr_StreamSeq rec then set_lastSeq sw (lr_StreamSeq rec) else sw in
  let sw := if (sw_firstPos sw =? 0) || (lr_Position rec <? sw_firstPos sw)
            then set_firstPos sw (lr_Position rec) else sw in
  let sw := if sw_lastPos sw <? lr_Position rec then set_lastPos sw (lr_Position rec) else sw in
  set_recCount sw (sw_recCount sw + 1).

(** The fields set before the file is opened. *)
Definition begin_file (now : Z) (p0 : LogRecord) (sw : streamWriter) : streamWriter :=
  let sw := if sw_recCount sw =? 0 then set_openFrom sw (lr_StreamSeq p0)
            else if sw_openFrom sw =? 0 then set_openFrom sw (lr_StreamSeq p0) else sw in
  match sw_openTime sw with None => set_openTime sw (Some now) | Some _ => sw end.

Definition flushPendingLocked (w : World) (sw : streamWriter)
    : World * streamWriter * result wal_error () :=
  match sw_pending sw with
  | [] => (w, sw, Ok ())
  | p0 :: _ =>
    let '(w, mk) := sys_plain w in
    match mk with
    | Err e => (w, sw, Err e)
    | Ok _ =>
      let sw := begin_file (w_now w) p0 sw in
      let openPath := open_name sw in
      let '(w, stat) := os_Stat w openPath in
      let '(w, f) := os_OpenAppend w openPath in
      match f with
      | Err e => (w, sw, Err e)
      | Ok _ =>
        let hdr := match stat with
                   | Ok n => if n =? 0 then SegmentHeader_Encode DefaultSegmentHeader else []
                   | Err _ => SegmentHeader_Encode DefaultSegmentHeader
                   end in
        let buf := hdr ++ concat (LogRecord_Encode <$> sw_pending sw) in
        let sw := set_pending (foldl note_record sw (sw_pending sw)) [] in
        let '(w, wr) := f_Write w openPath buf in
        let '(w, cl) := f_Close w in
        match wr, cl with
        | Err e, _ => (w, sw, Err e)
        | Ok _, Err e => (w, sw, Err e)
        | Ok _, Ok _ =>
          (w, set_fileSize sw (sw_fileSize sw + Z.of_nat (length buf)), Ok ())
        end
      end
    end
  end.

Section writer.
Context `{UU : !UuidLib} {B : Type} `{BK : !Backend B}.

(** [m] is the meta at index [i] of [w.sealed], mutated through its pointer. *)
Definition uploadSealedMetaLocked (w : World) (b : B) (sw : streamWriter) (i : nat)
    : World * B * streamWriter * result buf_error () :=
  match sw_sealed sw !! i with
  | None => (w, b, sw, Ok ())
  | Some m =>
    if negb (bool_decide (me_Key m = [])) || bool_decide (me_Path m = []) then (w, b, sw, Ok ())
    else
    let '(w, rd) := os_ReadFile w (me_Path m) in
    match rd with
    | Err e => (w, b, sw, Err (ErrDisk e))
    | Ok data =>
      let objKey := FormatStreamObjectKey (uuid_String (sw_streamID sw)) (me_FromSeq m) (me_ToSeq m) in
      let '(b, r) := bk_PutObject b [] objKey data in
      match r with
      | Err e => (w, b, sw, Err (ErrBackend e))
      | Ok _ =>
        let sw := set_sealed sw (<[i := set_Key m objKey]> (sw_sealed sw)) in
        let sw := if sw_uploadedTo sw <? me_ToSeq m
                  then set_uploadedPos (set_uploadedTo sw (me_ToSeq m)) (me_ToPos m) else sw in
        (w, b, sw, Ok ())
      end
    end
  end.

(** [f.Sync] and [f.Close] on the open file: whichever fails first. *)
Definition fsync_open (w : World) (p : bytes) : World * result wal_error () :=
  let '(w, o) := os_OpenWrite w p in
  match o with
  | Err e => (w, Err e)
  | Ok _ =>
    let '(w, s) := f_Sync w p in
    let '(w, c) := f_Close w in
    (w, match s with Err e => Err e | Ok _ => c end)
  end.

(** The writer after the rename that completes a seal. *)
Definition sealed_writer (sw : streamWriter) (meta : StreamMeta) : streamWriter :=
  let sw := set_sealed sw (sw_sealed sw ++ [meta]) in
  let sw := set_openFrom sw (u64 (sw_lastSeq sw + 1)) in
  set_sealedSinceLastPass (set_openTime (set_fileSize (set_recCount sw 0) 0) None) true.

Definition sealLocked (w : World) (b : B) (sw : streamWriter)
    : World * B * streamWriter * (option StreamMeta * result buf_error ()) :=
  let '(w, sw, fl) := flushPendingLocked w sw in
  match fl with
  | Err e => (w, b, sw, (None, Err (ErrDisk e)))
  | Ok _ =>
    if (sw_recCount sw =? 0) || (sw_openFrom sw =? 0) then (w, b, sw, (None, Ok ()))
    else
    let openPath := open_name sw in
    let '(w, sy) := fsync_open w openPath in
    match sy with
    | Err e => (w, b, sw, (None, Err (ErrDisk e)))
    | Ok _ =>
      let sealedPath := FormatStreamFileName (sw_openFrom sw) (sw_lastSeq sw) true in
      let '(w, rn) := os_Rename w openPath sealedPath in
      match rn with
      | Err e => (w, b, sw, (None, Err (ErrDisk e)))
      | Ok _ =>
        let meta := mkStreamMeta (sw_openFrom sw) (sw_lastSeq sw) (sw_lastPos sw) sealedPath [] in
        let i := length (sw_sealed sw) in
        let sw := sealed_writer sw meta in
        let '(w, b, sw, up) := uploadSealedMetaLocked w b sw i in
        (w, b, sw, (sw_sealed sw !! i, up))
      end
    end
  end.

Definition hasPendingSealedUploadsLocked (sw : streamWriter) : bool :=
  existsb (fun m => bool_decide (me_Key m = [])) (sw_sealed sw).

(** The loop over [w.sealed]: every meta is tried, the first error is returned. *)
Fixpoint upload_metas (w : World) (b : B) (sw : streamWriter) (ixs : list nat)
    (firstErr : result buf_error ()) : World * B * streamWriter * result buf_error () :=
  match ixs with
  | [] => (w, b, sw, firstErr)
  | i :: ixs =>
    let '(w, b, sw, r) := uploadSealedMetaLocked w b sw i in
    upload_metas w b sw ixs (match firstErr, r with Ok _, Err e => Err e | _, _ => firstErr end)
  end.

Definition uploadPendingSealedLocked (w : World) (b : B) (sw : streamWriter)
    : World * B * streamWriter * result buf_error () :=
  upload_metas w b sw (seq 0 (length (sw_sealed sw))) (Ok ()).

(** The search for the meta of a file: updates the first match, [None] when
    there is none. *)
Fixpoint update_match (from to : Z) (f : StreamMeta -> StreamMeta) (l : list StreamMeta)
    : option (list StreamMeta) :=
  match l with
  | [] => None
  | m :: l =>
    if (me_FromSeq m =? from) && (me_ToSeq m =? to) then Some (f m :: l)
    else cons m <$> update_match from to f l
  end.

Definition raise_lastSeq (sw : streamWriter) (to : Z) : streamWriter :=
  if sw_lastSeq sw <? to then set_lastSeq sw to else sw.

Definition discover_local (sw : streamWriter) (e : bytes * Entry) : streamWriter :=
  match e with
  | (_, EDir) => sw
  | (name, EFile _) =>
    match ParseStreamPath name with
    | Ok (from, to, true) =>
      let sealed :=
        match update_match from to
                (fun m => if bool_decide (me_Path m = []) then set_Path m name else m) (sw_sealed sw) with
        | Some l => l
        | None => sw_sealed sw ++ [mkStreamMeta from to 0 name []]
        end in
      raise_lastSeq (set_sealed sw sealed) to
    | _ => sw
    end
  end.

Definition discover_remote (sw : streamWriter) (e : ObjectEntry) : streamWriter :=
  match ParseStreamPath (oe_Key e) with
  | Ok (from, to, true) =>
    let sw := if sw_uploadedTo sw <? to then set_uploadedTo sw to else sw in
    let sw := raise_lastSeq sw to in
    set_sealed sw
      (match update_match from to
               (fun m => if bool_decide (me_Key m = []) then set_Key m (oe_Key e) else m) (sw_sealed sw) with
       | Some l => l
       | None => sw_sealed sw ++ [mkStreamMeta from to 0 [] (oe_Key e)]
       end)
  | _ => sw
  end.

Definition meta_le (a b : StreamMeta) : Prop := me_FromSeq a <= me_FromSeq b.
#[export] Instance meta_le_dec a b : Decision (meta_le a b).
Proof. unfold meta_le. apply _. Defined.

(** [sort.Slice] by [FromSeq]; the order of metas with the same [FromSeq] is
    not specified there. *)
Definition sort_metas (l : list StreamMeta) : list StreamMeta := merge_sort meta_le l.

Definition discoverRemoteSealedLocked (w : World) (b : B) (sw : streamWriter)
    : World * B * streamWriter :=
  let '(w, ents) := os_ReadDir w in
  let sw := match ents with Err _ => sw | Ok l => foldl discover_local sw l end in
  let '(b, r) := bk_ListObjects b [] (go "streams/" ++ uuid_String (sw_streamID sw) ++ go "/") in
  match r with
  | Err _ => (w, b, sw)
  | Ok entries =>
    let sw := set_discovered (foldl discover_remote sw entries) true in
    (w, b, set_sealed sw (sort_metas (sw_sealed sw)))
  end.

Definition getSealedMetas (w : World) (b : B) (sw : streamWriter)
    : World * B * streamWriter * list StreamMeta :=
  let '(w, b, sw) :=
    if sw_discovered sw then (w, b, sw) else discoverRemoteSealedLocked w b sw in
  (w, b, sw, sw_sealed sw).

(** What recovery takes from the scan of an open file. *)
Definition note_open (from : Z) (recs : list LogRecord) (meta : SegmentMeta) (sw : streamWriter)
    : streamWriter :=
  let sw := set_fileSize (set_recCount (set_openFrom sw from) (sm_RecordCount meta)) (sm_Size meta) in
  match recs, last recs with
  | r0 :: _, Some rl =>
    let sw := if (sw_firstPos sw =? 0) || (lr_Position r0 <? sw_firstPos sw)
              then set_firstPos sw (lr_Position r0) else sw in
    let sw := raise_lastSeq sw (lr_StreamSeq rl) in
    if sw_lastPos sw <? lr_Position rl then set_lastPos sw (lr_Position rl) else sw
  | _, _ => sw
  end.

Fixpoint recover_entries (w : World) (sw : streamWriter) (opt : ScanOptions)
    (entries : list (bytes * Entry)) : World * streamWriter * result wal_error () :=
  match entries with
  | [] => (w, sw, Ok ())
  | (_, EDir) :: entries => recover_entries w sw opt entries
  | (name, EFile _) :: entries =>
    match ParseStreamPath name with
    | Err _ => recover_entries w sw opt entries
    | Ok (from, to, true) =>
      let sw := raise_lastSeq (set_sealed sw (sw_sealed sw ++ [mkStreamMeta from to 0 name []])) to in
      recover_entries w sw opt entries
    | Ok (from, _, false) =>
      let '(w, sc) := ScanLogSegmentFile w name opt in
      match sc with
      | Err e => (w, sw, Err e)
      | Ok (recs, meta) => recover_entries w (note_open from recs meta sw) opt entries
      end
    end
  end.

(** Step 4 of the recovery: what the aggregated log has past the files. *)
Definition catch_up (sw : streamWriter) (aggRecords : list LogRecord) : list LogRecord :=
  filter (fun r => lr_StreamID r = sw_streamID sw /\ sw_lastSeq sw < lr_StreamSeq r) aggRecords.

Definition recoverStream (w : World) (b : B) (sw : streamWriter) (aggRecords : list LogRecord)
    (opt : ScanOptions) : World * B * streamWriter * result wal_error () :=
  let '(w, ents) := os_ReadDir w in
  match ents with
  | Err e => (w, b, sw, Err e)
  | Ok entries =>
    let '(w, sw, r) := recover_entries w sw opt entries in
    match r with
    | Err e => (w, b, sw, Err e)
    | Ok _ =>
      let '(w, b, sw) := discoverRemoteSealedLocked w b sw in
      let '(w, b, sw, _) := uploadPendingSealedLocked w b sw in
      let sw := set_pending sw (sw_pending sw ++ catch_up sw aggRecords) in
      let '(w, sw, r) := flushPendingLocked w sw in
      (w, b, sw, r)
    end
  end.

End writer.

(** Reading the records of a stream file that follow an offset: decoding stops
    silently at the first error. *)
Fixpoint decode_prefix (fuel : nat) (rd : Reader) (acc : list LogRecord) (off : Z)
    : list LogRecord * Z :=
  match fuel with
  | O => (acc, off)
  | S k =>
    let '(rd', res) := DecodeLogRecord rd in
    match res with
    | Err _ => (acc, off)
    | Ok r => decode_prefix k rd' (acc ++ [r]) (off + (LogHeaderSize + Z.of_nat (length (lr_Payload r))))
    end
  end.

Definition ReadRecordsFromOffset (w : World) (path : bytes) (startOffset : Z) (accept : bool)
    : World * result wal_error (list LogRecord * Z) :=
  let '(w, h) := os_Open w path in
  match h with
  | Err ErrNotExist => (w, Ok ([], startOffset))
  | Err e => (w, Err e)
  | Ok rd =>
    let '(w, _) := f_Close w in
    if startOffset =? 0 then
      let '(rd, hdr) := ReadSegmentHeader rd accept in
      match hdr with
      | Err EOF => (w, Ok ([], 0))
      | Err e => (w, Err e)
      | Ok (_, hdrOffset) => (w, Ok (decode_prefix (scan_fuel rd) rd [] hdrOffset))
      end
    else
      let rd := rd_seek rd (Z.to_nat startOffset) in
      (w, Ok (decode_prefix (scan_fuel rd) rd [] startOffset))
  end.

(** ** All streams *)

(** What outlives the process: the data directory, the directories of the
    streams by the text of their id, the outcomes of the calls to come, the
    clock, and object storage. *)
Record Sys (B : Type) : Type := mkSys {
  sy_root : gmap bytes Entry;
  sy_streams : gmap bytes (gmap bytes Entry);
  sy_outcomes : list outcome;
  sy_now : Z;
  sy_backend : B;
}.
Arguments mkSys {B}.
Arguments sy_root {B}.
Arguments sy_streams {B}.
Arguments sy_outcomes {B}.
Arguments sy_now {B}.
Arguments sy_backend {B}.

Record StreamStore : Type := mkStreamStore {
  ss_sealInterval : Z;
  ss_sealBytes : Z;
  ss_acceptUnversioned : bool;
  ss_streams : gmap bytes streamWriter;
  ss_segmentReqs : gmap bytes (gmap bytes Z);
}.

Definition set_streams (s : StreamStore) (m : gmap bytes streamWriter) : StreamStore :=
  mkStreamStore (ss_sealInterval s) (ss_sealBytes s) (ss_acceptUnversioned s) m (ss_segmentReqs s).
Definition set_segmentReqs (s : StreamStore) (m : gmap bytes (gmap bytes Z)) : StreamStore :=
  mkStreamStore (ss_sealInterval s) (ss_sealBytes s) (ss_acceptUnversioned s) (ss_streams s) m.

Definition DefaultStreamSealInterval : Z := 3600 * 10 ^ 9.
Definition DefaultStreamSealBytes : Z := 64 * 1024 * 1024.

Definition NewStreamStore (sealInterval sealBytes : Z) : StreamStore :=
  mkStreamStore
    (if sealInterval <=? 0 then DefaultStreamSealInterval else sealInterval)
    (if sealBytes <=? 0 then DefaultStreamSealBytes else sealBytes)
    false ∅ ∅.

Definition SetAcceptUnversioned (s : StreamStore) (accept : bool) : StreamStore :=
  mkStreamStore (ss_sealInterval s) (ss_sealBytes s) accept (ss_streams s) (ss_segmentReqs s).

Section store.
Context `{UU : !UuidLib} {B : Type} `{BK : !Backend B}.
Implicit Types (y : Sys B) (s : StreamStore).

Definition set_backend y (b : B) : Sys B :=
  mkSys (sy_root y) (sy_streams y) (sy_outcomes y) (sy_now y) b.

(** The directory of a stream as a world, and back. *)
Definition stream_world y (sid : bytes) : World :=
  mkWorld (default ∅ (sy_streams y !! sid)) (sy_outcomes y) (sy_now y).
Definition put_world y (sid : bytes) (w : World) : Sys B :=
  mkSys (sy_root y)
    (if decide (w_dir w = ∅) then delete sid (sy_streams y) else <[sid := w_dir w]> (sy_streams y))
    (w_outcomes w) (w_now w) (sy_backend y).

(** The data directory as a world, and back. *)
Definition root_world y : World := mkWorld (sy_root y) (sy_outcomes y) (sy_now y).
Definition put_root y (w : World) : Sys B :=
  mkSys (w_dir w) (sy_streams y) (w_outcomes w) (w_now w) (sy_backend y).

Definition getOrCreateStream s (streamID : bytes) : StreamStore * streamWriter :=
  let sid := uuid_String streamID in
  match ss_streams s !! sid with
  | Some sw => (s, sw)
  | None => (set_streams s (<[sid := new_writer streamID]> (ss_streams s)), new_writer streamID)
  end.

Definition getStream s (streamID : bytes) : option streamWriter := ss_streams s !! uuid_String streamID.

(** An operation on the writer of the map entry [sid], under its lock. *)
Definition on_writer {A} y s (sid : bytes)
    (f : World -> B -> streamWriter -> World * B * streamWriter * A) (dflt : A)
    : Sys B * StreamStore * A :=
  match ss_streams s !! sid with
  | None => (y, s, dflt)
  | Some sw =>
    let '(w, b, sw, a) := f (stream_world y sid) (sy_backend y) sw in
    (set_backend (put_world y sid w) b, set_streams s (<[sid := sw]> (ss_streams s)), a)
  end.

Definition flush_op (w : World) (b : B) (sw : streamWriter)
    : World * B * streamWriter * result wal_error () :=
  let '(w, sw, r) := flushPendingLocked w sw in (w, b, sw, r).

(** The loop body of [flushAllPending]; errors are logged. *)
Definition flush_stream y s (sid : bytes) : Sys B * StreamStore :=
  let '(y, s, _) := on_writer y s sid flush_op (Ok ()) in (y, s).

Fixpoint flushAllPending y s (ws : list bytes) : Sys B * StreamStore :=
  match ws with
  | [] => (y, s)
  | sid :: ws => let '(y, s) := flush_stream y s sid in flushAllPending y s ws
  end.

Definition needs_discovery (sw : streamWriter) : bool :=
  negb (sw_discovered sw) && bool_decide (sw_sealed sw = []) && (sw_uploadedTo sw =? 0).

Definition discover_op (w : World) (b : B) (sw : streamWriter) : World * B * streamWriter :=
  if needs_discovery sw then discoverRemoteSealedLocked w b sw else (w, b, sw).

Definition seal_due s (now : Z) (sw : streamWriter) : bool :=
  (0 <? sw_recCount sw) &&
  ((ss_sealBytes s <=? sw_fileSize sw) ||
   match sw_openTime sw with Some t => ss_sealInterval s <=? now - t | None => false end).

(** The loop body of [checkSealsAndGC]. *)
Definition check_op s (w : World) (b : B) (sw : streamWriter) : World * B * streamWriter * () :=
  let '(w, b, sw) := discover_op w b sw in
  let '(w, sw, _) := flushPendingLocked w sw in
  let '(w, b, sw, _) := uploadPendingSealedLocked w b sw in
  if seal_due s (w_now w) sw
  then let '(w, b, sw, _) := sealLocked w b sw in (w, b, sw, ())
  else (w, b, sw, ()).

Definition check_stream y s (sid : bytes) : Sys B * StreamStore :=
  let '(y, s, _) := on_writer y s sid (check_op s) () in (y, s).

Fixpoint check_streams y s (ws : list bytes) : Sys B * StreamStore :=
  match ws with
  | [] => (y, s)
  | sid :: ws => let '(y, s) := check_stream y s sid in check_streams y s ws
  end.

(** *** Coverage and garbage collection *)

Definition track_reqs (records : list LogRecord) : gmap bytes Z :=
  foldl (fun reqs rec =>
           let sid := uuid_String (lr_StreamID rec) in
           if default 0 (reqs !! sid) <? lr_StreamSeq rec
           then <[sid := lr_StreamSeq rec]> reqs else reqs) ∅ records.

Definition TrackSegmentCoverage s (segPath : bytes) (records : list LogRecord) : StreamStore :=
  set_segmentReqs s (<[segPath := track_reqs records]> (ss_segmentReqs s)).

Definition req_covered s (e : bytes * Z) : bool :=
  match uuid_Parse (fst e) with
  | None => true
  | Some id =>
    match getStream s id with
    | None => false
    | Some sw => sw_discovered sw && negb (sw_uploadedTo sw <? snd e)
    end
  end.

Definition seg_covered s (reqs : gmap bytes Z) : bool :=
  forallb (req_covered s) (map_to_list reqs) && negb (bool_decide (reqs = ∅)).

(** The loop over [segmentReqs], in the order [segs]. *)
Fixpoint gc_segments y s (segs : list bytes) : Sys B * StreamStore * list bytes * list buf_error :=
  match segs with
  | [] => (y, s, [], [])
  | seg :: segs =>
    match ss_segmentReqs s !! seg with
    | None => gc_segments y s segs
    | Some reqs =>
      if seg_covered s reqs then
        let '(b, r) := bk_DeleteObject (sy_backend y) [] seg in
        let y := set_backend y b in
        match r with
        | Err e =>
          let '(y, s, deleted, errs) := gc_segments y s segs in (y, s, deleted, ErrBackend e :: errs)
        | Ok _ =>
          let s := set_segmentReqs s (delete seg (ss_segmentReqs s)) in
          let '(y, s, deleted, errs) := gc_segments y s segs in (y, s, seg :: deleted, errs)
        end
      else gc_segments y s segs
    end
  end.

Definition CheckSegmentGC y s (segs : list bytes)
    : Sys B * StreamStore * list bytes * list buf_error := gc_segments y s segs.

Definition idle_writer (sw : streamWriter) : bool :=
  bool_decide (sw_pending sw = []) && (sw_recCount sw =? 0) && negb (sw_sealedSinceLastPass sw)
  && negb (hasPendingSealedUploadsLocked sw).

Definition canEvictStream s (streamID : bytes) (witnessSeq s3Seq : Z) : bool :=
  match getStream s streamID with
  | None => true
  | Some sw =>
    if negb (bool_decide (sw_pending sw = [])) || (0 <? sw_recCount sw) || sw_sealedSinceLastPass sw
       || hasPendingSealedUploadsLocked sw
    then false
    else (witnessSeq <=? sw_uploadedTo sw) && (s3Seq <=? sw_uploadedTo sw)
  end.

(** The evicted writer is dropped from the map in the same critical section
    that marks it.  The mark is for an appender that holds the writer; WalAppend.v
    has the writers as shared objects and shows that the map behaves as here. *)
Definition evictIdleWritersLocked s : StreamStore :=
  set_streams s (omap (fun sw => if idle_writer sw then None
                                 else Some (set_sealedSinceLastPass sw false)) (ss_streams s)).

Definition covered_pos (sw : streamWriter) : option Z :=
  if (sw_firstPos sw =? 0) && (sw_uploadedPos sw =? 0) then None
  else Some (if (sw_uploadedPos sw =? 0) && (0 <? sw_firstPos sw) then sw_firstPos sw - 1
             else sw_uploadedPos sw).

(** The minimum over the writers with records, [None] when there is none. *)
Definition min_covered s : option Z :=
  foldr (fun sw acc =>
           match covered_pos sw, acc with
           | None, _ => acc
           | Some p, None => Some p
           | Some p, Some q => Some (Z.min p q)
           end) None (snd <$> map_to_list (ss_streams s)).

(** [json.Marshal] of a [StreamCoverage], and [json.Unmarshal] on the texts a
    coverage file can hold: what [json.Marshal] wrote, or a part of it. *)
Definition json_open : bytes := go "{" ++ [x22] ++ go "covered_position" ++ [x22] ++ go ":".
Definition json_coverage (pos : Z) : bytes := json_open ++ fmt_pad 0 pos ++ go "}".
Definition parse_coverage (data : bytes) : option Z :=
  if has_prefix json_open data && has_suffix (go "}") data
  then parse_uint (trim_suffix (go "}") (trim_prefix json_open data))
  else None.

Definition coverage_name : bytes := go "coverage.json".

Definition writeCoverageFile y (pos : Z) : Sys B :=
  put_root y (fst (os_WriteFile (root_world y) coverage_name (json_coverage pos))).

Definition saveCoverage y s : Sys B :=
  match min_covered s with
  | Some p => writeCoverageFile y p
  | None => y
  end.

Definition LoadCoverage y : Sys B * result buf_error Z :=
  let '(w, r) := os_ReadFile (root_world y) coverage_name in
  (put_root y w,
   match r with
   | Err ErrNotExist => Ok 0
   | Err e => Err (ErrDisk e)
   | Ok data => match parse_coverage data with Some p => Ok p | None => Err ErrJson end
   end).

(** *** Operations of the store *)

(** The attempt of the retry loop of [AppendRecords] that succeeds, on the writer
    that is then in the map; [None] is a failed attempt.  The loop itself, with
    evictions between the two lock regions of an attempt, is in WalAppend.v. *)
Definition append_stream s (streamID : bytes) (recs : list LogRecord) : option StreamStore :=
  let '(s, sw) := getOrCreateStream s streamID in
  let '(sw, ok) := appendRecords sw recs in
  if ok then Some (set_streams s (<[uuid_String streamID := sw]> (ss_streams s))) else None.

Fixpoint append_streams s (records : list LogRecord) (ids : list bytes) : option StreamStore :=
  match ids with
  | [] => Some s
  | id :: ids =>
    match append_stream s id (filter (fun r => lr_StreamID r = id) records) with
    | Some s => append_streams s records ids
    | None => None
    end
  end.

(** Streams in the order of their first record: the order of the loop over
    [byStream] does not matter, the writers are distinct. *)
Definition AppendRecords s (records : list LogRecord) : option StreamStore :=
  append_streams s records (remove_dups (lr_StreamID <$> records)).

Definition EnsureDiscovered y s (streamID : bytes) : Sys B * StreamStore * Z :=
  let '(s, _) := getOrCreateStream s streamID in
  on_writer y s (uuid_String streamID)
    (fun w b sw => let '(w, b, sw) := discover_op w b sw in (w, b, sw, sw_uploadedTo sw)) 0.

Definition seal_op (w : World) (b : B) (sw : streamWriter)
    : World * B * streamWriter * (option StreamMeta * result buf_error ()) :=
  let '(w, b, sw) := discover_op w b sw in
  let '(w, b, sw, _) := uploadPendingSealedLocked w b sw in
  sealLocked w b sw.

Definition SealStream y s (streamID : bytes)
    : Sys B * StreamStore * (option StreamMeta * result buf_error ()) :=
  let '(s, _) := getOrCreateStream s streamID in
  let '(y, s, r) := on_writer y s (uuid_String streamID) seal_op (None, Ok ()) in
  (saveCoverage y s, s, r).

(** The loop of [SealAll] keeps the error of the upload too. *)
Definition seal_all_op (w : World) (b : B) (sw : streamWriter)
    : World * B * streamWriter * (option StreamMeta * list buf_error) :=
  let '(w, b, sw) := discover_op w b sw in
  let '(w, b, sw, up) := uploadPendingSealedLocked w b sw in
  let '(w, b, sw, (meta, r)) := sealLocked w b sw in
  let err x := match x with Err e => [e] | Ok _ => [] end in
  (w, b, sw, (meta, err up ++ err r)).

Fixpoint seal_streams y s (ws : list bytes) : Sys B * StreamStore * list StreamMeta * list buf_error :=
  match ws with
  | [] => (y, s, [], [])
  | sid :: ws =>
    let '(y, s, (meta, errs)) := on_writer y s sid seal_all_op (None, []) in
    let '(y, s, metas, errs') := seal_streams y s ws in
    (y, s, option_list meta ++ metas, errs ++ errs')
  end.

Definition SealAll y s (ws : list bytes) : Sys B * StreamStore * list StreamMeta * list buf_error :=
  let '(y, s, sealed, errs) := seal_streams y s ws in
  (saveCoverage y s, s, sealed, errs).

(** [checkSealsAndGC] without an eviction hook; the orders of the two loops are
    arguments. *)
Definition checkSealsAndGC y s (ws segs : list bytes) : Sys B * StreamStore :=
  let '(y, s) := check_streams y s ws in
  let '(y, s, _, _) := CheckSegmentGC y s segs in
  let s := evictIdleWritersLocked s in
  (saveCoverage y s, s).

(** The ids [Recover] collects: the directories, the aggregated records, the
    writers; [None] when the key of a writer does not parse. *)
Definition parse_keys (l : list bytes) : option (list bytes) := mapM uuid_Parse l.

Definition recover_ids y s (aggRecords : list LogRecord) : option (list bytes) :=
  match parse_keys (fst <$> map_to_list (ss_streams s)) with
  | None => None
  | Some ids =>
    Some (remove_dups (omap uuid_Parse (fst <$> map_to_list (sy_streams y)) ++
                       (lr_StreamID <$> aggRecords) ++ ids))
  end.

Definition recover_op s (aggRecords : list LogRecord) (w : World) (b : B) (sw : streamWriter)
    : World * B * streamWriter * result wal_error () :=
  recoverStream w b sw aggRecords (mkScanOptions (ss_acceptUnversioned s) false).

Definition recover_one y s (aggRecords : list LogRecord) (id : bytes)
    : Sys B * StreamStore * result wal_error () :=
  let '(s, _) := getOrCreateStream s id in
  on_writer y s (uuid_String id) (recover_op s aggRecords) (Ok ()).

Fixpoint recover_streams y s (aggRecords : list LogRecord) (ids : list bytes)
    : Sys B * StreamStore * list wal_error :=
  match ids with
  | [] => (y, s, [])
  | id :: ids =>
    let '(y, s, r) := recover_one y s aggRecords id in
    let '(y, s, errs) := recover_streams y s aggRecords ids in
    (y, s, match r with Err e => e :: errs | Ok _ => errs end)
  end.

Definition Recover y s (aggRecords : list LogRecord) : Sys B * StreamStore * result buf_error (list wal_error) :=
  let '(w, o) := next_outcome (root_world y) in
  let y := put_root y w in
  match o with
  | OFail _ => (y, s, Err (ErrDisk ErrSys))
  | OOk =>
    match recover_ids y s aggRecords with
    | None => (y, s, Err ErrBadUuid)
    | Some ids =>
      let '(y, s, errs) := recover_streams y s aggRecords ids in (y, s, Ok errs)
    end
  end.

(** The loop of [TrimStreamHistory]: backend, kept metas, deleted keys, errors. *)
Fixpoint trim_metas (b : B) (trimSeq snapshotSeq : Z) (l : list StreamMeta)
    : B * list StreamMeta * list bytes * list buf_error :=
  match l with
  | [] => (b, [], [], [])
  | sm :: l =>
    if (me_ToSeq sm <=? trimSeq) && (me_ToSeq sm <=? snapshotSeq) && negb (bool_decide (me_Key sm = []))
    then
      let '(b, r) := bk_DeleteObject b [] (me_Key sm) in
      let '(b, remaining, deleted, errs) := trim_metas b trimSeq snapshotSeq l in
      match r with
      | Err e => (b, sm :: remaining, deleted, ErrBackend e :: errs)
      | Ok _ => (b, remaining, me_Key sm :: deleted, errs)
      end
    else
      let '(b, remaining, deleted, errs) := trim_metas b trimSeq snapshotSeq l in
      (b, sm :: remaining, deleted, errs)
  end.

Definition TrimStreamHistory y s (streamID : bytes) (trimSeq snapshotSeq : Z)
    : Sys B * StreamStore * list bytes * list buf_error :=
  if (snapshotSeq =? 0) || (trimSeq =? 0) then (y, s, [], [])
  else
  let trimSeq := if snapshotSeq <? trimSeq then snapshotSeq else trimSeq in
  match getStream s streamID with
  | None => (y, s, [], [])
  | Some sw =>
    let '(b, remaining, deleted, errs) := trim_metas (sy_backend y) trimSeq snapshotSeq (sw_sealed sw) in
    (set_backend y b,
     set_streams s (<[uuid_String streamID := set_sealed sw remaining]> (ss_streams s)), deleted, errs)
  end.

(** [Close]: the first error of flushing the writers. *)
Fixpoint close_streams y s (ws : list bytes) (firstErr : result wal_error ())
    : Sys B * StreamStore * result wal_error () :=
  match ws with
  | [] => (y, s, firstErr)
  | sid :: ws =>
    let '(y, s, r) := on_writer y s sid flush_op (Ok ()) in
    close_streams y s ws (match firstErr, r with Ok _, Err e => Err e | _, _ => firstErr end)
  end.

Definition StreamStore_Close y s (ws : list bytes) : Sys B * StreamStore * result wal_error () :=
  close_streams y s ws (Ok ()).

End store.
