(* ===== verification/WalStreamInv.v ===== *)
(** * WalStreamInv: what the per-stream files of a WAL buffer hold

    The invariant of one stream of WalStream.v: its sealed files are consecutive
    pieces of the stream's log, the open file and the pending records follow
    them, the metas and the objects in storage describe the pieces.  Every
    operation of the writer preserves it on a disk that works, with a backend
    that may fail at any call.  A restart can append records a second time, so
    files are compared by the records a reader accepts: those whose sequence
    number exceeds all before ([newer]). *)

From S2P Require Import Prelude Bytes WalRecord FileSys WalSegment WalStore WalPaths ObjectStore WalStream.

#[local] Open Scope Z_scope.
#[local] Open Scope list_scope.

(** ** The records a reader accepts *)

Fixpoint newer (q : Z) (l : list LogRecord) : list LogRecord :=
  match l with
  | [] => []
  | r :: l => if q <? lr_StreamSeq r then r :: newer (lr_StreamSeq r) l else newer q l
  end.

Definition top (q : Z) (l : list LogRecord) : Z := foldl (fun m r => Z.max m (lr_StreamSeq r)) q l.

Definition after (q : Z) (l : list LogRecord) : list LogRecord :=
  filter (fun r => q < lr_StreamSeq r) l.

Lemma top_cons q r l : top q (r :: l) = top (Z.max q (lr_StreamSeq r)) l.
Proof. done. Qed.

Lemma top_app q l l' : top q (l ++ l') = top (top q l) l'.
Proof. apply foldl_app. Qed.

Lemma top_ge q l : q <= top q l.
Proof.
  revert q. induction l as [|r l IH]; intros q; [done|]. rewrite top_cons.
  specialize (IH (Z.max q (lr_StreamSeq r))). lia.
Qed.

Lemma top_elem q l r : r ∈ l -> lr_StreamSeq r <= top q l.
Proof.
  intros Hr. revert q. induction Hr as [r l|r x l _ IH]; intros q; rewrite top_cons.
  - pose proof (top_ge (Z.max q (lr_StreamSeq r)) l). lia.
  - apply IH.
Qed.

Lemma top_max q q' l : top (Z.max q q') l = Z.max q (top q' l).
Proof.
  revert q'. induction l as [|r l IH]; intros q'; [done|]. rewrite !top_cons.
  by rewrite <-Z.max_assoc, IH.
Qed.

(** Below the first record the start does not matter. *)
Lemma top_below q q' l :
  l <> [] -> Forall (fun r => q <= lr_StreamSeq r) l -> Forall (fun r => q' <= lr_StreamSeq r) l ->
  top q l = top q' l.
Proof.
  destruct l as [|r l]; [done|]. intros _ [H1 _]%Forall_cons [H2 _]%Forall_cons.
  rewrite !top_cons. by rewrite !Z.max_r.
Qed.

Lemma top_le q l b : q <= b -> Forall (fun r => lr_StreamSeq r <= b) l -> top q l <= b.
Proof.
  intros Hq HF. revert q Hq. induction HF as [|r l Hr _ IH]; intros q Hq; [done|].
  rewrite top_cons. apply IH. lia.
Qed.

Lemma newer_app q l l' : newer q (l ++ l') = newer q l ++ newer (top q l) l'.
Proof.
  revert q. induction l as [|r l IH]; intros q; [done|]. cbn [newer app]. rewrite top_cons.
  destruct (q <? lr_StreamSeq r) eqn:E; zify_bool.
  - rewrite Z.max_r by lia. cbn. by rewrite IH.
  - rewrite Z.max_l by lia. apply IH.
Qed.

Lemma newer_above q l : Forall (fun r => q < lr_StreamSeq r) (newer q l).
Proof.
  revert q. induction l as [|r l IH]; intros q; cbn [newer]; [done|].
  destruct (q <? lr_StreamSeq r) eqn:E; zify_bool; [|done].
  constructor; [done|]. eapply Forall_impl; [apply IH|]. cbn. lia.
Qed.

Lemma newer_sorted q l : StronglySorted Z.lt (lr_StreamSeq <$> newer q l).
Proof.
  revert q. induction l as [|r l IH]; intros q; cbn [newer]; [constructor|].
  destruct (q <? lr_StreamSeq r) eqn:E; zify_bool; [|done].
  cbn. constructor; [done|]. apply Forall_fmap. apply newer_above.
Qed.

Lemma newer_elem q l r : r ∈ newer q l -> r ∈ l.
Proof.
  revert q. induction l as [|x l IH]; intros q; cbn [newer]; [done|].
  destruct (q <? _); rewrite ?elem_of_cons; naive_solver.
Qed.

Lemma after_all q l : Forall (fun r => q < lr_StreamSeq r) l -> after q l = l.
Proof. intros HF. apply filter_all. by apply Forall_forall. Qed.

Lemma after_newer q q' l : q <= q' -> after q' (newer q l) = newer q' l.
Proof.
  revert q. induction l as [|r l IH]; intros q Hq; cbn [newer]; [done|].
  destruct (q <? lr_StreamSeq r) eqn:E; zify_bool.
  - unfold after. rewrite filter_cons. destruct (decide _) as [H|H].
    + rewrite (proj2 (Z.ltb_lt _ _) H). f_equal. apply after_all.
      eapply Forall_impl; [apply newer_above|]. cbn. lia.
    + rewrite (proj2 (Z.ltb_ge _ _)) by lia. apply IH. lia.
  - rewrite (proj2 (Z.ltb_ge _ _)) by lia. by apply IH.
Qed.

Lemma newer_none q l : Forall (fun r => lr_StreamSeq r <= q) l -> newer q l = [].
Proof.
  induction 1 as [|r l Hr _ IH]; [done|]. cbn. by rewrite (proj2 (Z.ltb_ge _ _)).
Qed.

Lemma newer_id q l :
  Forall (fun r => q < lr_StreamSeq r) l -> StronglySorted Z.lt (lr_StreamSeq <$> l) -> newer q l = l.
Proof.
  revert q. induction l as [|r l IH]; intros q HF HS; [done|]. cbn [newer].
  apply Forall_cons in HF as [Hr _]. cbn in HS. apply StronglySorted_inv in HS as [HS Hl].
  rewrite (proj2 (Z.ltb_lt _ _) Hr). f_equal. apply IH; [|done]. by rewrite Forall_fmap in Hl.
Qed.

(** Skipping a list that lies below leaves what follows. *)
Lemma newer_skip q l l' : Forall (fun r => lr_StreamSeq r <= q) l -> newer q (l ++ l') = newer q l'.
Proof.
  intros HF. rewrite newer_app, newer_none by done. cbn. f_equal.
  pose proof (top_ge q l). pose proof (top_le q l q ltac:(lia) HF). lia.
Qed.

(** ** Pieces *)

(** A sealed file: the numbers in its name and its records. *)
Record piece : Type := mkPiece {
  pc_from : Z;
  pc_to : Z;
  pc_recs : list LogRecord;
}.

Definition pieces_recs (ps : list piece) : list LogRecord := concat (pc_recs <$> ps).

Definition first_of (l : list LogRecord) : Z :=
  match l with r :: _ => lr_StreamSeq r | [] => 0 end.

Definition piece_ok (q : Z) (p : piece) : Prop :=
  q < pc_from p /\ pc_recs p <> [] /\ first_of (pc_recs p) = pc_from p /\
  Forall (fun r => pc_from p <= lr_StreamSeq r) (pc_recs p) /\ top 0 (pc_recs p) = pc_to p.

Definition end_to (q : Z) (ps : list piece) : Z := foldl (fun _ p => pc_to p) q ps.

Fixpoint chained (q : Z) (ps : list piece) : Prop :=
  match ps with
  | [] => True
  | p :: ps => piece_ok q p /\ chained (pc_to p) ps
  end.

Lemma end_to_cons q p ps : end_to q (p :: ps) = end_to (pc_to p) ps.
Proof. done. Qed.

Lemma end_to_snoc q ps p : end_to q (ps ++ [p]) = pc_to p.
Proof. unfold end_to. by rewrite foldl_snoc. Qed.

Lemma end_to_last q ps : end_to q ps = q \/ exists p, p ∈ ps /\ end_to q ps = pc_to p.
Proof.
  destruct ps as [|p ps _] using rev_ind; [by left|]. right. exists p. rewrite end_to_snoc.
  split; [|done]. apply elem_of_app. right. left.
Qed.

Lemma chained_snoc q ps p : chained q (ps ++ [p]) <-> chained q ps /\ piece_ok (end_to q ps) p.
Proof.
  revert q. induction ps as [|p0 ps IH]; intros q; cbn [chained app]; [cbn; tauto|].
  rewrite IH. cbn. tauto.
Qed.

Lemma piece_ok_le q p : piece_ok q p -> pc_from p <= pc_to p.
Proof.
  intros (_ & Hne & Hf & _ & Ht). destruct (pc_recs p) as [|r l]; [done|]. cbn in Hf. subst.
  rewrite <-Hf, <-Ht. apply top_elem. left.
Qed.

Lemma piece_ok_range q p r :
  piece_ok q p -> r ∈ pc_recs p -> pc_from p <= lr_StreamSeq r <= pc_to p.
Proof.
  intros (_ & _ & _ & HF & Ht) Hr. rewrite Forall_forall in HF. split; [by apply HF|].
  rewrite <-Ht. by apply top_elem.
Qed.

Lemma end_to_ge q ps : chained q ps -> q <= end_to q ps.
Proof.
  revert q. induction ps as [|p ps IH]; intros q; [cbn; lia|]. intros [Hp Hc].
  rewrite end_to_cons. apply IH in Hc. pose proof (piece_ok_le _ _ Hp). destruct Hp as [? _]. lia.
Qed.

Lemma chained_elem q ps p :
  chained q ps -> p ∈ ps -> piece_ok q p /\ pc_to p <= end_to q ps.
Proof.
  revert q. induction ps as [|p0 ps IH]; intros q; [intros _ Hp; by apply not_elem_of_nil in Hp|].
  intros [Hp0 Hc] [->|Hp]%elem_of_cons; rewrite end_to_cons.
  - split; [done|]. by apply end_to_ge.
  - destruct (IH _ Hc Hp) as [(H1 & H2 & H3 & H4 & H5) H6]. split; [|done].
    pose proof (piece_ok_le _ _ Hp0). destruct Hp0 as [? _]. by split_and!; [lia|..].
Qed.

Lemma pieces_recs_elem ps r : r ∈ pieces_recs ps <-> exists p, p ∈ ps /\ r ∈ pc_recs p.
Proof.
  unfold pieces_recs. rewrite list_elem_of_In, in_concat.
  setoid_rewrite <-list_elem_of_In. setoid_rewrite list_elem_of_fmap. naive_solver.
Qed.

Lemma pieces_recs_snoc ps p : pieces_recs (ps ++ [p]) = pieces_recs ps ++ pc_recs p.
Proof. unfold pieces_recs. rewrite fmap_app, concat_app. cbn. by rewrite app_nil_r. Qed.

Lemma chained_recs_le q ps r : chained q ps -> r ∈ pieces_recs ps -> lr_StreamSeq r <= end_to q ps.
Proof.
  intros Hc Hr. apply pieces_recs_elem in Hr as (p & Hp & Hr).
  destruct (chained_elem _ _ _ Hc Hp) as [Hok Hle].
  pose proof (piece_ok_range _ _ _ Hok Hr). lia.
Qed.

(** Pieces are told apart by the number they start at. *)
Lemma chained_from_sorted q ps : chained q ps -> StronglySorted Z.lt (pc_from <$> ps).
Proof.
  revert q. induction ps as [|p ps IH]; intros q; cbn; [constructor|]. intros [Hp Hc].
  constructor; [by eapply IH|]. apply Forall_fmap, Forall_forall. intros p' Hp'. cbn.
  destruct (chained_elem _ _ _ Hc Hp') as [[? _] _]. pose proof (piece_ok_le _ _ Hp). lia.
Qed.

Lemma chained_from_inj q ps p p' :
  chained q ps -> p ∈ ps -> p' ∈ ps -> pc_from p = pc_from p' -> p = p'.
Proof.
  revert q. induction ps as [|p0 ps IH]; intros q; [intros _ Hp; by apply not_elem_of_nil in Hp|].
  cbn. intros [Hp0 Hc] [->|Hp]%elem_of_cons [->|Hp']%elem_of_cons HE; [done|..|by eapply IH].
  - destruct (chained_elem _ _ _ Hc Hp') as [[? _] _]. pose proof (piece_ok_le _ _ Hp0). lia.
  - destruct (chained_elem _ _ _ Hc Hp) as [[? _] _]. pose proof (piece_ok_le _ _ Hp0). lia.
Qed.

Lemma chained_disjoint q ps p p' :
  chained q ps -> p ∈ ps -> p' ∈ ps -> p = p' \/ pc_to p < pc_from p' \/ pc_to p' < pc_from p.
Proof.
  revert q. induction ps as [|p0 ps IH]; intros q; [intros _ Hp; by apply not_elem_of_nil in Hp|].
  cbn. intros [Hp0 Hc] [->|Hp]%elem_of_cons [->|Hp']%elem_of_cons; [by left|..|by eapply IH].
  - destruct (chained_elem _ _ _ Hc Hp') as [[? _] _]. right. left. lia.
  - destruct (chained_elem _ _ _ Hc Hp) as [[? _] _]. right. right. lia.
Qed.

(** ** The invariant of a stream *)

Section inv.
Context `{UU : !UuidLib} `{UL : !UuidLaw}.

Definition stream_rec (id : bytes) (r : LogRecord) : Prop :=
  log_ok r /\ lr_StreamID r = id /\ 0 < lr_StreamSeq r.

Definition sealed_name (p : piece) : bytes := FormatStreamFileName (pc_from p) (pc_to p) true.
Definition piece_bytes (p : piece) : bytes := segment_bytes (pc_recs p).
Definition object_key (id : bytes) (p : piece) : bytes :=
  FormatStreamObjectKey (uuid_String id) (pc_from p) (pc_to p).
Definition stream_prefix (id : bytes) : bytes := go "streams/" ++ uuid_String id ++ go "/".

(** A file whose content is on stable storage. *)
Definition durable_file (data : bytes) : Entry := EFile (mkFile data (length data)).

Definition stream_meta (id : bytes) (m : StreamMeta) (p : piece) : Prop :=
  me_FromSeq m = pc_from p /\ me_ToSeq m = pc_to p /\ me_Path m = sealed_name p /\
  (me_Key m = [] \/ me_Key m = object_key id p).

(** The name of the open file: after its first record, or the one to come. *)
Definition name_of (l : list LogRecord) : bytes := FormatStreamFileName (first_of l) 0 false.

(** The open file holds [op].  A crash may have left a file without records
    under the name of the first pending one. *)
Definition open_ok (d : gmap bytes Entry) (sw : streamWriter) (op : list LogRecord) : Prop :=
  match op with
  | [] =>
    sw_recCount sw = 0 /\
    forall e, d !! name_of (sw_pending sw) = Some e ->
      exists f, e = EFile f /\ (f_data f = [] \/ f_data f = default_header_bytes) /\
        (f_synced f <= length (f_data f))%nat
  | r :: _ =>
    sw_recCount sw = Z.of_nat (length op) /\ sw_openFrom sw = lr_StreamSeq r /\
    top (sw_lastSeq sw) (sw_pending sw) = top 0 (op ++ sw_pending sw) /\
    exists f, d !! open_name sw = Some (EFile f) /\ f_data f = segment_bytes op /\
      (f_synced f <= length (f_data f))%nat
  end.

(** Stream [id] with directory [d], objects [objs] and writer [sw]: sealed
    pieces [ps], records [op] in the open file, then the pending ones. *)
Record stream_inv (id : bytes) (d : gmap bytes Entry) (objs : gmap bytes bytes)
    (sw : streamWriter) (ps : list piece) (op : list LogRecord) : Prop := {
  v_id : sw_streamID sw = id;
  v_live : sw_evicted sw = false;
  v_chain : chained 0 ps;
  v_recs : Forall (stream_rec id) (pieces_recs ps ++ op ++ sw_pending sw);
  v_rest : Forall (fun r => end_to 0 ps < lr_StreamSeq r) (op ++ sw_pending sw);
  v_first : Forall (fun r => first_of (op ++ sw_pending sw) <= lr_StreamSeq r) (op ++ sw_pending sw);
  v_files : Forall (fun p => d !! sealed_name p = Some (durable_file (piece_bytes p))) ps;
  v_open : open_ok d sw op;
  v_names n e k t b :
    d !! n = Some e -> ParseStreamPath n = Ok (k, t, b) ->
    if b then exists p, p ∈ ps /\ n = sealed_name p
    else op ++ sw_pending sw <> [] /\ n = name_of (op ++ sw_pending sw);
  v_last : 0 <= sw_lastSeq sw /\ (op = [] -> sw_lastSeq sw <= end_to 0 ps);
  v_metas : Forall (fun m => exists p, p ∈ ps /\ stream_meta id m p) (sw_sealed sw);
  v_nodup : NoDup (me_FromSeq <$> sw_sealed sw);
  v_known : sw_discovered sw = true -> me_FromSeq <$> sw_sealed sw = pc_from <$> ps;
  v_objs k o f t :
    objs !! k = Some o -> has_prefix (stream_prefix id) k = true ->
    ParseStreamPath k = Ok (f, t, true) ->
    exists p, p ∈ ps /\ k = object_key id p /\ o = piece_bytes p;
  v_keys : Forall (fun m => me_Key m = [] \/ is_Some (objs !! me_Key m)) (sw_sealed sw);
  v_up : sw_uploadedTo sw <= end_to 0 ps;
  v_from : is_u64 (sw_openFrom sw);
}.

(** *** Names *)

Lemma stream_rec_seq id r : stream_rec id r -> is_u64 (lr_StreamSeq r).
Proof. intros (((_ & _ & ? & _) & _) & _). done. Qed.

Lemma top_u64 id l : Forall (stream_rec id) l -> is_u64 (top 0 l).
Proof.
  intros HF. split; [apply top_ge|].
  assert (top 0 l <= u64_max); [|unfold u64_max in *; lia].
  apply top_le; [done|]. eapply Forall_impl; [done|]. intros r Hr%stream_rec_seq.
  unfold is_u64, u64_max in *. lia.
Qed.

Lemma first_u64 id l : Forall (stream_rec id) l -> is_u64 (first_of l).
Proof. destruct 1 as [|r l Hr _]; [done|]. by eapply stream_rec_seq. Qed.

Lemma name_of_app l l' : l <> [] -> name_of (l ++ l') = name_of l.
Proof. by destruct l. Qed.

Lemma piece_u64 id q p :
  piece_ok q p -> Forall (stream_rec id) (pc_recs p) -> is_u64 (pc_from p) /\ is_u64 (pc_to p).
Proof.
  intros (_ & Hne & Hf & _ & Ht) HF. split; [|rewrite <-Ht; by eapply top_u64].
  rewrite <-Hf. destruct (pc_recs p) as [|r l]; [done|]. cbn.
  apply Forall_cons in HF as [Hr _]. by eapply stream_rec_seq.
Qed.

Lemma pieces_u64 id ps p :
  chained 0 ps -> Forall (stream_rec id) (pieces_recs ps) -> p ∈ ps ->
  is_u64 (pc_from p) /\ is_u64 (pc_to p).
Proof.
  intros Hc HF Hp. eapply piece_u64; [by apply (chained_elem _ _ _ Hc)|].
  apply Forall_forall. intros r Hr. rewrite Forall_forall in HF. apply HF, pieces_recs_elem. eauto.
Qed.

Lemma parse_sealed p :
  is_u64 (pc_from p) /\ is_u64 (pc_to p) ->
  ParseStreamPath (sealed_name p) = Ok (pc_from p, pc_to p, true).
Proof. intros [? ?]. by apply (ParseStreamPath_name _ _ true). Qed.

Lemma parse_open k : is_u64 k -> ParseStreamPath (FormatStreamFileName k 0 false) = Ok (k, 0, false).
Proof. intros ?. by apply (ParseStreamPath_name k 0 false). Qed.

Lemma uuid_not_wal id : wf_uuid id -> uuid_String id <> go "wal".
Proof. intros H E. apply uuid_string_length in H. rewrite E in H. done. Qed.

Lemma parse_key id p :
  wf_uuid id -> is_u64 (pc_from p) /\ is_u64 (pc_to p) ->
  ParseStreamPath (object_key id p) = Ok (pc_from p, pc_to p, true).
Proof.
  intros Hid [? ?]. apply (stream_path_parse (uuid_String id) _ _ true); try done.
  - by apply uuid_string_chars.
  - by apply uuid_not_wal.
Qed.

Lemma object_key_prefix id p : has_prefix (stream_prefix id) (object_key id p) = true.
Proof.
  apply has_prefix_spec. exists (sealed_name p). unfold stream_prefix, object_key.
  unfold FormatStreamObjectKey, sealed_name, FormatStreamFileName.
  rewrite <- !app_assoc. change (go "/from") with (go "/" ++ go "from"). by rewrite <- !app_assoc.
Qed.

Lemma stream_prefix_other id id' k :
  wf_uuid id -> wf_uuid id' -> has_prefix (stream_prefix id) k = true ->
  has_prefix (stream_prefix id') k = true -> id = id'.
Proof.
  intros Hid Hid' [t Ht]%has_prefix_spec [t' Ht']%has_prefix_spec.
  assert (HS : uuid_String id = uuid_String id').
  { rewrite Ht in Ht'. unfold stream_prefix in Ht'. rewrite <- !app_assoc in Ht'.
    apply app_inv_head in Ht'. eapply app_slash_inj; [by apply uuid_string_chars..|exact Ht']. }
  apply (f_equal uuid_Parse) in HS. rewrite !uuid_parse_string in HS by done. congruence.
Qed.

Lemma segments_prefix_other id k :
  wf_uuid id -> has_prefix (stream_prefix id) k = true -> has_prefix SegmentsPrefix k = false.
Proof.
  intros Hid [t Ht]%has_prefix_spec. apply not_true_iff_false. intros [t' Ht']%has_prefix_spec.
  apply (uuid_not_wal id Hid). rewrite Ht in Ht'. unfold stream_prefix, SegmentsPrefix in Ht'.
  change (go "streams/wal/segments/") with (go "streams/" ++ go "wal" ++ go "/" ++ go "segments/") in Ht'.
  rewrite <- !app_assoc in Ht'. apply app_inv_head in Ht'.
  eapply app_slash_inj; [by apply uuid_string_chars| |exact Ht']. repeat constructor; done.
Qed.

Lemma object_key_nonempty id p : object_key id p <> [].
Proof. done. Qed.

Lemma sealed_name_nonempty p : sealed_name p <> [].
Proof. done. Qed.

(** *** Frames *)

Lemma stream_inv_frame id d d' objs objs' sw ps op :
  stream_inv id d objs sw ps op ->
  (forall n k t b, ParseStreamPath n = Ok (k, t, b) -> d' !! n = d !! n) ->
  (forall k, has_prefix (stream_prefix id) k = true -> objs' !! k = objs !! k) ->
  stream_inv id d' objs' sw ps op.
Proof.
  intros HI Hd Ho. destruct HI.
  assert (HU : forall p, p ∈ ps -> is_u64 (pc_from p) /\ is_u64 (pc_to p)).
  { intros p Hp. eapply pieces_u64; [done| |done]. by apply Forall_app in v_recs0 as [? _]. }
  split; try done.
  - rewrite Forall_forall in v_files0 |- *. intros p Hp. erewrite Hd; [by apply v_files0|].
    apply parse_sealed; auto.
  - rewrite !Forall_app in v_recs0. destruct v_recs0 as (_ & Hop & Hpe).
    unfold open_ok in *. destruct op as [|r op].
    + destruct v_open0 as [? HB]. split; [done|]. intros e. erewrite Hd; [apply HB|].
      apply parse_open. by eapply first_u64.
    + destruct v_open0 as (? & HF & ? & f & Hf & Hrest). split_and!; try done. exists f.
      split; [|done]. erewrite Hd; [done|]. unfold open_name. rewrite HF. apply parse_open.
      apply Forall_cons in Hop as [Hr _]. by eapply stream_rec_seq.
  - intros n e k t b Hn HP. erewrite Hd in Hn by done. by eapply v_names0.
  - intros k o f t Hk Hp. rewrite Ho in Hk by done. by eapply v_objs0.
  - rewrite Forall_forall in v_keys0, v_metas0 |- *. intros m Hm.
    destruct (v_metas0 _ Hm) as (p & Hp & (_ & _ & _ & [HK|HK])); [by left|].
    destruct (v_keys0 _ Hm) as [?|HS]; [by left|]. right.
    by rewrite Ho by (rewrite HK; apply object_key_prefix).
Qed.

(** ** Flushing *)

(** What a flush leaves alone. *)
Definition same_log (sw sw' : streamWriter) : Prop :=
  sw_streamID sw' = sw_streamID sw /\ sw_evicted sw' = sw_evicted sw /\
  sw_sealed sw' = sw_sealed sw /\ sw_uploadedTo sw' = sw_uploadedTo sw /\
  sw_discovered sw' = sw_discovered sw.

Lemma note_record_fields sw r :
  same_log sw (note_record sw r) /\ sw_openFrom (note_record sw r) = sw_openFrom sw /\
  sw_lastSeq (note_record sw r) = Z.max (sw_lastSeq sw) (lr_StreamSeq r) /\
  sw_recCount (note_record sw r) = sw_recCount sw + 1.
Proof.
  unfold note_record, same_log.
  destruct (sw_lastSeq sw <? lr_StreamSeq r) eqn:E; zify_bool; cbn;
    (destruct (_ || _); cbn; destruct (_ <? lr_Position r); cbn; split_and!; try done; lia).
Qed.

Lemma note_records_fields l : forall sw,
  let sw' := foldl note_record sw l in
  same_log sw sw' /\ sw_openFrom sw' = sw_openFrom sw /\
  sw_lastSeq sw' = top (sw_lastSeq sw) l /\
  sw_recCount sw' = sw_recCount sw + Z.of_nat (length l).
Proof.
  induction l as [|r l IH]; intros sw; cbv zeta; cbn [foldl length].
  - split_and!; try done. lia.
  - destruct (note_record_fields sw r) as (HS & Ho & Hl & Hc).
    destruct (IH (note_record sw r)) as (HS' & Ho' & Hl' & Hc').
    rewrite top_cons, <-Hl. split_and!; try congruence; [|lia].
    unfold same_log in *. intuition congruence.
Qed.

Lemma begin_file_fields now p0 sw :
  let sw' := begin_file now p0 sw in
  same_log sw sw' /\ sw_lastSeq sw' = sw_lastSeq sw /\ sw_recCount sw' = sw_recCount sw /\
  sw_pending sw' = sw_pending sw /\
  sw_openFrom sw' = (if (sw_recCount sw =? 0) || (sw_openFrom sw =? 0)
                     then lr_StreamSeq p0 else sw_openFrom sw).
Proof.
  cbv zeta. unfold begin_file, same_log.
  destruct (sw_recCount sw =? 0), (sw_openFrom sw =? 0); cbn; destruct (sw_openTime sw); done.
Qed.

(** The write of a flush on a disk that works: the open file gains the pending
    records, and a header when it was empty or missing. *)
Lemma flush_writes w sw p0 rest n old :
  no_faults w -> sw_pending sw = p0 :: rest ->
  open_name (begin_file (w_now w) p0 sw) = n ->
  (w_dir w !! n = None /\ old = mkFile [] 0 \/ w_dir w !! n = Some (EFile old)) ->
  exists sw', flushPendingLocked w sw =
    (set_dir w (<[n := EFile (mkFile
       (f_data old ++ (if bool_decide (f_data old = []) then default_header_bytes else []) ++
        encode_all (sw_pending sw)) (f_synced old))]> (w_dir w)), sw', Ok ()) /\
    same_log sw sw' /\ sw_openFrom sw' = sw_openFrom (begin_file (w_now w) p0 sw) /\
    sw_lastSeq sw' = top (sw_lastSeq sw) (sw_pending sw) /\
    sw_recCount sw' = sw_recCount sw + Z.of_nat (length (sw_pending sw)) /\ sw_pending sw' = [].
Proof.
  intros Hw Hp Hn Hd. unfold flushPendingLocked. rewrite Hp, sys_plain_ok by done.
  destruct (begin_file_fields (w_now w) p0 sw) as (HS & Hl & Hc & Hpe & Ho).
  set (sw1 := begin_file (w_now w) p0 sw) in *. cbv zeta. rewrite Hn.
  destruct (note_records_fields (sw_pending sw1) sw1) as (HS' & Ho' & Hl' & Hc').
  set (sw2 := foldl note_record sw1 (sw_pending sw1)) in *.
  rewrite Hl, Hpe in Hl'. rewrite Hc, Hpe in Hc'. rewrite Hpe, Hp in *.
  assert (HF : forall hdr f, w_dir w !! n = None /\ f = mkFile [] 0 \/ w_dir w !! n = Some (EFile f) ->
    hdr = (if bool_decide (f_data f = []) then default_header_bytes else []) ->
    exists w1, os_OpenAppend w n = (w1, Ok ()) /\ no_faults w1 /\
      f_Write w1 n (hdr ++ concat (LogRecord_Encode <$> p0 :: rest)) =
      (set_dir w (<[n := EFile (mkFile (f_data f ++ hdr ++ encode_all (p0 :: rest)) (f_synced f))]> (w_dir w)), Ok ())).
  { intros hdr f [[HN ->]|HN] _.
    - eexists. rewrite os_OpenAppend_new by done. split_and!; [done|by apply no_faults_set_dir|].
      rewrite (f_Write_ok _ _ (mkFile [] 0)); [|by apply no_faults_set_dir|by apply lookup_insert_eq].
      unfold set_dir. cbn. by rewrite insert_insert_eq.
    - exists w. rewrite (os_OpenAppend_file _ _ f) by done. split_and!; [done..|].
      by rewrite (f_Write_ok _ _ f). }
  assert (HH : exists st, os_Stat w n = (w, st) /\
    match st with Ok z => if z =? 0 then SegmentHeader_Encode DefaultSegmentHeader else []
    | Err _ => SegmentHeader_Encode DefaultSegmentHeader end
    = if bool_decide (f_data old = []) then default_header_bytes else []).
  { destruct Hd as [[HN ->]|HN].
    - exists (Err ErrNotExist). by rewrite os_Stat_none.
    - eexists. rewrite (os_Stat_file _ _ old) by done. split; [done|]. by destruct (f_data old). }
  destruct HH as (st & -> & HH). rewrite HH.
  destruct (HF _ old Hd eq_refl) as (w1 & -> & Hw1 & ->).
  rewrite f_Close_ok by (by apply no_faults_set_dir).
  eexists. split; [done|]. cbn. split_and!; try done; try congruence.
  unfold same_log in *. cbn. intuition congruence.
Qed.

Lemma same_log_inv id d d' objs sw sw' ps op op' :
  stream_inv id d objs sw ps op -> same_log sw sw' ->
  op' ++ sw_pending sw' = op ++ sw_pending sw ->
  Forall (fun p => d' !! sealed_name p = d !! sealed_name p) ps ->
  open_ok d' sw' op' ->
  (forall n e k t b, d' !! n = Some e -> ParseStreamPath n = Ok (k, t, b) ->
    if b then exists p, p ∈ ps /\ n = sealed_name p
    else op ++ sw_pending sw <> [] /\ n = name_of (op ++ sw_pending sw)) ->
  0 <= sw_lastSeq sw' -> (op' = [] -> sw_lastSeq sw' <= end_to 0 ps) -> is_u64 (sw_openFrom sw') ->
  stream_inv id d' objs sw' ps op'.
Proof.
  intros [] (Hi & He & Hse & Hu & Hdi) HL HF HO HN H0 HLs HV.
  split; rewrite ?HL, ?Hse, ?Hu, ?Hdi, ?Hi, ?He; try done.
  rewrite Forall_forall in HF, v_files0 |- *. intros p Hp. rewrite HF by done. auto.
Qed.

Lemma open_name_u64 id d objs sw ps r op :
  stream_inv id d objs sw ps (r :: op) -> sw_openFrom sw = lr_StreamSeq r /\ is_u64 (lr_StreamSeq r) /\ 0 < lr_StreamSeq r.
Proof.
  intros []. destruct v_open0 as (_ & HO & _). split; [done|].
  rewrite !Forall_app in v_recs0. destruct v_recs0 as (_ & [Hr _]%Forall_cons & _).
  split; [by eapply stream_rec_seq|]. by destruct Hr as (_ & _ & ?).
Qed.

Lemma inv_u64 id d objs sw ps op p :
  stream_inv id d objs sw ps op -> p ∈ ps -> is_u64 (pc_from p) /\ is_u64 (pc_to p).
Proof.
  intros [] Hp. eapply pieces_u64; [done| |done]. by apply Forall_app in v_recs0 as [? _].
Qed.

(** Writing the open file does not touch the sealed ones. *)
Lemma open_name_sealed id d objs sw ps op p k :
  stream_inv id d objs sw ps op -> p ∈ ps -> is_u64 k -> FormatStreamFileName k 0 false <> sealed_name p.
Proof.
  intros HI Hp Hk HE. pose proof (parse_open k Hk) as H1. rewrite HE, parse_sealed in H1; [done|].
  by eapply inv_u64.
Qed.

(** The file a flush writes to, before and after. *)
Definition flush_target (w : World) (sw : streamWriter) (op : list LogRecord) (n : bytes) (old : File) : Prop :=
  (w_dir w !! n = None /\ old = mkFile [] 0 \/ w_dir w !! n = Some (EFile old)) /\
  f_data old ++ (if bool_decide (f_data old = []) then default_header_bytes else []) ++
    encode_all (sw_pending sw) = segment_bytes (op ++ sw_pending sw) /\
  (f_synced old <= length (f_data old))%nat.

Lemma flush_target_ok id w objs sw ps op p0 rest :
  stream_inv id (w_dir w) objs sw ps op -> sw_pending sw = p0 :: rest ->
  let sw1 := begin_file (w_now w) p0 sw in
  (exists old, flush_target w sw op (open_name sw1) old) /\
  sw_openFrom sw1 = first_of (op ++ sw_pending sw) /\ is_u64 (first_of (op ++ sw_pending sw)).
Proof.
  intros HI Hp. cbv zeta.
  destruct (begin_file_fields (w_now w) p0 sw) as (_ & _ & _ & _ & Hof).
  assert (is_u64 (lr_StreamSeq p0)) as HU0.
  { destruct HI. rewrite !Forall_app, Hp in v_recs0. destruct v_recs0 as (_ & _ & [Hr _]%Forall_cons).
    by eapply stream_rec_seq. }
  destruct op as [|r op].
  - pose proof (v_open _ _ _ _ _ _ HI) as [HE HB]. rewrite HE in Hof. cbn in Hof.
    unfold name_of in HB. rewrite Hp in HB. cbn [first_of] in HB.
    rewrite Hof, Hp. split_and!; [|done..]. unfold open_name. rewrite Hof.
    destruct (w_dir w !! _) as [e|] eqn:En.
    + destruct (HB e eq_refl) as (f & -> & Hf & Hs). exists f. split_and!; [by right| |done].
      rewrite Hp. by destruct Hf as [-> | ->].
    + exists (mkFile [] 0). split_and!; [by left|by rewrite Hp|cbn; lia].
  - destruct (open_name_u64 _ _ _ _ _ _ _ HI) as (HO & HU & H0).
    pose proof (v_open _ _ _ _ _ _ HI) as (Hrc & _ & _ & f & Hf & Hd & Hs).
    assert (sw_openFrom (begin_file (w_now w) p0 sw) = sw_openFrom sw) as HE.
    { rewrite Hof, Hrc, HO. replace (_ =? 0) with false by (symmetry; apply Z.eqb_neq; cbn; lia).
      by replace (_ =? 0) with false by (symmetry; apply Z.eqb_neq; lia). }
    rewrite HE. split_and!; [|done..]. exists f. unfold open_name. rewrite HE.
    split_and!; [by right| |done]. rewrite Hd, bool_decide_eq_false_2 by done.
    unfold segment_bytes. by rewrite encode_all_app, <-app_assoc.
Qed.

Lemma flush_open_ok w sw sw' op ps old :
  (op = [] -> sw_lastSeq sw <= end_to 0 ps) -> 0 <= end_to 0 ps ->
  Forall (fun r => end_to 0 ps < lr_StreamSeq r) (op ++ sw_pending sw) ->
  open_ok (w_dir w) sw op -> sw_pending sw <> [] -> sw_pending sw' = [] ->
  sw_openFrom sw' = first_of (op ++ sw_pending sw) ->
  sw_lastSeq sw' = top (sw_lastSeq sw) (sw_pending sw) ->
  sw_recCount sw' = sw_recCount sw + Z.of_nat (length (sw_pending sw)) ->
  flush_target w sw op (open_name sw') old ->
  open_ok (<[open_name sw' := EFile (mkFile (segment_bytes (op ++ sw_pending sw)) (f_synced old))]> (w_dir w))
    sw' (op ++ sw_pending sw).
Proof.
  intros HL He HR HO Hp Hp' Hof Hl Hc (_ & Hdata & Hsy).
  assert (sw_recCount sw = Z.of_nat (length op)) as Hrc by (destruct op; by destruct HO as [-> _]).
  assert (top (sw_lastSeq sw) (sw_pending sw) = top 0 (op ++ sw_pending sw)) as Htop.
  { destruct op as [|r op]; [|by destruct HO as (_ & _ & -> & _)]. cbn [app] in *.
    apply top_below; [done|..]; (eapply Forall_impl; [exact HR|]); cbn; intros x Hx; [|lia].
    specialize (HL eq_refl). lia. }
  unfold open_ok.
  destruct (op ++ sw_pending sw) as [|r0 l0] eqn:Eop; [by apply app_eq_nil in Eop as [_ ?]|].
  rewrite <-Eop, Hp', Hc, Hl, Hof, Hrc, app_nil_r, length_app, Eop in *. split_and!; [lia|done|done|].
  eexists. rewrite lookup_insert_eq. split; [done|]. cbn [f_data f_synced]. split; [done|].
  rewrite <-Hdata, length_app. lia.
Qed.

(** The open files of [d] are in [d'] with more data, or their records are below
    [e]; sealed files stay. *)
Definition grows (d d' : gmap bytes Entry) (e : Z) : Prop :=
  (forall n f k t, d !! n = Some (EFile f) -> ParseStreamPath n = Ok (k, t, false) ->
   (exists f', d' !! n = Some (EFile f') /\ f_data f `prefix_of` f_data f') \/ k <= e) /\
  (forall n x k t, d !! n = Some x -> ParseStreamPath n = Ok (k, t, true) -> d' !! n = Some x).

Lemma grows_refl d e : grows d d e.
Proof. split; [|done]. intros n f k t Hn _. left. by exists f. Qed.

Lemma grows_trans d1 d2 d3 e e' : grows d1 d2 e -> grows d2 d3 e' -> e <= e' -> grows d1 d3 e'.
Proof.
  intros [H1 S1] [H2 S2] He. split; [|intros; eapply S2; [by eapply S1|done]].
  intros n f k t Hn HP. destruct (H1 n f k t Hn HP) as [(f1 & Hn1 & Hf1)|]; [|right; lia].
  destruct (H2 n f1 k t Hn1 HP) as [(f2 & Hn2 & Hf2)|]; [left|by right]. exists f2. split; [done|]. by etrans.
Qed.

Lemma flush_inv id w objs sw ps op :
  no_faults w -> stream_inv id (w_dir w) objs sw ps op ->
  exists w' sw', flushPendingLocked w sw = (w', sw', Ok ()) /\ no_faults w' /\
    w_now w' = w_now w /\ same_log sw sw' /\ sw_pending sw' = [] /\
    stream_inv id (w_dir w') objs sw' ps (op ++ sw_pending sw) /\ forall e, grows (w_dir w) (w_dir w') e.
Proof.
  intros Hw HI. destruct (sw_pending sw) as [|p0 rest] eqn:Hp.
  { exists w, sw. unfold flushPendingLocked. rewrite Hp, app_nil_r. split_and!; try done. intros e. apply grows_refl. }
  destruct (flush_target_ok id w objs sw ps op p0 rest HI Hp) as ((old & HT) & Hof & HU).
  pose proof HT as (Hold & Hdata & Hsy).
  destruct (flush_writes w sw p0 rest _ old Hw Hp eq_refl Hold) as (sw' & HFl & HS & HO' & HL' & HC' & HP').
  rewrite Hdata in HFl. eexists _, sw'. split_and!; [exact HFl|by apply no_faults_set_dir|done..| |].
  2: { intros e. cbn [w_dir set_dir]. split.
    2: { intros n x k t Hn HP. rewrite lookup_insert_ne; [done|]. intros <-. unfold open_name in HP.
      rewrite Hof, parse_open in HP by done. done. }
    intros n f k t Hn _. left.
    destruct (decide (n = open_name (begin_file (w_now w) p0 sw))) as [->|Hne]; [|rewrite lookup_insert_ne by done; by exists f].
    rewrite lookup_insert_eq. eexists. split; [done|]. destruct Hold as [[HN _]|HN]; [congruence|].
    rewrite HN in Hn. injection Hn as ->. rewrite <-Hdata. by eexists. }
  assert (open_name (begin_file (w_now w) p0 sw) = open_name sw') as Hn by (unfold open_name; by rewrite HO').
  rewrite Hn in *. rewrite Hof in HO'. rewrite <-Hp. cbn [w_dir set_dir]. eapply same_log_inv; try done.
  - rewrite HP'. by rewrite app_nil_r.
  - apply Forall_forall. intros p Hpp. rewrite lookup_insert_ne; [done|].
    unfold open_name. rewrite HO'. by eapply open_name_sealed.
  - destruct HI. eapply flush_open_ok; try done; [by apply v_last0|by apply end_to_ge|by rewrite Hp].
  - intros n' e k t b Hl HPa. assert (HNe : op ++ sw_pending sw <> []) by (rewrite Hp; by destruct op).
    destruct (decide (n' = open_name sw')) as [->|Hne].
    + unfold open_name in HPa |- *. rewrite HO', parse_open in HPa by done. injection HPa as <- <- <-.
      split; [done|]. by rewrite HO'.
    + rewrite lookup_insert_ne in Hl by done. exact (v_names _ _ _ _ _ _ HI n' e k t b Hl HPa).
  - rewrite HL'. destruct HI as []. pose proof (top_ge (sw_lastSeq sw) (sw_pending sw)). lia.
  - intros [_ E]%app_eq_nil. congruence.
  - by rewrite HO'.
Qed.

(** ** Metas, uploads and discovery *)

(** What an upload or a discovery leaves alone. *)
Definition same_files (sw sw' : streamWriter) : Prop :=
  sw_streamID sw' = sw_streamID sw /\ sw_evicted sw' = sw_evicted sw /\
  sw_pending sw' = sw_pending sw /\ sw_openFrom sw' = sw_openFrom sw /\
  sw_recCount sw' = sw_recCount sw.

Lemma same_files_refl sw : same_files sw sw.
Proof. done. Qed.

Lemma same_files_trans sw1 sw2 sw3 : same_files sw1 sw2 -> same_files sw2 sw3 -> same_files sw1 sw3.
Proof. unfold same_files. intuition congruence. Qed.

(** The part of the invariant that an upload or a discovery can change. *)
Record metas_inv (id : bytes) (objs : gmap bytes bytes) (sw : streamWriter) (ps : list piece) : Prop := {
  mi_metas : Forall (fun m => exists p, p ∈ ps /\ stream_meta id m p) (sw_sealed sw);
  mi_nodup : NoDup (me_FromSeq <$> sw_sealed sw);
  mi_known : sw_discovered sw = true -> me_FromSeq <$> sw_sealed sw = pc_from <$> ps;
  mi_objs k o f t :
    objs !! k = Some o -> has_prefix (stream_prefix id) k = true ->
    ParseStreamPath k = Ok (f, t, true) ->
    exists p, p ∈ ps /\ k = object_key id p /\ o = piece_bytes p;
  mi_keys : Forall (fun m => me_Key m = [] \/ is_Some (objs !! me_Key m)) (sw_sealed sw);
  mi_up : sw_uploadedTo sw <= end_to 0 ps;
}.

Lemma stream_metas_inv id d objs sw ps op : stream_inv id d objs sw ps op -> metas_inv id objs sw ps.
Proof. intros []. by split. Qed.

Lemma metas_change id d objs objs' sw sw' ps op :
  stream_inv id d objs sw ps op -> same_files sw sw' -> metas_inv id objs' sw' ps ->
  sw_lastSeq sw <= sw_lastSeq sw' ->
  sw_lastSeq sw' = sw_lastSeq sw \/ sw_lastSeq sw' <= end_to 0 ps ->
  stream_inv id d objs' sw' ps op.
Proof.
  intros [] (Hi & He & Hp & Ho & Hc) [] Hle HL.
  assert (HN : open_name sw' = open_name sw) by (unfold open_name; by rewrite Ho).
  split; rewrite ?Hi, ?He, ?Hp, ?HN, ?Ho; try done.
  - unfold open_ok in *. rewrite Hp, Hc, Ho, HN. destruct op as [|r op]; [done|].
    destruct v_open0 as (? & ? & HT & ?). split_and!; try done.
    destruct HL as [->|HL]; [done|].
    apply Forall_app in v_rest0 as [[Hr _]%Forall_cons _].
    pose proof (top_elem 0 ((r :: op) ++ sw_pending sw) r ltac:(left)).
    rewrite <-(Z.max_l _ _ Hle), top_max, HT. lia.
  - destruct v_last0 as [H0 H1]. split; [lia|]. intros Hop. specialize (H1 Hop). lia.
Qed.

Lemma update_match_some from to f l l' :
  update_match from to f l = Some l' ->
  exists l1 m l2, l = l1 ++ m :: l2 /\ l' = l1 ++ f m :: l2 /\ me_FromSeq m = from /\ me_ToSeq m = to.
Proof.
  revert l'. induction l as [|m l IH]; intros l'; cbn; [done|].
  destruct ((me_FromSeq m =? from) && (me_ToSeq m =? to)) eqn:E.
  - zify_bool. intros [= <-]. by exists [], m, l.
  - intros (l0 & H & ->)%fmap_Some. destruct (IH _ H) as (l1 & m' & l2 & -> & -> & ? & ?).
    by exists (m :: l1), m', l2.
Qed.

Lemma update_match_none from to f l :
  update_match from to f l = None -> forall m, m ∈ l -> me_FromSeq m = from -> me_ToSeq m <> to.
Proof.
  induction l as [|m l IH]; cbn; [intros _ m Hm; by apply not_elem_of_nil in Hm|].
  destruct ((me_FromSeq m =? from) && (me_ToSeq m =? to)) eqn:E; [done|].
  intros H%fmap_None m' [->|Hm]%elem_of_cons HF HT; [|by eapply IH].
  rewrite HF, HT, !Z.eqb_refl in E. done.
Qed.

(** A meta with the number a piece starts at is the meta of that piece. *)
Lemma meta_piece id ps l m p :
  chained 0 ps -> Forall (fun m => exists p, p ∈ ps /\ stream_meta id m p) l -> m ∈ l -> p ∈ ps ->
  me_FromSeq m = pc_from p -> stream_meta id m p.
Proof.
  intros Hc HF Hm Hp HE. rewrite Forall_forall in HF. destruct (HF _ Hm) as (p' & Hp' & HM).
  assert (p' = p) as ->; [|done]. eapply chained_from_inj; [done..|]. destruct HM as [HM _]. congruence.
Qed.

Lemma meta_missing id ps l p f :
  chained 0 ps -> Forall (fun m => exists p, p ∈ ps /\ stream_meta id m p) l -> p ∈ ps ->
  update_match (pc_from p) (pc_to p) f l = None -> pc_from p ∉ (me_FromSeq <$> l).
Proof.
  intros Hc HF Hp HN (m & Hm & Hin)%list_elem_of_fmap.
  destruct (meta_piece id ps l m p) as (_ & HT & _); try done.
  by eapply update_match_none.
Qed.

Lemma fmap_middle {A C} (g : A -> C) l1 x y l2 : g x = g y -> g <$> l1 ++ x :: l2 = g <$> l1 ++ y :: l2.
Proof. intros E. rewrite !fmap_app, !fmap_cons. by rewrite E. Qed.

Lemma Forall_middle {A} (P : A -> Prop) l1 x y l2 : Forall P (l1 ++ x :: l2) -> P y -> Forall P (l1 ++ y :: l2).
Proof. rewrite !Forall_app, !Forall_cons. naive_solver. Qed.

(** *** Uploads *)

Context {B : Type} `{BK : !Backend B} `{BL : !BackendLaw B}.
Implicit Types (id : bytes) (ps : list piece) (p : piece) (op : list LogRecord) (sw : streamWriter) (b : B).

(** An operation touches only the objects of its stream. *)
Definition only_stream (id : bytes) (b b' : B) : Prop :=
  forall k, has_prefix (stream_prefix id) k = false -> bk_objects b' !! k = bk_objects b !! k.

Lemma only_stream_refl id b : only_stream id b b.
Proof. done. Qed.

Lemma only_stream_trans id b1 b2 b3 : only_stream id b1 b2 -> only_stream id b2 b3 -> only_stream id b1 b3.
Proof. intros H1 H2 k Hk. by rewrite H2, H1. Qed.

(** Storing a piece under its key keeps the objects of the stream described. *)
Lemma put_piece_objs id (objs : gmap bytes bytes) ps p :
  (forall k o f t, objs !! k = Some o -> has_prefix (stream_prefix id) k = true ->
    ParseStreamPath k = Ok (f, t, true) -> exists p, p ∈ ps /\ k = object_key id p /\ o = piece_bytes p) ->
  p ∈ ps ->
  forall k o f t, <[object_key id p := piece_bytes p]> objs !! k = Some o ->
    has_prefix (stream_prefix id) k = true -> ParseStreamPath k = Ok (f, t, true) ->
    exists p, p ∈ ps /\ k = object_key id p /\ o = piece_bytes p.
Proof.
  intros HO Hp k o f t. destruct (decide (k = object_key id p)) as [->|Hne].
  - rewrite lookup_insert_eq. intros [= <-] _ _. eauto.
  - rewrite lookup_insert_ne by done. apply HO.
Qed.

(** Outcome of [PutObject] on the objects of the stream. *)
Lemma put_piece id b b' r ps p sw :
  bk_PutObject b [] (object_key id p) (piece_bytes p) = (b', r) -> p ∈ ps ->
  metas_inv id (bk_objects b) sw ps ->
  metas_inv id (bk_objects b') sw ps /\ only_stream id b b' /\
  (is_ok r = true -> is_Some (bk_objects b' !! object_key id p)).
Proof.
  intros HP Hp HI. pose proof (PutObject_spec b [] (object_key id p) (piece_bytes p)) as HS.
  rewrite HP in HS. change (StorageKey [] (object_key id p)) with (object_key id p) in HS.
  assert (bk_objects b' = bk_objects b \/ bk_objects b' = <[object_key id p := piece_bytes p]> (bk_objects b)) as HC
    by (destruct r; naive_solver).
  split_and!.
  - destruct HC as [->| ->]; [done|]. destruct HI. split; try done.
    + by apply put_piece_objs.
    + eapply Forall_impl; [done|]. cbn. intros m [?|?]; [by left|right].
      apply lookup_insert_is_Some'. by right.
  - intros k Hk. destruct HC as [->| ->]; [done|]. rewrite lookup_insert_ne; [done|].
    intros <-. by rewrite object_key_prefix in Hk.
  - destruct r; [|done]. intros _. rewrite HS, lookup_insert_eq. eauto.
Qed.

Lemma set_key_inv id objs sw sw' ps l1 m l2 p :
  metas_inv id objs sw ps -> chained 0 ps -> sw_sealed sw = l1 ++ m :: l2 -> p ∈ ps ->
  stream_meta id m p -> is_Some (objs !! object_key id p) ->
  sw_sealed sw' = l1 ++ set_Key m (object_key id p) :: l2 ->
  sw_discovered sw' = sw_discovered sw -> sw_uploadedTo sw' <= end_to 0 ps ->
  metas_inv id objs sw' ps.
Proof.
  intros [] Hc Hl Hp (HF & HT & HPa & _) HO Hl' Hd Hu. rewrite Hl in *.
  assert (HE : me_FromSeq <$> sw_sealed sw' = me_FromSeq <$> l1 ++ m :: l2)
    by (rewrite Hl'; by apply fmap_middle).
  split; rewrite ?HE, ?Hl', ?Hd; try done.
  - eapply Forall_middle; [done|]. exists p. split; [done|]. split_and!; try done. by right.
  - eapply Forall_middle; [done|]. by right.
Qed.

(** What an upload needs: the metas and the sealed files. *)
Definition uploadable id (w : World) b sw ps : Prop :=
  no_faults w /\ sw_streamID sw = id /\ chained 0 ps /\
  Forall (fun p => w_dir w !! sealed_name p = Some (durable_file (piece_bytes p))) ps /\
  metas_inv id (bk_objects b) sw ps.

Definition uploads id b sw b' sw' : Prop :=
  same_files sw sw' /\ sw_lastSeq sw' = sw_lastSeq sw /\ sw_discovered sw' = sw_discovered sw /\
  only_stream id b b'.

Lemma upload_one id w b sw ps i w' b' sw' r :
  uploadable id w b sw ps -> uploadSealedMetaLocked w b sw i = (w', b', sw', r) ->
  w' = w /\ uploadable id w b' sw' ps /\ uploads id b sw b' sw'.
Proof.
  intros HI. pose proof HI as (Hw & Hid & HC & Hfs & HM). unfold uploadSealedMetaLocked.
  destruct (sw_sealed sw !! i) as [m|] eqn:Hm; [|intros [= <- <- <- <-]; by split_and!].
  destruct (_ || _) eqn:Ec; [intros [= <- <- <- <-]; by split_and!|].
  assert (HMm := mi_metas _ _ _ _ HM). pose proof (proj1 (Forall_forall _ _) Hfs) as Hfl. rewrite Forall_forall in HMm.
  destruct (HMm m) as (p & Hp & HMp); [by eapply list_elem_of_lookup_2|].
  pose proof HMp as (HF & HT & HPa & _). rewrite HPa, HF, HT, Hid.
  erewrite os_ReadFile_ok by (try done; by apply Hfl). cbn [f_data].
  change (FormatStreamObjectKey (uuid_String id) (pc_from p) (pc_to p)) with (object_key id p).
  destruct (bk_PutObject b [] (object_key id p) (piece_bytes p)) as [b1 r1] eqn:EP.
  destruct (put_piece id b b1 r1 ps p sw EP Hp HM) as (HM1 & HOn & HK).
  destruct r1 as [et|e].
  - specialize (HK eq_refl). intros [= <- <- <- <-]. pose proof (lookup_lt_Some _ _ _ Hm) as Hlt.
    assert (HIns := insert_take_drop (sw_sealed sw) i (set_Key m (object_key id p)) Hlt).
    destruct (chained_elem _ _ _ HC Hp) as [_ Hle]. pose proof (mi_up _ _ _ _ HM) as Hup.
    split; [done|]. split.
    + split_and!; try done; [by destruct (_ <? pc_to p)|].
      eapply (set_key_inv id _ sw); try done; [by rewrite (take_drop_middle _ _ _ Hm)|..];
        by destruct (_ <? pc_to p).
    + by destruct (_ <? pc_to p); split_and!.
  - intros [= <- <- <- <-]. by split_and!.
Qed.

Lemma upload_metas_ok id ixs : forall w b sw ps fe w' b' sw' r,
  uploadable id w b sw ps -> upload_metas w b sw ixs fe = (w', b', sw', r) ->
  w' = w /\ uploadable id w b' sw' ps /\ uploads id b sw b' sw'.
Proof.
  induction ixs as [|i ixs IH]; intros w b sw ps fe w' b' sw' r HI; cbn [upload_metas].
  - intros [= <- <- <- <-]. by split_and!.
  - destruct (uploadSealedMetaLocked w b sw i) as [[[w1 b1] sw1] r1] eqn:E.
    destruct (upload_one _ _ _ _ _ _ _ _ _ _ HI E) as (-> & HI1 & HS1 & HL1 & HD1 & HO1).
    intros H. destruct (IH _ _ _ _ _ _ _ _ _ HI1 H) as (-> & HI2 & HS2 & HL2 & HD2 & HO2).
    split_and!; [done..|]. split_and!; [by eapply same_files_trans|congruence|congruence|by eapply only_stream_trans].
Qed.

Lemma stream_uploadable id w b sw ps op :
  no_faults w -> stream_inv id (w_dir w) (bk_objects b) sw ps op -> uploadable id w b sw ps.
Proof. intros Hw HI. pose proof (stream_metas_inv _ _ _ _ _ _ HI). destruct HI. by split_and!. Qed.

Lemma uploads_inv id w b sw ps op b' sw' :
  stream_inv id (w_dir w) (bk_objects b) sw ps op -> uploadable id w b' sw' ps -> uploads id b sw b' sw' ->
  stream_inv id (w_dir w) (bk_objects b') sw' ps op.
Proof.
  intros HI (_ & _ & _ & _ & HM) (HS & HL & _). eapply metas_change; try done; [lia|by left].
Qed.

Lemma upload_inv id w b sw ps op i w' b' sw' r :
  no_faults w -> stream_inv id (w_dir w) (bk_objects b) sw ps op ->
  uploadSealedMetaLocked w b sw i = (w', b', sw', r) ->
  w' = w /\ stream_inv id (w_dir w) (bk_objects b') sw' ps op /\ uploads id b sw b' sw'.
Proof.
  intros Hw HI HE. destruct (upload_one id w b sw ps i w' b' sw' r) as (-> & HU & HS); [|done|].
  { by eapply stream_uploadable. } split_and!; try done. by eapply uploads_inv.
Qed.

Lemma upload_pending_inv id w b sw ps op w' b' sw' r :
  no_faults w -> stream_inv id (w_dir w) (bk_objects b) sw ps op ->
  uploadPendingSealedLocked w b sw = (w', b', sw', r) ->
  w' = w /\ stream_inv id (w_dir w) (bk_objects b') sw' ps op /\ uploads id b sw b' sw'.
Proof.
  intros Hw HI HE. destruct (upload_metas_ok id _ w b sw ps _ w' b' sw' r
    (stream_uploadable _ _ _ _ _ _ Hw HI) HE) as (-> & HU & HS).
  split_and!; try done. by eapply uploads_inv.
Qed.

(** *** Discovery *)

(** What the steps of a discovery may change. *)
Definition discovers ps sw sw' : Prop :=
  same_files sw sw' /\ sw_discovered sw' = sw_discovered sw /\
  sw_lastSeq sw <= sw_lastSeq sw' /\ (sw_lastSeq sw' = sw_lastSeq sw \/ sw_lastSeq sw' <= end_to 0 ps).

Lemma discovers_refl ps sw : discovers ps sw sw.
Proof. split_and!; try done. by left. Qed.

Lemma discovers_trans ps sw1 sw2 sw3 : discovers ps sw1 sw2 -> discovers ps sw2 sw3 -> discovers ps sw1 sw3.
Proof.
  intros (HS & HD & HL & HE) (HS' & HD' & HL' & HE').
  split_and!; [by eapply same_files_trans|congruence|lia|].
  destruct HE as [?|?], HE' as [?|?]; [left; congruence|by right|right; lia|by right].
Qed.

Lemma raise_lastSeq_discovers ps sw sw' to :
  discovers ps sw sw' -> to <= end_to 0 ps -> discovers ps sw (raise_lastSeq sw' to).
Proof.
  intros H Hto. eapply discovers_trans; [done|]. unfold raise_lastSeq.
  destruct (_ <? to) eqn:E; zify_bool; [|apply discovers_refl]. split_and!; cbn; try done; [lia|by right].
Qed.

Lemma raise_lastSeq_metas id objs sw ps to : metas_inv id objs sw ps -> metas_inv id objs (raise_lastSeq sw to) ps.
Proof. intros []. unfold raise_lastSeq. destruct (_ <? to); by split. Qed.

Lemma raise_lastSeq_sealed sw to : sw_sealed (raise_lastSeq sw to) = sw_sealed sw.
Proof. unfold raise_lastSeq. by destruct (_ <? to). Qed.

(** A new meta for a piece without one. *)
Lemma add_meta_inv id objs sw ps p path :
  metas_inv id objs sw ps -> p ∈ ps -> pc_from p ∉ (me_FromSeq <$> sw_sealed sw) -> path = sealed_name p ->
  metas_inv id objs (set_sealed sw (sw_sealed sw ++ [mkStreamMeta (pc_from p) (pc_to p) 0 path []])) ps.
Proof.
  intros [] Hp HN ->. split; cbn; try done.
  - apply Forall_app. split; [done|]. constructor; [|done]. exists p. split; [done|]. split_and!; try done. by left.
  - rewrite fmap_app. apply NoDup_app. split_and!; [done| |apply NoDup_singleton].
    intros x Hx Hx'. cbn in Hx'. apply list_elem_of_singleton in Hx'. by subst.
  - intros Hd. exfalso. apply HN. rewrite mi_known0 by done. by apply list_elem_of_fmap_2.
  - apply Forall_app. split; [done|]. constructor; [by left|done].
Qed.

(** The effect of a directory entry that is a sealed file. *)
Lemma discover_piece id objs sw ps p f :
  chained 0 ps -> is_u64 (pc_from p) /\ is_u64 (pc_to p) -> metas_inv id objs sw ps -> p ∈ ps ->
  let sw' := discover_local sw (sealed_name p, EFile f) in
  metas_inv id objs sw' ps /\ discovers ps sw sw' /\
  (forall x, x ∈ (me_FromSeq <$> sw_sealed sw) -> x ∈ (me_FromSeq <$> sw_sealed sw')) /\
  pc_from p ∈ (me_FromSeq <$> sw_sealed sw').
Proof.
  intros Hc HU HM Hp. cbn [discover_local]. rewrite parse_sealed by done.
  destruct (chained_elem _ _ _ Hc Hp) as [_ Hle].
  destruct (update_match _ _ _ (sw_sealed sw)) as [l'|] eqn:EU; cbv zeta.
  - apply update_match_some in EU as (l1 & m & l2 & Hl & -> & HF & HT).
    assert (stream_meta id m p) as (_ & _ & HPa & _).
    { destruct HM. eapply meta_piece; [done..| |done|done]. rewrite Hl. apply elem_of_app. right. left. }
    rewrite HPa, bool_decide_eq_false_2 by apply sealed_name_nonempty.
    rewrite <-Hl, raise_lastSeq_sealed. cbn [sw_sealed set_sealed].
    assert (set_sealed sw (sw_sealed sw) = sw) as -> by (by destruct sw). split_and!; try done.
    + by apply raise_lastSeq_metas.
    + apply raise_lastSeq_discovers; [apply discovers_refl|done].
    + rewrite Hl, fmap_app, fmap_cons, HF. apply elem_of_app. right. left.
  - assert (pc_from p ∉ (me_FromSeq <$> sw_sealed sw)) as HNin by (destruct HM; by eapply meta_missing).
    rewrite raise_lastSeq_sealed. cbn [sw_sealed set_sealed]. rewrite fmap_app. split_and!.
    + apply raise_lastSeq_metas. by apply add_meta_inv.
    + apply raise_lastSeq_discovers; [|done]. split_and!; try done. by left.
    + intros x Hx. apply elem_of_app. by left.
    + apply elem_of_app. right. left.
Qed.

(** The directory of a stream, as discovery and recovery see it. *)
Definition dir_ok (d : gmap bytes Entry) ps op sw : Prop :=
  Forall (fun p => d !! sealed_name p = Some (durable_file (piece_bytes p))) ps /\
  (forall n e k t bl, d !! n = Some e -> ParseStreamPath n = Ok (k, t, bl) ->
    if bl then exists p, p ∈ ps /\ n = sealed_name p
    else op ++ sw_pending sw <> [] /\ n = name_of (op ++ sw_pending sw)).

Lemma sealed_entry (d : gmap bytes Entry) ps op sw n e k t :
  dir_ok d ps op sw -> d !! n = Some e -> ParseStreamPath n = Ok (k, t, true) ->
  exists p f, p ∈ ps /\ n = sealed_name p /\ e = EFile f.
Proof.
  intros [HF HN] Hn HP. destruct (HN _ _ _ _ _ Hn HP) as (p & Hp & ->).
  rewrite Forall_forall in HF. rewrite (HF _ Hp) in Hn. injection Hn as <-. unfold durable_file. eauto.
Qed.

Lemma discover_entries_inv id (d : gmap bytes Entry) objs ps op sw0 l : forall sw,
  chained 0 ps -> Forall (stream_rec id) (pieces_recs ps) -> dir_ok d ps op sw0 ->
  metas_inv id objs sw ps -> Forall (fun ent => d !! ent.1 = Some ent.2) l ->
  let sw' := foldl discover_local sw l in
  metas_inv id objs sw' ps /\ discovers ps sw sw' /\
  (forall x, x ∈ (me_FromSeq <$> sw_sealed sw) -> x ∈ (me_FromSeq <$> sw_sealed sw')) /\
  (forall p, p ∈ ps -> sealed_name p ∈ l.*1 -> pc_from p ∈ (me_FromSeq <$> sw_sealed sw')).
Proof.
  induction l as [|[n e] l IH]; intros sw Hc HR HD HM HL; cbv zeta.
  { split_and!; try done; [apply discovers_refl|]. intros p _ H. by apply not_elem_of_nil in H. }
  apply Forall_cons in HL as [Hn HL]. cbn [fst snd] in Hn. cbn [foldl fmap list_fmap fst].
  assert (HU : forall p, p ∈ ps -> is_u64 (pc_from p) /\ is_u64 (pc_to p)) by (intros; by eapply pieces_u64).
  assert (HS : let sw' := discover_local sw (n, e) in
    metas_inv id objs sw' ps /\ discovers ps sw sw' /\
    (forall x, x ∈ (me_FromSeq <$> sw_sealed sw) -> x ∈ (me_FromSeq <$> sw_sealed sw')) /\
    (forall p, p ∈ ps -> sealed_name p = n -> pc_from p ∈ (me_FromSeq <$> sw_sealed sw'))).
  { destruct (ParseStreamPath n) as [[[k t] []]|] eqn:EP.
    - destruct (sealed_entry _ _ _ _ _ _ _ _ HD Hn EP) as (p & f & Hp & -> & ->).
      destruct (discover_piece id objs sw ps p f) as (H1 & H2 & H3 & H4); auto. cbv zeta. split_and!; try done.
      intros p' Hp' HE. assert (p' = p) as ->; [|done]. eapply chained_from_inj; [done..|].
      pose proof (parse_sealed p' (HU _ Hp')) as E1. rewrite HE, parse_sealed in E1 by auto. congruence.
    - assert (discover_local sw (n, e) = sw) as -> by (cbn; destruct e; by rewrite ?EP).
      split_and!; try done; [apply discovers_refl|]. intros p Hp <-. by rewrite parse_sealed in EP by auto.
    - assert (discover_local sw (n, e) = sw) as -> by (cbn; destruct e; by rewrite ?EP).
      split_and!; try done; [apply discovers_refl|]. intros p Hp <-. by rewrite parse_sealed in EP by auto. }
  destruct HS as (HM1 & HD1 & HX1 & HP1).
  destruct (IH (discover_local sw (n, e)) Hc HR HD HM1 HL) as (HM2 & HD2 & HX2 & HP2).
  split_and!; [done|by eapply discovers_trans|auto|].
  intros p Hp [<-|Hin]%elem_of_cons; [apply HX2; by apply HP1|by apply HP2].
Qed.

Lemma discover_remote_inv id objs sw ps e :
  wf_uuid id -> chained 0 ps -> Forall (stream_rec id) (pieces_recs ps) -> metas_inv id objs sw ps ->
  (forall p, p ∈ ps -> pc_from p ∈ (me_FromSeq <$> sw_sealed sw)) ->
  has_prefix (stream_prefix id) (oe_Key e) = true -> is_Some (objs !! oe_Key e) ->
  let sw' := discover_remote sw e in
  metas_inv id objs sw' ps /\ discovers ps sw sw' /\
  (me_FromSeq <$> sw_sealed sw') = (me_FromSeq <$> sw_sealed sw).
Proof.
  intros Hid Hc HR HM HK HP [o Ho]. cbv zeta. unfold discover_remote.
  destruct (ParseStreamPath (oe_Key e)) as [[[f t] []]|] eqn:EP;
    [|split_and!; try done; apply discovers_refl..].
  destruct (mi_objs _ _ _ _ HM _ _ _ _ Ho HP EP) as (p & Hp & HE & _).
  assert (HU := pieces_u64 id ps p Hc HR Hp). rewrite HE, parse_key in EP by done.
  injection EP as <- <-. destruct (chained_elem _ _ _ Hc Hp) as [_ Hle].
  set (sw1 := raise_lastSeq _ (pc_to p)).
  assert (sw_sealed sw1 = sw_sealed sw /\ sw_discovered sw1 = sw_discovered sw /\
    sw_uploadedTo sw1 <= end_to 0 ps /\ discovers ps sw sw1) as (HS1 & HD1 & HU1 & HV1).
  { unfold sw1. pose proof (mi_up _ _ _ _ HM).
    split_and!; [..|apply raise_lastSeq_discovers; [|done]];
      destruct (sw_uploadedTo sw <? pc_to p); unfold raise_lastSeq; try (by destruct (_ <? _));
      try apply discovers_refl. split_and!; try done. by left. }
  rewrite HS1. destruct (update_match _ _ _ (sw_sealed sw)) as [l'|] eqn:EU.
  2: { exfalso. eapply (meta_missing id ps); [done|apply (mi_metas _ _ _ _ HM)|done|done|]. by apply HK. }
  apply update_match_some in EU as (l1 & m & l2 & Hl & -> & HF & HT).
  assert (stream_meta id m p) as HMp.
  { destruct HM. eapply meta_piece; [done..| |done|done]. rewrite Hl. apply elem_of_app. right. left. }
  assert (HFm : (if bool_decide (me_Key m = []) then set_Key m (oe_Key e) else m) = set_Key m (object_key id p)).
  { rewrite HE. destruct (decide (me_Key m = [])) as [E|E]; [by rewrite bool_decide_eq_true_2|].
    rewrite bool_decide_eq_false_2 by done. destruct HMp as (_ & _ & _ & [?|HKm]); [done|].
    destruct m; cbn in *. unfold set_Key. cbn. by rewrite HKm. }
  rewrite HFm. split_and!.
  - eapply (set_key_inv id objs sw); try done. by rewrite <-HE.
  - destruct HV1 as (? & ? & ? & ?). by split_and!.
  - cbn [sw_sealed set_sealed]. rewrite Hl. by apply fmap_middle.
Qed.

Lemma discover_objects_inv id objs ps es : forall sw,
  wf_uuid id -> chained 0 ps -> Forall (stream_rec id) (pieces_recs ps) -> metas_inv id objs sw ps ->
  (forall p, p ∈ ps -> pc_from p ∈ (me_FromSeq <$> sw_sealed sw)) ->
  Forall (fun e => has_prefix (stream_prefix id) (oe_Key e) = true /\ is_Some (objs !! oe_Key e)) es ->
  let sw' := foldl discover_remote sw es in
  metas_inv id objs sw' ps /\ discovers ps sw sw' /\
  (me_FromSeq <$> sw_sealed sw') = (me_FromSeq <$> sw_sealed sw).
Proof.
  induction es as [|e es IH]; intros sw Hid Hc HR HM HK HL; cbv zeta.
  { split_and!; try done. apply discovers_refl. }
  apply Forall_cons in HL as [[HP HO] HL]. cbn [foldl].
  destruct (discover_remote_inv id objs sw ps e) as (HM1 & HD1 & HF1); try done.
  destruct (IH (discover_remote sw e)) as (HM2 & HD2 & HF2); try done.
  { intros p Hp. rewrite HF1. auto. }
  split_and!; [done|by eapply discovers_trans|by rewrite HF2].
Qed.

Lemma metas_inv_perm id objs sw sw' ps :
  metas_inv id objs sw ps -> sw_sealed sw' ≡ₚ sw_sealed sw -> sw_uploadedTo sw' = sw_uploadedTo sw ->
  me_FromSeq <$> sw_sealed sw' = pc_from <$> ps -> metas_inv id objs sw' ps.
Proof. intros [] HP HU HK. split; try done; by rewrite ?HP, ?HU. Qed.

#[export] Instance meta_le_total : Total meta_le.
Proof. intros a b. unfold meta_le. lia. Qed.
#[export] Instance meta_le_trans : Transitive meta_le.
Proof. intros a b c. unfold meta_le. lia. Qed.

(** Sorting the metas of all pieces. *)
Lemma sort_metas_pieces id objs sw ps :
  chained 0 ps -> metas_inv id objs sw ps ->
  (forall p, p ∈ ps -> pc_from p ∈ (me_FromSeq <$> sw_sealed sw)) ->
  me_FromSeq <$> sort_metas (sw_sealed sw) = pc_from <$> ps.
Proof.
  intros Hc [] HK. assert (HS := chained_from_sorted 0 ps Hc). apply (StronglySorted_unique Z.le).
  - unfold sort_metas. pose proof (StronglySorted_merge_sort meta_le (sw_sealed sw)) as HM.
    induction HM as [|m l _ IH HF]; constructor; [done|]. apply Forall_fmap. done.
  - clear -HS. induction HS as [|x l _ IH HF]; constructor; [done|]. eapply Forall_impl; [exact HF|]. cbn. lia.
  - unfold sort_metas. rewrite merge_sort_Permutation. apply NoDup_Permutation; [done| |].
    + clear -HS. induction HS as [|x l _ IH HF]; constructor; [|done]. intros Hx.
      rewrite Forall_forall in HF. specialize (HF _ Hx). lia.
    + intros x. split; rewrite !list_elem_of_fmap.
      * intros (m & -> & Hm). rewrite Forall_forall in mi_metas0. destruct (mi_metas0 _ Hm) as (p & Hp & -> & _). eauto.
      * intros (p & -> & Hp). apply list_elem_of_fmap. auto.
Qed.

Lemma list_stream_objects id b b' r :
  bk_ListObjects b [] (stream_prefix id) = (b', r) ->
  bk_objects b' = bk_objects b /\
  match r with
  | Ok es => Forall (fun e => has_prefix (stream_prefix id) (oe_Key e) = true /\
                              is_Some (bk_objects b !! oe_Key e)) es
  | Err _ => True
  end.
Proof.
  intros E. pose proof (ListObjects_spec b [] (stream_prefix id)) as HS. rewrite E in HS.
  destruct HS as [Ho HS]. split; [done|]. destruct r as [es|]; [|done].
  destruct HS as [_ HS]. apply Forall_forall. intros [k n t] Hin. cbn.
  destruct (proj1 (HS k n)) as (HP & o & Hk & _); [by exists t|]. by rewrite Hk.
Qed.

Lemma stream_dir_ok id d objs sw ps op : stream_inv id d objs sw ps op -> dir_ok d ps op sw.
Proof. intros []. by split. Qed.

Lemma dir_entries_lookup (d : gmap bytes Entry) : Forall (fun ent => d !! ent.1 = Some ent.2) (dir_entries d).
Proof. apply Forall_forall. intros [n e] H. by apply dir_entries_elem. Qed.

Lemma sealed_listed (d : gmap bytes Entry) ps op sw p :
  dir_ok d ps op sw -> p ∈ ps -> sealed_name p ∈ (dir_entries d).*1.
Proof.
  intros [HF _] Hp. rewrite Forall_forall in HF. apply list_elem_of_fmap.
  exists (sealed_name p, durable_file (piece_bytes p)). split; [done|]. apply dir_entries_elem. auto.
Qed.

(** Discovery on the metas: all pieces are known when it succeeds. *)
Lemma discover_metas id w b sw sw0 ps op w' b' sw' :
  wf_uuid id -> no_faults w -> chained 0 ps -> Forall (stream_rec id) (pieces_recs ps) ->
  dir_ok (w_dir w) ps op sw0 -> metas_inv id (bk_objects b) sw ps -> sw_streamID sw = id ->
  discoverRemoteSealedLocked w b sw = (w', b', sw') ->
  w' = w /\ bk_objects b' = bk_objects b /\ metas_inv id (bk_objects b) sw' ps /\ same_files sw sw' /\
  sw_lastSeq sw <= sw_lastSeq sw' /\ (sw_lastSeq sw' = sw_lastSeq sw \/ sw_lastSeq sw' <= end_to 0 ps) /\
  (forall p, p ∈ ps -> pc_from p ∈ (me_FromSeq <$> sw_sealed sw')).
Proof.
  intros Hid Hw Hc HR HD HM HI. unfold discoverRemoteSealedLocked, os_ReadDir.
  rewrite next_outcome_ok by done. change (omap _ _) with (dir_entries (w_dir w)).
  destruct (discover_entries_inv id (w_dir w) (bk_objects b) ps op sw0 (dir_entries (w_dir w)) sw
    Hc HR HD HM (dir_entries_lookup _)) as (HM1 & HD1 & _ & HK1).
  set (sw1 := foldl discover_local sw (dir_entries (w_dir w))) in *.
  assert (HK : forall p, p ∈ ps -> pc_from p ∈ (me_FromSeq <$> sw_sealed sw1))
    by (intros p Hp; apply HK1; [done|]; by eapply sealed_listed).
  pose proof HD1 as ((Hi1 & _) & _). rewrite Hi1, HI. change (go "streams/" ++ _) with (stream_prefix id).
  destruct (bk_ListObjects b [] (stream_prefix id)) as [b1 r] eqn:EL.
  destruct (list_stream_objects _ _ _ _ EL) as [Hob Hr]. destruct r as [es|e].
  - destruct (discover_objects_inv id (bk_objects b) ps es sw1) as (HM2 & HD2 & HF2); try done.
    pose proof (discovers_trans _ _ _ _ HD1 HD2) as (HS & _ & HLe & HLs).
    intros [= <- <- <-].
    assert (HP : sort_metas (sw_sealed (foldl discover_remote sw1 es)) ≡ₚ sw_sealed (foldl discover_remote sw1 es))
      by apply merge_sort_Permutation.
    split_and!; try done.
    + eapply metas_inv_perm; [exact HM2|done|done|]. eapply (sort_metas_pieces id (bk_objects b)); [done|exact HM2|].
      intros p Hp. rewrite HF2. auto.
    + intros p Hp. cbn [sw_sealed set_sealed]. rewrite HP. cbn [sw_sealed set_discovered]. rewrite HF2. auto.
  - intros [= <- <- <-]. destruct HD1 as (HS & _ & HLe & HLs). by split_and!.
Qed.

Lemma discover_inv id w b sw ps op w' b' sw' :
  wf_uuid id -> no_faults w -> stream_inv id (w_dir w) (bk_objects b) sw ps op ->
  discoverRemoteSealedLocked w b sw = (w', b', sw') ->
  w' = w /\ stream_inv id (w_dir w) (bk_objects b') sw' ps op /\ same_files sw sw' /\ only_stream id b b'.
Proof.
  intros Hid Hw HI HE. pose proof HI as [].
  apply Forall_app in v_recs0 as [HR _].
  destruct (discover_metas id w b sw sw ps op w' b' sw' Hid Hw v_chain0 HR
    (stream_dir_ok _ _ _ _ _ _ HI) (stream_metas_inv _ _ _ _ _ _ HI) v_id0 HE)
    as (-> & Ho & HM & HS & HLe & HLs & _).
  rewrite Ho. split_and!; [done| |done|].
  - by eapply (metas_change id _ (bk_objects b) _ sw).
  - intros k _. by rewrite Ho.
Qed.

(** ** Sealing *)

(** The piece the open file becomes. *)
Definition open_piece sw op : piece := mkPiece (sw_openFrom sw) (sw_lastSeq sw) op.

Lemma open_piece_ok id d objs sw ps op :
  stream_inv id d objs sw ps op -> op <> [] -> sw_pending sw = [] ->
  piece_ok (end_to 0 ps) (open_piece sw op) /\
  is_u64 (pc_from (open_piece sw op)) /\ is_u64 (pc_to (open_piece sw op)).
Proof.
  intros [] Hne Hp. unfold open_ok in v_open0. rewrite Hp, ?app_nil_r in *.
  destruct op as [|r op]; [done|]. destruct v_open0 as (_ & HO & HT & _).
  change (sw_lastSeq sw = top 0 (r :: op)) in HT.
  assert (piece_ok (end_to 0 ps) (open_piece sw (r :: op))) as HK.
  { unfold open_piece. split_and!; cbn; try done; rewrite ?HO; try done.
    by apply Forall_cons in v_rest0 as [? _]. }
  split; [done|]. eapply piece_u64; [done|]. apply Forall_app in v_recs0 as [_ H]. exact H.
Qed.

Lemma old_piece_ne id d objs sw ps op p :
  stream_inv id d objs sw ps op -> op <> [] -> sw_pending sw = [] -> p ∈ ps ->
  pc_from p <> sw_openFrom sw /\ sealed_name p <> sealed_name (open_piece sw op) /\ sealed_name p <> open_name sw.
Proof.
  intros HI Hne Hp Hin. destruct (open_piece_ok _ _ _ _ _ _ HI Hne Hp) as [[Hlt _] HU].
  assert (HC := v_chain _ _ _ _ _ _ HI). destruct (chained_elem _ _ _ HC Hin) as [Hok Hle].
  pose proof (piece_ok_le _ _ Hok). cbn [pc_from open_piece] in Hlt.
  assert (pc_from p <> sw_openFrom sw) as HN by lia. split_and!; [done| |].
  - intros HE. apply (f_equal ParseStreamPath) in HE.
    rewrite (parse_sealed (open_piece sw op)), (parse_sealed p) in HE by (try done; by eapply inv_u64).
    injection HE. cbn. done.
  - intros HE. eapply open_name_sealed; [done|done| |by symmetry]. by destruct HU.
Qed.

Lemma seal_rename_inv id d objs sw ps op pos :
  stream_inv id d objs sw ps op -> op <> [] -> sw_pending sw = [] ->
  let p := open_piece sw op in
  stream_inv id (<[sealed_name p := durable_file (piece_bytes p)]> (delete (open_name sw) d)) objs
    (sealed_writer sw (mkStreamMeta (pc_from p) (pc_to p) pos (sealed_name p) [])) (ps ++ [p]) [].
Proof.
  intros HI Hne Hp. cbv zeta.
  destruct (open_piece_ok _ _ _ _ _ _ HI Hne Hp) as [HK HU].
  assert (HOld := fun p => old_piece_ne id d objs sw ps op p HI Hne Hp).
  set (p := open_piece sw op) in *. destruct HI. rewrite Hp, app_nil_r in *.
  assert (HE : forall l, pieces_recs ps ++ op ++ l = pieces_recs (ps ++ [p]) ++ l)
    by (intros; rewrite pieces_recs_snoc; by rewrite <-app_assoc).
  assert (HON : open_name sw = name_of op).
  { destruct op as [|r l]; [done|]. destruct v_open0 as (_ & HO & _). unfold open_name. by rewrite HO. }
  assert (HNm : forall n e k t bl,
    <[sealed_name p := durable_file (piece_bytes p)]> (delete (open_name sw) d) !! n = Some e ->
    ParseStreamPath n = Ok (k, t, bl) -> bl = true /\ exists p', p' ∈ ps ++ [p] /\ n = sealed_name p').
  { intros n e k t bl Hl HPa. destruct (decide (n = sealed_name p)) as [->|Hn].
    { rewrite parse_sealed in HPa by done. injection HPa as <- <- <-. split; [done|]. exists p. split; [|done].
      apply elem_of_app. right. left. }
    rewrite lookup_insert_ne in Hl by done. apply lookup_delete_Some in Hl as [Ho Hl].
    specialize (v_names0 _ _ _ _ _ Hl HPa). destruct bl; [|destruct v_names0 as [_ ->]; congruence].
    destruct v_names0 as (p' & Hp' & ->). split; [done|]. exists p'. split; [|done]. apply elem_of_app. by left. }
  split; cbn [sealed_writer sw_streamID sw_evicted sw_pending sw_lastSeq sw_sealed sw_discovered sw_uploadedTo
    sw_recCount set_sealed set_openFrom set_sealedSinceLastPass set_openTime set_fileSize set_recCount]; rewrite ?Hp; try done.
  - apply chained_snoc. done.
  - rewrite <-HE. by rewrite app_nil_r.
  - apply Forall_app. split; [|constructor; [by rewrite lookup_insert_eq|done]].
    rewrite Forall_forall in v_files0 |- *. intros p' Hp'. destruct (HOld p' Hp') as (_ & H1 & H2).
    rewrite lookup_insert_ne, lookup_delete_ne by done. auto.
  - split; [done|]. change (sw_pending (sealed_writer _ _)) with (sw_pending sw). rewrite Hp. intros e He.
    by destruct (HNm _ _ _ _ _ He (parse_open 0 ltac:(done))) as [? _].
  - intros n e k t bl Hl HPa. by destruct (HNm _ _ _ _ _ Hl HPa) as [-> H].
  - rewrite end_to_snoc. split; [lia|]. done.
  - apply Forall_app. split.
    + eapply Forall_impl; [exact v_metas0|]. cbn. intros m (p' & Hp' & ?). exists p'. split; [|done]. apply elem_of_app. by left.
    + constructor; [|done]. exists p. split; [apply elem_of_app; right; left|]. split_and!; try done. by left.
  - rewrite fmap_app. apply NoDup_app. split_and!; [done| |apply NoDup_singleton].
    intros x (m & -> & Hm)%list_elem_of_fmap Hx. apply list_elem_of_singleton in Hx. cbn in Hx.
    rewrite Forall_forall in v_metas0. destruct (v_metas0 _ Hm) as (p' & Hp' & HF & _).
    destruct (HOld p' Hp') as [HN _]. congruence.
  - intros Hd. rewrite !fmap_app, v_known0 by done. done.
  - intros k o f t Hk HP HPa. destruct (v_objs0 _ _ _ _ Hk HP HPa) as (p' & Hp' & ?). exists p'.
    split; [|done]. apply elem_of_app. by left.
  - apply Forall_app. split; [done|]. constructor; [by left|done].
  - rewrite end_to_snoc. pose proof (piece_ok_le _ _ HK). destruct HK as [HK _]. lia.
  - unfold is_u64, u64. apply Z.mod_pos_bound. done.
Qed.

(** [fsync_open] and the rename on a disk that works. *)
Lemma seal_files id w objs sw ps op :
  no_faults w -> stream_inv id (w_dir w) objs sw ps op -> op <> [] -> sw_pending sw = [] ->
  let p := open_piece sw op in
  exists w1, fsync_open w (open_name sw) = (w1, Ok ()) /\
    os_Rename w1 (open_name sw) (sealed_name p) =
      (set_dir w (<[sealed_name p := durable_file (piece_bytes p)]> (delete (open_name sw) (w_dir w))), Ok ()).
Proof.
  intros Hw HI Hne Hp. cbv zeta. set (p := open_piece sw op).
  assert (HO := v_open _ _ _ _ _ _ HI). destruct op as [|r op]; [done|].
  destruct HO as (_ & _ & _ & f & Hf & Hd & _).
  unfold fsync_open. rewrite (os_OpenWrite_file _ _ f), (f_Sync_ok _ _ f) by done.
  rewrite f_Close_ok by (by apply no_faults_set_dir). eexists. split; [done|].
  rewrite Hd. erewrite os_Rename_file; [|by apply no_faults_set_dir|cbn [w_dir set_dir]; by rewrite lookup_insert_eq|].
  - unfold set_dir. cbn [w_dir w_outcomes w_now]. by rewrite delete_insert_eq.
  - cbn [w_dir set_dir]. destruct (decide (sealed_name p = open_name sw)) as [E|E].
    { rewrite E, lookup_insert_eq. done. }
    rewrite lookup_insert_ne by done. intros HE.
    destruct (open_piece_ok _ _ _ _ _ _ HI Hne Hp) as [_ HU].
    destruct (v_names _ _ _ _ _ _ HI _ _ _ _ _ HE (parse_sealed p HU)) as (p' & Hp' & Hn).
    by destruct (old_piece_ne _ _ _ _ _ _ p' HI Hne Hp Hp') as (_ & H1 & _).
Qed.

Lemma seal_grows id d objs sw ps op :
  stream_inv id d objs sw ps op -> op <> [] -> sw_pending sw = [] ->
  let p := open_piece sw op in
  grows d (<[sealed_name p := durable_file (piece_bytes p)]> (delete (open_name sw) d)) (end_to 0 (ps ++ [p])).
Proof.
  intros HI Hne Hp. cbv zeta.
  destruct (open_piece_ok _ _ _ _ _ _ HI Hne Hp) as [HK HU]. set (p := open_piece sw op) in *.
  split.
  2: { intros n x k t Hn HP. destruct (v_names _ _ _ _ _ _ HI _ _ _ _ _ Hn HP) as (p' & Hp' & ->).
    destruct (old_piece_ne _ _ _ _ _ _ p' HI Hne Hp Hp') as (_ & H1 & H2). by rewrite lookup_insert_ne, lookup_delete_ne. }
  intros n f k t Hn HP.
  destruct (decide (n = open_name sw)) as [->|Ho].
  - right. rewrite end_to_snoc. unfold open_name in HP. destruct HU as [HU _].
    change (sw_openFrom sw) with (pc_from p) in HP. rewrite parse_open in HP by done.
    injection HP as <- <-. by apply piece_ok_le in HK.
  - left. exists f. split; [|done]. rewrite lookup_insert_ne, lookup_delete_ne; [done..|].
    intros <-. by rewrite parse_sealed in HP.
Qed.

(** Sealing moves everything into a sealed file. *)
Lemma seal_inv id w b sw ps op w' b' sw' res :
  no_faults w -> stream_inv id (w_dir w) (bk_objects b) sw ps op ->
  sealLocked w b sw = (w', b', sw', res) ->
  no_faults w' /\ w_now w' = w_now w /\ only_stream id b b' /\
  exists ps', stream_inv id (w_dir w') (bk_objects b') sw' ps' [] /\ sw_pending sw' = [] /\
    pieces_recs ps' = pieces_recs ps ++ op ++ sw_pending sw /\
    grows (w_dir w) (w_dir w') (end_to 0 ps') /\ end_to 0 ps <= end_to 0 ps'.
Proof.
  intros Hw HI. unfold sealLocked.
  destruct (flush_inv id w _ sw ps op Hw HI) as (w1 & sw1 & -> & Hw1 & Hn1 & HS1 & Hp1 & HI1 & HG1).
  set (op1 := op ++ sw_pending sw) in *. destruct (decide (op1 = [])) as [E|Hne].
  - rewrite E in *. destruct (v_open _ _ _ _ _ _ HI1) as [HO _]. rewrite HO. cbn [orb Z.eqb].
    intros [= <- <- <- <-]. split_and!; try done. exists ps. rewrite app_nil_r. by split_and!.
  - assert (sw_recCount sw1 =? 0 = false /\ sw_openFrom sw1 =? 0 = false) as [-> ->].
    { destruct op1 as [|r l] eqn:E; [done|]. destruct (open_name_u64 _ _ _ _ _ _ _ HI1) as (HO & _ & H0).
      assert (HOp := v_open _ _ _ _ _ _ HI1). destruct HOp as (HC & _).
      rewrite !Z.eqb_neq, HC, HO. cbn. lia. }
    cbn [orb]. destruct (seal_files id w1 _ sw1 ps op1 Hw1 HI1 Hne Hp1) as (w2 & -> & HR).
    change (FormatStreamFileName (sw_openFrom sw1) (sw_lastSeq sw1) true) with (sealed_name (open_piece sw1 op1)).
    rewrite HR. pose proof (seal_rename_inv id _ _ sw1 ps op1 (sw_lastPos sw1) HI1 Hne Hp1) as HI2.
    cbv zeta in HI2. cbn [pc_from pc_to open_piece] in HI2.
    set (sw2 := sealed_writer _ _) in *. set (w3 := set_dir w1 _) in *.
    destruct (uploadSealedMetaLocked w3 b sw2 _) as [[[w4 b4] sw4] r4] eqn:EU.
    destruct (upload_inv id w3 b sw2 (ps ++ [open_piece sw1 op1]) [] _ _ _ _ _ (no_faults_set_dir _ _ Hw1) HI2 EU)
      as (-> & HI4 & HS4 & _ & _ & HO4).
    intros [= <- <- <- <-]. split_and!; [by apply no_faults_set_dir|done|done|].
    destruct (open_piece_ok _ _ _ _ _ _ HI1 Hne Hp1) as [HK _]. pose proof (piece_ok_le _ _ HK). pose proof (proj1 HK).
    eexists. split_and!; [exact HI4| |by rewrite pieces_recs_snoc| |rewrite end_to_snoc; lia].
    + destruct HS4 as (_ & _ & -> & _). exact Hp1.
    + eapply grows_trans; [apply (HG1 0)|by eapply seal_grows|]. rewrite end_to_snoc.
      pose proof (end_to_ge 0 ps (v_chain _ _ _ _ _ _ HI1)). lia.
Qed.

(** ** The operations of the writer *)

(** From one state of the stream to another, keeping its records in order. *)
Definition moves id (w : World) b sw (w' : World) (b' : B) (sw' : streamWriter) : Prop :=
  forall ps op, no_faults w -> stream_inv id (w_dir w) (bk_objects b) sw ps op ->
  no_faults w' /\ w_now w' = w_now w /\ only_stream id b b' /\
  exists ps' op', stream_inv id (w_dir w') (bk_objects b') sw' ps' op' /\
    pieces_recs ps' ++ op' ++ sw_pending sw' = pieces_recs ps ++ op ++ sw_pending sw /\
    grows (w_dir w) (w_dir w') (end_to 0 ps') /\ end_to 0 ps <= end_to 0 ps'.

Lemma moves_refl id w b sw : moves id w b sw w b sw.
Proof. intros ps op Hw HI. split_and!; try done. exists ps, op. split_and!; try done. apply grows_refl. Qed.

Lemma moves_trans id w b sw w1 b1 sw1 w2 b2 sw2 :
  moves id w b sw w1 b1 sw1 -> moves id w1 b1 sw1 w2 b2 sw2 -> moves id w b sw w2 b2 sw2.
Proof.
  intros H1 H2 ps op Hw HI. destruct (H1 ps op Hw HI) as (Hw1 & Hn1 & HO1 & ps1 & op1 & HI1 & HL1 & HG1 & HE1).
  destruct (H2 ps1 op1 Hw1 HI1) as (Hw2 & Hn2 & HO2 & ps2 & op2 & HI2 & HL2 & HG2 & HE2).
  split_and!; [done|congruence|by eapply only_stream_trans|]. exists ps2, op2.
  split_and!; [done|congruence|by eapply grows_trans|lia].
Qed.

Lemma flush_moves id w b sw w' sw' r : flushPendingLocked w sw = (w', sw', r) -> moves id w b sw w' b sw'.
Proof.
  intros HE ps op Hw HI.
  destruct (flush_inv id w _ sw ps op Hw HI) as (w1 & sw1 & HF & Hw1 & Hn1 & HS1 & Hp1 & HI1 & HG1).
  rewrite HE in HF. injection HF as -> -> ->. split_and!; try done.
  exists ps, (op ++ sw_pending sw). split_and!; [done| |apply HG1|done]. by rewrite Hp1, app_nil_r.
Qed.

Lemma discover_moves id w b sw w' b' sw' :
  wf_uuid id -> discoverRemoteSealedLocked w b sw = (w', b', sw') -> moves id w b sw w' b' sw'.
Proof.
  intros Hid HE ps op Hw HI. destruct (discover_inv id w b sw ps op w' b' sw') as (-> & HI' & HS & HO); try done.
  split_and!; try done. exists ps, op.
  split_and!; [done|by destruct HS as (_ & _ & -> & _)|apply grows_refl|done].
Qed.

Lemma upload_moves id w b sw w' b' sw' r :
  uploadPendingSealedLocked w b sw = (w', b', sw', r) -> moves id w b sw w' b' sw'.
Proof.
  intros HE ps op Hw HI.
  destruct (upload_pending_inv id w b sw ps op w' b' sw' r Hw HI HE) as (-> & HI' & HS & _ & _ & HO).
  split_and!; try done. exists ps, op.
  split_and!; [done|by destruct HS as (_ & _ & -> & _)|apply grows_refl|done].
Qed.

Lemma seal_moves id w b sw w' b' sw' r : sealLocked w b sw = (w', b', sw', r) -> moves id w b sw w' b' sw'.
Proof.
  intros HE ps op Hw HI.
  destruct (seal_inv id w b sw ps op w' b' sw' r Hw HI HE) as (Hw' & Hn' & HO & ps' & HI' & HP & HL & HG & HE').
  split_and!; try done. exists ps', []. split_and!; try done. by rewrite HP, HL, app_nil_r.
Qed.

Lemma discover_op_moves id w b sw w' b' sw' :
  wf_uuid id -> discover_op w b sw = (w', b', sw') -> moves id w b sw w' b' sw'.
Proof.
  intros Hid. unfold discover_op. destruct (needs_discovery sw); [by apply discover_moves|].
  intros [= <- <- <-]. apply moves_refl.
Qed.

Lemma flush_op_moves id w b sw w' b' sw' r : flush_op w b sw = (w', b', sw', r) -> moves id w b sw w' b' sw'.
Proof.
  unfold flush_op. destruct (flushPendingLocked w sw) as [[w1 sw1] r1] eqn:E.
  intros [= <- <- <- <-]. by eapply flush_moves.
Qed.

Lemma seal_op_moves id w b sw w' b' sw' r :
  wf_uuid id -> seal_op w b sw = (w', b', sw', r) -> moves id w b sw w' b' sw'.
Proof.
  intros Hid. unfold seal_op. destruct (discover_op w b sw) as [[w1 b1] sw1] eqn:E1.
  destruct (uploadPendingSealedLocked w1 b1 sw1) as [[[w2 b2] sw2] r2] eqn:E2. intros E3.
  eapply moves_trans; [by eapply discover_op_moves|].
  eapply moves_trans; [by eapply upload_moves|by eapply seal_moves].
Qed.

Lemma seal_all_op_moves id w b sw w' b' sw' r :
  wf_uuid id -> seal_all_op w b sw = (w', b', sw', r) -> moves id w b sw w' b' sw'.
Proof.
  intros Hid. unfold seal_all_op. destruct (discover_op w b sw) as [[w1 b1] sw1] eqn:E1.
  destruct (uploadPendingSealedLocked w1 b1 sw1) as [[[w2 b2] sw2] r2] eqn:E2.
  destruct (sealLocked w2 b2 sw2) as [[[w3 b3] sw3] [m3 r3]] eqn:E3. intros [= <- <- <- <-].
  eapply moves_trans; [by eapply discover_op_moves|].
  eapply moves_trans; [by eapply upload_moves|by eapply seal_moves].
Qed.

Lemma check_op_moves id s w b sw w' b' sw' r :
  wf_uuid id -> check_op s w b sw = (w', b', sw', r) -> moves id w b sw w' b' sw'.
Proof.
  intros Hid. unfold check_op. destruct (discover_op w b sw) as [[w1 b1] sw1] eqn:E1.
  destruct (flushPendingLocked w1 sw1) as [[w2 sw2] r2] eqn:E2.
  destruct (uploadPendingSealedLocked w2 b1 sw2) as [[[w3 b3] sw3] r3] eqn:E3. intros E4.
  eapply moves_trans; [by eapply discover_op_moves|].
  eapply moves_trans; [by eapply flush_moves|]. eapply moves_trans; [by eapply upload_moves|].
  destruct (seal_due s (w_now w3) sw3); [|injection E4 as <- <- <- <-; apply moves_refl].
  destruct (sealLocked w3 b3 sw3) as [[[w4 b4] sw4] r4] eqn:E5. injection E4 as <- <- <- <-.
  by eapply seal_moves.
Qed.

End inv.
