(* ===== verification/WalStreamRecover.v ===== *)
(** * WalStreamRecover: restarting a stream after a crash

    [recoverStream] on what a crash leaves of a stream directory: sealed files
    are durable, the open file is cut at an arbitrary byte past its header, the
    memory is gone.  If the aggregated log still has, in order of first
    occurrence, the records past the sealed files, the recovered files hold the
    log of the stream again. *)

From S2P Require Import Prelude Bytes WalRecord FileSys WalSegment WalStore WalPaths ObjectStore WalStream.
From S2P Require Import WalStreamInv.

#[local] Open Scope Z_scope.
#[local] Open Scope list_scope.

(** ** Records *)

Lemma newer_after_filter q t l : q <= t -> newer t (after q l) = newer t l.
Proof.
  intros Hq. revert t Hq. induction l as [|r l IH]; intros t Hq; [done|].
  unfold after. rewrite filter_cons. cbn [newer]. destruct (decide _) as [H|H]; cbn [newer].
  - destruct (t <? lr_StreamSeq r) eqn:E; zify_bool; [f_equal|]; apply IH; lia.
  - rewrite (proj2 (Z.ltb_ge _ _)) by lia. by apply IH.
Qed.

(** The largest sequence number is that of an accepted record. *)
Lemma newer_top q l : q < top q l -> exists r, r ∈ newer q l /\ lr_StreamSeq r = top q l.
Proof.
  revert q. induction l as [|r l IH]; intros q; [cbn; lia|]. rewrite top_cons. cbn [newer].
  destruct (q <? lr_StreamSeq r) eqn:E; zify_bool.
  - rewrite Z.max_r by lia. intros _. pose proof (top_ge (lr_StreamSeq r) l).
    destruct (decide (lr_StreamSeq r < top (lr_StreamSeq r) l)) as [Hlt|Hge].
    + destruct (IH _ Hlt) as (r' & Hr' & HE). exists r'. split; [by right|done].
    + exists r. split; [left|lia].
  - rewrite Z.max_l by lia. apply IH.
Qed.

Lemma chained_top q ps : 0 <= q -> chained q ps -> top q (pieces_recs ps) = end_to q ps.
Proof.
  revert q. induction ps as [|p ps IH]; intros q H0; [done|]. intros [Hok Hc].
  pose proof (piece_ok_le _ _ Hok). destruct Hok as (Hq & Hne & _ & HF & HT).
  change (pieces_recs (p :: ps)) with (pc_recs p ++ pieces_recs ps). rewrite top_app, end_to_cons.
  rewrite <-(IH (pc_to p) ltac:(lia) Hc), <-HT. f_equal.
  apply top_below; [done|..]; (eapply Forall_impl; [exact HF|]); cbn; lia.
Qed.

(** What a restart makes of the cut open file and the aggregated log [A]. *)
Section catch_up.
Context (ps : list piece) (op pend A : list LogRecord) (j : nat) (q : Z).
Context (Hc : chained 0 ps).
Context (Hrest : Forall (fun r => end_to 0 ps < lr_StreamSeq r) (op ++ pend)).
Let G := newer 0 (pieces_recs ps ++ op ++ pend).
Let C0 := pieces_recs ps ++ take j op.
Context (HA : forall t, end_to 0 ps <= t -> newer t A = after t G).
Context (HAG : forall r, r ∈ A -> r ∈ G).
Context (Hq : end_to 0 ps <= q <= top 0 C0).

Lemma catch_up_top0 : top 0 C0 = top (end_to 0 ps) (take j op).
Proof. unfold C0. by rewrite top_app, chained_top. Qed.

Lemma pieces_below t : end_to 0 ps <= t -> Forall (fun r => lr_StreamSeq r <= t) (pieces_recs ps).
Proof.
  intros Ht. apply Forall_forall. intros r Hr. pose proof (chained_recs_le _ _ _ Hc Hr). lia.
Qed.

Lemma catch_up_log : newer 0 (C0 ++ after q A) = G.
Proof.
  set (T := top 0 C0). assert (HT : 0 <= T) by apply top_ge.
  assert (HE : pieces_recs ps ++ op ++ pend = C0 ++ drop j op ++ pend).
  { unfold C0. rewrite <-!app_assoc. f_equal. rewrite (app_assoc (take j op)). by rewrite take_drop. }
  rewrite newer_app, newer_after_filter by apply Hq. fold T. rewrite HA by lia.
  unfold G. rewrite HE, after_newer by done.
  rewrite newer_skip by (apply Forall_forall; intros r; apply top_elem).
  symmetry. apply newer_app.
Qed.

Lemma catch_up_in r : r ∈ after q A -> r ∈ op ++ pend.
Proof.
  intros [Hr HrA]%list_elem_of_filter. apply HAG, newer_elem in HrA.
  apply elem_of_app in HrA as [Hp|]; [|done].
  pose proof (chained_recs_le _ _ _ Hc Hp). lia.
Qed.

Lemma catch_up_top : take j op <> [] -> top q (after q A) = top 0 (take j op ++ after q A).
Proof.
  intros Hne. assert (HTj : top 0 C0 = top 0 (take j op)).
  { rewrite catch_up_top0. pose proof (end_to_ge 0 ps Hc). apply Forall_app in Hrest as [HF _].
    apply (Forall_take _ j) in HF. apply top_below; [done|..]; (eapply Forall_impl; [exact HF|]); cbn; lia. }
  rewrite top_app, <-HTj. rewrite <-(Z.max_l (top 0 C0) q), top_max by lia.
  rewrite Z.max_r; [done|]. destruct (decide (q = top 0 C0)) as [->|Hn]; [apply top_ge|].
  pose proof (end_to_ge 0 ps Hc).
  destruct (newer_top 0 C0) as (r & Hr & HE); [lia|]. rewrite <-HE. apply top_elem.
  assert (HrG : r ∈ after q G).
  { apply list_elem_of_filter. split; [lia|]. rewrite <-catch_up_log, newer_app.
    apply elem_of_app. by left. }
  apply list_elem_of_filter. split; [lia|]. rewrite <-HA in HrG by lia. by eapply newer_elem.
Qed.

Lemma catch_up_head : take j op = [] -> op ++ pend <> [] ->
  exists l, after q A = match op ++ pend with x :: _ => x :: l | [] => l end.
Proof.
  intros Hj Hne. rewrite catch_up_top0, Hj in Hq. change (top _ []) with (end_to 0 ps) in Hq.
  assert (q = end_to 0 ps) as -> by lia. set (t := end_to 0 ps) in *.
  pose proof (HA t ltac:(lia)) as HN. unfold G in HN.
  rewrite after_newer, newer_skip in HN by (try apply pieces_below; apply end_to_ge || lia; done).
  rewrite <-(newer_after_filter t t) in HN by done.
  destruct (op ++ pend) as [|x l]; [done|]. apply Forall_cons in Hrest as [Hx _].
  cbn [newer] in HN. rewrite (proj2 (Z.ltb_lt _ _) Hx) in HN.
  assert (HU : Forall (fun r => t < lr_StreamSeq r) (after t A)).
  { apply Forall_forall. by intros r [? _]%list_elem_of_filter. }
  destruct (after t A) as [|u U]; [done|]. apply Forall_cons in HU as [Hu _].
  cbn [newer] in HN. rewrite (proj2 (Z.ltb_lt _ _) Hu) in HN. injection HN as -> _. by exists U.
Qed.

Lemma catch_up_first :
  (op ++ pend = [] -> take j op ++ after q A = []) /\
  (op ++ pend <> [] -> take j op ++ after q A <> [] /\
     first_of (take j op ++ after q A) = first_of (op ++ pend)).
Proof.
  split.
  - intros E. pose proof catch_up_in as HI. rewrite E in HI. apply app_eq_nil in E as [-> _].
    rewrite take_nil. cbn. destruct (after q A) as [|r l]; [done|]. by destruct (not_elem_of_nil r (HI r ltac:(left))).
  - intros Hne. destruct (decide (take j op = [])) as [Hj|Hj].
    + destruct (catch_up_head Hj Hne) as [l HE]. rewrite Hj. cbn [app]. rewrite HE.
      by destruct (op ++ pend).
    + by destruct op as [|r l], j.
Qed.

End catch_up.

(** ** The files *)

(** A crash cuts a file of records behind a valid prefix of them. *)
Lemma crash_file_records w w' n f rs :
  crash w w' -> w_dir w !! n = Some (EFile f) ->
  f_data f = segment_bytes rs \/ f_data f = [] /\ rs = [] -> Forall log_ok rs ->
  (forall f', w_dir w' !! n = Some (EFile f') -> f_data f' = [] \/ (16 <= length (f_data f'))%nat) ->
  exists k, left_over w' n (take k rs).
Proof.
  intros HC Hf Hd HF HH. destruct (crash_lookup _ _ _ _ HC Hf) as (m & Hm & Hf').
  assert (left_over w' n (@nil LogRecord) \/ (16 <= length (take m (f_data f)))%nat) as [HL|HL].
  { destruct (HH _ Hf') as [He|Hl]; cbn [f_data] in *; [left|by right].
    eexists. split; [exact Hf'|]. cbn [f_data f_synced]. rewrite He. split; [|by right].
    apply (f_equal length) in He. rewrite length_take in He. cbn in He |- *. lia. }
  { exists 0%nat. by rewrite take_0. }
  destruct Hd as [Hd|[Hd _]]; rewrite Hd in *; [|by rewrite take_nil in HL; cbn in HL; lia].
  rewrite length_take in HL. rewrite segment_bytes_length in Hm, HL.
  destruct (@encode_all_cut LogRecord log_format rs (m - 16) HF ltac:(lia)) as (k & t & _ & HT & Ht & _).
  exists k. eexists. split; [exact Hf'|]. cbn [f_data f_synced]. split.
  - rewrite length_take, segment_bytes_length. lia.
  - left. exists t. split; [done|]. unfold segment_bytes.
    rewrite take_app_ge by (rewrite default_header_length; lia).
    by rewrite default_header_length, HT, app_assoc.
Qed.

Lemma recover_name_unparsed w p r :
  p <> [] -> Forall (fun b => b <> slash) p -> ParseStreamPath (recover_name w p) <> Ok r.
Proof.
  intros Hne HF. unfold ParseStreamPath. destruct (_ || _); [done|].
  rewrite filepath_base_name; [|by destruct p|].
  - assert (has_suffix (go ".wal") (recover_name w p) = false) as ->; [|done].
    apply not_true_iff_false. intros HS. by apply (recover_name_not_suffix w p).
  - unfold recover_name. repeat (apply Forall_app; split); try done; [..|by apply digits_ne|];
      repeat constructor; done.
Qed.

(** *** The loop over the directory *)

Section entries.
Context `{UU : !UuidLib} `{UL : !UuidLaw}.
Context (id : bytes) (objs : gmap bytes bytes) (ps : list piece) (k : Z) (opj : list LogRecord).
Context (opt : ScanOptions).
Context (Hc : chained 0 ps) (HR : Forall (stream_rec id) (pieces_recs ps ++ opj)) (Hk : is_u64 k).

(** The open file is the one named after [k]. *)
Let on := FormatStreamFileName k 0 false.

(** An entry of the directory the loop has not visited yet. *)
Definition entry_ok (w : World) (ent : bytes * Entry) : Prop :=
  match ParseStreamPath ent.1 with
  | Ok (_, _, true) => exists p f, p ∈ ps /\ ent = (sealed_name p, EFile f)
  | Ok (_, _, false) => exists f, ent = (on, EFile f) /\ left_over w on opj
  | Err _ => True
  end.

(** What the scan of the open file has established. *)
Definition opened (w : World) (sw : streamWriter) : Prop :=
  sw_openFrom sw = k /\ sw_recCount sw = Z.of_nat (length opj) /\
  exists f, w_dir w !! on = Some (EFile f) /\ f_synced f = length (f_data f) /\
    (f_data f = segment_bytes opj \/ f_data f = [] /\ opj = []).

(** The progress of the loop from [(w, sw)] to [(w', sw')] over the entries [L]. *)
Record scanned_entries (L : list (bytes * Entry)) (w : World) (sw : streamWriter) (w' : World) (sw' : streamWriter)
    : Prop := {
  sc_faults : no_faults w';
  sc_now : w_now w' = w_now w;
  sc_files n r : ParseStreamPath n = Ok r -> n <> on -> w_dir w' !! n = w_dir w !! n;
  sc_metas : metas_inv id objs sw' ps;
  sc_same : sw_streamID sw' = sw_streamID sw /\ sw_evicted sw' = sw_evicted sw /\
    sw_pending sw' = sw_pending sw /\ sw_discovered sw' = sw_discovered sw;
  sc_more x : x ∈ (me_FromSeq <$> sw_sealed sw) -> x ∈ (me_FromSeq <$> sw_sealed sw');
  sc_all p : p ∈ ps -> sealed_name p ∈ L.*1 ->
    pc_from p ∈ (me_FromSeq <$> sw_sealed sw') /\ pc_to p <= sw_lastSeq sw';
  sc_last : sw_lastSeq sw <= sw_lastSeq sw' <= Z.max (sw_lastSeq sw) (top (end_to 0 ps) opj);
  sc_open : if decide (on ∈ L.*1) then opened w' sw'
            else sw_openFrom sw' = sw_openFrom sw /\ sw_recCount sw' = sw_recCount sw /\
                 w_dir w' !! on = w_dir w !! on;
}.

Lemma parse_on : ParseStreamPath on = Ok (k, 0, false).
Proof. by apply parse_open. Qed.

Lemma piece_name_ne p : p ∈ ps -> sealed_name p <> on.
Proof.
  intros Hp HE. pose proof parse_on as H. apply Forall_app in HR as [HRp _].
  rewrite <-HE, parse_sealed in H; [done|]. by eapply pieces_u64.
Qed.

(** A step over an entry that is not the open file. *)
Lemma scanned_skip L n e w sw w' sw' :
  (forall p, p ∈ ps -> n <> sealed_name p) -> n <> on ->
  scanned_entries L w sw w' sw' -> scanned_entries ((n, e) :: L) w sw w' sw'.
Proof.
  intros Hn Ho []. split; try done.
  - intros p Hp [HE|Hin]%elem_of_cons; [by destruct (Hn p Hp)|auto].
  - cbn [fmap list_fmap fst]. destruct (decide (on ∈ L.*1)) as [Hin|Hin].
    + rewrite decide_True in * by (try done; by right). done.
    + rewrite decide_False in * by (try done; rewrite elem_of_cons; naive_solver). done.
Qed.

Lemma scanned_sealed L p e w sw w' sw' :
  p ∈ ps -> pc_from p ∉ (me_FromSeq <$> sw_sealed sw) ->
  scanned_entries L w
    (raise_lastSeq (set_sealed sw (sw_sealed sw ++ [mkStreamMeta (pc_from p) (pc_to p) 0 (sealed_name p) []])) (pc_to p))
    w' sw' ->
  scanned_entries ((sealed_name p, e) :: L) w sw w' sw'.
Proof.
  intros Hp Hnew HS. set (sw1 := raise_lastSeq _ (pc_to p)) in HS.
  assert (H1 : sw_streamID sw1 = sw_streamID sw /\ sw_evicted sw1 = sw_evicted sw /\ sw_pending sw1 = sw_pending sw /\
    sw_discovered sw1 = sw_discovered sw /\ sw_openFrom sw1 = sw_openFrom sw /\ sw_recCount sw1 = sw_recCount sw /\
    sw_lastSeq sw1 = Z.max (sw_lastSeq sw) (pc_to p)).
  { unfold sw1, raise_lastSeq. cbn. destruct (_ <? _) eqn:E; zify_bool; cbn; split_and!; try done; lia. }
  assert (HF1 : me_FromSeq <$> sw_sealed sw1 = (me_FromSeq <$> sw_sealed sw) ++ [pc_from p]).
  { unfold sw1. rewrite raise_lastSeq_sealed. cbn. by rewrite fmap_app. }
  destruct H1 as (Hi & He & Hpe & Hd & Ho & Hr & Hl).
  destruct (chained_elem _ _ _ Hc Hp) as [_ Hle]. pose proof (top_ge (end_to 0 ps) opj) as Hge.
  assert (HU : forall p, p ∈ ps -> is_u64 (pc_from p) /\ is_u64 (pc_to p)).
  { intros p' Hp'. apply Forall_app in HR as [HRp _]. by eapply pieces_u64. }
  destruct HS. split; try done.
  - by rewrite <-Hi, <-He, <-Hpe, <-Hd.
  - intros x Hx. apply sc_more0. rewrite HF1. apply elem_of_app. by left.
  - intros p' Hp' [HE|Hin]%elem_of_cons; [|auto].
    assert (p' = p) as ->.
    { eapply chained_from_inj; [done..|]. apply (f_equal ParseStreamPath) in HE. cbn [fst] in HE.
      rewrite (parse_sealed p), (parse_sealed p') in HE by auto. by injection HE. }
    split; [apply sc_more0; rewrite HF1; apply elem_of_app; right; left|]. cbn in sc_last0. lia.
  - lia.
  - cbn [fmap list_fmap fst]. pose proof (piece_name_ne p Hp). rewrite Ho, Hr in sc_open0.
    destruct (decide (on ∈ L.*1)) as [Hin|Hin].
    + rewrite decide_True by (by right). done.
    + rewrite decide_False by (rewrite elem_of_cons; naive_solver). done.
Qed.

Lemma note_open_fields recs meta sw :
  let sw' := note_open k recs meta sw in
  sw_streamID sw' = sw_streamID sw /\ sw_evicted sw' = sw_evicted sw /\ sw_pending sw' = sw_pending sw /\
  sw_discovered sw' = sw_discovered sw /\ sw_sealed sw' = sw_sealed sw /\ sw_uploadedTo sw' = sw_uploadedTo sw /\
  sw_openFrom sw' = k /\ sw_recCount sw' = sm_RecordCount meta /\
  sw_lastSeq sw' = Z.max (sw_lastSeq sw) (match last recs with Some r => lr_StreamSeq r | None => sw_lastSeq sw end).
Proof.
  cbv zeta. unfold note_open. destruct recs as [|r0 recs]; [cbn; split_and!; try done; lia|].
  destruct (last (r0 :: recs)) as [rl|] eqn:El; [|by apply last_None in El].
  cbn. destruct (_ || _); cbn; unfold raise_lastSeq; cbn;
    (destruct (sw_lastSeq sw <? lr_StreamSeq rl) eqn:E; cbn; (destruct (_ <? lr_Position rl); cbn);
     zify_bool; split_and!; try done; lia).
Qed.

Lemma scanned_open L e w w1 sw sz w' sw' f :
  no_faults w1 -> w_now w1 = w_now w ->
  (forall n, n <> on -> n <> recover_name w on -> w_dir w1 !! n = w_dir w !! n) ->
  w_dir w1 !! on = Some (EFile f) -> f_synced f = length (f_data f) ->
  (f_data f = segment_bytes opj \/ f_data f = [] /\ opj = []) -> on ∉ L.*1 ->
  scanned_entries L w1 (note_open k opj (scan_meta on opj sz) sw) w' sw' ->
  scanned_entries ((on, e) :: L) w sw w' sw'.
Proof.
  intros Hw1 Hn1 Hfr Hf Hs Hd Hnin HS.
  destruct (note_open_fields opj (scan_meta on opj sz) sw) as (Hi & He & Hpe & Hdi & Hse & _ & Ho & Hr & Hl).
  assert (HL : sw_lastSeq sw <= sw_lastSeq (note_open k opj (scan_meta on opj sz) sw) <=
               Z.max (sw_lastSeq sw) (top (end_to 0 ps) opj)).
  { rewrite Hl. split; [lia|]. destruct (last opj) as [rl|] eqn:El; [|lia].
    pose proof (top_elem (end_to 0 ps) opj rl ltac:(by apply last_Some_elem_of)). lia. }
  destruct HS. rewrite Hi, He, Hpe, Hdi in sc_same0. rewrite Hse in sc_more0. split; try done.
  - congruence.
  - intros n r HP Hn. erewrite sc_files0 by done. apply Hfr; [done|]. intros ->.
    apply (recover_name_unparsed w on r); [done|apply FormatStreamFileName_no_slash|done].
  - intros p Hp [HE|Hin]%elem_of_cons; [by destruct (piece_name_ne p Hp)|auto].
  - lia.
  - cbn [fmap list_fmap fst]. rewrite decide_True by left. rewrite decide_False in sc_open0 by done.
    destruct sc_open0 as (Ho' & Hr' & Hd'). split_and!; [congruence|by rewrite Hr', Hr|].
    exists f. by rewrite Hd'.
Qed.

Lemma recover_entries_ok L : forall w sw,
  no_faults w -> NoDup L.*1 -> Forall (entry_ok w) L -> metas_inv id objs sw ps ->
  (forall p, p ∈ ps -> sealed_name p ∈ L.*1 -> pc_from p ∉ (me_FromSeq <$> sw_sealed sw)) ->
  exists w' sw', recover_entries w sw opt L = (w', sw', Ok ()) /\ scanned_entries L w sw w' sw'.
Proof.
  induction L as [|[n e] L IH]; intros w sw Hw HND HF HM Hnew.
  { exists w, sw. split; [done|]. split; try done; [|lia].
    intros p _ H. by apply not_elem_of_nil in H. }
  cbn [fmap list_fmap fst] in HND, Hnew. apply NoDup_cons in HND as [Hn HND]. apply Forall_cons in HF as [He HF].
  assert (HU : forall p, p ∈ ps -> is_u64 (pc_from p) /\ is_u64 (pc_to p)).
  { intros p' Hp'. apply Forall_app in HR as [HRp _]. by eapply pieces_u64. }
  assert (HnewL : forall p, p ∈ ps -> sealed_name p ∈ L.*1 -> pc_from p ∉ (me_FromSeq <$> sw_sealed sw))
    by (intros p Hp Hin; apply Hnew; [done|by right]).
  unfold entry_ok in He. cbn [fst] in He. cbn [recover_entries].
  destruct (ParseStreamPath n) as [[[k' t'] []]|er] eqn:EP.
  - destruct He as (p & f & Hp & [= -> ->]). rewrite parse_sealed in EP by auto. injection EP as <- <-.
    assert (Hpn : pc_from p ∉ (me_FromSeq <$> sw_sealed sw)) by (apply Hnew; [done|left]).
    destruct (IH w (raise_lastSeq (set_sealed sw (sw_sealed sw ++ [mkStreamMeta (pc_from p) (pc_to p) 0 (sealed_name p) []])) (pc_to p)))
      as (w' & sw' & HE & HS); try done.
    + apply raise_lastSeq_metas. by apply add_meta_inv.
    + intros p' Hp' Hin. rewrite raise_lastSeq_sealed. cbn. rewrite fmap_app. intros [?|HE]%elem_of_app; [by eapply HnewL|].
      apply list_elem_of_singleton in HE. cbn in HE. apply Hn.
      assert (p' = p) as <- by (by eapply chained_from_inj). done.
    + exists w', sw'. split; [done|]. by apply scanned_sealed.
  - destruct He as (f & [= -> ->] & HL). rewrite parse_on in EP. injection EP as <- <-.
    assert (Forall log_ok opj) as Hok.
    { apply Forall_app in HR as [_ HRo]. eapply Forall_impl; [exact HRo|]. by intros r [? _]. }
    destruct (@scan_left_over_frame LogRecord log_format w on opj opt log_ok_inhabited Hw Hok HL)
      as (w1 & sz & f1 & HSc & _ & Hf1 & Hs1 & Hd1 & Hw1 & Hn1 & Hfr).
    unfold ScanLogSegmentFile. rewrite HSc.
    destruct (note_open_fields opj (scan_meta on opj sz) sw) as (_ & _ & _ & Hdi & Hse & Hup & _).
    destruct (IH w1 (note_open k opj (scan_meta on opj sz) sw)) as (w' & sw' & HE & HS); try done.
    + apply Forall_forall. intros [n' e'] Hin. rewrite Forall_forall in HF. specialize (HF _ Hin).
      unfold entry_ok in *. cbn [fst] in *. destruct (ParseStreamPath n') as [[[? ?] []]|]; try done.
      destruct HF as (f' & [= -> ->] & _). destruct Hn. apply list_elem_of_fmap. by exists (on, EFile f').
    + destruct HM. split; rewrite ?Hse, ?Hup, ?Hdi; done.
    + by rewrite Hse.
    + exists w', sw'. split; [done|]. by eapply scanned_open.
  - destruct (IH w sw) as (w' & sw' & HE & HS); try done. exists w', sw'. split; [by destruct e|].
    apply scanned_skip; [..|done]; [intros p Hp ->; by rewrite parse_sealed in EP by auto|].
    intros ->. by rewrite parse_on in EP.
Qed.

End entries.

(** ** A restart *)

Section restart.
Context `{UU : !UuidLib} `{UL : !UuidLaw} {B : Type} `{BK : !Backend B} `{BL : !BackendLaw B}.
Context (id : bytes) (w w' : World) (b : B) (sw : streamWriter) (ps : list piece) (op : list LogRecord).
Context (Hid : wf_uuid id) (HI : stream_inv id (w_dir w) (bk_objects b) sw ps op).
Context (HC : crash w w') (Hw' : no_faults w').

(** No header of an open file is torn: it is written with the first records. *)
Definition open_headers (w : World) : Prop :=
  forall n f k t, w_dir w !! n = Some (EFile f) -> ParseStreamPath n = Ok (k, t, false) ->
    f_data f = [] \/ (16 <= length (f_data f))%nat.
Context (HH : open_headers w').

Let X := op ++ sw_pending sw.
Let on := name_of X.

Lemma X_recs : Forall (stream_rec id) X.
Proof. by destruct (proj1 (Forall_app _ _ _) (v_recs _ _ _ _ _ _ HI)) as [_ ?]. Qed.

Lemma on_parse : ParseStreamPath on = Ok (first_of X, 0, false).
Proof. apply parse_open. eapply first_u64, X_recs. Qed.

Lemma crash_exists n e' : w_dir w' !! n = Some e' -> exists e, w_dir w !! n = Some e /\ crash_entry e e'.
Proof. intros Hn. specialize (HC n). rewrite Hn in HC. destruct (w_dir w !! n) as [e|]; [eauto|done]. Qed.

Lemma crash_sealed p : p ∈ ps -> w_dir w' !! sealed_name p = Some (durable_file (piece_bytes p)).
Proof.
  intros Hp. pose proof (proj1 (Forall_forall _ _) (v_files _ _ _ _ _ _ HI) _ Hp) as Hf.
  destruct (crash_lookup _ _ _ _ HC Hf) as (m & Hm & ->). cbn [f_data f_synced] in Hm.
  assert (m = length (piece_bytes p)) as -> by lia. unfold durable_file. cbn [f_data].
  by rewrite take_ge.
Qed.

Lemma crash_names n e k t bl :
  w_dir w' !! n = Some e -> ParseStreamPath n = Ok (k, t, bl) ->
  if bl then exists p, p ∈ ps /\ n = sealed_name p else X <> [] /\ n = on.
Proof. intros Hn HP. destruct (crash_exists _ _ Hn) as (e0 & Hn0 & _). by apply (v_names _ _ _ _ _ _ HI n e0 k t bl). Qed.

(** The open file before the crash. *)
Lemma open_before e : w_dir w !! on = Some e ->
  exists f, e = EFile f /\ (f_data f = segment_bytes op \/ f_data f = [] /\ op = []).
Proof.
  intros He. pose proof (v_open _ _ _ _ _ _ HI) as HO. destruct op as [|r l].
  - destruct HO as [_ HO]. destruct (HO e He) as (f & -> & [Hd|Hd] & _); exists f; split; try done; [by right|by left].
  - destruct HO as (_ & Ho & _ & f & Hf & Hd & _). exists f. unfold open_name in Hf. rewrite Ho in Hf.
    change (w_dir w !! on = Some (EFile f)) in Hf. split; [congruence|by left].
Qed.

Lemma open_cut : exists j, forall e, w_dir w' !! on = Some e -> exists f, e = EFile f /\ left_over w' on (take j op).
Proof.
  destruct (w_dir w !! on) as [e0|] eqn:E0.
  - destruct (open_before _ E0) as (f & -> & Hd).
    destruct (crash_file_records w w' on f op HC E0 Hd) as [j Hj].
    + pose proof X_recs as HF. apply Forall_app in HF as [HF _].
      eapply Forall_impl; [exact HF|]. by intros r [? _].
    + intros f' Hf'. eapply HH; [done|apply on_parse].
    + exists j. intros e He. destruct (crash_exists _ _ He) as (e1 & He1 & HCe). rewrite E0 in He1.
      injection He1 as <-. destruct e as [f'|]; [|done]. by exists f'.
  - exists 0%nat. intros e He. destruct (crash_exists _ _ He) as (e1 & He1 & _). congruence.
Qed.

Lemma open_exists j : take j op <> [] -> is_Some (w_dir w' !! on).
Proof.
  intros Hne. pose proof (v_open _ _ _ _ _ _ HI) as HO. destruct op as [|r l]; [by rewrite take_nil in Hne|].
  destruct HO as (_ & Ho & _ & f & Hf & _). unfold open_name in Hf. rewrite Ho in Hf.
  change (w_dir w !! on = Some (EFile f)) in Hf. destruct (crash_lookup _ _ _ _ HC Hf) as (m & _ & ->). eauto.
Qed.

Lemma fresh_metas : metas_inv id (bk_objects b) (new_writer id) ps.
Proof.
  split; cbn; try done; [constructor|apply (v_objs _ _ _ _ _ _ HI)|].
  apply end_to_ge, (v_chain _ _ _ _ _ _ HI).
Qed.

Lemma listed_ok j :
  (forall e, w_dir w' !! on = Some e -> exists f, e = EFile f /\ left_over w' on (take j op)) ->
  Forall (entry_ok ps (first_of X) (take j op) w') (dir_entries (w_dir w')).
Proof.
  intros HJ. apply Forall_forall. intros [n e] Hn%dir_entries_elem. unfold entry_ok. cbn [fst].
  destruct (ParseStreamPath n) as [[[k t] []]|] eqn:EP; [| |done];
    pose proof (crash_names _ _ _ _ _ Hn EP) as HN.
  - destruct HN as (p & Hp & ->). rewrite crash_sealed in Hn by done. injection Hn as <-.
    exists p. unfold durable_file. eauto.
  - destruct HN as [_ ->]. destruct (HJ _ Hn) as (f & -> & HL). by exists f.
Qed.

(** The state of the writer and the directory after the scan of the files. *)
Lemma recover_scan opt :
  exists j w1 sw1, recover_entries w' (new_writer id) opt (dir_entries (w_dir w')) = (w1, sw1, Ok ()) /\
    scanned_entries id (bk_objects b) ps (first_of X) (take j op) (dir_entries (w_dir w')) w' (new_writer id) w1 sw1.
Proof.
  destruct open_cut as [j HJ]. exists j. assert (HX := X_recs). apply Forall_app in HX as [Hop _].
  assert (Hps : Forall (stream_rec id) (pieces_recs ps)) 
    by (by destruct (proj1 (Forall_app _ _ _) (v_recs _ _ _ _ _ _ HI)) as [? _]).
  apply (recover_entries_ok id (bk_objects b) ps (first_of X) (take j op)); try done.
  - apply (v_chain _ _ _ _ _ _ HI).
  - apply Forall_app. split; [done|]. by apply Forall_take.
  - eapply first_u64, X_recs.
  - apply dir_entries_NoDup.
  - by apply listed_ok.
  - apply fresh_metas.
  - intros p _ _ H. by apply not_elem_of_nil in H.
Qed.



(** *** After the scan *)

Section scanned.
Context (j : nat) (w1 : World) (sw1 : streamWriter).
Let opj := take j op.
Context (HS : scanned_entries id (bk_objects b) ps (first_of X) opj (dir_entries (w_dir w')) w' (new_writer id) w1 sw1).

Lemma on_listed : on ∈ (dir_entries (w_dir w')).*1 <-> is_Some (w_dir w' !! on).
Proof.
  rewrite list_elem_of_fmap. split.
  - intros ([n e] & -> & Hn%dir_entries_elem). by exists e.
  - intros [e He]. exists (on, e). split; [done|]. by apply dir_entries_elem.
Qed.

Lemma scan_on e : w_dir w1 !! on = Some e -> X <> [] /\ opened (first_of X) opj w1 sw1.
Proof.
  intros He. pose proof (sc_open _ _ _ _ _ _ _ _ _ _ HS) as HO. fold on in HO.
  change (FormatStreamFileName (first_of X) 0 false) with on in HO.
  destruct (decide (on ∈ _)) as [Hin|Hin].
  - split; [|done]. apply on_listed in Hin as [e' He']. by destruct (crash_names _ _ _ _ _ He' on_parse).
  - exfalso. apply Hin, on_listed. destruct HO as (_ & _ & <-). eauto.
Qed.

Lemma scan_dir_ok : dir_ok (w_dir w1) ps op sw.
Proof.
  assert (HU : forall p, p ∈ ps -> ParseStreamPath (sealed_name p) = Ok (pc_from p, pc_to p, true) /\ sealed_name p <> on).
  { intros p Hp. pose proof (parse_sealed p (inv_u64 _ _ _ _ _ _ _ HI Hp)) as HP. split; [done|].
    intros HE. rewrite HE, on_parse in HP. done. }
  split.
  - apply Forall_forall. intros p Hp. destruct (HU p Hp) as [HP Hne].
    erewrite (sc_files _ _ _ _ _ _ _ _ _ _ HS) by done. by apply crash_sealed.
  - intros n e k t bl Hn HP. destruct (decide (n = on)) as [->|Hne].
    + rewrite on_parse in HP. injection HP as <- <- <-. by destruct (scan_on _ Hn).
    + erewrite (sc_files _ _ _ _ _ _ _ _ _ _ HS) in Hn by done. by eapply crash_names.
Qed.

Lemma scan_last : end_to 0 ps <= sw_lastSeq sw1 <= top 0 (pieces_recs ps ++ opj).
Proof.
  pose proof (v_chain _ _ _ _ _ _ HI) as Hc. pose proof (sc_last _ _ _ _ _ _ _ _ _ _ HS) as HL. cbn in HL.
  pose proof (end_to_ge 0 ps Hc). pose proof (top_ge (end_to 0 ps) opj).
  rewrite top_app, chained_top by done. split; [|lia].
  destruct (end_to_last 0 ps) as [->|(p & Hp & ->)]; [lia|].
  eapply (sc_all _ _ _ _ _ _ _ _ _ _ HS); [done|].
  apply list_elem_of_fmap. exists (sealed_name p, durable_file (piece_bytes p)). split; [done|].
  by apply dir_entries_elem, crash_sealed.
Qed.


Context (A : list LogRecord).
Let G := newer 0 (pieces_recs ps ++ X).
Context (HAG : forall r, r ∈ A -> r ∈ G) (HA : forall t, end_to 0 ps <= t -> newer t A = after t G).

Lemma opened_ok sw3 :
  same_files sw1 sw3 -> sw_lastSeq sw3 = sw_lastSeq sw1 ->
  open_ok (w_dir w1) (set_pending sw3 (after (sw_lastSeq sw1) A)) opj.
Proof.
  intros (_ & _ & _ & Ho & Hr) Hl. set (U := after (sw_lastSeq sw1) A).
  pose proof (v_chain _ _ _ _ _ _ HI) as Hc. pose proof (v_rest _ _ _ _ _ _ HI) as Hrest.
  destruct (catch_up_first ps op (sw_pending sw) A j (sw_lastSeq sw1) Hc Hrest HA HAG scan_last) as [HX0 HX1].
  fold X U in HX0, HX1. change (take j op) with opj in HX0, HX1.
  pose proof (sc_open _ _ _ _ _ _ _ _ _ _ HS) as HO.
  change (FormatStreamFileName (first_of X) 0 false) with on in HO.
  enough (HG : forall l, l = opj -> open_ok (w_dir w1) (set_pending sw3 U) l) by (by apply HG).
  intros [|r l] Ej; rewrite <-Ej in HX0, HX1.
  - cbn [open_ok sw_pending set_pending sw_recCount]. split.
    + rewrite Hr. destruct (decide _); destruct HO as (_ & -> & _); [by rewrite <-Ej|done].
    + intros e He. cbn [app] in *. destruct (decide (X = [])) as [E|E].
      * rewrite HX0 in He by done. exfalso. destruct (scan_on e) as [? _]; [|done].
        unfold on. by rewrite E.
      * destruct (HX1 E) as [_ HF]. unfold name_of in He. rewrite HF in He. fold (name_of X) in He.
        destruct (scan_on _ He) as [_ (_ & _ & f & Hf & Hs & Hd)]. change (w_dir w1 !! name_of X = Some (EFile f)) in Hf.
        rewrite He in Hf. injection Hf as ->.
        rewrite <-Ej in Hd. exists f. split_and!; [done| |lia]. destruct Hd as [->|[-> _]]; [right|by left].
        unfold segment_bytes. by rewrite encode_all_nil, app_nil_r.
  - assert (is_Some (w_dir w' !! on)) as Hex by (apply (open_exists j); fold opj; by rewrite <-Ej).
    rewrite decide_True in HO by (by apply on_listed). destruct HO as (Hk & Hn & f & Hf & Hs & Hd).
    assert (X <> []) as HXne by (destruct Hex as [e' He']; by destruct (crash_names _ _ _ _ _ He' on_parse)).
    destruct (HX1 HXne) as [_ HF]. cbn in HF.
    cbn [open_ok sw_pending set_pending sw_recCount sw_openFrom sw_lastSeq]. rewrite Hr, Ho, Hl. split_and!; [by rewrite Ej|congruence| |].
    + rewrite Ej. apply (catch_up_top ps op (sw_pending sw) A j); try done; [apply scan_last|].
      fold opj. by rewrite <-Ej.
    + exists f. unfold open_name. cbn [sw_openFrom set_pending]. rewrite Ho, Hk. split_and!; [done| |lia].
      rewrite <-Ej in Hd. by destruct Hd as [Hd|[_ ?]].
Qed.

Lemma recovered_inv b3 sw3 :
  same_files sw1 sw3 -> sw_lastSeq sw3 = sw_lastSeq sw1 -> metas_inv id (bk_objects b3) sw3 ps ->
  let sw4 := set_pending sw3 (after (sw_lastSeq sw1) A) in
  stream_inv id (w_dir w1) (bk_objects b3) sw4 ps opj /\
  newer 0 (pieces_recs ps ++ opj ++ sw_pending sw4) = G.
Proof.
  intros HSF Hl HM. cbv zeta. cbn [sw_pending set_pending]. set (U := after (sw_lastSeq sw1) A).
  pose proof (v_chain _ _ _ _ _ _ HI) as Hc. pose proof (v_rest _ _ _ _ _ _ HI) as Hrest.
  pose proof (v_recs _ _ _ _ _ _ HI) as HR. apply Forall_app in HR as [HRp HRx].
  pose proof scan_last as HL. pose proof (opened_ok sw3 HSF Hl) as HO. fold U in HO.
  destruct (sc_same _ _ _ _ _ _ _ _ _ _ HS) as (Hi & He & _). cbn in Hi, He.
  destruct HSF as (Hi3 & He3 & _ & Ho3 & _).
  destruct (catch_up_first ps op (sw_pending sw) A j (sw_lastSeq sw1) Hc Hrest HA HAG HL) as [HX0 HX1].
  fold X U in HX0, HX1. change (take j op) with opj in HX0, HX1.
  assert (HUX : forall r, r ∈ opj ++ U -> r ∈ X).
  { intros r [Hr|Hr]%elem_of_app; [|by eapply catch_up_in].
    apply elem_of_app. left. by eapply elem_of_take in Hr as (? & ? & _); eapply list_elem_of_lookup_2. }
  assert (HP : forall P : LogRecord -> Prop, Forall P X -> Forall P (opj ++ U)).
  { intros P HPX. apply Forall_forall. intros r Hr. rewrite Forall_forall in HPX. auto. }
  split.
  - destruct HM, scan_dir_ok as [Hfs Hns].
    split; cbn [sw_pending set_pending sw_streamID sw_evicted sw_lastSeq sw_sealed sw_discovered sw_uploadedTo]; try done.
    + congruence.
    + congruence.
    + apply Forall_app. auto.
    + auto.
    + destruct (decide (X = [])) as [E|E]; [by rewrite HX0|]. destruct (HX1 E) as [_ ->]. apply HP.
      apply (v_first _ _ _ _ _ _ HI).
    + intros n e k t bl Hn HPa. specialize (Hns _ _ _ _ _ Hn HPa). destruct bl; [done|].
      destruct Hns as [HE ->]. destruct (HX1 HE) as [? HF]. split; [done|]. unfold name_of. by rewrite HF.
    + rewrite Hl. pose proof (end_to_ge 0 ps Hc). split; [lia|]. intros Ej. rewrite Ej, app_nil_r in HL.
      rewrite chained_top in HL by done. lia.
    + cbn [sw_openFrom set_pending]. rewrite Ho3. pose proof (sc_open _ _ _ _ _ _ _ _ _ _ HS) as HOp.
      destruct (decide _); destruct HOp as (-> & _); [|done]. eapply first_u64, X_recs.
  - rewrite app_assoc. by apply (catch_up_log ps op (sw_pending sw) A j).
Qed.

End scanned.

(** Recovery restores the log of the stream. *)
Lemma recover_inv agg opt :
  let G := newer 0 (pieces_recs ps ++ X) in
  let A := filter (fun r => lr_StreamID r = id) agg in
  (forall r, r ∈ A -> r ∈ G) -> (forall t, end_to 0 ps <= t -> newer t A = after t G) ->
  exists w2 b2 sw2 op2, recoverStream w' b (new_writer id) agg opt = (w2, b2, sw2, Ok ()) /\
    no_faults w2 /\ w_now w2 = w_now w' /\ only_stream id b b2 /\
    stream_inv id (w_dir w2) (bk_objects b2) sw2 ps op2 /\ sw_pending sw2 = [] /\
    newer 0 (pieces_recs ps ++ op2) = G.
Proof.
  cbv zeta. intros HAG HA. unfold recoverStream, os_ReadDir. rewrite next_outcome_ok by done.
  change (omap _ _) with (dir_entries (w_dir w')).
  destruct (recover_scan opt) as (j & w1 & sw1 & -> & HS).
  destruct (sc_same _ _ _ _ _ _ _ _ _ _ HS) as (Hi1 & He1 & Hp1 & Hd1). cbn in Hi1, He1, Hp1, Hd1.
  pose proof (v_chain _ _ _ _ _ _ HI) as Hc. pose proof (sc_faults _ _ _ _ _ _ _ _ _ _ HS) as Hw1.
  pose proof (proj1 (proj1 (Forall_app _ _ _) (v_recs _ _ _ _ _ _ HI))) as HRp.
  pose proof (scan_dir_ok j w1 sw1 HS) as HD. pose proof (scan_last j w1 sw1 HS) as HL.
  destruct (discoverRemoteSealedLocked w1 b sw1) as [[w2 b2] sw2] eqn:ED.
  destruct (discover_metas id w1 b sw1 sw ps op w2 b2 sw2 Hid Hw1 Hc HRp HD
    (sc_metas _ _ _ _ _ _ _ _ _ _ HS) Hi1 ED) as (-> & Hb2 & HM2 & HS2 & HL2 & HL2' & _).
  assert (sw_lastSeq sw2 = sw_lastSeq sw1) as HL12 by (destruct HL2'; lia).
  rewrite <-Hb2 in HM2.
  assert (uploadable id w1 b2 sw2 ps) as HU2.
  { destruct HS2 as (Hi2 & _). destruct HD as [Hfs _]. split_and!; try done. congruence. }
  destruct (uploadPendingSealedLocked w1 b2 sw2) as [[[w3 b3] sw3] r3] eqn:EU.
  destruct (upload_metas_ok id _ w1 b2 sw2 ps _ _ _ _ _ HU2 EU) as (-> & HU3 & HS3 & HL3 & _ & HO3).
  destruct HU3 as (_ & _ & _ & _ & HM3).
  pose proof (same_files_trans _ _ _ HS2 HS3) as HS13. pose proof HS13 as (Hi3 & _ & Hp3 & _).
  assert (sw_pending sw3 ++ catch_up sw3 agg = after (sw_lastSeq sw1) (filter (fun r => lr_StreamID r = id) agg)) as ->.
  { rewrite Hp3, Hp1. cbn [app]. unfold catch_up, after. rewrite Hi3, Hi1, HL3, HL12.
    rewrite list_filter_filter. apply list_filter_iff. intros r. tauto. }
  destruct (recovered_inv j w1 sw1 HS _ HAG HA b3 sw3 HS13 ltac:(congruence) HM3) as [HI4 HG4].
  destruct (flush_inv id w1 _ _ ps _ Hw1 HI4) as (w5 & sw5 & -> & Hw5 & Hn5 & _ & Hp5 & HI5 & _).
  exists w5, b3, sw5. eexists. split_and!; try done.
  - rewrite Hn5. apply (sc_now _ _ _ _ _ _ _ _ _ _ HS).
  - intros k Hk. rewrite HO3 by done. by rewrite Hb2.
Qed.

End restart.
