(* ===== verification/WalStreamStore.v ===== *)
(** * WalStreamStore: the per-stream files of all streams

    The invariant of WalStreamInv.v for every stream of a [StreamStore], kept by
    its operations and by restarts, and what follows from it: reading a stream
    yields its log, and an aggregated segment is deleted only when its records
    are in sealed files. *)

From S2P Require Import Prelude Bytes WalRecord FileSys WalSegment WalStore WalPaths ObjectStore WalStream.
From S2P Require Import WalStreamInv WalStreamRecover.

#[local] Open Scope Z_scope.
#[local] Open Scope list_scope.

Section store.
Context `{UU : !UuidLib} `{UL : !UuidLaw} {B : Type} `{BK : !Backend B} `{BL : !BackendLaw B}.
Implicit Types (y : Sys B) (s : StreamStore) (id sid : bytes) (G : bytes -> list LogRecord).

Definition stream_dir y id : gmap bytes Entry := default ∅ (sy_streams y !! uuid_String id).

(** A stream without a writer is as good as one with a new writer. *)
Definition writer_of s id : streamWriter := default (new_writer id) (ss_streams s !! uuid_String id).

(** The stream has pieces, an open file and pending records that read as [l]. *)
Definition stream_holds y s id (l : list LogRecord) : Prop :=
  exists ps op, stream_inv id (stream_dir y id) (bk_objects (sy_backend y)) (writer_of s id) ps op /\
    newer 0 (pieces_recs ps ++ op ++ sw_pending (writer_of s id)) = l.

Definition uuid_text sid : Prop := exists id, wf_uuid id /\ sid = uuid_String id.

Record store_inv y s G : Prop := {
  ti_faults : sy_outcomes y = [];
  ti_writers sid sw : ss_streams s !! sid = Some sw -> uuid_text sid;
  ti_dirs sid d : sy_streams y !! sid = Some d -> uuid_text sid;
  ti_segments seg reqs : ss_segmentReqs s !! seg = Some reqs -> has_prefix SegmentsPrefix seg = true;
  ti_streams id : wf_uuid id -> stream_holds y s id (G id);
}.

Lemma uuid_inj id id' : wf_uuid id -> wf_uuid id' -> uuid_String id = uuid_String id' -> id = id'.
Proof.
  intros H H' HE. apply (f_equal uuid_Parse) in HE. rewrite !uuid_parse_string in HE by done. congruence.
Qed.

(** ** How the files of a stream change *)

(** The largest sequence number in the name of a sealed file. *)
Definition sealed_to (d : gmap bytes Entry) : Z :=
  foldr Z.max 0
    (omap (fun n => match ParseStreamPath n with Ok (_, t, true) => Some t | _ => None end) (fst <$> map_to_list d)).

Lemma max_of (l : list Z) b : 0 <= b -> Forall (fun t => t <= b) l -> b = 0 \/ b ∈ l -> foldr Z.max 0 l = b.
Proof.
  intros Hb HF Hin. assert (H0 : forall l, 0 <= foldr Z.max 0 l) by (induction l0; cbn; lia).
  assert (Hle : foldr Z.max 0 l <= b) by (clear Hin; induction HF; cbn; lia).
  destruct Hin as [->|Hin]; [specialize (H0 l); lia|].
  assert (b <= foldr Z.max 0 l); [|lia]. clear -Hin. induction Hin; cbn; lia.
Qed.

Lemma sealed_to_inv id d objs sw ps op : stream_inv id d objs sw ps op -> sealed_to d = end_to 0 ps.
Proof.
  intros HI. pose proof (v_chain _ _ _ _ _ _ HI) as Hc. apply max_of.
  - by apply end_to_ge.
  - apply Forall_forall. intros t. rewrite list_elem_of_omap. intros (n & Hn & Ht).
    apply list_elem_of_fmap in Hn as ([n' e] & -> & He%elem_of_map_to_list). cbn [fst] in Ht.
    destruct (ParseStreamPath n') as [[[k t'] []]|] eqn:EP; try done. injection Ht as ->.
    destruct (v_names _ _ _ _ _ _ HI _ _ _ _ _ He EP) as (p & Hp & ->).
    rewrite parse_sealed in EP by (by eapply inv_u64). injection EP as <- <-. by eapply chained_elem.
  - destruct (end_to_last 0 ps) as [?|(p & Hp & ->)]; [by left|right].
    apply list_elem_of_omap. exists (sealed_name p). rewrite parse_sealed by (by eapply inv_u64). split; [|done].
    apply list_elem_of_fmap. eexists (_, _). split; [done|]. apply elem_of_map_to_list.
    pose proof (v_files _ _ _ _ _ _ HI) as HF. rewrite Forall_forall in HF. by apply HF.
Qed.

(** From one state to a later one: open files grow until they are sealed. *)
Definition dir_grows (d d' : gmap bytes Entry) : Prop := grows d d' (sealed_to d') /\ sealed_to d <= sealed_to d'.

Definition sys_grows y y' : Prop := forall id, wf_uuid id -> dir_grows (stream_dir y id) (stream_dir y' id).

Lemma dir_grows_refl d : dir_grows d d.
Proof. split; [apply grows_refl|done]. Qed.

Lemma sys_grows_refl y y' : sy_streams y' = sy_streams y -> sys_grows y y'.
Proof. intros HE id _. unfold stream_dir. rewrite HE. apply dir_grows_refl. Qed.

Lemma sys_grows_trans y1 y2 y3 : sys_grows y1 y2 -> sys_grows y2 y3 -> sys_grows y1 y3.
Proof.
  intros H1 H2 id Hid. destruct (H1 id Hid) as [G1 L1], (H2 id Hid) as [G2 L2]. split; [by eapply grows_trans|lia].
Qed.

(** What is not the store's: the rest of the data directory and the aggregated
    segments. *)
Definition same_rest y y' : Prop :=
  (forall n, n <> coverage_name -> sy_root y' !! n = sy_root y !! n) /\
  (forall k, has_prefix SegmentsPrefix k = true -> bk_objects (sy_backend y') !! k = bk_objects (sy_backend y) !! k).

(** What every operation but garbage collection and a restart keeps. *)
Definition kept G y s y' s' : Prop :=
  store_inv y' s' G /\ sys_grows y y' /\ same_rest y y' /\ ss_segmentReqs s' = ss_segmentReqs s.

Lemma kept_same G y y' s :
  sy_streams y' = sy_streams y -> same_rest y y' -> store_inv y' s G -> kept G y s y' s.
Proof. intros HE HR HI. split_and!; [done| |done..]. by apply sys_grows_refl. Qed.

Lemma kept_refl G y s : store_inv y s G -> kept G y s y s.
Proof. intros HI. by apply kept_same. Qed.

Lemma same_rest_trans y1 y2 y3 : same_rest y1 y2 -> same_rest y2 y3 -> same_rest y1 y3.
Proof. intros [R1 S1] [R2 S2]. split; intros; by rewrite ?R2, ?S2, ?R1, ?S1 by done. Qed.

Lemma kept_trans G y1 s1 y2 s2 y3 s3 :
  kept G y1 s1 y2 s2 -> (store_inv y2 s2 G -> kept G y2 s2 y3 s3) -> kept G y1 s1 y3 s3.
Proof.
  intros (HI & H1 & R1 & Q1) H2. destruct (H2 HI) as (? & ? & R2 & Q2).
  split_and!; [done|by eapply sys_grows_trans|by eapply same_rest_trans|congruence].
Qed.

(** ** Operations on one writer *)

Lemma put_world_dir y sid (w : World) b sid' :
  default ∅ (sy_streams (set_backend (put_world y sid w) b) !! sid') =
  if decide (sid' = sid) then w_dir w else default ∅ (sy_streams y !! sid').
Proof.
  unfold set_backend, put_world. cbn. destruct (decide (w_dir w = ∅)) as [E|E].
  - destruct (decide (sid' = sid)) as [->|Hne].
    + rewrite lookup_delete_eq. cbn. by rewrite E.
    + by rewrite lookup_delete_ne.
  - destruct (decide (sid' = sid)) as [->|Hne].
    + by rewrite lookup_insert_eq.
    + by rewrite lookup_insert_ne.
Qed.

(** Objects of one stream do not matter to the others. *)
Lemma stream_holds_other id0 id y y' s s' l :
  wf_uuid id0 -> wf_uuid id -> id <> id0 -> stream_holds y s id l ->
  stream_dir y' id = stream_dir y id -> writer_of s' id = writer_of s id ->
  only_stream id0 (sy_backend y) (sy_backend y') -> stream_holds y' s' id l.
Proof.
  intros H0 Hid Hne (ps & op & HI & HL) HD HW HO. exists ps, op. rewrite HD, HW. split; [|done].
  eapply stream_inv_frame; [done|done|]. intros k Hk. apply HO.
  apply not_true_iff_false. intros Hk0. apply Hne. by eapply stream_prefix_other.
Qed.

Lemma on_writer_inv {A} y s G id (f : World -> B -> streamWriter -> World * B * streamWriter * A) (dflt : A) y' s' a :
  wf_uuid id -> store_inv y s G ->
  (forall w b sw w' b' sw' a, f w b sw = (w', b', sw', a) -> moves id w b sw w' b' sw') ->
  on_writer y s (uuid_String id) f dflt = (y', s', a) -> kept G y s y' s'.
Proof.
  intros Hid HI Hf. unfold on_writer.
  destruct (ss_streams s !! uuid_String id) as [sw|] eqn:Es; [|intros [= <- <- <-]; by apply kept_refl].
  destruct (f (stream_world y (uuid_String id)) (sy_backend y) sw) as [[[w b] sw'] a'] eqn:Ef.
  intros [= <- <- <-]. destruct HI. destruct (ti_streams0 id Hid) as (ps & op & HSi & HL).
  assert (HWo : writer_of s id = sw) by (unfold writer_of; by rewrite Es). rewrite HWo in *.
  destruct (Hf _ _ _ _ _ _ _ Ef ps op) as (Hw & _ & HO & ps' & op' & HSi' & HL' & HG' & HE'); [done|done|].
  split_and!; [split; try done|..].
  - intros sid sw0. cbn. destruct (decide (sid = uuid_String id)) as [->|Hne]; [by eexists|].
    rewrite lookup_insert_ne by done. eauto.
  - intros sid d. unfold put_world. cbn. destruct (decide (sid = uuid_String id)) as [->|Hne]; [by eexists|].
    destruct (decide (w_dir w = ∅)); [rewrite lookup_delete_ne by done|rewrite lookup_insert_ne by done]; eauto.
  - intros id' Hid'. destruct (decide (id' = id)) as [->|Hne].
    + exists ps', op'. unfold stream_dir, writer_of. rewrite put_world_dir. cbn [ss_streams set_streams].
      rewrite lookup_insert_eq, decide_True by done. cbn [sy_backend set_backend from_option default].
      split; [done|]. cbn. by rewrite HL', <-HL.
    + assert (HN : uuid_String id' <> uuid_String id) by (intros E; by apply Hne, uuid_inj).
      eapply (stream_holds_other id id' y _ s); try done; [by apply ti_streams0|..].
      * unfold stream_dir. by rewrite put_world_dir, decide_False.
      * unfold writer_of. cbn. by rewrite lookup_insert_ne.
  - intros id' Hid'. unfold stream_dir at 2. rewrite put_world_dir. case_decide as Hd.
    + apply uuid_inj in Hd as ->; [|done..]. split; rewrite (sealed_to_inv _ _ _ _ _ _ HSi'); [done|].
      by rewrite (sealed_to_inv _ _ _ _ _ _ HSi).
    + apply dir_grows_refl.
  - split; [done|]. intros k Hk. apply HO. apply not_true_iff_false. intros Hk2.
    by rewrite (segments_prefix_other id k Hid Hk2) in Hk.
  - done.
Qed.

(** ** The other operations *)

Lemma store_inv_ext y y' s s' G :
  store_inv y s G -> sy_outcomes y' = [] -> sy_streams y' = sy_streams y ->
  bk_objects (sy_backend y') = bk_objects (sy_backend y) ->
  (forall sid sw, ss_streams s' !! sid = Some sw -> uuid_text sid) ->
  (forall seg reqs, ss_segmentReqs s' !! seg = Some reqs -> has_prefix SegmentsPrefix seg = true) ->
  (forall id, wf_uuid id -> writer_of s' id = writer_of s id) ->
  store_inv y' s' G.
Proof.
  intros [] HO HS HB HK HR HW. split; try done.
  - by rewrite HS.
  - intros id Hid. destruct (ti_streams0 id Hid) as (ps & op & H1 & H2). exists ps, op.
    rewrite HW by done. unfold stream_dir in *. by rewrite HS, HB.
Qed.

Lemma create_inv y s G id s' sw :
  wf_uuid id -> store_inv y s G -> getOrCreateStream s id = (s', sw) ->
  kept G y s y s' /\ ss_streams s' !! uuid_String id = Some sw /\ sw = writer_of s id /\
  (forall id', wf_uuid id' -> writer_of s' id' = writer_of s id').
Proof.
  intros Hid HI. unfold getOrCreateStream, writer_of.
  destruct (ss_streams s !! uuid_String id) as [sw0|] eqn:E; intros [= <- <-].
  - split_and!; try done. by apply kept_refl.
  - assert (HW : forall id', wf_uuid id' ->
      default (new_writer id') (<[uuid_String id := new_writer id]> (ss_streams s) !! uuid_String id') =
      default (new_writer id') (ss_streams s !! uuid_String id')).
    { intros id' Hid'. destruct (decide (uuid_String id' = uuid_String id)) as [HE|Hne].
      - apply uuid_inj in HE as ->; [|done..]. by rewrite lookup_insert_eq, E.
      - by rewrite lookup_insert_ne. }
    split_and!; [|cbn; by rewrite lookup_insert_eq|done|done].
    split_and!; [|by apply sys_grows_refl|done|done].
    destruct HI. eapply (store_inv_ext y y s); try done.
    intros sid sw. cbn. destruct (decide (sid = uuid_String id)) as [->|Hne]; [by eexists|].
    rewrite lookup_insert_ne by done. eauto.
Qed.

Lemma saveCoverage_inv y s G : store_inv y s G -> kept G y s (saveCoverage y s) s.
Proof.
  intros HI. unfold saveCoverage. destruct (min_covered s) as [p|]; [|by apply kept_refl].
  unfold writeCoverageFile, os_WriteFile. rewrite next_outcome_ok by (by destruct HI). cbn.
  apply kept_same; [done| |destruct HI; by eapply (store_inv_ext y _ s)].
  split; [|done]. intros n Hn. cbn. by rewrite lookup_insert_ne.
Qed.

Lemma track_inv y s G seg recs :
  has_prefix SegmentsPrefix seg = true -> store_inv y s G -> store_inv y (TrackSegmentCoverage s seg recs) G.
Proof.
  intros Hp HI. pose proof HI as []. eapply (store_inv_ext y y s); try done.
  intros seg' reqs. cbn. destruct (decide (seg' = seg)) as [->|Hne]; [done|].
  rewrite lookup_insert_ne by done. intros H. by eapply ti_segments0.
Qed.

(** Evicting an idle writer loses nothing: a new one is as good. *)
Lemma idle_stream id d objs sw ps op :
  stream_inv id d objs sw ps op -> idle_writer sw = true ->
  sw_pending sw = [] /\ op = [] /\ stream_inv id d objs (new_writer id) ps [].
Proof.
  intros HI Hidle. unfold idle_writer in Hidle. rewrite !andb_true_iff in Hidle.
  destruct Hidle as [[[Hp%bool_decide_eq_true Hr%Z.eqb_eq] _] _].
  assert (op = []) as ->.
  { pose proof (v_open _ _ _ _ _ _ HI) as HO. destruct op as [|r l]; [done|]. destruct HO as [HO _]. cbn in HO. lia. }
  split_and!; [done..|]. pose proof (v_names _ _ _ _ _ _ HI) as HN. rewrite Hp in HN.
  pose proof (v_recs _ _ _ _ _ _ HI) as HR. rewrite Hp in HR.
  pose proof (end_to_ge 0 ps (v_chain _ _ _ _ _ _ HI)). destruct HI. split; try done; [|constructor].
  split; [done|]. intros e He. by destruct (HN _ _ _ _ _ He (parse_open 0 ltac:(done))) as [? _].
Qed.

Lemma evict_inv y s G : store_inv y s G -> store_inv y (evictIdleWritersLocked s) G.
Proof.
  intros []. split; try done.
  - intros sid sw. cbn. rewrite lookup_omap. intros (sw0 & H & _)%bind_Some. eauto.
  - intros id Hid. destruct (ti_streams0 id Hid) as (ps & op & HI & HL).
    unfold stream_holds, writer_of in *. cbn [evictIdleWritersLocked ss_streams set_streams]. rewrite lookup_omap.
    destruct (ss_streams s !! uuid_String id) as [sw|] eqn:E; cbn [mbind option_bind default from_option] in *; [|by exists ps, op].
    destruct (idle_writer sw) eqn:Ei; cbn [from_option].
    + destruct (idle_stream _ _ _ _ _ _ HI Ei) as (Hp & -> & HI'). exists ps, [].
      split; [done|]. by rewrite Hp in HL.
    + exists ps, op. split; [|done]. destruct HI. by split.
Qed.

(** ** Appending *)

Lemma newer_top_eq q l : top q (newer q l) = top q l.
Proof.
  revert q. induction l as [|r l IH]; intros q; [done|]. cbn [newer]. rewrite top_cons.
  destruct (q <? lr_StreamSeq r) eqn:E; zify_bool.
  - rewrite top_cons, Z.max_r by lia. apply IH.
  - rewrite Z.max_l by lia. apply IH.
Qed.

(** Records that extend the log [l] of a stream. *)
Definition extends id (l recs : list LogRecord) : Prop :=
  Forall (stream_rec id) recs /\ Forall (fun r => top 0 l < lr_StreamSeq r) recs /\
  StronglySorted Z.lt (lr_StreamSeq <$> recs).

Lemma first_of_le recs :
  StronglySorted Z.lt (lr_StreamSeq <$> recs) -> Forall (fun r => first_of recs <= lr_StreamSeq r) recs.
Proof.
  destruct recs as [|r l]; [done|]. cbn. intros [_ Hl]%StronglySorted_inv. constructor; [lia|].
  rewrite Forall_fmap in Hl. eapply Forall_impl; [exact Hl|]. cbn. lia.
Qed.

Lemma append_inv id d objs sw ps op recs :
  stream_inv id d objs sw ps op -> extends id (pieces_recs ps ++ op ++ sw_pending sw) recs ->
  stream_inv id d objs (set_pending sw (sw_pending sw ++ recs)) ps op.
Proof.
  intros HI (HR & HT & HS).
  assert (Hfirst : forall l, l ++ recs = l \/ first_of (l ++ recs) = first_of l \/ l = []) by (intros [|]; naive_solver).
  assert (HTX : Forall (fun r => top 0 (op ++ sw_pending sw) < lr_StreamSeq r) recs).
  { eapply Forall_impl; [exact HT|]. cbn. intros r. rewrite top_app.
    pose proof (top_ge 0 (pieces_recs ps)). pose proof (top_max (top 0 (pieces_recs ps)) 0 (op ++ sw_pending sw)) as HM.
    rewrite Z.max_l in HM by done. lia. }
  pose proof HI as []. split; cbn [sw_pending set_pending sw_streamID sw_evicted sw_lastSeq sw_sealed sw_discovered sw_uploadedTo];
    try done; rewrite ?app_assoc.
  - rewrite <-(app_assoc (pieces_recs ps)). by apply Forall_app.
  - apply Forall_app. split; [done|]. eapply Forall_impl; [exact HT|]. cbn. intros r.
    rewrite top_app, chained_top by done. pose proof (top_ge (end_to 0 ps) (op ++ sw_pending sw)). lia.
  - destruct (op ++ sw_pending sw) as [|r l] eqn:E; [by apply first_of_le|]. cbn [first_of app] in *.
    change (r :: l ++ recs) with ((r :: l) ++ recs). apply Forall_app. split; [done|].
    eapply Forall_impl; [exact HTX|]. cbn beta. intros r'. pose proof (top_elem 0 (r :: l) r ltac:(left)). lia.
  - destruct op as [|r l]; cbn [open_ok sw_recCount set_pending sw_pending sw_lastSeq sw_openFrom app] in *.
    + destruct v_open as [? HE]. split; [done|]. intros e. destruct (sw_pending sw) as [|p0 pl]; [|apply HE].
      intros He. destruct recs as [|r0 rl]; [by apply HE|]. exfalso.
      apply Forall_cons in HR as [Hr0%stream_rec_seq _].
      by destruct (v_names _ _ _ _ _ He (parse_open _ Hr0)).
    + destruct v_open as (? & ? & HTo & HF). split_and!; try done.
      rewrite top_app, HTo. change (r :: l ++ _ ++ recs) with ((r :: l) ++ sw_pending sw ++ recs).
      by rewrite app_assoc, (top_app 0 (_ ++ _)).
  - intros n e k t bl Hn HP. specialize (v_names _ _ _ _ _ Hn HP). destruct bl; [done|].
    destruct v_names as [Hne ->]. split; [by destruct (op ++ sw_pending sw)|]. symmetry. by apply name_of_app.
Qed.

Lemma store_inv_log y s G G' :
  (forall id, wf_uuid id -> G' id = G id) -> store_inv y s G -> store_inv y s G'.
Proof. intros HG []. split; try done. intros id Hid. rewrite HG by done. auto. Qed.

Lemma append_stream_inv y s G id recs :
  wf_uuid id -> store_inv y s G -> extends id (G id) recs ->
  exists s', append_stream s id recs = Some s' /\
    store_inv y s' (fun id' => if decide (id' = id) then G id ++ recs else G id').
Proof.
  intros Hid HI HE. unfold append_stream. destruct (getOrCreateStream s id) as [s1 sw] eqn:EC.
  destruct (create_inv _ _ _ _ _ _ Hid HI EC) as ((HI1 & _) & Hs1 & Hsw & HW).
  destruct (ti_streams _ _ _ HI1 id Hid) as (ps & op & HSi & HL).
  assert (writer_of s1 id = sw) as HWo by (unfold writer_of; by rewrite Hs1). rewrite HWo in *.
  unfold appendRecords. rewrite (v_live _ _ _ _ _ _ HSi). eexists. split; [done|].
  assert (HE' : extends id (pieces_recs ps ++ op ++ sw_pending sw) recs).
  { destruct HE as (? & HT & ?). split_and!; try done. by rewrite <-HL, newer_top_eq in HT. }
  pose proof HI1 as []. split; try done.
  - intros sid sw0. cbn. destruct (decide (sid = uuid_String id)) as [->|Hne]; [by eexists|].
    rewrite lookup_insert_ne by done. eauto.
  - intros id' Hid'. case_decide as Hd.
    + subst id'. exists ps, op. unfold writer_of. cbn [ss_streams set_streams]. rewrite lookup_insert_eq. cbn [default from_option].
      split; [by apply append_inv|]. destruct HE' as (_ & HT & HS).
      cbn [Datatypes.id sw_pending set_pending]. rewrite (app_assoc op), (app_assoc (pieces_recs ps)), newer_app, HL. f_equal.
      by apply newer_id.
    + destruct (ti_streams0 id' Hid') as (ps' & op' & H1 & H2). exists ps', op'.
      enough (writer_of (set_streams s1 (<[uuid_String id:=set_pending sw (sw_pending sw ++ recs)]> (ss_streams s1))) id'
        = writer_of s1 id') as -> by done.
      unfold writer_of. cbn. rewrite lookup_insert_ne; [done|]. intros E. by apply Hd, uuid_inj.
Qed.

Lemma append_streams_inv y R : forall ids s G,
  NoDup ids -> Forall wf_uuid ids -> store_inv y s G ->
  (forall id, id ∈ ids -> extends id (G id) (filter (fun r => lr_StreamID r = id) R)) ->
  exists s', append_streams s R ids = Some s' /\
    store_inv y s' (fun id => if decide (id ∈ ids) then G id ++ filter (fun r => lr_StreamID r = id) R else G id).
Proof.
  induction ids as [|id ids IH]; intros s G Hnd Hwf HI HE.
  - exists s. split; [done|]. eapply store_inv_log, HI. intros id _. case_decide as Hd; [by apply not_elem_of_nil in Hd|done].
  - apply NoDup_cons in Hnd as [Hni Hnd]. apply Forall_cons in Hwf as [Hid Hwf]. cbn [append_streams].
    destruct (append_stream_inv y s G id _ Hid HI (HE id ltac:(left))) as (s1 & -> & HI1).
    destruct (IH s1 _ Hnd Hwf HI1) as (s2 & -> & HI2).
    + intros id' Hin. rewrite decide_False by (intros ->; done). apply HE. by right.
    + exists s2. split; [done|]. eapply store_inv_log, HI2. intros id' _. cbn beta.
      destruct (decide (id' = id)) as [->|Hne].
      * rewrite decide_True by left. by rewrite decide_False.
      * destruct (decide (id' ∈ ids)); [rewrite decide_True by (by right)|rewrite decide_False by set_solver]; done.
Qed.

(** The records an append may bring: they extend the log of their stream. *)
Definition append_ok G (R : list LogRecord) : Prop :=
  Forall (fun r => wf_uuid (lr_StreamID r)) R /\
  forall id, wf_uuid id -> extends id (G id) (filter (fun r => lr_StreamID r = id) R).

Definition appended G (R : list LogRecord) : bytes -> list LogRecord :=
  fun id => G id ++ filter (fun r => lr_StreamID r = id) R.

Lemma AppendRecords_inv y s G R :
  store_inv y s G -> append_ok G R ->
  exists s', AppendRecords s R = Some s' /\ store_inv y s' (appended G R).
Proof.
  intros HI [Hwf HE]. unfold AppendRecords.
  assert (HW : Forall wf_uuid (remove_dups (lr_StreamID <$> R))).
  { apply Forall_forall. intros id. rewrite elem_of_remove_dups, list_elem_of_fmap. intros (r & -> & Hr).
    rewrite Forall_forall in Hwf. auto. }
  destruct (append_streams_inv y R _ s G (NoDup_remove_dups _) HW HI) as (s' & Hs' & HI').
  - intros id Hin. apply HE. rewrite Forall_forall in HW. auto.
  - exists s'. split; [done|]. eapply store_inv_log, HI'. intros id _. unfold appended.
    case_decide as Hd; [done|]. rewrite elem_of_remove_dups, list_elem_of_fmap in Hd.
    rewrite filter_none, app_nil_r; [done|].
    intros r Hr <-. apply Hd. eauto.
Qed.

(** ** Loops over the writers *)

Lemma on_writer_any {A} y s G sid (f : World -> B -> streamWriter -> World * B * streamWriter * A) (dflt : A) y' s' a :
  store_inv y s G ->
  (forall id w b sw w' b' sw' a, wf_uuid id -> f w b sw = (w', b', sw', a) -> moves id w b sw w' b' sw') ->
  on_writer y s sid f dflt = (y', s', a) -> kept G y s y' s'.
Proof.
  intros HI Hf. destruct (ss_streams s !! sid) as [sw|] eqn:E.
  - destruct (ti_writers _ _ _ HI _ _ E) as (id & Hid & ->). intros HE.
    eapply (on_writer_inv y s G id f dflt y' s' a); try done. intros. by eapply Hf.
  - unfold on_writer. rewrite E. intros [= <- <- <-]. by apply kept_refl.
Qed.

Lemma flushAllPending_inv ws : forall y s G y' s',
  store_inv y s G -> flushAllPending y s ws = (y', s') -> kept G y s y' s'.
Proof.
  induction ws as [|sid ws IH]; intros y s G y' s' HI; cbn [flushAllPending]; [intros [= <- <-]; by apply kept_refl|].
  unfold flush_stream. destruct (on_writer y s sid flush_op (Ok ())) as [[y1 s1] r1] eqn:E. intros E2. eapply kept_trans; [|intros HI1; by eapply IH].
  eapply on_writer_any; [exact HI| |exact E]. intros. by eapply flush_op_moves.
Qed.

Lemma close_streams_inv ws : forall y s G fe y' s' r,
  store_inv y s G -> close_streams y s ws fe = (y', s', r) -> kept G y s y' s'.
Proof.
  induction ws as [|sid ws IH]; intros y s G fe y' s' r HI; cbn [close_streams]; [intros [= <- <- <-]; by apply kept_refl|].
  destruct (on_writer y s sid flush_op (Ok ())) as [[y1 s1] r1] eqn:E. intros E2. eapply kept_trans; [|intros HI1; by eapply IH].
  eapply on_writer_any; [exact HI| |exact E]. intros. by eapply flush_op_moves.
Qed.

Lemma check_streams_inv ws : forall y s G y' s',
  store_inv y s G -> check_streams y s ws = (y', s') -> kept G y s y' s'.
Proof.
  induction ws as [|sid ws IH]; intros y s G y' s' HI; cbn [check_streams]; [intros [= <- <-]; by apply kept_refl|].
  unfold check_stream. destruct (on_writer y s sid (check_op s) ()) as [[y1 s1] r1] eqn:E. intros E2. eapply kept_trans; [|intros HI1; by eapply IH].
  eapply on_writer_any; [exact HI| |exact E]. intros. by eapply check_op_moves.
Qed.

Lemma seal_streams_inv ws : forall y s G y' s' ms errs,
  store_inv y s G -> seal_streams y s ws = (y', s', ms, errs) -> kept G y s y' s'.
Proof.
  induction ws as [|sid ws IH]; intros y s G y' s' ms errs HI; cbn [seal_streams]; [intros [= <- <- <-]; by apply kept_refl|].
  destruct (on_writer y s sid seal_all_op (None, [])) as [[y1 s1] [m1 e1]] eqn:E.
  destruct (seal_streams y1 s1 ws) as [[[y2 s2] m2] e2] eqn:E2. intros [= <- <- <- <-].
  eapply kept_trans; [|intros HI1; by eapply IH]. eapply on_writer_any; [exact HI| |exact E]. intros. by eapply seal_all_op_moves.
Qed.

Lemma SealAll_inv ws y s G y' s' ms errs :
  store_inv y s G -> SealAll y s ws = (y', s', ms, errs) -> kept G y s y' s'.
Proof.
  intros HI. unfold SealAll. destruct (seal_streams y s ws) as [[[y1 s1] m1] e1] eqn:E.
  intros [= <- <- <- <-]. eapply kept_trans; [by eapply seal_streams_inv|apply saveCoverage_inv].
Qed.

Lemma SealStream_inv y s G id y' s' r :
  wf_uuid id -> store_inv y s G -> SealStream y s id = (y', s', r) -> kept G y s y' s'.
Proof.
  intros Hid HI. unfold SealStream. destruct (getOrCreateStream s id) as [s1 sw] eqn:EC.
  destruct (create_inv _ _ _ _ _ _ Hid HI EC) as (HK & _).
  destruct (on_writer y s1 (uuid_String id) seal_op (None, Ok ())) as [[y2 s2] r2] eqn:E.
  intros [= <- <- <-]. eapply kept_trans; [exact HK|intros HI1].
  eapply kept_trans; [|apply saveCoverage_inv]. eapply on_writer_any; [exact HI1| |exact E].
  intros. by eapply seal_op_moves.
Qed.

Lemma EnsureDiscovered_inv y s G id y' s' r :
  wf_uuid id -> store_inv y s G -> EnsureDiscovered y s id = (y', s', r) -> kept G y s y' s'.
Proof.
  intros Hid HI. unfold EnsureDiscovered. destruct (getOrCreateStream s id) as [s1 sw] eqn:EC.
  destruct (create_inv _ _ _ _ _ _ Hid HI EC) as (HK & _). intros E.
  eapply kept_trans; [exact HK|intros HI1]. eapply on_writer_any; [exact HI1| |exact E]. intros id' w b sw0 w' b' sw' a Hid'. cbn beta.
  destruct (discover_op w b sw0) as [[w1 b1] sw1] eqn:ED. intros [= <- <- <- <-].
  by eapply discover_op_moves.
Qed.

(** ** Garbage collection *)

Lemma segment_gone_inv y b' s G :
  store_inv y s G ->
  (forall k, has_prefix SegmentsPrefix k = false -> bk_objects b' !! k = bk_objects (sy_backend y) !! k) ->
  store_inv (set_backend y b') s G.
Proof.
  intros [] HB. split; try done. intros id Hid. destruct (ti_streams0 id Hid) as (ps & op & HI & HL).
  exists ps, op. split; [|done]. eapply stream_inv_frame; [exact HI|done|].
  intros k Hk. by eapply HB, segments_prefix_other.
Qed.

Lemma delete_segment b seg b' r :
  has_prefix SegmentsPrefix seg = true -> bk_DeleteObject b [] seg = (b', r) ->
  forall k, has_prefix SegmentsPrefix k = false -> bk_objects b' !! k = bk_objects b !! k.
Proof.
  intros Hp E k Hk. pose proof (DeleteObject_spec b [] seg) as HS. rewrite E in HS.
  assert (Hne : StorageKey [] seg <> k) by (change (StorageKey [] seg) with seg; congruence).
  assert (delete (StorageKey [] seg) (bk_objects b) !! k = bk_objects b !! k) by (by rewrite lookup_delete_ne).
  destruct r; [congruence|]. destruct HS as [-> | ->]; done.
Qed.

Lemma forget_segment_inv y s G seg :
  store_inv y s G -> store_inv y (set_segmentReqs s (delete seg (ss_segmentReqs s))) G.
Proof.
  intros []. split; try done. intros seg' reqs. cbn [ss_segmentReqs set_segmentReqs]. rewrite lookup_delete_Some. intros [_ ?]. eauto.
Qed.

(** The memory of the writers and the directories are not touched, and only
    segments disappear. *)
Lemma gc_segments_inv segs : forall y s G y' s' del errs,
  store_inv y s G -> gc_segments y s segs = (y', s', del, errs) ->
  store_inv y' s' G /\ ss_streams s' = ss_streams s /\ sy_streams y' = sy_streams y /\
  forall seg, seg ∈ del -> exists reqs, ss_segmentReqs s !! seg = Some reqs /\ seg_covered s reqs = true.
Proof.
  induction segs as [|seg segs IH]; intros y s G y' s' del errs HI; cbn [gc_segments].
  { intros [= <- <- <- <-]. split_and!; try done. intros seg Hs. by apply not_elem_of_nil in Hs. }
  destruct (ss_segmentReqs s !! seg) as [reqs|] eqn:Er; [|by apply IH].
  destruct (seg_covered s reqs) eqn:Ec; [|by apply IH].
  destruct (bk_DeleteObject (sy_backend y) [] seg) as [b r] eqn:Eb.
  pose proof (segment_gone_inv y b s G HI (delete_segment _ _ _ _ (ti_segments _ _ _ HI _ _ Er) Eb)) as HI1.
  destruct r as [u|e].
  - pose proof (forget_segment_inv _ _ _ seg HI1) as HI2.
    destruct (gc_segments _ _ segs) as [[[y2 s2] d2] e2] eqn:E2. intros [= <- <- <- <-].
    destruct (IH _ _ _ _ _ _ _ HI2 E2) as (HI3 & Hs & Hy & Hd). split_and!; try done.
    intros seg' [->|Hs']%elem_of_cons; [eauto|]. destruct (Hd _ Hs') as (reqs' & HR & HC). exists reqs'.
    cbn [ss_segmentReqs set_segmentReqs] in HR. apply lookup_delete_Some in HR as [_ HR]. by split.
  - destruct (gc_segments _ _ segs) as [[[y2 s2] d2] e2] eqn:E2. intros [= <- <- <- <-].
    by apply (IH _ _ _ _ _ _ _ HI1 E2).
Qed.

Lemma checkSealsAndGC_inv y s G ws segs y' s' :
  store_inv y s G -> checkSealsAndGC y s ws segs = (y', s') -> store_inv y' s' G /\ sys_grows y y'.
Proof.
  intros HI. unfold checkSealsAndGC, CheckSegmentGC. destruct (check_streams y s ws) as [y1 s1] eqn:E1.
  destruct (gc_segments y1 s1 segs) as [[[y2 s2] d2] e2] eqn:E2. intros [= <- <-].
  destruct (check_streams_inv _ _ _ _ _ _ HI E1) as (HI1 & HG1 & _).
  destruct (gc_segments_inv _ _ _ _ _ _ _ _ HI1 E2) as (HI2 & _ & HS & _).
  destruct (saveCoverage_inv y2 _ G (evict_inv _ _ _ HI2)) as (HI3 & HG3 & _). split; [done|].
  eapply sys_grows_trans; [exact HG1|]. eapply sys_grows_trans; [by apply sys_grows_refl|done].
Qed.

(** ** Restarts *)

(** What a crash leaves: the backend, and of the directories what their files
    had on stable storage, or more.  The clock goes on. *)
Record sys_crash y y' : Prop := {
  yc_outcomes : sy_outcomes y' = [];
  yc_backend : sy_backend y' = sy_backend y;
  yc_dirs sid d : sy_streams y' !! sid = Some d -> is_Some (sy_streams y !! sid);
  yc_crash sid : crash (stream_world y sid) (stream_world y' sid);
  yc_headers sid : open_headers (stream_world y' sid);
}.

(** The aggregated records given to a restart: of every stream, in the order of
    first occurrence, what its log has past the sealed files. *)
Record agg_ok y G (agg : list LogRecord) : Prop := {
  ag_ids : Forall (fun r => wf_uuid (lr_StreamID r)) agg;
  ag_log id r : wf_uuid id -> r ∈ filter (fun r => lr_StreamID r = id) agg -> r ∈ G id;
  ag_all id : wf_uuid id ->
    let q := sealed_to (stream_dir y id) in
    newer q (filter (fun r => lr_StreamID r = id) agg) = after q (G id);
}.

(** A stream that is not recovered yet. *)
Definition stream_crashed y s agg id (l : list LogRecord) : Prop :=
  exists w sw ps op, stream_inv id (w_dir w) (bk_objects (sy_backend y)) sw ps op /\
    crash w (stream_world y (uuid_String id)) /\ open_headers (stream_world y (uuid_String id)) /\
    newer 0 (pieces_recs ps ++ op ++ sw_pending sw) = l /\
    ss_streams s !! uuid_String id = None /\
    (forall r, r ∈ filter (fun r => lr_StreamID r = id) agg -> r ∈ l) /\
    forall t, end_to 0 ps <= t -> newer t (filter (fun r => lr_StreamID r = id) agg) = after t l.

Lemma crashed_of_inv y y' s s' G agg id :
  wf_uuid id -> store_inv y s G -> sys_crash y y' -> agg_ok y G agg -> ss_streams s' = ∅ ->
  stream_crashed y' s' agg id (G id).
Proof.
  intros Hid HI [] [] Hs. destruct (ti_streams _ _ _ HI id Hid) as (ps & op & HSi & HL).
  exists (stream_world y (uuid_String id)), (writer_of s id), ps, op.
  split_and!; try done.
  - cbn. by rewrite yc_backend0.
  - by rewrite Hs.
  - intros r Hr. by apply ag_log0.
  - intros t Ht. specialize (ag_all0 id Hid). cbv zeta in ag_all0.
    rewrite (sealed_to_inv _ _ _ _ _ _ HSi) in ag_all0.
    rewrite <-(after_newer (end_to 0 ps) t), ag_all0 by done. unfold after.
    rewrite list_filter_filter. apply list_filter_iff. intros r. lia.
Qed.

(** A stream without a directory and without aggregated records has no log. *)
Lemma crashed_empty y s agg id l :
  stream_crashed y s agg id l -> sy_streams y !! uuid_String id = None ->
  filter (fun r => lr_StreamID r = id) agg = [] -> stream_holds y s id l.
Proof.
  intros (w & sw & ps & op & HI & HC & _ & HL & Hs & _ & HA) HD HF.
  assert (HE : forall n : bytes, w_dir w !! n = None).
  { intros n. specialize (HC n). unfold stream_world in HC. cbn in HC. rewrite HD in HC. cbn in HC.
    rewrite lookup_empty in HC. by destruct (w_dir w !! n). }
  assert (ps = []) as ->.
  { destruct ps as [|p ps]; [done|]. pose proof (v_files _ _ _ _ _ _ HI) as HFi.
    apply Forall_cons in HFi as [HFi _]. by rewrite HE in HFi. }
  assert (op = []) as ->.
  { pose proof (v_open _ _ _ _ _ _ HI) as HO. destruct op as [|r op]; [done|].
    destruct HO as (_ & _ & _ & f & Hf & _). by rewrite HE in Hf. }
  assert (l = []) as ->.
  { specialize (HA 0 ltac:(done)). rewrite HF in HA. cbn [newer] in HA. rewrite after_all in HA; [done|].
    rewrite <-HL. apply newer_above. }
  exists [], []. unfold writer_of, stream_dir. rewrite Hs, HD. cbn [default from_option]. split; [|done].
  destruct HI. split; try done; try constructor; try done.
Qed.

Lemma stream_crashed_other id0 id y y' s s' agg l :
  wf_uuid id0 -> wf_uuid id -> id <> id0 -> stream_crashed y s agg id l ->
  stream_dir y' id = stream_dir y id -> ss_streams s' !! uuid_String id = ss_streams s !! uuid_String id ->
  only_stream id0 (sy_backend y) (sy_backend y') -> stream_crashed y' s' agg id l.
Proof.
  intros H0 Hid Hne (w & sw & ps & op & HI & HC & HH & HL & Hs & HA1 & HA2) HD HW HO.
  assert (HDw : w_dir (stream_world y' (uuid_String id)) = w_dir (stream_world y (uuid_String id))) by done.
  exists w, sw, ps, op. split_and!; try done; [|intros n; rewrite HDw; apply HC|intros n; rewrite HDw; apply HH|by rewrite HW].
  eapply stream_inv_frame; [done|done|]. intros k Hk. apply HO.
  apply not_true_iff_false. intros Hk0. apply Hne. by eapply stream_prefix_other.
Qed.

(** While the streams [todo] are left to recover. *)
Record recovering y s agg G (todo : list bytes) : Prop := {
  rc_faults : sy_outcomes y = [];
  rc_writers sid sw : ss_streams s !! sid = Some sw -> uuid_text sid;
  rc_dirs sid d : sy_streams y !! sid = Some d -> uuid_text sid;
  rc_segments seg reqs : ss_segmentReqs s !! seg = Some reqs -> has_prefix SegmentsPrefix seg = true;
  rc_streams id : wf_uuid id ->
    if decide (id ∈ todo) then stream_crashed y s agg id (G id) else stream_holds y s id (G id);
}.

Lemma recover_one_ok y s agg G id todo :
  wf_uuid id -> id ∉ todo -> recovering y s agg G (id :: todo) ->
  exists y' s', recover_one y s agg id = (y', s', Ok ()) /\ recovering y' s' agg G todo.
Proof.
  intros Hid Hni []. pose proof (rc_streams0 id Hid) as HX. rewrite decide_True in HX by left.
  destruct HX as (w & sw & ps & op & HI & HC & HH & HL & Hs & HA1 & HA2).
  unfold recover_one, getOrCreateStream. rewrite Hs. unfold on_writer. cbn [ss_streams set_streams].
  rewrite lookup_insert_eq. unfold recover_op.
  destruct (recover_inv id w (stream_world y (uuid_String id)) (sy_backend y) sw ps op Hid HI HC rc_faults0 HH agg
    (mkScanOptions (ss_acceptUnversioned s) false)) as (w2 & b2 & sw2 & op2 & HR & Hw2 & Hn2 & HO & HI2 & Hp2 & HG2).
  { by rewrite HL. }
  { by rewrite HL. }
  cbn [ss_acceptUnversioned set_streams]. rewrite HR. do 2 eexists. split; [done|]. split; try done.
  - intros sid sw0. cbn [ss_streams set_streams]. destruct (decide (sid = uuid_String id)) as [->|Hne]; [by eexists|].
    rewrite !lookup_insert_ne by done. eauto.
  - intros sid d. cbn [sy_streams set_backend put_world]. destruct (decide (sid = uuid_String id)) as [->|Hne]; [by eexists|].
    destruct (decide (w_dir w2 = ∅)); [rewrite lookup_delete_ne by done|rewrite lookup_insert_ne by done]; eauto.
  - intros id' Hid'. destruct (decide (id' = id)) as [->|Hne].
    + rewrite decide_False by done. exists ps, op2. unfold stream_dir, writer_of. rewrite put_world_dir, decide_True by done.
      cbn [ss_streams set_streams sy_backend set_backend]. rewrite lookup_insert_eq. cbn [default from_option].
      split; [done|]. change (Datatypes.id sw2) with sw2. by rewrite Hp2, app_nil_r, HG2, HL.
    + assert (HN : uuid_String id' <> uuid_String id) by (intros E; by apply Hne, uuid_inj).
      specialize (rc_streams0 id' Hid').
      match goal with |- context [stream_crashed ?y2 ?s2] =>
        assert (HD : stream_dir y2 id' = stream_dir y id') by (unfold stream_dir; by rewrite put_world_dir, decide_False);
        assert (HW : ss_streams s2 !! uuid_String id' = ss_streams s !! uuid_String id')
          by (cbn [ss_streams set_streams]; by rewrite !lookup_insert_ne) end.
      destruct (decide (id' ∈ todo)) as [Ht|Ht].
      * rewrite decide_True in rc_streams0 by (by right). by eapply (stream_crashed_other id id').
      * rewrite decide_False in rc_streams0 by set_solver. eapply (stream_holds_other id id'); try done.
        unfold writer_of. by rewrite HW.
Qed.

Lemma recover_streams_ok ids : forall y s agg G,
  NoDup ids -> Forall wf_uuid ids -> recovering y s agg G ids ->
  exists y' s', recover_streams y s agg ids = (y', s', []) /\ recovering y' s' agg G [].
Proof.
  induction ids as [|id ids IH]; intros y s agg G Hnd Hwf HI; cbn [recover_streams]; [by exists y, s|].
  apply NoDup_cons in Hnd as [Hni Hnd]. apply Forall_cons in Hwf as [Hid Hwf].
  destruct (recover_one_ok _ _ _ _ _ _ Hid Hni HI) as (y1 & s1 & -> & HI1).
  destruct (IH _ _ _ _ Hnd Hwf HI1) as (y2 & s2 & -> & HI2). by exists y2, s2.
Qed.

Lemma recovering_done y s agg G : recovering y s agg G [] -> store_inv y s G.
Proof.
  intros []. by split.
Qed.

(** A restart of the process: a new store recovers every stream. *)
Lemma Recover_inv y y' s s0 G agg :
  store_inv y s G -> sys_crash y y' -> agg_ok y G agg -> ss_streams s0 = ∅ -> ss_segmentReqs s0 = ∅ ->
  exists y2 s2, Recover y' s0 agg = (y2, s2, Ok []) /\ store_inv y2 s2 G.
Proof.
  intros HI HC HA Hs Hq. unfold Recover. pose proof (yc_outcomes _ _ HC) as Ho.
  rewrite next_outcome_ok by done. unfold recover_ids. cbn [sy_streams put_root root_world w_dir].
  rewrite Hs, map_to_list_empty. change (parse_keys _) with (Some (@nil bytes)). cbv iota beta. rewrite app_nil_r.
  set (y1 := put_root y' _). assert (HC1 : sys_crash y y1) by (destruct HC; by split).
  set (ids := remove_dups (_ : list bytes)).
  assert (Hdirs : forall sid d, sy_streams y' !! sid = Some d -> uuid_text sid).
  { intros sid d Hd. destruct (yc_dirs _ _ HC _ _ Hd) as [d' Hd']. by eapply (ti_dirs _ _ _ HI). }
  assert (Hwf : Forall wf_uuid ids).
  { apply Forall_forall. intros id. unfold ids. rewrite elem_of_remove_dups, elem_of_app, list_elem_of_omap, list_elem_of_fmap.
    intros [(x & _ & Hx)|(r & -> & Hr)]; [by eapply uuid_parse_wf|].
    pose proof (ag_ids _ _ _ HA) as HF. rewrite Forall_forall in HF. auto. }
  destruct (recover_streams_ok ids y1 s0 agg G) as (y2 & s2 & -> & HI2); [apply NoDup_remove_dups|done| |].
  - split; try done.
    + intros sid sw. by rewrite Hs.
    + intros seg reqs. by rewrite Hq.
    + intros id Hid. pose proof (crashed_of_inv y y1 s s0 G agg id Hid HI HC1 HA Hs) as HX. case_decide as Hd; [done|].
      unfold ids in Hd. rewrite elem_of_remove_dups, elem_of_app, list_elem_of_omap, list_elem_of_fmap in Hd.
      eapply crashed_empty; [done|..].
      * destruct (sy_streams y1 !! uuid_String id) as [d|] eqn:E; [|done]. exfalso. apply Hd. left.
        exists (uuid_String id). rewrite uuid_parse_string by done. split; [|done].
        apply list_elem_of_fmap. exists (uuid_String id, d). split; [done|]. by apply elem_of_map_to_list.
      * apply filter_none. intros r Hr <-. apply Hd. right. eauto.
  - exists y2, s2. split; [done|]. by eapply recovering_done.
Qed.

(** ** Histories *)

(** One operation of the store on a disk that works; the backend may fail at
    any call. *)
Inductive store_step : Sys B * StreamStore * (bytes -> list LogRecord) ->
    Sys B * StreamStore * (bytes -> list LogRecord) -> Prop :=
| st_append y s G R s' :
    append_ok G R -> AppendRecords s R = Some s' -> store_step (y, s, G) (y, s', appended G R)
| st_flush y s G ws y' s' : flushAllPending y s ws = (y', s') -> store_step (y, s, G) (y', s', G)
| st_check y s G ws segs y' s' : checkSealsAndGC y s ws segs = (y', s') -> store_step (y, s, G) (y', s', G)
| st_gc y s G segs y' s' del errs :
    CheckSegmentGC y s segs = (y', s', del, errs) -> store_step (y, s, G) (y', s', G)
| st_seal y s G id y' s' r :
    wf_uuid id -> SealStream y s id = (y', s', r) -> store_step (y, s, G) (y', s', G)
| st_seal_all y s G ws y' s' ms errs :
    SealAll y s ws = (y', s', ms, errs) -> store_step (y, s, G) (y', s', G)
| st_discover y s G id y' s' n :
    wf_uuid id -> EnsureDiscovered y s id = (y', s', n) -> store_step (y, s, G) (y', s', G)
| st_track y s G seg R :
    has_prefix SegmentsPrefix seg = true -> store_step (y, s, G) (y, TrackSegmentCoverage s seg R, G)
| st_accept y s G accept : store_step (y, s, G) (y, SetAcceptUnversioned s accept, G)
| st_close y s G ws y' s' r : StreamStore_Close y s ws = (y', s', r) -> store_step (y, s, G) (y', s', G)
| st_clock y s G now :
    store_step (y, s, G) (mkSys (sy_root y) (sy_streams y) (sy_outcomes y) now (sy_backend y), s, G).

Lemma store_step_inv x x' :
  store_step x x' -> store_inv x.1.1 x.1.2 x.2 -> store_inv x'.1.1 x'.1.2 x'.2 /\ sys_grows x.1.1 x'.1.1.
Proof.
  destruct 1 as [y s G R s' HR HE|y s G ws y' s' HE|y s G ws segs y' s' HE|y s G segs y' s' del errs HE|
    y s G id y' s' r Hid HE|y s G ws y' s' ms errs HE|y s G id y' s' n Hid HE|y s G seg R HP|y s G accept|
    y s G ws y' s' r HE|y s G now]; cbn [fst snd]; intros HI.
  - split; [|by apply sys_grows_refl]. destruct (AppendRecords_inv y s G R HI HR) as (s2 & HE2 & HI2). congruence.
  - by destruct (flushAllPending_inv _ _ _ _ _ _ HI HE) as (? & ? & _).
  - by eapply checkSealsAndGC_inv.
  - destruct (gc_segments_inv _ _ _ _ _ _ _ _ HI HE) as (HI2 & _ & HS & _). split; [done|]. by apply sys_grows_refl.
  - by destruct (SealStream_inv _ _ _ _ _ _ _ Hid HI HE) as (? & ? & _).
  - by destruct (SealAll_inv _ _ _ _ _ _ _ _ HI HE) as (? & ? & _).
  - by destruct (EnsureDiscovered_inv _ _ _ _ _ _ _ Hid HI HE) as (? & ? & _).
  - split; [by apply track_inv|by apply sys_grows_refl].
  - split; [|by apply sys_grows_refl]. destruct HI. by eapply (store_inv_ext y y s).
  - by destruct (close_streams_inv _ _ _ _ _ _ _ _ HI HE) as (? & ? & _).
  - split; [|by apply sys_grows_refl]. destruct HI. by eapply (store_inv_ext y _ s).
Qed.

(** The state of a first start. *)
Definition first_start y s : Prop :=
  sy_outcomes y = [] /\ sy_streams y = ∅ /\ ss_streams s = ∅ /\ ss_segmentReqs s = ∅ /\
  forall id k, wf_uuid id -> has_prefix (stream_prefix id) k = true -> bk_objects (sy_backend y) !! k = None.

(** Any number of operations and restarts after a first start.  A restart brings
    a new store and the aggregated records that the files may miss. *)
Inductive store_reach : Sys B -> StreamStore -> (bytes -> list LogRecord) -> Prop :=
| sr_start y s : first_start y s -> store_reach y s (fun _ => [])
| sr_step y s G y' s' G' :
    store_reach y s G -> store_step (y, s, G) (y', s', G') -> store_reach y' s' G'
| sr_restart y s G y1 interval bytes agg y' s' errs :
    store_reach y s G -> sys_crash y y1 -> agg_ok y G agg ->
    Recover y1 (NewStreamStore interval bytes) agg = (y', s', Ok errs) -> store_reach y' s' G.

Lemma first_start_inv y s : first_start y s -> store_inv y s (fun _ => []).
Proof.
  intros (Ho & Hy & Hs & Hq & HB). split; try done.
  - intros sid sw. by rewrite Hs.
  - intros sid d. by rewrite Hy.
  - intros seg reqs. by rewrite Hq.
  - intros id Hid. exists [], []. unfold stream_dir, writer_of. rewrite Hy, Hs, !lookup_empty. cbn [default from_option].
    split; [|done]. split; try done; try constructor; try done.
    intros k o f t Hk HP. by rewrite (HB id k Hid HP) in Hk.
Qed.

Lemma store_reach_inv y s G : store_reach y s G -> store_inv y s G.
Proof.
  induction 1 as [y s HF|y s G y' s' G' _ IH HS|y s G y1 iv by_ agg y' s' errs _ IH HC HA HR].
  - by apply first_start_inv.
  - by apply (store_step_inv _ _ HS).
  - destruct (Recover_inv y y1 s (NewStreamStore iv by_) G agg) as (y2 & s2 & HE & HI); try done. congruence.
Qed.

End store.
