(* ===== verification/WalTail.v ===== *)
(** * WalTail: following one stream of a WAL buffer

    [tailPerStream] of [pkg/wal/buffer/server.go]: a subscriber receives the
    records of a stream from its sealed files and then from the growing open
    file.  A pass of the loop sends what is new and waits.  Between passes any
    operation of the store may run; the theorems show that over such a history
    the subscriber receives exactly the log of the stream after the requested
    sequence number, each record once and in order.

    The pass takes the lock of the writer more than once, so a seal can fall in
    the middle of it; [tail_loses_records] is what happens then. *)

From S2P Require Import Prelude Bytes WalRecord FileSys WalSegment WalStore WalPaths ObjectStore WalStream.
From S2P Require Import WalStreamInv WalStreamRecover WalStreamStore.

#[local] Open Scope Z_scope.
#[local] Open Scope list_scope.

(** ** The loop *)

Record TailRequest : Type := mkTailRequest {
  tq_FromStreamSeq : Z;
  tq_FromPosition : Z;
}.

Record TailResponse : Type := mkTailResponse {
  ts_Record : LogRecord;
  ts_ResumedFrom : Z;
}.

(** The variables of [tailPerStream] that live across passes. *)
Record Tail : Type := mkTail {
  tl_fromSeq : Z;
  tl_fromPos : Z;
  tl_firstSent : bool;
  tl_curOpenFrom : Z;
  tl_openOffset : Z;
}.

Definition tail_start (req : TailRequest) : Tail :=
  mkTail (tq_FromStreamSeq req) (tq_FromPosition req) false 0 0.

Definition resumedFrom (t : Tail) : Z := if tl_fromPos t =? 0 then 1 else tl_fromPos t.

(** [sendRecord], over a connection that takes what is sent: a failing [Send]
    ends the subscription. *)
Definition sendRecord (streamID : bytes) (t : Tail) (rec : LogRecord) : Tail * list TailResponse :=
  if negb (bool_decide (lr_StreamID rec = streamID)) || (lr_StreamSeq rec <=? tl_fromSeq t) then (t, [])
  else if (0 <? tl_fromPos t) && (lr_Position rec <? tl_fromPos t) then (t, [])
  else
    (mkTail (lr_StreamSeq rec) (tl_fromPos t) true (tl_curOpenFrom t) (tl_openOffset t),
     [mkTailResponse rec (if tl_firstSent t then 0 else resumedFrom t)]).

Fixpoint send_all (streamID : bytes) (t : Tail) (recs : list LogRecord) : Tail * list TailResponse :=
  match recs with
  | [] => (t, [])
  | rec :: recs =>
    let '(t, out) := sendRecord streamID t rec in
    let '(t, outs) := send_all streamID t recs in (t, out ++ outs)
  end.

Section tail.
Context `{UU : !UuidLib} {B : Type} `{BK : !Backend B}.
Implicit Types (y : Sys B) (s : StreamStore).

(** The records of a sealed file: from the local file, else from the backend. *)
Definition read_sealed (w : World) (b : B) (sm : StreamMeta) (accept : bool)
    : World * B * result buf_error (list LogRecord) :=
  let '(w, local) :=
    if bool_decide (me_Path sm = []) then (w, [])
    else let '(w, r) := ReadRecordsFromOffset w (me_Path sm) 0 accept in
         (w, match r with Ok (recs, _) => recs | Err _ => [] end) in
  match local with
  | _ :: _ => (w, b, Ok local)
  | [] =>
    if bool_decide (me_Key sm = []) then (w, b, Ok [])
    else let '(b, r) := ReadSegmentFromBackend b (me_Key sm) accept in (w, b, r)
  end.

(** Step 1 of a pass: the loop over the sealed files. *)
Fixpoint tail_sealed (streamID : bytes) (accept : bool) (w : World) (b : B) (t : Tail) (metas : list StreamMeta)
    : World * B * Tail * list TailResponse * result buf_error () :=
  match metas with
  | [] => (w, b, t, [], Ok ())
  | sm :: metas =>
    if me_ToSeq sm <=? tl_fromSeq t then tail_sealed streamID accept w b t metas
    else
      let '(w, b, r) := read_sealed w b sm accept in
      match r with
      | Err e => (w, b, t, [], Err e)
      | Ok records =>
        let '(t, out) := send_all streamID t records in
        let '(w, b, t, outs, r) := tail_sealed streamID accept w b t metas in
        (w, b, t, out ++ outs, r)
      end
  end.

(** Step 2 of a pass: the open file, from where the last pass stopped. *)
Definition tail_open (streamID : bytes) (accept : bool) (w : World) (t : Tail) (latestOpenFrom : Z)
    : World * Tail * list TailResponse * result buf_error () :=
  let t := if latestOpenFrom =? tl_curOpenFrom t then t
           else mkTail (tl_fromSeq t) (tl_fromPos t) (tl_firstSent t) latestOpenFrom 0 in
  if tl_curOpenFrom t <=? 0 then (w, t, [], Ok ())
  else
    let '(w, r) := ReadRecordsFromOffset w (FormatStreamFileName (tl_curOpenFrom t) 0 false) (tl_openOffset t) accept in
    match r with
    | Err e => (w, t, [], Err (ErrDisk e))
    | Ok (recs, nextOffset) =>
      let t := mkTail (tl_fromSeq t) (tl_fromPos t) (tl_firstSent t) (tl_curOpenFrom t) nextOffset in
      let '(t, out) := send_all streamID t recs in (w, t, out, Ok ())
    end.

(** The first half of a pass: flush, list the sealed files, send them. *)
Definition tail_first (streamID : bytes) (accept : bool) y s (t : Tail)
    : Sys B * StreamStore * Tail * list TailResponse * result buf_error () :=
  let sid := uuid_String streamID in
  let '(s, _) := getOrCreateStream s streamID in
  let '(y, s, fl) := on_writer y s sid flush_op (Ok ()) in
  match fl with
  | Err e => (y, s, t, [], Err (ErrDisk e))
  | Ok _ =>
    let '(y, s, sealedList) := on_writer y s sid getSealedMetas [] in
    let '(w, b, t, out, r) := tail_sealed streamID accept (stream_world y sid) (sy_backend y) t sealedList in
    (set_backend (put_world y sid w) b, s, t, out, r)
  end.

(** The second half: what the open file has. *)
Definition tail_second (streamID : bytes) (accept : bool) y s (t : Tail)
    : Sys B * Tail * list TailResponse * result buf_error () :=
  let sid := uuid_String streamID in
  let latestOpenFrom := match getStream s streamID with Some sw => sw_openFrom sw | None => 0 end in
  let '(w, t, out, r) := tail_open streamID accept (stream_world y sid) t latestOpenFrom in
  (put_world y sid w, t, out, r).

Definition tail_pass (streamID : bytes) (accept : bool) y s (t : Tail)
    : Sys B * StreamStore * Tail * list TailResponse * result buf_error () :=
  let '(y, s, t, out1, r) := tail_first streamID accept y s t in
  match r with
  | Err e => (y, s, t, out1, Err e)
  | Ok _ =>
    let '(y, t, out2, r) := tail_second streamID accept y s t in (y, s, t, out1 ++ out2, r)
  end.

End tail.

(** ** Reading files *)

Lemma decode_prefix_scan fuel : forall rd acc off,
  decode_prefix fuel rd acc off = fst (scan_loop (R := LogRecord) fuel rd acc off).
Proof.
  induction fuel as [|k IH]; intros rd acc off; [done|]. cbn [decode_prefix scan_loop].
  change (sf_decode rd) with (DecodeLogRecord rd). destruct (DecodeLogRecord rd) as [rd' [r|e]]; [apply IH|].
  by destruct e.
Qed.

Lemma decode_prefix_all rd (rs : list LogRecord) off :
  Forall log_ok rs -> rd_readable rd = encode_all rs -> rd_fault rd = None ->
  decode_prefix (scan_fuel rd) rd [] off = (rs, off + Z.of_nat (length (encode_all rs))).
Proof.
  intros HF HR Hf. rewrite decode_prefix_scan. destruct rs as [|r rs].
  - unfold scan_fuel. rewrite HR. cbn [length encode_all]. cbn [scan_loop].
    assert (exists r : LogRecord, sf_ok r) as Hex.
    { exists (mkLogRecord 0 (replicate 16 x00) 0 [] (LogRecord_ComputeCRC32C (mkLogRecord 0 (replicate 16 x00) 0 [] 0))).
      split; [|done]. repeat split; try done; cbn; lia. }
    destruct (sf_decode_eof (R := LogRecord) rd Hex HR Hf) as [rd' ->]. cbn. by rewrite Z.add_0_r.
  - erewrite scan_loop_tail; [done| |done|by left|by rewrite app_nil_r|done|].
    + exists r. by apply Forall_cons in HF as [? _].
    + unfold scan_fuel. rewrite HR. pose proof (encode_all_length_ge (r :: rs) HF). lia.
Qed.

Lemma read_segment w n f (rs : list LogRecord) accept :
  no_faults w -> w_dir w !! n = Some (EFile f) -> f_data f = segment_bytes rs -> Forall log_ok rs ->
  ReadRecordsFromOffset w n 0 accept = (w, Ok (rs, Z.of_nat (length (segment_bytes rs)))).
Proof.
  intros Hw Hn Hd HF. unfold ReadRecordsFromOffset. rewrite (os_Open_ok _ _ f), f_Close_ok, Hd by done. cbn [Z.eqb].
  unfold segment_bytes. rewrite ReadSegmentHeader_default.
  rewrite (decode_prefix_all _ rs) by (try done; apply readable_body).
  rewrite length_app, default_header_length. do 4 f_equal. lia.
Qed.

Lemma read_suffix w n f (op1 op2 : list LogRecord) accept :
  no_faults w -> w_dir w !! n = Some (EFile f) -> f_data f = segment_bytes (op1 ++ op2) -> Forall log_ok op2 ->
  ReadRecordsFromOffset w n (Z.of_nat (length (segment_bytes op1))) accept =
  (w, Ok (op2, Z.of_nat (length (segment_bytes (op1 ++ op2))))).
Proof.
  intros Hw Hn Hd HF. unfold ReadRecordsFromOffset. rewrite (os_Open_ok _ _ f), f_Close_ok, Hd by done.
  rewrite !segment_bytes_length. replace (_ =? 0) with false by (symmetry; apply Z.eqb_neq; lia).
  rewrite Nat2Z.id. rewrite (decode_prefix_all _ op2); [|done| |done].
  - rewrite encode_all_app, length_app. do 3 f_equal. lia.
  - unfold rd_readable, rd_seek, segment_bytes. cbn [rd_data rd_pos rd_fault reader_of].
    rewrite encode_all_app, app_assoc, drop_app_length'; [done|].
    by rewrite length_app, default_header_length.
Qed.

Lemma read_blank w n f accept :
  no_faults w -> w_dir w !! n = Some (EFile f) -> f_data f = [] ->
  ReadRecordsFromOffset w n 0 accept = (w, Ok ([], 0)).
Proof.
  intros Hw Hn Hd. unfold ReadRecordsFromOffset. by rewrite (os_Open_ok _ _ f), f_Close_ok, Hd.
Qed.

Lemma read_missing w n off accept :
  no_faults w -> w_dir w !! n = None -> ReadRecordsFromOffset w n off accept = (w, Ok ([], off)).
Proof. intros Hw Hn. unfold ReadRecordsFromOffset, os_Open. rewrite next_outcome_ok by done. by rewrite Hn. Qed.

(** ** Sending *)

Lemma send_all_app id l l' : forall t,
  send_all id t (l ++ l') =
  (let '(t1, o1) := send_all id t l in let '(t2, o2) := send_all id t1 l' in (t2, o1 ++ o2)).
Proof.
  induction l as [|r l IH]; intros t; cbn [app send_all]; [by destruct (send_all id t l')|].
  destruct (sendRecord id t r) as [t1 o1]. rewrite IH. destruct (send_all id t1 l) as [t2 o2].
  destruct (send_all id t2 l') as [t3 o3]. by rewrite app_assoc.
Qed.

(** Only the sequence number moves, and only up, with what is sent. *)
Lemma send_all_fields id l : forall t t' out,
  send_all id t l = (t', out) ->
  tl_fromPos t' = tl_fromPos t /\ tl_curOpenFrom t' = tl_curOpenFrom t /\ tl_openOffset t' = tl_openOffset t /\
  tl_fromSeq t' = top (tl_fromSeq t) (ts_Record <$> out) /\
  Forall (fun o => ts_Record o ∈ l /\ lr_StreamID (ts_Record o) = id /\
                   (tl_fromPos t = 0 \/ tl_fromPos t <= lr_Position (ts_Record o) \/ tl_fromPos t < 0)) out /\
  newer (tl_fromSeq t) (ts_Record <$> out) = ts_Record <$> out.
Proof.
  induction l as [|r l IH]; intros t t' out; cbn [send_all]; [by intros [= <- <-]|].
  unfold sendRecord. destruct (negb _ || _) eqn:E1.
  - destruct (send_all id t l) as [t1 o1] eqn:E. intros [= <- <-]. destruct (IH _ _ _ E) as (? & ? & ? & ? & HF & ?).
    split_and!; try done. eapply Forall_impl; [exact HF|]. intros o (? & ?). split; [by right|done].
  - destruct (_ && _) eqn:E2.
    + destruct (send_all id t l) as [t1 o1] eqn:E. intros [= <- <-]. destruct (IH _ _ _ E) as (? & ? & ? & ? & HF & ?).
      split_and!; try done. eapply Forall_impl; [exact HF|]. intros o (? & ?). split; [by right|done].
    + destruct (send_all id _ l) as [t1 o1] eqn:E. intros [= <- <-].
      destruct (IH _ _ _ E) as (? & ? & ? & HT & HF & HN). cbn in *.
      apply orb_false_iff in E1 as [E1 E3].
      apply negb_false_iff in E1. apply bool_decide_eq_true in E1. zify_bool.
      split_and!; try done.
      * rewrite Z.max_r by lia. done.
      * constructor; [|eapply Forall_impl; [exact HF|]; intros o (? & ?); split; [by right|done]].
        split_and!; [left|done|]. cbn. lia.
      * by rewrite (proj2 (Z.ltb_lt _ _)), HN by lia.
Qed.

(** Without a starting position, what is sent is what is newer. *)
Lemma send_all_newer id l : forall t t' out,
  tl_fromPos t = 0 -> Forall (fun r => lr_StreamID r = id) l -> send_all id t l = (t', out) ->
  ts_Record <$> out = newer (tl_fromSeq t) l /\ tl_fromSeq t' = top (tl_fromSeq t) l.
Proof.
  induction l as [|r l IH]; intros t t' out Hp HF; cbn [send_all]; [by intros [= <- <-]|].
  apply Forall_cons in HF as [Hr HF]. unfold sendRecord. rewrite bool_decide_eq_true_2 by done. cbn [negb orb newer].
  rewrite top_cons. destruct (lr_StreamSeq r <=? tl_fromSeq t) eqn:E; zify_bool.
  - destruct (send_all id t l) as [t1 o1] eqn:ES. intros [= <- <-].
    rewrite (proj2 (Z.ltb_ge _ _)), Z.max_l by lia. by eapply IH.
  - rewrite Hp. change (0 <? 0) with false. cbn [andb]. destruct (send_all id _ l) as [t1 o1] eqn:ES. intros [= <- <-].
    rewrite (proj2 (Z.ltb_lt _ _)), Z.max_r by lia. apply IH in ES as [HO HT]; [|done|done]. cbn in *. by rewrite HO.
Qed.

(** ** A pass over the files of a stream *)

(** Encoded records are a prefix only of the records they start. *)
Lemma encode_all_prefix (l1 : list LogRecord) : forall l rest,
  Forall log_ok l1 -> Forall log_ok l -> encode_all l1 ++ rest = encode_all l -> exists l2, l = l1 ++ l2.
Proof.
  induction l1 as [|r l1 IH]; intros l rest H1 H HE; [by exists l|].
  apply Forall_cons in H1 as [Hr H1]. rewrite encode_all_cons, <-app_assoc in HE.
  destruct l as [|r' l].
  { exfalso. rewrite encode_all_nil in HE. apply app_eq_nil in HE as [HE _].
    pose proof (sf_bytes_pos (R := LogRecord) r Hr) as HP. rewrite HE in HP. cbn in HP. lia. }
  apply Forall_cons in H as [Hr' H]. rewrite encode_all_cons in HE.
  pose proof (sf_decode_encode (reader_of (sf_bytes r ++ encode_all l1 ++ rest)) r _ Hr eq_refl) as HD.
  pose proof (sf_decode_encode (reader_of (sf_bytes r ++ encode_all l1 ++ rest)) r' (encode_all l) Hr' HE) as HD'.
  rewrite HD in HD'. injection HD' as _ <-. apply app_inv_head in HE.
  destruct (IH _ _ H1 H HE) as [l2 ->]. by exists l2.
Qed.

Section stream.
Context `{UU : !UuidLib} `{UL : !UuidLaw} {B : Type} `{BK : !Backend B} `{BL : !BackendLaw B}.
Implicit Types (d : gmap bytes Entry) (b : B) (t : Tail) (sw : streamWriter) (ps : list piece) (op : list LogRecord).

Lemma metas_pieces id d objs sw ps op :
  stream_inv id d objs sw ps op -> sw_discovered sw = true -> Forall2 (stream_meta id) (sw_sealed sw) ps.
Proof.
  intros [] Hd. specialize (v_known Hd). apply Forall2_same_length_lookup_2.
  { apply (f_equal length) in v_known. by rewrite !length_fmap in v_known. }
  intros i m p Hm Hp. rewrite Forall_forall in v_metas.
  destruct (v_metas m) as (p' & Hp' & HM); [by eapply list_elem_of_lookup_2|].
  assert (pc_from p' = pc_from p) as HE.
  { destruct HM as (<- & _). apply (f_equal (.!! i)) in v_known. rewrite !list_lookup_fmap, Hm, Hp in v_known. by injection v_known. }
  apply (chained_from_inj 0 ps) in HE as ->; [done..|by eapply list_elem_of_lookup_2].
Qed.

Lemma stream_recs_ok id l : Forall (stream_rec id) l -> Forall log_ok l /\ Forall (fun r => lr_StreamID r = id) l.
Proof. intros HF. split; (eapply Forall_impl; [exact HF|]); by intros r (? & ? & ?). Qed.

Definition piece_file id (w : World) (p : piece) : Prop :=
  w_dir w !! sealed_name p = Some (durable_file (piece_bytes p)) /\ Forall (stream_rec id) (pc_recs p) /\
  pc_recs p <> [] /\ Forall (fun r => lr_StreamSeq r <= pc_to p) (pc_recs p).

Lemma read_sealed_piece id (w : World) b m p accept :
  no_faults w -> stream_meta id m p -> piece_file id w p -> read_sealed w b m accept = (w, b, Ok (pc_recs p)).
Proof.
  intros Hw (_ & _ & HP & _) (HF & HR & Hne & _). unfold read_sealed. rewrite HP.
  rewrite bool_decide_eq_false_2 by apply sealed_name_nonempty.
  rewrite (read_segment _ _ _ (pc_recs p) accept Hw HF) by (try done; by eapply stream_recs_ok).
  by destruct (pc_recs p).
Qed.

Lemma tail_sealed_ok id accept (w : World) b metas ps : forall t,
  no_faults w -> Forall2 (stream_meta id) metas ps -> Forall (piece_file id w) ps -> tl_fromPos t = 0 ->
  exists t' out, tail_sealed id accept w b t metas = (w, b, t', out, Ok ()) /\
    ts_Record <$> out = newer (tl_fromSeq t) (pieces_recs ps) /\
    tl_fromSeq t' = top (tl_fromSeq t) (pieces_recs ps) /\ tl_fromPos t' = 0 /\
    tl_curOpenFrom t' = tl_curOpenFrom t /\ tl_openOffset t' = tl_openOffset t.
Proof.
  intros t Hw HM. revert t. induction HM as [|m p metas ps Hm _ IH]; intros t HF Hp; cbn [tail_sealed].
  { by exists t, []. }
  apply Forall_cons in HF as [Hpf HF]. pose proof Hpf as (_ & HR & _ & HT). pose proof Hm as (_ & HTo & _).
  change (pieces_recs (p :: ps)) with (pc_recs p ++ pieces_recs ps). rewrite newer_app, top_app.
  destruct (me_ToSeq m <=? tl_fromSeq t) eqn:E; zify_bool.
  - destruct (IH t HF Hp) as (t' & out & -> & HO & HT' & HE). exists t', out.
    assert (Forall (fun r => lr_StreamSeq r <= tl_fromSeq t) (pc_recs p)) as HL
      by (eapply Forall_impl; [exact HT|]; cbn; lia).
    assert (top (tl_fromSeq t) (pc_recs p) = tl_fromSeq t) as ->.
    { pose proof (top_ge (tl_fromSeq t) (pc_recs p)). pose proof (top_le (tl_fromSeq t) (pc_recs p) (tl_fromSeq t) (Z.le_refl _) HL). lia. }
    by rewrite newer_none.
  - rewrite (read_sealed_piece id w b m p accept) by done.
    destruct (send_all id t (pc_recs p)) as [t1 o1] eqn:ES.
    destruct (send_all_newer id _ _ _ _ Hp (proj2 (stream_recs_ok _ _ HR)) ES) as [HO1 HT1].
    destruct (send_all_fields _ _ _ _ _ ES) as (Hp1 & Hc1 & Ho1 & _).
    destruct (IH t1 HF ltac:(congruence)) as (t' & out & -> & HO & HT' & Hp' & Hc' & Ho').
    exists t', (o1 ++ out). rewrite fmap_app, HO1, HO, HT1, HT', HT1. split_and!; congruence.
Qed.

Lemma stream_piece_files id (w : World) objs sw ps op :
  stream_inv id (w_dir w) objs sw ps op -> Forall (piece_file id w) ps.
Proof.
  intros HI. pose proof (v_chain _ _ _ _ _ _ HI) as Hc. pose proof (v_files _ _ _ _ _ _ HI) as HF.
  pose proof (v_recs _ _ _ _ _ _ HI) as HR. apply Forall_app in HR as [HR _].
  rewrite Forall_forall in HF. rewrite Forall_forall in HR. rewrite Forall_forall.
  intros p Hp. destruct (chained_elem _ _ _ Hc Hp) as [Hok _]. split_and!; [by apply HF| |by destruct Hok as (_ & ? & _)|].
  - apply Forall_forall. intros r Hr. apply HR, pieces_recs_elem. eauto.
  - apply Forall_forall. intros r Hr. pose proof (piece_ok_range _ _ _ Hok Hr). lia.
Qed.

(** Where the subscriber is in the open file: at its start, or past records it
    has dealt with; or the file has been sealed since. *)
Definition offset_ok d t : Prop :=
  is_u64 (tl_curOpenFrom t) /\
  (tl_openOffset t = 0 \/ tl_curOpenFrom t <= sealed_to d \/
   exists f op1 rest, d !! FormatStreamFileName (tl_curOpenFrom t) 0 false = Some (EFile f) /\
     f_data f = segment_bytes op1 ++ rest /\ tl_openOffset t = Z.of_nat (length (segment_bytes op1)) /\
     Forall (fun r => lr_StreamSeq r <= tl_fromSeq t) op1 /\ Forall log_ok op1).

Lemma offset_grows d d' t : dir_grows d d' -> offset_ok d t -> offset_ok d' t.
Proof.
  intros [HG HL] [HU HO]. split; [done|]. destruct HO as [?|[?|(f & op1 & rest & Hf & Hd & Ho & Hop & Hok)]];
    [by left|right; left; lia|right].
  destruct (proj1 HG _ f _ _ Hf (parse_open _ HU)) as [(f' & Hf' & [more Hm])|?]; [right|by left].
  exists f', op1, (rest ++ more). split_and!; try done. by rewrite Hm, Hd, <-app_assoc.
Qed.

Lemma offset_higher d t t' :
  tl_curOpenFrom t' = tl_curOpenFrom t -> tl_openOffset t' = tl_openOffset t -> tl_fromSeq t <= tl_fromSeq t' ->
  offset_ok d t -> offset_ok d t'.
Proof.
  intros Hc Ho Hs [HU HO]. unfold offset_ok. rewrite Hc, Ho. split; [done|].
  destruct HO as [?|[?|(f & op1 & rest & Hf & Hd & He & Hop & Hok)]]; [by left|by right; left|right; right].
  exists f, op1, rest. split_and!; try done. eapply Forall_impl; [exact Hop|]. cbn. lia.
Qed.

Lemma top_skip q l : Forall (fun r => lr_StreamSeq r <= q) l -> top q l = q.
Proof. intros HL. pose proof (top_ge q l). pose proof (top_le q l q (Z.le_refl _) HL). lia. Qed.

(** The records of the open file that the subscriber has not seen. *)
Lemma open_read id (w : World) objs sw ps r op t accept :
  no_faults w -> stream_inv id (w_dir w) objs sw ps (r :: op) -> sw_pending sw = [] ->
  tl_curOpenFrom t = sw_openFrom sw -> offset_ok (w_dir w) t ->
  exists op1 op2, r :: op = op1 ++ op2 /\ Forall (fun r => lr_StreamSeq r <= tl_fromSeq t) op1 /\
    ReadRecordsFromOffset w (open_name sw) (tl_openOffset t) accept =
    (w, Ok (op2, Z.of_nat (length (segment_bytes (r :: op))))).
Proof.
  intros Hw HI Hp Hc [_ HO]. destruct (v_open _ _ _ _ _ _ HI) as (_ & HF & _ & f & Hf & Hd & _).
  pose proof (v_recs _ _ _ _ _ _ HI) as HR. rewrite Hp, app_nil_r in HR.
  apply Forall_app in HR as [_ HR]. apply stream_recs_ok in HR as [Hok _].
  pose proof (v_rest _ _ _ _ _ _ HI) as HE. rewrite Hp, app_nil_r in HE. apply Forall_cons in HE as [Hlt _].
  destruct HO as [Ho|[Ho|(f' & op1 & rest & Hf' & Hd' & Ho & Hop & Hok1)]].
  - exists [], (r :: op). split_and!; [done..|]. rewrite Ho. by apply (read_segment w _ f).
  - exfalso. rewrite (sealed_to_inv _ _ _ _ _ _ HI) in Ho. lia.
  - rewrite Hc in Hf'. change (w_dir w !! open_name sw = Some (EFile f')) in Hf'.
    rewrite Hf in Hf'. injection Hf' as <-. rewrite Hd in Hd'. unfold segment_bytes in Hd'. rewrite <-app_assoc in Hd'.
    apply app_inv_head in Hd'. destruct (encode_all_prefix op1 (r :: op) rest) as [op2 HE2]; [done..|].
    exists op1, op2. split_and!; [done..|]. rewrite Ho. rewrite HE2 in Hd, Hok |- *. apply Forall_app in Hok as [_ Hok].
    by apply (read_suffix w _ f).
Qed.

Lemma tail_open_ok id (w : World) objs sw ps op t accept :
  no_faults w -> stream_inv id (w_dir w) objs sw ps op -> sw_pending sw = [] ->
  tl_fromPos t = 0 -> offset_ok (w_dir w) t ->
  exists t' out, tail_open id accept w t (sw_openFrom sw) = (w, t', out, Ok ()) /\
    ts_Record <$> out = newer (tl_fromSeq t) op /\ tl_fromSeq t' = top (tl_fromSeq t) op /\
    tl_fromPos t' = 0 /\ offset_ok (w_dir w) t'.
Proof.
  intros Hw HI Hp Hpos HO. unfold tail_open. pose proof (v_from _ _ _ _ _ _ HI) as HV.
  set (t1 := if _ =? _ then t else _).
  assert (tl_fromSeq t1 = tl_fromSeq t /\ tl_fromPos t1 = 0 /\ tl_curOpenFrom t1 = sw_openFrom sw /\ offset_ok (w_dir w) t1)
    as (<- & Hp1 & Hc1 & HO1).
  { unfold t1. destruct (_ =? _) eqn:E; zify_bool; [by split_and!|]. split_and!; try done. split; [done|by left]. }
  clearbody t1. clear t Hpos HO. cbv zeta. rewrite Hc1. fold (open_name sw). destruct op as [|r op].
  - destruct (sw_openFrom sw <=? 0); [by exists t1, []|].
    assert (w_dir w !! open_name sw = None) as HN.
    { destruct (w_dir w !! open_name sw) as [e|] eqn:E; [|done]. exfalso.
      destruct (v_names _ _ _ _ _ _ HI _ _ _ _ _ E (parse_open _ HV)) as [Hne _]. by rewrite Hp in Hne. }
    rewrite read_missing by done. cbn [send_all]. do 2 eexists. split; [done|]. split_and!; try done.
    eapply offset_higher; [..|exact HO1]; done.
  - destruct (open_name_u64 _ _ _ _ _ _ _ HI) as (HF & _ & H0).
    replace (sw_openFrom sw <=? 0) with false by (symmetry; apply Z.leb_gt; lia).
    destruct (open_read id w objs sw ps r op t1 accept) as (op1 & op2 & HE & HL & ->); try done.
    set (t2 := mkTail _ _ _ _ _). destruct (send_all id t2 op2) as [t' out] eqn:ES.
    pose proof (v_recs _ _ _ _ _ _ HI) as HR. rewrite Hp, app_nil_r in HR. apply Forall_app in HR as [_ HR].
    apply stream_recs_ok in HR as [Hok Hids]. pose proof Hids as Hids2. rewrite HE in Hids2. apply Forall_app in Hids2 as [_ Hids2].
    destruct (send_all_newer id op2 t2 t' out Hp1 Hids2 ES) as [HOut HT].
    destruct (send_all_fields _ _ _ _ _ ES) as (Hp' & Hc' & Ho' & _). cbn in HOut, HT, Hp', Hc', Ho'.
    exists t', out. rewrite HOut, HT, Hp'. split; [done|].
    assert (tl_fromSeq t' = top (tl_fromSeq t1) (r :: op)) as HTop by (by rewrite HE, top_app, (top_skip _ op1)).
    split_and!; [by rewrite HE, newer_skip|by rewrite <-HTop|done|].
    split; [rewrite Hc'; congruence|]. right. right.
    destruct (v_open _ _ _ _ _ _ HI) as (_ & _ & _ & f & Hf & Hd & _).
    exists f, (r :: op), []. rewrite Hc', ?Hc1, app_nil_r, Ho'. split_and!; try done.
    apply Forall_forall. intros x Hx. rewrite HTop. by apply top_elem.
Qed.

(** ** A pass on the store *)

Implicit Types (y : Sys B) (s : StreamStore) (G : bytes -> list LogRecord).

Lemma stream_world_put y sid (w : World) b : stream_world (set_backend (put_world y sid w) b) sid = w.
Proof. unfold stream_world. rewrite put_world_dir, decide_True by done. by destruct w. Qed.

Lemma on_writer_some {A} y s sid (f : World -> B -> streamWriter -> World * B * streamWriter * A) dflt sw w b sw' a :
  ss_streams s !! sid = Some sw -> f (stream_world y sid) (sy_backend y) sw = (w, b, sw', a) ->
  on_writer y s sid f dflt = (set_backend (put_world y sid w) b, set_streams s (<[sid := sw']> (ss_streams s)), a).
Proof. intros Hs Hf. unfold on_writer. by rewrite Hs, Hf. Qed.

(** Reading a directory changes nothing. *)
Lemma reread_kept y s G sid :
  store_inv y s G -> kept G y s (set_backend (put_world y sid (stream_world y sid)) (sy_backend y)) s.
Proof.
  intros HI. set (y' := set_backend _ _).
  assert (HD : forall id, stream_dir y' id = stream_dir y id).
  { intros id. unfold stream_dir, y'. rewrite put_world_dir. by case_decide as H; [rewrite H|]. }
  split_and!; [|intros id _; rewrite HD; apply dir_grows_refl|done|done].
  destruct HI. split; try done.
  - intros sid' d. unfold y'. cbn. destruct (decide (sid' = sid)) as [->|Hne].
    + case_decide as Hd; [by rewrite lookup_delete_eq|]. rewrite lookup_insert_eq. intros _.
      destruct (sy_streams y !! sid) eqn:E; [by eapply ti_dirs|]. by cbn in Hd.
    + case_decide; [rewrite lookup_delete_ne by done|rewrite lookup_insert_ne by done]; apply ti_dirs.
  - intros id Hid. destruct (ti_streams id Hid) as (ps & op & H1 & H2). exists ps, op. by rewrite HD.
Qed.

Lemma getSealedMetas_moves id (w : World) b sw w' b' sw' a :
  wf_uuid id -> getSealedMetas w b sw = (w', b', sw', a) ->
  moves id w b sw w' b' sw' /\ a = sw_sealed sw'.
Proof.
  intros Hid. unfold getSealedMetas. destruct (sw_discovered sw).
  - intros [= <- <- <- <-]. split; [apply moves_refl|done].
  - destruct (discoverRemoteSealedLocked w b sw) as [[w1 b1] sw1] eqn:E. intros [= <- <- <- <-].
    split; [by eapply discover_moves|done].
Qed.

Lemma getSealedMetas_pending id (w : World) b sw ps op w' b' sw' a :
  wf_uuid id -> no_faults w -> stream_inv id (w_dir w) (bk_objects b) sw ps op ->
  getSealedMetas w b sw = (w', b', sw', a) ->
  w' = w /\ sw_pending sw' = sw_pending sw /\ stream_inv id (w_dir w) (bk_objects b') sw' ps op.
Proof.
  intros Hid Hw HI. unfold getSealedMetas. destruct (sw_discovered sw); [by intros [= <- <- <- <-]|].
  destruct (discoverRemoteSealedLocked w b sw) as [[w1 b1] sw1] eqn:E. intros [= <- <- <- <-].
  destruct (discover_inv id w b sw ps op w1 b1 sw1) as (-> & HI' & (_ & _ & -> & _) & _); done.
Qed.

(** Every sealed file is local, so the loop over them does not fail. *)
Lemma tail_sealed_local id accept (w : World) b metas ps : forall t,
  no_faults w -> Forall (fun m => exists p, p ∈ ps /\ stream_meta id m p) metas -> Forall (piece_file id w) ps ->
  exists t' out, tail_sealed id accept w b t metas = (w, b, t', out, Ok ()).
Proof.
  intros t Hw HM HF. revert t. induction HM as [|m metas (p & Hp & Hm) _ IH]; intros t; cbn [tail_sealed]; [eauto|].
  destruct (me_ToSeq m <=? tl_fromSeq t); [apply IH|].
  rewrite (read_sealed_piece id w b m p accept) by (try done; rewrite Forall_forall in HF; auto).
  destruct (send_all id t (pc_recs p)) as [t1 o1]. destruct (IH t1) as (t' & out & ->). eauto.
Qed.

Lemma read_offset_world (w : World) n off accept w' r :
  no_faults w -> ReadRecordsFromOffset w n off accept = (w', r) -> w' = w.
Proof.
  intros Hw. unfold ReadRecordsFromOffset, os_Open. rewrite next_outcome_ok by done.
  destruct (w_dir w !! n) as [[f|]|]; [|by intros [= <- <-]..].
  rewrite next_outcome_ok, f_Close_ok by done. destruct (off =? 0); [|by intros [= <- <-]].
  destruct (ReadSegmentHeader _ accept) as [rd [[h o]|e]]; [by intros [= <- <-]|].
  destruct e; by intros [= <- <-].
Qed.

Lemma tail_open_world id accept (w : World) t k w' t' out r :
  no_faults w -> tail_open id accept w t k = (w', t', out, r) -> w' = w.
Proof.
  intros Hw. unfold tail_open. set (t1 := if k =? _ then t else _). cbv zeta.
  destruct (tl_curOpenFrom t1 <=? 0); [by intros [= <- <- <- <-]|].
  destruct (ReadRecordsFromOffset w _ _ accept) as [w1 [[recs o]|e]] eqn:E; apply read_offset_world in E as ->; try done.
  - destruct (send_all id _ recs) as [t2 o2]. by intros [= <- <- <- <-].
  - by intros [= <- <- <- <-].
Qed.

(** What the first half of a pass establishes. *)
Lemma tail_first_ok y s G id t accept y' s' t' out r :
  wf_uuid id -> store_inv y s G -> tail_first id accept y s t = (y', s', t', out, r) ->
  kept G y s y' s' /\ r = Ok () /\
  exists sw ps op, ss_streams s' !! uuid_String id = Some sw /\ sw_pending sw = [] /\
    stream_inv id (stream_dir y' id) (bk_objects (sy_backend y')) sw ps op /\
    newer 0 (pieces_recs ps ++ op) = G id /\
    (sw_discovered sw = true -> tl_fromPos t = 0 ->
     ts_Record <$> out = newer (tl_fromSeq t) (pieces_recs ps) /\
     tl_fromSeq t' = top (tl_fromSeq t) (pieces_recs ps) /\ tl_fromPos t' = 0 /\
     tl_curOpenFrom t' = tl_curOpenFrom t /\ tl_openOffset t' = tl_openOffset t).
Proof.
  intros Hid HI. unfold tail_first. destruct (getOrCreateStream s id) as [s0 sw0] eqn:EC.
  destruct (create_inv _ _ _ _ _ _ Hid HI EC) as (HK0 & Hs0 & _ & _). pose proof (proj1 HK0) as HI0.
  destruct (ti_streams _ _ _ HI0 id Hid) as (ps & op & HS0 & HL0).
  assert (writer_of s0 id = sw0) as HW0 by (unfold writer_of; by rewrite Hs0). rewrite HW0 in *.
  pose proof (ti_faults _ _ _ HI0) as Hf.
  destruct (flush_inv id (stream_world y (uuid_String id)) _ sw0 ps op Hf HS0) as (w1 & sw1 & EF & Hw1 & _ & _ & Hp1 & HS1 & _).
  assert (Hop1 : flush_op (stream_world y (uuid_String id)) (sy_backend y) sw0 = (w1, sy_backend y, sw1, Ok ()))
    by (unfold flush_op; by rewrite EF).
  pose proof (on_writer_some y s0 _ flush_op (Ok ()) sw0 w1 _ sw1 _ Hs0 Hop1) as E1.
  pose proof (on_writer_any y s0 G _ flush_op (Ok ()) _ _ _ HI0 ltac:(intros; by eapply flush_op_moves) E1) as HK1.
  rewrite E1. clear E1. set (y1 := set_backend _ _) in *. set (s1 := set_streams s0 _) in *.
  assert (Hs1 : ss_streams s1 !! uuid_String id = Some sw1) by (cbn; by rewrite lookup_insert_eq).
  destruct (getSealedMetas (stream_world y1 (uuid_String id)) (sy_backend y1) sw1) as [[[w2 b2] sw2] metas] eqn:EG.
  pose proof (on_writer_some y1 s1 _ getSealedMetas [] sw1 w2 b2 sw2 metas Hs1 EG) as E2.
  pose proof (on_writer_any y1 s1 G _ getSealedMetas [] _ _ _ (proj1 HK1)
    ltac:(intros; by eapply getSealedMetas_moves) E2) as HK2.
  destruct (getSealedMetas_moves id _ _ _ _ _ _ _ Hid EG) as [_ ->].
  assert (Hw1' : stream_world y1 (uuid_String id) = w1) by apply stream_world_put. rewrite Hw1' in EG.
  destruct (getSealedMetas_pending id w1 _ sw1 ps _ _ _ _ _ Hid Hw1 HS1 EG) as (-> & Hp2 & HS2).
  rewrite E2. clear E2. set (y2 := set_backend _ b2) in *. set (s2 := set_streams s1 _) in *.
  assert (Hw2 : stream_world y2 (uuid_String id) = w1) by apply stream_world_put.
  change (sy_backend y2) with b2. rewrite Hw2.
  pose proof (stream_piece_files _ _ _ _ _ _ HS2) as HPF.
  destruct (tail_sealed_local id accept w1 b2 (sw_sealed sw2) ps t Hw1 (v_metas _ _ _ _ _ _ HS2) HPF) as (t1 & o1 & ET).
  rewrite ET. intros [= <- <- <- <- <-].
  pose proof (reread_kept y2 s2 G (uuid_String id) (proj1 HK2)) as HK3. rewrite Hw2 in HK3.
  split_and!; [|done|].
  - eapply kept_trans; [exact HK0|intros _]. eapply kept_trans; [exact HK1|intros _]. eapply kept_trans; [exact HK2|by intros _].
  - exists sw2, ps, (op ++ sw_pending sw0). split_and!.
    + cbn. by rewrite lookup_insert_eq.
    + congruence.
    + unfold stream_dir. rewrite put_world_dir, decide_True by done. done.
    + done.
    + intros Hd Hpos. destruct (tail_sealed_ok id accept w1 b2 _ ps t Hw1 (metas_pieces _ _ _ _ _ _ HS2 Hd) HPF Hpos)
        as (t2 & o2 & ET2 & HR). rewrite ET in ET2. injection ET2 as <- <-. done.
Qed.

(** A pass sends what the log has after the last record sent. *)
Lemma tail_pass_ok y s G id t accept y' s' t' out r :
  wf_uuid id -> store_inv y s G -> tail_pass id accept y s t = (y', s', t', out, r) ->
  kept G y s y' s' /\
  (sw_discovered (writer_of s' id) = true -> tl_fromPos t = 0 -> 0 <= tl_fromSeq t -> offset_ok (stream_dir y id) t ->
   r = Ok () /\ ts_Record <$> out = after (tl_fromSeq t) (G id) /\ tl_fromSeq t' = top (tl_fromSeq t) (G id) /\
   tl_fromPos t' = 0 /\ offset_ok (stream_dir y' id) t').
Proof.
  intros Hid HI. unfold tail_pass. destruct (tail_first id accept y s t) as [[[[y1 s1] t1] o1] r1] eqn:E1.
  destruct (tail_first_ok _ _ _ _ _ _ _ _ _ _ _ Hid HI E1) as (HK1 & -> & sw & ps & op & Hs1 & Hp & HS & HL & HT).
  unfold tail_second, getStream. rewrite Hs1.
  destruct (tail_open id accept (stream_world y1 (uuid_String id)) t1 (sw_openFrom sw)) as [[[w2 t2] o2] r2] eqn:E2.
  intros [= <- <- <- <- <-].
  assert (w2 = stream_world y1 (uuid_String id)) as -> by (by eapply tail_open_world, E2; destruct HK1 as [[]]).
  pose proof (reread_kept y1 s1 G (uuid_String id) (proj1 HK1)) as HK2.
  split; [eapply kept_trans; [exact HK1|by intros _]|].
  intros Hd Hpos H0 HO. unfold writer_of in Hd. rewrite Hs1 in Hd. cbn in Hd.
  destruct (HT Hd Hpos) as (HO1 & HT1 & Hp1 & Hc1 & Hoff1).
  assert (offset_ok (stream_dir y1 id) t1) as HOf1.
  { eapply offset_higher; [exact Hc1|exact Hoff1|rewrite HT1; apply top_ge|]. eapply offset_grows, HO. by apply HK1. }
  destruct (tail_open_ok id (stream_world y1 (uuid_String id)) (bk_objects (sy_backend y1)) sw ps op t1 accept)
    as (t' & out & ET & HO2 & HT2 & Hp2 & HOf2); try done.
  { apply (ti_faults _ _ _ (proj1 HK1)). }
  rewrite E2 in ET. injection ET as <- <- ->.
  assert (HG : after (tl_fromSeq t) (G id) = newer (tl_fromSeq t) (pieces_recs ps ++ op))
    by (rewrite <-HL; by apply after_newer).
  split_and!; try done.
  - rewrite fmap_app, HO1, HO2, HT1, HG. by rewrite newer_app.
  - rewrite HT2, HT1, <-top_app, <-HL.
    rewrite <-(Z.max_l (tl_fromSeq t) 0) by done. rewrite !top_max. f_equal. by rewrite newer_top_eq.
  - eapply offset_grows; [|exact HOf2]. by apply HK2.
Qed.

End stream.
