(* ===== verification/WalBuffer.v ===== *)
(** * WalBuffer: what the per-stream files of a WAL buffer guarantee

    The theorems about [StreamStore] and [tailPerStream] over whole histories:
    appends, flushes, seals, uploads, garbage collection, evictions, crashes
    and restarts in any order, with a backend that may fail at any call.  Runs on
    a concrete backend and a concrete [uuid] package are their witnesses, and
    the runs in which the code loses records. *)

From S2P Require Import Prelude Bytes WalRecord FileSys WalSegment WalStore WalPaths ObjectStore WalStream.
From S2P Require Import WalStreamInv WalStreamRecover WalStreamStore WalTail.

#[local] Open Scope Z_scope.
#[local] Open Scope list_scope.

(** ** A [uuid] package *)

Module Uuid.

Definition unhex_digit (c : byte) : option Z :=
  let z := byte_to_Z c in
  if (48 <=? z) && (z <=? 57) then Some (z - 48)
  else if (97 <=? z) && (z <=? 102) then Some (z - 87) else None.

Fixpoint unhex (l : bytes) : option bytes :=
  match l with
  | [] => Some []
  | h :: c :: l =>
    match unhex_digit h, unhex_digit c, unhex l with
    | Some x, Some y, Some r => Some (byte_of_Z (16 * x + y) :: r)
    | _, _, _ => None
    end
  | [_] => None
  end.

Definition String (id : bytes) : bytes :=
  let h := InMemory.hex id in
  take 8 h ++ go "-" ++ take 4 (drop 8 h) ++ go "-" ++ take 4 (drop 12 h) ++ go "-" ++
  take 4 (drop 16 h) ++ go "-" ++ drop 20 h.

Definition Parse (s : bytes) : option bytes :=
  match unhex (take 8 s ++ take 4 (drop 9 s) ++ take 4 (drop 14 s) ++ take 4 (drop 19 s) ++ drop 24 s) with
  | Some id => if bool_decide (length id = 16%nat) then Some id else None
  | None => None
  end.

Lemma hex_cons b l :
  InMemory.hex (b :: l) =
  InMemory.hex_digit (byte_to_Z b / 16) :: InMemory.hex_digit (byte_to_Z b mod 16) :: InMemory.hex l.
Proof. done. Qed.

Lemma unhex_hex l : unhex (InMemory.hex l) = Some l.
Proof.
  induction l as [|b l IH]; [done|]. rewrite hex_cons.
  cbn [unhex]. rewrite IH. destruct b; reflexivity.
Qed.

Lemma hex_chars l : Forall (fun b => b <> slash) (InMemory.hex l).
Proof.
  induction l as [|b l IH]; [constructor|]. rewrite hex_cons.
  constructor; [by destruct b|]. constructor; [by destruct b|done].
Qed.

Lemma hex_length l : length (InMemory.hex l) = (2 * length l)%nat.
Proof.
  induction l as [|b l IH]; [done|]. rewrite hex_cons.
  cbn [length]. lia.
Qed.

Lemma parse_pieces (h : bytes) :
  length h = 32%nat ->
  let s := take 8 h ++ go "-" ++ take 4 (drop 8 h) ++ go "-" ++ take 4 (drop 12 h) ++ go "-" ++
           take 4 (drop 16 h) ++ go "-" ++ drop 20 h in
  take 8 s ++ take 4 (drop 9 s) ++ take 4 (drop 14 s) ++ take 4 (drop 19 s) ++ drop 24 s = h /\ length s = 36%nat.
Proof.
  intros H. do 32 (destruct h as [|? h]; [done|]). destruct h; [|done]. done.
Qed.

End Uuid.

#[export] Instance std_uuid : UuidLib := {| uuid_String := Uuid.String; uuid_Parse := Uuid.Parse |}.

#[export] Instance std_uuid_law : UuidLaw.
Proof.
  split.
  - intros id Hid. cbn. unfold Uuid.Parse, Uuid.String.
    destruct (Uuid.parse_pieces (InMemory.hex id)) as [-> _]; [rewrite Uuid.hex_length, Hid; done|].
    rewrite Uuid.unhex_hex. by rewrite bool_decide_eq_true_2.
  - intros s id. cbn. unfold Uuid.Parse. destruct (Uuid.unhex _) as [l|]; [|done].
    case_bool_decide; [|done]. by intros [= <-].
  - intros id Hid. cbn. unfold Uuid.String.
    destruct (Uuid.parse_pieces (InMemory.hex id)) as [_ H]; [rewrite Uuid.hex_length, Hid; done|]. exact H.
  - intros id Hid. cbn. unfold Uuid.String. pose proof (Uuid.hex_chars id) as HC.
    rewrite !Forall_app. split_and!; try (by apply Forall_take, Forall_drop); try (by repeat constructor);
      [by apply Forall_take|by apply Forall_drop].
Qed.

(** ** A backend that fails on demand *)

(** Each call takes the next answer: [true] fails it without an effect. *)
Record Flaky : Type := mkFlaky {
  fk_mem : InMemory.MemBackend;
  fk_fails : list bool;
}.

Definition flaky_call {A} (b : Flaky) (f : InMemory.MemBackend -> InMemory.MemBackend * result bk_error A)
    : Flaky * result bk_error A :=
  match fk_fails b with
  | true :: l => (mkFlaky (fk_mem b) l, Err BkFailed)
  | l => let '(m, r) := f (fk_mem b) in (mkFlaky m (tail l), r)
  end.

#[export] Instance flaky_backend : Backend Flaky := {|
  bk_PutObject b v k d := flaky_call b (fun m => bk_PutObject m v k d);
  bk_GetObject b v k off len := flaky_call b (fun m => bk_GetObject m v k off len);
  bk_DeleteObject b v k := flaky_call b (fun m => bk_DeleteObject m v k);
  bk_ListObjects b v p := flaky_call b (fun m => bk_ListObjects m v p);
|}.

#[export] Program Instance flaky_backend_law : BackendLaw Flaky := {| bk_objects b := bk_objects (fk_mem b) |}.
Next Obligation.
  intros b v k d. pose proof (PutObject_spec (fk_mem b) v k d) as HS. cbn [bk_PutObject flaky_backend]. unfold flaky_call.
  destruct (fk_fails b) as [|[] l]; [|by left|]; destruct (bk_PutObject (fk_mem b) v k d) as [m r]; exact HS.
Qed.
Next Obligation.
  intros b v k off len H1 H2. pose proof (GetObject_spec (fk_mem b) v k off len H1 H2) as HS. cbn [bk_GetObject flaky_backend].
  unfold flaky_call. destruct (fk_fails b) as [|[] l]; [|done|]; destruct (bk_GetObject (fk_mem b) v k off len) as [m r]; exact HS.
Qed.
Next Obligation.
  intros b v k. pose proof (DeleteObject_spec (fk_mem b) v k) as HS. cbn [bk_DeleteObject flaky_backend]. unfold flaky_call.
  destruct (fk_fails b) as [|[] l]; [|by left|]; destruct (bk_DeleteObject (fk_mem b) v k) as [m r]; exact HS.
Qed.
Next Obligation.
  intros b v p. pose proof (ListObjects_spec (fk_mem b) v p) as HS. cbn [bk_ListObjects flaky_backend]. unfold flaky_call.
  destruct (fk_fails b) as [|[] l]; [|done|]; destruct (bk_ListObjects (fk_mem b) v p) as [m r]; exact HS.
Qed.

(** ** Durable records *)

Lemma decode_all_records (rs : list LogRecord) : forall fuel rd acc,
  Forall log_ok rs -> rd_readable rd = encode_all rs -> rd_fault rd = None -> (length rs < fuel)%nat ->
  decode_all fuel rd acc = Ok (acc ++ rs).
Proof.
  induction rs as [|r rs IH]; intros fuel rd acc HF HR Hf Hl; (destruct fuel as [|k]; [cbn in Hl; lia|]); cbn [decode_all].
  - assert (exists r : LogRecord, sf_ok r) as Hex.
    { exists (mkLogRecord 0 (replicate 16 x00) 0 [] (LogRecord_ComputeCRC32C (mkLogRecord 0 (replicate 16 x00) 0 [] 0))).
      split; [|done]. repeat split; try done; cbn; lia. }
    destruct (sf_decode_eof (R := LogRecord) rd Hex HR Hf) as [rd' HE]. change (sf_decode rd) with (DecodeLogRecord rd) in HE.
    rewrite HE. by rewrite app_nil_r.
  - apply Forall_cons in HF as [Hr HF]. rewrite encode_all_cons in HR.
    pose proof (sf_decode_encode (R := LogRecord) rd r _ Hr HR) as HE. change (sf_decode rd) with (DecodeLogRecord rd) in HE.
    rewrite HE. rewrite IH; [by rewrite <-app_assoc|done| |done|cbn in Hl; lia].
    rewrite rd_readable_advance, HR. apply drop_app_length.
Qed.

Lemma decode_segment_records (rs : list LogRecord) accept :
  Forall log_ok rs -> decode_segment (segment_bytes rs) accept = Ok rs.
Proof.
  intros HF. unfold decode_segment, segment_bytes. rewrite ReadSegmentHeader_default.
  rewrite (decode_all_records rs); [done|done|apply readable_body|done|].
  unfold scan_fuel. rewrite readable_body. pose proof (encode_all_length_ge rs HF). lia.
Qed.

Section history.
Context `{UU : !UuidLib} `{UL : !UuidLaw} {B : Type} `{BK : !Backend B} `{BL : !BackendLaw B}.
Implicit Types (y : Sys B) (s : StreamStore) (id : bytes) (G : bytes -> list LogRecord).

(** The record is in a sealed file of its stream that is on stable storage of the
    service's disk and decodes; nothing is said of its upload. *)
Definition sealed_on_disk y (r : LogRecord) : Prop :=
  exists n f from to recs, stream_dir y (lr_StreamID r) !! n = Some (EFile f) /\
    f_synced f = length (f_data f) /\ ParseStreamPath n = Ok (from, to, true) /\
    decode_segment (f_data f) false = Ok recs /\ r ∈ recs.

Lemma sealed_on_disk_crash y y' (r : LogRecord) : sys_crash y y' -> sealed_on_disk y r -> sealed_on_disk y' r.
Proof.
  intros HC (n & f & from & to & recs & Hn & Hs & HP & HD & Hr). exists n.
  pose proof (yc_crash _ _ HC (uuid_String (lr_StreamID r)) n) as Hc.
  change (w_dir (stream_world y (uuid_String (lr_StreamID r)))) with (stream_dir y (lr_StreamID r)) in Hc.
  change (w_dir (stream_world y' (uuid_String (lr_StreamID r)))) with (stream_dir y' (lr_StreamID r)) in Hc.
  rewrite Hn in Hc. destruct (stream_dir y' (lr_StreamID r) !! n) as [[f'|]|]; try done.
  destruct Hc as (k & Hk & ->). assert (k = length (f_data f)) as -> by lia. rewrite firstn_all.
  by exists (mkFile (f_data f) (length (f_data f))), from, to, recs.
Qed.

Lemma track_reqs_ge R (r : LogRecord) :
  r ∈ R -> 0 < lr_StreamSeq r ->
  exists m, track_reqs R !! uuid_String (lr_StreamID r) = Some m /\ lr_StreamSeq r <= m.
Proof.
  intros Hr H0. unfold track_reqs.
  set (step := fun (reqs : gmap bytes Z) rec => _).
  assert (HM : forall R reqs m, reqs !! uuid_String (lr_StreamID r) = Some m -> lr_StreamSeq r <= m ->
    exists m', foldl step reqs R !! uuid_String (lr_StreamID r) = Some m' /\ lr_StreamSeq r <= m').
  { clear -UU. induction R as [|x R IH]; intros reqs m Hm Hle; [by exists m|]. cbn [foldl]. unfold step at 2.
    destruct (_ <? lr_StreamSeq x) eqn:E; [|by eapply IH]. zify_bool.
    destruct (decide (uuid_String (lr_StreamID x) = uuid_String (lr_StreamID r))) as [Hid|Hid].
    - rewrite Hid in *. eapply IH; [by rewrite lookup_insert_eq|]. rewrite Hm in E. cbn in E. lia.
    - eapply IH; [by rewrite lookup_insert_ne|done]. }
  generalize (∅ : gmap bytes Z). induction Hr as [r R|r x R _ IH]; intros reqs; cbn [foldl]; [|by apply IH].
  unfold step at 2. destruct (_ <? lr_StreamSeq r) eqn:E; zify_bool.
  - eapply HM; [by rewrite lookup_insert_eq|done].
  - destruct (reqs !! uuid_String (lr_StreamID r)) as [m|] eqn:Em; cbn in E; [|lia]. eapply HM; [done|]. lia.
Qed.

(** A record that counts as uploaded is in a sealed file. *)
Lemma uploaded_stored y s G (r : LogRecord) :
  store_inv y s G -> wf_uuid (lr_StreamID r) -> r ∈ G (lr_StreamID r) ->
  lr_StreamSeq r <= sw_uploadedTo (writer_of s (lr_StreamID r)) -> sealed_on_disk y r.
Proof.
  intros HI Hid HG Hle. destruct (ti_streams _ _ _ HI _ Hid) as (ps & op & HS & HL).
  rewrite <-HL in HG. apply newer_elem in HG.
  pose proof (v_up _ _ _ _ _ _ HS) as HU. pose proof (v_rest _ _ _ _ _ _ HS) as HRest.
  apply elem_of_app in HG as [HG|HG]; [|rewrite Forall_forall in HRest; specialize (HRest _ HG); lia].
  apply pieces_recs_elem in HG as (p & Hp & Hrp).
  pose proof (stream_piece_files _ (stream_world y (uuid_String (lr_StreamID r))) _ _ _ _ HS) as HF.
  rewrite Forall_forall in HF. destruct (HF p Hp) as (Hf & HRp & _).
  exists (sealed_name p), (mkFile (piece_bytes p) (length (piece_bytes p))), (pc_from p), (pc_to p), (pc_recs p).
  split_and!; try done.
  - apply parse_sealed. by eapply inv_u64.
  - apply decode_segment_records. by eapply stream_recs_ok.
Qed.

(** So is a covered one. *)
Lemma covered_stored y s G R (r : LogRecord) :
  store_inv y s G -> seg_covered s (track_reqs R) = true -> r ∈ R ->
  wf_uuid (lr_StreamID r) -> r ∈ G (lr_StreamID r) -> sealed_on_disk y r.
Proof.
  intros HI HC Hr Hid HG. apply (uploaded_stored y s G r HI Hid HG).
  destruct (ti_streams _ _ _ HI _ Hid) as (ps & op & HS & HL).
  pose proof (v_recs _ _ _ _ _ _ HS) as HR. rewrite <-HL in HG. apply newer_elem in HG.
  assert (stream_rec (lr_StreamID r) r) as (_ & _ & H0) by (rewrite Forall_forall in HR; auto).
  destruct (track_reqs_ge R r Hr H0) as (m & Hm & Hle).
  unfold seg_covered in HC. apply andb_true_iff in HC as [HC _]. rewrite forallb_forall in HC.
  specialize (HC (uuid_String (lr_StreamID r), m)). rewrite <-list_elem_of_In, elem_of_map_to_list in HC. specialize (HC Hm).
  unfold req_covered in HC. cbn [fst snd] in HC. rewrite uuid_parse_string in HC by done.
  unfold getStream in HC. unfold writer_of. destruct (ss_streams s !! _) as [sw|]; [|done]. cbn.
  apply andb_true_iff in HC as [_ HC]. zify_bool. unfold Datatypes.id. lia.
Qed.

(** C5: garbage collection never deletes the last copy: whatever appends, seals,
    evictions, crashes and restarts came before on a disk that works, with a
    backend failing at any call, when an aggregated segment with records [R] is
    deleted then every record of it that belongs to a stream's log is in a sealed
    file of the stream that is on stable storage of the service's disk, and still
    is after a crash.  The sealed file need not have been uploaded: an upload that
    failed is passed over, as [failed_upload_is_passed_over] shows. *)
Theorem segment_gc_safe y s G segs y' s' deleted errs seg R (r : LogRecord) :
  store_reach y s G -> CheckSegmentGC y s segs = (y', s', deleted, errs) -> seg ∈ deleted ->
  ss_segmentReqs s !! seg = Some (track_reqs R) -> r ∈ R ->
  wf_uuid (lr_StreamID r) -> r ∈ G (lr_StreamID r) ->
  sealed_on_disk y' r /\ forall y'', sys_crash y' y'' -> sealed_on_disk y'' r.
Proof.
  intros HRe HG Hs HQ Hr Hid HGr. pose proof (store_reach_inv _ _ _ HRe) as HI.
  destruct (gc_segments_inv _ _ _ _ _ _ _ _ HI HG) as (HI' & Hst & Hdir & Hd).
  destruct (Hd _ Hs) as (reqs & HQ' & HC). rewrite HQ in HQ'. injection HQ' as <-.
  assert (sealed_on_disk y' r) as HD.
  { destruct (covered_stored y s G R r HI HC Hr Hid HGr) as (n & f & rest).
    exists n, f. unfold stream_dir in *. by rewrite Hdir. }
  split; [done|]. intros y'' HCr. by eapply sealed_on_disk_crash.
Qed.

(** *** Following a stream *)

(** A subscriber that asked for what follows sequence number [q]: operations of
    the store and passes in which the stream's objects have been listed, and
    what has been sent. *)
Inductive tailing (id : bytes) (accept : bool) (q : Z) :
    Sys B -> StreamStore -> (bytes -> list LogRecord) -> Tail -> list LogRecord -> Prop :=
| tg_start y s G : store_reach y s G -> tailing id accept q y s G (tail_start (mkTailRequest q 0)) []
| tg_step y s G t sent y' s' G' :
    tailing id accept q y s G t sent -> store_step (y, s, G) (y', s', G') -> tailing id accept q y' s' G' t sent
| tg_pass y s G t sent y' s' t' out r :
    tailing id accept q y s G t sent -> tail_pass id accept y s t = (y', s', t', out, r) ->
    sw_discovered (writer_of s' id) = true ->
    tailing id accept q y' s' G t' (sent ++ (ts_Record <$> out)).

(** Where a subscriber is. *)
Record tail_inv id q y s G (t : Tail) (sent : list LogRecord) : Prop := {
  tn_store : store_inv y s G;
  tn_pos : tl_fromPos t = 0;
  tn_offset : offset_ok (stream_dir y id) t;
  tn_sent : sent ++ after (tl_fromSeq t) (G id) = after q (G id);
  tn_from : q <= tl_fromSeq t;
  tn_top : tl_fromSeq t = q \/ tl_fromSeq t <= top 0 (G id);
}.

Lemma store_step_log y s G y' s' G' :
  store_step (y, s, G) (y', s', G') ->
  G' = G \/ exists R, G' = appended G R /\ append_ok G R.
Proof. inversion 1; subst; [right; eauto|by left..]. Qed.

Lemma after_above q l R :
  q <= top 0 l -> Forall (fun r => top 0 l < lr_StreamSeq r) R -> after q R = R.
Proof. intros Hq HF. apply after_all. eapply Forall_impl; [exact HF|]. cbn. lia. Qed.

Lemma after_nil_top q l : top 0 l <= q -> after q l = [].
Proof.
  intros Ht. apply filter_none. intros r Hr. pose proof (top_elem 0 l r Hr). lia.
Qed.

Lemma tail_inv_step id q y s G t sent y' s' G' :
  wf_uuid id -> tail_inv id q y s G t sent -> store_step (y, s, G) (y', s', G') -> tail_inv id q y' s' G' t sent.
Proof.
  intros Hid [] HS. destruct (store_step_inv _ _ HS tn_store0) as [HI HGr]. cbn [fst snd] in *.
  split; try done; [by eapply offset_grows; [apply HGr|]|..].
  - destruct (store_step_log _ _ _ _ _ _ HS) as [->|(R & -> & _ & HR)]; [done|]. unfold appended, after in *.
    rewrite !filter_app, app_assoc, tn_sent0. f_equal. destruct tn_top0 as [->|Ht]; [done|].
    destruct (HR id Hid) as (_ & HT & _). change (after (tl_fromSeq t) (filter (fun r => lr_StreamID r = id) R) =
      after q (filter (fun r => lr_StreamID r = id) R)).
    by rewrite !(after_above _ (G id)) by (done || lia).
  - destruct tn_top0 as [?|Ht]; [by left|]. right.
    destruct (store_step_log _ _ _ _ _ _ HS) as [->|(R & -> & _)]; [done|]. unfold appended. rewrite top_app.
    pose proof (top_ge (top 0 (G id)) (filter (fun r => lr_StreamID r = id) R)). lia.
Qed.

Lemma tail_inv_pass id accept q y s G t sent y' s' t' out r :
  wf_uuid id -> 0 <= q -> tail_inv id q y s G t sent -> tail_pass id accept y s t = (y', s', t', out, r) ->
  sw_discovered (writer_of s' id) = true ->
  r = Ok () /\ sent ++ (ts_Record <$> out) = after q (G id) /\ tail_inv id q y' s' G t' (sent ++ (ts_Record <$> out)).
Proof.
  intros Hid H0 [] HP Hd. destruct (tail_pass_ok _ _ _ _ _ _ _ _ _ _ _ Hid tn_store0 HP) as (HK & HT).
  destruct HT as (-> & HO & HF & Hp & HOf); [done|done|lia|done|].
  assert (HE : sent ++ (ts_Record <$> out) = after q (G id)) by (by rewrite HO).
  pose proof (top_ge (tl_fromSeq t) (G id)). pose proof (top_max (tl_fromSeq t) 0 (G id)) as HM.
  rewrite Z.max_l in HM by lia.
  split_and!; [done..|]. split; try done; [apply HK| |lia|].
  - rewrite HE, (after_nil_top (tl_fromSeq t')) by lia. by rewrite app_nil_r.
  - rewrite HF. destruct tn_top0 as [Hq|Ht]; lia.
Qed.

Lemma tailing_inv id accept q y s G t sent :
  wf_uuid id -> 0 <= q -> tailing id accept q y s G t sent -> tail_inv id q y s G t sent.
Proof.
  intros Hid H0. induction 1 as [y s G HR|y s G t sent y' s' G' _ IH HS|y s G t sent y' s' t' out r _ IH HP Hd].
  - split; try done; [by apply store_reach_inv| |by left]. split; [done|by left].
  - by eapply tail_inv_step.
  - by eapply (tail_inv_pass id accept q y s G t sent).
Qed.

(** C6: a subscriber to a stream misses nothing, sees nothing twice and nothing
    out of order: over any history of the store with passes of the subscriber
    in between, what it has been sent followed by what it has yet to see is the
    log of the stream after the sequence number it asked for, and the next pass
    that knows the stream's objects does not fail and brings it up to date. *)
Theorem tail_sends_log id accept q y s G t sent :
  wf_uuid id -> 0 <= q -> tailing id accept q y s G t sent ->
  sent ++ after (tl_fromSeq t) (G id) = after q (G id) /\
  forall y' s' t' out r, tail_pass id accept y s t = (y', s', t', out, r) ->
    sw_discovered (writer_of s' id) = true ->
    r = Ok () /\ sent ++ (ts_Record <$> out) = after q (G id).
Proof.
  intros Hid H0 HT. pose proof (tailing_inv _ _ _ _ _ _ _ _ Hid H0 HT) as HI. split; [apply HI|].
  intros y' s' t' out r HP Hd. by destruct (tail_inv_pass _ _ _ _ _ _ _ _ _ _ _ _ _ Hid H0 HI HP Hd) as (? & ? & _).
Qed.

(** C7: a restart loses nothing: after any history, a crash that cuts the open
    files anywhere past their headers, and a recovery that is given the records
    of the aggregated log that the sealed files do not have, the recovery
    reports no error for any stream and a subscriber that starts at any
    sequence number receives exactly the log after it. *)
Theorem restart_restores_log y s G y1 interval sealBytes agg :
  store_reach y s G -> sys_crash y y1 -> agg_ok y G agg ->
  exists y' s', Recover y1 (NewStreamStore interval sealBytes) agg = (y', s', Ok []) /\
    forall id q accept y2 s2 t2 out r, wf_uuid id -> 0 <= q ->
      tail_pass id accept y' s' (tail_start (mkTailRequest q 0)) = (y2, s2, t2, out, r) ->
      sw_discovered (writer_of s2 id) = true ->
      r = Ok () /\ ts_Record <$> out = after q (G id).
Proof.
  intros HR HC HA. pose proof (store_reach_inv _ _ _ HR) as HI.
  destruct (Recover_inv y y1 s (NewStreamStore interval sealBytes) G agg) as (y' & s' & HE & HI'); try done.
  exists y', s'. split; [done|]. intros id q accept y2 s2 t2 out r Hid H0 HP Hd.
  pose proof (tailing_inv id accept q y' s' G _ [] Hid H0 (tg_start _ _ _ _ _ _ (sr_restart _ _ _ _ _ _ _ _ _ _ HR HC HA HE))) as HT.
  by destruct (tail_inv_pass _ _ _ _ _ _ _ _ _ _ _ _ _ Hid H0 HT HP Hd) as (? & ? & _).
Qed.

(** *** What the directories hold *)

(** C33: the files of a stream are well formed in every reachable state: a sealed
    file is named after the first and the largest sequence number of its
    records, holds at least one record, only records of its stream, and decodes
    completely; there is at most one open file; no two sealed files overlap. *)
Theorem stream_files_wellformed y s G id :
  wf_uuid id -> store_reach y s G ->
  (forall n e from to, stream_dir y id !! n = Some e -> ParseStreamPath n = Ok (from, to, true) ->
    exists f recs, e = EFile f /\ decode_segment (f_data f) false = Ok recs /\ recs <> [] /\
      first_of recs = from /\ top 0 recs = to /\
      Forall (fun r => lr_StreamID r = id /\ from <= lr_StreamSeq r <= to) recs) /\
  (forall n n' e e' k k' t t', stream_dir y id !! n = Some e -> stream_dir y id !! n' = Some e' ->
    ParseStreamPath n = Ok (k, t, false) -> ParseStreamPath n' = Ok (k', t', false) -> n = n') /\
  (forall n n' e e' from from' to to', stream_dir y id !! n = Some e -> stream_dir y id !! n' = Some e' ->
    ParseStreamPath n = Ok (from, to, true) -> ParseStreamPath n' = Ok (from', to', true) ->
    n = n' \/ to < from' \/ to' < from).
Proof.
  intros Hid HR%store_reach_inv. destruct (ti_streams _ _ _ HR id Hid) as (ps & op & HS & _).
  pose proof (v_chain _ _ _ _ _ _ HS) as Hc.
  assert (HN : forall n e from to, stream_dir y id !! n = Some e -> ParseStreamPath n = Ok (from, to, true) ->
    exists p, p ∈ ps /\ n = sealed_name p /\ pc_from p = from /\ pc_to p = to).
  { intros n e from to Hn HP. destruct (v_names _ _ _ _ _ _ HS _ _ _ _ _ Hn HP) as (p & Hp & ->).
    rewrite parse_sealed in HP by (by eapply inv_u64). injection HP as <- <-. eauto. }
  split_and!.
  - intros n e from to Hn HP. destruct (HN _ _ _ _ Hn HP) as (p & Hp & -> & <- & <-).
    pose proof (v_files _ _ _ _ _ _ HS) as HF. rewrite Forall_forall in HF. rewrite (HF p Hp) in Hn. injection Hn as <-.
    destruct (chained_elem _ _ _ Hc Hp) as [Hok _]. pose proof Hok as (_ & Hne & Hfi & _ & Hto).
    pose proof (stream_piece_files _ (stream_world y (uuid_String id)) _ _ _ _ HS) as HPF.
    rewrite Forall_forall in HPF. destruct (HPF p Hp) as (_ & HRp & _). exists (mkFile (piece_bytes p) (length (piece_bytes p))), (pc_recs p).
    split_and!; try done; [apply decode_segment_records; by eapply stream_recs_ok|].
    apply Forall_forall. intros r Hr. split; [|by eapply piece_ok_range]. apply stream_recs_ok in HRp as [_ HRp].
    rewrite Forall_forall in HRp. auto.
  - intros n n' e e' k k' t t' Hn Hn' HP HP'.
    destruct (v_names _ _ _ _ _ _ HS _ _ _ _ _ Hn HP) as [_ ->].
    by destruct (v_names _ _ _ _ _ _ HS _ _ _ _ _ Hn' HP') as [_ ->].
  - intros n n' e e' from from' to to' Hn Hn' HP HP'.
    destruct (HN _ _ _ _ Hn HP) as (p & Hp & -> & <- & <-). destruct (HN _ _ _ _ Hn' HP') as (p' & Hp' & -> & <- & <-).
    destruct (chained_disjoint 0 ps p p' Hc Hp Hp') as [->|?]; [by left|by right].
Qed.

End history.

(** ** Runs *)

Module Demo.

Definition id_a : bytes := replicate 16 x01.
Definition id_b : bytes := replicate 16 x02.

Definition rec (pos : Z) (id : bytes) (seq : Z) : LogRecord :=
  mkLogRecord pos id seq [] (LogRecord_ComputeCRC32C (mkLogRecord pos id seq [] 0)).

Definition seg : bytes := SegmentsPrefix ++ go "00000000000000000001-00000000000000000002.wal".

Definition sys (fails : list bool) : Sys Flaky := mkSys ∅ ∅ [] 100 (mkFlaky (InMemory.New 0) fails).
Definition store : StreamStore := NewStreamStore 0 0.

Definition append (s : StreamStore) (R : list LogRecord) : StreamStore := default s (AppendRecords s R).

Lemma rec_ok pos id seq : is_u64 pos -> wf_uuid id -> is_u64 seq -> log_ok (rec pos id seq).
Proof. intros Hp Hid Hs. by repeat split; try done; cbn; try lia; destruct Hp, Hs. Qed.

Lemma demo_append_ok G pos id seq :
  is_u64 pos -> wf_uuid id -> 0 < seq < 2 ^ 64 -> top 0 (G id) < seq -> append_ok G [rec pos id seq].
Proof.
  intros Hp Hid Hs Ht. split; [by repeat constructor|]. intros id' Hid'.
  rewrite filter_cons. destruct (decide (lr_StreamID (rec pos id seq) = id')) as [<-|Hne]; rewrite filter_nil.
  - split_and!; repeat constructor; try done; cbn; try lia. all: apply Hp || (unfold is_u64; lia).
  - split_and!; constructor.
Qed.

Lemma start_reach fails : store_reach (sys fails) store (fun _ => []).
Proof. constructor. by split_and!. Qed.

Lemma append_reach y s G pos id seq :
  store_reach (B := Flaky) y s G -> is_u64 pos -> wf_uuid id -> 0 < seq < 2 ^ 64 -> top 0 (G id) < seq ->
  store_reach y (append s [rec pos id seq]) (appended G [rec pos id seq]).
Proof.
  intros HR Hp Hid Hs Ht. pose proof (demo_append_ok G pos id seq Hp Hid Hs Ht) as HO.
  destruct (AppendRecords_inv y s G _ (store_reach_inv _ _ _ HR) HO) as (s' & HE & _).
  eapply sr_step; [exact HR|]. unfold append. rewrite HE. by eapply st_append.
Qed.

Lemma triple_eta {A C D} (x : A * C * D) : x = (x.1.1, x.1.2, x.2).
Proof. by destruct x as [[? ?] ?]. Qed.

(** The state after a record, a seal with its upload, and a second record. *)
Definition s1 : StreamStore := TrackSegmentCoverage (append store [rec 1 id_a 1]) seg [rec 1 id_a 1].
Definition sealed : Sys Flaky * StreamStore * (option StreamMeta * result buf_error ()) := SealStream (sys []) s1 id_a.
Definition y2 : Sys Flaky := sealed.1.1.
Definition s2 : StreamStore := append sealed.1.2 [rec 2 id_a 2].
Definition G2 : bytes -> list LogRecord := appended (appended (fun _ => []) [rec 1 id_a 1]) [rec 2 id_a 2].

Lemma log2 : G2 id_a = [rec 1 id_a 1; rec 2 id_a 2].
Proof. reflexivity. Qed.

Lemma reach2 : store_reach y2 s2 G2.
Proof.
  apply append_reach; [|done|done|lia|by vm_compute]. eapply sr_step; [|eapply (st_seal _ _ _ id_a _ _ sealed.2); [done|]].
  - eapply sr_step; [|eapply (st_track _ (append store [rec 1 id_a 1]) _ seg [rec 1 id_a 1]); by vm_compute].
     apply append_reach; [|done|done|lia|by vm_compute]. apply start_reach.
  - exact (triple_eta sealed).
Qed.

End Demo.

Lemma segment_gc_safe_witness :
  exists y' : Sys Flaky, sealed_on_disk y' (Demo.rec 1 Demo.id_a 1) /\
    forall y'', sys_crash y' y'' -> sealed_on_disk y'' (Demo.rec 1 Demo.id_a 1).
Proof.
  destruct (CheckSegmentGC Demo.y2 Demo.s2 [Demo.seg]) as [[[y' s'] del] errs] eqn:E. exists y'.
  eapply (segment_gc_safe Demo.y2 Demo.s2 Demo.G2 [Demo.seg] y' s' del errs Demo.seg [Demo.rec 1 Demo.id_a 1]);
    [apply Demo.reach2|exact E| | |left|done|].
  - assert (HB : bool_decide ((CheckSegmentGC Demo.y2 Demo.s2 [Demo.seg]).1.2 = [Demo.seg]) = true) by (vm_compute; reflexivity).
    apply bool_decide_eq_true in HB. rewrite E in HB. cbn in HB. rewrite HB. left.
  - assert (HB : bool_decide (ss_segmentReqs Demo.s2 !! Demo.seg = Some (track_reqs [Demo.rec 1 Demo.id_a 1])) = true)
      by (vm_compute; reflexivity).
    by apply bool_decide_eq_true in HB.
  - change (Demo.rec 1 Demo.id_a 1 ∈ Demo.G2 Demo.id_a). rewrite Demo.log2. left.
Defined.

Lemma stream_files_wellformed_witness :
  exists f recs, stream_dir Demo.y2 Demo.id_a !! FormatStreamFileName 1 1 true = Some (EFile f) /\
    decode_segment (f_data f) false = Ok recs /\ first_of recs = 1.
Proof.
  destruct (stream_files_wellformed Demo.y2 Demo.s2 Demo.G2 Demo.id_a eq_refl Demo.reach2) as (HF & _ & _).
  assert (HB : bool_decide (is_Some (stream_dir Demo.y2 Demo.id_a !! FormatStreamFileName 1 1 true)) = true)
    by (vm_compute; reflexivity).
  apply bool_decide_eq_true in HB as [e He].
  destruct (HF _ e 1 1 He ltac:(vm_compute; reflexivity)) as (f & recs & -> & HD & _ & HFi & _).
  exists f, recs. exact (conj He (conj HD HFi)).
Defined.

Module Demo2.
Import Demo.

(** The first pass of a subscriber. *)
Definition pass : Sys Flaky * StreamStore * Tail * list TailResponse * result buf_error () :=
  tail_pass id_a false y2 s2 (tail_start (mkTailRequest 0 0)).
Definition y3 : Sys Flaky := pass.1.1.1.1.
Definition s3 : StreamStore := append pass.1.1.1.2 [rec 3 id_a 3].
Definition t3 : Tail := pass.1.1.2.
Definition G3 : bytes -> list LogRecord := appended G2 [rec 3 id_a 3].
(** The second, after a third record. *)
Definition pass2 : Sys Flaky * StreamStore * Tail * list TailResponse * result buf_error () :=
  tail_pass id_a false y3 s3 t3.

Lemma five_eta {A C D E F} (x : A * C * D * E * F) : x = (x.1.1.1.1, x.1.1.1.2, x.1.1.2, x.1.2, x.2).
Proof. by destruct x as [[[[? ?] ?] ?] ?]. Qed.

Lemma tailing3 : tailing id_a false 0 y3 s3 G3 t3 (ts_Record <$> pass.1.2).
Proof.
  assert (HT : tailing id_a false 0 y3 pass.1.1.1.2 G2 t3 ([] ++ (ts_Record <$> pass.1.2))).
  { eapply tg_pass; [by apply tg_start, reach2|exact (five_eta pass)|vm_compute; reflexivity]. }
  eapply tg_step; [exact HT|]. unfold s3, append.
  pose proof (demo_append_ok G2 3 id_a 3 ltac:(done) ltac:(done) ltac:(lia) ltac:(by vm_compute)) as HO.
  pose proof (tailing_inv id_a false 0 _ _ _ _ _ eq_refl (Z.le_refl 0) HT) as [HI _ _ _ _ _].
  destruct (AppendRecords_inv y3 pass.1.1.1.2 G2 _ HI HO) as (s' & HE & _). rewrite HE. by eapply st_append.
Qed.

(** A disk whose files are on stable storage survives a crash as it is. *)
Definition all_synced (y : Sys Flaky) : bool :=
  forallb (fun e : bytes * gmap bytes Entry =>
    forallb (fun e : bytes * Entry =>
      match e.2 with
      | EFile f => bool_decide (f_synced f = length (f_data f)) && bool_decide (16 <= length (f_data f))%nat
      | EDir => true
      end) (map_to_list e.2)) (map_to_list (sy_streams y)).

Lemma synced_crash y : all_synced y = true -> sy_outcomes y = [] -> sys_crash y y.
Proof.
  intros HA Ho.
  assert (HF : forall sid n f,
    w_dir (stream_world y sid) !! n = Some (EFile f) -> f_synced f = length (f_data f) /\ (16 <= length (f_data f))%nat).
  { intros sid n f. cbn. destruct (sy_streams y !! sid) as [d|] eqn:Ed; cbn; [|by rewrite lookup_empty]. intros Hn.
    unfold all_synced in HA. rewrite forallb_forall in HA. specialize (HA (sid, d)).
    rewrite <-list_elem_of_In, elem_of_map_to_list in HA. specialize (HA Ed). cbn in HA.
    rewrite forallb_forall in HA. specialize (HA (n, EFile f)).
    rewrite <-list_elem_of_In, elem_of_map_to_list in HA. specialize (HA Hn). cbn in HA.
    apply andb_true_iff in HA as [H1%bool_decide_eq_true H2%bool_decide_eq_true]. done. }
  split; try done.
  - intros sid n. destruct (w_dir (stream_world y sid) !! n) as [[f|]|] eqn:E; [|done..].
    destruct (HF sid n f E) as [Hs _]. exists (length (f_data f)). split; [lia|].
    rewrite firstn_all, <-Hs. by destruct f.
  - intros sid n f k t Hn _. right. by eapply HF.
Qed.

Lemma agg2 : agg_ok y2 G2 [rec 2 id_a 2].
Proof.
  split; [by repeat constructor|..].
  - intros id r Hid [Hr1 Hr2]%list_elem_of_filter. apply list_elem_of_singleton in Hr2 as ->. rewrite <-Hr1.
    change (rec 2 id_a 2 ∈ G2 id_a). rewrite log2. right. left.
  - intros id Hid. destruct (decide (id = id_a)) as [->|Hne].
    + assert (HQ : (sealed_to (stream_dir y2 id_a) =? 1) = true) by (vm_compute; reflexivity).
      apply Z.eqb_eq in HQ. cbv zeta. rewrite HQ, log2. reflexivity.
    + cbv zeta. unfold G2, appended. rewrite !filter_cons, !filter_nil.
      rewrite !decide_False by (intros HE; by apply Hne). done.
Qed.

End Demo2.

Lemma tail_sends_log_witness :
  (ts_Record <$> Demo2.pass.1.2) ++ (ts_Record <$> Demo2.pass2.1.2) =
  [Demo.rec 1 Demo.id_a 1; Demo.rec 2 Demo.id_a 2; Demo.rec 3 Demo.id_a 3].
Proof.
  destruct (tail_sends_log Demo.id_a false 0 Demo2.y3 Demo2.s3 Demo2.G3 Demo2.t3 (ts_Record <$> Demo2.pass.1.2)
    eq_refl (Z.le_refl 0) Demo2.tailing3) as [_ HT].
  destruct (HT _ _ _ _ _ (Demo2.five_eta Demo2.pass2)) as [_ ->]; [vm_compute; reflexivity|reflexivity].
Defined.

Lemma restart_restores_log_witness :
  exists y' s', Recover Demo.y2 (NewStreamStore 0 0) [Demo.rec 2 Demo.id_a 2] = (y', s', Ok []).
Proof.
  destruct (restart_restores_log Demo.y2 Demo.s2 Demo.G2 Demo.y2 0 0 [Demo.rec 2 Demo.id_a 2]) as (y' & s' & HE & _).
  - apply Demo.reach2.
  - apply Demo2.synced_crash; vm_compute; reflexivity.
  - apply Demo2.agg2.
  - exists y', s'. exact HE.
Defined.

(** ** Histories in which records are lost *)

Module Loss.
Import Demo.

Definition sent_seqs (out : list TailResponse) : list Z := (fun o => lr_StreamSeq (ts_Record o)) <$> out.

Definition tail_from_start (y : Sys Flaky) (s : StreamStore) : list Z :=
  let '(_, _, _, out, _) := tail_pass id_a false y s (tail_start (mkTailRequest 0 0)) in sent_seqs out.

(** A failed write loses records: [flushPendingLocked] forgets the pending
    records and counts them as written before it writes them.  When the disk
    fails that write once, record 1 is in no file, yet the next seal covers its
    number, the aggregated segment is deleted, and a subscriber from the start
    is sent record 2 only. *)
Theorem failed_write_loses_record :
  let y := mkSys ∅ ∅ [OOk; OOk; OOk; OFail 0] 100 (mkFlaky (InMemory.New 0) []) in
  let s := TrackSegmentCoverage store seg [rec 1 id_a 1; rec 2 id_a 2] in
  let '(y, s) := flushAllPending y (append s [rec 1 id_a 1]) [uuid_String id_a] in
  let '(y, s, (_, sealed)) := SealStream y (append s [rec 2 id_a 2]) id_a in
  let '(y, s, deleted, _) := CheckSegmentGC y s [seg] in
  (sealed, deleted, tail_from_start y s) = (Ok (), [seg], [2]).
Proof. vm_compute. reflexivity. Qed.

(** The streams' objects in storage. *)
Definition stream_objects (y : Sys Flaky) : list (list Z) :=
  omap (fun kv : bytes * InMemory.memoryObject =>
    match decode_segment (InMemory.mo_data kv.2) false with
    | Ok recs => Some (lr_StreamSeq <$> recs)
    | Err _ => None
    end) (map_to_list (InMemory.mb_objects (fk_mem (sy_backend y)))).

(** An upload that fails is forgotten by garbage collection: the uploaded
    position is a maximum.  When the upload of the first sealed file fails and
    that of the second succeeds, the aggregated segment of the first is deleted
    although no object in storage holds its record. *)
Theorem failed_upload_is_passed_over :
  let s := TrackSegmentCoverage (append store [rec 1 id_a 1]) seg [rec 1 id_a 1] in
  let '(y, s, (_, first)) := SealStream (sys [false; true; true; false]) s id_a in
  let '(y, s, (_, second)) := SealStream y (append s [rec 2 id_a 2]) id_a in
  let '(y, s, deleted, _) := CheckSegmentGC y s [seg] in
  (first, second, deleted, stream_objects y) = (Err (ErrBackend BkFailed), Ok (), [seg], [[2]]).
Proof. vm_compute. reflexivity. Qed.

(** A seal in the middle of a pass loses records: the pass lists the sealed
    files before it looks at the open one.  When records 1 and 2 are sealed and
    record 3 is written in between, the subscriber is sent record 3 and, from
    then on, never records 1 and 2. *)
Theorem seal_during_pass_loses_records :
  let '(y, s, t, out1, _) := tail_first id_a false (sys []) store (tail_start (mkTailRequest 0 0)) in
  let '(y, s, _) := SealStream y (append s [rec 1 id_a 1; rec 2 id_a 2]) id_a in
  let '(y, s) := flushAllPending y (append s [rec 3 id_a 3]) [uuid_String id_a] in
  let '(y, t, out2, _) := tail_second id_a false y s t in
  let '(y, s, t, out3, r) := tail_pass id_a false y s t in
  (sent_seqs (out1 ++ out2 ++ out3), r, tail_from_start y s) = ([3], Ok (), [1; 2; 3]).
Proof. vm_compute. reflexivity. Qed.

(** Trimming does not last: [TrimStreamHistory] deletes the object of a sealed
    file but not the local file, and the next start uploads it again. *)
Theorem trim_undone_by_restart :
  let '(y, s, _) := SealStream (sys []) (append store [rec 1 id_a 1]) id_a in
  let '(y, s, deleted, _) := TrimStreamHistory y s id_a 1 1 in
  let '(y', s', r) := Recover y (NewStreamStore 0 0) [] in
  (length deleted, stream_objects y, stream_objects y', r) = (1%nat, [], [[1]], Ok []).
Proof. vm_compute. reflexivity. Qed.

(** The coverage file runs ahead of pending records: sealing one stream
    writes a covered position although another stream has an earlier record
    that is still only in memory, which a crash then loses from its files. *)
Theorem coverage_ignores_pending :
  let s := append store [rec 1 id_a 1; rec 2 id_b 1] in
  let '(y, s, _) := SealStream (sys []) s id_b in
  let '(y, covered) := LoadCoverage y in
  (covered, bool_decide (stream_dir y id_a = ∅), sw_pending (writer_of s id_a)) =
  (Ok 2, true, [rec 1 id_a 1]).
Proof. vm_compute. reflexivity. Qed.

End Loss.
