(* ===== verification/WalAppend.v ===== *)
(** * WalAppend: appends and the eviction of writers

    [AppendRecords] of src/pkg/wal/buffer/stream_store.go runs beside the pass
    that evicts idle writers: it takes a writer from the map under the lock of
    the store and hands it records under the lock of the writer, and in between
    the writer may have been evicted, in which case it tries again.  The maps of
    WalStream.v hold writers by value; here they are objects that the map, the
    eviction and the appender share.  Every attempt that succeeds is one
    [append_stream] of WalStream.v, one that fails changes nothing, each group of
    records is appended once, and the number of steps is bounded by the number of
    groups and of evicted writers. *)

From S2P Require Import Prelude Bytes WalRecord FileSys WalSegment WalStore WalRetention WalPaths ObjectStore WalTrim WalStream WalBuffer.

#[local] Open Scope Z_scope.
#[local] Open Scope list_scope.

(** ** Writers as shared objects *)

Record Heap : Type := mkHeap {
  hp_streams : gmap bytes nat;
  hp_writers : gmap nat streamWriter;
}.

(** An appender: about to ask for the writer of its first group, or holding a
    pointer to it. *)
Inductive appender : Type :=
| Next (work : list (bytes * list LogRecord))
| Holding (p : nat) (work : list (bytes * list LogRecord)).

Section append.
Context `{UU : !UuidLib}.
Implicit Types (h : Heap) (p : nat) (sid id : bytes) (recs : list LogRecord) (work D : list (bytes * list LogRecord)) (s : StreamStore).

(** [getOrCreateStream] *)
Definition heap_get h id : Heap * nat :=
  let sid := uuid_String id in
  match hp_streams h !! sid with
  | Some p => (h, p)
  | None =>
    let p := fresh (dom (hp_writers h) : gset nat) in
    (mkHeap (<[sid := p]> (hp_streams h)) (<[p := new_writer id]> (hp_writers h)), p)
  end.

(** [appendRecords] of the writer at a pointer; [None] if there is none. *)
Definition heap_append h p recs : option (Heap * bool) :=
  match hp_writers h !! p with
  | None => None
  | Some w => let '(w, ok) := appendRecords w recs in Some (mkHeap (hp_streams h) (<[p := w]> (hp_writers h)), ok)
  end.

(** One round of the loop of [evictIdleWritersLocked]. *)
Definition heap_evict h sid : Heap :=
  match hp_streams h !! sid with
  | None => h
  | Some p =>
    match hp_writers h !! p with
    | None => h
    | Some w =>
      if idle_writer w then mkHeap (delete sid (hp_streams h)) (<[p := set_evicted w true]> (hp_writers h))
      else mkHeap (hp_streams h) (<[p := set_sealedSinceLastPass w false]> (hp_writers h))
    end
  end.

(** The groups of [byStream], in the order of their first records. *)
Definition groups (records : list LogRecord) : list (bytes * list LogRecord) :=
  (fun id => (id, filter (fun r => lr_StreamID r = id) records)) <$> remove_dups (lr_StreamID <$> records).

(** One lock region of the loops of [AppendRecords]; nothing when it is done. *)
Definition appender_step h (t : appender) : option (Heap * appender) :=
  match t with
  | Next [] => None
  | Next ((id, recs) :: work) => let '(h, p) := heap_get h id in Some (h, Holding p ((id, recs) :: work))
  | Holding p ((id, recs) :: work) =>
    match heap_append h p recs with
    | None => None
    | Some (h, ok) => Some (h, Next (if ok then work else (id, recs) :: work))
    end
  | Holding p [] => None
  end.

(** A step of anything else, with the number of writers it evicts: a writer is
    made, an operation changes a writer, evicted or not, the eviction pass comes
    to a stream.  Another appender is the first two. *)
Inductive other : Heap -> Heap -> nat -> Prop :=
| ot_create h id : other h (heap_get h id).1 0
| ot_write h p w w' :
    hp_writers h !! p = Some w -> sw_streamID w' = sw_streamID w -> sw_evicted w' = sw_evicted w ->
    other h (mkHeap (hp_streams h) (<[p := w']> (hp_writers h))) 0
| ot_evict h sid p w :
    hp_streams h !! sid = Some p -> hp_writers h !! p = Some w ->
    other h (heap_evict h sid) (if idle_writer w then 1 else 0).

Definition remaining (t : appender) : list (bytes * list LogRecord) :=
  match t with Next work => work | Holding _ work => work end.

(** Objects and map agree: what the map has is not evicted, and every writer
    that is not evicted is the one the map has for its stream. *)
Record heap_ok h : Prop := {
  ho_map : forall sid p, hp_streams h !! sid = Some p ->
    exists w, hp_writers h !! p = Some w /\ sw_evicted w = false /\ sid = uuid_String (sw_streamID w);
  ho_live : forall p w, hp_writers h !! p = Some w -> sw_evicted w = false ->
    hp_streams h !! uuid_String (sw_streamID w) = Some p;
}.

(** What can happen from a heap on while an appender works: its steps, the
    writers evicted and the groups appended so far. *)
Inductive append_run (h0 : Heap) (work0 : list (bytes * list LogRecord)) : nat -> nat -> list (bytes * list LogRecord) -> Heap -> appender -> Prop :=
| ar_start : append_run h0 work0 0 0 [] h0 (Next work0)
| ar_step n e D h t h' t' :
    append_run h0 work0 n e D h t -> appender_step h t = Some (h', t') ->
    append_run h0 work0 (S n) e (D ++ take (length (remaining t) - length (remaining t')) (remaining t)) h' t'
| ar_other n e D h t h' k :
    append_run h0 work0 n e D h t -> other h h' k -> append_run h0 work0 n (e + k) D h' t.

(** ** The map of writers as values *)

Definition store_of s h : StreamStore := set_streams s (omap (fun p => hp_writers h !! p) (hp_streams h)).

Lemma store_of_lookup s h sid : ss_streams (store_of s h) !! sid = hp_streams h !! sid ≫= fun p => hp_writers h !! p.
Proof. apply lookup_omap. Qed.

Lemma fresh_writer h : hp_writers h !! fresh (dom (hp_writers h) : gset nat) = None.
Proof. apply not_elem_of_dom, is_fresh. Qed.

Lemma fresh_pointer h sid p : heap_ok h -> hp_streams h !! sid = Some p -> p <> fresh (dom (hp_writers h) : gset nat).
Proof. intros [HM _] Hs ->. destruct (HM _ _ Hs) as (w & Hw & _). by rewrite fresh_writer in Hw. Qed.

(** Pointers of different streams differ. *)
Lemma pointer_stream h sid sid' p : heap_ok h -> hp_streams h !! sid = Some p -> hp_streams h !! sid' = Some p -> sid = sid'.
Proof. intros [HM _] H1 H2. destruct (HM _ _ H1) as (w & Hw & _ & ->), (HM _ _ H2) as (w' & Hw' & _ & ->). congruence. Qed.

(** *** Each operation on objects is the one on values *)

(** A writer that stays live is changed in the store. *)
Lemma store_of_write s h sid p w' :
  heap_ok h -> hp_streams h !! sid = Some p ->
  store_of s (mkHeap (hp_streams h) (<[p := w']> (hp_writers h))) = set_streams s (<[sid := w']> (ss_streams (store_of s h))).
Proof.
  intros HO Hs. unfold store_of, set_streams. f_equal. cbn. apply map_eq. intros sid'. rewrite lookup_omap.
  destruct (decide (sid' = sid)) as [->|Hne]; [by rewrite Hs, lookup_insert_eq; cbn; rewrite lookup_insert_eq|].
  rewrite lookup_insert_ne, lookup_omap by done. destruct (hp_streams h !! sid') as [q|] eqn:E; [|done]. cbn.
  rewrite lookup_insert_ne; [done|]. intros ->. apply Hne. by eapply pointer_stream.
Qed.

Lemma heap_get_store s h id : heap_ok h ->
  store_of s (heap_get h id).1 = (getOrCreateStream (store_of s h) id).1.
Proof.
  intros HO. unfold heap_get, getOrCreateStream. rewrite store_of_lookup. destruct (hp_streams h !! uuid_String id) as [p|] eqn:E; cbn.
  - destruct (ho_map _ HO _ _ E) as (w & -> & _). done.
  - unfold store_of, set_streams. f_equal. cbn. apply map_eq. intros sid. rewrite lookup_omap.
    destruct (decide (sid = uuid_String id)) as [->|Hne]; [by rewrite !lookup_insert_eq; cbn; rewrite lookup_insert_eq|].
    rewrite !lookup_insert_ne, lookup_omap by done. destruct (hp_streams h !! sid) as [q|] eqn:Eq; [|done]. cbn.
    rewrite lookup_insert_ne; [done|]. apply not_eq_sym. by eapply fresh_pointer.
Qed.

(** What the eviction pass does to a writer of the map. *)
Definition pass_writer (w : streamWriter) : option streamWriter :=
  if idle_writer w then None else Some (set_sealedSinceLastPass w false).

Lemma heap_evict_store s h sid : heap_ok h ->
  store_of s (heap_evict h sid) = set_streams s (partial_alter (fun o => o ≫= pass_writer) sid (ss_streams (store_of s h))).
Proof.
  intros HO. unfold heap_evict. destruct (hp_streams h !! sid) as [p|] eqn:E.
  2:{ change (store_of s h) with (set_streams s (ss_streams (store_of s h))) at 1. f_equal. apply map_eq. intros i.
      destruct (decide (i = sid)) as [->|Hne]; [|by rewrite lookup_partial_alter_ne].
      by rewrite lookup_partial_alter_eq, store_of_lookup, E. }
  destruct (ho_map _ HO _ _ E) as (w & Hw & _). rewrite Hw.
  assert (HS : ss_streams (store_of s h) !! sid = Some w) by (by rewrite store_of_lookup, E).
  destruct (idle_writer w) eqn:EI.
  - unfold store_of, set_streams. f_equal. cbn [hp_streams hp_writers ss_streams]. apply map_eq. intros sid'. rewrite lookup_omap.
    destruct (decide (sid' = sid)) as [->|Hne].
    + rewrite lookup_delete_eq, lookup_partial_alter_eq. cbn in HS. rewrite HS. cbn. unfold pass_writer. by rewrite EI.
    + rewrite lookup_delete_ne, lookup_partial_alter_ne, lookup_omap by done. destruct (hp_streams h !! sid') as [q|] eqn:Eq; [|done].
      cbn. rewrite lookup_insert_ne; [done|]. intros ->. apply Hne. by eapply pointer_stream.
  - rewrite (store_of_write s h sid p) by done. f_equal. apply map_eq. intros sid'.
    destruct (decide (sid' = sid)) as [->|Hne].
    + rewrite lookup_insert_eq, lookup_partial_alter_eq, HS. cbn. unfold pass_writer. by rewrite EI.
    + by rewrite lookup_insert_ne, lookup_partial_alter_ne.
Qed.

(** ** The operations keep the agreement *)

Lemma heap_get_ok h id : heap_ok h ->
  heap_ok (heap_get h id).1 /\
  exists w, hp_writers (heap_get h id).1 !! (heap_get h id).2 = Some w /\ sw_evicted w = false /\
    uuid_String (sw_streamID w) = uuid_String id.
Proof.
  intros HO. unfold heap_get. destruct (hp_streams h !! uuid_String id) as [p|] eqn:E; cbn [fst snd].
  { split; [done|]. destruct (ho_map _ HO _ _ E) as (w & Hw & Hl & ->). eauto. }
  set (p := fresh _). split; [|exists (new_writer id); cbn [hp_writers]; by rewrite lookup_insert_eq].
  split; cbn [hp_streams hp_writers].
  - intros sid q. rewrite lookup_insert_Some. intros [[<- <-]|[_ Hq]]; [exists (new_writer id); by rewrite lookup_insert_eq|].
    rewrite lookup_insert_ne; [by apply HO|]. apply not_eq_sym. by eapply fresh_pointer.
  - intros q w. rewrite lookup_insert_Some. intros [[<- <-]|[_ Hq]] Hl; [apply lookup_insert_eq|].
    pose proof (ho_live _ HO _ _ Hq Hl) as Hs. rewrite lookup_insert_ne; [done|]. congruence.
Qed.

Lemma write_ok h p w w' :
  heap_ok h -> hp_writers h !! p = Some w -> sw_streamID w' = sw_streamID w -> sw_evicted w' = sw_evicted w ->
  heap_ok (mkHeap (hp_streams h) (<[p := w']> (hp_writers h))).
Proof.
  intros HO Hp Hi He. split; cbn [hp_streams hp_writers].
  - intros sid q Hq. destruct (ho_map _ HO _ _ Hq) as (v & Hv & Hl & ->). destruct (decide (q = p)) as [->|Hne].
    + exists w'. rewrite lookup_insert_eq. rewrite Hp in Hv. injection Hv as ->. split_and!; congruence.
    + exists v. by rewrite lookup_insert_ne.
  - intros q v. rewrite lookup_insert_Some. intros [[<- <-]|[_ Hq]] Hl; [rewrite Hi; apply HO; [done|congruence]|by apply HO].
Qed.

Lemma heap_evict_ok h sid : heap_ok h -> heap_ok (heap_evict h sid).
Proof.
  intros HO. unfold heap_evict. destruct (hp_streams h !! sid) as [p|] eqn:E; [|done].
  destruct (hp_writers h !! p) as [w|] eqn:Hw; [|done]. destruct (idle_writer w); [|by eapply write_ok].
  split; cbn [hp_streams hp_writers].
  - intros sid' q. rewrite lookup_delete_Some. intros [Hne Hq]. rewrite lookup_insert_ne; [by apply HO|].
    intros ->. apply Hne. by eapply pointer_stream.
  - intros q v. rewrite lookup_insert_Some. intros [[<- <-]|[Hne Hq]] Hl; [done|].
    rewrite lookup_delete_ne; [by apply HO|]. intros ->. apply Hne. pose proof (ho_live _ HO _ _ Hq Hl). congruence.
Qed.

(** An attempt on a writer: it fails when the writer is evicted. *)
Lemma heap_append_ok s h p id recs w :
  heap_ok h -> hp_writers h !! p = Some w -> uuid_String (sw_streamID w) = uuid_String id ->
  exists h' ok, heap_append h p recs = Some (h', ok) /\ ok = negb (sw_evicted w) /\ heap_ok h' /\
    if ok then append_stream (store_of s h) id recs = Some (store_of s h') else h' = h.
Proof.
  intros HO Hp Hid. unfold heap_append. rewrite Hp. unfold appendRecords. destruct (sw_evicted w) eqn:EV.
  - eexists _, _. split; [done|]. rewrite insert_id by done. by destruct h.
  - pose proof (ho_live _ HO _ _ Hp EV) as Hs. rewrite Hid in Hs.
    eexists _, _. split; [done|]. split; [done|]. split; [by eapply write_ok|].
    unfold append_stream, getOrCreateStream, appendRecords. rewrite store_of_lookup, Hs. cbn [mbind option_bind].
    rewrite Hp, EV. by rewrite (store_of_write s h (uuid_String id) p).
Qed.

(** A pass over all streams is [evictIdleWritersLocked] of the store. *)
Lemma pass_streams (f : streamWriter -> option streamWriter) l : forall m : gmap bytes streamWriter, NoDup l ->
  foldl (fun m sid => partial_alter (fun o => o ≫= f) sid m) m l =
  map_imap (fun sid w => if decide (sid ∈ l) then f w else Some w) m.
Proof.
  induction l as [|sid l IH]; intros m HN; cbn [foldl].
  - apply map_eq. intros i. rewrite map_lookup_imap. by destruct (m !! i).
  - apply NoDup_cons in HN as [Hn HN]. rewrite IH by done. apply map_eq. intros i. rewrite !map_lookup_imap.
    destruct (decide (i = sid)) as [->|Hne].
    + rewrite lookup_partial_alter_eq. destruct (m !! sid) as [w|]; [|done]. cbn. rewrite (decide_True (P := sid ∈ sid :: l)) by left.
      destruct (f w); [|done]. cbn. by rewrite decide_False.
    + rewrite lookup_partial_alter_ne by done. destruct (m !! i) as [w|]; [|done]. cbn.
      destruct (decide (i ∈ l)); [rewrite decide_True by (by right)|rewrite decide_False by (by rewrite elem_of_cons; intros [?|?])]; done.
Qed.

Lemma heap_pass s h l : heap_ok h ->
  store_of s (foldl heap_evict h l) =
  set_streams s (foldl (fun m sid => partial_alter (fun o => o ≫= pass_writer) sid m) (ss_streams (store_of s h)) l) /\
  heap_ok (foldl heap_evict h l).
Proof.
  revert h. induction l as [|sid l IH]; intros h HO; cbn [foldl]; [split; [by destruct s|done]|].
  destruct (IH (heap_evict h sid) (heap_evict_ok h sid HO)) as [-> HK]. split; [|done]. by rewrite heap_evict_store.
Qed.

(** ** The run of an appender *)

(** The number of failed attempts is at most that of evicted writers: the writer
    an appender holds was live when it took it. *)
Record run_ok (work0 : list (bytes * list LogRecord)) (n e : nat) D h (t : appender) : Prop := {
  ao_heap : heap_ok h;
  ao_work : D ++ remaining t = work0;
  ao_steps : match t with
    | Next _ => (n <= 2 * (length D + e))%nat
    | Holding p work => exists id recs rest w, work = (id, recs) :: rest /\ hp_writers h !! p = Some w /\
        uuid_String (sw_streamID w) = uuid_String id /\
        if sw_evicted w then (n < 2 * (length D + e))%nat else (n <= 2 * (length D + e) + 1)%nat
    end;
}.

Lemma append_run_ok h0 work0 n e D h t : heap_ok h0 -> append_run h0 work0 n e D h t -> run_ok work0 n e D h t.
Proof.
  intros H0. induction 1 as [|n e D h t h' t' _ [HO HW HS] HE|n e D h t h' k _ [HO HW HS] HE]; [by split|..].
  - destruct t as [[|[id recs] work]|p work]; cbn [appender_step] in HE; [done|..].
    + destruct (heap_get h id) as [h1 p] eqn:EG. injection HE as <- <-.
      destruct (heap_get_ok h id HO) as (HO1 & w & Hw & Hl & Hid). rewrite EG in HO1, Hw. cbn [fst snd] in *.
      rewrite Nat.sub_diag, app_nil_r. split; [done|done|]. exists id, recs, work, w. rewrite Hl. split_and!; [done..|lia].
    + destruct HS as (id & recs & rest & w & -> & Hw & Hid & HS).
      destruct (heap_append_ok (NewStreamStore 0 0) h p id recs w HO Hw Hid) as (h1 & ok & EA & Hok & HO1 & HA).
      rewrite EA in HE. injection HE as <- <-. subst ok. cbn [remaining] in *. destruct (sw_evicted w); cbn [negb remaining] in *.
      * rewrite Nat.sub_diag, app_nil_r. split; [done|done|]. lia.
      * replace (length ((id, recs) :: rest) - length rest)%nat with 1%nat by (cbn; lia). cbn [take].
        split; [done|by rewrite <-app_assoc|]. rewrite length_app. cbn. lia.
  - assert (heap_ok h' /\ forall p w, hp_writers h !! p = Some w -> exists w', hp_writers h' !! p = Some w' /\
      sw_streamID w' = sw_streamID w /\ (sw_evicted w' = sw_evicted w \/ k = 1%nat)) as [HO' HP].
    { destruct HE as [h id|h q v v' Hq Hi He|h sid q v Hs Hq].
      - split; [by apply heap_get_ok|]. intros p w Hp. exists w. split; [|by auto]. unfold heap_get.
        destruct (hp_streams h !! uuid_String id); [done|]. cbn. rewrite lookup_insert_ne; [done|].
        intros HF. pose proof (fresh_writer h). congruence.
      - split; [by eapply write_ok|]. intros p w Hp. cbn. destruct (decide (p = q)) as [->|Hne].
        + exists v'. rewrite lookup_insert_eq. rewrite Hq in Hp. injection Hp as <-. auto.
        + exists w. rewrite lookup_insert_ne by done. auto.
      - split; [by apply heap_evict_ok|]. intros p w Hp. unfold heap_evict. rewrite Hs, Hq.
        destruct (decide (p = q)) as [->|Hne].
        + rewrite Hq in Hp. injection Hp as <-. destruct (idle_writer v); cbn [hp_writers]; rewrite lookup_insert_eq; eauto.
        + exists w. destruct (idle_writer v); cbn [hp_writers]; rewrite lookup_insert_ne by done; auto. }
    split; [done|done|]. destruct t as [work|p work]; [lia|]. destruct HS as (id & recs & rest & w & -> & Hw & Hid & HS).
    destruct (HP p w Hw) as (w' & Hw' & Hi & He). exists id, recs, rest, w'. rewrite Hi. split_and!; [done..|].
    destruct He as [->| -> ]; [destruct (sw_evicted w); lia|]. destruct (sw_evicted w), (sw_evicted w'); lia.
Qed.

(** C31: the retry loop of [AppendRecords] ends and loses nothing.  Beside any
    eviction passes, makings of writers and changes of writers by others, an
    appender that is not done can always go on; its steps are at most twice the
    number of its groups and of the writers evicted meanwhile; and the groups it
    has appended and those it still has are its groups, in order. *)
Theorem append_retries_bounded h0 work0 n e D h t :
  heap_ok h0 -> append_run h0 work0 n e D h t ->
  (n <= 2 * (length work0 + e))%nat /\ D ++ remaining t = work0 /\
  (t = Next [] \/ exists h' t', appender_step h t = Some (h', t')).
Proof.
  intros H0 [HO HW HS]%append_run_ok; [|done]. split_and!; [|done|].
  - rewrite <-HW, length_app. destruct t as [work|p work]; [lia|]. destruct HS as (id & recs & rest & w & -> & _ & _ & HS).
    cbn. destruct (sw_evicted w); lia.
  - destruct t as [[|[id recs] work]|p work]; [by left|right..]; cbn [appender_step].
    + destruct (heap_get h id) as [h1 p]. eauto.
    + destruct HS as (id & recs & rest & w & -> & Hw & Hid & _).
      destruct (heap_append_ok (NewStreamStore 0 0) h p id recs w HO Hw Hid) as (h1 & ok & -> & _). eauto.
Qed.

(** C32: the shared writers behave as the map of writers of the other files.  At
    any point of a run, a step of the appender is [getOrCreateStream], or one
    [append_stream] of its group, or a failed attempt that changes nothing; and
    an eviction pass over the streams of the map, which marks the writers it
    drops, is [evictIdleWritersLocked]. *)
Theorem appender_refines_store s h0 work0 n e D h t :
  heap_ok h0 -> append_run h0 work0 n e D h t ->
  (forall h' t', appender_step h t = Some (h', t') ->
     exists id recs work, remaining t = (id, recs) :: work /\
       ((remaining t' = (id, recs) :: work /\ store_of s h' = (getOrCreateStream (store_of s h) id).1) \/
        (t' = Next work /\ append_stream (store_of s h) id recs = Some (store_of s h')) \/
        (t' = Next ((id, recs) :: work) /\ h' = h))) /\
  store_of s (foldl heap_evict h (map_to_list (hp_streams h)).*1) = evictIdleWritersLocked (store_of s h).
Proof.
  intros H0 [HO HW HS]%append_run_ok; [|done]. split.
  - intros h' t' HE. destruct t as [[|[id recs] work]|p work]; cbn [appender_step] in HE; [done|..].
    + pose proof (heap_get_store s h id HO) as HG. destruct (heap_get h id) as [h1 p]. injection HE as <- <-.
      exists id, recs, work. split; [done|]. left. done.
    + destruct HS as (id & recs & rest & w & -> & Hw & Hid & _).
      destruct (heap_append_ok s h p id recs w HO Hw Hid) as (h1 & ok & EA & _ & _ & HA). rewrite EA in HE. injection HE as <- <-.
      exists id, recs, rest. split; [done|]. right. destruct ok; [by left|by right].
  - destruct (heap_pass s h (map_to_list (hp_streams h)).*1 HO) as [-> _]. unfold evictIdleWritersLocked.
    change (set_streams (store_of s h) ?m) with (set_streams s m). f_equal.
    rewrite pass_streams by apply NoDup_fst_map_to_list. apply map_eq. intros sid. rewrite map_lookup_imap, lookup_omap.
    destruct (ss_streams (store_of s h) !! sid) as [w|] eqn:E; [|done]. cbn [mbind option_bind]. rewrite decide_True; [done|].
    rewrite store_of_lookup in E. destruct (hp_streams h !! sid) as [p|] eqn:Ep; [|done].
    apply list_elem_of_fmap. exists (sid, p). split; [done|]. by apply elem_of_map_to_list.
Qed.

(** *** Left alone, the appender does what [AppendRecords] of WalStream.v does *)

Lemma append_stream_created s id recs : append_stream (getOrCreateStream s id).1 id recs = append_stream s id recs.
Proof.
  unfold append_stream, getOrCreateStream. destruct (ss_streams s !! uuid_String id) as [w|] eqn:E; cbn; [by rewrite E|].
  by rewrite lookup_insert_eq.
Qed.

Definition alone (x x' : Heap * appender) : Prop := appender_step x.1 x.2 = Some x'.

Lemma append_alone_streams s records ids : forall h, heap_ok h ->
  exists h', append_streams (store_of s h) records ids = Some (store_of s h') /\
    rtc alone (h, Next ((fun id => (id, filter (fun r => lr_StreamID r = id) records)) <$> ids)) (h', Next []).
Proof.
  induction ids as [|id ids IH]; intros h HO; [by exists h|]. cbn [append_streams fmap list_fmap].
  set (recs := filter _ records). destruct (heap_get_ok h id HO) as (HO1 & w & Hw & Hl & Hid).
  destruct (heap_append_ok s _ _ id recs w HO1 Hw Hid) as (h1 & ok & EA & Hok & HO2 & HA). rewrite Hl in Hok. subst ok. cbn in HA.
  rewrite heap_get_store, append_stream_created in HA by done. rewrite HA. destruct (IH h1 HO2) as (h' & HE & HR).
  exists h'. split; [done|]. destruct (heap_get h id) as [h2 p] eqn:EG. cbn [fst snd] in *.
  eapply rtc_l; [unfold alone; cbn [fst snd appender_step]; by rewrite EG|].
  eapply rtc_l; [unfold alone; cbn [fst snd appender_step]; by rewrite EA|]. done.
Qed.

Lemma append_alone s records h : heap_ok h ->
  exists h', AppendRecords (store_of s h) records = Some (store_of s h') /\ rtc alone (h, Next (groups records)) (h', Next []).
Proof. apply append_alone_streams. Qed.
End append.

(** ** An appender whose writer is evicted while it holds it *)

Module AppendRun.
Import Demo.

Definition h0 : Heap := mkHeap ∅ ∅.
Definition work : list (bytes * list LogRecord) := groups [rec 1 id_a 1].
Definition advance (x : Heap * appender) : Heap * appender := default x (appender_step x.1 x.2).

(** The writer is made and held, evicted, refused, made again, and takes the record. *)
Definition held : Heap * appender := advance (h0, Next work).
Definition evicted : Heap := heap_evict held.1 (uuid_String id_a).
Definition refused : Heap * appender := advance (evicted, held.2).
Definition appended : Heap * appender := advance (advance refused).

Lemma start_ok : heap_ok h0.
Proof. by split. Qed.

Lemma advance_eq x : (if appender_step x.1 x.2 then true else false) = true -> appender_step x.1 x.2 = Some ((advance x).1, (advance x).2).
Proof. unfold advance. by destruct (appender_step x.1 x.2) as [[h t]|]. Qed.

Lemma advance_run n e D x :
  append_run h0 work n e D x.1 x.2 -> (if appender_step x.1 x.2 then true else false) = true ->
  append_run h0 work (S n) e (D ++ take (length (remaining x.2) - length (remaining (advance x).2)) (remaining x.2))
    (advance x).1 (advance x).2.
Proof. intros HR HE%advance_eq. by eapply ar_step. Qed.

Lemma evicted_run : append_run h0 work 1 1 [] evicted held.2.
Proof.
  pose proof (advance_run 0 0 [] (h0, Next work) (ar_start h0 work) ltac:(vm_compute; reflexivity)) as HR.
  refine (ar_other h0 work 1 0 [] held.1 held.2 evicted 1 HR _).
  refine (ot_evict held.1 (uuid_String id_a) 0 (new_writer id_a) _ _); vm_compute; reflexivity.
Qed.

Lemma appended_run : append_run h0 work 4 1 work appended.1 appended.2.
Proof.
  pose proof (advance_run 1 1 [] (evicted, held.2) evicted_run ltac:(vm_compute; reflexivity)) as HR.
  pose proof (advance_run 2 1 [] refused HR ltac:(vm_compute; reflexivity)) as HR2.
  exact (advance_run 3 1 [] (advance refused) HR2 ltac:(vm_compute; reflexivity)).
Qed.

End AppendRun.

Lemma append_retries_bounded_witness :
  (4 <= 2 * (length AppendRun.work + 1))%nat /\ AppendRun.work ++ remaining AppendRun.appended.2 = AppendRun.work.
Proof.
  destruct (append_retries_bounded AppendRun.h0 AppendRun.work 4 1 AppendRun.work AppendRun.appended.1 AppendRun.appended.2
    AppendRun.start_ok AppendRun.appended_run) as (H1 & H2 & _).
  exact (conj H1 H2).
Defined.

Lemma appender_refines_store_witness :
  let s := NewStreamStore 0 0 in
  store_of s (foldl heap_evict AppendRun.appended.1 (map_to_list (hp_streams AppendRun.appended.1)).*1) =
    evictIdleWritersLocked (store_of s AppendRun.appended.1) /\
  size (hp_writers AppendRun.appended.1) = 2%nat.
Proof.
  cbv zeta. split; [|vm_compute; reflexivity].
  exact (proj2 (appender_refines_store (NewStreamStore 0 0) AppendRun.h0 AppendRun.work 4 1 AppendRun.work AppendRun.appended.1
    AppendRun.appended.2 AppendRun.start_ok AppendRun.appended_run)).
Defined.
