(* ===== verification/WalServer.v ===== *)
(** * WalServer: the WAL buffer service

    [pkg/wal/buffer/server.go].  Clients append records to streams; a group
    commit gives them positions, writes them to the local segment store of
    WalSegment.v with one sync, hands them to the per-stream files of
    WalStream.v, and acknowledges them (the witness watermark).  A flush uploads
    the committed records as one aggregated segment and acknowledges them again
    (the S3 watermark).  Aggregated segments are deleted once the per-stream
    files cover them.

    A [Server] is the memory of the process; the data directory of a [Sys]
    holds the files of the local store and the coverage file.  An operation that
    holds the locks of what it changes is one step; a flush, which releases
    them during the upload, is three.  Condition variables and channels become
    guards of the steps.  Go's maps have no order of iteration: where it matters
    the order is an argument. *)

From S2P Require Import Prelude Bytes WalRecord FileSys WalSegment WalPaths ObjectStore WalStream WalTail.

#[local] Open Scope Z_scope.
#[local] Open Scope list_scope.

(** ** Configuration *)

Definition DefaultFlushInterval : Z := 60 * 10 ^ 9.
Definition DefaultFlushBytes : Z := 64 * 1024 * 1024.
Definition DefaultTailCache : Z := 64 * 1024 * 1024.
Definition DefaultBatchDelay : Z := 5 * 10 ^ 6.
Definition DefaultBatchSize : Z := 1024 * 1024.

Record ServerConfig : Type := mkServerConfig {
  cf_FlushInterval : Z;
  cf_FlushBytes : Z;
  cf_TailCacheBytes : Z;
  cf_BatchMaxDelay : Z;
  cf_BatchMaxSize : Z;
  cf_StreamSealInterval : Z;
  cf_StreamSealBytes : Z;
  cf_AcceptUnversioned : bool;
  cf_NoFsync : bool;
}.

Definition or_default (z dflt : Z) : Z := if z <=? 0 then dflt else z.

Definition with_defaults (c : ServerConfig) : ServerConfig :=
  mkServerConfig (or_default (cf_FlushInterval c) DefaultFlushInterval)
    (or_default (cf_FlushBytes c) DefaultFlushBytes)
    (or_default (cf_TailCacheBytes c) DefaultTailCache)
    (or_default (cf_BatchMaxDelay c) DefaultBatchDelay)
    (or_default (cf_BatchMaxSize c) DefaultBatchSize)
    (or_default (cf_StreamSealInterval c) DefaultStreamSealInterval)
    (or_default (cf_StreamSealBytes c) DefaultStreamSealBytes)
    (cf_AcceptUnversioned c) (cf_NoFsync c).

(** ** State *)

Record incomingItem : Type := mkItem {
  it_streamID : bytes;
  it_streamSeq : Z;
  it_payload : bytes;
}.

(** [ws_waiters] counts the forwarders that wait for news.  Waiting is not a
    step here and leaves it alone, so that a state can be evicted in more cases
    than in the code. *)
Record streamState : Type := mkStreamState {
  ws_witnessSeq : Z;
  ws_s3Seq : Z;
  ws_commitErr : option wal_error;
  ws_inFlight : Z;
  ws_ackNeeded : bool;
  ws_attachments : Z;
  ws_waiters : Z;
}.

Definition newStreamState (witnessSeq s3Seq : Z) : streamState :=
  mkStreamState witnessSeq s3Seq None 0 false 0 0.

Definition set_witnessSeq (st : streamState) (x : Z) : streamState :=
  mkStreamState x (ws_s3Seq st) (ws_commitErr st) (ws_inFlight st) (ws_ackNeeded st) (ws_attachments st) (ws_waiters st).
Definition set_s3Seq (st : streamState) (x : Z) : streamState :=
  mkStreamState (ws_witnessSeq st) x (ws_commitErr st) (ws_inFlight st) (ws_ackNeeded st) (ws_attachments st) (ws_waiters st).
Definition set_commitErr (st : streamState) (x : option wal_error) : streamState :=
  mkStreamState (ws_witnessSeq st) (ws_s3Seq st) x (ws_inFlight st) (ws_ackNeeded st) (ws_attachments st) (ws_waiters st).
Definition set_inFlight (st : streamState) (x : Z) : streamState :=
  mkStreamState (ws_witnessSeq st) (ws_s3Seq st) (ws_commitErr st) x (ws_ackNeeded st) (ws_attachments st) (ws_waiters st).
Definition set_ackNeeded (st : streamState) (x : bool) : streamState :=
  mkStreamState (ws_witnessSeq st) (ws_s3Seq st) (ws_commitErr st) (ws_inFlight st) x (ws_attachments st) (ws_waiters st).
Definition set_attachments (st : streamState) (x : Z) : streamState :=
  mkStreamState (ws_witnessSeq st) (ws_s3Seq st) (ws_commitErr st) (ws_inFlight st) (ws_ackNeeded st) x (ws_waiters st).

(** [sv_flushing] holds the records of the flush that runs, which [isFlushing]
    stands for; [sv_batch] is the batch of the group commit loop. *)
Record Server : Type := mkServer {
  sv_cfg : ServerConfig;
  sv_lastPosition : Z;
  sv_lastFlushedPosition : Z;
  sv_flushedSegments : list bytes;
  sv_streams : gmap bytes streamState;
  sv_streamStore : StreamStore;
  sv_localStore : SegmentStore;
  sv_incoming : list incomingItem;
  sv_batch : list incomingItem;
  sv_batchBytes : Z;
  sv_unflushedRecords : list LogRecord;
  sv_unflushedBytes : Z;
  sv_flushing : option (list LogRecord);
  sv_flushSeq : Z;
}.

Definition set_lastPosition (v : Server) (x : Z) : Server :=
  mkServer (sv_cfg v) x (sv_lastFlushedPosition v) (sv_flushedSegments v) (sv_streams v) (sv_streamStore v)
    (sv_localStore v) (sv_incoming v) (sv_batch v) (sv_batchBytes v) (sv_unflushedRecords v) (sv_unflushedBytes v)
    (sv_flushing v) (sv_flushSeq v).
Definition set_flushed (v : Server) (pos : Z) (segs : list bytes) : Server :=
  mkServer (sv_cfg v) (sv_lastPosition v) pos segs (sv_streams v) (sv_streamStore v)
    (sv_localStore v) (sv_incoming v) (sv_batch v) (sv_batchBytes v) (sv_unflushedRecords v) (sv_unflushedBytes v)
    (sv_flushing v) (sv_flushSeq v).
Definition set_states (v : Server) (m : gmap bytes streamState) : Server :=
  mkServer (sv_cfg v) (sv_lastPosition v) (sv_lastFlushedPosition v) (sv_flushedSegments v) m (sv_streamStore v)
    (sv_localStore v) (sv_incoming v) (sv_batch v) (sv_batchBytes v) (sv_unflushedRecords v) (sv_unflushedBytes v)
    (sv_flushing v) (sv_flushSeq v).
Definition set_streamStore (v : Server) (s : StreamStore) : Server :=
  mkServer (sv_cfg v) (sv_lastPosition v) (sv_lastFlushedPosition v) (sv_flushedSegments v) (sv_streams v) s
    (sv_localStore v) (sv_incoming v) (sv_batch v) (sv_batchBytes v) (sv_unflushedRecords v) (sv_unflushedBytes v)
    (sv_flushing v) (sv_flushSeq v).
Definition set_localStore (v : Server) (l : SegmentStore) : Server :=
  mkServer (sv_cfg v) (sv_lastPosition v) (sv_lastFlushedPosition v) (sv_flushedSegments v) (sv_streams v)
    (sv_streamStore v) l (sv_incoming v) (sv_batch v) (sv_batchBytes v) (sv_unflushedRecords v) (sv_unflushedBytes v)
    (sv_flushing v) (sv_flushSeq v).
Definition set_queue (v : Server) (incoming batch : list incomingItem) (batchBytes : Z) : Server :=
  mkServer (sv_cfg v) (sv_lastPosition v) (sv_lastFlushedPosition v) (sv_flushedSegments v) (sv_streams v)
    (sv_streamStore v) (sv_localStore v) incoming batch batchBytes (sv_unflushedRecords v) (sv_unflushedBytes v)
    (sv_flushing v) (sv_flushSeq v).
Definition set_unflushed (v : Server) (recs : list LogRecord) (n : Z) (flushing : option (list LogRecord)) (seq : Z)
    : Server :=
  mkServer (sv_cfg v) (sv_lastPosition v) (sv_lastFlushedPosition v) (sv_flushedSegments v) (sv_streams v)
    (sv_streamStore v) (sv_localStore v) (sv_incoming v) (sv_batch v) (sv_batchBytes v) recs n flushing seq.

(** [wal.LogHeaderSize + len(rec.Payload)], summed. *)
Definition record_bytes (recs : list LogRecord) : Z :=
  foldr (fun r n => LogHeaderSize + Z.of_nat (length (lr_Payload r)) + n) 0 recs.

(** The maximum of a watermark map, as the [if rec.StreamSeq > m[sid]] loops
    build it: [track_reqs] of WalStream.v is the same loop. *)
Definition max_seqs `{!UuidLib} (recs : list LogRecord) : gmap bytes Z := track_reqs recs.

(** ** Operations *)

Section server.
Context `{UU : !UuidLib} {B : Type} `{BK : !Backend B}.
Implicit Types (y : Sys B) (v : Server).

Definition LastPosition v : Z := sv_lastPosition v.
Definition LastFlushedPosition v : Z := sv_lastFlushedPosition v.
Definition StreamCount v : nat := size (sv_streams v).

(** The witness watermark and the S3 watermark cannot fall. *)
Definition raise_seqs (st : streamState) (uploadedTo : Z) : streamState :=
  let st := if ws_witnessSeq st <? uploadedTo then set_witnessSeq st uploadedTo else st in
  if ws_s3Seq st <? uploadedTo then set_s3Seq st uploadedTo else st.

Definition getOrCreateState y v (streamID : bytes) : Sys B * Server * streamState :=
  let sid := uuid_String streamID in
  match sv_streams v !! sid with
  | Some st => (y, v, st)
  | None =>
    let '(y, s, uploadedTo) := EnsureDiscovered y (sv_streamStore v) streamID in
    let v := set_streamStore v s in
    let st := match sv_streams v !! sid with
              | Some st => raise_seqs st uploadedTo
              | None => newStreamState uploadedTo uploadedTo
              end in
    (y, set_states v (<[sid := st]> (sv_streams v)), st)
  end.

(** The guard of [evictIdleStreams] for one entry of the map. *)
Definition evictable v (sid : bytes) (st : streamState) : bool :=
  negb ((0 <? ws_attachments st) || (0 <? ws_waiters st)) &&
  match uuid_Parse sid with
  | None => false
  | Some id => canEvictStream (sv_streamStore v) id (ws_witnessSeq st) (ws_s3Seq st)
  end.

Definition evictIdleStreams v : Server :=
  set_states v (filter (fun e => evictable v e.1 e.2 = false) (sv_streams v)).

(** *** [Append] *)

Inductive append_error : Type :=
| ErrNoHello
| ErrBadStreamID
| ErrCommitFailed (e : wal_error).

(** The first message; the answer is the [HelloAck]. *)
Definition append_hello y v (streamID : bytes) : Sys B * Server * result append_error (Z * Z) :=
  if negb (bool_decide (length streamID = 16%nat)) then (y, v, Err ErrBadStreamID)
  else
    let '(y, v, st) := getOrCreateState y v streamID in
    let st := set_attachments st (ws_attachments st + 1) in
    (y, set_states v (<[uuid_String streamID := st]> (sv_streams v)), Ok (ws_witnessSeq st, ws_s3Seq st)).

Inductive received : Type :=
| RecvDuplicate
| RecvBlocked
| RecvQueued.

(** The body of the read loop for a record: what happens to it.  The handler
    holds its stream's state, which is in the map while it is attached. *)
Definition append_record v (streamID : bytes) (seq : Z) (payload : bytes)
    : Server * result append_error received :=
  let sid := uuid_String streamID in
  match sv_streams v !! sid with
  | None => (v, Ok RecvBlocked)
  | Some st =>
    match ws_commitErr st with
    | Some e => (v, Err (ErrCommitFailed e))
    | None =>
      if seq <=? ws_witnessSeq st then
        (set_states v (<[sid := set_ackNeeded st true]> (sv_streams v)), Ok RecvDuplicate)
      else if 1024 <=? ws_inFlight st then (v, Ok RecvBlocked)
      else
        let v := set_states v (<[sid := set_inFlight st (ws_inFlight st + 1)]> (sv_streams v)) in
        (set_queue v (sv_incoming v ++ [mkItem streamID seq payload]) (sv_batch v) (sv_batchBytes v), Ok RecvQueued)
    end
  end.

(** One turn of the goroutine that forwards watermarks: the new values to
    acknowledge, [None] while there is nothing to say. *)
Definition forward_acks v (streamID : bytes) (lastAckedWitness lastAckedS3 : Z)
    : Server * result append_error (option (Z * Z)) :=
  let sid := uuid_String streamID in
  match sv_streams v !! sid with
  | None => (v, Ok None)
  | Some st =>
    match ws_commitErr st with
    | Some e => (v, Err (ErrCommitFailed e))
    | None =>
      if (ws_witnessSeq st <=? lastAckedWitness) && (ws_s3Seq st <=? lastAckedS3) && negb (ws_ackNeeded st)
      then (v, Ok None)
      else (set_states v (<[sid := set_ackNeeded st false]> (sv_streams v)),
            Ok (Some (ws_witnessSeq st, ws_s3Seq st)))
    end
  end.

(** The client has closed its side: the handler waits for its records. *)
Definition append_eof v (streamID : bytes) : option (result append_error ()) :=
  match sv_streams v !! uuid_String streamID with
  | None => None
  | Some st =>
    match ws_commitErr st with
    | Some e => Some (Err (ErrCommitFailed e))
    | None => if 0 <? ws_inFlight st then None else Some (Ok ())
    end
  end.

Definition append_detach v (streamID : bytes) : Server :=
  set_states v (alter (fun st => set_attachments st (ws_attachments st - 1)) (uuid_String streamID) (sv_streams v)).

(** *** Group commit *)

(** [make_records pos items]: the records with consecutive positions. *)
Fixpoint make_records (lastPosition : Z) (items : list incomingItem) : Z * list LogRecord :=
  match items with
  | [] => (lastPosition, [])
  | item :: items =>
    let pos := u64 (lastPosition + 1) in
    let rec := mkLogRecord pos (it_streamID item) (it_streamSeq item) (it_payload item) 0 in
    let rec := mkLogRecord pos (it_streamID item) (it_streamSeq item) (it_payload item)
                 (LogRecord_ComputeCRC32C rec) in
    let '(last, recs) := make_records pos items in (last, rec :: recs)
  end.

(** [streamCounts]. *)
Definition count_items (items : list incomingItem) (sid : bytes) : Z :=
  Z.of_nat (length (filter (fun it => uuid_String (it_streamID it) = sid) items)).

Definition item_sids (items : list incomingItem) : list bytes :=
  remove_dups ((fun it => uuid_String (it_streamID it)) <$> items).

(** The streams of a batch that could not be written. *)
Definition fail_stream (items : list incomingItem) (e : wal_error) (m : gmap bytes streamState) (sid : bytes)
    : gmap bytes streamState :=
  match m !! sid with
  | None => m
  | Some st =>
    let st := match ws_commitErr st with None => set_commitErr st (Some e) | Some _ => st end in
    <[sid := set_inFlight st (ws_inFlight st - count_items items sid)]> m
  end.

(** [streamMaxSeq[sid]]. *)
Definition batch_max (items : list incomingItem) (sid : bytes) : Z :=
  foldl (fun m it => if bool_decide (uuid_String (it_streamID it) = sid) && (m <? it_streamSeq it)
                     then it_streamSeq it else m) 0 items.

(** The first record of the stream in the batch creates a missing state. *)
Definition first_seq_of (items : list incomingItem) (sid : bytes) : Z :=
  match filter (fun it => uuid_String (it_streamID it) = sid) items with
  | it :: _ => it_streamSeq it
  | [] => 0
  end.

Definition ack_stream (items : list incomingItem) (m : gmap bytes streamState) (sid : bytes) : gmap bytes streamState :=
  let st := default (newStreamState (first_seq_of items sid) 0) (m !! sid) in
  let st := if ws_witnessSeq st <? batch_max items sid then set_witnessSeq st (batch_max items sid) else st in
  <[sid := set_inFlight st (ws_inFlight st - count_items items sid)]> m.

(** Returns whether a background flush is started; [None] where
    [AppendRecords] would not return. *)
Definition commitItems y v (items : list incomingItem) : option (Sys B * Server * bool) :=
  match items with
  | [] => Some (y, v, false)
  | _ =>
    let '(last, recs) := make_records (sv_lastPosition v) items in
    let v := set_lastPosition v last in
    let '(w, l, r) := LogSegmentStore_AppendBatch (root_world y) (sv_localStore v) recs in
    let y := put_root y w in
    let v := set_localStore v l in
    match r with
    | Err e => Some (y, set_states v (foldl (fail_stream items e) (sv_streams v) (item_sids items)), false)
    | Ok _ =>
      match AppendRecords (sv_streamStore v) recs with
      | None => None
      | Some s =>
        let v := set_streamStore v s in
        let n := sv_unflushedBytes v + record_bytes recs in
        let v := set_unflushed v (sv_unflushedRecords v ++ recs) n (sv_flushing v) (sv_flushSeq v) in
        let v := set_states v (foldl (ack_stream items) (sv_streams v) (item_sids items)) in
        Some (y, v, cf_FlushBytes (sv_cfg v) <=? n)
      end
    end
  end.

Definition commitBatch y v : option (Sys B * Server * bool) :=
  match commitItems y v (sv_batch v) with
  | Some (y, v, trigger) => Some (y, set_queue v (sv_incoming v) [] 0, trigger)
  | None => None
  end.

(** The cases of [groupCommitLoop]. *)
Definition loop_receive y v : option (Sys B * Server * bool) :=
  match sv_incoming v with
  | [] => Some (y, v, false)
  | item :: incoming =>
    let n := sv_batchBytes v + (LogHeaderSize + Z.of_nat (length (it_payload item))) in
    let v := set_queue v incoming (sv_batch v ++ [item]) n in
    if cf_BatchMaxSize (sv_cfg v) <=? n then commitBatch y v else Some (y, v, false)
  end.

Definition loop_tick y v : option (Sys B * Server * bool) := commitBatch y v.

(** *** Flushing *)

(** [fmt.Sprintf("%s%012d-%012d.wal", SegmentsPrefix, firstPos, lastPos)]. *)
Definition segment_path (firstPos lastPos : Z) : bytes :=
  SegmentsPrefix ++ fmt_pad 12 firstPos ++ go "-" ++ fmt_pad 12 lastPos ++ go ".wal".

(** The deleted segments leave [flushedSegments]. *)
Definition checkAggregatedSegmentGC y v (segs : list bytes) : Sys B * Server :=
  let '(y, s, deleted, _) := CheckSegmentGC y (sv_streamStore v) segs in
  let v := set_streamStore v s in
  match deleted with
  | [] => (y, v)
  | _ => (y, set_flushed v (sv_lastFlushedPosition v)
               (filter (fun seg => seg ∉ deleted) (sv_flushedSegments v)))
  end.

Definition raise_s3 (maxSeqs : gmap bytes Z) (sid : bytes) (st : streamState) : streamState :=
  match maxSeqs !! sid with
  | Some m => if ws_s3Seq st <? m then set_s3Seq st m else st
  | None => st
  end.

(** [segs] is the order of the garbage collection. *)
Definition doFlush y v (records : list LogRecord) (segs : list bytes) : Sys B * Server * result bk_error () :=
  match records, last records with
  | r0 :: _, Some rl =>
    let firstPos := lr_Position r0 in
    let lastPos := lr_Position rl in
    let segBuf := SegmentHeader_Encode DefaultSegmentHeader ++ concat (LogRecord_Encode <$> records) in
    let segPath := segment_path firstPos lastPos in
    let '(b, r) := bk_PutObject (sy_backend y) [] segPath segBuf in
    let y := set_backend y b in
    match r with
    | Err e => (y, v, Err e)
    | Ok _ =>
      let v := set_flushed v (Z.max (sv_lastFlushedPosition v) lastPos) (sv_flushedSegments v ++ [segPath]) in
      let v := set_states v (map_imap (fun sid st => Some (raise_s3 (max_seqs records) sid st)) (sv_streams v)) in
      let v := set_streamStore v (TrackSegmentCoverage (sv_streamStore v) segPath records) in
      let '(y, v) := checkAggregatedSegmentGC y v segs in
      let '(w, l) := LogSegmentStore_DeleteSegmentsThrough (root_world y) (sv_localStore v)
                       (sv_lastFlushedPosition v) (cf_TailCacheBytes (sv_cfg v)) in
      (put_root y w, set_localStore v l, Ok ())
    end
  | _, _ => (y, v, Ok ())
  end.

(** The three steps of a turn of [flushInternal]: take the unflushed records,
    upload them, and count or put them back. *)
Definition flush_begin v : option Server :=
  match sv_flushing v, sv_unflushedRecords v with
  | None, (_ :: _) as recs => Some (set_unflushed v [] 0 (Some recs) (sv_flushSeq v))
  | _, _ => None
  end.

Definition flush_end v (r : result bk_error ()) : Server :=
  match sv_flushing v with
  | None => v
  | Some recs =>
    match r with
    | Ok _ => set_unflushed v (sv_unflushedRecords v) (sv_unflushedBytes v) None (sv_flushSeq v + 1)
    | Err _ => set_unflushed v (recs ++ sv_unflushedRecords v) (sv_unflushedBytes v + record_bytes recs) None
                 (sv_flushSeq v)
    end
  end.

(** A flush with nothing running beside it: the last position, or the error of
    the upload. *)
Definition flushInternal y v (segs : list bytes) : Sys B * Server * result bk_error Z :=
  match flush_begin v with
  | None => (y, v, Ok (sv_lastPosition v))
  | Some v1 =>
    let '(y, v2, r) := doFlush y v1 (default [] (sv_flushing v1)) segs in
    let v3 := flush_end v2 r in
    (y, v3, match r with Ok _ => Ok (sv_lastPosition v3) | Err e => Err e end)
  end.

(** *** The background work of the store, with the eviction hook *)

Definition server_checkSealsAndGC y v (ws segs : list bytes) : Sys B * Server :=
  let '(y, s) := check_streams y (sv_streamStore v) ws in
  let '(y, s, _, _) := CheckSegmentGC y s segs in
  let v := evictIdleStreams (set_streamStore v s) in
  let s := evictIdleWritersLocked (sv_streamStore v) in
  (saveCoverage y s, set_streamStore v s).

Definition server_flushAllPending y v (ws : list bytes) : Sys B * Server :=
  let '(y, s) := flushAllPending y (sv_streamStore v) ws in (y, set_streamStore v s).

(** *** Sealing and trimming *)

Definition SealStreams y v (ws segs : list bytes) : Sys B * Server * list buf_error :=
  let '(y, s, _, errs) := SealAll y (sv_streamStore v) ws in
  let '(y, v) := checkAggregatedSegmentGC y (set_streamStore v s) segs in (y, v, errs).

Definition Server_SealStream y v (streamID : bytes) (segs : list bytes) : Sys B * Server * result buf_error () :=
  let '(y, v, _) := getOrCreateState y v streamID in
  let '(y, s, (_, r)) := SealStream y (sv_streamStore v) streamID in
  let '(y, v) := checkAggregatedSegmentGC y (set_streamStore v s) segs in (y, v, r).

Definition Server_TrimStreamHistory y v (streamID : bytes) (trimSeq snapshotSeq : Z)
    : Sys B * Server * list bytes * list buf_error :=
  let '(y, s, deleted, errs) := TrimStreamHistory y (sv_streamStore v) streamID trimSeq snapshotSeq in
  (y, set_streamStore v s, deleted, errs).

(** *** Start *)

Inductive start_error : Type :=
| ErrListSegments (e : buf_error)
| ErrLoadCoverage (e : buf_error)
| ErrReadSegment (segPath : bytes) (e : buf_error)
| ErrLocalStore (e : wal_error).

(** The loop over the discovered segments: those the coverage file covers are
    not read. *)
Fixpoint read_discovered (b : B) (s : StreamStore) (accept : bool) (minCoveredPos : Z) (segs : list bytes)
    (acc : list LogRecord) : B * StreamStore * result start_error (list LogRecord) :=
  match segs with
  | [] => (b, s, Ok acc)
  | segPath :: segs =>
    let covered := match ParseSegmentPath segPath with
                   | Ok (_, segLast) => (0 <? minCoveredPos) && (segLast <=? minCoveredPos)
                   | Err _ => false
                   end in
    if covered then read_discovered b s accept minCoveredPos segs acc
    else
      let '(b, r) := ReadSegmentFromBackend b segPath accept in
      match r with
      | Err e => (b, s, Err (ErrReadSegment segPath e))
      | Ok records =>
        read_discovered b (TrackSegmentCoverage s segPath records) accept minCoveredPos segs (acc ++ records)
      end
  end.

(** The states of the recovered streams: the larger of the two heads, and the
    one in storage. *)
Definition recovered_states (backend local : list LogRecord) : gmap bytes streamState :=
  map_imap (fun sid watermark => Some (newStreamState watermark (default 0 (max_seqs backend !! sid))))
    (union_with (fun l f => Some (Z.max l f)) (max_seqs local) (max_seqs backend)).

(** [segs] is the order of the garbage collections. *)
Definition NewServer y (config : ServerConfig) (segs : list bytes) : Sys B * result start_error Server :=
  let cfg := with_defaults config in
  let s := NewStreamStore (cf_StreamSealInterval cfg) (cf_StreamSealBytes cfg) in
  let s := if cf_AcceptUnversioned cfg then SetAcceptUnversioned s true else s in
  let '(b, r) := ListSegmentsFromBackend (sy_backend y) in
  let y := set_backend y b in
  match r with
  | Err e => (y, Err (ErrListSegments e))
  | Ok (discoveredSegments, lastFlushedPos) =>
    let '(y, r) := LoadCoverage y in
    match r with
    | Err e => (y, Err (ErrLoadCoverage e))
    | Ok minCoveredPos =>
      let '(b, s, r) :=
        read_discovered (sy_backend y) s (cf_AcceptUnversioned cfg) minCoveredPos discoveredSegments [] in
      let y := set_backend y b in
      match r with
      | Err e => (y, Err e)
      | Ok backendRecords =>
        let '(w, r) := NewLogSegmentStore (root_world y) (go "log") (cf_FlushBytes cfg)
                         (mkScanOptions (cf_AcceptUnversioned cfg) (cf_NoFsync cfg)) in
        let y := put_root y w in
        match r with
        | Err e => (y, Err (ErrLocalStore e))
        | Ok (localStore, localRecords) =>
          let localMaxPos := foldl (fun m rec => Z.max m (lr_Position rec)) lastFlushedPos localRecords in
          let '(y, s, _) := Recover y s (backendRecords ++ localRecords) in
          let unflushed := filter (fun rec => lastFlushedPos < lr_Position rec) localRecords in
          let v := mkServer cfg localMaxPos lastFlushedPos discoveredSegments
                     (recovered_states backendRecords localRecords) s localStore [] [] 0
                     unflushed (record_bytes unflushed) None 0 in
          let '(y, v, _) := flushInternal y v segs in
          let '(y, v) := checkAggregatedSegmentGC y v segs in
          (y, Ok v)
        end
      end
    end
  end.

(** *** [Tail] over all streams *)

(** The variables of [Tail] that live across turns. *)
Record AllTail : Type := mkAllTail {
  at_fromPos : Z;
  at_currentPos : Z;
  at_firstSent : bool;
}.

Definition all_tail_start v (fromPosition : Z) : AllTail :=
  let fromPos := if fromPosition =? 0 then 1 else fromPosition in
  let maxAllowedFromPos := u64 (sv_lastFlushedPosition v + 1) in
  let fromPos := if maxAllowedFromPos <? fromPos then maxAllowedFromPos else fromPos in
  mkAllTail fromPos fromPos false.

Definition all_send (t : AllTail) (rec : LogRecord) : AllTail * list TailResponse :=
  if at_currentPos t <=? lr_Position rec then
    (mkAllTail (at_fromPos t) (u64 (lr_Position rec + 1)) true,
     [mkTailResponse rec (if at_firstSent t then 0 else at_fromPos t)])
  else (t, []).

Definition all_send_acc (x : AllTail * list TailResponse) (rec : LogRecord) : AllTail * list TailResponse :=
  let '(t, out) := x in let '(t, o) := all_send t rec in (t, out ++ o).

(** Step 2: the flushed segments from storage. *)
Fixpoint all_tail_segments (b : B) (segments : list bytes) (x : AllTail * list TailResponse)
    : B * (AllTail * list TailResponse) * result buf_error () :=
  match segments with
  | [] => (b, x, Ok ())
  | segPath :: segments =>
    match ParseSegmentPath segPath with
    | Err _ => all_tail_segments b segments x
    | Ok (_, segLast) =>
      if segLast <? at_currentPos (fst x) then all_tail_segments b segments x
      else
        let '(b, r) := ReadSegmentFromBackend b segPath false in
        match r with
        | Err e => (b, x, Err e)
        | Ok records => all_tail_segments b segments (foldl all_send_acc x records)
        end
    end
  end.

(** A turn of the loop, up to where it waits: what is sent, and whether the next
    turn follows without waiting. *)
Definition all_tail_turn y v (t : AllTail) : Sys B * AllTail * list TailResponse * result buf_error bool :=
  let '(b, x, r) :=
    if at_currentPos t <=? sv_lastFlushedPosition v
    then all_tail_segments (sy_backend y) (sv_flushedSegments v) (t, [])
    else (sy_backend y, (t, []), Ok ()) in
  let y := set_backend y b in
  match r with
  | Err e => (y, fst x, snd x, Err e)
  | Ok _ =>
    let '(w, r) :=
      if at_currentPos (fst x) <=? sv_lastPosition v
      then LogSegmentStore_ReadFrom (root_world y) (sv_localStore v) (at_currentPos (fst x))
             (fun x rec => Ok (all_send_acc x rec)) x
      else (root_world y, Ok x) in
    let y := put_root y w in
    match r with
    | Err e => (y, fst x, snd x, Err (ErrDisk e))
    | Ok (t, out) =>
      (y, t, out, Ok ((at_currentPos t <=? sv_lastFlushedPosition v) || (at_currentPos t <=? sv_lastPosition v)))
    end
  end.

(** *** Shutdown *)

(** What [Close] does once the loops have ended: the errors it joins. *)
Definition Server_Close y v (ws segs : list bytes) : Sys B * Server * list buf_error :=
  let '(y, v, r1) := flushInternal y v segs in
  let '(y, s, r2) := StreamStore_Close y (sv_streamStore v) ws in
  let '(w, l, r3) := LogSegmentStore_Close (root_world y) (sv_localStore v) in
  (put_root y w, set_localStore (set_streamStore v s) l,
   (match r1 with Err e => [ErrBackend e] | Ok _ => [] end) ++
   (match r2 with Err e => [ErrDisk e] | Ok _ => [] end) ++
   (match r3 with Err e => [ErrDisk e] | Ok _ => [] end)).

End server.
