(* ===== verification/WalServerInv.v ===== *)
(** * WalServerInv: no acknowledged record is lost

    The invariant of the WAL buffer service of WalServer.v: every committed
    record is on stable storage in the local log, or in an aggregated segment in
    object storage, or in a sealed file of its stream; the watermarks that
    clients are told never run ahead of that.  It holds over every history of
    the service on a disk that works, with a backend that may fail at any call,
    and client streams that send each sequence number once. *)

From S2P Require Import Prelude Bytes WalRecord FileSys WalSegment WalStore WalRetention WalPaths ObjectStore WalTrim WalStream.
From S2P Require Import WalStreamInv WalStreamRecover WalStreamStore WalTail WalBuffer WalServer.

#[local] Open Scope Z_scope.
#[local] Open Scope list_scope.

(** ** The local store *)

Lemma local_frame (w w' : World) s (a : alog LogRecord) :
  refines (w, s) a -> no_faults w' ->
  (forall n, wal_name (st_filePrefix s) n -> w_dir w' !! n = w_dir w !! n) -> refines (w', s) a.
Proof.
  intros (_ & Hp & Hf & parts & HI & HC) Hw HD. split_and!; try done. exists parts. split; [|done]. cbn [fst snd] in *.
  assert (HN : forall rs : list LogRecord, w_dir w' !! part_name (st_filePrefix s) rs = w_dir w !! part_name (st_filePrefix s) rs)
    by (intros rs; apply HD, segmentFilename_wal).
  assert (HF : forall rs : list LogRecord, fully_synced w (part_name (st_filePrefix s) rs) ->
    fully_synced w' (part_name (st_filePrefix s) rs)) by (intros rs; unfold fully_synced; by rewrite HN).
  destruct HI. split; try done.
  - eapply Forall_impl; [exact si_files|]. intros rs. unfold holds. by rewrite HN.
  - intros n e Hn Hwal. rewrite HD in Hn by done. eauto.
  - intros init rs HE. eapply Forall_impl; [by eapply si_synced_init|]. auto.
  - intros init rs HE. destruct (si_synced_last init rs HE) as [H1 H2]. split; [auto|].
    unfold records_synced in *. by rewrite HN.
Qed.

(** A log all of which is on stable storage. *)
Definition local_log (w : World) (s : SegmentStore) (l : list LogRecord) : Prop := refines (w, s) (mkAlog l (length l)).

(** A retention pass drops only records of flushed positions. *)
Lemma retention_local w s l flushed maxRetained w' s' :
  local_log w s l -> LogSegmentStore_DeleteSegmentsThrough w s flushed maxRetained = (w', s') ->
  exists l', local_log w' s' l' /\ sublist l' l /\ w_now w' = w_now w /\ st_filePrefix s' = st_filePrefix s /\
    forall r, r ∈ l -> r ∈ l' \/ lr_Position r <= flushed.
Proof.
  intros HR. unfold LogSegmentStore_DeleteSegmentsThrough. destruct (_ <=? _).
  { intros [= <- <-]. exists l. split_and!; try done. by left. }
  destruct (delete_through _ _ _ _ _ _) as [w1 kept] eqn:ED. intros [= <- <-].
  pose proof HR as (Hw & _ & _ & parts & HI & _). apply delete_through_exact in ED; [|done|by eapply store_present].
  destruct (refines_delete _ _ _ _ _ _ _ HR ED) as (l' & HR' & HS & HL). exists l'. split_and!; try done; [|by apply ED].
  unfold local_log. apply sublist_length in HS. by replace (length l') with (length l - (length l - length l'))%nat at 1 by lia.
Qed.

(** ** Committed records *)

(** The records of one stream, and those of a range of positions. *)
Definition stream_of (C : list LogRecord) (id : bytes) : list LogRecord := filter (fun r => lr_StreamID r = id) C.
Definition slice (f l : Z) (C : list LogRecord) : list LogRecord := filter (fun r => f <= lr_Position r <= l) C.

Lemma slice_app_above f l C R : Forall (fun r => l < lr_Position r) R -> slice f l (C ++ R) = slice f l C.
Proof.
  intros HF. unfold slice. rewrite filter_app, (filter_none _ R), app_nil_r; [done|].
  intros r Hr. rewrite Forall_forall in HF. specialize (HF r Hr). lia.
Qed.

(** The records between the first and the last of a part of the log are that
    part. *)
Lemma slice_part F rs U r0 rl :
  valid_log (F ++ rs ++ U) -> head rs = Some r0 -> last rs = Some rl ->
  slice (lr_Position r0) (lr_Position rl) (F ++ rs ++ U) = rs.
Proof.
  intros HV H0 Hl. apply valid_log_app in HV as HV'. destruct HV' as [_ HV2]. pose proof HV2 as HV3.
  apply valid_log_app in HV3 as [HV3 _].
  assert (H0in : r0 ∈ rs) by (destruct rs; [done|]; injection H0 as ->; left).
  assert (Hlin : rl ∈ rs) by (apply last_Some in Hl as [l ->]; apply elem_of_app; right; left).
  unfold slice. rewrite !filter_app, (filter_none _ F), (filter_none _ U), app_nil_r; cbn [app].
  - apply filter_all. intros r Hr. split.
    + destruct rs as [|r1 rs]; [done|]. injection H0 as ->. apply elem_of_cons in Hr as [->|Hr]; [done|].
      pose proof (valid_log_lt [r0] rs r0 r HV3 ltac:(left) Hr). cbn in *. lia.
    + pose proof (last_seq_ge rs r HV3 Hr) as HL. unfold last_seq in HL. by rewrite Hl in HL.
  - intros r Hr. pose proof (valid_log_lt rs U rl r HV2 Hlin Hr). cbn in *. lia.
  - intros r Hr. pose proof (valid_log_lt F (rs ++ U) r r0 HV Hr ltac:(apply elem_of_app; by left)). cbn in *. lia.
Qed.

(** The name of a segment gives its range. *)
Lemma parse_segment_path f l : is_u64 f -> is_u64 l -> ParseSegmentPath (segment_path f l) = Ok (f, l).
Proof.
  intros Hf Hl. unfold ParseSegmentPath, segment_path.
  assert (HD : forall c z, byte_digit c = None -> Forall (fun b => b <> c) (fmt_pad 12 z)) by (intros; by apply digits_ne).
  change SegmentsPrefix with (go "streams/wal/segments" ++ [slash]). rewrite <-(app_assoc (go "streams/wal/segments")).
  cbn [app]. rewrite filepath_base_app.
  - rewrite !app_assoc, trim_suffix_app, <-app_assoc. change (go "-") with [x2d]. rewrite str_split_two by auto.
    by rewrite !parse_fmt_pad.
  - intros E. apply (f_equal length) in E. rewrite !length_app in E. cbn in E. lia.
  - repeat (apply Forall_app; split); try (by apply HD); by repeat constructor.
Qed.

Lemma segment_path_inj f l f' l' :
  is_u64 f -> is_u64 l -> is_u64 f' -> is_u64 l' -> segment_path f l = segment_path f' l' -> f = f' /\ l = l'.
Proof.
  intros ???? HE. apply (f_equal ParseSegmentPath) in HE. rewrite !parse_segment_path in HE by done. by injection HE.
Qed.

Lemma segment_path_prefix f l : has_prefix SegmentsPrefix (segment_path f l) = true.
Proof. apply has_prefix_app. Qed.

Section server.
Context `{UU : !UuidLib} `{UL : !UuidLaw} {B : Type} `{BK : !Backend B} `{BL : !BackendLaw B}.
Implicit Types (y : Sys B) (v : Server) (s : StreamStore) (C : list LogRecord).

(** The record is in an aggregated segment in storage; in a segment or in a
    sealed file of its stream. *)
Definition in_segment y (r : LogRecord) : Prop :=
  exists k o recs, has_prefix SegmentsPrefix k = true /\ bk_objects (sy_backend y) !! k = Some o /\
    decode_segment o false = Ok recs /\ r ∈ recs.

Definition stored y (r : LogRecord) : Prop := in_segment y r \/ sealed_on_disk y r.

Lemma sealed_on_disk_grows y y' (r : LogRecord) :
  wf_uuid (lr_StreamID r) -> sys_grows y y' -> sealed_on_disk y r -> sealed_on_disk y' r.
Proof.
  intros Hid HG (n & f & from & to & recs & Hn & Hs & HP & HD & Hr). exists n, f, from, to, recs.
  split_and!; try done. destruct (HG _ Hid) as [[_ HS] _]. by eapply HS.
Qed.

Lemma stored_rest y y' (r : LogRecord) :
  wf_uuid (lr_StreamID r) -> sys_grows y y' -> same_rest y y' -> stored y r -> stored y' r.
Proof.
  intros Hid HG [_ HR] [(k & o & recs & Hk & Ho & HD)|HD]; [left|right; by eapply sealed_on_disk_grows].
  exists k, o, recs. by rewrite HR.
Qed.

(** The aggregated segments and what is known of them: each holds the committed
    records of the range in its name. *)
Definition names_range (last : Z) (k : bytes) (f l : Z) : Prop :=
  k = segment_path f l /\ is_u64 f /\ is_u64 l /\ l <= last.

Record segments_ok (objs : gmap bytes bytes) (reqs : gmap bytes (gmap bytes Z)) C (last : Z) : Prop := {
  sg_objects k o : objs !! k = Some o -> has_prefix SegmentsPrefix k = true ->
    exists f l, names_range last k f l /\ o = segment_bytes (slice f l C);
  sg_reqs k req : reqs !! k = Some req ->
    exists f l, names_range last k f l /\ req = track_reqs (slice f l C);
}.

(** What garbage collection does to the segments. *)
Lemma gc_segments_frame segs : forall y s G y' s' del errs,
  store_inv y s G -> gc_segments y s segs = (y', s', del, errs) ->
  sy_root y' = sy_root y /\ ss_segmentReqs s' ⊆ ss_segmentReqs s /\ bk_objects (sy_backend y') ⊆ bk_objects (sy_backend y) /\
  forall k, bk_objects (sy_backend y') !! k = bk_objects (sy_backend y) !! k \/
    exists reqs, ss_segmentReqs s !! k = Some reqs /\ seg_covered s reqs = true.
Proof.
  induction segs as [|seg segs IH]; intros y s G y' s' del errs HI; cbn [gc_segments].
  { intros [= <- <- <- <-]. split_and!; try done. by left. }
  destruct (ss_segmentReqs s !! seg) as [reqs|] eqn:Er; [|by apply (IH y s G)].
  destruct (seg_covered s reqs) eqn:Ec; [|by apply (IH y s G)].
  destruct (bk_DeleteObject (sy_backend y) [] seg) as [b r] eqn:Eb.
  pose proof (DeleteObject_spec (sy_backend y) [] seg) as HSp. rewrite Eb in HSp.
  change (StorageKey [] seg) with seg in HSp.
  assert (HB : bk_objects b ⊆ bk_objects (sy_backend y) /\ forall k, k <> seg -> bk_objects b !! k = bk_objects (sy_backend y) !! k).
  { assert (HX : bk_objects b = bk_objects (sy_backend y) \/ bk_objects b = delete seg (bk_objects (sy_backend y)))
      by (destruct r; [by right|done]).
    destruct HX as [->|HX]; [done|]. rewrite HX. split; [apply delete_subseteq|]. intros k Hk. by rewrite lookup_delete_ne. }
  pose proof (segment_gone_inv y b s G HI (delete_segment _ _ _ _ (ti_segments _ _ _ HI _ _ Er) Eb)) as HI1.
  destruct HB as [HB1 HB2].
  assert (HK : forall (objs : gmap bytes bytes) (R : Prop) k, (objs !! k = bk_objects b !! k \/ R) ->
    objs !! k = bk_objects (sy_backend y) !! k \/ k = seg \/ R).
  { intros objs R k [HE|HR]; [|tauto]. destruct (decide (k = seg)) as [|Hk]; [tauto|]. rewrite HE, HB2 by done. by left. }
  destruct r as [u|e]; destruct (gc_segments _ _ segs) as [[[y2 s2] d2] e2] eqn:E2; intros [= <- <- <- <-].
  - destruct (IH _ _ _ _ _ _ _ (forget_segment_inv _ _ _ seg HI1) E2) as (H1 & H2 & H3 & H4).
    cbn [ss_segmentReqs set_segmentReqs sy_root sy_backend set_backend] in *. split_and!; try done; [| |].
    + etrans; [exact H2|apply delete_subseteq].
    + by etrans.
    + intros k. destruct (HK _ _ _ (H4 k)) as [?|[->|(reqs' & HR & HC)]]; [by left|right; eauto|right].
      apply lookup_delete_Some in HR as [_ HR]. eauto.
  - destruct (IH _ _ _ _ _ _ _ HI1 E2) as (H1 & H2 & H3 & H4). cbn [sy_root sy_backend set_backend] in *.
    split_and!; try done; [by etrans|]. intros k.
    destruct (HK _ _ _ (H4 k)) as [?|[->|?]]; [by left|right; eauto|by right].
Qed.

Lemma slice_elem f l C r : r ∈ slice f l C -> r ∈ C.
Proof. by intros [_ ?]%list_elem_of_filter. Qed.

Lemma log_ok_of C r : valid_log C -> r ∈ C -> log_ok r.
Proof. intros (HF & _) Hr. rewrite Forall_forall in HF. by apply HF. Qed.

Lemma log_wf C r : valid_log C -> r ∈ C -> wf_uuid (lr_StreamID r).
Proof. intros HV Hr. by destruct (log_ok_of C r HV Hr) as [(? & _) _]. Qed.

Lemma slice_decodes f l C accept : valid_log C -> decode_segment (segment_bytes (slice f l C)) accept = Ok (slice f l C).
Proof.
  intros HV. apply decode_segment_records, Forall_forall. intros r Hr. eapply log_ok_of; [exact HV|]. by eapply slice_elem.
Qed.

Lemma stream_of_elem C r : r ∈ C -> r ∈ stream_of C (lr_StreamID r).
Proof. intros Hr. by apply list_elem_of_filter. Qed.

(** Garbage collection keeps every stored record stored. *)
Lemma gc_stored y s C last segs y' s' del errs :
  store_inv y s (stream_of C) -> valid_log C ->
  segments_ok (bk_objects (sy_backend y)) (ss_segmentReqs s) C last ->
  gc_segments y s segs = (y', s', del, errs) ->
  segments_ok (bk_objects (sy_backend y')) (ss_segmentReqs s') C last /\
  forall r, r ∈ C -> stored y r -> stored y' r.
Proof.
  intros HI HV HS HE. destruct (gc_segments_inv _ _ _ _ _ _ _ _ HI HE) as (_ & _ & HD & _).
  destruct (gc_segments_frame _ _ _ _ _ _ _ _ HI HE) as (_ & HR & HB & HK). split.
  - split.
    + intros k o Hk. apply (sg_objects _ _ _ _ HS). by eapply lookup_weaken.
    + intros k req Hk. apply (sg_reqs _ _ _ _ HS). by eapply lookup_weaken.
  - assert (HDu : forall r, sealed_on_disk y r -> sealed_on_disk y' r).
    { intros r (n & f & rest). exists n, f. unfold stream_dir in *. by rewrite HD. }
    intros r HrC [(k & o & recs & Hk & Ho & HDe & Hr)|Hd]; [|right; auto].
    destruct (HK k) as [HEq|(reqs & Hq & Hcov)]; [left; exists k, o, recs; by rewrite HEq|right].
    apply HDu. destruct (sg_objects _ _ _ _ HS _ _ Ho Hk) as (f & l & (-> & Hf & Hl & _) & ->).
    destruct (sg_reqs _ _ _ _ HS _ _ Hq) as (f' & l' & (HP & Hf' & Hl' & _) & ->).
    apply segment_path_inj in HP as [<- <-]; [|done..]. rewrite slice_decodes in HDe by done. injection HDe as <-.
    eapply covered_stored; [exact HI|exact Hcov|exact Hr|by eapply log_wf|by apply stream_of_elem].
Qed.

(** ** The invariant *)

(** What is on disk and in storage, the two stores and the positions: [F] has
    been uploaded, [U] is being or to be uploaded. *)
Record core_inv y s (l : SegmentStore) (last flushed : Z) (F U : list LogRecord) : Prop := {
  co_store : store_inv y s (stream_of (F ++ U));
  co_log : valid_log (F ++ U);
  co_pos : Forall (fun r => 0 < lr_Position r <= last) (F ++ U);
  co_last : 0 <= last < name_limit;
  co_bound : flushed <= last;
  co_prefix : st_filePrefix l = go "log";
  co_local : exists kept, local_log (root_world y) l kept /\ sublist kept (F ++ U) /\
    forall r, r ∈ F ++ U -> r ∈ kept \/ lr_Position r <= flushed;
  co_flushed : Forall (fun r => lr_Position r <= flushed /\ stored y r) F;
  co_rest : Forall (fun r => flushed < lr_Position r) U;
  co_segments : segments_ok (bk_objects (sy_backend y)) (ss_segmentReqs s) (F ++ U) last;
}.

(** What a stream's state promises. *)
Definition state_ok y C (sid : bytes) (st : streamState) : Prop :=
  exists id, wf_uuid id /\ sid = uuid_String id /\
    ws_witnessSeq st <= top 0 (stream_of C id) /\ ws_s3Seq st <= top 0 (stream_of C id) /\
    forall r, r ∈ C -> lr_StreamID r = id -> lr_StreamSeq r <= ws_s3Seq st -> stored y r.

Definition item_of (r : LogRecord) : incomingItem := mkItem (lr_StreamID r) (lr_StreamSeq r) (lr_Payload r).

Definition item_ok (it : incomingItem) : Prop :=
  wf_uuid (it_streamID it) /\ 0 < it_streamSeq it < 2 ^ 64 /\ Z.of_nat (length (it_payload it)) < 2 ^ 32.

Definition items_of (id : bytes) (Q : list incomingItem) : list incomingItem := filter (fun it => it_streamID it = id) Q.

(** [Q] are the records received, in order: the committed ones, the batch and
    the queue.  Those of a stream come in increasing order. *)
Record queue_ok (Q : list incomingItem) C (batch incoming : list incomingItem) : Prop := {
  qu_split : Q = (item_of <$> C) ++ batch ++ incoming;
  qu_items : Forall item_ok Q;
  qu_order id : StronglySorted Z.lt (it_streamSeq <$> items_of id Q);
}.

Record server_inv y v (Q : list incomingItem) C : Prop := {
  vi_core : exists F, C = F ++ (default [] (sv_flushing v) ++ sv_unflushedRecords v) /\
    core_inv y (sv_streamStore v) (sv_localStore v) (sv_lastPosition v) (sv_lastFlushedPosition v)
      F (default [] (sv_flushing v) ++ sv_unflushedRecords v);
  vi_states sid st : sv_streams v !! sid = Some st -> state_ok y C sid st;
  vi_queue : queue_ok Q C (sv_batch v) (sv_incoming v);
}.

Lemma root_frame y y' (l : SegmentStore) kept :
  local_log (root_world y) l kept -> st_filePrefix l = go "log" -> sy_outcomes y' = [] ->
  (forall n, n <> coverage_name -> sy_root y' !! n = sy_root y !! n) -> local_log (root_world y') l kept.
Proof.
  intros HL Hp Ho HR. eapply local_frame; [exact HL|done|]. intros n Hn. apply HR. intros ->.
  rewrite Hp in Hn. by destruct Hn as [_ Hn].
Qed.

(** What the files of the streams may do. *)
Lemma core_kept y s l last flushed F U y' s' :
  core_inv y s l last flushed F U -> kept (stream_of (F ++ U)) y s y' s' ->
  core_inv y' s' l last flushed F U /\ forall r, r ∈ F ++ U -> stored y r -> stored y' r.
Proof.
  intros [] (HI & HG & HR & HQ).
  assert (HSt : forall r, r ∈ F ++ U -> stored y r -> stored y' r).
  { intros r Hr. eapply stored_rest; [|done..]. by eapply log_wf. }
  split; [|done]. split; try done.
  - destruct co_local0 as (kp & HL & HX). exists kp. split; [|done].
    eapply root_frame; [exact HL|done|by destruct HI|apply HR].
  - rewrite Forall_forall in co_flushed0 |- *. intros r Hr. destruct (co_flushed0 r Hr). split; [done|].
    apply HSt; [|done]. apply elem_of_app. by left.
  - destruct co_segments0. rewrite HQ. split; [|done]. intros k o Hk Hp. rewrite (proj2 HR) in Hk by done. eauto.
Qed.

Lemma core_gc y s l last flushed F U segs y' s' del errs :
  core_inv y s l last flushed F U -> gc_segments y s segs = (y', s', del, errs) ->
  core_inv y' s' l last flushed F U /\ (forall r, r ∈ F ++ U -> stored y r -> stored y' r) /\
  ss_streams s' = ss_streams s.
Proof.
  intros [] HE. destruct (gc_segments_inv _ _ _ _ _ _ _ _ co_store0 HE) as (HI & Hst & HD & _).
  destruct (gc_segments_frame _ _ _ _ _ _ _ _ co_store0 HE) as (HRo & _).
  destruct (gc_stored _ _ _ _ _ _ _ _ _ co_store0 co_log0 co_segments0 HE) as [HS HSt].
  split_and!; try done. split; try done.
  - destruct co_local0 as (kp & HL & HX). exists kp. split; [|done].
    eapply root_frame; [exact HL|done|by destruct HI|]. intros n _. by rewrite HRo.
  - rewrite Forall_forall in co_flushed0 |- *. intros r Hr. destruct (co_flushed0 r Hr). split; [done|].
    apply HSt; [|done]. apply elem_of_app. by left.
Qed.

Lemma state_ok_mono y y' C sid st :
  (forall r, r ∈ C -> stored y r -> stored y' r) -> state_ok y C sid st -> state_ok y' C sid st.
Proof. intros HS (id & ? & ? & ? & ? & Hr). exists id. split_and!; try done. intros r HrC ??. auto. Qed.

(** Stored records stay stored. *)
Definition stays C y y' : Prop := forall r, r ∈ C -> stored y r -> stored y' r.

Lemma stays_refl C y : stays C y y.
Proof. by intros r _. Qed.
#[local] Hint Resolve stays_refl : core.

Lemma stays_trans C y1 y2 y3 : stays C y1 y2 -> stays C y2 y3 -> stays C y1 y3.
Proof. intros H1 H2 r Hr HS. auto. Qed.

(** *** The files of the streams, and the states *)

Lemma inv_kept y v Q C y' s' :
  server_inv y v Q C -> kept (stream_of C) y (sv_streamStore v) y' s' ->
  server_inv y' (set_streamStore v s') Q C /\ stays C y y'.
Proof.
  intros [(F & HC & HI) HS HQ] HK. rewrite HC in HK. destruct (core_kept _ _ _ _ _ _ _ _ _ HI HK) as [HI' HSt].
  rewrite <-HC in HSt. split; [|done]. split; [by exists F| |done]. intros sid st Hs. by eapply state_ok_mono, HS, Hs.
Qed.

Lemma inv_gc y v Q C segs y' s' del errs :
  server_inv y v Q C -> CheckSegmentGC y (sv_streamStore v) segs = (y', s', del, errs) ->
  server_inv y' (set_streamStore v s') Q C /\ stays C y y'.
Proof.
  intros [(F & HC & HI) HS HQ] HE. destruct (core_gc _ _ _ _ _ _ _ _ _ _ _ _ HI HE) as (HI' & HSt & _).
  rewrite <-HC in HSt. split; [|done]. split; [by exists F| |done]. intros sid st Hs. by eapply state_ok_mono, HS, Hs.
Qed.

Lemma inv_agg_gc y v Q C segs y' v' :
  server_inv y v Q C -> checkAggregatedSegmentGC y v segs = (y', v') -> server_inv y' v' Q C /\ stays C y y'.
Proof.
  intros HI. unfold checkAggregatedSegmentGC. destruct (CheckSegmentGC y (sv_streamStore v) segs) as [[[y1 s1] del] errs] eqn:E.
  destruct (inv_gc _ _ _ _ _ _ _ _ _ HI E) as [HI1 HSt]. destruct del as [|d del]; intros [= <- <-]; [done|].
  split; [|done]. destruct HI1 as [HF HS HQ]. by split.
Qed.

Lemma inv_states y v Q C m :
  server_inv y v Q C -> (forall sid st, m !! sid = Some st -> state_ok y C sid st) -> server_inv y (set_states v m) Q C.
Proof. intros [] Hm. by split. Qed.

(** A state with the same watermarks is as good. *)
Lemma inv_state_same y v Q C sid st st' :
  server_inv y v Q C -> sv_streams v !! sid = Some st ->
  ws_witnessSeq st' = ws_witnessSeq st -> ws_s3Seq st' = ws_s3Seq st ->
  server_inv y (set_states v (<[sid := st']> (sv_streams v))) Q C.
Proof.
  intros HI Hst H1 H2. apply inv_states; [done|]. intros sid0 st0. rewrite lookup_insert_Some.
  intros [[<- <-]|[_ Hs]]; [|by apply (vi_states _ _ _ _ HI)].
  destruct (vi_states _ _ _ _ HI _ _ Hst) as (id & ? & ? & ? & ? & Hr). exists id. by rewrite H1, H2.
Qed.

(** What the uploaded position of a stream promises. *)
Lemma uploaded_top y s G id :
  wf_uuid id -> store_inv y s G -> sw_uploadedTo (writer_of s id) <= top 0 (G id).
Proof.
  intros Hid HI. destruct (ti_streams _ _ _ HI id Hid) as (ps & op & HS & <-). rewrite newer_top_eq.
  pose proof (v_up _ _ _ _ _ _ HS). rewrite top_app, chained_top by (by destruct HS).
  pose proof (top_ge (end_to 0 ps) (op ++ sw_pending (writer_of s id))). lia.
Qed.

Lemma discovered_state y s C id st :
  wf_uuid id -> store_inv y s (stream_of C) ->
  ws_witnessSeq st = sw_uploadedTo (writer_of s id) -> ws_s3Seq st = sw_uploadedTo (writer_of s id) ->
  state_ok y C (uuid_String id) st.
Proof.
  intros Hid HI Hw H3. exists id. pose proof (uploaded_top y s _ id Hid HI). rewrite Hw, H3.
  split_and!; try done. intros r Hr <- Hle. right. eapply uploaded_stored; [exact HI|done|by apply stream_of_elem|done].
Qed.

Lemma EnsureDiscovered_uploaded y s G id y' s' n :
  wf_uuid id -> store_inv y s G -> EnsureDiscovered y s id = (y', s', n) -> n = sw_uploadedTo (writer_of s' id).
Proof.
  intros Hid HI. unfold EnsureDiscovered. destruct (getOrCreateStream s id) as [s1 sw] eqn:EC.
  destruct (create_inv _ _ _ _ _ _ Hid HI EC) as (_ & Hs1 & _). unfold on_writer. rewrite Hs1.
  destruct (discover_op _ _ sw) as [[w1 b1] sw1]. intros [= <- <- <-]. unfold writer_of. cbn. by rewrite lookup_insert_eq.
Qed.

Lemma inv_getOrCreateState y v Q C id y' v' st :
  wf_uuid id -> server_inv y v Q C -> getOrCreateState y v id = (y', v', st) ->
  server_inv y' v' Q C /\ sv_streams v' !! uuid_String id = Some st /\ stays C y y'.
Proof.
  intros Hid HI. unfold getOrCreateState. destruct (sv_streams v !! uuid_String id) as [st0|] eqn:Es.
  { by intros [= <- <- <-]; split_and!. }
  destruct (EnsureDiscovered y (sv_streamStore v) id) as [[y1 s1] n] eqn:E.
  pose proof (vi_core _ _ _ _ HI) as (F & HC & HCo).
  assert (HSI : store_inv y (sv_streamStore v) (stream_of C)) by (rewrite HC; apply HCo).
  pose proof (EnsureDiscovered_inv _ _ _ _ _ _ _ Hid HSI E) as HK.
  pose proof (EnsureDiscovered_uploaded _ _ _ _ _ _ _ Hid HSI E) as Hn.
  destruct (inv_kept _ _ _ _ _ _ HI HK) as [HI1 HSt]. change (sv_streams (set_streamStore v s1)) with (sv_streams v).
  rewrite Es. intros [= <- <- <-]. cbn [sv_streams set_states]. rewrite lookup_insert_eq. split_and!; [|done..].
  apply inv_states; [done|]. intros sid st. rewrite lookup_insert_Some.
  intros [[<- <-]|[_ Hs]]; [|by apply (vi_states _ _ _ _ HI1)].
  eapply (discovered_state y1 s1); [done|apply HK|done..].
Qed.

(** *** [Append] *)

Lemma inv_hello y v Q C id y' v' r :
  server_inv y v Q C -> append_hello y v id = (y', v', r) -> server_inv y' v' Q C /\ stays C y y'.
Proof.
  intros HI. unfold append_hello. case_bool_decide as Hid; cbn [negb]; [|by intros [= <- <- <-]].
  destruct (getOrCreateState y v id) as [[y1 v1] st] eqn:E. intros [= <- <- <-].
  destruct (inv_getOrCreateState _ _ _ _ _ _ _ _ Hid HI E) as (HI1 & Hs & HSt). split; [|done]. by eapply inv_state_same.
Qed.

(** The records a client may send: of a stream, new ones in increasing order. *)
Definition fresh_item (Q : list incomingItem) (it : incomingItem) : Prop :=
  item_ok it /\ Forall (fun q => it_streamSeq q < it_streamSeq it) (items_of (it_streamID it) Q).

Lemma queue_push Q C batch incoming it :
  queue_ok Q C batch incoming -> fresh_item Q it -> queue_ok (Q ++ [it]) C batch (incoming ++ [it]).
Proof.
  intros [HE HF HO] [Hit Hlt]. split.
  - by rewrite HE, <-!app_assoc.
  - apply Forall_app. split; [done|]. by apply Forall_singleton.
  - intros id. unfold items_of in *. rewrite filter_app, filter_cons, filter_nil. case_decide as Hd.
    + subst id. rewrite fmap_app. cbn. apply StronglySorted_app. split_and!; [|apply HO|repeat constructor].
      intros x z Hx Hz%list_elem_of_singleton. apply list_elem_of_fmap in Hx as (q & -> & Hq). subst z.
      rewrite Forall_forall in Hlt. auto.
    + rewrite app_nil_r. apply HO.
Qed.

Definition received_of (Q : list incomingItem) (it : incomingItem) (r : result append_error received) : list incomingItem :=
  match r with Ok RecvQueued => Q ++ [it] | _ => Q end.

Lemma inv_record y v Q C id seq payload v' r :
  server_inv y v Q C -> append_record v id seq payload = (v', r) ->
  (r = Ok RecvQueued -> fresh_item Q (mkItem id seq payload)) ->
  server_inv y v' (received_of Q (mkItem id seq payload) r) C.
Proof.
  intros HI. unfold append_record. destruct (sv_streams v !! uuid_String id) as [st|] eqn:Es; [|by intros [= <- <-]].
  destruct (ws_commitErr st); [by intros [= <- <-]|].
  destruct (seq <=? ws_witnessSeq st); [intros [= <- <-] _; by eapply inv_state_same|].
  destruct (1024 <=? ws_inFlight st); [by intros [= <- <-]|]. intros [= <- <-] HF. specialize (HF eq_refl). cbn [received_of].
  pose proof (inv_state_same _ _ _ _ _ _ (set_inFlight st (ws_inFlight st + 1)) HI Es eq_refl eq_refl) as [H1 H2 H3].
  split; [done|done|]. cbn [sv_batch sv_incoming set_queue]. by apply queue_push.
Qed.

Lemma inv_forward y v Q C id a b v' r :
  server_inv y v Q C -> forward_acks v id a b = (v', r) -> server_inv y v' Q C.
Proof.
  intros HI. unfold forward_acks. destruct (sv_streams v !! uuid_String id) as [st|] eqn:Es; [|by intros [= <- <-]].
  destruct (ws_commitErr st); [by intros [= <- <-]|]. destruct (_ && _ && _); intros [= <- <-]; [done|].
  by eapply inv_state_same.
Qed.

Lemma inv_detach y v Q C id : server_inv y v Q C -> server_inv y (append_detach v id) Q C.
Proof.
  intros HI. apply inv_states; [done|]. intros sid st. rewrite lookup_alter_Some.
  intros [(<- & st0 & Hs & ->)|[_ Hs]]; [|by apply (vi_states _ _ _ _ HI)].
  destruct (vi_states _ _ _ _ HI _ _ Hs) as (id0 & ? & ? & ? & ? & Hr). by exists id0.
Qed.

Lemma inv_evict y v Q C : server_inv y v Q C -> server_inv y (evictIdleStreams v) Q C.
Proof.
  intros HI. apply inv_states; [done|]. intros sid st [Hs _]%map_lookup_filter_Some. by apply (vi_states _ _ _ _ HI).
Qed.

(** *** Group commit *)

Lemma make_records_ok items : forall last last' R,
  0 <= last -> last + Z.of_nat (length items) < name_limit -> Forall item_ok items ->
  make_records last items = (last', R) ->
  last' = last + Z.of_nat (length items) /\ item_of <$> R = items /\ valid_log R /\
  Forall (fun r => last < lr_Position r <= last') R.
Proof.
  induction items as [|it items IH]; intros last last' R H0 HL HF; cbn [make_records].
  { intros [= <- <-]. split_and!; [cbn; lia|done|by repeat constructor|constructor]. }
  apply Forall_cons in HF as [(Hid & Hseq & Hpl) HF]. cbn [length] in HL.
  assert (Hu : u64 (last + 1) = last + 1).
  { apply Z.mod_small. unfold name_limit in HL. lia. }
  rewrite Hu. destruct (make_records (last + 1) items) as [l2 R2] eqn:E. intros [= <- <-].
  destruct (IH (last + 1) l2 R2 ltac:(lia) ltac:(lia) HF E) as (-> & HI & (HV1 & HV2 & HV3) & HP). cbn [length].
  set (r := mkLogRecord _ _ _ _ (LogRecord_ComputeCRC32C _)).
  assert (Hok : log_ok r).
  { unfold name_limit in HL. split; [|done]. split_and!; cbn; [done| | |done]; unfold is_u64; lia. }
  split_and!.
  - lia.
  - cbn [fmap list_fmap]. rewrite HI. by destruct it.
  - split_and!; [by constructor| |].
    + cbn. constructor; [exact HV2|]. rewrite Forall_fmap. eapply Forall_impl; [exact HP|]. cbn. lia.
    + constructor; [cbn; unfold name_limit in *; lia|exact HV3].
  - constructor; [cbn; lia|]. eapply Forall_impl; [exact HP|]. cbn. lia.
Qed.

Lemma valid_log_join (C R : list LogRecord) last :
  valid_log C -> valid_log R -> Forall (fun r => lr_Position r <= last) C -> Forall (fun r => last < lr_Position r) R ->
  valid_log (C ++ R).
Proof.
  intros (H1 & H2 & H3) (K1 & K2 & K3) HC HR. split_and!; [by apply Forall_app| |by apply Forall_app].
  rewrite fmap_app. apply StronglySorted_app. split_and!; [|done|done].
  intros x z (r & -> & Hr)%list_elem_of_fmap (r' & -> & Hr')%list_elem_of_fmap.
  rewrite Forall_forall in HC, HR. specialize (HC _ Hr). specialize (HR _ Hr'). cbn. lia.
Qed.

Lemma stream_of_app C R id : stream_of (C ++ R) id = stream_of C id ++ stream_of R id.
Proof. apply filter_app. Qed.

Lemma items_of_app id Q Q' : items_of id (Q ++ Q') = items_of id Q ++ items_of id Q'.
Proof. apply filter_app. Qed.

Lemma items_of_records id C : it_streamSeq <$> items_of id (item_of <$> C) = lr_StreamSeq <$> stream_of C id.
Proof.
  unfold items_of, stream_of. induction C as [|r C IH]; [done|]. cbn [fmap list_fmap]. rewrite !filter_cons.
  cbn [it_streamID item_of]. case_decide; cbn [fmap list_fmap]; [by f_equal|done].
Qed.

Lemma top_cases q l : top q l = q \/ exists r, r ∈ l /\ top q l = lr_StreamSeq r.
Proof.
  revert q. induction l as [|x l IH]; intros q; [by left|]. rewrite top_cons.
  destruct (IH (Z.max q (lr_StreamSeq x))) as [->|(r & Hr & ->)]; [|right; exists r; split; [by right|done]].
  destruct (Z.max_spec q (lr_StreamSeq x)) as [[_ ->]|[_ ->]]; [right; exists x; split; [left|done]|by left].
Qed.

(** Records made from the queue extend the logs of their streams. *)
Lemma queue_append_ok Q C R incoming :
  queue_ok Q C (item_of <$> R) incoming -> valid_log R -> append_ok (stream_of C) R.
Proof.
  intros [HE HF HO] HV. split.
  { apply Forall_forall. intros r Hr. by eapply log_wf. }
  assert (HP : forall r, r ∈ C ++ R -> 0 < lr_StreamSeq r).
  { intros r Hr. rewrite Forall_forall in HF. specialize (HF (item_of r)). rewrite HE, app_assoc, <-fmap_app in HF.
    destruct HF as (_ & [H _] & _); [|exact H]. apply elem_of_app. left. by apply list_elem_of_fmap_2. }
  intros id Hid. specialize (HO id). rewrite HE, app_assoc, <-fmap_app, items_of_app, fmap_app, items_of_records in HO.
  apply StronglySorted_app_1_l in HO. rewrite stream_of_app, fmap_app in HO. apply StronglySorted_app in HO as (HO & _ & HS).
  fold (stream_of R id). split_and!; [| |done].
  - apply Forall_forall. intros r [Hid' Hr]%list_elem_of_filter. split_and!; [by eapply log_ok_of|done|].
    apply HP, elem_of_app. by right.
  - apply Forall_forall. intros r Hr. destruct (top_cases 0 (stream_of C id)) as [->|(r' & Hr' & ->)].
    + apply HP, elem_of_app. right. by apply list_elem_of_filter in Hr as [_ ?].
    + apply HO; by apply list_elem_of_fmap_2.
Qed.

Lemma append_streams_reqs R ids : forall s s', append_streams s R ids = Some s' -> ss_segmentReqs s' = ss_segmentReqs s.
Proof.
  induction ids as [|id ids IH]; intros s s'; cbn [append_streams]; [by intros [= <-]|].
  unfold append_stream, getOrCreateStream. destruct (ss_streams s !! uuid_String id) as [sw|];
    destruct (appendRecords _ _) as [sw' []]; try done; intros HE; by rewrite (IH _ _ HE).
Qed.

Lemma AppendRecords_reqs s R s' : AppendRecords s R = Some s' -> ss_segmentReqs s' = ss_segmentReqs s.
Proof. apply append_streams_reqs. Qed.

Lemma root_put y (w : World) : root_world (put_root y w) = w.
Proof. by destruct w. Qed.

Lemma names_range_mono last last' k f l : last <= last' -> names_range last k f l -> names_range last' k f l.
Proof. intros Hle (H1 & H2 & H3 & H4). exact (conj H1 (conj H2 (conj H3 (Z.le_trans _ _ _ H4 Hle)))). Qed.

(** The local log takes a batch and the stream files take it too. *)
Lemma core_append y s l last flushed F U R last' :
  core_inv y s l last flushed F U -> R <> [] -> valid_log R ->
  Forall (fun r => last < lr_Position r <= last') R -> last <= last' < name_limit ->
  append_ok (stream_of (F ++ U)) R ->
  exists w l' s', LogSegmentStore_AppendBatch (root_world y) l R = (w, l', Ok ()) /\ AppendRecords s R = Some s' /\
    core_inv (put_root y w) s' l' last' flushed F (U ++ R).
Proof.
  intros [] Hne HV HP HL HA.
  assert (HPl : Forall (fun r => last < lr_Position r) R) by (eapply Forall_impl; [exact HP|]; cbn; lia).
  assert (HVC : valid_log ((F ++ U) ++ R)).
  { eapply valid_log_join; [done|done| |exact HPl]. eapply Forall_impl; [exact co_pos0|]. cbn. lia. }
  destruct co_local0 as (kp & HLo & HS & HK).
  destruct (refines_batch _ _ _ R HLo) as (w & l' & HB & Hpx & HR).
  { cbn [al_records]. eapply valid_log_sublist; [|exact HVC]. by apply sublist_app. }
  destruct (AppendRecords_inv y s _ R co_store0 HA) as (s' & HE & HI). exists w, l', s'. split_and!; [done..|].
  assert (HSR : ss_segmentReqs s' = ss_segmentReqs s) by (by eapply AppendRecords_reqs).
  split; rewrite ?app_assoc; try done.
  - eapply store_inv_log; [|eapply (store_inv_ext y _ s'); try done; destruct HI; try done].
    + intros id _. apply stream_of_app.
    + cbn. apply HR.
  - apply Forall_app. split; [eapply Forall_impl; [exact co_pos0|]; cbn; lia|].
    eapply Forall_impl; [exact HP|]. cbn. lia.
  - lia.
  - lia.
  - congruence.
  - exists (kp ++ R). rewrite root_put. split_and!.
    + unfold local_log. cbn [al_records al_durable] in HR. by destruct R.
    + by apply sublist_app.
    + intros r [Hr|Hr]%elem_of_app; [|left; apply elem_of_app; by right].
      destruct (HK r Hr); [left; apply elem_of_app; by left|by right].
  - apply Forall_app. split; [done|]. eapply Forall_impl; [exact HPl|]. cbn. lia.
  - rewrite HSR. destruct co_segments0 as [S1 S2]. split.
    + intros k o Hk Hpk. destruct (S1 k o Hk Hpk) as (f & g & Hn & ->). exists f, g. split; [eapply names_range_mono, Hn; lia|].
      destruct Hn as (_ & _ & _ & ?). rewrite (slice_app_above f g (F ++ U) R); [done|]. eapply Forall_impl; [exact HPl|]. cbn. lia.
    + intros k req Hk. destruct (S2 k req Hk) as (f & g & Hn & ->). exists f, g. split; [eapply names_range_mono, Hn; lia|].
      destruct Hn as (_ & _ & _ & ?). rewrite (slice_app_above f g (F ++ U) R); [done|]. eapply Forall_impl; [exact HPl|]. cbn. lia.
Qed.

Lemma state_ok_append y y' C R sid st :
  append_ok (stream_of C) R -> (forall r, r ∈ C -> stored y r -> stored y' r) ->
  state_ok y C sid st -> state_ok y' (C ++ R) sid st.
Proof.
  intros [_ HA] HS (id & Hid & -> & H1 & H2 & Hr). exists id. rewrite stream_of_app, top_app.
  pose proof (top_ge (top 0 (stream_of C id)) (stream_of R id)). split_and!; try done; [lia..|].
  intros r [HrC|HrR]%elem_of_app Hrid Hle; [by auto|]. exfalso. destruct (HA id Hid) as (_ & HT & _).
  rewrite Forall_forall in HT. specialize (HT r). rewrite list_elem_of_filter in HT. specialize (HT (conj Hrid HrR)). lia.
Qed.

(** What the batch says of a stream is the number of one of its records. *)
Definition batch_bound C (items : list incomingItem) : Prop :=
  forall it, it ∈ items -> wf_uuid (it_streamID it) /\ it_streamSeq it <= top 0 (stream_of C (it_streamID it)).

Lemma batch_max_le C items id :
  batch_bound C items -> wf_uuid id -> batch_max items (uuid_String id) <= top 0 (stream_of C id).
Proof.
  intros HB Hid. unfold batch_max. pose proof (top_ge 0 (stream_of C id)) as H0. revert H0. generalize 0 at 1 3 as m.
  induction items as [|it items IH]; intros m Hm; [done|]. cbn [foldl]. apply IH; [intros x Hx; apply HB; by right|].
  case_bool_decide as Hs; cbn [andb]; [|done]. destruct (_ <? _); [|done].
  destruct (HB it ltac:(left)) as [Hw Hle]. apply uuid_inj in Hs as <-; done.
Qed.

Lemma first_seq_le C items id :
  batch_bound C items -> wf_uuid id -> first_seq_of items (uuid_String id) <= top 0 (stream_of C id).
Proof.
  intros HB Hid. unfold first_seq_of. destruct (filter _ items) as [|it l] eqn:E; [apply top_ge|].
  assert (it ∈ filter (fun it => uuid_String (it_streamID it) = uuid_String id) items) as [Hs Hin]%list_elem_of_filter
    by (rewrite E; left).
  destruct (HB it Hin) as [Hw Hle]. apply uuid_inj in Hs as <-; done.
Qed.

Lemma ack_states y C items sids : forall m,
  batch_bound C items -> (forall r, r ∈ C -> 0 < lr_StreamSeq r) -> Forall uuid_text sids ->
  (forall sid st, m !! sid = Some st -> state_ok y C sid st) ->
  forall sid st, foldl (ack_stream items) m sids !! sid = Some st -> state_ok y C sid st.
Proof.
  induction sids as [|x sids IH]; intros m HB HP HF Hm; [done|]. cbn [foldl].
  apply Forall_cons in HF as [(id & Hid & ->) HF]. apply IH; [done..|]. clear IH HF. intros sid st.
  unfold ack_stream at 1. rewrite lookup_insert_Some. intros [[<- <-]|[_ Hs]]; [|auto].
  assert (HO : state_ok y C (uuid_String id)
    (default (newStreamState (first_seq_of items (uuid_String id)) 0) (m !! uuid_String id))).
  { destruct (m !! uuid_String id) as [st|] eqn:E; [by apply Hm|]. exists id. cbn.
    pose proof (first_seq_le C items id HB Hid). pose proof (top_ge 0 (stream_of C id)).
    split_and!; try done. intros r HrC _ Hle. specialize (HP r HrC). lia. }
  destruct HO as (id' & Hid' & HE & H1 & H2 & Hr). apply uuid_inj in HE as <-; [|done..]. exists id.
  pose proof (batch_max_le C items id HB Hid). destruct (_ <? _); cbn; by split_and!.
Qed.

Definition committed v v' : list LogRecord := drop (length (sv_unflushedRecords v)) (sv_unflushedRecords v').

(** A commit writes the whole batch. *)
Lemma inv_commit y v Q C :
  server_inv y v Q C -> sv_lastPosition v + Z.of_nat (length (sv_batch v)) < name_limit ->
  exists y' v' trigger, commitBatch y v = Some (y', v', trigger) /\ item_of <$> committed v v' = sv_batch v /\
    server_inv y' v' Q (C ++ committed v v') /\ sv_batch v' = [] /\ sv_incoming v' = sv_incoming v /\
    forall r, stored y r -> stored y' r.
Proof.
  intros HI HL. pose proof HI as [(F & HC & HCo) HS HQ]. unfold commitBatch, commitItems.
  destruct (sv_batch v) as [|it0 its] eqn:EB.
  { eexists _, _, _. split; [done|]. unfold committed. cbn. rewrite drop_all, app_nil_r. split_and!; try done.
    split; [by exists F|done|]. cbn. exact HQ. }
  cbv iota. rewrite <-EB in *. destruct (make_records (sv_lastPosition v) (sv_batch v)) as [last' R] eqn:EM.
  pose proof HQ as [HQE HQF HQO].
  assert (Forall item_ok (sv_batch v)) as HB.
  { rewrite HQE in HQF. apply Forall_app in HQF as [_ HQF]. by apply Forall_app in HQF as [? _]. }
  pose proof (co_last _ _ _ _ _ _ _ HCo) as HLast.
  destruct (make_records_ok _ _ _ _ (proj1 HLast) HL HB EM) as (HLe & HIt & HV & HP).
  rewrite <-HIt in HQ. pose proof (queue_append_ok _ _ _ _ HQ HV) as HA. pose proof HA as HA0. rewrite HC in HA.
  assert (HRne : R <> []) by (intros ->; by rewrite EB in HIt).
  destruct (core_append _ _ _ _ _ _ _ R last' HCo HRne HV HP ltac:(lia) HA) as (w & l' & s' & HE & HEs & HCo').
  cbn [sv_localStore set_lastPosition]. rewrite HE. cbn [sv_streamStore set_localStore set_lastPosition]. rewrite HEs.
  eexists _, _, _. split; [done|]. unfold committed. cbn [sv_unflushedRecords set_states set_unflushed set_queue
    set_localStore set_lastPosition set_streamStore sv_batch sv_incoming]. rewrite drop_app_length.
  assert (HX : C ++ R = F ++ ((default [] (sv_flushing v) ++ sv_unflushedRecords v) ++ R)) by (by rewrite HC, !app_assoc).
  assert (HP0 : forall r, r ∈ C ++ R -> 0 < lr_StreamSeq r).
  { intros r Hr. rewrite Forall_forall in HQF. specialize (HQF (item_of r)). rewrite HQE, <-HIt, app_assoc, <-fmap_app in HQF.
    destruct HQF as (_ & [H _] & _); [|exact H]. apply elem_of_app. left. by apply list_elem_of_fmap_2. }
  split_and!; try done. split.
  - exists F. cbn. rewrite <-(app_assoc (default _ _)) in *. by split.
  - cbn. apply ack_states; [|done| |].
    + intros it Hit. rewrite Forall_forall in HB. destruct (HB it Hit) as [Hw _]. split; [done|].
      rewrite <-HIt in Hit. apply list_elem_of_fmap in Hit as (r & -> & Hr). apply (top_elem 0 _ r).
      apply list_elem_of_filter. split; [done|]. apply elem_of_app. by right.
    + apply Forall_forall. intros sid Hs. unfold item_sids in Hs.
      rewrite elem_of_remove_dups, list_elem_of_fmap in Hs. destruct Hs as (it & -> & Hit). exists (it_streamID it).
      rewrite Forall_forall in HB. by destruct (HB it Hit) as [Hw _].
    + intros sid st Hs. eapply state_ok_append; [exact HA0| |by apply HS]. done.
  - cbn. split; [|done|done]. by rewrite HQE, <-HIt, fmap_app, <-!app_assoc.
Qed.

Lemma inv_receive y v Q C y' v' trigger :
  server_inv y v Q C -> sv_lastPosition v + Z.of_nat (length (sv_batch v)) + 1 < name_limit ->
  loop_receive y v = Some (y', v', trigger) -> server_inv y' v' Q (C ++ committed v v') /\ stays C y y'.
Proof.
  intros HI HL. unfold loop_receive. destruct (sv_incoming v) as [|it incoming] eqn:EI.
  { intros [= <- <- <-]. unfold committed. by rewrite drop_all, app_nil_r. }
  set (n := sv_batchBytes v + _). set (v1 := set_queue v incoming (sv_batch v ++ [it]) n).
  assert (HI1 : server_inv y v1 Q C).
  { destruct HI as [HF HS [HQ1 HQ2 HQ3]]. split; [done..|]. split; [|done|done]. cbn. by rewrite HQ1, EI, <-!app_assoc. }
  destruct (_ <=? n).
  - intros HE. destruct (inv_commit y v1 Q C HI1) as (y2 & v2 & t2 & HE2 & _ & HI2 & _ & _ & HSt).
    { cbn. rewrite length_app. cbn. lia. }
    rewrite HE in HE2. injection HE2 as <- <- <-. split; [exact HI2|]. intros r0 _. apply HSt.
  - intros [= <- <- <-]. unfold committed. cbn. by rewrite drop_all, app_nil_r.
Qed.

(** *** Flushing *)

Lemma inv_flush_begin y v Q C v' : server_inv y v Q C -> flush_begin v = Some v' -> server_inv y v' Q C.
Proof.
  intros [HF HS HQ]. unfold flush_begin. destruct (sv_flushing v) eqn:EF; [done|].
  destruct (sv_unflushedRecords v) as [|r U] eqn:EU; [done|]. intros [= <-]. split; try done.
  cbn in *. by rewrite app_nil_r.
Qed.

(** The name and the content of the segment of [recs]. *)
Definition segment_of (recs : list LogRecord) (k : bytes) : Prop :=
  exists r0 rl, head recs = Some r0 /\ last recs = Some rl /\ k = segment_path (lr_Position r0) (lr_Position rl).

Lemma segment_of_range last F recs U k :
  segment_of recs k -> valid_log (F ++ recs ++ U) -> Forall (fun r => lr_Position r <= last) (F ++ recs ++ U) ->
  exists f l, names_range last k f l /\ slice f l (F ++ recs ++ U) = recs /\
    forall r, r ∈ recs -> lr_Position r <= l.
Proof.
  intros (r0 & rl & H0 & Hl & ->) HV HP. exists (lr_Position r0), (lr_Position rl).
  assert (H0in : r0 ∈ recs) by (destruct recs; [done|]; injection H0 as ->; left).
  assert (Hlin : rl ∈ recs) by (apply last_Some in Hl as [? ->]; apply elem_of_app; right; left).
  assert (HIn : forall r, r ∈ recs -> r ∈ F ++ recs ++ U) by (intros r Hr; rewrite !elem_of_app; auto).
  assert (HU : forall r, r ∈ recs -> is_u64 (lr_Position r)).
  { intros r Hr. by destruct (log_ok_of _ r HV (HIn r Hr)) as [(_ & ? & _) _]. }
  split_and!; [|by apply slice_part|].
  - rewrite Forall_forall in HP. exact (conj eq_refl (conj (HU _ H0in) (conj (HU _ Hlin) (HP _ (HIn _ Hlin))))).
  - intros r Hr. apply valid_log_app in HV as [_ HV]. apply valid_log_app in HV as [HV _].
    pose proof (last_seq_ge recs r HV Hr) as HL. unfold last_seq in HL. by rewrite Hl in HL.
Qed.

(** Storing the next segment destroys nothing: an object of that name can only
    be the same segment. *)
Lemma core_put y s l last flushed F recs U k b' :
  core_inv y s l last flushed F (recs ++ U) -> segment_of recs k ->
  bk_objects b' = bk_objects (sy_backend y) \/ bk_objects b' = <[k := segment_bytes recs]> (bk_objects (sy_backend y)) ->
  core_inv (set_backend y b') s l last flushed F (recs ++ U) /\
  forall r, r ∈ F ++ recs ++ U -> stored y r -> stored (set_backend y b') r.
Proof.
  intros HI Hk HB. pose proof HI as [].
  destruct (segment_of_range last F recs U k Hk co_log0) as (f & g & Hn & Hsl & _).
  { eapply Forall_impl; [exact co_pos0|]. cbn. lia. }
  pose proof Hn as (HkE & Hf & Hg & _).
  assert (Hpk : has_prefix SegmentsPrefix k = true) by (rewrite HkE; apply segment_path_prefix).
  assert (HIn : forall q o, bk_objects (sy_backend y) !! q = Some o -> bk_objects b' !! q = Some o \/
    q = k /\ bk_objects b' !! k = Some (segment_bytes recs)).
  { intros q o Hq. destruct HB as [->| ->]; [by left|]. destruct (decide (q = k)) as [->|Hne].
    - right. by rewrite lookup_insert_eq.
    - left. by rewrite lookup_insert_ne. }
  assert (HSt : forall r, r ∈ F ++ recs ++ U -> stored y r -> stored (set_backend y b') r).
  { intros r HrC [(q & o & rs & Hpq & Ho & HD & Hr)|Hd]; [left|by right].
    destruct (HIn q o Ho) as [Ho'|[-> Ho']]; [by exists q, o, rs|]. exists k, (segment_bytes recs), rs.
    split_and!; try done. destruct (sg_objects _ _ _ _ co_segments0 _ _ Ho Hpk) as (f' & g' & (HE & Hf' & Hg' & _) & ->).
    rewrite HkE in HE. apply segment_path_inj in HE as [<- <-]; [|done..]. by rewrite Hsl in HD. }
  split; [|done]. split; try done.
  - apply segment_gone_inv; [done|]. intros q Hq. destruct HB as [->| ->]; [done|]. rewrite lookup_insert_ne; [done|]. congruence.
  - rewrite Forall_forall in co_flushed0 |- *. intros r Hr. destruct (co_flushed0 r Hr). split; [done|].
    apply HSt; [|done]. apply elem_of_app. by left.
  - destruct co_segments0 as [S1 S2]. split; [|done]. intros q o Hq Hpq. cbn in Hq.
    destruct HB as [HB|HB]; rewrite HB in Hq; [by apply S1|]. apply lookup_insert_Some in Hq as [[<- <-]|[_ Hq]]; [|by apply S1].
    exists f, g. by rewrite Hsl.
Qed.

(** The uploaded records count as flushed. *)
Lemma core_uploaded y s l lastp flushed F recs U k rl :
  core_inv y s l lastp flushed F (recs ++ U) -> segment_of recs k -> last recs = Some rl ->
  bk_objects (sy_backend y) !! k = Some (segment_bytes recs) ->
  core_inv y (TrackSegmentCoverage s k recs) l lastp (Z.max flushed (lr_Position rl)) (F ++ recs) U.
Proof.
  intros HI Hk Hl HO. pose proof HI as []. rewrite app_assoc in *.
  assert (HLe : Forall (fun r => lr_Position r <= lastp) ((F ++ recs) ++ U)) by (eapply Forall_impl; [exact co_pos0|]; cbn; lia).
  rewrite <-app_assoc in co_log0, HLe.
  destruct (segment_of_range lastp F recs U k Hk co_log0 HLe) as (f & g & Hn & Hsl & _).
  pose proof Hn as (HkE & Hf & Hg & _).
  assert (Hpk : has_prefix SegmentsPrefix k = true) by (rewrite HkE; apply segment_path_prefix).
  assert (Hlin : rl ∈ recs) by (apply last_Some in Hl as [? ->]; apply elem_of_app; right; left).
  assert (HVr : valid_log (recs ++ U)) by (by apply valid_log_app in co_log0 as [_ ?]).
  assert (Hmax : forall r, r ∈ recs -> lr_Position r <= lr_Position rl).
  { intros r Hr. apply valid_log_app in HVr as [HVr _]. pose proof (last_seq_ge recs r HVr Hr) as HX.
    unfold last_seq in HX. by rewrite Hl in HX. }
  pose proof co_rest0 as HRst. apply Forall_app in HRst as [HR1 HR2]. split; try done.
  - by apply track_inv.
  - by rewrite <-app_assoc.
  - rewrite Forall_forall in HLe. specialize (HLe rl). rewrite !elem_of_app in HLe. specialize (HLe ltac:(auto)). lia.
  - destruct co_local0 as (kp & H1 & H2 & H3). exists kp. split_and!; try done. intros r Hr. destruct (H3 r Hr); [by left|right; lia].
  - apply Forall_app. split.
    + eapply Forall_impl; [exact co_flushed0|]. intros r [? ?]. split; [lia|done].
    + apply Forall_forall. intros r Hr. split; [specialize (Hmax r Hr); lia|]. left.
      exists k, (segment_bytes recs), recs. split_and!; try done. apply decode_segment_records.
      apply valid_log_app in HVr as [(? & _) _]. done.
  - apply Forall_forall. intros r Hr. rewrite Forall_forall in HR2. specialize (HR2 r Hr).
    pose proof (valid_log_lt recs U rl r HVr Hlin Hr). cbn in *. lia.
  - destruct co_segments0 as [S1 S2]. split; [done|]. intros q req. cbn. rewrite lookup_insert_Some.
    intros [[<- <-]|[_ Hq]]; [|by apply S2]. exists f, g. split; [done|]. by rewrite <-app_assoc, Hsl.
Qed.

(** Retention. *)
Lemma core_retain y s l lastp flushed F U cache w l' :
  core_inv y s l lastp flushed F U ->
  LogSegmentStore_DeleteSegmentsThrough (root_world y) l flushed cache = (w, l') ->
  core_inv (put_root y w) s l' lastp flushed F U.
Proof.
  intros [] HE. destruct co_local0 as (kp & HL & HS & HK).
  destruct (retention_local _ _ _ _ _ _ _ HL HE) as (kp' & HL' & HS' & _ & Hp & HK'). split; try done.
  - eapply (store_inv_ext y _ s); try done; destruct co_store0; try done. cbn. apply HL'.
  - congruence.
  - exists kp'. rewrite root_put. split_and!; [done|by etrans|]. intros r Hr. destruct (HK r Hr) as [Hk|?]; [|by right].
    by apply HK'.
Qed.

Lemma agg_gc_fields y v segs y' v' :
  checkAggregatedSegmentGC y v segs = (y', v') ->
  exists s' del errs flushed, gc_segments y (sv_streamStore v) segs = (y', s', del, errs) /\
    v' = set_flushed (set_streamStore v s') (sv_lastFlushedPosition v) flushed.
Proof.
  unfold checkAggregatedSegmentGC, CheckSegmentGC.
  destruct (gc_segments y (sv_streamStore v) segs) as [[[y1 s1] del] errs]. intros HE.
  destruct del as [|d del]; injection HE as <- <-; eexists _, _, _, _; (split; [done|]); by destruct v.
Qed.

Lemma track_reqs_elem R sid m :
  track_reqs R !! sid = Some m -> exists r, r ∈ R /\ uuid_String (lr_StreamID r) = sid /\ lr_StreamSeq r = m.
Proof.
  unfold track_reqs. set (step := fun (reqs : gmap bytes Z) (rec : LogRecord) => _).
  assert (HX : forall R reqs, foldl step reqs R !! sid = Some m ->
    reqs !! sid = Some m \/ exists r, r ∈ R /\ uuid_String (lr_StreamID r) = sid /\ lr_StreamSeq r = m).
  { clear R. induction R as [|r R IH]; intros reqs; [by left|]. cbn [foldl]. intros [HE|(r' & ? & ?)]%IH.
    - unfold step in HE. destruct (_ <? _); [|by left]. apply lookup_insert_Some in HE as [[? ?]|[_ ?]]; [|by left].
      right. exists r. split; [left|done].
    - right. exists r'. split; [by right|done]. }
  intros [HE|HE]%HX; [by rewrite lookup_empty in HE|done].
Qed.

(** Of a stream, the records up to an uploaded one are uploaded. *)
Lemma stream_prefix_stored C F U r r' :
  C = F ++ U -> StronglySorted Z.lt (lr_StreamSeq <$> stream_of C (lr_StreamID r)) ->
  r ∈ C -> r' ∈ F -> lr_StreamID r' = lr_StreamID r -> lr_StreamSeq r <= lr_StreamSeq r' -> r ∈ F.
Proof.
  intros -> HS [?|Hr]%elem_of_app Hr' HE Hle; [done|]. exfalso. rewrite stream_of_app, fmap_app in HS.
  apply StronglySorted_app in HS as (HS & _). specialize (HS (lr_StreamSeq r') (lr_StreamSeq r)).
  assert (lr_StreamSeq r' < lr_StreamSeq r); [|lia]. apply HS; apply list_elem_of_fmap_2, list_elem_of_filter; done.
Qed.

Lemma queue_sorted Q C batch incoming id :
  queue_ok Q C batch incoming -> StronglySorted Z.lt (lr_StreamSeq <$> stream_of C id).
Proof.
  intros [HE _ HO]. specialize (HO id). rewrite HE, items_of_app, fmap_app, items_of_records in HO.
  by apply StronglySorted_app_1_l in HO.
Qed.

Lemma raise_s3_ok y C F recs U sid st :
  C = (F ++ recs) ++ U -> Forall (stored y) (F ++ recs) ->
  (forall id, StronglySorted Z.lt (lr_StreamSeq <$> stream_of C id)) -> Forall (fun r => wf_uuid (lr_StreamID r)) recs ->
  state_ok y C sid st -> state_ok y C sid (raise_s3 (max_seqs recs) sid st).
Proof.
  intros HC HF HO Hwf HS. unfold raise_s3, max_seqs. destruct (track_reqs recs !! sid) as [m|] eqn:E; [|done].
  destruct (_ <? _); [|done]. destruct (track_reqs_elem _ _ _ E) as (r' & Hr' & Hid' & <-).
  destruct HS as (id & Hid & -> & H1 & _ & _). rewrite Forall_forall in HF, Hwf.
  apply uuid_inj in Hid' as <-; [|by auto|done]. exists (lr_StreamID r'). cbn. split_and!; try done.
  - apply top_elem. rewrite HC. apply list_elem_of_filter. split; [done|]. rewrite !elem_of_app. auto.
  - intros r HrC HE Hle. apply HF. eapply (stream_prefix_stored C (F ++ recs) U r r'); try done.
    apply elem_of_app. by right.
Qed.

(** The upload of a segment. *)
Lemma upload_result (b : B) k d b' r :
  bk_PutObject b [] k d = (b', r) ->
  (bk_objects b' = bk_objects b \/ bk_objects b' = <[k := d]> (bk_objects b)) /\
  (forall u, r = Ok u -> bk_objects b' !! k = Some d).
Proof.
  intros E. pose proof (PutObject_spec b [] k d) as HS. rewrite E in HS. change (StorageKey [] k) with k in HS.
  destruct r as [u|e]; [|done]. split; [by right|]. intros _ _. by rewrite HS, lookup_insert_eq.
Qed.

Lemma inv_flush y v Q C recs segs y' v1 r :
  server_inv y v Q C -> sv_flushing v = Some recs -> doFlush y v recs segs = (y', v1, r) ->
  server_inv y' (flush_end v1 r) Q C /\ stays C y y'.
Proof.
  intros [(F & HC & HI) HS HQ] HFl. rewrite HFl in HC, HI. cbn [default from_option] in *. unfold Datatypes.id in *. unfold doFlush.
  destruct recs as [|r0 rs].
  { intros [= <- <- <-]. unfold flush_end. rewrite HFl. split; [|done]. split; [by exists F|done..]. }
  set (recs := r0 :: rs) in *.
  destruct (last recs) as [rl|] eqn:EL; [|by apply last_None in EL]. cbv zeta.
  set (k := segment_path _ _).
  change (SegmentHeader_Encode DefaultSegmentHeader ++ concat (LogRecord_Encode <$> recs)) with (segment_bytes recs).
  assert (Hk : segment_of recs k) by (by exists r0, rl).
  destruct (bk_PutObject (sy_backend y) [] k (segment_bytes recs)) as [b1 rp] eqn:EP.
  destruct (upload_result _ _ _ _ _ EP) as [HB HBk].
  destruct (core_put _ _ _ _ _ _ _ _ _ _ HI Hk HB) as [HI1 HSt]. rewrite <-HC in HSt.
  assert (HS1 : forall sid st, sv_streams v !! sid = Some st -> state_ok (set_backend y b1) C sid st).
  { intros sid st Hs. by eapply state_ok_mono, HS, Hs. }
  destruct rp as [u|e].
  2:{ intros [= <- <- <-]. unfold flush_end. rewrite HFl. split; [|done]. by split; [exists F|..]. }
  pose proof (core_uploaded _ _ _ _ _ _ _ _ _ _ HI1 Hk EL (HBk _ eq_refl)) as HI2.
  set (va := set_streamStore _ _). destruct (checkAggregatedSegmentGC _ va segs) as [y2 v2] eqn:EG.
  destruct (agg_gc_fields _ _ _ _ _ EG) as (s2 & del & errs & fl & EG2 & ->).
  destruct (core_gc _ _ _ _ _ _ _ _ _ _ _ _ HI2 EG2) as (HI3 & HSt3 & _).
  destruct (LogSegmentStore_DeleteSegmentsThrough _ _ _ _) as [w l2] eqn:ER. intros [= <- <- <-].
  pose proof (core_retain _ _ _ _ _ _ _ _ _ _ HI3 ER) as HI4.
  assert (HC2 : C = (F ++ recs) ++ sv_unflushedRecords v) by (by rewrite HC, app_assoc).
  rewrite <-HC2 in HSt3. split; [|intros x Hx Hsx; by apply HSt3, HSt].
  unfold flush_end. cbn [sv_flushing set_localStore set_flushed set_streamStore va set_states]. rewrite HFl. split.
  - exists (F ++ recs). cbn. by split.
  - cbn. intros sid st. rewrite map_lookup_imap. destruct (sv_streams v !! sid) as [st0|] eqn:Es; [|done].
    cbn. intros [= <-]. eapply (state_ok_mono y2); [done|]. eapply (state_ok_mono (set_backend y b1)); [done|].
    change (state_ok (set_backend y b1) C sid (raise_s3 (max_seqs recs) sid st0)).
    eapply (raise_s3_ok _ _ F recs (sv_unflushedRecords v)); [done| | | |by apply HS1].
    + eapply Forall_impl; [apply (co_flushed _ _ _ _ _ _ _ HI2)|]. by intros x [_ ?].
    + intros id. by eapply queue_sorted.
    + apply Forall_forall. intros x Hx. eapply log_wf; [apply (co_log _ _ _ _ _ _ _ HI)|]. rewrite !elem_of_app. auto.
  - cbn. exact HQ.
Qed.

(** *** Histories *)

(** One step of the service on a disk that works: [Q] are the records received,
    [C] the committed ones.  The backend may fail at any call.  Clients send the
    new records of a stream in increasing order and each once; positions stay
    below the limit of the local file names. *)
Inductive server_step : Sys B * Server * list incomingItem * list LogRecord ->
    Sys B * Server * list incomingItem * list LogRecord -> Prop :=
| sp_hello y v Q C id y' v' r : append_hello y v id = (y', v', r) -> server_step (y, v, Q, C) (y', v', Q, C)
| sp_record y v Q C id seq payload v' r :
    append_record v id seq payload = (v', r) -> (r = Ok RecvQueued -> fresh_item Q (mkItem id seq payload)) ->
    server_step (y, v, Q, C) (y, v', received_of Q (mkItem id seq payload) r, C)
| sp_forward y v Q C id a b v' r : forward_acks v id a b = (v', r) -> server_step (y, v, Q, C) (y, v', Q, C)
| sp_detach y v Q C id : server_step (y, v, Q, C) (y, append_detach v id, Q, C)
| sp_receive y v Q C y' v' trigger :
    sv_lastPosition v + Z.of_nat (length (sv_batch v)) + 1 < name_limit ->
    loop_receive y v = Some (y', v', trigger) -> server_step (y, v, Q, C) (y', v', Q, C ++ committed v v')
| sp_tick y v Q C y' v' trigger :
    sv_lastPosition v + Z.of_nat (length (sv_batch v)) < name_limit ->
    loop_tick y v = Some (y', v', trigger) -> server_step (y, v, Q, C) (y', v', Q, C ++ committed v v')
| sp_flush_begin y v Q C v' : flush_begin v = Some v' -> server_step (y, v, Q, C) (y, v', Q, C)
| sp_flush y v Q C recs segs y' v' r :
    sv_flushing v = Some recs -> doFlush y v recs segs = (y', v', r) ->
    server_step (y, v, Q, C) (y', flush_end v' r, Q, C)
| sp_check y v Q C ws segs y' v' :
    server_checkSealsAndGC y v ws segs = (y', v') -> server_step (y, v, Q, C) (y', v', Q, C)
| sp_pending y v Q C ws y' v' :
    server_flushAllPending y v ws = (y', v') -> server_step (y, v, Q, C) (y', v', Q, C)
| sp_seal_all y v Q C ws segs y' v' errs :
    SealStreams y v ws segs = (y', v', errs) -> server_step (y, v, Q, C) (y', v', Q, C)
| sp_seal y v Q C id segs y' v' r :
    wf_uuid id -> Server_SealStream y v id segs = (y', v', r) -> server_step (y, v, Q, C) (y', v', Q, C)
| sp_tail y v Q C id accept t y' s' t' out r :
    wf_uuid id -> tail_pass id accept y (sv_streamStore v) t = (y', s', t', out, r) ->
    server_step (y, v, Q, C) (y', set_streamStore v s', Q, C)
| sp_clock y v Q C now :
    server_step (y, v, Q, C) (mkSys (sy_root y) (sy_streams y) (sy_outcomes y) now (sy_backend y), v, Q, C).

Lemma server_store_inv y v Q C : server_inv y v Q C -> store_inv y (sv_streamStore v) (stream_of C).
Proof. intros [(F & -> & []) _ _]. done. Qed.

Lemma inv_check y v Q C ws segs y' v' :
  server_inv y v Q C -> server_checkSealsAndGC y v ws segs = (y', v') -> server_inv y' v' Q C /\ stays C y y'.
Proof.
  intros HI. unfold server_checkSealsAndGC. destruct (check_streams y (sv_streamStore v) ws) as [y1 s1] eqn:E1.
  destruct (CheckSegmentGC y1 s1 segs) as [[[y2 s2] d2] e2] eqn:E2. intros [= <- <-].
  pose proof (check_streams_inv _ _ _ _ _ _ (server_store_inv _ _ _ _ HI) E1) as HK1.
  destruct (inv_kept _ _ _ _ _ _ HI HK1) as [HI1 HSt1].
  destruct (inv_gc _ (set_streamStore v s1) _ _ _ _ _ _ _ HI1 E2) as [HI2 HSt2].
  pose proof (inv_evict _ _ _ _ HI2) as HI3. pose proof (server_store_inv _ _ _ _ HI3) as HS3.
  match goal with |- server_inv ?y' ?v' _ _ /\ _ => destruct (inv_kept y2 _ _ _ y' (sv_streamStore v') HI3) as [HI4 HSt4] end.
  { eapply kept_trans; [|apply saveCoverage_inv]. split_and!; [by apply evict_inv|by apply sys_grows_refl|done|done]. }
  split; [exact HI4|]. by do 2 (eapply stays_trans; [done|]).
Qed.

Lemma clock_kept y s G now :
  store_inv y s G -> kept G y s (mkSys (sy_root y) (sy_streams y) (sy_outcomes y) now (sy_backend y)) s.
Proof. intros HI. apply kept_same; [done|done|]. destruct HI. by eapply (store_inv_ext y _ s). Qed.

Lemma set_streamStore_same v : set_streamStore v (sv_streamStore v) = v.
Proof. by destruct v. Qed.

Lemma server_step_inv x x' :
  server_step x x' -> server_inv x.1.1.1 x.1.1.2 x.1.2 x.2 ->
  server_inv x'.1.1.1 x'.1.1.2 x'.1.2 x'.2 /\ stays x.2 x.1.1.1 x'.1.1.1.
Proof.
  destruct 1 as [y v Q C id y' v' r HE|y v Q C id seq payload v' r HE HF|y v Q C id a b v' r HE|y v Q C id|
    y v Q C y' v' t HL HE|y v Q C y' v' t HL HE|y v Q C v' HE|y v Q C recs segs y' v' r HF HE|y v Q C ws segs y' v' HE|
    y v Q C ws y' v' HE|y v Q C ws segs y' v' errs HE|y v Q C id segs y' v' r Hid HE|y v Q C id accept t y' s' t' out r Hid HE|
    y v Q C now]; cbn [fst snd]; intros HI; pose proof (server_store_inv _ _ _ _ HI) as HS.
  - by eapply inv_hello.
  - split; [by eapply inv_record|done].
  - split; [by eapply inv_forward|done].
  - split; [by apply inv_detach|done].
  - by eapply inv_receive.
  - destruct (inv_commit _ _ _ _ HI HL) as (y2 & v2 & t2 & HE2 & _ & HI2 & _ & _ & HSt). unfold loop_tick in HE.
    rewrite HE in HE2. injection HE2 as <- <- <-. split; [done|]. intros r0 _. apply HSt.
  - split; [by eapply inv_flush_begin|done].
  - by eapply inv_flush.
  - by eapply inv_check.
  - unfold server_flushAllPending in HE. destruct (flushAllPending y (sv_streamStore v) ws) as [y1 s1] eqn:E1.
    injection HE as <- <-. eapply inv_kept; [done|]. by eapply flushAllPending_inv.
  - unfold SealStreams in HE. destruct (SealAll y (sv_streamStore v) ws) as [[[y1 s1] ms] er] eqn:E1.
    destruct (checkAggregatedSegmentGC y1 _ segs) as [y2 v2] eqn:E2. injection HE as <- <- <-.
    destruct (inv_kept _ _ _ _ _ _ HI (SealAll_inv _ _ _ _ _ _ _ _ HS E1)) as [HI1 HSt1].
    destruct (inv_agg_gc _ _ _ _ _ _ _ HI1 E2) as [HI2 HSt2]. split; [exact HI2|by eapply stays_trans].
  - unfold Server_SealStream in HE. destruct (getOrCreateState y v id) as [[y1 v1] st] eqn:E1.
    destruct (inv_getOrCreateState _ _ _ _ _ _ _ _ Hid HI E1) as (HI1 & _ & HSt1).
    destruct (SealStream y1 (sv_streamStore v1) id) as [[y2 s2] [m rr]] eqn:E2.
    destruct (checkAggregatedSegmentGC y2 _ segs) as [y3 v3] eqn:E3. injection HE as <- <- <-.
    pose proof (SealStream_inv _ _ _ _ _ _ _ Hid (server_store_inv _ _ _ _ HI1) E2) as HK2.
    destruct (inv_kept _ _ _ _ _ _ HI1 HK2) as [HI2 HSt2].
    destruct (inv_agg_gc _ _ _ _ _ _ _ HI2 E3) as [HI3 HSt3]. split; [exact HI3|].
    by do 2 (eapply stays_trans; [done|]).
  - eapply inv_kept; [done|]. by destruct (tail_pass_ok _ _ _ _ _ _ _ _ _ _ _ Hid HS HE) as [? _].
  - rewrite <-(set_streamStore_same v). eapply inv_kept; [done|]. by apply clock_kept.
Qed.

(** *** The first start *)

Definition empty_disk y : Prop :=
  sy_outcomes y = [] /\ sy_streams y = ∅ /\ sy_root y = ∅ /\ bk_objects (sy_backend y) = ∅.

Lemma list_nothing b b' r :
  bk_objects b = ∅ -> ListSegmentsFromBackend b = (b', r) ->
  bk_objects b' = ∅ /\ match r with Ok x => x = ([], 0) | Err _ => True end.
Proof.
  intros HB. unfold ListSegmentsFromBackend. destruct (bk_ListObjects b [] SegmentsPrefix) as [b1 r1] eqn:E.
  pose proof (ListObjects_spec b [] SegmentsPrefix) as HS. rewrite E in HS. destruct HS as [HB1 HS].
  destruct r1 as [es|e]; intros [= <- <-]; (split; [congruence|]); [|done].
  destruct HS as [_ HS]. destruct es as [|[k n t] es]; [done|]. exfalso.
  destruct (HS k n) as [[_ (o & Ho & _)] _]; [exists t; left|]. by rewrite HB in Ho.
Qed.

Lemma gc_nothing segs y s : ss_segmentReqs s = ∅ -> gc_segments y s segs = (y, s, [], []).
Proof. intros HS. induction segs as [|seg segs IH]; [done|]. cbn [gc_segments]. by rewrite HS, lookup_empty. Qed.

Lemma recover_nothing y s :
  sy_outcomes y = [] -> sy_streams y = ∅ -> ss_streams s = ∅ -> Recover y s [] = (y, s, Ok []).
Proof.
  intros Ho HS Hs. unfold Recover. rewrite next_outcome_ok by done. unfold recover_ids.
  cbn [sy_streams put_root]. rewrite HS, Hs, map_to_list_empty. cbn. by destruct y.
Qed.

(** The only thing that can keep a service from starting on an empty disk is
    that storage cannot be listed. *)
Lemma start_inv y config segs y' v :
  empty_disk y -> cf_NoFsync config = false -> NewServer y config segs = (y', Ok v) ->
  server_inv y' v [] [] /\ sv_streams v = ∅.
Proof.
  intros (Ho & Hst & Hro & HB) Hnf. unfold NewServer. cbv zeta. set (cfg := with_defaults config).
  set (s0 := if cf_AcceptUnversioned cfg then _ else _).
  assert (Hs0 : ss_streams s0 = ∅ /\ ss_segmentReqs s0 = ∅) by (unfold s0; by destruct (cf_AcceptUnversioned cfg)).
  destruct Hs0 as [Hs1 Hs2]. clearbody s0.
  destruct (ListSegmentsFromBackend (sy_backend y)) as [b1 r1] eqn:E1. destruct (list_nothing _ _ _ HB E1) as [HB1 Hr1].
  destruct r1 as [x|e]; [|done]. subst x. unfold LoadCoverage, os_ReadFile. rewrite next_outcome_ok by done.
  cbn [w_dir root_world sy_root set_backend]. rewrite Hro, lookup_empty. cbn [read_discovered sy_backend put_root].
  set (y1 := put_root _ _). change (sy_backend (set_backend y b1)) with b1.
  destruct (fresh_refines (go "log") (root_world (set_backend y1 b1)) (go "log") (cf_FlushBytes cfg)
    (mkScanOptions (cf_AcceptUnversioned cfg) (cf_NoFsync cfg)) log_ok_inhabited) as (w & l & HN & Hp & HR); try done.
  { intros n e. by cbn; rewrite Hro, lookup_empty. }
  unfold NewLogSegmentStore. rewrite HN. cbn [foldl app]. set (y2 := put_root _ w).
  rewrite (recover_nothing y2 s0) by (try done; cbn; apply HR). rewrite filter_nil.
  unfold flushInternal, flush_begin. cbn [sv_flushing sv_unflushedRecords]. cbv iota beta.
  unfold checkAggregatedSegmentGC, CheckSegmentGC. cbn [sv_streamStore]. rewrite gc_nothing by done. intros [= <- <-].
  assert (HRe : recovered_states [] [] = ∅).
  { unfold recovered_states. apply map_eq. intros i. rewrite map_lookup_imap, lookup_union_with. by cbn; rewrite lookup_empty. }
  cbn [sv_streams set_streamStore]. split; [|done]. split; [|cbn [sv_streams set_streamStore]; rewrite HRe; intros sid st; by rewrite lookup_empty|].
  - exists []. split; [done|]. split; try done; try (by constructor).
    + apply (store_inv_log _ _ (fun _ => [])); [done|]. apply (first_start_inv y2). split_and!; try done; [cbn; apply HR|]. intros id k _ _. cbn. by rewrite HB1, lookup_empty.
    + by repeat constructor.
    + exists []. cbn [sv_localStore set_streamStore]. unfold y2. rewrite root_put. split_and!; try done.
      intros r Hr. by apply not_elem_of_nil in Hr.
    + split; intros k x Hk; cbn in Hk; [by rewrite HB1, lookup_empty in Hk|by rewrite Hs2, lookup_empty in Hk].
  - split; [done|constructor|]. intros id. constructor.
Qed.

(** Everything that can happen after a first start. *)
Inductive server_reach : Sys B -> Server -> list incomingItem -> list LogRecord -> Prop :=
| vr_start y config segs y' v :
    empty_disk y -> cf_NoFsync config = false -> NewServer y config segs = (y', Ok v) -> server_reach y' v [] []
| vr_step y v Q C y' v' Q' C' :
    server_reach y v Q C -> server_step (y, v, Q, C) (y', v', Q', C') -> server_reach y' v' Q' C'.

Lemma server_reach_inv y v Q C : server_reach y v Q C -> server_inv y v Q C.
Proof.
  induction 1 as [y config segs y' v HD Hn HE|y v Q C y' v' Q' C' _ IH HS].
  - by apply (start_inv _ _ _ _ _ HD Hn HE).
  - by apply (server_step_inv _ _ HS).
Qed.

(** *** Crashes *)

Definition server_crash y y1 : Prop :=
  sys_crash y y1 /\ crash (root_world y) (root_world y1) /\ headers_intact (root_world y1) (go "log").

(** A start finds the record: in a segment, in a sealed file of its stream, or
    in the local log. *)
Definition found y (r : LogRecord) : Prop :=
  stored y r \/ forall maxSize, exists w l recs,
    NewLogSegmentStore (root_world y) (go "log") maxSize (mkScanOptions false false) = (w, Ok (l, recs)) /\ r ∈ recs.

Lemma stored_crash y y1 r : sys_crash y y1 -> stored y r -> stored y1 r.
Proof.
  intros HC [(k & o & recs & Hr)|HD]; [left|right; by eapply sealed_on_disk_crash].
  exists k, o, recs. by rewrite (yc_backend _ _ HC).
Qed.

Lemma committed_found y v Q C r y1 : server_inv y v Q C -> r ∈ C -> server_crash y y1 -> found y1 r.
Proof.
  intros [(F & HC & HI) _ _] Hr (HCr & HRo & HH). pose proof HI as []. rewrite HC in Hr.
  destruct co_local0 as (kp & HL & _ & HK). destruct (HK r Hr) as [Hk|Hle].
  - right. intros maxSize.
    destruct (refines_recover (go "log") maxSize (mkScanOptions false false) _ _ _ (root_world y1) log_ok_inhabited HL)
      as (w & l & n & HE & Hn & _); try done.
    { by destruct HCr. }
    { by rewrite co_prefix0. }
    cbn [al_records al_durable] in *. rewrite co_prefix0 in HE. exists w, l, (take n kp). split; [done|]. by rewrite take_ge by lia.
  - left. eapply stored_crash; [done|]. apply elem_of_app in Hr as [Hr|Hr].
    + rewrite Forall_forall in co_flushed0. by destruct (co_flushed0 r Hr).
    + rewrite Forall_forall in co_rest0. specialize (co_rest0 r Hr). lia.
Qed.

(** A received record up to a number that a committed one of its stream has is
    committed. *)
Lemma received_committed y v Q C it :
  server_inv y v Q C -> it ∈ Q -> it_streamSeq it <= top 0 (stream_of C (it_streamID it)) ->
  exists r, r ∈ C /\ item_of r = it.
Proof.
  intros [_ _ HQ] Hin Hle. destruct HQ as [HE HF HO].
  assert (0 < it_streamSeq it) as H0 by (rewrite Forall_forall in HF; by destruct (HF it Hin) as (_ & [? _] & _)).
  rewrite HE in Hin. apply elem_of_app in Hin as [Hin|Hin]; [apply list_elem_of_fmap in Hin as (r & -> & Hr); eauto|].
  exfalso. destruct (top_cases 0 (stream_of C (it_streamID it))) as [Ht|(r & Hr & Ht)]; [lia|].
  specialize (HO (it_streamID it)). rewrite HE, items_of_app, fmap_app, items_of_records in HO.
  apply StronglySorted_app in HO as (HO & _). specialize (HO (lr_StreamSeq r) (it_streamSeq it)).
  assert (lr_StreamSeq r < it_streamSeq it); [|lia]. apply HO; apply list_elem_of_fmap_2; [done|]. by apply list_elem_of_filter.
Qed.

End server.
