(* ===== verification/WalService.v ===== *)
(** * WalService: what the WAL buffer service guarantees

    The theorems about the service of WalServer.v, from the invariant of
    WalServerInv.v: what is acknowledged survives crashes, records are
    committed once and in order, a commit acknowledges its batch, a flush
    brings everything to storage or keeps everything.  Then runs of the service
    that lose a record or leave a subscriber behind. *)

From S2P Require Import Prelude Bytes WalRecord FileSys WalSegment WalStore WalPaths ObjectStore WalStream.
From S2P Require Import WalStreamInv WalStreamStore WalTail WalBuffer WalServer WalServerInv.

#[local] Open Scope Z_scope.
#[local] Open Scope list_scope.

Section service.
Context `{UU : !UuidLib} `{UL : !UuidLaw} {B : Type} `{BK : !Backend B} `{BL : !BackendLaw B}.
Implicit Types (y : Sys B) (v : Server) (Q : list incomingItem) (C : list LogRecord).

(** C3: no acknowledged record is lost.  Take a service from its first start to
    the first crash (appends of any number of streams, group commits, flushes,
    seals, evictions, garbage collections, reads), on a disk that works, with the
    object store failing at any call, where the records queued for a stream are
    new and come in increasing order: none is queued again while its first copy
    waits to be committed.  When the service tells the client of a stream the
    watermarks [W] and [S], then every record received on that stream with a
    number up to [W] has been committed, and after a crash at that point a start
    finds it with its payload: in an aggregated segment of the object store, in a
    sealed file of the stream on the disk, or in the local log.  Up to [S] it
    does not need the local log. *)
Theorem acknowledged_survive y v Q C id a b v' W S it y1 :
  server_reach y v Q C -> wf_uuid id -> forward_acks v id a b = (v', Ok (Some (W, S))) ->
  it ∈ Q -> it_streamID it = id -> server_crash y y1 ->
  (it_streamSeq it <= W -> exists r, r ∈ C /\ item_of r = it /\ found y1 r) /\
  (it_streamSeq it <= S -> exists r, r ∈ C /\ item_of r = it /\ stored y1 r).
Proof.
  intros HR%server_reach_inv Hid HF Hit <- HC. unfold forward_acks in HF.
  destruct (sv_streams v !! uuid_String (it_streamID it)) as [st|] eqn:Es; [|done]. destruct (ws_commitErr st); [done|].
  destruct (_ && _ && _); [done|]. injection HF as _ <- <-.
  destruct (vi_states _ _ _ _ HR _ _ Es) as (id & Hid' & HE & HW & HS & HSt). apply uuid_inj in HE as <-; [|done..].
  split; intros Hle; (destruct (received_committed _ _ _ _ it HR Hit) as (r & Hr & <-); [lia|]); exists r; (split_and!; [done..|]).
  - by eapply committed_found.
  - eapply stored_crash; [apply HC|]. by apply HSt.
Qed.

(** C9: records are committed once and in order: the records received so far
    are, in this order, the committed ones, those of the batch and those in the
    queue; committed records have increasing positions, up to the last
    position. *)
Theorem committed_in_order y v Q C :
  server_reach y v Q C ->
  Q = (item_of <$> C) ++ sv_batch v ++ sv_incoming v /\
  StronglySorted Z.lt (lr_Position <$> C) /\ Forall (fun r => 0 < lr_Position r <= sv_lastPosition v) C.
Proof.
  intros [(F & HC & HI) _ HQ]%server_reach_inv. destruct HI, HQ. split_and!; [done|..]; rewrite HC; [by apply co_log|done].
Qed.

Lemma batch_max_ge items sid it : it ∈ items -> uuid_String (it_streamID it) = sid -> it_streamSeq it <= batch_max items sid.
Proof.
  unfold batch_max. generalize 0. induction items as [|x items IH]; intros m Hin Hs; [by apply not_elem_of_nil in Hin|].
  cbn [foldl]. apply elem_of_cons in Hin as [<-|Hin]; [|by apply IH]. rewrite bool_decide_eq_true_2 by done. cbn [andb].
  assert (HM : forall l m, m <= foldl (fun m it => if bool_decide (uuid_String (it_streamID it) = sid) && (m <? it_streamSeq it)
                     then it_streamSeq it else m) m l).
  { clear. induction l as [|x l IH]; intros m; [done|]. cbn [foldl]. etrans; [|apply IH].
    destruct (bool_decide _); cbn [andb]; [|done]. destruct (m <? it_streamSeq x) eqn:E; zify_bool; lia. }
  destruct (m <? it_streamSeq it) eqn:E; [apply HM|]. etrans; [|apply HM]. zify_bool. lia.
Qed.

Lemma ack_stream_other items m sid x : sid <> x -> ack_stream items m x !! sid = m !! sid.
Proof. intros Hne. unfold ack_stream. by rewrite lookup_insert_ne. Qed.

Lemma ack_stream_same items m sid :
  exists st, ack_stream items m sid !! sid = Some st /\ batch_max items sid <= ws_witnessSeq st.
Proof.
  unfold ack_stream. rewrite lookup_insert_eq. eexists. split; [done|].
  destruct (_ <? batch_max items sid) eqn:E; cbn; [done|]. zify_bool. lia.
Qed.

Lemma ack_fold items sids : forall m sid,
  sid ∈ sids -> exists st, foldl (ack_stream items) m sids !! sid = Some st /\ batch_max items sid <= ws_witnessSeq st.
Proof.
  induction sids as [|x sids IH] using rev_ind; intros m sid Hin; [by apply not_elem_of_nil in Hin|].
  rewrite foldl_app. cbn [foldl]. destruct (decide (sid = x)) as [->|Hne]; [apply ack_stream_same|].
  rewrite ack_stream_other by done. apply IH. apply elem_of_app in Hin as [?|Hin]; [done|]. by apply list_elem_of_singleton in Hin.
Qed.

(** C10: a commit acknowledges its batch: on a disk that works a tick of the
    group commit commits all records of the batch, empties it, and raises the
    witness watermark of each of their streams to at least their numbers. *)
Theorem commit_acknowledges y v Q C :
  server_reach y v Q C -> sv_lastPosition v + Z.of_nat (length (sv_batch v)) < name_limit ->
  exists y' v' trigger, loop_tick y v = Some (y', v', trigger) /\ sv_batch v' = [] /\
    item_of <$> committed v v' = sv_batch v /\
    forall it, it ∈ sv_batch v -> exists st, sv_streams v' !! uuid_String (it_streamID it) = Some st /\
      it_streamSeq it <= ws_witnessSeq st.
Proof.
  intros HR%server_reach_inv HL. destruct (inv_commit _ _ _ _ HR HL) as (y' & v' & t & HE & HCm & HI' & Hb & _).
  exists y', v', t. split_and!; try done. intros it Hit. unfold commitBatch, commitItems in HE.
  destruct (sv_batch v) as [|it0 its] eqn:EB; [by apply not_elem_of_nil in Hit|].
  destruct (make_records _ _) as [last R]. destruct (LogSegmentStore_AppendBatch _ _ _) as [[w l] [u|e]].
  - destruct (AppendRecords _ R) as [s|]; [|done]. injection HE as _ <- _. cbn [sv_streams set_queue set_states].
    destruct (ack_fold (it0 :: its) (item_sids (it0 :: its)) (sv_streams v) (uuid_String (it_streamID it))) as (st & Hs & Hle).
    { unfold item_sids. rewrite elem_of_remove_dups. apply list_elem_of_fmap. by exists it. }
    exists st. split; [exact Hs|]. pose proof (batch_max_ge _ _ _ Hit eq_refl). lia.
  - injection HE as _ <- _. unfold committed in HCm. cbn [sv_unflushedRecords set_queue set_states set_localStore set_lastPosition] in HCm.
    by rewrite drop_all in HCm.
Qed.

Lemma doFlush_fields y v recs segs y' v' r :
  doFlush y v recs segs = (y', v', r) ->
  sv_unflushedRecords v' = sv_unflushedRecords v /\ sv_flushing v' = sv_flushing v /\ sv_lastPosition v' = sv_lastPosition v.
Proof.
  unfold doFlush. destruct recs as [|r0 rs]; [by intros [= <- <- <-]|].
  destruct (last (r0 :: rs)) as [rl|]; [|by intros [= <- <- <-]].
  destruct (bk_PutObject _ _ _ _) as [b [u|e]]; [|by intros [= <- <- <-]].
  destruct (checkAggregatedSegmentGC _ _ segs) as [y2 v2] eqn:EG. apply agg_gc_fields in EG as (s2 & del & errs & fl & _ & ->).
  destruct (LogSegmentStore_DeleteSegmentsThrough _ _ _ _) as [w l]. by intros [= <- <- <-].
Qed.

Lemma all_flushed y v Q C :
  server_inv y v Q C -> sv_flushing v = None -> sv_unflushedRecords v = [] -> Forall (stored y) C.
Proof.
  intros [(F & HC & HI) _ _] H1 H2. rewrite H1, H2 in HC, HI. cbn in HC. rewrite app_nil_r in HC. subst C.
  eapply Forall_impl; [apply HI|]. by intros r [_ ?].
Qed.

(** C11: a flush makes every committed record independent of the local log or
    changes nothing that matters, in the runs of [server_reach] (from the first
    start, on a disk that works, with records queued once and in order): when it
    succeeds it returns the last position, nothing is left to flush and every
    committed record is in an aggregated segment of the object store or in a
    synced, sealed file of its stream on the service's disk; when the upload
    fails, exactly the same records are still to be flushed. *)
Theorem flush_all_or_nothing y v Q C segs y' v' r :
  server_reach y v Q C -> sv_flushing v = None -> flushInternal y v segs = (y', v', r) ->
  match r with
  | Ok pos => pos = sv_lastPosition v /\ sv_unflushedRecords v' = [] /\ Forall (stored y') C
  | Err _ => sv_unflushedRecords v' = sv_unflushedRecords v /\ sv_flushing v' = None
  end.
Proof.
  intros HR%server_reach_inv HF. unfold flushInternal. destruct (flush_begin v) as [v1|] eqn:EB.
  - pose proof (inv_flush_begin _ _ _ _ _ HR EB) as HI1. unfold flush_begin in EB. rewrite HF in EB.
    destruct (sv_unflushedRecords v) as [|r0 rs] eqn:EU; [done|]. injection EB as <-.
    cbn [sv_flushing set_unflushed default from_option]. unfold Datatypes.id.
    destruct (doFlush y _ (r0 :: rs) segs) as [[y2 v2] rf] eqn:ED. intros [= <- <- <-].
    destruct (inv_flush _ _ _ _ _ _ _ _ _ HI1 eq_refl ED) as [HI2 _].
    destruct (doFlush_fields _ _ _ _ _ _ _ ED) as (H1 & H2 & H3). cbn in H1, H2, H3. revert HI2. unfold flush_end. rewrite H2.
    destruct rf as [u|e]; cbn [sv_lastPosition set_unflushed sv_unflushedRecords sv_flushing]; intros HI2.
    + split_and!; [done..|]. by eapply all_flushed.
    + by rewrite H1, app_nil_r.
  - unfold flush_begin in EB. rewrite HF in EB. destruct (sv_unflushedRecords v) eqn:EU; [|done]. intros [= <- <- <-].
    split_and!; [done..|]. by eapply all_flushed.
Qed.

End service.

(** ** Runs *)

Module Run.
Import Demo.

Definition cfg : ServerConfig := mkServerConfig 0 0 0 0 0 0 0 false false.
Definition idle : Server :=
  mkServer cfg 0 0 [] ∅ (NewStreamStore 0 0) (sample_store (go "log")) [] [] 0 [] 0 None 0.

Definition started (x : Sys Flaky * result start_error Server) : Sys Flaky * Server :=
  (x.1, match x.2 with Ok v => v | Err _ => idle end).

Definition state : Type := Sys Flaky * Server.

Definition start (fails : list bool) : state := started (NewServer (sys fails) cfg []).
Definition hello (id : bytes) (x : state) : state := (append_hello x.1 x.2 id).1.
Definition send (id : bytes) (seq : Z) (x : state) : state := (x.1, (append_record x.2 id seq []).1).
Definition receive (x : state) : state := match loop_receive x.1 x.2 with Some (x', _) => x' | None => x end.
Definition tick (x : state) : state := match loop_tick x.1 x.2 with Some (x', _) => x' | None => x end.
Definition seal (id : bytes) (segs : list bytes) (x : state) : state := (Server_SealStream x.1 x.2 id segs).1.
Definition flush (segs : list bytes) (x : state) : state := (flushInternal x.1 x.2 segs).1.
Definition at_time (now : Z) (x : state) : state :=
  (mkSys (sy_root x.1) (sy_streams x.1) (sy_outcomes x.1) now (sy_backend x.1), x.2).

(** Two records of one stream, received and in the batch. *)
Definition s1 : state := start [].
Definition s2 : state := hello id_a s1.
Definition s3 : state := send id_a 2 (send id_a 1 s2).
Definition s4 : state := receive (receive s3).
Definition s5 : state := tick s4.

Definition Q : list incomingItem := [mkItem id_a 1 []; mkItem id_a 2 []].
Definition C : list LogRecord := [rec 1 id_a 1; rec 2 id_a 2].

Lemma pair_eta {A D} (x : A * D) : x = (x.1, x.2).
Proof. by destruct x. Qed.

Lemma empty_sys fails : empty_disk (sys fails).
Proof. by split_and!. Qed.

Lemma run_reach1 : server_reach s1.1 s1.2 [] [].
Proof.
  apply (vr_start (sys []) cfg []); [apply empty_sys|done|].
  assert (HB : match (NewServer (sys []) cfg []).2 with Ok _ => true | Err _ => false end = true) by (vm_compute; reflexivity).
  unfold s1, start, started. cbn [fst snd]. destruct (NewServer (sys []) cfg []) as [y [v|e]]; [done|discriminate HB].
Qed.

Lemma run_reach2 : server_reach s2.1 s2.2 [] [].
Proof. eapply vr_step; [exact run_reach1|]. eapply sp_hello. exact (triple_eta (append_hello s1.1 s1.2 id_a)). Qed.

Lemma send_reach x Q0 C0 seq :
  server_reach x.1 x.2 Q0 C0 -> fresh_item Q0 (mkItem id_a seq []) ->
  (append_record x.2 id_a seq []).2 = Ok RecvQueued ->
  server_reach (send id_a seq x).1 (send id_a seq x).2 (Q0 ++ [mkItem id_a seq []]) C0.
Proof.
  intros HR HF HE. eapply vr_step; [exact HR|]. unfold send. cbn [fst snd].
  pose proof (sp_record (B := Flaky) x.1 x.2 Q0 C0 id_a seq [] _ _ (pair_eta (append_record x.2 id_a seq []))) as HS.
  rewrite HE in HS. apply HS. by intros _.
Qed.

Definition queued (r : result append_error received) : bool := match r with Ok RecvQueued => true | _ => false end.

Lemma queued_ok r : queued r = true -> r = Ok RecvQueued.
Proof. by destruct r as [[]|]. Qed.

Lemma item_a_ok seq : 0 < seq < 2 ^ 64 -> item_ok (mkItem id_a seq []).
Proof. intros Hs. split_and!; cbn; [done|lia..]. Qed.

Lemma run_reach3 : server_reach s3.1 s3.2 Q [].
Proof.
  change Q with (([] ++ [mkItem id_a 1 []]) ++ [mkItem id_a 2 []]). unfold s3. apply (send_reach (send id_a 1 s2)).
  - apply (send_reach s2); [exact run_reach2|by split; [apply item_a_ok|constructor]|]. apply queued_ok. vm_compute. reflexivity.
  - split; [by apply item_a_ok|]. apply Forall_forall. intros q [_ Hq]%list_elem_of_filter.
    apply list_elem_of_singleton in Hq as ->. cbn. lia.
  - apply queued_ok. vm_compute. reflexivity.
Qed.

Lemma receive_reach x Q0 C0 :
  server_reach x.1 x.2 Q0 C0 ->
  (sv_lastPosition x.2 + Z.of_nat (length (sv_batch x.2)) + 1 <? name_limit) = true ->
  server_reach (receive x).1 (receive x).2 Q0 (C0 ++ committed x.2 (receive x).2).
Proof.
  intros HR HL. unfold receive. destruct (loop_receive x.1 x.2) as [[[y v] t]|] eqn:E.
  - eapply vr_step; [exact HR|]. eapply sp_receive; [by apply Z.ltb_lt|exact E].
  - unfold committed. by rewrite drop_all, app_nil_r.
Qed.

Lemma run_reach4 : server_reach s4.1 s4.2 Q [].
Proof.
  assert (H1 : committed s3.2 (receive s3).2 = []) by (vm_compute; reflexivity).
  assert (H2 : committed (receive s3).2 (receive (receive s3)).2 = []) by (vm_compute; reflexivity).
  pose proof (receive_reach s3 Q [] run_reach3 ltac:(vm_compute; reflexivity)) as HR. rewrite H1 in HR.
  pose proof (receive_reach (receive s3) Q ([] ++ []) HR ltac:(vm_compute; reflexivity)) as HR2.
  rewrite H2 in HR2. unfold s4. exact HR2.
Qed.

Lemma run_reach5 : server_reach s5.1 s5.2 Q C.
Proof.
  assert (HB : match loop_tick s4.1 s4.2 with Some _ => true | None => false end = true) by (vm_compute; reflexivity).
  assert (HC : committed s4.2 s5.2 = C) by (vm_compute; reflexivity).
  assert (HS : server_step (s4.1, s4.2, Q, []) (s5.1, s5.2, Q, [] ++ committed s4.2 s5.2)).
  { revert HB. unfold s5, tick. destruct (loop_tick s4.1 s4.2) as [[[y v] t]|] eqn:E; [intros _|discriminate].
    eapply sp_tick; [|exact E]. apply Z.ltb_lt. vm_compute. reflexivity. }
  rewrite HC in HS. eapply vr_step; [exact run_reach4|exact HS].
Qed.

(** A disk whose files are on stable storage survives a crash as it is. *)
Definition root_synced (y : Sys Flaky) : bool :=
  forallb (fun e : bytes * Entry =>
    match e.2 with
    | EFile f => bool_decide (f_synced f = length (f_data f)) && bool_decide (16 <= length (f_data f))%nat
    | EDir => true
    end) (map_to_list (sy_root y)).

Lemma same_crash y :
  root_synced y = true -> Demo2.all_synced y = true -> sy_outcomes y = [] -> server_crash y y.
Proof.
  intros HA HS Ho.
  assert (HF : forall n f, sy_root y !! n = Some (EFile f) -> f_synced f = length (f_data f) /\ (16 <= length (f_data f))%nat).
  { intros n f Hn. unfold root_synced in HA. rewrite forallb_forall in HA. specialize (HA (n, EFile f)).
    rewrite <-list_elem_of_In, elem_of_map_to_list in HA. specialize (HA Hn). cbn in HA.
    apply andb_true_iff in HA as [H1%bool_decide_eq_true H2%bool_decide_eq_true]. done. }
  split_and!; [by apply Demo2.synced_crash|..].
  - intros n. cbn. destruct (sy_root y !! n) as [[f|]|] eqn:E; [|done..].
    destruct (HF n f E) as [Hs _]. exists (length (f_data f)). split; [lia|]. rewrite firstn_all, <-Hs. by destruct f.
  - intros n f Hn _. right. by eapply HF.
Qed.

End Run.

Lemma acknowledged_survive_witness :
  exists r, r ∈ Run.C /\ item_of r = mkItem Demo.id_a 2 [] /\ found Run.s5.1 r.
Proof.
  destruct (forward_acks Run.s5.2 Demo.id_a 0 0) as [v' ack] eqn:E.
  assert (HB : match (forward_acks Run.s5.2 Demo.id_a 0 0).2 with Ok (Some (2, 0)) => true | _ => false end = true)
    by (vm_compute; reflexivity).
  rewrite E in HB. cbn [snd] in HB.
  assert (ack = Ok (Some (2, 0))) as HA by (destruct ack as [[[[|[[]|[]|]|] [| |]]|]|]; try discriminate HB; reflexivity).
  rewrite HA in E.
  destruct (acknowledged_survive Run.s5.1 Run.s5.2 Run.Q Run.C Demo.id_a 0 0 v' 2 0 (mkItem Demo.id_a 2 []) Run.s5.1
    Run.run_reach5 eq_refl E) as [HF _].
  - right. left.
  - reflexivity.
  - apply Run.same_crash; vm_compute; reflexivity.
  - apply HF. cbn. lia.
Defined.

Lemma committed_in_order_witness : Run.Q = (item_of <$> Run.C) ++ sv_batch Run.s5.2 ++ sv_incoming Run.s5.2.
Proof. apply (committed_in_order Run.s5.1 Run.s5.2 Run.Q Run.C). exact Run.run_reach5. Defined.

Lemma commit_acknowledges_witness :
  exists y' v' trigger, loop_tick Run.s4.1 Run.s4.2 = Some (y', v', trigger) /\ sv_batch v' = [].
Proof.
  destruct (commit_acknowledges Run.s4.1 Run.s4.2 Run.Q [] Run.run_reach4) as (y' & v' & t & HE & HB & _).
  - apply Z.ltb_lt. vm_compute. reflexivity.
  - exists y', v', t. exact (conj HE HB).
Defined.

Lemma flush_all_or_nothing_witness : Forall (stored (Run.flush [] Run.s5).1) Run.C.
Proof.
  pose proof (flush_all_or_nothing Run.s5.1 Run.s5.2 Run.Q Run.C [] _ _ _ Run.run_reach5 ltac:(vm_compute; reflexivity)
    (Demo.triple_eta (flushInternal Run.s5.1 Run.s5.2 []))) as HF.
  assert (HB : match (flushInternal Run.s5.1 Run.s5.2 []).2 with Ok _ => true | Err _ => false end = true) by (vm_compute; reflexivity).
  destruct ((flushInternal Run.s5.1 Run.s5.2 []).2) as [p|e]; [exact (proj2 (proj2 HF))|discriminate HB].
Defined.

(** ** Histories in which a record is lost or a subscriber left behind *)

Module Runs.
Import Demo Run.

Definition streamed (x : state) : list Z := Loss.tail_from_start x.1 (sv_streamStore x.2).

(** A record that is received twice before it is committed destroys
    another.  Records 1 and 2 are queued, record 1 again; after the first two
    are committed and sealed, the second copy of record 1 opens a new file and
    the next seal replaces the sealed file of 1 to 2 by it.  The flush then
    deletes the aggregated segment: record 2 is acknowledged as being in
    storage and no object in storage has it. *)
Theorem duplicate_in_flight_loses_record :
  let x := receive (receive (send id_a 1 (send id_a 2 (send id_a 1 (hello id_a (start [])))))) in
  let x1 := seal id_a [] (tick x) in
  let x2 := seal id_a [] (tick (receive x1)) in
  let x3 := flush [segment_path 1 3] x2 in
  (streamed x1, streamed x2, Loss.stream_objects x3.1, (forward_acks x3.2 id_a 0 0).2) =
  ([1; 2], [1], [[1]], Ok (Some (2, 2))).
Proof. vm_compute. reflexivity. Qed.

(** Garbage collection in the background leaves subscribers of the whole log
    behind.  It deletes an aggregated segment that the service still lists as
    flushed: reading the log from the start, which worked before, fails at
    every further turn. *)
Theorem background_gc_breaks_tail :
  let turn (x : state) := let '(_, _, out, r) := all_tail_turn x.1 x.2 (all_tail_start x.2 1) in (Loss.sent_seqs out, r) in
  let x1 := flush [] (tick (receive (send id_a 1 (hello id_a (start []))))) in
  let x2 := at_time (10 ^ 14) (server_flushAllPending x1.1 x1.2 [uuid_String id_a]) in
  let x3 := server_checkSealsAndGC x2.1 x2.2 [uuid_String id_a] [segment_path 1 1] in
  (turn x1, turn x3, sv_flushedSegments x3.2) =
  (([1], Ok false), ([], Err (ErrBackend BkNotFound)), [segment_path 1 1]).
Proof. vm_compute. reflexivity. Qed.

End Runs.
