(* ===== verification/WalClient.v ===== *)
(** * WalClient: the client of the WAL buffer service

    [pkg/wal/client/client.go].  A node appends records to a local segment
    store (the client's store of WalSegment.v) and keeps them in memory; a
    session replicates them to the service and learns two watermarks from its
    acknowledgements: what the service has committed (witness) and what is in
    permanent storage.  Callers wait until a record has reached a level.

    The state is [streamImpl]; the directory of the segment store is a [World].
    [Append] reserves a sequence number under the lock and writes the record
    outside it: these are two operations.  A handshake releases the lock while
    it reads the service: its parts are operations of their own.  A condition
    variable becomes a guard: [None] is a call that waits.  What a waiting call
    is told is an output. *)

From S2P Require Import Prelude Bytes WalRecord FileSys WalSegment WalStream.

#[local] Open Scope Z_scope.
#[local] Open Scope list_scope.

(** ** Levels and errors *)

Inductive Level : Type :=
| Local
| Witness
| Permanent.

#[export] Instance Level_eq_dec : EqDecision Level.
Proof. solve_decision. Defined.

(** The number behind the constant. *)
Definition level_number (l : Level) : Z := match l with Local => 0 | Witness => 1 | Permanent => 2 end.

Definition Level_String (l : Level) : bytes :=
  match l with
  | Local => go "local"
  | Witness => go "witness"
  | Permanent => go "permanent"
  end.

Record DegradedError : Type := mkDegradedError {
  de_Cause : wal_error;
  de_At : Z;
}.

Inductive client_error : Type :=
| ErrStreamClosed
| ErrDegraded (d : DegradedError)
| ErrRecordDiscarded
| ErrDurabilityUnavailable
| ErrLocalAppend (e : wal_error)
| ErrLocalFsync (e : wal_error)
| ErrTail
| ErrNotInTail (witnessHead : Z).

(** A waiting call; [wt_ptr] tells its [*syncWaiter] from others. *)
Record syncWaiter : Type := mkWaiter {
  wt_ptr : nat;
  wt_seq : Z;
  wt_level : Level;
}.

(** ** State *)

Record streamImpl : Type := mkClient {
  cl_streamID : bytes;
  cl_maxRetainedBytes : Z;
  cl_replicationLevel : Level;
  cl_store : SegmentStore;
  cl_localSeq : Z;
  cl_witnessSeq : Z;
  cl_s3Seq : Z;
  cl_retainedBytes : Z;
  cl_waiters : list syncWaiter;
  cl_nextWaiter : nat;
  cl_degradedTruncateSeq : Z;
  cl_reconciling : bool;
  cl_helloDone : bool;
  cl_helloErr : option client_error;
  cl_degradedErr : option DegradedError;
  cl_retainedRecords : list ClientRecord;
  cl_closed : bool;
}.

Definition set_store (c : streamImpl) (x : SegmentStore) : streamImpl :=
  mkClient (cl_streamID c) (cl_maxRetainedBytes c) (cl_replicationLevel c) x (cl_localSeq c) (cl_witnessSeq c)
    (cl_s3Seq c) (cl_retainedBytes c) (cl_waiters c) (cl_nextWaiter c) (cl_degradedTruncateSeq c) (cl_reconciling c)
    (cl_helloDone c) (cl_helloErr c) (cl_degradedErr c) (cl_retainedRecords c) (cl_closed c).
Definition set_localSeq (c : streamImpl) (x : Z) : streamImpl :=
  mkClient (cl_streamID c) (cl_maxRetainedBytes c) (cl_replicationLevel c) (cl_store c) x (cl_witnessSeq c)
    (cl_s3Seq c) (cl_retainedBytes c) (cl_waiters c) (cl_nextWaiter c) (cl_degradedTruncateSeq c) (cl_reconciling c)
    (cl_helloDone c) (cl_helloErr c) (cl_degradedErr c) (cl_retainedRecords c) (cl_closed c).
Definition set_watermarks (c : streamImpl) (witness s3 : Z) : streamImpl :=
  mkClient (cl_streamID c) (cl_maxRetainedBytes c) (cl_replicationLevel c) (cl_store c) (cl_localSeq c) witness
    s3 (cl_retainedBytes c) (cl_waiters c) (cl_nextWaiter c) (cl_degradedTruncateSeq c) (cl_reconciling c)
    (cl_helloDone c) (cl_helloErr c) (cl_degradedErr c) (cl_retainedRecords c) (cl_closed c).
Definition set_retained (c : streamImpl) (recs : list ClientRecord) (n : Z) : streamImpl :=
  mkClient (cl_streamID c) (cl_maxRetainedBytes c) (cl_replicationLevel c) (cl_store c) (cl_localSeq c) (cl_witnessSeq c)
    (cl_s3Seq c) n (cl_waiters c) (cl_nextWaiter c) (cl_degradedTruncateSeq c) (cl_reconciling c)
    (cl_helloDone c) (cl_helloErr c) (cl_degradedErr c) recs (cl_closed c).
Definition set_waiters (c : streamImpl) (ws : list syncWaiter) (next : nat) : streamImpl :=
  mkClient (cl_streamID c) (cl_maxRetainedBytes c) (cl_replicationLevel c) (cl_store c) (cl_localSeq c) (cl_witnessSeq c)
    (cl_s3Seq c) (cl_retainedBytes c) ws next (cl_degradedTruncateSeq c) (cl_reconciling c)
    (cl_helloDone c) (cl_helloErr c) (cl_degradedErr c) (cl_retainedRecords c) (cl_closed c).
Definition set_hello (c : streamImpl) (done : bool) (err : option client_error) : streamImpl :=
  mkClient (cl_streamID c) (cl_maxRetainedBytes c) (cl_replicationLevel c) (cl_store c) (cl_localSeq c) (cl_witnessSeq c)
    (cl_s3Seq c) (cl_retainedBytes c) (cl_waiters c) (cl_nextWaiter c) (cl_degradedTruncateSeq c) (cl_reconciling c)
    done err (cl_degradedErr c) (cl_retainedRecords c) (cl_closed c).
Definition set_degraded (c : streamImpl) (err : option DegradedError) (truncateSeq : Z) (reconciling : bool) : streamImpl :=
  mkClient (cl_streamID c) (cl_maxRetainedBytes c) (cl_replicationLevel c) (cl_store c) (cl_localSeq c) (cl_witnessSeq c)
    (cl_s3Seq c) (cl_retainedBytes c) (cl_waiters c) (cl_nextWaiter c) truncateSeq reconciling
    (cl_helloDone c) (cl_helloErr c) err (cl_retainedRecords c) (cl_closed c).
Definition set_closed (c : streamImpl) : streamImpl :=
  mkClient (cl_streamID c) (cl_maxRetainedBytes c) (cl_replicationLevel c) (cl_store c) (cl_localSeq c) (cl_witnessSeq c)
    (cl_s3Seq c) (cl_retainedBytes c) (cl_waiters c) (cl_nextWaiter c) (cl_degradedTruncateSeq c) (cl_reconciling c)
    (cl_helloDone c) (cl_helloErr c) (cl_degradedErr c) (cl_retainedRecords c) true.

(** [initialHelloAckOnce.Do] with an error: the first one counts. *)
Definition hello_once (c : streamImpl) (err : option client_error) : streamImpl :=
  if cl_helloDone c then c else set_hello c true (match err with Some e => Some e | None => cl_helloErr c end).

(** [int64(wal.ClientHeaderSize + len(rec.Payload))], alone and summed. *)
Definition record_size (payload : bytes) : Z := ClientHeaderSize + Z.of_nat (length payload).
Definition retained_size (recs : list ClientRecord) : Z :=
  foldr (fun r n => record_size (cr_Payload r) + n) 0 recs.

Section client.
Context `{UU : !UuidLib}.
Implicit Types (w : World) (c : streamImpl).

(** What waiting calls are told. *)
Definition news : Type := list (nat * result client_error ()).

(** ** Opening *)

Definition highest_seq (recs : list ClientRecord) : Z :=
  foldl (fun m r => if m <? cr_StreamSeq r then cr_StreamSeq r else m) 0 recs.

Definition store_prefix (streamID : bytes) : bytes := go "stream-" ++ uuid_String streamID.

(** [Open] up to the start of the replication loop. *)
Definition Open w (streamID : bytes) (maxRetainedBytes maxSegmentSize : Z) (opt : ScanOptions)
    : World * result wal_error streamImpl :=
  let '(w, r) := NewClientSegmentStore w (store_prefix streamID) maxSegmentSize opt in
  (w, match r with
      | Err e => Err e
      | Ok (store, recovered) =>
        Ok (mkClient streamID maxRetainedBytes Permanent store (highest_seq recovered) 0 0
              (retained_size recovered) [] 0 0 false false None None recovered false)
      end).

(** The rest of [Open]: [None] while it waits for the first handshake. *)
Definition open_wait c : option (result client_error ()) :=
  if cl_helloDone c then
    Some (match cl_helloErr c, cl_degradedErr c with
          | Some e, None => Err e
          | _, _ => Ok ()
          end)
  else None.

(** ** Appending *)

(** The guard on which [Append] waits. *)
Definition append_blocked c (recordSize : Z) : bool :=
  (cl_reconciling c || (cl_maxRetainedBytes c <? cl_retainedBytes c + recordSize)) && negb (cl_closed c) &&
  match cl_degradedErr c with None => true | Some _ => false end.

(** Up to the release of the lock: the sequence number. *)
Definition append_reserve c (payload : bytes) : option (streamImpl * result client_error Z) :=
  if cl_closed c then Some (c, Err ErrStreamClosed)
  else match cl_degradedErr c with
  | Some d => Some (c, Err (ErrDegraded d))
  | None =>
    if negb (cl_helloDone c) then None
    else match cl_helloErr c with
    | Some e => Some (c, Err e)
    | None =>
      if append_blocked c (record_size payload) then None
      else
        let seq := u64 (cl_localSeq c + 1) in
        let c := set_localSeq c seq in
        Some (set_retained c (cl_retainedRecords c) (cl_retainedBytes c + record_size payload), Ok seq)
    end
  end.

(** The rest. *)
Definition append_write w c (seq : Z) (payload : bytes) : World * streamImpl * result client_error Z :=
  let rec := mkClientRecord (cl_streamID c) seq payload 0 in
  let '(w, store, r) := ClientSegmentStore_Append w (cl_store c) rec in
  let c := set_store c store in
  match r with
  | Err e =>
    let c := set_retained c (cl_retainedRecords c) (cl_retainedBytes c - record_size payload) in
    (w, set_localSeq c (u64 (cl_localSeq c - 1)), Err (ErrLocalAppend e))
  | Ok _ =>
    (w, set_retained c (cl_retainedRecords c ++ [fst (ClientRecord_Encode rec)]) (cl_retainedBytes c), Ok seq)
  end.

(** With no other call in between. *)
Definition Append w c (payload : bytes) : option (World * streamImpl * result client_error Z) :=
  match append_reserve c payload with
  | None => None
  | Some (c, Err e) => Some (w, c, Err e)
  | Some (c, Ok seq) => Some (append_write w c seq payload)
  end.

(** ** Waiting *)

Definition reached c (seq : Z) (level : Level) : bool :=
  match level with
  | Local => false
  | Witness => seq <=? cl_witnessSeq c
  | Permanent => seq <=? cl_s3Seq c
  end.

(** [None]: the call waits with a new waiter. *)
Definition waitFor c (seq : Z) (level : Level) : streamImpl * option (result client_error ()) :=
  if level_number (cl_replicationLevel c) <? level_number level then (c, Some (Err ErrDurabilityUnavailable))
  else match cl_degradedErr c with
  | Some d => (c, Some (Err (ErrDegraded d)))
  | None =>
    if cl_closed c then (c, Some (Err ErrStreamClosed))
    else if cl_localSeq c <? seq then (c, Some (Err ErrRecordDiscarded))
    else if reached c seq level then (c, Some (Ok ()))
    else (set_waiters c (cl_waiters c ++ [mkWaiter (cl_nextWaiter c) seq level]) (S (cl_nextWaiter c)), None)
  end.

Definition removeWaiterLocked c (target : nat) : streamImpl :=
  set_waiters c (filter (fun x => wt_ptr x <> target) (cl_waiters c)) (cl_nextWaiter c).

Definition notifyWaitersLocked c : streamImpl * news :=
  (set_waiters c (filter (fun x => reached c (wt_seq x) (wt_level x) = false) (cl_waiters c)) (cl_nextWaiter c),
   (fun x => (wt_ptr x, Ok ())) <$> filter (fun x => reached c (wt_seq x) (wt_level x) = true) (cl_waiters c)).

(** What a call does next: it is done, or waits for the witness first. *)
Inductive wait_next : Type :=
| WaitDone (r : result client_error ())
| WaitWitness.

(** [Wait] up to the first [waitFor]. *)
Definition wait_begin w c (seq : Z) (level : Level) : World * wait_next :=
  if cl_closed c then (w, WaitDone (Err ErrStreamClosed))
  else match cl_degradedErr c with
  | Some d => (w, WaitDone (Err (ErrDegraded d)))
  | None =>
    if cl_localSeq c <? seq then (w, WaitDone (Err ErrRecordDiscarded))
    else
      let '(w, r) := ClientSegmentStore_Sync w (cl_store c) in
      match r with
      | Err e => (w, WaitDone (Err (ErrLocalFsync e)))
      | Ok _ =>
        match level with
        | Local => (w, WaitDone (Ok ()))
        | _ => (w, if level_number (cl_replicationLevel c) <? level_number level
                   then WaitDone (Err ErrDurabilityUnavailable) else WaitWitness)
        end
      end
  end.

(** After the witness: whether the call goes on to wait for permanence, and
    whether it asks for a flush before. *)
Definition wait_more (level : Level) (requestFlush : bool) (r : result client_error ())
    : result client_error () + bool :=
  match r with
  | Err e => inl (Err e)
  | Ok _ => match level with Permanent => inr requestFlush | _ => inl (Ok ()) end
  end.

(** [Flush] up to the first [waitFor]: the number it waits for. *)
Definition flush_begin_client w c : World * (result client_error () + Z) :=
  if cl_closed c then (w, inl (Err ErrStreamClosed))
  else match cl_degradedErr c with
  | Some d => (w, inl (Err (ErrDegraded d)))
  | None =>
    let targetSeq := cl_localSeq c in
    if (targetSeq =? 0) || (targetSeq <=? cl_s3Seq c) then (w, inl (Ok ()))
    else
      let '(w, r) := ClientSegmentStore_Sync w (cl_store c) in
      match r with
      | Err e => (w, inl (Err (ErrLocalFsync e)))
      | Ok _ => (w, if level_number (cl_replicationLevel c) <? level_number Permanent
                    then inl (Err ErrDurabilityUnavailable) else inr targetSeq)
      end
  end.

Definition Watermarks c : Z * Z * Z := (cl_localSeq c, cl_witnessSeq c, cl_s3Seq c).
Definition RecoveredRecords c : list ClientRecord := cl_retainedRecords c.

(** ** Degraded streams *)

Definition setDegradedLocked c (cause : wal_error) (now truncateSeq : Z) : streamImpl * DegradedError * news :=
  match cl_degradedErr c with
  | Some d => (c, d, [])
  | None =>
    let d := mkDegradedError cause now in
    (set_waiters (set_degraded c (Some d) truncateSeq true) [] (cl_nextWaiter c), d,
     (fun x => (wt_ptr x, Err (ErrDegraded d))) <$> cl_waiters c)
  end.

(** A turn of the retry loop: whether it is over. *)
Definition retryDegradedTruncate w c : World * streamImpl * bool :=
  match cl_degradedErr c with
  | None => (w, c, true)
  | Some _ =>
    let '(w, store, r) := ClientSegmentStore_TruncateAfter w (cl_store c) (cl_degradedTruncateSeq c) in
    let c := set_store c store in
    match r with
    | Err _ => (w, c, false)
    | Ok _ =>
      (w, set_hello (set_degraded c None (cl_degradedTruncateSeq c) (cl_reconciling c)) (cl_helloDone c) None, true)
    end
  end.

Definition Close w c : World * streamImpl * result wal_error () * news :=
  if cl_closed c then (w, c, Ok (), [])
  else
    let c := hello_once (set_closed c) None in
    let out := (fun x => (wt_ptr x, Err ErrStreamClosed)) <$> cl_waiters c in
    let c := set_waiters c [] (cl_nextWaiter c) in
    let '(w, store, r) := ClientSegmentStore_Close w (cl_store c) in
    (w, set_store c store, r, out).

(** ** Acknowledgements *)

Definition cleanupS3AckedLocked w c (s3AckedSeq : Z) : World * streamImpl :=
  let '(w, store) := ClientSegmentStore_DeleteSegmentsBeforeS3Ack w (cl_store c) s3AckedSeq in
  let remaining := filter (fun r => s3AckedSeq < cr_StreamSeq r) (cl_retainedRecords c) in
  (w, set_retained (set_store c store) remaining (retained_size remaining)).

(** The part that [handleAck] and [handleHelloAck] share. *)
Definition raise_permanent w c (s3AckedSeq : Z) : World * streamImpl :=
  if cl_s3Seq c <? s3AckedSeq
  then cleanupS3AckedLocked w (set_watermarks c (cl_witnessSeq c) s3AckedSeq) s3AckedSeq
  else (w, c).

Definition handleAck w c (witnessAcked s3Acked : Z) : World * streamImpl * news :=
  let c := if cl_witnessSeq c <? witnessAcked then set_watermarks c witnessAcked (cl_s3Seq c) else c in
  let '(w, c) := raise_permanent w c s3Acked in
  let '(c, out) := notifyWaitersLocked c in
  (w, c, out).

(** ** The handshake *)

(** The first part: the local record at the head of the service, when there is
    one to compare. *)
Definition hello_begin c (witnessHead : Z) : streamImpl * option ClientRecord :=
  if cl_localSeq c <? witnessHead then (set_localSeq c witnessHead, None)
  else if (0 <? witnessHead) && (witnessHead <? cl_localSeq c)
  then (c, List.find (fun r => cr_StreamSeq r =? witnessHead) (cl_retainedRecords c))
  else (c, None).

(** Reading the service: the payload at the head among the records it sends
    until it ends. *)
Definition tail_lookup (witnessHead : Z) (sent : list (Z * bytes)) : option bytes :=
  snd <$> List.find (fun e => fst e =? witnessHead) sent.

(** The local history is not that of the service. *)
Definition hello_diverged w c (witnessHead now : Z) : World * streamImpl * news * result client_error () :=
  let '(w, store, r) := ClientSegmentStore_TruncateAfter w (cl_store c) witnessHead in
  let c := set_store c store in
  match r with
  | Err e =>
    let '(c, d, out) := setDegradedLocked c e now witnessHead in
    (w, hello_once c (Some (ErrDegraded d)), out, Err (ErrDegraded d))
  | Ok _ =>
    let remaining := filter (fun r => cr_StreamSeq r <= witnessHead) (cl_retainedRecords c) in
    let c := set_localSeq (set_retained c remaining (retained_size remaining)) witnessHead in
    let out := (fun x => (wt_ptr x, Err ErrRecordDiscarded)) <$> filter (fun x => witnessHead < wt_seq x) (cl_waiters c) in
    let c := set_waiters c (filter (fun x => wt_seq x <= witnessHead) (cl_waiters c)) (cl_nextWaiter c) in
    (w, set_degraded c (cl_degradedErr c) (cl_degradedTruncateSeq c) false, out, Ok ())
  end.

(** The last part. *)
Definition hello_end w c (witnessHead s3Acked : Z) : World * streamImpl * news :=
  let c := set_watermarks c witnessHead (cl_s3Seq c) in
  let '(w, c) := raise_permanent w c s3Acked in
  let '(c, out) := notifyWaitersLocked c in
  (w, hello_once (set_degraded c (cl_degradedErr c) (cl_degradedTruncateSeq c) false) None, out).

(** With nothing in between: [tail] is what reading the service at the head
    brings, an error where the call fails. *)
Definition handleHelloAck w c (witnessHead s3Acked now : Z) (tail : result client_error (list (Z * bytes)))
    : World * streamImpl * news * result client_error () :=
  let '(c, head) := hello_begin c witnessHead in
  match head with
  | None => let '(w, c, out) := hello_end w c witnessHead s3Acked in (w, c, out, Ok ())
  | Some r =>
    match tail with
    | Err e => (w, c, [], Err e)
    | Ok sent =>
      match tail_lookup witnessHead sent with
      | None => (w, c, [], Err (ErrNotInTail witnessHead))
      | Some payload =>
        if bool_decide (cr_Payload r = payload)
        then let '(w, c, out) := hello_end w c witnessHead s3Acked in (w, c, out, Ok ())
        else
          let '(w, c, out1, res) := hello_diverged w c witnessHead now in
          match res with
          | Err e => (w, c, out1, Err e)
          | Ok _ => let '(w, c, out2) := hello_end w c witnessHead s3Acked in (w, c, out1 ++ out2, Ok ())
          end
      end
    end
  end.

(** ** A session *)

(** The records that are replayed, and the number to send next. *)
Definition records_to_replay c (witnessHead : Z) : list ClientRecord :=
  filter (fun r => witnessHead < cr_StreamSeq r) (cl_retainedRecords c).

Definition next_to_send (replayed : list ClientRecord) (witnessHead : Z) : Z :=
  match last replayed with
  | Some r => u64 (cr_StreamSeq r + 1)
  | None => u64 (witnessHead + 1)
  end.

(** The next record to send, if there is one, and the number after it. *)
Definition send_next c (nextSeqToSend : Z) : option (ClientRecord * Z) :=
  match List.find (fun r => nextSeqToSend <=? cr_StreamSeq r) (cl_retainedRecords c) with
  | Some r => Some (r, u64 (cr_StreamSeq r + 1))
  | None => None
  end.

(** The first handshake is over: what [runStreamSession] does with the result
    of [handleHelloAck]. *)
Definition session_hello c (r : result client_error ()) : streamImpl :=
  match r with
  | Err e => hello_once c (Some e)
  | Ok _ => hello_once (set_hello c (cl_helloDone c) None) None
  end.

End client.
