(* ===== verification/WalClientInv.v ===== *)
(** * WalClientInv: the client keeps what is not permanent

    The invariant of the client of WalClient.v whose appends do not overlap, on
    a disk that works: its segment store holds a log, and the records in memory
    are those of the log that the service has not acknowledged as permanent. *)

From S2P Require Import Prelude Bytes WalRecord FileSys WalSegment WalStore WalRetention WalPaths WalTrim WalStream WalBuffer WalClient.

#[local] Open Scope Z_scope.
#[local] Open Scope list_scope.

(** ** Lists of numbers *)

Definition top_of (l : list Z) : Z := foldr Z.max 0 l.

Lemma top_of_cons x l : top_of (x :: l) = Z.max x (top_of l).
Proof. done. Qed.

Lemma top_of_nonneg l : 0 <= top_of l.
Proof. induction l as [|x l IH]; [done|]. rewrite top_of_cons. lia. Qed.

Lemma top_of_elem l x : x ∈ l -> x <= top_of l.
Proof. induction 1 as [x l|x z l _ IH]; rewrite top_of_cons; lia. Qed.

Lemma top_of_le l m : 0 <= m -> Forall (fun x => x <= m) l -> top_of l <= m.
Proof. intros Hm. induction 1 as [|x l Hx _ IH]; [done|]. rewrite top_of_cons. lia. Qed.

Lemma top_of_app l l' : top_of (l ++ l') = Z.max (top_of l) (top_of l').
Proof.
  induction l as [|x l IH]; [pose proof (top_of_nonneg l'); change (top_of l' = Z.max 0 (top_of l')); lia|].
  rewrite <-app_comm_cons, !top_of_cons, IH. lia.
Qed.

Lemma top_of_cases l : top_of l = 0 \/ top_of l ∈ l.
Proof.
  induction l as [|x l IH]; [by left|]. rewrite top_of_cons. destruct (Z.max_spec x (top_of l)) as [[_ ->]|[_ ->]].
  - destruct IH; [by left|right; by right].
  - right. left.
Qed.

(** The fields of a client after an update. *)
Ltac client_cbn :=
  cbn [cl_streamID cl_maxRetainedBytes cl_replicationLevel cl_store cl_localSeq cl_witnessSeq cl_s3Seq cl_retainedBytes
    cl_waiters cl_nextWaiter cl_degradedTruncateSeq cl_reconciling cl_helloDone cl_helloErr cl_degradedErr cl_retainedRecords
    cl_closed set_store set_localSeq set_watermarks set_retained set_waiters set_hello set_degraded set_closed].

Section client.
Context `{UU : !UuidLib}.
Implicit Types (w : World) (c : streamImpl) (log : list ClientRecord).

(** The record that [Append] writes. *)
Definition client_record (id : bytes) (seq : Z) (payload : bytes) : ClientRecord :=
  fst (ClientRecord_Encode (mkClientRecord id seq payload 0)).

(** The records above a number. *)
Definition above (n : Z) log : list ClientRecord := filter (fun r => n < cr_StreamSeq r) log.

Lemma above_app n l l' : above n (l ++ l') = above n l ++ above n l'.
Proof. apply filter_app. Qed.

Lemma above_all n log : Forall (fun r => n < cr_StreamSeq r) log -> above n log = log.
Proof. induction 1 as [|r log Hr _ IH]; [done|]. unfold above in *. rewrite filter_cons, decide_True by done. by rewrite IH. Qed.

Lemma above_none n log : Forall (fun r => cr_StreamSeq r <= n) log -> above n log = [].
Proof. induction 1 as [|r log Hr _ IH]; [done|]. unfold above in *. rewrite filter_cons, decide_False by lia. done. Qed.

Lemma above_above n m log : n <= m -> above m (above n log) = above m log.
Proof.
  intros Hle. unfold above. rewrite list_filter_filter. apply list_filter_iff. intros r. lia.
Qed.

Record client_inv w c log (d : nat) : Prop := {
  ci_id : wf_uuid (cl_streamID c);
  ci_store : refines (w, cl_store c) (mkAlog log d);
  ci_prefix : st_filePrefix (cl_store c) = store_prefix (cl_streamID c);
  ci_stream : Forall (fun r => cr_StreamID r = cl_streamID c /\ 0 < cr_StreamSeq r <= cl_localSeq c) log;
  ci_local : 0 <= cl_localSeq c < name_limit;
  ci_s3 : 0 <= cl_s3Seq c <= cl_localSeq c;
  ci_retained : cl_retainedRecords c = above (cl_s3Seq c) log;
  ci_bytes : cl_retainedBytes c = retained_size (cl_retainedRecords c);
  ci_degraded : cl_degradedErr c = None;
}.

(** What of a client the replication of its records does not touch. *)
Definition same_client c c' : Prop :=
  cl_streamID c' = cl_streamID c /\ cl_localSeq c' = cl_localSeq c /\ cl_closed c' = cl_closed c /\
  cl_helloDone c' = cl_helloDone c /\ cl_helloErr c' = cl_helloErr c /\ cl_maxRetainedBytes c' = cl_maxRetainedBytes c.

Lemma same_client_trans c1 c2 c3 : same_client c1 c2 -> same_client c2 c3 -> same_client c1 c3.
Proof. intros (?&?&?&?&?&?) (?&?&?&?&?&?). split_and!; congruence. Qed.

Lemma refines_valid w s log d : refines (w, s) (mkAlog log d) -> valid_log log.
Proof. intros (_ & _ & _ & parts & HI & HC). cbn in HC. rewrite <-HC. apply HI. Qed.

Lemma refines_bound w s log d : refines (w, s) (mkAlog log d) -> (d <= length log)%nat.
Proof. intros (_ & _ & _ & parts & HI & HC). cbn in HC. rewrite <-HC. apply HI. Qed.

Lemma retained_size_app l l' : retained_size (l ++ l') = retained_size l + retained_size l'.
Proof. unfold retained_size. induction l as [|r l IH]; cbn; [done|]. rewrite IH. lia. Qed.

(** ** Opening *)

Lemma highest_seq_top log : Forall (fun r => 0 <= cr_StreamSeq r) log -> highest_seq log = top_of (cr_StreamSeq <$> log).
Proof.
  unfold highest_seq. assert (HX : forall m, 0 <= m -> Forall (fun r => 0 <= cr_StreamSeq r) log ->
    foldl (fun m r => if m <? cr_StreamSeq r then cr_StreamSeq r else m) m log = Z.max m (top_of (cr_StreamSeq <$> log))).
  { induction log as [|r log IH]; intros m Hm HF; [cbn; lia|]. cbn [foldl fmap list_fmap]. rewrite top_of_cons. apply Forall_cons in HF as [Hr HF].
    destruct (m <? cr_StreamSeq r) eqn:E; zify_bool; rewrite IH by (try done; lia); lia. }
  intros HF. rewrite HX by (try done; lia). pose proof (top_of_nonneg (cr_StreamSeq <$> log)). lia.
Qed.

(** What a newly opened client is. *)
Definition opened c (streamID : bytes) log : Prop :=
  cl_streamID c = streamID /\ cl_localSeq c = top_of (cr_StreamSeq <$> log) /\ cl_s3Seq c = 0 /\ cl_witnessSeq c = 0 /\
  cl_helloDone c = false /\ cl_closed c = false.

Lemma opened_inv w s id maxRetained log d :
  wf_uuid id -> refines (w, s) (mkAlog log d) -> st_filePrefix s = store_prefix id ->
  Forall (fun r => cr_StreamID r = id /\ 0 < cr_StreamSeq r) log ->
  let c := mkClient id maxRetained Permanent s (highest_seq log) 0 0 (retained_size log) [] 0 0 false false None None log false in
  client_inv w c log d /\ opened c id log.
Proof.
  intros Hid HR Hp HF. pose proof (refines_valid _ _ _ _ HR) as (_ & _ & HV). rewrite highest_seq_top.
  2:{ eapply Forall_impl; [exact HF|]. cbn. lia. }
  pose proof (top_of_nonneg (cr_StreamSeq <$> log)) as H0. split; [|by split_and!]. split; cbn; try done.
  - rewrite Forall_forall in HF |- *. intros r Hr. destruct (HF r Hr) as [? ?]. split_and!; [done|done|].
    apply top_of_elem. by apply list_elem_of_fmap_2.
  - split; [done|]. destruct (top_of_cases (cr_StreamSeq <$> log)) as [->|Hin]; [done|].
    apply list_elem_of_fmap in Hin as (r & -> & Hr). rewrite Forall_forall in HV. by apply (HV r).
  - rewrite above_all; [done|]. eapply Forall_impl; [exact HF|]. cbn. lia.
Qed.

Lemma store_prefix_ne id : store_prefix id <> [].
Proof. done. Qed.

Lemma open_fresh w id maxRetained maxSize opt :
  wf_uuid id -> no_faults w -> so_NoFsync opt = false -> no_segments w (store_prefix id) ->
  exists w' c, Open w id maxRetained maxSize opt = (w', Ok c) /\ client_inv w' c [] 0 /\ opened c id [].
Proof.
  intros Hid Hw Ho Hn.
  destruct (fresh_refines (go "stream") w (store_prefix id) maxSize opt client_ok_inhabited Hw (store_prefix_ne id) Ho Hn)
    as (w' & s & HE & Hp & HR).
  unfold Open, NewClientSegmentStore. rewrite HE. eexists _, _. split; [done|]. by apply opened_inv.
Qed.

(** After a crash the client opens with a prefix of its log, with everything
    that was on stable storage. *)
Lemma open_crash w c log d wc maxRetained maxSize opt :
  client_inv w c log d -> so_NoFsync opt = false -> crash w wc -> no_faults wc ->
  headers_intact wc (store_prefix (cl_streamID c)) ->
  exists w' c' n, Open wc (cl_streamID c) maxRetained maxSize opt = (w', Ok c') /\
    (d <= n <= length log)%nat /\ client_inv w' c' (take n log) n /\ opened c' (cl_streamID c) (take n log) /\
    cl_retainedRecords c' = take n log.
Proof.
  intros HI Ho Hcr Hwc HH. rewrite <-(ci_prefix _ _ _ _ HI) in HH.
  destruct (refines_recover (go "stream") maxSize opt _ _ _ wc client_ok_inhabited (ci_store _ _ _ _ HI) Ho Hcr Hwc HH)
    as (w' & s & n & HE & Hn & HR). cbn [al_records al_durable] in *.
  unfold Open, NewClientSegmentStore. rewrite (ci_prefix _ _ _ _ HI) in *. rewrite HE. eexists _, _, n. split; [done|].
  destruct (opened_inv w' s (cl_streamID c) maxRetained (take n log) n) as [H1 H2]; [by destruct HI|done| | |split; [done|split; [exact H1|split; [exact H2|done]]]].
  - eapply (NewSegmentStore_prefix (R := ClientRecord)); [exact HE|apply store_prefix_ne].
  - apply Forall_take. eapply Forall_impl; [apply (ci_stream _ _ _ _ HI)|]. intros r [? ?]. split; [done|lia].
Qed.

(** ** Appending *)

Lemma Append_ok w c log d payload w' c' r :
  client_inv w c log d -> Z.of_nat (length payload) < 2 ^ 32 -> cl_localSeq c + 1 < name_limit ->
  Append w c payload = Some (w', c', r) ->
  match r with
  | Ok seq => seq = cl_localSeq c + 1 /\ client_inv w' c' (log ++ [client_record (cl_streamID c) seq payload]) d /\
      cl_helloDone c = true /\ cl_helloErr c = None /\ cl_closed c = false /\
      cl_localSeq c' = seq /\ cl_s3Seq c' = cl_s3Seq c /\ cl_witnessSeq c' = cl_witnessSeq c /\
      same_client (set_localSeq c seq) c'
  | Err _ => w' = w /\ c' = c
  end.
Proof.
  intros HI Hpl HL. unfold Append, append_reserve. rewrite (ci_degraded _ _ _ _ HI).
  destruct (cl_closed c) eqn:Ecl; [by intros [= <- <- <-]|].
  destruct (cl_helloDone c) eqn:Ehd; [|done]. cbn [negb]. destruct (cl_helloErr c) as [e|] eqn:Ehe; [by intros [= <- <- <-]|].
  destruct (append_blocked c (record_size payload)); [done|]. pose proof HI as [].
  assert (Hu : u64 (cl_localSeq c + 1) = cl_localSeq c + 1) by (apply Z.mod_small; unfold name_limit in *; lia).
  rewrite Hu. unfold append_write. cbn [cl_streamID cl_store set_retained set_localSeq]. rewrite append_one_encode.
  set (rec := fst (ClientRecord_Encode _)).
  assert (HV : valid_log (log ++ [rec])).
  { pose proof (refines_valid _ _ _ _ ci_store0) as (V1 & V2 & V3). split_and!.
    - apply Forall_app. split; [done|]. apply Forall_singleton. split; [|done].
      unfold name_limit in *. split_and!; cbn; [done| |done]. unfold is_u64. lia.
    - rewrite fmap_app. apply StronglySorted_app. split_and!; [|done|repeat constructor].
      intros x z (q & -> & Hq)%list_elem_of_fmap Hz%list_elem_of_singleton. subst z.
      rewrite Forall_forall in ci_stream0. specialize (ci_stream0 q Hq). cbn. lia.
    - apply Forall_app. split; [done|]. apply Forall_singleton. cbn. lia. }
  destruct (refines_append _ _ _ _ ci_store0 HV) as (w1 & s1 & HA & HR). unfold ClientSegmentStore_Append. rewrite HA.
  intros [= <- <- <-]. split_and!; try done. apply append_one_prefix in HA as [HA _]. split; client_cbn; try done; try lia.
  - rewrite HA. done.
  - apply Forall_app. split; [|apply Forall_singleton; cbn [cr_StreamID cr_StreamSeq client_record fst ClientRecord_Encode]; split; [done|lia]].
    eapply Forall_impl; [exact ci_stream0|]. cbn. intros q [? ?]. split; [done|lia].
  - rewrite ci_retained0, above_app. f_equal. symmetry. apply above_all, Forall_singleton. cbn. lia.
  - rewrite retained_size_app, ci_bytes0. cbn [retained_size foldr rec fst ClientRecord_Encode cr_Payload]. lia.
Qed.

(** ** Waiting *)

Lemma wait_begin_ok w c log d seq level w' r :
  client_inv w c log d -> wait_begin w c seq level = (w', r) ->
  exists d', client_inv w' c log d' /\ (d <= d')%nat /\ (r = WaitDone (Ok ()) \/ r = WaitWitness -> d' = length log).
Proof.
  intros HI. unfold wait_begin. rewrite (ci_degraded _ _ _ _ HI). pose proof HI as [].
  assert (HX : forall e, exists d', client_inv w c log d' /\ (d <= d')%nat /\ (WaitDone (Err e) = WaitDone (Ok ()) \/ WaitDone (Err e) = WaitWitness -> d' = length log)).
  { intros e. exists d. split_and!; [done|done|]. by intros [?|?]. }
  destruct (cl_closed c); [intros [= <- <-]; apply HX|]. destruct (_ <? _); [intros [= <- <-]; apply HX|].
  destruct (refines_sync _ _ _ ci_store0) as (w1 & HE & HR). unfold ClientSegmentStore_Sync. rewrite HE.
  cbn [al_records] in HR. assert (HI' : client_inv w1 c log (length log)) by (by split).
  pose proof (refines_bound _ _ _ _ ci_store0) as HB.
  destruct level; intros [= <- <-]; exists (length log); split_and!; done.
Qed.

(** Only the calls that wait change. *)
Lemma inv_waiters w c log d ws n : client_inv w c log d -> client_inv w (set_waiters c ws n) log d.
Proof. intros []. by split. Qed.

Lemma inv_set_hello w c log d b e : client_inv w c log d -> client_inv w (set_hello c b e) log d.
Proof. intros []. by split. Qed.

Lemma waitFor_inv w c log d seq level c' r :
  client_inv w c log d -> waitFor c seq level = (c', r) -> client_inv w c' log d /\ same_client c c'.
Proof.
  intros HI. unfold waitFor. destruct (_ <? _); [by intros [= <- <-]|]. destruct (cl_degradedErr c); [by intros [= <- <-]|].
  destruct (cl_closed c); [by intros [= <- <-]|]. destruct (_ <? seq); [by intros [= <- <-]|].
  destruct (reached _ _ _); intros [= <- <-]; [done|]. split; [by apply inv_waiters|done].
Qed.

(** ** Acknowledgements *)

(** What an acknowledgement of [S] does to the log. *)
Definition trimmed (S : Z) log log' : Prop :=
  sublist log' log /\ above S log' = above S log.

Lemma trimmed_refl S log : trimmed S log log.
Proof. done. Qed.

Lemma trimmed_of S log log' :
  valid_log log -> sublist log' log -> (forall r, r ∈ log -> r ∈ log' \/ cr_StreamSeq r <= S) -> trimmed S log log'.
Proof.
  intros HV HS. split; [done|]. revert HV H. induction HS as [|r l1 l2 HS IH|r l1 l2 HS IH]; intros HV HK; [done| |].
  - unfold above in *. rewrite !filter_cons. rewrite IH; [done|by apply (valid_log_app [r]) in HV as [_ ?]|].
    intros q Hq. destruct (HK q ltac:(by right)) as [[->|Hin]%elem_of_cons|Hle]; [|by left|by right].
    exfalso. pose proof (valid_log_lt [r] l2 r r HV ltac:(left) Hq). cbn in *. lia.
  - unfold above in *. rewrite filter_cons. case_decide as Hd.
    + exfalso. destruct (HK r ltac:(left)) as [Hin|Hle]; [|lia].
      assert (Hin2 : r ∈ l2) by (by eapply elem_of_sublist).
      pose proof (valid_log_lt [r] l2 r r HV ltac:(left) Hin2). cbn in *. lia.
    + apply IH; [by apply (valid_log_app [r]) in HV as [_ ?]|]. intros q Hq. apply HK. by right.
Qed.

Lemma raise_permanent_ok w c log d S w' c' :
  client_inv w c log d -> S <= cl_localSeq c -> raise_permanent w c S = (w', c') ->
  exists log' d', client_inv w' c' log' d' /\ trimmed (cl_s3Seq c') log log' /\ cl_s3Seq c' = Z.max (cl_s3Seq c) S /\
    cl_witnessSeq c' = cl_witnessSeq c /\ same_client c c' /\ (d - d' <= length log - length log')%nat.
Proof.
  intros HI HS. unfold raise_permanent. destruct (_ <? _) eqn:E; zify_bool.
  2:{ intros [= <- <-]. exists log, d. split_and!; try done; lia. }
  unfold cleanupS3AckedLocked, ClientSegmentStore_DeleteSegmentsBeforeS3Ack. client_cbn. pose proof HI as [].
  destruct (delete_acked w (st_activeMeta (cl_store c)) S (st_segments (cl_store c))) as [w1 kept] eqn:ED. intros [= <- <-].
  pose proof ci_store0 as (Hw & _ & _ & parts & HSt & _). apply delete_acked_exact in ED; [|done|exact (store_present _ _ _ _ HSt)].
  destruct (refines_delete _ _ _ _ _ _ _ ci_store0 ED) as (log' & HR & HSub & HK).
  assert (HT : trimmed S log log') by (apply trimmed_of; [by eapply refines_valid|done|done]).
  exists log', (d - (length log - length log'))%nat. split_and!; try done; client_cbn; [|lia|lia].
  split; client_cbn; try done; [by eapply sublist_Forall|lia|].
  rewrite ci_retained0. fold (above S (above (cl_s3Seq c) log)). rewrite above_above by lia. symmetry. apply HT.
Qed.

Lemma handleAck_ok w c log d W S w' c' out :
  client_inv w c log d -> S <= cl_localSeq c -> handleAck w c W S = (w', c', out) ->
  exists log' d', client_inv w' c' log' d' /\ trimmed (cl_s3Seq c') log log' /\ cl_s3Seq c' = Z.max (cl_s3Seq c) S /\
    cl_witnessSeq c' = Z.max (cl_witnessSeq c) W /\ same_client c c' /\ (d - d' <= length log - length log')%nat.
Proof.
  intros HI HS. unfold handleAck. set (c1 := if _ <? _ then _ else _).
  assert (H1 : client_inv w c1 log d /\ cl_witnessSeq c1 = Z.max (cl_witnessSeq c) W /\ cl_s3Seq c1 = cl_s3Seq c /\ same_client c c1).
  { unfold c1. destruct (_ <? _) eqn:E; zify_bool; (split_and!; try done; try (client_cbn; lia)). destruct HI. by split. }
  destruct H1 as (HI1 & HW & H3 & HC). clearbody c1. destruct (raise_permanent w c1 S) as [w2 c2] eqn:E.
  destruct (raise_permanent_ok _ _ _ _ _ _ _ HI1 ltac:(by rewrite (proj1 (proj2 HC))) E) as (log' & d' & HI2 & HT & H32 & HW2 & HC2 & Hd).
  unfold notifyWaitersLocked. intros [= <- <- <-]. exists log', d'. client_cbn. split_and!; try done; try lia; [by apply inv_waiters|].
  exact (same_client_trans _ _ _ HC HC2).
Qed.

(** ** The handshake *)

(** What a handshake does not touch. *)
Definition greeted c c' : Prop :=
  cl_streamID c' = cl_streamID c /\ cl_closed c' = cl_closed c /\ cl_helloErr c' = cl_helloErr c /\
  cl_maxRetainedBytes c' = cl_maxRetainedBytes c.

Lemma same_greeted c c' : same_client c c' -> greeted c c'.
Proof. by intros (?&?&?&?&?&?). Qed.

Lemma greeted_trans c1 c2 c3 : greeted c1 c2 -> greeted c2 c3 -> greeted c1 c3.
Proof. intros (?&?&?&?) (?&?&?&?). split_and!; congruence. Qed.

Lemma hello_once_done w c log d :
  client_inv w c log d -> client_inv w (hello_once c None) log d /\ cl_helloDone (hello_once c None) = true /\
    greeted c (hello_once c None) /\ cl_localSeq (hello_once c None) = cl_localSeq c /\
    cl_s3Seq (hello_once c None) = cl_s3Seq c /\ cl_witnessSeq (hello_once c None) = cl_witnessSeq c.
Proof. intros HI. unfold hello_once. destruct (cl_helloDone c) eqn:E; [done|]. split_and!; try done. by apply inv_set_hello. Qed.

Lemma hello_end_ok w c log d W S w' c' out :
  client_inv w c log d -> S <= cl_localSeq c -> hello_end w c W S = (w', c', out) ->
  exists log' d', client_inv w' c' log' d' /\ trimmed (cl_s3Seq c') log log' /\ cl_s3Seq c' = Z.max (cl_s3Seq c) S /\
    cl_witnessSeq c' = W /\ cl_helloDone c' = true /\ greeted c c' /\ cl_localSeq c' = cl_localSeq c.
Proof.
  intros HI HS. unfold hello_end.
  assert (HI1 : client_inv w (set_watermarks c W (cl_s3Seq c)) log d) by (destruct HI; by split).
  destruct (raise_permanent w _ S) as [w2 c2] eqn:E.
  destruct (raise_permanent_ok _ _ _ _ _ _ _ HI1 HS E) as (log' & d' & HI2 & HT & H32 & HW2 & HC2 & _).
  unfold notifyWaitersLocked. intros [= <- <- <-]. exists log', d'.
  match goal with |- client_inv _ (hello_once ?x None) _ _ /\ _ => destruct (hello_once_done w2 x log' d') as (H1 & H2 & H3 & H4 & H5 & H6) end.
  { destruct HI2. by split. }
  rewrite H5, H6, H4. client_cbn. split_and!; try done; [|by destruct HC2 as (_ & -> & _)].
  eapply greeted_trans; [|exact H3]. exact (same_greeted _ _ HC2).
Qed.

Lemma hello_begin_ok w c log d W c1 head :
  client_inv w c log d -> 0 <= W < name_limit -> hello_begin c W = (c1, head) ->
  client_inv w c1 log d /\ greeted c c1 /\ cl_localSeq c1 = Z.max (cl_localSeq c) W /\ cl_s3Seq c1 = cl_s3Seq c /\
  cl_helloDone c1 = cl_helloDone c /\ cl_witnessSeq c1 = cl_witnessSeq c /\
  match head with Some r => r ∈ cl_retainedRecords c /\ cr_StreamSeq r = W /\ c1 = c | None => True end.
Proof.
  intros HI HW. unfold hello_begin. destruct (cl_localSeq c <? W) eqn:E; zify_bool.
  { intros [= <- <-]. split_and!; try done; [|client_cbn; lia]. destruct HI. split; client_cbn; try done; [|lia].
    eapply Forall_impl; [exact ci_stream0|]. cbn. intros r [? ?]. split; [done|lia]. }
  destruct (_ && _); intros [= <- <-]; (split_and!; try done; [lia|..]).
  destruct (List.find _ _) as [r|] eqn:EF; [|done]. apply List.find_some in EF as [Hin Hs].
  apply list_elem_of_In in Hin. split_and!; [done|lia|done].
Qed.

Lemma refines_truncate w s log d q :
  refines (w, s) (mkAlog log d) ->
  exists w' s', ClientSegmentStore_TruncateAfter w s q = (w', s', Ok ()) /\ st_filePrefix s' = st_filePrefix s /\
    refines (w', s') (mkAlog (upto q log) (length (upto q log))).
Proof.
  intros (Hw & Hp & Hf & parts & HI & HC). cbn [fst snd al_records al_durable] in *. unfold ClientSegmentStore_TruncateAfter.
  assert (HX : exists w0 s0 d0,
    match st_activeFile s with
    | Some p => let '(w, r) := sync_close w p in (w, with_active s None None, match r with Ok _ => 0%nat | Err _ => 1%nat end)
    | None => (w, s, 0%nat)
    end = (w0, s0, 0%nat) /\ store_inv w0 s0 parts d0 /\ no_faults w0 /\ st_activeFile s0 = None /\
    st_filePrefix s0 = st_filePrefix s /\ st_noFsync s0 = st_noFsync s).
  { destruct (st_activeFile s) as [p|] eqn:Ha; [|by exists w, s, d].
    destruct (sync_close_inv _ _ _ _ _ None HI Hw Ha) as (w0 & -> & Hw0 & HI0). by eexists w0, _, (length (concat parts)). }
  destruct HX as (w0 & s0 & d0 & -> & HI2 & Hw0 & Ha & Hp0 & Hn0).
  destruct (truncate_inactive _ _ _ _ q HI2 Hw0 Ha) as (w' & kept & parts' & HT & Hw' & HC' & HI').
  rewrite HT. eexists _, _. split; [done|]. cbn [st_filePrefix with_segments]. split; [done|]. rewrite HC in HC'.
  split_and!; cbn [fst snd st_filePrefix st_noFsync with_segments]; [done|congruence|congruence|].
  exists parts'. cbn [al_durable al_records]. rewrite HC' in HI'. by split.
Qed.

Lemma upto_above n m log : above n (upto m log) = upto m (above n log).
Proof. unfold above, upto. rewrite !list_filter_filter. apply list_filter_iff. intros r. tauto. Qed.

Lemma hello_diverged_ok w c log d W now w' c' out r :
  client_inv w c log d -> 0 <= W <= cl_localSeq c -> cl_s3Seq c <= W -> hello_diverged w c W now = (w', c', out, r) ->
  r = Ok () /\ client_inv w' c' (upto W log) (length (upto W log)) /\ greeted c c' /\ cl_localSeq c' = W /\
  cl_s3Seq c' = cl_s3Seq c /\ cl_helloDone c' = cl_helloDone c.
Proof.
  intros HI HW H3. unfold hello_diverged. pose proof HI as [].
  destruct (refines_truncate _ _ _ _ W ci_store0) as (w1 & s1 & -> & Hp & HR). intros [= <- <- <- <-].
  split_and!; try done. split; client_cbn; try done; try lia.
  - congruence.
  - apply Forall_forall. intros q [Hle Hq]%list_elem_of_filter. rewrite Forall_forall in ci_stream0.
    destruct (ci_stream0 q Hq). split; [done|lia].
  - rewrite ci_retained0. by rewrite upto_above.
Qed.

(** A handshake that works leaves the log, less what has become permanent; when
    the histories differ it rolls the log back first. *)
Definition disagree c (W : Z) (tail : result client_error (list (Z * bytes))) : Prop :=
  exists r sent payload, r ∈ cl_retainedRecords c /\ cr_StreamSeq r = W /\ tail = Ok sent /\
    tail_lookup W sent = Some payload /\ cr_Payload r <> payload.

Lemma handleHelloAck_ok w c log d W S now tail w' c' out r :
  client_inv w c log d -> 0 <= W < name_limit -> cl_s3Seq c <= W -> S <= W ->
  handleHelloAck w c W S now tail = (w', c', out, r) ->
  match r with
  | Err _ => w' = w /\ c' = c
  | Ok _ => exists log0 log' d', client_inv w' c' log' d' /\ trimmed (cl_s3Seq c') log0 log' /\
      cl_s3Seq c' = Z.max (cl_s3Seq c) S /\ cl_witnessSeq c' = W /\ cl_helloDone c' = true /\ greeted c c' /\
      (log0 = log /\ cl_localSeq c' = Z.max (cl_localSeq c) W \/
       log0 = upto W log /\ cl_localSeq c' = W /\ disagree c W tail)
  end.
Proof.
  intros HI HW H3 HS. unfold handleHelloAck. destruct (hello_begin c W) as [c1 head] eqn:E1.
  destruct (hello_begin_ok _ _ _ _ _ _ _ HI HW E1) as (HI1 & HG1 & HL1 & H31 & HD1 & HW1 & Hh).
  assert (HEnd : forall w2 c2 log2 d2 w3 c3 out3, client_inv w2 c2 log2 d2 -> greeted c c2 -> cl_s3Seq c2 = cl_s3Seq c ->
    W <= cl_localSeq c2 -> hello_end w2 c2 W S = (w3, c3, out3) ->
    exists log' d', client_inv w3 c3 log' d' /\ trimmed (cl_s3Seq c3) log2 log' /\
      cl_s3Seq c3 = Z.max (cl_s3Seq c) S /\ cl_witnessSeq c3 = W /\ cl_helloDone c3 = true /\ greeted c c3 /\
      cl_localSeq c3 = cl_localSeq c2).
  { intros w2 c2 log2 d2 w3 c3 out3 HI2 HG2 H32 HL2 HE.
    destruct (hello_end_ok w2 c2 log2 d2 W S w3 c3 out3 HI2 ltac:(lia) HE) as (log' & d' & K1 & K2 & K3 & K4 & K5 & K6 & K7).
    exists log', d'. split_and!; try done; [lia|by eapply greeted_trans]. }
  assert (HAgree : forall w3 c3 out3, hello_end w c1 W S = (w3, c3, out3) ->
    exists log0 log' d', client_inv w3 c3 log' d' /\ trimmed (cl_s3Seq c3) log0 log' /\
      cl_s3Seq c3 = Z.max (cl_s3Seq c) S /\ cl_witnessSeq c3 = W /\ cl_helloDone c3 = true /\ greeted c c3 /\
      (log0 = log /\ cl_localSeq c3 = Z.max (cl_localSeq c) W \/
       log0 = upto W log /\ cl_localSeq c3 = W /\ disagree c W tail)).
  { intros w3 c3 out3 HE. destruct (HEnd w c1 log d w3 c3 out3 HI1 HG1 H31 ltac:(lia) HE) as (log' & d' & K1 & K2 & K3 & K4 & K5 & K6 & K7).
    exists log, log', d'. split_and!; try done. left. split; [done|]. congruence. }
  destruct head as [rh|].
  2:{ destruct (hello_end w c1 W S) as [[w3 c3] out3] eqn:EE. intros [= <- <- <- <-]. by eapply HAgree. }
  destruct Hh as (Hin & Hseq & ->). destruct tail as [sent|e]; [|by intros [= <- <- <- <-]].
  destruct (tail_lookup W sent) as [payload|] eqn:EL; [|by intros [= <- <- <- <-]]. case_bool_decide as Hpl.
  { destruct (hello_end w c W S) as [[w3 c3] out3] eqn:EE. intros [= <- <- <- <-]. by eapply HAgree. }
  destruct (hello_diverged w c W now) as [[[w2 c2] out1] r2] eqn:ED.
  destruct (hello_diverged_ok w c log d W now w2 c2 out1 r2 HI ltac:(lia) H3 ED) as (-> & HI2 & HG2 & HL2 & H32 & HD2).
  destruct (hello_end w2 c2 W S) as [[w3 c3] out3] eqn:EE. intros [= <- <- <- <-].
  destruct (HEnd w2 c2 _ _ w3 c3 out3 HI2 HG2 H32 ltac:(lia) EE) as (log' & d' & K1 & K2 & K3 & K4 & K5 & K6 & K7).
  exists (upto W log), log', d'. split_and!; try done. right. split_and!; [done|congruence|]. by exists rh, sent, payload.
Qed.

(** ** Runs of a client *)

(** What can happen to a client from its first start on, when appends do not
    overlap, its disk works and the service acknowledges only what it can have
    received and forgets nothing it has acknowledged as permanent.  The list has
    the records that [Append] has accepted: a handshake that rolls the client
    back and a crash take from it the records above the number the client then
    has, and nothing else shortens it.  The number is the greatest permanent
    watermark the client has been told of, in this life or an earlier one. *)
Inductive client_run : World -> streamImpl -> list ClientRecord -> Z -> Prop :=
| cr_open w id maxRetained maxSize opt w' c :
    wf_uuid id -> no_faults w -> so_NoFsync opt = false -> no_segments w (store_prefix id) ->
    Open w id maxRetained maxSize opt = (w', Ok c) -> client_run w' c [] 0
| cr_append w c A P payload w' c' r :
    client_run w c A P -> Z.of_nat (length payload) < 2 ^ 32 -> cl_localSeq c + 1 < name_limit ->
    Append w c payload = Some (w', c', r) ->
    client_run w' c' (match r with Ok seq => A ++ [client_record (cl_streamID c) seq payload] | Err _ => A end) P
| cr_wait w c A P seq level w' r :
    client_run w c A P -> wait_begin w c seq level = (w', r) -> client_run w' c A P
| cr_wait_for w c A P seq level c' r :
    client_run w c A P -> waitFor c seq level = (c', r) -> client_run w c' A P
| cr_forget w c A P target : client_run w c A P -> client_run w (removeWaiterLocked c target) A P
| cr_ack w c A P W S w' c' out :
    client_run w c A P -> S <= cl_localSeq c -> handleAck w c W S = (w', c', out) ->
    client_run w' c' A (Z.max P S)
| cr_hello w c A P W S now tail w' c' out r :
    client_run w c A P -> 0 <= W < name_limit -> cl_s3Seq c <= W -> S <= W ->
    handleHelloAck w c W S now tail = (w', c', out, r) ->
    client_run w' (session_hello c' r) (match r with Ok _ => upto (cl_localSeq c') A | Err _ => A end) (Z.max P S)
| cr_close w c A P w' c' r out :
    client_run w c A P -> Close w c = (w', c', r, out) -> client_run w' c' A P
| cr_crash w c A P wc maxRetained maxSize opt w' c' :
    client_run w c A P -> so_NoFsync opt = false -> crash w wc -> no_faults wc ->
    headers_intact wc (store_prefix (cl_streamID c)) ->
    Open wc (cl_streamID c) maxRetained maxSize opt = (w', Ok c') ->
    client_run w' c' (upto (cl_localSeq c') A) P.

(** The local log is what was accepted, less what is permanent. *)
Record run_inv w c (A : list ClientRecord) (P : Z) (log : list ClientRecord) (d : nat) : Prop := {
  ru_client : client_inv w c log d;
  ru_perm : cl_s3Seq c <= P;
  ru_trim : trimmed P A log;
  ru_sorted : StronglySorted Z.lt (cr_StreamSeq <$> A);
  ru_all : Forall (fun r => cr_StreamSeq r <= cl_localSeq c) A;
}.

Lemma trimmed_trans S S' l1 l2 l3 : S <= S' -> trimmed S l1 l2 -> trimmed S' l2 l3 -> trimmed S' l1 l3.
Proof.
  intros Hle [H1 H2] [H3 H4]. split; [by etrans|]. rewrite H4, <-(above_above S S' l1), <-(above_above S S' l2) by lia. by rewrite H2.
Qed.

Lemma trimmed_mono S S' l l' : S <= S' -> trimmed S l l' -> trimmed S' l l'.
Proof. intros Hle HT. by eapply trimmed_trans, trimmed_refl. Qed.

Lemma trimmed_app S l l' k : trimmed S l l' -> trimmed S (l ++ k) (l' ++ k).
Proof. intros [H1 H2]. split; [by apply sublist_app|]. by rewrite !above_app, H2. Qed.

Lemma filter_sublist {A} (P : A -> Prop) `{!forall x, Decision (P x)} l : sublist (filter P l) l.
Proof. induction l as [|x l IH]; [done|]. rewrite filter_cons. case_decide; [by apply sublist_skip|by apply sublist_cons]. Qed.

Lemma sublist_filter {A} (P : A -> Prop) `{!forall x, Decision (P x)} l l' : sublist l' l -> sublist (filter P l') (filter P l).
Proof.
  induction 1 as [|x l1 l2 _ IH|x l1 l2 _ IH]; [done| |].
  - rewrite !filter_cons. case_decide; [by apply sublist_skip|done].
  - rewrite filter_cons. case_decide; [by apply sublist_cons|done].
Qed.

Lemma trimmed_upto S q l l' : trimmed S l l' -> trimmed S (upto q l) (upto q l').
Proof. intros [H1 H2]. split; [by apply sublist_filter|]. by rewrite !upto_above, H2. Qed.

Lemma upto_all q log : Forall (fun r => cr_StreamSeq r <= q) log -> upto q log = log.
Proof. induction 1 as [|r log Hr _ IH]; [done|]. unfold upto in *. rewrite filter_cons, decide_True by done. by rewrite IH. Qed.

(** Cutting an increasing log after some records is cutting it at the last number. *)
Lemma upto_take n log :
  StronglySorted Z.lt (cr_StreamSeq <$> log) -> Forall (fun r => 0 < cr_StreamSeq r) log ->
  upto (top_of (cr_StreamSeq <$> take n log)) log = take n log.
Proof.
  intros HS HF. set (q := top_of _). rewrite <-(take_drop n log) at 1. unfold upto. rewrite filter_app.
  rewrite filter_all. 2:{ intros r Hr. apply top_of_elem. by apply list_elem_of_fmap_2. }
  rewrite filter_none; [by rewrite app_nil_r|]. intros r Hr.
  rewrite <-(take_drop n log), fmap_app in HS. apply StronglySorted_app in HS as (HS & _).
  assert (q < cr_StreamSeq r); [|lia]. destruct (top_of_cases (cr_StreamSeq <$> take n log)) as [E|Hin].
  - unfold q. rewrite E. rewrite Forall_forall in HF. apply HF. eapply elem_of_sublist; [exact Hr|apply sublist_drop].
  - apply HS; [exact Hin|by apply list_elem_of_fmap_2].
Qed.

Lemma close_inv w c log d w' c' r out :
  client_inv w c log d -> Close w c = (w', c', r, out) ->
  exists d', client_inv w' c' log d' /\ (d <= d')%nat /\ cl_s3Seq c' = cl_s3Seq c /\ cl_localSeq c' = cl_localSeq c /\ cl_closed c' = true.
Proof.
  intros HI. unfold Close. destruct (cl_closed c) eqn:E; [intros [= <- <- <- <-]; by exists d|].
  assert (HI1 : client_inv w (set_closed c) log d) by (destruct HI; by split).
  destruct (hello_once_done _ _ _ _ HI1) as (HI2 & _ & HG & HL & HS & _). set (c1 := hello_once (set_closed c) None) in *.
  pose proof HI2 as []. destruct (refines_close _ _ _ ci_store0) as (w1 & s1 & HE & HR). cbn [al_records] in HR.
  unfold ClientSegmentStore_Close. client_cbn. rewrite HE. intros [= <- <- <- <-]. exists (length log). client_cbn.
  pose proof (refines_bound _ _ _ _ ci_store0). split_and!; try done; [|by destruct HG as (_ & -> & _)].
  split; client_cbn; try done. unfold store_Close in HE. destruct (st_activeFile (cl_store c1)).
  - destruct (sync_close _ _) as [? []]; injection HE as _ <-; done.
  - by injection HE as _ <-.
Qed.

Lemma session_hello_inv w c log d r : client_inv w c log d -> client_inv w (session_hello c r) log d.
Proof. intros HI. unfold session_hello, hello_once. destruct r, (cl_helloDone c) eqn:E; cbn [cl_helloDone set_hello]; rewrite ?E; try done; by repeat apply inv_set_hello. Qed.

Lemma session_hello_same c r : cl_s3Seq (session_hello c r) = cl_s3Seq c /\ cl_localSeq (session_hello c r) = cl_localSeq c.
Proof. unfold session_hello, hello_once. destruct r, (cl_helloDone c) eqn:E; cbn [cl_helloDone set_hello]; by rewrite ?E. Qed.

Lemma run_inv_same w c w' c' A P log d d' :
  run_inv w c A P log d -> client_inv w' c' log d' -> cl_s3Seq c' = cl_s3Seq c -> cl_localSeq c' = cl_localSeq c ->
  run_inv w' c' A P log d'.
Proof. intros [] HI HS HL. split; [done|by rewrite HS|done|done|by rewrite HL]. Qed.

Lemma run_inv_perm w c A P P' log d : P <= P' -> run_inv w c A P log d -> run_inv w c A P' log d.
Proof. intros Hle []. split; try done; [lia|by eapply trimmed_mono]. Qed.

Lemma run_inv_hello w c A P log d W S now tail w' c' out r :
  run_inv w c A P log d -> 0 <= W < name_limit -> cl_s3Seq c <= W -> S <= W ->
  handleHelloAck w c W S now tail = (w', c', out, r) ->
  exists log' d', run_inv w' (session_hello c' r) (match r with Ok _ => upto (cl_localSeq c') A | Err _ => A end)
    (Z.max P S) log' d'.
Proof.
  intros HR HW H3 HS HE. pose proof HR as []. destruct (session_hello_same c' r) as [HX1 HX2].
  pose proof (handleHelloAck_ok _ _ _ _ _ _ _ _ _ _ _ _ ru_client0 HW H3 HS HE) as HO. destruct r as [u|e].
  2:{ destruct HO as [-> ->]. exists log, d. apply (run_inv_perm _ _ _ P); [lia|].
      eapply run_inv_same; [exact HR|by apply session_hello_inv|done|done]. }
  destruct HO as (log0 & log' & d' & HI & HT & H3' & _ & _ & _ & HC). exists log', d'.
  assert (HP : cl_s3Seq c' <= Z.max P S) by lia.
  split.
  - by apply session_hello_inv.
  - by rewrite HX1.
  - destruct HC as [[-> HL]|(-> & HL & _)].
    + rewrite upto_all by (eapply Forall_impl; [exact ru_all0|]; cbn; lia).
      eapply (trimmed_trans P); [lia|done|by eapply trimmed_mono].
    + rewrite HL. eapply (trimmed_trans P); [lia|by apply trimmed_upto|by eapply trimmed_mono].
  - eapply sorted_sublist; [|exact ru_sorted0]. apply fmap_sublist, filter_sublist.
  - rewrite HX2. apply Forall_forall. by intros q [? _]%list_elem_of_filter.
Qed.

Lemma run_inv_crash w c A P log d wc maxRetained maxSize opt w' c' :
  run_inv w c A P log d -> so_NoFsync opt = false -> crash w wc -> no_faults wc ->
  headers_intact wc (store_prefix (cl_streamID c)) -> Open wc (cl_streamID c) maxRetained maxSize opt = (w', Ok c') ->
  exists log' d', run_inv w' c' (upto (cl_localSeq c') A) P log' d'.
Proof.
  intros [] Ho Hcr Hwc HH HE.
  destruct (open_crash _ _ _ _ wc maxRetained maxSize opt ru_client0 Ho Hcr Hwc HH) as (w1 & c1 & n & HE1 & _ & HI & HOp & HRt).
  rewrite HE in HE1. injection HE1 as <- <-. destruct HOp as (_ & HL & H3 & _).
  destruct (refines_valid _ _ _ _ (ci_store _ _ _ _ ru_client0)) as (_ & HSo & _).
  assert (HU : upto (cl_localSeq c') log = take n log).
  { rewrite HL. apply upto_take; [done|]. eapply Forall_impl; [apply (ci_stream _ _ _ _ ru_client0)|]. cbn. lia. }
  exists (take n log), n. split; [done| | | |].
  - pose proof (ci_s3 _ _ _ _ ru_client0). lia.
  - rewrite <-HU. by apply trimmed_upto.
  - eapply sorted_sublist; [|exact ru_sorted0]. apply fmap_sublist, filter_sublist.
  - apply Forall_forall. by intros q [? _]%list_elem_of_filter.
Qed.

Lemma client_run_inv w c A P : client_run w c A P -> exists log d, run_inv w c A P log d.
Proof.
  induction 1 as [w id mr ms opt w' c Hid Hw Ho Hn HE|w c A P payload w' c' r _ (log & d & HR) Hpl HL HE|
    w c A P seq level w' r _ (log & d & HR) HE|w c A P seq level c' r _ (log & d & HR) HE|w c A P t _ (log & d & HR)|
    w c A P W S w' c' out _ (log & d & HR) HS HE|w c A P W S now tail w' c' out r _ (log & d & HR) HW H3 HS HE|
    w c A P w' c' r out _ (log & d & HR) HE|w c A P wc mr ms opt w' c' _ (log & d & HR) Ho Hcr Hwc HH HE]; try pose proof HR as [].
  - destruct (open_fresh w id mr ms opt Hid Hw Ho Hn) as (w1 & c1 & HE1 & HI & HOp). rewrite HE in HE1. injection HE1 as <- <-.
    destruct HOp as (_ & _ & H3 & _). exists [], 0%nat. split; [done|lia|done|constructor|constructor].
  - pose proof (Append_ok _ _ _ _ _ _ _ _ ru_client0 Hpl HL HE) as HO. destruct r as [seq|e]; [|destruct HO as [-> ->]; eauto].
    destruct HO as (Hs & HI & _ & _ & _ & HLs & H3 & _ & _). exists (log ++ [client_record (cl_streamID c) seq payload]), d. split.
    + done.
    + by rewrite H3.
    + by apply trimmed_app.
    + rewrite fmap_app. apply StronglySorted_app. split_and!; [|done|repeat constructor].
      intros x z (q & -> & Hq)%list_elem_of_fmap Hz%list_elem_of_singleton. subst z.
      rewrite Forall_forall in ru_all0. specialize (ru_all0 q Hq). cbn. lia.
    + rewrite HLs. apply Forall_app. split; [eapply Forall_impl; [exact ru_all0|]; cbn; lia|]. by apply Forall_singleton.
  - destruct (wait_begin_ok _ _ _ _ _ _ _ _ ru_client0 HE) as (d' & HI & _). exists log, d'. by eapply run_inv_same.
  - destruct (waitFor_inv _ _ _ _ _ _ _ _ ru_client0 HE) as (HI & (_ & HL & _)). exists log, d.
    eapply run_inv_same; try done. unfold waitFor in HE. repeat case_match; by injection HE as <- _.
  - exists log, d. eapply run_inv_same; [exact HR|by apply inv_waiters|done|done].
  - destruct (handleAck_ok _ _ _ _ _ _ _ _ _ ru_client0 HS HE) as (log' & d' & HI & HT & H3 & _ & (_ & HL & _) & _).
    exists log', d'. split; [done|lia| |done|by rewrite HL]. eapply (trimmed_trans P); [lia|done|].
    eapply trimmed_mono; [|done]. lia.
  - by eapply run_inv_hello.
  - destruct (close_inv _ _ _ _ _ _ _ _ ru_client0 HE) as (d' & HI & _ & H3 & HL & _). exists log, d'. by eapply run_inv_same.
  - by eapply run_inv_crash.
Qed.

(** C12: the client keeps what is not permanent.  Take a client since its first
    start, through appends that do not overlap, waits, acknowledgements,
    handshakes with or without a rollback and crashes, on a disk that works.  Of
    the records it has accepted it holds in memory, and will send again, every
    one above the greatest permanent watermark it was ever told of, and exactly
    these while it remembers that watermark; they are in the order of their
    acceptance, with increasing numbers up to its local one, and the retained
    bytes are theirs.  What a handshake or a crash takes from the accepted
    records are only those above the number that the client then has. *)
Theorem unacked_retained w c A P :
  client_run w c A P ->
  sublist (cl_retainedRecords c) A /\
  above P (cl_retainedRecords c) = above P A /\
  (cl_s3Seq c = P -> cl_retainedRecords c = above P A) /\
  cl_retainedBytes c = retained_size (cl_retainedRecords c) /\
  StronglySorted Z.lt (cr_StreamSeq <$> A) /\ Forall (fun r => cr_StreamSeq r <= cl_localSeq c) A.
Proof.
  intros (log & d & [HI HP [HTs HT] HS HA])%client_run_inv. destruct HI. rewrite ci_retained0.
  split_and!; try done; [|by rewrite above_above|by intros ->|congruence]. etrans; [apply filter_sublist|done].
Qed.

(** C14: a record that a caller has waited for survives.  When [Wait] has made the
    local log durable, then after a crash at that point the client opens again,
    and it has every record accepted so far that the service has not made
    permanent, and every record it had retained. *)
Theorem local_wait_survives w c A P seq level w1 r wc maxRetained maxSize opt :
  client_run w c A P -> wait_begin w c seq level = (w1, r) -> r = WaitDone (Ok ()) \/ r = WaitWitness ->
  so_NoFsync opt = false -> crash w1 wc -> no_faults wc -> headers_intact wc (store_prefix (cl_streamID c)) ->
  exists w2 c2, Open wc (cl_streamID c) maxRetained maxSize opt = (w2, Ok c2) /\
    (forall q, q ∈ A -> P < cr_StreamSeq q -> q ∈ cl_retainedRecords c2) /\
    forall q, q ∈ cl_retainedRecords c -> q ∈ cl_retainedRecords c2.
Proof.
  intros (log & d & [HI HP [_ HT] _ _])%client_run_inv HE Hr Ho Hcr Hwc HH.
  destruct (wait_begin_ok _ _ _ _ _ _ _ _ HI HE) as (d' & HI' & _ & Hd). rewrite (Hd Hr) in HI'.
  destruct (open_crash _ _ _ _ wc maxRetained maxSize opt HI' Ho Hcr Hwc HH) as (w2 & c2 & n & HE2 & Hn & _ & _ & HRt).
  exists w2, c2. split; [done|]. rewrite HRt, take_ge by lia. split.
  - intros q Hq Hlt. assert (q ∈ above P A) as Hin by (by apply list_elem_of_filter). rewrite <-HT in Hin.
    by apply list_elem_of_filter in Hin as [_ ?].
  - intros q Hq. rewrite (ci_retained _ _ _ _ HI) in Hq. by apply list_elem_of_filter in Hq as [_ ?].
Qed.

End client.

(** ** Concrete clients *)

Module ClientRun.
Import Demo.

Definition state : Type := World * streamImpl.

Definition start (outcomes : list outcome) : state :=
  match Open (mkWorld ∅ outcomes 7) id_a 1000 100 sample_opt with
  | (w, Ok c) => (w, c)
  | (w, Err _) => (w, mkClient id_a 0 Local (mkSegmentStore 0 [] false false None None [] 0) 0 0 0 0 [] 0 0 false false None None [] true)
  end.
Definition greet (W S : Z) (tail : list (Z * bytes)) (x : state) : state :=
  let '(w, c, _, r) := handleHelloAck x.1 x.2 W S 0 (Ok tail) in (w, session_hello c r).
Definition put (payload : bytes) (x : state) : state :=
  match Append x.1 x.2 payload with Some (w, c, _) => (w, c) | None => x end.
Definition ack (W S : Z) (x : state) : state := (handleAck x.1 x.2 W S).1.

Definition c1 : state := greet 0 0 [] (start []).
Definition c2 : state := put [x62] (put [x61] c1).
Definition c3 : state := ack 1 1 c2.

Definition A2 : list ClientRecord := [client_record id_a 1 [x61]; client_record id_a 2 [x62]].

Lemma put_run x A P payload seq :
  client_run x.1 x.2 A P -> (Z.of_nat (length payload) <? 2 ^ 32) = true -> (cl_localSeq x.2 + 1 <? name_limit) = true ->
  (match Append x.1 x.2 payload with Some (_, _, Ok n) => n =? seq | _ => false end) = true ->
  client_run (put payload x).1 (put payload x).2 (A ++ [client_record (cl_streamID x.2) seq payload]) P.
Proof.
  intros HR Hp HL HE. unfold put. destruct (Append x.1 x.2 payload) as [[[w c] [n|e]]|] eqn:E; [|discriminate HE..].
  apply Z.eqb_eq in HE as <-. exact (cr_append _ _ _ _ _ _ _ _ HR (proj1 (Z.ltb_lt _ _) Hp) (proj1 (Z.ltb_lt _ _) HL) E).
Qed.

Lemma ack_run x A P W S :
  client_run x.1 x.2 A P -> (S <=? cl_localSeq x.2) = true -> client_run (ack W S x).1 (ack W S x).2 A (Z.max P S).
Proof.
  intros HR HS. eapply cr_ack; [exact HR|by apply Z.leb_le|]. unfold ack.
  exact (triple_eta (handleAck x.1 x.2 W S)).
Qed.

Lemma start_run : client_run (start []).1 (start []).2 [] 0.
Proof.
  destruct (open_fresh (mkWorld ∅ [] 7) id_a 1000 100 sample_opt) as (w & c & HE & _); [done..|apply no_segments_empty|].
  apply (cr_open (mkWorld ∅ [] 7) id_a 1000 100 sample_opt); [done..|apply no_segments_empty|].
  unfold start. by rewrite HE.
Qed.

Lemma greet_run x :
  client_run x.1 x.2 [] 0 -> (cl_s3Seq x.2 <=? 0) = true -> client_run (greet 0 0 [] x).1 (greet 0 0 [] x).2 [] 0.
Proof.
  intros HR HS%Z.leb_le. unfold greet. destruct (handleHelloAck x.1 x.2 0 0 0 (Ok [])) as [[[w c] out] r] eqn:E.
  assert (H0 : 0 <= 0 < name_limit) by (unfold name_limit; lia).
  pose proof (cr_hello x.1 x.2 [] 0 0 0 0 (Ok []) w c out r HR H0 HS (Z.le_refl 0) E) as HX. by destruct r.
Qed.

Lemma run1 : client_run c1.1 c1.2 [] 0.
Proof. apply (greet_run (start [])); [exact start_run|]. vm_compute. reflexivity. Qed.

Lemma run2 : client_run c2.1 c2.2 A2 0.
Proof.
  unfold c2. pose proof (put_run c1 [] 0 [x61] 1 run1) as H1.
  specialize (H1 ltac:(vm_compute; reflexivity) ltac:(vm_compute; reflexivity) ltac:(vm_compute; reflexivity)).
  pose proof (put_run (put [x61] c1) _ 0 [x62] 2 H1) as H2.
  specialize (H2 ltac:(vm_compute; reflexivity) ltac:(vm_compute; reflexivity) ltac:(vm_compute; reflexivity)).
  assert (E1 : cl_streamID c1.2 = id_a) by (vm_compute; reflexivity).
  assert (E2 : cl_streamID (put [x61] c1).2 = id_a) by (vm_compute; reflexivity).
  rewrite E1, E2 in H2. exact H2.
Qed.

Lemma run3 : client_run c3.1 c3.2 A2 1.
Proof. apply (ack_run c2 A2 0 1 1); [exact run2|]. vm_compute. reflexivity. Qed.

End ClientRun.

Lemma unacked_retained_witness :
  cl_retainedRecords ClientRun.c3.2 = above 1 ClientRun.A2 /\
  cr_StreamSeq <$> cl_retainedRecords ClientRun.c3.2 = [2].
Proof.
  split; [|vm_compute; reflexivity].
  destruct (unacked_retained ClientRun.c3.1 ClientRun.c3.2 ClientRun.A2 1 ClientRun.run3) as (_ & _ & HR & _).
  apply HR. vm_compute. reflexivity.
Defined.

Lemma local_wait_survives_witness :
  exists w2 c2, Open (wait_begin ClientRun.c3.1 ClientRun.c3.2 2 Local).1 Demo.id_a 1000 100 sample_opt = (w2, Ok c2) /\
    client_record Demo.id_a 2 [x62] ∈ cl_retainedRecords c2.
Proof.
  assert (HB : match (wait_begin ClientRun.c3.1 ClientRun.c3.2 2 Local).2 with WaitDone (Ok _) => true | _ => false end = true)
    by (vm_compute; reflexivity).
  destruct (wait_begin ClientRun.c3.1 ClientRun.c3.2 2 Local) as [w1 r] eqn:E. cbn [fst snd] in *.
  assert (HW : w1 = (wait_begin ClientRun.c3.1 ClientRun.c3.2 2 Local).1) by (by rewrite E).
  assert (Hid : cl_streamID ClientRun.c3.2 = Demo.id_a) by (vm_compute; reflexivity).
  destruct (local_wait_survives ClientRun.c3.1 ClientRun.c3.2 ClientRun.A2 1 2 Local w1 r (cut_world 0 w1) 1000 100 sample_opt
    ClientRun.run3 E) as (w2 & c2 & HO & HQ & _).
  - left. destruct r as [[[]|]|]; [reflexivity|discriminate HB..].
  - reflexivity.
  - apply crash_cut_world. rewrite HW. vm_compute. reflexivity.
  - rewrite HW. vm_compute. reflexivity.
  - apply headers_long_intact. rewrite HW. vm_compute. reflexivity.
  - exists w2, c2. assert (HC : cut_world 0 w1 = w1) by (rewrite HW; vm_compute; reflexivity).
    rewrite Hid, HC in HO. split; [exact HO|]. apply HQ; [right; left|]. vm_compute. reflexivity.
Defined.

(** ** Runs in which a caller is told something that is not so *)

Module ClientRuns.
Import Demo ClientRun.

(** Two appends that overlap: both have their numbers before either writes, and
    the second writes first. *)
Definition overlapped (x : state) : state :=
  match append_reserve x.2 [x61] with
  | Some (c, Ok seq1) =>
    match append_reserve c [x62] with
    | Some (c, Ok seq2) =>
      let '(w, c, _) := append_write x.1 c seq2 [x62] in
      let '(w, c, _) := append_write w c seq1 [x61] in (w, c)
    | _ => x
    end
  | _ => x
  end.

Definition sent_numbers (c : streamImpl) : list Z :=
  match send_next c 1 with
  | Some (r, next) => cr_StreamSeq r :: match send_next c next with Some (r, _) => [cr_StreamSeq r] | None => [] end
  | None => []
  end.

(** Overlapping appends can leave a record that is never replicated and is
    reported as permanent.  The queue has record 2 before record 1; the session
    sends 2 and then looks for numbers from 3 on.  When the service acknowledges
    2, a wait for 1 returns successfully and the client forgets both. *)
Theorem overlapping_appends_lose_record :
  let x := overlapped c1 in
  let y := ack 2 2 x in
  (sent_numbers x.2, (waitFor y.2 1 Permanent).2, cl_retainedRecords y.2) = ([2], Some (Ok ()), []).
Proof. vm_compute. reflexivity. Qed.

(** Two appends that overlap, the first of which fails to write; then a third. *)
Definition failed_first (x : state) : list (result client_error Z) :=
  match append_reserve x.2 [x61] with
  | Some (c, Ok seq1) =>
    match append_reserve c [x62] with
    | Some (c, Ok seq2) =>
      let '(w, c, r2) := append_write x.1 c seq2 [x62] in
      let '(w, c, r1) := append_write (mkWorld (w_dir w) [OFail 0] (w_now w)) c seq1 [x61] in
      match Append w c [x63] with Some (_, _, r3) => [r2; r1; r3] | None => [] end
    | _ => []
    end
  | _ => []
  end.

(** An append that fails while another is under way makes the client hand out a
    number twice. *)
Theorem failed_append_reuses_number :
  failed_first c1 = [Ok 2; Err (ErrLocalAppend ErrSys); Ok 2].
Proof. vm_compute. reflexivity. Qed.

(** After a rollback a number means another record.  The service has another
    record 1 than the client: the client discards its record 2, keeps its own
    record 1, and gives number 2 to the next append.  A caller that still waits
    for the discarded record 2 is told it is replicated. *)
Theorem rollback_reuses_number :
  let x := greet 1 0 [(1, [x7a])] c2 in
  let y := ack 2 0 (put [x63] x) in
  (cr_Payload <$> cl_retainedRecords x.2, cr_Payload <$> cl_retainedRecords y.2, (waitFor y.2 2 Witness).2) =
  ([[x61]], [[x61]; [x63]], Some (Ok ())).
Proof. vm_compute. reflexivity. Qed.

End ClientRuns.
