(* ===== verification/WalReplication.v ===== *)
(** * WalReplication: a client and the service

    The client of WalClient.v and the service of WalServer.v joined by a
    connection: the records a session sends arrive in order, acknowledgements
    come back, sessions end at any point, the client crashes and opens again,
    other clients use the service.  Every record that the service commits for
    the stream is one the client has accepted, in the client's order and once;
    when a wait of the client returns, its record is where the level says. *)

From S2P Require Import Prelude Bytes WalRecord FileSys WalSegment WalStore WalRetention WalPaths ObjectStore WalTrim WalStream.
From S2P Require Import WalStreamInv WalStreamStore WalTail WalBuffer WalServer WalServerInv WalService WalClient WalClientInv.

#[local] Open Scope Z_scope.
#[local] Open Scope list_scope.

(** ** The joined system *)

(** A session: none; the service has answered the hello; records flow, with
    those still to replay and the number to send next. *)
Inductive session : Type :=
| Idle
| Greeted (W S : Z)
| Streaming (replay : list ClientRecord) (next : Z).

(** The item that the service receives for a record. *)
Definition client_item (r : ClientRecord) : incomingItem := mkItem (cr_StreamID r) (cr_StreamSeq r) (cr_Payload r).

Record net (B : Type) : Type := mkNet {
  n_w : World;
  n_c : streamImpl;
  n_y : Sys B;
  n_v : Server;
  n_Q : list incomingItem;
  n_C : list LogRecord;
  n_A : list ClientRecord;
  n_session : session;
  n_out : list ClientRecord;
  n_acks : list (Z * Z);
}.
Arguments mkNet {B}.
Arguments n_w {B}.
Arguments n_c {B}.
Arguments n_y {B}.
Arguments n_v {B}.
Arguments n_Q {B}.
Arguments n_C {B}.
Arguments n_A {B}.
Arguments n_session {B}.
Arguments n_out {B}.
Arguments n_acks {B}.

(** The parts of a system that is given. *)
Ltac net_cbn := cbn [n_w n_c n_y n_v n_Q n_C n_A n_session n_out n_acks].
Ltac net_cbn_all := cbn [n_w n_c n_y n_v n_Q n_C n_A n_session n_out n_acks] in *.

Section net.
Context `{UU : !UuidLib} `{UL : !UuidLaw} {B : Type} `{BK : !Backend B} `{BL : !BackendLaw B}.
Implicit Types (x : net B) (w : World) (c : streamImpl) (y : Sys B) (v : Server) (Q : list incomingItem) (C : list LogRecord)
  (A : list ClientRecord).

(** The highest number that the service has received of a stream. *)
Definition received_top (id : bytes) Q : Z := top_of (it_streamSeq <$> items_of id Q).

(** What reading the service at its head brings is what it has received. *)
Definition tail_honest (id : bytes) Q (W : Z) (tail : result client_error (list (Z * bytes))) : Prop :=
  forall sent payload, tail = Ok sent -> tail_lookup W sent = Some payload -> mkItem id W payload ∈ Q.

(** One step of the client, of the service or of the connection.  Three things
    the code does not see to are conditions of the steps: appends of the client
    do not overlap, disks work, and the service answers a hello when it has
    committed what it has received of the stream, so that no record of an
    earlier session is still on its way to the log.  The code answers at once;
    [duplicate_in_flight_loses_record] of WalService.v shows a record that is
    lost when such a record is sent again.  A crash of the client takes from the
    accepted records those that the service has not received and that are above
    the last one found in the local log. *)
Inductive net_step : net B -> net B -> Prop :=
| ns_append w c y v Q C A s out acks payload w' c' r :
    Z.of_nat (length payload) < 2 ^ 32 -> cl_localSeq c + 1 < name_limit -> Append w c payload = Some (w', c', r) ->
    net_step (mkNet w c y v Q C A s out acks)
      (mkNet w' c' y v Q C (match r with Ok seq => A ++ [client_record (cl_streamID c) seq payload] | Err _ => A end) s out acks)
| ns_wait w c y v Q C A s out acks seq level w' r :
    wait_begin w c seq level = (w', r) -> net_step (mkNet w c y v Q C A s out acks) (mkNet w' c y v Q C A s out acks)
| ns_wait_for w c y v Q C A s out acks seq level c' r :
    waitFor c seq level = (c', r) -> net_step (mkNet w c y v Q C A s out acks) (mkNet w c' y v Q C A s out acks)
| ns_forget w c y v Q C A s out acks target :
    net_step (mkNet w c y v Q C A s out acks) (mkNet w (removeWaiterLocked c target) y v Q C A s out acks)
| ns_replay w c y v Q C A r replay next out acks :
    net_step (mkNet w c y v Q C A (Streaming (r :: replay) next) out acks)
      (mkNet w c y v Q C A (Streaming replay next) (out ++ [r]) acks)
| ns_send w c y v Q C A next out acks r next' :
    send_next c next = Some (r, next') ->
    net_step (mkNet w c y v Q C A (Streaming [] next) out acks)
      (mkNet w c y v Q C A (Streaming [] next') (out ++ [r]) acks)
| ns_receive w c y v Q C A replay next r out acks v' res :
    append_record v (cl_streamID c) (cr_StreamSeq r) (cr_Payload r) = (v', res) ->
    net_step (mkNet w c y v Q C A (Streaming replay next) (r :: out) acks)
      (match res with
       | Ok RecvQueued => mkNet w c y v' (Q ++ [client_item r]) C A (Streaming replay next) out acks
       | Ok RecvDuplicate => mkNet w c y v' Q C A (Streaming replay next) out acks
       | Ok RecvBlocked => mkNet w c y v' Q C A (Streaming replay next) (r :: out) acks
       | Err _ => mkNet w c y v' Q C A Idle [] []
       end)
| ns_server w c y v Q C A s out acks y' v' Q' C' :
    server_step (y, v, Q, C) (y', v', Q', C') -> items_of (cl_streamID c) Q' = items_of (cl_streamID c) Q ->
    net_step (mkNet w c y v Q C A s out acks) (mkNet w c y' v' Q' C' A s out acks)
| ns_forward w c y v Q C A replay next out acks a b v' W S :
    forward_acks v (cl_streamID c) a b = (v', Ok (Some (W, S))) ->
    net_step (mkNet w c y v Q C A (Streaming replay next) out acks)
      (mkNet w c y v' Q C A (Streaming replay next) out (acks ++ [(W, S)]))
| ns_ack w c y v Q C A replay next out W S acks w' c' told :
    handleAck w c W S = (w', c', told) ->
    net_step (mkNet w c y v Q C A (Streaming replay next) out ((W, S) :: acks))
      (mkNet w' c' y v Q C A (Streaming replay next) out acks)
| ns_hello w c y v Q C A y' v' W S :
    append_hello y v (cl_streamID c) = (y', v', Ok (W, S)) -> W = received_top (cl_streamID c) Q ->
    net_step (mkNet w c y v Q C A Idle [] []) (mkNet w c y' v' Q C A (Greeted W S) [] [])
| ns_greeted w c y v Q C A W S now tail w' c' told r :
    tail_honest (cl_streamID c) Q W tail -> handleHelloAck w c W S now tail = (w', c', told, r) ->
    net_step (mkNet w c y v Q C A (Greeted W S) [] [])
      (mkNet w' (session_hello c' r) y v Q C A
         (match r with
          | Ok _ => Streaming (records_to_replay c' W) (next_to_send (records_to_replay c' W) W)
          | Err _ => Idle
          end) [] [])
| ns_end w c y v Q C A s out acks :
    net_step (mkNet w c y v Q C A s out acks) (mkNet w c y v Q C A Idle [] [])
| ns_crash w c y v Q C A s out acks wc maxRetained maxSize opt w' c' :
    so_NoFsync opt = false -> crash w wc -> no_faults wc -> headers_intact wc (store_prefix (cl_streamID c)) ->
    Open wc (cl_streamID c) maxRetained maxSize opt = (w', Ok c') ->
    net_step (mkNet w c y v Q C A s out acks)
      (mkNet w' c' y v Q C (upto (Z.max (received_top (cl_streamID c) Q) (cl_localSeq c')) A) Idle [] []).

(** From a service with any history, which knows nothing of the stream, and a
    client that opens for the first time. *)
Inductive net_reach : net B -> Prop :=
| nr_start y v Q C w id maxRetained maxSize opt w' c :
    server_reach y v Q C -> items_of id Q = [] ->
    wf_uuid id -> no_faults w -> so_NoFsync opt = false -> no_segments w (store_prefix id) ->
    Open w id maxRetained maxSize opt = (w', Ok c) -> net_reach (mkNet w' c y v Q C [] Idle [] [])
| nr_step x x' : net_reach x -> net_step x x' -> net_reach x'.

(** ** The invariant *)

(** What a pair of watermarks promises of a stream. *)
Definition acked y C (id : bytes) (W S : Z) : Prop :=
  W <= top 0 (stream_of C id) /\ S <= top 0 (stream_of C id) /\
  forall r, r ∈ C -> lr_StreamID r = id -> lr_StreamSeq r <= S -> stored y r.

Definition ready c : Prop := cl_helloDone c = true /\ cl_helloErr c = None /\ cl_closed c = false.

Definition session_inv y C (id : bytes) (A1 A2 : list ClientRecord) (local : Z) (s : session) (out : list ClientRecord) : Prop :=
  match s with
  | Idle => out = []
  | Greeted W P => out = [] /\ W = top_of (cr_StreamSeq <$> A1) /\ acked y C id W P
  | Streaming replay next =>
    local = top_of (cr_StreamSeq <$> A1 ++ A2) /\
    exists rest, A2 = out ++ replay ++ rest /\ Forall (fun r => cr_StreamSeq r < next) (out ++ replay) /\
      Forall (fun r => next <= cr_StreamSeq r) rest /\
      top_of (cr_StreamSeq <$> A1) < next <= top_of (cr_StreamSeq <$> A1 ++ A2) + 1
  end.

(** [A1] has been received by the service, [A2] has not. *)
Record net_inv x (log : list ClientRecord) (d : nat) (A1 A2 : list ClientRecord) : Prop := {
  ni_client : client_inv (n_w x) (n_c x) log d;
  ni_server : server_inv (n_y x) (n_v x) (n_Q x) (n_C x);
  ni_split : n_A x = A1 ++ A2;
  ni_items : items_of (cl_streamID (n_c x)) (n_Q x) = client_item <$> A1;
  ni_sorted : StronglySorted Z.lt (cr_StreamSeq <$> A1 ++ A2);
  ni_ok : Forall (fun r => cr_StreamID r = cl_streamID (n_c x) /\ 0 < cr_StreamSeq r < name_limit /\
    Z.of_nat (length (cr_Payload r)) < 2 ^ 32) (A1 ++ A2);
  ni_log : Forall (fun r => r ∈ A1 ++ A2) log;
  ni_unsent : above (top_of (cr_StreamSeq <$> A1)) log = A2;
  ni_marks : acked (n_y x) (n_C x) (cl_streamID (n_c x)) (cl_witnessSeq (n_c x)) (cl_s3Seq (n_c x));
  ni_acks : Forall (fun a => acked (n_y x) (n_C x) (cl_streamID (n_c x)) a.1 a.2) (n_acks x);
  ni_local : cl_localSeq (n_c x) <= top_of (cr_StreamSeq <$> A1 ++ A2);
  ni_ready : ready (n_c x) -> cl_localSeq (n_c x) = top_of (cr_StreamSeq <$> A1 ++ A2);
  ni_session : session_inv (n_y x) (n_C x) (cl_streamID (n_c x)) A1 A2 (cl_localSeq (n_c x)) (n_session x) (n_out x);
}.

(** ** The service's side *)

Lemma server_step_grows y v Q C y' v' Q' C' :
  server_step (y, v, Q, C) (y', v', Q', C') -> exists R, C' = C ++ R.
Proof. intros HS. inversion HS; subst; solve [exists []; by rewrite app_nil_r|by eexists]. Qed.

Lemma committed_positive y v Q C r : server_inv y v Q C -> r ∈ C -> 0 < lr_StreamSeq r.
Proof.
  intros [_ _ [HE HF _]] Hr. rewrite Forall_forall in HF. destruct (HF (item_of r)) as (_ & [H _] & _); [|exact H].
  rewrite HE. apply elem_of_app. left. by apply list_elem_of_fmap_2.
Qed.

Lemma acked_step y C y' v' Q' C' R id W S :
  server_inv y' v' Q' C' -> C' = C ++ R -> stays C y y' -> acked y C id W S -> acked y' C' id W S.
Proof.
  intros HI -> HSt (HW & HS & HD). unfold acked. rewrite stream_of_app, top_app.
  pose proof (top_ge (top 0 (stream_of C id)) (stream_of R id)). split_and!; [lia|lia|].
  intros r Hr Hid Hle. pose proof (committed_positive _ _ _ _ r HI Hr) as Hpos.
  apply elem_of_app in Hr as [Hr|Hr]; [apply HSt; auto|]. exfalso.
  pose proof (queue_sorted _ _ _ _ id (vi_queue _ _ _ _ HI)) as HO. rewrite stream_of_app, fmap_app in HO.
  apply StronglySorted_app in HO as (HO & _). destruct (top_cases 0 (stream_of C id)) as [Ht|(r0 & Hr0 & Ht)]; [lia|].
  specialize (HO (lr_StreamSeq r0) (lr_StreamSeq r)). assert (lr_StreamSeq r0 < lr_StreamSeq r); [|lia].
  apply HO; apply list_elem_of_fmap_2; [done|]. by apply list_elem_of_filter.
Qed.

Lemma acked_zero y v Q C id : server_inv y v Q C -> acked y C id 0 0.
Proof.
  intros HI. pose proof (top_ge 0 (stream_of C id)). split_and!; [done|done|].
  intros r Hr _ Hle. pose proof (committed_positive _ _ _ _ r HI Hr). lia.
Qed.

Lemma acked_max y C id W S W' S' : acked y C id W S -> acked y C id W' S' -> acked y C id (Z.max W W') (Z.max S S').
Proof.
  intros (H1 & H2 & H3) (K1 & K2 & K3). split_and!; [lia|lia|]. intros r Hr Hid Hle.
  destruct (Z.max_spec S S') as [[_ HE]|[_ HE]]; rewrite HE in Hle; auto.
Qed.

(** What the service tells is so. *)
Lemma state_acked y v Q C id st :
  server_inv y v Q C -> wf_uuid id -> sv_streams v !! uuid_String id = Some st ->
  acked y C id (ws_witnessSeq st) (ws_s3Seq st).
Proof.
  intros HI Hid Hs. destruct (vi_states _ _ _ _ HI _ _ Hs) as (id' & Hid' & HE & H1 & H2 & H3).
  by apply uuid_inj in HE as <-.
Qed.

Lemma top_committed y v Q C id : server_inv y v Q C -> top 0 (stream_of C id) <= received_top id Q.
Proof.
  intros [_ _ [HE _ _]]. unfold received_top. destruct (top_cases 0 (stream_of C id)) as [->|(r & Hr & ->)]; [apply top_of_nonneg|].
  apply top_of_elem. rewrite HE, items_of_app, fmap_app, items_of_records. apply elem_of_app. left. by apply list_elem_of_fmap_2.
Qed.

(** ** The client's side *)

Lemma sorted_upto n A1 A2 :
  StronglySorted Z.lt (cr_StreamSeq <$> A1 ++ A2) -> Forall (fun r => 0 < cr_StreamSeq r) (A1 ++ A2) ->
  n = top_of (cr_StreamSeq <$> A1) -> upto n (A1 ++ A2) = A1 /\ above n (A1 ++ A2) = A2.
Proof.
  intros HS HF ->. rewrite fmap_app in HS. apply StronglySorted_app in HS as (HS & _ & _).
  assert (H1 : Forall (fun r => cr_StreamSeq r <= top_of (cr_StreamSeq <$> A1)) A1).
  { apply Forall_forall. intros r Hr. apply top_of_elem. by apply list_elem_of_fmap_2. }
  assert (H2 : Forall (fun r => top_of (cr_StreamSeq <$> A1) < cr_StreamSeq r) A2).
  { apply Forall_forall. intros r Hr. destruct (top_of_cases (cr_StreamSeq <$> A1)) as [->|Hin].
    - apply Forall_app in HF as [_ HF]. rewrite Forall_forall in HF. auto.
    - apply HS; [done|]. by apply list_elem_of_fmap_2. }
  rewrite above_app, above_none, above_all by done. split; [|done]. unfold upto. rewrite filter_app.
  rewrite filter_all by (by apply Forall_forall). rewrite filter_none, app_nil_r; [done|].
  intros r Hr. rewrite Forall_forall in H2. specialize (H2 r Hr). lia.
Qed.

Lemma find_above n (l : list ClientRecord) : List.find (fun r => n <=? cr_StreamSeq r) l = head (above (n - 1) l).
Proof.
  unfold above. induction l as [|r l IH]; [done|]. cbn [List.find]. rewrite filter_cons.
  destruct (n <=? cr_StreamSeq r) eqn:E; zify_bool; [rewrite decide_True by lia|rewrite decide_False by lia]; done.
Qed.

Lemma sorted_unique A r r' :
  StronglySorted Z.lt (cr_StreamSeq <$> A) -> r ∈ A -> r' ∈ A -> cr_StreamSeq r = cr_StreamSeq r' -> r = r'.
Proof.
  induction A as [|a A IH]; intros HS Hr Hr' HE; [by apply not_elem_of_nil in Hr|].
  apply StronglySorted_inv in HS as [HS HF]. rewrite Forall_forall in HF.
  assert (HX : forall z, z ∈ A -> cr_StreamSeq a < cr_StreamSeq z) by (intros z Hz; by apply HF, list_elem_of_fmap_2).
  apply elem_of_cons in Hr as [->|Hr], Hr' as [->|Hr']; [done| | |by apply IH].
  - specialize (HX _ Hr'). lia.
  - specialize (HX _ Hr). lia.
Qed.

Lemma top_of_lt n A : 0 < n -> Forall (fun r => cr_StreamSeq r < n) A -> top_of (cr_StreamSeq <$> A) < n.
Proof.
  intros Hn HF. destruct (top_of_cases (cr_StreamSeq <$> A)) as [->|Hin]; [done|].
  apply list_elem_of_fmap in Hin as (r & -> & Hr). rewrite Forall_forall in HF. auto.
Qed.

Lemma u64_next n : 0 <= n < name_limit -> u64 (n + 1) = n + 1.
Proof. intros Hn. apply Z.mod_small. unfold name_limit in Hn. lia. Qed.

(** ** Every step keeps the invariant *)

Definition same_marks c c' : Prop := cl_witnessSeq c' = cl_witnessSeq c /\ cl_s3Seq c' = cl_s3Seq c.

Lemma ready_same c c' : same_client c c' -> ready c' -> ready c.
Proof. intros (_ & _ & Hc & Hd & He & _) (H1 & H2 & H3). split_and!; congruence. Qed.

Lemma keep_client w c y v Q C A s out acks log d A1 A2 w' c' d' :
  net_inv (mkNet w c y v Q C A s out acks) log d A1 A2 -> client_inv w' c' log d' -> same_client c c' -> same_marks c c' ->
  net_inv (mkNet w' c' y v Q C A s out acks) log d' A1 A2.
Proof.
  intros [] HI HC [HW HS]. pose proof HC as (Hid & HL & _). net_cbn_all.
  split; net_cbn; rewrite ?Hid, ?HL, ?HW, ?HS; try done.
  intros HR. apply ni_ready0. by eapply ready_same.
Qed.

Lemma keep_append w c y v Q C A s out acks log d A1 A2 payload w' c' r :
  net_inv (mkNet w c y v Q C A s out acks) log d A1 A2 ->
  Z.of_nat (length payload) < 2 ^ 32 -> cl_localSeq c + 1 < name_limit -> Append w c payload = Some (w', c', r) ->
  exists log' d' A2',
    net_inv (mkNet w' c' y v Q C (match r with Ok seq => A ++ [client_record (cl_streamID c) seq payload] | Err _ => A end) s out acks)
      log' d' A1 A2'.
Proof.
  intros HN Hpl HL HE. pose proof HN as []. net_cbn_all.
  pose proof (Append_ok _ _ _ _ _ _ _ _ ni_client0 Hpl HL HE) as HO.
  destruct r as [seq|e]; [|destruct HO as [-> ->]; by exists log, d, A2].
  destruct HO as (Hs & HI & Hd & He & Hc & HLs & H3 & HW & (Hid & _)).
  change (cl_streamID (set_localSeq c seq)) with (cl_streamID c) in Hid.
  pose proof (ni_ready0 (conj Hd (conj He Hc))) as HTop. set (rec := client_record (cl_streamID c) seq payload) in *.
  assert (HT1 : top_of (cr_StreamSeq <$> A1) <= top_of (cr_StreamSeq <$> A1 ++ A2)) by (rewrite fmap_app, top_of_app; lia).
  assert (HT' : top_of (cr_StreamSeq <$> A1 ++ A2 ++ [rec]) = seq).
  { rewrite app_assoc, fmap_app, top_of_app. change (top_of (cr_StreamSeq <$> [rec])) with (Z.max seq 0).
    pose proof (top_of_nonneg (cr_StreamSeq <$> A1 ++ A2)). lia. }
  pose proof (top_of_nonneg (cr_StreamSeq <$> A1)) as H0.
  exists (log ++ [rec]), d, (A2 ++ [rec]).
  split; net_cbn; rewrite ?Hid, ?H3, ?HW, ?HLs, ?HT'; try done.
  - by rewrite ni_split0, <-app_assoc.
  - rewrite app_assoc, fmap_app. apply StronglySorted_app. split_and!; [|done|repeat constructor].
    intros a b Ha Hb%list_elem_of_singleton. subst b. apply top_of_elem in Ha. cbn. lia.
  - rewrite app_assoc. apply Forall_app. split; [done|]. apply Forall_singleton. cbn. split_and!; [done|lia|lia|done].
  - apply Forall_app. split.
    + eapply Forall_impl; [exact ni_log0|]. intros q Hq. rewrite app_assoc. apply elem_of_app. by left.
    + apply Forall_singleton. rewrite app_assoc. apply elem_of_app. right. left.
  - rewrite above_app, ni_unsent0. f_equal. apply above_all, Forall_singleton. cbn. lia.
  - unfold session_inv in *. destruct s as [|W P|replay next]; [done|done|].
    destruct ni_session0 as (HLo & rest & HA2 & HF1 & HF2 & HN1). rewrite HT'. split; [done|].
    exists (rest ++ [rec]). rewrite HA2, <-!app_assoc. split_and!; try done; [|lia|lia].
    apply Forall_app. split; [done|]. apply Forall_singleton. cbn. lia.
Qed.

(** *** Sending and receiving *)

Lemma keep_replay w c y v Q C A r replay next out acks log d A1 A2 :
  net_inv (mkNet w c y v Q C A (Streaming (r :: replay) next) out acks) log d A1 A2 ->
  net_inv (mkNet w c y v Q C A (Streaming replay next) (out ++ [r]) acks) log d A1 A2.
Proof.
  intros []. net_cbn_all. destruct ni_session0 as (HL & rest & HA & HF & HR). split; try done. net_cbn.
  split; [done|]. exists rest. by rewrite <-!app_assoc.
Qed.

Lemma s3_received y v Q C c A1 :
  server_inv y v Q C -> items_of (cl_streamID c) Q = client_item <$> A1 ->
  acked y C (cl_streamID c) (cl_witnessSeq c) (cl_s3Seq c) -> cl_s3Seq c <= top_of (cr_StreamSeq <$> A1).
Proof.
  intros HI HE (_ & HS & _). pose proof (top_committed _ _ _ _ (cl_streamID c) HI) as HT. unfold received_top in HT.
  rewrite HE, <-list_fmap_compose in HT. change (it_streamSeq ∘ client_item) with cr_StreamSeq in HT. lia.
Qed.

Lemma keep_send w c y v Q C A next out acks log d A1 A2 r next' :
  net_inv (mkNet w c y v Q C A (Streaming [] next) out acks) log d A1 A2 -> send_next c next = Some (r, next') ->
  net_inv (mkNet w c y v Q C A (Streaming [] next') (out ++ [r]) acks) log d A1 A2.
Proof.
  intros HN HE. pose proof HN as []. net_cbn_all. destruct ni_session0 as (HL & rest & HA & HF & HR & HB).
  pose proof (s3_received _ _ _ _ _ _ ni_server0 ni_items0 ni_marks0) as H3.
  unfold send_next in HE. rewrite find_above, (ci_retained _ _ _ _ ni_client0), above_above in HE by lia.
  rewrite <-(above_above (top_of (cr_StreamSeq <$> A1)) (next - 1) log), ni_unsent0, HA in HE by lia.
  cbn [app] in HF, HE. rewrite app_nil_r in HF.
  rewrite above_app, above_none, above_all in HE.
  2:{ eapply Forall_impl; [exact HR|]. cbn. lia. }
  2:{ eapply Forall_impl; [exact HF|]. cbn. lia. }
  destruct rest as [|r0 rest]; [done|]. cbn in HE. injection HE as -> <-.
  rewrite Forall_forall in ni_ok0. assert (Hin : r ∈ A1 ++ A2) by (rewrite HA; apply elem_of_app; right; apply elem_of_app; right; left).
  destruct (ni_ok0 r Hin) as (_ & [Hr0 Hr1] & _). rewrite u64_next by lia.
  apply Forall_cons in HR as [Hr HR].
  assert (Htop : cr_StreamSeq r <= top_of (cr_StreamSeq <$> A1 ++ A2)) by (apply top_of_elem; by apply list_elem_of_fmap_2).
  assert (HSo : Forall (fun q => cr_StreamSeq r + 1 <= cr_StreamSeq q) rest).
  { apply Forall_forall. intros q Hq. rewrite HA, !fmap_app in ni_sorted0. apply StronglySorted_app in ni_sorted0 as (_ & _ & HS).
    apply StronglySorted_app in HS as (_ & _ & HS). cbn in HS. apply StronglySorted_inv in HS as [_ HS]. rewrite Forall_forall in HS.
    specialize (HS (cr_StreamSeq q) ltac:(by apply list_elem_of_fmap_2)). lia. }
  split; try done; [by apply Forall_forall|]. net_cbn. split; [done|]. exists rest. cbn [app]. rewrite HA, <-!app_assoc, app_nil_r. split_and!; try done.
  - apply Forall_app. split; [eapply Forall_impl; [exact HF|]; cbn; lia|]. apply Forall_singleton. lia.
  - lia.
  - rewrite HA in Htop. cbn [app] in *. lia.
Qed.

Lemma keep_end w c y v Q C A s out acks log d A1 A2 :
  net_inv (mkNet w c y v Q C A s out acks) log d A1 A2 -> net_inv (mkNet w c y v Q C A Idle [] []) log d A1 A2.
Proof. intros []. by split. Qed.

(** The service's watermark is below what is on its way. *)
Lemma keep_receive w c y v Q C A replay next r out acks v' res log d A1 A2 :
  net_inv (mkNet w c y v Q C A (Streaming replay next) (r :: out) acks) log d A1 A2 ->
  append_record v (cl_streamID c) (cr_StreamSeq r) (cr_Payload r) = (v', res) ->
  exists A1' A2', net_inv
      (match res with
       | Ok RecvQueued => mkNet w c y v' (Q ++ [client_item r]) C A (Streaming replay next) out acks
       | Ok RecvDuplicate => mkNet w c y v' Q C A (Streaming replay next) out acks
       | Ok RecvBlocked => mkNet w c y v' Q C A (Streaming replay next) (r :: out) acks
       | Err _ => mkNet w c y v' Q C A Idle [] []
       end) log d A1' A2'.
Proof.
  intros HN HE. pose proof HN as []. net_cbn_all. destruct ni_session0 as (HL & rest & HA & HF & HR & HB).
  rewrite Forall_forall in ni_ok0.
  assert (Hin : r ∈ A1 ++ A2) by (rewrite HA; apply elem_of_app; right; left).
  destruct (ni_ok0 r Hin) as (Hrid & Hr0 & Hrp).
  assert (HItem : mkItem (cl_streamID c) (cr_StreamSeq r) (cr_Payload r) = client_item r) by (unfold client_item; by rewrite Hrid).
  assert (HLt : Forall (fun q => cr_StreamSeq q < cr_StreamSeq r) A1).
  { apply Forall_forall. intros q Hq. rewrite fmap_app in ni_sorted0. apply StronglySorted_app in ni_sorted0 as (HS & _).
    apply HS; apply list_elem_of_fmap_2; [done|]. rewrite HA. left. }
  pose proof (top_of_lt (cr_StreamSeq r) A1 (proj1 Hr0) HLt) as HT0.
  assert (Hfresh : fresh_item Q (client_item r)).
  { split.
    - split_and!; cbn; [rewrite Hrid; apply (ci_id _ _ _ _ ni_client0)|lia|unfold name_limit in *; lia|done].
    - cbn [it_streamID client_item]. rewrite Hrid, ni_items0, Forall_fmap. exact HLt. }
  pose proof (inv_record y v Q C _ _ _ v' res ni_server0 HE) as HI. rewrite HItem in HI. specialize (HI (fun _ => Hfresh)).
  destruct res as [[]|e]; cbn [received_of] in HI.
  - exfalso. unfold append_record in HE. destruct (sv_streams v !! _) as [st|] eqn:Es; [|done].
    destruct (ws_commitErr st); [done|]. destruct (_ <=? _) eqn:Ele; [|by destruct (1024 <=? _)]. zify_bool.
    destruct (state_acked _ _ _ _ _ _ ni_server0 (ci_id _ _ _ _ ni_client0) Es) as (HW & _).
    pose proof (top_committed _ _ _ _ (cl_streamID c) ni_server0) as HT. unfold received_top in HT.
    rewrite ni_items0, <-list_fmap_compose in HT. change (it_streamSeq ∘ client_item) with cr_StreamSeq in HT.
    lia.
  - exists A1, A2. split; try done; [by apply Forall_forall|]. net_cbn. split; [done|]. by exists rest.
  - cbn [app] in HA. set (A2' := out ++ replay ++ rest) in *. exists (A1 ++ [r]), A2'.
    assert (HAA : (A1 ++ [r]) ++ A2' = A1 ++ A2) by (by rewrite HA, <-app_assoc).
    assert (HT1 : top_of (cr_StreamSeq <$> A1 ++ [r]) = cr_StreamSeq r).
    { rewrite fmap_app, top_of_app. change (top_of (cr_StreamSeq <$> [r])) with (Z.max (cr_StreamSeq r) 0).
      lia. }
    split; net_cbn; rewrite ?HAA; try done.
    + unfold items_of in *. rewrite filter_app, ni_items0, filter_cons_True by (by cbn). by rewrite fmap_app.
    + by apply Forall_forall.
    + rewrite HT1. rewrite <-(above_above (top_of (cr_StreamSeq <$> A1)) (cr_StreamSeq r) log), ni_unsent0, HA by lia.
      change (r :: A2') with ([r] ++ A2'). rewrite above_app, above_none, above_all; [done| |by apply Forall_singleton].
      rewrite HA, fmap_app in ni_sorted0. apply StronglySorted_app in ni_sorted0 as (_ & _ & HS). cbn in HS.
      apply StronglySorted_inv in HS as [_ HS]. by rewrite Forall_fmap in HS.
    + unfold session_inv. rewrite HAA, HT1. split; [done|]. exists rest. apply Forall_cons in HF as [Hr HF]. split_and!; try done. lia.
  - exists A1, A2. split; try done. by apply Forall_forall.
Qed.

(** *** The service *)

Lemma session_mono y C y' C' id A1 A2 local s out :
  (forall W P, acked y C id W P -> acked y' C' id W P) ->
  session_inv y C id A1 A2 local s out -> session_inv y' C' id A1 A2 local s out.
Proof. intros HM. unfold session_inv. destruct s; naive_solver. Qed.

Lemma keep_service w c y v Q C A s out acks log d A1 A2 y' v' Q' C' R :
  net_inv (mkNet w c y v Q C A s out acks) log d A1 A2 -> server_inv y' v' Q' C' -> C' = C ++ R -> stays C y y' ->
  items_of (cl_streamID c) Q' = items_of (cl_streamID c) Q ->
  net_inv (mkNet w c y' v' Q' C' A s out acks) log d A1 A2.
Proof.
  intros [] HI HC HSt HQ. net_cbn_all.
  assert (HM : forall W P, acked y C (cl_streamID c) W P -> acked y' C' (cl_streamID c) W P) by (intros; by eapply acked_step).
  split; net_cbn; try done; [by rewrite HQ|by apply HM| |by eapply session_mono].
  eapply Forall_impl; [exact ni_acks0|]. intros a. apply HM.
Qed.

Lemma keep_forward w c y v Q C A replay next out acks log d A1 A2 a b v' W S :
  net_inv (mkNet w c y v Q C A (Streaming replay next) out acks) log d A1 A2 ->
  forward_acks v (cl_streamID c) a b = (v', Ok (Some (W, S))) ->
  net_inv (mkNet w c y v' Q C A (Streaming replay next) out (acks ++ [(W, S)])) log d A1 A2.
Proof.
  intros HN HE. pose proof HN as []. net_cbn_all. pose proof (inv_forward _ _ _ _ _ _ _ _ _ ni_server0 HE) as HI.
  split; net_cbn; try done. apply Forall_app. split; [done|]. apply Forall_singleton. cbn.
  unfold forward_acks in HE. destruct (sv_streams v !! _) as [st|] eqn:Es; [|done]. destruct (ws_commitErr st); [done|].
  destruct (_ && _ && _); [done|]. injection HE as _ <- <-. by eapply state_acked, Es; [|destruct ni_client0].
Qed.

Lemma keep_ack w c y v Q C A replay next out W S acks w' c' told log d A1 A2 :
  net_inv (mkNet w c y v Q C A (Streaming replay next) out ((W, S) :: acks)) log d A1 A2 ->
  handleAck w c W S = (w', c', told) ->
  exists log' d', net_inv (mkNet w' c' y v Q C A (Streaming replay next) out acks) log' d' A1 A2.
Proof.
  intros HN HE. pose proof HN as []. net_cbn_all. apply Forall_cons in ni_acks0 as [Hack ni_acks0]. cbn [fst snd] in Hack.
  pose proof ni_session0 as (HL & _). pose proof (s3_received _ _ _ _ _ _ ni_server0 ni_items0 ni_marks0) as H3.
  assert (HSle : S <= top_of (cr_StreamSeq <$> A1)).
  { pose proof (top_committed _ _ _ _ (cl_streamID c) ni_server0) as HT. unfold received_top in HT.
    rewrite ni_items0, <-list_fmap_compose in HT. change (it_streamSeq ∘ client_item) with cr_StreamSeq in HT.
    destruct Hack as (_ & ? & _). lia. }
  assert (HT1 : top_of (cr_StreamSeq <$> A1) <= top_of (cr_StreamSeq <$> A1 ++ A2)) by (rewrite fmap_app, top_of_app; lia).
  destruct (handleAck_ok w c log d W S w' c' told ni_client0 ltac:(lia) HE) as (log' & d' & HI & [HTs HTa] & H3' & HW' & HC & _).
  pose proof HC as (Hid & HLc & _). exists log', d'.
  split; net_cbn; rewrite ?Hid, ?HLc, ?H3', ?HW'; try done.
  - rewrite Forall_forall in ni_log0 |- *. intros r Hr. apply ni_log0. by eapply elem_of_sublist.
  - rewrite <-(above_above (cl_s3Seq c')), HTa, above_above by lia. exact ni_unsent0.
  - by apply acked_max.
Qed.

Lemma keep_hello w c y v Q C A y' v' W S log d A1 A2 :
  net_inv (mkNet w c y v Q C A Idle [] []) log d A1 A2 ->
  append_hello y v (cl_streamID c) = (y', v', Ok (W, S)) -> W = received_top (cl_streamID c) Q ->
  net_inv (mkNet w c y' v' Q C A (Greeted W S) [] []) log d A1 A2.
Proof.
  intros HN HE HW. destruct (WalServerInv.inv_hello _ _ _ _ _ _ _ _ (ni_server _ _ _ _ _ HN) HE) as [HI HSt]. net_cbn_all.
  pose proof (ci_id _ _ _ _ (ni_client _ _ _ _ _ HN)) as Hid. net_cbn_all.
  pose proof (keep_service _ _ _ _ _ _ _ _ _ _ _ _ _ _ y' v' Q C [] HN HI (eq_sym (app_nil_r C)) HSt eq_refl) as [].
  net_cbn_all. split; net_cbn; try done. split_and!; [done| |].
  - rewrite HW. unfold received_top. rewrite ni_items0, <-list_fmap_compose. done.
  - unfold append_hello in HE. destruct (negb _); [done|].
    destruct (getOrCreateState y v (cl_streamID c)) as [[y1 v1] st] eqn:EG. injection HE as <- <- <- <-.
    destruct (inv_getOrCreateState _ _ _ _ _ _ _ _ Hid (ni_server _ _ _ _ _ HN) EG) as (HI1 & Hs & _). by eapply state_acked.
Qed.

(** *** The handshake *)

Lemma last_top A : StronglySorted Z.lt (cr_StreamSeq <$> A) -> Forall (fun r => 0 < cr_StreamSeq r) A ->
  forall r, last A = Some r -> top_of (cr_StreamSeq <$> A) = cr_StreamSeq r.
Proof.
  intros HS HF r Hl. apply last_Some in Hl as [l ->]. rewrite fmap_app in *. apply StronglySorted_app in HS as (HS & _).
  apply Forall_app in HF as [_ [HF _]%Forall_cons].
  rewrite top_of_app. change (top_of (cr_StreamSeq <$> [r])) with (Z.max (cr_StreamSeq r) 0).
  assert (top_of (cr_StreamSeq <$> l) < cr_StreamSeq r); [|lia]. apply top_of_lt; [done|]. apply Forall_forall.
  intros q Hq. apply HS; [by apply list_elem_of_fmap_2|left].
Qed.

(** The replay begins with what the service has not received. *)
Lemma replay_session y C id A1 A2 local (W : Z) :
  StronglySorted Z.lt (cr_StreamSeq <$> A1 ++ A2) -> Forall (fun r => 0 < cr_StreamSeq r < name_limit) (A1 ++ A2) ->
  W = top_of (cr_StreamSeq <$> A1) -> 0 <= W < name_limit -> local = top_of (cr_StreamSeq <$> A1 ++ A2) ->
  session_inv y C id A1 A2 local (Streaming A2 (next_to_send A2 W)) [].
Proof.
  intros HS HF HW HWl HL. split; [done|]. exists []. cbn [app]. rewrite app_nil_r. rewrite fmap_app in HS. pose proof HS as HS0.
  apply StronglySorted_app in HS as (HS & _ & HS2). pose proof HF as HF0. apply Forall_app in HF as [_ HF].
  assert (HP : Forall (fun r => 0 < cr_StreamSeq r) A2) by (eapply Forall_impl; [exact HF|]; cbn; lia).
  assert (HT : top_of (cr_StreamSeq <$> A1 ++ A2) = Z.max W (top_of (cr_StreamSeq <$> A2))) by (by rewrite fmap_app, top_of_app, HW).
  unfold next_to_send. destruct (last A2) as [r|] eqn:El.
  - pose proof (last_top A2 HS2 HP r El) as Hr. assert (Hin : r ∈ A2) by (apply last_Some in El as [? ->]; apply elem_of_app; right; left).
    rewrite Forall_forall in HF. rewrite u64_next by (specialize (HF r Hin); lia).
    assert (HWr : W < cr_StreamSeq r).
    { destruct (top_of_cases (cr_StreamSeq <$> A1)) as [H0|Hi]; [rewrite HW, H0; apply (HF r Hin)|]. rewrite HW.
      apply HS; [done|]. by apply list_elem_of_fmap_2. }
    split_and!; [done| |constructor|lia|lia]. apply Forall_forall. intros q Hq.
    assert (cr_StreamSeq q <= top_of (cr_StreamSeq <$> A2)); [|lia]. apply top_of_elem. by apply list_elem_of_fmap_2.
  - apply last_None in El as ->. rewrite u64_next by done. cbn in HT. split_and!; [done|constructor|constructor|lia|].
    rewrite HT. lia.
Qed.

Lemma session_hello_greeted c r :
  cl_streamID (session_hello c r) = cl_streamID c /\ cl_witnessSeq (session_hello c r) = cl_witnessSeq c.
Proof. unfold session_hello, hello_once. destruct r, (cl_helloDone c) eqn:E; cbn [cl_helloDone set_hello]; by rewrite ?E. Qed.

(** A failed handshake leaves a client that was not ready so. *)
Lemma session_hello_err c e : ready (session_hello c (Err e)) -> ready c.
Proof.
  unfold session_hello, hello_once. destruct (cl_helloDone c) eqn:E; [done|]. intros (_ & H & _). done.
Qed.

Lemma keep_greeted w c y v Q C A W S now tail w' c' told r log d A1 A2 :
  net_inv (mkNet w c y v Q C A (Greeted W S) [] []) log d A1 A2 ->
  tail_honest (cl_streamID c) Q W tail -> handleHelloAck w c W S now tail = (w', c', told, r) ->
  exists log' d', net_inv (mkNet w' (session_hello c' r) y v Q C A
         (match r with
          | Ok _ => Streaming (records_to_replay c' W) (next_to_send (records_to_replay c' W) W)
          | Err _ => Idle
          end) [] []) log' d' A1 A2.
Proof.
  intros HN HH HE. pose proof HN as []. net_cbn_all. destruct ni_session0 as (_ & HW & Hack).
  destruct (session_hello_greeted c' r) as [HX1 HX2]. destruct (session_hello_same c' r) as [HX3 HX4].
  pose proof (s3_received _ _ _ _ _ _ ni_server0 ni_items0 ni_marks0) as H3.
  assert (HWl : 0 <= W < name_limit).
  { rewrite HW. split; [apply top_of_nonneg|]. destruct (top_of_cases (cr_StreamSeq <$> A1)) as [->|Hin]; [done|].
    apply list_elem_of_fmap in Hin as (q & -> & Hq). rewrite Forall_forall in ni_ok0. apply ni_ok0, elem_of_app. by left. }
  assert (HSW : S <= W).
  { pose proof (top_committed _ _ _ _ (cl_streamID c) ni_server0) as HT. unfold received_top in HT.
    rewrite ni_items0, <-list_fmap_compose in HT. change (it_streamSeq ∘ client_item) with cr_StreamSeq in HT.
    destruct Hack as (_ & ? & _). lia. }
  pose proof (handleHelloAck_ok w c log d W S now tail w' c' told r ni_client0 HWl ltac:(lia) HSW HE) as HO.
  destruct r as [u|e].
  2:{ destruct HO as [-> ->]. exists log, d. split; net_cbn; rewrite ?HX1, ?HX2, ?HX3, ?HX4; try done.
      - by apply session_hello_inv.
      - intros HR. apply ni_ready0. by eapply session_hello_err. }
  destruct HO as (log0 & log' & d' & HI & [HTs HTa] & H3' & HW' & Hdone & HG & HC).
  assert (HC' : log0 = log /\ cl_localSeq c' = Z.max (cl_localSeq c) W).
  { destruct HC as [?|(_ & _ & (q & sent & payload & Hq & Hqs & -> & Hlk & Hne))]; [done|]. exfalso. apply Hne.
    pose proof (HH sent payload eq_refl Hlk) as Hin.
    assert (Hin2 : mkItem (cl_streamID c) W payload ∈ items_of (cl_streamID c) Q) by (by apply list_elem_of_filter).
    rewrite ni_items0 in Hin2. apply list_elem_of_fmap in Hin2 as (q' & Hq' & Hin2).
    assert (q = q') as ->; [|by injection Hq']. apply (sorted_unique (A1 ++ A2)); [done| |apply elem_of_app; by left|].
    - rewrite (ci_retained _ _ _ _ ni_client0) in Hq. apply list_elem_of_filter in Hq as [_ Hq].
      rewrite Forall_forall in ni_log0. by apply ni_log0.
    - rewrite Hqs. by injection Hq'. }
  destruct HC' as [-> HLc]. clear HC. pose proof HG as (Hid & _).
  assert (HUn : above (top_of (cr_StreamSeq <$> A1)) log' = A2).
  { rewrite <-(above_above (cl_s3Seq c')), HTa, above_above by lia. exact ni_unsent0. }
  assert (HRe : records_to_replay c' W = A2).
  { unfold records_to_replay. change (above W (cl_retainedRecords c') = A2).
    rewrite (ci_retained _ _ _ _ HI), above_above by lia. by rewrite HW. }
  assert (HTop : cl_localSeq c' = top_of (cr_StreamSeq <$> A1 ++ A2)).
  { rewrite fmap_app, top_of_app in *. assert (top_of (cr_StreamSeq <$> A2) <= cl_localSeq c); [|lia].
    apply top_of_le; [apply (ci_local _ _ _ _ ni_client0)|]. rewrite Forall_fmap. apply Forall_forall. intros q Hq.
    rewrite <-ni_unsent0 in Hq. apply list_elem_of_filter in Hq as [_ Hq]. pose proof (ci_stream _ _ _ _ ni_client0) as HF.
    rewrite Forall_forall in HF. cbn. apply (HF q Hq). }
  exists log', d'. split; net_cbn; rewrite ?HX1, ?HX2, ?HX3, ?HX4, ?Hid, ?H3', ?HW', ?HTop; try done.
  - by apply session_hello_inv.
  - rewrite Forall_forall in ni_log0 |- *. intros q Hq. apply ni_log0. by eapply elem_of_sublist.
  - destruct (acked_max y C (cl_streamID c) (cl_witnessSeq c) (cl_s3Seq c) W S) as (_ & K2 & K3); [done..|].
    destruct Hack as (Ha1 & _). by split_and!.
  - rewrite HRe. apply replay_session; [done| |done|done|done].
    eapply Forall_impl; [exact ni_ok0|]. by intros q (_ & ? & _).
Qed.

(** *** Crashes of the client *)

Lemma above_take n k log : valid_log log -> exists m, above n (take k log) = take m (above n log).
Proof.
  intros HV. revert k. induction log as [|r log IH]; intros k; [exists 0%nat; by destruct k|]. destruct k as [|k]; [by exists 0%nat|].
  apply (valid_log_app [r]) in HV as [_ HV]. destruct (IH HV k) as [m Hm]. unfold above in *. cbn [take]. rewrite !filter_cons.
  case_decide; [|by exists m]. exists (S m). by rewrite Hm.
Qed.

(** What is left of the accepted records when the log is cut. *)
Lemma crash_accepted A1 log n :
  StronglySorted Z.lt (cr_StreamSeq <$> log) -> Forall (fun r => 0 < cr_StreamSeq r) log ->
  let t := top_of (cr_StreamSeq <$> A1) in
  upto (Z.max t (top_of (cr_StreamSeq <$> take n log))) (A1 ++ above t log) = A1 ++ above t (take n log).
Proof.
  intros HS HF t. set (q := top_of _). unfold upto at 1. rewrite filter_app. f_equal.
  - apply (upto_all (Z.max t q)), Forall_forall. intros r Hr.
    assert (cr_StreamSeq r <= t); [|lia]. apply top_of_elem. by apply list_elem_of_fmap_2.
  - rewrite <-(upto_take n log HS HF). fold q. unfold upto, above. rewrite !list_filter_filter. apply list_filter_iff. intros r. lia.
Qed.

Lemma keep_crash w c y v Q C A s out acks log d A1 A2 wc maxRetained maxSize opt w' c' :
  net_inv (mkNet w c y v Q C A s out acks) log d A1 A2 ->
  so_NoFsync opt = false -> crash w wc -> no_faults wc -> headers_intact wc (store_prefix (cl_streamID c)) ->
  Open wc (cl_streamID c) maxRetained maxSize opt = (w', Ok c') ->
  exists log' d' A2', net_inv
    (mkNet w' c' y v Q C (upto (Z.max (received_top (cl_streamID c) Q) (cl_localSeq c')) A) Idle [] []) log' d' A1 A2'.
Proof.
  intros [] Ho Hcr Hwc HH HE. net_cbn_all.
  destruct (open_crash w c log d wc maxRetained maxSize opt ni_client0 Ho Hcr Hwc HH) as (w1 & c1 & n & HE1 & _ & HI & HOp & HRt).
  rewrite HE in HE1. injection HE1 as <- <-. destruct HOp as (Hid & HL & H3 & HW & Hd & _).
  assert (HTop : received_top (cl_streamID c) Q = top_of (cr_StreamSeq <$> A1)).
  { unfold received_top. by rewrite ni_items0, <-list_fmap_compose. }
  destruct (sorted_upto (top_of (cr_StreamSeq <$> A1)) A1 A2 ni_sorted0) as [HU HAb]; [|done|].
  { eapply Forall_impl; [exact ni_ok0|]. intros q (_ & ? & _). lia. }
  destruct (above_take (top_of (cr_StreamSeq <$> A1)) n log (refines_valid _ _ _ _ (ci_store _ _ _ _ ni_client0))) as [m Hm].
  rewrite ni_unsent0 in Hm. set (A2' := take m A2) in *.
  assert (HSub : sublist (A1 ++ A2') (A1 ++ A2)) by (apply sublist_app; [done|apply sublist_take]).
  assert (HIn : Forall (fun r => r ∈ A1 ++ A2') (take n log)).
  { apply Forall_forall. intros r Hr. assert (Hr2 : r ∈ A1 ++ A2).
    { rewrite Forall_forall in ni_log0. apply ni_log0. eapply elem_of_sublist; [exact Hr|apply sublist_take]. }
    destruct (decide (top_of (cr_StreamSeq <$> A1) < cr_StreamSeq r)) as [Hlt|Hle].
    - apply elem_of_app. right. rewrite <-Hm. by apply list_elem_of_filter.
    - apply elem_of_app. left. rewrite <-HU. apply list_elem_of_filter. split; [lia|done]. }
  exists (take n log), n, A2'. split; net_cbn; rewrite ?Hid, ?H3, ?HW; try done.
  - rewrite HTop, ni_split0, HL, <-ni_unsent0, crash_accepted, Hm; [done| |].
    + by destruct (refines_valid _ _ _ _ (ci_store _ _ _ _ ni_client0)) as (_ & ? & _).
    + eapply Forall_impl; [apply (ci_stream _ _ _ _ ni_client0)|]. cbn. lia.
  - eapply sorted_sublist; [|exact ni_sorted0]. by apply fmap_sublist.
  - by eapply sublist_Forall.
  - by eapply acked_zero.
  - rewrite HL. apply top_of_le; [apply top_of_nonneg|]. rewrite Forall_fmap. eapply Forall_impl; [exact HIn|].
    intros r Hr. apply top_of_elem. by apply list_elem_of_fmap_2.
  - intros (Hd' & _). congruence.
Qed.

Lemma net_reach_inv x : net_reach x -> exists log d A1 A2, net_inv x log d A1 A2.
Proof.
  induction 1 as [y v Q C w id mr ms opt w' c HR HQ Hid Hw Ho Hn HE|x x' _ (log & d & A1 & A2 & HN) HS].
  - destruct (open_fresh w id mr ms opt Hid Hw Ho Hn) as (w1 & c1 & HE1 & HI & (H1 & H2 & H3 & H4 & H5 & H6)).
    rewrite HE in HE1. injection HE1 as <- <-. pose proof (server_reach_inv _ _ _ _ HR) as HSv.
    exists [], 0%nat, [], []. split; net_cbn; rewrite ?H1, ?H2, ?H3, ?H4; try done; try (by constructor); [by eapply acked_zero].
  - destruct HS.
    + destruct (keep_append _ _ _ _ _ _ _ _ _ _ _ _ _ _ _ _ _ _ HN H H0 H1) as (log' & d' & A2' & HN'). eauto.
    + destruct (wait_begin_ok _ _ _ _ _ _ _ _ (ni_client _ _ _ _ _ HN) H) as (d' & HI & _). exists log, d', A1, A2.
      eapply keep_client; [exact HN|exact HI|done|done].
    + destruct (waitFor_inv _ _ _ _ _ _ _ _ (ni_client _ _ _ _ _ HN) H) as [HI HC]. exists log, d, A1, A2.
      eapply keep_client; [exact HN|exact HI|exact HC|]. unfold waitFor in H. repeat case_match; by injection H as <- _.
    + exists log, d, A1, A2. eapply keep_client; [exact HN| |done|done]. apply inv_waiters. apply (ni_client _ _ _ _ _ HN).
    + exists log, d, A1, A2. by apply keep_replay.
    + exists log, d, A1, A2. by eapply keep_send.
    + destruct (keep_receive _ _ _ _ _ _ _ _ _ _ _ _ _ _ _ _ _ _ HN H) as (A1' & A2' & HN'). eauto.
    + destruct (server_step_grows _ _ _ _ _ _ _ _ H) as [R HC].
      destruct (server_step_inv _ _ H (ni_server _ _ _ _ _ HN)) as [HI HSt]. exists log, d, A1, A2.
      by eapply (keep_service _ _ _ _ _ _ _ _ _ _ _ _ _ _ _ _ _ _ R).
    + exists log, d, A1, A2. by eapply keep_forward.
    + destruct (keep_ack _ _ _ _ _ _ _ _ _ _ _ _ _ _ _ _ _ _ _ _ HN H) as (log' & d' & HN'). eauto.
    + exists log, d, A1, A2. by eapply keep_hello.
    + destruct (keep_greeted _ _ _ _ _ _ _ _ _ _ _ _ _ _ _ _ _ _ _ HN H H0) as (log' & d' & HN'). eauto.
    + exists log, d, A1, A2. by eapply keep_end.
    + destruct (keep_crash _ _ _ _ _ _ _ _ _ _ _ _ _ _ _ _ _ _ _ _ HN H H0 H1 H2 H3) as (log' & d' & A2' & HN'). eauto.
Qed.

(** ** What clients can rely on *)

Lemma items_committed id C : items_of id (item_of <$> C) = item_of <$> stream_of C id.
Proof.
  unfold items_of, stream_of. induction C as [|r C IH]; [done|]. cbn [fmap list_fmap]. rewrite !filter_cons.
  cbn [it_streamID item_of]. case_decide; cbn [fmap list_fmap]; [by f_equal|done].
Qed.

Lemma nothing_to_send x log d A1 A2 next :
  net_inv x log d A1 A2 -> n_session x = Streaming [] next -> n_out x = [] -> send_next (n_c x) next = None -> A2 = [].
Proof.
  destruct x as [w c y v Q C A s out acks]. intros [] Hs Ho HE. net_cbn_all. subst s out.
  destruct ni_session0 as (_ & rest & HA & _ & HR & HB). pose proof (s3_received _ _ _ _ _ _ ni_server0 ni_items0 ni_marks0) as H3.
  unfold send_next in HE. rewrite find_above, (ci_retained _ _ _ _ ni_client0), above_above in HE by lia.
  rewrite <-(above_above (top_of (cr_StreamSeq <$> A1)) (next - 1) log), ni_unsent0, HA in HE by lia. cbn [app] in HE, HA.
  rewrite above_all in HE by (eapply Forall_impl; [exact HR|]; cbn; lia). destruct rest; [by subst A2|done].
Qed.

(** C1: replication is in order, complete and without repetition.  Take a client
    and the service in any interleaving, with sessions that end and start again,
    crashes of the client and other clients, where the client's appends do not
    overlap, disks work and each hello is answered once the service has committed
    what it has received of the stream.  The records the service has committed
    for the stream are an initial part of those the client has accepted, in its
    order and each once; when a session has nothing more to send, nothing is on
    its way and the service has nothing left to commit, they are all of them. *)
Theorem replicated_in_order x :
  net_reach x ->
  (exists rest, client_item <$> n_A x = (item_of <$> stream_of (n_C x) (cl_streamID (n_c x))) ++ rest) /\
  forall next, n_session x = Streaming [] next -> n_out x = [] -> send_next (n_c x) next = None ->
    sv_batch (n_v x) = [] -> sv_incoming (n_v x) = [] ->
    client_item <$> n_A x = item_of <$> stream_of (n_C x) (cl_streamID (n_c x)).
Proof.
  intros (log & d & A1 & A2 & HN)%net_reach_inv. pose proof (qu_split _ _ _ _ (vi_queue _ _ _ _ (ni_server _ _ _ _ _ HN))) as HQ.
  pose proof (ni_items _ _ _ _ _ HN) as HI. rewrite HQ, items_of_app, items_committed in HI. rewrite (ni_split _ _ _ _ _ HN). split.
  - eexists. rewrite fmap_app, <-HI, <-app_assoc. done.
  - intros next Hs Ho HE Hb Hi. rewrite (nothing_to_send _ _ _ _ _ _ HN Hs Ho HE), app_nil_r, <-HI, Hb, Hi.
    by rewrite app_nil_r.
Qed.


End net.

(** ** A concrete system *)

Module NetRun.
Import Demo.

Definition state : Type := net Flaky.
Implicit Types x : state.

Definition first : state :=
  mkNet (ClientRun.start []).1 (ClientRun.start []).2 Run.s1.1 Run.s1.2 [] [] [] Idle [] [].

Definition hello x : state :=
  match append_hello (n_y x) (n_v x) (cl_streamID (n_c x)) with
  | (y, v, Ok (W, P)) => mkNet (n_w x) (n_c x) y v (n_Q x) (n_C x) (n_A x) (Greeted W P) [] []
  | _ => x
  end.
Definition greet x : state :=
  match n_session x with
  | Greeted W P =>
    let '(w, c, _, r) := handleHelloAck (n_w x) (n_c x) W P 0 (Ok []) in
    mkNet w (session_hello c r) (n_y x) (n_v x) (n_Q x) (n_C x) (n_A x)
      (match r with
       | Ok _ => Streaming (records_to_replay c W) (next_to_send (records_to_replay c W) W)
       | Err _ => Idle
       end) [] []
  | _ => x
  end.
Definition append (payload : bytes) x : state :=
  match Append (n_w x) (n_c x) payload with
  | Some (w, c, r) =>
    mkNet w c (n_y x) (n_v x) (n_Q x) (n_C x)
      (match r with Ok seq => n_A x ++ [client_record (cl_streamID (n_c x)) seq payload] | Err _ => n_A x end)
      (n_session x) (n_out x) (n_acks x)
  | None => x
  end.
Definition send x : state :=
  match n_session x with
  | Streaming [] next =>
    match send_next (n_c x) next with
    | Some (r, next) => mkNet (n_w x) (n_c x) (n_y x) (n_v x) (n_Q x) (n_C x) (n_A x) (Streaming [] next) (n_out x ++ [r]) (n_acks x)
    | None => x
    end
  | _ => x
  end.
Definition receive x : state :=
  match n_session x, n_out x with
  | Streaming replay next, r :: out =>
    let '(v, res) := append_record (n_v x) (cl_streamID (n_c x)) (cr_StreamSeq r) (cr_Payload r) in
    match res with
    | Ok RecvQueued => mkNet (n_w x) (n_c x) (n_y x) v (n_Q x ++ [client_item r]) (n_C x) (n_A x) (Streaming replay next) out (n_acks x)
    | Ok RecvDuplicate => mkNet (n_w x) (n_c x) (n_y x) v (n_Q x) (n_C x) (n_A x) (Streaming replay next) out (n_acks x)
    | Ok RecvBlocked => mkNet (n_w x) (n_c x) (n_y x) v (n_Q x) (n_C x) (n_A x) (Streaming replay next) (r :: out) (n_acks x)
    | Err _ => mkNet (n_w x) (n_c x) (n_y x) v (n_Q x) (n_C x) (n_A x) Idle [] []
    end
  | _, _ => x
  end.
Definition commit x : state :=
  match loop_tick (n_y x) (n_v x) with
  | Some (y, v, _) => mkNet (n_w x) (n_c x) y v (n_Q x) (n_C x ++ committed (n_v x) v) (n_A x) (n_session x) (n_out x) (n_acks x)
  | None => x
  end.
Definition take_in x : state :=
  match loop_receive (n_y x) (n_v x) with
  | Some (y, v, _) => mkNet (n_w x) (n_c x) y v (n_Q x) (n_C x ++ committed (n_v x) v) (n_A x) (n_session x) (n_out x) (n_acks x)
  | None => x
  end.
Definition tell x : state :=
  match n_session x, forward_acks (n_v x) (cl_streamID (n_c x)) 0 0 with
  | Streaming replay next, (v, Ok (Some (W, P))) =>
    mkNet (n_w x) (n_c x) (n_y x) v (n_Q x) (n_C x) (n_A x) (Streaming replay next) (n_out x) (n_acks x ++ [(W, P)])
  | _, _ => x
  end.
Definition heed x : state :=
  match n_session x, n_acks x with
  | Streaming replay next, (W, P) :: acks =>
    let '(w, c, _) := handleAck (n_w x) (n_c x) W P in
    mkNet w c (n_y x) (n_v x) (n_Q x) (n_C x) (n_A x) (Streaming replay next) (n_out x) acks
  | _, _ => x
  end.

Lemma first_reach : net_reach first.
Proof.
  destruct (open_fresh (mkWorld ∅ [] 7) id_a 1000 100 sample_opt) as (w & c & HE & _); [done..|apply no_segments_empty|].
  apply (nr_start Run.s1.1 Run.s1.2 [] [] (mkWorld ∅ [] 7) id_a 1000 100 sample_opt);
    [exact Run.run_reach1|done|done|done|done|apply no_segments_empty|]. unfold ClientRun.start. by rewrite HE.
Qed.

Lemma hello_reach x :
  net_reach x -> n_session x = Idle -> n_out x = [] -> n_acks x = [] ->
  match append_hello (n_y x) (n_v x) (cl_streamID (n_c x)) with
  | (_, _, Ok (W, _)) => W =? received_top (cl_streamID (n_c x)) (n_Q x)
  | _ => false
  end = true -> net_reach (hello x).
Proof.
  intros HR Hs Ho Ha HB. eapply nr_step; [exact HR|]. destruct x as [w c y v Q C A s out acks]. net_cbn_all. subst s out acks.
  unfold hello. net_cbn. destruct (append_hello y v (cl_streamID c)) as [[y' v'] [[W P]|e]] eqn:E; [|discriminate HB].
  apply Z.eqb_eq in HB. exact (ns_hello _ _ _ _ _ _ _ _ _ _ _ E HB).
Qed.

Lemma greet_reach x : net_reach x -> n_out x = [] -> n_acks x = [] -> net_reach (greet x).
Proof.
  intros HR Ho Ha. destruct x as [w c y v Q C A s out acks]. net_cbn_all. subst out acks. unfold greet. net_cbn.
  destruct s as [|W P|]; [done| |done]. destruct (handleHelloAck w c W P 0 (Ok [])) as [[[w' c'] told] r] eqn:E.
  eapply nr_step; [exact HR|]. eapply ns_greeted; [|exact E]. by intros sent payload [= <-].
Qed.

Lemma append_net_reach payload x :
  net_reach x -> (Z.of_nat (length payload) <? 2 ^ 32) = true -> (cl_localSeq (n_c x) + 1 <? name_limit) = true ->
  net_reach (append payload x).
Proof.
  intros HR Hp%Z.ltb_lt HL%Z.ltb_lt. unfold append. destruct (Append (n_w x) (n_c x) payload) as [[[w' c'] r]|] eqn:E; [|done].
  eapply nr_step; [exact HR|]. destruct x as [w c y v Q C A s out acks]. exact (ns_append _ _ _ _ _ _ _ _ _ _ _ _ _ _ Hp HL E).
Qed.

Lemma send_net_reach x : net_reach x -> net_reach (send x).
Proof.
  intros HR. destruct x as [w c y v Q C A s out acks]. unfold send. net_cbn. destruct s as [| |[|r0 replay] next]; try done.
  destruct (send_next c next) as [[r next']|] eqn:E; [|done]. eapply nr_step; [exact HR|]. by apply ns_send.
Qed.

Lemma receive_net_reach x : net_reach x -> net_reach (receive x).
Proof.
  intros HR. destruct x as [w c y v Q C A s out acks]. unfold receive. net_cbn. destruct s as [| |replay next]; try done.
  destruct out as [|r out]; [done|]. destruct (append_record v (cl_streamID c) (cr_StreamSeq r) (cr_Payload r)) as [v' res] eqn:E.
  eapply nr_step; [exact HR|]. exact (ns_receive _ _ _ _ _ _ _ _ _ _ _ _ _ _ E).
Qed.

Lemma take_in_reach x :
  net_reach x -> (sv_lastPosition (n_v x) + Z.of_nat (length (sv_batch (n_v x))) + 1 <? name_limit) = true -> net_reach (take_in x).
Proof.
  intros HR HL%Z.ltb_lt. unfold take_in. destruct (loop_receive (n_y x) (n_v x)) as [[[y' v'] t]|] eqn:E; [|done].
  eapply nr_step; [exact HR|]. destruct x as [w c y v Q C A s out acks]. net_cbn_all.
  apply ns_server; [|done]. eapply sp_receive; [exact HL|exact E].
Qed.

Lemma commit_reach x :
  net_reach x -> (sv_lastPosition (n_v x) + Z.of_nat (length (sv_batch (n_v x))) <? name_limit) = true -> net_reach (commit x).
Proof.
  intros HR HL%Z.ltb_lt. unfold commit. destruct (loop_tick (n_y x) (n_v x)) as [[[y' v'] t]|] eqn:E; [|done].
  eapply nr_step; [exact HR|]. destruct x as [w c y v Q C A s out acks]. net_cbn_all.
  apply ns_server; [|done]. eapply sp_tick; [exact HL|exact E].
Qed.

Lemma tell_reach x : net_reach x -> net_reach (tell x).
Proof.
  intros HR. destruct x as [w c y v Q C A s out acks]. unfold tell. net_cbn. destruct s as [| |replay next]; try done.
  destruct (forward_acks v (cl_streamID c) 0 0) as [v' [[[W P]|]|e]] eqn:E; [|done..].
  eapply nr_step; [exact HR|]. by eapply ns_forward.
Qed.

Lemma heed_reach x : net_reach x -> net_reach (heed x).
Proof.
  intros HR. destruct x as [w c y v Q C A s out acks]. unfold heed. net_cbn. destruct s as [| |replay next]; try done.
  destruct acks as [|[W P] acks]; [done|]. destruct (handleAck w c W P) as [[w' c'] told] eqn:E.
  eapply nr_step; [exact HR|]. by eapply ns_ack.
Qed.

(** A client that has appended, with its record on its way; the record committed and acknowledged. *)
Definition sent : state := send (append [x61] (greet (hello first))).
Definition acknowledged : state := heed (tell (commit (take_in (receive sent)))).

Lemma sent_reach : net_reach sent.
Proof.
  apply send_net_reach, append_net_reach; [|vm_compute; reflexivity..].
  apply greet_reach; [|vm_compute; reflexivity..]. apply hello_reach; [exact first_reach|vm_compute; reflexivity..].
Qed.

Lemma acknowledged_reach : net_reach acknowledged.
Proof.
  apply heed_reach, tell_reach, commit_reach; [|vm_compute; reflexivity].
  apply take_in_reach; [|vm_compute; reflexivity]. apply receive_net_reach, sent_reach.
Qed.

End NetRun.

Lemma replicated_in_order_witness :
  client_item <$> n_A NetRun.acknowledged = item_of <$> stream_of (n_C NetRun.acknowledged) Demo.id_a /\
  length (n_C NetRun.acknowledged) = 1%nat.
Proof.
  split; [|vm_compute; reflexivity].
  destruct (replicated_in_order NetRun.acknowledged NetRun.acknowledged_reach) as [_ HA].
  assert (Hid : cl_streamID (n_c NetRun.acknowledged) = Demo.id_a) by (vm_compute; reflexivity). rewrite Hid in HA.
  apply (HA 2); vm_compute; reflexivity.
Defined.

