(* ===== verification/VolRows.v ===== *)
(** * VolRows: the state, the rows and the transactions of an ObjectFS volume

    [pkg/objectfs/controller/volume.go], [metadata_cache.go] and
    [aggregator.go]: a volume keeps its metadata as rows ([Inode], [DirEntry],
    [FileChunk], [XAttr]) in a view over its stream.  An operation reads rows,
    records what it read in a transaction, buffers row changes and commits; a
    commit updates the statistics from the read set and applies the changes.

    The view under the volume's lock is the map of the current rows
    ([SdsView.view_reads_latest] is why).  The order of the rows of a scan is not
    kept: no operation here depends on it. *)

From S2P Require Import Prelude Bytes Sha256.

#[local] Open Scope Z_scope.
#[local] Open Scope list_scope.

(** ** Errors

    [Failure] is the error of a call that leaves the volume: the index, the
    stream, the blob store.  [Panic] is a Go panic, [Diverge] a loop that does
    not end. *)

Inductive errno : Type :=
| ENOENT | EEXIST | ENOTDIR | EISDIR | EINVAL | ENOTEMPTY | EPERM | ENAMETOOLONG
| ENODATA | ENOTSUP | E2BIG | ENOSPC | ESTALE.

Inductive verr : Type :=
| Errno (e : errno)
| Failure
| Panic
| Diverge.

#[export] Instance errno_eq_decision : EqDecision errno.
Proof. solve_decision. Defined.
#[export] Instance verr_eq_decision : EqDecision verr.
Proof. solve_decision. Defined.

(** ** File modes *)

Definition S_IFMT : Z := 0xf000.
Definition S_IFSOCK : Z := 0xc000.
Definition S_IFLNK : Z := 0xa000.
Definition S_IFREG : Z := 0x8000.
Definition S_IFBLK : Z := 0x6000.
Definition S_IFDIR : Z := 0x4000.
Definition S_IFCHR : Z := 0x2000.
Definition S_IFIFO : Z := 0x1000.
(** [07777], [02000], [0777], [0755] and [0644]. *)
Definition mode_bits : Z := 0xfff.
Definition S_ISGID : Z := 0x400.
Definition mode_rwx : Z := 0x1ff.
Definition mode_0755 : Z := 0x1ed.
Definition mode_0644 : Z := 0x1a4.

Definition MaxNameLength : Z := 255.
Definition MaxXAttrNameLength : Z := 255.
Definition MaxXAttrValueLength : Z := 65536.
Definition DefaultInodeStride : Z := 8.

(** ** Rows *)

Record Inode := mkInode {
  i_Ino : Z;
  i_Mode : Z;
  i_Size : Z;
  i_Mtime : option Z;
  i_IsDir : bool;
  i_Sha256 : bytes;
  i_ManifestSha256 : bytes;
  i_ContentSha256 : bytes;
  i_ChunkSize : Z;
  i_Uid : Z;
  i_Gid : Z;
  i_Atime : option Z;
  i_Ctime : option Z;
  i_Nlink : Z;
  i_SymlinkTarget : bytes;
  i_Rdev : Z;
  i_ParentIno : option Z;
  i_XattrCount : option Z
}.

Record DirEntry := mkDirEntry {
  de_ParentIno : Z;
  de_Name : bytes;
  de_Ino : Z;
  de_IsDir : bool;
  de_Mode : Z
}.

Record FileChunk := mkFileChunk {
  fc_Ino : Z;
  fc_Index : Z;
  fc_Sha256 : bytes;
  fc_InlineData : bytes
}.

Record XAttr := mkXAttr {
  xa_Ino : Z;
  xa_Name : bytes;
  xa_Value : bytes
}.

#[export] Instance Inode_eq_decision : EqDecision Inode.
Proof. solve_decision. Defined.
#[export] Instance DirEntry_eq_decision : EqDecision DirEntry.
Proof. solve_decision. Defined.
#[export] Instance FileChunk_eq_decision : EqDecision FileChunk.
Proof. solve_decision. Defined.
#[export] Instance XAttr_eq_decision : EqDecision XAttr.
Proof. solve_decision. Defined.

(** The field updates the callbacks of [CachedInode.mutate] make on the clone of
    a row. *)
Definition with_nlink (n : Z) (r : Inode) : Inode :=
  mkInode (i_Ino r) (i_Mode r) (i_Size r) (i_Mtime r) (i_IsDir r) (i_Sha256 r) (i_ManifestSha256 r)
    (i_ContentSha256 r) (i_ChunkSize r) (i_Uid r) (i_Gid r) (i_Atime r) (i_Ctime r) n
    (i_SymlinkTarget r) (i_Rdev r) (i_ParentIno r) (i_XattrCount r).

Definition with_times (atime mtime ctime : option Z) (r : Inode) : Inode :=
  mkInode (i_Ino r) (i_Mode r) (i_Size r) mtime (i_IsDir r) (i_Sha256 r) (i_ManifestSha256 r)
    (i_ContentSha256 r) (i_ChunkSize r) (i_Uid r) (i_Gid r) atime ctime (i_Nlink r)
    (i_SymlinkTarget r) (i_Rdev r) (i_ParentIno r) (i_XattrCount r).

Definition with_ctime (now : Z) (r : Inode) : Inode := with_times (i_Atime r) (i_Mtime r) (Some now) r.
Definition with_mctime (now : Z) (r : Inode) : Inode := with_times (i_Atime r) (Some now) (Some now) r.

Definition with_owner (mode uid gid : Z) (r : Inode) : Inode :=
  mkInode (i_Ino r) mode (i_Size r) (i_Mtime r) (i_IsDir r) (i_Sha256 r) (i_ManifestSha256 r)
    (i_ContentSha256 r) (i_ChunkSize r) uid gid (i_Atime r) (i_Ctime r) (i_Nlink r)
    (i_SymlinkTarget r) (i_Rdev r) (i_ParentIno r) (i_XattrCount r).

Definition with_parent (p : Z) (r : Inode) : Inode :=
  mkInode (i_Ino r) (i_Mode r) (i_Size r) (i_Mtime r) (i_IsDir r) (i_Sha256 r) (i_ManifestSha256 r)
    (i_ContentSha256 r) (i_ChunkSize r) (i_Uid r) (i_Gid r) (i_Atime r) (i_Ctime r) (i_Nlink r)
    (i_SymlinkTarget r) (i_Rdev r) (Some p) (i_XattrCount r).

Definition with_xattr_count (n : Z) (r : Inode) : Inode :=
  mkInode (i_Ino r) (i_Mode r) (i_Size r) (i_Mtime r) (i_IsDir r) (i_Sha256 r) (i_ManifestSha256 r)
    (i_ContentSha256 r) (i_ChunkSize r) (i_Uid r) (i_Gid r) (i_Atime r) (i_Ctime r) (i_Nlink r)
    (i_SymlinkTarget r) (i_Rdev r) (i_ParentIno r) (Some n).

Definition with_content (size chunkSize : Z) (sha manifest content : bytes) (r : Inode) : Inode :=
  mkInode (i_Ino r) (i_Mode r) size (i_Mtime r) (i_IsDir r) sha manifest content chunkSize
    (i_Uid r) (i_Gid r) (i_Atime r) (i_Ctime r) (i_Nlink r) (i_SymlinkTarget r) (i_Rdev r)
    (i_ParentIno r) (i_XattrCount r).

Definition GetParentIno (r : Inode) : Z := default 0 (i_ParentIno r).
Definition GetXattrCount (r : Inode) : Z := default 0 (i_XattrCount r).

(** A row with its primary key. *)
Inductive row : Type :=
| RInode (r : Inode)
| RDirEntry (d : DirEntry)
| RFileChunk (c : FileChunk)
| RXAttr (x : XAttr).

Inductive rkey : Type :=
| KInode (ino : Z)
| KDirEntry (parent : Z) (name : bytes)
| KFileChunk (ino index : Z)
| KXAttr (ino : Z) (name : bytes).

#[export] Instance rkey_eq_decision : EqDecision rkey.
Proof. solve_decision. Defined.

#[export] Instance rkey_countable : Countable rkey.
Proof.
  refine (inj_countable'
    (fun k => match k with
              | KInode i => inl (inl i)
              | KDirEntry p n => inl (inr (p, n))
              | KFileChunk i x => inr (inl (i, x))
              | KXAttr i n => inr (inr (i, n))
              end)
    (fun s => match s with
              | inl (inl i) => KInode i
              | inl (inr (p, n)) => KDirEntry p n
              | inr (inl (i, x)) => KFileChunk i x
              | inr (inr (i, n)) => KXAttr i n
              end) _).
  by intros [].
Defined.

Definition row_key (r : row) : rkey :=
  match r with
  | RInode r => KInode (i_Ino r)
  | RDirEntry d => KDirEntry (de_ParentIno d) (de_Name d)
  | RFileChunk c => KFileChunk (fc_Ino c) (fc_Index c)
  | RXAttr x => KXAttr (xa_Ino x) (xa_Name x)
  end.

Definition as_inode (o : option row) : option Inode := match o with Some (RInode r) => Some r | _ => None end.
Definition as_dirent (o : option row) : option DirEntry := match o with Some (RDirEntry d) => Some d | _ => None end.
Definition as_chunk (o : option row) : option FileChunk := match o with Some (RFileChunk c) => Some c | _ => None end.
Definition as_xattr (o : option row) : option XAttr := match o with Some (RXAttr x) => Some x | _ => None end.

(** The first key field of a [DirEntry], [FileChunk] or [XAttr], the prefixes
    the volume scans; [PInodes] is the empty prefix of the inode table. *)
Inductive rprefix : Type :=
| PInodes
| PDirEntry (parent : Z)
| PFileChunk (ino : Z)
| PXAttr (ino : Z).

#[export] Instance rprefix_eq_decision : EqDecision rprefix.
Proof. solve_decision. Defined.

Definition under (p : rprefix) (k : rkey) : bool :=
  match p, k with
  | PInodes, KInode _ => true
  | PDirEntry p, KDirEntry q _ => p =? q
  | PFileChunk i, KFileChunk j _ => i =? j
  | PXAttr i, KXAttr j _ => i =? j
  | _, _ => false
  end.

(** The tables. *)
Record Rows := mkRows {
  r_inodes : gmap Z Inode;
  r_dirents : gmap (Z * bytes) DirEntry;
  r_chunks : gmap (Z * Z) FileChunk;
  r_xattrs : gmap (Z * bytes) XAttr
}.

Definition rows_get (R : Rows) (k : rkey) : option row :=
  match k with
  | KInode i => RInode <$> r_inodes R !! i
  | KDirEntry p n => RDirEntry <$> r_dirents R !! (p, n)
  | KFileChunk i x => RFileChunk <$> r_chunks R !! (i, x)
  | KXAttr i n => RXAttr <$> r_xattrs R !! (i, n)
  end.

Definition rows_scan (R : Rows) (p : rprefix) : list row :=
  match p with
  | PInodes => RInode ∘ snd <$> map_to_list (r_inodes R)
  | PDirEntry p => RDirEntry ∘ snd <$> map_to_list (filter (fun kv => kv.1.1 = p) (r_dirents R))
  | PFileChunk i => RFileChunk ∘ snd <$> map_to_list (filter (fun kv => kv.1.1 = i) (r_chunks R))
  | PXAttr i => RXAttr ∘ snd <$> map_to_list (filter (fun kv => kv.1.1 = i) (r_xattrs R))
  end.

(** Writing [None] deletes. *)
Definition rows_set (R : Rows) (k : rkey) (o : option row) : Rows :=
  match k with
  | KInode i => mkRows (partial_alter (fun _ => as_inode o) i (r_inodes R)) (r_dirents R) (r_chunks R) (r_xattrs R)
  | KDirEntry p n => mkRows (r_inodes R) (partial_alter (fun _ => as_dirent o) (p, n) (r_dirents R)) (r_chunks R) (r_xattrs R)
  | KFileChunk i x => mkRows (r_inodes R) (r_dirents R) (partial_alter (fun _ => as_chunk o) (i, x) (r_chunks R)) (r_xattrs R)
  | KXAttr i n => mkRows (r_inodes R) (r_dirents R) (r_chunks R) (partial_alter (fun _ => as_xattr o) (i, n) (r_xattrs R))
  end.

(** A buffered change: [tx.Insert] and [tx.Update] write the row whatever was
    there, [tx.Delete] removes it. *)
Inductive change : Type :=
| ChInsert (r : row)
| ChUpdate (r : row)
| ChDelete (k : rkey).

Definition change_key (c : change) : rkey :=
  match c with ChInsert r | ChUpdate r => row_key r | ChDelete k => k end.

Definition change_after (c : change) : option row :=
  match c with ChInsert r | ChUpdate r => Some r | ChDelete _ => None end.

Definition apply_change (R : Rows) (c : change) : Rows := rows_set R (change_key c) (change_after c).
Definition ApplyChanges (R : Rows) (cs : list change) : Rows := foldl apply_change R cs.

(** ** Statistics *)

Record VolumeStats := mkStats {
  vs_MaxIno : Z;
  vs_InodesFile : Z;
  vs_InodesDir : Z;
  vs_InodesSymlink : Z;
  vs_InodesOther : Z;
  vs_LogicalBytes : Z;
  vs_FileChunks : Z
}.

Inductive inode_kind : Type := kind_file | kind_dir | kind_symlink | kind_other.

#[export] Instance inode_kind_eq_decision : EqDecision inode_kind.
Proof. solve_decision. Defined.

Definition inodeType (r : Inode) : inode_kind :=
  let mode := i_Mode r in
  if i_IsDir r || (Z.land mode S_IFMT =? S_IFDIR) then kind_dir
  else if negb (bool_decide (i_SymlinkTarget r = [])) || (Z.land mode S_IFMT =? S_IFLNK) then kind_symlink
  else if (Z.land mode S_IFMT =? S_IFREG) ||
          (Z.land mode (Z.lor (Z.lor S_IFCHR S_IFBLK) (Z.lor S_IFIFO S_IFSOCK)) =? 0) then kind_file
  else kind_other.

Definition adjustInodeCount (s : VolumeStats) (kind : inode_kind) (delta : Z) : VolumeStats :=
  let 'mkStats m f d l o b c := s in
  match kind with
  | kind_file => mkStats m (i64 (f + delta)) d l o b c
  | kind_dir => mkStats m f (i64 (d + delta)) l o b c
  | kind_symlink => mkStats m f d (i64 (l + delta)) o b c
  | kind_other => mkStats m f d l (i64 (o + delta)) b c
  end.

Definition add_logical (s : VolumeStats) (n : Z) : VolumeStats :=
  let 'mkStats m f d l o b c := s in mkStats m f d l o (i64 (b + n)) c.

Definition raise_max (s : VolumeStats) (ino : Z) : VolumeStats :=
  let 'mkStats m f d l o b c := s in if ino >? m then mkStats ino f d l o b c else s.

Definition UpdateStatsForInodeChange (s : VolumeStats) (before after : option Inode) : VolumeStats :=
  match before, after with
  | None, Some a =>
      let s := adjustInodeCount (raise_max s (i_Ino a)) (inodeType a) 1 in
      if bool_decide (inodeType a = kind_file) && (i_Size a >? 0) then add_logical s (i_Size a) else s
  | Some b, Some a =>
      let s := if bool_decide (inodeType b = inodeType a) then s
               else adjustInodeCount (adjustInodeCount s (inodeType b) (-1)) (inodeType a) 1 in
      if bool_decide (inodeType a = kind_file) then add_logical s (i64 (i_Size a - i_Size b)) else s
  | Some b, None =>
      let s := adjustInodeCount s (inodeType b) (-1) in
      if bool_decide (inodeType b = kind_file) && (i_Size b >? 0) then add_logical s (- i_Size b) else s
  | None, None => s
  end.

Definition UpdateStatsForFileChunkChange (s : VolumeStats) (before after : option FileChunk) : VolumeStats :=
  let 'mkStats m f d l o b c := s in
  match before, after with
  | None, Some _ => mkStats m f d l o b (i64 (c + 1))
  | Some _, None => mkStats m f d l o b (i64 (c - 1))
  | _, _ => s
  end.

(** [None] is the error for a row of the wrong type. *)
Definition UpdateVolumeStats (s : VolumeStats) (before after : option row) : option VolumeStats :=
  match before, after with
  | None, None => Some s
  | _, _ =>
      match (match after with Some _ => after | None => before end) with
      | Some (RInode _) =>
          match before, after with
          | (None | Some (RInode _)), (None | Some (RInode _)) =>
              Some (UpdateStatsForInodeChange s (as_inode before) (as_inode after))
          | _, _ => None
          end
      | Some (RFileChunk _) =>
          match before, after with
          | (None | Some (RFileChunk _)), (None | Some (RFileChunk _)) =>
              Some (UpdateStatsForFileChunkChange s (as_chunk before) (as_chunk after))
          | _, _ => None
          end
      | _ => Some s
      end
  end.

(** ** Transactions *)

Record Tx := mkTx {
  tx_changes : list change;
  tx_readSet : gmap rkey (option row);
  tx_readPrefixes : list rprefix
}.

Definition empty_tx : Tx := mkTx [] ∅ [].

(** [Tx.LookupRead]: the row as the transaction read it, [Some None] when it was
    seen to be absent. *)
Definition LookupRead (t : Tx) (k : rkey) : option (option row) :=
  match tx_readSet t !! k with
  | Some o => Some o
  | None => if existsb (fun p => under p k) (tx_readPrefixes t) then Some None else None
  end.

(** [view.UpdateStatsFromChanges] with the transaction's [LookupRead] as the
    lookup of the previous row; [None] is the panic of [applyTxChangesLocked]. *)
Fixpoint UpdateStatsFromChanges (t : Tx) (latest : gmap rkey (option row)) (s : VolumeStats) (cs : list change)
    : option VolumeStats :=
  match cs with
  | [] => Some s
  | c :: cs =>
      let k := change_key c in
      match (match latest !! k with Some o => Some o | None => LookupRead t k end) with
      | None => None
      | Some before =>
          match UpdateVolumeStats s before (change_after c) with
          | None => None
          | Some s => UpdateStatsFromChanges t (<[k := change_after c]> latest) s cs
          end
      end
  end.

(** ** The volume *)

(** A payload in a staged pack: a pack holds one entry per digest. *)
Record stagedChunkReference := mkRef {
  ref_PackID : Z;
  ref_Sha : bytes;
  ref_Length : Z
}.

#[export] Instance ref_eq_decision : EqDecision stagedChunkReference.
Proof. solve_decision. Defined.

Inductive packState : Type := packNotStarted | packUploading | packUploaded | packFailed.

#[export] Instance packState_eq_decision : EqDecision packState.
Proof. solve_decision. Defined.

(** [packInfo] with the [blob.IncrementalPack] it points to: the payloads by
    digest and the size of the file. *)
Record packInfo := mkPackInfo {
  pi_blobs : gmap bytes bytes;
  pi_ByteSize : Z;
  pi_liveReferences : Z;
  pi_state : packState
}.

Record Staging := mkStaging {
  sg_activePack : option Z;
  sg_nextPackID : Z;
  sg_packs : gmap Z packInfo;
  sg_stagingSeq : Z;
  sg_stagedChunks : gmap Z (gmap Z stagedChunkReference);
  sg_stagedSizes : gmap Z Z;
  sg_stagedMtimes : gmap Z Z;
  sg_stagedBytes : Z;
  sg_lastSyncError : gmap Z verr
}.

Definition empty_staging : Staging := mkStaging None 0 ∅ 0 ∅ ∅ ∅ 0 ∅.

Record Handles := mkHandles {
  h_nextFh : Z;
  h_handles : gmap Z Z;
  h_openInodes : gmap Z Z
}.

Inductive event_type : Type := EVENT_CREATED | EVENT_MODIFIED | EVENT_DELETED | EVENT_RENAMED.

Record EntryAttr := mkAttr {
  ea_Inode : Inode;
  ea_Name : bytes;
  ea_StreamPosition : Z
}.

(** What [Broadcast] sends to the watchers; the last two fields are set by a
    rename only. *)
Record Event := mkEvent {
  ev_EventType : event_type;
  ev_Attr : option EntryAttr;
  ev_Inode : Z;
  ev_ParentInode : Z;
  ev_Name : bytes;
  ev_StreamPosition : Z;
  ev_OldParentInode : Z;
  ev_OldName : bytes
}.

(** Fields that no operation changes; [c_blobs] tells whether a blob store is
    configured. *)
Record Config := mkConfig {
  c_rootInodeID : Z;
  c_maxInlineLen : Z;
  c_chunkSize : Z;
  c_maxStagingBytes : Z;
  c_blobs : bool
}.

(** [v_blobs] is the content of the blob store by hexadecimal digest. *)
Record Volume := mkVolume {
  v_cfg : Config;
  v_rows : Rows;
  v_liveStats : VolumeStats;
  v_nextInode : Z;
  v_lastCommitSeq : Z;
  v_dirParents : gmap Z Z;
  v_handles : Handles;
  v_events : list Event;
  v_blobs : gmap bytes bytes;
  v_staging : Staging
}.

Definition rootInodeID (v : Volume) : Z := c_rootInodeID (v_cfg v).

Definition set_rows (R : Rows) (st : VolumeStats) (v : Volume) : Volume :=
  mkVolume (v_cfg v) R st (v_nextInode v) (v_lastCommitSeq v) (v_dirParents v) (v_handles v) (v_events v)
    (v_blobs v) (v_staging v).
Definition set_nextInode (n : Z) (v : Volume) : Volume :=
  mkVolume (v_cfg v) (v_rows v) (v_liveStats v) n (v_lastCommitSeq v) (v_dirParents v) (v_handles v)
    (v_events v) (v_blobs v) (v_staging v).
Definition set_lastCommitSeq (n : Z) (v : Volume) : Volume :=
  mkVolume (v_cfg v) (v_rows v) (v_liveStats v) (v_nextInode v) n (v_dirParents v) (v_handles v)
    (v_events v) (v_blobs v) (v_staging v).
Definition set_dirParents (d : gmap Z Z) (v : Volume) : Volume :=
  mkVolume (v_cfg v) (v_rows v) (v_liveStats v) (v_nextInode v) (v_lastCommitSeq v) d (v_handles v)
    (v_events v) (v_blobs v) (v_staging v).
Definition set_handles (h : Handles) (v : Volume) : Volume :=
  mkVolume (v_cfg v) (v_rows v) (v_liveStats v) (v_nextInode v) (v_lastCommitSeq v) (v_dirParents v) h
    (v_events v) (v_blobs v) (v_staging v).
Definition set_events (e : list Event) (v : Volume) : Volume :=
  mkVolume (v_cfg v) (v_rows v) (v_liveStats v) (v_nextInode v) (v_lastCommitSeq v) (v_dirParents v)
    (v_handles v) e (v_blobs v) (v_staging v).
Definition set_blobs (b : gmap bytes bytes) (v : Volume) : Volume :=
  mkVolume (v_cfg v) (v_rows v) (v_liveStats v) (v_nextInode v) (v_lastCommitSeq v) (v_dirParents v)
    (v_handles v) (v_events v) b (v_staging v).
Definition set_staging (g : Staging) (v : Volume) : Volume :=
  mkVolume (v_cfg v) (v_rows v) (v_liveStats v) (v_nextInode v) (v_lastCommitSeq v) (v_dirParents v)
    (v_handles v) (v_events v) (v_blobs v) g.

(** ** Operations as computations

    An operation runs on the volume and its current transaction.  Each call
    that leaves the volume takes its outcome from a list the caller chooses, so
    that any of them may fail; a list that has run out means success. *)

Inductive reply : Type :=
| Fine (n : Z)
| Fails.

Record St := mkSt {
  s_vol : Volume;
  s_tx : Tx;
  s_env : list reply
}.

Definition M (A : Type) : Type := St -> result verr A * St.

#[export] Instance M_ret : MRet M := fun A a s => (Ok a, s).
#[export] Instance M_bind : MBind M :=
  fun A B f m s => match m s with (Ok a, s) => f a s | (Err e, s) => (Err e, s) end.

Definition throw {A} (e : verr) : M A := fun s => (Err e, s).
Definition get_vol : M Volume := fun s => (Ok (s_vol s), s).
Definition get_tx : M Tx := fun s => (Ok (s_tx s), s).
Definition upd_vol (f : Volume -> Volume) : M () := fun s => (Ok (), mkSt (f (s_vol s)) (s_tx s) (s_env s)).
Definition upd_tx (f : Tx -> Tx) : M () := fun s => (Ok (), mkSt (s_vol s) (f (s_tx s)) (s_env s)).
Definition check (b : bool) (e : errno) : M () := if b then mret () else throw (Errno e).

(** A call that leaves the volume and may fail. *)
Definition external : M Z := fun s =>
  match s_env s with
  | [] => (Ok 0, s)
  | Fine n :: env => (Ok n, mkSt (s_vol s) (s_tx s) env)
  | Fails :: env => (Err Failure, mkSt (s_vol s) (s_tx s) env)
  end.

Fixpoint for_each {A} (l : list A) (f : A -> M ()) : M () :=
  match l with [] => mret () | x :: l => f x ;; for_each l f end.

(** Running an operation alone. *)
Definition run {A} (m : M A) (v : Volume) (env : list reply) : result verr A * Volume :=
  let '(r, s) := m (mkSt v empty_tx env) in (r, s_vol s).

(** ** Reading and recording *)

Definition checkBackpressureLocked : M () := external ;; mret ().

Definition beginTxLocked : M () := upd_tx (fun _ => empty_tx).

(** The argument [t] of the helpers tells whether a transaction is passed:
    [false] is the nil of the read-only operations. *)
Definition checkReadAllowedLocked (t : bool) : M () :=
  x ← get_tx;
  if t && negb (bool_decide (tx_changes x = [])) then throw Panic else mret ().

Definition recordReadLocked (t : bool) (k : rkey) (o : option row) : M () :=
  if t then upd_tx (fun x => mkTx (tx_changes x) (<[k := o]> (tx_readSet x)) (tx_readPrefixes x)) else mret ().

Definition recordReadPrefixLocked (t : bool) (p : rprefix) : M () :=
  if t then upd_tx (fun x => mkTx (tx_changes x) (tx_readSet x) (p :: tx_readPrefixes x)) else mret ().

(** The empty prefix is not recorded. *)
Definition scanLimitSQLiteRowsLocked (t : bool) (p : rprefix) (limit : Z) : M (list row) :=
  checkReadAllowedLocked t ;;
  external ;;
  v ← get_vol;
  let allMsgs := rows_scan (v_rows v) p in
  let truncated := (limit >? 0) && (Z.of_nat (length allMsgs) >? limit) in
  let msgs := if truncated then take (Z.to_nat limit) allMsgs else allMsgs in
  (if bool_decide (p <> PInodes) && negb truncated then recordReadPrefixLocked t p else mret ()) ;;
  for_each msgs (fun m => recordReadLocked t (row_key m) (Some m)) ;;
  mret msgs.

Definition scanSQLiteRowsLocked (t : bool) (p : rprefix) : M (list row) := scanLimitSQLiteRowsLocked t p 0.

Definition getSQLiteRowLocked (t : bool) (k : rkey) : M (option row) :=
  checkReadAllowedLocked t ;;
  external ;;
  v ← get_vol;
  let o := rows_get (v_rows v) k in
  recordReadLocked t k o ;;
  mret o.

Definition normalizeInodeID (id : Z) : M Z :=
  v ← get_vol;
  mret (if id =? 0 then if negb (rootInodeID v =? 0) then rootInodeID v else 1 else id).

(** ** Inodes in memory

    [CachedInode]: the row with its chunks.  The fields [DirtyChunks],
    [RedirectURL] and [Data] of the code are never set on a loaded inode. *)
Record CachedInode := mkCached {
  n_Row : Inode;
  n_Chunks : gmap Z bytes;
  n_InlineData : bytes
}.

Definition mutate (f : Inode -> Inode) (n : CachedInode) : CachedInode :=
  mkCached (f (n_Row n)) (n_Chunks n) (n_InlineData n).

Definition load_chunk (n : CachedInode) (m : row) : CachedInode :=
  match m with
  | RFileChunk c =>
      if (fc_Index c =? 0) && negb (bool_decide (fc_InlineData c = [])) then
        mkCached (n_Row n) (n_Chunks n) (fc_InlineData c)
      else if negb (bool_decide (fc_Sha256 c = [])) then
        mkCached (n_Row n) (<[fc_Index c := fc_Sha256 c]> (n_Chunks n)) (n_InlineData n)
      else n
  | _ => n
  end.

(** Directories and empty files have no chunk rows: the prefix is recorded as
    read without a scan. *)
Definition ensureInodeChunksLoadedLocked (t : bool) (n : CachedInode) : M CachedInode :=
  checkReadAllowedLocked t ;;
  let ino := i_Ino (n_Row n) in
  x ← get_tx;
  let alreadyRecorded := t && bool_decide (PFileChunk ino ∈ tx_readPrefixes x) in
  recordReadPrefixLocked t (PFileChunk ino) ;;
  if i_IsDir (n_Row n) || (i_Size (n_Row n) =? 0) then mret n
  else if (i_ChunkSize (n_Row n) >? 0) && negb (bool_decide (n_Chunks n = ∅)) then
    (if t && negb alreadyRecorded then
       for_each (map_to_list (n_Chunks n)) (fun '(idx, sha) =>
         let c := mkFileChunk ino idx sha [] in
         recordReadLocked t (row_key (RFileChunk c)) (Some (RFileChunk c))) ;;
       (if negb (bool_decide (n_InlineData n = [])) then
          let c := mkFileChunk ino 0 [] (n_InlineData n) in
          recordReadLocked t (row_key (RFileChunk c)) (Some (RFileChunk c))
        else mret ())
     else mret ()) ;;
    mret n
  else
    chunkMsgs ← scanSQLiteRowsLocked t (PFileChunk ino);
    mret (foldl load_chunk n chunkMsgs).

Definition getOrLoadInodeLocked (t : bool) (inodeID : Z) : M CachedInode :=
  inodeID ← normalizeInodeID inodeID;
  msg ← getSQLiteRowLocked t (KInode inodeID);
  match as_inode msg with
  | None => throw (Errno ENOENT)
  | Some inode =>
      (if i_IsDir inode && negb (GetParentIno inode =? 0) then
         upd_vol (fun v => set_dirParents (<[i_Ino inode := GetParentIno inode]> (v_dirParents v)) v)
       else mret ()) ;;
      ensureInodeChunksLoadedLocked t (mkCached inode ∅ [])
  end.

Definition getDirEntrySQLiteLocked (t : bool) (parent : Z) (name : bytes) : M (option DirEntry) :=
  msg ← getSQLiteRowLocked t (KDirEntry parent name);
  mret (as_dirent msg).

(** ** Writing and committing *)

Definition tx_write (c : change) : M () :=
  external ;;
  upd_tx (fun x => mkTx (tx_changes x ++ [c]) (tx_readSet x) (tx_readPrefixes x)).

Definition tx_Insert (r : row) : M () := tx_write (ChInsert r).
Definition tx_Update (r : row) : M () := tx_write (ChUpdate r).
Definition tx_Delete (k : rkey) : M () := tx_write (ChDelete k).

(** The statistics and the rows after the commit; a key written but never read
    panics. *)
Definition applyTxChangesLocked : M () :=
  x ← get_tx;
  v ← get_vol;
  match UpdateStatsFromChanges x ∅ (v_liveStats v) (tx_changes x) with
  | None => throw Panic
  | Some st => upd_vol (set_rows (ApplyChanges (v_rows v) (tx_changes x)) st)
  end.

(** [tx.Commit] returns the sequence number the stream assigned. *)
Definition commitTxLocked : M Z :=
  commitSeq ← external;
  applyTxChangesLocked ;;
  mret commitSeq.

(** [makeWaitFn] raises the position; the function it returns waits for the
    durability of the commit, [None] when there is nothing to wait for. *)
Definition makeWaitFn (commitSeq : Z) : M (option Z) :=
  v ← get_vol;
  (if commitSeq >? v_lastCommitSeq v then upd_vol (set_lastCommitSeq commitSeq) else mret ()) ;;
  mret (if commitSeq =? 0 then None else Some commitSeq).

Definition waitFn (w : option Z) : M () :=
  match w with None => mret () | Some _ => external ;; mret () end.

Definition Broadcast (e : Event) : M () := upd_vol (fun v => set_events (v_events v ++ [e]) v).

(** Inode numbers are taken in strides and never reused: the row of the new
    number and its chunks are recorded as absent. *)
Definition allocInode (t : bool) : M Z :=
  v ← get_vol;
  let ino := v_nextInode v in
  upd_vol (set_nextInode (u64 (ino + DefaultInodeStride))) ;;
  recordReadLocked t (KInode ino) None ;;
  recordReadPrefixLocked t (PFileChunk ino) ;;
  mret ino.

(** ** Attributes *)

Definition with_ino (i : Z) (r : Inode) : Inode :=
  mkInode i (i_Mode r) (i_Size r) (i_Mtime r) (i_IsDir r) (i_Sha256 r) (i_ManifestSha256 r)
    (i_ContentSha256 r) (i_ChunkSize r) (i_Uid r) (i_Gid r) (i_Atime r) (i_Ctime r) (i_Nlink r)
    (i_SymlinkTarget r) (i_Rdev r) (i_ParentIno r) (i_XattrCount r).

Definition toEntryAttr (v : Volume) (r : Inode) (name : bytes) : EntryAttr :=
  let ino := i_Ino r in
  let root := rootInodeID v in
  let name := if bool_decide (name = []) && ((ino =? root) || (ino =? 1)) then go "/" else name in
  let r := if negb (root =? 0) && (ino =? root) && negb (root =? 1) then with_ino 1 r else r in
  mkAttr r name (v_lastCommitSeq v).

Definition toEntryAttrLocked (t : bool) (inodeID : Z) (name : bytes) : M EntryAttr :=
  n ← getOrLoadInodeLocked t inodeID;
  v ← get_vol;
  mret (toEntryAttr v (n_Row n) name).
