(* ===== verification/VolStaging.v ===== *)
(** * VolStaging: the accounts of staged writes

    [pkg/objectfs/controller/volume.go]: written chunks wait in pack files until
    a sync commits them.  The volume counts the staged bytes and, for each pack,
    the chunks that still refer to it; a pack without references that has been
    uploaded may be evicted. *)

From S2P Require Import Prelude Bytes Sha256 VolRows.

#[local] Open Scope Z_scope.
#[local] Open Scope list_scope.

Definition set_packs (p : gmap Z packInfo) (g : Staging) : Staging :=
  mkStaging (sg_activePack g) (sg_nextPackID g) p (sg_stagingSeq g) (sg_stagedChunks g) (sg_stagedSizes g)
    (sg_stagedMtimes g) (sg_stagedBytes g) (sg_lastSyncError g).
Definition set_active (a : option Z) (n : Z) (g : Staging) : Staging :=
  mkStaging a n (sg_packs g) (sg_stagingSeq g) (sg_stagedChunks g) (sg_stagedSizes g)
    (sg_stagedMtimes g) (sg_stagedBytes g) (sg_lastSyncError g).
Definition set_chunks (c : gmap Z (gmap Z stagedChunkReference)) (b : Z) (g : Staging) : Staging :=
  mkStaging (sg_activePack g) (sg_nextPackID g) (sg_packs g) (sg_stagingSeq g) c (sg_stagedSizes g)
    (sg_stagedMtimes g) b (sg_lastSyncError g).
Definition set_attrs (sz mt : gmap Z Z) (g : Staging) : Staging :=
  mkStaging (sg_activePack g) (sg_nextPackID g) (sg_packs g) (sg_stagingSeq g) (sg_stagedChunks g) sz
    mt (sg_stagedBytes g) (sg_lastSyncError g).
Definition set_stagingSeq (n : Z) (g : Staging) : Staging :=
  mkStaging (sg_activePack g) (sg_nextPackID g) (sg_packs g) n (sg_stagedChunks g) (sg_stagedSizes g)
    (sg_stagedMtimes g) (sg_stagedBytes g) (sg_lastSyncError g).
Definition set_lastSyncError (e : gmap Z verr) (g : Staging) : Staging :=
  mkStaging (sg_activePack g) (sg_nextPackID g) (sg_packs g) (sg_stagingSeq g) (sg_stagedChunks g)
    (sg_stagedSizes g) (sg_stagedMtimes g) (sg_stagedBytes g) e.

Definition add_references (n : Z) (i : packInfo) : packInfo :=
  mkPackInfo (pi_blobs i) (pi_ByteSize i) (pi_liveReferences i + n) (pi_state i).

(** The staged chunks of an inode; an inode without any has no entry. *)
Definition staged_of (g : Staging) (ino : Z) : gmap Z stagedChunkReference := default ∅ (sg_stagedChunks g !! ino).

Definition dropPackReferenceLocked (packID : Z) (g : Staging) : Staging :=
  set_packs (alter (add_references (-1)) packID (sg_packs g)) g.

Definition setStagedChunkLocked (ino index : Z) (reference : stagedChunkReference) (g : Staging) : Staging :=
  let g :=
    match staged_of g ino !! index with
    | Some existing =>
        dropPackReferenceLocked (ref_PackID existing)
          (set_chunks (sg_stagedChunks g) (sg_stagedBytes g - ref_Length existing) g)
    | None => g
    end in
  let chunks := <[index := reference]> (staged_of g ino) in
  let g := set_chunks (<[ino := chunks]> (sg_stagedChunks g)) (sg_stagedBytes g + ref_Length reference) g in
  set_packs (alter (add_references 1) (ref_PackID reference) (sg_packs g)) g.

Definition forget_attrs (ino : Z) (g : Staging) : Staging :=
  set_attrs (delete ino (sg_stagedSizes g)) (delete ino (sg_stagedMtimes g)) g.

Definition dropStagedChunkLocked (ino index : Z) (g : Staging) : Staging :=
  match sg_stagedChunks g !! ino with
  | None => g
  | Some chunks =>
      match chunks !! index with
      | None => g
      | Some existing =>
          let chunks := delete index chunks in
          let g := set_chunks (<[ino := chunks]> (sg_stagedChunks g)) (sg_stagedBytes g - ref_Length existing) g in
          let g := dropPackReferenceLocked (ref_PackID existing) g in
          if bool_decide (chunks = ∅) then
            forget_attrs ino (set_chunks (delete ino (sg_stagedChunks g)) (sg_stagedBytes g) g)
          else g
      end
  end.

Definition drop_reference (g : Staging) (reference : stagedChunkReference) : Staging :=
  dropPackReferenceLocked (ref_PackID reference)
    (set_chunks (sg_stagedChunks g) (sg_stagedBytes g - ref_Length reference) g).

Definition dropStagedChunksLocked (ino : Z) (g : Staging) : Staging :=
  match sg_stagedChunks g !! ino with
  | None => g
  | Some chunks =>
      let g := foldl drop_reference g (snd <$> map_to_list chunks) in
      forget_attrs ino (set_chunks (delete ino (sg_stagedChunks g)) (sg_stagedBytes g) g)
  end.

Definition deletePackLocked (packID : Z) (g : Staging) : Staging := set_packs (delete packID (sg_packs g)) g.

Definition evictable (i : packInfo) : bool :=
  bool_decide (pi_state i = packUploaded) && (pi_liveReferences i <=? 0).

Fixpoint evict_loop (limit neededBytes total : Z) (eligible : list Z) (g : Staging) : Staging :=
  match eligible with
  | [] => g
  | packID :: eligible =>
      let packSize := match sg_packs g !! packID with Some i => pi_ByteSize i | None => 0 end in
      let g := deletePackLocked packID g in
      let total := total - packSize in
      if total + neededBytes <=? limit then g else evict_loop limit neededBytes total eligible g
  end.

Definition packs_total (g : Staging) : Z := map_fold (fun _ i n => pi_ByteSize i + n) 0 (sg_packs g).

Definition evictUploadedPacksLocked (limit neededBytes : Z) (g : Staging) : Staging :=
  let total := packs_total g in
  let eligible := merge_sort Z.le (fst <$> map_to_list (filter (fun kv => evictable kv.2 = true) (sg_packs g))) in
  if (total + neededBytes <=? limit) || bool_decide (eligible = []) then g
  else evict_loop limit neededBytes total eligible g.
