(* ===== verification/VolNamespace.v ===== *)
(** * VolNamespace: the operations of a volume on names and attributes

    [pkg/objectfs/controller/volume.go]: lookup and listing, attributes and
    extended attributes, the operations that create, link, rename and remove
    directory entries, open handles, and the removal of orphans at load.  Each
    definition follows the function of the same name: the checks and reads in
    their order, the rows it buffers, the commit, the event and the wait. *)

From S2P Require Import Prelude Bytes Sha256 VolRows VolStaging.

#[local] Open Scope Z_scope.
#[local] Open Scope list_scope.

(** ** Names and content addresses *)

Definition blen (b : bytes) : Z := Z.of_nat (length b).

Definition invalid_name (name : bytes) : bool :=
  bool_decide (name = []) || bool_decide (name = go ".") || bool_decide (name = go "..").

Definition hex_digit (d : Z) : byte := nth (Z.to_nat d) (go "0123456789abcdef") x30.
Definition hex_encode (b : bytes) : bytes :=
  b ≫= fun x => [hex_digit (byte_to_Z x / 16); hex_digit (byte_to_Z x mod 16)].

(** [fmt.Sprintf("%x", sha256.Sum256(data))]. *)
Definition sha256Hex (data : bytes) : bytes := hex_encode (sha256 data).

Definition set_parent (c p : Z) : M () := upd_vol (fun v => set_dirParents (<[c := p]> (v_dirParents v)) v).
Definition del_parent (c : Z) : M () := upd_vol (fun v => set_dirParents (delete c (v_dirParents v)) v).

(** The clean-up before an error is returned; a panic does not pass it. *)
Definition on_error {A} (m : M A) (f : Volume -> Volume) : M A := fun s =>
  match m s with
  | (Err Panic, s) => (Err Panic, s)
  | (Err e, s) => (Err e, mkSt (f (s_vol s)) (s_tx s) (s_env s))
  | r => r
  end.

(** ** Lookup *)

Definition GetAttr (inodeID : Z) : M EntryAttr :=
  inodeID ← normalizeInodeID inodeID;
  toEntryAttrLocked false inodeID [].

Definition Lookup (parentInodeID : Z) (name : bytes) : M EntryAttr :=
  check (blen name <=? MaxNameLength) ENAMETOOLONG ;;
  parentInodeID ← normalizeInodeID parentInodeID;
  v ← get_vol;
  if bool_decide (name = go ".") then toEntryAttrLocked false parentInodeID (go ".")
  else if bool_decide (name = go "..") then
    if (parentInodeID =? rootInodeID v) || (parentInodeID =? 1) then
      toEntryAttrLocked false (rootInodeID v) (go "..")
    else
      parentNode ← getOrLoadInodeLocked false parentInodeID;
      check (i_IsDir (n_Row parentNode)) ENOTDIR ;;
      v ← get_vol;
      let pIno := GetParentIno (n_Row parentNode) in
      let pIno := if pIno =? 0 then default 0 (v_dirParents v !! parentInodeID) else pIno in
      let pIno := if pIno =? 0 then rootInodeID v else pIno in
      toEntryAttrLocked false pIno (go "..")
  else
    de ← getDirEntrySQLiteLocked false parentInodeID name;
    match de with
    | None => throw (Errno ENOENT)
    | Some de => toEntryAttrLocked false (de_Ino de) name
    end.

Fixpoint attrs_of (names : list bytes) (entriesMap : gmap bytes DirEntry) : M (list EntryAttr) :=
  match names with
  | [] => mret []
  | name :: names =>
      attr ← toEntryAttrLocked false (default 0 (de_Ino <$> entriesMap !! name)) name;
      attrs ← attrs_of names entriesMap;
      mret (attr :: attrs)
  end.

Definition dirents_of (msgs : list row) : list DirEntry := omap (fun m => as_dirent (Some m)) msgs.

Definition ReadDir (dirInodeID : Z) : M (list EntryAttr) :=
  dirInodeID ← normalizeInodeID dirInodeID;
  dirNode ← getOrLoadInodeLocked false dirInodeID;
  check (i_IsDir (n_Row dirNode)) ENOTDIR ;;
  entryMsgs ← scanSQLiteRowsLocked false (PDirEntry dirInodeID);
  let entries := dirents_of entryMsgs in
  attrs_of (sort_strings (de_Name <$> entries)) (list_to_map ((fun de => (de_Name de, de)) <$> entries)).

Definition Readlink (inodeID : Z) : M bytes :=
  inodeID ← normalizeInodeID inodeID;
  node ← getOrLoadInodeLocked false inodeID;
  if negb (Z.land (i_Mode (n_Row node)) S_IFMT =? S_IFLNK) && bool_decide (i_SymlinkTarget (n_Row node) = [])
  then throw (Errno EINVAL)
  else mret (i_SymlinkTarget (n_Row node)).

(** ** Paths *)

Fixpoint split_slash (p : bytes) : list bytes :=
  match p with
  | [] => [[]]
  | b :: p =>
      if bool_decide (b = x2f) then [] :: split_slash p
      else match split_slash p with [] => [[b]] | w :: ws => (b :: w) :: ws end
  end.

(** [path.Clean] of a rooted path, as the list of its components. *)
Definition clean_part (acc : list bytes) (part : bytes) : list bytes :=
  if bool_decide (part = []) || bool_decide (part = go ".") then acc
  else if bool_decide (part = go "..") then tail acc
  else part :: acc.
Definition cleanPath (p : bytes) : list bytes := reverse (foldl clean_part [] (split_slash p)).

Fixpoint resolve_parts (parts : list bytes) (currInodeID : Z) : M Z :=
  match parts with
  | [] => mret currInodeID
  | part :: parts =>
      check (blen part <=? MaxNameLength) ENAMETOOLONG ;;
      de ← getDirEntrySQLiteLocked false currInodeID part;
      match de with
      | None => throw (Errno ENOENT)
      | Some de =>
          match parts with
          | [] => mret (de_Ino de)
          | _ :: _ => check (de_IsDir de) ENOTDIR ;; resolve_parts parts (de_Ino de)
          end
      end
  end.

Definition ResolvePath (p : bytes) : M Z :=
  v ← get_vol;
  resolve_parts (cleanPath p) (rootInodeID v).

(** ** Attributes *)

Record SetAttrArgs := mkSetAttr {
  sa_mode : option Z; sa_uid : option Z; sa_gid : option Z;
  sa_atime : option Z; sa_atimeNow : bool;
  sa_mtime : option Z; sa_mtimeNow : bool;
  sa_ctime : option Z; sa_ctimeNow : bool
}.

Definition sa_modified (a : SetAttrArgs) : bool :=
  bool_decide (is_Some (sa_mode a)) || bool_decide (is_Some (sa_uid a)) || bool_decide (is_Some (sa_gid a)) ||
  sa_atimeNow a || bool_decide (is_Some (sa_atime a)) || sa_mtimeNow a || bool_decide (is_Some (sa_mtime a)) ||
  sa_ctimeNow a || bool_decide (is_Some (sa_ctime a)).

Definition pick_time (now : Z) (isNow : bool) (given old : option Z) : option Z :=
  if isNow then Some now else match given with Some t => Some t | None => old end.

Definition set_attrs_row (now : Z) (a : SetAttrArgs) (r : Inode) : Inode :=
  let mode := match sa_mode a with
              | Some m => Z.lor (Z.ldiff (i_Mode r) mode_bits) (Z.land m mode_bits)
              | None => i_Mode r
              end in
  with_times (pick_time now (sa_atimeNow a) (sa_atime a) (i_Atime r))
    (pick_time now (sa_mtimeNow a) (sa_mtime a) (i_Mtime r))
    (pick_time now (sa_ctimeNow a) (sa_ctime a) (Some now))
    (with_owner mode (default (i_Uid r) (sa_uid a)) (default (i_Gid r) (sa_gid a)) r).

Definition event_modified (attr : EntryAttr) : Event :=
  mkEvent EVENT_MODIFIED (Some attr) (i_Ino (ea_Inode attr)) 0 [] (ea_StreamPosition attr) 0 [].

Definition SetAttr (now inodeID : Z) (a : SetAttrArgs) : M EntryAttr :=
  beginTxLocked ;;
  checkBackpressureLocked ;;
  inodeID ← normalizeInodeID inodeID;
  node ← getOrLoadInodeLocked true inodeID;
  res ← (if negb (sa_modified a) then
           attr ← toEntryAttrLocked true inodeID [];
           mret (attr, None)
         else
           let node := mutate (set_attrs_row now a) node in
           tx_Update (RInode (n_Row node)) ;;
           commitSeq ← commitTxLocked;
           w ← makeWaitFn commitSeq;
           v ← get_vol;
           mret (toEntryAttr v (n_Row node) [], w));
  waitFn (snd res) ;;
  Broadcast (event_modified (fst res)) ;;
  mret (fst res).

(** ** Extended attributes *)

Inductive xattr_flags : Type := FLAGS_NONE | FLAGS_CREATE | FLAGS_REPLACE.

Definition xattr_name_ok (name : bytes) : M () :=
  check (blen name <=? MaxXAttrNameLength) ENAMETOOLONG ;;
  check (negb (has_prefix (go "system.") name)) ENOTSUP.

Definition GetXAttr (inodeID : Z) (name : bytes) : M bytes :=
  xattr_name_ok name ;;
  inodeID ← normalizeInodeID inodeID;
  getOrLoadInodeLocked false inodeID ;;
  msg ← getSQLiteRowLocked false (KXAttr inodeID name);
  match as_xattr msg with
  | None => throw (Errno ENODATA)
  | Some x => mret (xa_Value x)
  end.

Definition SetXAttr (now inodeID : Z) (name value : bytes) (flags : xattr_flags) : M () :=
  xattr_name_ok name ;;
  check (blen value <=? MaxXAttrValueLength) E2BIG ;;
  beginTxLocked ;;
  checkBackpressureLocked ;;
  inodeID ← normalizeInodeID inodeID;
  node ← getOrLoadInodeLocked true inodeID;
  msg ← getSQLiteRowLocked true (KXAttr inodeID name);
  let exists_ := bool_decide (is_Some (as_xattr msg)) in
  match flags, exists_ with
  | FLAGS_CREATE, true => throw (Errno EEXIST)
  | FLAGS_REPLACE, false => throw (Errno ENODATA)
  | _, _ => mret ()
  end ;;
  let node := mutate (fun r =>
    let r := with_ctime now r in
    if exists_ then r else with_xattr_count (u32 (GetXattrCount r + 1)) r) node in
  let xattrMsg := RXAttr (mkXAttr inodeID name value) in
  (if exists_ then tx_Update xattrMsg else tx_Insert xattrMsg) ;;
  tx_Update (RInode (n_Row node)) ;;
  commitSeq ← commitTxLocked;
  w ← makeWaitFn commitSeq;
  v ← get_vol;
  let attr := toEntryAttr v (n_Row node) [] in
  waitFn w ;;
  Broadcast (event_modified attr).

Definition ListXAttr (inodeID : Z) : M (list XAttr) :=
  inodeID ← normalizeInodeID inodeID;
  getOrLoadInodeLocked false inodeID ;;
  msgs ← scanSQLiteRowsLocked false (PXAttr inodeID);
  mret (omap (fun m => as_xattr (Some m)) msgs).

Definition RemoveXAttr (now inodeID : Z) (name : bytes) : M () :=
  xattr_name_ok name ;;
  beginTxLocked ;;
  checkBackpressureLocked ;;
  inodeID ← normalizeInodeID inodeID;
  node ← getOrLoadInodeLocked true inodeID;
  msg ← getSQLiteRowLocked true (KXAttr inodeID name);
  check (bool_decide (is_Some (as_xattr msg))) ENODATA ;;
  let node := mutate (fun r =>
    let r := with_ctime now r in
    if GetXattrCount r >? 0 then with_xattr_count (GetXattrCount r - 1) r else with_xattr_count 0 r) node in
  tx_Delete (KXAttr inodeID name) ;;
  tx_Update (RInode (n_Row node)) ;;
  commitSeq ← commitTxLocked;
  w ← makeWaitFn commitSeq;
  v ← get_vol;
  let attr := toEntryAttr v (n_Row node) [] in
  waitFn w ;;
  Broadcast (event_modified attr).

(** ** Creating entries *)

Definition set_gid (r : Inode) : bool := negb (Z.land (i_Mode r) S_ISGID =? 0).

Definition new_inode (ino mode size now uid gid : Z) (isDir : bool) (nlink : Z) : Inode :=
  mkInode ino mode size (Some now) isDir [] [] [] 0 uid gid (Some now) (Some now) nlink [] 0 None (Some 0).

Definition event_created (attr : EntryAttr) (ino parent : Z) (name : bytes) (commitSeq : Z) : Event :=
  mkEvent EVENT_CREATED (Some attr) ino parent name commitSeq 0 [].

Definition Mkdir (now parentInodeID : Z) (name : bytes) (mode uid gid : Z) : M EntryAttr :=
  check (blen name <=? MaxNameLength) ENAMETOOLONG ;;
  beginTxLocked ;;
  checkBackpressureLocked ;;
  parentInodeID ← normalizeInodeID parentInodeID;
  check (negb (invalid_name name)) EINVAL ;;
  parentInode ← getOrLoadInodeLocked true parentInodeID;
  check (i_IsDir (n_Row parentInode)) ENOTDIR ;;
  de ← getDirEntrySQLiteLocked true parentInodeID name;
  check (bool_decide (de = None)) EEXIST ;;
  let mode := if mode =? 0 then mode_0755 else mode in
  let mode := Z.lor mode S_IFDIR in
  let inherit := set_gid (n_Row parentInode) in
  let gid := if inherit then i_Gid (n_Row parentInode) else gid in
  let mode := if inherit then Z.lor mode S_ISGID else mode in
  childInodeID ← allocInode true;
  let parentInode := mutate (fun r =>
    let n := if i_Nlink r <? 2 then 2 else i_Nlink r in
    with_mctime now (with_nlink (u32 (n + 1)) r)) parentInode in
  set_parent childInodeID parentInodeID ;;
  let childInodeMsg := with_parent parentInodeID (new_inode childInodeID mode 0 now uid gid true 2) in
  commitSeq ← on_error
    (tx_Insert (RInode childInodeMsg) ;;
     tx_Insert (RDirEntry (mkDirEntry parentInodeID name childInodeID true mode)) ;;
     tx_Update (RInode (n_Row parentInode)) ;;
     commitTxLocked)
    (fun v => set_dirParents (delete childInodeID (v_dirParents v)) v);
  w ← makeWaitFn commitSeq;
  v ← get_vol;
  let attr := toEntryAttr v childInodeMsg name in
  Broadcast (event_created attr childInodeID parentInodeID name commitSeq) ;;
  waitFn w ;;
  mret attr.

Definition Symlink (now parentInodeID : Z) (name target : bytes) (uid gid : Z) : M EntryAttr :=
  check (blen name <=? MaxNameLength) ENAMETOOLONG ;;
  beginTxLocked ;;
  checkBackpressureLocked ;;
  parentInodeID ← normalizeInodeID parentInodeID;
  check (negb (invalid_name name)) EINVAL ;;
  parentInode ← getOrLoadInodeLocked true parentInodeID;
  check (i_IsDir (n_Row parentInode)) ENOTDIR ;;
  de ← getDirEntrySQLiteLocked true parentInodeID name;
  check (bool_decide (de = None)) EEXIST ;;
  let mode := Z.lor mode_rwx S_IFLNK in
  let gid := if set_gid (n_Row parentInode) then i_Gid (n_Row parentInode) else gid in
  childInodeID ← allocInode true;
  let parentInode := mutate (with_mctime now) parentInode in
  let childRow := mkInode childInodeID mode (blen target) (Some now) false [] [] [] 0 uid gid (Some now) (Some now) 1
                    target 0 None (Some 0) in
  tx_Insert (RInode childRow) ;;
  tx_Insert (RDirEntry (mkDirEntry parentInodeID name childInodeID false mode)) ;;
  tx_Update (RInode (n_Row parentInode)) ;;
  commitSeq ← commitTxLocked;
  w ← makeWaitFn commitSeq;
  v ← get_vol;
  let attr := toEntryAttr v childRow name in
  Broadcast (event_created attr childInodeID parentInodeID name commitSeq) ;;
  waitFn w ;;
  mret attr.

Definition Link (now oldInodeID newParentInodeID : Z) (newName : bytes) : M EntryAttr :=
  check (blen newName <=? MaxNameLength) ENAMETOOLONG ;;
  beginTxLocked ;;
  checkBackpressureLocked ;;
  oldInodeID ← normalizeInodeID oldInodeID;
  newParentInodeID ← normalizeInodeID newParentInodeID;
  check (negb (invalid_name newName)) EINVAL ;;
  oldNode ← getOrLoadInodeLocked true oldInodeID;
  check (negb (i_IsDir (n_Row oldNode) || (Z.land (i_Mode (n_Row oldNode)) S_IFMT =? S_IFDIR))) EPERM ;;
  newParentInode ← getOrLoadInodeLocked true newParentInodeID;
  check (i_IsDir (n_Row newParentInode)) ENOTDIR ;;
  de ← getDirEntrySQLiteLocked true newParentInodeID newName;
  check (bool_decide (de = None)) EEXIST ;;
  let oldNode := mutate (fun r =>
    let n := if i_Nlink r =? 0 then 1 else i_Nlink r in
    with_ctime now (with_nlink (u32 (n + 1)) r)) oldNode in
  let newParentInode := mutate (with_mctime now) newParentInode in
  tx_Update (RInode (n_Row oldNode)) ;;
  tx_Insert (RDirEntry (mkDirEntry newParentInodeID newName (i_Ino (n_Row oldNode)) false (i_Mode (n_Row oldNode)))) ;;
  tx_Update (RInode (n_Row newParentInode)) ;;
  commitSeq ← commitTxLocked;
  w ← makeWaitFn commitSeq;
  v ← get_vol;
  let attr := toEntryAttr v (n_Row oldNode) newName in
  Broadcast (event_created attr (i_Ino (n_Row oldNode)) newParentInodeID newName commitSeq) ;;
  waitFn w ;;
  mret attr.

(** ** Files with their first content *)

Definition effective_chunk_size (c : Config) (r : Z) : Z :=
  if r =? 0 then if c_chunkSize c =? 0 then 65536 else c_chunkSize c else r.

(** The pieces of [cs] bytes the content is cut into. *)
Definition split_chunks (cs : Z) (data : bytes) : list bytes :=
  let numChunks := Z.to_nat ((blen data + cs - 1) / cs) in
  (fun i => slice (i * Z.to_nat cs) (min ((i + 1) * Z.to_nat cs) (length data)) data) <$> seq 0 numChunks.

Definition PutBlobs (blobs : list bytes) : M () :=
  v ← get_vol;
  if c_blobs (v_cfg v) && negb (bool_decide (blobs = [])) then
    external ;;
    upd_vol (fun v => set_blobs (foldl (fun m d => <[sha256Hex d := d]> m) (v_blobs v) blobs) v)
  else mret ().

Definition chunk_rows (ino : Z) (blobs : list bytes) : list row :=
  imap (fun i d => RFileChunk (mkFileChunk ino (Z.of_nat i) (sha256Hex d) [])) blobs.

Definition chunks_in (msgs : list row) : list FileChunk := omap (fun m => as_chunk (Some m)) msgs.

(** The rows of the content of a new file, and of one that is overwritten, whose
    old rows [chunkMsgs] are replaced. *)
Definition insert_content (ino cs : Z) (dataCopy : bytes) : M () :=
  v ← get_vol;
  if blen dataCopy <=? c_maxInlineLen (v_cfg v) then
    if blen dataCopy >? 0 then tx_Insert (RFileChunk (mkFileChunk ino 0 [] dataCopy)) else mret ()
  else
    let blobs := split_chunks cs dataCopy in
    PutBlobs blobs ;;
    for_each (chunk_rows ino blobs) tx_Insert.

Definition replace_content (ino cs : Z) (dataCopy : bytes) (chunkMsgs : list row) : M () :=
  v ← get_vol;
  let old := chunks_in chunkMsgs in
  if blen dataCopy <=? c_maxInlineLen (v_cfg v) then
    for_each old (fun c => tx_Delete (KFileChunk ino (fc_Index c))) ;;
    if blen dataCopy >? 0 then tx_Insert (RFileChunk (mkFileChunk ino 0 [] dataCopy)) else mret ()
  else
    let blobs := split_chunks cs dataCopy in
    PutBlobs blobs ;;
    for_each old (fun c =>
      if fc_Index c <? Z.of_nat (length blobs) then mret () else tx_Delete (KFileChunk ino (fc_Index c))) ;;
    for_each (chunk_rows ino blobs) tx_Insert.

(** The mode with its file type: a mode without one is a regular file. *)
Definition file_mode (mode : Z) : Z :=
  if Z.land mode S_IFMT =? 0 then
    Z.lor (if Z.land mode mode_rwx =? 0 then Z.lor mode mode_0644 else mode) S_IFREG
  else mode.

Definition file_type_ok (fileType : Z) : bool :=
  (fileType =? S_IFREG) || (fileType =? S_IFIFO) || (fileType =? S_IFSOCK) || (fileType =? S_IFCHR) ||
  (fileType =? S_IFBLK).

Definition overwrite_row (c : Config) (now mode uid gid cs : Z) (hashStr dataCopy : bytes) (r : Inode) : Inode :=
  let manifest := if blen dataCopy <=? c_maxInlineLen c then [] else i_ManifestSha256 r in
  with_mctime now (with_owner mode uid gid (with_content (blen dataCopy) cs [] manifest hashStr r)).

Definition CreateFile_overwrite (now parentInodeID : Z) (name : bytes) (mode uid gid : Z) (hashStr dataCopy : bytes)
    (parentInode : CachedInode) (existingChildIno : Z) : M (EntryAttr * option Z) :=
  childInode ← getOrLoadInodeLocked true existingChildIno;
  check (negb (i_IsDir (n_Row childInode))) EISDIR ;;
  check ((Z.land mode S_IFMT =? S_IFREG) && (Z.land (i_Mode (n_Row childInode)) S_IFMT =? S_IFREG)) EEXIST ;;
  v ← get_vol;
  let cs := effective_chunk_size (v_cfg v) (i_ChunkSize (n_Row childInode)) in
  let childInode := mutate (overwrite_row (v_cfg v) now mode uid gid cs hashStr dataCopy) childInode in
  let parentInode := mutate (with_mctime now) parentInode in
  let ino := i_Ino (n_Row childInode) in
  chunkMsgs ← scanSQLiteRowsLocked true (PFileChunk ino);
  replace_content ino cs dataCopy chunkMsgs ;;
  tx_Update (RInode (n_Row childInode)) ;;
  tx_Update (RInode (n_Row parentInode)) ;;
  commitSeq ← commitTxLocked;
  w ← makeWaitFn commitSeq;
  v ← get_vol;
  let attr := toEntryAttr v (n_Row childInode) name in
  Broadcast (mkEvent EVENT_MODIFIED (Some attr) ino parentInodeID name commitSeq 0 []) ;;
  mret (attr, w).

Definition CreateFile_new (now parentInodeID : Z) (name : bytes) (mode uid gid rdev : Z) (hashStr dataCopy : bytes)
    (parentInode : CachedInode) : M (EntryAttr * option Z) :=
  childInodeID ← allocInode true;
  let parentInode := mutate (with_mctime now) parentInode in
  v ← get_vol;
  let cs := effective_chunk_size (v_cfg v) 0 in
  let childRow := mkInode childInodeID mode (blen dataCopy) (Some now) false [] [] hashStr cs uid gid (Some now)
                    (Some now) 1 [] rdev None (Some 0) in
  (if Z.land mode S_IFMT =? S_IFREG then insert_content childInodeID cs dataCopy else mret ()) ;;
  tx_Insert (RInode childRow) ;;
  tx_Insert (RDirEntry (mkDirEntry parentInodeID name childInodeID false mode)) ;;
  tx_Update (RInode (n_Row parentInode)) ;;
  commitSeq ← commitTxLocked;
  w ← makeWaitFn commitSeq;
  v ← get_vol;
  let attr := toEntryAttr v childRow name in
  Broadcast (event_created attr childInodeID parentInodeID name commitSeq) ;;
  mret (attr, w).

Definition CreateFile (now parentInodeID : Z) (name : bytes) (mode : Z) (initialContent : bytes) (uid gid rdev : Z)
    : M EntryAttr :=
  check (blen name <=? MaxNameLength) ENAMETOOLONG ;;
  beginTxLocked ;;
  checkBackpressureLocked ;;
  parentInodeID ← normalizeInodeID parentInodeID;
  check (negb (invalid_name name)) EINVAL ;;
  parentInode ← getOrLoadInodeLocked true parentInodeID;
  check (i_IsDir (n_Row parentInode)) ENOTDIR ;;
  de ← getDirEntrySQLiteLocked true parentInodeID name;
  let mode := file_mode mode in
  let fileType := Z.land mode S_IFMT in
  check (file_type_ok fileType) EINVAL ;;
  let gid := if set_gid (n_Row parentInode) then i_Gid (n_Row parentInode) else gid in
  let regular := fileType =? S_IFREG in
  let hashStr := if regular && (blen initialContent >? 0) then sha256Hex initialContent else [] in
  let dataCopy := if regular then initialContent else [] in
  res ← match de with
        | Some de => CreateFile_overwrite now parentInodeID name mode uid gid hashStr dataCopy parentInode (de_Ino de)
        | None => CreateFile_new now parentInodeID name mode uid gid rdev hashStr dataCopy parentInode
        end;
  waitFn (snd res) ;;
  mret (fst res).

(** ** Handles *)

Definition AllocFh (inodeID : Z) : M Z :=
  inodeID ← normalizeInodeID inodeID;
  v ← get_vol;
  let h := v_handles v in
  let fh := u64 (h_nextFh h + 1) in
  upd_vol (set_handles (mkHandles fh (<[fh := inodeID]> (h_handles h))
    (<[inodeID := default 0 (h_openInodes h !! inodeID) + 1]> (h_openInodes h)))) ;;
  mret fh.

Definition hasOpenHandlesLocked (v : Volume) (inodeID : Z) : bool :=
  default 0 (h_openInodes (v_handles v) !! inodeID) >? 0.

(** [Open] outside the close-to-open mode, which first waits for a sync. *)
Definition Open (inodeID : Z) : M (Z * EntryAttr * Z) :=
  inodeID ← normalizeInodeID inodeID;
  node ← getOrLoadInodeLocked false inodeID;
  v ← get_vol;
  fh ← AllocFh inodeID;
  mret (fh, toEntryAttr v (n_Row node) [], v_lastCommitSeq v).

(** ** Removing entries *)

Definition deleteInodeRowsLocked (t : bool) (ino : Z) : M () :=
  chunkMsgs ← scanSQLiteRowsLocked t (PFileChunk ino);
  xattrMsgs ← scanSQLiteRowsLocked t (PXAttr ino);
  tx_Delete (KInode ino) ;;
  for_each (chunks_in chunkMsgs) (fun c => tx_Delete (KFileChunk ino (fc_Index c))) ;;
  for_each (omap (fun m => as_xattr (Some m)) xattrMsgs) (fun x => tx_Delete (KXAttr ino (xa_Name x))).

Definition event_deleted (ino parent : Z) (name : bytes) (commitSeq : Z) : Event :=
  mkEvent EVENT_DELETED None ino parent name commitSeq 0 [].

Definition unlinked_row (now : Z) (r : Inode) : Inode :=
  with_ctime now (with_nlink (if i_Nlink r >? 1 then i_Nlink r - 1 else 0) r).

(** [Unlink] takes the lock twice: it finds the inode, drops its staged writes
    under the staging lock, and then removes the entry. *)
Definition Unlink_find (parentInodeID : Z) (name : bytes) : M Z :=
  de ← getDirEntrySQLiteLocked false parentInodeID name;
  match de with
  | None => throw (Errno ENOENT)
  | Some de =>
      childInode ← getOrLoadInodeLocked false (de_Ino de);
      check (negb (i_IsDir (n_Row childInode))) EISDIR ;;
      mret (i_Ino (n_Row childInode))
  end.

Definition Unlink_drop (childInodeID : Z) : M () :=
  upd_vol (fun v => set_staging (dropStagedChunksLocked childInodeID (v_staging v)) v).

Definition Unlink_remove (now parentInodeID : Z) (name : bytes) (childInodeID : Z) : M Z :=
  beginTxLocked ;;
  checkBackpressureLocked ;;
  de ← getDirEntrySQLiteLocked true parentInodeID name;
  check (bool_decide (is_Some de)) ENOENT ;;
  childInode ← getOrLoadInodeLocked true childInodeID;
  let childInode := mutate (unlinked_row now) childInode in
  parentInode ← getOrLoadInodeLocked true parentInodeID;
  let parentInode := mutate (with_mctime now) parentInode in
  v ← get_vol;
  (if (i_Nlink (n_Row childInode) =? 0) && negb (hasOpenHandlesLocked v childInodeID) then
     deleteInodeRowsLocked true childInodeID
   else tx_Update (RInode (n_Row childInode))) ;;
  tx_Delete (KDirEntry parentInodeID name) ;;
  tx_Update (RInode (n_Row parentInode)) ;;
  commitSeq ← commitTxLocked;
  w ← makeWaitFn commitSeq;
  Broadcast (event_deleted (i_Ino (n_Row childInode)) parentInodeID name commitSeq) ;;
  waitFn w ;;
  mret commitSeq.

Definition Unlink (now parentInodeID : Z) (name : bytes) : M Z :=
  check (blen name <=? MaxNameLength) ENAMETOOLONG ;;
  parentInodeID ← normalizeInodeID parentInodeID;
  childInodeID ← Unlink_find parentInodeID name;
  Unlink_drop childInodeID ;;
  Unlink_remove now parentInodeID name childInodeID.

Definition Rmdir (now parentInodeID : Z) (name : bytes) : M Z :=
  check (blen name <=? MaxNameLength) ENAMETOOLONG ;;
  beginTxLocked ;;
  checkBackpressureLocked ;;
  parentInodeID ← normalizeInodeID parentInodeID;
  de ← getDirEntrySQLiteLocked true parentInodeID name;
  match de with
  | None => throw (Errno ENOENT)
  | Some de =>
      let childInodeID := de_Ino de in
      childInode ← getOrLoadInodeLocked true childInodeID;
      check (i_IsDir (n_Row childInode)) ENOTDIR ;;
      subEntries ← scanLimitSQLiteRowsLocked true (PDirEntry childInodeID) 1;
      check (bool_decide (subEntries = [])) ENOTEMPTY ;;
      del_parent childInodeID ;;
      parentInode ← getOrLoadInodeLocked true parentInodeID;
      let parentInode := mutate (fun r =>
        with_mctime now (if i_Nlink r >? 2 then with_nlink (i_Nlink r - 1) r else r)) parentInode in
      deleteInodeRowsLocked true childInodeID ;;
      tx_Delete (KDirEntry parentInodeID name) ;;
      tx_Update (RInode (n_Row parentInode)) ;;
      commitSeq ← commitTxLocked;
      w ← makeWaitFn commitSeq;
      Broadcast (event_deleted childInodeID parentInodeID name commitSeq) ;;
      waitFn w ;;
      mret commitSeq
  end.

(** ** Renaming

    The inodes are loaded into separate copies, also when two of them are the
    same inode. *)

Record renaming := mkRenaming {
  rn_child : CachedInode;
  rn_oldParent : CachedInode;
  rn_newParent : CachedInode;
  rn_target : option (Z * CachedInode);
  rn_targetChunks : list row
}.

(** The walk from the new parent to the root: [Some true] when it passes,
    [Some false] when it meets the moved directory, [None] when the fuel runs
    out. *)
Fixpoint ancestor_walk (fuel : nat) (dirParents : gmap Z Z) (root child currCheck : Z) : option bool :=
  match fuel with
  | O => None
  | S fuel =>
      if (currCheck =? 0) || (currCheck =? root) then Some true
      else if currCheck =? child then Some false
      else match dirParents !! currCheck with
           | None => Some true
           | Some pIno => if pIno =? currCheck then Some true else ancestor_walk fuel dirParents root child pIno
           end
  end.

Definition Rename_load (oldParentInodeID : Z) (oldName : bytes) (newParentInodeID : Z) (newName : bytes) : M renaming :=
  oldDe ← getDirEntrySQLiteLocked true oldParentInodeID oldName;
  match oldDe with
  | None => throw (Errno ENOENT)
  | Some oldDe =>
      newParentInode ← getOrLoadInodeLocked true newParentInodeID;
      check (i_IsDir (n_Row newParentInode)) ENOTDIR ;;
      targetDe ← getDirEntrySQLiteLocked true newParentInodeID newName;
      childInode ← getOrLoadInodeLocked true (de_Ino oldDe);
      oldParentInode ← getOrLoadInodeLocked true oldParentInodeID;
      match targetDe with
      | None => mret (mkRenaming childInode oldParentInode newParentInode None [])
      | Some targetDe =>
          let targetInodeID := de_Ino targetDe in
          targetInode ← getOrLoadInodeLocked true targetInodeID;
          v ← get_vol;
          targetChunkMsgs ←
            (if negb (i_IsDir (n_Row targetInode)) && (i_Nlink (n_Row targetInode) <=? 1) &&
                negb (hasOpenHandlesLocked v targetInodeID)
             then scanSQLiteRowsLocked true (PFileChunk targetInodeID) else mret []);
          mret (mkRenaming childInode oldParentInode newParentInode (Some (targetInodeID, targetInode)) targetChunkMsgs)
      end
  end.

Definition lose_subdir (r : Inode) : Inode := if i_Nlink r >? 2 then with_nlink (i_Nlink r - 1) r else r.
Definition gain_subdir (r : Inode) : Inode := with_nlink (u32 ((if i_Nlink r <? 2 then 2 else i_Nlink r) + 1)) r.

(** A directory is moved: the target must be an empty directory, the new parent
    must not be below it, and the link counts of the parents change. *)
Definition Rename_directory (oldParentInodeID newParentInodeID : Z) (rn : renaming) : M renaming :=
  let '(mkRenaming child oldParent newParent target chunks) := rn in
  match target with
  | None => mret ()
  | Some (targetInodeID, targetInode) =>
      check (i_IsDir (n_Row targetInode)) ENOTDIR ;;
      subEntries ← scanLimitSQLiteRowsLocked true (PDirEntry targetInodeID) 1;
      check (bool_decide (subEntries = [])) ENOTEMPTY
  end ;;
  parents ←
    (if negb (newParentInodeID =? oldParentInodeID) then
       v ← get_vol;
       match ancestor_walk (S (size (v_dirParents v))) (v_dirParents v) (rootInodeID v) (i_Ino (n_Row child)) newParentInodeID with
       | None => throw Diverge
       | Some false => throw (Errno EINVAL)
       | Some true =>
           set_parent (i_Ino (n_Row child)) newParentInodeID ;;
           mret (mutate lose_subdir oldParent,
                 if bool_decide (target = None) then mutate gain_subdir newParent else newParent)
       end
     else mret (oldParent, if bool_decide (target = None) then newParent else mutate lose_subdir newParent));
  mret (mkRenaming (mutate (with_parent newParentInodeID) child) (fst parents) (snd parents) target chunks).

Definition Rename_file (rn : renaming) : M renaming :=
  match rn_target rn with
  | Some (_, targetInode) => check (negb (i_IsDir (n_Row targetInode))) EISDIR
  | None => mret ()
  end ;;
  mret rn.

(** The replaced inode loses its entry. *)
Definition Rename_replace (now : Z) (target : option (Z * CachedInode)) : M (option (Z * CachedInode)) :=
  match target with
  | None => mret None
  | Some (targetInodeID, targetInode) =>
      if i_IsDir (n_Row targetInode) then
        del_parent targetInodeID ;; mret (Some (targetInodeID, targetInode))
      else mret (Some (targetInodeID, mutate (unlinked_row now) targetInode))
  end.

Definition Rename_write_target (newParentInodeID : Z) (newName : bytes) (target : option (Z * CachedInode))
    (targetChunkMsgs : list row) : M () :=
  match target with
  | None => mret ()
  | Some (targetInodeID, targetInode) =>
      tx_Delete (KDirEntry newParentInodeID newName) ;;
      v ← get_vol;
      if i_IsDir (n_Row targetInode) then tx_Delete (KInode (i_Ino (n_Row targetInode)))
      else if i_Nlink (n_Row targetInode) =? 0 then
        if hasOpenHandlesLocked v targetInodeID then tx_Update (RInode (n_Row targetInode))
        else
          tx_Delete (KInode (i_Ino (n_Row targetInode))) ;;
          for_each (chunks_in targetChunkMsgs) (fun c => tx_Delete (KFileChunk targetInodeID (fc_Index c)))
      else tx_Update (RInode (n_Row targetInode))
  end.

(** The writes, the commit and the answer. *)
Definition Rename_commit (now oldParentInodeID : Z) (oldName : bytes) (newParentInodeID : Z) (newName : bytes)
    (rn : renaming) (target : option (Z * CachedInode)) : M EntryAttr :=
  let childInode := mutate (with_ctime now) (rn_child rn) in
  let oldParentInode := mutate (with_mctime now) (rn_oldParent rn) in
  let newParentInode := mutate (with_mctime now) (rn_newParent rn) in
  tx_Delete (KDirEntry oldParentInodeID oldName) ;;
  Rename_write_target newParentInodeID newName target (rn_targetChunks rn) ;;
  tx_Insert (RDirEntry (mkDirEntry newParentInodeID newName (i_Ino (n_Row childInode)) (i_IsDir (n_Row childInode))
    (i_Mode (n_Row childInode)))) ;;
  tx_Update (RInode (n_Row childInode)) ;;
  tx_Update (RInode (n_Row oldParentInode)) ;;
  (if negb (newParentInodeID =? oldParentInodeID) then tx_Update (RInode (n_Row newParentInode)) else mret ()) ;;
  commitSeq ← commitTxLocked;
  w ← makeWaitFn commitSeq;
  v ← get_vol;
  let attr := toEntryAttr v (n_Row childInode) newName in
  Broadcast (mkEvent EVENT_RENAMED (Some attr) (i_Ino (n_Row childInode)) newParentInodeID newName commitSeq
    oldParentInodeID oldName) ;;
  waitFn w ;;
  mret attr.

Definition Rename (now oldParentInodeID : Z) (oldName : bytes) (newParentInodeID : Z) (newName : bytes) : M EntryAttr :=
  check ((blen oldName <=? MaxNameLength) && (blen newName <=? MaxNameLength)) ENAMETOOLONG ;;
  beginTxLocked ;;
  checkBackpressureLocked ;;
  oldParentInodeID ← normalizeInodeID oldParentInodeID;
  newParentInodeID ← normalizeInodeID newParentInodeID;
  check (negb (invalid_name oldName || invalid_name newName)) EINVAL ;;
  rn ← Rename_load oldParentInodeID oldName newParentInodeID newName;
  rn ← (if i_IsDir (n_Row (rn_child rn)) then Rename_directory oldParentInodeID newParentInodeID rn else Rename_file rn);
  target ← Rename_replace now (rn_target rn);
  Rename_commit now oldParentInodeID oldName newParentInodeID newName rn target.

(** ** Orphans: files without a link that were open *)

(** Errors of the load are ignored. *)
Definition try_load (t : bool) (inodeID : Z) : M (option CachedInode) := fun s =>
  match getOrLoadInodeLocked t inodeID s with
  | (Ok n, s) => (Ok (Some n), s)
  | (Err Panic, s) => (Err Panic, s)
  | (Err _, s) => (Ok None, s)
  end.

Definition Release (inodeID fh : Z) : M () :=
  beginTxLocked ;;
  inodeID ← normalizeInodeID inodeID;
  v ← get_vol;
  let h := v_handles v in
  let held := if fh =? 0 then None else h_handles h !! fh in
  let inodeID := default inodeID held in
  let handles := match held with Some _ => delete fh (h_handles h) | None => h_handles h end in
  let count := default 0 (h_openInodes h !! inodeID) in
  if count >? 1 then
    upd_vol (set_handles (mkHandles (h_nextFh h) handles (<[inodeID := count - 1]> (h_openInodes h))))
  else
    upd_vol (set_handles (mkHandles (h_nextFh h) handles (delete inodeID (h_openInodes h)))) ;;
    node ← try_load true inodeID;
    match node with
    | None => mret ()
    | Some node =>
        if negb (i_IsDir (n_Row node)) && (i_Nlink (n_Row node) =? 0) then
          deleteInodeRowsLocked true inodeID ;;
          commitSeq ← commitTxLocked;
          w ← makeWaitFn commitSeq;
          waitFn w
        else mret ()
    end.

Fixpoint scan_orphans (inos : list Z) : M (list (Z * list row)) :=
  match inos with
  | [] => mret []
  | ino :: inos =>
      chunkMsgs ← scanSQLiteRowsLocked true (PFileChunk ino);
      rest ← scan_orphans inos;
      mret ((ino, chunkMsgs) :: rest)
  end.

Definition is_orphan (r : Inode) : bool := negb (i_IsDir r) && (i_Nlink r =? 0).

Definition cleanOrphanInodesLocked : M Z :=
  beginTxLocked ;;
  msgs ← scanSQLiteRowsLocked true PInodes;
  let orphanInos := i_Ino <$> filter (fun r => is_orphan r = true) (omap (fun m => as_inode (Some m)) msgs) in
  if bool_decide (orphanInos = []) then mret 0
  else
    orphanChunks ← scan_orphans orphanInos;
    for_each orphanChunks (fun '(ino, chunkMsgs) =>
      tx_Delete (KInode ino) ;;
      for_each (chunks_in chunkMsgs) (fun c => tx_Delete (KFileChunk ino (fc_Index c)))) ;;
    commitSeq ← commitTxLocked;
    w ← makeWaitFn commitSeq;
    waitFn w ;;
    mret (Z.of_nat (length orphanInos)).

(** ** Loading *)

Definition initNextInodeFromStatsLocked (highestReplayedIno : Z) (v : Volume) : Volume :=
  let maxIno := Z.max (vs_MaxIno (v_liveStats v)) highestReplayedIno in
  let next := u64 (u64 (maxIno + DefaultInodeStride) / DefaultInodeStride * DefaultInodeStride) in
  let n := if (maxIno >? 0) && (next >? v_nextInode v) then next else v_nextInode v in
  set_nextInode (if n <? DefaultInodeStride then DefaultInodeStride else n) v.

(** The root row of a volume without rows. *)
Definition root_row (now : Z) : Inode :=
  mkInode 1 (Z.lor mode_0755 S_IFDIR) 0 (Some now) true [] [] [] 0 0 0 None None 2 [] 0 None (Some 0).

Definition empty_rows : Rows := mkRows ∅ ∅ ∅ ∅.
Definition zero_stats : VolumeStats := mkStats 0 0 0 0 0 0 0.

(** A volume in memory: what a process has before it loads. *)
Definition NewVolume (cfg : Config) (R : Rows) (st : VolumeStats) (seq : Z) (blobs : gmap bytes bytes) : Volume :=
  mkVolume cfg R st DefaultInodeStride seq ∅ (mkHandles 0 ∅ ∅) [] blobs empty_staging.

Definition init_root (now : Z) (v : Volume) : Volume :=
  let v := match r_inodes (v_rows v) !! 1 with
           | Some _ => v
           | None =>
               set_rows (apply_change (v_rows v) (ChInsert (RInode (root_row now))))
                 (UpdateStatsForInodeChange (v_liveStats v) None (Some (root_row now))) v
           end in
  set_dirParents (<[1 := 1]> (v_dirParents v)) (set_nextInode DefaultInodeStride v).

(** The end of [loadFromBackendMetadataLocked], once the rows and statistics of
    the stream are there: the root of a volume that had no index, the orphans
    (whose failure is only logged) and the next inode number. *)
Definition loadFromBackendMetadataLocked (initialized : bool) (now highestReplayedIno : Z) (v : Volume) (env : list reply)
    : result verr () * Volume :=
  let '(r, v) := run cleanOrphanInodesLocked (if initialized then v else init_root now v) env in
  match r with
  | Err Panic => (Err Panic, v)
  | _ => (Ok (), initNextInodeFromStatsLocked highestReplayedIno v)
  end.
