(* ===== verification/VolLogic.v ===== *)
(** * VolLogic: reasoning about the operations of a volume

    A weakest-precondition reading of the computations of [VolRows], and rules
    for its helpers.  [at_ v K cs s] says where an operation is: the volume is
    [v] (up to the parents it remembers), the keys in [K] have been read, and
    the changes [cs] are buffered. *)

From S2P Require Import Prelude Bytes Sha256 VolRows VolStaging VolNamespace.

#[local] Open Scope Z_scope.
#[local] Open Scope list_scope.

Definition wp {A} (m : M A) (Q : result verr A -> St -> Prop) (s : St) : Prop := let '(r, s') := m s in Q r s'.

Lemma wp_ret {A} (a : A) Q s : Q (Ok a) s -> wp (mret a) Q s.
Proof. done. Qed.

Lemma wp_throw {A} e (Q : result verr A -> St -> Prop) s : Q (Err e) s -> wp (throw e) Q s.
Proof. done. Qed.

Lemma wp_bind {A B} (m : M A) (f : A -> M B) Q s :
  wp m (fun r s' => match r with Ok a => wp (f a) Q s' | Err e => Q (Err e) s' end) s -> wp (m ≫= f) Q s.
Proof. unfold wp, mbind, M_bind. destruct (m s) as [[a|e] s']; done. Qed.

Lemma wp_mono {A} (m : M A) (Q Q' : result verr A -> St -> Prop) s :
  wp m Q s -> (forall r s', Q r s' -> Q' r s') -> wp m Q' s.
Proof. unfold wp. destruct (m s) as [r s']. auto. Qed.

Lemma wp_check b e Q s :
  (b = true -> Q (Ok ()) s) -> (b = false -> Q (Err (Errno e)) s) -> wp (check b e) Q s.
Proof. unfold check. destruct b; intros H1 H2; [by apply H1|by apply H2]. Qed.

Lemma wp_get_vol Q s : Q (Ok (s_vol s)) s -> wp get_vol Q s.
Proof. done. Qed.

Lemma wp_get_tx Q s : Q (Ok (s_tx s)) s -> wp get_tx Q s.
Proof. done. Qed.

Lemma wp_upd_vol f Q s : Q (Ok ()) (mkSt (f (s_vol s)) (s_tx s) (s_env s)) -> wp (upd_vol f) Q s.
Proof. done. Qed.

Lemma wp_upd_tx f Q s : Q (Ok ()) (mkSt (s_vol s) (f (s_tx s)) (s_env s)) -> wp (upd_tx f) Q s.
Proof. done. Qed.

Lemma wp_external Q s :
  (forall n env, Q (Ok n) (mkSt (s_vol s) (s_tx s) env)) ->
  (forall env, Q (Err Failure) (mkSt (s_vol s) (s_tx s) env)) -> wp external Q s.
Proof.
  intros H1 H2. unfold wp, external. destruct s as [v t env]. cbn in *.
  destruct env as [|[n|] env]; [apply (H1 0 [])|apply H1|apply H2].
Qed.

Lemma wp_run {A} (m : M A) v env (Q : result verr A -> Volume -> Prop) :
  wp m (fun r s' => Q r (s_vol s')) (mkSt v empty_tx env) -> let '(r, v') := run m v env in Q r v'.
Proof. unfold wp, run. by destruct (m _) as [r s']. Qed.

Lemma wp_on_error {A} (m : M A) f Q s :
  wp m (fun r s' => match r with
                    | Err Panic => Q (Err Panic) s'
                    | Err e => Q (Err e) (mkSt (f (s_vol s')) (s_tx s') (s_env s'))
                    | Ok a => Q (Ok a) s'
                    end) s -> wp (on_error m f) Q s.
Proof. unfold wp, on_error. destruct (m s) as [[a|[]] s']; done. Qed.

(** ** Rows and reads *)

(** Every row is stored under its key, and no entry names inode 0. *)
Definition rows_keyed (R : Rows) : Prop :=
  (forall i r, r_inodes R !! i = Some r -> i_Ino r = i) /\
  (forall p n d, r_dirents R !! (p, n) = Some d -> de_ParentIno d = p /\ de_Name d = n /\ de_Ino d <> 0) /\
  (forall i x c, r_chunks R !! (i, x) = Some c -> fc_Ino c = i /\ fc_Index c = x) /\
  (forall i n a, r_xattrs R !! (i, n) = Some a -> xa_Ino a = i /\ xa_Name a = n).

(** Chunk rows belong to files with content. *)
Definition chunks_owned (R : Rows) : Prop :=
  forall i x, is_Some (r_chunks R !! (i, x)) ->
    exists r, r_inodes R !! i = Some r /\ i_IsDir r = false /\ 0 < i_Size r.

(** The number the allocator hands out next is not in use. *)
Definition next_unused (v : Volume) : Prop := r_inodes (v_rows v) !! v_nextInode v = None.

Lemma rows_keyed_get R k m : rows_keyed R -> rows_get R k = Some m -> row_key m = k.
Proof.
  intros (Hi & Hd & Hc & Hx) Hk. destruct k; cbn in Hk; apply fmap_Some in Hk as (r & Hr & ->); cbn.
  - by rewrite (Hi _ _ Hr).
  - by destruct (Hd _ _ _ Hr) as (-> & -> & _).
  - by destruct (Hc _ _ _ Hr) as [-> ->].
  - by destruct (Hx _ _ _ Hr) as [-> ->].
Qed.

Definition covered (t : Tx) (k : rkey) : Prop := is_Some (LookupRead t k).

(** What a transaction has read is what is there. *)
Definition agrees (t : Tx) (R : Rows) : Prop := forall k o, LookupRead t k = Some o -> rows_get R k = o.

Lemma lookup_read_set (t : Tx) k o k' :
  LookupRead (mkTx (tx_changes t) (<[k := o]> (tx_readSet t)) (tx_readPrefixes t)) k' =
  if bool_decide (k = k') then Some o else LookupRead t k'.
Proof.
  unfold LookupRead. cbn [tx_readSet tx_readPrefixes]. case_bool_decide as E.
  - subst. by rewrite lookup_insert_eq.
  - by rewrite lookup_insert_ne.
Qed.

Lemma lookup_read_prefix (t : Tx) p k' :
  LookupRead (mkTx (tx_changes t) (tx_readSet t) (p :: tx_readPrefixes t)) k' =
  match LookupRead t k' with Some o => Some o | None => if under p k' then Some None else None end.
Proof.
  unfold LookupRead. cbn [tx_readSet tx_readPrefixes existsb]. destruct (tx_readSet t !! k'); [done|].
  destruct (existsb _ _); [by rewrite orb_true_r|]. rewrite orb_false_r. done.
Qed.

Lemma lookup_read_changes (t : Tx) cs k : LookupRead (mkTx cs (tx_readSet t) (tx_readPrefixes t)) k = LookupRead t k.
Proof. done. Qed.

(** ** Where an operation is *)

(** Loading a directory remembers its parent. *)
Definition dp_ext (R : Rows) (d0 d : gmap Z Z) : Prop :=
  forall i, d !! i = d0 !! i \/
    exists r, r_inodes R !! i = Some r /\ i_IsDir r = true /\ d !! i = Some (GetParentIno r) /\ GetParentIno r <> 0.

Lemma dp_ext_refl R d : dp_ext R d d.
Proof. intros i. by left. Qed.

(** The volume is [v], up to the parents it remembers. *)
Definition vol_at (v : Volume) (s : St) : Prop :=
  s_vol s = set_dirParents (v_dirParents (s_vol s)) v /\ dp_ext (v_rows v) (v_dirParents v) (v_dirParents (s_vol s)).

Lemma vol_at_rows v s : vol_at v s -> v_rows (s_vol s) = v_rows v.
Proof. intros [-> _]. done. Qed.

Lemma vol_at_cfg v s : vol_at v s -> v_cfg (s_vol s) = v_cfg v.
Proof. intros [-> _]. done. Qed.

Section at_.
Context (A : Prop).

Record at_ (v : Volume) (K : rkey -> Prop) (cs : list change) (s : St) : Prop := {
  at_vol : vol_at v s;
  at_keyed : rows_keyed (v_rows v);
  at_changes : tx_changes (s_tx s) = cs;
  at_covered : forall k, K k -> covered (s_tx s) k;
  at_typed : forall k m, LookupRead (s_tx s) k = Some (Some m) -> row_key m = k;
  at_agrees : A -> agrees (s_tx s) (v_rows v)
}.

Lemma at_env v K cs s env : at_ v K cs s -> at_ v K cs (mkSt (s_vol s) (s_tx s) env).
Proof. by intros []. Qed.

Lemma at_weaken v (K K' : rkey -> Prop) cs s : at_ v K cs s -> (forall k, K' k -> K k) -> at_ v K' cs s.
Proof. intros [] HK. split; auto. Qed.

Lemma at_begin v s :
  vol_at v s -> rows_keyed (v_rows v) -> at_ v (fun _ => False) [] (mkSt (s_vol s) empty_tx (s_env s)).
Proof. intros Hv HR. split; cbn; [done|done|done|done|done|]. intros _ k o Hk. done. Qed.

Lemma at_rows v K cs s : at_ v K cs s -> v_rows (s_vol s) = v_rows v.
Proof. intros Hs. by apply vol_at_rows, Hs. Qed.

Lemma at_cfg v K cs s : at_ v K cs s -> v_cfg (s_vol s) = v_cfg v.
Proof. intros Hs. by apply vol_at_cfg, Hs. Qed.

Lemma at_open v K cs s i : at_ v K cs s -> hasOpenHandlesLocked (s_vol s) i = hasOpenHandlesLocked v i.
Proof. intros Hs. destruct (at_vol _ _ _ _ Hs) as [-> _]. done. Qed.

Lemma at_root v K cs s : at_ v K cs s -> rootInodeID (s_vol s) = rootInodeID v.
Proof. intros Hs. unfold rootInodeID. by rewrite (at_cfg _ _ _ _ Hs). Qed.

(** Recording reads. *)
Lemma at_record v K cs s k :
  at_ v K cs s ->
  at_ v (fun k' => K k' \/ k' = k) cs
    (mkSt (s_vol s) (mkTx (tx_changes (s_tx s)) (<[k := rows_get (v_rows v) k]> (tx_readSet (s_tx s)))
       (tx_readPrefixes (s_tx s))) (s_env s)).
Proof.
  intros [Hv HR Hc HK HT HA]. split; cbn [s_vol s_tx tx_changes]; [done|done|done| | |].
  - intros k' Hk'. unfold covered. rewrite lookup_read_set. case_bool_decide; [by eexists|].
    destruct Hk' as [Hk'|E]; [by apply HK|congruence].
  - intros k' m. rewrite lookup_read_set. case_bool_decide; [|by apply HT]. subst. intros E. simplify_eq.
    by eapply rows_keyed_get.
  - intros HA'. intros k' o. rewrite lookup_read_set. case_bool_decide; [by intros; simplify_eq|by apply HA].
Qed.

Lemma at_record_prefix v K cs s p :
  at_ v K cs s ->
  (A -> forall k, under p k = true -> LookupRead (s_tx s) k = None -> rows_get (v_rows v) k = None) ->
  at_ v (fun k' => K k' \/ under p k' = true) cs
    (mkSt (s_vol s) (mkTx (tx_changes (s_tx s)) (tx_readSet (s_tx s)) (p :: tx_readPrefixes (s_tx s))) (s_env s)).
Proof.
  intros [Hv HR Hc HK HT HA] Hp. split; cbn [s_vol s_tx tx_changes]; [done|done|done| | |].
  - intros k' Hk'. unfold covered. rewrite lookup_read_prefix. destruct (LookupRead (s_tx s) k') as [o|] eqn:El; [by eexists|].
    destruct Hk' as [Hk'|E]; [|rewrite E; by eexists]. destruct (HK k' Hk') as [o Ho]. congruence.
  - intros k' m. rewrite lookup_read_prefix. destruct (LookupRead (s_tx s) k') as [o'|] eqn:El.
    + intros; simplify_eq. by apply HT.
    + by destruct (under p k').
  - intros HA' k' o. rewrite lookup_read_prefix. destruct (LookupRead (s_tx s) k') as [o'|] eqn:El.
    + intros; simplify_eq. by apply HA.
    + destruct (under p k') eqn:Eu; [|done]. intros; simplify_eq. by apply Hp.
Qed.

Lemma wp_recordRead v K cs s k Q :
  at_ v K cs s ->
  (forall s', at_ v (fun k' => K k' \/ k' = k) cs s' -> Q (Ok ()) s') ->
  wp (recordReadLocked true k (rows_get (v_rows v) k)) Q s.
Proof. intros Hs HQ. apply wp_upd_tx, HQ. by apply at_record. Qed.

Lemma wp_checkRead v K s Q : at_ v K [] s -> Q (Ok ()) s -> wp (checkReadAllowedLocked true) Q s.
Proof.
  intros Hs HQ. apply wp_bind, wp_get_tx. rewrite (at_changes _ _ _ _ Hs). by apply wp_ret.
Qed.

(** ** The rules of the reading helpers *)

Lemma wp_backpressure v K cs s Q :
  at_ v K cs s ->
  (forall s', at_ v K cs s' -> Q (Ok ()) s') -> (forall s', vol_at v s' -> Q (Err Failure) s') ->
  wp checkBackpressureLocked Q s.
Proof.
  intros Hs H1 H2. apply wp_bind, wp_external.
  - intros n env. apply wp_ret, H1. by apply at_env.
  - intros env. apply H2, Hs.
Qed.

Lemma wp_begin v s Q :
  vol_at v s -> rows_keyed (v_rows v) ->
  (forall s', at_ v (fun _ => False) [] s' -> Q (Ok ()) s') -> wp beginTxLocked Q s.
Proof. intros Hv HR HQ. apply wp_upd_tx, HQ. by apply at_begin. Qed.

Lemma wp_getRow v K s k Q :
  at_ v K [] s ->
  (forall s', at_ v (fun k' => K k' \/ k' = k) [] s' -> Q (Ok (rows_get (v_rows v) k)) s') ->
  (forall s', vol_at v s' -> Q (Err Failure) s') ->
  wp (getSQLiteRowLocked true k) Q s.
Proof.
  intros Hs H1 H2. apply wp_bind. eapply wp_checkRead; [done|].
  apply wp_bind, wp_external; [|intros env; apply H2, Hs].
  intros n env. apply wp_bind, wp_get_vol. cbn [s_vol]. rewrite (at_rows _ _ _ _ Hs).
  apply wp_bind. eapply wp_recordRead; [by apply at_env|]. intros s' Hs'. by apply wp_ret, H1.
Qed.

Lemma wp_getDirEntry v K s p n Q :
  at_ v K [] s ->
  (forall s', at_ v (fun k' => K k' \/ k' = KDirEntry p n) [] s' -> Q (Ok (r_dirents (v_rows v) !! (p, n))) s') ->
  (forall s', vol_at v s' -> Q (Err Failure) s') ->
  wp (getDirEntrySQLiteLocked true p n) Q s.
Proof.
  intros Hs H1 H2. apply wp_bind. eapply wp_getRow; [done| |done].
  intros s' Hs'. apply wp_ret. cbn [rows_get]. replace (as_dirent _) with (r_dirents (v_rows v) !! (p, n)); [by apply H1|].
  by destruct (_ !! _).
Qed.

Lemma wp_getXAttr v K s i n Q :
  at_ v K [] s ->
  (forall s', at_ v (fun k' => K k' \/ k' = KXAttr i n) [] s' -> Q (Ok (RXAttr <$> r_xattrs (v_rows v) !! (i, n))) s') ->
  (forall s', vol_at v s' -> Q (Err Failure) s') ->
  wp (getSQLiteRowLocked true (KXAttr i n)) Q s.
Proof. intros Hs H1 H2. by eapply wp_getRow. Qed.

(** ** Scans *)

Definition record_rows (msgs : list row) (rs : gmap rkey (option row)) : gmap rkey (option row) :=
  foldl (fun rs m => <[row_key m := Some m]> rs) rs msgs.

Definition present (R : Rows) (msgs : list row) : Prop := forall m, m ∈ msgs -> rows_get R (row_key m) = Some m.

Lemma record_rows_lookup R msgs k : present R msgs -> forall rs,
  record_rows msgs rs !! k = if bool_decide (k ∈ row_key <$> msgs) then Some (rows_get R k) else rs !! k.
Proof.
  induction msgs as [|m msgs IH]; intros HP rs; [done|]. cbn [record_rows foldl].
  assert (rows_get R (row_key m) = Some m) as Hm by (apply HP; left).
  fold (record_rows msgs (<[row_key m := Some m]> rs)). rewrite IH by (intros x Hx; apply HP; by right).
  destruct (decide (k ∈ row_key <$> msgs)) as [Hin|Hin].
  - rewrite !bool_decide_eq_true_2; [done| |done]. cbn. by right.
  - rewrite (bool_decide_eq_false_2 _ Hin). destruct (decide (k = row_key m)) as [->|Hne].
    + rewrite lookup_insert_eq, bool_decide_eq_true_2 by (cbn; left). by rewrite Hm.
    + rewrite lookup_insert_ne by done. rewrite bool_decide_eq_false_2; [done|]. cbn. intros Hk.
      apply elem_of_cons in Hk as [|]; done.
Qed.

Lemma wp_record_rows msgs Q : forall s,
  Q (Ok ()) (mkSt (s_vol s) (mkTx (tx_changes (s_tx s)) (record_rows msgs (tx_readSet (s_tx s)))
    (tx_readPrefixes (s_tx s))) (s_env s)) ->
  wp (for_each msgs (fun m => recordReadLocked true (row_key m) (Some m))) Q s.
Proof.
  induction msgs as [|m msgs IH]; intros s HQ.
  - cbn [for_each]. apply wp_ret. by destruct s as [? [] ?].
  - cbn [for_each]. apply wp_bind, wp_upd_tx, IH. exact HQ.
Qed.

Lemma scan_present R p : rows_keyed R -> present R (rows_scan R p).
Proof.
  intros (Hi & Hd & Hc & Hx) m. destruct p as [|p|i|i]; cbn [rows_scan]; rewrite list_elem_of_fmap;
    intros ([k r] & -> & Hin); cbn [compose snd row_key rows_get] in *; apply elem_of_map_to_list in Hin.
  - rewrite (Hi _ _ Hin), Hin. done.
  - apply map_lookup_filter_Some_1_1 in Hin. destruct k as [q n]. destruct (Hd _ _ _ Hin) as (-> & -> & _). by rewrite Hin.
  - apply map_lookup_filter_Some_1_1 in Hin. destruct k as [q n]. destruct (Hc _ _ _ Hin) as [-> ->]. by rewrite Hin.
  - apply map_lookup_filter_Some_1_1 in Hin. destruct k as [q n]. destruct (Hx _ _ _ Hin) as [-> ->]. by rewrite Hin.
Qed.

Lemma scan_complete R p k m : rows_keyed R -> under p k = true -> rows_get R k = Some m -> m ∈ rows_scan R p /\ row_key m = k.
Proof.
  intros (Hi & Hd & Hc & Hx) Hu Hk.
  destruct p as [|p|i|i], k as [j|q n|j x|j n]; cbn [under] in Hu; try done; cbn [rows_get] in Hk;
    apply fmap_Some in Hk as (r & Hr & ->); zify_bool; subst; cbn [rows_scan row_key].
  - split; [|by rewrite (Hi _ _ Hr)]. apply list_elem_of_fmap. exists (j, r). split; [done|by apply elem_of_map_to_list].
  - split; [|by destruct (Hd _ _ _ Hr) as (-> & -> & _)]. apply list_elem_of_fmap. exists ((q, n), r). split; [done|].
    apply elem_of_map_to_list. by apply map_lookup_filter_Some_2.
  - split; [|by destruct (Hc _ _ _ Hr) as [-> ->]]. apply list_elem_of_fmap. exists ((j, x), r). split; [done|].
    apply elem_of_map_to_list. by apply map_lookup_filter_Some_2.
  - split; [|by destruct (Hx _ _ _ Hr) as [-> ->]]. apply list_elem_of_fmap. exists ((j, n), r). split; [done|].
    apply elem_of_map_to_list. by apply map_lookup_filter_Some_2.
Qed.

(** After the rows [msgs] have been recorded, and a prefix if [msgs] has all its
    rows. *)
Lemma at_scanned v K cs s msgs ps :
  at_ v K cs s -> present (v_rows v) msgs ->
  (forall p, p ∈ ps -> forall k, under p k = true -> is_Some (rows_get (v_rows v) k) -> k ∈ row_key <$> msgs) ->
  forall env,
  at_ v (fun k => K k \/ k ∈ row_key <$> msgs \/ exists p, p ∈ ps /\ under p k = true) cs
    (mkSt (s_vol s) (mkTx (tx_changes (s_tx s)) (record_rows msgs (tx_readSet (s_tx s)))
       (ps ++ tx_readPrefixes (s_tx s))) env).
Proof.
  intros [Hv HR Hc HK HT HA] HP Hps env.
  assert (forall k, LookupRead (mkTx (tx_changes (s_tx s)) (record_rows msgs (tx_readSet (s_tx s))) (ps ++ tx_readPrefixes (s_tx s))) k =
    if bool_decide (k ∈ row_key <$> msgs) then Some (rows_get (v_rows v) k)
    else match LookupRead (s_tx s) k with Some o => Some o | None => if existsb (fun p => under p k) ps then Some None else None end) as HL.
  { intros k. unfold LookupRead. cbn [tx_readSet tx_readPrefixes]. rewrite (record_rows_lookup _ _ _ HP).
    case_bool_decide; [done|]. destruct (tx_readSet (s_tx s) !! k); [done|]. rewrite existsb_app.
    by destruct (existsb _ ps), (existsb _ (tx_readPrefixes _)). }
  split; cbn [s_vol s_tx tx_changes]; [done|done|done| | |].
  - intros k Hk. unfold covered. rewrite HL. case_bool_decide as Hin; [by eexists|].
    destruct Hk as [Hk|[Hk|(p & Hp & Hu)]]; [|done|].
    + destruct (HK k Hk) as [o ->]. by eexists.
    + destruct (LookupRead (s_tx s) k); [by eexists|].
      replace (existsb (fun p => under p k) ps) with true; [by eexists|]. symmetry. apply existsb_exists.
      exists p. split; [by apply list_elem_of_In|done].
  - intros k m. rewrite HL. case_bool_decide; [intros; simplify_eq; by eapply rows_keyed_get|].
    destruct (LookupRead (s_tx s) k) as [o'|] eqn:El; [intros; simplify_eq; by apply HT|].
    by destruct (existsb _ ps).
  - intros HA' k o. rewrite HL. case_bool_decide as Hin; [by intros; simplify_eq|].
    destruct (LookupRead (s_tx s) k) as [o'|] eqn:El; [intros; simplify_eq; by apply HA|].
    destruct (existsb _ ps) eqn:Ee; [|done]. intros; simplify_eq. apply existsb_exists in Ee as (p & Hp & Hu).
    destruct (rows_get (v_rows v) k) as [m|] eqn:Em; [|done]. exfalso. apply Hin.
    eapply (Hps p); [by apply list_elem_of_In|done|]. by rewrite Em.
Qed.

Lemma wp_scan_raw v s p Q :
  vol_at v s -> tx_changes (s_tx s) = [] -> p <> PInodes ->
  (forall env, Q (Ok (rows_scan (v_rows v) p))
     (mkSt (s_vol s) (mkTx (tx_changes (s_tx s)) (record_rows (rows_scan (v_rows v) p) (tx_readSet (s_tx s)))
        (p :: tx_readPrefixes (s_tx s))) env)) ->
  (forall s', vol_at v s' -> Q (Err Failure) s') ->
  wp (scanSQLiteRowsLocked true p) Q s.
Proof.
  intros Hv Hc Hp H1 H2. apply wp_bind, wp_bind, wp_get_tx. rewrite Hc. apply wp_ret.
  apply wp_bind, wp_external; [|intros env; by apply H2].
  intros n env. apply wp_bind, wp_get_vol. cbn [s_vol]. rewrite (vol_at_rows _ _ Hv).
  cbn [Z.gtb Z.compare andb]. rewrite (bool_decide_eq_true_2 _ Hp). cbn [negb andb].
  apply wp_bind, wp_upd_tx, wp_bind, wp_record_rows. apply wp_ret. cbn [s_vol s_tx s_env tx_changes tx_readSet tx_readPrefixes].
  apply H1.
Qed.

Lemma scan_keys R p k : rows_keyed R -> under p k = true -> is_Some (rows_get R k) -> k ∈ row_key <$> rows_scan R p.
Proof.
  intros HR Hu [m Hm]. destruct (scan_complete _ _ _ _ HR Hu Hm) as [Hin <-]. apply list_elem_of_fmap. by exists m.
Qed.

(** A scan that is not cut short has read everything under its prefix. *)
Lemma wp_scan v K s p Q :
  at_ v K [] s -> p <> PInodes ->
  (forall s', at_ v (fun k => K k \/ under p k = true) [] s' -> Q (Ok (rows_scan (v_rows v) p)) s') ->
  (forall s', vol_at v s' -> Q (Err Failure) s') ->
  wp (scanSQLiteRowsLocked true p) Q s.
Proof.
  intros Hs Hp H1 H2. pose proof (at_keyed _ _ _ _ Hs) as HR. eapply wp_scan_raw; [apply Hs|apply Hs|done| |done].
  intros env. apply H1.
  eapply at_weaken; [apply (at_scanned v K [] s (rows_scan (v_rows v) p) [p]); [done|by apply scan_present|]|].
  - intros q Hq k. apply list_elem_of_singleton in Hq as ->. by apply scan_keys.
  - intros k [Hk'|Hu]; [by left|right; right]. exists p. split; [by left|done].
Qed.

(** The emptiness check of a directory. *)
Lemma wp_scan_one v K s p Q :
  at_ v K [] s -> p <> PInodes ->
  (forall l s', (l = [] <-> rows_scan (v_rows v) p = []) -> at_ v K [] s' -> Q (Ok l) s') ->
  (forall s', vol_at v s' -> Q (Err Failure) s') ->
  wp (scanLimitSQLiteRowsLocked true p 1) Q s.
Proof.
  intros Hs Hp H1 H2. pose proof (at_keyed _ _ _ _ Hs) as HR. apply wp_bind. eapply wp_checkRead; [done|].
  apply wp_bind, wp_external; [|intros env; apply H2, Hs].
  intros n env. apply wp_bind, wp_get_vol. cbn [s_vol]. rewrite (at_rows _ _ _ _ Hs).
  cbn [Z.gtb Z.compare andb]. rewrite (bool_decide_eq_true_2 _ Hp). cbn [andb].
  set (l := rows_scan (v_rows v) p). destruct (Z.of_nat (length l) >? 1) eqn:El; cbn [negb].
  - apply wp_bind, wp_ret, wp_bind, wp_record_rows. apply wp_ret, H1.
    + fold l. apply Z.gtb_lt in El. split; intros E; apply (f_equal length) in E; rewrite ?length_take in E; cbn in E; lia.
    + cbn [s_vol s_tx]. eapply at_weaken; [apply (at_scanned v K [] s (take (Z.to_nat 1) l) []); [done| |]|].
      * intros m Hm. apply (scan_present _ p HR). eapply elem_of_take in Hm as (j & Hj & _). by eapply list_elem_of_lookup_2.
      * intros q Hq. by apply elem_of_nil in Hq.
      * intros k Hk. by left.
  - apply wp_bind, wp_upd_tx, wp_bind, wp_record_rows. apply wp_ret, H1; [done|].
    cbn [s_vol s_tx tx_changes tx_readSet tx_readPrefixes].
    eapply at_weaken; [apply (at_scanned v K [] s l [p]); [done|by apply scan_present|]|].
    + intros q Hq k. apply list_elem_of_singleton in Hq as ->. by apply scan_keys.
    + intros k Hk. by left.
Qed.

(** The scan of the inode table records its rows one by one. *)
Lemma wp_scan_inodes v K s Q :
  at_ v K [] s ->
  (forall s', at_ v (fun k => K k \/ k ∈ row_key <$> rows_scan (v_rows v) PInodes) [] s' ->
     Q (Ok (rows_scan (v_rows v) PInodes)) s') ->
  (forall s', vol_at v s' -> Q (Err Failure) s') ->
  wp (scanSQLiteRowsLocked true PInodes) Q s.
Proof.
  intros Hs H1 H2. pose proof (at_keyed _ _ _ _ Hs) as HR. apply wp_bind. eapply wp_checkRead; [done|].
  apply wp_bind, wp_external; [|intros env; apply H2, Hs].
  intros n env. apply wp_bind, wp_get_vol. cbn [s_vol]. rewrite (at_rows _ _ _ _ Hs).
  cbn [Z.gtb Z.compare andb]. rewrite bool_decide_eq_false_2 by auto. cbn [andb].
  apply wp_bind, wp_ret, wp_bind, wp_record_rows. apply wp_ret, H1. cbn [s_vol s_tx].
  eapply at_weaken; [apply (at_scanned v K [] s (rows_scan (v_rows v) PInodes) []); [done|by apply scan_present|]|].
  - intros q Hq. by apply elem_of_nil in Hq.
  - intros k [Hk|Hk]; [by left|by right; left].
Qed.

(** ** Loading inodes *)

Definition inode_keys (i : Z) (k : rkey) : Prop := k = KInode i \/ under (PFileChunk i) k = true.

Definition loaded (R : Rows) (r : Inode) : CachedInode :=
  if i_IsDir r || (i_Size r =? 0) then mkCached r ∅ []
  else foldl load_chunk (mkCached r ∅ []) (rows_scan R (PFileChunk (i_Ino r))).

Lemma load_chunk_row n m : n_Row (load_chunk n m) = n_Row n.
Proof. unfold load_chunk. destruct m; try done. by repeat case_match. Qed.

Lemma load_chunks_row ms : forall n, n_Row (foldl load_chunk n ms) = n_Row n.
Proof. induction ms as [|m ms IH]; intros n; [done|]. cbn. by rewrite IH, load_chunk_row. Qed.

Lemma loaded_row R r : n_Row (loaded R r) = r.
Proof. unfold loaded. destruct (_ || _); [done|]. by rewrite load_chunks_row. Qed.

Lemma wp_ensure v K s r Q :
  at_ v K [] s -> (A -> chunks_owned (v_rows v)) ->
  r_inodes (v_rows v) !! i_Ino r = Some r ->
  (forall s', at_ v (fun k => K k \/ under (PFileChunk (i_Ino r)) k = true) [] s' -> Q (Ok (loaded (v_rows v) r)) s') ->
  (forall s', vol_at v s' -> Q (Err Failure) s') ->
  wp (ensureInodeChunksLoadedLocked true (mkCached r ∅ [])) Q s.
Proof.
  intros Hs HO Hr H1 H2. pose proof (at_keyed _ _ _ _ Hs) as HR. apply wp_bind. eapply wp_checkRead; [done|].
  apply wp_bind, wp_get_tx, wp_bind, wp_upd_tx. cbn [n_Row n_Chunks n_InlineData].
  rewrite (bool_decide_eq_true_2 (∅ = ∅)) by done. rewrite andb_false_r. unfold loaded in H1.
  destruct (i_IsDir r || (i_Size r =? 0)) eqn:Ed.
  - apply wp_ret, H1. apply at_record_prefix; [done|]. intros HA k Hu _.
    destruct k; try done. cbn [under] in Hu. zify_bool. subst ino. cbn [rows_get].
    destruct (r_chunks _ !! _) as [c|] eqn:Ec; [|done]. exfalso.
    destruct (HO HA (i_Ino r) index) as (r' & Hr' & Hd' & Hz'); [by rewrite Ec|]. simplify_eq.
    rewrite Hd' in Ed. cbn in Ed. zify_bool. lia.
  - apply wp_bind. eapply wp_scan_raw; [apply Hs|apply Hs|done| |done].
    intros env. apply wp_ret, H1. cbn [s_vol s_tx tx_changes tx_readSet tx_readPrefixes].
    eapply at_weaken; [apply (at_scanned v K [] s (rows_scan (v_rows v) (PFileChunk (i_Ino r)))
      [PFileChunk (i_Ino r); PFileChunk (i_Ino r)]); [done|by apply scan_present|]|].
    + intros q Hq k. assert (q = PFileChunk (i_Ino r)) as -> by set_solver. by apply scan_keys.
    + intros k [Hk'|Hu]; [by left|right; right]. exists (PFileChunk (i_Ino r)). split; [by left|done].
Qed.

Definition norm (v : Volume) (i : Z) : Z :=
  if i =? 0 then if negb (rootInodeID v =? 0) then rootInodeID v else 1 else i.

Lemma norm_idem v i : norm v (norm v i) = norm v i.
Proof. unfold norm. repeat case_match; zify_bool; lia. Qed.

Lemma norm_nz v i : i <> 0 -> norm v i = i.
Proof. unfold norm. intros. case_match; zify_bool; lia. Qed.

Lemma norm_set_dirParents d v i : norm (set_dirParents d v) i = norm v i.
Proof. done. Qed.

Lemma wp_normalize v s i Q : vol_at v s -> Q (Ok (norm v i)) s -> wp (normalizeInodeID i) Q s.
Proof.
  intros Hv HQ. apply wp_bind, wp_get_vol, wp_ret. unfold norm, rootInodeID in HQ.
  unfold rootInodeID. rewrite (vol_at_cfg _ _ Hv). done.
Qed.

Lemma at_set_dirParents v K cs s i p :
  at_ v K cs s ->
  (exists r, r_inodes (v_rows v) !! i = Some r /\ i_IsDir r = true /\ p = GetParentIno r /\ p <> 0) ->
  at_ v K cs (mkSt (set_dirParents (<[i := p]> (v_dirParents (s_vol s))) (s_vol s)) (s_tx s) (s_env s)).
Proof.
  intros [[Hv Hd] HR Hc HK HT HA] (r & Hr & Hdir & -> & Hne). split; [|done|done|done|done|done]. split; cbn [s_vol].
  - rewrite Hv. done.
  - intros j. cbn [v_dirParents set_dirParents]. destruct (decide (i = j)) as [<-|Hij].
    + right. exists r. rewrite lookup_insert_eq. done.
    + rewrite lookup_insert_ne by done. apply Hd.
Qed.

Lemma wp_getOrLoad v K s i Q :
  at_ v K [] s -> (A -> chunks_owned (v_rows v)) ->
  (forall r s', r_inodes (v_rows v) !! norm v i = Some r -> i_Ino r = norm v i ->
     at_ v (fun k => K k \/ inode_keys (norm v i) k) [] s' -> Q (Ok (loaded (v_rows v) r)) s') ->
  (forall s', vol_at v s' -> Q (Err Failure) s') ->
  (forall s', r_inodes (v_rows v) !! norm v i = None -> vol_at v s' -> Q (Err (Errno ENOENT)) s') ->
  wp (getOrLoadInodeLocked true i) Q s.
Proof.
  intros Hs HO H1 H2 H3. pose proof (at_keyed _ _ _ _ Hs) as HR. apply wp_bind. eapply wp_normalize; [apply Hs|].
  apply wp_bind. eapply wp_getRow; [done| |done]. intros s1 Hs1. cbn [rows_get].
  destruct (r_inodes (v_rows v) !! norm v i) as [r|] eqn:Er; cbn [fmap option_fmap option_map as_inode].
  - assert (i_Ino r = norm v i) as Hi by (by apply HR). apply wp_bind.
    assert (forall s2, at_ v (fun k => K k \/ k = KInode (norm v i)) [] s2 ->
      wp (ensureInodeChunksLoadedLocked true (mkCached r ∅ [])) Q s2) as Hgo.
    { intros s2 Hs2. eapply wp_ensure; [done|done|by rewrite Hi| |done].
      intros s3 Hs3. apply H1; [done|done|]. eapply at_weaken; [done|]. rewrite Hi. unfold inode_keys. tauto. }
    destruct (i_IsDir r && negb (GetParentIno r =? 0)) eqn:Ep.
    + apply wp_upd_vol, Hgo. apply at_set_dirParents; [done|]. zify_bool. exists r. rewrite Hi. done.
    + apply wp_ret. by apply Hgo.
  - apply wp_throw, H3; [done|]. apply Hs1.
Qed.

Lemma wp_try_load v K s i Q :
  at_ v K [] s -> (A -> chunks_owned (v_rows v)) ->
  (forall r s', r_inodes (v_rows v) !! norm v i = Some r -> i_Ino r = norm v i ->
     at_ v (fun k => K k \/ inode_keys (norm v i) k) [] s' -> Q (Ok (Some (loaded (v_rows v) r))) s') ->
  (forall s', vol_at v s' -> Q (Ok None) s') ->
  wp (try_load true i) Q s.
Proof.
  intros Hs HO H1 H2. unfold wp, try_load.
  assert (wp (getOrLoadInodeLocked true i) (fun r s' =>
    match r with Ok n => Q (Ok (Some n)) s' | Err Panic => Q (Err Panic) s' | Err _ => Q (Ok None) s' end) s) as HH.
  { eapply wp_getOrLoad; [done|done|done|done|]. intros s' _ Hs'. by apply H2. }
  unfold wp in HH. by destruct (getOrLoadInodeLocked true i s) as [[n|[]] s'].
Qed.

(** ** Allocation, blobs and remembered parents *)

Lemma at_set_handles v K cs s h :
  at_ v K cs s -> at_ (set_handles h v) K cs (mkSt (set_handles h (s_vol s)) (s_tx s) (s_env s)).
Proof.
  intros [[Hv Hd] HR Hc HK HT HA]. split; [|done|done|done|done|done]. split; cbn [s_vol]; [by rewrite Hv|done].
Qed.

Lemma wp_alloc v K cs s Q :
  at_ v K cs s -> (A -> next_unused v /\ chunks_owned (v_rows v)) ->
  (forall s', at_ (set_nextInode (u64 (v_nextInode v + DefaultInodeStride)) v)
     (fun k => K k \/ inode_keys (v_nextInode v) k) cs s' -> Q (Ok (v_nextInode v)) s') ->
  wp (allocInode true) Q s.
Proof.
  intros Hs Hu HQ. apply wp_bind, wp_get_vol. pose proof (at_vol _ _ _ _ Hs) as [Hv Hd].
  replace (v_nextInode (s_vol s)) with (v_nextInode v) by (by rewrite Hv).
  apply wp_bind, wp_upd_vol. set (n := v_nextInode v). set (v' := set_nextInode (u64 (n + DefaultInodeStride)) v).
  assert (at_ v' K cs (mkSt (set_nextInode (u64 (n + DefaultInodeStride)) (s_vol s)) (s_tx s) (s_env s))) as Hs1.
  { destruct Hs as [_ HR Hc HK HT HA]. split; [|done|done|done|done|done]. split; cbn [s_vol]; [by rewrite Hv|done]. }
  assert (A -> rows_get (v_rows v') (KInode n) = None) as Hn.
  { intros HA. cbn [rows_get]. subst v'. cbn [v_rows set_nextInode]. destruct (Hu HA) as [Hn _]. unfold next_unused in Hn. fold n in Hn. by rewrite Hn. }
  apply wp_bind, wp_upd_tx, wp_bind, wp_upd_tx. apply wp_ret, HQ. cbn [s_vol s_tx s_env tx_changes tx_readSet tx_readPrefixes].
  destruct Hs1 as [Hv1 HR1 Hc1 HK1 HT1 HA1]. cbn [s_vol s_tx s_env] in *.
  assert (forall k, LookupRead (mkTx (tx_changes (s_tx s)) (<[KInode n := None]> (tx_readSet (s_tx s)))
    (PFileChunk n :: tx_readPrefixes (s_tx s))) k =
    if bool_decide (KInode n = k) then Some None else
    match LookupRead (s_tx s) k with Some o => Some o | None => if under (PFileChunk n) k then Some None else None end) as HL.
  { intros k. pose proof (lookup_read_prefix (mkTx (tx_changes (s_tx s)) (<[KInode n := None]> (tx_readSet (s_tx s))) (tx_readPrefixes (s_tx s))) (PFileChunk n) k) as E.
    cbn [tx_changes tx_readSet tx_readPrefixes] in E. rewrite E, lookup_read_set. by case_bool_decide. }
  split; cbn [s_vol s_tx tx_changes]; [done|done|done| | |].
  - intros k Hk. unfold covered. rewrite HL. case_bool_decide; [by eexists|].
    destruct (LookupRead (s_tx s) k) eqn:El; [by eexists|]. destruct Hk as [Hk|[Hk|Hk]]; fold n in Hk; [|congruence|rewrite Hk; by eexists].
    destruct (HK1 k Hk) as [o Ho]. congruence.
  - intros k m. rewrite HL. case_bool_decide; [done|]. destruct (LookupRead (s_tx s) k) eqn:El; [|by destruct (under _ _)].
    intros; simplify_eq. by apply HT1.
  - intros HA k o. rewrite HL. case_bool_decide; [intros; simplify_eq; by apply Hn|].
    destruct (LookupRead (s_tx s) k) eqn:El; [intros; simplify_eq; by apply HA1|].
    destruct (under (PFileChunk n) k) eqn:Eu; [|done]. intros; simplify_eq.
    destruct k; try done. cbn [under] in Eu. zify_bool. subst ino. cbn [rows_get].
    apply fmap_None, eq_None_not_Some. intros Hsome. destruct (Hu HA) as [Hn' HO].
    destruct (HO n index Hsome) as (r & Hr & _). unfold next_unused in Hn'. fold n in Hn'. congruence.
Qed.

(** The blob store after [PutBlobs]. *)
Definition blobs_with (v : Volume) (blobs : list bytes) : gmap bytes bytes :=
  if c_blobs (v_cfg v) && negb (bool_decide (blobs = [])) then
    foldl (fun m d => <[sha256Hex d := d]> m) (v_blobs v) blobs
  else v_blobs v.

Lemma at_blobs v K cs s b env :
  at_ v K cs s -> at_ (set_blobs b v) K cs (mkSt (set_blobs b (s_vol s)) (s_tx s) env).
Proof.
  intros [[Hv Hd] HR Hc HK HT HA]. split; [|done|done|done|done|done]. split; cbn [s_vol]; [by rewrite Hv|done].
Qed.

Lemma wp_PutBlobs v K cs s blobs Q :
  at_ v K cs s ->
  (forall s', at_ (set_blobs (blobs_with v blobs) v) K cs s' -> Q (Ok ()) s') ->
  (forall s', vol_at v s' -> Q (Err Failure) s') ->
  wp (PutBlobs blobs) Q s.
Proof.
  intros Hs H1 H2. apply wp_bind, wp_get_vol. rewrite (at_cfg _ _ _ _ Hs). unfold blobs_with in H1.
  destruct (c_blobs (v_cfg v) && _).
  - apply wp_bind, wp_external; [|intros env; apply H2, Hs]. intros n env. apply wp_upd_vol, H1. cbn [s_vol s_tx s_env].
    replace (v_blobs (s_vol s)) with (v_blobs v) by (by destruct (at_vol _ _ _ _ Hs) as [-> _]). by apply at_blobs.
  - apply wp_ret, H1. replace (set_blobs (v_blobs v) v) with v by (by destruct v). done.
Qed.

Lemma wp_set_parent v K cs s c p Q :
  at_ v K cs s ->
  (forall s', at_ (set_dirParents (<[c := p]> (v_dirParents v)) v) K cs s' -> Q (Ok ()) s') ->
  wp (set_parent c p) Q s.
Proof.
  intros [[Hv Hd] HR Hc HK HT HA] HQ. apply wp_upd_vol, HQ. split; [|done|done|done|done|done].
  split; cbn [s_vol]; [by rewrite Hv|]. intros i. cbn [v_dirParents set_dirParents]. destruct (decide (c = i)) as [<-|Hne].
  - left. by rewrite !lookup_insert_eq.
  - rewrite !lookup_insert_ne by done. apply Hd.
Qed.

Lemma wp_del_parent v K cs s c Q :
  at_ v K cs s ->
  (forall s', at_ (set_dirParents (delete c (v_dirParents v)) v) K cs s' -> Q (Ok ()) s') ->
  wp (del_parent c) Q s.
Proof.
  intros [[Hv Hd] HR Hc HK HT HA] HQ. apply wp_upd_vol, HQ. split; [|done|done|done|done|done].
  split; cbn [s_vol]; [by rewrite Hv|]. intros i. cbn [v_dirParents set_dirParents]. destruct (decide (c = i)) as [<-|Hne].
  - left. by rewrite !lookup_delete_eq.
  - rewrite !lookup_delete_ne by done. apply Hd.
Qed.

(** ** Buffering *)

Lemma at_write v K cs s c env :
  at_ v K cs s ->
  at_ v K (cs ++ [c]) (mkSt (s_vol s) (mkTx (tx_changes (s_tx s) ++ [c]) (tx_readSet (s_tx s)) (tx_readPrefixes (s_tx s))) env).
Proof. intros [Hv HR Hc HK HT HA]. split; cbn; [done|done|by rewrite Hc|done|done|done]. Qed.

Lemma wp_tx_write v K cs s c Q :
  at_ v K cs s ->
  (forall s', at_ v K (cs ++ [c]) s' -> Q (Ok ()) s') -> (forall s', vol_at v s' -> Q (Err Failure) s') ->
  wp (tx_write c) Q s.
Proof.
  intros Hs H1 H2. apply wp_bind, wp_external; [|intros env; apply H2, Hs].
  intros n env. apply wp_upd_tx, H1. by apply (at_write v K cs s).
Qed.

Lemma wp_tx_writes {B} (f : B -> change) v K Q l : forall cs s,
  at_ v K cs s ->
  (forall s', at_ v K (cs ++ (f <$> l)) s' -> Q (Ok ()) s') -> (forall s', vol_at v s' -> Q (Err Failure) s') ->
  wp (for_each l (fun x => tx_write (f x))) Q s.
Proof.
  induction l as [|x l IH]; intros cs s Hs H1 H2; cbn [for_each].
  - apply wp_ret, H1. cbn. by rewrite app_nil_r.
  - apply wp_bind. eapply wp_tx_write; [done| |done]. intros s1 Hs1. eapply IH; [done| |done].
    intros s2. rewrite <- app_assoc. apply H1.
Qed.

Lemma wp_tx_writes_unless {B} (b : B -> bool) (f : B -> change) v K Q l : forall cs s,
  at_ v K cs s ->
  (forall s', at_ v K (cs ++ (f <$> filter (fun x => b x = false) l)) s' -> Q (Ok ()) s') ->
  (forall s', vol_at v s' -> Q (Err Failure) s') ->
  wp (for_each l (fun x => if b x then mret () else tx_write (f x))) Q s.
Proof.
  induction l as [|x l IH]; intros cs s Hs H1 H2; cbn [for_each].
  - apply wp_ret, H1. cbn. by rewrite app_nil_r.
  - apply wp_bind. destruct (b x) eqn:Eb.
    + apply wp_ret. eapply IH; [done| |done]. intros s2 Hs2. apply H1. rewrite filter_cons_False by congruence. done.
    + eapply wp_tx_write; [done| |done]. intros s1 Hs1. eapply IH; [done| |done].
      intros s2. rewrite <- app_assoc. intros Hs2. apply H1. rewrite filter_cons_True by done. done.
Qed.

(** ** Committing *)

(** The statistics when each change meets the row that is there. *)
Fixpoint stats_after (R : Rows) (st : VolumeStats) (cs : list change) : option VolumeStats :=
  match cs with
  | [] => Some st
  | c :: cs =>
      match UpdateVolumeStats st (rows_get R (change_key c)) (change_after c) with
      | None => None
      | Some st => stats_after (apply_change R c) st cs
      end
  end.

Lemma rows_get_set R k o k' :
  (forall m, o = Some m -> row_key m = k) ->
  rows_get (rows_set R k o) k' = if bool_decide (k = k') then o else rows_get R k'.
Proof.
  intros Ho. case_bool_decide as E.
  - subst k'. destruct k; cbn [rows_get rows_set r_inodes r_dirents r_chunks r_xattrs]; rewrite lookup_partial_alter_eq;
      (destruct o as [m|]; [specialize (Ho m eq_refl); by destruct m; simplify_eq|done]).
  - destruct k, k'; cbn [rows_get rows_set r_inodes r_dirents r_chunks r_xattrs]; try done;
      rewrite lookup_partial_alter_ne by congruence; done.
Qed.

Lemma change_typed c m : change_after c = Some m -> row_key m = change_key c.
Proof. destruct c; cbn; intros; simplify_eq; done. Qed.

Lemma rows_get_apply R c k :
  rows_get (apply_change R c) k = if bool_decide (change_key c = k) then change_after c else rows_get R k.
Proof. apply rows_get_set. apply change_typed. Qed.

Lemma stats_typed st before after k :
  (forall m, before = Some m -> row_key m = k) -> (forall m, after = Some m -> row_key m = k) ->
  is_Some (UpdateVolumeStats st before after).
Proof.
  intros Hb Ha. destruct before as [b|], after as [a|];
    try specialize (Hb _ eq_refl); try specialize (Ha _ eq_refl); cbn; try by eexists.
  - destruct a, b; cbn in *; simplify_eq; by eexists.
  - destruct b; by eexists.
  - destruct a; by eexists.
Qed.

Lemma update_stats_defined t cs : (forall k m, LookupRead t k = Some (Some m) -> row_key m = k) ->
  (forall c, c ∈ cs -> covered t (change_key c)) -> forall latest st,
  (forall k m, latest !! k = Some (Some m) -> row_key m = k) ->
  is_Some (UpdateStatsFromChanges t latest st cs).
Proof.
  intros HT. induction cs as [|c cs IH]; intros Hc latest st Hl; cbn [UpdateStatsFromChanges]; [by eexists|].
  assert (exists before, match latest !! change_key c with Some o => Some o | None => LookupRead t (change_key c) end = Some before /\
    forall m, before = Some m -> row_key m = change_key c) as (before & -> & Hb).
  { destruct (latest !! change_key c) as [o|] eqn:El.
    - exists o. split; [done|]. intros m ->. by apply Hl.
    - destruct (Hc c) as [o Ho]; [by left|]. exists o. split; [done|]. intros m ->. by apply HT. }
  destruct (stats_typed st before (change_after c) (change_key c)) as [st' ->]; [done|by apply change_typed|].
  apply IH; [intros c' Hc'; apply Hc; by right|].
  intros k m. destruct (decide (change_key c = k)) as [<-|Hne].
  - rewrite lookup_insert_eq. intros E. simplify_eq. by apply change_typed.
  - rewrite lookup_insert_ne by done. apply Hl.
Qed.

Lemma update_stats_exact t R0 cs : agrees t R0 -> (forall c, c ∈ cs -> covered t (change_key c)) -> forall latest st R,
  (forall k, rows_get R k = match latest !! k with Some o => o | None => rows_get R0 k end) ->
  UpdateStatsFromChanges t latest st cs = stats_after R st cs.
Proof.
  intros HA. induction cs as [|c cs IH]; intros Hc latest st R HR; cbn [UpdateStatsFromChanges stats_after]; [done|].
  assert (match latest !! change_key c with Some o => Some o | None => LookupRead t (change_key c) end =
    Some (rows_get R (change_key c))) as ->.
  { rewrite HR. destruct (latest !! change_key c); [done|]. destruct (Hc c) as [o Ho]; [by left|].
    by rewrite (HA _ _ Ho). }
  destruct (UpdateVolumeStats _ _ _) as [st'|]; [|done]. apply IH; [intros c' Hc'; apply Hc; by right|].
  intros k. rewrite rows_get_apply. case_bool_decide as E.
  - subst k. by rewrite lookup_insert_eq.
  - rewrite lookup_insert_ne by done. apply HR.
Qed.

(** The volume after a commit of [cs] on [v]; the position and the events are
    the only other fields that may have changed. *)
Definition committed (v : Volume) (cs : list change) (w : Volume) : Prop :=
  exists d st n e,
    w = set_events e (set_lastCommitSeq n (set_dirParents d (set_rows (ApplyChanges (v_rows v) cs) st v))) /\
    dp_ext (v_rows v) (v_dirParents v) d /\
    (A -> stats_after (v_rows v) (v_liveStats v) cs = Some st).

Lemma wp_commit v K cs s Q :
  at_ v K cs s -> (forall c, c ∈ cs -> K (change_key c)) ->
  (forall n s', committed v cs (s_vol s') -> Q (Ok n) s') -> (forall s', vol_at v s' -> Q (Err Failure) s') ->
  wp commitTxLocked Q s.
Proof.
  intros Hs HK H1 H2. apply wp_bind, wp_external; [|intros env; apply H2, Hs].
  intros n env. apply wp_bind, wp_bind, wp_get_tx, wp_bind, wp_get_vol. cbn [s_tx s_vol].
  destruct Hs as [[Hv Hd] HR Hc HC HT HA]. rewrite Hc.
  replace (v_liveStats (s_vol s)) with (v_liveStats v) by (by rewrite Hv).
  replace (v_rows (s_vol s)) with (v_rows v) by (by rewrite Hv).
  destruct (update_stats_defined (s_tx s) cs HT) with (latest := ∅ : gmap rkey (option row)) (st := v_liveStats v) as [st Hst].
  { intros c Hin. apply HC, HK, Hin. }
  { intros k m. by rewrite lookup_empty. }
  rewrite Hst. apply wp_upd_vol. apply wp_ret, H1. cbn [s_vol].
  exists (v_dirParents (s_vol s)), st, (v_lastCommitSeq v), (v_events v). split; [|split; [done|]].
  - rewrite Hv at 1. by destruct v.
  - intros HA'. rewrite <- Hst. symmetry. apply (update_stats_exact _ (v_rows v)); [by apply HA| |].
    + intros c Hin. apply HC, HK, Hin.
    + intros k. by rewrite lookup_empty.
Qed.

(** What follows a commit. *)
Lemma wp_makeWaitFn v cs s n Q :
  committed v cs (s_vol s) -> (forall w s', committed v cs (s_vol s') -> Q (Ok w) s') -> wp (makeWaitFn n) Q s.
Proof.
  intros (d & st & n0 & e & Hw & Hd & Hst) HQ. apply wp_bind, wp_get_vol, wp_bind.
  destruct (n >? _).
  - apply wp_upd_vol, wp_ret, HQ. cbn [s_vol]. rewrite Hw. exists d, st, n, e. done.
  - apply wp_ret, wp_ret, HQ. exists d, st, n0, e. done.
Qed.

Lemma wp_Broadcast v cs s ev Q :
  committed v cs (s_vol s) -> (forall s', committed v cs (s_vol s') -> Q (Ok ()) s') -> wp (Broadcast ev) Q s.
Proof.
  intros (d & st & n0 & e & Hw & Hd & Hst) HQ. apply wp_upd_vol, HQ. cbn [s_vol]. rewrite Hw.
  exists d, st, n0, (e ++ [ev]). done.
Qed.

Lemma wp_waitFn v cs s w Q :
  committed v cs (s_vol s) ->
  (forall s', committed v cs (s_vol s') -> Q (Ok ()) s') -> (forall s', committed v cs (s_vol s') -> Q (Err Failure) s') ->
  wp (waitFn w) Q s.
Proof.
  intros Hs H1 H2. destruct w; cbn [waitFn]; [|by apply wp_ret, H1].
  apply wp_bind, wp_external; intros; [apply wp_ret, H1|apply H2]; done.
Qed.

(** ** Deleting the rows of an inode *)

Definition chunk_deletes (R : Rows) (i : Z) : list change :=
  (fun c => ChDelete (KFileChunk i (fc_Index c))) <$> chunks_in (rows_scan R (PFileChunk i)).

Definition xattr_deletes (R : Rows) (i : Z) : list change :=
  (fun x => ChDelete (KXAttr i (xa_Name x))) <$> omap (fun m => as_xattr (Some m)) (rows_scan R (PXAttr i)).

Definition inode_deletes (R : Rows) (i : Z) : list change :=
  ChDelete (KInode i) :: chunk_deletes R i ++ xattr_deletes R i.

Lemma wp_deleteInodeRows v K s i Q :
  at_ v K [] s ->
  (forall s', at_ v (fun k => (K k \/ under (PFileChunk i) k = true) \/ under (PXAttr i) k = true)
     (inode_deletes (v_rows v) i) s' -> Q (Ok ()) s') ->
  (forall s', vol_at v s' -> Q (Err Failure) s') ->
  wp (deleteInodeRowsLocked true i) Q s.
Proof.
  intros Hs H1 H2. apply wp_bind. eapply wp_scan; [done|done| |done]. intros s1 Hs1.
  apply wp_bind. eapply wp_scan; [done|done| |done]. intros s2 Hs2.
  apply wp_bind. eapply wp_tx_write; [done| |done]. intros s3 Hs3.
  apply wp_bind. eapply (wp_tx_writes (fun c => ChDelete (KFileChunk i (fc_Index c)))); [done| |done]. intros s4 Hs4.
  eapply (wp_tx_writes (fun x => ChDelete (KXAttr i (xa_Name x)))); [done| |done]. intros s5 Hs5. apply H1.
  replace (inode_deletes _ _) with (tx_changes (s_tx s5)); [|rewrite (at_changes _ _ _ _ Hs5); done].
  by rewrite (at_changes _ _ _ _ Hs5).
Qed.

Lemma chunk_deletes_keys R i c : c ∈ chunk_deletes R i -> under (PFileChunk i) (change_key c) = true.
Proof. intros Hc. apply list_elem_of_fmap in Hc as (x & -> & _). apply Z.eqb_refl. Qed.

Lemma inode_deletes_keys R i c : c ∈ inode_deletes R i ->
  change_key c = KInode i \/ under (PFileChunk i) (change_key c) = true \/ under (PXAttr i) (change_key c) = true.
Proof.
  unfold inode_deletes. intros [->|Hc]%elem_of_cons; [by left|]. apply elem_of_app in Hc as [Hc|Hc];
    apply list_elem_of_fmap in Hc as (x & -> & _); cbn; rewrite Z.eqb_refl; auto.
Qed.

(** ** Reading without a transaction *)

Lemma wp_getRow_ro v s k Q :
  vol_at v s -> (forall s', vol_at v s' -> Q (Ok (rows_get (v_rows v) k)) s') ->
  (forall s', vol_at v s' -> Q (Err Failure) s') -> wp (getSQLiteRowLocked false k) Q s.
Proof.
  intros Hs H1 H2. apply wp_bind, wp_bind, wp_get_tx, wp_ret, wp_bind, wp_external; [|intros env; by apply H2].
  intros n env. apply wp_bind, wp_get_vol. cbn [s_vol]. rewrite (vol_at_rows _ _ Hs). by apply wp_bind, wp_ret, wp_ret, H1.
Qed.

Lemma wp_getDirEntry_ro v s p n Q :
  vol_at v s -> (forall s', vol_at v s' -> Q (Ok (r_dirents (v_rows v) !! (p, n))) s') ->
  (forall s', vol_at v s' -> Q (Err Failure) s') -> wp (getDirEntrySQLiteLocked false p n) Q s.
Proof.
  intros Hs H1 H2. apply wp_bind. eapply wp_getRow_ro; [done| |done]. intros s' Hs'. apply wp_ret. cbn [rows_get].
  replace (as_dirent _) with (r_dirents (v_rows v) !! (p, n)); [by apply H1|by destruct (_ !! _)].
Qed.

Lemma wp_record_none {B} (l : list B) f g Q s : Q (Ok ()) s -> wp (for_each l (fun m => recordReadLocked false (f m) (g m))) Q s.
Proof. intros HQ. induction l as [|x l IH]; cbn [for_each]; [by apply wp_ret|]. apply wp_bind, wp_ret, IH. Qed.

Lemma wp_scan_ro v s p Q :
  vol_at v s -> (forall s', vol_at v s' -> Q (Ok (rows_scan (v_rows v) p)) s') ->
  (forall s', vol_at v s' -> Q (Err Failure) s') -> wp (scanSQLiteRowsLocked false p) Q s.
Proof.
  intros Hs H1 H2. apply wp_bind, wp_bind, wp_get_tx, wp_ret, wp_bind, wp_external; [|intros env; by apply H2].
  intros n env. apply wp_bind, wp_get_vol. cbn [s_vol]. rewrite (vol_at_rows _ _ Hs).
  apply wp_bind. cbn [Z.gtb Z.compare andb negb]. rewrite andb_true_r.
  assert (wp (for_each (rows_scan (v_rows v) p) (fun m => recordReadLocked false (row_key m) (Some m)) ;; mret (rows_scan (v_rows v) p)) Q
    (mkSt (s_vol s) (s_tx s) env)) as HH. { apply wp_bind, wp_record_none, wp_ret, H1. done. }
  destruct (bool_decide _); apply wp_ret; exact HH.
Qed.

Lemma wp_getOrLoad_ro v s i Q :
  vol_at v s -> rows_keyed (v_rows v) ->
  (forall r s', r_inodes (v_rows v) !! norm v i = Some r -> i_Ino r = norm v i -> vol_at v s' ->
     Q (Ok (loaded (v_rows v) r)) s') ->
  (forall s', vol_at v s' -> Q (Err Failure) s') ->
  (forall s', r_inodes (v_rows v) !! norm v i = None -> vol_at v s' -> Q (Err (Errno ENOENT)) s') ->
  wp (getOrLoadInodeLocked false i) Q s.
Proof.
  intros Hs HR H1 H2 H3. apply wp_bind. eapply wp_normalize; [done|].
  apply wp_bind. eapply wp_getRow_ro; [done| |done]. intros s1 Hs1. cbn [rows_get].
  destruct (r_inodes (v_rows v) !! norm v i) as [r|] eqn:Er; cbn [fmap option_fmap option_map as_inode];
    [|apply wp_throw; by apply H3].
  assert (i_Ino r = norm v i) as Hi by (by apply HR). apply wp_bind.
  assert (forall s2, vol_at v s2 -> wp (ensureInodeChunksLoadedLocked false (mkCached r ∅ [])) Q s2) as Hgo.
  { intros s2 Hs2. apply wp_bind, wp_bind, wp_get_tx, wp_ret, wp_bind, wp_get_tx, wp_bind, wp_ret.
    cbn [n_Row n_Chunks n_InlineData]. rewrite (bool_decide_eq_true_2 (∅ = ∅)), andb_false_r by done. unfold loaded in H1.
    destruct (i_IsDir r || (i_Size r =? 0)) eqn:Ed.
    - apply wp_ret. specialize (H1 r s2). rewrite Ed in H1. by apply H1.
    - apply wp_bind. eapply wp_scan_ro; [done| |done]. intros s3 Hs3. apply wp_ret. specialize (H1 r s3).
      rewrite Ed in H1. by apply H1. }
  destruct (i_IsDir r && negb (GetParentIno r =? 0)) eqn:Ep; [|by apply wp_ret, Hgo].
  apply wp_upd_vol, Hgo. destruct Hs1 as [Hv1 Hd1]. split; cbn [s_vol]; [by rewrite Hv1|].
  intros j. cbn [v_dirParents set_dirParents]. zify_bool. destruct (decide (i_Ino r = j)) as [<-|Hij].
  - right. exists r. rewrite lookup_insert_eq, Hi. done.
  - rewrite lookup_insert_ne by done. apply Hd1.
Qed.

(** ** The content of a new file *)

Definition inline_rows (ino : Z) (data : bytes) : list change :=
  if blen data >? 0 then [ChInsert (RFileChunk (mkFileChunk ino 0 [] data))] else [].

Definition insert_changes (v : Volume) (ino cs : Z) (data : bytes) : list change :=
  if blen data <=? c_maxInlineLen (v_cfg v) then inline_rows ino data
  else ChInsert <$> chunk_rows ino (split_chunks cs data).

Definition replace_changes (v : Volume) (ino cs : Z) (data : bytes) : list change :=
  let old := chunks_in (rows_scan (v_rows v) (PFileChunk ino)) in
  let blobs := split_chunks cs data in
  if blen data <=? c_maxInlineLen (v_cfg v) then
    ((fun c => ChDelete (KFileChunk ino (fc_Index c))) <$> old) ++ inline_rows ino data
  else
    ((fun c => ChDelete (KFileChunk ino (fc_Index c))) <$>
       filter (fun c => (fc_Index c <? Z.of_nat (length blobs)) = false) old) ++
    (ChInsert <$> chunk_rows ino blobs).

(** The blob store once the content has been uploaded. *)
Definition content_blobs (v : Volume) (cs : Z) (data : bytes) : gmap bytes bytes :=
  if blen data <=? c_maxInlineLen (v_cfg v) then v_blobs v else blobs_with v (split_chunks cs data).

Lemma set_blobs_id v : set_blobs (v_blobs v) v = v.
Proof. by destruct v. Qed.

Lemma wp_inline_rows v K s ino data cs0 Q :
  at_ v K cs0 s -> (forall s', at_ v K (cs0 ++ inline_rows ino data) s' -> Q (Ok ()) s') ->
  (forall s', vol_at v s' -> Q (Err Failure) s') ->
  wp (if blen data >? 0 then tx_Insert (RFileChunk (mkFileChunk ino 0 [] data)) else mret ()) Q s.
Proof.
  intros Hs H1 H2. unfold inline_rows in H1. destruct (blen data >? 0).
  - by eapply wp_tx_write.
  - apply wp_ret, H1. by rewrite app_nil_r.
Qed.

Lemma wp_insert_content v K s ino cs data Q :
  at_ v K [] s ->
  (forall s', at_ (set_blobs (content_blobs v cs data) v) K (insert_changes v ino cs data) s' -> Q (Ok ()) s') ->
  (forall b s', vol_at (set_blobs b v) s' -> Q (Err Failure) s') ->
  wp (insert_content ino cs data) Q s.
Proof.
  intros Hs H1 H2. apply wp_bind, wp_get_vol. rewrite (at_cfg _ _ _ _ Hs).
  assert (forall s', vol_at v s' -> Q (Err Failure) s') as H2'.
  { intros s' Hs'. apply (H2 (v_blobs v)). by rewrite set_blobs_id. }
  unfold insert_changes, content_blobs in H1. destruct (blen data <=? _) eqn:E.
  - eapply wp_inline_rows; [done| |done]. intros s' Hs'. apply H1. by rewrite set_blobs_id.
  - apply wp_bind. eapply wp_PutBlobs; [done| |done]. intros s1 Hs1.
    eapply (wp_tx_writes ChInsert); [done| |by apply H2]. intros s2 Hs2. by apply H1.
Qed.

Lemma wp_replace_content v K s ino cs data Q :
  at_ v K [] s ->
  (forall s', at_ (set_blobs (content_blobs v cs data) v) K (replace_changes v ino cs data) s' -> Q (Ok ()) s') ->
  (forall b s', vol_at (set_blobs b v) s' -> Q (Err Failure) s') ->
  wp (replace_content ino cs data (rows_scan (v_rows v) (PFileChunk ino))) Q s.
Proof.
  intros Hs H1 H2. apply wp_bind, wp_get_vol. rewrite (at_cfg _ _ _ _ Hs).
  assert (forall s', vol_at v s' -> Q (Err Failure) s') as H2'.
  { intros s' Hs'. apply (H2 (v_blobs v)). by rewrite set_blobs_id. }
  unfold replace_changes, content_blobs in H1. destruct (blen data <=? _) eqn:E.
  - apply wp_bind. eapply (wp_tx_writes (fun c => ChDelete (KFileChunk ino (fc_Index c)))); [done| |done]. intros s1 Hs1.
    eapply wp_inline_rows; [done| |done]. intros s' Hs'. apply H1. by rewrite set_blobs_id.
  - apply wp_bind. eapply wp_PutBlobs; [done| |done]. intros s1 Hs1. apply wp_bind.
    eapply (wp_tx_writes_unless (fun c => fc_Index c <? _) (fun c => ChDelete (KFileChunk ino (fc_Index c)))); [done| |by apply H2].
    intros s2 Hs2. eapply (wp_tx_writes ChInsert); [done| |by apply H2]. intros s3 Hs3. by apply H1.
Qed.

Lemma insert_changes_keys v ino cs data c : c ∈ insert_changes v ino cs data -> under (PFileChunk ino) (change_key c) = true.
Proof.
  unfold insert_changes, inline_rows, chunk_rows. intros Hc. repeat case_match.
  - apply list_elem_of_singleton in Hc as ->. apply Z.eqb_refl.
  - by apply elem_of_nil in Hc.
  - apply list_elem_of_fmap in Hc as (x & -> & Hx). apply elem_of_lookup_imap in Hx as (i & d & -> & _). apply Z.eqb_refl.
Qed.

Lemma replace_changes_keys v ino cs data c : c ∈ replace_changes v ino cs data -> under (PFileChunk ino) (change_key c) = true.
Proof.
  unfold replace_changes. intros Hc. case_match; apply elem_of_app in Hc as [Hc|Hc];
    try (apply list_elem_of_fmap in Hc as (x & -> & _); apply Z.eqb_refl).
  - unfold inline_rows in Hc. case_match; [|by apply elem_of_nil in Hc].
    apply list_elem_of_singleton in Hc as ->. apply Z.eqb_refl.
  - apply list_elem_of_fmap in Hc as (x & -> & Hx). apply elem_of_lookup_imap in Hx as (i & d & -> & _). apply Z.eqb_refl.
Qed.

End at_.
