(* ===== verification/VolOps.v ===== *)
(** * VolOps: what each operation of a volume does to the rows

    For every operation of [VolNamespace], the possible outcomes under any
    failures: nothing is changed, or the rows take the changes of one
    transaction, given as a list.  No operation panics. *)

From S2P Require Import Prelude Bytes Sha256 VolRows VolStaging VolNamespace VolLogic.

#[local] Open Scope Z_scope.
#[local] Open Scope list_scope.

(** What the reads of an operation rely on. *)
Definition rows_fit (v : Volume) : Prop := next_unused v /\ chunks_owned (v_rows v).

(** Before its commit an operation may use up an inode number, upload blobs,
    drop staged writes and change the parents the volume remembers. *)
Definition quiet (v0 v : Volume) : Prop :=
  v_cfg v = v_cfg v0 /\ v_rows v = v_rows v0 /\ v_liveStats v = v_liveStats v0 /\ v_handles v = v_handles v0 /\
  (v_nextInode v = v_nextInode v0 \/ v_nextInode v = u64 (v_nextInode v0 + DefaultInodeStride)).

Definition is_err {A} (r : result verr A) : Prop := match r with Err _ => True | Ok _ => False end.

(** An operation on [v0] ends in [w]: quietly, with a result in [P0], or after
    the commit of changes that satisfy [P]. *)
Definition outcome {A} (v0 : Volume) (P0 : result verr A -> Prop) (P : Volume -> list change -> Prop)
    (r : result verr A) (w : Volume) : Prop :=
  r <> Err Panic /\
  ((P0 r /\ quiet v0 w) \/ (exists v cs, quiet v0 v /\ P v cs /\ committed (rows_fit v0) v cs w)).

Lemma quiet_refl v : quiet v v.
Proof. unfold quiet. split_and!; auto. Qed.

Lemma vol_at_quiet v0 v s : quiet v0 v -> vol_at v s -> quiet v0 (s_vol s).
Proof. intros Hq [-> _]. exact Hq. Qed.

Lemma vol_at_refl v t env : vol_at v (mkSt v t env).
Proof. split; cbn [s_vol]; [by destruct v|apply dp_ext_refl]. Qed.

Lemma outcome_quiet {A} v0 v (P0 : result verr A -> Prop) P r s :
  quiet v0 v -> vol_at v s -> r <> Err Panic -> P0 r -> outcome v0 P0 P r (s_vol s).
Proof. intros Hq Hs He HP. split; [congruence|]. left. split; [done|]. by eapply vol_at_quiet. Qed.

Lemma outcome_err_dp {A} v0 v (P0 : result verr A -> Prop) P e s d t env :
  quiet v0 v -> vol_at v s -> e <> Panic -> P0 (Err e) ->
  outcome v0 P0 P (Err e) (s_vol (mkSt (set_dirParents d (s_vol s)) t env)).
Proof.
  intros Hq Hs He HP. split; [congruence|]. left. split; [done|]. pose proof (vol_at_quiet _ _ _ Hq Hs) as HH. exact HH.
Qed.

Lemma outcome_committed {A} v0 P0 (P : Volume -> list change -> Prop) (r : result verr A) v cs w :
  r <> Err Panic -> quiet v0 v -> P v cs -> committed (rows_fit v0) v cs w -> outcome v0 P0 P r w.
Proof. intros Hr Hq HP Hc. split; [done|]. right. by exists v, cs. Qed.

(** ** Stepping through an operation *)

(** [vgo] applies the rules to the computation at the head of the goal; failures
    end in [vfail].  It stops at a case distinction of the code. *)
Ltac vquiet := solve [done | unfold quiet; cbn; split_and!; auto].

Ltac vfail :=
  cbn beta iota;
  lazymatch goal with
  | Hs : at_ _ ?v _ _ ?s |- outcome _ _ _ (Err _) (s_vol ?s) =>
      apply (outcome_quiet _ v); [vquiet|exact (at_vol _ _ _ _ _ Hs)|done|cbn; auto]
  | Hs : vol_at ?v ?s |- outcome _ _ _ (Err _) (s_vol ?s) =>
      apply (outcome_quiet _ v); [vquiet|exact Hs|done|cbn; auto]
  | Hs : vol_at ?v ?s |- outcome _ _ _ (Err _) (s_vol (mkSt (set_dirParents _ (s_vol ?s)) _ _)) =>
      apply (outcome_err_dp _ v); [vquiet|exact Hs|done|cbn; auto]
  end.

(** Every buffered key has been read. *)
Ltac vcover_leaf :=
  cbn; repeat match goal with |- context [if ?b then _ else _] => destruct b end; cbn;
  repeat match goal with H : i_Ino ?r = _ |- context [i_Ino ?r] => rewrite H end;
  unfold inode_keys; cbn [under]; rewrite ?Z.eqb_refl; tauto.

Ltac vcover_in c Hc :=
  first
  [ apply elem_of_nil in Hc; done
  | apply elem_of_app in Hc as [Hc|Hc]; vcover_in c Hc
  | apply elem_of_cons in Hc as [->|Hc]; [vcover_leaf|vcover_in c Hc]
  | apply inode_deletes_keys in Hc as [Hc|[Hc|Hc]]; [rewrite Hc; vcover_leaf|tauto|tauto]
  | apply chunk_deletes_keys in Hc; unfold inode_keys; tauto
  | apply insert_changes_keys in Hc; unfold inode_keys; tauto
  | apply replace_changes_keys in Hc; unfold inode_keys; tauto ].

Ltac vcover :=
  let c := fresh "c" in let Hc := fresh "Hc" in intros c Hc; vcover_in c Hc.

Ltac vrule Hs :=
  lazymatch goal with
  | |- wp checkBackpressureLocked _ _ => eapply (wp_backpressure _ _ _ _ _ _ Hs)
  | |- wp (normalizeInodeID _) _ _ => eapply (wp_normalize _ _ _ _ (at_vol _ _ _ _ _ Hs))
  | |- wp (getDirEntrySQLiteLocked true _ _) _ _ => eapply (wp_getDirEntry _ _ _ _ _ _ _ Hs)
  | |- wp (getSQLiteRowLocked true _) _ _ => eapply (wp_getRow _ _ _ _ _ _ Hs)
  | |- wp (getOrLoadInodeLocked true _) _ _ => eapply (wp_getOrLoad _ _ _ _ _ _ Hs); [intros HA; apply HA|..]
  | |- wp (scanSQLiteRowsLocked true _) _ _ => eapply (wp_scan _ _ _ _ _ _ Hs); [done|..]
  | |- wp (scanLimitSQLiteRowsLocked true _ 1) _ _ => eapply (wp_scan_one _ _ _ _ _ _ Hs); [done|..]
  | |- wp (allocInode true) _ _ => eapply (wp_alloc _ _ _ _ _ _ Hs); [intros HA; exact HA|..]
  | |- wp (set_parent _ _) _ _ => eapply (wp_set_parent _ _ _ _ _ _ _ _ Hs)
  | |- wp (del_parent _) _ _ => eapply (wp_del_parent _ _ _ _ _ _ _ Hs)
  | |- wp (tx_Insert _) _ _ => eapply (wp_tx_write _ _ _ _ _ _ _ Hs)
  | |- wp (tx_Update _) _ _ => eapply (wp_tx_write _ _ _ _ _ _ _ Hs)
  | |- wp (tx_Delete _) _ _ => eapply (wp_tx_write _ _ _ _ _ _ _ Hs)
  | |- wp (PutBlobs _) _ _ => eapply (wp_PutBlobs _ _ _ _ _ _ _ Hs)
  | |- wp (deleteInodeRowsLocked true _) _ _ => eapply (wp_deleteInodeRows _ _ _ _ _ _ Hs)
  end.

Ltac vrule_ro Hs :=
  lazymatch goal with
  | |- wp (normalizeInodeID _) _ _ => eapply (wp_normalize _ _ _ _ Hs)
  | |- wp (getDirEntrySQLiteLocked false _ _) _ _ => eapply (wp_getDirEntry_ro _ _ _ _ _ Hs)
  | |- wp (getSQLiteRowLocked false _) _ _ => eapply (wp_getRow_ro _ _ _ _ Hs)
  | |- wp (scanSQLiteRowsLocked false _) _ _ => eapply (wp_scan_ro _ _ _ _ Hs)
  | |- wp (getOrLoadInodeLocked false _) _ _ => eapply (wp_getOrLoad_ro _ _ _ _ Hs); [done|..]
  | |- wp beginTxLocked _ _ =>
      lazymatch goal with HR : rows_keyed (v_rows ?v0) |- _ => eapply (wp_begin (rows_fit v0) _ _ _ Hs); [exact HR|..] end
  end.

Ltac vtail Hs :=
  lazymatch goal with
  | |- wp (makeWaitFn _) _ _ => eapply (wp_makeWaitFn _ _ _ _ _ _ Hs)
  | |- wp (Broadcast _) _ _ => eapply (wp_Broadcast _ _ _ _ _ _ Hs)
  | |- wp (waitFn _) _ _ => eapply (wp_waitFn _ _ _ _ _ _ Hs)
  end.

Ltac vsimp := cbn beta iota zeta delta [mutate n_Row n_Chunks n_InlineData fst snd
    rn_child rn_oldParent rn_newParent rn_target rn_targetChunks]; rewrite ?loaded_row, ?norm_set_dirParents, ?norm_idem;
  repeat match goal with Hs : at_ _ _ _ _ ?s |- context [v_cfg (s_vol ?s)] => rewrite (at_cfg _ _ _ _ _ Hs) end;
  repeat match goal with Hs : at_ _ _ _ _ ?s |- context [hasOpenHandlesLocked (s_vol ?s) _] => rewrite (at_open _ _ _ _ _ _ Hs) end.

Ltac vstep :=
  vsimp;
  lazymatch goal with
  | |- wp (mbind _ _) _ _ => apply wp_bind
  | |- wp (mret _) _ _ => apply wp_ret
  | |- wp (throw _) _ _ => apply wp_throw
  | |- wp (on_error _ _) _ _ => apply wp_on_error
  | |- wp (check _ _) _ _ => apply wp_check; [intros ?|intros _; try solve [vfail]]
  | |- wp get_vol _ _ => apply wp_get_vol
  | |- wp _ _ ?s =>
      lazymatch goal with
      | Hs : at_ _ _ _ _ s |- _ => vrule Hs
      | Hs : vol_at _ s |- _ => vrule_ro Hs
      | Hs : committed _ _ _ (s_vol s) |- _ => vtail Hs
      end; rewrite ?norm_set_dirParents, ?norm_idem; intros; try solve [vfail]
  end.

Ltac vgo := repeat vstep.

(** At the commit: the changes satisfy [P]; the rest of the operation keeps that. *)
Ltac vdone HP :=
  cbn beta iota;
  lazymatch goal with
  | Hs : committed _ ?v ?cs (s_vol ?s) |- outcome _ _ _ _ (s_vol ?s) =>
      apply (outcome_committed _ _ _ _ v cs); [done|vquiet|exact HP|exact Hs]
  end.

Ltac vcommit P :=
  vsimp;
  lazymatch goal with
  | Hs : at_ _ ?v _ ?cs ?s |- wp commitTxLocked _ ?s =>
      let HP := fresh "HP" in
      assert (P v cs) as HP; [|eapply (wp_commit _ _ _ _ _ _ Hs); [try vcover|intros; vgo; try vdone HP|intros; vfail]]
  end.

Ltac vinit :=
  lazymatch goal with
  | |- wp _ _ (mkSt ?v ?t ?env) => let H0 := fresh "Hv" in pose proof (vol_at_refl v t env) as H0
  end.

(** The last state reached. *)
Ltac vlast H := match goal with Hs : at_ _ _ _ _ _ |- _ => rename Hs into H end.

Lemma norm_ne_0 v i : norm v i <> 0.
Proof. unfold norm. repeat case_match; zify_bool; lia. Qed.

(** [Z.land]/[Z.lor] equations, bit by bit. *)
Ltac bits := apply Z.bits_inj'; let n := fresh "n" in let Hn := fresh "Hn" in intros n Hn;
  rewrite ?Z.land_spec, ?Z.lor_spec; repeat match goal with |- context [Z.testbit ?a n] => destruct (Z.testbit a n) end; done.

Section ops.
Context (v0 : Volume) (HR : rows_keyed (v_rows v0)).

(** A free name in a directory. *)
Definition free_name (p : Z) (name : bytes) (pr : Inode) : Prop :=
  r_inodes (v_rows v0) !! p = Some pr /\ i_IsDir pr = true /\ r_dirents (v_rows v0) !! (p, name) = None /\
  invalid_name name = false /\ blen name <= MaxNameLength.

Definition took_inode (v : Volume) : Prop := v_nextInode v = u64 (v_nextInode v0 + DefaultInodeStride).

Definition mkdir_changes (now p : Z) (name : bytes) (v : Volume) (cs : list change) : Prop :=
  exists pr mode uid gid,
    free_name p name pr /\ took_inode v /\ Z.land mode S_IFDIR = S_IFDIR /\
    v_dirParents v = <[v_nextInode v0 := p]> (v_dirParents v0) /\
    cs = [ChInsert (RInode (with_parent p (new_inode (v_nextInode v0) mode 0 now uid gid true 2)));
          ChInsert (RDirEntry (mkDirEntry p name (v_nextInode v0) true mode));
          ChUpdate (RInode (with_mctime now (gain_subdir pr)))].

Lemma Mkdir_outcome now p name mode uid gid t env :
  wp (Mkdir now p name mode uid gid)
    (fun r s => outcome v0 is_err (mkdir_changes now (norm v0 p) name) r (s_vol s)) (mkSt v0 t env).
Proof.
  vinit. unfold Mkdir. vgo.
  vcommit (mkdir_changes now (norm v0 p) name).
  zify_bool. decide_tests. unfold mkdir_changes, free_name, took_inode. do 4 eexists. split_and!; try done.
  destruct (set_gid r); bits.
Qed.

Definition symlink_changes (now p : Z) (name target : bytes) (v : Volume) (cs : list change) : Prop :=
  exists pr uid gid,
    free_name p name pr /\ took_inode v /\ v_dirParents v = v_dirParents v0 /\
    let c := v_nextInode v0 in
    let mode := Z.lor mode_rwx S_IFLNK in
    cs = [ChInsert (RInode (mkInode c mode (blen target) (Some now) false [] [] [] 0 uid gid (Some now) (Some now) 1
                              target 0 None (Some 0)));
          ChInsert (RDirEntry (mkDirEntry p name c false mode));
          ChUpdate (RInode (with_mctime now pr))].

Lemma Symlink_outcome now p name target uid gid t env :
  wp (Symlink now p name target uid gid)
    (fun r s => outcome v0 is_err (symlink_changes now (norm v0 p) name target) r (s_vol s)) (mkSt v0 t env).
Proof.
  vinit. unfold Symlink. vgo. vcommit (symlink_changes now (norm v0 p) name target).
  zify_bool. decide_tests. unfold symlink_changes, free_name, took_inode. do 3 eexists. split_and!; done.
Qed.

Definition linked_row (now : Z) (r : Inode) : Inode :=
  with_ctime now (with_nlink (u32 ((if i_Nlink r =? 0 then 1 else i_Nlink r) + 1)) r).

Definition link_changes (now i p : Z) (name : bytes) (v : Volume) (cs : list change) : Prop :=
  exists pr cr,
    free_name p name pr /\ r_inodes (v_rows v0) !! i = Some cr /\ i_IsDir cr = false /\
    v_nextInode v = v_nextInode v0 /\ v_dirParents v = v_dirParents v0 /\
    cs = [ChUpdate (RInode (linked_row now cr));
          ChInsert (RDirEntry (mkDirEntry p name (i_Ino cr) false (i_Mode cr)));
          ChUpdate (RInode (with_mctime now pr))].

Lemma Link_outcome now i p name t env :
  wp (Link now i p name)
    (fun r s => outcome v0 is_err (link_changes now (norm v0 i) (norm v0 p) name) r (s_vol s)) (mkSt v0 t env).
Proof.
  vinit. unfold Link. vgo. vcommit (link_changes now (norm v0 i) (norm v0 p) name).
  zify_bool. decide_tests. unfold link_changes, free_name. do 2 eexists. split_and!; done.
Qed.

Definition setattr_changes (now i : Z) (a : SetAttrArgs) (v : Volume) (cs : list change) : Prop :=
  exists r, r_inodes (v_rows v0) !! i = Some r /\ v_nextInode v = v_nextInode v0 /\ v_dirParents v = v_dirParents v0 /\
    cs = [ChUpdate (RInode (set_attrs_row now a r))].

Lemma SetAttr_outcome now i a t env :
  wp (SetAttr now i a) (fun r s => outcome v0 (fun r => is_err r \/ sa_modified a = false)
    (setattr_changes now (norm v0 i) a) r (s_vol s)) (mkSt v0 t env).
Proof.
  vinit. unfold SetAttr. vgo. destruct (sa_modified a) eqn:Em; cbn [negb].
  - vgo. vcommit (setattr_changes now (norm v0 i) a). eexists. split_and!; done.
  - unfold toEntryAttrLocked. vgo. unfold Broadcast. apply wp_bind, wp_upd_vol, wp_ret. split; [done|]. left.
    split; [by right|]. vlast Hs. pose proof (vol_at_quiet _ _ _ (quiet_refl v0) (at_vol _ _ _ _ _ Hs)) as HH. exact HH.
Qed.

(** ** Extended attributes *)

Definition xattr_added (now : Z) (present : bool) (r : Inode) : Inode :=
  let r := with_ctime now r in if present then r else with_xattr_count (u32 (GetXattrCount r + 1)) r.

Definition setxattr_changes (now i : Z) (name value : bytes) (v : Volume) (cs : list change) : Prop :=
  exists r, r_inodes (v_rows v0) !! i = Some r /\ v_nextInode v = v_nextInode v0 /\ v_dirParents v = v_dirParents v0 /\
    let present := bool_decide (is_Some (r_xattrs (v_rows v0) !! (i, name))) in
    let x := RXAttr (mkXAttr i name value) in
    cs = [if present then ChUpdate x else ChInsert x; ChUpdate (RInode (xattr_added now present r))].

Lemma as_xattr_get R i n : as_xattr (rows_get R (KXAttr i n)) = r_xattrs R !! (i, n).
Proof. cbn. by destruct (_ !! _). Qed.

Lemma SetXAttr_outcome now i name value flags t env :
  wp (SetXAttr now i name value flags)
    (fun r s => outcome v0 is_err (setxattr_changes now (norm v0 i) name value) r (s_vol s)) (mkSt v0 t env).
Proof.
  vinit. unfold SetXAttr, xattr_name_ok. vgo. rewrite as_xattr_get.
  destruct flags, (bool_decide (is_Some (r_xattrs (v_rows v0) !! (norm v0 i, name)))) eqn:Ep; vgo;
    try solve [vfail]; vcommit (setxattr_changes now (norm v0 i) name value);
    unfold setxattr_changes; rewrite Ep; eexists; split_and!; done.
Qed.

Definition xattr_removed (now : Z) (r : Inode) : Inode :=
  let r := with_ctime now r in
  if GetXattrCount r >? 0 then with_xattr_count (GetXattrCount r - 1) r else with_xattr_count 0 r.

Definition removexattr_changes (now i : Z) (name : bytes) (v : Volume) (cs : list change) : Prop :=
  exists r, r_inodes (v_rows v0) !! i = Some r /\ v_nextInode v = v_nextInode v0 /\ v_dirParents v = v_dirParents v0 /\
    is_Some (r_xattrs (v_rows v0) !! (i, name)) /\
    cs = [ChDelete (KXAttr i name); ChUpdate (RInode (xattr_removed now r))].

Lemma xattr_removed_ino now r : i_Ino (xattr_removed now r) = i_Ino r.
Proof. unfold xattr_removed. by case_match. Qed.

Lemma RemoveXAttr_outcome now i name t env :
  wp (RemoveXAttr now i name)
    (fun r s => outcome v0 is_err (removexattr_changes now (norm v0 i) name) r (s_vol s)) (mkSt v0 t env).
Proof.
  vinit. unfold RemoveXAttr, xattr_name_ok. vgo. vcommit (removexattr_changes now (norm v0 i) name).
  rewrite as_xattr_get in *. decide_tests. eexists. split_and!; done.
Qed.

(** ** Files *)

Definition new_file_changes (now p : Z) (name data : bytes) (v : Volume) (cs : list change) : Prop :=
  exists pr mode uid gid rdev hash,
    free_name p name pr /\ took_inode v /\ v_dirParents v = v_dirParents v0 /\
    file_type_ok (Z.land mode S_IFMT) = true /\
    let c := v_nextInode v0 in
    let chunk := effective_chunk_size (v_cfg v0) 0 in
    let regular := Z.land mode S_IFMT =? S_IFREG in
    v_blobs v = (if regular then content_blobs v0 chunk data else v_blobs v0) /\
    cs = (if regular then insert_changes v0 c chunk data else []) ++
         [ChInsert (RInode (mkInode c mode (blen (if regular then data else [])) (Some now) false [] [] hash chunk uid gid
                     (Some now) (Some now) 1 [] rdev None (Some 0)));
          ChInsert (RDirEntry (mkDirEntry p name c false mode));
          ChUpdate (RInode (with_mctime now pr))].

Definition overwrite_changes (now p : Z) (name data : bytes) (v : Volume) (cs : list change) : Prop :=
  exists pr de cr mode uid gid hash,
    r_inodes (v_rows v0) !! p = Some pr /\ i_IsDir pr = true /\ r_dirents (v_rows v0) !! (p, name) = Some de /\
    r_inodes (v_rows v0) !! de_Ino de = Some cr /\ i_IsDir cr = false /\
    Z.land mode S_IFMT = S_IFREG /\ Z.land (i_Mode cr) S_IFMT = S_IFREG /\
    v_nextInode v = v_nextInode v0 /\ v_dirParents v = v_dirParents v0 /\
    let chunk := effective_chunk_size (v_cfg v0) (i_ChunkSize cr) in
    v_blobs v = content_blobs v0 chunk data /\
    cs = replace_changes v0 (i_Ino cr) chunk data ++
         [ChUpdate (RInode (overwrite_row (v_cfg v0) now mode uid gid chunk hash data cr));
          ChUpdate (RInode (with_mctime now pr))].

Definition create_changes (now p : Z) (name data : bytes) (v : Volume) (cs : list change) : Prop :=
  new_file_changes now p name data v cs \/ overwrite_changes now p name data v cs.

Lemma dirent_ino_nz p name de : r_dirents (v_rows v0) !! (p, name) = Some de -> de_Ino de <> 0.
Proof. intros Hd. apply (proj1 (proj2 HR) _ _ _ Hd). Qed.

Lemma overwrite_row_ino c now mode uid gid cs hash data r : i_Ino (overwrite_row c now mode uid gid cs hash data r) = i_Ino r.
Proof. done. Qed.

Lemma CreateFile_outcome now p name mode content uid gid rdev t env :
  wp (CreateFile now p name mode content uid gid rdev)
    (fun r s => outcome v0 is_err (create_changes now (norm v0 p) name content) r (s_vol s)) (mkSt v0 t env).
Proof.
  vinit. unfold CreateFile. vgo. destruct (r_dirents (v_rows v0) !! (norm v0 p, name)) as [de|] eqn:Ede.
  - pose proof (dirent_ino_nz _ _ _ Ede) as Hnz. unfold CreateFile_overwrite. vgo. rewrite (norm_nz _ _ Hnz) in *.
    match goal with H : _ && (_ =? S_IFREG) = true |- _ => apply andb_true_iff in H as [Hreg ?]; rewrite Hreg in * end.
    vlast Hs. rewrite overwrite_row_ino. eapply (wp_replace_content _ _ _ _ _ _ _ _ Hs); intros; [|vfail].
    vgo. vcommit (create_changes now (norm v0 p) name content).
    { right. zify_bool. do 3 eexists. exists (file_mode mode). do 3 eexists. cbn zeta. rewrite <- app_assoc. split_and!; done. }
  - unfold CreateFile_new. vgo. destruct (Z.land (file_mode mode) S_IFMT =? S_IFREG) eqn:Hreg.
    + vlast Hs. eapply (wp_insert_content _ _ _ _ _ _ _ _ Hs); intros; [|vfail].
      vgo. vcommit (create_changes now (norm v0 p) name content).
      left. zify_bool. eexists _, (file_mode mode). do 4 eexists. cbn zeta.
      rewrite (proj2 (Z.eqb_eq _ _) Hreg), <- !app_assoc. unfold free_name, took_inode. split_and!; done.
    + vgo. vcommit (create_changes now (norm v0 p) name content).
      left. zify_bool. eexists _, (file_mode mode). do 4 eexists. cbn zeta.
      rewrite (proj2 (Z.eqb_neq _ _) Hreg). unfold free_name, took_inode. split_and!; done.
Qed.

(** ** Removing *)

Definition unlink_changes (now p : Z) (name : bytes) (c : Z) (v : Volume) (cs : list change) : Prop :=
  exists de cr pr,
    r_dirents (v_rows v0) !! (p, name) = Some de /\
    r_inodes (v_rows v0) !! c = Some cr /\ r_inodes (v_rows v0) !! p = Some pr /\
    v_nextInode v = v_nextInode v0 /\ v_dirParents v = v_dirParents v0 /\
    let cr' := unlinked_row now cr in
    cs = (if (i_Nlink cr' =? 0) && negb (hasOpenHandlesLocked v0 c) then inode_deletes (v_rows v0) c
          else [ChUpdate (RInode cr')]) ++
         [ChDelete (KDirEntry p name); ChUpdate (RInode (with_mctime now pr))].

Lemma norm_set_staging g v i : norm (set_staging g v) i = norm v i.
Proof. done. Qed.

Lemma Unlink_remove_outcome now p name c g s :
  vol_at (set_staging g v0) s -> p <> 0 -> c <> 0 ->
  wp (Unlink_remove now p name c) (fun r s => outcome v0 is_err (unlink_changes now p name c) r (s_vol s)) s.
Proof.
  intros Hv Hp Hc. unfold Unlink_remove. vgo. rewrite (norm_nz _ _ Hc), (norm_nz _ _ Hp) in *. decide_tests.
  match goal with H : is_Some _ |- _ => destruct H as [de Hde] end.
  destruct ((i_Nlink (unlinked_row now r) =? 0) && negb (hasOpenHandlesLocked (set_staging g v0) c)) eqn:Eb;
    vgo; vcommit (unlink_changes now p name c); eexists de, r, r0; cbn zeta;
    change (hasOpenHandlesLocked v0 c) with (hasOpenHandlesLocked (set_staging g v0) c); rewrite Eb, <- ?app_assoc;
    split_and!; done.
Qed.

Lemma Unlink_outcome now p name t env :
  wp (Unlink now p name)
    (fun r s => outcome v0 is_err (fun v cs => exists de, r_dirents (v_rows v0) !! (norm v0 p, name) = Some de /\
       (forall cr, r_inodes (v_rows v0) !! de_Ino de = Some cr -> i_IsDir cr = false) /\
       unlink_changes now (norm v0 p) name (de_Ino de) v cs) r (s_vol s)) (mkSt v0 t env).
Proof.
  vinit. unfold Unlink, Unlink_find. vgo.
  destruct (r_dirents (v_rows v0) !! (norm v0 p, name)) as [de|] eqn:Ede; [|by vgo; vfail].
  pose proof (dirent_ino_nz _ _ _ Ede) as Hnz. vgo. rewrite (norm_nz _ _ Hnz) in *. unfold Unlink_drop.
  apply wp_upd_vol. cbn beta iota.
  match goal with H : i_Ino r = _ |- _ => rewrite H end.
  eapply wp_mono; [eapply (Unlink_remove_outcome now (norm v0 p) name (de_Ino de) (dropStagedChunksLocked (de_Ino de) (v_staging v0)))|].
  - match goal with H : vol_at v0 ?s |- vol_at _ (mkSt (set_staging _ (s_vol ?s)) _ _) => destruct H as [Hv1 Hd1] end.
    split; cbn [s_vol]; [rewrite Hv1; done|done].
  - apply norm_ne_0.
  - done.
  - intros r' s'' [Hp [HQ|(v & cs & Hq & HP & HC)]]; split; [done|by left|done|]. right. exists v, cs. split; [done|].
    split; [|done]. exists de. split; [done|]. split; [|done]. intros cr Hcr. zify_bool. congruence.
Qed.

Definition rmdir_changes (now p : Z) (name : bytes) (v : Volume) (cs : list change) : Prop :=
  exists de cr pr,
    r_dirents (v_rows v0) !! (p, name) = Some de /\ r_inodes (v_rows v0) !! de_Ino de = Some cr /\ i_IsDir cr = true /\
    rows_scan (v_rows v0) (PDirEntry (de_Ino de)) = [] /\ r_inodes (v_rows v0) !! p = Some pr /\
    v_nextInode v = v_nextInode v0 /\ v_dirParents v = delete (de_Ino de) (v_dirParents v0) /\
    cs = inode_deletes (v_rows v0) (de_Ino de) ++
         [ChDelete (KDirEntry p name); ChUpdate (RInode (with_mctime now (lose_subdir pr)))].

Lemma Rmdir_outcome now p name t env :
  wp (Rmdir now p name)
    (fun r s => outcome v0 is_err (rmdir_changes now (norm v0 p) name) r (s_vol s)) (mkSt v0 t env).
Proof.
  vinit. unfold Rmdir. vgo.
  destruct (r_dirents (v_rows v0) !! (norm v0 p, name)) as [de|] eqn:Ede; [|by vgo; vfail].
  pose proof (dirent_ino_nz _ _ _ Ede) as Hnz. vgo. rewrite (norm_nz _ _ Hnz) in *.
  vcommit (rmdir_changes now (norm v0 p) name).
  decide_tests. exists de, r, r0. rewrite <- app_assoc. split_and!; try done. naive_solver.
Qed.

(** ** Renaming *)

(** The inode a rename replaces. *)
Definition rename_target (np : Z) (nn : bytes) (cr : Inode) (tgt : option (DirEntry * Inode)) : Prop :=
  match tgt with
  | None => r_dirents (v_rows v0) !! (np, nn) = None
  | Some (td, tr) =>
      r_dirents (v_rows v0) !! (np, nn) = Some td /\ r_inodes (v_rows v0) !! de_Ino td = Some tr /\
      i_IsDir tr = i_IsDir cr /\ (i_IsDir cr = true -> rows_scan (v_rows v0) (PDirEntry (de_Ino td)) = [])
  end.

Definition target_changes (now np : Z) (nn : bytes) (tgt : option (DirEntry * Inode)) : list change :=
  match tgt with
  | None => []
  | Some (td, tr) =>
      ChDelete (KDirEntry np nn) ::
      if i_IsDir tr then [ChDelete (KInode (de_Ino td))]
      else if i_Nlink tr <=? 1 then
        if hasOpenHandlesLocked v0 (de_Ino td) then [ChUpdate (RInode (unlinked_row now tr))]
        else ChDelete (KInode (de_Ino td)) :: chunk_deletes (v_rows v0) (de_Ino td)
      else [ChUpdate (RInode (unlinked_row now tr))]
  end.

Definition rename_parents (op np : Z) (cr : Inode) (tgt : option (DirEntry * Inode)) : gmap Z Z :=
  let d := if i_IsDir cr && negb (np =? op) then <[i_Ino cr := np]> (v_dirParents v0) else v_dirParents v0 in
  match tgt with Some (td, tr) => if i_IsDir tr then delete (de_Ino td) d else d | None => d end.

Definition rename_changes (now op : Z) (on : bytes) (np : Z) (nn : bytes) (v : Volume) (cs : list change) : Prop :=
  exists oldDe cr opr npr tgt,
    r_dirents (v_rows v0) !! (op, on) = Some oldDe /\ r_inodes (v_rows v0) !! de_Ino oldDe = Some cr /\
    r_inodes (v_rows v0) !! op = Some opr /\ r_inodes (v_rows v0) !! np = Some npr /\ i_IsDir npr = true /\
    invalid_name on = false /\ invalid_name nn = false /\ blen nn <= MaxNameLength /\
    rename_target np nn cr tgt /\
    (i_IsDir cr = true -> np <> op -> exists d, dp_ext (v_rows v0) (v_dirParents v0) d /\
       ancestor_walk (S (size d)) d (rootInodeID v0) (i_Ino cr) np = Some true) /\
    v_nextInode v = v_nextInode v0 /\ v_dirParents v = rename_parents op np cr tgt /\
    let moves := i_IsDir cr && negb (np =? op) in
    cs = ChDelete (KDirEntry op on) :: target_changes now np nn tgt ++
         [ChInsert (RDirEntry (mkDirEntry np nn (i_Ino cr) (i_IsDir cr) (i_Mode cr)));
          ChUpdate (RInode (with_ctime now (if i_IsDir cr then with_parent np cr else cr)));
          ChUpdate (RInode (with_mctime now (if moves then lose_subdir opr else opr)))] ++
         (if np =? op then []
          else [ChUpdate (RInode (with_mctime now (if moves && bool_decide (tgt = None) then gain_subdir npr else npr)))]).

(** What the last part of a rename buffers; the target is given after its link
    count has been lowered. *)
Definition target_writes (np : Z) (nn : bytes) (target : option (Z * Inode)) (chunks : list row) : list change :=
  match target with
  | None => []
  | Some (ti, tr) =>
      ChDelete (KDirEntry np nn) ::
      if i_IsDir tr then [ChDelete (KInode (i_Ino tr))]
      else if i_Nlink tr =? 0 then
        if hasOpenHandlesLocked v0 ti then [ChUpdate (RInode tr)]
        else ChDelete (KInode (i_Ino tr)) :: ((fun c => ChDelete (KFileChunk ti (fc_Index c))) <$> chunks_in chunks)
      else [ChUpdate (RInode tr)]
  end.

Lemma wp_write_target d K cs s np nn target chunks Q :
  at_ (rows_fit v0) (set_dirParents d v0) K cs s ->
  (forall s', at_ (rows_fit v0) (set_dirParents d v0) K
     (cs ++ target_writes np nn (prod_map id n_Row <$> target) chunks) s' -> Q (Ok ()) s') ->
  (forall s', vol_at (set_dirParents d v0) s' -> Q (Err Failure) s') ->
  wp (Rename_write_target np nn target chunks) Q s.
Proof.
  intros Hs H1 H2. unfold Rename_write_target. destruct target as [[ti tn]|]; cbn [fmap option_fmap option_map target_writes prod_map fst snd id] in H1;
    [|apply wp_ret, H1; by rewrite app_nil_r].
  assert (forall c s', at_ (rows_fit v0) (set_dirParents d v0) K (cs ++ [ChDelete (KDirEntry np nn)]) s' ->
    (target_writes np nn (Some (ti, n_Row tn)) chunks = [ChDelete (KDirEntry np nn); c]) ->
    wp (tx_write c) Q s') as Hone.
  { intros c s' Hs' Hc. eapply wp_tx_write; [done| |done]. intros s2 Hs2. apply H1. unfold target_writes in Hc. cbn [id fst snd].
    rewrite Hc. by rewrite <- app_assoc in Hs2. }
  apply wp_bind. eapply wp_tx_write; [done| |done]. intros s1 Hs1. apply wp_bind, wp_get_vol.
  rewrite (at_open _ _ _ _ _ _ Hs1). change (hasOpenHandlesLocked (set_dirParents d v0) ti) with (hasOpenHandlesLocked v0 ti).
  cbn [target_writes] in *. destruct (i_IsDir (n_Row tn)); [by eapply Hone|].
  destruct (i_Nlink (n_Row tn) =? 0); [|by eapply Hone]. destruct (hasOpenHandlesLocked v0 ti); [by eapply Hone|].
  apply wp_bind. eapply wp_tx_write; [done| |done]. intros s2 Hs2.
  eapply (wp_tx_writes _ (fun c => ChDelete (KFileChunk ti (fc_Index c)))); [done| |done]. intros s3 Hs3. apply H1.
  rewrite <- !app_assoc in Hs3. exact Hs3.
Qed.

Lemma target_writes_keys np nn target chunks (K : rkey -> Prop) c :
  K (KDirEntry np nn) ->
  (forall ti tr, target = Some (ti, tr) -> K (KInode (i_Ino tr)) /\ (forall k, under (PFileChunk ti) k = true -> K k)) ->
  c ∈ target_writes np nn target chunks -> K (change_key c).
Proof.
  intros Hd Ht Hc. destruct target as [[ti tr]|]; cbn [target_writes] in Hc; [|by apply elem_of_nil in Hc].
  destruct (Ht _ _ eq_refl) as [Hi Hk]. apply elem_of_cons in Hc as [->|Hc]; [done|].
  repeat case_match; try (apply list_elem_of_singleton in Hc as ->; done).
  apply elem_of_cons in Hc as [->|Hc]; [done|]. apply list_elem_of_fmap in Hc as (x & -> & _). apply Hk. apply Z.eqb_refl.
Qed.

Lemma Rename_commit_outcome now op on np nn rn target d K s P :
  at_ (rows_fit v0) (set_dirParents d v0) K [] s ->
  let c' := with_ctime now (n_Row (rn_child rn)) in
  let o' := with_mctime now (n_Row (rn_oldParent rn)) in
  let n' := with_mctime now (n_Row (rn_newParent rn)) in
  let tgt := prod_map id n_Row <$> target in
  K (KDirEntry op on) -> K (KDirEntry np nn) -> K (KInode (i_Ino c')) -> K (KInode (i_Ino o')) -> K (KInode (i_Ino n')) ->
  (forall ti tr, tgt = Some (ti, tr) -> K (KInode (i_Ino tr)) /\ (forall k, under (PFileChunk ti) k = true -> K k)) ->
  P (set_dirParents d v0)
    (ChDelete (KDirEntry op on) :: target_writes np nn tgt (rn_targetChunks rn) ++
     [ChInsert (RDirEntry (mkDirEntry np nn (i_Ino c') (i_IsDir c') (i_Mode c'))); ChUpdate (RInode c'); ChUpdate (RInode o')] ++
     (if np =? op then [] else [ChUpdate (RInode n')])) ->
  wp (Rename_commit now op on np nn rn target) (fun r s => outcome v0 is_err P r (s_vol s)) s.
Proof.
  intros Hs c' o' n' tgt Ho Hn Hc Hp Hq Ht HP. unfold Rename_commit. vgo.
  vlast Hs1. eapply (wp_write_target _ _ _ _ _ _ _ _ _ Hs1); intros; [|vfail]. vgo.
  destruct (np =? op) eqn:E; cbn [negb]; vgo; (vcommit P; [rewrite <- !app_assoc; exact HP|]);
    intros x Hx; repeat first [by apply elem_of_nil in Hx | apply elem_of_cons in Hx as [->|Hx]; [done|]
                              | apply elem_of_app in Hx as [Hx|Hx]]; by eapply target_writes_keys.
Qed.

Lemma target_writes_eq now np nn td tr :
  i_Ino tr = de_Ino td ->
  target_writes np nn (Some (de_Ino td, if i_IsDir tr then tr else unlinked_row now tr))
    (if negb (i_IsDir tr) && (i_Nlink tr <=? 1) && negb (hasOpenHandlesLocked v0 (de_Ino td))
     then rows_scan (v_rows v0) (PFileChunk (de_Ino td)) else []) =
  target_changes now np nn (Some (td, tr)).
Proof.
  intros Hi. unfold target_writes, target_changes. f_equal. destruct (i_IsDir tr) eqn:Ed; [by rewrite Ed, Hi|].
  cbn [unlinked_row with_ctime with_times with_nlink i_IsDir i_Nlink i_Ino]. rewrite Ed, Hi. cbn [negb andb].
  destruct (Z.leb_spec (i_Nlink tr) 1) as [Hle|Hgt].
  - destruct (i_Nlink tr >? 1) eqn:E; [zify_bool; lia|]. cbn.
    by destruct (hasOpenHandlesLocked _ _).
  - destruct (i_Nlink tr >? 1) eqn:E; [|zify_bool; lia]. destruct (i_Nlink tr - 1 =? 0) eqn:E2; [zify_bool; lia|done].
Qed.

(** After the loads: the rows, and the keys that have been read. *)
Definition target_keys (tgt : option (DirEntry * Inode)) (k : rkey) : Prop :=
  match tgt with Some (td, _) => inode_keys (de_Ino td) k | None => False end.

Definition rename_keys (op : Z) (on : bytes) (np : Z) (nn : bytes) (od : DirEntry) (tgt : option (DirEntry * Inode)) (k : rkey) : Prop :=
  k = KDirEntry op on \/ k = KDirEntry np nn \/ inode_keys np k \/ inode_keys op k \/ inode_keys (de_Ino od) k \/ target_keys tgt k.

Definition target_chunks (tgt : option (DirEntry * Inode)) : list row :=
  match tgt with
  | None => []
  | Some (td, tr) =>
      if negb (i_IsDir tr) && (i_Nlink tr <=? 1) && negb (hasOpenHandlesLocked v0 (de_Ino td))
      then rows_scan (v_rows v0) (PFileChunk (de_Ino td)) else []
  end.

Definition load_target (tgt : option (DirEntry * Inode)) : option (Z * CachedInode) :=
  match tgt with Some (td, tr) => Some (de_Ino td, loaded (v_rows v0) tr) | None => None end.

Definition target_at (np : Z) (nn : bytes) (tgt : option (DirEntry * Inode)) : Prop :=
  match tgt with
  | None => r_dirents (v_rows v0) !! (np, nn) = None
  | Some (td, tr) => r_dirents (v_rows v0) !! (np, nn) = Some td /\ r_inodes (v_rows v0) !! de_Ino td = Some tr /\ i_Ino tr = de_Ino td
  end.

Lemma wp_Rename_load op on np nn s Q :
  op <> 0 -> np <> 0 ->
  at_ (rows_fit v0) v0 (fun _ => False) [] s ->
  (forall od cr opr npr tgt s',
     r_dirents (v_rows v0) !! (op, on) = Some od -> r_inodes (v_rows v0) !! de_Ino od = Some cr -> i_Ino cr = de_Ino od ->
     r_inodes (v_rows v0) !! op = Some opr -> i_Ino opr = op ->
     r_inodes (v_rows v0) !! np = Some npr -> i_Ino npr = np -> i_IsDir npr = true -> target_at np nn tgt ->
     at_ (rows_fit v0) v0 (rename_keys op on np nn od tgt) [] s' ->
     Q (Ok (mkRenaming (loaded (v_rows v0) cr) (loaded (v_rows v0) opr) (loaded (v_rows v0) npr) (load_target tgt) (target_chunks tgt))) s') ->
  (forall e s', e <> Panic -> vol_at v0 s' -> Q (Err e) s') ->
  wp (Rename_load op on np nn) Q s.
Proof.
  intros Hop Hnp Hs H1 H2. assert (forall e s K, e <> Panic -> at_ (rows_fit v0) v0 K [] s -> Q (Err e) s) as H2'.
  { intros e s1 K He Hs1. apply H2; [done|apply Hs1]. }
  unfold Rename_load. vgo; [|by apply H2].
  destruct (r_dirents (v_rows v0) !! (op, on)) as [od|] eqn:Eod; [|by vgo; eapply H2'].
  pose proof (dirent_ino_nz _ _ _ Eod) as Hnz. vgo; try (by apply H2); try (by eapply H2').
  rewrite ?(norm_nz _ _ Hnz), ?(norm_nz _ _ Hop), ?(norm_nz _ _ Hnp) in *.
  destruct (r_dirents (v_rows v0) !! (np, nn)) as [td|] eqn:Etd.
  - pose proof (dirent_ino_nz _ _ _ Etd) as Hnz'. vgo; try (by apply H2). rewrite (norm_nz _ _ Hnz') in *.
    assert (forall s K, at_ (rows_fit v0) v0 K [] s -> (forall k, rename_keys op on np nn od (Some (td, r2)) k -> K k) ->
      Q (Ok (mkRenaming (loaded (v_rows v0) r0) (loaded (v_rows v0) r1) (loaded (v_rows v0) r) (Some (de_Ino td, loaded (v_rows v0) r2))
        (target_chunks (Some (td, r2))))) s) as Hend.
    { intros s1 K Hs1 HK. eapply (H1 od r0 r1 r (Some (td, r2))); try done. by eapply at_weaken. }
    unfold target_chunks in Hend.
    destruct (negb (i_IsDir r2) && (i_Nlink r2 <=? 1) && negb (hasOpenHandlesLocked v0 (de_Ino td))); vgo; try (by apply H2);
      (eapply Hend; [done|]); unfold rename_keys, target_keys; intros; tauto.
  - vgo. eapply (H1 od r0 r1 r None); try done. eapply at_weaken; [done|]. unfold rename_keys, target_keys; intros; tauto.
Qed.

Definition walk_passed (op np : Z) (cr : Inode) : Prop :=
  i_IsDir cr = true -> np <> op -> exists d, dp_ext (v_rows v0) (v_dirParents v0) d /\
    ancestor_walk (S (size d)) d (rootInodeID v0) (i_Ino cr) np = Some true.

Lemma wp_Rename_directory op np K s cr opr npr tgt chunks Q :
  i_IsDir cr = true ->
  at_ (rows_fit v0) v0 K [] s ->
  let moves := negb (np =? op) in
  (forall s' d,
     (forall td tr, tgt = Some (td, tr) -> i_IsDir tr = true /\ rows_scan (v_rows v0) (PDirEntry (de_Ino td)) = []) ->
     walk_passed op np cr ->
     d = (if moves then <[i_Ino cr := np]> (v_dirParents v0) else v_dirParents v0) ->
     at_ (rows_fit v0) (set_dirParents d v0) K [] s' ->
     forall no nn, n_Row no = (if moves then lose_subdir opr else opr) ->
       (moves = true -> n_Row nn = if bool_decide (tgt = None) then gain_subdir npr else npr) ->
       i_Ino (n_Row nn) = i_Ino npr ->
     Q (Ok (mkRenaming (mutate (with_parent np) (loaded (v_rows v0) cr)) no nn (load_target tgt) chunks)) s') ->
  (forall e s', e <> Panic -> vol_at v0 s' -> Q (Err e) s') ->
  wp (Rename_directory op np (mkRenaming (loaded (v_rows v0) cr) (loaded (v_rows v0) opr) (loaded (v_rows v0) npr) (load_target tgt) chunks)) Q s.
Proof.
  intros Hdir Hs moves H1 H2. unfold Rename_directory. apply wp_bind.
  assert (bool_decide (load_target tgt = None) = bool_decide (tgt = None)) as Etgt.
  { apply bool_decide_ext. by destruct tgt as [[td tr]|]. }
  assert (forall s1, at_ (rows_fit v0) v0 K [] s1 ->
    (forall td tr, tgt = Some (td, tr) -> i_IsDir tr = true /\ rows_scan (v_rows v0) (PDirEntry (de_Ino td)) = []) ->
    wp (parents ← (if negb (np =? op) then
       v ← get_vol;
       match ancestor_walk (S (size (v_dirParents v))) (v_dirParents v) (rootInodeID v) (i_Ino (n_Row (loaded (v_rows v0) cr))) np with
       | None => throw Diverge
       | Some false => throw (Errno EINVAL)
       | Some true =>
           set_parent (i_Ino (n_Row (loaded (v_rows v0) cr))) np ;;
           mret (mutate lose_subdir (loaded (v_rows v0) opr),
                 if bool_decide (load_target tgt = None) then mutate gain_subdir (loaded (v_rows v0) npr) else loaded (v_rows v0) npr)
       end
     else mret (loaded (v_rows v0) opr, if bool_decide (load_target tgt = None) then loaded (v_rows v0) npr else mutate lose_subdir (loaded (v_rows v0) npr)));
     mret (mkRenaming (mutate (with_parent np) (loaded (v_rows v0) cr)) (fst parents) (snd parents) (load_target tgt) chunks)) Q s1) as Hgo.
  { intros s1 Hs1 Ht. rewrite Etgt. apply wp_bind. destruct (negb (np =? op)) eqn:Em.
    - apply wp_bind, wp_get_vol. rewrite (at_root _ _ _ _ _ Hs1), loaded_row.
      destruct (ancestor_walk _ _ _ _ _) as [[|]|] eqn:Ew; [|apply wp_throw, H2; [done|apply Hs1]..].
      apply wp_bind. eapply (wp_set_parent _ _ _ _ _ _ _ _ Hs1). intros s2 Hs2. apply wp_ret. apply wp_ret.
      eapply H1; [done| |reflexivity|exact Hs2| |intros _|]; subst moves; cbn [fst snd].
      + intros _ _. exists (v_dirParents (s_vol s1)). split; [apply Hs1|done].
      + cbn [mutate n_Row]. by rewrite loaded_row.
      + clear Etgt. destruct (bool_decide _); cbn [mutate n_Row]; by rewrite loaded_row.
      + clear Etgt. destruct (bool_decide _); cbn [mutate n_Row]; by rewrite loaded_row.
    - apply wp_ret. apply wp_ret. eapply H1; [done| |reflexivity| | |subst moves; done|]; subst moves; cbn [fst snd].
      + intros _ Hne. zify_bool. lia.
      + by destruct v0.
      + by rewrite loaded_row.
      + clear Etgt. destruct (bool_decide _); cbn [mutate n_Row]; rewrite loaded_row; [done|]. unfold lose_subdir. by case_match. }
  destruct tgt as [[td tr]|]; cbn [load_target].
  - apply wp_bind, wp_check; rewrite loaded_row; intros Htd; [|apply H2; [done|apply Hs]].
    apply wp_bind. eapply (wp_scan_one _ _ _ _ _ _ Hs); [done| |by intros; apply H2]. intros l s1 Hl Hs1.
    apply wp_check; intros Hc; [|apply H2; [done|apply Hs1]]. apply Hgo; [done|].
    intros td' tr' E. simplify_eq. split; [done|]. decide_tests. naive_solver.
  - apply wp_ret. eapply Hgo; done.
Qed.

Lemma wp_Rename_replace now d K s tgt Q :
  at_ (rows_fit v0) (set_dirParents d v0) K [] s ->
  (forall s' target,
     at_ (rows_fit v0) (set_dirParents (match tgt with Some (td, tr) => if i_IsDir tr then delete (de_Ino td) d else d | None => d end) v0) K [] s' ->
     (prod_map id n_Row <$> target) =
       ((fun x : DirEntry * Inode => (de_Ino x.1, if i_IsDir x.2 then x.2 else unlinked_row now x.2)) <$> tgt) ->
     Q (Ok target) s') ->
  wp (Rename_replace now (load_target tgt)) Q s.
Proof.
  intros Hs H1. unfold Rename_replace. destruct tgt as [[td tr]|]; cbn [load_target]; [|by apply wp_ret, H1].
  rewrite loaded_row. destruct (i_IsDir tr) eqn:Ed.
  - apply wp_bind. eapply (wp_del_parent _ _ _ _ _ _ _ Hs). intros s' Hs'. apply wp_ret, H1; [done|].
    cbn [fmap option_fmap option_map prod_map fst snd id]. by rewrite loaded_row, Ed.
  - apply wp_ret, H1; [done|]. cbn [fmap option_fmap option_map prod_map fst snd id mutate n_Row]. by rewrite loaded_row, Ed.
Qed.

(** The end of a rename, after its tests. *)
Lemma Rename_finish now op on np nn od cr opr npr tgt d child no nn' s :
  r_dirents (v_rows v0) !! (op, on) = Some od -> r_inodes (v_rows v0) !! de_Ino od = Some cr -> i_Ino cr = de_Ino od ->
  r_inodes (v_rows v0) !! op = Some opr -> i_Ino opr = op ->
  r_inodes (v_rows v0) !! np = Some npr -> i_Ino npr = np -> i_IsDir npr = true -> target_at np nn tgt ->
  invalid_name on = false -> invalid_name nn = false -> blen nn <= MaxNameLength ->
  (forall td tr, tgt = Some (td, tr) -> i_IsDir tr = i_IsDir cr /\ (i_IsDir cr = true -> rows_scan (v_rows v0) (PDirEntry (de_Ino td)) = [])) ->
  walk_passed op np cr ->
  let moves := i_IsDir cr && negb (np =? op) in
  d = (if moves then <[i_Ino cr := np]> (v_dirParents v0) else v_dirParents v0) ->
  at_ (rows_fit v0) (set_dirParents d v0) (rename_keys op on np nn od tgt) [] s ->
  n_Row child = (if i_IsDir cr then with_parent np cr else cr) ->
  n_Row no = (if moves then lose_subdir opr else opr) ->
  (negb (np =? op) = true -> n_Row nn' = if moves && bool_decide (tgt = None) then gain_subdir npr else npr) ->
  i_Ino (n_Row nn') = i_Ino npr ->
  wp (target ← Rename_replace now (load_target tgt);
      Rename_commit now op on np nn (mkRenaming child no nn' (load_target tgt) (target_chunks tgt)) target)
    (fun r s => outcome v0 is_err (rename_changes now op on np nn) r (s_vol s)) s.
Proof.
  intros Hod Hcr Hic Hopr Hio Hnpr Hin Hnd Htgt I1 I2 I3 Ht Hw moves Hd Hs Hch Hno Hnn Hinn.
  apply wp_bind. eapply (wp_Rename_replace _ _ _ _ _ _ Hs). intros s1 target Hs1 Etg.
  assert (i_Ino (n_Row child) = de_Ino od) as Hich by (rewrite Hch; by destruct (i_IsDir cr)).
  assert (i_Ino (n_Row no) = op) as Hino.
  { rewrite Hno. unfold lose_subdir. by repeat case_match. }
  eapply (Rename_commit_outcome _ _ _ _ _ _ _ _ _ _ _ Hs1);
    cbn [rn_child rn_oldParent rn_newParent rn_target rn_targetChunks with_ctime with_mctime with_times i_Ino i_IsDir i_Mode];
    rewrite ?Hich, ?Hino, ?Hinn, ?Hin, ?Etg; unfold rename_keys, inode_keys; try tauto.
  - intros ti tr. destruct tgt as [[td tr0]|]; cbn [fmap option_fmap option_map]; [|done]. intros; simplify_eq. cbn [fst snd].
    destruct Htgt as (_ & _ & Ei). replace (i_Ino _) with (de_Ino td) by (by destruct (i_IsDir tr0)).
    cbn [target_keys]. unfold inode_keys. naive_solver.
  - exists od, cr, opr, npr, tgt. split_and!; try done.
    + destruct tgt as [[td tr]|]; cbn [rename_target target_at] in *; [|done]. destruct (Ht _ _ eq_refl). naive_solver.
    + unfold rename_parents. cbn [set_dirParents v_dirParents]. by rewrite Hd.
    + cbn zeta. fold moves. f_equal. f_equal; [|f_equal].
      * destruct tgt as [[td tr]|]; [|done]. rewrite <- target_writes_eq by apply Htgt. done.
      * rewrite Hch, Hno, Hic. destruct (i_IsDir cr) eqn:Edir; cbn [with_parent i_IsDir i_Mode]; by rewrite ?Edir.
      * destruct (np =? op) eqn:E; [done|]. rewrite Hnn by done. done.
Qed.

Lemma Rename_outcome now op on np nn t env :
  wp (Rename now op on np nn)
    (fun r s => outcome v0 is_err (rename_changes now (norm v0 op) on (norm v0 np) nn) r (s_vol s)) (mkSt v0 t env).
Proof.
  vinit. unfold Rename. vgo. vlast Hs.
  assert (forall e s', e <> Panic -> vol_at v0 s' ->
    outcome v0 is_err (rename_changes now (norm v0 op) on (norm v0 np) nn) (Err e) (s_vol s') (A := EntryAttr)) as Herr.
  { intros e s2 He Hs2. apply (outcome_quiet _ v0); [apply quiet_refl|done|congruence|done]. }
  eapply (wp_Rename_load _ _ _ _ _ _ (norm_ne_0 _ _) (norm_ne_0 _ _) Hs); [|by intros; apply Herr].
  intros od cr opr npr tgt s1 Hod Hcr Hic Hopr Hio Hnpr Hin Hnd Htgt Hs1. vsimp. apply wp_bind.
  assert (invalid_name on = false /\ invalid_name nn = false /\ blen nn <= MaxNameLength) as (I1 & I2 & I3) by (zify_bool; naive_solver).
  destruct (i_IsDir cr) eqn:Edir.
  - eapply (wp_Rename_directory _ _ _ _ _ _ _ _ _ _ Edir Hs1); [|by intros; apply Herr].
    intros s2 d Ht Hw Hd Hs2 no nn' Hno Hnn Hinn. eapply Rename_finish; try done; rewrite ?Edir; cbn [mutate n_Row]; rewrite ?loaded_row; try done.
    + intros td tr E. destruct (Ht _ _ E). done.
    + by rewrite Hd in Hs2.
    + intros E. rewrite (Hnn E), E. done.
  - unfold Rename_file. vsimp. apply wp_bind.
    assert (wp match load_target tgt with Some (_, targetInode) => check (negb (i_IsDir (n_Row targetInode))) EISDIR | None => mret () end
      (fun r s => s = s1 /\ match r with Ok _ => forall td tr, tgt = Some (td, tr) -> i_IsDir tr = false | Err e => e <> Panic end) s1) as Ht.
    { destruct tgt as [[td tr]|]; cbn [load_target]; [|by apply wp_ret]. rewrite loaded_row.
      apply wp_check; intros; split; try done. intros td1 tr1 E. simplify_eq. by apply negb_true_iff. }
    eapply wp_mono; [exact Ht|]. intros [[]|e] s2 [-> Hr]; [|apply Herr; [done|apply Hs1]].
    apply wp_ret. eapply (Rename_finish _ _ _ _ _ _ _ _ _ _ (v_dirParents v0)); try done; rewrite ?loaded_row, ?Edir; try done.
    + intros; split; [by eapply Hr|done].
    + intros ?. congruence.
    + by destruct v0.
Qed.

(** ** Handles and orphans *)

Definition released (v : Volume) (i fh : Z) : Z * Handles :=
  let h := v_handles v in
  let held := if fh =? 0 then None else h_handles h !! fh in
  let i := default (norm v i) held in
  let handles := match held with Some _ => delete fh (h_handles h) | None => h_handles h end in
  let count := default 0 (h_openInodes h !! i) in
  (i, mkHandles (h_nextFh h) handles
        (if count >? 1 then <[i := count - 1]> (h_openInodes h) else delete i (h_openInodes h))).

Definition release_changes (i : Z) (v : Volume) (cs : list change) : Prop :=
  exists r, r_inodes (v_rows v0) !! i = Some r /\ i_IsDir r = false /\ i_Nlink r = 0 /\
    hasOpenHandlesLocked v i = false /\ v_nextInode v = v_nextInode v0 /\ v_dirParents v = v_dirParents v0 /\
    cs = inode_deletes (v_rows v0) i.

Lemma Release_outcome i fh t env :
  let '(j, h) := released v0 i fh in
  j <> 0 ->
  wp (Release i fh)
    (fun r s => outcome (set_handles h v0) (fun _ => True) (release_changes j) r (s_vol s)) (mkSt v0 t env).
Proof.
  destruct (released v0 i fh) as [j h] eqn:E. intros Hj. unfold released in E. vinit. unfold Release. vgo.
  match goal with Hs0 : at_ _ _ _ _ _ |- _ => rename Hs0 into Hs end.
  pose proof (at_vol _ _ _ _ _ Hs) as [Hv1 _].
  replace (v_handles (s_vol s')) with (v_handles v0) by (by rewrite Hv1). injection E as Ej Eh. rewrite Ej in *.
  destruct (default 0 (h_openInodes (v_handles v0) !! j) >? 1) eqn:Ec; rewrite Eh in *.
  - apply wp_upd_vol. split; [done|]. left. split; [done|].
    apply (at_set_handles _ _ _ _ _ h) in Hs. pose proof (vol_at_quiet _ _ _ (quiet_refl _) (at_vol _ _ _ _ _ Hs)) as HH. exact HH.
  - apply wp_bind, wp_upd_vol. cbn beta iota. apply (at_set_handles _ _ _ _ _ h) in Hs. apply wp_bind.
    assert (forall s2, vol_at (set_handles h v0) s2 -> outcome (set_handles h v0) (fun _ => True) (release_changes j) (Ok ()) (s_vol s2)) as Hq.
    { intros s2 Hs2. apply (outcome_quiet _ (set_handles h v0)); [apply quiet_refl|done|done|done]. }
    eapply (wp_try_load _ _ _ _ _ _ Hs); [intros HA; apply HA| |intros; by apply wp_ret, Hq].
    intros r s2 Hr Hi Hs2. change (norm (set_handles h v0) j) with (norm v0 j) in *. rewrite (norm_nz _ _ Hj) in *.
    rewrite loaded_row. destruct (negb (i_IsDir r) && (i_Nlink r =? 0)) eqn:Eo; [|apply wp_ret, Hq; apply Hs2].
    vgo. vcommit (release_changes j). exists r. zify_bool. split_and!; try done.
    unfold hasOpenHandlesLocked. cbn [v_handles set_handles]. rewrite <- Eh. cbn [h_openInodes]. by rewrite lookup_delete_eq.
Qed.

Definition orphans (R : Rows) : list Z :=
  i_Ino <$> filter (fun r => is_orphan r = true) (omap (fun m => as_inode (Some m)) (rows_scan R PInodes)).

Definition orphan_deletes (R : Rows) (i : Z) : list change := ChDelete (KInode i) :: chunk_deletes R i.

Definition clean_changes (v : Volume) (cs : list change) : Prop :=
  v_nextInode v = v_nextInode v0 /\ v_dirParents v = v_dirParents v0 /\ cs = orphans (v_rows v0) ≫= orphan_deletes (v_rows v0).

Lemma wp_scan_orphans (A : Prop) Q inos : forall K s,
  at_ A v0 K [] s ->
  (forall s', at_ A v0 (fun k => K k \/ exists i, i ∈ inos /\ under (PFileChunk i) k = true) [] s' ->
     Q (Ok ((fun i => (i, rows_scan (v_rows v0) (PFileChunk i))) <$> inos)) s') ->
  (forall s', vol_at v0 s' -> Q (Err Failure) s') ->
  wp (scan_orphans inos) Q s.
Proof.
  revert Q. induction inos as [|i inos IH]; intros Q K s Hs H1 H2; cbn [scan_orphans].
  - apply wp_ret, H1. eapply at_weaken; [done|]. intros k [Hk|(i & Hi & _)]; [done|by apply elem_of_nil in Hi].
  - apply wp_bind. eapply wp_scan; [done|done| |done]. intros s1 Hs1. apply wp_bind. eapply IH; [done| |done].
    intros s2 Hs2. apply wp_ret, H1. eapply at_weaken; [done|]. intros k [Hk|(j & Hj & Hu)]; [auto|].
    apply elem_of_cons in Hj as [->|Hj]; [auto|]. right. eauto.
Qed.

Lemma wp_delete_orphans (A : Prop) Q K inos : forall cs s,
  at_ A v0 K cs s ->
  (forall s', at_ A v0 K (cs ++ (inos ≫= orphan_deletes (v_rows v0))) s' -> Q (Ok ()) s') ->
  (forall s', vol_at v0 s' -> Q (Err Failure) s') ->
  wp (for_each ((fun i => (i, rows_scan (v_rows v0) (PFileChunk i))) <$> inos) (fun '(ino, chunkMsgs) =>
      tx_Delete (KInode ino) ;;
      for_each (chunks_in chunkMsgs) (fun c => tx_Delete (KFileChunk ino (fc_Index c))))) Q s.
Proof.
  induction inos as [|i inos IH]; intros cs s Hs H1 H2; cbn [for_each fmap list_fmap].
  - apply wp_ret, H1. by rewrite app_nil_r.
  - apply wp_bind, wp_bind. eapply wp_tx_write; [done| |done]. intros s1 Hs1.
    eapply (wp_tx_writes _ (fun c => ChDelete (KFileChunk i (fc_Index c)))); [done| |done]. intros s2 Hs2.
    eapply IH; [done| |done]. intros s3 Hs3. apply H1. rewrite <- !app_assoc in Hs3. exact Hs3.
Qed.

(** Removing orphans allocates no number and loads no inode: what it reads is
    right whatever the allocator does. *)
Lemma wp_clean (A : Prop) t env :
  wp cleanOrphanInodesLocked
    (fun r s => r <> Err Panic /\
       (vol_at v0 s /\ (is_err r \/ orphans (v_rows v0) = []) \/
        committed A v0 (orphans (v_rows v0) ≫= orphan_deletes (v_rows v0)) (s_vol s))) (mkSt v0 t env).
Proof.
  vinit. unfold cleanOrphanInodesLocked. apply wp_bind. eapply (wp_begin A); [done|exact HR|]. intros s0 Hs.
  assert (forall s, vol_at v0 s -> (Err Failure : result verr Z) <> Err Panic /\
    (vol_at v0 s /\ (is_err (Err Failure : result verr Z) \/ orphans (v_rows v0) = []) \/
     committed A v0 (orphans (v_rows v0) ≫= orphan_deletes (v_rows v0)) (s_vol s))) as Herr.
  { intros s Hs1. split; [done|]. left. split; [done|]. by left. }
  apply wp_bind. eapply (wp_scan_inodes _ _ _ _ _ Hs); [|done].
  intros s1 Hs1. cbn beta iota. fold (orphans (v_rows v0)). case_bool_decide as Eo.
  - apply wp_ret. split; [done|]. left. split; [apply Hs1|by right].
  - apply wp_bind. eapply (wp_scan_orphans _ _ _ _ _ Hs1); [|done]. intros s2 Hs2.
    apply wp_bind. eapply (wp_delete_orphans _ _ _ _ _ _ Hs2); [|done]. intros s3 Hs3. cbn [app] in Hs3.
    apply wp_bind. eapply (wp_commit _ _ _ _ _ _ Hs3); [| |done].
    + intros c Hc. apply list_elem_of_bind in Hc as (i & Hc & Hi). apply elem_of_cons in Hc as [->|Hc].
      * left. right. unfold orphans in Hi. apply list_elem_of_fmap in Hi as (r & -> & Hr). apply list_elem_of_filter in Hr as [_ Hr].
        apply list_elem_of_omap in Hr as (m & Hm & Er). apply list_elem_of_fmap. exists m. split; [|done]. by destruct m; simplify_eq/=.
      * right. exists i. split; [done|]. by eapply chunk_deletes_keys.
    + intros n s4 Hs4. apply wp_bind. eapply (wp_makeWaitFn _ _ _ _ _ _ Hs4). intros w s5 Hs5.
      apply wp_bind. eapply (wp_waitFn _ _ _ _ _ _ Hs5); intros s6 Hs6; [apply wp_ret|]; (split; [done|]; by right).
Qed.

Lemma clean_outcome t env :
  wp cleanOrphanInodesLocked
    (fun r s => outcome v0 (fun r => is_err r \/ orphans (v_rows v0) = []) clean_changes r (s_vol s)) (mkSt v0 t env).
Proof.
  eapply wp_mono; [apply (wp_clean (rows_fit v0))|]. intros r s [Hr [[Hs He]|Hc]]; split; try done.
  - left. split; [done|]. by eapply vol_at_quiet; [apply quiet_refl|].
  - right. exists v0. eexists. split; [apply quiet_refl|]. by split.
Qed.

End ops.
