(* ===== verification/VolCalls.v ===== *)
(** * VolCalls: the calls of a volume, and their failures

    The operations of [VolNamespace] as one type of calls, and what a failure
    inside a call leaves behind.  A failure is compared with the run of the same
    call in which the replies stay fine: the rows and the statistics are those
    from before the call, or those of that run. *)

From S2P Require Import Prelude Bytes Sha256 VolRows VolStaging VolNamespace VolLogic.

#[local] Open Scope Z_scope.
#[local] Open Scope list_scope.

Inductive Call : Type :=
| CGetAttr (ino : Z)
| CLookup (parent : Z) (name : bytes)
| CReadDir (dir : Z)
| CReadlink (ino : Z)
| CResolvePath (path : bytes)
| CGetXAttr (ino : Z) (name : bytes)
| CListXAttr (ino : Z)
| CSetAttr (now ino : Z) (a : SetAttrArgs)
| CSetXAttr (now ino : Z) (name value : bytes) (flags : xattr_flags)
| CRemoveXAttr (now ino : Z) (name : bytes)
| CMkdir (now parent : Z) (name : bytes) (mode uid gid : Z)
| CSymlink (now parent : Z) (name target : bytes) (uid gid : Z)
| CLink (now old parent : Z) (name : bytes)
| CCreateFile (now parent : Z) (name : bytes) (mode : Z) (content : bytes) (uid gid rdev : Z)
| COpen (ino : Z)
| CUnlink (now parent : Z) (name : bytes)
| CRmdir (now parent : Z) (name : bytes)
| CRename (now oldParent : Z) (oldName : bytes) (newParent : Z) (newName : bytes)
| CRelease (ino fh : Z)
| CCleanOrphans.

Definition do_call (c : Call) : M () :=
  match c with
  | CGetAttr i => GetAttr i ;; mret ()
  | CLookup p n => Lookup p n ;; mret ()
  | CReadDir i => ReadDir i ;; mret ()
  | CReadlink i => Readlink i ;; mret ()
  | CResolvePath p => ResolvePath p ;; mret ()
  | CGetXAttr i n => GetXAttr i n ;; mret ()
  | CListXAttr i => ListXAttr i ;; mret ()
  | CSetAttr now i a => SetAttr now i a ;; mret ()
  | CSetXAttr now i n x f => SetXAttr now i n x f
  | CRemoveXAttr now i n => RemoveXAttr now i n
  | CMkdir now p n m u g => Mkdir now p n m u g ;; mret ()
  | CSymlink now p n t u g => Symlink now p n t u g ;; mret ()
  | CLink now i p n => Link now i p n ;; mret ()
  | CCreateFile now p n m d u g r => CreateFile now p n m d u g r ;; mret ()
  | COpen i => Open i ;; mret ()
  | CUnlink now p n => Unlink now p n ;; mret ()
  | CRmdir now p n => Rmdir now p n ;; mret ()
  | CRename now op on np nn => Rename now op on np nn ;; mret ()
  | CRelease i fh => Release i fh
  | CCleanOrphans => cleanOrphanInodesLocked ;; mret ()
  end.

(** ** Failures *)

(** The replies up to the first failure. *)
Fixpoint fines (env : list reply) : list reply :=
  match env with
  | Fine n :: env => Fine n :: fines env
  | _ => []
  end.

(** What a commit changes: the rows, the statistics and the position. *)
Definition committed_state (v : Volume) : Rows * VolumeStats * Z := (v_rows v, v_liveStats v, v_lastCommitSeq v).
Definition data (s : St) : Rows * VolumeStats * Z := committed_state (s_vol s).

(** The two runs agree, or the first has met a failure. *)
Definition together {A} (x y : result verr A * St) : Prop :=
  fst x = fst y /\ s_vol (snd x) = s_vol (snd y) /\ s_tx (snd x) = s_tx (snd y) /\ s_env (snd y) = fines (s_env (snd x)).

(** A computation that changes nothing of this. *)
Definition calm {A} (m : M A) : Prop := forall s,
  data (snd (m s)) = data s /\
  (together (m s) (m (mkSt (s_vol s) (s_tx s) (fines (s_env s)))) \/ fst (m s) = Err Failure).

(** A computation whose failures fall before or after its change of the rows. *)
Definition atomic {A} (m : M A) : Prop := forall s,
  let y := m (mkSt (s_vol s) (s_tx s) (fines (s_env s))) in
  together (m s) y \/ (fst (m s) = Err Failure /\ (data (snd (m s)) = data s \/ data (snd (m s)) = data (snd y))).

(** A computation without an external call, and one whose failures all fall
    before its change. *)
Definition unfailing {A} (m : M A) : Prop := forall s, together (m s) (m (mkSt (s_vol s) (s_tx s) (fines (s_env s)))).

Definition early {A} (m : M A) : Prop := forall s,
  together (m s) (m (mkSt (s_vol s) (s_tx s) (fines (s_env s)))) \/ (fst (m s) = Err Failure /\ data (snd (m s)) = data s).

(** The same, whatever the result. *)
Definition all_or_nothing {A} (m : M A) : Prop := forall s,
  data (snd (m s)) = data s \/ data (snd (m s)) = data (snd (m (mkSt (s_vol s) (s_tx s) (fines (s_env s))))).

Lemma together_data {A} (x y : result verr A * St) : together x y -> data (snd x) = data (snd y).
Proof. intros (_ & Hv & _). unfold data. by rewrite Hv. Qed.

(** From states that agree the runs of [f] are one of the pairs [calm] and
    [atomic] speak of. *)
Lemma together_state {A} (x y : result verr A * St) :
  together x y -> snd y = mkSt (s_vol (snd x)) (s_tx (snd x)) (fines (s_env (snd x))).
Proof. intros (_ & Hv & Ht & He). destruct (snd y) as [v t e]. cbn in *. by subst. Qed.

Lemma calm_atomic {A} (m : M A) : calm m -> atomic m.
Proof. intros Hm s. destruct (Hm s) as [Hd [Ht|He]]; [by left|right; auto]. Qed.

Lemma atomic_all {A} (m : M A) : atomic m -> all_or_nothing m.
Proof. intros Hm s. destruct (Hm s) as [Ht|[_ Hd]]; [right; by apply together_data|done]. Qed.

Lemma bind_ok {A B} (m : M A) (f : A -> M B) s a s' : m s = (Ok a, s') -> (m ≫= f) s = f a s'.
Proof. unfold mbind, M_bind. by intros ->. Qed.

Lemma bind_err {A B} (m : M A) (f : A -> M B) s e s' : m s = (Err e, s') -> (m ≫= f) s = (Err e, s').
Proof. unfold mbind, M_bind. by intros ->. Qed.

Lemma calm_data {A} (m : M A) s : calm m -> data (snd (m s)) = data s.
Proof. intros Hm. by destruct (Hm s). Qed.

Lemma calm_bind {A B} (m : M A) (f : A -> M B) : calm m -> (forall a, calm (f a)) -> calm (m ≫= f).
Proof.
  intros Hm Hf s. destruct (Hm s) as [Hd Ht]. unfold mbind, M_bind. destruct (m s) as [[a|e] s1] eqn:E1.
  - destruct (Hf a s1) as [Hd1 Ht1]. split; [by rewrite Hd1|]. destruct Ht as [Ht|Ht]; [|done].
    pose proof (together_state _ _ Ht) as Es. destruct Ht as [Er _].
    destruct (m (mkSt _ _ (fines _))) as [r2 s2]. cbn in *. subst. done.
  - split; [done|]. destruct Ht as [Ht|Ht]; [left|by right; simplify_eq/=].
    destruct (m (mkSt _ _ (fines _))) as [[a2|e2] s2]; destruct Ht as (Er & Ht); simplify_eq/=. by split.
Qed.

Lemma calm_atomic_bind {A B} (m : M A) (f : A -> M B) : calm m -> (forall a, atomic (f a)) -> atomic (m ≫= f).
Proof.
  intros Hm Hf s. destruct (Hm s) as [Hd Ht]. unfold mbind, M_bind. destruct (m s) as [[a|e] s1] eqn:E1.
  - destruct Ht as [Ht|Ht]; [|done]. specialize (Hf a s1). pose proof (together_state _ _ Ht) as Es. destruct Ht as [Er _].
    destruct (m (mkSt _ _ (fines _))) as [r2 s2]. cbn in *. subst. destruct Hf as [Hf|[Hf Hf']]; [by left|right].
    rewrite Hd in Hf'. done.
  - destruct Ht as [Ht|Ht]; [left|right; cbn in *; by split; [congruence|left]].
    destruct (m (mkSt _ _ (fines _))) as [[a2|e2] s2]; destruct Ht as (Er & Ht); simplify_eq/=. by split.
Qed.

Lemma unfailing_bind {A B} (m : M A) (f : A -> M B) : unfailing m -> (forall a, unfailing (f a)) -> unfailing (m ≫= f).
Proof.
  intros Hm Hf s. pose proof (Hm s) as Ht. pose proof (together_state _ _ Ht) as Es. unfold mbind, M_bind.
  destruct (m s) as [[a|e] s1], (m (mkSt _ _ (fines _))) as [[a2|e2] s2]; destruct Ht as (Er & Ht); simplify_eq/=;
    [apply Hf|by split].
Qed.

Lemma calm_early_bind {A B} (m : M A) (f : A -> M B) : calm m -> (forall a, early (f a)) -> early (m ≫= f).
Proof.
  intros Hm Hf s. destruct (Hm s) as [Hd Ht]. unfold mbind, M_bind. destruct (m s) as [[a|e] s1] eqn:E1.
  - destruct Ht as [Ht|Ht]; [|done]. specialize (Hf a s1). pose proof (together_state _ _ Ht) as Es. destruct Ht as [Er _].
    destruct (m (mkSt _ _ (fines _))) as [r2 s2]. cbn in *. subst. destruct Hf as [Hf|[Hf Hf']]; [by left|right].
    split; [done|]. by rewrite <- Hd.
  - destruct Ht as [Ht|Ht]; [left|right; cbn in *; by split; [congruence|]].
    destruct (m (mkSt _ _ (fines _))) as [[a2|e2] s2]; destruct Ht as (Er & Ht); simplify_eq/=. by split.
Qed.

(** A commit, the raise of the position, and what follows. *)
Lemma atomic_commit_bind {A B C} (m : M A) (f : A -> M B) (g : A -> B -> M C) :
  early m -> (forall a, unfailing (f a)) -> (forall a b, calm (g a b)) -> atomic (m ≫= fun a => f a ≫= g a).
Proof.
  intros Hm Hf Hg s. cbn zeta. destruct (Hm s) as [Ht|[He Hd]]; unfold mbind, M_bind.
  2: { destruct (m s) as [[a|e] s1]; [done|]. injection He as ->. right. split; [done|by left]. }
  pose proof (together_state _ _ Ht) as Es.
  destruct (m s) as [[a|e] s1], (m (mkSt _ _ (fines _))) as [[a2|e2] s2]; destruct Ht as (Er & Ht); simplify_eq/=; [|left; by split].
  pose proof (Hf a2 s1) as Ht2. pose proof (together_state _ _ Ht2) as Es2.
  destruct (f a2 s1) as [[b|e] s3], (f a2 (mkSt _ _ (fines _))) as [[b2|e2] s4]; destruct Ht2 as (Er2 & Ht2); simplify_eq/=; [|left; by split].
  destruct (Hg a2 b2 s3) as [Hd3 [Ht3|He3]]; [by left|right]. split; [done|]. right. rewrite Hd3. by rewrite calm_data.
Qed.

Lemma atomic_calm_bind {A B} (m : M A) (f : A -> M B) : atomic m -> (forall a, calm (f a)) -> atomic (m ≫= f).
Proof.
  intros Hm Hf s. specialize (Hm s). cbn zeta in Hm. unfold mbind, M_bind. destruct (m s) as [[a|e] s1] eqn:E1.
  - destruct Hm as [Ht|[Ht _]]; [|done]. destruct (Hf a s1) as [Hd1 Ht1]. pose proof (together_state _ _ Ht) as Es.
    destruct Ht as [Er _]. destruct (m (mkSt _ _ (fines _))) as [r2 s2]. cbn in *. subst.
    destruct Ht1 as [Ht1|Ht1]; [by left|right]. split; [done|]. right. rewrite Hd1. by rewrite calm_data.
  - destruct Hm as [Ht|[Ht Hd]]; [left|right].
    + destruct (m (mkSt _ _ (fines _))) as [[a2|e2] s2]; destruct Ht as (Er & Ht); simplify_eq/=. by split.
    + cbn in *. split; [congruence|]. destruct (m (mkSt _ _ (fines _))) as [[a2|e2] s2]; [|done]. cbn in *.
      by rewrite calm_data.
Qed.

Lemma calm_all_bind {A B} (m : M A) (f : A -> M B) :
  calm m -> (forall a, all_or_nothing (f a)) -> all_or_nothing (m ≫= f).
Proof.
  intros Hm Hf s. destruct (Hm s) as [Hd Ht]. unfold mbind, M_bind. destruct (m s) as [[a|e] s1] eqn:E1; [|by left].
  destruct Ht as [Ht|Ht]; [|done]. specialize (Hf a s1). pose proof (together_state _ _ Ht) as Es. destruct Ht as [Er _].
  destruct (m (mkSt _ _ (fines _))) as [r2 s2]. cbn in *. subst. by rewrite Hd in Hf.
Qed.

(** ** The primitives *)

Create HintDb calm.

Lemma calm_ret {A} (a : A) : calm (mret a).
Proof. intros s. split; [done|]. left. by split. Qed.

Lemma calm_throw {A} e : calm (throw e : M A).
Proof. intros s. split; [done|]. left. by split. Qed.

Lemma calm_get_vol : calm get_vol.
Proof. intros s. split; [done|]. left. by split. Qed.

Lemma calm_get_tx : calm get_tx.
Proof. intros s. split; [done|]. left. by split. Qed.

Lemma calm_upd_tx f : calm (upd_tx f).
Proof. intros s. split; [done|]. left. by split. Qed.

Lemma calm_upd_vol f : (forall v, committed_state (f v) = committed_state v) -> calm (upd_vol f).
Proof. intros Hf s. split; [apply Hf|left; by split]. Qed.

Lemma calm_external : calm external.
Proof. intros [v t [|[n|] env]]; split; try done; [left|left|right]; by repeat split. Qed.

Lemma calm_check b e : calm (check b e).
Proof. unfold check. destruct b; [apply calm_ret|apply calm_throw]. Qed.

Lemma calm_for_each {A} (l : list A) f : (forall x, calm (f x)) -> calm (for_each l f).
Proof. intros Hf. induction l as [|x l IH]; cbn [for_each]; [apply calm_ret|]. by apply calm_bind. Qed.

Lemma on_error_data {A} (m : M A) f s : (forall v, committed_state (f v) = committed_state v) ->
  data (snd (on_error m f s)) = data (snd (m s)).
Proof.
  intros Hf. unfold on_error. destruct (m s) as [[a|[]] s1]; try done; apply Hf.
Qed.

Lemma on_error_result {A} (m : M A) f s : fst (on_error m f s) = fst (m s).
Proof. unfold on_error. by destruct (m s) as [[a|[]] s1]. Qed.

Lemma on_error_together {A} (m : M A) f s s' : together (m s) (m s') -> together (on_error m f s) (on_error m f s').
Proof.
  unfold together, on_error. destruct (m s) as [[a|[]] s1], (m s') as [[a'|[]] s2]; cbn; intros (Hr & Hv & Ht & He);
    simplify_eq; rewrite ?Hv; auto.
Qed.

Lemma atomic_on_error {A} (m : M A) f :
  (forall v, committed_state (f v) = committed_state v) -> atomic m -> atomic (on_error m f).
Proof.
  intros Hf Hm s. cbn zeta. rewrite !on_error_data, on_error_result by done.
  destruct (Hm s) as [Ht|Hd]; [left; by apply on_error_together|by right].
Qed.

Lemma early_on_error {A} (m : M A) f :
  (forall v, committed_state (f v) = committed_state v) -> early m -> early (on_error m f).
Proof.
  intros Hf Hm s. rewrite on_error_data, on_error_result by done.
  destruct (Hm s) as [Ht|Hd]; [left; by apply on_error_together|by right].
Qed.

Lemma unfailing_early {A} (m : M A) : unfailing m -> early m.
Proof. intros Hm s. left. apply Hm. Qed.

Lemma unfailing_ret {A} (a : A) : unfailing (mret a).
Proof. intros s. by split. Qed.

Lemma unfailing_apply : unfailing applyTxChangesLocked.
Proof.
  intros s. unfold together, applyTxChangesLocked, mbind, M_bind, get_tx, get_vol. cbn.
  destruct (UpdateStatsFromChanges _ _ _ _); by repeat split.
Qed.

#[export] Hint Resolve calm_ret calm_throw calm_get_vol calm_get_tx calm_upd_tx calm_external calm_check : calm.

(** [calm_go] proves [calm] and [atomic] by the structure of a computation. *)
Ltac calm_step :=
  cbn beta iota zeta;
  lazymatch goal with
  | |- calm (let '_ := ?x in _) => destruct x
  | |- calm (mbind _ _) => apply calm_bind; [|intros]
  | |- calm (for_each _ _) => apply calm_for_each; intros
  | |- calm (upd_vol _) => apply calm_upd_vol; intros []; reflexivity
  | |- calm (if ?b then _ else _) => destruct b
  | |- calm (match ?x with _ => _ end) => destruct x
  | |- calm _ => solve [eauto with calm]
  end.
Ltac calm_go := repeat calm_step.

Ltac early_step :=
  cbn beta iota zeta;
  lazymatch goal with
  | |- early (mbind _ _) => apply calm_early_bind; [solve [calm_go]|intros]
  | |- early (on_error _ _) => apply early_on_error; [intros []; reflexivity|]
  | |- early _ => solve [eauto with calm]
  end.
Ltac early_go := repeat early_step.

Ltac atomic_step :=
  cbn beta iota zeta;
  lazymatch goal with
  | |- atomic (let '_ := ?x in _) => destruct x
  | |- atomic (mbind _ _) =>
      first [apply calm_atomic_bind; [solve [calm_go]|intros]
            |apply atomic_commit_bind; [solve [early_go]|intros; solve [eauto with calm]|intros; solve [calm_go]]
            |apply atomic_calm_bind; [|intros; solve [calm_go]]]
  | |- atomic (if ?b then _ else _) => destruct b
  | |- atomic (match ?x with _ => _ end) => destruct x
  | |- atomic _ => first [solve [eauto with calm] | apply calm_atomic; solve [calm_go]]
  end.
Ltac atomic_go := repeat atomic_step.

Lemma calm_tx_write c : calm (tx_write c).
Proof. unfold tx_write. calm_go. Qed.
Lemma calm_tx_Insert r : calm (tx_Insert r).
Proof. apply calm_tx_write. Qed.
Lemma calm_tx_Update r : calm (tx_Update r).
Proof. apply calm_tx_write. Qed.
Lemma calm_tx_Delete k : calm (tx_Delete k).
Proof. apply calm_tx_write. Qed.
Lemma calm_normalize i : calm (normalizeInodeID i).
Proof. unfold normalizeInodeID. calm_go. Qed.
Lemma calm_begin : calm beginTxLocked.
Proof. unfold beginTxLocked. calm_go. Qed.
Lemma calm_backpressure : calm checkBackpressureLocked.
Proof. unfold checkBackpressureLocked. calm_go. Qed.
Lemma calm_recordRead t k o : calm (recordReadLocked t k o).
Proof. unfold recordReadLocked. calm_go. Qed.
Lemma calm_checkRead t : calm (checkReadAllowedLocked t).
Proof. unfold checkReadAllowedLocked. calm_go. Qed.
Lemma calm_recordPrefix t p : calm (recordReadPrefixLocked t p).
Proof. unfold recordReadPrefixLocked. calm_go. Qed.
#[export] Hint Resolve calm_tx_Insert calm_tx_Update calm_tx_Delete calm_normalize calm_begin calm_backpressure
  calm_recordRead calm_checkRead calm_recordPrefix : calm.

Lemma calm_scanLimit t p n : calm (scanLimitSQLiteRowsLocked t p n).
Proof. unfold scanLimitSQLiteRowsLocked. calm_go. Qed.
Lemma calm_scan t p : calm (scanSQLiteRowsLocked t p).
Proof. apply calm_scanLimit. Qed.
Lemma calm_getRow t k : calm (getSQLiteRowLocked t k).
Proof. unfold getSQLiteRowLocked. calm_go. Qed.
#[export] Hint Resolve calm_scanLimit calm_scan calm_getRow : calm.

Lemma calm_ensure t n : calm (ensureInodeChunksLoadedLocked t n).
Proof. unfold ensureInodeChunksLoadedLocked. calm_go. Qed.
#[export] Hint Resolve calm_ensure : calm.
Lemma calm_getOrLoad t i : calm (getOrLoadInodeLocked t i).
Proof. unfold getOrLoadInodeLocked. calm_go. Qed.
Lemma calm_getDirEntry t p n : calm (getDirEntrySQLiteLocked t p n).
Proof. unfold getDirEntrySQLiteLocked. calm_go. Qed.
#[export] Hint Resolve calm_getOrLoad calm_getDirEntry : calm.
Lemma calm_toEntryAttr t i n : calm (toEntryAttrLocked t i n).
Proof. unfold toEntryAttrLocked. calm_go. Qed.
Lemma calm_allocInode t : calm (allocInode t).
Proof. unfold allocInode. calm_go. Qed.
Lemma calm_set_parent c p : calm (set_parent c p).
Proof. unfold set_parent. calm_go. Qed.
Lemma calm_del_parent c : calm (del_parent c).
Proof. unfold del_parent. calm_go. Qed.
Lemma unfailing_makeWaitFn n : unfailing (makeWaitFn n).
Proof. intros s. unfold makeWaitFn, mbind, M_bind, get_vol. cbn. by destruct (_ >? _). Qed.
Lemma calm_waitFn w : calm (waitFn w).
Proof. unfold waitFn. calm_go. Qed.
Lemma calm_Broadcast e : calm (Broadcast e).
Proof. unfold Broadcast. calm_go. Qed.
Lemma calm_PutBlobs b : calm (PutBlobs b).
Proof. unfold PutBlobs. calm_go. Qed.
Lemma calm_xattr_name n : calm (xattr_name_ok n).
Proof. unfold xattr_name_ok. calm_go. Qed.
#[export] Hint Resolve calm_toEntryAttr calm_allocInode calm_set_parent calm_del_parent unfailing_makeWaitFn calm_waitFn
  calm_Broadcast calm_PutBlobs calm_xattr_name : calm.

Lemma calm_attrs_of l m : calm (attrs_of l m).
Proof. induction l as [|x l IH]; cbn [attrs_of]; calm_go. Qed.
Lemma calm_resolve_parts l : forall i, calm (resolve_parts l i).
Proof. induction l as [|x l IH]; intros i; cbn [resolve_parts]; calm_go. Qed.
Lemma calm_scan_orphans l : calm (scan_orphans l).
Proof. induction l as [|x l IH]; cbn [scan_orphans]; calm_go. Qed.
Lemma calm_insert_content i cs d : calm (insert_content i cs d).
Proof. unfold insert_content. calm_go. Qed.
Lemma calm_replace_content i cs d m : calm (replace_content i cs d m).
Proof. unfold replace_content. calm_go. Qed.
Lemma calm_deleteInodeRows t i : calm (deleteInodeRowsLocked t i).
Proof. unfold deleteInodeRowsLocked. calm_go. Qed.
Lemma calm_Unlink_find p n : calm (Unlink_find p n).
Proof. unfold Unlink_find. calm_go. Qed.
Lemma calm_Rename_load op on np nn : calm (Rename_load op on np nn).
Proof. unfold Rename_load. calm_go. Qed.
Lemma calm_Rename_directory op np rn : calm (Rename_directory op np rn).
Proof. destruct rn. unfold Rename_directory. calm_go. Qed.
Lemma calm_Rename_file rn : calm (Rename_file rn).
Proof. unfold Rename_file. calm_go. Qed.
Lemma calm_Rename_replace now t : calm (Rename_replace now t).
Proof. unfold Rename_replace. calm_go. Qed.
Lemma calm_Rename_write_target np nn t c : calm (Rename_write_target np nn t c).
Proof. unfold Rename_write_target. calm_go. Qed.
Lemma calm_AllocFh i : calm (AllocFh i).
Proof. unfold AllocFh. calm_go. Qed.
#[export] Hint Resolve calm_attrs_of calm_resolve_parts calm_scan_orphans calm_insert_content calm_replace_content
  calm_deleteInodeRows calm_Unlink_find calm_Rename_load calm_Rename_directory calm_Rename_file calm_Rename_replace
  calm_Rename_write_target calm_AllocFh : calm.

(** ** The calls *)

Lemma early_commit : early commitTxLocked.
Proof.
  unfold commitTxLocked. apply calm_early_bind; [apply calm_external|intros n].
  apply unfailing_early, unfailing_bind; [apply unfailing_apply|intros; apply unfailing_ret].
Qed.
#[export] Hint Resolve early_commit : calm.

Lemma atomic_SetAttr now i a : atomic (SetAttr now i a).
Proof. unfold SetAttr. atomic_go. Qed.
Lemma atomic_SetXAttr now i n x f : atomic (SetXAttr now i n x f).
Proof. unfold SetXAttr. atomic_go. Qed.
Lemma atomic_RemoveXAttr now i n : atomic (RemoveXAttr now i n).
Proof. unfold RemoveXAttr. atomic_go. Qed.
Lemma atomic_Mkdir now p n m u g : atomic (Mkdir now p n m u g).
Proof. unfold Mkdir. atomic_go. Qed.
Lemma atomic_Symlink now p n t u g : atomic (Symlink now p n t u g).
Proof. unfold Symlink. atomic_go. Qed.
Lemma atomic_Link now i p n : atomic (Link now i p n).
Proof. unfold Link. atomic_go. Qed.
Lemma atomic_CreateFile now p n m d u g r : atomic (CreateFile now p n m d u g r).
Proof. unfold CreateFile, CreateFile_overwrite, CreateFile_new. atomic_go. Qed.
Lemma atomic_Unlink now p n : atomic (Unlink now p n).
Proof. unfold Unlink, Unlink_drop, Unlink_remove. atomic_go. Qed.
Lemma atomic_Rmdir now p n : atomic (Rmdir now p n).
Proof. unfold Rmdir. atomic_go. Qed.
Lemma atomic_Rename now op on np nn : atomic (Rename now op on np nn).
Proof. unfold Rename, Rename_commit. atomic_go. Qed.
Lemma atomic_clean : atomic cleanOrphanInodesLocked.
Proof. unfold cleanOrphanInodesLocked. atomic_go. Qed.

(** A load whose error is dropped. *)
Lemma all_try_load {A} t i (f : option CachedInode -> M A) :
  calm (f None) -> (forall n, atomic (f (Some n))) -> all_or_nothing (try_load t i ≫= f).
Proof.
  intros Hn Hs s. unfold mbind, M_bind, try_load. destruct (calm_getOrLoad t i s) as [Hd Ht].
  destruct (getOrLoadInodeLocked t i s) as [[n|e] s1] eqn:E1.
  - destruct Ht as [Ht|Ht]; [|done]. specialize (Hs n s1). pose proof (together_state _ _ Ht) as Es. destruct Ht as [Er _].
    destruct (getOrLoadInodeLocked t i (mkSt _ _ (fines _))) as [r2 s2]. cbn in *. subst. rewrite Hd in Hs.
    destruct Hs as [Hs|[_ Hs]]; [right; by apply together_data|done].
  - left. destruct e; cbn; rewrite ?calm_data by done; exact Hd.
Qed.

Lemma all_Release i fh : all_or_nothing (Release i fh).
Proof.
  unfold Release. apply calm_all_bind; [calm_go|intros _]. apply calm_all_bind; [calm_go|intros j].
  apply calm_all_bind; [calm_go|intros v]. cbn zeta. destruct (_ >? 1); [apply atomic_all, calm_atomic; calm_go|].
  apply calm_all_bind; [calm_go|intros _]. apply all_try_load; [calm_go|intros n; atomic_go].
Qed.

(** The calls that only read. *)
Lemma calm_GetAttr i : calm (GetAttr i).
Proof. unfold GetAttr. calm_go. Qed.
Lemma calm_Lookup p n : calm (Lookup p n).
Proof. unfold Lookup. calm_go. Qed.
Lemma calm_ReadDir i : calm (ReadDir i).
Proof. unfold ReadDir. calm_go. Qed.
Lemma calm_Readlink i : calm (Readlink i).
Proof. unfold Readlink. calm_go. Qed.
Lemma calm_ResolvePath p : calm (ResolvePath p).
Proof. unfold ResolvePath. calm_go. Qed.
Lemma calm_GetXAttr i n : calm (GetXAttr i n).
Proof. unfold GetXAttr. calm_go. Qed.
Lemma calm_ListXAttr i : calm (ListXAttr i).
Proof. unfold ListXAttr. calm_go. Qed.
Lemma calm_Open i : calm (Open i).
Proof. unfold Open. calm_go. Qed.

#[export] Hint Resolve calm_GetAttr calm_Lookup calm_ReadDir calm_Readlink calm_ResolvePath calm_GetXAttr calm_ListXAttr
  calm_Open : calm.
#[export] Hint Resolve atomic_SetAttr atomic_SetXAttr atomic_RemoveXAttr atomic_Mkdir atomic_Symlink atomic_Link
  atomic_CreateFile atomic_Unlink atomic_Rmdir atomic_Rename atomic_clean : calm.

(** C13: a call of a volume is all or nothing.  Whichever of its reads, writes,
    uploads, its commit or its wait fail, the rows, the statistics and the
    commit position of the volume afterwards are all those from before the call,
    or all exactly those the call leaves when the replies stay fine. *)
Theorem call_all_or_nothing c v env :
  let v1 := snd (run (do_call c) v env) in
  let v2 := snd (run (do_call c) v (fines env)) in
  committed_state v1 = committed_state v \/ committed_state v1 = committed_state v2.
Proof.
  assert (all_or_nothing (do_call c)) as H.
  { destruct c; cbn [do_call]; try (apply all_Release); apply atomic_all;
      first [solve [auto with calm]
            |solve [apply calm_atomic, calm_bind; [auto with calm|intros; apply calm_ret]]
            |solve [apply atomic_calm_bind; [auto with calm|intros; apply calm_ret]]]. }
  cbn zeta. unfold run. specialize (H (mkSt v empty_tx env)). cbn [s_vol s_tx s_env] in H.
  destruct (do_call c (mkSt v empty_tx env)) as [r1 s1], (do_call c (mkSt v empty_tx (fines env))) as [r2 s2].
  exact H.
Qed.
