(* ===== verification/VolChanges.v ===== *)
(** * VolChanges: lists of row changes

    What a list of changes does to the rows: the last change of a key counts.
    From this, the invariants every commit of a volume keeps: rows under their
    keys, chunk rows only for files with content, and statistics that are the
    counts of the rows. *)

From S2P Require Import Prelude Bytes Sha256 VolRows VolStaging VolNamespace VolLogic VolOps.

#[local] Open Scope Z_scope.
#[local] Open Scope list_scope.

(** ** The last change of a key *)

Fixpoint written (cs : list change) (k : rkey) : option (option row) :=
  match cs with
  | [] => None
  | c :: cs =>
      match written cs k with
      | Some o => Some o
      | None => if bool_decide (change_key c = k) then Some (change_after c) else None
      end
  end.

Lemma apply_written cs k : forall R,
  rows_get (ApplyChanges R cs) k = match written cs k with Some o => o | None => rows_get R k end.
Proof.
  induction cs as [|c cs IH]; intros R; [done|]. cbn [ApplyChanges foldl written]. fold (ApplyChanges (apply_change R c) cs).
  rewrite IH. destruct (written cs k) as [o|]; [done|]. rewrite rows_get_apply. by case_bool_decide.
Qed.

Lemma written_app cs cs' k :
  written (cs ++ cs') k = match written cs' k with Some o => Some o | None => written cs k end.
Proof. induction cs as [|c cs IH]; cbn; [by destruct (written cs' k)|]. rewrite IH. by destruct (written cs' k). Qed.

Lemma written_Some cs k o : written cs k = Some o -> exists c, c ∈ cs /\ change_key c = k /\ change_after c = o.
Proof.
  induction cs as [|c cs IH]; cbn; [done|]. destruct (written cs k) as [o'|] eqn:E.
  - intros [= ->]. destruct IH as (c' & Hc' & H'); [done|]. exists c'. split; [by right|done].
  - case_bool_decide; [|done]. intros [= <-]. exists c. split; [by left|done].
Qed.

Lemma written_None cs k : written cs k = None <-> forall c, c ∈ cs -> change_key c <> k.
Proof.
  induction cs as [|c cs IH]; cbn.
  - split; [|done]. intros _ c Hc. by apply elem_of_nil in Hc.
  - split.
    + destruct (written cs k); [done|]. case_bool_decide; [done|]. intros _ c' [->|Hc']%elem_of_cons; [done|]. by apply IH.
    + intros Hc. destruct IH as [_ IH]. rewrite IH by (intros c' Hc'; apply Hc; by right).
      rewrite bool_decide_eq_false_2; [done|]. apply Hc. by left.
Qed.

Lemma written_other cs k : Forall (fun c => change_key c <> k) cs -> written cs k = None.
Proof. intros Hc. apply written_None. by apply Forall_forall. Qed.

Lemma as_inode_get R i : as_inode (rows_get R (KInode i)) = r_inodes R !! i.
Proof. cbn. by destruct (_ !! _). Qed.

Lemma as_dirent_get R p n : as_dirent (rows_get R (KDirEntry p n)) = r_dirents R !! (p, n).
Proof. cbn. by destruct (_ !! _). Qed.

Lemma as_chunk_get R i x : as_chunk (rows_get R (KFileChunk i x)) = r_chunks R !! (i, x).
Proof. cbn. by destruct (_ !! _). Qed.

Lemma as_xattr_get' R i x : as_xattr (rows_get R (KXAttr i x)) = r_xattrs R !! (i, x).
Proof. cbn. by destruct (_ !! _). Qed.

(** The tables after the changes. *)
Lemma inodes_written R cs i :
  r_inodes (ApplyChanges R cs) !! i = match written cs (KInode i) with Some o => as_inode o | None => r_inodes R !! i end.
Proof. rewrite <- as_inode_get, apply_written. destruct (written _ _); [done|]. by rewrite as_inode_get. Qed.

Lemma dirents_written R cs p n :
  r_dirents (ApplyChanges R cs) !! (p, n) =
  match written cs (KDirEntry p n) with Some o => as_dirent o | None => r_dirents R !! (p, n) end.
Proof. rewrite <- as_dirent_get, apply_written. destruct (written _ _); [done|]. by rewrite as_dirent_get. Qed.

Lemma chunks_written R cs i x :
  r_chunks (ApplyChanges R cs) !! (i, x) =
  match written cs (KFileChunk i x) with Some o => as_chunk o | None => r_chunks R !! (i, x) end.
Proof. rewrite <- as_chunk_get, apply_written. destruct (written _ _); [done|]. by rewrite as_chunk_get. Qed.

Lemma written_inode cs i a :
  match written cs (KInode i) with Some o => as_inode o = Some a | None => False end ->
  exists c, c ∈ cs /\ change_after c = Some (RInode a) /\ i_Ino a = i.
Proof.
  destruct (written cs (KInode i)) as [o|] eqn:E; [|done]. intros Ho. apply written_Some in E as (c & Hc & Hk & Ha).
  exists c. split; [done|]. destruct o as [[]|]; simplify_eq/=. split; [done|]. apply change_typed in Ha. cbn in Ha. congruence.
Qed.

(** ** Rows *)

(** Rows a volume may write, with inode numbers below [n]. *)
Definition change_fine (n : Z) (c : change) : Prop :=
  match change_after c with
  | Some (RInode a) => 0 < i_Ino a < n /\ 0 <= i_Size a
  | Some (RDirEntry d) => de_Ino d <> 0
  | _ => True
  end.

Record rows_ok (n : Z) (R : Rows) : Prop := {
  ok_keyed : rows_keyed R;
  ok_inos : forall i r, r_inodes R !! i = Some r -> 0 < i < n /\ 0 <= i_Size r;
  ok_chunks : chunks_owned R
}.

Lemma rows_keyed_of_get R :
  (forall k m, rows_get R k = Some m -> row_key m = k) ->
  (forall p n d, r_dirents R !! (p, n) = Some d -> de_Ino d <> 0) -> rows_keyed R.
Proof.
  intros Hk Hd. split_and!.
  - intros i r Hr. specialize (Hk (KInode i) (RInode r)). cbn in Hk. rewrite Hr in Hk. specialize (Hk eq_refl). congruence.
  - intros p n d Hr. specialize (Hk (KDirEntry p n) (RDirEntry d)). cbn in Hk. rewrite Hr in Hk. specialize (Hk eq_refl).
    split_and!; [congruence|congruence|by eapply Hd].
  - intros i x c Hr. specialize (Hk (KFileChunk i x) (RFileChunk c)). cbn in Hk. rewrite Hr in Hk. specialize (Hk eq_refl). split; congruence.
  - intros i x c Hr. specialize (Hk (KXAttr i x) (RXAttr c)). cbn in Hk. rewrite Hr in Hk. specialize (Hk eq_refl). split; congruence.
Qed.

Lemma rows_keyed_apply R cs n : rows_keyed R -> Forall (change_fine n) cs -> rows_keyed (ApplyChanges R cs).
Proof.
  intros HR Hc. rewrite Forall_forall in Hc. apply rows_keyed_of_get.
  - intros k m. rewrite apply_written. destruct (written cs k) as [o|] eqn:E; [|by apply rows_keyed_get].
    intros ->. apply written_Some in E as (c & _ & Hk & Ha). apply change_typed in Ha. congruence.
  - intros p x d. rewrite dirents_written. destruct (written cs (KDirEntry p x)) as [o|] eqn:E; [|by intros Hd; apply HR in Hd as (_ & _ & ?)].
    apply written_Some in E as (c & Hin & Hk & Ha). specialize (Hc _ Hin). unfold change_fine in Hc. rewrite Ha in Hc.
    destruct o as [[]|]; intros; simplify_eq/=. done.
Qed.

Lemma rows_ok_apply n n' R cs :
  rows_ok n R -> n <= n' -> Forall (change_fine n') cs -> chunks_owned (ApplyChanges R cs) -> rows_ok n' (ApplyChanges R cs).
Proof.
  intros [HR HI HC] Hn Hc HO. split; [by eapply rows_keyed_apply| |done]. intros i r Hr. rewrite inodes_written in Hr.
  destruct (written cs (KInode i)) eqn:E; [|by destruct (HI _ _ Hr); split; [lia|]].
  destruct (written_inode cs i r) as (c & Hin & Ha & <-); [by rewrite E|].
  rewrite Forall_forall in Hc. specialize (Hc _ Hin). unfold change_fine in Hc. by rewrite Ha in Hc.
Qed.

(** Changes that write no chunk rows, keep the size of files, and delete the
    chunk rows of the inodes they delete. *)
Definition tidy (R : Rows) (cs : list change) (c : change) : Prop :=
  match c with
  | ChInsert (RFileChunk _) | ChUpdate (RFileChunk _) => False
  | ChInsert (RInode a) | ChUpdate (RInode a) =>
      forall r, r_inodes R !! i_Ino a = Some r -> i_IsDir a = i_IsDir r /\ i_Size a = i_Size r
  | ChDelete (KInode i) => forall x, is_Some (r_chunks R !! (i, x)) -> ChDelete (KFileChunk i x) ∈ cs
  | _ => True
  end.

Lemma chunks_owned_tidy R cs : chunks_owned R -> Forall (tidy R cs) cs -> chunks_owned (ApplyChanges R cs).
Proof.
  intros HO Ht i x [y Hy]. rewrite Forall_forall in Ht. rewrite chunks_written in Hy.
  destruct (written cs (KFileChunk i x)) as [o|] eqn:E.
  - apply written_Some in E as (c & Hin & Hk & Ha). specialize (Ht _ Hin). destruct o as [[]|]; simplify_eq/=.
    destruct c; cbn in Ha; simplify_eq; by destruct Ht.
  - destruct (HO i x) as (r & Hr & Hd & Hz); [by rewrite Hy|]. rewrite inodes_written.
    destruct (written cs (KInode i)) as [o|] eqn:Ei; [|by exists r].
    apply written_Some in Ei as (c & Hin & Hk & Ha). specialize (Ht _ Hin).
    destruct c as [m|m|k]; cbn in Hk, Ha; subst o.
    1,2: destruct m as [a| | |]; simplify_eq/=; destruct (Ht _ Hr) as [E1 E2]; exists a; split; [done|]; rewrite E1, E2; done.
    subst k. cbn in Ht. exfalso. eapply written_None in E; [|apply (Ht x); by rewrite Hy]. done.
Qed.

(** ** Sums over a table *)

Section weight.
Context {K V : Type} `{Countable K}.

Definition weight (w : V -> Z) (m : gmap K V) : Z := map_fold (fun _ r acc => w r + acc) 0 m.

Lemma weight_empty w : weight w ∅ = 0.
Proof. unfold weight. by rewrite map_fold_empty. Qed.

Lemma weight_insert w m i a : m !! i = None -> weight w (<[i := a]> m) = w a + weight w m.
Proof. intros Hi. unfold weight. rewrite map_fold_insert_L; [done| |done]. intros. lia. Qed.

Lemma weight_delete w m i b : m !! i = Some b -> weight w m = w b + weight w (delete i m).
Proof.
  intros Hi. rewrite <- (insert_delete_id m i b Hi) at 1. rewrite weight_insert; [done|]. by rewrite lookup_delete_eq.
Qed.

Lemma weight_alter w m i o :
  weight w (partial_alter (fun _ => o) i m) = weight w m - from_option w 0 (m !! i) + from_option w 0 o.
Proof.
  destruct (m !! i) as [b|] eqn:Ei; cbn [from_option].
  - rewrite (weight_delete w m i b Ei). destruct o as [a|]; cbn [from_option].
    + replace (partial_alter (fun _ => Some a) i m) with (<[i := a]> (delete i m)) by (by rewrite insert_delete_eq).
      rewrite weight_insert by (by rewrite lookup_delete_eq). lia.
    + change (partial_alter (fun _ => None) i m) with (delete i m). lia.
  - destruct o as [a|]; cbn [from_option].
    + change (partial_alter (fun _ => Some a) i m) with (<[i := a]> m). rewrite weight_insert by done. lia.
    + change (partial_alter (fun _ => None) i m) with (delete i m). rewrite delete_id by done. lia.
Qed.

Lemma weight_count (P : V -> Prop) `{!forall x, Decision (P x)} (m : gmap K V) :
  weight (fun r => if bool_decide (P r) then 1 else 0) m = Z.of_nat (size (filter (fun kv => P kv.2) m)).
Proof.
  induction m as [|i a m Hi IH] using map_ind; [by rewrite weight_empty, map_filter_empty, map_size_empty|].
  rewrite weight_insert, IH by done. case_bool_decide as HP.
  - rewrite map_filter_insert_True by done. rewrite map_size_insert_None; [lia|]. by apply map_lookup_filter_None; left.
  - rewrite map_filter_insert_False by done. rewrite delete_id by done. done.
Qed.
End weight.

(** ** Statistics *)

Definition count_kind (k : inode_kind) (R : Rows) : Z :=
  Z.of_nat (size (filter (fun kv => inodeType kv.2 = k) (r_inodes R))).

Definition logical_bytes (R : Rows) : Z :=
  weight (fun r => if bool_decide (inodeType r = kind_file) then i_Size r else 0) (r_inodes R).

(** The statistics are the counts of the rows, as the 64-bit counters can hold
    them, and no inode number is above the maximum. *)
Record stats_ok (R : Rows) (st : VolumeStats) : Prop := {
  st_file : vs_InodesFile st = i64 (count_kind kind_file R);
  st_dir : vs_InodesDir st = i64 (count_kind kind_dir R);
  st_symlink : vs_InodesSymlink st = i64 (count_kind kind_symlink R);
  st_other : vs_InodesOther st = i64 (count_kind kind_other R);
  st_bytes : vs_LogicalBytes st = i64 (logical_bytes R);
  st_chunks : vs_FileChunks st = i64 (Z.of_nat (size (r_chunks R)));
  st_max : forall i, is_Some (r_inodes R !! i) -> i <= vs_MaxIno st
}.

(** Rows that the counters can hold. *)
Definition counts_fit (R : Rows) : Prop :=
  Z.of_nat (size (r_inodes R)) < 2 ^ 63 /\ Z.of_nat (size (r_chunks R)) < 2 ^ 63 /\ - 2 ^ 63 <= logical_bytes R < 2 ^ 63.

(** The statistics are the counts of the rows. *)
Record stats_exact (R : Rows) (st : VolumeStats) : Prop := {
  sx_file : vs_InodesFile st = count_kind kind_file R;
  sx_dir : vs_InodesDir st = count_kind kind_dir R;
  sx_symlink : vs_InodesSymlink st = count_kind kind_symlink R;
  sx_other : vs_InodesOther st = count_kind kind_other R;
  sx_bytes : vs_LogicalBytes st = logical_bytes R;
  sx_chunks : vs_FileChunks st = Z.of_nat (size (r_chunks R));
  sx_max : forall i, is_Some (r_inodes R !! i) -> i <= vs_MaxIno st
}.

Lemma count_kind_bound k R : 0 <= count_kind k R <= Z.of_nat (size (r_inodes R)).
Proof.
  unfold count_kind. split; [lia|]. apply Nat2Z.inj_le. rewrite <- !size_dom. apply subseteq_size, dom_filter_subseteq.
Qed.

Lemma stats_ok_exact R st : stats_ok R st -> counts_fit R -> stats_exact R st.
Proof.
  intros [H1 H2 H3 H4 H5 H6 H7] (Hi & Hc & Hb).
  assert (forall k, i64 (count_kind k R) = count_kind k R) as Hk.
  { intros k. pose proof (count_kind_bound k R). apply i64_small. lia. }
  rewrite Hk in H1, H2, H3, H4. rewrite i64_small in H5, H6 by lia. by split.
Qed.

Lemma count_kind_weight k R :
  count_kind k R = weight (fun r => if bool_decide (inodeType r = k) then 1 else 0) (r_inodes R).
Proof. symmetry. exact (weight_count (fun r => inodeType r = k) (r_inodes R)). Qed.

Lemma chunk_count_weight R : Z.of_nat (size (r_chunks R)) = weight (fun _ => 1) (r_chunks R).
Proof.
  pose proof (weight_count (fun _ : FileChunk => True) (r_chunks R)) as E.
  rewrite map_filter_id in E by done. rewrite <- E. done.
Qed.

Lemma i64_add_r a b : i64 (a + i64 b) = i64 (a + b).
Proof. rewrite Z.add_comm, i64_add_l. f_equal. lia. Qed.

Lemma max_raised st a : vs_MaxIno (raise_max st a) = Z.max a (vs_MaxIno st).
Proof. destruct st. unfold raise_max. destruct (a >? _) eqn:E; cbn; zify_bool; lia. Qed.

(** One inode row changes from [before] to [after]. *)
Lemma stats_inode R st i after kind :
  stats_ok R st ->
  (forall b, r_inodes R !! i = Some b -> inodeType b = kind /\ 0 <= i_Size b) ->
  (forall a, after = Some a -> i_Ino a = i /\ inodeType a = kind /\ 0 <= i_Size a) ->
  stats_ok (mkRows (partial_alter (fun _ => after) i (r_inodes R)) (r_dirents R) (r_chunks R) (r_xattrs R))
    (UpdateStatsForInodeChange st (r_inodes R !! i) after).
Proof.
  intros [S1 S2 S3 S4 S5 S6 S7] Hb Ha. rewrite count_kind_weight in S1, S2, S3, S4. unfold logical_bytes in S5.
  destruct st as [m f d l o b c]. cbn in S1, S2, S3, S4, S5, S6, S7.
  assert (forall j, is_Some (partial_alter (fun _ => after) i (r_inodes R) !! j) -> j <= m \/ (j = i /\ after <> None)) as Hmax.
  { intros j Hj. destruct (decide (i = j)) as [<-|Hne].
    - rewrite lookup_partial_alter_eq in Hj. right. split; [done|]. intros ->. by destruct Hj.
    - rewrite lookup_partial_alter_ne in Hj by done. left. by apply S7. }
  destruct (r_inodes R !! i) as [rb|] eqn:Ei; [destruct (Hb rb eq_refl) as [Kb Zb]|];
    (destruct after as [ra|]; [destruct (Ha ra eq_refl) as (Ia & Ka & Za)|]);
    cbn [UpdateStatsForInodeChange]; rewrite ?Ka, ?Kb, ?(bool_decide_eq_true_2 (kind = kind) eq_refl);
    (split; [..|intros j [Hj|[-> Hn]]%Hmax; [|try done]]);
    rewrite ?count_kind_weight; unfold logical_bytes; cbn [r_inodes r_chunks]; rewrite ?weight_alter, ?Ei; cbn [from_option];
    rewrite ?Ka, ?Kb; try (assert (i <= m) by (by apply S7; rewrite Ei));
    destruct kind; cbn -[i64]; rewrite ?(bool_decide_eq_true_2 (_ = _) eq_refl); repeat case_bool_decide; try congruence; cbn -[i64];
    repeat case_match; zify_bool; cbn -[i64] in *; subst; rewrite ?i64_add_l, ?i64_add_r;
    first [lia | apply f_equal; lia].
Qed.

Lemma stats_chunk R st i x after :
  stats_ok R st ->
  stats_ok (mkRows (r_inodes R) (r_dirents R) (partial_alter (fun _ => after) (i, x) (r_chunks R)) (r_xattrs R))
    (UpdateStatsForFileChunkChange st (r_chunks R !! (i, x)) after).
Proof.
  intros [S1 S2 S3 S4 S5 S6 S7]. rewrite chunk_count_weight in S6. destruct st as [m f d l o b c].
  cbn [vs_MaxIno vs_InodesFile vs_InodesDir vs_InodesSymlink vs_InodesOther vs_LogicalBytes vs_FileChunks] in *.
  destruct (r_chunks R !! (i, x)) as [rb|] eqn:Ei, after as [ra|]; cbn [UpdateStatsForFileChunkChange]; split;
    try assumption; rewrite chunk_count_weight; cbn [r_chunks vs_FileChunks]; rewrite weight_alter, Ei; cbn [from_option];
    rewrite S6; unfold Z.sub; rewrite ?i64_add_l; apply f_equal; lia.
Qed.

(** The kind of an inode number never changes. *)
Definition kinds_fit (kind : Z -> inode_kind) (R : Rows) : Prop :=
  forall i r, r_inodes R !! i = Some r -> inodeType r = kind i /\ 0 <= i_Size r.

Definition change_kind (kind : Z -> inode_kind) (c : change) : Prop :=
  match change_after c with Some (RInode a) => inodeType a = kind (i_Ino a) /\ 0 <= i_Size a | _ => True end.

Lemma kinds_fit_apply kind R c : kinds_fit kind R -> change_kind kind c -> kinds_fit kind (apply_change R c).
Proof.
  intros HR Hc i r Hr. rewrite <- as_inode_get, rows_get_apply in Hr. case_bool_decide as E; [|by rewrite as_inode_get in Hr; apply HR].
  unfold change_kind in Hc. destruct (change_after c) as [[a| | |]|] eqn:Ea; simplify_eq/=.
  apply change_typed in Ea. cbn in Ea. rewrite E in Ea. by simplify_eq.
Qed.

Lemma stats_step kind R st st' c :
  stats_ok R st -> kinds_fit kind R -> change_kind kind c ->
  UpdateVolumeStats st (rows_get R (change_key c)) (change_after c) = Some st' -> stats_ok (apply_change R c) st'.
Proof.
  intros HS HK Hc Hu. pose proof (change_typed c) as HT. unfold apply_change, change_kind in *.
  destruct (change_key c) as [i|p n|i x|i n]; cbn [rows_get rows_set] in *.
  - assert (st' = UpdateStatsForInodeChange st (r_inodes R !! i) (as_inode (change_after c))) as ->.
    { destruct (r_inodes R !! i), (change_after c) as [m|]; cbn in Hu; try (destruct m; cbn in Hu); simplify_eq; try done;
        by specialize (HT _ eq_refl). }
    eapply stats_inode; [done|by apply HK|]. intros a Ha. destruct (change_after c) as [[a'| | |]|]; simplify_eq/=.
    specialize (HT _ eq_refl). cbn in HT. simplify_eq. done.
  - assert (st' = st) as ->.
    { destruct (r_dirents R !! (p, n)), (change_after c) as [m|]; cbn in Hu; try (destruct m; cbn in Hu); simplify_eq; try done;
        by specialize (HT _ eq_refl). }
    by destruct HS.
  - assert (st' = UpdateStatsForFileChunkChange st (r_chunks R !! (i, x)) (as_chunk (change_after c))) as ->.
    { destruct (r_chunks R !! (i, x)), (change_after c) as [m|]; cbn in Hu; try (destruct m; cbn in Hu); simplify_eq; try done;
        try (by specialize (HT _ eq_refl)). by destruct st'. }
    by apply stats_chunk.
  - assert (st' = st) as ->.
    { destruct (r_xattrs R !! (i, n)), (change_after c) as [m|]; cbn in Hu; try (destruct m; cbn in Hu); simplify_eq; try done;
        by specialize (HT _ eq_refl). }
    by destruct HS.
Qed.

Lemma stats_changes kind cs : forall R st st',
  stats_ok R st -> kinds_fit kind R -> Forall (change_kind kind) cs ->
  stats_after R st cs = Some st' -> stats_ok (ApplyChanges R cs) st'.
Proof.
  induction cs as [|c cs IH]; intros R st st' HS HK Hc Ha; cbn in Ha; [by simplify_eq|].
  destruct (UpdateVolumeStats _ _ _) as [st1|] eqn:E; [|done]. inversion_clear Hc.
  eapply IH; [by eapply stats_step|by apply kinds_fit_apply|done|done].
Qed.

(** The maximum never goes down, and stays below the numbers still to come. *)
Lemma stats_max_step st st' before after n :
  UpdateVolumeStats st before after = Some st' ->
  vs_MaxIno st <= vs_MaxIno st' /\
  ((forall a, after = Some (RInode a) -> i_Ino a < n) -> vs_MaxIno st < n -> vs_MaxIno st' < n).
Proof.
  assert (forall st k d, vs_MaxIno (adjustInodeCount st k d) = vs_MaxIno st) as Hadj by (by intros [] [] ?).
  assert (forall st n, vs_MaxIno (add_logical st n) = vs_MaxIno st) as Hlog by (by intros [] ?).
  intros Hu. assert (vs_MaxIno st' = vs_MaxIno st \/ exists a, after = Some (RInode a) /\ vs_MaxIno st' = Z.max (i_Ino a) (vs_MaxIno st)) as Hm.
  { destruct before as [[b|b|b|b]|], after as [[a|a|a|a]|]; cbn in Hu; simplify_eq; cbn [as_inode as_chunk UpdateStatsForInodeChange];
      try (by left); try (left; destruct st; done);
      repeat case_match; rewrite ?Hlog, ?Hadj; try (by left); right; exists a; by rewrite max_raised. }
  destruct Hm as [->|(a & -> & ->)]; [lia|]. split; [lia|]. intros Ha. specialize (Ha a eq_refl). lia.
Qed.

Lemma stats_max n cs : forall R st st',
  stats_after R st cs = Some st' -> Forall (change_fine n) cs ->
  vs_MaxIno st <= vs_MaxIno st' /\ (vs_MaxIno st < n -> vs_MaxIno st' < n).
Proof.
  induction cs as [|c cs IH]; intros R st st' Ha Hc; cbn in Ha; [simplify_eq; lia|].
  destruct (UpdateVolumeStats _ _ _) as [st1|] eqn:E; [|done]. inversion_clear Hc as [|? ? Hf Hc'].
  destruct (IH _ _ _ Ha Hc') as [H1 H2]. destruct (stats_max_step _ _ _ _ n E) as [H3 H4]. split; [lia|]. intros Hn.
  apply H2, H4; [|done]. intros a Ea. unfold change_fine in Hf. rewrite Ea in Hf. lia.
Qed.
