(* ===== verification/VolRuns.v ===== *)
(** * VolRuns: runs of calls on a volume

    What one call does to a volume, for all calls at once, and what follows for
    runs of calls under any failures: no call panics, rows stay under their keys
    and the statistics stay the counts of the rows. *)

From S2P Require Import Prelude Bytes Sha256 VolRows VolStaging VolNamespace VolLogic VolOps VolCalls VolChanges.

#[local] Open Scope Z_scope.
#[local] Open Scope list_scope.

(** ** One call *)

(** The changes a call commits on [v0]; [v] is the volume right before the
    commit. *)
Definition call_changes (c : Call) (v0 v : Volume) (cs : list change) : Prop :=
  match c with
  | CSetAttr now i a => setattr_changes v0 now (norm v0 i) a v cs
  | CSetXAttr now i n x _ => setxattr_changes v0 now (norm v0 i) n x v cs
  | CRemoveXAttr now i n => removexattr_changes v0 now (norm v0 i) n v cs
  | CMkdir now p n _ _ _ => mkdir_changes v0 now (norm v0 p) n v cs
  | CSymlink now p n t _ _ => symlink_changes v0 now (norm v0 p) n t v cs
  | CLink now i p n => link_changes v0 now (norm v0 i) (norm v0 p) n v cs
  | CCreateFile now p n _ d _ _ _ => create_changes v0 now (norm v0 p) n d v cs
  | CUnlink now p n =>
      exists de, r_dirents (v_rows v0) !! (norm v0 p, n) = Some de /\
        (forall cr, r_inodes (v_rows v0) !! de_Ino de = Some cr -> i_IsDir cr = false) /\
        unlink_changes v0 now (norm v0 p) n (de_Ino de) v cs
  | CRmdir now p n => rmdir_changes v0 now (norm v0 p) n v cs
  | CRename now op on np nn => rename_changes v0 now (norm v0 op) on (norm v0 np) nn v cs
  | CRelease _ _ => exists i, release_changes v0 i v cs
  | CCleanOrphans => clean_changes v0 v cs
  | _ => False
  end.

(** No handle names inode 0. *)
Definition handles_named (h : Handles) : Prop := forall fh i, h_handles h !! fh = Some i -> i <> 0.

Definition effect {A} (c : Call) (v0 : Volume) (r : result verr A) (w : Volume) : Prop :=
  r <> Err Panic /\ exists h, handles_named h /\
    (quiet (set_handles h v0) w \/
     exists v cs, quiet (set_handles h v0) v /\ call_changes c (set_handles h v0) v cs /\ committed (rows_fit v0) v cs w).

Lemma set_handles_id v : set_handles (v_handles v) v = v.
Proof. by destruct v. Qed.

Lemma outcome_effect {A} c v0 P0 (P : Volume -> list change -> Prop) (r : result verr A) w :
  handles_named (v_handles v0) -> (forall v cs, P v cs -> call_changes c v0 v cs) -> outcome v0 P0 P r w -> effect c v0 r w.
Proof.
  intros Hh HP [Hr Ho]. split; [done|]. exists (v_handles v0). rewrite set_handles_id. split; [done|].
  destruct Ho as [[_ Hq]|(v & cs & Hq & Hc & Hw)]; [by left|right]. exists v, cs. split_and!; auto.
Qed.

Lemma wp_unit {A} (m : M A) c v0 s :
  wp m (fun r s => effect c v0 r (s_vol s)) s -> wp (m ;; mret ()) (fun r s => effect c v0 r (s_vol s)) s.
Proof.
  intros H. apply wp_bind. eapply wp_mono; [exact H|]. intros [a|e] s' [He HH]; [by apply wp_ret; split|].
  split; [congruence|done].
Qed.

(** Calls that only read end where they started, up to remembered parents. *)
Definition reads {A} (v0 : Volume) (m : M A) : Prop := forall s,
  vol_at v0 s -> wp m (fun r s' => r <> Err Panic /\ vol_at v0 s') s.

Section reads.
Context (v0 : Volume) (HR : rows_keyed (v_rows v0)).

Lemma reads_bind {A B} (m : M A) (f : A -> M B) : reads v0 m -> (forall a, reads v0 (f a)) -> reads v0 (m ≫= f).
Proof.
  intros Hm Hf s Hs. apply wp_bind. eapply wp_mono; [by apply Hm|]. intros [a|e] s' [He Hs']; [by apply Hf|].
  split; [congruence|done].
Qed.

Lemma reads_ret {A} (a : A) : reads v0 (mret a).
Proof. intros s Hs. by apply wp_ret. Qed.
Lemma reads_throw {A} e : reads v0 (throw (Errno e) : M A).
Proof. intros s Hs. by apply wp_throw. Qed.
Lemma reads_check b e : reads v0 (check b e).
Proof. intros s Hs. by apply wp_check. Qed.
Lemma reads_get_vol : reads v0 get_vol.
Proof. intros s Hs. by apply wp_get_vol. Qed.
Lemma reads_normalize i : reads v0 (normalizeInodeID i).
Proof. intros s Hs. by eapply wp_normalize. Qed.
Lemma reads_getRow k : reads v0 (getSQLiteRowLocked false k).
Proof. intros s Hs. by eapply wp_getRow_ro. Qed.
Lemma reads_getDirEntry p n : reads v0 (getDirEntrySQLiteLocked false p n).
Proof. intros s Hs. by eapply wp_getDirEntry_ro. Qed.
Lemma reads_scan p : reads v0 (scanSQLiteRowsLocked false p).
Proof. intros s Hs. by eapply wp_scan_ro. Qed.
Lemma reads_getOrLoad i : reads v0 (getOrLoadInodeLocked false i).
Proof. intros s Hs. by eapply wp_getOrLoad_ro. Qed.

Ltac reads_go :=
  repeat (cbn beta iota zeta; lazymatch goal with
  | |- reads _ (mbind _ _) => apply reads_bind; [|intros]
  | |- reads _ (if ?b then _ else _) => destruct b
  | |- reads _ (match ?x with _ => _ end) => destruct x
  | |- reads _ _ => first [apply reads_ret | apply reads_throw | apply reads_check | apply reads_get_vol
      | apply reads_normalize | apply reads_getRow | apply reads_getDirEntry | apply reads_scan | apply reads_getOrLoad | eassumption | solve [auto]]
  end).

Lemma reads_toEntryAttr i n : reads v0 (toEntryAttrLocked false i n).
Proof. unfold toEntryAttrLocked. reads_go. Qed.

Lemma reads_attrs l m : reads v0 (attrs_of l m).
Proof. pose proof reads_toEntryAttr. induction l as [|x l IH]; cbn [attrs_of]; reads_go. Qed.

Lemma reads_parts l : forall i, reads v0 (resolve_parts l i).
Proof. induction l as [|x l IH]; intros i; cbn [resolve_parts]; reads_go. Qed.

Lemma reads_GetAttr i : reads v0 (GetAttr i).
Proof. pose proof reads_toEntryAttr. pose proof reads_attrs. pose proof reads_parts. unfold GetAttr. reads_go. Qed.
Lemma reads_Lookup p n : reads v0 (Lookup p n).
Proof. pose proof reads_toEntryAttr. pose proof reads_attrs. pose proof reads_parts. unfold Lookup. reads_go. Qed.
Lemma reads_ReadDir i : reads v0 (ReadDir i).
Proof. pose proof reads_toEntryAttr. pose proof reads_attrs. pose proof reads_parts. unfold ReadDir. reads_go. Qed.
Lemma reads_Readlink i : reads v0 (Readlink i).
Proof. pose proof reads_toEntryAttr. pose proof reads_attrs. pose proof reads_parts. unfold Readlink. reads_go. Qed.
Lemma reads_ResolvePath p : reads v0 (ResolvePath p).
Proof. pose proof reads_toEntryAttr. pose proof reads_attrs. pose proof reads_parts. unfold ResolvePath. reads_go. Qed.
Lemma reads_GetXAttr i n : reads v0 (GetXAttr i n).
Proof. pose proof reads_toEntryAttr. pose proof reads_attrs. pose proof reads_parts. unfold GetXAttr, xattr_name_ok. reads_go. Qed.
Lemma reads_ListXAttr i : reads v0 (ListXAttr i).
Proof. pose proof reads_toEntryAttr. pose proof reads_attrs. pose proof reads_parts. unfold ListXAttr. reads_go. Qed.
End reads.

Create HintDb reads.
#[export] Hint Resolve reads_GetAttr reads_Lookup reads_ReadDir reads_Readlink reads_ResolvePath reads_GetXAttr
  reads_ListXAttr : reads.

Lemma Open_effect i v0 t env :
  rows_keyed (v_rows v0) -> handles_named (v_handles v0) ->
  wp (Open i) (fun r s => effect (COpen i) v0 r (s_vol s)) (mkSt v0 t env).
Proof.
  intros HR Hh. pose proof (vol_at_refl v0 t env) as Hv. unfold Open.
  assert (forall e s, e <> Panic -> vol_at v0 s -> effect (COpen i) v0 (Err e : result verr (Z * EntryAttr * Z)) (s_vol s)) as Hq.
  { intros e s He Hs. split; [congruence|]. exists (v_handles v0). rewrite set_handles_id. split; [done|]. left.
    by eapply vol_at_quiet; [apply quiet_refl|]. }
  apply wp_bind. eapply wp_normalize; [done|]. apply wp_bind.
  eapply (wp_getOrLoad_ro _ _ _ _ Hv HR); [|by intros; apply Hq|by intros; apply Hq].
  intros r s Hr Hi Hs. apply wp_bind, wp_get_vol, wp_bind. unfold AllocFh. apply wp_bind. eapply wp_normalize; [done|].
  apply wp_bind, wp_get_vol, wp_bind, wp_upd_vol, wp_ret, wp_ret. destruct Hs as [Ev Hd].
  split; [done|]. cbn [s_vol]. rewrite Ev. cbn [v_handles set_dirParents].
  match goal with |- context [set_handles ?H (set_dirParents _ _)] => exists H end.
  split; [|left; unfold quiet; split_and!; try reflexivity; by left]. cbn [h_handles].
  intros fh j Hj. cbn [h_handles] in Hj. destruct (decide (u64 (h_nextFh (v_handles v0) + 1) = fh)) as [<-|Hne].
  - rewrite lookup_insert_eq in Hj. simplify_eq. apply norm_ne_0.
  - rewrite lookup_insert_ne in Hj by done. by eapply Hh.
Qed.

Lemma Release_effect i fh v0 t env :
  rows_keyed (v_rows v0) -> handles_named (v_handles v0) ->
  wp (Release i fh) (fun r s => effect (CRelease i fh) v0 r (s_vol s)) (mkSt v0 t env).
Proof.
  intros HR Hh. pose proof (Release_outcome v0 HR i fh t env) as HH. unfold released in HH.
  set (held := if fh =? 0 then None else h_handles (v_handles v0) !! fh) in *.
  set (j := default (norm v0 i) held) in *. set (h := mkHandles _ _ _) in HH.
  assert (j <> 0) as Hj.
  { unfold j, held. destruct (fh =? 0); [apply norm_ne_0|]. destruct (h_handles _ !! fh) eqn:E; [by eapply Hh|apply norm_ne_0]. }
  eapply wp_mono; [apply HH, Hj|]. intros r s [Hr Ho]. split; [done|]. exists h. split.
  { subst h. intros fh' i'. cbn [h_handles]. destruct held; [|by apply Hh]. intros [_ Hd]%lookup_delete_Some. by eapply Hh. }
  destruct Ho as [[_ Hq]|(v & cs & Hq & Hc & Hw)]; [by left|right]. exists v, cs. split_and!; [done| |done]. by exists j.
Qed.

Lemma call_effect c v0 t env :
  rows_keyed (v_rows v0) -> handles_named (v_handles v0) ->
  wp (do_call c) (fun r s => effect c v0 r (s_vol s)) (mkSt v0 t env).
Proof.
  intros HR Hh.
  assert (forall m : M (), reads v0 m -> wp m (fun r s => effect c v0 r (s_vol s)) (mkSt v0 t env)) as Hro.
  { intros m Hm. eapply wp_mono; [apply Hm, vol_at_refl|]. intros r s [Hr Hs]. split; [done|]. exists (v_handles v0).
    rewrite set_handles_id. split; [done|]. left. by eapply vol_at_quiet; [apply quiet_refl|]. }
  assert (forall {A} P0 P (m : M A), wp m (fun r s => outcome v0 P0 P r (s_vol s)) (mkSt v0 t env) ->
    (forall v cs, P v cs -> call_changes c v0 v cs) -> wp m (fun r s => effect c v0 r (s_vol s)) (mkSt v0 t env)) as Hw.
  { intros A P0 P m Hm HP. eapply wp_mono; [exact Hm|]. intros r s. by apply outcome_effect. }
  destruct c; cbn [do_call].
  1-7: apply Hro, reads_bind; [auto with reads|intros; apply reads_ret].
  - apply wp_unit. eapply Hw; [by apply SetAttr_outcome|auto].
  - eapply Hw; [by apply SetXAttr_outcome|auto].
  - eapply Hw; [by apply RemoveXAttr_outcome|auto].
  - apply wp_unit. eapply Hw; [by apply Mkdir_outcome|auto].
  - apply wp_unit. eapply Hw; [by apply Symlink_outcome|auto].
  - apply wp_unit. eapply Hw; [by apply Link_outcome|auto].
  - apply wp_unit. eapply Hw; [by apply CreateFile_outcome|auto].
  - apply wp_unit. by apply Open_effect.
  - apply wp_unit. eapply Hw; [by apply Unlink_outcome|auto].
  - apply wp_unit. eapply Hw; [by apply Rmdir_outcome|auto].
  - apply wp_unit. eapply Hw; [by apply Rename_outcome|auto].
  - by apply Release_effect.
  - apply wp_unit. eapply Hw; [by apply clean_outcome|auto].
Qed.

(** ** The changes of a call fit the rows *)

(** A change of an inode row keeps the kind of the row, or is the row [new]. *)
Definition change_known (R : Rows) (new : option Inode) (c : change) : Prop :=
  match change_after c with
  | Some (RInode a) =>
      0 <= i_Size a /\ ((exists r, r_inodes R !! i_Ino a = Some r /\ inodeType a = inodeType r) \/ new = Some a)
  | Some (RDirEntry d) => de_Ino d <> 0
  | _ => True
  end.

(** Changes of chunk and attribute rows, and deletions. *)
Definition plain (c : change) : Prop :=
  match change_after c with Some (RInode _) | Some (RDirEntry _) => False | _ => True end.

Lemma plain_known R new cs : Forall plain cs -> Forall (change_known R new) cs.
Proof. intros HF. eapply Forall_impl; [exact HF|]. intros c. unfold plain, change_known. by destruct (change_after c) as [[]|]. Qed.

Lemma plain_deletes {A} (f : A -> rkey) l : Forall plain ((fun x => ChDelete (f x)) <$> l).
Proof. apply Forall_fmap, Forall_true. done. Qed.

Lemma plain_inode_deletes R i : Forall plain (inode_deletes R i).
Proof. unfold inode_deletes. constructor; [done|]. apply Forall_app. split; apply plain_deletes. Qed.

Lemma plain_chunk_rows ino blobs : Forall plain (ChInsert <$> chunk_rows ino blobs).
Proof.
  apply Forall_fmap, Forall_forall. intros x Hx. unfold chunk_rows in Hx. by apply elem_of_lookup_imap in Hx as (i & d & -> & _).
Qed.

Lemma plain_inline ino data : Forall plain (inline_rows ino data).
Proof. unfold inline_rows. case_match; repeat constructor. Qed.

Lemma plain_insert v ino cs data : Forall plain (insert_changes v ino cs data).
Proof. unfold insert_changes. case_match; [apply plain_inline|apply plain_chunk_rows]. Qed.

Lemma plain_replace v ino cs data : Forall plain (replace_changes v ino cs data).
Proof.
  unfold replace_changes. case_match; apply Forall_app; split; try apply plain_deletes; [apply plain_inline|apply plain_chunk_rows].
Qed.

Lemma plain_orphans R l : Forall plain (l ≫= orphan_deletes R).
Proof.
  apply Forall_bind, Forall_true. intros i. unfold orphan_deletes. constructor; [done|]. apply plain_deletes.
Qed.

(** Kinds under the updates. *)
Lemma type_gain r : inodeType (gain_subdir r) = inodeType r.
Proof. done. Qed.
Lemma type_lose r : inodeType (lose_subdir r) = inodeType r.
Proof. unfold lose_subdir. by case_match. Qed.
Lemma type_mctime now r : inodeType (with_mctime now r) = inodeType r.
Proof. done. Qed.
Lemma type_ctime now r : inodeType (with_ctime now r) = inodeType r.
Proof. done. Qed.

Lemma land_type_bits m m' k : Z.land k S_IFMT = k ->
  Z.land (Z.lor (Z.ldiff m mode_bits) (Z.land m' mode_bits)) k = Z.land m k.
Proof.
  intros Hk. rewrite <- Hk. apply Z.bits_inj'. intros n Hn. rewrite !Z.land_spec, Z.lor_spec, Z.ldiff_spec, Z.land_spec.
  assert (Z.testbit mode_bits n && Z.testbit S_IFMT n = false) as Hd.
  { change (Z.testbit mode_bits n && Z.testbit S_IFMT n) with (Z.testbit mode_bits n && Z.testbit S_IFMT n).
    rewrite <- Z.land_spec. change (Z.land mode_bits S_IFMT) with 0. apply Z.bits_0. }
  destruct (Z.testbit mode_bits n), (Z.testbit S_IFMT n), (Z.testbit m n), (Z.testbit m' n), (Z.testbit k n); done.
Qed.

Lemma type_set_attrs now a r : inodeType (set_attrs_row now a r) = inodeType r.
Proof.
  unfold inodeType, set_attrs_row. cbn [with_times with_owner i_Mode i_IsDir i_SymlinkTarget].
  destruct (sa_mode a) as [m|]; [|done]. by rewrite !land_type_bits.
Qed.

Lemma type_overwrite c now mode uid gid cs hash data r :
  i_IsDir r = false -> Z.land mode S_IFMT = S_IFREG -> Z.land (i_Mode r) S_IFMT = S_IFREG ->
  inodeType (overwrite_row c now mode uid gid cs hash data r) = inodeType r.
Proof.
  intros Hd Hm Hr. unfold inodeType. cbn [overwrite_row with_mctime with_times with_owner with_content i_Mode i_IsDir i_SymlinkTarget].
  rewrite Hd, Hm, Hr. cbn [Z.eqb orb]. done.
Qed.

Lemma type_xattr_removed now r : inodeType (xattr_removed now r) = inodeType r.
Proof. unfold xattr_removed. by case_match. Qed.
Lemma type_xattr_added now b r : inodeType (xattr_added now b r) = inodeType r.
Proof. unfold xattr_added. by destruct b. Qed.

Lemma ino_lose r : i_Ino (lose_subdir r) = i_Ino r /\ i_Size (lose_subdir r) = i_Size r /\ i_IsDir (lose_subdir r) = i_IsDir r.
Proof. unfold lose_subdir. by case_match. Qed.

(** A call creates at most one inode, with the number the allocator gave. *)
Definition new_of (c : Call) (v0 : Volume) (new : option Inode) (v : Volume) : Prop :=
  match new with
  | Some a => i_Ino a = v_nextInode v0 /\ v_nextInode v = u64 (v_nextInode v0 + DefaultInodeStride) /\ 0 <= i_Size a
  | None => True
  end.

Ltac the_new := match goal with |- context [ChInsert (RInode ?a)] => exists (Some a) end.
Ltac each := repeat first [apply Forall_app; split | apply Forall_cons; split | apply Forall_nil; exact I].

Lemma known_update R new f r i :
  r_inodes R !! i = Some r -> i_Ino r = i -> 0 <= i_Size r -> i_Ino (f r) = i_Ino r -> i_Size (f r) = i_Size r ->
  inodeType (f r) = inodeType r -> change_known R new (ChUpdate (RInode (f r))).
Proof.
  intros Hr Hi Hz E1 E2 E3. unfold change_known. cbn. rewrite E2. split; [done|]. left. exists r. by rewrite E1, Hi.
Qed.

Lemma blen_nonneg b : 0 <= blen b.
Proof. unfold blen. lia. Qed.

Lemma call_known c v0 v cs :
  rows_ok (v_nextInode v0) (v_rows v0) -> 0 < v_nextInode v0 ->
  call_changes c v0 v cs -> exists new, new_of c v0 new v /\ Forall (change_known (v_rows v0) new) cs.
Proof.
  intros [HR HI HO] Hn HC.
  assert (forall new i r f, r_inodes (v_rows v0) !! i = Some r -> i_Ino (f r) = i_Ino r -> i_Size (f r) = i_Size r ->
    inodeType (f r) = inodeType r -> change_known (v_rows v0) new (ChUpdate (RInode (f r)))) as Hup.
  { intros new i r f Hr E1 E2 E3. eapply known_update; [exact Hr|by apply HR|by eapply HI|done..]. }
  assert (forall i r, r_inodes (v_rows v0) !! i = Some r -> i_Ino r <> 0) as Hnz.
  { intros i r Hr. rewrite (proj1 HR _ _ Hr). destruct (HI _ _ Hr). lia. }
  assert (forall now i r, r_inodes (v_rows v0) !! i = Some r ->
    change_known (v_rows v0) None (ChUpdate (RInode (with_mctime now (lose_subdir r))))) as Hlose.
  { intros now i r Hr. destruct (ino_lose r) as (E1 & E2 & _).
    by eapply (Hup _ _ _ (fun r => with_mctime now (lose_subdir r))); [done|..|rewrite type_mctime, type_lose]. }
  destruct c; cbn [call_changes] in HC; try done.
  - destruct HC as (r & Hr & _ & _ & ->). exists None. split; [done|]. each. eapply Hup; [done|done|done|apply type_set_attrs].
  - destruct HC as (r & Hr & _ & _ & ->). exists None. split; [done|]. each.
    + by case_match.
    + eapply (Hup _ _ _ (xattr_added now _)); [done|..|apply type_xattr_added]; unfold xattr_added; by case_match.
  - destruct HC as (r & Hr & _ & _ & _ & ->). exists None. split; [done|]. each; [done|].
    eapply (Hup _ _ _ (xattr_removed now)); [done|..|apply type_xattr_removed]; unfold xattr_removed; by case_match.
  - destruct HC as (pr & m & u & g & (Hp & _) & Ht & _ & _ & ->). the_new. split; [split_and!; [reflexivity|done|done]|]. each.
    + split; [done|]. by right.
    + cbn. lia.
    + by eapply (Hup _ _ _ (fun r => with_mctime now (gain_subdir r))).
  - destruct HC as (pr & u & g & (Hp & _) & Ht & _ & ->). the_new. split; [split_and!; [reflexivity|done|cbn; apply blen_nonneg]|]. each.
    + split; [cbn; apply blen_nonneg|]. by right.
    + cbn. lia.
    + by eapply (Hup _ _ _ (with_mctime now)).
  - destruct HC as (pr & cr & (Hp & _) & Hc & _ & _ & _ & ->). exists None. split; [done|]. each.
    + by eapply (Hup _ _ _ (linked_row now)).
    + by eapply Hnz.
    + by eapply (Hup _ _ _ (with_mctime now)).
  - destruct HC as [HC|HC].
    + destruct HC as (pr & m & u & g & rd & h & (Hp & _) & Ht & _ & _ & _ & ->). the_new.
      split; [split_and!; [reflexivity|done|cbn; apply blen_nonneg]|]. each.
      * apply plain_known. case_match; [apply plain_insert|apply Forall_nil; exact I].
      * split; [cbn; apply blen_nonneg|]. by right.
      * cbn. lia.
      * by eapply (Hup _ _ _ (with_mctime now)).
    + destruct HC as (pr & de & cr & m & u & g & h & Hp & _ & _ & Hc & Hd & Hm & Hcm & _ & _ & _ & ->). exists None.
      split; [done|]. each; [apply plain_known, plain_replace| |by eapply (Hup _ _ _ (with_mctime now))].
      split; [cbn; apply blen_nonneg|]. left. exists cr. split; [|by apply type_overwrite].
      cbn. by rewrite (proj1 HR _ _ Hc).
  - destruct HC as (de & _ & _ & de' & cr & pr & _ & Hc & Hp & _ & _ & ->). exists None. split; [done|]. each.
    + case_match; [apply plain_known, plain_inode_deletes|]. each. by eapply (Hup _ _ _ (unlinked_row now)).
    + done.
    + by eapply (Hup _ _ _ (with_mctime now)).
  - destruct HC as (de & cr & pr & _ & _ & _ & _ & Hp & _ & _ & ->). exists None. split; [done|].
    apply Forall_app. split; [apply plain_known, plain_inode_deletes|]. each; [done|].
    by eapply Hlose.
  - destruct HC as (de & cr & opr & npr & tgt & _ & Hc & Ho & Hnp & _ & _ & _ & _ & Ht & _ & _ & _ & ->). exists None. split; [done|]. each.
    + done.
    + destruct tgt as [[td tr]|]; cbn [target_changes rename_target] in *; [|apply Forall_nil; exact I]. destruct Ht as (_ & Htr & _).
      repeat case_match; each; try done; try (by eapply (Hup _ _ _ (unlinked_row now))). apply plain_known, plain_deletes.
    + by eapply Hnz.
    + eapply (Hup _ _ _ (fun r => with_ctime now (if i_IsDir cr then with_parent _ r else r))); [done|..]; by destruct (i_IsDir cr).
    + case_match; [by eapply Hlose|by eapply (Hup _ _ _ (with_mctime now))].
    + case_match; each. case_match; [by eapply (Hup _ _ _ (fun r => with_mctime now (gain_subdir r)))|by eapply (Hup _ _ _ (with_mctime now))].
  - destruct HC as (i & r & _ & _ & _ & _ & _ & _ & ->). exists None. split; [done|]. apply plain_known, plain_inode_deletes.
  - destruct HC as (_ & _ & ->). exists None. split; [done|]. apply plain_known, plain_orphans.
Qed.

(** ** Chunk rows stay owned *)

Lemma chunk_deletes_all R i x : rows_keyed R -> is_Some (r_chunks R !! (i, x)) -> ChDelete (KFileChunk i x) ∈ chunk_deletes R i.
Proof.
  intros HR [c Hc]. destruct (proj1 (proj2 (proj2 HR)) _ _ _ Hc) as [Ei Ex].
  destruct (scan_complete R (PFileChunk i) (KFileChunk i x) (RFileChunk c) HR) as [Hin _]; [apply Z.eqb_refl|cbn; by rewrite Hc|].
  unfold chunk_deletes. apply list_elem_of_fmap. exists c. split; [by rewrite Ex|]. unfold chunks_in. apply list_elem_of_omap. eauto.
Qed.

Lemma tidy_plain R cs l : (forall c, c ∈ l -> exists k, c = ChDelete k /\ (forall i, k <> KInode i)) -> Forall (tidy R cs) l.
Proof. intros Hl. apply Forall_forall. intros c Hc. destruct (Hl c Hc) as (k & -> & Hk). destruct k; try done. by destruct (Hk ino). Qed.

Lemma tidy_chunk_deletes R cs i : Forall (tidy R cs) (chunk_deletes R i).
Proof. apply tidy_plain. intros c Hc. apply list_elem_of_fmap in Hc as (x & -> & _). eexists. by split. Qed.

Lemma tidy_inode_deletes R cs i : rows_keyed R -> (forall c, c ∈ inode_deletes R i -> c ∈ cs) -> Forall (tidy R cs) (inode_deletes R i).
Proof.
  intros HR Hin. unfold inode_deletes. constructor.
  - intros x Hx. apply Hin. right. apply elem_of_app. left. by apply chunk_deletes_all.
  - apply Forall_app. split; [apply tidy_chunk_deletes|]. apply tidy_plain. intros c Hc.
    apply list_elem_of_fmap in Hc as (x & -> & _). eexists. by split.
Qed.

Lemma tidy_orphans R cs l : rows_keyed R -> (forall c, c ∈ (l ≫= orphan_deletes R) -> c ∈ cs) -> Forall (tidy R cs) (l ≫= orphan_deletes R).
Proof.
  intros HR Hin. apply Forall_forall. intros c Hc. apply list_elem_of_bind in Hc as (i & Hc & Hi).
  apply elem_of_cons in Hc as [->|Hc]; [|by eapply Forall_forall; [apply tidy_chunk_deletes|]].
  intros x Hx. apply Hin. apply list_elem_of_bind. exists i. split; [|done]. right. by apply chunk_deletes_all.
Qed.

(** Rows that keep directory flag and size. *)
Lemma tidy_update R cs f r i :
  r_inodes R !! i = Some r -> i_Ino r = i -> i_Ino (f r) = i_Ino r -> i_IsDir (f r) = i_IsDir r -> i_Size (f r) = i_Size r ->
  tidy R cs (ChUpdate (RInode (f r))).
Proof. intros Hr Hi E1 E2 E3 r'. rewrite E1, Hi, Hr. intros [= <-]. done. Qed.

Lemma tidy_new R cs a n : rows_ok n R -> i_Ino a = n -> tidy R cs (ChInsert (RInode a)).
Proof. intros [_ HI _] Ha r Hr. rewrite Ha in Hr. destruct (HI _ _ Hr). lia. Qed.

(** The chunk rows of [CreateFile]. *)
Lemma chunks_owned_content R cs cs' ino :
  chunks_owned R ->
  (forall c, c ∈ cs -> under (PFileChunk ino) (change_key c) = true) ->
  (forall c, c ∈ cs' -> match change_after c with
     | Some (RInode a) => i_Ino a = ino \/ (forall r, r_inodes R !! i_Ino a = Some r -> i_IsDir a = i_IsDir r /\ i_Size a = i_Size r)
     | Some (RDirEntry _) => True | _ => False end) ->
  (forall x, is_Some (r_chunks (ApplyChanges R (cs ++ cs')) !! (ino, x)) ->
     exists a, r_inodes (ApplyChanges R (cs ++ cs')) !! ino = Some a /\ i_IsDir a = false /\ 0 < i_Size a) ->
  chunks_owned (ApplyChanges R (cs ++ cs')).
Proof.
  intros HO Hcs Hcs' Hino i x Hx. destruct (decide (i = ino)) as [->|Hne]; [by apply (Hino x)|].
  assert (written (cs ++ cs') (KFileChunk i x) = None) as Hw.
  { apply written_None. intros c [Hc|Hc]%elem_of_app E.
    - specialize (Hcs _ Hc). rewrite E in Hcs. cbn in Hcs. zify_bool. congruence.
    - specialize (Hcs' _ Hc). destruct (change_after c) as [m|] eqn:Ea; [|done]. apply change_typed in Ea.
      destruct m; try done; cbn in Ea; congruence. }
  rewrite chunks_written, Hw in Hx. destruct (HO _ _ Hx) as (r & Hr & Hd & Hz). rewrite inodes_written.
  destruct (written (cs ++ cs') (KInode i)) as [o|] eqn:Ei; [|by exists r].
  apply written_Some in Ei as (c & Hc & Hk & Ha). apply elem_of_app in Hc as [Hc|Hc].
  - specialize (Hcs _ Hc). rewrite Hk in Hcs. done.
  - specialize (Hcs' _ Hc). rewrite Ha in Hcs'. destruct o as [[a| | |]|]; try done.
    + pose proof (change_typed _ _ Ha) as Et. cbn in Et. rewrite Hk in Et. simplify_eq. destruct Hcs' as [|Hcs']; [done|].
      destruct (Hcs' _ Hr) as [E1 E2]. exists a. rewrite E1, E2. done.
    + pose proof (change_typed _ _ Ha) as Et. cbn in Et. congruence.
Qed.

Lemma insert_nonempty v ino cs data c : 0 <= c_maxInlineLen (v_cfg v) -> c ∈ insert_changes v ino cs data -> 0 < blen data.
Proof.
  intros Hm Hc. unfold insert_changes, inline_rows in Hc. destruct (blen data <=? _) eqn:E; [|zify_bool; lia].
  destruct (blen data >? 0) eqn:E2; [zify_bool; lia|by apply elem_of_nil in Hc].
Qed.

Lemma replace_empty v ino cs data x :
  rows_keyed (v_rows v) -> 0 <= c_maxInlineLen (v_cfg v) -> blen data = 0 ->
  as_chunk (match written (replace_changes v ino cs data) (KFileChunk ino x) with Some o => o | None => rows_get (v_rows v) (KFileChunk ino x) end) = None.
Proof.
  intros HR Hm Hz. unfold replace_changes, inline_rows. rewrite Hz, (proj2 (Z.leb_le _ _)) by done. cbn [Z.gtb Z.compare].
  rewrite app_nil_r. fold (chunk_deletes (v_rows v) ino). destruct (written _ _) as [o|] eqn:E.
  - apply written_Some in E as (c & Hc & _ & <-). by apply list_elem_of_fmap in Hc as (y & -> & _).
  - rewrite as_chunk_get. destruct (r_chunks _ !! _) as [c|] eqn:Ec; [|done]. exfalso.
    eapply written_None in E; [|apply chunk_deletes_all; [exact HR|by rewrite Ec]]. done.
Qed.

Lemma written_content cs ino k : (forall c, c ∈ cs -> under (PFileChunk ino) (change_key c) = true) ->
  under (PFileChunk ino) k = false -> written cs k = None.
Proof. intros Hc Hk. apply written_None. intros c Hin E. specialize (Hc _ Hin). congruence. Qed.

Lemma create_chunks v0 now p n d v cs :
  rows_ok (v_nextInode v0) (v_rows v0) -> 0 <= c_maxInlineLen (v_cfg v0) ->
  create_changes v0 now p n d v cs -> chunks_owned (ApplyChanges (v_rows v0) cs).
Proof.
  intros Hok Hm HC. pose proof Hok as [HR HI HO]. destruct HC as [HC|HC].
  - destruct HC as (pr & m & u & g & rd & h & (Hp & _) & _ & _ & _ & _ & ->). set (ino := v_nextInode v0).
    assert (r_inodes (v_rows v0) !! ino = None) as Hnew.
    { apply eq_None_not_Some. intros [r Hr]. destruct (HI _ _ Hr). subst ino. lia. }
    set (content := if Z.land m S_IFMT =? S_IFREG then _ else []).
    assert (forall c, c ∈ content -> under (PFileChunk ino) (change_key c) = true) as Hcont.
    { intros c Hc. subst content. case_match; [by eapply insert_changes_keys|by apply elem_of_nil in Hc]. }
    apply (chunks_owned_content _ _ _ ino); [done|done| |].
    + intros c Hc. repeat (apply elem_of_cons in Hc as [->|Hc]); [..|by apply elem_of_nil in Hc]; cbn; [by left|done|right].
      intros r Hr. rewrite (proj1 HR _ _ Hp), Hp in Hr. by simplify_eq.
    + intros x [y Hy]. rewrite chunks_written, written_app, written_other in Hy by (repeat constructor; done).
      destruct (written content (KFileChunk ino x)) as [o|] eqn:Ew.
      * rewrite inodes_written, written_app. cbn [written change_key row_key]. rewrite (proj1 HR _ _ Hp : i_Ino (with_mctime now pr) = p).
        rewrite bool_decide_eq_false_2 by congruence. rewrite bool_decide_eq_false_2 by congruence. cbn [i_Ino].
        rewrite bool_decide_eq_true_2 by done. eexists. split; [done|]. split; [done|]. cbn.
        apply written_Some in Ew as (c & Hc & _). subst content.
        destruct (Z.land m S_IFMT =? S_IFREG); [by eapply insert_nonempty|by apply elem_of_nil in Hc].
      * destruct (HO ino x) as (r & Hr & _); [by rewrite Hy|]. congruence.
  - destruct HC as (pr & de & cr & m & u & g & h & Hp & Hpd & _ & Hc & Hd & _ & _ & _ & _ & _ & ->).
    assert (i_Ino cr = de_Ino de) as Ei by (by apply HR).
    assert (i_Ino cr <> p) as Hne by (intros E; rewrite Ei in E; subst p; rewrite Hp in Hc; simplify_eq; congruence).
    apply (chunks_owned_content _ _ _ (i_Ino cr)); [done|intros c; apply replace_changes_keys| |].
    + intros c Hin. repeat (apply elem_of_cons in Hin as [->|Hin]); [..|by apply elem_of_nil in Hin]; cbn; [by left|right].
      intros r Hr. rewrite (proj1 HR _ _ Hp), Hp in Hr. by simplify_eq.
    + intros x [y Hy]. rewrite inodes_written, written_app. cbn [written]. cbn [change_key row_key].
      rewrite (proj1 HR _ _ Hp : i_Ino (with_mctime now pr) = p), bool_decide_eq_false_2 by congruence.
      rewrite overwrite_row_ino, bool_decide_eq_true_2 by done. cbn [change_after as_inode]. eexists. split; [done|]. split; [done|].
      cbn. destruct (decide (blen d = 0)) as [Hz|]; [|pose proof (blen_nonneg d); lia]. exfalso.
      rewrite chunks_written, written_app, written_other in Hy by (repeat constructor; done).
      pose proof (replace_empty v0 (i_Ino cr) (effective_chunk_size (v_cfg v0) (i_ChunkSize cr)) d x HR Hm Hz) as He.
      destruct (written _ _); [congruence|]. rewrite as_chunk_get in He. congruence.
Qed.

Lemma call_chunks c v0 v cs :
  rows_ok (v_nextInode v0) (v_rows v0) -> 0 <= c_maxInlineLen (v_cfg v0) ->
  call_changes c v0 v cs -> chunks_owned (ApplyChanges (v_rows v0) cs).
Proof.
  intros Hok Hm HC. pose proof Hok as [HR HI HO].
  assert (forall cs i r f, r_inodes (v_rows v0) !! i = Some r -> i_Ino (f r) = i_Ino r -> i_IsDir (f r) = i_IsDir r ->
    i_Size (f r) = i_Size r -> tidy (v_rows v0) cs (ChUpdate (RInode (f r)))) as Hup.
  { intros cs1 i r f Hr E1 E2 E3. eapply tidy_update; [exact Hr|by apply HR|done..]. }
  assert (forall cs now i r, r_inodes (v_rows v0) !! i = Some r -> tidy (v_rows v0) cs (ChUpdate (RInode (with_mctime now (lose_subdir r))))) as Hlose.
  { intros cs1 now i r Hr. destruct (ino_lose r) as (E1 & E2 & E3). by eapply (Hup _ _ _ (fun r => with_mctime now (lose_subdir r))). }
  destruct c; cbn [call_changes] in HC; try done; try (by eapply create_chunks); apply chunks_owned_tidy; try done.
  - destruct HC as (r & Hr & _ & _ & ->). each. by eapply Hup.
  - destruct HC as (r & Hr & _ & _ & ->). each; [by case_match|].
    eapply (Hup _ _ _ (xattr_added now _)); [done|..]; unfold xattr_added; by case_match.
  - destruct HC as (r & Hr & _ & _ & _ & ->). each; [done|].
    eapply (Hup _ _ _ (xattr_removed now)); [done|..]; unfold xattr_removed; by case_match.
  - destruct HC as (pr & m & u & g & (Hp & _) & Ht & _ & _ & ->). each; [by eapply tidy_new|done|].
    by eapply (Hup _ _ _ (fun r => with_mctime now (gain_subdir r))).
  - destruct HC as (pr & u & g & (Hp & _) & Ht & _ & ->). each; [by eapply tidy_new|done|]. by eapply (Hup _ _ _ (with_mctime now)).
  - destruct HC as (pr & cr & (Hp & _) & Hc & _ & _ & _ & ->). each; [|done|].
    + by eapply (Hup _ _ _ (linked_row now)).
    + by eapply (Hup _ _ _ (with_mctime now)).
  - destruct HC as (de & _ & _ & de' & cr & pr & _ & Hc & Hp & _ & _ & ->). apply Forall_app. split.
    + case_match; [apply tidy_inode_deletes; [done|]; intros; apply elem_of_app; by left|]. each.
      by eapply (Hup _ _ _ (unlinked_row now)).
    + each; [done|]. by eapply (Hup _ _ _ (with_mctime now)).
  - destruct HC as (de & cr & pr & _ & _ & _ & _ & Hp & _ & _ & ->). apply Forall_app. split.
    + apply tidy_inode_deletes; [done|]. intros; apply elem_of_app; by left.
    + each; [done|]. by eapply Hlose.
  - destruct HC as (de & cr & opr & npr & tgt & _ & Hc & Ho & Hnp & _ & _ & _ & _ & Ht & _ & _ & _ & ->).
    apply Forall_cons. split; [done|]. apply Forall_app. split.
    + destruct tgt as [[td tr]|]; cbn [rename_target] in Ht; [|apply Forall_nil; exact I]. destruct Ht as (_ & Htr & _).
      unfold target_changes. apply Forall_cons. split; [done|]. destruct (i_IsDir tr) eqn:Ed.
      { each. intros x Hx. destruct (HO _ _ Hx) as (r & Hr & ? & _). simplify_eq. congruence. }
      destruct (i_Nlink tr <=? 1); [|each; by eapply (Hup _ _ _ (unlinked_row now))].
      destruct (hasOpenHandlesLocked v0 (de_Ino td)); [each; by eapply (Hup _ _ _ (unlinked_row now))|].
      apply Forall_cons. split; [|apply tidy_chunk_deletes].
      intros x Hx. right. apply elem_of_app. left. right. right. by apply chunk_deletes_all.
    + apply Forall_cons. split; [done|]. each.
      * eapply (Hup _ _ _ (fun r => with_ctime now (if i_IsDir cr then with_parent _ r else r))); [done|..]; destruct (i_IsDir cr) eqn:E; done.
      * destruct (i_IsDir cr && _); [by eapply Hlose|by eapply (Hup _ _ _ (with_mctime now))].
      * destruct (norm v0 newParent =? norm v0 oldParent); each. destruct (_ && bool_decide _); [by eapply (Hup _ _ _ (fun r => with_mctime now (gain_subdir r)))|by eapply (Hup _ _ _ (with_mctime now))].
  - destruct HC as (i & r & _ & _ & _ & _ & _ & _ & ->). by apply tidy_inode_deletes.
  - destruct HC as (_ & _ & ->). by apply tidy_orphans.
Qed.

(** ** The invariant of a volume *)

Record vol_ok (v : Volume) : Prop := {
  vo_rows : rows_ok (v_nextInode v) (v_rows v);
  vo_next : DefaultInodeStride <= v_nextInode v;
  vo_stats : stats_ok (v_rows v) (v_liveStats v);
  vo_max : 0 <= vs_MaxIno (v_liveStats v) < v_nextInode v;
  vo_handles : handles_named (v_handles v);
  vo_inline : 0 <= c_maxInlineLen (v_cfg v)
}.

Definition kind_of (R : Rows) (new : option Inode) (i : Z) : inode_kind :=
  match r_inodes R !! i with
  | Some r => inodeType r
  | None => match new with Some a => inodeType a | None => kind_file end
  end.

Lemma known_kinds n R new cs :
  rows_ok n R -> (forall a, new = Some a -> n <= i_Ino a) ->
  Forall (change_known R new) cs -> kinds_fit (kind_of R new) R /\ Forall (change_kind (kind_of R new)) cs.
Proof.
  intros [HR HI _] Hn Hc. split.
  - intros i r Hr. unfold kind_of. rewrite Hr. split; [done|]. by eapply HI.
  - eapply Forall_impl; [exact Hc|]. intros c. unfold change_known, change_kind.
    destruct (change_after c) as [[a| | |]|]; try done. intros [Hz Hk]. split; [|done]. unfold kind_of. destruct Hk as [(r & -> & Hk)| ->]; [done|].
    destruct (r_inodes R !! i_Ino a) as [r|] eqn:Er; [|done]. specialize (Hn a eq_refl). destruct (HI _ _ Er). lia.
Qed.

Lemma known_fine n n' R new cs :
  rows_ok n R -> n <= n' -> (forall a, new = Some a -> 0 < i_Ino a < n') ->
  Forall (change_known R new) cs -> Forall (change_fine n') cs.
Proof.
  intros [HR HI _] Hn Ha Hc. eapply Forall_impl; [exact Hc|]. intros c. unfold change_known, change_fine.
  destruct (change_after c) as [[a|d| |]|]; try done. intros [Hz [(r & Hr & _)| ->]].
  - destruct (HI _ _ Hr). split; [lia|done].
  - split; [by apply Ha|done].
Qed.

(** A commit keeps the invariant. *)
Lemma commit_ok n n' R st cs st' new :
  rows_ok n R -> 0 < n <= n' -> stats_ok R st -> vs_MaxIno st < n ->
  (forall a, new = Some a -> i_Ino a = n /\ n < n') -> Forall (change_known R new) cs ->
  chunks_owned (ApplyChanges R cs) -> stats_after R st cs = Some st' ->
  rows_ok n' (ApplyChanges R cs) /\ stats_ok (ApplyChanges R cs) st' /\ vs_MaxIno st <= vs_MaxIno st' < n'.
Proof.
  intros HR Hn HS Hm Hnew Hk HO Hst.
  assert (Forall (change_fine n') cs) as Hf.
  { eapply known_fine; [exact HR|lia| |done]. intros a Ha. destruct (Hnew a Ha) as [-> ?]. lia. }
  split_and!.
  - eapply rows_ok_apply; [exact HR|lia|done|done].
  - destruct (known_kinds _ _ _ _ HR (fun a Ha => Z.eq_le_incl _ _ (eq_sym (proj1 (Hnew a Ha)))) Hk) as [HK1 HK2]. by eapply stats_changes.
  - by eapply stats_max.
  - eapply stats_max; [done|done|lia].
Qed.

Lemma rows_ok_mono n n' R : rows_ok n R -> n <= n' -> rows_ok n' R.
Proof. intros [HR HI HO] Hn. split; [done| |done]. intros i r Hr. destruct (HI i r Hr). split; [lia|done]. Qed.

Lemma rows_ok_fit v : rows_ok (v_nextInode v) (v_rows v) -> rows_fit v.
Proof.
  intros [HR HI HO]. split; [|done]. unfold next_unused. apply eq_None_not_Some. intros [r Hr]. destruct (HI _ _ Hr). lia.
Qed.

Definition grows (v w : Volume) : Prop :=
  v_nextInode v <= v_nextInode w <= v_nextInode v + DefaultInodeStride /\ vs_MaxIno (v_liveStats v) <= vs_MaxIno (v_liveStats w).

Lemma effect_ok {A} c v (r : result verr A) w :
  vol_ok v -> v_nextInode v + DefaultInodeStride < 2 ^ 64 -> effect c v r w -> vol_ok w /\ grows v w /\ r <> Err Panic.
Proof.
  intros [HR Hn HS Hm Hh Hi] Hb (Hr & h & Hh' & He). unfold DefaultInodeStride in *.
  assert (u64 (v_nextInode v + 8) = v_nextInode v + 8) as Hu by (apply u64_small; unfold is_u64; lia).
  set (vb := set_handles h v) in *.
  destruct He as [(Ec & ER & ES & EH & EN)|(v1 & cs & (Ec & ER & ES & EH & EN) & HC & (d & st & q & e & -> & Hd & Hst))].
  - assert (v_nextInode v <= v_nextInode w <= v_nextInode v + 8) as Hw by (cbn in EN; unfold DefaultInodeStride in EN; lia).
    split; [|split; [|done]].
    + split; rewrite ?ER, ?ES, ?EH, ?Ec; cbn; try done; [by eapply rows_ok_mono; [apply HR|lia]|unfold DefaultInodeStride; lia|lia].
    + split; [done|]. rewrite ES. cbn. lia.
  - assert (v_nextInode v <= v_nextInode v1 <= v_nextInode v + 8) as Hw by (cbn in EN; unfold DefaultInodeStride in EN; lia).
    destruct (call_known c vb v1 cs HR ltac:(cbn; lia) HC) as (new & Hnew & Hk).
    specialize (Hst (rows_ok_fit v HR)). rewrite ER, ES in Hst.
    destruct (commit_ok (v_nextInode v) (v_nextInode v1) (v_rows v) (v_liveStats v) cs st new) as (G1 & G2 & G3); try done; try lia.
    { intros a Ha. unfold new_of in Hnew. rewrite Ha in Hnew. cbn in Hnew. unfold DefaultInodeStride in Hnew. lia. }
    { by eapply (call_chunks c vb). }
    change (v_rows vb) with (v_rows v) in ER.
    split; [|split; [|done]].
    + split; cbn; rewrite ?ER, ?EH, ?Ec; try done; unfold DefaultInodeStride; cbn; lia.
    + split; cbn; [done|lia].
Qed.

(** ** Loading *)

Lemma init_root_ok now n v :
  rows_ok n (v_rows v) -> 1 < n -> stats_ok (v_rows v) (v_liveStats v) -> vs_MaxIno (v_liveStats v) < n ->
  let w := init_root now v in
  rows_ok n (v_rows w) /\ stats_ok (v_rows w) (v_liveStats w) /\ vs_MaxIno (v_liveStats v) <= vs_MaxIno (v_liveStats w) < n.
Proof.
  intros HR Hn HS Hm. unfold init_root. destruct (r_inodes (v_rows v) !! 1) as [r|] eqn:E1; [cbn; split_and!; [done|done|lia|done]|].
  set (c := ChInsert (RInode (root_row now))). cbn [set_dirParents set_nextInode set_rows v_rows v_liveStats].
  assert (UpdateVolumeStats (v_liveStats v) (rows_get (v_rows v) (change_key c)) (change_after c) =
    Some (UpdateStatsForInodeChange (v_liveStats v) None (Some (root_row now)))) as Hu.
  { cbn [change_key c row_key root_row i_Ino rows_get]. by rewrite E1. }
  destruct (stats_max_step _ _ _ _ n Hu) as [M1 M2].
  split_and!; [| |done|].
  - apply (rows_ok_apply n n (v_rows v) [c]); [done|lia|by each; split; cbn; lia|]. apply chunks_owned_tidy; [apply HR|]. each.
    intros r. cbn. rewrite E1. done.
  - eapply (stats_step (kind_of (v_rows v) (Some (root_row now)))); [done| |split; [|done]|exact Hu].
    + intros i r Hr. unfold kind_of. rewrite Hr. split; [done|]. by eapply HR.
    + unfold kind_of. cbn [root_row i_Ino]. by rewrite E1.
  - apply M2; [|done]. intros a [= <-]. cbn. lia.
Qed.

Lemma next_from_stats h v :
  0 <= h -> Z.max (vs_MaxIno (v_liveStats v)) h + DefaultInodeStride < 2 ^ 64 -> v_nextInode v = DefaultInodeStride ->
  0 <= vs_MaxIno (v_liveStats v) ->
  vs_MaxIno (v_liveStats v) < v_nextInode (initNextInodeFromStatsLocked h v) <=
    Z.max (vs_MaxIno (v_liveStats v)) h + DefaultInodeStride.
Proof.
  intros Hh Hb Hv Hm. unfold initNextInodeFromStatsLocked. cbn [set_nextInode v_nextInode]. rewrite Hv. unfold DefaultInodeStride in *.
  set (m := Z.max _ h) in *. rewrite (u64_small (m + 8)) by (unfold is_u64; lia).
  pose proof (Z.div_mod (m + 8) 8). pose proof (Z.mod_pos_bound (m + 8) 8).
  rewrite u64_small by (unfold is_u64; lia). repeat case_match; zify_bool; lia.
Qed.

Inductive VStep : Type :=
| VCall (c : Call) (env : list reply)
| VLoad (initialized : bool) (now highestReplayedIno : Z) (env : list reply).

(** A load starts from the rows, the statistics and the blobs. *)
Definition do_step (s : VStep) (v : Volume) : result verr () * Volume :=
  match s with
  | VCall c env => run (do_call c) v env
  | VLoad initialized now high env =>
      loadFromBackendMetadataLocked initialized now high
        (NewVolume (v_cfg v) (v_rows v) (v_liveStats v) (v_lastCommitSeq v) (v_blobs v)) env
  end.

Fixpoint run_steps (l : list VStep) (v : Volume) : list (result verr ()) * Volume :=
  match l with
  | [] => ([], v)
  | s :: l => let '(r, v) := do_step s v in let '(rs, v) := run_steps l v in (r :: rs, v)
  end.

(** The numbers in replayed rows are below [n]. *)
Definition replayed_below (n : Z) (s : VStep) : Prop :=
  match s with VCall _ _ => True | VLoad _ _ high _ => 0 <= high < n end.

Lemma clean_ok n v env :
  rows_ok n (v_rows v) -> 0 < n -> stats_ok (v_rows v) (v_liveStats v) -> vs_MaxIno (v_liveStats v) < n ->
  let '(r, w) := run cleanOrphanInodesLocked v env in
  r <> Err Panic /\ rows_ok n (v_rows w) /\ stats_ok (v_rows w) (v_liveStats w) /\
  vs_MaxIno (v_liveStats v) <= vs_MaxIno (v_liveStats w) < n /\
  v_nextInode w = v_nextInode v /\ v_cfg w = v_cfg v /\ v_handles w = v_handles v.
Proof.
  intros HR Hn HS Hm. apply wp_run. eapply wp_mono; [apply (wp_clean v (ok_keyed _ _ HR) True)|].
  intros r s [Hr [[[-> _] _]|(d & st & q & e & -> & _ & Hst)]]; (split; [done|]); cbn.
  - split_and!; try done; lia.
  - specialize (Hst I). destruct (commit_ok n n (v_rows v) (v_liveStats v) _ st None HR ltac:(lia) HS Hm ltac:(done)
      (plain_known _ _ _ (plain_orphans _ _)) ltac:(apply chunks_owned_tidy; [apply HR|apply tidy_orphans; [apply HR|done]]) Hst)
      as (G1 & G2 & G3). split_and!; try done; lia.
Qed.

Lemma load_ok i now h v env n :
  vol_ok v -> v_nextInode v <= n -> 0 <= h < n -> n + DefaultInodeStride < 2 ^ 64 ->
  let '(r, w) := do_step (VLoad i now h env) v in
  vol_ok w /\ v_nextInode w <= n + DefaultInodeStride /\ vs_MaxIno (v_liveStats v) <= vs_MaxIno (v_liveStats w) /\ r <> Err Panic.
Proof.
  intros [HR Hn HS [Hm0 Hm] Hh Hi] Hv Hb Hb'. cbn [do_step]. unfold loadFromBackendMetadataLocked.
  set (v1 := if i then _ else _).
  assert (rows_ok (v_nextInode v) (v_rows v1) /\ stats_ok (v_rows v1) (v_liveStats v1) /\
    vs_MaxIno (v_liveStats v) <= vs_MaxIno (v_liveStats v1) < v_nextInode v) as (R1 & S1 & M1).
  { subst v1. destruct i; [cbn; split_and!; [done|done|lia|done]|].
    apply (init_root_ok now (v_nextInode v) (NewVolume (v_cfg v) (v_rows v) (v_liveStats v) (v_lastCommitSeq v) (v_blobs v)));
      [done|unfold DefaultInodeStride in *; lia|done|done]. }
  assert (v_nextInode v1 = DefaultInodeStride /\ v_cfg v1 = v_cfg v /\ v_handles v1 = mkHandles 0 ∅ ∅) as (N1 & C1 & H1).
  { subst v1. destruct i; [done|]. unfold init_root. cbn. by destruct (_ !! 1). }
  pose proof (clean_ok (v_nextInode v) v1 env R1 ltac:(unfold DefaultInodeStride in *; lia) S1 (proj2 M1)) as HC.
  destruct (run cleanOrphanInodesLocked v1 env) as [r w] eqn:Er. destruct HC as (Hr & R2 & S2 & M2 & N2 & C2 & H2).
  assert (match r with Err Panic => (Err Panic, w) | _ => (Ok (), initNextInodeFromStatsLocked h w) end =
    (Ok (), initNextInodeFromStatsLocked h w)) as -> by (by destruct r as [|[]]).
  pose proof (next_from_stats h w (proj1 Hb) ltac:(unfold DefaultInodeStride in *; lia) ltac:(congruence) ltac:(lia)) as Hnx.
  unfold initNextInodeFromStatsLocked in *. cbn [set_nextInode v_nextInode] in Hnx.
  split_and!; [|cbn; lia|cbn; lia|done]. split; cbn; try done.
  - destruct R2 as [HR2 HI2 HO2]. split; [done| |done]. intros j x Hx. destruct (HI2 j x Hx). split; [|done].
    assert (j <= vs_MaxIno (v_liveStats w)) by (apply S2; by rewrite Hx). lia.
  - case_match; zify_bool; lia.
  - lia.
  - rewrite H2, H1. intros fh j. cbn. by rewrite lookup_empty.
  - by rewrite C2, C1.
Qed.

(** ** Runs *)

Lemma step_ok s v n :
  vol_ok v -> v_nextInode v <= n -> replayed_below n s -> n + DefaultInodeStride < 2 ^ 64 ->
  let '(r, w) := do_step s v in
  vol_ok w /\ v_nextInode w <= n + DefaultInodeStride /\ vs_MaxIno (v_liveStats v) <= vs_MaxIno (v_liveStats w) /\ r <> Err Panic.
Proof.
  intros Hv Hn Hs Hb. destruct s as [c env|i now h env]; [|by apply load_ok]. cbn [do_step].
  assert (let '(r, w) := run (do_call c) v env in effect c v r w) as He.
  { apply wp_run, call_effect; [apply Hv|apply Hv]. }
  destruct (run (do_call c) v env) as [r w]. destruct (effect_ok c v r w Hv) as (Hw & [G1 G2] & Hr); [lia|done|].
  split_and!; [done|lia|done|done].
Qed.

Lemma run_ok l : forall v n,
  vol_ok v -> v_nextInode v <= n -> Forall (replayed_below n) l -> n + DefaultInodeStride * Z.of_nat (length l) < 2 ^ 64 ->
  let '(rs, w) := run_steps l v in
  vol_ok w /\ v_nextInode w <= n + DefaultInodeStride * Z.of_nat (length l) /\
  vs_MaxIno (v_liveStats v) <= vs_MaxIno (v_liveStats w) /\ Forall (fun r => r <> Err Panic) rs.
Proof.
  induction l as [|s l IH]; intros v n Hv Hn Hl Hb; cbn [run_steps length] in *.
  - unfold DefaultInodeStride in *. split_and!; [done|lia|lia|done].
  - inversion_clear Hl as [|? ? Hs Hl']. pose proof (step_ok s v n Hv Hn Hs) as H1.
    destruct (do_step s v) as [r v1]. destruct H1 as (V1 & N1 & M1 & P1); [unfold DefaultInodeStride in *; lia|].
    specialize (IH v1 (n + DefaultInodeStride) V1 N1). destruct (run_steps l v1) as [rs w].
    destruct IH as (V2 & N2 & M2 & P2); [|unfold DefaultInodeStride in *; lia|].
    { eapply Forall_impl; [exact Hl'|]. intros [] Hr; [done|]. cbn in *. unfold DefaultInodeStride. lia. }
    split_and!; [done|unfold DefaultInodeStride in *; lia|lia|by constructor].
Qed.

Lemma empty_ok cfg : 0 <= c_maxInlineLen cfg -> vol_ok (NewVolume cfg empty_rows zero_stats 0 ∅).
Proof.
  intros Hc. split; [|done| | |by intros fh i|done].
  - assert (forall i (r : Inode), (∅ : gmap Z Inode) !! i = Some r -> False) as Hi by (intros i r; by rewrite lookup_empty).
    assert (forall {V} i (r : V), (∅ : gmap (Z * bytes) V) !! i = Some r -> False) as Hd by (intros V i r; by rewrite lookup_empty).
    assert (forall {V} i (r : V), (∅ : gmap (Z * Z) V) !! i = Some r -> False) as Hx by (intros V i r; by rewrite lookup_empty).
    split; [unfold rows_keyed; split_and!|..].
    + intros i r E. by destruct (Hi _ _ E).
    + intros p x d E. by destruct (Hd _ _ _ E).
    + intros i x d E. by destruct (Hx _ _ _ E).
    + intros p x d E. by destruct (Hd _ _ _ E).
    + intros i r E. by destruct (Hi _ _ E).
    + intros i x [c E]. by destruct (Hx _ _ _ E).
  - split; try done. intros i Hr. change (is_Some ((∅ : gmap Z Inode) !! i)) in Hr. rewrite lookup_empty in Hr. by destruct Hr.
  - cbn. unfold DefaultInodeStride. lia.
Qed.

(** C18: no call of a volume panics.  In every run of calls and loads, under any
    failures of reads, writes, commits and waits, each operation reads every row
    before it buffers a change and has read every row it changes, so neither of
    the two panics of the transaction contract is reached. *)
Theorem calls_never_panic v n l :
  vol_ok v -> v_nextInode v <= n -> Forall (replayed_below n) l ->
  n + DefaultInodeStride * Z.of_nat (length l) < 2 ^ 64 ->
  Forall (fun r => r <> Err Panic) (fst (run_steps l v)).
Proof.
  intros Hv Hn Hl Hb. pose proof (run_ok l v n Hv Hn Hl Hb) as H. destruct (run_steps l v). apply H.
Qed.

(** C16: the live statistics of a volume are the counts of its rows.  After every
    run of calls and loads, under any failures, the numbers of files,
    directories, symlinks and other inodes, the logical bytes and the number of
    chunk rows are what a recount of the rows gives, exactly as long as the
    recount fits the 64-bit counters and modulo their wrap-around otherwise, and
    no inode has a number above the recorded maximum. *)
Theorem statistics_stay_exact v n l :
  vol_ok v -> v_nextInode v <= n -> Forall (replayed_below n) l ->
  n + DefaultInodeStride * Z.of_nat (length l) < 2 ^ 64 ->
  let w := snd (run_steps l v) in
  stats_ok (v_rows w) (v_liveStats w) /\ (counts_fit (v_rows w) -> stats_exact (v_rows w) (v_liveStats w)).
Proof.
  intros Hv Hn Hl Hb. pose proof (run_ok l v n Hv Hn Hl Hb) as H. destruct (run_steps l v).
  destruct H as [[] _]. split; [done|by apply stats_ok_exact].
Qed.

(** C35: inode numbers are not reused.  The number the allocator hands out after a
    run of calls and loads is above every number that was in use at any earlier
    point of the run, also when that inode has been removed and the volume has
    been loaded again since. *)
Theorem inode_numbers_not_reused v n l l' :
  vol_ok v -> v_nextInode v <= n -> Forall (replayed_below n) (l ++ l') ->
  n + DefaultInodeStride * Z.of_nat (length (l ++ l')) < 2 ^ 64 ->
  let w := snd (run_steps l v) in
  let w' := snd (run_steps l' w) in
  forall i, is_Some (r_inodes (v_rows w) !! i) -> i < v_nextInode w'.
Proof.
  intros Hv Hn Hl Hb w w' i Hi. apply Forall_app in Hl as [Hl Hl']. rewrite length_app in Hb. unfold DefaultInodeStride in *.
  pose proof (run_ok l v n Hv Hn Hl) as H1. subst w' w. destruct (run_steps l v) as [rs v1]. cbn [snd] in *.
  destruct H1 as (V1 & N1 & M1 & _); [unfold DefaultInodeStride; lia|]. unfold DefaultInodeStride in *.
  pose proof (run_ok l' v1 (n + 8 * Z.of_nat (length l)) V1 N1) as H2. destruct (run_steps l' v1) as [rs' v2]. cbn [snd].
  destruct H2 as (V2 & _ & M2 & _); [|unfold DefaultInodeStride; lia|].
  { eapply Forall_impl; [exact Hl'|]. intros [] Hr; [done|]. cbn in *. lia. }
  assert (i <= vs_MaxIno (v_liveStats v1)) by (by apply V1). destruct (vo_max _ V2). lia.
Qed.

(** A volume with its default configuration, and a run on it: a directory, a file
    with content, a lost connection in the middle of a rename, the removal of the
    file, a load, and another file. *)
Definition default_config : Config := mkConfig 1 4096 65536 67108864 true.
Definition empty_volume : Volume := NewVolume default_config empty_rows zero_stats 0 ∅.
Definition sample_run : list VStep :=
  [VLoad false 1 0 [];
   VCall (CMkdir 2 0 (go "docs") 0 1000 1000) [];
   VCall (CCreateFile 3 8 (go "a") 0 (go "hello") 1000 1000 0) [];
   VCall (CRename 4 8 (go "a") 1 (go "b")) [Fine 0; Fine 0; Fails];
   VCall (CUnlink 5 8 (go "a")) [];
   VLoad true 6 16 [];
   VCall (CSymlink 7 1 (go "l") (go "docs") 1000 1000) []].

Lemma sample_replayed : Forall (replayed_below 1000) sample_run.
Proof. repeat constructor; done. Qed.

Lemma calls_never_panic_witness :
  Forall (fun r => r <> Err Panic) (fst (run_steps sample_run empty_volume)) /\
  fst (run_steps sample_run empty_volume) = [Ok (); Ok (); Ok (); Err Failure; Ok (); Ok (); Ok ()].
Proof.
  split; [|vm_compute; reflexivity].
  apply (calls_never_panic empty_volume 1000 sample_run); [by apply empty_ok|done|apply sample_replayed|done].
Defined.

Lemma statistics_stay_exact_witness :
  let w := snd (run_steps sample_run empty_volume) in
  stats_exact (v_rows w) (v_liveStats w) /\ v_liveStats w = mkStats 24 0 2 1 0 0 0.
Proof.
  split; [|vm_compute; reflexivity].
  apply (statistics_stay_exact empty_volume 1000 sample_run); [by apply empty_ok|done|apply sample_replayed|done|].
  vm_compute. split_and!; done || reflexivity.
Defined.

Lemma inode_numbers_not_reused_witness :
  is_Some (r_inodes (v_rows (snd (run_steps (take 3 sample_run) empty_volume))) !! 16) /\
  16 < v_nextInode (snd (run_steps (drop 3 sample_run) (snd (run_steps (take 3 sample_run) empty_volume)))).
Proof.
  assert (is_Some (r_inodes (v_rows (snd (run_steps (take 3 sample_run) empty_volume))) !! 16)) as H by (vm_compute; by eexists).
  split; [exact H|].
  apply (inode_numbers_not_reused empty_volume 1000 (take 3 sample_run) (drop 3 sample_run)); [by apply empty_ok|done| |done|exact H].
  rewrite take_drop. apply sample_replayed.
Defined.
