(* ===== verification/VolTree.v ===== *)
(** * VolTree: the directory tree and the link counts

    The directory entries of a volume form a tree with hard links: every entry
    leads from a directory to an inode, every directory but the root has one
    entry, the link count of a file is the number of its entries, and the link
    count of a directory is two more than the number of its subdirectories.
    Every call keeps this. *)

From S2P Require Import Prelude Bytes Sha256 VolRows VolStaging VolNamespace VolLogic VolOps VolCalls VolChanges VolRuns.

#[local] Open Scope Z_scope.
#[local] Open Scope list_scope.

(** ** Counting entries *)

(** The entries that name an inode, and the entries of a directory that are
    directories. *)
Definition links (R : Rows) (i : Z) : Z := Z.of_nat (size (filter (fun kv => de_Ino kv.2 = i) (r_dirents R))).
Definition subdirs (R : Rows) (p : Z) : Z :=
  Z.of_nat (size (filter (fun kv => de_ParentIno kv.2 = p /\ de_IsDir kv.2 = true) (r_dirents R))).

Definition names (i : Z) (d : DirEntry) : Z := if bool_decide (de_Ino d = i) then 1 else 0.
Definition subdir_in (p : Z) (d : DirEntry) : Z := if bool_decide (de_ParentIno d = p /\ de_IsDir d = true) then 1 else 0.

Lemma links_weight R i : links R i = weight (names i) (r_dirents R).
Proof. symmetry. exact (weight_count (fun d => de_Ino d = i) (r_dirents R)). Qed.

Lemma subdirs_weight R p : subdirs R p = weight (subdir_in p) (r_dirents R).
Proof. symmetry. exact (weight_count (fun d => de_ParentIno d = p /\ de_IsDir d = true) (r_dirents R)). Qed.

Lemma weight_nonneg {K V} `{Countable K} (w : V -> Z) (m : gmap K V) : (forall x, 0 <= w x) -> 0 <= weight w m.
Proof.
  intros Hw. induction m as [|i a m Hi IH] using map_ind; [by rewrite weight_empty|]. rewrite weight_insert by done.
  specialize (Hw a). lia.
Qed.

Lemma weight_ge {K V} `{Countable K} (w : V -> Z) (m : gmap K V) i a : (forall x, 0 <= w x) -> m !! i = Some a -> w a <= weight w m.
Proof. intros Hw Ha. rewrite (weight_delete w m i a Ha). pose proof (weight_nonneg w (delete i m) Hw). lia. Qed.

Lemma weight_zero {K V} `{Countable K} (w : V -> Z) (m : gmap K V) :
  (forall i a, m !! i = Some a -> w a = 0) -> weight w m = 0.
Proof.
  induction m as [|i a m Hi IH] using map_ind; intros Hw; [apply weight_empty|]. rewrite weight_insert by done.
  rewrite (Hw i a) by apply lookup_insert_eq. rewrite IH; [done|]. intros j b Hb. apply (Hw j).
  rewrite lookup_insert_ne; [done|]. intros ->. congruence.
Qed.

Lemma names_nonneg i d : 0 <= names i d.
Proof. unfold names. case_bool_decide; lia. Qed.
Lemma subdir_nonneg p d : 0 <= subdir_in p d.
Proof. unfold subdir_in. case_bool_decide; lia. Qed.
#[local] Hint Resolve names_nonneg subdir_nonneg : core.

(** An inode without links has no entry. *)
Lemma links_zero R i p n d : links R i = 0 -> r_dirents R !! (p, n) = Some d -> de_Ino d <> i.
Proof.
  rewrite links_weight. intros Hl Hd <-. pose proof (weight_ge (names (de_Ino d)) _ _ _ (names_nonneg _) Hd) as Hg.
  unfold names in Hg at 1. rewrite bool_decide_eq_true_2 in Hg by done. lia.
Qed.

Lemma weight_le_size {K V} `{Countable K} (w : V -> Z) (m : gmap K V) : (forall x, w x <= 1) -> weight w m <= Z.of_nat (size m).
Proof.
  intros Hw. induction m as [|i a m Hi IH] using map_ind; [rewrite weight_empty; lia|].
  rewrite weight_insert, map_size_insert_None by done. specialize (Hw a). lia.
Qed.

Lemma subdirs_bound R p : 0 <= subdirs R p <= Z.of_nat (size (r_dirents R)).
Proof.
  rewrite subdirs_weight. split; [by apply weight_nonneg|]. apply weight_le_size. intros x. unfold subdir_in. case_bool_decide; lia.
Qed.

Lemma links_bound R i : 0 <= links R i <= Z.of_nat (size (r_dirents R)).
Proof.
  rewrite links_weight. split; [by apply weight_nonneg|]. apply weight_le_size. intros x. unfold names. case_bool_decide; lia.
Qed.

(** ** The invariant *)

Definition is_dir (R : Rows) (i : Z) : Prop := exists r, r_inodes R !! i = Some r /\ i_IsDir r = true.

Record tree (root : Z) (R : Rows) : Prop := {
  tr_keyed : rows_keyed R;
  tr_root : is_dir R root;
  (* an entry leads from a directory to another inode, not the root *)
  tr_parent : forall p n d, r_dirents R !! (p, n) = Some d -> is_dir R p /\ de_Ino d <> root /\ de_Ino d <> p;
  tr_child : forall p n d, r_dirents R !! (p, n) = Some d -> exists r, r_inodes R !! de_Ino d = Some r /\ i_IsDir r = de_IsDir d;
  (* a directory remembers its parent *)
  tr_back : forall p n d r, r_dirents R !! (p, n) = Some d -> de_IsDir d = true ->
    r_inodes R !! de_Ino d = Some r -> GetParentIno r = p;
  tr_single : forall i r, r_inodes R !! i = Some r -> i_IsDir r = true -> i <> root -> links R i = 1;
  tr_dirs : forall i r, r_inodes R !! i = Some r -> i_IsDir r = true -> i_Nlink r = 2 + subdirs R i;
  tr_files : forall i r, r_inodes R !! i = Some r -> i_IsDir r = false -> i_Nlink r = links R i
}.

(** An unused number has no entries. *)
Lemma tree_unused root R c : tree root R -> r_inodes R !! c = None ->
  links R c = 0 /\ subdirs R c = 0 /\ c <> root /\ (forall n, r_dirents R !! (c, n) = None).
Proof.
  intros HT Hc. split_and!.
  - rewrite links_weight. apply weight_zero. intros [p n] d Hd. unfold names. rewrite bool_decide_eq_false_2; [done|]. intros E.
    destruct (tr_child _ _ HT _ _ _ Hd) as (r & Hr & _). congruence.
  - rewrite subdirs_weight. apply weight_zero. intros [p n] d Hd. unfold subdir_in. rewrite bool_decide_eq_false_2; [done|]. intros [E _].
    destruct (tr_parent _ _ HT _ _ _ Hd) as ((r & Hr & _) & _). destruct (proj1 (proj2 (tr_keyed _ _ HT)) _ _ _ Hd) as (Ep & _).
    congruence.
  - intros ->. destruct (tr_root _ _ HT) as (r & Hr & _). congruence.
  - intros n. apply eq_None_not_Some. intros [d Hd]. destruct (tr_parent _ _ HT _ _ _ Hd) as ((r & Hr & _) & _). congruence.
Qed.

(** ** Changing a tree *)

(** What a change of the rows has to do to keep a tree: rows that stay keep
    their kind and move their link count with the entries; rows that go have no
    entries left; new rows and new entries fit. *)
Lemma tree_change root R R' :
  tree root R -> rows_keyed R' ->
  (forall i r, r_inodes R !! i = Some r ->
     match r_inodes R' !! i with
     | Some r' =>
         i_IsDir r' = i_IsDir r /\
         (if i_IsDir r then i_Nlink r' - i_Nlink r = subdirs R' i - subdirs R i /\ (i <> root -> links R' i = links R i)
          else i_Nlink r' - i_Nlink r = links R' i - links R i)
     | None => i <> root
     end) ->
  (forall i r', r_inodes R !! i = None -> r_inodes R' !! i = Some r' ->
     if i_IsDir r' then links R' i = 1 /\ i_Nlink r' = 2 + subdirs R' i else i_Nlink r' = links R' i) ->
  (forall p n d, r_dirents R' !! (p, n) = Some d ->
     (r_dirents R !! (p, n) = Some d /\ is_Some (r_inodes R' !! p) /\
      exists r', r_inodes R' !! de_Ino d = Some r' /\
        (forall r, de_IsDir d = true -> r_inodes R !! de_Ino d = Some r -> GetParentIno r' = GetParentIno r)) \/
     (is_dir R' p /\ de_Ino d <> root /\ de_Ino d <> p /\
      exists r', r_inodes R' !! de_Ino d = Some r' /\ i_IsDir r' = de_IsDir d /\ (de_IsDir d = true -> GetParentIno r' = p))) ->
  tree root R'.
Proof.
  intros HT HK Hold Hnew Hent.
  assert (forall i r r', r_inodes R !! i = Some r -> r_inodes R' !! i = Some r' -> i_IsDir r' = i_IsDir r) as Hdir.
  { intros i r r' Hr Hr'. specialize (Hold i r Hr). rewrite Hr' in Hold. apply Hold. }
  split.
  - done.
  - destruct (tr_root _ _ HT) as (r & Hr & Hd). specialize (Hold _ _ Hr). destruct (r_inodes R' !! root) as [r'|] eqn:E; [|done].
    exists r'. split; [done|]. destruct Hold as [-> _]. done.
  - intros p n d Hd. destruct (Hent _ _ _ Hd) as [(Hd0 & [pr' Hp] & _)|(Hp & H1 & H2 & _)]; [|done].
    destruct (tr_parent _ _ HT _ _ _ Hd0) as ((pr & Hpr & Hpd) & H1 & H2). split; [|done]. exists pr'. split; [done|].
    rewrite (Hdir _ _ _ Hpr Hp). done.
  - intros p n d Hd. destruct (Hent _ _ _ Hd) as [(Hd0 & _ & r' & Hr' & _)|(_ & _ & _ & r' & Hr' & Hi & _)]; [|by exists r'].
    destruct (tr_child _ _ HT _ _ _ Hd0) as (r & Hr & Hi). exists r'. split; [done|]. by rewrite (Hdir _ _ _ Hr Hr').
  - intros p n d r' Hd Hdd Hr'. destruct (Hent _ _ _ Hd) as [(Hd0 & _ & r1 & Hr1 & Hb)|(_ & _ & _ & r1 & Hr1 & _ & Hb)];
      rewrite Hr1 in Hr'; simplify_eq; [|by apply Hb].
    destruct (tr_child _ _ HT _ _ _ Hd0) as (r & Hr & _). rewrite (Hb r Hdd Hr). by eapply tr_back.
  - intros i r' Hr' Hdd Hne. destruct (r_inodes R !! i) as [r|] eqn:Hr.
    + pose proof (Hdir _ _ _ Hr Hr') as E. specialize (Hold i r Hr). rewrite Hr' in Hold. destruct Hold as [_ Hold].
      rewrite <- E, Hdd in Hold. rewrite (proj2 Hold Hne). eapply tr_single; [done|done|congruence|done].
    + specialize (Hnew i r' Hr Hr'). rewrite Hdd in Hnew. apply Hnew.
  - intros i r' Hr' Hdd. destruct (r_inodes R !! i) as [r|] eqn:Hr.
    + pose proof (Hdir _ _ _ Hr Hr') as E. specialize (Hold i r Hr). rewrite Hr' in Hold. destruct Hold as [_ Hold].
      rewrite <- E, Hdd in Hold. pose proof (tr_dirs _ _ HT i r Hr ltac:(congruence)). lia.
    + specialize (Hnew i r' Hr Hr'). rewrite Hdd in Hnew. apply Hnew.
  - intros i r' Hr' Hdd. destruct (r_inodes R !! i) as [r|] eqn:Hr.
    + pose proof (Hdir _ _ _ Hr Hr') as E. specialize (Hold i r Hr). rewrite Hr' in Hold. destruct Hold as [_ Hold].
      rewrite <- E, Hdd in Hold. pose proof (tr_files _ _ HT i r Hr ltac:(congruence)). lia.
    + specialize (Hnew i r' Hr Hr'). by rewrite Hdd in Hnew.
Qed.

(** Rows rewritten in place. *)
Definition same_links (r r' : Inode) : Prop :=
  i_IsDir r' = i_IsDir r /\ i_Nlink r' = i_Nlink r /\ GetParentIno r' = GetParentIno r.

Lemma same_links_refl r : same_links r r.
Proof. done. Qed.

Lemma tree_touch root R R' :
  tree root R -> rows_keyed R' -> r_dirents R' = r_dirents R ->
  (forall i r, r_inodes R !! i = Some r ->
     match r_inodes R' !! i with
     | Some r' => same_links r r'
     | None => i_IsDir r = false /\ i_Nlink r = 0
     end) ->
  (forall i, r_inodes R !! i = None -> r_inodes R' !! i = None) -> tree root R'.
Proof.
  intros HT HK HD HI HN. apply (tree_change root R); [done|done| | |].
  - intros i r Hr. specialize (HI i r Hr). destruct (r_inodes R' !! i) as [r'|].
    + destruct HI as (H1 & H2 & _). unfold links, subdirs. rewrite HD, H2. split; [done|]. case_match; [split; [lia|done]|lia].
    + intros ->. destruct (tr_root _ _ HT) as (r1 & Hr1 & Hd). simplify_eq. destruct HI. congruence.
  - intros i r' Hi Hr'. rewrite (HN i Hi) in Hr'. done.
  - intros p n d Hd. rewrite HD in Hd. left. split; [done|].
    destruct (tr_parent _ _ HT _ _ _ Hd) as ((pr & Hpr & Hpd) & _). destruct (tr_child _ _ HT _ _ _ Hd) as (r & Hr & Hi).
    split.
    + specialize (HI p pr Hpr). destruct (r_inodes R' !! p); [by eexists|]. destruct HI. congruence.
    + pose proof (HI _ _ Hr) as HI'. destruct (r_inodes R' !! de_Ino d) as [r'|].
      * exists r'. split; [done|]. intros r1 _ Hr1. simplify_eq. apply HI'.
      * destruct HI' as [Hf Hz]. rewrite (tr_files _ _ HT _ _ Hr Hf) in Hz. by destruct (links_zero _ _ _ _ _ Hz Hd).
Qed.

Lemma links_insert R R' p n d i : r_dirents R' = <[(p, n) := d]> (r_dirents R) -> r_dirents R !! (p, n) = None ->
  links R' i = links R i + names i d /\ subdirs R' i = subdirs R i + subdir_in i d.
Proof. intros HD Hn. rewrite !links_weight, !subdirs_weight, HD, !weight_insert by done. lia. Qed.

Lemma links_delete R R' p n d i : r_dirents R' = delete (p, n) (r_dirents R) -> r_dirents R !! (p, n) = Some d ->
  links R' i = links R i - names i d /\ subdirs R' i = subdirs R i - subdir_in i d.
Proof.
  intros HD Hn. rewrite !links_weight, !subdirs_weight, HD, !(weight_delete _ (r_dirents R) (p, n) d) by done. lia.
Qed.

(** Counting by cases on which inodes are the same. *)
Ltac tally_end :=
  first [ lia | (split; [lia|]; intros; lia) | (split; lia) | congruence
        | (exfalso; match goal with H : ~ (_ /\ _) |- _ => apply H; split; congruence end) ].
Ltac tally :=
  unfold names, subdir_in in *; cbn [de_Ino de_ParentIno de_IsDir] in *; repeat case_bool_decide; destruct_and?; tally_end.

(** Rows that stay where they are. *)
Definition keeps (R R' : Rows) (j : Z) : Prop :=
  forall x, r_inodes R !! j = Some x -> exists x', r_inodes R' !! j = Some x' /\ GetParentIno x' = GetParentIno x.

Lemma entry_kept root R R' p n d :
  tree root R -> r_dirents R !! (p, n) = Some d -> keeps R R' p -> keeps R R' (de_Ino d) ->
  r_dirents R !! (p, n) = Some d /\ is_Some (r_inodes R' !! p) /\
  exists r', r_inodes R' !! de_Ino d = Some r' /\
    (forall r, de_IsDir d = true -> r_inodes R !! de_Ino d = Some r -> GetParentIno r' = GetParentIno r).
Proof.
  intros HT Hd Kp Kc. split; [done|]. destruct (tr_parent _ _ HT _ _ _ Hd) as ((q & Hq & _) & _).
  destruct (tr_child _ _ HT _ _ _ Hd) as (r & Hr & _). split; [destruct (Kp _ Hq) as (x & -> & _); by eexists|].
  destruct (Kc _ Hr) as (x & Hx & Ex). exists x. split; [done|]. intros r1 _ Hr1. by simplify_eq.
Qed.

(** A new inode under a free name. *)
Lemma tree_add root R R' p n pr pr' c ch b m :
  let d := mkDirEntry p n c b m in
  i_IsDir ch = b ->
  tree root R -> rows_keyed R' ->
  r_inodes R !! p = Some pr -> i_IsDir pr = true -> r_dirents R !! (p, n) = None -> r_inodes R !! c = None ->
  r_inodes R' = <[p := pr']> (<[c := ch]> (r_inodes R)) -> r_dirents R' = <[(p, n) := d]> (r_dirents R) ->
  i_IsDir pr' = true -> GetParentIno pr' = GetParentIno pr -> i_Nlink pr' = i_Nlink pr + (if b then 1 else 0) ->
  (if b then i_Nlink ch = 2 /\ GetParentIno ch = p else i_Nlink ch = 1) -> tree root R'.
Proof.
  intros d Hb HT HK Hp Hpd Hn Hc HI HD E1 E2 E3 Ech.
  destruct (tree_unused _ _ _ HT Hc) as (L0 & S0 & Hroot & Hno). assert (c <> p) as Hcp by congruence.
  assert (forall i, links R' i = links R i + names i d /\ subdirs R' i = subdirs R i + subdir_in i d) as HL by (intros; by eapply links_insert).
  apply (tree_change root R); [done|done| | |].
  - intros i r Hr. destruct (HL i) as [-> ->]. rewrite HI. destruct (decide (i = p)) as [->|Hip].
    + rewrite lookup_insert_eq. assert (r = pr) as -> by congruence. split; [congruence|]. rewrite Hpd. unfold d. destruct b; tally.
    + rewrite lookup_insert_ne by done. destruct (decide (i = c)) as [->|Hic]; [congruence|].
      rewrite lookup_insert_ne, Hr by done. split; [done|]. unfold d. destruct (i_IsDir r); tally.
  - intros i r' Hi. destruct (HL i) as [-> ->]. rewrite HI. destruct (decide (i = p)) as [->|Hip]; [congruence|].
    rewrite lookup_insert_ne by done. destruct (decide (i = c)) as [->|Hic].
    + rewrite lookup_insert_eq. intros [= <-]. rewrite L0, S0, Hb. unfold d. destruct b; tally.
    + rewrite lookup_insert_ne by done. congruence.
  - intros p' n' d'. rewrite HD. destruct (decide ((p, n) = (p', n'))) as [E|Hne].
    + injection E as <- <-. rewrite lookup_insert_eq. intros [= <-]. right. unfold d. cbn [de_Ino de_IsDir]. split_and!; [|done|done|].
      * exists pr'. by rewrite HI, lookup_insert_eq.
      * exists ch. rewrite HI, lookup_insert_ne, lookup_insert_eq by done. split; [done|]. split; [done|]. intros ->. apply Ech.
    + rewrite lookup_insert_ne by done. intros Hd. left.
      assert (forall j, keeps R R' j) as Hkeep.
      { intros j x Hx. rewrite HI. destruct (decide (j = p)) as [->|]; [rewrite lookup_insert_eq; simplify_eq; eauto|].
        rewrite lookup_insert_ne by done. destruct (decide (j = c)) as [->|]; [congruence|]. rewrite lookup_insert_ne by done. eauto. }
      by eapply entry_kept.
Qed.

(** Another name for a file. *)
Lemma tree_link root R R' p n pr pr' c cr cr' m :
  let d := mkDirEntry p n c false m in
  tree root R -> rows_keyed R' ->
  r_inodes R !! p = Some pr -> i_IsDir pr = true -> r_dirents R !! (p, n) = None ->
  r_inodes R !! c = Some cr -> i_IsDir cr = false ->
  r_inodes R' = <[p := pr']> (<[c := cr']> (r_inodes R)) -> r_dirents R' = <[(p, n) := d]> (r_dirents R) ->
  same_links pr pr' -> i_IsDir cr' = false -> i_Nlink cr' = i_Nlink cr + 1 -> GetParentIno cr' = GetParentIno cr -> tree root R'.
Proof.
  intros d HT HK Hp Hpd Hn Hc Hcd HI HD (E1 & E2 & E3) F1 F2 F3. assert (c <> p) as Hcp by congruence.
  assert (forall i, links R' i = links R i + names i d /\ subdirs R' i = subdirs R i + subdir_in i d) as HL by (intros; by eapply links_insert).
  assert (forall i, subdirs R' i = subdirs R i) as HS.
  { intros i. destruct (HL i) as [_ ->]. unfold d. tally. }
  assert (forall j, keeps R R' j) as Hkeep.
  { intros j x Hx. rewrite HI. destruct (decide (j = p)) as [->|]; [rewrite lookup_insert_eq; simplify_eq; eauto|].
    rewrite lookup_insert_ne by done. destruct (decide (j = c)) as [->|]; [rewrite lookup_insert_eq; simplify_eq; eauto|].
    rewrite lookup_insert_ne by done. eauto. }
  apply (tree_change root R); [done|done| | |].
  - intros i r Hr. destruct (HL i) as [-> _]. rewrite HS, HI. destruct (decide (i = p)) as [->|Hip].
    + rewrite lookup_insert_eq. simplify_eq. split; [done|]. rewrite Hpd. unfold d. tally.
    + rewrite lookup_insert_ne by done. destruct (decide (i = c)) as [->|Hic].
      * rewrite lookup_insert_eq. simplify_eq. split; [congruence|]. rewrite Hcd. unfold d. tally.
      * rewrite lookup_insert_ne, Hr by done. split; [done|]. unfold d. destruct (i_IsDir r); tally.
  - intros i r' Hi. rewrite HI. destruct (decide (i = p)) as [->|Hip]; [congruence|]. rewrite lookup_insert_ne by done.
    destruct (decide (i = c)) as [->|Hic]; [congruence|]. rewrite lookup_insert_ne by done. congruence.
  - intros p' n' d'. rewrite HD. destruct (decide ((p, n) = (p', n'))) as [E|Hne].
    + simplify_eq. rewrite lookup_insert_eq. intros [= <-]. right. unfold d. cbn [de_Ino de_IsDir].
      assert (c <> root) as Hroot. { intros ->. destruct (tr_root _ _ HT) as (r & Hr & Hd). simplify_eq. congruence. }
      split_and!; [|done|done|].
      * exists pr'. rewrite HI, lookup_insert_eq. split; [done|congruence].
      * exists cr'. rewrite HI, lookup_insert_ne, lookup_insert_eq by done. done.
    + rewrite lookup_insert_ne by done. intros Hd. left. by eapply entry_kept.
Qed.

(** An entry is removed; the row of its inode goes, or loses a link. *)
Lemma tree_remove root R R' p n d pr pr' cr o b :
  i_IsDir cr = b -> tree root R -> rows_keyed R' ->
  r_dirents R !! (p, n) = Some d -> r_inodes R !! p = Some pr -> r_inodes R !! de_Ino d = Some cr ->
  r_inodes R' = <[p := pr']> (partial_alter (fun _ => o) (de_Ino d) (r_inodes R)) -> r_dirents R' = delete (p, n) (r_dirents R) ->
  i_IsDir pr' = i_IsDir pr -> GetParentIno pr' = GetParentIno pr -> i_Nlink pr' = i_Nlink pr - (if b then 1 else 0) ->
  match o with
  | Some cr' => b = false /\ i_IsDir cr' = false /\ i_Nlink cr' = i_Nlink cr - 1 /\ GetParentIno cr' = GetParentIno cr
  | None => if b then forall n, r_dirents R !! (de_Ino d, n) = None else i_Nlink cr = 1
  end -> tree root R'.
Proof.
  intros Hb HT HK Hd Hp Hc HI HD E1 E2 E3 Ho. set (c := de_Ino d) in *.
  destruct (tr_parent _ _ HT _ _ _ Hd) as ((pr0 & Hpr0 & Hpd) & Hroot & Hcp). fold c in Hroot, Hcp.
  assert (i_IsDir pr = true) as Hprd by congruence. clear pr0 Hpr0 Hpd.
  assert (de_ParentIno d = p) as Ep by (by apply (tr_keyed _ _ HT) in Hd as (? & _)).
  assert (de_IsDir d = b) as Edb by (destruct (tr_child _ _ HT _ _ _ Hd) as (r & Hr & Er); fold c in Hr; congruence).
  assert (forall i, links R' i = links R i - names i d /\ subdirs R' i = subdirs R i - subdir_in i d) as HL by (intros; by eapply links_delete).
  assert (forall i, i <> p -> i <> c -> r_inodes R' !! i = r_inodes R !! i) as Hother.
  { intros i H1 H2. rewrite HI, lookup_insert_ne, lookup_partial_alter_ne by done. done. }
  assert (r_inodes R' !! p = Some pr') as Hp' by (by rewrite HI, lookup_insert_eq).
  assert (r_inodes R' !! c = o) as Hc' by (by rewrite HI, lookup_insert_ne, lookup_partial_alter_eq by done).
  apply (tree_change root R); [done|done| | |].
  - intros i r Hr. destruct (HL i) as [-> ->]. destruct (decide (i = p)) as [->|Hip]; [|destruct (decide (i = c)) as [->|Hic]].
    + rewrite Hp'. assert (r = pr) as -> by congruence. split; [done|]. rewrite Hprd. fold c. unfold names, subdir_in. fold c.
      rewrite Ep, Edb. destruct b; repeat case_bool_decide; destruct_and?; tally_end.
    + rewrite Hc'. assert (r = cr) as -> by congruence. destruct o as [cr'|]; [|done]. destruct Ho as (-> & F1 & F2 & F3).
      split; [congruence|]. rewrite Hb. unfold names. fold c. rewrite bool_decide_eq_true_2 by done. lia.
    + rewrite (Hother i) by done. rewrite Hr. split; [done|]. unfold names, subdir_in. fold c. rewrite Ep.
      destruct (i_IsDir r); repeat case_bool_decide; destruct_and?; tally_end.
  - intros i r' Hi Hr'. destruct (decide (i = p)) as [->|Hip]; [congruence|].
    destruct (decide (i = c)) as [->|Hic]; [congruence|]. rewrite (Hother i) in Hr' by done. congruence.
  - intros p' n' d' Hd'. pose proof Hd' as Hd''. rewrite HD in Hd'. apply lookup_delete_Some in Hd' as [Hne Hd']. left.
    eapply entry_kept; [done|done|..]; intros x Hx.
    + destruct (decide (p' = p)) as [->|Hip]; [rewrite Hp'; simplify_eq; eauto|].
      destruct (decide (p' = c)) as [->|Hic]; [|rewrite (Hother p') by done; eauto].
      rewrite Hc'. destruct o as [cr'|]; [destruct Ho as (_ & _ & _ & ?); simplify_eq; eauto|]. exfalso.
      destruct (tr_parent _ _ HT _ _ _ Hd') as ((q & Hq & Hqd) & _). assert (b = true) as -> by congruence. by rewrite Ho in Hd'.
    + destruct (decide (de_Ino d' = p)) as [E|Hip]; [rewrite E, Hp' in *; simplify_eq; eauto|].
      destruct (decide (de_Ino d' = c)) as [E|Hic]; [|rewrite (Hother _) by done; eauto].
      rewrite E, Hc' in *. destruct o as [cr'|]; [destruct Ho as (_ & _ & _ & ?); simplify_eq; eauto|]. exfalso.
      assert (links R c = 1) as Hl.
      { destruct b; [by eapply tr_single; [exact HT|exact Hc|congruence|done]|]. rewrite <- Ho. symmetry. by eapply tr_files. }
      destruct (HL c) as [HLc _]. unfold names in HLc. fold c in HLc. rewrite bool_decide_eq_true_2 in HLc by done.
      eapply (links_zero R' c); [lia|exact Hd''|done].
Qed.

Lemma tree_one_entry root R k k' d d' :
  tree root R -> r_dirents R !! k = Some d -> r_dirents R !! k' = Some d' -> de_Ino d = de_Ino d' -> de_IsDir d = true -> k = k'.
Proof.
  intros HT Hd Hd' E Hdir. destruct (decide (k = k')) as [|Hne]; [done|]. exfalso. destruct k as [p n], k' as [p' n'].
  destruct (tr_child _ _ HT _ _ _ Hd) as (r & Hr & Er). destruct (tr_parent _ _ HT _ _ _ Hd) as (_ & Hroot & _).
  pose proof (tr_single _ _ HT _ _ Hr ltac:(congruence) Hroot) as Hl. rewrite links_weight, (weight_delete _ _ _ _ Hd) in Hl.
  pose proof (weight_ge (names (de_Ino d)) (delete (p, n) (r_dirents R)) (p', n') d' (names_nonneg _)) as Hg.
  rewrite lookup_delete_ne in Hg by done. specialize (Hg Hd'). unfold names in Hl at 1, Hg at 1.
  rewrite bool_decide_eq_true_2 in Hl by done. rewrite bool_decide_eq_true_2 in Hg by done. lia.
Qed.

(** An entry is moved to a free name. *)
Lemma tree_move root R R' op on np nn d b m :
  let c := de_Ino d in
  let d' := mkDirEntry np nn c b m in
  tree root R -> rows_keyed R' -> de_IsDir d = b ->
  r_dirents R !! (op, on) = Some d -> r_dirents R !! (np, nn) = None -> is_dir R np -> c <> np ->
  r_dirents R' = <[(np, nn) := d']> (delete (op, on) (r_dirents R)) ->
  (forall i x, r_inodes R !! i = Some x -> exists x', r_inodes R' !! i = Some x' /\ i_IsDir x' = i_IsDir x /\
     (if b && bool_decide (i = c) then GetParentIno x' = np else GetParentIno x' = GetParentIno x) /\
     i_Nlink x' = i_Nlink x - (if b && bool_decide (i = op) then 1 else 0) + (if b && bool_decide (i = np) then 1 else 0)) ->
  (forall i, r_inodes R !! i = None -> r_inodes R' !! i = None) -> tree root R'.
Proof.
  intros c d' HT HK Hb Hd Hn Hnp Hcn HD HI HN.
  assert (de_ParentIno d = op) as Ep by (by apply (tr_keyed _ _ HT) in Hd as (? & _)).
  destruct (tr_parent _ _ HT _ _ _ Hd) as (_ & Hroot & _). fold c in Hroot.
  assert (forall i, links R' i = links R i /\ subdirs R' i = subdirs R i - subdir_in i d + subdir_in i d') as HL.
  { intros i. rewrite !links_weight, !subdirs_weight, HD.
    rewrite !weight_insert by (rewrite lookup_delete_ne; [done|congruence]). rewrite !(weight_delete _ (r_dirents R) (op, on) d) by done.
    unfold names at 1 3. cbn [d' de_Ino]. fold c. lia. }
  apply (tree_change root R); [done|done| | |].
  - intros i r Hr. destruct (HI i r Hr) as (x' & -> & F1 & F2 & F3). destruct (HL i) as [-> ->]. split; [done|]. rewrite F3.
    unfold subdir_in, d'. cbn [de_ParentIno de_IsDir]. rewrite Ep, Hb. destruct (i_IsDir r) eqn:Er.
    + destruct b; cbn [andb]; repeat case_bool_decide; destruct_and?; tally_end.
    + destruct b; cbn [andb]; repeat case_bool_decide; subst; try lia; exfalso.
      * destruct (tr_parent _ _ HT _ _ _ Hd) as ((q & Hq & Hqd) & _). simplify_eq. congruence.
      * destruct (tr_parent _ _ HT _ _ _ Hd) as ((q & Hq & Hqd) & _). simplify_eq. congruence.
      * destruct Hnp as (q & Hq & Hqd). simplify_eq. congruence.
  - intros i r' Hi Hr'. rewrite (HN i Hi) in Hr'. done.
  - intros p' n' e'. rewrite HD. destruct (decide ((np, nn) = (p', n'))) as [E|Hne].
    + injection E as <- <-. rewrite lookup_insert_eq. intros [= <-]. right. cbn [d' de_Ino de_IsDir]. split_and!; [|done|done|].
      * destruct Hnp as (q & Hq & Hqd). destruct (HI _ _ Hq) as (x' & Hx' & F1 & _). exists x'. split; [done|congruence].
      * destruct (tr_child _ _ HT _ _ _ Hd) as (r & Hr & Er). destruct (HI _ _ Hr) as (x' & Hx' & F1 & F2 & _).
        exists x'. split; [done|]. split; [congruence|]. intros ->. fold c in F2. rewrite bool_decide_eq_true_2 in F2 by done. done.
    + rewrite lookup_insert_ne by done. intros [Hno He]%lookup_delete_Some. left. split; [done|].
      destruct (tr_parent _ _ HT _ _ _ He) as ((q & Hq & _) & _). destruct (tr_child _ _ HT _ _ _ He) as (r & Hr & Er).
      split; [destruct (HI _ _ Hq) as (x' & -> & _); by eexists|]. destruct (HI _ _ Hr) as (x' & Hx' & _ & F2 & _). exists x'. split; [done|].
      intros r1 Hdir Hr1. assert (r1 = r) as -> by congruence. case_match eqn:Eb; [|done]. exfalso. apply Hno.
      apply andb_true_iff in Eb as [-> Ec%bool_decide_eq_true_1]. by eapply tree_one_entry.
Qed.

(** ** The tables after the changes of a call *)

Lemma apply_app R cs cs' : ApplyChanges R (cs ++ cs') = ApplyChanges (ApplyChanges R cs) cs'.
Proof. apply foldl_app. Qed.

Lemma inodes_same R cs : Forall (fun c => forall i, change_key c <> KInode i) cs -> r_inodes (ApplyChanges R cs) = r_inodes R.
Proof.
  intros Hc. apply map_eq. intros i. rewrite inodes_written, written_other; [done|]. eapply Forall_impl; [exact Hc|]. intros c H. apply H.
Qed.

Lemma dirents_same R cs : Forall (fun c => forall p n, change_key c <> KDirEntry p n) cs -> r_dirents (ApplyChanges R cs) = r_dirents R.
Proof.
  intros Hc. apply map_eq. intros [p n]. rewrite dirents_written, written_other; [done|]. eapply Forall_impl; [exact Hc|]. intros c H. apply H.
Qed.

(** Changes of chunk and attribute rows. *)
Definition side (c : change) : Prop := match change_key c with KFileChunk _ _ | KXAttr _ _ => True | _ => False end.

Lemma side_same R cs : Forall side cs ->
  r_inodes (ApplyChanges R cs) = r_inodes R /\ r_dirents (ApplyChanges R cs) = r_dirents R.
Proof.
  intros Hc. split; [apply inodes_same|apply dirents_same]; (eapply Forall_impl; [exact Hc|]); intros c Hs; unfold side in Hs;
    by destruct (change_key c).
Qed.

Lemma side_chunks R i : Forall side (chunk_deletes R i).
Proof. apply Forall_fmap, Forall_true. done. Qed.

Lemma under_side i c : under (PFileChunk i) (change_key c) = true -> side c.
Proof. unfold side. by destruct (change_key c). Qed.

Lemma side_insert v ino cs data : Forall side (insert_changes v ino cs data).
Proof. apply Forall_forall. intros c Hc. by eapply under_side, insert_changes_keys. Qed.

Lemma side_replace v ino cs data : Forall side (replace_changes v ino cs data).
Proof. apply Forall_forall. intros c Hc. by eapply under_side, replace_changes_keys. Qed.

Lemma inode_deletes_tables R R0 i :
  r_inodes (ApplyChanges R (inode_deletes R0 i)) = delete i (r_inodes R) /\ r_dirents (ApplyChanges R (inode_deletes R0 i)) = r_dirents R.
Proof.
  unfold inode_deletes. change (?c :: ?l) with ([c] ++ l). rewrite apply_app.
  destruct (side_same (ApplyChanges R [ChDelete (KInode i)]) (chunk_deletes R0 i ++ xattr_deletes R0 i)) as [-> ->]; [|done].
  apply Forall_app. split; [apply side_chunks|]. apply Forall_fmap, Forall_true. done.
Qed.

Lemma removed_tables R p n r :
  r_inodes (ApplyChanges R [ChDelete (KDirEntry p n); ChUpdate (RInode r)]) = <[i_Ino r := r]> (r_inodes R) /\
  r_dirents (ApplyChanges R [ChDelete (KDirEntry p n); ChUpdate (RInode r)]) = delete (p, n) (r_dirents R).
Proof. done. Qed.

(** ** The calls *)

(** What a call needs to keep the tree: room for one more link; for [Link], a
    file that still has a name; for [Rename], a target that is another inode,
    and a target directory in another directory than the source. *)
Definition call_fits (c : Call) (v : Volume) : Prop :=
  Z.of_nat (size (r_dirents (v_rows v))) + 3 < 2 ^ 32 /\
  match c with
  | CLink _ i _ _ => forall r, r_inodes (v_rows v) !! norm v i = Some r -> i_Nlink r <> 0
  | CRename _ op on np nn =>
      forall od td, r_dirents (v_rows v) !! (norm v op, on) = Some od -> r_dirents (v_rows v) !! (norm v np, nn) = Some td ->
        de_Ino od <> de_Ino td /\ (de_IsDir td = true -> norm v np <> norm v op)
  | _ => True
  end.

Lemma gain_links root R p pr :
  tree root R -> r_inodes R !! p = Some pr -> i_IsDir pr = true -> Z.of_nat (size (r_dirents R)) + 3 < 2 ^ 32 ->
  i_Nlink (gain_subdir pr) = i_Nlink pr + 1.
Proof.
  intros HT Hp Hd Hs. pose proof (tr_dirs _ _ HT _ _ Hp Hd) as Hn. pose proof (subdirs_bound R p).
  unfold gain_subdir. cbn [with_nlink i_Nlink]. destruct (i_Nlink pr <? 2) eqn:E; [zify_bool; lia|]. apply u32_small. unfold is_u32. lia.
Qed.

Lemma lose_links root R p n d pr :
  tree root R -> r_dirents R !! (p, n) = Some d -> de_IsDir d = true -> r_inodes R !! p = Some pr ->
  i_Nlink (lose_subdir pr) = i_Nlink pr - 1.
Proof.
  intros HT Hd Hdir Hp. destruct (tr_parent _ _ HT _ _ _ Hd) as ((q & Hq & Hqd) & _). simplify_eq.
  pose proof (tr_dirs _ _ HT _ _ Hp Hqd) as Hn. rewrite subdirs_weight in Hn.
  pose proof (weight_ge (subdir_in p) _ _ _ (subdir_nonneg p) Hd) as Hg. unfold subdir_in in Hg at 1.
  rewrite bool_decide_eq_true_2 in Hg by (split; [by apply (tr_keyed _ _ HT) in Hd as (? & _)|done]).
  unfold lose_subdir. destruct (i_Nlink pr >? 2) eqn:E; [done|]. zify_bool. lia.
Qed.

Lemma unlinked_links now root R p n d cr :
  tree root R -> r_dirents R !! (p, n) = Some d -> r_inodes R !! de_Ino d = Some cr -> i_IsDir cr = false ->
  i_Nlink (unlinked_row now cr) = i_Nlink cr - 1 /\ 1 <= i_Nlink cr.
Proof.
  intros HT Hd Hc Hf. assert (1 <= i_Nlink cr) as Hl.
  { rewrite (tr_files _ _ HT _ _ Hc Hf), links_weight. pose proof (weight_ge (names (de_Ino d)) _ _ _ (names_nonneg _) Hd) as Hg.
    unfold names in Hg at 1. rewrite bool_decide_eq_true_2 in Hg by done. done. }
  split; [|done]. cbn. destruct (i_Nlink cr >? 1) eqn:E; [done|]. zify_bool. lia.
Qed.

Lemma lose_same pr : i_IsDir (lose_subdir pr) = i_IsDir pr /\ GetParentIno (lose_subdir pr) = GetParentIno pr.
Proof. unfold lose_subdir. by case_match. Qed.

Section calls.
Context (root : Z) (v0 v : Volume) (HT : tree root (v_rows v0)) (Hok : rows_ok (v_nextInode v0) (v_rows v0)).

Lemma next_none : r_inodes (v_rows v0) !! v_nextInode v0 = None.
Proof. apply (rows_ok_fit v0 Hok). Qed.

Lemma ino_of i r : r_inodes (v_rows v0) !! i = Some r -> i_Ino r = i.
Proof. apply HT. Qed.

(** One row rewritten in place. *)
Lemma touch_one cs i r r' :
  rows_keyed (ApplyChanges (v_rows v0) cs) -> r_inodes (v_rows v0) !! i = Some r -> same_links r r' ->
  r_inodes (ApplyChanges (v_rows v0) cs) = <[i := r']> (r_inodes (v_rows v0)) ->
  r_dirents (ApplyChanges (v_rows v0) cs) = r_dirents (v_rows v0) -> tree root (ApplyChanges (v_rows v0) cs).
Proof.
  intros HK Hr Hs HI HD. eapply tree_touch; [exact HT|done|done|..]; intros j; rewrite HI.
  - intros x Hx. destruct (decide (i = j)) as [<-|Hne]; [rewrite lookup_insert_eq; by simplify_eq|].
    rewrite lookup_insert_ne, Hx by done. apply same_links_refl.
  - intros Hx. rewrite lookup_insert_ne; [done|congruence].
Qed.

Lemma tree_attrs c cs :
  rows_keyed (ApplyChanges (v_rows v0) cs) -> call_changes c v0 v cs ->
  match c with CSetAttr _ _ _ | CSetXAttr _ _ _ _ _ | CRemoveXAttr _ _ _ => True | _ => False end ->
  tree root (ApplyChanges (v_rows v0) cs).
Proof.
  intros HK HC Hm. destruct c; try done; cbn [call_changes] in HC.
  - destruct HC as (r & Hr & _ & _ & ->). eapply (touch_one _ _ r (set_attrs_row now a r)); [done|exact Hr|done| |done]. cbn. by rewrite (ino_of _ _ Hr).
  - destruct HC as (r & Hr & _ & _ & ->). set (b := bool_decide _) in *.
    eapply (touch_one _ _ r (xattr_added now b r)); [done|exact Hr|by destruct b| |]; destruct b; cbn; try done; by rewrite (ino_of _ _ Hr).
  - destruct HC as (r & Hr & _ & _ & _ & ->). eapply (touch_one _ _ r (xattr_removed now r)); [done|exact Hr| | |done].
    + unfold xattr_removed. by case_match.
    + cbn [ApplyChanges foldl apply_change change_key change_after rows_set row_key r_inodes as_inode]. by rewrite xattr_removed_ino, (ino_of _ _ Hr).
Qed.

Lemma tree_create c cs :
  rows_keyed (ApplyChanges (v_rows v0) cs) -> call_changes c v0 v cs -> call_fits c v0 ->
  match c with CMkdir _ _ _ _ _ _ | CSymlink _ _ _ _ _ _ | CLink _ _ _ _ | CCreateFile _ _ _ _ _ _ _ _ => True | _ => False end ->
  tree root (ApplyChanges (v_rows v0) cs).
Proof.
  intros HK HC [Hsz Hfit] Hm. destruct c; try done; cbn [call_changes] in HC.
  - destruct HC as (pr & m & u & g & (Hp & Hpd & Hn & _) & _ & _ & _ & ->).
    match goal with |- context [ChInsert (RInode ?ch)] =>
      eapply (tree_add root (v_rows v0) _ (norm v0 parent) name pr (with_mctime now (gain_subdir pr)) (v_nextInode v0) ch true m eq_refl) end;
      try done; [apply next_none|cbn; by rewrite (ino_of _ _ Hp)|by eapply gain_links].
  - destruct HC as (pr & u & g & (Hp & Hpd & Hn & _) & _ & _ & ->).
    match goal with |- context [ChInsert (RInode ?ch)] =>
      eapply (tree_add root (v_rows v0) _ (norm v0 parent) name pr (with_mctime now pr) (v_nextInode v0) ch false _ eq_refl) end;
      try done; [apply next_none|cbn; by rewrite (ino_of _ _ Hp)|cbn; lia].
  - destruct HC as (pr & cr & (Hp & Hpd & Hn & _) & Hc & Hcd & _ & _ & ->).
    assert (i_Nlink (linked_row now cr) = i_Nlink cr + 1) as Hl.
    { specialize (Hfit _ Hc). pose proof (tr_files _ _ HT _ _ Hc Hcd). pose proof (links_bound (v_rows v0) (norm v0 old)).
      cbn. destruct (i_Nlink cr =? 0) eqn:E; [zify_bool; lia|]. apply u32_small. unfold is_u32. lia. }
    rewrite (ino_of _ _ Hc) in *.
    eapply (tree_link root (v_rows v0) _ (norm v0 parent) name pr (with_mctime now pr) (norm v0 old) cr (linked_row now cr) _);
      try done; cbn; rewrite (ino_of _ _ Hp), (ino_of _ _ Hc); done.
  - destruct HC as [HC|HC].
    + destruct HC as (pr & m & u & g & rd & h & (Hp & Hpd & Hn & _) & _ & _ & _ & _ & ->).
      set (rows := if Z.land m S_IFMT =? S_IFREG then insert_changes _ _ _ _ else []) in *.
      assert (Forall side rows) as Hs by (subst rows; case_match; [apply side_insert|apply Forall_nil; exact I]).
      rewrite apply_app in *. destruct (side_same (v_rows v0) rows Hs) as [EI ED].
      match goal with |- context [ChInsert (RInode ?ch)] =>
        eapply (tree_add root (v_rows v0) _ (norm v0 parent) name pr (with_mctime now pr) (v_nextInode v0) ch false _ eq_refl) end;
        try done; [apply next_none| | |cbn; lia].
      * rewrite <- EI. cbn. by rewrite (ino_of _ _ Hp).
      * rewrite <- ED. done.
    + destruct HC as (pr & de & cr & m & u & g & h & Hp & Hpd & _ & Hc & Hd & _ & _ & _ & _ & _ & ->).
      rewrite apply_app in *. destruct (side_same (v_rows v0) _ (side_replace v0 (i_Ino cr) (effective_chunk_size (v_cfg v0) (i_ChunkSize cr)) content)) as [EI ED].
      set (Rc := ApplyChanges (v_rows v0) _) in *. set (cr' := overwrite_row _ _ _ _ _ _ _ _ _) in *.
      assert (r_inodes (ApplyChanges Rc [ChUpdate (RInode cr'); ChUpdate (RInode (with_mctime now pr))]) =
        <[norm v0 parent := with_mctime now pr]> (<[de_Ino de := cr']> (r_inodes (v_rows v0)))) as HI.
      { rewrite <- EI, <- (ino_of _ _ Hp), <- (ino_of _ _ Hc). done. }
      eapply tree_touch; [exact HT|done|by rewrite <- ED|..]; intros j; rewrite HI.
      * intros x Hx. destruct (decide (norm v0 parent = j)) as [<-|Hne]; [rewrite lookup_insert_eq; by simplify_eq|].
        rewrite lookup_insert_ne by done. destruct (decide (de_Ino de = j)) as [<-|Hne2]; [rewrite lookup_insert_eq; by simplify_eq|].
        rewrite lookup_insert_ne, Hx by done. apply same_links_refl.
      * intros Hx. rewrite !lookup_insert_ne; [done|congruence|congruence].
Qed.
Lemma tree_delete c cs :
  rows_keyed (ApplyChanges (v_rows v0) cs) -> call_changes c v0 v cs ->
  match c with CUnlink _ _ _ | CRmdir _ _ _ | CRelease _ _ | CCleanOrphans => True | _ => False end ->
  tree root (ApplyChanges (v_rows v0) cs).
Proof.
  intros HK HC Hm. destruct c; try done; cbn [call_changes] in HC.
  - destruct HC as (de & Hde & Hfile & de' & cr & pr & Hde' & Hc & Hp & _ & _ & ->). assert (de' = de) as -> by congruence.
    specialize (Hfile _ Hc). destruct (unlinked_links now _ _ _ _ _ _ HT Hde Hc Hfile) as [Hl Hl1].
    rewrite apply_app in *. set (Rc := ApplyChanges (v_rows v0) _) in *.
    destruct (removed_tables Rc (norm v0 parent) name (with_mctime now pr)) as [EI ED].
    change (i_Ino (with_mctime now pr)) with (i_Ino pr) in EI. rewrite (ino_of _ _ Hp) in EI.
    destruct ((i_Nlink (unlinked_row now cr) =? 0) && negb (hasOpenHandlesLocked v0 (de_Ino de))) eqn:Ez.
    + destruct (inode_deletes_tables (v_rows v0) (v_rows v0) (de_Ino de)) as [EI' ED']. fold Rc in EI', ED'. rewrite EI' in EI. rewrite ED' in ED.
      eapply (tree_remove root (v_rows v0) _ _ _ _ pr (with_mctime now pr) cr None false); try done; [cbn; lia|]. zify_bool. lia.
    + assert (r_inodes Rc = <[de_Ino de := unlinked_row now cr]> (r_inodes (v_rows v0))) as EI' by (rewrite <- (ino_of _ _ Hc); done).
      rewrite EI' in EI.
      eapply (tree_remove root (v_rows v0) _ _ _ _ pr (with_mctime now pr) cr (Some (unlinked_row now cr)) false); try done; cbn; lia.
  - destruct HC as (de & cr & pr & Hde & Hc & Hd & Hempty & Hp & _ & _ & ->). rewrite apply_app in *.
    destruct (inode_deletes_tables (v_rows v0) (v_rows v0) (de_Ino de)) as [EI ED].
    assert (de_IsDir de = true) as Hdd by (destruct (tr_child _ _ HT _ _ _ Hde) as (r & Hr & Er); congruence).
    destruct (lose_same pr) as [L1 L2]. pose proof (lose_links _ _ _ _ _ _ HT Hde Hdd Hp) as L3.
    assert (i_Ino (lose_subdir pr) = norm v0 parent) as L4 by (rewrite <- (ino_of _ _ Hp); by apply ino_lose).
    destruct (removed_tables (ApplyChanges (v_rows v0) (inode_deletes (v_rows v0) (de_Ino de))) (norm v0 parent) name
      (with_mctime now (lose_subdir pr))) as [EI' ED']. change (i_Ino (with_mctime now (lose_subdir pr))) with (i_Ino (lose_subdir pr)) in EI'.
    rewrite EI, L4 in EI'. rewrite ED in ED'.
    eapply (tree_remove root (v_rows v0) _ _ _ _ pr (with_mctime now (lose_subdir pr)) cr None true); try done.
    intros n. apply eq_None_not_Some. intros [x Hx].
    destruct (scan_complete (v_rows v0) (PDirEntry (de_Ino de)) (KDirEntry (de_Ino de) n) (RDirEntry x) (tr_keyed _ _ HT)) as [Hin _];
      [apply Z.eqb_refl|cbn; by rewrite Hx|]. rewrite Hempty in Hin. by apply elem_of_nil in Hin.
  - destruct HC as (i & r & Hr & Hd & Hz & _ & _ & _ & ->). destruct (inode_deletes_tables (v_rows v0) (v_rows v0) i) as [EI ED].
    eapply tree_touch; [exact HT|done|done|..]; intros j; rewrite EI.
    + intros x Hx. destruct (decide (i = j)) as [<-|Hne]; [rewrite lookup_delete_eq; by simplify_eq|].
      rewrite lookup_delete_ne, Hx by done. apply same_links_refl.
    + intros Hx. apply lookup_delete_None. by right.
  - destruct HC as (_ & _ & ->). set (cs := orphans _ ≫= _) in *.
    assert (forall c, c ∈ cs -> change_after c = None /\ (forall p n, change_key c <> KDirEntry p n) /\
      (forall i, change_key c = KInode i -> i ∈ orphans (v_rows v0))) as Hcs.
    { intros c Hc. apply list_elem_of_bind in Hc as (i & Hc & Hi). apply elem_of_cons in Hc as [->|Hc]; [naive_solver|].
      apply list_elem_of_fmap in Hc as (x & -> & _). done. }
    eapply tree_touch; [exact HT|done|apply dirents_same, Forall_forall; intros c Hc; by apply Hcs|..]; intros j; rewrite inodes_written;
      (destruct (written cs (KInode j)) as [o|] eqn:Ew; [apply written_Some in Ew as (c & Hc & Hk & <-); destruct (Hcs _ Hc) as (-> & _ & Ho)|]);
      cbn; try done.
    + intros x Hx. specialize (Ho _ Hk). unfold orphans in Ho. apply list_elem_of_fmap in Ho as (r & Ej & Hr).
      apply list_elem_of_filter in Hr as [Hor Hr]. apply list_elem_of_omap in Hr as (m & Hmm & Er).
      apply (scan_present (v_rows v0) PInodes (tr_keyed _ _ HT)) in Hmm. destruct m as [r'| | |]; simplify_eq/=.
      rewrite Hx in Hmm. simplify_eq/=. unfold is_orphan in Hor. zify_bool. naive_solver.
    + intros x Hx. rewrite Hx. apply same_links_refl.
Qed.

(** The last writes of a rename, on rows [Rc] where the target is gone. *)
Lemma moved_tables Rc op np nn c b m child opr npr :
  i_Ino child = c -> i_Ino opr = op -> i_Ino npr = np ->
  let R' := ApplyChanges Rc ([ChInsert (RDirEntry (mkDirEntry np nn c b m)); ChUpdate (RInode child); ChUpdate (RInode opr)] ++
              (if np =? op then [] else [ChUpdate (RInode npr)])) in
  r_dirents R' = <[(np, nn) := mkDirEntry np nn c b m]> (r_dirents Rc) /\
  (forall i, r_inodes R' !! i = if bool_decide (i = np) && negb (np =? op) then Some npr
                               else if bool_decide (i = op) then Some opr
                               else if bool_decide (i = c) then Some child else r_inodes Rc !! i).
Proof.
  intros <- <- <- R'. split; [unfold R'; by destruct (_ =? _)|]. intros i. unfold R'.
  destruct (_ =? _); cbn [negb]; rewrite ?andb_false_r, ?andb_true_r; cbn;
    rewrite !lookup_partial_alter; repeat case_decide; repeat case_bool_decide; congruence.
Qed.

Lemma with_parent_same b np cr : GetParentIno (if b : bool then with_parent np cr else cr) = if b then np else GetParentIno cr.
Proof. by destruct b. Qed.

(** Rename to a free name. *)
Lemma tree_rename_free now op on np nn od cr opr npr cs :
  rows_keyed (ApplyChanges (v_rows v0) cs) -> Z.of_nat (size (r_dirents (v_rows v0))) + 3 < 2 ^ 32 ->
  r_dirents (v_rows v0) !! (op, on) = Some od -> r_inodes (v_rows v0) !! de_Ino od = Some cr ->
  r_inodes (v_rows v0) !! op = Some opr -> r_inodes (v_rows v0) !! np = Some npr -> i_IsDir npr = true ->
  r_dirents (v_rows v0) !! (np, nn) = None -> de_Ino od <> np ->
  let b := i_IsDir cr in
  let moves := b && negb (np =? op) in
  cs = ChDelete (KDirEntry op on) :: [ChInsert (RDirEntry (mkDirEntry np nn (de_Ino od) b (i_Mode cr)));
         ChUpdate (RInode (with_ctime now (if b then with_parent np cr else cr)));
         ChUpdate (RInode (with_mctime now (if moves then lose_subdir opr else opr)))] ++
       (if np =? op then [] else [ChUpdate (RInode (with_mctime now (if moves then gain_subdir npr else npr)))]) ->
  tree root (ApplyChanges (v_rows v0) cs).
Proof.
  intros HK Hsz Hod Hcr Hop Hnp Hnd Hfree Hcn b moves ->.
  assert (de_IsDir od = b) as Hdb by (destruct (tr_child _ _ HT _ _ _ Hod) as (r & Hr & Er); unfold b; congruence).
  destruct (tr_parent _ _ HT _ _ _ Hod) as (_ & Hroot & Hcop).
  set (Rc := apply_change (v_rows v0) (ChDelete (KDirEntry op on))).
  destruct (moved_tables Rc op np nn (de_Ino od) b (i_Mode cr) (with_ctime now (if b then with_parent np cr else cr))
    (with_mctime now (if moves then lose_subdir opr else opr)) (with_mctime now (if moves then gain_subdir npr else npr))) as [ED EI].
  { rewrite <- (ino_of _ _ Hcr). by destruct b. }
  { rewrite <- (ino_of _ _ Hop). destruct moves; [|done]. apply (ino_lose opr). }
  { rewrite <- (ino_of _ _ Hnp). by destruct moves. }
  eapply (tree_move root (v_rows v0) _ op on np nn od b (i_Mode cr) HT); try done.
  { by exists npr. }
  - intros i x Hx. change (ApplyChanges _ (_ :: ?l)) with (ApplyChanges Rc l). rewrite EI. change (r_inodes Rc) with (r_inodes (v_rows v0)).
    destruct (lose_same opr) as [L1 L2].
    destruct (decide (i = np)) as [->|Hin]; [|destruct (decide (i = op)) as [->|Hio]; [|destruct (decide (i = de_Ino od)) as [->|Hic]]].
    + assert (x = npr) as -> by congruence. rewrite (bool_decide_eq_true_2 (np = np)), (bool_decide_eq_false_2 (np = de_Ino od)) by congruence.
      rewrite andb_false_r, andb_true_r. cbn [andb]. destruct (np =? op) eqn:E; cbn [negb andb].
      * assert (np = op) as -> by lia. assert (opr = npr) as -> by congruence. rewrite !bool_decide_eq_true_2 by done.
        eexists. split; [done|]. unfold moves. rewrite andb_false_r. split_and!; [done|done|]. cbn. destruct b; cbn; lia.
      * rewrite (bool_decide_eq_false_2 (np = op)) by lia. eexists. split; [done|]. unfold moves. rewrite andb_true_r, andb_false_r.
        split_and!; [by destruct b|by destruct b|]. destruct b; [|cbn; lia]. pose proof (gain_links _ _ _ _ HT Hnp Hnd Hsz) as G. cbn in *. lia.
    + assert (x = opr) as -> by congruence. rewrite (bool_decide_eq_false_2 (op = np)), (bool_decide_eq_true_2 (op = op)) by congruence.
      rewrite (bool_decide_eq_false_2 (op = de_Ino od)) by congruence. rewrite !andb_false_r, andb_true_r. cbn [andb].
      eexists. split; [done|]. unfold moves. rewrite (proj2 (Z.eqb_neq np op)) by congruence. cbn [negb]. rewrite andb_true_r.
      destruct b; [|cbn; split_and!; [done|done|lia]]. pose proof (lose_links _ _ _ _ _ _ HT Hod Hdb Hop) as G.
      split_and!; [done|done|]. cbn in *. lia.
    + assert (x = cr) as -> by congruence. rewrite (bool_decide_eq_false_2 (de_Ino od = np)), (bool_decide_eq_false_2 (de_Ino od = op)),
        (bool_decide_eq_true_2 (de_Ino od = de_Ino od)) by congruence. rewrite !andb_false_r, andb_true_r. cbn [andb].
      eexists. split; [done|]. destruct b eqn:Eb; (split_and!; [done|done|cbn; lia]).
    + rewrite !bool_decide_eq_false_2 by congruence. rewrite !andb_false_r. cbn [andb]. exists x. split_and!; [done|done|done|lia].
  - intros i Hi. change (ApplyChanges _ (_ :: ?l)) with (ApplyChanges Rc l). rewrite EI. change (r_inodes Rc) with (r_inodes (v_rows v0)).
    rewrite !bool_decide_eq_false_2 by congruence. done.
Qed.

(** The row of a replaced inode. *)
Definition target_row (now : Z) (t : Z) (tr : Inode) : option Inode :=
  if i_IsDir tr then None
  else if (i_Nlink tr <=? 1) && negb (hasOpenHandlesLocked v0 t) then None else Some (unlinked_row now tr).

Lemma target_tables now np nn td tr R :
  i_Ino tr = de_Ino td ->
  r_inodes (ApplyChanges R (target_changes v0 now np nn (Some (td, tr)))) =
    partial_alter (fun _ => target_row now (de_Ino td) tr) (de_Ino td) (r_inodes R) /\
  r_dirents (ApplyChanges R (target_changes v0 now np nn (Some (td, tr)))) = delete (np, nn) (r_dirents R).
Proof.
  intros Hi. unfold target_changes, target_row. destruct (i_IsDir tr); [done|]. destruct (i_Nlink tr <=? 1); cbn [andb].
  - destruct (hasOpenHandlesLocked v0 (de_Ino td)); cbn [negb]; [by rewrite <- Hi|].
    change (?c1 :: ?c2 :: ?l) with ([c1; c2] ++ l). rewrite apply_app.
    destruct (side_same (ApplyChanges R [ChDelete (KDirEntry np nn); ChDelete (KInode (de_Ino td))]) (chunk_deletes (v_rows v0) (de_Ino td)))
      as [-> ->]; [apply side_chunks|done].
  - by rewrite <- Hi.
Qed.

(** The rows once the target has lost its entry, with the link count of its
    directory adjusted. *)
Definition without_target (now np : Z) (nn : bytes) (td : DirEntry) (tr npr : Inode) : Rows :=
  mkRows (<[np := with_nlink (i_Nlink npr - if i_IsDir tr then 1 else 0) npr]>
            (partial_alter (fun _ => target_row now (de_Ino td) tr) (de_Ino td) (r_inodes (v_rows v0))))
    (delete (np, nn) (r_dirents (v_rows v0))) (r_chunks (v_rows v0)) (r_xattrs (v_rows v0)).

Lemma without_target_tree now np nn td tr npr :
  r_dirents (v_rows v0) !! (np, nn) = Some td -> r_inodes (v_rows v0) !! de_Ino td = Some tr ->
  r_inodes (v_rows v0) !! np = Some npr ->
  (i_IsDir tr = true -> rows_scan (v_rows v0) (PDirEntry (de_Ino td)) = []) -> tree root (without_target now np nn td tr npr).
Proof.
  intros Htd Htr Hnp Hempty. eapply (tree_remove root (v_rows v0) _ np nn td npr _ tr (target_row now (de_Ino td) tr) (i_IsDir tr) eq_refl);
    try done.
  - pose proof (tr_keyed _ _ HT) as (K1 & K2 & K3 & K4). unfold without_target. split_and!; [|intros p n d; cbn; intros [_ Hd]%lookup_delete_Some; by apply K2|done|done].
    intros i r. cbn. rewrite lookup_insert, lookup_partial_alter. case_decide as D1; [|case_decide as D2; [|apply K1]].
    + intros [= <-]. rewrite <- D1. exact (K1 _ _ Hnp).
    + unfold target_row. repeat case_match; intros; simplify_eq. exact (K1 _ _ Htr).
  - unfold target_row. destruct (i_IsDir tr) eqn:Ed.
    + intros n. apply eq_None_not_Some. intros [x Hx].
      destruct (scan_complete (v_rows v0) (PDirEntry (de_Ino td)) (KDirEntry (de_Ino td) n) (RDirEntry x) (tr_keyed _ _ HT)) as [Hin _];
        [apply Z.eqb_refl|cbn; by rewrite Hx|]. rewrite Hempty in Hin by done. by apply elem_of_nil in Hin.
    + destruct (unlinked_links now _ _ _ _ _ _ HT Htd Htr Ed) as [U1 U2].
      destruct ((i_Nlink tr <=? 1) && negb (hasOpenHandlesLocked v0 (de_Ino td))) eqn:E; [zify_bool; lia|]. done.
Qed.

(** Rename over another inode. *)
Lemma tree_rename_over now op on np nn od cr opr npr td tr cs :
  rows_keyed (ApplyChanges (v_rows v0) cs) ->
  r_dirents (v_rows v0) !! (op, on) = Some od -> r_inodes (v_rows v0) !! de_Ino od = Some cr ->
  r_inodes (v_rows v0) !! op = Some opr -> r_inodes (v_rows v0) !! np = Some npr ->
  r_dirents (v_rows v0) !! (np, nn) = Some td -> r_inodes (v_rows v0) !! de_Ino td = Some tr -> i_IsDir tr = i_IsDir cr ->
  (i_IsDir cr = true -> rows_scan (v_rows v0) (PDirEntry (de_Ino td)) = []) ->
  de_Ino od <> np -> de_Ino od <> de_Ino td -> (i_IsDir cr = true -> np <> op) ->
  let b := i_IsDir cr in
  let moves := b && negb (np =? op) in
  cs = ChDelete (KDirEntry op on) :: target_changes v0 now np nn (Some (td, tr)) ++
       [ChInsert (RDirEntry (mkDirEntry np nn (de_Ino od) b (i_Mode cr)));
         ChUpdate (RInode (with_ctime now (if b then with_parent np cr else cr)));
         ChUpdate (RInode (with_mctime now (if moves then lose_subdir opr else opr)))] ++
       (if np =? op then [] else [ChUpdate (RInode (with_mctime now npr))]) ->
  tree root (ApplyChanges (v_rows v0) cs).
Proof.
  intros HK Hod Hcr Hop Hnp Htd Htr Htype Hempty Hcn Hct Hsame b moves ->.
  set (t := de_Ino td) in *. set (c := de_Ino od) in *.
  assert (de_IsDir od = b) as Hdb by (destruct (tr_child _ _ HT _ _ _ Hod) as (r & Hr & Er); unfold b; fold c in Hr; congruence).
  destruct (tr_parent _ _ HT _ _ _ Hod) as ((opr0 & Hopr0 & Hopd) & Hroot & Hcop). fold c in Hroot, Hcop.
  assert (i_IsDir opr = true) as Hopd' by congruence. clear opr0 Hopr0 Hopd.
  destruct (tr_parent _ _ HT _ _ _ Htd) as ((npr0 & Hnpr0 & Hnd0) & Htroot & Htn). fold t in Htroot, Htn.
  assert (i_IsDir npr = true) as Hnd by congruence. clear npr0 Hnpr0 Hnd0.
  assert (t <> op) as Hto.
  { intros E. fold b in Hempty. destruct b eqn:Eb; [|fold t in Htr; rewrite E, Hop in Htr; simplify_eq; congruence].
    destruct (scan_complete (v_rows v0) (PDirEntry t) (KDirEntry op on) (RDirEntry od) (tr_keyed _ _ HT)) as [Hin _];
      [cbn; apply Z.eqb_eq; done|cbn; by rewrite Hod|]. rewrite Hempty in Hin by done. by apply elem_of_nil in Hin. }
  pose proof (without_target_tree now np nn td tr npr Htd Htr Hnp ltac:(rewrite Htype; exact Hempty)) as HT1.
  set (R1 := without_target now np nn td tr npr) in *.
  change (ApplyChanges ?R (?c :: ?l)) with (ApplyChanges (apply_change R c) l) in *. rewrite apply_app in *.
  destruct (target_tables now np nn td tr (apply_change (v_rows v0) (ChDelete (KDirEntry op on))) (ino_of _ _ Htr)) as [TI TD].
  set (Rc := ApplyChanges (apply_change _ _) _) in *. fold t in TI.
  destruct (moved_tables Rc op np nn c b (i_Mode cr) (with_ctime now (if b then with_parent np cr else cr))
    (with_mctime now (if moves then lose_subdir opr else opr)) (with_mctime now npr)) as [ED EI].
  { rewrite <- (ino_of _ _ Hcr). by destruct b. }
  { rewrite <- (ino_of _ _ Hop). destruct moves; [|done]. apply (ino_lose opr). }
  { by rewrite <- (ino_of _ _ Hnp). }
  assert ((op, on) <> (np, nn)) as Hkeys. { intros E. rewrite E in Hod. apply Hct. unfold c, t. congruence. }
  assert (forall i, r_inodes R1 !! i = if bool_decide (i = np) then Some (with_nlink (i_Nlink npr - if b then 1 else 0) npr)
    else if bool_decide (i = t) then target_row now t tr else r_inodes (v_rows v0) !! i) as E1.
  { intros i. cbn. rewrite lookup_insert, lookup_partial_alter, Htype. fold t. repeat case_decide; repeat case_bool_decide; first [reflexivity|congruence]. }
  assert (forall i, r_inodes Rc !! i = if bool_decide (i = t) then target_row now t tr else r_inodes (v_rows v0) !! i) as EC.
  { intros i. rewrite TI, lookup_partial_alter. case_decide; case_bool_decide; first [reflexivity|congruence]. }
  eapply (tree_move root R1 _ op on np nn od b (i_Mode cr) HT1); try done.
  - cbn. by rewrite lookup_delete_ne by congruence.
  - cbn. by rewrite lookup_delete_eq.
  - exists (with_nlink (i_Nlink npr - if b then 1 else 0) npr). split; [rewrite E1; by rewrite bool_decide_eq_true_2|done].
  - rewrite ED, TD. cbn. f_equal. by rewrite delete_delete.
  - intros i x. rewrite E1, EI, EC. fold c. destruct (lose_same opr) as [L1 L2].
    destruct (decide (i = np)) as [->|Hin]; [|destruct (decide (i = op)) as [->|Hio]; [|destruct (decide (i = c)) as [->|Hic]]].
    + rewrite (bool_decide_eq_true_2 (np = np)), (bool_decide_eq_false_2 (np = c)) by congruence. intros [= <-].
      rewrite andb_false_r, andb_true_r. cbn [andb]. destruct (np =? op) eqn:E; cbn [negb].
      * assert (np = op) as -> by lia. assert (b = false) as Eb by (destruct b eqn:Eb; [by destruct (Hsame Eb)|done]).
        assert (opr = npr) as -> by congruence. rewrite !bool_decide_eq_true_2 by done. unfold moves. rewrite Eb. cbn [andb].
        eexists. split; [done|]. split_and!; [done|done|cbn; lia].
      * rewrite (bool_decide_eq_false_2 (np = op)) by lia. eexists. split; [done|]. rewrite andb_false_r.
        split_and!; [done|done|]. cbn. destruct b; lia.
    + rewrite (bool_decide_eq_false_2 (op = np)), (bool_decide_eq_true_2 (op = op)), (bool_decide_eq_false_2 (op = t)),
        (bool_decide_eq_false_2 (op = c)) by congruence. intros Hx. assert (x = opr) as -> by congruence.
      rewrite !andb_false_r, andb_true_r. cbn [andb]. eexists. split; [done|]. unfold moves. rewrite (proj2 (Z.eqb_neq np op)) by congruence.
      cbn [negb]. rewrite andb_true_r. destruct b; [|cbn; split_and!; [done|done|lia]].
      pose proof (lose_links _ _ _ _ _ _ HT Hod Hdb Hop) as G. split_and!; [done|done|]. cbn in *. lia.
    + rewrite (bool_decide_eq_false_2 (c = np)), (bool_decide_eq_false_2 (c = op)), (bool_decide_eq_false_2 (c = t)),
        (bool_decide_eq_true_2 (c = c)) by congruence. intros Hx. assert (x = cr) as -> by congruence.
      rewrite !andb_false_r, andb_true_r. cbn [andb]. eexists. split; [done|].
      destruct b eqn:Eb; (split_and!; [done|done|cbn; lia]).
    + rewrite (bool_decide_eq_false_2 (i = np)), (bool_decide_eq_false_2 (i = op)), (bool_decide_eq_false_2 (i = c)) by congruence.
      rewrite !andb_false_r. cbn [andb]. intros Hx. exists x. split_and!; [done|done|done|lia].
  - intros i. rewrite E1, EI, EC. destruct (decide (i = np)) as [->|H1]; [by rewrite bool_decide_eq_true_2|].
    rewrite (bool_decide_eq_false_2 (i = np)) by done. cbn [andb]. intros Hx. rewrite Hx.
    destruct (decide (i = op)) as [->|H2]; [rewrite (bool_decide_eq_false_2 (op = t)) in Hx by congruence; congruence|].
    destruct (decide (i = c)) as [->|H3]; [rewrite (bool_decide_eq_false_2 (c = t)) in Hx by congruence; congruence|].
    by rewrite (bool_decide_eq_false_2 (i = op)), (bool_decide_eq_false_2 (i = c)).
Qed.

(** The walk does not pass the moved directory itself. *)
Lemma walk_not_self fuel d child np :
  ancestor_walk fuel d root child np = Some true -> child <> 0 -> child <> root -> child <> np.
Proof.
  intros Hw H0 Hr ->. destruct fuel as [|fuel]; [done|]. cbn in Hw. rewrite (proj2 (Z.eqb_neq np 0)), (proj2 (Z.eqb_neq np root)), Z.eqb_refl in Hw by done.
  done.
Qed.

Lemma tree_rename now op on np nn cs :
  root = rootInodeID v0 -> rows_keyed (ApplyChanges (v_rows v0) cs) ->
  rename_changes v0 now (norm v0 op) on (norm v0 np) nn v cs -> call_fits (CRename now op on np nn) v0 ->
  tree root (ApplyChanges (v_rows v0) cs).
Proof.
  intros Hroot HK HC [Hsz Hfit]. set (o := norm v0 op) in *. set (q := norm v0 np) in *.
  destruct HC as (od & cr & opr & npr & tgt & Hod & Hcr & Hop & Hnp & Hnd & _ & _ & _ & Ht & Hwalk & _ & _ & Ecs). cbn zeta in Ecs.
  destruct (tr_parent _ _ HT _ _ _ Hod) as (_ & Hcroot & Hcop).
  assert (de_Ino od <> q) as Hcn.
  { destruct (i_IsDir cr) eqn:Ed; [|intros E; rewrite E in Hcr; simplify_eq; congruence].
    destruct (decide (q = o)) as [->|Hne]; [done|]. destruct (Hwalk eq_refl Hne) as (d & _ & Hw). rewrite <- Hroot, (ino_of _ _ Hcr) in Hw.
    eapply walk_not_self; [exact Hw| |done]. by apply (tr_keyed _ _ HT) in Hod as (_ & _ & ?). }
  rewrite (ino_of _ _ Hcr) in Ecs. destruct tgt as [[td tr]|]; cbn [rename_target] in Ht.
  - destruct Ht as (Htd & Htr & Hty & Hempty). destruct (Hfit _ _ Hod Htd) as [Hne Hsame].
    assert (de_IsDir td = i_IsDir cr) as Etd by (destruct (tr_child _ _ HT _ _ _ Htd) as (r & Hr & Er); congruence).
    rewrite bool_decide_eq_false_2, andb_false_r in Ecs by done.
    eapply (tree_rename_over now o on q nn od cr opr npr td tr cs); try done. by rewrite <- Etd.
  - rewrite bool_decide_eq_true_2, andb_true_r in Ecs by done. cbn [target_changes app] in Ecs.
    by eapply (tree_rename_free now o on q nn od cr opr npr cs).
Qed.

Lemma call_tree c cs :
  root = rootInodeID v0 -> rows_keyed (ApplyChanges (v_rows v0) cs) -> call_changes c v0 v cs -> call_fits c v0 ->
  tree root (ApplyChanges (v_rows v0) cs).
Proof.
  intros Hr HK HC Hf. destruct c; try done;
    first [by eapply tree_attrs | by eapply tree_create | by eapply tree_delete | by eapply tree_rename].
Qed.
End calls.

(** ** Runs *)

Lemma effect_tree {A} c v (r : result verr A) w :
  vol_ok v -> v_nextInode v + DefaultInodeStride < 2 ^ 64 -> effect c v r w -> call_fits c v ->
  tree (rootInodeID v) (v_rows v) -> tree (rootInodeID w) (v_rows w) /\ v_cfg w = v_cfg v.
Proof.
  intros Hv Hb He Hf HT. destruct (effect_ok c v r w Hv Hb He) as (Hw & _ & _). destruct He as (_ & h & _ & He).
  unfold rootInodeID in *.
  destruct He as [(Ec & ER & _)|(v1 & cs & (Ec & ER & _) & HC & (d & st & q & e & -> & _))].
  - rewrite Ec, ER. done.
  - cbn in *. rewrite Ec, ER. split; [|done]. cbn. apply (call_tree _ (set_handles h v) v1 HT (vo_rows _ Hv) c cs); [done| |done|].
    + pose proof (ok_keyed _ _ (vo_rows _ Hw)) as K. cbn in K. rewrite ER in K. exact K.
    + destruct c; exact Hf.
Qed.

Definition step_fits (s : VStep) (v : Volume) : Prop := match s with VCall c _ => call_fits c v | VLoad _ _ _ _ => True end.

Fixpoint steps_fit (l : list VStep) (v : Volume) : Prop :=
  match l with [] => True | s :: l => step_fits s v /\ steps_fit l (snd (do_step s v)) end.

Lemma load_tree i now h v env :
  vol_ok v -> rootInodeID v = 1 -> tree 1 (v_rows v) ->
  let w := snd (do_step (VLoad i now h env) v) in tree 1 (v_rows w) /\ v_cfg w = v_cfg v.
Proof.
  intros Hv Hroot HT w. subst w. cbn [do_step]. unfold loadFromBackendMetadataLocked. set (v1 := if i then _ else _).
  assert (v_rows v1 = v_rows v /\ v_cfg v1 = v_cfg v) as [E1 E2].
  { subst v1. destruct i; [done|]. destruct (tr_root _ _ HT) as (r & Hr & _). unfold init_root. cbn. by rewrite Hr. }
  assert (let '(r, w) := run cleanOrphanInodesLocked v1 env in tree 1 (v_rows w) /\ v_cfg w = v_cfg v) as HH.
  { apply wp_run. eapply wp_mono; [apply (wp_clean v1 ltac:(rewrite E1; apply Hv) True)|].
    intros r s [_ [[[-> _] _]|(d & st & q & e & -> & _)]]; cbn; rewrite ?E1, ?E2; split; try done.
    eapply (tree_delete 1 v v HT CCleanOrphans); [|by split|done]. eapply rows_keyed_apply; [apply Hv|].
    eapply (known_fine _ (v_nextInode v) _ None); [apply Hv|lia|done|]. apply plain_known, plain_orphans. }
  destruct (run cleanOrphanInodesLocked v1 env) as [r w]. by destruct r as [|[]].
Qed.

Lemma run_tree l : forall v n,
  vol_ok v -> v_nextInode v <= n -> Forall (replayed_below n) l -> n + DefaultInodeStride * Z.of_nat (length l) < 2 ^ 64 ->
  rootInodeID v = 1 -> steps_fit l v -> tree 1 (v_rows v) -> tree 1 (v_rows (snd (run_steps l v))).
Proof.
  induction l as [|s l IH]; intros v n Hv Hn Hl Hb Hroot Hfit HT; cbn [run_steps length steps_fit] in *; [done|].
  destruct Hfit as [Hf Hfit]. inversion_clear Hl as [|? ? Hs Hl'].
  pose proof (step_ok s v n Hv Hn Hs ltac:(unfold DefaultInodeStride in *; lia)) as H1.
  assert (tree 1 (v_rows (snd (do_step s v))) /\ v_cfg (snd (do_step s v)) = v_cfg v) as [HT1 Hc1].
  { destruct s as [c env|i now h env]; [|by apply load_tree]. cbn [do_step] in *.
    assert (let '(r, w) := run (do_call c) v env in effect c v r w) as He by (apply wp_run, call_effect; apply Hv).
    destruct (run (do_call c) v env) as [r w]. destruct (effect_tree c v r w Hv) as [HT' Hc']; try done.
    - unfold DefaultInodeStride in *. lia.
    - by rewrite Hroot.
    - cbn. split; [|done]. unfold rootInodeID in *. by rewrite Hc', Hroot in HT'. }
  destruct (do_step s v) as [r v1]. cbn [snd] in *. destruct H1 as (V1 & N1 & _ & _).
  specialize (IH v1 (n + DefaultInodeStride) V1 N1). destruct (run_steps l v1) as [rs w]. cbn [snd] in *. apply IH; try done.
  - eapply Forall_impl; [exact Hl'|]. intros [] Hr; [done|]. cbn in *. unfold DefaultInodeStride. lia.
  - unfold DefaultInodeStride in *. lia.
  - unfold rootInodeID in *. by rewrite Hc1.
Qed.

(** C15: the directory entries and the link counts of a volume stay in step.  In
    every run of calls and loads, under any failures, every entry leads from a
    directory to an inode of the kind it names, a directory has one entry and
    knows its parent, the link count of a file is the number of its entries, and
    the link count of a directory is two more than the number of its
    subdirectories. *)
Theorem link_counts_kept v n l :
  vol_ok v -> v_nextInode v <= n -> Forall (replayed_below n) l -> n + DefaultInodeStride * Z.of_nat (length l) < 2 ^ 64 ->
  rootInodeID v = 1 -> steps_fit l v -> tree 1 (v_rows v) -> tree 1 (v_rows (snd (run_steps l v))).
Proof. apply run_tree. Qed.

(** A fresh volume: a root and nothing else. *)
Definition fresh_volume : Volume := snd (do_step (VLoad false 1 0 []) empty_volume).

Lemma fresh_ok : vol_ok fresh_volume.
Proof.
  pose proof (step_ok (VLoad false 1 0 []) empty_volume 8 (empty_ok default_config ltac:(done))) as H. unfold fresh_volume.
  destruct (do_step _ _) as [r w]. destruct H as (Hw & _); [done|done|done|exact Hw].
Qed.

Lemma fresh_tree : tree 1 (v_rows fresh_volume).
Proof.
  assert (v_rows fresh_volume = mkRows {[1 := root_row 1]} ∅ ∅ ∅) as E by (vm_compute; reflexivity).
  assert (forall i r, r_inodes (v_rows fresh_volume) !! i = Some r -> i = 1 /\ r = root_row 1) as HI.
  { rewrite E. cbn [r_inodes]. intros i r Hr. by apply lookup_singleton_Some in Hr as [<- <-]. }
  assert (forall k d, r_dirents (v_rows fresh_volume) !! k = Some d -> False) as HD.
  { rewrite E. cbn [r_dirents]. intros k d. by rewrite lookup_empty. }
  split; try (intros; exfalso; by eapply HD).
  - apply fresh_ok.
  - exists (root_row 1). rewrite E. cbn [r_inodes]. split; [apply lookup_singleton_eq|done].
  - intros i r [-> ->]%HI. done.
  - intros i r [-> ->]%HI _. rewrite E. vm_compute. reflexivity.
  - intros i r [-> ->]%HI. done.
Qed.

(** A directory in a directory, a file with two names, and a rename of each. *)
Definition tree_run : list VStep :=
  [VCall (CMkdir 2 1 (go "docs") 0 1000 1000) [];
   VCall (CMkdir 3 8 (go "sub") 0 1000 1000) [];
   VCall (CCreateFile 4 16 (go "a") 0 (go "hello") 1000 1000 0) [];
   VCall (CLink 5 24 1 (go "b")) [];
   VCall (CRename 6 16 (go "a") 8 (go "c")) [];
   VCall (CRename 7 8 (go "sub") 1 (go "top")) [];
   VCall (CUnlink 8 8 (go "c")) []].

Lemma tree_run_replayed : Forall (replayed_below 100) tree_run.
Proof. repeat constructor. Qed.

Lemma tree_run_fits : steps_fit tree_run fresh_volume.
Proof.
  cbn [tree_run steps_fit step_fits]. unfold call_fits. split_and!; try exact I; try (vm_compute; reflexivity).
  - intros r Hr. vm_compute in Hr. by injection Hr as <-.
  - intros od td _ Htd. vm_compute in Htd. done.
  - intros od td _ Htd. vm_compute in Htd. done.
Qed.

Lemma link_counts_kept_witness :
  let w := snd (run_steps tree_run fresh_volume) in
  tree 1 (v_rows w) /\
  (i_Nlink <$> r_inodes (v_rows w) !! 1, i_Nlink <$> r_inodes (v_rows w) !! 24) = (Some 4, Some 1).
Proof.
  split; [|vm_compute; reflexivity].
  apply (link_counts_kept fresh_volume 100 tree_run); [apply fresh_ok|done|apply tree_run_replayed|done|done|apply tree_run_fits|apply fresh_tree].
Defined.

(** [Mkdir] with its commit failing, and with its wait failing. *)
Lemma call_all_or_nothing_witness :
  let mkdir n := snd (run (do_call (CMkdir 2 1 (go "a") 0 0 0)) fresh_volume (replicate n (Fine 5) ++ [Fails])) in
  let whole := snd (run (do_call (CMkdir 2 1 (go "a") 0 0 0)) fresh_volume (replicate 7 (Fine 5))) in
  (committed_state (mkdir 7%nat) = committed_state fresh_volume \/ committed_state (mkdir 7%nat) = committed_state whole) /\
  committed_state (mkdir 6%nat) = committed_state fresh_volume /\ v_lastCommitSeq (mkdir 7%nat) = 5.
Proof.
  cbn zeta. split; [|split; vm_compute; reflexivity].
  exact (call_all_or_nothing (CMkdir 2 1 (go "a") 0 0 0) fresh_volume (replicate 7 (Fine 5) ++ [Fails])).
Defined.
