(* ===== verification/VolRooted.v ===== *)
(** * VolRooted: directories are reachable, and the walk of [Rename]

    Every directory is reached from the root by directory entries, so the tree
    has no cycles.  [Rename] walks from the new parent to the root to keep it so;
    the walk ends exactly when its fuel suffices, and it finds the moved
    directory if the volume remembers the parents of all directories. *)

From stdpp Require Import finite.
From S2P Require Import Prelude Bytes Sha256 VolRows VolStaging VolNamespace VolLogic VolOps VolCalls VolChanges VolRuns VolTree.

#[local] Open Scope Z_scope.
#[local] Open Scope list_scope.

(** ** The walk as an iteration *)

Section walk.
Context (d : gmap Z Z) (root child : Z).

(** The next directory of the walk, [None] when it stops. *)
Definition next_up (x : Z) : option Z :=
  if (x =? 0) || (x =? root) then None
  else if x =? child then None
  else match d !! x with
       | None => None
       | Some p => if p =? x then None else Some p
       end.

Fixpoint up (k : nat) (x : Z) : option Z :=
  match k with O => Some x | S k => match next_up x with Some p => up k p | None => None end end.

Lemma walk_none k : forall x, ancestor_walk k d root child x = None <-> is_Some (up k x).
Proof.
  induction k as [|k IH]; intros x; cbn; [split; [by eexists|done]|]. unfold next_up.
  destruct ((x =? 0) || (x =? root)); [split; [done|by intros []]|]. destruct (x =? child); [split; [done|by intros []]|].
  destruct (d !! x) as [p|]; [|split; [done|by intros []]]. destruct (p =? x); [split; [done|by intros []]|]. apply IH.
Qed.

Lemma up_add j : forall k x y, up j x = Some y -> up (j + k) x = up k y.
Proof.
  induction j as [|j IH]; intros k x y; cbn; [by intros [= ->]|]. destruct (next_up x); [|done]. apply IH.
Qed.

Lemma up_prefix j k x : (j <= k)%nat -> is_Some (up k x) -> is_Some (up j x).
Proof.
  revert k x. induction j as [|j IH]; intros k x Hk Hu; [by eexists|]. destruct k as [|k]; [lia|]. cbn in *.
  destruct (next_up x); [|by destruct Hu]. eapply IH; [|done]. lia.
Qed.

Lemma next_up_dom x y : next_up x = Some y -> x ∈ dom d.
Proof. unfold next_up. repeat case_match; try done. intros _. apply elem_of_dom. by eexists. Qed.

(** If the walk comes back to a directory it never ends. *)
Lemma up_cycle x y i j : (i < j)%nat -> up i x = Some y -> up j x = Some y -> forall k, is_Some (up k x).
Proof.
  intros Hij Hi Hj. assert (forall n, up (n * (j - i)) y = Some y) as Hper.
  { intros n. induction n as [|n IH]; [done|]. cbn. erewrite up_add; [exact IH|].
    replace j with (i + (j - i))%nat in Hj by lia. by rewrite (up_add _ _ _ _ Hi) in Hj. }
  intros k. apply (up_prefix k (i + k * (j - i))); [nia|]. rewrite (up_add _ _ _ _ Hi), Hper. by eexists.
Qed.

Lemma walk_stops x fuel :
  ancestor_walk (S (size d)) d root child x = None -> ancestor_walk fuel d root child x = None.
Proof.
  rewrite !walk_none. intros Hu.
  assert (forall k, (k <= size d)%nat -> exists y, up k x = Some y /\ y ∈ dom d) as Hdom.
  { intros k Hk. destruct (up_prefix (k + 1) (S (size d)) x ltac:(lia) Hu) as [z Hz].
    destruct (up_prefix k (S (size d)) x ltac:(lia) Hu) as [y Hy]. exists y. split; [done|].
    rewrite (up_add _ _ _ _ Hy) in Hz. cbn in Hz. destruct (next_up y) eqn:En; [|done]. by eapply next_up_dom. }
  destruct (list_pigeonhole ((fun k => default 0 (up k x)) <$> seq 0 (S (size d))) (elements (dom d))) as (i & j & y & Hij & Hi & Hj).
  - intros y Hy. apply list_elem_of_fmap in Hy as (k & -> & Hk). apply elem_of_seq in Hk.
    destruct (Hdom k ltac:(lia)) as (y & -> & Hy). by apply elem_of_elements.
  - rewrite length_fmap, length_seq. change (length (elements (dom d))) with (size (dom d)). rewrite size_dom. lia.
  - rewrite list_lookup_fmap in Hi, Hj. apply fmap_Some in Hi as (i' & Hi & Ei), Hj as (j' & Hj & Ej).
    apply lookup_seq in Hi as [-> Hi], Hj as [-> Hj]. cbn in Ei, Ej.
    destruct (Hdom i ltac:(lia)) as (yi & Ui & _), (Hdom j ltac:(lia)) as (yj & Uj & _). rewrite Ui in Ei. rewrite Uj in Ej. cbn in *.
    eapply (up_cycle x y i j); [done|congruence|congruence].
Qed.

(** The ancestor walk of [Rename] ends after at most as many steps as the
    volume remembers parents, or never: running out of the fuel the model gives
    it means that the loop of the code does not end. *)
Theorem ancestor_walk_fuel x :
  ancestor_walk (S (size d)) d root child x = None <-> forall fuel, ancestor_walk fuel d root child x = None.
Proof. split; [intros H fuel; by apply walk_stops|intros H; apply H]. Qed.
End walk.

(** ** Reachable directories *)

Inductive rooted (root : Z) (R : Rows) : Z -> Prop :=
| rooted_root : rooted root R root
| rooted_down p n d : rooted root R p -> r_dirents R !! (p, n) = Some d -> de_IsDir d = true -> rooted root R (de_Ino d).

Definition connected (root : Z) (R : Rows) : Prop := forall i, is_dir R i -> rooted root R i.

(** The volume remembers the parent of every directory. *)
Definition remembers (R : Rows) (dp : gmap Z Z) : Prop :=
  forall p n d, r_dirents R !! (p, n) = Some d -> de_IsDir d = true -> dp !! de_Ino d = Some p.

Lemma remembers_ext root R dp dp' : tree root R -> remembers R dp -> dp_ext R dp dp' -> remembers R dp'.
Proof.
  intros HT Hr He p n d Hd Hdir. destruct (He (de_Ino d)) as [->|(r & Hrow & _ & -> & _)]; [by eapply Hr|].
  f_equal. by eapply tr_back.
Qed.

(** Reachable without passing [c]. *)
Inductive avoids (c root : Z) (R : Rows) : Z -> Prop :=
| avoids_root : avoids c root R root
| avoids_down p n d : avoids c root R p -> r_dirents R !! (p, n) = Some d -> de_IsDir d = true -> de_Ino d <> c ->
    avoids c root R (de_Ino d).

(** Below [c], and not back at it. *)
Inductive below (c : Z) (R : Rows) : Z -> Prop :=
| below_self : below c R c
| below_down p n d : below c R p -> r_dirents R !! (p, n) = Some d -> de_IsDir d = true -> de_Ino d <> c -> below c R (de_Ino d).

Lemma rooted_split c root R i : rooted root R i -> avoids c root R i \/ below c R i.
Proof.
  induction 1 as [|p n d _ IH Hd Hdir]; [left; constructor|]. destruct (decide (de_Ino d = c)) as [->|Hne]; [right; constructor|].
  destruct IH; [left|right]; by econstructor.
Qed.

Lemma rooted_ends dp root child R x :
  tree root R -> remembers R dp -> rooted root R x -> exists fuel, ancestor_walk fuel dp root child x <> None.
Proof.
  intros HT Hr. induction 1 as [|p n d _ (fuel & IH) Hd Hdir].
  - exists 1%nat. cbn. by rewrite Z.eqb_refl, orb_true_r.
  - exists (S fuel). cbn. destruct (_ || _); [done|]. destruct (_ =? child); [done|]. rewrite (Hr _ _ _ Hd Hdir).
    by destruct (p =? de_Ino d).
Qed.

Lemma rooted_dir root R x : tree root R -> rooted root R x -> is_dir R x.
Proof.
  intros HT. destruct 1 as [|p n d _ Hd Hdir]; [apply HT|]. destruct (tr_child _ _ HT _ _ _ Hd) as (r & Hr & Er). exists r. split; congruence.
Qed.

(** A walk that passes has found a way to the root that avoids the moved
    directory. *)
Lemma walk_avoids fuel dp root c R :
  tree root R -> remembers R dp -> ~ is_dir R 0 -> c <> root -> forall x,
  rooted root R x -> ancestor_walk fuel dp root c x = Some true -> avoids c root R x.
Proof.
  intros HT Hr H0 Hc. induction fuel as [|fuel IH]; intros x Hx Hw; [done|]. cbn in Hw.
  pose proof (rooted_dir _ _ _ HT Hx) as Hxd.
  destruct Hx as [|p n d Hp Hd Hdir]; [constructor|].
  assert (de_Ino d <> 0) as Hd0 by (intros E; by rewrite E in Hxd).
  rewrite (proj2 (Z.eqb_neq (de_Ino d) 0)) in Hw by done. cbn [orb] in Hw.
  destruct (de_Ino d =? root) eqn:E1; [apply Z.eqb_eq in E1; rewrite E1; constructor|].
  destruct (de_Ino d =? c) eqn:E2; [done|]. rewrite (Hr _ _ _ Hd Hdir) in Hw.
  destruct (tr_parent _ _ HT _ _ _ Hd) as (_ & _ & Hne). rewrite (proj2 (Z.eqb_neq p (de_Ino d))) in Hw by done.
  econstructor; [by apply IH|exact Hd|done|lia].
Qed.

Lemma walk_below fuel dp root c R :
  tree root R -> remembers R dp -> c <> 0 -> forall x,
  rooted root R x -> ancestor_walk fuel dp root c x = Some false -> below c R x.
Proof.
  intros HT Hr Hc. induction fuel as [|fuel IH]; intros x Hx Hw; [done|]. cbn in Hw.
  destruct ((x =? 0) || (x =? root)) eqn:E0; [done|]. destruct Hx as [|p n d Hp Hd Hdir]; [zify_bool; lia|].
  destruct (de_Ino d =? c) eqn:E2; [apply Z.eqb_eq in E2; rewrite E2; constructor|]. rewrite (Hr _ _ _ Hd Hdir) in Hw.
  destruct (p =? de_Ino d); [done|]. econstructor; [by apply IH|exact Hd|done|lia].
Qed.

(** C36: the cycle check of [Rename] is right when the volume remembers the parents
    of all directories.  The walk from the new parent ends within its fuel; it
    passes when the new parent is reached from the root without the moved
    directory, and it refuses when the new parent is the moved directory or lies
    below it. *)
Theorem cycle_check_decides root R dp c x :
  tree root R -> connected root R -> remembers R dp -> ~ is_dir R 0 -> c <> 0 -> c <> root -> is_dir R x ->
  exists ok, ancestor_walk (S (size dp)) dp root c x = Some ok /\ (if ok then avoids c root R x else below c R x).
Proof.
  intros HT HC Hr H0 Hc Hcr Hx. pose proof (HC _ Hx) as Hrx.
  destruct (ancestor_walk (S (size dp)) dp root c x) as [[|]|] eqn:E.
  - exists true. split; [done|]. by eapply walk_avoids.
  - exists false. split; [done|]. by eapply walk_below.
  - exfalso. destruct (rooted_ends dp root c R x HT Hr Hrx) as (fuel & Hf). by apply Hf, walk_stops.
Qed.

(** ** Changes *)

Lemma weight_pos {K V} `{Countable K} (w : V -> Z) (m : gmap K V) : 0 < weight w m -> exists k a, m !! k = Some a /\ 0 < w a.
Proof.
  induction m as [|k a m Hk IH] using map_ind; [by rewrite weight_empty|]. rewrite weight_insert by done. intros Hw.
  destruct (decide (0 < w a)) as [Ha|Ha]; [exists k, a; by rewrite lookup_insert_eq|]. destruct IH as (k' & a' & Hk' & Ha'); [lia|].
  exists k', a'. rewrite lookup_insert_ne; [done|]. intros ->. congruence.
Qed.

(** Every directory has an entry, so it is enough to reach the directories with
    subdirectories. *)
Lemma connected_entries root R :
  tree root R -> (forall p n d, r_dirents R !! (p, n) = Some d -> de_IsDir d = true -> rooted root R p) -> connected root R.
Proof.
  intros HT He i (r & Hr & Hdir). destruct (decide (i = root)) as [->|Hne]; [constructor|].
  pose proof (tr_single _ _ HT _ _ Hr Hdir Hne) as Hl. rewrite links_weight in Hl.
  destruct (weight_pos (names i) (r_dirents R)) as ([p n] & d & Hd & Hn); [lia|]. unfold names in Hn. case_bool_decide as E; [|lia].
  destruct (tr_child _ _ HT _ _ _ Hd) as (r' & Hr' & Er). rewrite E in Hr'.
  assert (de_IsDir d = true) as Hdd by congruence. rewrite <- E. econstructor; [by eapply He|done|done].
Qed.

Lemma rooted_mono root R R' i :
  (forall p n d, r_dirents R !! (p, n) = Some d -> de_IsDir d = true -> exists n', r_dirents R' !! (p, n') = Some d \/
     exists d', r_dirents R' !! (p, n') = Some d' /\ de_IsDir d' = true /\ de_Ino d' = de_Ino d) ->
  rooted root R i -> rooted root R' i.
Proof.
  intros He. induction 1 as [|p n d _ IH Hd Hdir]; [constructor|].
  destruct (He _ _ _ Hd Hdir) as (n' & [Hd'|(d' & Hd' & Hdir' & <-)]); by econstructor.
Qed.

(** Changes that remove no directory entry. *)
Definition entry_safe (R : Rows) (c : change) : Prop :=
  match c with
  | ChInsert (RDirEntry d) | ChUpdate (RDirEntry d) =>
      is_dir R (de_ParentIno d) /\ (forall d0, r_dirents R !! (de_ParentIno d, de_Name d) = Some d0 -> de_IsDir d0 = false)
  | ChDelete (KDirEntry p n) => forall d0, r_dirents R !! (p, n) = Some d0 -> de_IsDir d0 = false
  | _ => True
  end.

Lemma connected_safe root R cs :
  tree root R -> tree root (ApplyChanges R cs) -> Forall (entry_safe R) cs -> connected root R -> connected root (ApplyChanges R cs).
Proof.
  intros HT HT' Hs HC. rewrite Forall_forall in Hs. apply connected_entries; [done|]. intros p n d Hd Hdir.
  apply (rooted_mono root R).
  - intros p' n' d' Hd' Hdir'. exists n'. left. rewrite dirents_written. destruct (written cs (KDirEntry p' n')) as [o|] eqn:E; [|done].
    exfalso. apply written_Some in E as (c & Hc & Hk & _). specialize (Hs _ Hc).
    destruct c as [m|m|k]; cbn in Hk; [destruct m; simplify_eq/=; destruct Hs as [_ Hs]; rewrite (Hs _ Hd') in Hdir'; done..|].
    subst k. cbn in Hs. rewrite (Hs _ Hd') in Hdir'. done.
  - apply HC. rewrite dirents_written in Hd. destruct (written cs (KDirEntry p n)) as [o|] eqn:E; [|by apply (tr_parent _ _ HT) in Hd as (? & _)].
    apply written_Some in E as (c & Hc & Hk & Ha). specialize (Hs _ Hc).
    destruct c as [m|m|k]; cbn in Hk, Ha; subst o; [destruct m; simplify_eq/=; by destruct Hs..|done].
Qed.

(** ** The calls *)

Section calls.
Context (v0 v : Volume) (root : Z) (HT : tree root (v_rows v0)) (HC : connected root (v_rows v0)).

Lemma parent_dir p pr : r_inodes (v_rows v0) !! p = Some pr -> i_IsDir pr = true -> is_dir (v_rows v0) p.
Proof. intros Hp Hd. by exists pr. Qed.

Lemma side_safe cs : Forall side cs -> Forall (entry_safe (v_rows v0)) cs.
Proof.
  intros Hs. eapply Forall_impl; [exact Hs|]. intros c Hc. unfold side in Hc. destruct c as [[]|[]|[]]; done.
Qed.

Lemma inode_deletes_safe i : Forall (entry_safe (v_rows v0)) (inode_deletes (v_rows v0) i).
Proof.
  apply Forall_cons. split; [done|]. apply side_safe, Forall_app. split; [apply side_chunks|]. apply Forall_fmap, Forall_true. done.
Qed.

Lemma free_safe p n pr d :
  free_name v0 p n pr -> de_ParentIno d = p -> de_Name d = n -> entry_safe (v_rows v0) (ChInsert (RDirEntry d)).
Proof. intros (Hp & Hpd & Hn & _) <- <-. split; [by eapply parent_dir|]. intros d0. congruence. Qed.

(** All calls but the removal and the move of a directory. *)
Lemma call_safe c cs :
  call_changes c v0 v cs ->
  match c with
  | CRmdir _ _ _ => False
  | CRename _ op on _ _ => forall od, r_dirents (v_rows v0) !! (norm v0 op, on) = Some od -> de_IsDir od = false
  | _ => True
  end -> Forall (entry_safe (v_rows v0)) cs.
Proof.
  intros Hcs Hm. destruct c; try done; cbn [call_changes] in Hcs.
  - destruct Hcs as (r & _ & _ & _ & ->). each. done.
  - destruct Hcs as (r & _ & _ & _ & ->). each; [by case_match|done].
  - destruct Hcs as (r & _ & _ & _ & _ & ->). each; done.
  - destruct Hcs as (pr & m & u & g & Hf & _ & _ & _ & ->). each; [done|by eapply free_safe|done].
  - destruct Hcs as (pr & u & g & Hf & _ & _ & ->). each; [done|by eapply free_safe|done].
  - destruct Hcs as (pr & cr & Hf & _ & _ & _ & _ & ->). each; [done|by eapply free_safe|done].
  - destruct Hcs as [Hcs|Hcs].
    + destruct Hcs as (pr & m & u & g & rd & h & Hf & _ & _ & _ & _ & ->). apply Forall_app. split.
      * apply side_safe. case_match; [apply side_insert|apply Forall_nil; exact I].
      * each; [done|by eapply free_safe|done].
    + destruct Hcs as (pr & de & cr & m & u & g & h & _ & _ & _ & _ & _ & _ & _ & _ & _ & _ & ->). apply Forall_app. split.
      * apply side_safe, side_replace.
      * each; done.
  - destruct Hcs as (de & Hde & Hfile & de' & cr & pr & _ & Hc & _ & _ & _ & ->). apply Forall_app. split.
    + case_match; [apply inode_deletes_safe|each; done].
    + each; [|done]. intros d0 Hd0. simplify_eq. destruct (tr_child _ _ HT _ _ _ Hde) as (r & Hr & <-). by apply Hfile.
  - destruct Hcs as (od & cr & opr & npr & tgt & Hod & Hcr & _ & Hnp & Hnd & _ & _ & _ & Ht & _ & _ & _ & ->).
    specialize (Hm _ Hod). assert (i_IsDir cr = false) as Hf by (destruct (tr_child _ _ HT _ _ _ Hod) as (r & Hr & Er); congruence).
    assert (forall td, r_dirents (v_rows v0) !! (norm v0 newParent, newName) = Some td -> de_IsDir td = false) as Htd.
    { intros td Htd. destruct tgt as [[td' tr]|]; cbn in Ht; [|congruence]. destruct Ht as (E & Htr & Et & _). simplify_eq.
      destruct (tr_child _ _ HT _ _ _ E) as (r & Hr & Er). congruence. }
    apply Forall_cons. split; [intros d0; congruence|]. apply Forall_app. split.
    + destruct tgt as [[td tr]|]; [|apply Forall_nil; exact I]. unfold target_changes. apply Forall_cons. split; [exact Htd|].
      repeat case_match; each; try done. apply side_safe, side_chunks.
    + apply Forall_cons. split; [split; [by eapply parent_dir|exact Htd]|]. each; try done. case_match; each; done.
  - destruct Hcs as (i & r & _ & _ & _ & _ & _ & _ & ->). apply inode_deletes_safe.
  - destruct Hcs as (_ & _ & ->). apply Forall_forall. intros c Hc. apply list_elem_of_bind in Hc as (i & Hc & Hi).
    apply elem_of_cons in Hc as [->|Hc]; [done|]. by apply list_elem_of_fmap in Hc as (x & -> & _).
Qed.

Lemma no_entries i n : rows_scan (v_rows v0) (PDirEntry i) = [] -> r_dirents (v_rows v0) !! (i, n) = None.
Proof.
  intros He. apply eq_None_not_Some. intros [x Hx].
  destruct (scan_complete (v_rows v0) (PDirEntry i) (KDirEntry i n) (RDirEntry x) (tr_keyed _ _ HT)) as [Hin _];
    [apply Z.eqb_refl|cbn; by rewrite Hx|]. rewrite He in Hin. by apply elem_of_nil in Hin.
Qed.

Lemma rmdir_connected now p n cs :
  rmdir_changes v0 now p n v cs -> tree root (ApplyChanges (v_rows v0) cs) -> connected root (ApplyChanges (v_rows v0) cs).
Proof.
  intros (de & cr & pr & Hde & Hc & Hd & Hempty & Hp & _ & _ & ->) HT'. rewrite apply_app in *.
  destruct (inode_deletes_tables (v_rows v0) (v_rows v0) (de_Ino de)) as [_ ED0].
  destruct (removed_tables (ApplyChanges (v_rows v0) (inode_deletes (v_rows v0) (de_Ino de))) p n (with_mctime now (lose_subdir pr))) as [_ ED].
  rewrite ED0 in ED. set (R' := ApplyChanges (ApplyChanges _ _) _) in *.
  assert (forall i, rooted root (v_rows v0) i -> i <> de_Ino de -> rooted root R' i) as Hr.
  { induction 1 as [|q m d _ IH Hd' Hdir]; intros Hne; [constructor|]. econstructor; [apply IH| |exact Hdir].
    - intros ->. rewrite (no_entries _ _ Hempty) in Hd'. done.
    - rewrite ED, lookup_delete_ne; [exact Hd'|]. intros E. rewrite <- E in Hd'. congruence. }
  apply connected_entries; [done|]. intros q m d Hq Hdir. rewrite ED in Hq. apply lookup_delete_Some in Hq as [_ Hq].
  apply Hr; [apply HC; by apply (tr_parent _ _ HT) in Hq as (? & _)|]. intros ->. rewrite (no_entries _ _ Hempty) in Hq. done.
Qed.
(** The entries after a rename. *)
Lemma rename_dirents now op on np nn od cr tgt rest k :
  r_dirents (v_rows v0) !! (op, on) = Some od ->
  Forall (fun c => forall p n, change_key c <> KDirEntry p n) rest ->
  rename_target v0 np nn cr tgt ->
  let d' := mkDirEntry np nn (i_Ino cr) (i_IsDir cr) (i_Mode cr) in
  r_dirents (ApplyChanges (v_rows v0) (ChDelete (KDirEntry op on) :: target_changes v0 now np nn tgt ++ ChInsert (RDirEntry d') :: rest)) !! k =
  if bool_decide (k = (np, nn)) then Some d' else if bool_decide (k = (op, on)) then None else r_dirents (v_rows v0) !! k.
Proof.
  intros Hod Hrest Ht d'. change (?c :: ?l1 ++ ?c2 :: ?l2) with ([c] ++ l1 ++ [c2] ++ l2). rewrite !apply_app.
  rewrite dirents_same by done. change (r_dirents (ApplyChanges ?R [ChInsert (RDirEntry d')])) with (<[(np, nn) := d']> (r_dirents R)).
  assert (r_dirents (ApplyChanges (ApplyChanges (v_rows v0) [ChDelete (KDirEntry op on)]) (target_changes v0 now np nn tgt)) =
    match tgt with Some _ => delete (np, nn) (delete (op, on) (r_dirents (v_rows v0))) | None => delete (op, on) (r_dirents (v_rows v0)) end) as ->.
  { destruct tgt as [[td tr]|]; [|done]. destruct Ht as (_ & Htr & _).
    destruct (target_tables v0 now np nn td tr (ApplyChanges (v_rows v0) [ChDelete (KDirEntry op on)])) as [_ ->]; [|done]. by apply HT. }
  rewrite lookup_insert. destruct (decide ((np, nn) = k)) as [<-|Hne]; [by rewrite bool_decide_eq_true_2|].
  rewrite (bool_decide_eq_false_2 (k = (np, nn))) by congruence.
  destruct tgt; [rewrite lookup_delete_ne by done|]; rewrite lookup_delete; case_decide; case_bool_decide; congruence.
Qed.

(** The tree after the move of a directory. *)
Lemma moved_connected R' op on np nn od d' (t : option DirEntry) :
  tree root R' ->
  r_dirents (v_rows v0) !! (op, on) = Some od -> de_IsDir od = true -> de_IsDir d' = true -> de_Ino d' = de_Ino od ->
  r_dirents (v_rows v0) !! (np, nn) = t ->
  (forall td, t = Some td -> (forall n, r_dirents (v_rows v0) !! (de_Ino td, n) = None) /\ de_Ino td <> de_Ino od /\ np <> op) ->
  (forall k, r_dirents R' !! k = if bool_decide (k = (np, nn)) then Some d' else if bool_decide (k = (op, on)) then None else r_dirents (v_rows v0) !! k) ->
  (np <> op -> avoids (de_Ino od) root (v_rows v0) np) -> connected root R'.
Proof.
  intros HT' Hod Hdir Hdir' Eino Et Htgt ED Hav.
  assert (r_dirents R' !! (np, nn) = Some d') as Hnew by (rewrite ED; by rewrite bool_decide_eq_true_2).
  assert (forall p n d, r_dirents (v_rows v0) !! (p, n) = Some d -> de_Ino d <> de_Ino od ->
    (forall td, t = Some td -> de_Ino d <> de_Ino td) -> r_dirents R' !! (p, n) = Some d) as Hkeep.
  { intros p n d Hd H1 H2. rewrite ED, (bool_decide_eq_false_2 (_ = (np, nn))), (bool_decide_eq_false_2 (_ = (op, on))); [done|..];
      intros E; rewrite E in Hd; [congruence|]. apply (H2 d); congruence. }
  assert (forall p n d, r_dirents (v_rows v0) !! (p, n) = Some d -> forall td, t = Some td -> p <> de_Ino td) as Hpt.
  { intros p n d Hd td Htd ->. destruct (Htgt _ Htd) as (He & _). rewrite He in Hd. done. }
  assert (forall td, t = Some td -> np <> de_Ino td) as Hnpt.
  { intros td Htd E. rewrite Htd in Et. apply (tr_parent _ _ HT) in Et as (_ & _ & ?). congruence. }
  destruct (decide (np = op)) as [->|Hne].
  - apply connected_entries; [done|]. intros p n d Hd Hdd.
    assert (is_dir (v_rows v0) p) as Hp.
    { rewrite ED in Hd. repeat case_bool_decide; simplify_eq; [|by apply (tr_parent _ _ HT) in Hd as (? & _)].
      by apply (tr_parent _ _ HT) in Hod as (? & _). }
    apply (rooted_mono root (v_rows v0)); [|by apply HC]. intros q m e He Hedir.
    assert (t = None) as Hnone by (destruct t as [td|]; [|done]; by destruct (Htgt _ eq_refl) as (_ & _ & ?)).
    destruct (decide (de_Ino e = de_Ino od)) as [E|E].
    + assert ((q, m) = (op, on)) as Ek by (by apply (tree_one_entry root (v_rows v0) (q, m) (op, on) e od)). injection Ek as -> ->. exists nn. right. exists d'. split_and!; congruence.
    + exists m. left. apply Hkeep; [done|done|]. intros td Htd. congruence.
  - specialize (Hav Hne).
    assert (forall i, avoids (de_Ino od) root (v_rows v0) i -> (forall td, t = Some td -> i <> de_Ino td) -> rooted root R' i) as L1.
    { induction 1 as [|p n d _ IH Hd Hdd Hc]; intros Hi; [constructor|]. econstructor; [apply IH; by eapply Hpt|by apply Hkeep|done]. }
    assert (rooted root R' (de_Ino od)) as Hc'.
    { rewrite <- Eino. econstructor; [|exact Hnew|done]. by apply L1. }
    assert (forall i, below (de_Ino od) (v_rows v0) i -> (forall td, t = Some td -> i <> de_Ino td) -> rooted root R' i) as L2.
    { induction 1 as [|p n d _ IH Hd Hdd Hc]; intros Hi; [done|]. econstructor; [apply IH; by eapply Hpt|by apply Hkeep|done]. }
    apply connected_entries; [done|]. intros p n d Hd Hdd. rewrite ED in Hd.
    case_bool_decide as E1; [injection E1 as -> ->; by apply L1|].
    case_bool_decide as E2; [done|]. destruct (rooted_split (de_Ino od) root (v_rows v0) p) as [Ha|Hb].
    + apply HC. by apply (tr_parent _ _ HT) in Hd as (? & _).
    + apply L1; [done|]. by eapply Hpt.
    + apply L2; [done|]. by eapply Hpt.
Qed.

Lemma rename_connected now op on np nn cs :
  root = rootInodeID v0 -> ~ is_dir (v_rows v0) 0 ->
  rename_changes v0 now (norm v0 op) on (norm v0 np) nn v cs -> call_fits (CRename now op on np nn) v0 ->
  tree root (ApplyChanges (v_rows v0) cs) ->
  (forall od, r_dirents (v_rows v0) !! (norm v0 op, on) = Some od -> de_IsDir od = true) ->
  (norm v0 np <> norm v0 op -> remembers (v_rows v0) (v_dirParents v0)) ->
  connected root (ApplyChanges (v_rows v0) cs).
Proof.
  intros Hroot H0 Hcs [_ Hfit] HT' Hdir Hrem. set (o := norm v0 op) in *. set (q := norm v0 np) in *.
  destruct Hcs as (od & cr & opr & npr & tgt & Hod & Hcr & Hop & Hnp & Hnd & _ & _ & _ & Ht & Hwalk & _ & _ & ->). cbn zeta in HT' |- *.
  specialize (Hdir _ Hod). assert (i_IsDir cr = true) as Hcd by (destruct (tr_child _ _ HT _ _ _ Hod) as (r & Hr & Er); congruence).
  assert (i_Ino cr = de_Ino od) as Hic by (by apply HT). destruct (tr_parent _ _ HT _ _ _ Hod) as (_ & Hcroot & _).
  eapply (moved_connected _ o on q nn od (mkDirEntry q nn (i_Ino cr) (i_IsDir cr) (i_Mode cr)) (fst <$> tgt)); try done.
  - destruct tgt as [[td tr]|]; cbn in Ht |- *; [apply Ht|done].
  - intros td Htd. destruct tgt as [[td' tr]|]; [|done]. injection Htd as <-. destruct Ht as (Htd & Htr & Hty & Hempty). destruct (Hfit _ _ Hod Htd) as [Hne Hsame].
    split_and!; [intros n; by apply no_entries, Hempty|congruence|]. apply Hsame.
    destruct (tr_child _ _ HT _ _ _ Htd) as (r & Hr & Er). congruence.
  - intros k. apply (rename_dirents now o on q nn od cr tgt); [done| |done]. apply Forall_cons. split; [done|]. apply Forall_cons. split; [done|].
    destruct (q =? o); each; done.
  - intros Hne. destruct (Hwalk Hcd Hne) as (d & Hext & Hw). rewrite <- Hroot, Hic in Hw.
    eapply walk_avoids; [done|eapply remembers_ext; [done|by apply Hrem|done]|done|done| |exact Hw]. apply HC. by exists npr.
Qed.
End calls.

(** ** Runs *)

(** What the move of a directory needs to know. *)
Definition step_remembers (s : VStep) (v : Volume) : Prop :=
  match s with
  | VCall (CRename _ op on np nn) _ =>
      forall od, r_dirents (v_rows v) !! (norm v op, on) = Some od -> de_IsDir od = true -> norm v np <> norm v op ->
        remembers (v_rows v) (v_dirParents v)
  | _ => True
  end.

Fixpoint steps_remember (l : list VStep) (v : Volume) : Prop :=
  match l with [] => True | s :: l => step_remembers s v /\ steps_remember l (snd (do_step s v)) end.

Lemma no_dir_zero v : vol_ok v -> ~ is_dir (v_rows v) 0.
Proof. intros Hv (r & Hr & _). destruct (ok_inos _ _ (vo_rows _ Hv) _ _ Hr). lia. Qed.

Lemma call_connected c v v1 cs :
  vol_ok v -> tree (rootInodeID v) (v_rows v) -> tree (rootInodeID v) (ApplyChanges (v_rows v) cs) ->
  call_changes c v v1 cs -> call_fits c v -> step_remembers (VCall c []) v ->
  connected (rootInodeID v) (v_rows v) -> connected (rootInodeID v) (ApplyChanges (v_rows v) cs).
Proof.
  intros Hv HT HT' Hcs Hf Hrem HC.
  destruct c; try (by eapply connected_safe; [done|done|by eapply (call_safe v v1)|done]).
  - by eapply (rmdir_connected v v1).
  - destruct (r_dirents (v_rows v) !! (norm v oldParent, oldName)) as [od|] eqn:Hod; cycle 1.
    { destruct Hcs as (od & cr & opr & npr & tgt & Hod' & _). congruence. }
    destruct (de_IsDir od) eqn:Hdir.
    + eapply (rename_connected v v1); try done; [by apply no_dir_zero|intros; congruence|]. intros Hne. by eapply Hrem.
    + eapply connected_safe; [done|done| |done]. eapply (call_safe v v1); [done|exact Hcs|]. intros od' Hod'. congruence.
Qed.

Lemma load_connected i now h v env :
  vol_ok v -> rootInodeID v = 1 -> tree 1 (v_rows v) -> connected 1 (v_rows v) ->
  connected 1 (v_rows (snd (do_step (VLoad i now h env) v))).
Proof.
  intros Hv Hroot HT HC. pose proof (load_tree i now h v env Hv Hroot HT) as [HT' _]. cbn [do_step] in *.
  unfold loadFromBackendMetadataLocked in *. set (v1 := if i then _ else _) in *.
  assert (v_rows v1 = v_rows v) as E1.
  { subst v1. destruct i; [done|]. destruct (tr_root _ _ HT) as (r & Hr & _). unfold init_root. cbn. by rewrite Hr. }
  assert (let '(r, w) := run cleanOrphanInodesLocked v1 env in
    v_rows w = v_rows v \/ v_rows w = ApplyChanges (v_rows v) (orphans (v_rows v) ≫= orphan_deletes (v_rows v))) as HH.
  { apply wp_run. eapply wp_mono; [apply (wp_clean v1 ltac:(rewrite E1; apply Hv) True)|].
    intros r s [_ [[[-> _] _]|(d & st & q & e & -> & _)]]; cbn; rewrite ?E1; auto. }
  destruct (run cleanOrphanInodesLocked v1 env) as [r w].
  assert (forall w', v_rows w' = v_rows w -> tree 1 (v_rows w') -> connected 1 (v_rows w')) as Hw.
  { intros w' -> HTw. destruct HH as [E|E]; rewrite E in *; [done|]. eapply connected_safe; [done|done| |done].
    by eapply (call_safe v v 1 HT CCleanOrphans). }
  destruct r as [|[]]; by apply Hw.
Qed.

Lemma run_connected l : forall v n,
  vol_ok v -> v_nextInode v <= n -> Forall (replayed_below n) l -> n + DefaultInodeStride * Z.of_nat (length l) < 2 ^ 64 ->
  rootInodeID v = 1 -> steps_fit l v -> steps_remember l v -> tree 1 (v_rows v) -> connected 1 (v_rows v) ->
  connected 1 (v_rows (snd (run_steps l v))).
Proof.
  induction l as [|s l IH]; intros v n Hv Hn Hl Hb Hroot Hfit Hrem HT HC; cbn [run_steps length steps_fit steps_remember] in *; [done|].
  destruct Hfit as [Hf Hfit], Hrem as [Hr Hrem]. inversion_clear Hl as [|? ? Hs Hl'].
  pose proof (step_ok s v n Hv Hn Hs ltac:(unfold DefaultInodeStride in *; lia)) as H1.
  assert (tree 1 (v_rows (snd (do_step s v))) /\ v_cfg (snd (do_step s v)) = v_cfg v /\ connected 1 (v_rows (snd (do_step s v)))) as (HT1 & Hc1 & HC1).
  { destruct s as [c env|i now h env]; cycle 1.
    { destruct (load_tree i now h v env Hv Hroot HT). split_and!; [done|done|by apply load_connected]. }
    cbn [do_step] in *.
    assert (let '(r, w) := run (do_call c) v env in effect c v r w) as He by (apply wp_run, call_effect; apply Hv).
    destruct (run (do_call c) v env) as [r w]. rewrite <- Hroot in HT, HC |- *.
    destruct (effect_tree c v r w Hv) as [HT' Hc']; try done; [unfold DefaultInodeStride in *; lia|]. cbn [snd].
    unfold rootInodeID in HT'. rewrite Hc' in HT'. fold (rootInodeID v) in HT'. split_and!; [done|done|].
    destruct He as (_ & h & Hh & [(_ & ER & _)|(v1 & cs & (Ec & ER & _) & HCs & (d & st & q & e & -> & _))]); [by rewrite ER|].
    cbn in HT' |- *. rewrite ER in *. apply (call_connected c (set_handles h v) v1); try done.
    destruct Hv. by split. }
  destruct (do_step s v) as [r v1]. cbn [snd] in *. destruct H1 as (V1 & N1 & _ & _).
  specialize (IH v1 (n + DefaultInodeStride) V1 N1). destruct (run_steps l v1) as [rs w]. cbn [snd] in *. apply IH; try done.
  - eapply Forall_impl; [exact Hl'|]. intros [] Hr'; [done|]. cbn in *. unfold DefaultInodeStride. lia.
  - unfold DefaultInodeStride in *. lia.
  - unfold rootInodeID in *. by rewrite Hc1.
Qed.

(** C17: every directory stays reachable from the root.  In every run of calls and
    loads in which each move of a directory finds the parents of all directories
    remembered, the tree has no cycle and no lost directory. *)
Theorem directories_stay_reachable v n l :
  vol_ok v -> v_nextInode v <= n -> Forall (replayed_below n) l -> n + DefaultInodeStride * Z.of_nat (length l) < 2 ^ 64 ->
  rootInodeID v = 1 -> steps_fit l v -> steps_remember l v -> tree 1 (v_rows v) -> connected 1 (v_rows v) ->
  connected 1 (v_rows (snd (run_steps l v))).
Proof. apply run_connected. Qed.

Lemma remembers_check R dp :
  map_Forall (fun k d => de_IsDir d = true -> dp !! de_Ino d = Some (fst k)) (r_dirents R) -> remembers R dp.
Proof. intros H p n d Hd. apply (H _ _ Hd). Qed.

Lemma fresh_connected : connected 1 (v_rows fresh_volume).
Proof.
  apply connected_entries; [apply fresh_tree|]. intros p n d Hd.
  assert (r_dirents (v_rows fresh_volume) = ∅) as E by (vm_compute; reflexivity). by rewrite E, lookup_empty in Hd.
Qed.

Lemma tree_run_remembers : steps_remember tree_run fresh_volume.
Proof.
  cbn [tree_run steps_remember step_remembers]. split_and!; try exact I.
  - intros od Hod Hdir. vm_compute in Hod. injection Hod as <-. discriminate Hdir.
  - intros _ _ _ _. apply remembers_check, (bool_decide_unpack _). vm_compute. exact I.
Qed.

Lemma directories_stay_reachable_witness :
  let w := snd (run_steps tree_run fresh_volume) in connected 1 (v_rows w) /\ is_dir (v_rows w) 16.
Proof.
  split; [|eexists; split; vm_compute; reflexivity].
  apply (directories_stay_reachable fresh_volume 100 tree_run);
    [apply fresh_ok|done|apply tree_run_replayed|done|done|apply tree_run_fits|apply tree_run_remembers|apply fresh_tree|apply fresh_connected].
Defined.

Lemma cycle_check_decides_witness :
  let w := snd (run_steps (take 2 tree_run) fresh_volume) in
  exists ok, ancestor_walk (S (size (v_dirParents w))) (v_dirParents w) 1 8 16 = Some ok /\ (if ok then avoids 8 1 (v_rows w) 16 else below 8 (v_rows w) 16).
Proof.
  cbn zeta. set (w := snd (run_steps (take 2 tree_run) fresh_volume)).
  assert (tree 1 (v_rows w)) as HT.
  { apply (run_tree (take 2 tree_run) fresh_volume 100);
      [apply fresh_ok|done|repeat constructor|done|done|repeat split; vm_compute; reflexivity|apply fresh_tree]. }
  assert (connected 1 (v_rows w)) as HC.
  { apply (run_connected (take 2 tree_run) fresh_volume 100);
      [apply fresh_ok|done|repeat constructor|done|done|repeat split; vm_compute; reflexivity|repeat split|apply fresh_tree|apply fresh_connected]. }
  apply (cycle_check_decides 1 (v_rows w) (v_dirParents w) 8 16); [exact HT|exact HC| | |done|done|].
  - apply remembers_check, (bool_decide_unpack _). vm_compute. exact I.
  - intros (r & Hr & _). vm_compute in Hr. done.
  - eexists. split; vm_compute; reflexivity.
Defined.
