(* ===== verification/VolFaults.v ===== *)
(** * VolFaults: where the tree of a volume breaks

    Runs in which the conditions of [link_counts_kept] and
    [directories_stay_reachable] fail, and what they leave behind. *)

From S2P Require Import Prelude Bytes Sha256 VolRows VolStaging VolNamespace VolLogic VolOps VolCalls VolChanges VolRuns VolTree VolRooted.

#[local] Open Scope Z_scope.
#[local] Open Scope list_scope.

Definition after (l : list VStep) : Volume := snd (run_steps l fresh_volume).
Definition answers (l : list VStep) : list (result verr ()) := fst (run_steps l fresh_volume).

(** ** A directory below itself *)

(** [/a/b/c], and after a load the move of [/a] into [/a/b/c]. *)
Definition cycle_run : list VStep :=
  [VCall (CMkdir 2 1 (go "a") 0 0 0) [];
   VCall (CMkdir 3 8 (go "b") 0 0 0) [];
   VCall (CMkdir 4 16 (go "c") 0 0 0) [];
   VLoad true 5 0 [];
   VCall (CRename 6 1 (go "a") 24 (go "x")) []].

(** The move of a new directory into [/a/b/c], once [/a/b] has been looked at. *)
Definition cycle_next : list VStep :=
  [VCall (CGetAttr 16) []; VCall (CMkdir 7 1 (go "z") 0 0 0) []; VCall (CRename 8 1 (go "z") 24 (go "z")) []].

Lemma cycle_unreachable i : rooted 1 (v_rows (after cycle_run)) i -> i = 1.
Proof.
  assert (map_Forall (fun k _ => fst k <> 1) (r_dirents (v_rows (after cycle_run)))) as H.
  { apply (bool_decide_unpack _). vm_compute. exact I. }
  induction 1 as [|p n d _ IH Hd _]; [done|]. subst p. by destruct (H _ _ Hd).
Qed.

(** C40: after a load a directory can be moved below itself.  The cycle check of
    [Rename] walks the parents the volume remembers, which a load forgets and which
    come back only as the rows are read: the move succeeds, the directory is no
    longer reachable, and a later move whose walk enters the cycle does not end. *)
Theorem rename_after_load_makes_a_cycle :
  answers cycle_run = [Ok (); Ok (); Ok (); Ok (); Ok ()] /\
  is_dir (v_rows (after cycle_run)) 8 /\ ~ rooted 1 (v_rows (after cycle_run)) 8 /\
  below 8 (v_rows (after cycle_run)) 24 /\
  last (answers (cycle_run ++ cycle_next)) = Some (Err Diverge).
Proof.
  split_and!; [vm_compute; reflexivity| | | |vm_compute; reflexivity].
  - eexists. split; vm_compute; reflexivity.
  - intros H. by apply cycle_unreachable in H.
  - set (R := v_rows (after cycle_run)).
    assert (exists d, r_dirents R !! (8, go "b") = Some d /\ de_IsDir d = true /\ de_Ino d = 16) as (d & Hd & Hdir & E).
    { eexists. split_and!; vm_compute; reflexivity. }
    assert (exists d, r_dirents R !! (16, go "c") = Some d /\ de_IsDir d = true /\ de_Ino d = 24) as (d' & Hd' & Hdir' & E').
    { eexists. split_and!; vm_compute; reflexivity. }
    rewrite <- E'. eapply below_down; [|exact Hd'|done|by rewrite E']. rewrite <- E. eapply below_down; [constructor|exact Hd|done|by rewrite E].
Qed.

(** ** Renames whose target is the source *)

(** A rename of a file to its own name. *)
Definition self_run : list VStep :=
  [VCall (CCreateFile 2 1 (go "f") 0 (go "hello") 0 0 0) [];
   VCall (CRename 3 1 (go "f") 1 (go "f")) []].

(** A rename of a file to its own name removes its content.  The call
    succeeds, the entry and the row with its size stay, and the chunk rows are
    gone. *)
Theorem rename_to_itself_loses_content :
  answers self_run = [Ok (); Ok ()] /\
  (i_Size <$> r_inodes (v_rows (after self_run)) !! 8) = Some 5 /\
  (size (r_chunks (v_rows (after (take 1 self_run)))), size (r_chunks (v_rows (after self_run)))) = (1%nat, 0%nat).
Proof. split_and!; vm_compute; reflexivity. Qed.

(** A rename to another name of the same file. *)
Definition alias_run : list VStep :=
  [VCall (CCreateFile 2 1 (go "f") 0 (go "hello") 0 0 0) [];
   VCall (CLink 3 8 1 (go "g")) [];
   VCall (CRename 4 1 (go "f") 1 (go "g")) []].

Lemma alias_link_count :
  answers alias_run = [Ok (); Ok (); Ok ()] /\
  (i_Nlink <$> r_inodes (v_rows (after alias_run)) !! 8) = Some 2 /\ links (v_rows (after alias_run)) 8 = 1.
Proof. split_and!; vm_compute; reflexivity. Qed.

(** ** Link counts *)

(** An empty directory replaced within its parent: the count of the parent is
    lowered in a copy of the row that is not written. *)
Definition sibling_run : list VStep :=
  [VCall (CMkdir 2 1 (go "a") 0 0 0) [];
   VCall (CMkdir 3 1 (go "b") 0 0 0) [];
   VCall (CRename 4 1 (go "a") 1 (go "b")) []].

(** A file that is open but has no name gets one. *)
Definition relink_run : list VStep :=
  [VCall (CCreateFile 2 1 (go "f") 0 (go "hello") 0 0 0) [];
   VCall (COpen 8) [];
   VCall (CUnlink 3 1 (go "f")) [];
   VCall (CLink 4 8 1 (go "g")) []].

(** Two calls leave a link count one too high.  A rename that replaces an
    empty directory within one parent leaves the parent counting both, and a link
    to a file that is open but has no name counts two names. *)
Theorem link_counts_left_too_high :
  (answers sibling_run = [Ok (); Ok (); Ok ()] /\
   (i_Nlink <$> r_inodes (v_rows (after sibling_run)) !! 1) = Some 4 /\ subdirs (v_rows (after sibling_run)) 1 = 1) /\
  (answers relink_run = [Ok (); Ok (); Ok (); Ok ()] /\
   (i_Nlink <$> r_inodes (v_rows (after relink_run)) !! 8) = Some 2 /\ links (v_rows (after relink_run)) 8 = 1).
Proof. split_and!; vm_compute; reflexivity. Qed.

(** ** Extended attributes of replaced files *)

Definition replaced_run : list VStep :=
  [VCall (CCreateFile 2 1 (go "f") 0 (go "new") 0 0 0) [];
   VCall (CCreateFile 3 1 (go "g") 0 (go "old") 0 0 0) [];
   VCall (CSetXAttr 4 16 (go "user.k") (go "v") FLAGS_NONE) [];
   VCall (CRename 5 1 (go "f") 1 (go "g")) []].

Lemma replaced_attributes_stay :
  answers replaced_run = [Ok (); Ok (); Ok (); Ok ()] /\
  r_inodes (v_rows (after replaced_run)) !! 16 = None /\
  is_Some (r_xattrs (v_rows (after replaced_run)) !! (16, go "user.k")).
Proof. split_and!; [vm_compute; reflexivity|vm_compute; reflexivity|]. eexists. vm_compute. reflexivity. Qed.

(** ** A failed rename *)

(** [/a/c] and [/b]; the move of [/a] into [/b] fails at its commit, and then the
    move of [/b] into [/a/c], which is no cycle, is refused. *)
Definition failed_move : list VStep :=
  [VCall (CMkdir 2 1 (go "a") 0 0 0) [];
   VCall (CMkdir 3 8 (go "c") 0 0 0) [];
   VCall (CMkdir 4 1 (go "b") 0 0 0) [];
   VCall (CRename 5 1 (go "a") 24 (go "a")) (replicate 10 (Fine 0) ++ [Fails]);
   VCall (CRename 6 1 (go "b") 16 (go "b")) []].

Lemma failed_move_refuses :
  answers failed_move = [Ok (); Ok (); Ok (); Err Failure; Err (Errno EINVAL)] /\
  v_rows (after (take 4 failed_move)) = v_rows (after (take 3 failed_move)).
Proof. split; vm_compute; reflexivity. Qed.

(** ** An unlink and a rename at once *)

(** [Unlink] of [/f] has found inode 8, which also has the name [/h], when [/g]
    is renamed to [/f]. *)
Definition before_unlink : list VStep :=
  [VCall (CCreateFile 2 1 (go "f") 0 (go "one") 0 0 0) [];
   VCall (CLink 3 8 1 (go "h")) [];
   VCall (CCreateFile 4 1 (go "g") 0 (go "two") 0 0 0) []].
Definition found : result verr Z * Volume := run (Unlink_find 1 (go "f")) (after before_unlink) [].
Definition renamed : result verr EntryAttr * Volume := run (Rename 5 1 (go "g") 1 (go "f")) (snd found) [].
Definition removed : result verr Z * Volume := run (Unlink_remove 6 1 (go "f") 8) (snd renamed) [].

(** The entry that is removed is that of the renamed file, which keeps a link
    count of one and has no name; the inode that was found loses its last link
    although it still has the name [/h]. *)
Lemma unlink_removes_renamed_file :
  fst found = Ok 8 /\ is_ok (fst removed) = true /\
  ((i_Nlink <$> r_inodes (v_rows (snd removed)) !! 16) = Some 1 /\ links (v_rows (snd removed)) 16 = 0) /\
  (r_inodes (v_rows (snd removed)) !! 8 = None /\ links (v_rows (snd removed)) 8 = 1).
Proof. split_and!; vm_compute; reflexivity. Qed.
